(* ===== verification/_CoqProject ===== *)
-Q . S2P
Prelude.v
Mspace.v
MspaceSpec.v
ProxyChannel.v
ProxyDevice.v
Rma.v
ProxyHost.v
ProxyRing.v
ProxyProtocol.v
ProxyRoundtrip.v
ProxyQuiet.v
BufCache.v
TransportCommon.v
Recexch.v
TeamBits.v
Team.v
TeamPsync.v
TeamPool.v
TeamPoolSpec.v
TeamOverlap.v
TeamSplit.v
HeapState.v
Heap.v
HeapAlloc.v
HeapSpec.v
HeapSetup.v
HeapGrow.v
HeapMmap.v
HeapNvls.v
HeapLimits.v
HeapTerm.v
HeapRma.v
Barrier.v
BarrierProtocol.v
BarrierProgress.v
BarrierDissem.v
IbgdaQueue.v
IbgdaProtocol.v
IbgdaLive.v
IbgdaQp.v
IbgdaQpSpec.v
IbgdaHost.v
IbgdaHostSpec.v
IbgdaWqe.v
IbgdaNic.v
IbgdaWqeSpec.v
IbgdaAmo.v
IbgdaWarp.v
IbgdaKeys.v
IbgdaKeysSpec.v
IbgdaRma.v
IbgdaRmaSpec.v
IbgdaWarpSync.v
IbgdaRing.v
CollMem.v
CollPhase.v
CollReduce.v
CollReduceSpec.v
CollAllreduce.v
CollScatter.v
CollTeam.v
CollTeamSpec.v
CollDefects.v
CollPush.v
CollBcast.v
CollFcollect.v
CollRecexch.v
CollRecexchSpec.v
CollRecexchTeam.v
Libfabric.v
LibfabricOps.v
LibfabricNet.v
LibfabricInv.v
LibfabricCont.v
LibfabricStep.v
LibfabricCq.v
LibfabricRun.v
LibfabricQuiet.v
LibfabricAmo.v
LibfabricMem.v
