(* ===== verification/Prelude.v ===== *)
(** * NVSHMEM: a verification development

    NVSHMEM gives the GPUs of a job one-sided access to each other's memory.
    Every process (a PE) owns one GPU and a symmetric heap of equal size; device
    code puts, gets and signals into other PEs' heaps, directly where the
    hardware maps them and otherwise through a proxy thread of the host that
    drives a network transport; PEs are grouped into teams, which own the
    synchronisation memory of the collectives.  This development models the
    core of that machinery as executable definitions and proves what
    makes it correct.  The repository's own sources are under src/src/.

    ** How the parts fit together

    The symmetric heap reserves an address range with one window per mapped
    peer, backs it with physical memory on demand, registers that memory with
    the transports and gathers the memory handles of all PEs; the heap allocator
    hands out ranges of it, and user buffers are mapped at its top.  A device thread
    that cannot reach a peer directly writes a request into the proxy channel, a
    ring of 64-bit entries in host memory, after claiming a range of the ring
    with an atomic add; the host proxy polls the ring, decodes the request,
    looks up the memory handles of both sides (the local one in the cache of
    registered buffers when the address is not in the heap), cuts the transfer
    into chunks and calls the transport.  Quiet and consistency requests travel
    through counters beside the ring.  Teams are created collectively: every PE
    keeps a pool of teams and a bit array of free indices, and the members agree
    on an index by an AND reduction.

    With the IBGDA transport device threads drive the network card themselves.
    The host creates queue pairs for all PEs, connects them, registers memory
    and publishes tables of queue pairs and memory keys to the GPU.  A device
    thread (or a warp together) chooses a queue pair for the PE, looks up the
    keys, cuts the transfer where a registration ends, reserves slots of the
    send queue, writes the work requests, publishes them in order and rings the
    doorbell, itself or through a progress thread of the host; quiet polls the
    completion counter of every queue pair that may hold work.

    The libfabric transport runs over fabrics that deliver in any order and, on
    EFA, without atomics.  A put-with-signal takes a sequence number, posts its
    writes with the number as immediate data, and sends the signal in a message
    with the number of writes; the target counts arrivals per number, applies
    the signal when all are there, and acknowledges with a write of its own,
    which frees the number.  Atomics are messages the target's host applies.
    Quiet compares the operations submitted with the local completions and the
    acknowledgements.

    The collectives on the device are built from puts, signals and barriers over
    the team's synchronisation memory: each call counts, the count selects one
    of two work spaces, and the program of a call moves contributions into the
    work spaces of the other PEs and reduces what arrived.  Small broadcasts and
    gathers need no barrier: every 64-bit word carries 32 bits of data and the
    flag of its call, and a receiver waits for the flag in each word.

    ** Files

    - [Prelude]: notation, [outcome] (a value or a [fault]), fixed-width
      arithmetic ([wrap], [u64], [s32]), bit fields of a word ([field]), status
      codes, tactics and the hint databases.
    - [Mspace], [MspaceSpec]: class [mspace] of src/src/host/mem/custom_malloc.cpp,
      state [mspace] (the three maps and [total_size]), one definition per
      method.  The invariant [wf]: chunks are aligned, disjoint, non-empty and
      coalesced, the end map mirrors the start map, [total_size] is the sum.
      Theorems: functional behaviour of [allocate], [deallocate],
      [allocate_aligned] and [reallocate] (all branches but growth in place with
      a rest, which is a defect), the constructor, the round trip, the invariant
      over sequences of calls other than [reallocate], and two defects.
    - [ProxyChannel], [ProxyDevice]: constants, operation codes and packed
      request structs, and the request writers of
      src/src/include/non_abi/device/pt-to-pt/proxy_device.cuh.  A device call is an
      [issued] value: the bytes it claims and the stores it makes.
    - [Rma]: handle lookup, address translation and the chunk loop of
      src/src/include/internal/host/nvshmem_internal.h and util.h.  The class
      [mem_handles] is the interface to the two sources of handles (symmetric
      heap, registered buffers); transport calls are events of a trace.
      Theorem: the chunks tile the request.
    - [ProxyHost]: src/src/host/proxy/proxy.cpp: channels, connections, the seven
      request handlers, quiet and consistency, and one round of [progress].
    - [ProxyRing]: the class [ring_producer], what the consumer needs of every
      writer, with an instance per writer, and what each handler consumes.
    - [ProxyProtocol]: device threads and host as a step relation over one ring;
      an invariant by rule induction gives FIFO order and integrity under every
      interleaving, and that neither side blocks the other.
    - [ProxyRoundtrip]: encode on the device, decode on the host: put, get, put
      with signal, inline put, atomics, queue-pair quiet; the queue-pair fence
      is decoded to another PE than the one encoded.
    - [ProxyQuiet]: safety and progress of the quiet state machine.
    - [BufCache]: the cache of registered buffers of src/src/host/mem/mem.cpp; the
      invariant [wf] (sorted, disjoint, linked runs closed, room left);
      correctness of the binary search, of registration and of release.
    - [TransportCommon]: src/src/modules/transport/common/transport_common.cpp: the
      handle cache by heap granule, put-with-signal, the HCA list parser.
    - [Recexch]: [nvshmemi_recexchalgo_get_neighbors] of
      src/src/host/team/team_internal.cpp: both sides of the schedule agree, and a
      reduction that follows it adds every contribution exactly once.
    - [TeamBits], [Team], [TeamPsync]: bit arrays, the team record and its PE
      map, translation, subset and stride, and the layout of the
      synchronisation memory (no two areas overlap).
    - [TeamPool]: the pool operations of team_internal.cpp: allocation, choice
      of an index (both versions), internal teams, strided, non-strided and 2D
      splits, creation from a unique id, destruction, finalisation.
    - [TeamPoolSpec], [TeamOverlap], [TeamSplit]: the invariant [pool_ok] and
      the theorems on choosing, agreeing on and releasing indices, on 2D splits,
      on the internal teams and on the strided split, with the calls whose
      result is not what their error paths intend.
    - [HeapState], [Heap], [HeapAlloc], [HeapNvls]: the three symmetric-heap
      classes of src/src/host/mem/mem_heap.cpp with nvshmemi_symmetric_heap.hpp and
      mem_transport.cpp: state [heap] (geometry, handle tables, the two
      allocators, user buffers, peers), the monad [H] (state, faults, a log of
      the calls made), reservation, setup, registration, growth, user buffers,
      teardown, handle lookup, the entry points [nvshmem_malloc] to
      [nvshmemi_ptr], and the multicast memory of teams.
    - [HeapSpec], [HeapSetup], [HeapGrow], [HeapMmap]: the invariants [heap_ok]
      (the allocator tiles the physical part, every granule of it is indexed to
      a row of handles gathered for the chunk around it) and [mmap_ok] (the same
      for user buffers at the top), established at start-up and kept by
      allocation, growth, release and the mapping of user buffers; windows of
      peers are disjoint; requests are served, growing the heap when needed;
      every byte has its handle.
    - [HeapTerm]: no call of the heap runs forever, for all arguments and all
      answers of CUDA, bootstrap and transports, failures included.
    - [HeapLimits]: runs outside the hypotheses of these theorems.
    - [HeapRma]: heap and buffer cache as the instance of [Rma]'s [mem_handles]:
      a put refines the abstract copy of a range.
    - [Barrier], [BarrierProtocol], [BarrierProgress], [BarrierDissem]: the device
      barrier of src/src/include/non_abi/device/coll/barrier.cuh: the schedule every
      routine computes, the protocol of all PEs with signals in flight as an
      event system, its invariant against the class [dissemination], which the
      schedules are shown to satisfy.  Theorems: no PE leaves before all have
      entered, no deadlock, and the radices for which this fails.
    - [IbgdaQueue], [IbgdaProtocol], [IbgdaLive]: one send queue of
      src/src/include/non_abi/device/pt-to-pt/ibgda_device.cuh, with all its threads,
      the progress thread of the host (modules/transport/ibgda/ibgda.cpp) and
      the NIC as a step relation: requests reach the NIC in slot order and
      intact, quiet returns only when they are complete, no state is stuck; the
      16-bit completion counter is extended correctly.
    - [IbgdaQp], [IbgdaQpSpec]: the choice of a queue pair by thread and PE, and
      the queue pairs that quiet, fence and the consistency operation visit: all
      threads of the scope together visit each one exactly once; a DCI that is
      not flagged as shared is not shared; and where these fail.
    - [IbgdaHost], [IbgdaHostSpec]: option parsing, numbers of endpoints,
      creation and connection of the RC queue pairs of all PEs, the tables for
      the GPU and the posted state, of ibgda.cpp.  The queue pair the device
      chooses for a PE is connected to that PE's matching queue pair; options in
      their documented ranges give a state the device code is proved for.
    - [IbgdaWqe], [IbgdaNic], [IbgdaWqeSpec], [IbgdaAmo], [IbgdaWarp],
      [IbgdaRing]: the bytes of every work request; [IbgdaNic] is the NIC's
      reading of them, the specification the writers are proved against: each
      request, alone, in a group that wraps around the ring, or written by 32
      lanes in any order, decodes to the operation asked for, and an atomic
      request has the effect of the library's operation.
    - [IbgdaKeys], [IbgdaKeysSpec]: registration, release and lookup of memory
      keys on both sides: every address of the heap finds the key of its
      registration; the linked list of other buffers in GPU memory refines the
      list of registered buffers.
    - [IbgdaRma], [IbgdaRmaSpec]: the chunk loops, the requests each operation
      posts (combined scalar puts and gets included) and the queue pairs its
      lanes use: chunks tile the transfer, groups fill the slots they reserve and
      end with a completion, each lane's request goes to the PE it names.
    - [IbgdaWarpSync]: the lanes of a warp under every schedule, for transfers of
      several rounds, of the warp as a whole, scalar and atomic operations: no
      request is submitted before all are written, no result is read and no
      blocking operation returns before its wait.
    - [CollMem], [CollPhase]: what happens between two barriers of a device
      collective: the steps of all threads of all PEs and the elements of all
      puts in any order, and what a location then holds.
    - [CollReduce], [CollReduceSpec], [CollAllreduce]: reductions of
      src/src/include/non_abi/device/coll/reduce.cuh and reducescatter.cuh as
      programs of puts, reductions and barriers: all-reduce by segments leaves
      the reduction over the team on every PE.
    - [CollScatter], [CollTeam], [CollTeamSpec]: the entry functions, choice of
      algorithm, work space and counters; any sequence of reduce-scatter calls
      is correct although one call overlaps the next.
    - [CollRecexch], [CollRecexchSpec], [CollRecexchTeam]: reduction by recursive
      exchange, which has no barrier: PEs, puts and signals as a step relation,
      its invariant against the class [pairing], progress, termination and the
      result, with the schedule of [Recexch] as the instance.
    - [CollPush]: broadcast, fcollect and all-to-all by puts
      (device/coll/broadcast.cuh, fcollect.cuh, alltoall.cuh) and the choice of
      the algorithm, with the offsets of the blocks in an [int] as the code has
      them; every execution leaves the promised data while they do not wrap.
    - [CollBcast]: broadcast along a tree with flags in the data, for any sequence
      of calls: PEs and the words of their puts as a step relation, its
      invariant, no deadlock, termination.
    - [CollFcollect]: fcollect with flags in the data: how warps and lanes share
      the work (a permutation of everything there is to do), then any sequence of
      calls, with the two halves of the work space in turn, as a step relation
      of threads: invariant, no deadlock, termination; the groups of warps for
      which a call never ends.
    - [CollDefects]: executions outside the hypotheses of these theorems.
    - [Libfabric], [LibfabricOps]: src/src/modules/transport/libfabric/libfabric.h
      and libfabric.cpp: sequence numbers, contexts and their queues, the
      handlers of completions, staged atomics and acknowledgements, posting of
      RMA, atomics and put-with-signal.  State [proc]: two endpoints, the
      queues, the contexts and memory.
    - [LibfabricNet], [LibfabricInv], [LibfabricCont], [LibfabricStep],
      [LibfabricCq]: the counter of sequence numbers against the list of numbers
      not acknowledged; any number of processes over an unordered fabric as a
      step relation on [world]; the accounting [cinv] of every operation, message
      and context by rule induction: a context is in one place, a number has one
      operation, the handlers do not fail.
    - [LibfabricRun], [LibfabricQuiet]: the log of events: a
      signal is applied once and after its data; quiet ends exactly when
      nothing is under way; runs of an interpreter of steps as witnesses, with
      consistency reads among them; the limits of the code: 2^16 writes of a put
      with signal, and the consistency read, whose completion has no context.
    - [LibfabricAmo]: the atomics of other providers, and that both kinds agree.
    - [LibfabricMem]: registration and release of memory: every address of a
      registered buffer is found by the atomics; two defects of error paths.

    ** Conventions

    Code that can end without returning yields an [outcome]: [FExit] for a call
    of [exit], [FAssert] for a failed assertion, [FUndef] for an access the
    language leaves undefined (an index out of range, a null or freed pointer),
    [FSpin] for a busy-wait the present memory does not let leave, [FThrow] for
    an exception nothing catches.  Integers are
    [Z] with the width written at each operation that can wrap; where a file
    works on unbounded integers its opening comment says why that is enough.

    What lies outside the sources, or is decided by hardware, is a parameter:
    the status of a transport call is a function of the trace ([Rma.env]), the
    answers of CUDA, of the C allocator and of the lock are fields of
    [BufCache.reg_env], what the other PEs contribute to a collective is an
    oracle of [TeamPool.Pool.tenv], and the answers of CUDA, bootstrap and
    transports to the heap are functions of the log in [HeapState.henv].  The
    segment layouts and opcodes of the vendor's header are the record
    [IbgdaWqe.mlx5dv] with [mlx5dv_ok], the NIC's execution of atomics is
    [exec] with [IbgdaAmo.nic_ok], the numbers the driver gives to queue pairs
    are [IbgdaHost.hw], and the outcomes of CUDA calls in the registration of
    memory are [IbgdaKeys.cuda].  The answers of libfabric, CUDA and GDRCopy to a
    registration are [LibfabricMem.reg_answers], what fi_atomic(3) says of
    atomics is [LibfabricAmo.fi_atomic_ok], and calls of libfabric that post are
    steps that succeed, after any number of retries.  Every theorem with such a hypothesis has a
    witness that instantiates it.

    ** Fuel

    Recursion that is not structural takes fuel, and running out is [FSpin], so
    a theorem that a call returns also shows the fuel suffices.  The chunk loops
    take the transfer size (every chunk has at least one byte); the binary
    search takes the number of entries plus one (the interval shrinks every
    round); the parser takes the length of the text; the loops of [Recexch] take
    the number of PEs (a power of [k >= 2] passes it sooner, and digits are
    fewer).  [destroy_fuel] is 3 and [resources_fuel] is 2: a team has internal
    teams, and these are created and destroyed without internal teams of their
    own.  The registration loops of the heap take one round per chunk of at most
    2 GiB ([chunk_fuel]), the loops over the peers the number of PEs, the
    teardown the number of mapped buffers; [HeapTerm] shows they all suffice.
    The phases of a barrier take the size of the team, which shrinks at least by
    half each time.  The chunk loops of [IbgdaRma] take the transfer size, the
    walk along the list of buffers in GPU memory one step more than the buffers
    there are, and the strided loops of quiet and fence their upper bound.  The
    rounds for the rest of a segmented reduction take the size of the team: each
    serves at least one PE.  The loops over granules of [LibfabricMem] take one
    round more than the buffer has full granules.

    ** Not modelled

    The transport plugins IBRC, IBDEVX and UCX and the bootstrap plugins; of
    libfabric the polling loops around the handlers, the set-up and
    connection of endpoints, and the threads of one process that poll at the
    same time; of IBGDA the creation of verbs and DEVX objects and its
    failures, DCT tables, error completions and the ring of buffers for
    fetched values; of the symmetric heap the creation and broadcast of
    multicast groups, the constructors and destructors of its helpers and
    the map of peer processes; [nvshmemi_team_init] and the NVLS and NCCL
    resources of teams; of the device collectives the tree broadcast with
    signals, the hierarchical broadcast, the all-to-all with signals, the
    fcollect with LL128 or across nodes, the multicast and tile variants,
    the hierarchical reductions and floating-point arithmetic; point-to-
    point code that goes through neither the proxy nor IBGDA; the blocking
    device get ([G]) and fetching atomics' wait for their result; topology
    detection, environment parsing, initialisation; the PowerPC and Arm
    branches of the proxy (the x86-64 branches are modelled); language
    bindings, examples, tests and performance tests. *)
From stdpp Require Import base gmap list strings sorting.
From Stdlib Require Import ZArith Lia.

#[global] Set Default Goal Selector "!".

(** ** Notation scope of the development *)
Declare Scope nv_scope.
Delimit Scope nv_scope with nv.
#[global] Open Scope Z_scope.
#[global] Open Scope nv_scope.

(** ** Faults and the outcome of a call

    A C++ function that returns gives [Ret]; [FExit] is a call of [exit],
    [FAssert] a failed [assert], [FUndef] an access the language leaves
    undefined (an out-of-range read, a call through a null pointer),
    [FSpin] a busy-wait that the state of the memory does not let leave, and
    [FThrow] an exception that nothing catches. *)
Inductive fault : Type :=
| FExit (code : Z)
| FAssert
| FUndef
| FSpin
| FThrow.

Inductive outcome (A : Type) : Type :=
| Ret (a : A)
| Fail (f : fault).
Arguments Ret {A} a.
Arguments Fail {A} f.

#[export] Instance fault_eq_dec : EqDecision fault.
Proof. solve_decision. Defined.

#[export] Instance outcome_ret : MRet outcome := fun A a => Ret a.
#[export] Instance outcome_bind : MBind outcome := fun A B k m =>
  match m with Ret a => k a | Fail f => Fail f end.

Lemma outcome_bind_ret {A B} (k : A -> outcome B) (a : A) :
  (Ret a ≫= k) = k a.
Proof. reflexivity. Qed.

Lemma outcome_bind_inv {A B} (k : A -> outcome B) (m : outcome A) (b : B) :
  (m ≫= k) = Ret b -> exists a, m = Ret a /\ k a = Ret b.
Proof. destruct m as [a|f]; simpl; [eauto | discriminate]. Qed.

(** [assert(c)] *)
Definition cassert (c : bool) : outcome unit := if c then Ret tt else Fail FAssert.

(** ** Machine words: a w-bit unsigned value is a [Z] in [0, 2^w) *)
Definition wrap (w x : Z) : Z := x mod 2 ^ w.
Abbreviation u8 := (wrap 8).
Abbreviation u16 := (wrap 16).
Abbreviation u32 := (wrap 32).
Abbreviation u64 := (wrap 64).
Definition SIZE_MAX : Z := 2 ^ 64 - 1.

Definition in_u (w x : Z) : Prop := 0 <= x < 2 ^ w.
Notation "x ∈u w" := (in_u w x) (at level 70, no associativity) : nv_scope.

#[export] Instance in_u_dec w x : Decision (in_u w x).
Proof. unfold in_u. apply _. Defined.

(** The sign-carrying [int] a 32-bit pattern stands for. *)
Definition s32 (x : Z) : Z := let y := wrap 32 x in if bool_decide (y < 2 ^ 31) then y else y - 2 ^ 32.

Lemma wrap_small w x : x ∈u w -> wrap w x = x.
Proof. intros H. by apply Z.mod_small. Qed.

Lemma wrap_in_u w x : 0 <= w -> wrap w x ∈u w.
Proof. intros. apply Z.mod_pos_bound, Z.pow_pos_nonneg; lia. Qed.

Lemma s32_small x : - 2 ^ 31 <= x < 2 ^ 31 -> s32 x = x.
Proof.
  intros H. unfold s32, wrap. destruct (decide (0 <= x)).
  - rewrite Z.mod_small by lia. rewrite bool_decide_true by lia. done.
  - replace (x mod 2 ^ 32) with (x + 2 ^ 32); cycle 1.
    { symmetry. rewrite <- (Z.mod_add x 1) by lia. rewrite Z.mul_1_l. apply Z.mod_small. lia. }
    rewrite bool_decide_false by lia. lia.
Qed.

Lemma wrap_wrap w x : wrap w (wrap w x) = wrap w x.
Proof. unfold wrap. by rewrite Zmod_mod. Qed.

(** ** Status codes (nvshmemx_error.h, [enum nvshmemx_status]) *)
Definition NVSHMEMX_SUCCESS : Z := 0.
Definition NVSHMEMX_ERROR_INVALID_VALUE : Z := 1.
Definition NVSHMEMX_ERROR_OUT_OF_MEMORY : Z := 2.
Definition NVSHMEMX_ERROR_NOT_SUPPORTED : Z := 3.
Definition NVSHMEMX_ERROR_SYMMETRY : Z := 4.
Definition NVSHMEMX_ERROR_INTERNAL : Z := 7.

(** ** Tactics *)
Ltac deex :=
  repeat match goal with
  | H : exists x, _ |- _ => let y := fresh x in destruct H as [y H]
  | H : _ /\ _ |- _ => destruct H
  end.

(** Turn the [bool_decide]s of a translated condition into propositions. *)
Ltac case_bool :=
  repeat match goal with
  | |- context [bool_decide ?P] => destruct (bool_decide_reflect P)
  | H : context [bool_decide ?P] |- _ => destruct (bool_decide_reflect P)
  end.

(** Peel a successful run of monadic code. *)
Ltac bind_inv H :=
  repeat (apply outcome_bind_inv in H as (? & ? & H)).

(** ** Hint databases *)
Create HintDb nv discriminated.
Create Rewrite HintDb nvrw.
#[export] Hint Resolve wrap_in_u : nv.
#[export] Hint Rewrite @outcome_bind_ret wrap_wrap : nvrw.

(** ** Shared facts on words *)
Lemma pow2_pos n : 0 <= n -> 0 < 2 ^ n.
Proof. intros. by apply Z.pow_pos_nonneg. Qed.

(** Masking with [~(2^k - 1)] on 64 bits rounds down to a multiple of [2^k]. *)
Lemma land_high_mask x k :
  0 <= k <= 64 -> x ∈u 64 ->
  Z.land x (Z.ldiff (Z.ones 64) (Z.ones k)) = x - x mod 2 ^ k.
Proof.
  intros Hk Hx.
  assert (Z.land x (Z.ldiff (Z.ones 64) (Z.ones k)) =
          Z.ldiff (Z.land x (Z.ones 64)) (Z.ones k)) as ->.
  { apply Z.bits_inj'; intros n Hn.
    rewrite !Z.land_spec, !Z.ldiff_spec, !Z.land_spec. by rewrite andb_assoc. }
  rewrite Z.land_ones by lia. rewrite (Z.mod_small x) by apply Hx.
  rewrite Z.ldiff_ones_r by lia.
  rewrite Z.shiftr_div_pow2, Z.shiftl_mul_pow2 by lia.
  pose proof (pow2_pos k ltac:(lia)).
  rewrite (Z.mod_eq x (2 ^ k)) by lia. lia.
Qed.

(** Masking with [2^k - 1] is reduction modulo [2^k]. *)
Lemma land_low_mask x k : 0 <= k -> Z.land x (2 ^ k - 1) = x mod 2 ^ k.
Proof.
  intros. rewrite <- Z.land_ones by lia. f_equal. rewrite Z.ones_equiv. lia.
Qed.

(** Equal residues of close numbers. *)
Lemma mod_eq_close m a b : 0 < m -> -m < a - b < m -> a mod m = b mod m -> a = b.
Proof.
  intros Hm Hab E. assert ((a - b) mod m = 0) as E0 by (rewrite Zminus_mod, E, Z.sub_diag; by apply Z.mod_0_l; lia).
  apply Z.mod_divide in E0 as [k Hk]; [|lia]. assert (k = 0) by nia. nia.
Qed.

(** A sum in which one term changes and no other grows. *)
Lemma sum_list_upd {A} (f f' : A -> nat) (l : list A) (a : A) : NoDup l -> a ∈ l ->
  (forall x, x ∈ l -> x <> a -> f' x <= f x)%nat -> (sum_list_with f' l + f a <= sum_list_with f l + f' a)%nat.
Proof.
  intros HN. induction HN as [|x l Hni HN IH]; intros Hin HE; [by apply elem_of_nil in Hin|]. cbn.
  apply elem_of_cons in Hin as [->|Hin].
  - assert (sum_list_with f' l <= sum_list_with f l)%nat; [|lia].
    assert (forall y, y ∈ l -> f' y <= f y)%nat as HE' by (intros y Hy; apply HE; [by right|by intros ->]).
    clear -HE'. induction l as [|y l IH]; [done|]. cbn. pose proof (HE' y ltac:(by left)).
    assert (sum_list_with f' l <= sum_list_with f l)%nat by (apply IH; intros z Hz; apply HE'; by right). lia.
  - pose proof (HE x ltac:(by left) ltac:(by intros ->)).
    pose proof (IH Hin ltac:(intros; apply HE; [by right|done])). lia.
Qed.

(** [l[i]] on an array of known contents; out of range is undefined. *)
Definition arr_get {A} (l : list A) (i : Z) : outcome A :=
  if bool_decide (i < 0) then Fail FUndef
  else match l !! Z.to_nat i with Some x => Ret x | None => Fail FUndef end.

(** [map_fold] of an additive measure over a finite map. *)
Definition map_sum (m : gmap Z Z) : Z := map_fold (fun _ s acc => s + acc) 0 m.

Lemma map_sum_empty : map_sum ∅ = 0.
Proof. reflexivity. Qed.

Lemma map_sum_insert m i x : m !! i = None -> map_sum (<[i:=x]> m) = x + map_sum m.
Proof.
  intros H. unfold map_sum. rewrite map_fold_insert_L; [done | | done].
  intros. lia.
Qed.

Lemma map_sum_delete m i x : m !! i = Some x -> map_sum (delete i m) = map_sum m - x.
Proof.
  intros H. rewrite <- (insert_delete_id m i x H) at 2.
  rewrite map_sum_insert by apply lookup_delete_eq. lia.
Qed.

Lemma map_sum_singleton i x : map_sum {[i:=x]} = x.
Proof. unfold map_sum. rewrite map_fold_singleton. lia. Qed.

Lemma map_sum_nonneg m : (forall i x, m !! i = Some x -> 0 <= x) -> 0 <= map_sum m.
Proof.
  induction m as [|i x m Hi IH] using map_ind; intros H.
  - done.
  - rewrite map_sum_insert by done.
    pose proof (H i x (lookup_insert_eq _ _ _)).
    assert (0 <= map_sum m); [|lia].
    apply IH. intros j y Hj. apply (H j).
    rewrite lookup_insert_ne; [done|]. intros ->. congruence.
Qed.

(** Equality of two finite maps built by inserts and deletes. *)
Ltac map_crush :=
  apply map_eq; intros ?k;
  repeat first [rewrite lookup_insert | rewrite lookup_delete];
  repeat case_decide; subst; try done; try congruence; try lia.

(** ** Bit fields of a word

    [field w off len] is the value of the [len]-bit field of [w] that starts at
    bit [off]: what a read through a packed little-endian struct gives. *)
Definition field (w off len : Z) : Z := (Z.shiftr w off) mod 2 ^ len.

Lemma field_testbit w off len i :
  0 <= off -> 0 <= len -> 0 <= i ->
  Z.testbit (field w off len) i = (bool_decide (i < len)) && Z.testbit w (off + i).
Proof.
  intros. unfold field. rewrite <- Z.land_ones by lia.
  rewrite Z.land_spec, Z.shiftr_spec by lia.
  case_bool_decide.
  - rewrite Z.ones_spec_low, andb_true_r by lia. cbn. f_equal. lia.
  - by rewrite Z.ones_spec_high, andb_false_r by lia.
Qed.

Lemma field_range w off len : 0 <= len -> 0 <= field w off len < 2 ^ len.
Proof. intros. apply Z.mod_pos_bound, pow2_pos. done. Qed.

Lemma field_lor a b off len :
  0 <= off -> 0 <= len -> field (Z.lor a b) off len = Z.lor (field a off len) (field b off len).
Proof.
  intros. apply Z.bits_inj'. intros i Hi.
  rewrite Z.lor_spec, !field_testbit, Z.lor_spec by done. by case_bool_decide.
Qed.

Lemma field_u64 a off len :
  0 <= off -> 0 <= len -> off + len <= 64 -> field (u64 a) off len = field a off len.
Proof.
  intros. apply Z.bits_inj'. intros i Hi. rewrite !field_testbit by done.
  case_bool_decide; [|done]. cbn. unfold wrap. by rewrite Z.mod_pow2_bits_low by lia.
Qed.

Lemma field_shiftl_below x k off len :
  0 <= off -> 0 <= len -> off + len <= k -> field (Z.shiftl x k) off len = 0.
Proof.
  intros. apply Z.bits_inj'. intros i Hi. rewrite field_testbit, Z.testbit_0_l by done.
  case_bool_decide; [|done]. cbn. apply Z.shiftl_spec_low. lia.
Qed.

(** The field starts inside the shifted value. *)
Lemma field_shiftl_in x k off len :
  0 <= k <= off -> 0 <= len -> field (Z.shiftl x k) off len = field x (off - k) len.
Proof.
  intros. apply Z.bits_inj'. intros i Hi. rewrite !field_testbit by lia.
  case_bool_decide; [|done]. cbn. rewrite Z.shiftl_spec by lia. f_equal. lia.
Qed.

Lemma field_above x off len : 0 <= len -> 0 <= x < 2 ^ off -> field x off len = 0.
Proof.
  intros. unfold field. rewrite Z.shiftr_div_pow2; [|destruct (decide (0 <= off)); [done|]].
  - rewrite Z.div_small by done. apply Z.mod_0_l. pose proof (pow2_pos len). lia.
  - rewrite Z.pow_neg_r in H0 by lia. lia.
Qed.

Lemma field_full x len : 0 <= x < 2 ^ len -> field x 0 len = x.
Proof. intros. unfold field. rewrite Z.shiftr_0_r. by apply Z.mod_small. Qed.

Lemma field_field x o1 l1 off len :
  0 <= o1 -> 0 <= off -> 0 <= len -> off + len <= l1 ->
  field (field x o1 l1) off len = field x (o1 + off) len.
Proof.
  intros. apply Z.bits_inj'. intros i Hi. rewrite !field_testbit by lia.
  case_bool_decide; [|done]. cbn. rewrite bool_decide_eq_true_2 by lia. cbn. f_equal. lia.
Qed.

(** Two adjacent fields, put back side by side. *)
Lemma field_join x off l1 l2 :
  0 <= off -> 0 <= l1 -> 0 <= l2 ->
  Z.lor (Z.shiftl (field x (off + l1) l2) l1) (field x off l1) = field x off (l1 + l2).
Proof.
  intros. apply Z.bits_inj'. intros i Hi.
  rewrite Z.lor_spec, !field_testbit by lia.
  destruct (decide (i < l1)).
  - rewrite Z.shiftl_spec_low by lia. rewrite !bool_decide_eq_true_2 by lia. done.
  - rewrite Z.shiftl_spec by lia. rewrite field_testbit by lia.
    rewrite (bool_decide_eq_false_2 (i < l1)) by lia. cbn. rewrite orb_false_r.
    replace (off + l1 + (i - l1)) with (off + i) by lia.
    case_bool_decide; case_bool_decide; done || lia.
Qed.

(** Masking off the low [k] bits of a 64-bit value keeps the fields above. *)
Lemma field_mask_high x k off len :
  0 <= k <= off -> 0 <= len -> off + len <= 64 ->
  field (Z.land x (Z.ldiff (Z.ones 64) (Z.ones k))) off len = field x off len.
Proof.
  intros. apply Z.bits_inj'. intros i Hi. rewrite !field_testbit by lia.
  case_bool_decide; [|done]. cbn. rewrite Z.land_spec, Z.ldiff_spec.
  rewrite Z.ones_spec_low, (Z.ones_spec_high k) by lia. by rewrite andb_true_r.
Qed.

Lemma field_mask_low x k off len :
  0 <= off -> 0 <= len -> off + len <= k ->
  field (Z.land x (Z.ones k)) off len = field x off len.
Proof.
  intros. apply Z.bits_inj'. intros i Hi. rewrite !field_testbit by lia.
  case_bool_decide; [|done]. cbn. rewrite Z.land_spec.
  rewrite Z.ones_spec_low by lia. by rewrite andb_true_r.
Qed.

Lemma field_mask_high_below x k off len :
  0 <= off -> 0 <= len -> off + len <= k ->
  field (Z.land x (Z.ldiff (Z.ones 64) (Z.ones k))) off len = 0.
Proof.
  intros. apply Z.bits_inj'. intros i Hi. rewrite field_testbit, Z.testbit_0_l by lia.
  case_bool_decide; [|done]. cbn. rewrite Z.land_spec, Z.ldiff_spec.
  rewrite (Z.ones_spec_low k) by lia. cbn. by rewrite !andb_false_r.
Qed.
