(* ===== verification/Mspace.v ===== *)
(** * The symmetric-heap allocator: class [mspace]

    Models src/src/host/mem/custom_malloc.cpp and
    src/src/include/internal/host/custom_malloc.h.  The three [std::map]s are
    [gmap]s from addresses to sizes; addresses and sizes are 64-bit values, so
    every sum the code forms is written with its wrap-around.  The error
    branches that call [exit(-1)] are [FExit (-1)]. *)
From stdpp Require Import base gmap list sorting.
From Stdlib Require Import ZArith Lia.
From S2P Require Import Prelude.

Module Mspace.

(** [NVSHMEMI_MALLOC_ALIGNMENT] *)
Definition NVSHMEMI_MALLOC_ALIGNMENT : Z := 512.
Definition CHUNK_ALIGN_MASK : Z := NVSHMEMI_MALLOC_ALIGNMENT - 1.

(** [align_request(req)]: [((req) + MASK) & ~MASK] on [size_t]. *)
Definition align_request (req : Z) : Z :=
  Z.land (u64 (req + CHUNK_ALIGN_MASK)) (u64 (Z.lnot CHUNK_ALIGN_MASK)).

(** [align_offset(A)]: the bytes to add to align an address. *)
Definition align_offset (A : Z) : Z :=
  if bool_decide (Z.land A CHUNK_ALIGN_MASK = 0) then 0
  else Z.land (NVSHMEMI_MALLOC_ALIGNMENT - Z.land A CHUNK_ALIGN_MASK) CHUNK_ALIGN_MASK.

Record mspace : Type := MkMspace {
  free_chunks_start : gmap Z Z;
  free_chunks_end : gmap Z Z;
  inuse_chunks : gmap Z Z;
  total_size : Z
}.

(** [mspace::mspace()] *)
Definition mspace_empty : mspace := MkMspace ∅ ∅ ∅ 0.

(** [mspace::mspace(void *base, size_t capacity)]: [capacity -= offset] is a
    [size_t] subtraction. *)
Definition mspace_new (base capacity : Z) : mspace :=
  let offset := align_offset base in
  let start_addr := u64 (base + offset) in
  let capacity := u64 (capacity - offset) in
  if bool_decide (capacity > 0) then
    let end_addr := u64 (start_addr + capacity) in
    MkMspace {[start_addr := capacity]} {[end_addr := capacity]} ∅ capacity
  else mspace_empty.

(** The two merge steps of [add_free_chunk] and its tail. *)
Definition merge_prev (m : mspace) (base capacity : Z) : mspace * Z * Z * bool :=
  match free_chunks_end m !! base with
  | Some psize =>
      let fe := <[u64 (base + capacity) := u64 (capacity + psize)]>
                  (delete base (free_chunks_end m)) in
      let base := u64 (base - psize) in
      let capacity := u64 (capacity + psize) in
      (MkMspace (<[base := capacity]> (free_chunks_start m)) fe (inuse_chunks m) (total_size m),
       base, capacity, true)
  | None => (m, base, capacity, false)
  end.

Definition merge_next (m : mspace) (base capacity : Z) (merged : bool) : mspace * bool :=
  let nxt := u64 (base + capacity) in
  match free_chunks_start m !! nxt with
  | Some nsize =>
      let fe := delete nxt (free_chunks_end m) in
      let fs := delete nxt (free_chunks_start m) in
      let fs := <[base := u64 (capacity + nsize)]> fs in
      let fe := <[u64 (base + capacity + nsize) := u64 (capacity + nsize)]> fe in
      (MkMspace fs fe (inuse_chunks m) (total_size m), true)
  | None => (m, merged)
  end.

(** [mspace::add_free_chunk] *)
Definition add_free_chunk (m : mspace) (base capacity : Z) : outcome mspace :=
  match inuse_chunks m !! base with
  | Some _ => Fail (FExit (-1))
  | None =>
      let '(m, base, capacity, merged) := merge_prev m base capacity in
      let '(m, merged) := merge_next m base capacity merged in
      if merged then Ret m
      else Ret (MkMspace (<[base := capacity]> (free_chunks_start m))
                         (<[u64 (base + capacity) := capacity]> (free_chunks_end m))
                         (inuse_chunks m) (total_size m))
  end.

(** [mspace::add_new_chunk] *)
Definition add_new_chunk (m : mspace) (base capacity : Z) : outcome mspace :=
  add_free_chunk (MkMspace (free_chunks_start m) (free_chunks_end m) (inuse_chunks m)
                           (u64 (total_size m + capacity))) base capacity.

(** [mspace::track_large_chunks] *)
Definition track_large_chunks (enable : Z) : Z := 0.

(** Iteration order of a [std::map]: ascending keys. *)
Definition key_le (x y : Z * Z) : Prop := x.1 <= y.1.
#[export] Instance key_le_dec : RelDecision key_le.
Proof. intros x y. unfold key_le. apply _. Defined.
#[export] Instance key_le_total : Total key_le.
Proof. intros x y. unfold key_le. lia. Qed.
#[export] Instance key_le_trans : Transitive key_le.
Proof. intros x y z. unfold key_le. lia. Qed.
Definition entries (m : gmap Z Z) : list (Z * Z) := merge_sort key_le (map_to_list m).

(** The loop of [allocate]: the first chunk, in address order, that is large
    enough. *)
Fixpoint find_chunk (l : list (Z * Z)) (bytes : Z) : option (Z * Z) :=
  match l with
  | [] => None
  | (a, s) :: l => if bool_decide (s >= bytes) then Some (a, s) else find_chunk l bytes
  end.

(** The body of that loop once the chunk [(start_addr, size)] is found. *)
Definition take_chunk (m : mspace) (start_addr size bytes : Z) : mspace :=
  let rsize := u64 (size - bytes) in
  let '(fs, fe) :=
    if bool_decide (rsize > 0) then
      let fs := <[u64 (start_addr + bytes) := rsize]> (free_chunks_start m) in
      let fe := <[u64 (start_addr + size) := rsize]> (free_chunks_end m) in
      (delete start_addr fs, fe)
    else
      (delete start_addr (free_chunks_start m),
       delete (u64 (start_addr + size)) (free_chunks_end m)) in
  MkMspace fs fe (<[start_addr := bytes]> (inuse_chunks m)) (total_size m).

(** [mspace::allocate]; [None] is the null pointer. *)
Definition allocate (m : mspace) (bytes : Z) : option Z * mspace :=
  if bool_decide (bytes = 0) then (None, m)
  else
    let bytes := align_request bytes in
    match find_chunk (entries (free_chunks_start m)) bytes with
    | Some (start_addr, size) => (Some start_addr, take_chunk m start_addr size bytes)
    | None => (None, m)
    end.

(** [mspace::deallocate] *)
Definition deallocate (m : mspace) (mem : Z) : outcome mspace :=
  match inuse_chunks m !! mem with
  | None => Fail (FExit (-1))
  | Some bytes =>
      add_free_chunk (MkMspace (free_chunks_start m) (free_chunks_end m)
                               (delete mem (inuse_chunks m)) (total_size m)) mem bytes
  end.

(** [mspace::allocate_zeroed]; the third component is the memory range given
    to [cudaMemset(ptr, 0, bytes)], when one is. *)
Definition allocate_zeroed (m : mspace) (n_elements elem_size : Z)
  : option Z * mspace * option (Z * Z) :=
  let bytes := u64 (n_elements * elem_size) in
  match allocate m bytes with
  | (Some ptr, m) => (Some ptr, m, Some (ptr, bytes))
  | (None, m) => (None, m, None)
  end.

(** [mspace::allocate_aligned] *)
Definition allocate_aligned (m : mspace) (alignment bytes : Z) : outcome (option Z * mspace) :=
  _ ← cassert (bool_decide (alignment mod 8 = 0 /\
                            Z.land alignment (u64 (alignment - 1)) = 0));
  let bytes := u64 (bytes + alignment) in
  match allocate m bytes with
  | (None, m) => Ret (None, m)
  | (Some ptr, m) =>
      if bool_decide (alignment = 0) then Fail FUndef
      else
      let ret_ptr := u64 (alignment * (u64 (ptr + u64 (alignment - 1)) / alignment)) in
      if bool_decide (ret_ptr - ptr = 0) then Ret (Some ret_ptr, m)
      else
        let osize := default 0 (inuse_chunks m !! ptr) in
        let iu := <[ret_ptr := u64 (osize - (ret_ptr - ptr))]> (inuse_chunks m) in
        let m := MkMspace (free_chunks_start m) (free_chunks_end m) (delete ptr iu)
                          (total_size m) in
        m ← add_free_chunk m ptr (u64 (ret_ptr - ptr));
        Ret (Some ret_ptr, m)
  end.

(** [mspace::reallocate]; the last component is the [cudaMemcpy(new, old, n)]
    the call issues.  [inuse_chunks[ptr]] creates an entry of size 0 when [ptr]
    is not a key, as [std::map::operator[]] does. *)
Definition reallocate (m : mspace) (ptr size : Z)
  : outcome (option Z * mspace * option (Z * Z * Z)) :=
  let size := align_request size in
  let current_size := default 0 (inuse_chunks m !! ptr) in
  let m := MkMspace (free_chunks_start m) (free_chunks_end m)
                    (<[ptr := current_size]> (inuse_chunks m)) (total_size m) in
  if bool_decide (size < current_size) then
    let m := MkMspace (free_chunks_start m) (free_chunks_end m)
                      (<[ptr := size]> (inuse_chunks m)) (total_size m) in
    m ← add_free_chunk m (u64 (ptr + size)) (u64 (current_size - size));
    Ret (Some ptr, m, None)
  else if bool_decide (size > current_size) then
    let nxt := u64 (ptr + current_size) in
    let moved :=
      match allocate m size with
      | (None, m) => Ret (None, m, None)
      | (Some new_ptr, m) =>
          let m := MkMspace (free_chunks_start m) (free_chunks_end m)
                            (delete ptr (inuse_chunks m)) (total_size m) in
          m ← add_free_chunk m ptr current_size;
          Ret (Some new_ptr, m, Some (new_ptr, ptr, size))
      end in
    match free_chunks_start m !! nxt with
    | Some chunk_size =>
        if bool_decide (u64 (current_size + chunk_size) >= size) then
          let m := MkMspace (delete nxt (free_chunks_start m))
                            (delete (u64 (ptr + current_size + chunk_size)) (free_chunks_end m))
                            (<[ptr := size]> (inuse_chunks m)) (total_size m) in
          if bool_decide (u64 (current_size + chunk_size) > size) then
            m ← add_free_chunk m (u64 (ptr + size)) (u64 (size - current_size));
            Ret (Some ptr, m, None)
          else Ret (Some ptr, m, None)
        else moved
    | None => moved
    end
  else Ret (Some ptr, m, None).

(** [mspace::checkInuse] *)
Definition checkInuse (m : mspace) (ptr size : Z) : bool :=
  match inuse_chunks m !! ptr with
  | Some s => bool_decide (s = size)
  | None => false
  end.

(** [mspace::get_startInusePtr] *)
Definition get_startInusePtr (m : mspace) : option Z := fst <$> head (entries (inuse_chunks m)).

(** [get_total_size] and the check behind [ASSERT_CORRECTNESS]. *)
Definition get_total_size (chunk_map : gmap Z Z) : Z := map_sum chunk_map.
Definition ASSERT_CORRECTNESS (m : mspace) : bool :=
  bool_decide (u64 (get_total_size (free_chunks_start m)) = u64 (get_total_size (free_chunks_end m))
    /\ u64 (get_total_size (free_chunks_start m) + get_total_size (inuse_chunks m)) = total_size m).


(** ** Separation of address ranges *)
Definition apart (a s b t : Z) : Prop := a + s <= b \/ b + t <= a.
Definition sapart (a s b t : Z) : Prop := a + s < b \/ b + t < a.

(** ** The representation invariant

    [wf_upto d m]: the maps describe disjoint ranges of the address space, the
    two free maps are inverse views of the same set of chunks, no two free
    chunks touch (every release has been coalesced), and the accounting lacks
    exactly [d] bytes.  [wf] is the invariant between calls. *)
Record wf_upto (d : Z) (m : mspace) : Prop := {
  wf_free_range : forall a s, free_chunks_start m !! a = Some s ->
    0 <= a /\ 0 < s /\ a + s < 2 ^ 64 /\ a mod NVSHMEMI_MALLOC_ALIGNMENT = 0;
  wf_use_range : forall a s, inuse_chunks m !! a = Some s ->
    0 <= a /\ 0 < s /\ a + s < 2 ^ 64 /\
    a mod NVSHMEMI_MALLOC_ALIGNMENT = 0 /\ s mod NVSHMEMI_MALLOC_ALIGNMENT = 0;
  wf_ends : forall a s, free_chunks_start m !! a = Some s ->
    free_chunks_end m !! (a + s) = Some s;
  wf_starts : forall e s, free_chunks_end m !! e = Some s ->
    free_chunks_start m !! (e - s) = Some s;
  wf_free_disj : forall a s b t, free_chunks_start m !! a = Some s ->
    free_chunks_start m !! b = Some t -> a <> b -> sapart a s b t;
  wf_use_disj : forall a s b t, inuse_chunks m !! a = Some s ->
    inuse_chunks m !! b = Some t -> a <> b -> apart a s b t;
  wf_free_use : forall a s b t, free_chunks_start m !! a = Some s ->
    inuse_chunks m !! b = Some t -> apart a s b t;
  wf_sum_ends : get_total_size (free_chunks_end m) = get_total_size (free_chunks_start m);
  wf_total : total_size m = get_total_size (free_chunks_start m) +
                            get_total_size (inuse_chunks m) + d;
  wf_total_range : total_size m ∈u 64
}.
Definition wf (m : mspace) : Prop := wf_upto 0 m.

(** ** The four primitive changes the operations are made of *)
Definition remove_free (m : mspace) (a s : Z) : mspace :=
  MkMspace (delete a (free_chunks_start m)) (delete (a + s) (free_chunks_end m))
           (inuse_chunks m) (total_size m).
Definition insert_free (m : mspace) (a s : Z) : mspace :=
  MkMspace (<[a := s]> (free_chunks_start m)) (<[a + s := s]> (free_chunks_end m))
           (inuse_chunks m) (total_size m).
Definition remove_use (m : mspace) (a : Z) : mspace :=
  MkMspace (free_chunks_start m) (free_chunks_end m) (delete a (inuse_chunks m)) (total_size m).
Definition insert_use (m : mspace) (a s : Z) : mspace :=
  MkMspace (free_chunks_start m) (free_chunks_end m) (<[a := s]> (inuse_chunks m)) (total_size m).

(** A range [a, a+s) that lies outside every chunk the maps know. *)
Record fresh_block (m : mspace) (a s : Z) : Prop := {
  fresh_range : 0 <= a /\ 0 < s /\ a + s < 2 ^ 64 /\ a mod NVSHMEMI_MALLOC_ALIGNMENT = 0;
  fresh_free : forall b t, free_chunks_start m !! b = Some t -> apart a s b t;
  fresh_use : forall b t, inuse_chunks m !! b = Some t -> apart a s b t
}.

Section Primitives.
Context (d : Z) (m : mspace) (W : wf_upto d m).

(** Ends of free chunks are not starts of other chunks' ranges: the key of an
    end entry determines its chunk. *)
Lemma end_unique e s t :
  free_chunks_end m !! e = Some s -> free_chunks_start m !! (e - t) = Some t -> 0 < t -> s = t.
Proof.
  intros He Ht Hp. apply (wf_ends _ _ W) in Ht.
  replace (e - t + t) with e in Ht by lia. congruence.
Qed.

(** No free chunk ends where another one starts. *)
Lemma no_end_at_start a n :
  free_chunks_start m !! a = Some n -> free_chunks_end m !! a = None.
Proof.
  intros Hn. destruct (free_chunks_end m !! a) as [q|] eqn:Hq; [|done].
  apply (wf_starts _ _ W) in Hq. pose proof (wf_free_range _ _ W _ _ Hq).
  destruct (wf_free_disj _ _ W _ _ _ _ Hn Hq); pose proof (wf_free_range _ _ W _ _ Hn); lia.
Qed.

Lemma wf_remove_free a s :
  free_chunks_start m !! a = Some s -> wf_upto (d + s) (remove_free m a s).
Proof.
  intros Ha. destruct W as [R U E S D DU FU SE T TR].
  split; cbn [remove_free free_chunks_start free_chunks_end inuse_chunks total_size]; auto.
  - intros b t Hb. apply lookup_delete_Some in Hb as [? Hb]. eauto.
  - intros b t Hb. apply lookup_delete_Some in Hb as [Hne Hb].
    rewrite lookup_delete_ne; [by apply E|].
    destruct (D _ _ _ _ Ha Hb Hne); pose proof (R _ _ Ha); pose proof (R _ _ Hb); lia.
  - intros e t He. apply lookup_delete_Some in He as [Hne He].
    apply S in He as Hs. rewrite lookup_delete_ne; [done|].
    intros ->. assert (s = t) as -> by congruence. lia.
  - intros b t b' t' Hb Hb' Hne.
    apply lookup_delete_Some in Hb as [? Hb], Hb' as [? Hb']. eauto.
  - intros b t b' t' Hb Hb'. apply lookup_delete_Some in Hb as [? Hb]. eauto.
  - unfold get_total_size in *. rewrite (map_sum_delete _ _ s) by auto.
    rewrite (map_sum_delete _ _ s) by auto. lia.
  - unfold get_total_size in *. rewrite (map_sum_delete _ _ s) by auto. lia.
Qed.

Lemma wf_insert_free a s :
  fresh_block m a s ->
  (forall b t, free_chunks_start m !! b = Some t -> sapart a s b t) ->
  wf_upto (d - s) (insert_free m a s).
Proof.
  intros [F FF FS] SA. destruct W as [R U E S D DU FU SE T TR].
  assert (free_chunks_start m !! a = None) as Hna.
  { destruct (free_chunks_start m !! a) eqn:Hb; [|done].
    destruct (SA _ _ Hb); pose proof (R _ _ Hb); lia. }
  assert (free_chunks_end m !! (a + s) = None) as Hne.
  { destruct (free_chunks_end m !! (a + s)) eqn:Hb; [|done].
    apply S in Hb. destruct (SA _ _ Hb); pose proof (R _ _ Hb); lia. }
  split; cbn [insert_free free_chunks_start free_chunks_end inuse_chunks total_size]; auto.
  - intros b t Hb. apply lookup_insert_Some in Hb as [[<- <-]|[? Hb]]; eauto.
  - intros b t Hb. apply lookup_insert_Some in Hb as [[<- <-]|[? Hb]].
    + apply lookup_insert_eq.
    + rewrite lookup_insert_ne; [by apply E|].
      destruct (SA _ _ Hb); pose proof (R _ _ Hb); lia.
  - intros e t He. apply lookup_insert_Some in He as [[<- <-]|[? He]].
    + replace (a + s - s) with a by lia. apply lookup_insert_eq.
    + apply S in He. rewrite lookup_insert_ne; [done|]. intros ->. congruence.
  - intros b t b' t' Hb Hb' Hbb.
    apply lookup_insert_Some in Hb as [[<- <-]|[? Hb]];
      apply lookup_insert_Some in Hb' as [[<- <-]|[? Hb']]; eauto; [done|].
    destruct (SA _ _ Hb); [right|left]; lia.
  - intros b t b' t' Hb Hb'. apply lookup_insert_Some in Hb as [[<- <-]|[? Hb]]; eauto.
  - unfold get_total_size in *. rewrite !map_sum_insert by done. lia.
  - unfold get_total_size in *. rewrite map_sum_insert by done. lia.
Qed.

Lemma wf_remove_use a s :
  inuse_chunks m !! a = Some s -> wf_upto (d + s) (remove_use m a).
Proof.
  intros Ha. destruct W as [R U E S D DU FU SE T TR].
  split; cbn [remove_use free_chunks_start free_chunks_end inuse_chunks total_size]; auto.
  - intros b t Hb. apply lookup_delete_Some in Hb as [? Hb]. eauto.
  - intros b t b' t' Hb Hb' Hne.
    apply lookup_delete_Some in Hb as [? Hb], Hb' as [? Hb']. eauto.
  - intros b t b' t' Hb Hb'. apply lookup_delete_Some in Hb' as [? Hb']. eauto.
  - unfold get_total_size in *. rewrite (map_sum_delete _ _ s) by auto. lia.
Qed.

Lemma wf_insert_use a s :
  fresh_block m a s -> s mod NVSHMEMI_MALLOC_ALIGNMENT = 0 ->
  wf_upto (d - s) (insert_use m a s).
Proof.
  intros [F FF FS] Hs. destruct W as [R U E S D DU FU SE T TR].
  assert (inuse_chunks m !! a = None) as Hna.
  { destruct (inuse_chunks m !! a) eqn:Hb; [|done].
    destruct (FS _ _ Hb); pose proof (U _ _ Hb); lia. }
  split; cbn [insert_use free_chunks_start free_chunks_end inuse_chunks total_size]; auto.
  - intros b t Hb. apply lookup_insert_Some in Hb as [[<- <-]|[? Hb]]; [|eauto].
    destruct F as (?&?&?&?). auto.
  - intros b t b' t' Hb Hb' Hbb.
    apply lookup_insert_Some in Hb as [[<- <-]|[? Hb]];
      apply lookup_insert_Some in Hb' as [[<- <-]|[? Hb']]; eauto; [done|].
    destruct (FS _ _ Hb); [right|left]; lia.
  - intros b t b' t' Hb Hb'. apply lookup_insert_Some in Hb' as [[<- <-]|[? Hb']]; eauto.
    destruct (FF _ _ Hb); [right|left]; lia.
  - unfold get_total_size in *. rewrite map_sum_insert by done. lia.
Qed.

End Primitives.

(** ** Releasing a block *)

(** Reference definition of a release: take the free neighbours out of the
    free set, and put back one chunk that covers them and the block. *)
Definition coalesce_prev (m : mspace) (base capacity : Z) : mspace * Z * Z :=
  match free_chunks_end m !! base with
  | Some p => (remove_free m (base - p) p, base - p, capacity + p)
  | None => (m, base, capacity)
  end.
Definition coalesce_next (m : mspace) (base capacity : Z) : mspace * Z :=
  match free_chunks_start m !! (base + capacity) with
  | Some n => (remove_free m (base + capacity) n, capacity + n)
  | None => (m, capacity)
  end.
Definition release (m : mspace) (base capacity : Z) : mspace :=
  let '(m, base, capacity) := coalesce_prev m base capacity in
  let '(m, capacity) := coalesce_next m base capacity in
  insert_free m base capacity.

(** A byte of the managed space is free, or belongs to a block in use. *)
Definition free_byte (m : mspace) (x : Z) : Prop :=
  exists a s, free_chunks_start m !! a = Some s /\ a <= x < a + s.
Definition used_byte (m : mspace) (x : Z) : Prop :=
  exists a s, inuse_chunks m !! a = Some s /\ a <= x < a + s.

Lemma free_byte_insert m a s x :
  free_chunks_start m !! a = None ->
  free_byte (insert_free m a s) x <-> (a <= x < a + s \/ free_byte m x).
Proof.
  intros Hn. unfold free_byte; cbn. split.
  - intros (b & t & Hb & Hx). apply lookup_insert_Some in Hb as [[<- <-]|[? Hb]]; eauto.
  - intros [Hx|(b & t & Hb & Hx)].
    + exists a, s. by rewrite lookup_insert_eq.
    + exists b, t. rewrite lookup_insert_ne; [done|]. congruence.
Qed.

Lemma free_byte_remove m d a s x :
  wf_upto d m -> free_chunks_start m !! a = Some s ->
  free_byte (remove_free m a s) x <-> (free_byte m x /\ ~ (a <= x < a + s)).
Proof.
  intros W Ha. unfold free_byte; cbn. split.
  - intros (b & t & Hb & Hx). apply lookup_delete_Some in Hb as [Hne Hb].
    split; [eauto|]. destruct (wf_free_disj _ _ W _ _ _ _ Ha Hb Hne); lia.
  - intros [(b & t & Hb & Hx) Hn]. exists b, t. split; [|done].
    apply lookup_delete_Some. split; [|done]. intros ->.
    assert (s = t) as -> by congruence. tauto.
Qed.

(** What a coalescing step guarantees to the next one. *)
Record coalesced (m0 m : mspace) (b0 c0 b c : Z) : Prop := {
  co_wf : wf_upto c m;
  co_fresh : fresh_block m b c;
  co_use : inuse_chunks m = inuse_chunks m0;
  co_total : total_size m = total_size m0;
  co_incl : b <= b0 /\ b0 + c0 <= b + c;
  co_bytes : forall x, (b <= x < b + c \/ free_byte m x) <->
                       (b0 <= x < b0 + c0 \/ free_byte m0 x)
}.

Lemma coalesce_prev_spec m base capacity m1 b1 c1 :
  wf_upto capacity m -> fresh_block m base capacity ->
  coalesce_prev m base capacity = (m1, b1, c1) ->
  coalesced m m1 base capacity b1 c1 /\
  b1 + c1 = base + capacity /\
  (forall b t, free_chunks_start m1 !! b = Some t -> b + t <> b1).
Proof.
  intros W F. unfold coalesce_prev.
  destruct (free_chunks_end m !! base) as [p|] eqn:Hp; intros [= <- <- <-].
  - apply (wf_starts _ _ W) in Hp as Hs.
    pose proof (wf_free_range _ _ W _ _ Hs) as R. destruct F as [Fr FF FS].
    assert (fresh_block (remove_free m (base - p) p) (base - p) (capacity + p)) as F'.
    { split; cbn; [lia| |].
      - intros b t Hb. apply lookup_delete_Some in Hb as [Hne Hb].
        pose proof (wf_free_disj _ _ W _ _ _ _ Hs Hb Hne) as D1.
        pose proof (FF _ _ Hb) as D2. pose proof (wf_free_range _ _ W _ _ Hb).
        unfold apart, sapart in *. lia.
      - intros b t Hb. pose proof (wf_free_use _ _ W _ _ _ _ Hs Hb) as D1.
        pose proof (FS _ _ Hb) as D2. pose proof (wf_use_range _ _ W _ _ Hb).
        unfold apart in *. lia. }
    split; [constructor; [by apply wf_remove_free|done|done|done|lia|]|split; [lia|]].
    + intros x. rewrite free_byte_remove by eauto. split.
      * intros [?|[? ?]]; [|tauto].
        destruct (decide (x < base)); [right|left; lia].
        exists (base - p), p. split; [done|lia].
      * intros [?|?]; [left; lia|].
        destruct (decide (base - p <= x < base - p + p)); [left; lia|tauto].
    + cbn. intros b t Hb. apply lookup_delete_Some in Hb as [Hne Hb].
      pose proof (wf_free_disj _ _ W _ _ _ _ Hs Hb Hne) as D1. unfold sapart in D1.
      pose proof (wf_free_range _ _ W _ _ Hb). lia.
  - split; [by constructor|split; [done|]].
    intros b t Hb <-. apply (wf_ends _ _ W) in Hb. congruence.
Qed.

Lemma coalesce_next_spec m0 m b0 c0 base capacity m1 c1 :
  coalesced m0 m b0 c0 base capacity ->
  (forall b t, free_chunks_start m !! b = Some t -> b + t <> base) ->
  coalesce_next m base capacity = (m1, c1) ->
  coalesced m0 m1 b0 c0 base c1 /\
  (forall b t, free_chunks_start m1 !! b = Some t -> sapart base c1 b t).
Proof.
  intros [W F CU CT CI CB] NP. unfold coalesce_next. destruct F as [Fr FF FS].
  destruct (free_chunks_start m !! (base + capacity)) as [n|] eqn:Hn; intros [= <- <-].
  - pose proof (wf_free_range _ _ W _ _ Hn) as R.
    assert (forall b t, free_chunks_start (remove_free m (base + capacity) n) !! b = Some t ->
              sapart base (capacity + n) b t) as SA.
    { cbn. intros b t Hb. apply lookup_delete_Some in Hb as [Hne Hb].
      pose proof (wf_free_disj _ _ W _ _ _ _ Hn Hb Hne) as D1. pose proof (NP _ _ Hb).
      pose proof (FF _ _ Hb) as D2. pose proof (wf_free_range _ _ W _ _ Hb).
      unfold apart, sapart in *. lia. }
    assert (fresh_block (remove_free m (base + capacity) n) base (capacity + n)) as F'.
    { split; [lia| |].
      - intros b t Hb. apply SA in Hb. unfold sapart, apart in *. lia.
      - cbn. intros b t Hb. pose proof (wf_free_use _ _ W _ _ _ _ Hn Hb) as D1.
        pose proof (FS _ _ Hb) as D2. pose proof (wf_use_range _ _ W _ _ Hb).
        unfold apart in *. lia. }
    split; [constructor; [by apply wf_remove_free|done|done|done|lia|]|done].
    intros x. rewrite free_byte_remove by eauto. split.
    + intros [?|[? ?]]; [|apply CB; tauto].
      apply CB. destruct (decide (x < base + capacity)); [left; lia|right].
      exists (base + capacity), n. split; [done|lia].
    + intros Hx%CB.
      destruct (decide (base + capacity <= x < base + capacity + n)); [left; lia|].
      destruct Hx; [left; lia|right; tauto].
  - split; [by constructor|].
    intros b t Hb. pose proof (FF _ _ Hb) as D2. pose proof (NP _ _ Hb).
    unfold apart, sapart in *.
    assert (base + capacity <> b) by (intros <-; congruence). lia.
Qed.

(** The release of a block: the invariant is restored, exactly the block's
    bytes become free, and the blocks in use are untouched. *)
Lemma release_spec m base capacity :
  wf_upto capacity m -> fresh_block m base capacity ->
  wf (release m base capacity) /\
  inuse_chunks (release m base capacity) = inuse_chunks m /\
  total_size (release m base capacity) = total_size m /\
  (forall x, free_byte (release m base capacity) x <->
             (base <= x < base + capacity \/ free_byte m x)).
Proof.
  intros W F. unfold release.
  destruct (coalesce_prev m base capacity) as [[m1 b1] c1] eqn:E1.
  apply coalesce_prev_spec in E1 as (C1 & _ & NP); [|done..].
  destruct (coalesce_next m1 b1 c1) as [m2 c2] eqn:E2.
  eapply coalesce_next_spec in E2 as (C2 & SA); [|done..].
  destruct C2 as [W2 F2 U2 T2 I2 B2]. split; [|split; [done|split; [done|]]].
  - unfold wf. replace 0 with (c2 - c2) by lia. by apply wf_insert_free.
  - intros x. rewrite free_byte_insert; [apply B2|].
    destruct (free_chunks_start m2 !! b1) eqn:Hb; [|done].
    pose proof (wf_free_range _ _ W2 _ _ Hb). destruct (SA _ _ Hb), F2; lia.
Qed.

Ltac u64_small := repeat (rewrite (wrap_small 64) by (unfold in_u; lia)).

(** The code's [add_free_chunk] is the reference release. *)
Lemma add_free_chunk_release m base capacity :
  wf_upto capacity m -> fresh_block m base capacity ->
  add_free_chunk m base capacity = Ret (release m base capacity).
Proof.
  intros W F. pose proof F as [Fr FF FS]. unfold add_free_chunk, release.
  destruct (inuse_chunks m !! base) as [t|] eqn:Hu.
  { pose proof (wf_use_range _ _ W _ _ Hu). destruct (FS _ _ Hu); lia. }
  clear Hu. unfold merge_prev, coalesce_prev.
  destruct (free_chunks_end m !! base) as [p|] eqn:Hp.
  - apply (wf_starts _ _ W) in Hp as Hs. pose proof (wf_free_range _ _ W _ _ Hs) as R.
    u64_small. unfold merge_next, coalesce_next. cbn. u64_small.
    replace (base - p + (capacity + p)) with (base + capacity) by lia.
    rewrite lookup_insert_ne, lookup_delete_ne by lia.
    destruct (free_chunks_start m !! (base + capacity)) as [n|] eqn:Hn.
    + pose proof (wf_free_range _ _ W _ _ Hn) as Rn. u64_small.
      pose proof (no_end_at_start _ _ W _ _ Hn).
      unfold insert_free; cbn. do 2 f_equal; map_crush.
    + unfold insert_free; cbn. do 2 f_equal; map_crush.
  - unfold merge_next, coalesce_next. u64_small.
    destruct (free_chunks_start m !! (base + capacity)) as [n|] eqn:Hn.
    + pose proof (wf_free_range _ _ W _ _ Hn) as Rn. u64_small.
      pose proof (no_end_at_start _ _ W _ _ Hn).
      unfold insert_free; cbn. do 2 f_equal; map_crush.
    + done.
Qed.

(** ** Allocation *)
Lemma mask_value : u64 (Z.lnot CHUNK_ALIGN_MASK) = Z.ldiff (Z.ones 64) (Z.ones 9).
Proof. reflexivity. Qed.

(** Requests are rounded up to a multiple of 512, unless the sum wraps. *)
Lemma align_request_spec b :
  0 < b <= 2 ^ 64 - 512 ->
  b <= align_request b < b + 512 /\ align_request b mod NVSHMEMI_MALLOC_ALIGNMENT = 0 /\
  0 < align_request b < 2 ^ 64.
Proof.
  intros Hb. unfold align_request, CHUNK_ALIGN_MASK, NVSHMEMI_MALLOC_ALIGNMENT.
  rewrite (wrap_small 64 (b + _)) by (unfold in_u; lia).
  change (u64 (Z.lnot (512 - 1))) with (Z.ldiff (Z.ones 64) (Z.ones 9)).
  rewrite land_high_mask by (unfold in_u; lia). change (2 ^ 9) with 512.
  Z.div_mod_to_equations. lia.
Qed.

(** A request within 511 bytes of [SIZE_MAX] wraps around to zero. *)
Lemma align_request_wraps b : 2 ^ 64 - 512 < b < 2 ^ 64 -> align_request b = 0.
Proof.
  intros Hb. unfold align_request, CHUNK_ALIGN_MASK, NVSHMEMI_MALLOC_ALIGNMENT.
  change (u64 (Z.lnot (512 - 1))) with (Z.ldiff (Z.ones 64) (Z.ones 9)).
  assert (u64 (b + (512 - 1)) = b + 511 - 2 ^ 64) as ->.
  { unfold wrap. symmetry. apply Z.mod_unique with 1; lia. }
  rewrite land_high_mask by (unfold in_u; lia). change (2 ^ 9) with 512.
  rewrite Z.mod_small by lia. lia.
Qed.

Lemma entries_spec m a s : (a, s) ∈ entries m <-> m !! a = Some s.
Proof. unfold entries. rewrite merge_sort_Permutation. apply elem_of_map_to_list. Qed.

Lemma entries_sorted m : StronglySorted key_le (entries m).
Proof. apply StronglySorted_merge_sort; apply _. Qed.

Lemma find_chunk_Some l b a s :
  StronglySorted key_le l -> find_chunk l b = Some (a, s) ->
  (a, s) ∈ l /\ s >= b /\ forall a' s', (a', s') ∈ l -> s' >= b -> a <= a'.
Proof.
  induction l as [|[a0 s0] l IH]; simpl; [done|]. intros Hs.
  apply StronglySorted_inv in Hs as [Hs Hf].
  case_bool_decide as Hb.
  - intros [= <- <-]. split; [left|split; [done|]].
    intros a' s' Hin Hs'. apply elem_of_cons in Hin as [[= -> ->]|Hin]; [lia|].
    rewrite Forall_forall in Hf. apply (Hf (a', s')) in Hin. done.
  - intros Hf'. destruct (IH Hs Hf') as (H1 & H2 & H3). split; [by right|split; [done|]].
    intros a' s' Hin Hs'. apply elem_of_cons in Hin as [[= -> ->]|Hin]; [lia|eauto].
Qed.

Lemma find_chunk_None l b :
  find_chunk l b = None <-> forall a s, (a, s) ∈ l -> s < b.
Proof.
  induction l as [|[a0 s0] l IH]; simpl.
  { split; [|done]. intros _ a s H. by apply elem_of_nil in H. }
  case_bool_decide as Hb.
  - split; [done|]. intros H. specialize (H a0 s0 ltac:(left)). lia.
  - rewrite IH. split; intros H a s; [|intros; apply (H a); by right].
    intros [[= -> ->]|Hin]%elem_of_cons; [lia|eauto].
Qed.

(** The allocation step, in terms of the primitive changes. *)
Definition carve (m : mspace) (a size bytes : Z) : mspace :=
  let m1 := remove_free m a size in
  if bool_decide (bytes < size) then insert_free m1 (a + bytes) (size - bytes) else m1.

Section Carve.
Context (d : Z) (m : mspace) (a size bytes : Z).
Context (W : wf_upto d m) (Ha : free_chunks_start m !! a = Some size) (Hb : 0 < bytes <= size).

Lemma take_chunk_carve :
  take_chunk m a size bytes = insert_use (carve m a size bytes) a bytes.
Proof.
  pose proof (wf_free_range _ _ W _ _ Ha) as R. unfold take_chunk, carve. u64_small.
  destruct (decide (bytes < size)).
  - rewrite !bool_decide_eq_true_2 by lia. unfold insert_use, insert_free; cbn.
    replace (a + bytes + (size - bytes)) with (a + size) by lia.
    f_equal; map_crush.
  - rewrite !bool_decide_eq_false_2 by lia. done.
Qed.

Lemma carve_lookup b t :
  free_chunks_start (carve m a size bytes) !! b = Some t ->
  (b = a + bytes /\ t = size - bytes /\ bytes < size) \/
  (b <> a /\ free_chunks_start m !! b = Some t).
Proof.
  unfold carve. case_bool_decide; cbn.
  - rewrite lookup_insert_Some. intros [[<- <-]|[? Hd]]; [by left|right].
    apply lookup_delete_Some in Hd as [? ?]. auto.
  - intros [? ?]%lookup_delete_Some. right. auto.
Qed.

Lemma carve_fresh : bytes mod NVSHMEMI_MALLOC_ALIGNMENT = 0 -> fresh_block (carve m a size bytes) a bytes.
Proof.
  intros Hm. pose proof (wf_free_range _ _ W _ _ Ha) as R. split; [lia| |].
  - intros b t [(-> & -> & ?)|[Hne Hbt]]%carve_lookup; [left; lia|].
    pose proof (wf_free_disj _ _ W _ _ _ _ Ha Hbt ltac:(congruence)).
    pose proof (wf_free_range _ _ W _ _ Hbt). unfold sapart, apart in *. lia.
  - assert (inuse_chunks (carve m a size bytes) = inuse_chunks m) as ->
      by (unfold carve; case_bool_decide; done).
    intros b t Hbt. pose proof (wf_free_use _ _ W _ _ _ _ Ha Hbt).
    unfold apart in *. lia.
Qed.

Lemma carve_wf :
  bytes mod NVSHMEMI_MALLOC_ALIGNMENT = 0 -> wf_upto (d + bytes) (carve m a size bytes).
Proof.
  intros Hm. pose proof (wf_free_range _ _ W _ _ Ha) as R. unfold carve. case_bool_decide.
  - replace (d + bytes) with (d + size - (size - bytes)) by lia.
    pose proof (wf_remove_free _ _ W _ _ Ha) as W1.
    assert (forall b t, free_chunks_start (remove_free m a size) !! b = Some t ->
              sapart (a + bytes) (size - bytes) b t) as SA.
    { cbn. intros b t [Hne Hbt]%lookup_delete_Some.
      pose proof (wf_free_disj _ _ W _ _ _ _ Ha Hbt ltac:(congruence)).
      pose proof (wf_free_range _ _ W _ _ Hbt). unfold sapart in *. lia. }
    apply wf_insert_free; [done| |done]. split.
    + unfold NVSHMEMI_MALLOC_ALIGNMENT in *. Z.div_mod_to_equations. lia.
    + intros b t Hbt%SA. unfold sapart, apart in *. lia.
    + intros b t Hbt. cbn in Hbt. pose proof (wf_free_use _ _ W _ _ _ _ Ha Hbt).
      unfold apart in *. lia.
  - replace (d + bytes) with (d + size) by lia. by apply wf_remove_free.
Qed.

Lemma carve_bytes x :
  free_byte (carve m a size bytes) x <-> (free_byte m x /\ ~ (a <= x < a + bytes)).
Proof.
  unfold carve. case_bool_decide.
  - rewrite free_byte_insert; [rewrite free_byte_remove by eauto|].
    + split; [|intros [? ?]; destruct (decide (a <= x < a + size)); [left; lia|tauto]].
      intros [?|?]; [|split; [tauto|lia]].
      split; [exists a, size; split; [done|lia]|lia].
    + cbn. rewrite lookup_delete_ne by lia.
      destruct (free_chunks_start m !! (a + bytes)) eqn:E; [|done].
      pose proof (wf_free_disj _ _ W _ _ _ _ Ha E ltac:(lia)).
      pose proof (wf_free_range _ _ W _ _ E). unfold sapart in *. lia.
  - rewrite free_byte_remove by eauto. assert (size = bytes) as -> by lia. done.
Qed.

Lemma take_chunk_wf : bytes mod NVSHMEMI_MALLOC_ALIGNMENT = 0 -> wf_upto d (take_chunk m a size bytes).
Proof.
  intros Hm. rewrite take_chunk_carve. replace d with (d + bytes - bytes) by lia.
  apply wf_insert_use; auto using carve_wf, carve_fresh.
Qed.
End Carve.

(** ** Shared facts about blocks in use *)
Lemma fresh_sub d m a s b t :
  wf_upto d m -> inuse_chunks m !! a = Some s ->
  a <= b -> b + t <= a + s -> 0 < t -> b mod NVSHMEMI_MALLOC_ALIGNMENT = 0 ->
  fresh_block (remove_use m a) b t.
Proof.
  intros W Ha H1 H2 H3 H4. pose proof (wf_use_range _ _ W _ _ Ha). split; [lia| |]; cbn.
  - intros b' t' Hb. pose proof (wf_free_use _ _ W _ _ _ _ Hb Ha). unfold apart in *. lia.
  - intros b' t' [Hne Hb]%lookup_delete_Some.
    pose proof (wf_use_disj _ _ W _ _ _ _ Ha Hb Hne). unfold apart in *. lia.
Qed.

Lemma fresh_insert_use m a s b t :
  fresh_block m a s -> apart a s b t -> fresh_block (insert_use m b t) a s.
Proof.
  intros [F FF FU] Hp. split; [done|done|]. cbn.
  intros b' t' [[<- <-]|[? Hb]]%lookup_insert_Some; eauto.
Qed.

(** Cutting the tail (or the head) off a block in use and releasing it. *)
Lemma trim_use m a s b t b' t' :
  wf m -> inuse_chunks m !! a = Some s ->
  a <= b -> b + t <= a + s -> 0 < t -> b mod NVSHMEMI_MALLOC_ALIGNMENT = 0 ->
  t mod NVSHMEMI_MALLOC_ALIGNMENT = 0 ->
  a <= b' -> b' + t' <= a + s -> 0 < t' -> b' mod NVSHMEMI_MALLOC_ALIGNMENT = 0 ->
  apart b' t' b t -> t + t' = s ->
  exists m', add_free_chunk (insert_use (remove_use m a) b t) b' t' = Ret m' /\ wf m' /\
    inuse_chunks m' = <[b := t]> (delete a (inuse_chunks m)) /\ total_size m' = total_size m /\
    (forall x, free_byte m' x <-> (b' <= x < b' + t' \/ free_byte m x)).
Proof.
  intros W Ha H1 H2 H3 H4 H5 H6 H7 H8 H9 Hap Hs.
  assert (wf_upto t' (insert_use (remove_use m a) b t)) as W2.
  { replace t' with (0 + s - t) by lia.
    apply wf_insert_use; [by apply wf_remove_use|by eapply fresh_sub|done]. }
  assert (fresh_block (insert_use (remove_use m a) b t) b' t') as F2.
  { apply fresh_insert_use; [|done]. by eapply fresh_sub. }
  rewrite add_free_chunk_release by done.
  destruct (release_spec _ _ _ W2 F2) as (W3 & U3 & T3 & B3). eauto 10.
Qed.

Lemma pow2_of_land a : 0 < a -> Z.land a (a - 1) = 0 -> a = 2 ^ Z.log2 a.
Proof.
  intros Ha Hl. pose proof (Z.log2_spec a Ha) as [Hlo Hhi].
  destruct (decide (a = 2 ^ Z.log2 a)) as [|Hne]; [done|exfalso].
  assert (Z.log2 (a - 1) = Z.log2 a) as Hlog.
  { apply Z.log2_unique; [apply Z.log2_nonneg|lia]. }
  assert (Z.testbit (Z.land a (a - 1)) (Z.log2 a) = true) as Hb.
  { rewrite Z.land_spec, Z.bit_log2 by done.
    rewrite <- Hlog. apply Z.bit_log2.
    assert (1 <= 2 ^ Z.log2 a); [|lia].
    pose proof (pow2_pos (Z.log2 a) (Z.log2_nonneg a)). lia. }
  rewrite Hl, Z.testbit_0_l in Hb. done.
Qed.

(** Powers of two are comparable by divisibility. *)
Lemma pow2_divide_512 k : 0 <= k -> (2 ^ k | 512) \/ (512 | 2 ^ k).
Proof.
  intros Hk. change 512 with (2 ^ 9). destruct (decide (k <= 9)); [left|right].
  - exists (2 ^ (9 - k)). rewrite <- Z.pow_add_r by lia. f_equal. lia.
  - exists (2 ^ (k - 9)). rewrite <- Z.pow_add_r by lia. f_equal. lia.
Qed.

(** Rounding an aligned address up to a power-of-two alignment moves it by a
    multiple of the allocator's granule. *)
Lemma round_up_spec al p :
  0 < al -> Z.land al (al - 1) = 0 -> 0 <= p -> p mod NVSHMEMI_MALLOC_ALIGNMENT = 0 ->
  let r := al * ((p + (al - 1)) / al) in
  p <= r < p + al /\ r mod al = 0 /\ r mod NVSHMEMI_MALLOC_ALIGNMENT = 0.
Proof.
  intros Hal Hl Hp Hm r. unfold NVSHMEMI_MALLOC_ALIGNMENT in *.
  assert (p <= r < p + al) as Hr.
  { unfold r. Z.div_mod_to_equations. nia. }
  assert (r mod al = 0) as Hra by (unfold r; rewrite Z.mul_comm; apply Z.mod_mul; lia).
  split; [done|split; [done|]].
  destruct (pow2_divide_512 (Z.log2 al) (Z.log2_nonneg al)) as [Hd|Hd];
    rewrite <- pow2_of_land in Hd by done.
  - assert (r = p) as ->; [|done].
    assert (p mod al = 0) as Hpa.
    { apply Z.mod_divide; [lia|]. etrans; [exact Hd|]. apply Z.mod_divide; [lia|done]. }
    unfold r. clear - Hpa Hal. apply Z.mod_divide in Hpa as [q ->]; [|lia].
    replace (q * al + (al - 1)) with (al - 1 + q * al) by lia.
    rewrite Z.div_add, Z.div_small by lia. lia.
  - apply Z.mod_divide; [lia|]. etrans; [exact Hd|]. by apply Z.mod_divide; [lia|].
Qed.

End Mspace.
