(* ===== verification/MspaceSpec.v ===== *)
(** * Correctness of the symmetric-heap allocator

    The theorems about [Mspace]: functional behaviour of each operation, the
    invariant over every sequence of calls, the round trip of allocation and
    release, and the two defects of [reallocate] and [align_request]. *)
From stdpp Require Import base gmap list sorting.
From Stdlib Require Import ZArith Lia.
From S2P Require Import Prelude Mspace.
Import Mspace.

(** ** Allocation *)

(** What a successful [allocate] is: first fit, in address order. *)
Lemma allocate_inv m b p m' :
  allocate m b = (Some p, m') ->
  b <> 0 /\ exists size, free_chunks_start m !! p = Some size /\ align_request b <= size /\
    m' = take_chunk m p size (align_request b) /\
    (forall a s, free_chunks_start m !! a = Some s -> align_request b <= s -> p <= a).
Proof.
  unfold allocate. case_bool_decide; [done|].
  destruct (find_chunk _ _) as [[a s]|] eqn:E; [|done]. intros [= <- <-].
  apply find_chunk_Some in E as (Hin & Hs & Hmin); [|apply entries_sorted].
  apply entries_spec in Hin. split; [done|]. exists s. repeat split; auto; [lia|].
  intros a' s' Ha' Hs'. apply (Hmin a' s'); [by apply entries_spec|lia].
Qed.

Lemma allocate_spec m b p m' :
  wf m -> 0 < b <= 2 ^ 64 - 512 -> allocate m b = (Some p, m') ->
  wf m' /\ p mod NVSHMEMI_MALLOC_ALIGNMENT = 0 /\ b <= align_request b /\
  inuse_chunks m !! p = None /\ inuse_chunks m' = <[p := align_request b]> (inuse_chunks m) /\
  (forall x, p <= x < p + align_request b -> free_byte m x /\ ~ used_byte m x) /\
  (forall x, free_byte m' x <-> (free_byte m x /\ ~ (p <= x < p + align_request b))) /\
  (forall a s, free_chunks_start m !! a = Some s -> align_request b <= s -> p <= a).
Proof.
  intros W Hb (_ & size & Hp & Hs & -> & Hmin)%allocate_inv.
  destruct (align_request_spec b Hb) as (Hr & Hm & Hpos).
  pose proof (wf_free_range _ _ W _ _ Hp) as R.
  assert (0 < align_request b <= size) as Hbs by lia. rewrite (take_chunk_carve 0) by done.
  split; [rewrite <- (take_chunk_carve 0) by (done || lia); apply take_chunk_wf; (done || lia)|].
  pose proof (carve_fresh 0 m p size (align_request b) W Hp ltac:(lia) Hm) as [_ _ FU].
  assert (inuse_chunks (carve m p size (align_request b)) = inuse_chunks m) as EU
    by (unfold carve; case_bool_decide; done).
  rewrite EU in FU. cbn. rewrite EU.
  split; [apply R|split; [lia|split; [|split; [done|split; [|split; [|done]]]]]].
  - destruct (inuse_chunks m !! p) as [t|] eqn:Hu; [|done].
    pose proof (wf_use_range _ _ W _ _ Hu). destruct (FU _ _ Hu); lia.
  - intros x Hx. split; [exists p, size; split; [done|lia]|].
    intros (u & t & Hu & Hxu). destruct (FU _ _ Hu); lia.
  - intros x. exact (carve_bytes 0 m p size (align_request b) W Hp Hbs x).
Qed.

(** A small heap used by the witnesses: 4 KiB at address 4096. *)
Definition heap0 : mspace := mspace_new 4096 4096.

Lemma mspace_new_spec base capacity :
  0 <= base -> align_offset base < capacity -> base + capacity < 2 ^ 64 ->
  wf (mspace_new base capacity) /\
  (forall x, free_byte (mspace_new base capacity) x <->
             base + align_offset base <= x < base + capacity) /\
  inuse_chunks (mspace_new base capacity) = ∅.
Proof.
  intros Hb Hc Hs.
  assert (0 <= align_offset base < 512 /\ (base + align_offset base) mod 512 = 0) as [Ho Ha].
  { unfold align_offset, CHUNK_ALIGN_MASK, NVSHMEMI_MALLOC_ALIGNMENT.
    change (512 - 1) with (2 ^ 9 - 1). rewrite !land_low_mask by lia. change (2 ^ 9) with 512.
    case_bool_decide; Z.div_mod_to_equations; lia. }
  unfold mspace_new. u64_small. rewrite bool_decide_eq_true_2 by lia.
  set (o := align_offset base) in *.
  assert (wf_upto (capacity - o) (MkMspace ∅ ∅ ∅ (capacity - o))) as W0.
  { split; cbn; try done; unfold get_total_size; rewrite ?map_sum_empty;
      unfold in_u; lia. }
  assert (MkMspace {[base + o := capacity - o]} {[base + o + (capacity - o) := capacity - o]} ∅
            (capacity - o) =
          insert_free (MkMspace ∅ ∅ ∅ (capacity - o)) (base + o) (capacity - o)) as ->.
  { unfold insert_free; cbn. by rewrite !insert_empty. }
  split; [|split; [|done]].
  - unfold wf. replace 0 with (capacity - o - (capacity - o)) by lia.
    apply wf_insert_free; [done| |done]. split; cbn; [|done|done].
    unfold NVSHMEMI_MALLOC_ALIGNMENT. lia.
  - intros x. rewrite free_byte_insert by done. split; [|left; lia].
    intros [?|(a & s & ? & _)]; [lia|done].
Qed.

Lemma heap0_wf : wf heap0.
Proof. apply (mspace_new_spec 4096 4096); [lia | vm_compute; reflexivity | lia]. Qed.

Lemma allocate_none m b :
  (fst (allocate m b) = None <->
     b = 0 \/ forall a s, free_chunks_start m !! a = Some s -> s < align_request b) /\
  (fst (allocate m b) = None -> snd (allocate m b) = m).
Proof.
  unfold allocate. case_bool_decide; [tauto|].
  destruct (find_chunk _ _) as [[a s]|] eqn:E; cbn.
  - apply find_chunk_Some in E as (Hin & Hs & _); [|apply entries_sorted].
    apply entries_spec in Hin. split; [|done]. split; [done|].
    intros [?|Hall]; [done|]. specialize (Hall _ _ Hin). lia.
  - rewrite find_chunk_None in E. split; [|done]. split; [|done]. intros _. right.
    intros a s Ha. apply (E a). by apply entries_spec.
Qed.

(** ** Release *)

Lemma deallocate_use m p s :
  inuse_chunks m !! p = Some s -> deallocate m p = add_free_chunk (remove_use m p) p s.
Proof. intros H. unfold deallocate. by rewrite H. Qed.

Lemma deallocate_spec m p :
  wf m ->
  match inuse_chunks m !! p with
  | Some s => exists m', deallocate m p = Ret m' /\ wf m' /\
      inuse_chunks m' = delete p (inuse_chunks m) /\
      (forall x, free_byte m' x <-> (p <= x < p + s \/ free_byte m x))
  | None => deallocate m p = Fail (FExit (-1))
  end.
Proof.
  intros W. destruct (inuse_chunks m !! p) as [s|] eqn:Hp;
    [rewrite (deallocate_use _ _ _ Hp)|unfold deallocate; by rewrite Hp].
  pose proof (wf_use_range _ _ W _ _ Hp) as R.
  pose proof (wf_remove_use _ _ W _ _ Hp) as W1. rewrite Z.add_0_l in W1.
  pose proof (fresh_sub 0 m p s p s W Hp ltac:(lia) ltac:(lia) ltac:(lia) ltac:(apply R)) as F.
  rewrite add_free_chunk_release by done.
  destruct (release_spec _ _ _ W1 F) as (W2 & U2 & _ & B2). eauto.
Qed.

(** A round trip: releasing the block [allocate] has just returned restores
    the allocator's state exactly, the coalesced maps included. *)
Theorem allocate_deallocate_roundtrip m b p m' :
  wf m -> 0 < b <= 2 ^ 64 - 512 -> allocate m b = (Some p, m') -> deallocate m' p = Ret m.
Proof.
  intros W Hb Ha. pose proof (allocate_spec _ _ _ _ W Hb Ha) as (W' & _ & _ & Hn & Hu & _).
  apply allocate_inv in Ha as (_ & size & Hp & Hs & -> & _).
  destruct (align_request_spec b Hb) as (Hr & Hm & Hpos).
  pose proof (wf_free_range _ _ W _ _ Hp) as R. set (n := align_request b) in *.
  assert (0 < n <= size) as Hbs by lia. clearbody n. clear Hb Hr.
  rewrite (take_chunk_carve 0 m p size n) in * by done.
  rewrite (deallocate_use _ p n) by (rewrite Hu; apply lookup_insert_eq).
  assert (remove_use (insert_use (carve m p size n) p n) p = carve m p size n) as ->.
  { unfold remove_use, insert_use in *; cbn in *.
    assert (inuse_chunks (carve m p size n) = inuse_chunks m) as EU
      by (unfold carve; case_bool_decide; done).
    rewrite delete_insert_id by (rewrite EU; done). by destruct (carve m p size n). }
  pose proof (carve_wf 0 m p size n W Hp Hbs Hm) as Wc. rewrite Z.add_0_l in Wc.
  pose proof (carve_fresh 0 m p size n W Hp Hbs Hm) as Fc.
  rewrite add_free_chunk_release by done. f_equal.
  pose proof (no_end_at_start _ _ W _ _ Hp) as NE.
  pose proof (wf_ends _ _ W _ _ Hp) as HE.
  assert (forall q t, free_chunks_start m !! q = Some t -> q <> p -> ~ (p <= q <= p + size)) as NS.
  { intros q t Hq Hne. pose proof (wf_free_disj _ _ W _ _ _ _ Hp Hq ltac:(congruence)).
    pose proof (wf_free_range _ _ W _ _ Hq). unfold sapart in *. lia. }
  destruct m as [fs fe iu tot]; cbn in *.
  unfold release, coalesce_prev, carve, remove_free, insert_free; cbn.
  case_bool_decide; cbn.
  - replace (p + n + (size - n)) with (p + size) by lia.
    rewrite lookup_insert_ne, lookup_delete_ne, NE by lia.
    unfold coalesce_next; cbn. rewrite lookup_insert_eq. cbn.
    replace (p + n + (size - n)) with (p + size) by lia.
    replace (n + (size - n)) with size by lia. f_equal; map_crush.
    destruct (fs !! (p + n)) eqn:E; [|done]. exfalso. eapply NS; [exact E|lia|lia].
  - assert (n = size) as -> by lia. rewrite lookup_delete_ne, NE by lia.
    unfold coalesce_next; cbn. rewrite lookup_delete_ne by lia.
    assert (fs !! (p + size) = None) as ->.
    { destruct (fs !! (p + size)) eqn:E; [|done]. exfalso. eapply NS; [exact E|lia|lia]. }
    cbn. f_equal; map_crush.
Qed.

Lemma allocate_deallocate_roundtrip_witness :
  deallocate (snd (allocate heap0 100)) 4096 = Ret heap0.
Proof.
  apply (allocate_deallocate_roundtrip heap0 100 4096);
    [apply heap0_wf | lia | vm_compute; reflexivity].
Defined.

Lemma allocate_total m b r m' : allocate m b = (r, m') -> total_size m' = total_size m.
Proof.
  unfold allocate. case_bool_decide; [by intros [= _ <-]|].
  destruct (find_chunk _ _) as [[a s]|]; intros [= _ <-]; [|done].
  unfold take_chunk. by case_bool_decide.
Qed.

Lemma allocate_aligned_spec m al bytes :
  wf m -> 0 < al -> al mod 8 = 0 -> Z.land al (al - 1) = 0 ->
  0 <= bytes -> bytes + al <= 2 ^ 64 - 512 ->
  exists r m', allocate_aligned m al bytes = Ret (r, m') /\ wf m' /\
  match r with
  | None => m' = m
  | Some q => q mod al = 0 /\ exists s, inuse_chunks m' = <[q := s]> (inuse_chunks m) /\
      total_size m' = total_size m /\ bytes <= s /\ inuse_chunks m !! q = None /\ (forall x, q <= x < q + s -> free_byte m x) /\
      (forall x, free_byte m' x <-> (free_byte m x /\ ~ (q <= x < q + s)))
  end.
Proof.
  intros W Hal H8 Hl Hb Hsum. unfold allocate_aligned.
  rewrite (wrap_small 64 (al - 1)), (wrap_small 64 (bytes + al)) by (unfold in_u; lia).
  rewrite (bool_decide_eq_true_2 (al mod 8 = 0 /\ _)) by auto. cbn [cassert]. rewrite outcome_bind_ret.
  destruct (allocate m (bytes + al)) as [[p|] m1] eqn:Ea.
  2:{ exists None, m1. assert (m1 = m) as -> by
        (rewrite <- (proj2 (allocate_none m (bytes + al))); rewrite Ea; done). auto. }
  destruct (allocate_spec m (bytes + al) p m1 W ltac:(lia) Ea) as (W1 & Hp & _ & Hn & Hu & Hfree & HB & _).
  destruct (align_request_spec (bytes + al) ltac:(lia)) as (Hr & Hm & Hpos).
  set (n := align_request (bytes + al)) in *.
  assert (inuse_chunks m1 !! p = Some n) as Hup by (rewrite Hu; apply lookup_insert_eq).
  pose proof (wf_use_range _ _ W1 _ _ Hup) as R.
  rewrite bool_decide_eq_false_2 by lia.
  rewrite (wrap_small 64 (p + _)) by (unfold in_u; lia).
  destruct (round_up_spec al p Hal Hl ltac:(lia) Hp) as (Hq1 & Hq2 & Hq3).
  set (q := al * ((p + (al - 1)) / al)) in *. rewrite (wrap_small 64 q) by (unfold in_u; lia). clearbody q n.
  case_bool_decide as Hd.
  - assert (q = p) as -> by lia. exists (Some p), m1.
    split; [done|split; [done|split; [done|]]].
    exists n. split; [done|split; [by eapply allocate_total|split; [lia|split; [done|split; [|done]]]]].
    intros. by apply Hfree.
  - rewrite Hup; cbn [default id]. rewrite (wrap_small 64 (n - (q - p))), (wrap_small 64 (q - p)) by (unfold in_u; lia).
    assert (p <> q) as Hne by lia.
    assert (MkMspace (free_chunks_start m1) (free_chunks_end m1)
              (delete p (<[q := n - (q - p)]> (inuse_chunks m1))) (total_size m1) =
            insert_use (remove_use m1 p) q (n - (q - p))) as ->.
    { unfold insert_use, remove_use; cbn. f_equal. map_crush. }
    destruct (trim_use m1 p n q (n - (q - p)) p (q - p)) as (m2 & E2 & W2 & U2 & T2 & B2);
      auto; try lia.
    { unfold NVSHMEMI_MALLOC_ALIGNMENT in *. Z.div_mod_to_equations. lia. }
    { left. lia. }
    rewrite E2, outcome_bind_ret. exists (Some q), m2. split; [done|split; [done|split; [done|]]].
    exists (n - (q - p)). rewrite U2, Hu, delete_insert_id by done.
    split; [done|split; [by rewrite T2; eapply allocate_total|split; [lia|]]]. split; [|split].
    + destruct (inuse_chunks m !! q) as [t|] eqn:Hq; [|done]. exfalso.
      destruct (Hfree q ltac:(lia)) as [_ Huse]. apply Huse. exists q, t.
      pose proof (wf_use_range _ _ W _ _ Hq). split; [done|lia].
    + intros x Hx. apply Hfree. lia.
    + intros x. rewrite B2, HB. split; [|intros [? ?]; destruct (decide (x < q)); [|right; split; [done|lia]]].
      * intros [?|[? ?]]; [split; [apply Hfree; lia|lia]|split; [done|lia]].
      * destruct (decide (p <= x)); [left; lia|right; split; [done|lia]].
Qed.

(** ** Every sequence of calls keeps the accounting *)

(** Calls the symmetric heap makes on an [mspace].  The bounds exclude requests
    whose rounding wraps around. *)
Inductive mstep : mspace -> mspace -> Prop :=
| step_allocate m b r m' :
    0 <= b <= 2 ^ 64 - 512 -> allocate m b = (r, m') -> mstep m m'
| step_allocate_zeroed m n e r m' z :
    u64 (n * e) <= 2 ^ 64 - 512 -> allocate_zeroed m n e = (r, m', z) -> mstep m m'
| step_allocate_aligned m al b r m' :
    0 < al -> 0 <= b -> b + al <= 2 ^ 64 - 512 ->
    allocate_aligned m al b = Ret (r, m') -> mstep m m'
| step_deallocate m p m' : deallocate m p = Ret m' -> mstep m m'
| step_add_new_chunk m base cap m' :
    fresh_block m base cap -> total_size m + cap < 2 ^ 64 ->
    add_new_chunk m base cap = Ret m' -> mstep m m'.

Lemma allocate_wf m b r m' : wf m -> 0 <= b <= 2 ^ 64 - 512 -> allocate m b = (r, m') -> wf m'.
Proof.
  intros W Hb E. destruct r as [p|].
  - destruct (decide (b = 0)) as [->|]; [done|].
    destruct (allocate_spec m b p m' W ltac:(lia) E). done.
  - pose proof (proj2 (allocate_none m b)) as H. rewrite E in H. cbn in H.
    by rewrite H.
Qed.

Lemma allocate_aligned_guard m al b r :
  0 < al < 2 ^ 64 -> allocate_aligned m al b = Ret r -> al mod 8 = 0 /\ Z.land al (al - 1) = 0.
Proof.
  intros Hal. unfold allocate_aligned. rewrite (wrap_small 64 (al - 1)) by (unfold in_u; lia).
  intros (u & Hc & _)%outcome_bind_inv. unfold cassert in Hc. case_bool_decide; [done|discriminate].
Qed.

Lemma mstep_wf m m' : wf m -> mstep m m' -> wf m'.
Proof.
  intros W S. destruct S as [m b r m' Hb E|m n e r m' z Hb E|m al b r m' H1 H2 H3 E|m p m' E|m base cap m' F T E].
  - by eapply allocate_wf.
  - unfold allocate_zeroed in E. pose proof (wrap_in_u 64 (n * e) ltac:(lia)) as Hu.
    unfold in_u in Hu.
    destruct (allocate m (u64 (n * e))) as [[p|] m1] eqn:Ea; injection E as <- <- <-;
      (eapply allocate_wf; [exact W| |exact Ea]; lia).
  - destruct (allocate_aligned_guard m al b (r, m') ltac:(lia) E) as [H8 Hl].
    destruct (allocate_aligned_spec m al b) as (r1 & m1 & E1 & W1 & _); auto.
    rewrite E in E1. injection E1 as -> ->. done.
  - pose proof (deallocate_spec m p W) as H.
    destruct (inuse_chunks m !! p).
    + destruct H as (m1 & E1 & W1 & _). congruence.
    + congruence.
  - unfold add_new_chunk in E. pose proof (wf_total_range _ _ W) as TR. unfold in_u in TR.
    destruct F as [Fr FF FU].
    rewrite (wrap_small 64) in E by (unfold in_u; lia).
    destruct W as [a1 a2 a3 a4 a5 a6 a7 a8 a9 a10].
    rewrite add_free_chunk_release in E; [|split; cbn; auto; unfold in_u; lia|split; auto].
    injection E as <-. apply release_spec; [split; cbn; auto; unfold in_u; lia|split; auto].
Qed.

Lemma msteps_wf m m' : wf m -> rtc mstep m m' -> wf m'.
Proof. intros W R. induction R as [m|m m1 m2 S R IH]; [done|]. apply IH. by eapply mstep_wf. Qed.

(** ** Facts for the clients of the allocator *)

Lemma mspace_empty_wf : wf mspace_empty.
Proof. split; try done; cbn; by intros; rewrite lookup_empty in *. Qed.

(** Adding a range no chunk knows: exactly its bytes become free. *)
Lemma add_new_chunk_spec m base cap :
  wf m -> fresh_block m base cap -> total_size m + cap < 2 ^ 64 ->
  exists m', add_new_chunk m base cap = Ret m' /\ wf m' /\ inuse_chunks m' = inuse_chunks m /\
    total_size m' = total_size m + cap /\
    (forall x, free_byte m' x <-> (base <= x < base + cap \/ free_byte m x)).
Proof.
  intros W F T. pose proof (wf_total_range _ _ W) as TR. unfold in_u in TR.
  destruct F as [Fr FF FU]. unfold add_new_chunk. rewrite (wrap_small 64) by (unfold in_u; lia).
  set (m0 := MkMspace _ _ _ _).
  assert (wf_upto cap m0) as W0.
  { destruct W. split; cbn; auto; unfold in_u; lia. }
  assert (fresh_block m0 base cap) as F0 by (split; auto).
  rewrite (add_free_chunk_release m0 base cap W0 F0).
  destruct (release_spec m0 base cap W0 F0) as (W1 & U1 & T1 & B1). eauto 10.
Qed.

(** Free chunks never touch, so a range of free bytes lies in one chunk. *)
Lemma free_range_chunk m a n :
  wf m -> 0 < n -> (forall x, a <= x < a + n -> free_byte m x) ->
  exists b t, free_chunks_start m !! b = Some t /\ b <= a /\ a + n <= b + t.
Proof.
  intros W Hn HF. destruct (HF a ltac:(lia)) as (b & t & Hb & Hx).
  exists b, t. split; [done|]. split; [lia|].
  destruct (decide (a + n <= b + t)) as [|Hlt]; [done|exfalso].
  destruct (HF (b + t) ltac:(lia)) as (b' & t' & Hb' & Hx').
  destruct (decide (b = b')) as [->|Hne]; [assert (t = t') as -> by congruence; lia|].
  destruct (wf_free_disj _ _ W _ _ _ _ Hb Hb' Hne); lia.
Qed.

(** A free range that holds the rounded request makes the allocation succeed. *)
Lemma allocate_in_range m a n b :
  wf m -> 0 < b -> 0 < n -> align_request b <= n ->
  (forall x, a <= x < a + n -> free_byte m x) -> exists p m', allocate m b = (Some p, m').
Proof.
  intros W Hb Hn Hr HF. destruct (free_range_chunk m a n W Hn HF) as (c & t & Hc & Hc1 & Hc2).
  destruct (allocate m b) as [[p|] m'] eqn:E; [eauto|]. exfalso.
  pose proof (proj1 (proj1 (allocate_none m b))) as HN. rewrite E in HN.
  destruct (HN eq_refl) as [?|Hall]; [lia|]. specialize (Hall _ _ Hc). lia.
Qed.

Lemma deallocate_total m p m' : wf m -> deallocate m p = Ret m' -> total_size m' = total_size m.
Proof.
  intros W E. destruct (inuse_chunks m !! p) as [s|] eqn:Hp; [|unfold deallocate in E; by rewrite Hp in E].
  rewrite (deallocate_use _ _ _ Hp) in E. pose proof (wf_use_range _ _ W _ _ Hp) as R.
  pose proof (wf_remove_use _ _ W _ _ Hp) as W1. rewrite Z.add_0_l in W1.
  pose proof (fresh_sub 0 m p s p s W Hp ltac:(lia) ltac:(lia) ltac:(lia) ltac:(apply R)) as F.
  rewrite add_free_chunk_release in E by done. injection E as <-.
  by destruct (release_spec _ _ _ W1 F) as (_ & _ & -> & _).
Qed.

(** From any well-formed heap, every sequence of allocations (plain, zeroed,
    aligned), releases and extensions keeps the representation invariant, and
    the consistency check the debug build asserts after each call succeeds. *)
Theorem mspace_reachable_wf m m' :
  wf m -> rtc mstep m m' -> wf m' /\ ASSERT_CORRECTNESS m' = true.
Proof.
  intros W R. pose proof (msteps_wf m m' W R) as W'.
  split; [done|]. apply bool_decide_eq_true_2.
  destruct W'. rewrite wf_sum_ends0. split; [done|].
  rewrite Z.add_0_r in wf_total0. rewrite <- wf_total0. by apply wrap_small.
Qed.

Lemma mspace_reachable_wf_witness :
  ASSERT_CORRECTNESS (snd (allocate (snd (allocate heap0 100)) 700)) = true.
Proof.
  apply (mspace_reachable_wf heap0); [apply heap0_wf|].
  eapply rtc_l; [apply (step_allocate heap0 100 (Some 4096) (snd (allocate heap0 100)));
                 [lia|vm_compute; reflexivity]|].
  eapply rtc_l; [|apply rtc_refl].
  apply (step_allocate _ 700 (Some 4608)); [lia|vm_compute; reflexivity].
Defined.

(** ** Reallocation *)
Lemma align_request_idem b :
  0 < b <= 2 ^ 64 - 512 ->
  align_request (align_request b) = align_request b /\ align_request b <= 2 ^ 64 - 512.
Proof.
  intros Hb. destruct (align_request_spec b Hb) as (H1 & H2 & H3).
  set (n := align_request b) in *. clearbody n. unfold NVSHMEMI_MALLOC_ALIGNMENT in *.
  assert (n <= 2 ^ 64 - 512) as Hn by (Z.div_mod_to_equations; lia).
  split; [|done].
  destruct (align_request_spec n ltac:(lia)) as (H4 & H5 & _).
  unfold NVSHMEMI_MALLOC_ALIGNMENT in *. Z.div_mod_to_equations. lia.
Qed.

Lemma insert_use_same m p s : inuse_chunks m !! p = Some s ->
  MkMspace (free_chunks_start m) (free_chunks_end m) (<[p := s]> (inuse_chunks m)) (total_size m) = m.
Proof. intros H. rewrite insert_id by done. by destruct m. Qed.

Definition realloc_move (m : mspace) (ptr current_size size : Z)
  : outcome (option Z * mspace * option (Z * Z * Z)) :=
  match allocate m size with
  | (None, m) => Ret (None, m, None)
  | (Some new_ptr, m) =>
      m ← add_free_chunk (remove_use m ptr) ptr current_size;
      Ret (Some new_ptr, m, Some (new_ptr, ptr, size))
  end.

(** The moving branch: a new block, then the release of the old one. *)
Lemma realloc_moved m ptr cur size :
  wf m -> inuse_chunks m !! ptr = Some cur -> 0 < size <= 2 ^ 64 - 512 -> align_request size = size ->
  exists r m' c, realloc_move m ptr cur size = Ret (r, m', c) /\ wf m' /\
  match r with
  | Some q => inuse_chunks m' = <[q := size]> (delete ptr (inuse_chunks m))
  | None => m' = m
  end.
Proof.
  intros W Hp Hs Hid. unfold realloc_move.
  destruct (allocate m size) as [[q|] m1] eqn:Ea.
  2:{ exists None, m1, None. pose proof (proj2 (allocate_none m size)) as H.
      rewrite Ea in H. cbn in H. by rewrite H. }
  destruct (allocate_spec m size q m1 W Hs Ea) as (W1 & _ & _ & Hn & Hu & _).
  rewrite Hid in Hu. assert (ptr <> q) as Hne by congruence.
  pose proof (wf_use_range _ _ W _ _ Hp) as R.
  assert (inuse_chunks m1 !! ptr = Some cur) as Hp1 by (by rewrite Hu, lookup_insert_ne).
  pose proof (wf_remove_use _ _ W1 _ _ Hp1) as W2. rewrite Z.add_0_l in W2.
  pose proof (fresh_sub 0 m1 ptr cur ptr cur W1 Hp1 ltac:(lia) ltac:(lia) ltac:(lia) ltac:(apply R)) as F.
  rewrite add_free_chunk_release by done. rewrite outcome_bind_ret.
  destruct (release_spec _ _ _ W2 F) as (W3 & U3 & _).
  eexists _, _, _. split; [done|split; [done|]]. cbn. rewrite U3. cbn. rewrite Hu. map_crush.
Qed.

(** A block that swallows the free chunk behind it. *)
Lemma realloc_absorbs m ptr cur chunk size :
  wf m -> inuse_chunks m !! ptr = Some cur -> free_chunks_start m !! (ptr + cur) = Some chunk ->
  size = cur + chunk -> size mod NVSHMEMI_MALLOC_ALIGNMENT = 0 ->
  wf (MkMspace (delete (ptr + cur) (free_chunks_start m)) (delete (ptr + cur + chunk) (free_chunks_end m))
        (<[ptr := size]> (inuse_chunks m)) (total_size m)).
Proof.
  intros W Hp Hc Hs Hm. pose proof (wf_use_range _ _ W _ _ Hp) as R. pose proof (wf_free_range _ _ W _ _ Hc) as Rc.
  assert (MkMspace (delete (ptr + cur) (free_chunks_start m)) (delete (ptr + cur + chunk) (free_chunks_end m))
            (<[ptr := size]> (inuse_chunks m)) (total_size m) =
          insert_use (remove_use (remove_free m (ptr + cur) chunk) ptr) ptr size) as ->.
  { unfold insert_use, remove_use, remove_free; cbn. by rewrite insert_delete_eq. }
  pose proof (wf_remove_free _ _ W _ _ Hc) as W1. pose proof (wf_remove_use _ _ W1 ptr cur Hp) as W2.
  unfold wf. replace 0 with (0 + chunk + cur - size) by lia. apply wf_insert_use; [done| |done].
  split; cbn; [lia| |].
  - intros b t [Hne Hb]%lookup_delete_Some.
    pose proof (wf_free_disj _ _ W _ _ _ _ Hc Hb Hne).
    pose proof (wf_free_use _ _ W _ _ _ _ Hb Hp). pose proof (wf_free_range _ _ W _ _ Hb).
    unfold apart, sapart in *. lia.
  - intros b t [Hne Hb]%lookup_delete_Some.
    pose proof (wf_free_use _ _ W _ _ _ _ Hc Hb).
    pose proof (wf_use_disj _ _ W _ _ _ _ Hp Hb Hne). pose proof (wf_use_range _ _ W _ _ Hb).
    unfold apart in *. lia.
Qed.

(** [reallocate] of a block in use to a positive size, except for growth in
    place that leaves part of the following free chunk over: the call returns,
    the block is moved or resized to the rounded size and nothing else changes,
    or null is returned and the old block is kept; the invariant is kept. *)
Theorem reallocate_correct m ptr cur req :
  wf m -> inuse_chunks m !! ptr = Some cur -> 0 < req <= 2 ^ 64 - 512 ->
  (forall chunk, free_chunks_start m !! (ptr + cur) = Some chunk ->
     cur < align_request req -> cur + chunk <= align_request req) ->
  exists r m' c, reallocate m ptr req = Ret (r, m', c) /\ wf m' /\
  match r with
  | Some q => inuse_chunks m' = <[q := align_request req]> (delete ptr (inuse_chunks m))
  | None => m' = m
  end.
Proof.
  intros W Hp Hreq Hex. unfold reallocate. rewrite Hp. cbn [default id].
  rewrite (insert_use_same _ _ _ Hp).
  destruct (align_request_spec req Hreq) as (Hr & Hm & Hpos).
  destruct (align_request_idem req Hreq) as (Hid & Hmax).
  set (size := align_request req) in *.
  pose proof (wf_use_range _ _ W _ _ Hp) as R.
  case_bool_decide as Hlt; [|case_bool_decide as Hgt].
  - rewrite (wrap_small 64 (ptr + size)), (wrap_small 64 (cur - size)) by (unfold in_u; lia).
    assert (MkMspace (free_chunks_start m) (free_chunks_end m) (<[ptr := size]> (inuse_chunks m))
              (total_size m) = insert_use (remove_use m ptr) ptr size) as ->.
    { unfold insert_use, remove_use; cbn. by rewrite insert_delete_eq. }
    destruct (trim_use m ptr cur ptr size (ptr + size) (cur - size))
      as (m2 & E2 & W2 & U2 & _); auto; try lia.
    { unfold NVSHMEMI_MALLOC_ALIGNMENT in *. Z.div_mod_to_equations. lia. }
    { right. lia. }
    rewrite E2, outcome_bind_ret. eauto 6.
  - rewrite (wrap_small 64 (ptr + cur)) by (unfold in_u; lia).
    destruct (free_chunks_start m !! (ptr + cur)) as [chunk|] eqn:Hc.
    + pose proof (wf_free_range _ _ W _ _ Hc) as Rc. pose proof (Hex _ eq_refl ltac:(lia)) as Hle.
      rewrite (wrap_small 64 (cur + chunk)) by (unfold in_u; lia).
      case_bool_decide as Hge.
      * rewrite bool_decide_eq_false_2 by lia.
        rewrite (wrap_small 64 (ptr + cur + chunk)) by (unfold in_u; lia).
        eexists _, _, _. split; [done|]. cbn. split; [|by rewrite insert_delete_eq].
        apply realloc_absorbs; auto. lia.
      * apply (realloc_moved m ptr cur size); auto. lia.
    + apply (realloc_moved m ptr cur size); auto. lia.
  - assert (size = cur) as -> by lia. exists (Some ptr), m, None. split; [done|split; [done|]].
    by rewrite insert_delete_eq, insert_id.
Qed.

(** Growth in place, when the following free chunk is larger than needed,
    gives back [size - current_size] bytes instead of what is left of the
    chunk: a free chunk then overlaps the next block in use. *)
Definition heap_realloc : mspace :=
  let m := mspace_new 0 2560 in
  let m := snd (allocate m 512) in
  let m := snd (allocate m 1536) in
  let m := snd (allocate m 512) in
  match deallocate m 512 with Ret m => m | Fail _ => m end.

(** A defect of [reallocate]: from a heap reached by ordinary calls, growing
    the block at 0 from 512 to 1536 bytes in place, and then allocating 1024
    bytes, hands out the range [1536, 2560) while [2048, 2560) still belongs to
    a live block. *)
Theorem reallocate_grow_overlap :
  inuse_chunks heap_realloc = {[0 := 512; 2048 := 512]} /\
  exists m', reallocate heap_realloc 0 1536 = Ret (Some 0, m', None) /\
    ASSERT_CORRECTNESS m' = false /\
    fst (allocate m' 1024) = Some 1536 /\
    inuse_chunks (snd (allocate m' 1024)) = {[0 := 1536; 1536 := 1024; 2048 := 512]}.
Proof.
  split; [vm_compute; reflexivity|]. eexists. split; [vm_compute; reflexivity|].
  split; [vm_compute; reflexivity|]. split; vm_compute; reflexivity.
Qed.

(** A defect of [align_request]: a request within 511 bytes of [SIZE_MAX]
    wraps to a request of zero bytes and succeeds on any heap that has a free
    chunk; the block it returns has size 0 and the whole free chunk is lost. *)
Theorem allocate_huge_succeeds m b :
  2 ^ 64 - 512 < b < 2 ^ 64 -> wf m -> free_chunks_start m <> ∅ ->
  exists p m' s, allocate m b = (Some p, m') /\ free_chunks_start m !! p = Some s /\
    inuse_chunks m' !! p = Some 0 /\ free_chunks_start m' = delete p (free_chunks_start m).
Proof.
  intros Hb W Hne. unfold allocate. rewrite bool_decide_eq_false_2 by lia.
  rewrite align_request_wraps by done.
  destruct (find_chunk _ _) as [[p s]|] eqn:E.
  - apply find_chunk_Some in E as (Hin & _); [|apply entries_sorted]. apply entries_spec in Hin.
    pose proof (wf_free_range _ _ W _ _ Hin) as R.
    exists p, (take_chunk m p s 0), s. split; [done|split; [done|]].
    unfold take_chunk. u64_small. rewrite bool_decide_eq_true_2 by lia. cbn.
    rewrite lookup_insert_eq, Z.add_0_r, Z.sub_0_r. split; [done|]. map_crush.
  - exfalso. apply Hne. apply map_eq. intros a. rewrite lookup_empty.
    destruct (free_chunks_start m !! a) eqn:Ha; [|done].
    rewrite find_chunk_None in E. apply entries_spec in Ha as Hin.
    specialize (E _ _ Hin). pose proof (wf_free_range _ _ W _ _ Ha). lia.
Qed.

Lemma allocate_huge_succeeds_witness :
  exists p m' s, allocate heap0 SIZE_MAX = (Some p, m') /\ free_chunks_start heap0 !! p = Some s /\
    inuse_chunks m' !! p = Some 0 /\ free_chunks_start m' = delete p (free_chunks_start heap0).
Proof.
  apply (allocate_huge_succeeds heap0 SIZE_MAX); [unfold SIZE_MAX; lia | apply heap0_wf |].
  intros H. apply (f_equal (fun f : gmap Z Z => f !! 4096)) in H. vm_compute in H. discriminate H.
Defined.

Lemma reallocate_correct_witness :
  exists r m' c, reallocate heap_realloc 0 2048 = Ret (r, m', c) /\ wf m' /\
  match r with
  | Some q => inuse_chunks m' = <[q := 2048]> (delete 0 (inuse_chunks heap_realloc))
  | None => m' = heap_realloc
  end.
Proof.
  apply (reallocate_correct heap_realloc 0 512 2048).
  - apply (msteps_wf (mspace_new 0 2560)).
    + apply (mspace_new_spec 0 2560); [lia | vm_compute; reflexivity | lia].
    + eapply rtc_l; [eapply (step_allocate _ 512); [lia|vm_compute; reflexivity]|].
      eapply rtc_l; [eapply (step_allocate _ 1536); [lia|vm_compute; reflexivity]|].
      eapply rtc_l; [eapply (step_allocate _ 512); [lia|vm_compute; reflexivity]|].
      eapply rtc_l; [eapply (step_deallocate _ 512); vm_compute; reflexivity|].
      apply rtc_refl.
  - vm_compute; reflexivity.
  - lia.
  - intros chunk H _. vm_compute in H. injection H as <-. vm_compute. discriminate.
Defined.

(** ** The theorems of the component *)

(** C21: on a well-formed space, a successful [allocate] of [b] bytes, where [b] is
    positive and at most 2^64 - 512 (above, the rounding of the request wraps,
    [allocate_huge_succeeds]), returns a 512-byte aligned block of
    the rounded size, made of bytes that were free and of no byte in use; the
    block is recorded in [inuse_chunks], exactly its bytes leave the free set,
    the choice is the lowest address that fits, and the invariant is kept. *)
Theorem allocate_correct m b p m' :
  wf m -> 0 < b <= 2 ^ 64 - 512 -> allocate m b = (Some p, m') ->
  wf m' /\ p mod NVSHMEMI_MALLOC_ALIGNMENT = 0 /\ b <= align_request b /\
  inuse_chunks m !! p = None /\ inuse_chunks m' = <[p := align_request b]> (inuse_chunks m) /\
  (forall x, p <= x < p + align_request b -> free_byte m x /\ ~ used_byte m x) /\
  (forall x, free_byte m' x <-> (free_byte m x /\ ~ (p <= x < p + align_request b))) /\
  (forall a s, free_chunks_start m !! a = Some s -> align_request b <= s -> p <= a).
Proof. apply allocate_spec. Qed.

Lemma allocate_correct_witness :
  allocate heap0 100 = (Some 4096, snd (allocate heap0 100)) /\ wf (snd (allocate heap0 100)).
Proof.
  split; [vm_compute; reflexivity|].
  apply (allocate_correct heap0 100 4096 (snd (allocate heap0 100)));
    [apply heap0_wf | lia | vm_compute; reflexivity].
Defined.

(** C40: [allocate] fails exactly when no single free chunk holds the rounded
    request (or the request is empty), and a failure changes nothing. *)
Theorem allocate_fails_iff m b :
  (fst (allocate m b) = None <->
     b = 0 \/ forall a s, free_chunks_start m !! a = Some s -> s < align_request b) /\
  (fst (allocate m b) = None -> snd (allocate m b) = m).
Proof. apply allocate_none. Qed.

(** C22: [deallocate] of a block in use never aborts: it returns the block's bytes
    (and no others) to the free set, forgets the block, leaves every other
    block alone and keeps the invariant, with free neighbours coalesced; any
    other pointer makes the process exit. *)
Theorem deallocate_correct m p :
  wf m ->
  match inuse_chunks m !! p with
  | Some s => exists m', deallocate m p = Ret m' /\ wf m' /\
      inuse_chunks m' = delete p (inuse_chunks m) /\
      (forall x, free_byte m' x <-> (p <= x < p + s \/ free_byte m x))
  | None => deallocate m p = Fail (FExit (-1))
  end.
Proof. apply deallocate_spec. Qed.

Lemma deallocate_correct_witness :
  match deallocate (snd (allocate heap0 100)) 4096 with Ret m' => wf m' | Fail _ => False end.
Proof.
  assert (wf (snd (allocate heap0 100))) as W.
  { apply (allocate_spec heap0 100 4096); [apply heap0_wf | lia | vm_compute; reflexivity]. }
  pose proof (deallocate_correct (snd (allocate heap0 100)) 4096 W) as H.
  destruct (deallocate (snd (allocate heap0 100)) 4096) as [m'|f] eqn:E.
  - change (inuse_chunks (snd (allocate heap0 100)) !! 4096) with (Some 512) in H.
    destruct H as (m1 & E1 & W1 & _). injection E1 as ->. exact W1.
  - vm_compute in E. discriminate E.
Defined.

(** [allocate_aligned] with a power-of-two alignment returns an address that
    is a multiple of it, with at least [bytes] bytes of formerly free memory
    behind it; the head that rounding skips goes back to the free set, and the
    invariant is kept. *)
Theorem allocate_aligned_correct m al bytes :
  wf m -> 0 < al -> al mod 8 = 0 -> Z.land al (al - 1) = 0 ->
  0 <= bytes -> bytes + al <= 2 ^ 64 - 512 ->
  exists r m', allocate_aligned m al bytes = Ret (r, m') /\ wf m' /\
  match r with
  | None => m' = m
  | Some q => q mod al = 0 /\ exists s, inuse_chunks m' = <[q := s]> (inuse_chunks m) /\
      total_size m' = total_size m /\ bytes <= s /\ inuse_chunks m !! q = None /\ (forall x, q <= x < q + s -> free_byte m x) /\
      (forall x, free_byte m' x <-> (free_byte m x /\ ~ (q <= x < q + s)))
  end.
Proof. apply allocate_aligned_spec. Qed.

Lemma allocate_aligned_correct_witness :
  exists r m', allocate_aligned heap0 2048 300 = Ret (r, m') /\ wf m' /\ r = Some 4096.
Proof.
  destruct (allocate_aligned_correct heap0 2048 300) as (r & m' & E & W & _);
    [apply heap0_wf | lia | reflexivity | reflexivity | lia | lia |].
  exists r, m'. split; [exact E|split; [exact W|]].
  vm_compute in E. injection E as <- _. reflexivity.
Defined.

(** The constructor establishes the invariant: the whole (aligned) range is
    one free chunk, and every byte of it is free. *)
Theorem mspace_new_correct base capacity :
  0 <= base -> align_offset base < capacity -> base + capacity < 2 ^ 64 ->
  wf (mspace_new base capacity) /\
  (forall x, free_byte (mspace_new base capacity) x <->
             base + align_offset base <= x < base + capacity) /\
  inuse_chunks (mspace_new base capacity) = ∅.
Proof. apply mspace_new_spec. Qed.

Lemma mspace_new_correct_witness : wf heap0.
Proof. apply (mspace_new_correct 4096 4096); [lia | vm_compute; reflexivity | lia]. Defined.
