(* ===== verification/ProxyChannel.v ===== *)
(** * The proxy channel: constants and request layout

    Models src/src/include/device_host/nvshmem_proxy_channel.h (the packed
    request structs), and the constants and operation codes of
    nvshmem_constants.h and nvshmem_common_transport.h in
    src/src/include/device_host_transport/.

    A channel entry is one 64-bit word; a struct read is a set of bit fields of
    that word ([field], little-endian as on the supported hosts). *)
From stdpp Require Import base gmap list.
From Stdlib Require Import ZArith Lia.
From S2P Require Import Prelude.

Module Channel.

(** ** Constants *)
Definition CHANNEL_BUF_SIZE_LOG : Z := 22.
Definition CHANNEL_BUF_SIZE : Z := Z.shiftl 1 CHANNEL_BUF_SIZE_LOG.
Definition CHANNEL_ENTRY_BYTES : Z := 8.
Definition PROXY_DMA_REQ_BYTES : Z := 32.
Definition PROXY_AMO_REQ_BYTES : Z := 40.
Definition PROXY_INLINE_REQ_BYTES : Z := 24.
Definition PROXY_PUT_WITH_SIG_REQ_BYTES : Z := 48.
Definition NVSHMEMX_QP_DEFAULT : Z := 1.
Definition NVSHMEMX_QP_ALL : Z := 2 ^ 31 - 1.
Definition NVSHMEMX_PE_ALL : Z := Z.shiftl 1 15.

(** [nvshmemi_op_t] *)
Definition NVSHMEMI_OP_PUT : Z := 1.
Definition NVSHMEMI_OP_P : Z := 2.
Definition NVSHMEMI_OP_PUT_SIGNAL : Z := 3.
Definition NVSHMEMI_OP_GET : Z := 4.
Definition NVSHMEMI_OP_G : Z := 5.
Definition NVSHMEMI_OP_FENCE : Z := 6.
Definition NVSHMEMI_OP_AMO : Z := 7.
Definition NVSHMEMI_OP_QUIET : Z := 8.
Definition NVSHMEMI_OP_QP_OP_OFFSET : Z := 100.
Definition NVSHMEMI_OP_PUT_QP : Z := 101.
Definition NVSHMEMI_OP_P_QP : Z := 102.
Definition NVSHMEMI_OP_PUT_SIGNAL_QP : Z := 103.
Definition NVSHMEMI_OP_GET_QP : Z := 104.
Definition NVSHMEMI_OP_G_QP : Z := 105.
Definition NVSHMEMI_OP_FENCE_QP : Z := 106.
Definition NVSHMEMI_OP_AMO_QP : Z := 107.
Definition NVSHMEMI_OP_QUIET_QP : Z := 108.

(** [nvshmemi_amo_t] *)
Definition NVSHMEMI_AMO_END_OF_NONFETCH : Z := 11.
Definition NVSHMEMI_AMO_COMPARE_SWAP : Z := 19.

(** ** Request structs, read from one channel word *)
Record base_request := { br_flag : Z; groupsize : Z; br_op : Z; roffset_low : Z; roffset_high : Z }.
Definition base_request_of (w : Z) : base_request :=
  {| br_flag := field w 0 8; groupsize := field w 8 8; br_op := field w 16 8;
     roffset_low := field w 24 8; roffset_high := field w 32 32 |}.

Record qp_sync_base_request := { qsb_flag : Z; qsb_resv : Z; qsb_op : Z; qsb_resv2 : Z; qp_count : Z }.
Definition qp_sync_base_request_of (w : Z) : qp_sync_base_request :=
  {| qsb_flag := field w 0 8; qsb_resv := field w 8 8; qsb_op := field w 16 8;
     qsb_resv2 := field w 24 8; qp_count := field w 32 32 |}.

Record qp_sync_request_0 := { qs0_flag : Z; qs0_op : Z; qs0_pe : Z; qs0_qp_index : Z }.
Definition qp_sync_request_0_of (w : Z) : qp_sync_request_0 :=
  {| qs0_flag := field w 0 8; qs0_op := field w 8 8; qs0_pe := field w 16 16;
     qs0_qp_index := field w 32 32 |}.

Record put_dma_request_0 := { pd0_flag : Z; laddr_2 : Z; laddr_3 : Z; laddr_high : Z }.
Definition put_dma_request_0_of (w : Z) : put_dma_request_0 :=
  {| pd0_flag := field w 0 8; laddr_2 := field w 8 8; laddr_3 := field w 16 16;
     laddr_high := field w 32 32 |}.

Record put_dma_request_1 := { pd1_flag : Z; laddr_low : Z; size_low : Z; size_high : Z }.
Definition put_dma_request_1_of (w : Z) : put_dma_request_1 :=
  {| pd1_flag := field w 0 8; laddr_low := field w 8 8; size_low := field w 16 16;
     size_high := field w 32 32 |}.

Record put_dma_request_2 := { pd2_flag : Z; pd2_resv : Z; pd2_pe : Z; pd2_qp_index : Z }.
Definition put_dma_request_2_of (w : Z) : put_dma_request_2 :=
  {| pd2_flag := field w 0 8; pd2_resv := field w 8 8; pd2_pe := field w 16 16;
     pd2_qp_index := field w 32 32 |}.

Record put_inline_request_0 := { pi0_flag : Z; pi0_resv : Z; pi0_pe : Z; lvalue_low : Z }.
Definition put_inline_request_0_of (w : Z) : put_inline_request_0 :=
  {| pi0_flag := field w 0 8; pi0_resv := field w 8 8; pi0_pe := field w 16 16;
     lvalue_low := field w 32 32 |}.

Record put_inline_request_1 := { pi1_flag : Z; pi1_resv : Z; pi1_size : Z; lvalue_high : Z }.
Definition put_inline_request_1_of (w : Z) : put_inline_request_1 :=
  {| pi1_flag := field w 0 8; pi1_resv := field w 8 8; pi1_size := field w 16 16;
     lvalue_high := field w 32 32 |}.

Record put_inline_request_2 := { pi2_flag : Z; pi2_resv : Z; pi2_resv2 : Z; pi2_qp_index : Z }.
Definition put_inline_request_2_of (w : Z) : put_inline_request_2 :=
  {| pi2_flag := field w 0 8; pi2_resv := field w 8 8; pi2_resv2 := field w 16 16;
     pi2_qp_index := field w 32 32 |}.

Record amo_request_0 := { am0_flag : Z; am0_amo : Z; am0_pe : Z; swap_add_low : Z }.
Definition amo_request_0_of (w : Z) : amo_request_0 :=
  {| am0_flag := field w 0 8; am0_amo := field w 8 8; am0_pe := field w 16 16;
     swap_add_low := field w 32 32 |}.

Record amo_request_1 := { am1_flag : Z; compare_low : Z; am1_size : Z; swap_add_high : Z }.
Definition amo_request_1_of (w : Z) : amo_request_1 :=
  {| am1_flag := field w 0 8; compare_low := field w 8 8; am1_size := field w 16 16;
     swap_add_high := field w 32 32 |}.

Record put_signal_request_0 := { ps0_flag : Z; laddr_write_2 : Z; laddr_write_3 : Z; laddr_write_high : Z }.
Definition put_signal_request_0_of (w : Z) : put_signal_request_0 :=
  {| ps0_flag := field w 0 8; laddr_write_2 := field w 8 8; laddr_write_3 := field w 16 16;
     laddr_write_high := field w 32 32 |}.

Record put_signal_request_1 := { ps1_flag : Z; laddr_write_low : Z; write_size_low : Z; write_size_high : Z }.
Definition put_signal_request_1_of (w : Z) : put_signal_request_1 :=
  {| ps1_flag := field w 0 8; laddr_write_low := field w 8 8; write_size_low := field w 16 16;
     write_size_high := field w 32 32 |}.

Record put_signal_request_2 := { ps2_flag : Z; ps2_resv1 : Z; ps2_pe : Z; ps2_qp_index : Z }.
Definition put_signal_request_2_of (w : Z) : put_signal_request_2 :=
  {| ps2_flag := field w 0 8; ps2_resv1 := field w 8 8; ps2_pe := field w 16 16;
     ps2_qp_index := field w 32 32 |}.

Record put_signal_request_3 :=
  { ps3_flag : Z; sigval_low : Z; sig_op : Z; rsigoffset_low : Z; rsigoffset_high : Z }.
Definition put_signal_request_3_of (w : Z) : put_signal_request_3 :=
  {| ps3_flag := field w 0 8; sigval_low := field w 8 8; sig_op := field w 16 8;
     rsigoffset_low := field w 24 8; rsigoffset_high := field w 32 32 |}.

Record put_signal_request_4 := { ps4_flag : Z; sigval_2 : Z; sigval_3 : Z; sigval_high : Z }.
Definition put_signal_request_4_of (w : Z) : put_signal_request_4 :=
  {| ps4_flag := field w 0 8; sigval_2 := field w 8 8; sigval_3 := field w 16 16;
     sigval_high := field w 32 32 |}.

End Channel.
