(* ===== verification/ProxyDevice.v ===== *)
(** * Device-side producers of proxy requests

    Models the writers of src/src/include/non_abi/device/pt-to-pt/proxy_device.cuh.
    Each call is an [issued] value: the number of bytes it adds to
    [proxy_channels_issue] with [atomicAdd], and the 8-byte stores, in program
    order, it performs once it owns the counter range starting at [idx]. *)
From stdpp Require Import base gmap list.
From Stdlib Require Import ZArith Lia.
From S2P Require Import Prelude ProxyChannel.
Import Channel.

Module Device.

(** The fields of [nvshmemi_device_state_d] the producers read. *)
Record device_state := {
  proxy_channel_buf_size : Z;
  proxy_channel_buf_logsize : Z;
  heap_base : Z
}.

Record issued := {
  iss_size : Z;
  iss_stores : Z -> list (Z * Z)
}.

Section Producers.
Context (d : device_state).

(** [idx & (CHANNEL_BUF_SIZE - 1)] and [idx & (proxy_channel_buf_size - 1)] *)
Definition slot_const (idx : Z) : Z := Z.land idx (CHANNEL_BUF_SIZE - 1).
Definition slot_state (idx : Z) : Z := Z.land idx (proxy_channel_buf_size d - 1).

(** [!((idx >> proxy_channel_buf_logsize) & 1)] *)
Definition curr_flag (idx : Z) : Z :=
  if bool_decide (Z.land (Z.shiftr idx (proxy_channel_buf_logsize d)) 1 = 0) then 1 else 0.

Definition next (idx : Z) : Z := u64 (idx + CHANNEL_ENTRY_BYTES).

(** [check_channel_availability(tail_idx)]: the wait it performs is over once
    the host's [complete] counter has reached this. *)
Definition channel_available (complete tail_idx : Z) : bool :=
  negb (bool_decide (u64 (complete + proxy_channel_buf_size d - 1) < tail_idx)).

(** The base request: [(roffset << 24) | (op << 16) | (group_size << 8) | flag] *)
Definition base_word (roffset op group_size flag : Z) : Z :=
  Z.lor (Z.lor (Z.lor (u64 (Z.shiftl roffset 24)) (u64 (Z.shiftl op 16)))
               (Z.shiftl group_size 8)) flag.

Definition mask_lowest_byte : Z := 0xFFFFFFFFFFFFFF00.
Definition mask_upper_7_bytes : Z := 0xFF.

(** [transfer_dma] *)
Definition transfer_dma (rptr lptr bytes pe channel_op qp_index : Z) : issued :=
  let channel_op := if bool_decide (qp_index <> NVSHMEMX_QP_DEFAULT)
                    then channel_op + NVSHMEMI_OP_QP_OP_OFFSET else channel_op in
  {| iss_size := PROXY_DMA_REQ_BYTES;
     iss_stores := fun idx =>
       let group_size := 1 in
       let roffset := u64 (rptr - heap_base d) in
       let laddr := lptr in
       let op := u64 channel_op in
       let pe_u16 := u16 pe in
       let size_u64 := bytes in
       let s0 := (slot_const idx, base_word roffset op group_size (curr_flag idx)) in
       let idx := next idx in
       let laddr_high := Z.land laddr mask_lowest_byte in
       let s1 := (slot_const idx, Z.lor laddr_high (curr_flag idx)) in
       let idx := next idx in
       let laddr_low := Z.land laddr mask_upper_7_bytes in
       let s2 := (slot_state idx,
                  Z.lor (Z.lor (u64 (Z.shiftl size_u64 16)) (u64 (Z.shiftl laddr_low 8)))
                        (curr_flag idx)) in
       let idx := next idx in
       let s3 := (slot_const idx,
                  Z.lor (Z.lor (u64 (Z.shiftl (u64 qp_index) 32)) (u64 (Z.shiftl pe_u16 16)))
                        (curr_flag idx)) in
       [s0; s1; s2; s3] |}.

(** [nvshmemi_proxy_rma_nbi] *)
Definition nvshmemi_proxy_rma_nbi (rptr lptr bytes pe op qp_index : Z) : option issued :=
  if bool_decide (bytes = 0) then None
  else Some (transfer_dma rptr lptr bytes pe op qp_index).

(** [nvshmemi_proxy_put_signal_nbi] *)
Definition nvshmemi_proxy_put_signal_nbi
    (rwrite_ptr lwrite_ptr write_bytes pe channel_op sig_addr sig_val sig_op qp_index : Z) : issued :=
  let channel_op := if bool_decide (qp_index <> NVSHMEMX_QP_DEFAULT)
                    then channel_op + NVSHMEMI_OP_QP_OP_OFFSET else channel_op in
  {| iss_size := PROXY_PUT_WITH_SIG_REQ_BYTES;
     iss_stores := fun idx =>
       let group_size := 1 in
       let rwrite_offset := u64 (rwrite_ptr - heap_base d) in
       let lwrite_addr := lwrite_ptr in
       let op := u64 channel_op in
       let pe_u16 := u16 pe in
       let s0 := (slot_const idx, base_word rwrite_offset op group_size (curr_flag idx)) in
       let idx := next idx in
       let s1 := (slot_const idx, Z.lor (Z.land lwrite_addr mask_lowest_byte) (curr_flag idx)) in
       let idx := next idx in
       let lwrite_addr_low := Z.land lwrite_addr mask_upper_7_bytes in
       let s2 := (slot_const idx,
                  Z.lor (Z.lor (u64 (Z.shiftl write_bytes 16)) (u64 (Z.shiftl lwrite_addr_low 8)))
                        (curr_flag idx)) in
       let idx := next idx in
       let s3 := (slot_const idx,
                  Z.lor (Z.lor (u64 (Z.shiftl (u64 qp_index) 32)) (u64 (Z.shiftl pe_u16 16)))
                        (curr_flag idx)) in
       let idx := next idx in
       let rsigoffset := u64 (sig_addr - heap_base d) in
       let sigval_low := Z.land sig_val mask_upper_7_bytes in
       let s4 := (slot_const idx,
                  Z.lor (Z.lor (Z.lor (u64 (Z.shiftl rsigoffset 24)) (u64 (Z.shiftl sig_op 16)))
                               (u64 (Z.shiftl sigval_low 8))) (curr_flag idx)) in
       let idx := next idx in
       let s5 := (slot_const idx, Z.lor (Z.land sig_val mask_lowest_byte) (curr_flag idx)) in
       [s0; s1; s2; s3; s4; s5] |}.

(** [convert_val_to_uint64]: [value] is the object representation of the
    argument, read little-endian; other sizes print a message and leave
    [dest] alone. *)
Definition convert_val_to_uint64 (dest value size : Z) : Z :=
  if bool_decide (size = 1) then wrap 8 value
  else if bool_decide (size = 2) then wrap 16 value
  else if bool_decide (size = 4) then wrap 32 value
  else if bool_decide (size = 8) then wrap 64 value
  else dest.

(** [transfer_inline<T>], with [sizeofT = sizeof(T)] *)
Definition transfer_inline (sizeofT rptr value pe optype qp_index : Z) : issued :=
  {| iss_size := PROXY_INLINE_REQ_BYTES +
       (if bool_decide (qp_index <> NVSHMEMX_QP_DEFAULT) then CHANNEL_ENTRY_BYTES else 0);
     iss_stores := fun idx =>
       let group_size := 1 in
       let roffset := u64 (rptr - heap_base d) in
       let op := u64 optype in
       let pe_u16 := u16 pe in
       let size_u64 := sizeofT in
       let mask_4_bytes := 0x00000000ffffffff in
       let lvalue_buffer := convert_val_to_uint64 0 value sizeofT in
       let s0 := (slot_const idx, base_word roffset op group_size (curr_flag idx)) in
       let idx := next idx in
       let lvalue_low := Z.land lvalue_buffer mask_4_bytes in
       let s1 := (slot_const idx,
                  Z.lor (Z.lor (u64 (Z.shiftl lvalue_low 32)) (u64 (Z.shiftl pe_u16 16)))
                        (curr_flag idx)) in
       let idx := next idx in
       let lvalue_high := Z.land lvalue_buffer (u64 (Z.lnot mask_4_bytes)) in
       let s2 := (slot_const idx,
                  Z.lor (Z.lor lvalue_high (u64 (Z.shiftl size_u64 16))) (curr_flag idx)) in
       if bool_decide (qp_index <> NVSHMEMX_QP_DEFAULT) then
         let idx := next idx in
         let s3 := (slot_const idx, Z.lor (u64 (Z.shiftl (u64 qp_index) 32)) (curr_flag idx)) in
         [s0; s1; s2; s3]
       else [s0; s1; s2] |}.

(** [nvshmemi_proxy_rma_p<T>] *)
Definition nvshmemi_proxy_rma_p (sizeofT rptr value pe qp_index : Z) : issued :=
  if bool_decide (qp_index <> NVSHMEMX_QP_DEFAULT)
  then transfer_inline sizeofT rptr value pe NVSHMEMI_OP_P_QP qp_index
  else transfer_inline sizeofT rptr value pe NVSHMEMI_OP_P qp_index.

(** [amo<T>]; [junk] stands for the two buffers' uninitialised contents, which
    only a size other than 1, 2, 4 and 8 lets through. *)
Definition amo (junk sizeofT rptr g_buf_counter swap_add compare pe amo_op qp_index : Z) : issued :=
  {| iss_size := PROXY_AMO_REQ_BYTES +
       (if bool_decide (qp_index <> NVSHMEMX_QP_DEFAULT) then CHANNEL_ENTRY_BYTES else 0);
     iss_stores := fun idx =>
       let group_size := 1 in
       let roffset := u64 (rptr - heap_base d) in
       let amo := u64 amo_op in
       let pe_u16 := u16 pe in
       let size_u64 := sizeofT in
       let mask_1_byte := 0x00FFFFFFFFFFFFFF in
       let mask_4_bytes := 0x00000000FFFFFFFF in
       let mask_7_bytes := 0x00000000000000FF in
       let op := if bool_decide (qp_index <> NVSHMEMX_QP_DEFAULT)
                 then NVSHMEMI_OP_AMO_QP else NVSHMEMI_OP_AMO in
       let swap_add_buffer := convert_val_to_uint64 junk swap_add sizeofT in
       let compare_buffer := convert_val_to_uint64 junk compare sizeofT in
       let s0 := (slot_const idx, base_word roffset op group_size (curr_flag idx)) in
       let idx := next idx in
       let swap_add_low := Z.land swap_add_buffer mask_4_bytes in
       let s1 := (slot_const idx,
                  Z.lor (Z.lor (Z.lor (u64 (Z.shiftl swap_add_low 32)) (u64 (Z.shiftl pe_u16 16)))
                               (u64 (Z.shiftl amo 8))) (curr_flag idx)) in
       let idx := next idx in
       let swap_add_high := Z.land swap_add_buffer (u64 (Z.lnot mask_4_bytes)) in
       let compare_low := Z.land compare_buffer mask_7_bytes in
       let s2 := (slot_const idx,
                  Z.lor (Z.lor (Z.lor swap_add_high (u64 (Z.shiftl size_u64 16)))
                               (u64 (Z.shiftl compare_low 8))) (curr_flag idx)) in
       let idx := next idx in
       let compare_high := Z.land compare_buffer (u64 (Z.lnot mask_7_bytes)) in
       let s3 := (slot_const idx, Z.lor compare_high (curr_flag idx)) in
       let idx := next idx in
       let g_buf_counter_low := Z.land g_buf_counter mask_1_byte in
       let s4 := (slot_const idx, Z.lor (u64 (Z.shiftl g_buf_counter_low 8)) (curr_flag idx)) in
       if bool_decide (qp_index <> NVSHMEMX_QP_DEFAULT) then
         let idx := next idx in
         let s5 := (slot_const idx, Z.lor (u64 (Z.shiftl (u64 qp_index) 32)) (curr_flag idx)) in
         [s0; s1; s2; s3; s4; s5]
       else [s0; s1; s2; s3; s4] |}.

(** [nvshmemi_proxy_amo_nonfetch<T>] *)
Definition nvshmemi_proxy_amo_nonfetch (junk sizeofT rptr swap_add pe op qp_index : Z) : issued :=
  amo junk sizeofT rptr 0 swap_add 0 pe op qp_index.

(** [proxy_fence] *)
Definition proxy_fence : issued :=
  {| iss_size := 8;
     iss_stores := fun idx =>
       [(slot_state idx, Z.lor (Z.shiftl NVSHMEMI_OP_FENCE 16) (curr_flag idx))] |}.

(** The loops of [proxy_fence_qp] and [proxy_qp_quiet] over [qp_handle]. *)
Fixpoint fence_qp_entries (idx pe op : Z) (qp_handle : list Z) : list (Z * Z) :=
  match qp_handle with
  | [] => []
  | qp :: rest =>
      let idx := next idx in
      (slot_state idx,
       Z.lor (Z.lor (Z.lor (u64 (Z.shiftl (u64 qp) 32)) (u64 (Z.shiftl op 16)))
                    (u64 (Z.shiftl (u64 pe) 8))) (curr_flag idx))
      :: fence_qp_entries idx pe op rest
  end.

Fixpoint quiet_qp_entries (idx pe_u16 op : Z) (qp_handle : list Z) : list (Z * Z) :=
  match qp_handle with
  | [] => []
  | qp :: rest =>
      let idx := next idx in
      (slot_state idx,
       Z.lor (Z.lor (Z.lor (u64 (Z.shiftl (u64 qp) 32)) (u64 (Z.shiftl pe_u16 16)))
                    (u64 (Z.shiftl op 8))) (curr_flag idx))
      :: quiet_qp_entries idx pe_u16 op rest
  end.

(** The [qp_sync_base_request] word of both. *)
Definition qp_sync_base_word (qp_count op flag : Z) : Z :=
  Z.lor (Z.lor (u64 (Z.shiftl qp_count 32)) (u64 (Z.shiftl op 16))) flag.

(** [proxy_fence_qp] *)
Definition proxy_fence_qp (pe : Z) (qp_handle : list Z) : issued :=
  let num_qps := Z.of_nat (length qp_handle) in
  {| iss_size := CHANNEL_ENTRY_BYTES * num_qps + CHANNEL_ENTRY_BYTES;
     iss_stores := fun idx =>
       (slot_state idx, qp_sync_base_word num_qps NVSHMEMI_OP_FENCE_QP (curr_flag idx))
       :: fence_qp_entries idx pe NVSHMEMI_OP_FENCE_QP qp_handle |}.

(** [proxy_qp_quiet] *)
Definition proxy_qp_quiet (pe : Z) (qp_handle : list Z) : issued :=
  let num_qps := Z.of_nat (length qp_handle) in
  {| iss_size := CHANNEL_ENTRY_BYTES * num_qps + CHANNEL_ENTRY_BYTES;
     iss_stores := fun idx =>
       (slot_state idx, qp_sync_base_word num_qps NVSHMEMI_OP_QUIET_QP (curr_flag idx))
       :: quiet_qp_entries idx (u16 pe) NVSHMEMI_OP_QUIET_QP qp_handle |}.

(** [nvshmemi_proxy_fence]: [None] is the null [qp_handle]. *)
Definition nvshmemi_proxy_fence (pe : Z) (qp_handle : option (list Z)) : issued :=
  match qp_handle with
  | Some qps => if bool_decide (pe = NVSHMEMX_PE_ALL) then proxy_fence else proxy_fence_qp pe qps
  | None => proxy_fence
  end.

End Producers.
End Device.
