(* ===== verification/Rma.v ===== *)
(** * Remote memory access: handle lookup, address translation, chunking

    Models the inline helpers of src/src/include/internal/host/nvshmem_internal.h
    ([nvshmemi_get_local_mem_handle], [nvshmemi_get_remote_mem_handle],
    [nvshmemi_process_multisend_rma]) and the translation macros of
    src/src/include/internal/host/util.h.

    The two sources of memory handles (the symmetric heap and the registered
    buffer cache) are reached through the interface [mem_handles]; calls of
    transport plugins are events appended to a trace, with the status the
    plugin returns given by a function of the trace. *)
From stdpp Require Import base gmap list.
From Stdlib Require Import ZArith Lia.
From S2P Require Import Prelude ProxyChannel.
Import Channel.

(** What the RMA path needs from the heap and from the buffer cache.  A length
    argument of [None] is the null [len] pointer. *)
Class mem_handles := {
  get_transport_mem_handle : forall (addr pe transport_idx : Z), option (Z * Z);
  get_mem_handle_addr_offset : Z -> Z;
  nvshmemi_get_registered_buffer_handle : forall (transport_idx addr len : Z), option (Z * Z)
}.

Module Rma.

(** [rma_verb_t], [rma_memdesc_t], [rma_bytesdesc_t] *)
Record rma_verb := { desc : Z; is_nbi : Z; is_stream : Z }.
Record rma_memdesc := { ptr : Z; offset : Z; handle : option Z }.
Record rma_bytesdesc := { nelems : Z; elembytes : Z; srcstride : Z; deststride : Z }.

(** [amo_verb_t], [amo_memdesc_t] and [amo_bytesdesc_t], the fields in use *)
Record amo_memdesc := {
  remote_memdesc : rma_memdesc; retflag : Z; retptr : Z; val : Z; cmp : Z; ret_handle : option Z
}.

(** Calls through [host_ops] of a transport. *)
Inductive event :=
| EvRma (pe : Z) (verb : rma_verb) (remote local : rma_memdesc) (bytes : rma_bytesdesc) (qp : Z)
| EvAmo (pe amo_op : Z) (memdesc : amo_memdesc) (elembytes qp : Z)
| EvPutSignal (pe : Z) (verb : rma_verb) (remote local : list rma_memdesc)
    (bytes : list rma_bytesdesc) (sig_op : Z) (sig_target : amo_memdesc) (sig_bytes qp : Z)
| EvFence (pe qp is_multi : Z)
| EvQuiet (pe qp : Z)
| EvEnforceCst (transport : Z)
| EvFlush
| EvProgress (transport : Z).
Definition trace := list event.

(** The host state the helpers read. *)
Record env := {
  npes : Z; mype : Z; npes_node : Z; mype_node : Z;
  enable_rail_opt : bool;
  heap_base : Z; heap_size : Z;
  remote_pe_base : Z -> Z;
  max_op_len : Z -> Z;
  op_status : trace -> event -> Z
}.

Section Helpers.
Context `{MH : mem_handles} (e : env).

(** One plugin call: the event is recorded, a non-zero status exits. *)
Definition call (tr : trace) (ev : event) : outcome trace :=
  if bool_decide (op_status e tr ev <> 0) then Fail (FExit (-1)) else Ret (tr ++ [ev]).

(** [NVSHMEMU_PE_TRANSLATE(peer)] *)
Definition NVSHMEMU_PE_TRANSLATE (peer : Z) : Z :=
  if enable_rail_opt e then (peer ÷ npes_node e) * npes_node e + mype_node e else peer.

(** [NVSHMEMU_UNMAPPED_PTR_PE_TRANSLATE(toPtr, fromPtr, peer)]: the new [toPtr]
    and the new value of [peer], which the macro overwrites. *)
Definition NVSHMEMU_UNMAPPED_PTR_PE_TRANSLATE (fromPtr peer : Z) : Z * Z :=
  if enable_rail_opt e then
    let proxy_pe := (peer ÷ npes_node e) * npes_node e + mype_node e in
    (u64 (remote_pe_base e proxy_pe +
          (Z.rem peer (npes_node e) - mype_node e) * heap_size e + (fromPtr - heap_base e)),
     proxy_pe)
  else (u64 (remote_pe_base e peer + (fromPtr - heap_base e)), peer).

(** [nvshmemi_get_local_mem_handle] with a non-null [len] (initially [len]). *)
Definition nvshmemi_get_local_mem_handle (len addr transport_idx : Z) : outcome (Z * Z) :=
  let max_len := max_op_len e transport_idx in
  match match get_transport_mem_handle addr (mype e) transport_idx with
        | Some hl => Some hl
        | None => nvshmemi_get_registered_buffer_handle transport_idx addr len
        end with
  | Some (h, len) => Ret (h, if bool_decide (len < max_len) then len else max_len)
  | None => Fail FAssert
  end.

(** The same with a null [len]: the registered-buffer search dereferences it. *)
Definition nvshmemi_get_local_mem_handle_null (addr transport_idx : Z) : outcome Z :=
  match get_transport_mem_handle addr (mype e) transport_idx with
  | Some (h, _) => Ret h
  | None => Fail FUndef
  end.

(** [nvshmemi_get_remote_mem_handle]: handle, offset and clamped length. *)
Definition nvshmemi_get_remote_mem_handle (addr pe transport_idx : Z) : outcome (Z * Z * Z) :=
  let max_len := max_op_len e transport_idx in
  match get_transport_mem_handle addr pe transport_idx with
  | Some (h, len) =>
      Ret (h, get_mem_handle_addr_offset addr, if bool_decide (len < max_len) then len else max_len)
  | None => Fail FAssert
  end.

(** One iteration of the chunking loop: the descriptors, the chunk size, and
    the updated [pe]. *)
Definition next_chunk (transport_id pe rptr lptr size_remaining : Z)
  : outcome (rma_memdesc * rma_memdesc * Z * Z) :=
  let '(rp, pe) := NVSHMEMU_UNMAPPED_PTR_PE_TRANSLATE rptr pe in
  '(lh, local_chunk_size) ← nvshmemi_get_local_mem_handle size_remaining lptr transport_id;
  '(rh, roff, remote_chunk_size) ← nvshmemi_get_remote_mem_handle rptr pe transport_id;
  let chunk_size := Z.min local_chunk_size (Z.min remote_chunk_size size_remaining) in
  Ret ({| ptr := rp; offset := roff; handle := Some rh |},
       {| ptr := lptr; offset := 0; handle := Some lh |}, chunk_size, pe).

Definition byte_chunk (n : Z) : rma_bytesdesc :=
  {| nelems := n; elembytes := 1; srcstride := 1; deststride := 1 |}.

(** [nvshmemi_process_multisend_rma]; [fuel] bounds the iterations, and running
    out of it stands for the loop that does not end. *)
Fixpoint multisend_loop (fuel : nat) (tr : trace) (transport_id pe : Z) (verb : rma_verb)
    (rptr lptr size_remaining qp_index : Z) : outcome trace :=
  if bool_decide (size_remaining = 0) then Ret tr
  else match fuel with
  | O => Fail FSpin
  | S fuel =>
      '(remotedesc, localdesc, chunk_size, pe) ←
         next_chunk transport_id pe rptr lptr size_remaining;
      tr ← call tr (EvRma pe verb remotedesc localdesc (byte_chunk chunk_size) qp_index);
      multisend_loop fuel tr transport_id pe verb (u64 (rptr + chunk_size))
        (u64 (lptr + chunk_size)) (u64 (size_remaining - chunk_size)) qp_index
  end.

Definition nvshmemi_process_multisend_rma (tr : trace) (transport_id pe : Z) (verb : rma_verb)
    (rptr lptr size qp_index : Z) : outcome trace :=
  multisend_loop (Z.to_nat size) tr transport_id pe verb rptr lptr size qp_index.

(** ** Correctness of the chunking *)

(** The handle the local side uses: the heap's, else the registered buffer's. *)
Definition local_handle (t addr len : Z) : option (Z * Z) :=
  match get_transport_mem_handle addr (mype e) t with
  | Some hl => Some hl
  | None => nvshmemi_get_registered_buffer_handle t addr len
  end.

(** [rma_tiling pe t verb qp r l size evs]: the events [evs] transfer the bytes
    [r, r+size) of the symmetric heap of [pe] and [l, l+size) of local memory,
    in order, without gap or overlap, each one within the transport's maximum
    and within the memory both of its handles cover. *)
Inductive rma_tiling (pe t : Z) (verb : rma_verb) (qp : Z) : Z -> Z -> Z -> list event -> Prop :=
| tile_nil r l : rma_tiling pe t verb qp r l 0 []
| tile_cons r l size n rh rlen lh llen evs :
    0 < n <= size -> n <= max_op_len e t ->
    get_transport_mem_handle r pe t = Some (rh, rlen) -> n <= rlen ->
    local_handle t l size = Some (lh, llen) -> n <= llen ->
    rma_tiling pe t verb qp (r + n) (l + n) (size - n) evs ->
    rma_tiling pe t verb qp r l size
      (EvRma pe verb
         {| ptr := u64 (remote_pe_base e pe + (r - heap_base e));
            offset := get_mem_handle_addr_offset r; handle := Some rh |}
         {| ptr := l; offset := 0; handle := Some lh |} (byte_chunk n) qp :: evs).

(** The memory both sides of a transfer need: every address of the range has a
    handle with at least one byte left. *)
Definition covered (pe t r l size : Z) : Prop :=
  forall o, 0 <= o < size ->
    (exists h n, get_transport_mem_handle (r + o) pe t = Some (h, n) /\ 0 < n) /\
    (forall len, 0 < len -> exists h n, local_handle t (l + o) len = Some (h, n) /\ 0 < n).

Lemma next_chunk_spec t pe r l size :
  enable_rail_opt e = false -> 0 < size -> 0 < max_op_len e t -> covered pe t r l size ->
  exists n rh rlen lh llen,
    next_chunk t pe r l size =
      Ret ({| ptr := u64 (remote_pe_base e pe + (r - heap_base e));
              offset := get_mem_handle_addr_offset r; handle := Some rh |},
           {| ptr := l; offset := 0; handle := Some lh |}, n, pe) /\
    0 < n <= size /\ n <= max_op_len e t /\
    get_transport_mem_handle r pe t = Some (rh, rlen) /\ n <= rlen /\
    local_handle t l size = Some (lh, llen) /\ n <= llen.
Proof.
  intros Hrail Hs Hmax Hc. destruct (Hc 0 ltac:(lia)) as [(rh & rlen & Hr & Hrp) Hl].
  destruct (Hl size Hs) as (lh & llen & Hl' & Hlp). rewrite Z.add_0_r in *.
  unfold next_chunk, NVSHMEMU_UNMAPPED_PTR_PE_TRANSLATE. rewrite Hrail.
  unfold nvshmemi_get_local_mem_handle. fold (local_handle t l size). rewrite Hl'. cbn.
  unfold nvshmemi_get_remote_mem_handle. rewrite Hr. cbn.
  eexists _, rh, rlen, lh, llen. split; [done|]. case_bool_decide; case_bool_decide; repeat split; auto; lia.
Qed.

Lemma multisend_loop_tiles fuel tr t pe verb r l size qp :
  enable_rail_opt e = false -> 0 < max_op_len e t ->
  (forall tr ev, op_status e tr ev = 0) ->
  0 <= size -> (Z.to_nat size <= fuel)%nat ->
  0 <= r -> r + size < 2 ^ 64 -> 0 <= l -> l + size < 2 ^ 64 -> covered pe t r l size ->
  exists evs, multisend_loop fuel tr t pe verb r l size qp = Ret (tr ++ evs) /\
              rma_tiling pe t verb qp r l size evs.
Proof.
  intros Hrail Hmax Hst. revert tr r l size.
  induction fuel as [|fuel IH]; intros tr r l size Hs Hf Hr1 Hr2 Hl1 Hl2 Hc; cbn [multisend_loop].
  - assert (size = 0) as -> by lia. exists []. rewrite app_nil_r. split; [done|constructor].
  - case_bool_decide as Hz.
    + subst. exists []. rewrite app_nil_r. split; [done|constructor].
    + destruct (next_chunk_spec t pe r l size Hrail ltac:(lia) Hmax Hc)
        as (n & rh & rlen & lh & llen & En & Hn & Hnm & Hrh & Hrn & Hlh & Hln).
      rewrite En, outcome_bind_ret. unfold call at 1. rewrite Hst.
      rewrite (bool_decide_eq_false_2 (0 <> 0)) by lia. rewrite outcome_bind_ret.
      rewrite (wrap_small 64 (r + n)), (wrap_small 64 (l + n)), (wrap_small 64 (size - n))
        by (unfold in_u; lia).
      set (ev := EvRma _ _ _ _ _ _).
      destruct (IH (tr ++ [ev]) (r + n) (l + n) (size - n)) as (evs & E & T); try lia.
      { intros o Ho. replace (r + n + o) with (r + (n + o)) by lia.
        replace (l + n + o) with (l + (n + o)) by lia. apply Hc. lia. }
      exists (ev :: evs). rewrite E, <- app_assoc. split; [done|].
      eapply tile_cons; eauto.
Qed.

End Helpers.

(** Without rail optimisation, a multi-chunk RMA over memory that is covered
    by handles terminates and issues transfers that tile the requested range
    exactly, in order, each within the transport's maximum operation length and
    within both handles. *)
Theorem multisend_tiles `{MH : mem_handles} e tr t pe verb r l size qp :
  enable_rail_opt e = false -> 0 < max_op_len e t ->
  (forall tr ev, op_status e tr ev = 0) ->
  0 <= size -> 0 <= r -> r + size < 2 ^ 64 -> 0 <= l -> l + size < 2 ^ 64 ->
  covered e pe t r l size ->
  exists evs, nvshmemi_process_multisend_rma e tr t pe verb r l size qp = Ret (tr ++ evs) /\
              rma_tiling e pe t verb qp r l size evs.
Proof. intros. by apply multisend_loop_tiles. Qed.

(** A two-node machine with two PEs per node and 1 MiB heaps, handles that span
    any address, and a transport that moves at most 16 bytes per operation. *)
#[local] Instance demo_handles : mem_handles := {|
  get_transport_mem_handle := fun addr pe t => Some (pe, 4096);
  get_mem_handle_addr_offset := fun addr => addr mod 4096;
  nvshmemi_get_registered_buffer_handle := fun _ _ _ => None
|}.
Definition demo_env (rail : bool) : env := {|
  npes := 4; mype := 0; npes_node := 2; mype_node := 0;
  enable_rail_opt := rail; heap_base := 0; heap_size := 1048576;
  remote_pe_base := fun pe => (pe + 1) * 16777216;
  max_op_len := fun _ => 16; op_status := fun _ _ => 0
|}.
Definition demo_verb : rma_verb := {| desc := NVSHMEMI_OP_PUT; is_nbi := 1; is_stream := 0 |}.

Lemma multisend_tiles_witness :
  exists evs, nvshmemi_process_multisend_rma (demo_env false) [] 0 3 demo_verb 64 128 40 1 = Ret ([] ++ evs)
    /\ rma_tiling (demo_env false) 3 0 demo_verb 1 64 128 40 evs.
Proof.
  apply (multisend_tiles (demo_env false) [] 0 3 demo_verb 64 128 40 1);
    [reflexivity | cbn; lia | reflexivity | lia .. |].
  intros o Ho. split; [exists 3, 4096; split; [reflexivity|lia]|].
  intros len Hlen. exists 0, 4096. split; [reflexivity|lia].
Defined.

(** The remote addresses a trace of transfers writes, with the transport peer. *)
Definition rma_targets (tr : trace) : list (Z * Z) :=
  omap (fun ev => match ev with EvRma pe _ r _ _ _ => Some (pe, ptr r) | _ => None end) tr.

(** A defect under rail optimisation: the translation macro overwrites [pe],
    so only the first chunk of a put to PE 3 lands in PE 3's heap (behind its
    rail peer PE 2 at an offset of one heap); the following chunks of the same
    put are written into PE 2's own heap. *)
Theorem rail_multisend_misdirected :
  match nvshmemi_process_multisend_rma (demo_env true) [] 0 3 demo_verb 64 128 40 1 with
  | Ret tr => rma_targets tr =
      [(2, remote_pe_base (demo_env true) 2 + heap_size (demo_env true) + 64);
       (2, remote_pe_base (demo_env true) 2 + 80);
       (2, remote_pe_base (demo_env true) 2 + 96)]
  | Fail _ => False
  end.
Proof. vm_compute. reflexivity. Qed.

End Rma.
