(* ===== verification/ProxyHost.v ===== *)
(** * The host proxy: channel consumer and progress engine

    Models src/src/host/proxy/proxy.cpp and proxy_host.h (the x86-64 build).
    The buffer of a channel is a finite map from byte offset to 64-bit word (a
    missing offset is a zero word, as after [memset]).  A busy-wait on a flag
    that the present contents of the buffer do not satisfy is [FSpin]: the
    device has to store more before the handler can return.  Calls of transport
    plugins are events of the trace, as in [Rma]. *)
From stdpp Require Import base gmap list.
From Stdlib Require Import ZArith Lia.
From S2P Require Import Prelude ProxyChannel Rma.
Import Channel.

Module Host.

(** ** State *)

(** [proxy_channel_t]; the host never touches [issue].  [channel_req] is the
    channel's element of the static array of the same name: the offset of the
    request in progress, [None] for the null pointer. *)
Record proxy_channel := MkChannel {
  buf : gmap Z Z;
  complete : Z;
  quiet_issue : Z; quiet_ack : Z; last_quiet_issue : Z;
  cst_issue : Z; cst_ack : Z; last_cst_issue : Z;
  processed : Z; last_sync : Z;
  channel_req : option Z
}.

Definition PROXY_QUIET_STATUS_CHANNELS_INACTIVE : Z := 0.
Definition PROXY_QUIET_STATUS_CHANNELS_IN_PROGRESS : Z := 1.
Definition PROXY_QUIET_STATUS_CHANNELS_DONE : Z := 2.
Definition PROXY_CST_STATUS_CHANNELS_INACTIVE : Z := 0.
Definition PROXY_CST_STATUS_CHANNELS_ACTIVE : Z := 1.
Definition PROXY_GLOBAL_EXIT_NOT_REQUESTED : Z := 0.
Definition PROXY_GLOBAL_EXIT_INIT : Z := 1.
Definition PROXY_GLOBAL_EXIT_REQUESTED : Z := 2.

(** What the proxy reads of a [struct nvshmem_transport]: which optional
    entries of [host_ops] are set, its attributes, its type and, per peer,
    whether it has a CPU read or write capability. *)
Record transport_info := {
  has_fence : bool; has_quiet : bool; has_enforce_cst : bool; has_progress : bool;
  attr_connected : bool; is_ibgda : bool;
  cpu_capable : list bool
}.

(** Globals and options the proxy reads: [nvshmemi_state], [nvshmemi_options],
    [nvshmemi_device_state] and the [g] buffer. *)
Record host := {
  henv : Rma.env;
  transports : list transport_info;
  state_transport_bitmap : Z;
  BYPASS_FLUSH : bool;
  flush_available : bool;
  PROXY_REQUEST_BATCH_MAX : Z;
  atomics_complete_on_quiet : bool;
  proxy_channel_g_buf : Z; proxy_channel_g_buf_size : Z; proxy_channel_g_buf_log_size : Z
}.

(** [proxy_state_t]; [transport] holds indices into [transports]. *)
Record proxy_state := MkState {
  transport : list (option Z);
  transport_id : list Z;
  transport_bitmap : Z;
  quiet_in_progress : Z;
  cst_in_progress : Z;
  channel_bufsize_log : Z;
  channel_bufsize : Z;
  channels : list proxy_channel;
  issued_get : Z;
  is_consistency_api_supported : bool;
  gdr_device_native_ordering : Z;
  global_exit_request_state : Z;
  global_exit_code : Z;
  timeout_signal : Z
}.

Definition set_quiet_in_progress (q : Z) (s : proxy_state) : proxy_state :=
  MkState (transport s) (transport_id s) (transport_bitmap s) q (cst_in_progress s)
    (channel_bufsize_log s) (channel_bufsize s) (channels s) (issued_get s)
    (is_consistency_api_supported s) (gdr_device_native_ordering s)
    (global_exit_request_state s) (global_exit_code s) (timeout_signal s).
Definition set_cst_in_progress (q : Z) (s : proxy_state) : proxy_state :=
  MkState (transport s) (transport_id s) (transport_bitmap s) (quiet_in_progress s) q
    (channel_bufsize_log s) (channel_bufsize s) (channels s) (issued_get s)
    (is_consistency_api_supported s) (gdr_device_native_ordering s)
    (global_exit_request_state s) (global_exit_code s) (timeout_signal s).
Definition set_channels (l : list proxy_channel) (s : proxy_state) : proxy_state :=
  MkState (transport s) (transport_id s) (transport_bitmap s) (quiet_in_progress s)
    (cst_in_progress s) (channel_bufsize_log s) (channel_bufsize s) l (issued_get s)
    (is_consistency_api_supported s) (gdr_device_native_ordering s)
    (global_exit_request_state s) (global_exit_code s) (timeout_signal s).
Definition set_issued_get (g : Z) (s : proxy_state) : proxy_state :=
  MkState (transport s) (transport_id s) (transport_bitmap s) (quiet_in_progress s)
    (cst_in_progress s) (channel_bufsize_log s) (channel_bufsize s) (channels s) g
    (is_consistency_api_supported s) (gdr_device_native_ordering s)
    (global_exit_request_state s) (global_exit_code s) (timeout_signal s).
Definition set_connections (t : list (option Z)) (ids : list Z) (bitmap : Z) (s : proxy_state)
  : proxy_state :=
  MkState t ids bitmap (quiet_in_progress s)
    (cst_in_progress s) (channel_bufsize_log s) (channel_bufsize s) (channels s) (issued_get s)
    (is_consistency_api_supported s) (gdr_device_native_ordering s)
    (global_exit_request_state s) (global_exit_code s) (timeout_signal s).

Definition set_channel_req (r : option Z) (ch : proxy_channel) : proxy_channel :=
  MkChannel (buf ch) (complete ch) (quiet_issue ch) (quiet_ack ch) (last_quiet_issue ch)
    (cst_issue ch) (cst_ack ch) (last_cst_issue ch) (processed ch) (last_sync ch) r.

(** ** Channels *)

(** [proxy_update_processed] *)
Definition proxy_update_processed (ch : proxy_channel) (bytes : Z) (force_update : bool)
  : proxy_channel :=
  let p := u64 (processed ch + bytes) in
  if bool_decide (u64 (p - last_sync ch) >= 1024) || force_update then
    MkChannel (buf ch) p (quiet_issue ch) (quiet_ack ch) (last_quiet_issue ch)
      (cst_issue ch) (cst_ack ch) (last_cst_issue ch) p p (channel_req ch)
  else
    MkChannel (buf ch) (complete ch) (quiet_issue ch) (quiet_ack ch) (last_quiet_issue ch)
      (cst_issue ch) (cst_ack ch) (last_cst_issue ch) p (last_sync ch) (channel_req ch).

(** [nvshmemi_proxy_create_channels]: every field of a new channel is zero. *)
Definition new_channel : proxy_channel := MkChannel ∅ 0 0 0 0 0 0 0 0 0 None.
Definition nvshmemi_proxy_create_channels (channel_count : Z) : list proxy_channel :=
  replicate (Z.to_nat channel_count) new_channel.

(** [nvshmemi_proxy_setup_connections]: for peer [j], the first transport of
    the bitmap that can be driven by the CPU, which must be connected. *)
Fixpoint find_transport (bitmap j : Z) (i : Z) (ts : list transport_info) : outcome (option Z) :=
  match ts with
  | [] => Ret None
  | tcurr :: ts =>
      if bool_decide (Z.land bitmap (Z.shiftl 1 i) = 0) then find_transport bitmap j (i + 1) ts
      else
        c ← arr_get (cpu_capable tcurr) j;
        if negb c then find_transport bitmap j (i + 1) ts
        else _ ← cassert (attr_connected tcurr); Ret (Some i)
  end.

Fixpoint connect_peers (h : host) (j : Z) (n : nat) (bitmap : Z)
  : outcome (list (option Z) * list Z * Z) :=
  match n with
  | O => Ret ([], [], bitmap)
  | S n =>
      r ← find_transport (state_transport_bitmap h) j 0 (transports h);
      let bitmap := match r with Some i => Z.lor bitmap (Z.shiftl 1 i) | None => bitmap end in
      '(ts, ids, bitmap) ← connect_peers h (j + 1) n bitmap;
      Ret (r :: ts, default 0 r :: ids, bitmap)
  end.

Definition nvshmemi_proxy_setup_connections (h : host) (s : proxy_state) : outcome proxy_state :=
  '(ts, ids, bitmap) ← connect_peers h 0 (Z.to_nat (Rma.npes (henv h))) 0;
  Ret (set_connections ts ids bitmap s).

(** [nvshmemi_proxy_init] at the full proxy level, up to the start of the
    progress thread; the two answers of the device are parameters. *)
Definition CHANNEL_COUNT : Z := 1.
Definition nvshmemi_proxy_init (h : host) (consistency_api : bool) (ordering : Z)
  : outcome proxy_state :=
  nvshmemi_proxy_setup_connections h
    (MkState [] [] 0 PROXY_QUIET_STATUS_CHANNELS_INACTIVE PROXY_CST_STATUS_CHANNELS_INACTIVE
       CHANNEL_BUF_SIZE_LOG (Z.shiftl 1 CHANNEL_BUF_SIZE_LOG)
       (nvshmemi_proxy_create_channels CHANNEL_COUNT) 0 consistency_api ordering
       PROXY_GLOBAL_EXIT_NOT_REQUESTED 0 0).

Section Progress.
Context `{MH : mem_handles} (h : host).
#[local] Abbreviation e := (henv h).

(** [COUNTER_TO_FLAG], [WRAPPED_CHANNEL_BUF] and the 8-byte load through it *)
Definition COUNTER_TO_FLAG (s : proxy_state) (counter : Z) : Z :=
  if bool_decide (Z.land (Z.shiftr counter (channel_bufsize_log s)) 1 = 0) then 1 else 0.
Definition WRAPPED_CHANNEL_BUF (s : proxy_state) (counter : Z) : Z :=
  Z.land counter (channel_bufsize s - 1).
Definition load (s : proxy_state) (ch : proxy_channel) (counter : Z) : Z :=
  default 0 (buf ch !! WRAPPED_CHANNEL_BUF s counter).

(** [while ( *((volatile uint8_t * )&req->flag) != flag);] at [counter] *)
Definition wait_entry (s : proxy_state) (ch : proxy_channel) (counter : Z) : outcome Z :=
  let w := load s ch counter in
  if bool_decide (field w 0 8 = COUNTER_TO_FLAG s counter) then Ret w else Fail FSpin.

(** A dereference of [state->transport[pe]]. *)
Definition tcurr_of (s : proxy_state) (pe : Z) : outcome transport_info :=
  t ← arr_get (transport s) pe;
  match t with Some i => arr_get (transports h) i | None => Fail FUndef end.

Definition base_roffset (b : base_request) : Z := Z.lor (Z.shiftl (roffset_high b) 8) (roffset_low b).

(** [process_channel_dma].  A null [transport[pe]] is dereferenced by the first
    chunk only, hence the test of [size]. *)
Definition process_channel_dma (tr : Rma.trace) (s : proxy_state) (ch : proxy_channel)
  : outcome (Rma.trace * proxy_channel * bool) :=
  let base_req := base_request_of (load s ch (processed ch)) in
  let roffset := base_roffset base_req in
  w0 ← wait_entry s ch (u64 (processed ch + 8));
  w1 ← wait_entry s ch (u64 (processed ch + 16));
  w2 ← wait_entry s ch (u64 (processed ch + 24));
  let dma_req_0 := put_dma_request_0_of w0 in
  let dma_req_1 := put_dma_request_1_of w1 in
  let dma_req_2 := put_dma_request_2_of w2 in
  let qp_index := if bool_decide (br_op base_req >= NVSHMEMI_OP_QP_OP_OFFSET)
                  then s32 (pd2_qp_index dma_req_2) else NVSHMEMX_QP_DEFAULT in
  let laddr := Z.lor (Z.lor (Z.lor (Z.shiftl (laddr_high dma_req_0) 32)
                                   (Z.shiftl (laddr_3 dma_req_0) 16))
                            (Z.shiftl (laddr_2 dma_req_0) 8)) (laddr_low dma_req_1) in
  let size := Z.lor (Z.shiftl (size_high dma_req_1) 16) (size_low dma_req_1) in
  let pe := pd2_pe dma_req_2 in
  let verb := {| Rma.desc := if bool_decide (br_op base_req > NVSHMEMI_OP_QP_OP_OFFSET)
                             then br_op base_req - NVSHMEMI_OP_QP_OP_OFFSET else br_op base_req;
                 Rma.is_nbi := 1; Rma.is_stream := 0 |} in
  let rptr := u64 (Rma.heap_base e + roffset) in
  t ← arr_get (transport_id s) pe;
  _ ← (if bool_decide (size = 0) then Ret tt else _ ← tcurr_of s pe; Ret tt);
  tr ← Rma.nvshmemi_process_multisend_rma e tr t pe verb rptr laddr size qp_index;
  Ret (tr, proxy_update_processed ch PROXY_DMA_REQ_BYTES false, true).

(** [process_channel_inline]; the local descriptor points at the decoded value,
    which stands here for its address. *)
Definition process_channel_inline (tr : Rma.trace) (s : proxy_state) (ch : proxy_channel)
  : outcome (Rma.trace * proxy_channel * bool) :=
  let base_req := base_request_of (load s ch (processed ch)) in
  let roffset := base_roffset base_req in
  w0 ← wait_entry s ch (u64 (processed ch + 8));
  w1 ← wait_entry s ch (u64 (processed ch + 16));
  qp_index ← (if bool_decide (br_op base_req >= NVSHMEMI_OP_QP_OP_OFFSET) then
                w2 ← wait_entry s ch (u64 (processed ch + 24));
                Ret (s32 (pi2_qp_index (put_inline_request_2_of w2)))
              else Ret NVSHMEMX_QP_DEFAULT);
  let inline_req_0 := put_inline_request_0_of w0 in
  let inline_req_1 := put_inline_request_1_of w1 in
  let pe := pi0_pe inline_req_0 in
  let size := pi1_size inline_req_1 in
  let lvalue := if bool_decide (size = 8)
                then Z.lor (lvalue_low inline_req_0) (Z.shiftl (lvalue_high inline_req_1) 32)
                else lvalue_low inline_req_0 in
  let remote := u64 (Rma.heap_base e + roffset) in
  let '(remote_actual, pe) := Rma.NVSHMEMU_UNMAPPED_PTR_PE_TRANSLATE e remote pe in
  t ← arr_get (transport_id s) pe;
  '(rh, roff, _) ← Rma.nvshmemi_get_remote_mem_handle e remote pe t;
  _ ← tcurr_of s pe;
  tr ← Rma.call e tr
         (Rma.EvRma pe {| Rma.desc := NVSHMEMI_OP_P; Rma.is_nbi := 0; Rma.is_stream := 0 |}
            {| Rma.ptr := remote_actual; Rma.offset := roff; Rma.handle := Some rh |}
            {| Rma.ptr := lvalue; Rma.offset := 0; Rma.handle := None |}
            {| Rma.nelems := 1; Rma.elembytes := size; Rma.srcstride := 0; Rma.deststride := 0 |}
            qp_index);
  let bytes := if bool_decide (br_op base_req >= NVSHMEMI_OP_QP_OP_OFFSET)
               then PROXY_INLINE_REQ_BYTES + CHANNEL_ENTRY_BYTES else PROXY_INLINE_REQ_BYTES in
  Ret (tr, proxy_update_processed ch bytes false, true).

(** [process_channel_amo]; also returns the new [issued_get]. *)
Definition process_channel_amo (tr : Rma.trace) (s : proxy_state) (ch : proxy_channel)
  : outcome (Rma.trace * proxy_channel * bool * Z) :=
  let base_req := base_request_of (load s ch (processed ch)) in
  let roffset := base_roffset base_req in
  w0 ← wait_entry s ch (u64 (processed ch + 8));
  w1 ← wait_entry s ch (u64 (processed ch + 16));
  w2 ← wait_entry s ch (u64 (processed ch + 24));
  w3 ← wait_entry s ch (u64 (processed ch + 32));
  qp_index ← (if bool_decide (br_op base_req >= NVSHMEMI_OP_QP_OP_OFFSET) then
                w4 ← wait_entry s ch (u64 (processed ch + 40));
                Ret (s32 (field w4 32 32))
              else Ret NVSHMEMX_QP_DEFAULT);
  let req_0 := amo_request_0_of w0 in
  let req_1 := amo_request_1_of w1 in
  let pe := am0_pe req_0 in
  let size := am1_size req_1 in
  let amo_op := am0_amo req_0 in
  let lvalue := Z.lor (swap_add_low req_0) (Z.shiftl (swap_add_high req_1) 32) in
  let cvalue := if bool_decide (amo_op = NVSHMEMI_AMO_COMPARE_SWAP)
                then Z.lor (Z.land w2 0xFFFFFFFFFFFFFF00) (compare_low req_1) else 0 in
  let remote := u64 (Rma.heap_base e + roffset) in
  let remote_actual := u64 (Rma.remote_pe_base e pe + roffset) in
  t ← arr_get (transport_id s) pe;
  '(rh, roff, _) ← Rma.nvshmemi_get_remote_mem_handle e remote pe t;
  '(retptr, retflag, ret_handle) ←
    (if bool_decide (amo_op > NVSHMEMI_AMO_END_OF_NONFETCH) then
       let g_buf_counter := Z.shiftr (Z.land w3 0xFFFFFFFFFFFFFF00) 8 in
       let offset := Z.land (u64 (g_buf_counter * 16)) (proxy_channel_g_buf_size h - 1) in
       let retptr := u64 (proxy_channel_g_buf h + offset) in
       let retflag := u64 (Z.shiftr (u64 (g_buf_counter * 16)) (proxy_channel_g_buf_log_size h) * 2 + 1) in
       lh ← Rma.nvshmemi_get_local_mem_handle_null e retptr t;
       Ret (retptr, retflag, Some lh)
     else Ret (0, 0, None));
  let memdesc := {| Rma.remote_memdesc :=
                      {| Rma.ptr := remote_actual; Rma.offset := roff; Rma.handle := Some rh |};
                    Rma.retflag := retflag; Rma.retptr := retptr; Rma.val := lvalue;
                    Rma.cmp := cvalue; Rma.ret_handle := ret_handle |} in
  _ ← tcurr_of s pe;
  tr ← Rma.call e tr (Rma.EvAmo pe amo_op memdesc size qp_index);
  let bytes := if bool_decide (br_op base_req >= NVSHMEMI_OP_QP_OP_OFFSET)
               then PROXY_AMO_REQ_BYTES + CHANNEL_ENTRY_BYTES else PROXY_AMO_REQ_BYTES in
  Ret (tr, proxy_update_processed ch bytes false, true,
       if bool_decide (amo_op > NVSHMEMI_AMO_END_OF_NONFETCH) && atomics_complete_on_quiet h
       then 1 else issued_get s).

(** The chunk loop of [process_channel_put_signal]: the three descriptor
    vectors and the value of [pe] it leaves. *)
Fixpoint put_signal_chunks (fuel : nat) (s : proxy_state) (pe rwrite_ptr lwrite_ptr size_remaining : Z)
  : outcome (list Rma.rma_memdesc * list Rma.rma_memdesc * list Rma.rma_bytesdesc * Z) :=
  if bool_decide (size_remaining = 0) then Ret ([], [], [], pe)
  else match fuel with
  | O => Fail FSpin
  | S fuel =>
      let '(_, pe') := Rma.NVSHMEMU_UNMAPPED_PTR_PE_TRANSLATE e rwrite_ptr pe in
      t ← arr_get (transport_id s) pe';
      '(remotedesc, localdesc, chunk_size, pe) ←
         Rma.next_chunk e t pe rwrite_ptr lwrite_ptr size_remaining;
      '(rs, ls, bs, pe) ← put_signal_chunks fuel s pe (u64 (rwrite_ptr + chunk_size))
         (u64 (lwrite_ptr + chunk_size)) (u64 (size_remaining - chunk_size));
      Ret (remotedesc :: rs, localdesc :: ls, Rma.byte_chunk chunk_size :: bs, pe)
  end.

(** [process_channel_put_signal] *)
Definition process_channel_put_signal (tr : Rma.trace) (s : proxy_state) (ch : proxy_channel)
  : outcome (Rma.trace * proxy_channel * bool) :=
  let base_req := base_request_of (load s ch (processed ch)) in
  let rwrite_offset := base_roffset base_req in
  w0 ← wait_entry s ch (u64 (processed ch + 8));
  w1 ← wait_entry s ch (u64 (processed ch + 16));
  w2 ← wait_entry s ch (u64 (processed ch + 24));
  w3 ← wait_entry s ch (u64 (processed ch + 32));
  w4 ← wait_entry s ch (u64 (processed ch + 40));
  let ps_req_0 := put_signal_request_0_of w0 in
  let ps_req_1 := put_signal_request_1_of w1 in
  let ps_req_2 := put_signal_request_2_of w2 in
  let ps_req_3 := put_signal_request_3_of w3 in
  let ps_req_4 := put_signal_request_4_of w4 in
  let pe := ps2_pe ps_req_2 in
  let qp_index := if bool_decide (br_op base_req >= NVSHMEMI_OP_QP_OP_OFFSET)
                  then s32 (ps2_qp_index ps_req_2) else NVSHMEMX_QP_DEFAULT in
  let write_verb := {| Rma.desc := NVSHMEMI_OP_PUT; Rma.is_nbi := 1; Rma.is_stream := 0 |} in
  let rwrite_ptr := u64 (Rma.heap_base e + rwrite_offset) in
  let lwrite_ptr := Z.lor (Z.lor (Z.lor (Z.shiftl (laddr_write_high ps_req_0) 32)
                                        (Z.shiftl (laddr_write_3 ps_req_0) 16))
                                 (Z.shiftl (laddr_write_2 ps_req_0) 8)) (laddr_write_low ps_req_1) in
  let size := Z.lor (Z.shiftl (write_size_high ps_req_1) 16) (write_size_low ps_req_1) in
  '(rs, ls, bs, pe) ← put_signal_chunks (Z.to_nat size) s pe rwrite_ptr lwrite_ptr size;
  let rsig_offset := Z.lor (Z.shiftl (rsigoffset_high ps_req_3) 8) (rsigoffset_low ps_req_3) in
  let rsig_ptr := u64 (Rma.heap_base e + rsig_offset) in
  let sigval := Z.lor (Z.lor (Z.lor (Z.shiftl (sigval_high ps_req_4) 32)
                                    (Z.shiftl (sigval_3 ps_req_4) 16))
                             (Z.shiftl (sigval_2 ps_req_4) 8)) (sigval_low ps_req_3) in
  let '(sig_ptr, pe) := Rma.NVSHMEMU_UNMAPPED_PTR_PE_TRANSLATE e rsig_ptr pe in
  t ← arr_get (transport_id s) pe;
  '(rh, roff, _) ← Rma.nvshmemi_get_remote_mem_handle e rsig_ptr pe t;
  let sig_target := {| Rma.remote_memdesc :=
                         {| Rma.ptr := sig_ptr; Rma.offset := roff; Rma.handle := Some rh |};
                       Rma.retflag := 0; Rma.retptr := 0; Rma.val := sigval; Rma.cmp := 0;
                       Rma.ret_handle := None |} in
  _ ← tcurr_of s pe;
  tr ← Rma.call e tr (Rma.EvPutSignal pe write_verb rs ls bs (sig_op ps_req_3) sig_target 8 qp_index);
  Ret (tr, proxy_update_processed ch PROXY_PUT_WITH_SIG_REQ_BYTES false, true).

(** [process_channel_fence]: every PE but this one, in order. *)
Definition fence_peer (s : proxy_state) (tr : Rma.trace) (i : Z) : outcome Rma.trace :=
  if bool_decide (i = Rma.mype e) then Ret tr
  else
    tcurr ← tcurr_of s i;
    if has_fence tcurr then Rma.call e tr (Rma.EvFence i NVSHMEMX_QP_DEFAULT 0) else Ret tr.

(** A [for] loop over a list, threading the trace. *)
Fixpoint for_each {A} (f : Rma.trace -> A -> outcome Rma.trace) (l : list A) (tr : Rma.trace)
  : outcome Rma.trace :=
  match l with
  | [] => Ret tr
  | x :: l => tr ← f tr x; for_each f l tr
  end.

Definition pes (n : Z) : list Z := seqZ 0 n.

Definition process_channel_fence (tr : Rma.trace) (s : proxy_state) (ch : proxy_channel)
  : outcome (Rma.trace * proxy_channel) :=
  tr ← for_each (fence_peer s) (pes (Rma.npes e)) tr;
  Ret (tr, proxy_update_processed ch CHANNEL_ENTRY_BYTES false).

(** The first loop of the two queue-pair requests: wait for every entry. *)
Fixpoint wait_entries (s : proxy_state) (ch : proxy_channel) (counter : Z) (n : nat)
  : outcome (list Z) :=
  match n with
  | O => Ret []
  | S n =>
      w ← wait_entry s ch counter;
      ws ← wait_entries s ch (u64 (counter + 8)) n;
      Ret (w :: ws)
  end.

(** The PEs a queue-pair entry names. *)
Definition qp_pes (pe : Z) : list Z :=
  if bool_decide (pe = NVSHMEMX_PE_ALL) then pes (Rma.npes e) else [pe].

(** [process_channel_qp_fence] *)
Definition qp_fence_pe (s : proxy_state) (qp_index is_multi : Z) (tr : Rma.trace) (pe : Z)
  : outcome Rma.trace :=
  let pe := Rma.NVSHMEMU_PE_TRANSLATE e pe in
  tcurr ← tcurr_of s pe;
  if has_fence tcurr then Rma.call e tr (Rma.EvFence pe qp_index is_multi) else Ret tr.

Definition qp_fence_entry (s : proxy_state) (is_multi : Z) (tr : Rma.trace) (w : Z)
  : outcome Rma.trace :=
  let req := qp_sync_request_0_of w in
  for_each (qp_fence_pe s (s32 (qs0_qp_index req)) is_multi) (qp_pes (qs0_pe req)) tr.

Definition process_channel_qp_fence (tr : Rma.trace) (s : proxy_state) (ch : proxy_channel)
  : outcome (Rma.trace * proxy_channel) :=
  let num_qps := s32 (qp_count (qp_sync_base_request_of (load s ch (processed ch)))) in
  let is_multi := if bool_decide (num_qps > 1) then 1 else 0 in
  ws ← wait_entries s ch (u64 (processed ch + 8)) (Z.to_nat num_qps);
  tr ← for_each (qp_fence_entry s is_multi) ws tr;
  Ret (tr, proxy_update_processed ch (CHANNEL_ENTRY_BYTES * num_qps + CHANNEL_ENTRY_BYTES) false).

(** [enforce_cst] *)
Definition CU_FLUSH_GPU_DIRECT_RDMA_WRITES_TO_OWNER : Z := 100.

Definition cst_transport (tr : Rma.trace) (ti : Z * transport_info) : outcome Rma.trace :=
  let '(i, tcurr) := ti in
  if bool_decide (Z.land (state_transport_bitmap h) (Z.shiftl 1 i) = 0) then Ret tr
  else if negb (has_enforce_cst tcurr) then Ret tr
  else if attr_connected tcurr then Rma.call e tr (Rma.EvEnforceCst i)
  else Ret tr.

Definition indexed_transports : list (Z * transport_info) :=
  zip (pes (Z.of_nat (length (transports h)))) (transports h).

Definition enforce_cst (tr : Rma.trace) (s : proxy_state) : outcome Rma.trace :=
  if BYPASS_FLUSH h then Ret tr
  else if is_consistency_api_supported s then
    if bool_decide (CU_FLUSH_GPU_DIRECT_RDMA_WRITES_TO_OWNER > gdr_device_native_ordering s)
       && flush_available h
    then Rma.call e tr Rma.EvFlush
    else Ret tr
  else for_each cst_transport indexed_transports tr.

(** [process_channel_qp_quiet] *)
Definition qp_quiet_pe (s : proxy_state) (qp_index : Z) (tr : Rma.trace) (j : Z)
  : outcome Rma.trace :=
  let pe := Rma.NVSHMEMU_PE_TRANSLATE e (Z.rem j (Rma.npes e)) in
  tcurr ← tcurr_of s pe;
  if has_quiet tcurr then Rma.call e tr (Rma.EvQuiet pe qp_index) else Ret tr.

Definition qp_quiet_entry (s : proxy_state) (tr : Rma.trace) (w : Z) : outcome Rma.trace :=
  let req := qp_sync_request_0_of w in
  for_each (qp_quiet_pe s (s32 (qs0_qp_index req))) (qp_pes (qs0_pe req)) tr.

Definition process_channel_qp_quiet (tr : Rma.trace) (s : proxy_state) (ch : proxy_channel)
  : outcome (Rma.trace * proxy_channel) :=
  let num_qps := s32 (qp_count (qp_sync_base_request_of (load s ch (processed ch)))) in
  ws ← wait_entries s ch (u64 (processed ch + 8)) (Z.to_nat num_qps);
  tr ← for_each (qp_quiet_entry s) ws tr;
  tr ← (if bool_decide (issued_get s = 0) then Ret tr else enforce_cst tr s);
  Ret (tr, proxy_update_processed ch (CHANNEL_ENTRY_BYTES * num_qps + CHANNEL_ENTRY_BYTES) true).

(** ** Quiet and consistency *)

(** [quiet_ack_channels], [quiet_channels_check], [quiet_channels_test] *)
Definition ack_quiet (ch : proxy_channel) : proxy_channel :=
  MkChannel (buf ch) (complete ch) (quiet_issue ch) (last_quiet_issue ch) (last_quiet_issue ch)
    (cst_issue ch) (cst_ack ch) (last_cst_issue ch) (processed ch) (last_sync ch) (channel_req ch).
Definition quiet_ack_channels (s : proxy_state) : proxy_state :=
  set_channels (ack_quiet <$> channels s) s.

Definition quiet_pending (ch : proxy_channel) : bool :=
  bool_decide (quiet_issue ch > last_quiet_issue ch).
Definition latch_quiet (ch : proxy_channel) : proxy_channel :=
  if quiet_pending ch then
    MkChannel (buf ch) (complete ch) (quiet_issue ch) (quiet_ack ch) (quiet_issue ch)
      (cst_issue ch) (cst_ack ch) (last_cst_issue ch) (processed ch) (last_sync ch) (channel_req ch)
  else ch.
Definition quiet_channels_check (s : proxy_state) : bool * proxy_state :=
  (existsb quiet_pending (channels s), set_channels (latch_quiet <$> channels s) s).

Definition quiet_channels_test (s : proxy_state) : bool :=
  forallb (fun ch => negb (bool_decide (processed ch < last_quiet_issue ch))) (channels s).

(** [progress_global_exit]: [nvshmem_global_exit] ends the process. *)
Definition progress_global_exit (s : proxy_state) : outcome unit :=
  if bool_decide (global_exit_request_state s = PROXY_GLOBAL_EXIT_REQUESTED)
  then Fail (FExit (global_exit_code s)) else Ret tt.

(** The loop over the peers in [progress_quiet]; [host_ops.quiet] is called
    without a test. *)
Definition quiet_peer (s : proxy_state) (tr : Rma.trace) (i : Z) : outcome Rma.trace :=
  t ← arr_get (transport s) i;
  match t with
  | None => Ret tr
  | Some j =>
      tcurr ← arr_get (transports h) j;
      if has_quiet tcurr then Rma.call e tr (Rma.EvQuiet i NVSHMEMX_QP_ALL) else Fail FUndef
  end.

(** [progress_quiet] *)
Definition quiet_start (s : proxy_state) : proxy_state :=
  if bool_decide (quiet_in_progress s = PROXY_QUIET_STATUS_CHANNELS_INACTIVE) then
    let '(start, s) := quiet_channels_check s in
    if start then set_quiet_in_progress PROXY_QUIET_STATUS_CHANNELS_IN_PROGRESS s else s
  else s.
Definition quiet_advance (s : proxy_state) : proxy_state :=
  if bool_decide (quiet_in_progress s = PROXY_QUIET_STATUS_CHANNELS_IN_PROGRESS) then
    if quiet_channels_test s then set_quiet_in_progress PROXY_QUIET_STATUS_CHANNELS_DONE s else s
  else s.
Definition progress_quiet (tr : Rma.trace) (s : proxy_state) : outcome (Rma.trace * proxy_state) :=
  let s := quiet_advance (quiet_start s) in
  if bool_decide (quiet_in_progress s = PROXY_QUIET_STATUS_CHANNELS_DONE) then
    tr ← for_each (quiet_peer s) (pes (Rma.npes e)) tr;
    '(tr, s) ← (if bool_decide (issued_get s = 0) then Ret (tr, s)
                else tr ← enforce_cst tr s; Ret (tr, set_issued_get 0 s));
    Ret (tr, set_quiet_in_progress PROXY_QUIET_STATUS_CHANNELS_INACTIVE (quiet_ack_channels s))
  else Ret (tr, s).

(** [cst_ack_channels], [cst_channels_check], [progress_cst] *)
Definition ack_cst (ch : proxy_channel) : proxy_channel :=
  MkChannel (buf ch) (complete ch) (quiet_issue ch) (quiet_ack ch) (last_quiet_issue ch)
    (cst_issue ch) (last_cst_issue ch) (last_cst_issue ch) (processed ch) (last_sync ch) (channel_req ch).
Definition cst_ack_channels (s : proxy_state) : proxy_state :=
  set_channels (ack_cst <$> channels s) s.

Definition cst_pending (ch : proxy_channel) : bool := bool_decide (cst_issue ch > last_cst_issue ch).
Definition latch_cst (ch : proxy_channel) : proxy_channel :=
  if cst_pending ch then
    MkChannel (buf ch) (complete ch) (quiet_issue ch) (quiet_ack ch) (last_quiet_issue ch)
      (cst_issue ch) (cst_ack ch) (cst_issue ch) (processed ch) (last_sync ch) (channel_req ch)
  else ch.
Definition cst_channels_check (s : proxy_state) : bool * proxy_state :=
  (existsb cst_pending (channels s), set_channels (latch_cst <$> channels s) s).

Definition progress_cst (tr : Rma.trace) (s : proxy_state) : outcome (Rma.trace * proxy_state) :=
  let s := if bool_decide (cst_in_progress s = PROXY_CST_STATUS_CHANNELS_INACTIVE) then
             let '(start, s) := cst_channels_check s in
             if start then set_cst_in_progress PROXY_CST_STATUS_CHANNELS_ACTIVE s else s
           else s in
  if bool_decide (cst_in_progress s = PROXY_CST_STATUS_CHANNELS_ACTIVE) then
    tr ← enforce_cst tr s;
    Ret (tr, set_cst_in_progress PROXY_CST_STATUS_CHANNELS_INACTIVE (cst_ack_channels s))
  else Ret (tr, s).

(** ** The progress loop *)

(** The [switch] of [progress_channels]: trace, channel, [is_processed] and the
    new [issued_get]. *)
Definition dispatch (tr : Rma.trace) (s : proxy_state) (ch : proxy_channel) (op : Z)
  : outcome (Rma.trace * proxy_channel * bool * Z) :=
  let g := issued_get s in
  if bool_decide (op = NVSHMEMI_OP_PUT \/ op = NVSHMEMI_OP_PUT_QP) then
    '(tr, ch, ok) ← process_channel_dma tr s ch; Ret (tr, ch, ok, g)
  else if bool_decide (op = NVSHMEMI_OP_G \/ op = NVSHMEMI_OP_G_QP \/
                       op = NVSHMEMI_OP_GET \/ op = NVSHMEMI_OP_GET_QP) then
    '(tr, ch, ok) ← process_channel_dma tr s ch; Ret (tr, ch, ok, if (ok : bool) then 1 else g)
  else if bool_decide (op = NVSHMEMI_OP_P \/ op = NVSHMEMI_OP_P_QP) then
    '(tr, ch, ok) ← process_channel_inline tr s ch; Ret (tr, ch, ok, g)
  else if bool_decide (op = NVSHMEMI_OP_AMO \/ op = NVSHMEMI_OP_AMO_QP) then
    process_channel_amo tr s ch
  else if bool_decide (op = NVSHMEMI_OP_FENCE) then
    '(tr, ch) ← process_channel_fence tr s ch; Ret (tr, ch, true, g)
  else if bool_decide (op = NVSHMEMI_OP_FENCE_QP) then
    '(tr, ch) ← process_channel_qp_fence tr s ch; Ret (tr, ch, true, g)
  else if bool_decide (op = NVSHMEMI_OP_QUIET_QP) then
    '(tr, ch) ← process_channel_qp_quiet tr s ch; Ret (tr, ch, true, g)
  else if bool_decide (op = NVSHMEMI_OP_PUT_SIGNAL \/ op = NVSHMEMI_OP_PUT_SIGNAL_QP) then
    '(tr, ch, ok) ← process_channel_put_signal tr s ch; Ret (tr, ch, ok, g)
  else Fail (FExit (-1)).

(** The batch loop over one channel; [None] when the next request is not there. *)
Definition poll_request (s : proxy_state) (ch : proxy_channel) : option Z :=
  match channel_req ch with
  | Some r => Some r
  | None =>
      if bool_decide (Z.land (field (load s ch (processed ch)) 0 8) 1 = COUNTER_TO_FLAG s (processed ch))
      then Some (WRAPPED_CHANNEL_BUF s (processed ch)) else None
  end.

Fixpoint progress_channel (n : nat) (tr : Rma.trace) (s : proxy_state) (ch : proxy_channel)
  : outcome (Rma.trace * proxy_state * proxy_channel) :=
  match n with
  | O => Ret (tr, s, ch)
  | S n =>
      match poll_request s ch with
      | None => Ret (tr, s, set_channel_req None ch)
      | Some r =>
          let ch := set_channel_req (Some r) ch in
          let op := br_op (base_request_of (default 0 (buf ch !! r))) in
          '(tr, ch, is_processed, g) ← dispatch tr s ch op;
          let ch := if (is_processed : bool) then set_channel_req None ch else ch in
          progress_channel n tr (set_issued_get g s) ch
      end
  end.

(** [progress_channels]: the channels in order; [done] are those before. *)
Fixpoint progress_channels_from (tr : Rma.trace) (s : proxy_state) (done rest : list proxy_channel)
  : outcome (Rma.trace * proxy_state) :=
  match rest with
  | [] => Ret (tr, set_channels done s)
  | ch :: rest =>
      '(tr, s, ch) ← progress_channel (Z.to_nat (PROXY_REQUEST_BATCH_MAX h)) tr s ch;
      progress_channels_from tr s (done ++ [ch]) rest
  end.
Definition progress_channels (tr : Rma.trace) (s : proxy_state) : outcome (Rma.trace * proxy_state) :=
  progress_channels_from tr s [] (channels s).

(** [progress_timeout_polling]: a timeout signal ends the process. *)
Definition progress_timeout_polling (s : proxy_state) : outcome unit :=
  if bool_decide (timeout_signal s = 0) then Ret tt else Fail (FExit (-1)).

(** [progress_transports] *)
Definition progress_transport (s : proxy_state) (tr : Rma.trace) (ti : Z * transport_info)
  : outcome Rma.trace :=
  let '(i, tcurr) := ti in
  if bool_decide (Z.land (transport_bitmap s) (Z.shiftl 1 i) = 0) && negb (is_ibgda tcurr) then Ret tr
  else if negb (has_progress tcurr) then Ret tr
  else Rma.call e tr (Rma.EvProgress i).
Definition progress_transports (tr : Rma.trace) (s : proxy_state) : outcome Rma.trace :=
  for_each (progress_transport s) indexed_transports tr.

(** [progress], built with [NVSHMEM_TIMEOUT_DEVICE_POLLING] when [polling] *)
Definition progress (polling : bool) (tr : Rma.trace) (s : proxy_state)
  : outcome (Rma.trace * proxy_state) :=
  _ ← progress_global_exit s;
  '(tr, s) ← progress_quiet tr s;
  '(tr, s) ← progress_cst tr s;
  _ ← (if polling then progress_timeout_polling s else Ret tt);
  '(tr, s) ← progress_channels tr s;
  tr ← progress_transports tr s;
  Ret (tr, s).

End Progress.
End Host.
