(* ===== verification/ProxyRing.v ===== *)
(** * The interface of the ring: what a producer stores, what the consumer takes

    [ring_producer] states what the host relies on for every request a device
    call writes: one 8-byte store per entry, at consecutive slots, each with
    the lap flag in its low byte, and as many entries as the host consumes for
    the request's operation code.  Every producer of [Device] is an instance;
    [dispatch_consumes] is the consumer's side. *)
From stdpp Require Import base gmap list.
From Stdlib Require Import ZArith Lia.
From S2P Require Import Prelude ProxyChannel ProxyDevice Rma ProxyHost.
Import Channel Device.

(** The device state [nvshmemi_proxy_setup_device_channels] installs. *)
Definition dev (base : Z) : device_state :=
  {| proxy_channel_buf_size := CHANNEL_BUF_SIZE;
     proxy_channel_buf_logsize := CHANNEL_BUF_SIZE_LOG; heap_base := base |}.

Definition slot (c : Z) : Z := Z.land c (CHANNEL_BUF_SIZE - 1).
Definition lap_flag (c : Z) : Z :=
  if bool_decide (Z.land (Z.shiftr c CHANNEL_BUF_SIZE_LOG) 1 = 0) then 1 else 0.

(** The entries the host consumes for a request that starts with word [w]. *)
Definition entries (w : Z) : option nat :=
  let op := br_op (base_request_of w) in
  if bool_decide (op ∈ [NVSHMEMI_OP_PUT; NVSHMEMI_OP_PUT_QP; NVSHMEMI_OP_G; NVSHMEMI_OP_G_QP;
                        NVSHMEMI_OP_GET; NVSHMEMI_OP_GET_QP; NVSHMEMI_OP_P_QP]) then Some 4%nat
  else if bool_decide (op = NVSHMEMI_OP_P) then Some 3%nat
  else if bool_decide (op = NVSHMEMI_OP_AMO) then Some 5%nat
  else if bool_decide (op ∈ [NVSHMEMI_OP_AMO_QP; NVSHMEMI_OP_PUT_SIGNAL; NVSHMEMI_OP_PUT_SIGNAL_QP])
    then Some 6%nat
  else if bool_decide (op = NVSHMEMI_OP_FENCE) then Some 1%nat
  else if bool_decide (op ∈ [NVSHMEMI_OP_FENCE_QP; NVSHMEMI_OP_QUIET_QP])
    then let n := s32 (qp_count (qp_sync_base_request_of w)) in
         if bool_decide (0 <= n) then Some (S (Z.to_nat n)) else None
  else None.

(** A store of the word [w] for counter [c]. *)
Definition store_for (c : Z) (sw : Z * Z) : Prop :=
  fst sw = slot c /\ field (snd sw) 0 8 = lap_flag c.

(** Consecutive entries from counter [c] on. *)
Fixpoint stores_from (c : Z) (l : list (Z * Z)) : Prop :=
  match l with
  | [] => True
  | sw :: l => store_for c sw /\ stores_from (u64 (c + CHANNEL_ENTRY_BYTES)) l
  end.

Class ring_producer (r : issued) : Prop := {
  rp_size idx : iss_size r = 8 * Z.of_nat (length (iss_stores r idx));
  rp_stores idx : stores_from idx (iss_stores r idx);
  rp_entries idx : exists sw l, iss_stores r idx = sw :: l /\ entries (snd sw) = Some (S (length l))
}.

(** ** Field algebra of the words the producers build *)
Lemma lap_flag_range c : 0 <= lap_flag c < 2 ^ 8.
Proof. unfold lap_flag. case_bool_decide; lia. Qed.

Lemma field_lap_low c : field (lap_flag c) 0 8 = lap_flag c.
Proof. apply field_full, lap_flag_range. Qed.

Lemma field_lap_high c off len : 8 <= off -> 0 <= len -> field (lap_flag c) off len = 0.
Proof.
  intros. apply field_above; [done|]. pose proof (lap_flag_range c).
  pose proof (Z.pow_le_mono_r 2 8 off). lia.
Qed.

(** Evaluate the fields of a word made of shifted parts. *)
Ltac field_step :=
  first
    [ rewrite field_lor by lia
    | rewrite field_u64 by lia
    | rewrite field_shiftl_below by lia
    | rewrite field_shiftl_in by lia
    | rewrite field_mask_high by lia
    | rewrite field_mask_low by lia
    | rewrite field_mask_high_below by lia
    | rewrite field_lap_low
    | rewrite field_lap_high by lia ].
Ltac fields :=
  repeat field_step;
  rewrite ?Z.lor_0_l, ?Z.lor_0_r, ?Z.sub_diag.

Lemma mask_lowest_eq : mask_lowest_byte = Z.ldiff (Z.ones 64) (Z.ones 8).
Proof. reflexivity. Qed.
Lemma mask_upper_eq : mask_upper_7_bytes = Z.ones 8.
Proof. reflexivity. Qed.
Lemma mask_4_eq : 0x00000000ffffffff = Z.ones 32.
Proof. reflexivity. Qed.
Lemma mask_4_not_eq : u64 (Z.lnot (Z.ones 32)) = Z.ldiff (Z.ones 64) (Z.ones 32).
Proof. reflexivity. Qed.
Lemma mask_7_not_eq : u64 (Z.lnot (Z.ones 8)) = Z.ldiff (Z.ones 64) (Z.ones 8).
Proof. reflexivity. Qed.
Lemma mask_7_eq : 0x00000000000000FF = Z.ones 8.
Proof. reflexivity. Qed.
Lemma mask_1_eq : 0x00FFFFFFFFFFFFFF = Z.ones 56.
Proof. reflexivity. Qed.
Create Rewrite HintDb nvmask.
#[export] Hint Rewrite mask_lowest_eq mask_upper_eq mask_4_eq mask_7_eq mask_1_eq
  mask_4_not_eq mask_7_not_eq : nvmask.

Lemma curr_flag_dev base c : curr_flag (dev base) c = lap_flag c.
Proof. reflexivity. Qed.
Lemma slot_const_eq c : slot_const c = slot c.
Proof. reflexivity. Qed.
Lemma slot_state_dev base c : slot_state (dev base) c = slot c.
Proof. reflexivity. Qed.

(** The base word: flag, operation code and (possibly truncated) offset. *)
Lemma base_word_flag ro op gs c : field (base_word ro op gs (lap_flag c)) 0 8 = lap_flag c.
Proof. unfold base_word. fields. reflexivity. Qed.

Lemma base_word_op ro op c :
  0 <= op < 256 -> br_op (base_request_of (base_word ro op 1 (lap_flag c))) = op.
Proof.
  intros. unfold base_request_of, base_word; cbn [br_op]. fields.
  by apply field_full.
Qed.

(** The [op] of a request in its two forms. *)
Lemma entries_op w n :
  (forall w', br_op (base_request_of w') = br_op (base_request_of w) -> entries w' = Some n) ->
  entries w = Some n.
Proof. auto. Qed.

Ltac entries_tac :=
  unfold entries; rewrite base_word_op by (vm_compute; split; congruence); reflexivity.

(** ** The producers are ring producers *)
Ltac store_tac :=
  split; [reflexivity|];
  rewrite ?curr_flag_dev; unfold snd, base_word;
  autorewrite with nvmask; fields; reflexivity.

#[export] Instance transfer_dma_ring base rptr lptr bytes pe op qp :
  op ∈ [NVSHMEMI_OP_PUT; NVSHMEMI_OP_G; NVSHMEMI_OP_GET] ->
  ring_producer (transfer_dma (dev base) rptr lptr bytes pe op qp).
Proof.
  intros Hop. split.
  - reflexivity.
  - intros idx. cbn [stores_from iss_stores transfer_dma].
    split; [store_tac|split; [store_tac|split; [store_tac|split; [store_tac|done]]]].
  - intros idx. eexists _, _. split; [reflexivity|]. cbn [snd length].
    set (o := if bool_decide (qp <> NVSHMEMX_QP_DEFAULT) then _ else _).
    assert (o ∈ [1; 5; 4; 101; 105; 104]) as Ho.
    { subst o. case_bool_decide; set_unfold; unfold NVSHMEMI_OP_PUT, NVSHMEMI_OP_G, NVSHMEMI_OP_GET,
        NVSHMEMI_OP_QP_OP_OFFSET in *; lia. }
    clearbody o. set_unfold. destruct_or! Ho; subst o; entries_tac.
Qed.

#[export] Instance put_signal_ring base rw lw bytes pe sa sv so qp :
  ring_producer (nvshmemi_proxy_put_signal_nbi (dev base) rw lw bytes pe NVSHMEMI_OP_PUT_SIGNAL sa sv so qp).
Proof.
  split.
  - reflexivity.
  - intros idx. cbn [stores_from iss_stores nvshmemi_proxy_put_signal_nbi].
    split; [store_tac|split; [store_tac|split; [store_tac|split; [store_tac|split;
      [store_tac|split; [store_tac|done]]]]]].
  - intros idx. eexists _, _. split; [reflexivity|]. cbn [snd length]. case_bool_decide; entries_tac.
Qed.

#[export] Instance rma_p_ring base sz rptr v pe qp :
  ring_producer (nvshmemi_proxy_rma_p (dev base) sz rptr v pe qp).
Proof.
  unfold nvshmemi_proxy_rma_p, transfer_inline. case_bool_decide; split;
    [reflexivity| | |reflexivity| |]; intros idx; cbn [iss_stores].
  - cbn [stores_from]. split; [store_tac|split; [store_tac|split; [store_tac|split; [store_tac|done]]]].
  - eexists _, _. split; [reflexivity|]. cbn [snd length]. entries_tac.
  - cbn [stores_from]. split; [store_tac|split; [store_tac|split; [store_tac|done]]].
  - eexists _, _. split; [reflexivity|]. cbn [snd length]. entries_tac.
Qed.

#[export] Instance amo_ring base junk sz rptr g sw cp pe op qp :
  ring_producer (amo (dev base) junk sz rptr g sw cp pe op qp).
Proof.
  unfold amo. case_bool_decide; split;
    [reflexivity| | |reflexivity| |]; intros idx; cbn [iss_stores].
  - cbn [stores_from].
    split; [store_tac|split; [store_tac|split; [store_tac|split; [store_tac|split;
      [store_tac|split; [store_tac|done]]]]]].
  - eexists _, _. split; [reflexivity|]. cbn [snd length]. entries_tac.
  - cbn [stores_from].
    split; [store_tac|split; [store_tac|split; [store_tac|split; [store_tac|split;
      [store_tac|done]]]]].
  - eexists _, _. split; [reflexivity|]. cbn [snd length]. entries_tac.
Qed.

#[export] Instance fence_ring base : ring_producer (proxy_fence (dev base)).
Proof.
  split; [reflexivity| |]; intros idx; cbn [iss_stores proxy_fence].
  - split; [|done]. split; [reflexivity|]. cbn [snd]. rewrite curr_flag_dev. fields. reflexivity.
  - eexists _, _. split; [reflexivity|]. cbn [snd length]. unfold entries.
    rewrite curr_flag_dev.
    assert (br_op (base_request_of (Z.lor (Z.shiftl NVSHMEMI_OP_FENCE 16) (lap_flag idx))) = 6) as ->.
    { unfold base_request_of; cbn [br_op]. fields. reflexivity. }
    reflexivity.
Qed.

Lemma quiet_qp_entries_stores base pe op qps : forall idx,
  length (quiet_qp_entries (dev base) idx pe op qps) = length qps /\
  stores_from (next idx) (quiet_qp_entries (dev base) idx pe op qps).
Proof.
  induction qps as [|qp qps IH]; intros idx; [done|].
  cbn [quiet_qp_entries length stores_from]. destruct (IH (next idx)) as [-> HS].
  split; [done|]. split; [|exact HS]. store_tac.
Qed.

Lemma fence_qp_entries_stores base pe op qps : forall idx,
  length (fence_qp_entries (dev base) idx pe op qps) = length qps /\
  stores_from (next idx) (fence_qp_entries (dev base) idx pe op qps).
Proof.
  induction qps as [|qp qps IH]; intros idx; [done|].
  cbn [fence_qp_entries length stores_from]. destruct (IH (next idx)) as [-> HS].
  split; [done|]. split; [|exact HS]. store_tac.
Qed.

Lemma qp_sync_base_entries n op c :
  0 <= n < 2 ^ 31 -> op = NVSHMEMI_OP_FENCE_QP \/ op = NVSHMEMI_OP_QUIET_QP ->
  entries (qp_sync_base_word n op (lap_flag c)) = Some (S (Z.to_nat n)).
Proof.
  intros Hn Hop. unfold entries.
  assert (br_op (base_request_of (qp_sync_base_word n op (lap_flag c))) = op) as ->.
  { unfold base_request_of, qp_sync_base_word; cbn [br_op]. fields.
    destruct Hop as [-> | ->]; reflexivity. }
  assert (qp_count (qp_sync_base_request_of (qp_sync_base_word n op (lap_flag c))) = n) as ->.
  { unfold qp_sync_base_request_of, qp_sync_base_word; cbn [qp_count]. fields.
    rewrite (field_above op (32 - 16) 32); [|lia|destruct Hop as [-> | ->]; vm_compute; split; congruence].
    rewrite Z.lor_0_r. apply field_full. lia. }
  assert (s32 n = n) as ->.
  { unfold s32. rewrite wrap_small by (unfold in_u; lia). by rewrite bool_decide_eq_true_2 by lia. }
  rewrite (bool_decide_eq_true_2 (0 <= n)) by lia. destruct Hop as [-> | ->]; reflexivity.
Qed.

(** A queue-pair request: both kinds share the base word. *)
Lemma qp_request_ring base op (body : Z -> list (Z * Z)) (qps : list Z) :
  op = NVSHMEMI_OP_FENCE_QP \/ op = NVSHMEMI_OP_QUIET_QP -> Z.of_nat (length qps) < 2 ^ 31 ->
  (forall idx, length (body idx) = length qps /\ stores_from (next idx) (body idx)) ->
  ring_producer
    {| iss_size := CHANNEL_ENTRY_BYTES * Z.of_nat (length qps) + CHANNEL_ENTRY_BYTES;
       iss_stores := fun idx =>
         (slot_state (dev base) idx,
          qp_sync_base_word (Z.of_nat (length qps)) op (curr_flag (dev base) idx)) :: body idx |}.
Proof.
  intros Hop Hn Hb. split; intros idx; cbn [iss_size iss_stores]; destruct (Hb idx) as [Hl Hs].
  - cbn [length]. rewrite Hl. unfold CHANNEL_ENTRY_BYTES. lia.
  - split; [|exact Hs]. split; [reflexivity|]. cbn [snd]. rewrite curr_flag_dev.
    unfold qp_sync_base_word. fields. reflexivity.
  - eexists _, _. split; [reflexivity|]. cbn [snd]. rewrite curr_flag_dev, Hl.
    rewrite qp_sync_base_entries; [by rewrite Nat2Z.id|lia|done].
Qed.

#[export] Instance fence_qp_ring base pe qps :
  Z.of_nat (length qps) < 2 ^ 31 -> ring_producer (proxy_fence_qp (dev base) pe qps).
Proof. intros. apply qp_request_ring; auto. intros. apply fence_qp_entries_stores. Qed.

#[export] Instance qp_quiet_ring base pe qps :
  Z.of_nat (length qps) < 2 ^ 31 -> ring_producer (proxy_qp_quiet (dev base) pe qps).
Proof. intros. apply qp_request_ring; auto. intros. apply quiet_qp_entries_stores. Qed.

(** ** The consumer *)
Section Consumer.
Context `{MH : mem_handles} (h : Host.host) (s : Host.proxy_state).
Import Host.

Hypothesis bufsize_log : channel_bufsize_log s = CHANNEL_BUF_SIZE_LOG.
Hypothesis bufsize : channel_bufsize s = CHANNEL_BUF_SIZE.

(** Entry [k] of the request at counter [c] carries the flag of its lap. *)
Definition flagged (ch : proxy_channel) (c k : Z) : Prop :=
  field (load s ch (u64 (c + 8 * k))) 0 8 = lap_flag (u64 (c + 8 * k)).

Lemma wait_entry_inv ch c w :
  wait_entry s ch c = Ret w -> field (load s ch c) 0 8 = lap_flag c /\ w = load s ch c.
Proof.
  unfold wait_entry, COUNTER_TO_FLAG. rewrite bufsize_log. case_bool_decide as H; [|done].
  intros [= <-]. done.
Qed.

Lemma wait_entries_inv ch p n : forall j ws,
  wait_entries s ch (u64 (p + 8 * j)) n = Ret ws ->
  forall k, j <= k < j + Z.of_nat n -> flagged ch p k.
Proof.
  induction n as [|n IH]; intros j ws H k Hk; [lia|]. cbn in H.
  apply outcome_bind_inv in H as (w & Hw & H). apply outcome_bind_inv in H as (ws' & Hws & _).
  destruct (decide (k = j)) as [->|]; [by eapply wait_entry_inv|].
  apply (IH (j + 1) ws'); [|lia]. rewrite <- Hws. f_equal. unfold wrap.
  rewrite Zplus_mod_idemp_l. f_equal. lia.
Qed.

(** Peel a handler that returned. *)
Ltac peel H :=
  repeat match type of H with
  | (_ ≫= _) = Ret _ => apply outcome_bind_inv in H as (? & ? & H)
  | (let '(_, _) := ?x in _) = Ret _ => destruct x
  | Ret _ = Ret _ => injection H as ?; subst
  end.
Ltac peel_all :=
  repeat match goal with H : (_ ≫= _) = Ret _ |- _ => peel H end.

(** The flag of entry [k], for a numeral [k], from the wait that returned. *)
Lemma flagged_intro ch c d k w :
  wait_entry s ch (u64 (c + d)) = Ret w -> d = 8 * k -> flagged ch c k.
Proof. intros H ->. by eapply wait_entry_inv. Qed.

(** A request of [n] entries has been consumed: all its entries were flagged,
    and the counters move past it. *)
Definition consumed (ch ch' : proxy_channel) (n : nat) : Prop :=
  (forall k, 0 < k < Z.of_nat n -> flagged ch (processed ch) k) /\
  exists force, ch' = proxy_update_processed ch (8 * Z.of_nat n) force.

Ltac flag_cases :=
  let k := fresh "k" in let Hk := fresh "Hk" in
  intros k Hk;
  let step v := (destruct (decide (k = v)) as [->|];
                 [eapply (flagged_intro _ _ (8 * v)); [eassumption|lia]|]) in
  try step 1; try step 2; try step 3; try step 4; try step 5; lia.

Lemma process_channel_dma_consumed tr ch tr' ch' ok :
  process_channel_dma h tr s ch = Ret (tr', ch', ok) -> consumed ch ch' 4 /\ ok = true.
Proof.
  unfold process_channel_dma. cbv zeta. intros H. peel H. split; [|done].
  split; [flag_cases|]. eexists; reflexivity.
Qed.

Lemma process_channel_put_signal_consumed tr ch tr' ch' ok :
  process_channel_put_signal h tr s ch = Ret (tr', ch', ok) -> consumed ch ch' 6 /\ ok = true.
Proof.
  unfold process_channel_put_signal. cbv zeta. intros H. peel H. split; [|done].
  split; [flag_cases|]. eexists; reflexivity.
Qed.

Definition is_qp (ch : proxy_channel) : bool :=
  bool_decide (br_op (base_request_of (load s ch (processed ch))) >= NVSHMEMI_OP_QP_OP_OFFSET).

Lemma process_channel_inline_consumed tr ch tr' ch' ok :
  process_channel_inline h tr s ch = Ret (tr', ch', ok) ->
  consumed ch ch' (if is_qp ch then 4 else 3) /\ ok = true.
Proof.
  unfold process_channel_inline, is_qp. cbv zeta. intros H.
  case_bool_decide; peel_all; cbv iota; (split; [|done]); (split; [flag_cases|]); eexists; reflexivity.
Qed.

Lemma process_channel_amo_consumed tr ch tr' ch' ok g :
  process_channel_amo h tr s ch = Ret (tr', ch', ok, g) ->
  consumed ch ch' (if is_qp ch then 6 else 5) /\ ok = true.
Proof.
  unfold process_channel_amo, is_qp. cbv zeta. intros H.
  destruct (bool_decide (br_op (base_request_of (load s ch (processed ch))) >= NVSHMEMI_OP_QP_OP_OFFSET));
    peel_all; cbv iota; (split; [|done]); (split; [flag_cases|]); eexists; reflexivity.
Qed.

Lemma process_channel_fence_consumed tr ch tr' ch' :
  process_channel_fence h tr s ch = Ret (tr', ch') -> consumed ch ch' 1.
Proof.
  unfold process_channel_fence. intros H. peel H. split; [flag_cases|]. eexists; reflexivity.
Qed.

Definition num_qps (ch : proxy_channel) : Z :=
  s32 (qp_count (qp_sync_base_request_of (load s ch (processed ch)))).

Lemma qp_consumed ch n force ws :
  0 <= n -> wait_entries s ch (u64 (processed ch + 8)) (Z.to_nat n) = Ret ws ->
  consumed ch (proxy_update_processed ch (CHANNEL_ENTRY_BYTES * n + CHANNEL_ENTRY_BYTES) force)
    (S (Z.to_nat n)).
Proof.
  intros Hn Hw. split.
  - intros k Hk. eapply (wait_entries_inv _ _ _ 1); [exact Hw|lia].
  - exists force. f_equal. unfold CHANNEL_ENTRY_BYTES. lia.
Qed.

Ltac next_case H Hop :=
  match type of H with
  | (if bool_decide ?P then _ else _) = _ => destruct (bool_decide_reflect P) as [Hop|_]
  end.

Lemma qp_entries_inv (q : Z) n :
  (if bool_decide (0 <= q) then Some (S (Z.to_nat q)) else None) = Some n ->
  0 <= q /\ n = S (Z.to_nat q).
Proof. case_bool_decide; [|done]. by intros [= <-]. Qed.

(** The [switch] consumes exactly [entries] of the request's first word. *)
Lemma dispatch_consumes tr ch tr' ch' ok g n :
  let w := load s ch (processed ch) in
  entries w = Some n ->
  dispatch h tr s ch (br_op (base_request_of w)) = Ret (tr', ch', ok, g) ->
  consumed ch ch' n /\ ok = true.
Proof.
  intros w He H. unfold dispatch in H.
  assert (is_qp ch = bool_decide (br_op (base_request_of w) >= NVSHMEMI_OP_QP_OP_OFFSET)) as Hqp by done.
  unfold entries in He. change (s32 (qp_count (qp_sync_base_request_of w))) with (num_qps ch) in He.
  set (op := br_op (base_request_of w)) in *. clearbody op.
  next_case H Hop.
  { peel H. apply process_channel_dma_consumed in H0.
    destruct Hop as [-> | ->]; injection He as <-; done. }
  next_case H Hop.
  { peel H. apply process_channel_dma_consumed in H0.
    destruct Hop as [-> | [-> | [-> | ->]]]; injection He as <-; done. }
  next_case H Hop.
  { peel H. apply process_channel_inline_consumed in H0. rewrite Hqp in H0.
    destruct Hop as [-> | ->]; injection He as <-; done. }
  next_case H Hop.
  { apply process_channel_amo_consumed in H. rewrite Hqp in H.
    destruct Hop as [-> | ->]; injection He as <-; done. }
  next_case H Hop.
  { peel H. apply process_channel_fence_consumed in H0. injection He as <-. done. }
  next_case H Hop.
  { peel H. unfold process_channel_qp_fence in H0. cbv zeta in H0. fold (num_qps ch) in H0. peel H0.
    apply qp_entries_inv in He as [? ->]. split; [by eapply qp_consumed|done]. }
  next_case H Hop.
  { peel H. unfold process_channel_qp_quiet in H0. cbv zeta in H0. fold (num_qps ch) in H0. peel H0.
    apply qp_entries_inv in He as [? ->]. split; [by eapply qp_consumed|done]. }
  next_case H Hop; [|done].
  peel H. apply process_channel_put_signal_consumed in H0.
  destruct Hop as [-> | ->]; injection He as <-; done.
Qed.
End Consumer.
