(* ===== verification/ProxyProtocol.v ===== *)
(** * The proxy ring as a concurrent protocol

    Any number of device threads and the host proxy thread share one channel.
    A thread claims a counter range with [atomicAdd] on [issue], waits until
    [check_channel_availability] lets it pass, and then makes the stores of its
    request, here in any order; the host polls, waits for the flags of the
    entries and dispatches.  The steps are those of [Device] and [Host]; a
    handler that returns is one step, since the entries it waits for do not
    change once they are flagged (which the invariant shows).

    The main results: the host consumes exactly the words the threads wrote,
    request by request, in the order of the claims, whatever the interleaving;
    and the lazy update of [complete] never blocks the oldest request. *)
From stdpp Require Import base gmap list sets.
From Stdlib Require Import ZArith Lia.
From S2P Require Import Prelude ProxyChannel ProxyDevice Rma ProxyHost ProxyRing.
Import Channel Device.

Module Protocol.
Import Host.

Abbreviation B := CHANNEL_BUF_SIZE.

(** ** The ring's arithmetic *)
Lemma slot_mod c : slot c = c mod B.
Proof. exact (land_low_mask c 22 ltac:(lia)). Qed.

Lemma B_val : B = 4194304.
Proof. reflexivity. Qed.

Lemma slot_inj p c1 c2 :
  p <= c1 < p + B -> p <= c2 < p + B -> slot c1 = slot c2 -> c1 = c2.
Proof. rewrite !slot_mod, B_val. intros. Z.div_mod_to_equations. lia. Qed.

Lemma slot_lap c : slot (c + B) = slot c.
Proof. rewrite !slot_mod, B_val. Z.div_mod_to_equations. lia. Qed.

Lemma lap_flag_alt c : lap_flag c = 1 - (c / B) mod 2.
Proof.
  unfold lap_flag, CHANNEL_BUF_SIZE_LOG. rewrite Z.shiftr_div_pow2 by lia. change (2 ^ 22) with B.
  pose proof (land_low_mask (c / B) 1 ltac:(lia)) as HL. change (2 ^ 1 - 1) with 1 in HL.
  change (2 ^ 1) with 2 in HL. rewrite HL.
  case_bool_decide; pose proof (Z.mod_pos_bound (c / B) 2); lia.
Qed.

Lemma lap_flag_next c : lap_flag (c + B) = 1 - lap_flag c.
Proof. rewrite !lap_flag_alt, B_val. Z.div_mod_to_equations. lia. Qed.

Lemma lap_flag_01 c : lap_flag c = 0 \/ lap_flag c = 1.
Proof. rewrite lap_flag_alt. pose proof (Z.mod_pos_bound (c / B) 2). lia. Qed.

Lemma land_1_flag x c : x = 1 - lap_flag c -> Z.land x 1 <> lap_flag c.
Proof. intros ->. destruct (lap_flag_01 c) as [-> | ->]; done. Qed.

(** ** States and steps *)

(** A device thread that has claimed the range at [t_idx] for [t_req]:
    whether it has passed the flow control, and the stores still to come. *)
Record thread := MkThread { t_idx : Z; t_req : issued; t_ready : bool; t_todo : gset nat }.

Definition t_stores (t : thread) : list (Z * Z) := iss_stores (t_req t) (t_idx t).
Definition t_words (t : thread) : list Z := snd <$> t_stores t.
Definition t_size (t : thread) : Z := iss_size (t_req t).
Definition t_len (t : thread) : nat := length (t_stores t).

(** [consumed_words] is a history variable: the entries the host has read. *)
Record ring := MkRing {
  issue : Z;
  complete_local : Z;
  chan : proxy_channel;
  pstate : proxy_state;
  htrace : Rma.trace;
  threads : list thread;
  consumed_words : list (list Z)
}.

Definition set_chan (ch : proxy_channel) (r : ring) : ring :=
  MkRing (issue r) (complete_local r) ch (pstate r) (htrace r) (threads r) (consumed_words r).
Definition set_threads (ts : list thread) (r : ring) : ring :=
  MkRing (issue r) (complete_local r) (chan r) (pstate r) (htrace r) ts (consumed_words r).

Definition do_store (sw : Z * Z) (ch : proxy_channel) : proxy_channel :=
  MkChannel (<[fst sw := snd sw]> (buf ch)) (complete ch) (quiet_issue ch) (quiet_ack ch)
    (last_quiet_issue ch) (cst_issue ch) (cst_ack ch) (last_cst_issue ch) (processed ch)
    (last_sync ch) (channel_req ch).

(** The entries the host reads for the request at [processed]. *)
Definition read_words (s : proxy_state) (ch : proxy_channel) : list Z :=
  (fun k => load s ch (u64 (processed ch + 8 * Z.of_nat k))) <$>
    seq 0 (default O (entries (load s ch (processed ch)))).

(** Steps of the host that leave the ring alone (quiet, consistency). *)
Definition ring_same (ch ch' : proxy_channel) : Prop :=
  buf ch' = buf ch /\ complete ch' = complete ch /\ processed ch' = processed ch /\
  last_sync ch' = last_sync ch /\ channel_req ch' = channel_req ch.

Section Steps.
Context `{MH : mem_handles} (h : host) (base : Z).

Definition tail_idx (t : thread) : Z := u64 (t_idx t + (t_size t - 1)).

Inductive step : ring -> ring -> Prop :=
| step_claim r req :
    ring_producer req ->
    issue r + iss_size req + B <= 2 ^ 64 ->
    step r (MkRing (u64 (issue r + iss_size req)) (complete_local r) (chan r) (pstate r) (htrace r)
              (threads r ++ [MkThread (issue r) req false
                               (set_seq 0 (length (iss_stores req (issue r))))])
              (consumed_words r))
| step_ready_cached r j t :
    threads r !! j = Some t -> t_ready t = false ->
    channel_available (dev base) (complete_local r) (tail_idx t) = true ->
    step r (set_threads (<[j := MkThread (t_idx t) (t_req t) true (t_todo t)]> (threads r)) r)
| step_ready r j t :
    threads r !! j = Some t -> t_ready t = false ->
    channel_available (dev base) (complete (chan r)) (tail_idx t) = true ->
    step r (MkRing (issue r) (Z.max (complete_local r) (complete (chan r))) (chan r) (pstate r)
              (htrace r) (<[j := MkThread (t_idx t) (t_req t) true (t_todo t)]> (threads r))
              (consumed_words r))
| step_store r j t k sw :
    threads r !! j = Some t -> t_ready t = true -> k ∈ t_todo t -> t_stores t !! k = Some sw ->
    step r (set_chan (do_store sw (chan r))
              (set_threads (<[j := MkThread (t_idx t) (t_req t) true (t_todo t ∖ {[k]})]> (threads r)) r))
| step_consume r rq tr' ch' ok g :
    poll_request (pstate r) (chan r) = Some rq ->
    dispatch h (htrace r) (pstate r) (set_channel_req (Some rq) (chan r))
      (br_op (base_request_of (default 0 (buf (chan r) !! rq)))) = Ret (tr', ch', ok, g) ->
    step r (MkRing (issue r) (complete_local r)
              (if (ok : bool) then set_channel_req None ch' else ch')
              (set_issued_get g (pstate r)) tr' (threads r)
              (consumed_words r ++ [read_words (pstate r) (chan r)]))
| step_other r ch' :
    ring_same (chan r) ch' -> step r (set_chan ch' r).

(** ** The invariant *)

(** The threads' ranges follow each other from [c] to [e]. *)
Fixpoint layout (c : Z) (ts : list thread) (e : Z) : Prop :=
  match ts with
  | [] => c = e
  | t :: ts => t_idx t = c /\ layout (c + t_size t) ts e
  end.

Record thread_ok (complete : Z) (t : thread) : Prop := {
  tok_ring : ring_producer (t_req t);
  tok_todo : forall k, k ∈ t_todo t -> (k < t_len t)%nat;
  tok_wait : t_ready t = false -> forall k, (k < t_len t)%nat -> k ∈ t_todo t;
  tok_ready : t_ready t = true -> t_idx t + t_size t <= complete + B
}.

Definition config_ok (s : proxy_state) : Prop :=
  channel_bufsize_log s = CHANNEL_BUF_SIZE_LOG /\ channel_bufsize s = B.

Record inv (r : ring) (done rest : list thread) : Prop := {
  i_threads : threads r = done ++ rest;
  i_words : consumed_words r = t_words <$> done;
  i_done : Forall (fun t => t_todo t = ∅) done;
  i_layout : layout (processed (chan r)) rest (issue r);
  i_ok : Forall (thread_ok (complete (chan r))) rest;
  i_stored : forall j t k, rest !! j = Some t -> (k < t_len t)%nat -> k ∉ t_todo t ->
    t_words t !! k = Some (load (pstate r) (chan r) (t_idx t + 8 * Z.of_nat k));
  i_free : forall c, c mod 8 = 0 -> processed (chan r) <= c < processed (chan r) + B ->
    (forall j t k, rest !! j = Some t -> (k < t_len t)%nat -> k ∉ t_todo t ->
       c <> t_idx t + 8 * Z.of_nat k) ->
    field (load (pstate r) (chan r) c) 0 8 = 1 - lap_flag c;
  i_local : 0 <= complete_local r <= complete (chan r);
  i_sync : last_sync (chan r) = complete (chan r);
  i_lag : complete (chan r) <= processed (chan r) < complete (chan r) + 1024;
  i_issue : issue r + B <= 2 ^ 64;
  i_align : processed (chan r) mod 8 = 0;
  i_config : config_ok (pstate r);
  i_req : channel_req (chan r) = None
}.

(** *** Facts on one request and on the layout *)
Lemma t_size_len t : ring_producer (t_req t) -> t_size t = 8 * Z.of_nat (t_len t) /\ (0 < t_len t)%nat.
Proof.
  intros R. split; [apply rp_size|]. unfold t_len, t_stores.
  destruct (rp_entries (t_idx t)) as (sw & l & -> & _). cbn. lia.
Qed.

Lemma stores_from_lookup l : forall c k sw,
  stores_from c l -> 0 <= c -> c + 8 * Z.of_nat (length l) <= 2 ^ 64 -> l !! k = Some sw ->
  store_for (c + 8 * Z.of_nat k) sw.
Proof.
  induction l as [|x l IH]; intros c [|k] sw; cbn; try done.
  - intros [H _] _ _ [= <-]. by rewrite Z.add_0_r.
  - intros [_ H] Hc Hb Hk. unfold CHANNEL_ENTRY_BYTES in H.
    assert (k < length l)%nat by (by eapply lookup_lt_Some).
    rewrite wrap_small in H by (unfold in_u; lia).
    replace (c + 8 * Z.of_nat (S k)) with (c + 8 + 8 * Z.of_nat k) by lia. apply IH; [done|lia..|done].
Qed.

Lemma layout_range ts : forall c e j t,
  layout c ts e -> Forall (fun t => ring_producer (t_req t)) ts -> ts !! j = Some t ->
  c <= t_idx t /\ t_idx t + t_size t <= e.
Proof.
  induction ts as [|u ts IH]; intros c e j t; [done|]. cbn [layout].
  intros [Hc HL] HF Hj. apply Forall_cons in HF as [Hu HF].
  pose proof (t_size_len u Hu) as [Hs Hp].
  assert (c + t_size u <= e) as He.
  { clear -HL HF. revert HL. generalize (c + t_size u). induction ts as [|v ts IH]; intros a HL; cbn in HL; [lia|].
    apply Forall_cons in HF as [Hv HF]. pose proof (t_size_len v Hv) as [? ?].
    destruct HL as [_ HL]. specialize (IH HF _ HL). lia. }
  destruct j as [|j]; cbn in Hj.
  - injection Hj as <-. lia.
  - destruct (IH _ _ _ _ HL HF Hj). lia.
Qed.

Lemma layout_unique ts : forall c e i j ti tj ki kj,
  layout c ts e -> Forall (fun t => ring_producer (t_req t)) ts ->
  ts !! i = Some ti -> ts !! j = Some tj -> (ki < t_len ti)%nat -> (kj < t_len tj)%nat ->
  t_idx ti + 8 * Z.of_nat ki = t_idx tj + 8 * Z.of_nat kj -> i = j /\ ki = kj.
Proof.
  induction ts as [|u ts IH]; intros c e i j ti tj ki kj; [done|]. cbn [layout].
  intros [Hc HL] HF Hi Hj Hki Hkj He. apply Forall_cons in HF as [Hu HF].
  pose proof (t_size_len u Hu) as [Hs Hp].
  destruct i as [|i], j as [|j]; cbn in Hi, Hj.
  - simplify_eq. split; [done|lia].
  - injection Hi as <-. destruct (layout_range _ _ _ _ _ HL HF Hj). lia.
  - injection Hj as <-. destruct (layout_range _ _ _ _ _ HL HF Hi). lia.
  - destruct (IH _ _ i j ti tj ki kj HL HF Hi Hj Hki Hkj He). split; lia.
Qed.

Lemma layout_snoc ts : forall c e t,
  layout c ts e -> t_idx t = e -> layout c (ts ++ [t]) (e + t_size t).
Proof.
  induction ts as [|u ts IH]; intros c e t; cbn; [by intros -> ->|].
  intros [? ?] ?. auto.
Qed.

Lemma layout_update ts j t t' : forall c e,
  layout c ts e -> ts !! j = Some t -> t_idx t' = t_idx t -> t_req t' = t_req t ->
  layout c (<[j := t']> ts) e.
Proof.
  revert j. induction ts as [|u ts IH]; intros j c e; [done|]. cbn [layout].
  intros [Hc HL] Hj Hi Hr. destruct j as [|j]; cbn in Hj |- *.
  - injection Hj as <-. unfold t_size in *. rewrite Hi, Hr. done.
  - split; [done|]. eauto.
Qed.

(** *** Each step keeps the invariant *)
Lemma ok_rings c ts : Forall (thread_ok c) ts -> Forall (fun t => ring_producer (t_req t)) ts.
Proof. intros H. eapply Forall_impl; [exact H|]. by intros t []. Qed.

Lemma load_slot s ch c : config_ok s -> load s ch c = default 0 (buf ch !! slot c).
Proof. intros [_ H]. unfold load, WRAPPED_CHANNEL_BUF. by rewrite H. Qed.

Lemma inv_claim r done rest req :
  inv r done rest -> ring_producer req -> issue r + iss_size req + B <= 2 ^ 64 ->
  let t := MkThread (issue r) req false (set_seq 0 (length (iss_stores req (issue r)))) in
  inv (MkRing (u64 (issue r + iss_size req)) (complete_local r) (chan r) (pstate r) (htrace r)
         (threads r ++ [t]) (consumed_words r)) done (rest ++ [t]).
Proof.
  intros I R Hb t. pose proof (t_size_len t R) as [Hs Hl]. unfold t_size in Hs. cbn in Hs.
  pose proof (i_lag _ _ _ I). pose proof (i_local _ _ _ I).
  assert (processed (chan r) <= issue r) as Hi.
  { pose proof (i_layout _ _ _ I) as HL. pose proof (ok_rings _ _ (i_ok _ _ _ I)) as HF.
    destruct rest as [|u rest]; [cbn in HL; lia|].
    destruct (layout_range _ _ _ O u HL HF eq_refl). apply Forall_cons in HF as [Hu _].
    pose proof (t_size_len u Hu). lia. }
  pose proof B_val as HB. rewrite wrap_small by (unfold in_u; lia).
  assert (forall j u k, (rest ++ [t]) !! j = Some u -> (k < t_len u)%nat -> k ∉ t_todo u ->
            rest !! j = Some u) as Hold.
  { intros j u k Hj Hk Hn. apply lookup_app_Some in Hj as [?|[_ Hj]]; [done|].
    apply list_lookup_singleton_Some in Hj as [_ <-]. exfalso. apply Hn. apply elem_of_set_seq.
    unfold t_len, t_stores in Hk. cbn in Hk. lia. }
  destruct I. split; cbn; auto; try lia.
  - by rewrite i_threads0, app_assoc.
  - apply (layout_snoc _ _ _ t); auto.
  - apply Forall_app_2; [done|]. apply Forall_singleton. split; cbn; auto; [| |done].
    + intros k Hk%elem_of_set_seq. unfold t_len, t_stores. cbn. lia.
    + intros _ k Hk. apply elem_of_set_seq. unfold t_len, t_stores in Hk. cbn in Hk. lia.
  - intros j u k Hj Hk Hn. eapply i_stored0; eauto.
  - intros c H8 Hc Hu. apply i_free0; auto. intros j u k Hj. apply (Hu j). by apply lookup_app_l_Some.
Qed.

(** A thread of the waiting part passes the flow control. *)
Definition make_ready (t : thread) : thread := MkThread (t_idx t) (t_req t) true (t_todo t).

Lemma lookup_update_thread (rest : list thread) j t t' i u :
  rest !! j = Some t -> <[j := t']> rest !! i = Some u ->
  (i = j /\ u = t') \/ (i <> j /\ rest !! i = Some u).
Proof.
  intros Hj Hi. destruct (decide (i = j)) as [->|Hne].
  - rewrite list_lookup_insert_eq in Hi by (by eapply lookup_lt_Some). left. by simplify_eq.
  - rewrite list_lookup_insert_ne in Hi by done. auto.
Qed.

Lemma available_bound c t :
  0 <= c -> c + B <= 2 ^ 64 -> 0 <= t_idx t -> t_idx t + t_size t <= 2 ^ 64 -> 0 < t_size t ->
  channel_available (dev base) c (tail_idx t) = true <-> t_idx t + t_size t <= c + B.
Proof.
  intros. unfold channel_available, tail_idx. cbn [proxy_channel_buf_size dev].
  rewrite !wrap_small by (unfold in_u; rewrite ?B_val in *; lia).
  case_bool_decide; cbn; split; (done || lia).
Qed.

Lemma done_update (done : list thread) j t t' :
  done !! j = Some t -> t_idx t' = t_idx t -> t_req t' = t_req t ->
  t_words <$> <[j := t']> done = t_words <$> done.
Proof.
  intros Hj Hi Hr. rewrite list_fmap_insert. apply list_insert_id.
  rewrite list_lookup_fmap, Hj. cbn. f_equal. unfold t_words, t_stores. by rewrite Hi, Hr.
Qed.

Lemma issue_range r done rest : inv r done rest -> processed (chan r) <= issue r.
Proof.
  intros I. pose proof (i_layout _ _ _ I) as HL. pose proof (ok_rings _ _ (i_ok _ _ _ I)) as HF.
  destruct rest as [|u rest]; [cbn in HL; lia|].
  destruct (layout_range _ _ _ O u HL HF eq_refl). apply Forall_cons in HF as [Hu _].
  pose proof (t_size_len u Hu). lia.
Qed.

Lemma inv_ready r done rest j t c l' :
  inv r done rest -> threads r !! j = Some t -> 0 <= c <= complete (chan r) ->
  channel_available (dev base) c (tail_idx t) = true -> 0 <= l' <= complete (chan r) ->
  exists done' rest',
    inv (MkRing (issue r) l' (chan r) (pstate r) (htrace r) (<[j := make_ready t]> (threads r))
           (consumed_words r)) done' rest'.
Proof.
  intros I Hj Hc Ha Hl. rewrite (i_threads _ _ _ I) in Hj |- *.
  pose proof B_val as HB. pose proof (i_lag _ _ _ I). pose proof (issue_range _ _ _ I).
  pose proof (i_issue _ _ _ I).
  apply lookup_app_Some in Hj as [Hj|[Hge Hj]].
  - exists (<[j := make_ready t]> done), rest.
    rewrite insert_app_l by (by eapply lookup_lt_Some).
    destruct I. split; cbn; auto.
    + rewrite i_words0. symmetry. by eapply done_update.
    + apply Forall_insert; [done|]. exact (Forall_lookup_1 _ _ _ _ i_done0 Hj).
  - exists done, (<[(j - length done)%nat := make_ready t]> rest).
    rewrite insert_app_r_alt by done. set (i := (j - length done)%nat) in *.
    assert (forall i' u, <[i := make_ready t]> rest !! i' = Some u ->
      exists u0, rest !! i' = Some u0 /\ t_todo u0 = t_todo u /\ t_idx u0 = t_idx u /\ t_req u0 = t_req u) as Hold.
    { intros i' u Hu. destruct (lookup_update_thread _ _ _ _ _ _ Hj Hu) as [[-> ->]|[_ ?]]; eauto. }
    assert (thread_ok (complete (chan r)) t) as Ht by (eapply (Forall_lookup_1 _ rest); [apply I|done]).
    pose proof (ok_rings _ _ (i_ok _ _ _ I)) as HF.
    destruct (layout_range _ _ _ _ _ (i_layout _ _ _ I) HF Hj).
    pose proof (t_size_len t (tok_ring _ _ Ht)).
    destruct I. split; cbn; auto.
    + by eapply layout_update.
    + apply Forall_insert; [done|]. split; cbn; [apply Ht|apply Ht|done|]. intros _.
      apply available_bound in Ha; cbn in *; [|lia..]. unfold t_size in *. cbn. lia.
    + intros i' u k Hu Hk Hn. destruct (Hold i' u Hu) as (u0 & Hu0 & Ht0 & Hi0 & Hr0).
      pose proof (i_stored0 i' u0 k Hu0) as HS. unfold t_len, t_words, t_stores in *.
      rewrite Ht0, Hi0, Hr0 in HS. auto.
    + intros x H8 Hx Hf. apply i_free0; auto. intros i' u k Hu Hk Hn.
      destruct (decide (i' = i)) as [->|Hne].
      * assert (u = t) as -> by congruence.
        apply (Hf i (make_ready t)); [|done..]. apply list_lookup_insert_eq. by eapply lookup_lt_Some.
      * apply (Hf i' u); [|done..]. by rewrite list_lookup_insert_ne.
Qed.

Lemma todo_diff (X : gset nat) k k' : k' ∉ X ∖ {[k]} <-> k' ∉ X \/ k' = k.
Proof. rewrite elem_of_difference, elem_of_singleton. destruct (decide (k' = k)); tauto || set_solver. Qed.

(** A store changes the word of its own counter value and, in a window of one
    buffer length, no other. *)
Lemma do_store_load s ch sw c0 lo :
  config_ok s -> store_for c0 sw -> lo <= c0 < lo + B ->
  load s (do_store sw ch) c0 = snd sw /\
  forall c, lo <= c < lo + B -> c <> c0 -> load s (do_store sw ch) c = load s ch c.
Proof.
  intros C [Hslot _] H0. split.
  - rewrite load_slot by done. cbn. by rewrite Hslot, lookup_insert_eq.
  - intros c Hc Hne. rewrite !load_slot by done. cbn. rewrite Hslot.
    rewrite lookup_insert_ne; [done|]. intros E. apply Hne. symmetry. by eapply slot_inj.
Qed.

(** A store: the slot is free for the counter it is made for, and no stored
    entry that is still to be consumed lies there. *)
Lemma inv_store r done rest j t k sw :
  inv r done rest -> threads r !! j = Some t -> t_ready t = true -> k ∈ t_todo t ->
  t_stores t !! k = Some sw ->
  exists done' rest',
    inv (set_chan (do_store sw (chan r))
           (set_threads (<[j := MkThread (t_idx t) (t_req t) true (t_todo t ∖ {[k]})]> (threads r)) r))
      done' rest'.
Proof.
  intros I Hj Hr Hk Hsw. rewrite (i_threads _ _ _ I) in Hj |- *.
  apply lookup_app_Some in Hj as [Hj|[Hge Hj]].
  { pose proof (Forall_lookup_1 _ _ _ _ (i_done _ _ _ I) Hj) as E. cbn in E. rewrite E in Hk. set_solver. }
  exists done. set (t' := MkThread _ _ _ _). exists (<[(j - length done)%nat := t']> rest).
  rewrite insert_app_r_alt by done. set (i := (j - length done)%nat) in *.
  pose proof B_val as HB. pose proof (i_lag _ _ _ I). pose proof (issue_range _ _ _ I).
  pose proof (i_issue _ _ _ I). pose proof (i_local _ _ _ I).
  pose proof (ok_rings _ _ (i_ok _ _ _ I)) as HF. pose proof (i_layout _ _ _ I) as HL.
  assert (thread_ok (complete (chan r)) t) as Ht by (eapply (Forall_lookup_1 _ rest); [apply I|done]).
  destruct (layout_range _ _ _ _ _ HL HF Hj) as [Hlo Hhi].
  destruct (t_size_len t (tok_ring _ _ Ht)) as [Hsz _].
  assert (k < t_len t)%nat as Hkl by (by eapply lookup_lt_Some).
  pose proof (tok_ready _ _ Ht Hr) as Hav.
  set (c0 := t_idx t + 8 * Z.of_nat k).
  assert (store_for c0 sw) as Hstore.
  { eapply stores_from_lookup; [apply (@rp_stores _ (tok_ring _ _ Ht))| | |exact Hsw]; [lia|].
    fold (t_stores t). fold (t_len t). lia. }
  destruct (do_store_load (pstate r) (chan r) sw c0 (processed (chan r))) as [Hload0 Hload]; [apply I|done|lia|].
  destruct I. split; cbn; auto.
  - by eapply layout_update.
  - apply Forall_insert; [done|]. split; cbn; [apply Ht| |done|by intros _].
    intros k' [Hk' _]%elem_of_difference. by apply (tok_todo _ _ Ht).
  - intros i' u k' Hu Hk' Hn. destruct (lookup_update_thread _ _ _ _ _ _ Hj Hu) as [[-> ->]|[Hne Hu']].
    + cbn in Hn |- *. unfold t_len, t_words, t_stores in *. cbn in Hk' |- *.
      destruct (decide (k' = k)) as [->|Hnk].
      * fold c0. rewrite Hload0, list_lookup_fmap, Hsw. done.
      * rewrite Hload; [|lia|lia]. apply (i_stored0 i t k' Hj Hk'). apply todo_diff in Hn. tauto.
    + assert (thread_ok (complete (chan r)) u) as Hou by (by eapply (Forall_lookup_1 _ rest)).
      destruct (layout_range _ _ _ _ _ HL HF Hu').
      destruct (t_size_len u (tok_ring _ _ Hou)) as [Hsu _].
      assert (t_ready u = true) as Hru.
      { destruct (t_ready u) eqn:E; [done|]. exfalso. apply Hn. by apply Hou. }
      pose proof (tok_ready _ _ Hou Hru).
      rewrite Hload; [by eapply i_stored0|lia|].
      intros E. destruct (layout_unique _ _ _ _ _ _ _ k' k HL HF Hu' Hj Hk' Hkl E). lia.
  - intros c H8 Hc Hf. rewrite Hload; [|done|].
    + apply i_free0; auto. intros i' u k' Hu Hk' Hn. destruct (decide (i' = i)) as [->|Hne].
      * assert (u = t) as -> by congruence. apply (Hf i t'); [|done|].
        -- apply list_lookup_insert_eq. by eapply lookup_lt_Some.
        -- apply todo_diff. auto.
      * apply (Hf i' u); [|done..]. by rewrite list_lookup_insert_ne.
    + apply (Hf i t').
      * apply list_lookup_insert_eq. by eapply lookup_lt_Some.
      * done.
      * apply todo_diff. auto.
Qed.

(** *** The host takes the oldest request *)

(** The counters after [proxy_update_processed]: no wrap-around below [2^64],
    and [complete] trails by less than 1024 bytes. *)
Lemma update_counters ch n force :
  last_sync ch = complete ch -> 0 <= complete ch -> complete ch <= processed ch ->
  0 <= n -> processed ch + n < 2 ^ 64 ->
  let ch' := proxy_update_processed ch n force in
  processed ch' = processed ch + n /\ last_sync ch' = complete ch' /\
  complete ch <= complete ch' <= processed ch' /\ processed ch' < complete ch' + 1024 /\
  buf ch' = buf ch /\ channel_req ch' = channel_req ch.
Proof.
  intros Hs H0 Hc Hn Hb. unfold proxy_update_processed.
  rewrite (wrap_small 64 (processed ch + n)) by (unfold in_u; lia).
  rewrite (wrap_small 64 (processed ch + n - last_sync ch)) by (unfold in_u; lia).
  destruct (bool_decide_reflect (processed ch + n - last_sync ch >= 1024)), force; cbn;
    intuition lia.
Qed.

(** If the host sees the flag at [processed], the oldest request has stored its
    first entry. *)
Lemma poll_oldest r done rest rq :
  inv r done rest -> poll_request (pstate r) (chan r) = Some rq ->
  rq = slot (processed (chan r)) /\ exists t rest', rest = t :: rest' /\ O ∉ t_todo t.
Proof.
  intros I. unfold poll_request. rewrite (i_req _ _ _ I). unfold COUNTER_TO_FLAG, WRAPPED_CHANNEL_BUF.
  destruct (i_config _ _ _ I) as [-> ->]. fold (lap_flag (processed (chan r))).
  case_bool_decide as Hf; [|done]. intros [= <-]. split; [done|].
  pose proof B_val. pose proof (ok_rings _ _ (i_ok _ _ _ I)) as HF. pose proof (i_layout _ _ _ I) as HL.
  assert (~ forall j t k, rest !! j = Some t -> (k < t_len t)%nat -> k ∉ t_todo t ->
            processed (chan r) <> t_idx t + 8 * Z.of_nat k) as Hcov.
  { intros Hn. eapply land_1_flag; [|exact Hf]. eapply i_free; [done|apply I|lia|done]. }
  destruct rest as [|t rest']; [by destruct Hcov|]. exists t, rest'. split; [done|].
  intros H0. apply Hcov. intros j u k Hu Hk Hn E. destruct HL as [Ht HL].
  apply Forall_cons in HF as HF'. destruct HF' as [Rt _].
  destruct (layout_unique (t :: rest') _ _ O j t u O k (i_layout _ _ _ I) HF eq_refl Hu) as [<- <-];
    [by apply t_size_len|done|lia|]. cbn in Hu. congruence.
Qed.

(** The whole request is there, and the host reads exactly its words. *)
Lemma request_complete r done t rest :
  inv r done (t :: rest) -> O ∉ t_todo t ->
  entries (load (pstate r) (chan r) (processed (chan r))) = Some (t_len t).
Proof.
  intros I H0. destruct (i_layout _ _ _ I) as [Hidx _].
  pose proof (Forall_inv (i_ok _ _ _ I)) as Ht. destruct (t_size_len t (tok_ring _ _ Ht)) as [_ Hl].
  pose proof (i_stored _ _ _ I O t O eq_refl Hl H0) as HS. rewrite Z.add_0_r, Hidx in HS.
  destruct (@rp_entries _ (tok_ring _ _ Ht) (t_idx t)) as (sw & l & E & He).
  unfold t_words, t_len, t_stores in *. rewrite E in *. cbn in HS. injection HS as <-. done.
Qed.

Lemma oldest_ready r done t rest :
  inv r done (t :: rest) -> O ∉ t_todo t -> processed (chan r) + t_size t <= complete (chan r) + B.
Proof.
  intros I H0. destruct (i_layout _ _ _ I) as [<- _].
  pose proof (Forall_inv (i_ok _ _ _ I)) as Ht. destruct (t_size_len t (tok_ring _ _ Ht)) as [_ Hl].
  apply Ht. destruct (t_ready t) eqn:E; [done|]. exfalso. apply H0. by apply Ht.
Qed.

Lemma oldest_fits r done t rest :
  inv r done (t :: rest) -> processed (chan r) + t_size t <= issue r.
Proof.
  intros I. pose proof (ok_rings _ _ (i_ok _ _ _ I)) as HF. pose proof (i_layout _ _ _ I) as HL.
  destruct (layout_range _ _ _ O t HL HF eq_refl) as [_ H]. destruct HL as [E _]. by rewrite E in H.
Qed.

(** Entries that carry their lap's flag have been stored. *)
Lemma flagged_stored r done t rest :
  inv r done (t :: rest) -> O ∉ t_todo t ->
  (forall k, 0 < k < Z.of_nat (t_len t) -> flagged (pstate r) (chan r) (processed (chan r)) k) ->
  forall k, (k < t_len t)%nat -> k ∉ t_todo t.
Proof.
  intros I H0 HF k Hk Hin. pose proof (oldest_ready _ _ _ _ I H0) as Hrd.
  pose proof (oldest_fits _ _ _ _ I) as Hfit. destruct (i_layout _ _ _ I) as [Hidx _].
  pose proof B_val. pose proof (i_issue _ _ _ I). pose proof (i_lag _ _ _ I). pose proof (i_local _ _ _ I).
  pose proof (Forall_inv (i_ok _ _ _ I)) as Ht. destruct (t_size_len t (tok_ring _ _ Ht)) as [Hs _].
  destruct k as [|k]; [done|].
  specialize (HF (Z.of_nat (S k)) ltac:(lia)). unfold flagged in HF.
  rewrite wrap_small in HF by (unfold in_u; lia).
  assert (field (load (pstate r) (chan r) (processed (chan r) + 8 * Z.of_nat (S k))) 0 8 =
          1 - lap_flag (processed (chan r) + 8 * Z.of_nat (S k))) as Hfree.
  { eapply i_free; [exact I| |lia|].
    - pose proof (i_align _ _ _ I). Z.div_mod_to_equations. lia.
    - intros j u k' Hu Hk' Hn E. pose proof (ok_rings _ _ (i_ok _ _ _ I)) as HR.
      destruct (layout_unique (t :: rest) _ _ O j t u (S k) k' (i_layout _ _ _ I) HR eq_refl Hu Hk Hk')
        as [<- <-]; [lia|]. cbn in Hu. congruence. }
  rewrite HF in Hfree. destruct (lap_flag_01 (processed (chan r) + 8 * Z.of_nat (S k))); lia.
Qed.

Lemma read_words_eq r done t rest :
  inv r done (t :: rest) -> (forall k, (k < t_len t)%nat -> k ∉ t_todo t) ->
  read_words (pstate r) (chan r) = t_words t.
Proof.
  intros I Hall. pose proof (Forall_inv (i_ok _ _ _ I)) as Ht.
  destruct (t_size_len t (tok_ring _ _ Ht)) as [Hs Hl].
  pose proof (oldest_fits _ _ _ _ I) as Hfit. destruct (i_layout _ _ _ I) as [Hidx _].
  pose proof B_val. pose proof (i_issue _ _ _ I). pose proof (i_lag _ _ _ I). pose proof (i_local _ _ _ I).
  unfold read_words. rewrite (request_complete r done t rest I (Hall O Hl)). cbn [default from_option id].
  apply list_eq. intros k. rewrite list_lookup_fmap. destruct (decide (k < t_len t)%nat) as [Hk|Hk].
  - rewrite lookup_seq_lt by done. cbn [fmap option_fmap option_map Nat.add].
    rewrite (wrap_small 64 (processed (chan r) + 8 * Z.of_nat k)) by (unfold in_u; lia).
    rewrite (i_stored _ _ _ I O t k eq_refl Hk (Hall k Hk)), Hidx. done.
  - rewrite lookup_seq_ge by lia. symmetry. apply lookup_ge_None.
    unfold t_words, t_len in *. rewrite length_fmap. lia.
Qed.

(** Moving the window past the oldest request. *)
Lemma inv_advance r done t rest ch' g tr' :
  inv r done (t :: rest) -> (forall k, (k < t_len t)%nat -> k ∉ t_todo t) ->
  processed ch' = processed (chan r) + t_size t -> last_sync ch' = complete ch' ->
  complete (chan r) <= complete ch' <= processed ch' -> processed ch' < complete ch' + 1024 ->
  buf ch' = buf (chan r) -> channel_req ch' = None -> t_todo t = ∅ ->
  inv (MkRing (issue r) (complete_local r) ch' (set_issued_get g (pstate r)) tr' (threads r)
         (consumed_words r ++ [t_words t])) (done ++ [t]) rest.
Proof.
  intros I Hall Hp Hs Hc Hg Hb Hq Htodo. pose proof B_val as HB.
  pose proof (oldest_fits _ _ _ _ I) as Hfit. pose proof (i_local _ _ _ I).
  pose proof (Forall_inv (i_ok _ _ _ I)) as Ht. destruct (t_size_len t (tok_ring _ _ Ht)) as [Hsz Hl].
  pose proof (oldest_ready _ _ _ _ I (Hall O Hl)) as Hrd.
  assert (forall c, load (set_issued_get g (pstate r)) ch' c = load (pstate r) (chan r) c) as Hload.
  { intros c. unfold load. by rewrite Hb. }
  destruct I as [J1 J2 J3 J4 J5 J6 J7 J8 J9 J10 J11 J12 J13 J14]. destruct J4 as [Hidx HL].
  apply Forall_cons in J5 as [_ J5].
  split; cbn; auto; try lia.
  - by rewrite J1, <- app_assoc.
  - by rewrite J2, fmap_app.
  - apply Forall_app_2; [done|by apply Forall_singleton].
  - by rewrite Hp.
  - eapply Forall_impl; [exact J5|]. intros u [R1 R2 R3 R4]. split; [done..|]. intros Hr. specialize (R4 Hr). lia.
  - intros j u k Hu Hk Hn. rewrite Hload. by apply (J6 (S j) u k).
  - intros c H8 Hw Hn. rewrite Hload. destruct (decide (c < processed (chan r) + B)) as [Hlt|Hge].
    + apply J7; [done|lia|]. intros [|j] u k Hu Hk Hnt; cbn in Hu; [injection Hu as <-; lia|].
      by apply (Hn j u k).
    + set (k := Z.to_nat ((c - B - processed (chan r)) / 8)).
      assert (c = (t_idx t + 8 * Z.of_nat k) + B) as Ec.
      { subst k. rewrite HB in *. rewrite Hidx. Z.div_mod_to_equations. lia. }
      assert (k < t_len t)%nat as Hk by lia.
      pose proof (J6 O t k eq_refl Hk (Hall k Hk)) as HS.
      assert (load (pstate r) (chan r) c = load (pstate r) (chan r) (t_idx t + 8 * Z.of_nat k)) as ->.
      { rewrite !load_slot by done. by rewrite Ec, slot_lap. }
      unfold t_words in HS. rewrite list_lookup_fmap in HS.
      destruct (t_stores t !! k) as [sw|] eqn:Esw; [|done]. cbn in HS. injection HS as HS.
      assert (store_for (t_idx t + 8 * Z.of_nat k) sw) as [_ Hfl].
      { eapply stores_from_lookup; [apply (@rp_stores _ (tok_ring _ _ Ht))| | |exact Esw]; [lia|].
        fold (t_stores t). fold (t_len t). lia. }
      rewrite <- HS, Hfl. rewrite Ec, lap_flag_next. lia.
  - rewrite Hp, Hsz. Z.div_mod_to_equations. lia.
Qed.

Lemma todo_empty t : (forall k, k ∈ t_todo t -> (k < t_len t)%nat) ->
  (forall k, (k < t_len t)%nat -> k ∉ t_todo t) -> t_todo t = ∅.
Proof. intros H1 H2. apply set_eq. intros k. split; [intros Hk; exfalso; eapply H2; eauto|set_solver]. Qed.

Lemma inv_consume r done rest rq tr' ch' ok g :
  inv r done rest -> poll_request (pstate r) (chan r) = Some rq ->
  dispatch h (htrace r) (pstate r) (set_channel_req (Some rq) (chan r))
    (br_op (base_request_of (default 0 (buf (chan r) !! rq)))) = Ret (tr', ch', ok, g) ->
  exists done' rest',
    inv (MkRing (issue r) (complete_local r) (if (ok : bool) then set_channel_req None ch' else ch')
           (set_issued_get g (pstate r)) tr' (threads r)
           (consumed_words r ++ [read_words (pstate r) (chan r)])) done' rest'.
Proof.
  intros I Hp Hd. destruct (poll_oldest _ _ _ _ I Hp) as (-> & t & rest' & -> & H0).
  set (ch1 := set_channel_req _ _) in Hd.
  assert (default 0 (buf (chan r) !! slot (processed (chan r))) = load (pstate r) ch1 (processed ch1)) as E.
  { by rewrite load_slot by apply I. }
  rewrite E in Hd. pose proof (request_complete _ _ _ _ I H0) as He.
  assert (load (pstate r) (chan r) (processed (chan r)) = load (pstate r) ch1 (processed ch1)) as E1
    by reflexivity.
  rewrite E1 in He. pose proof (proj1 (i_config _ _ _ I)) as Hcl.
  pose proof (dispatch_consumes h (pstate r) Hcl (htrace r) ch1 tr' ch' ok g (t_len t)) as HC.
  cbv zeta in HC. destruct (HC He Hd) as [[HF [force ->]] ->]. clear HC.
  pose proof (flagged_stored _ _ _ _ I H0 HF) as Hall.
  pose proof (Forall_inv (i_ok _ _ _ I)) as Ht. destruct (t_size_len t (tok_ring _ _ Ht)) as [Hsz _].
  rewrite <- Hsz. pose proof B_val. pose proof (oldest_fits _ _ _ _ I). pose proof (i_issue _ _ _ I).
  pose proof (i_lag _ _ _ I). pose proof (i_local _ _ _ I).
  destruct (update_counters ch1 (t_size t) force) as (U1 & U2 & U3 & U4 & U5 & U6);
    [apply I|cbn; lia..|].
  rewrite (read_words_eq _ _ _ _ I Hall). exists (done ++ [t]), rest'.
  eapply inv_advance; eauto. apply todo_empty; [apply Ht|done].
Qed.

Lemma inv_step r r' done rest : inv r done rest -> step r r' -> exists done' rest', inv r' done' rest'.
Proof.
  intros I S. pose proof (i_local _ _ _ I). pose proof (i_lag _ _ _ I).
  destruct S as [r req R Hb|r j t Hj Hr Ha|r j t Hj Hr Ha|r j t k sw Hj Hr Hk Hs|r rq tr' ch' ok g Hp Hd|r ch' Hs].
  - eexists _, _. by apply inv_claim.
  - eapply (inv_ready r done rest j t (complete_local r)); eauto; lia.
  - eapply (inv_ready r done rest j t (complete (chan r))); eauto; lia.
  - by eapply inv_store.
  - by eapply inv_consume.
  - exists done, rest. destruct Hs as (E1 & E2 & E3 & E4 & E5).
    assert (forall c, load (pstate r) ch' c = load (pstate r) (chan r) c) as Hload
      by (intros; unfold load; by rewrite E1).
    destruct I. split; cbn; rewrite ?E2, ?E3, ?E4, ?E5; auto.
    + intros. rewrite Hload. eauto.
    + intros. rewrite Hload. eauto.
Qed.

(** The state after [nvshmemi_proxy_init] and the creation of the channel. *)
Definition ring_init (s : proxy_state) : ring := MkRing 0 0 new_channel s [] [] [].

Lemma inv_init s : config_ok s -> inv (ring_init s) [] [].
Proof.
  intros C. pose proof B_val. split; cbn; auto; try lia; try done.
  intros c _ Hc _. rewrite load_slot by done. cbn. rewrite lookup_empty. cbn.
  rewrite lap_flag_alt, Z.div_small by lia. reflexivity.
Qed.

Lemma inv_steps s r : config_ok s -> rtc step (ring_init s) r -> exists done rest, inv r done rest.
Proof.
  intros C R. assert (exists done rest, inv (ring_init s) done rest) as I0
    by (eexists _, _; by apply inv_init).
  induction R as [r|r r1 r2 S R IH]; [done|]. destruct I0 as (done & rest & I).
  apply IH. by eapply inv_step.
Qed.

(** C1: FIFO and integrity of the proxy ring under every interleaving of device
    threads and host: what the host has consumed is, request by request and
    word by word, a prefix of what the threads claimed and wrote, in the order
    of their claims. *)
Theorem proxy_ring_fifo s r :
  config_ok s -> rtc step (ring_init s) r ->
  exists rest, t_words <$> threads r = consumed_words r ++ (t_words <$> rest) /\
    layout (processed (chan r)) rest (issue r).
Proof.
  intros C R. destruct (inv_steps s r C R) as (done & rest & I). exists rest.
  rewrite (i_threads _ _ _ I), fmap_app, (i_words _ _ _ I). split; [done|apply I].
Qed.

(** No deadlock from the lazy update of [complete]: in every reachable state
    the oldest unconsumed request, if it leaves 1023 bytes of the buffer free,
    passes the device's flow control. *)
Theorem oldest_request_available s r t :
  config_ok s -> rtc step (ring_init s) r ->
  threads r !! length (consumed_words r) = Some t -> t_size t <= B - 1023 ->
  channel_available (dev base) (complete (chan r)) (tail_idx t) = true.
Proof.
  intros C R Ht Hs. destruct (inv_steps s r C R) as (done & rest & I).
  rewrite (i_threads _ _ _ I), (i_words _ _ _ I), length_fmap in Ht.
  rewrite lookup_app_r, Nat.sub_diag in Ht by lia. destruct rest as [|u rest]; [done|]. injection Ht as ->.
  pose proof (Forall_inv (i_ok _ _ _ I)) as Hok. destruct (t_size_len t (tok_ring _ _ Hok)) as [Hsz Hl].
  pose proof B_val. pose proof (oldest_fits _ _ _ _ I). pose proof (i_issue _ _ _ I).
  pose proof (i_lag _ _ _ I). pose proof (i_local _ _ _ I). destruct (i_layout _ _ _ I) as [Hidx _].
  apply available_bound; lia.
Qed.

(** Once the oldest request has made all its stores, the host does not wait:
    it finds the request, and every busy-wait on one of its entries ends at
    once with the word the device wrote. *)
Theorem oldest_request_readable s r t :
  config_ok s -> rtc step (ring_init s) r ->
  threads r !! length (consumed_words r) = Some t -> t_todo t = ∅ ->
  poll_request (pstate r) (chan r) = Some (slot (processed (chan r))) /\
  forall k w, t_words t !! k = Some w ->
    wait_entry (pstate r) (chan r) (u64 (processed (chan r) + 8 * Z.of_nat k)) = Ret w.
Proof.
  intros C R Ht Hd. destruct (inv_steps s r C R) as (done & rest & I).
  rewrite (i_threads _ _ _ I), (i_words _ _ _ I), length_fmap in Ht.
  rewrite lookup_app_r, Nat.sub_diag in Ht by lia. destruct rest as [|u rest]; [done|]. injection Ht as ->.
  pose proof (Forall_inv (i_ok _ _ _ I)) as Hok. destruct (t_size_len t (tok_ring _ _ Hok)) as [Hsz Hl].
  pose proof B_val. pose proof (oldest_fits _ _ _ _ I). pose proof (i_issue _ _ _ I).
  pose proof (i_lag _ _ _ I). pose proof (i_local _ _ _ I). destruct (i_layout _ _ _ I) as [Hidx _].
  assert (forall k w, t_words t !! k = Some w ->
    (k < t_len t)%nat /\ load (pstate r) (chan r) (processed (chan r) + 8 * Z.of_nat k) = w /\
    field w 0 8 = lap_flag (processed (chan r) + 8 * Z.of_nat k)) as Hw.
  { intros k w Hk. unfold t_words in Hk. rewrite list_lookup_fmap in Hk.
    destruct (t_stores t !! k) as [sw|] eqn:E; [|done]. cbn in Hk. injection Hk as <-.
    assert (k < t_len t)%nat as Hkl by (by eapply lookup_lt_Some). split; [done|].
    pose proof (i_stored _ _ _ I O t k eq_refl Hkl ltac:(rewrite Hd; apply not_elem_of_empty)) as HS.
    unfold t_words in HS. rewrite list_lookup_fmap, E in HS. cbn in HS. injection HS as HS.
    rewrite <- Hidx, <- HS. split; [done|].
    eapply stores_from_lookup; [apply (@rp_stores _ (tok_ring _ _ Hok))| | |exact E]; [lia|].
    fold (t_stores t). fold (t_len t). lia. }
  destruct (i_config _ _ _ I) as [CL CB]. split.
  - unfold poll_request. rewrite (i_req _ _ _ I). unfold COUNTER_TO_FLAG, WRAPPED_CHANNEL_BUF.
    rewrite CL, CB. fold (lap_flag (processed (chan r))). fold (slot (processed (chan r))).
    destruct (lookup_lt_is_Some_2 (t_words t) O) as [w0 Hw0].
    { unfold t_words. rewrite length_fmap. done. }
    destruct (Hw O w0 Hw0) as (_ & E & Hf). rewrite Z.add_0_r in E, Hf. rewrite E, Hf.
    rewrite bool_decide_eq_true_2; [done|]. destruct (lap_flag_01 (processed (chan r))) as [-> | ->]; done.
  - intros k w Hk. destruct (Hw k w Hk) as (Hkl & E & Hf).
    rewrite wrap_small by (unfold in_u; lia).
    unfold wait_entry, COUNTER_TO_FLAG. rewrite CL, E, Hf.
    fold (lap_flag (processed (chan r) + 8 * Z.of_nat k)). by rewrite bool_decide_eq_true_2.
Qed.
End Steps.

(** ** A concrete run

    One PE, two device threads that each issue a fence; the second stores
    first, and the host consumes the first request. *)
Definition demo_host : host := {|
  henv := {| Rma.npes := 1; Rma.mype := 0; Rma.npes_node := 1; Rma.mype_node := 0;
             Rma.enable_rail_opt := false; Rma.heap_base := 0; Rma.heap_size := 1048576;
             Rma.remote_pe_base := fun pe => pe * 1048576; Rma.max_op_len := fun _ => 4096;
             Rma.op_status := fun _ _ => 0 |};
  transports := []; state_transport_bitmap := 0; BYPASS_FLUSH := false; flush_available := false;
  PROXY_REQUEST_BATCH_MAX := 32; atomics_complete_on_quiet := false;
  proxy_channel_g_buf := 0; proxy_channel_g_buf_size := 262144; proxy_channel_g_buf_log_size := 18
|}.
Definition demo_state : proxy_state :=
  match nvshmemi_proxy_init demo_host false 0 with
  | Ret s => s
  | Fail _ => MkState [] [] 0 0 0 0 0 [] 0 false 0 0 0 0
  end.

Abbreviation demo_step := (@step Rma.demo_handles demo_host 0).

Definition demo_fence : issued := proxy_fence (dev 0).
Definition fence_thread (idx : Z) (ready : bool) (todo : gset nat) : thread :=
  MkThread idx demo_fence ready todo.

(** Both threads have claimed and passed the flow control. *)
Definition demo_ring1 : ring :=
  MkRing 16 0 new_channel demo_state [] [fence_thread 0 true {[0%nat]}; fence_thread 8 true {[0%nat]}] [].

Lemma demo_run1 : rtc demo_step (ring_init demo_state) demo_ring1.
Proof.
  eapply rtc_l; [apply (step_claim _ _ _ demo_fence); [apply fence_ring|vm_compute; discriminate]|].
  eapply rtc_l; [apply (step_claim _ _ _ demo_fence); [apply fence_ring|vm_compute; discriminate]|].
  eapply rtc_l; [apply (step_ready _ _ _ 0 (fence_thread 0 false {[0%nat]})); reflexivity|].
  eapply rtc_l; [apply (step_ready _ _ _ 1 (fence_thread 8 false {[0%nat]})); reflexivity|].
  apply rtc_refl.
Qed.

(** The second thread stores, then the first. *)
Definition fence_word : Z := Z.lor (Z.shiftl NVSHMEMI_OP_FENCE 16) 1.
Definition demo_ring2 : ring :=
  MkRing 16 0 (do_store (0, fence_word) (do_store (8, fence_word) new_channel)) demo_state []
    [fence_thread 0 true ∅; fence_thread 8 true ∅] [].

Lemma demo_run2 : rtc demo_step (ring_init demo_state) demo_ring2.
Proof.
  etransitivity; [exact demo_run1|].
  eapply rtc_l; [apply (step_store _ _ demo_ring1 1 (fence_thread 8 true {[0%nat]}) 0 (8, fence_word));
                 reflexivity|].
  eapply rtc_l; [apply (step_store _ _ _ 0 (fence_thread 0 true {[0%nat]}) 0 (0, fence_word));
                 reflexivity|].
  apply rtc_refl.
Qed.

Definition demo_ring3 : ring :=
  MkRing 16 0
    (MkChannel (buf (chan demo_ring2)) 0 0 0 0 0 0 0 8 0 None) demo_state []
    [fence_thread 0 true ∅; fence_thread 8 true ∅] [[fence_word]].

Lemma demo_run3 : rtc demo_step (ring_init demo_state) demo_ring3.
Proof.
  etransitivity; [exact demo_run2|].
  eapply rtc_l; [|apply rtc_refl].
  apply (step_consume demo_host 0 demo_ring2 0 []
           (MkChannel (buf (chan demo_ring2)) 0 0 0 0 0 0 0 8 0 (Some 0)) true 0); reflexivity.
Qed.

Lemma proxy_ring_fifo_witness :
  exists rest, t_words <$> threads demo_ring3 = [[fence_word]] ++ (t_words <$> rest) /\
    layout 8 rest 16.
Proof.
  apply (@proxy_ring_fifo Rma.demo_handles demo_host 0 demo_state demo_ring3);
    [split; reflexivity|exact demo_run3].
Defined.

Lemma oldest_request_available_witness :
  channel_available (dev 0) 0 (tail_idx (fence_thread 8 true ∅)) = true.
Proof.
  apply (@oldest_request_available Rma.demo_handles demo_host 0 demo_state demo_ring3
           (fence_thread 8 true ∅));
    [split; reflexivity|exact demo_run3|reflexivity|vm_compute; discriminate].
Defined.

Lemma oldest_request_readable_witness :
  poll_request demo_state (chan demo_ring3) = Some 8 /\
  wait_entry demo_state (chan demo_ring3) 8 = Ret fence_word.
Proof.
  destruct (@oldest_request_readable Rma.demo_handles demo_host 0 demo_state demo_ring3
              (fence_thread 8 true ∅)) as [H1 H2];
    [split; reflexivity|exact demo_run3|reflexivity|reflexivity|].
  split; [exact H1|]. exact (H2 0%nat fence_word eq_refl).
Defined.
End Protocol.
