(* ===== verification/ProxyRoundtrip.v ===== *)
(** * What the device encodes is what the host decodes

    For every request kind, the handler of the host, run on the words the
    device-side call stores, issues the transport operation the call names:
    same peer, same remote and local addresses, same size, value, operation
    and queue pair.  The bounds are those of the packed request structs:
    offsets below 2^40, sizes below 2^48, PEs below 2^16. *)
From stdpp Require Import base gmap list.
From Stdlib Require Import ZArith Lia.
From S2P Require Import Prelude ProxyChannel ProxyDevice Rma ProxyHost ProxyRing ProxyProtocol.
Import Channel Device Host Protocol.

(** ** Reassembling a value from its fields *)
Lemma join_offset w : Z.lor (Z.shiftl (field w 32 32) 8) (field w 24 8) = field w 24 40.
Proof. exact (field_join w 24 8 32 ltac:(lia) ltac:(lia) ltac:(lia)). Qed.

Lemma join_size w : Z.lor (Z.shiftl (field w 32 32) 16) (field w 16 16) = field w 16 48.
Proof. exact (field_join w 16 16 32 ltac:(lia) ltac:(lia) ltac:(lia)). Qed.

Lemma join_words x : Z.lor (field x 0 32) (Z.shiftl (field x 32 32) 32) = field x 0 64.
Proof. rewrite Z.lor_comm. exact (field_join x 0 32 32 ltac:(lia) ltac:(lia) ltac:(lia)). Qed.

Lemma join_address x :
  Z.lor (Z.lor (Z.lor (Z.shiftl (field x 32 32) 32) (Z.shiftl (field x 16 16) 16))
               (Z.shiftl (field x 8 8) 8)) (field x 0 8) = field x 0 64.
Proof.
  pose proof (field_join x 0 8 56 ltac:(lia) ltac:(lia) ltac:(lia)) as H1.
  pose proof (field_join x 8 8 48 ltac:(lia) ltac:(lia) ltac:(lia)) as H2.
  pose proof (field_join x 16 16 32 ltac:(lia) ltac:(lia) ltac:(lia)) as H3.
  change (0 + 8) with 8 in H1. change (8 + 56) with 64 in H1. change (8 + 8) with 16 in H2.
  change (8 + 48) with 56 in H2. change (16 + 16) with 32 in H3. change (16 + 32) with 48 in H3.
  rewrite <- H1, <- H2, <- H3.
  by rewrite !Z.shiftl_lor, !Z.shiftl_shiftl by lia.
Qed.

Lemma s32_low q : - 2 ^ 31 <= q < 2 ^ 31 -> s32 (field q 0 32) = q.
Proof.
  intros H. unfold s32, field, wrap. rewrite Z.shiftr_0_r, Zmod_mod.
  case_bool_decide; Z.div_mod_to_equations; lia.
Qed.

Lemma s32_field q : - 2 ^ 31 <= q < 2 ^ 31 -> s32 (field (u64 q) 0 32) = q.
Proof. intros H. rewrite field_u64 by lia. by apply s32_low. Qed.

Lemma field_byte x off len : 0 <= x < 256 -> 8 <= off -> 0 <= len -> field x off len = 0.
Proof.
  intros. apply field_above; [done|]. pose proof (Z.pow_le_mono_r 2 8 off ltac:(lia) ltac:(lia)). lia.
Qed.

Lemma u16_id x : 0 <= x < 2 ^ 16 -> u16 x = x.
Proof. apply wrap_small. Qed.

(** ** The words of the requests *)

(** [qp << 32 | pe << 16 | flag] *)
Definition peer_word (qp pe c : Z) : Z :=
  Z.lor (Z.lor (u64 (Z.shiftl (u64 qp) 32)) (u64 (Z.shiftl (u16 pe) 16))) (lap_flag c).
Lemma peer_word_pe qp pe c : 0 <= pe < 2 ^ 16 -> field (peer_word qp pe c) 16 16 = pe.
Proof. intros. unfold peer_word. fields. rewrite u16_id by done. by apply field_full. Qed.
Lemma peer_word_qp qp pe c : 0 <= pe < 2 ^ 16 -> field (peer_word qp pe c) 32 32 = field (u64 qp) 0 32.
Proof.
  intros. unfold peer_word. fields. rewrite u16_id by done. change (32 - 16) with 16.
  rewrite (field_above pe 16 32), Z.lor_0_r by lia. done.
Qed.

(** [addr & ~0xFF | flag] and [size << 16 | (addr & 0xFF) << 8 | flag] *)
Definition addr_word (addr c : Z) : Z := Z.lor (Z.land addr mask_lowest_byte) (lap_flag c).
Definition size_word (size addr c : Z) : Z :=
  Z.lor (Z.lor (u64 (Z.shiftl size 16)) (u64 (Z.shiftl (Z.land addr mask_upper_7_bytes) 8))) (lap_flag c).
Lemma addr_word_field addr c off len :
  8 <= off -> 0 <= len -> off + len <= 64 -> field (addr_word addr c) off len = field addr off len.
Proof. intros. unfold addr_word. rewrite mask_lowest_eq. fields. done. Qed.
Lemma size_word_addr size addr c : field (size_word size addr c) 8 8 = field addr 0 8.
Proof. unfold size_word. rewrite mask_upper_eq. fields. done. Qed.
Lemma low_byte_range x : 0 <= Z.land x mask_upper_7_bytes < 256.
Proof. rewrite mask_upper_eq, Z.land_ones by lia. apply Z.mod_pos_bound. lia. Qed.
Lemma size_word_size size addr c : 0 <= size < 2 ^ 48 -> field (size_word size addr c) 16 48 = size.
Proof.
  intros. unfold size_word. pose proof (low_byte_range addr).
  rewrite !field_lor, !field_u64, (field_shiftl_in (Z.land _ _)) by lia.
  rewrite (field_byte (Z.land _ _)) by lia. fields. by apply field_full.
Qed.
Lemma size_word_join size addr c : 0 <= size < 2 ^ 48 ->
  Z.lor (Z.shiftl (field (size_word size addr c) 32 32) 16) (field (size_word size addr c) 16 16) = size.
Proof. intros. rewrite join_size. by apply size_word_size. Qed.
Lemma addr_join addr size c1 c2 : addr ∈u 64 ->
  Z.lor (Z.lor (Z.lor (Z.shiftl (field (addr_word addr c1) 32 32) 32)
                      (Z.shiftl (field (addr_word addr c1) 16 16) 16))
               (Z.shiftl (field (addr_word addr c1) 8 8) 8)) (field (size_word size addr c2) 8 8) = addr.
Proof.
  intros. rewrite !addr_word_field, size_word_addr, join_address by lia. by apply field_full.
Qed.

(** [rsigoffset << 24 | sig_op << 16 | (sigval & 0xFF) << 8 | flag] *)
Definition sig_word (ro op v c : Z) : Z :=
  Z.lor (Z.lor (Z.lor (u64 (Z.shiftl ro 24)) (u64 (Z.shiftl op 16)))
               (u64 (Z.shiftl (Z.land v mask_upper_7_bytes) 8))) (lap_flag c).
Lemma sig_word_val ro op v c : field (sig_word ro op v c) 8 8 = field v 0 8.
Proof. unfold sig_word. rewrite mask_upper_eq. fields. done. Qed.
Lemma sig_word_op ro op v c : 0 <= op < 256 -> field (sig_word ro op v c) 16 8 = op.
Proof.
  intros. unfold sig_word. pose proof (low_byte_range v).
  rewrite !field_lor, !field_u64, (field_shiftl_in (Z.land _ _)) by lia.
  rewrite (field_byte (Z.land _ _)) by lia. fields. by apply field_full.
Qed.
Lemma sig_word_offset ro op v c : 0 <= ro < 2 ^ 40 -> 0 <= op < 256 ->
  Z.lor (Z.shiftl (field (sig_word ro op v c) 32 32) 8) (field (sig_word ro op v c) 24 8) = ro.
Proof.
  intros. rewrite join_offset. unfold sig_word. pose proof (low_byte_range v).
  rewrite !field_lor, !field_u64, (field_shiftl_in (Z.land _ _)) by lia.
  rewrite (field_byte (Z.land _ _)), (field_shiftl_in op), (field_byte op) by lia.
  fields. by apply field_full.
Qed.
Lemma sig_val_join v ro op c1 c2 : v ∈u 64 ->
  Z.lor (Z.lor (Z.lor (Z.shiftl (field (addr_word v c1) 32 32) 32)
                      (Z.shiftl (field (addr_word v c1) 16 16) 16))
               (Z.shiftl (field (addr_word v c1) 8 8) 8)) (field (sig_word ro op v c2) 8 8) = v.
Proof.
  intros. rewrite !addr_word_field, sig_word_val, join_address by lia. by apply field_full.
Qed.

(** Inline values: [v_low << 32 | x << 16 | y << 8 | flag] for the low half of a
    64-bit value, [v_high | x << 16 | y << 8 | flag] for the high half. *)
Definition low_word (v x y c : Z) : Z :=
  Z.lor (Z.lor (Z.lor (u64 (Z.shiftl (Z.land v (Z.ones 32)) 32)) (u64 (Z.shiftl x 16)))
               (u64 (Z.shiftl y 8))) (lap_flag c).
Definition high_word (v x y c : Z) : Z :=
  Z.lor (Z.lor (Z.lor (Z.land v (Z.ldiff (Z.ones 64) (Z.ones 32))) (u64 (Z.shiftl x 16)))
               (u64 (Z.shiftl y 8))) (lap_flag c).
Lemma low_word_fields v x y c : 0 <= x < 2 ^ 16 -> 0 <= y < 256 ->
  field (low_word v x y c) 32 32 = field v 0 32 /\ field (low_word v x y c) 16 16 = x /\
  field (low_word v x y c) 8 8 = y.
Proof.
  intros. unfold low_word. split; [|split]; fields;
    rewrite ?(field_byte y), ?(field_above x) by (cbn; lia); rewrite ?Z.lor_0_r;
    done || by apply field_full.
Qed.
Lemma high_word_fields v x y c : 0 <= x < 2 ^ 16 -> 0 <= y < 256 ->
  field (high_word v x y c) 32 32 = field v 32 32 /\ field (high_word v x y c) 16 16 = x /\
  field (high_word v x y c) 8 8 = y.
Proof.
  intros. unfold high_word. split; [|split]; fields;
    rewrite ?(field_byte y), ?(field_above x) by (cbn; lia); rewrite ?Z.lor_0_r;
    done || by apply field_full.
Qed.
(** [qp << 32 | flag] *)
Definition qp_word (qp c : Z) : Z := Z.lor (u64 (Z.shiftl (u64 qp) 32)) (lap_flag c).
Lemma qp_word_qp qp c : field (qp_word qp c) 32 32 = field (u64 qp) 0 32.
Proof. unfold qp_word. fields. done. Qed.

(** The fields of the base word, for an offset below 2^40. *)
Lemma base_word_roffset ro op c :
  0 <= ro < 2 ^ 40 -> 0 <= op < 256 ->
  base_roffset (base_request_of (base_word ro op 1 (lap_flag c))) = ro.
Proof.
  intros Hr Ho. unfold base_roffset, base_request_of; cbn [roffset_high roffset_low].
  rewrite join_offset. unfold base_word. fields.
  rewrite (field_byte op) by lia. rewrite ?Z.lor_0_r. by apply field_full.
Qed.

(** The operation code with its queue-pair offset, and what the host makes of it. *)
Definition qp_op (op qp : Z) : Z :=
  if bool_decide (qp <> NVSHMEMX_QP_DEFAULT) then op + NVSHMEMI_OP_QP_OP_OFFSET else op.
Lemma qp_op_decode op qp : 0 < op < 100 ->
  0 <= qp_op op qp < 256 /\
  (if bool_decide (qp_op op qp > NVSHMEMI_OP_QP_OP_OFFSET)
   then qp_op op qp - NVSHMEMI_OP_QP_OP_OFFSET else qp_op op qp) = op /\
  bool_decide (qp_op op qp >= NVSHMEMI_OP_QP_OP_OFFSET) = bool_decide (qp <> NVSHMEMX_QP_DEFAULT).
Proof.
  intros H. unfold qp_op, NVSHMEMI_OP_QP_OP_OFFSET.
  destruct (bool_decide_reflect (qp <> NVSHMEMX_QP_DEFAULT)).
  - rewrite !bool_decide_eq_true_2 by lia. lia.
  - rewrite !bool_decide_eq_false_2 by lia. lia.
Qed.
Lemma qp_default qp :
  (if bool_decide (qp <> NVSHMEMX_QP_DEFAULT) then qp else NVSHMEMX_QP_DEFAULT) = qp.
Proof. case_bool_decide; [done|]. lia. Qed.

(** The remote pointer the host recomputes. *)
Lemma remote_ptr_back base rptr :
  0 <= base -> 0 <= rptr - base < 2 ^ 40 -> rptr < 2 ^ 64 ->
  u64 (rptr - base) = rptr - base /\ u64 (base + (rptr - base)) = rptr.
Proof. intros. split; [apply wrap_small; unfold in_u; lia|]. rewrite Zplus_minus. apply wrap_small. unfold in_u. lia. Qed.

Section Roundtrip.
Context `{MH : mem_handles} (h : host) (s : proxy_state) (ch : proxy_channel).
#[local] Abbreviation e := (henv h).

(** The channel is set up as by [nvshmemi_proxy_init], and the request [r]
    stands in it at [processed]. *)
Record request_at (r : issued) : Prop := {
  ra_config : config_ok s;
  ra_range : 0 <= processed ch;
  ra_bound : processed ch + iss_size r < 2 ^ 64;
  ra_words : forall k w, (snd <$> iss_stores r (processed ch)) !! k = Some w ->
    load s ch (u64 (processed ch + 8 * Z.of_nat k)) = w
}.

Lemma request_wait r k w :
  ring_producer r -> request_at r -> (snd <$> iss_stores r (processed ch)) !! k = Some w ->
  wait_entry s ch (u64 (processed ch + 8 * Z.of_nat k)) = Ret w.
Proof.
  intros R [[C1 C2] H0 H1 H2] Hk. pose proof (H2 _ _ Hk) as E.
  rewrite list_lookup_fmap in Hk. destruct (iss_stores r _ !! k) as [sw|] eqn:Es; [|done].
  cbn in Hk. injection Hk as <-. pose proof (rp_size (processed ch)) as Hsz.
  assert (k < length (iss_stores r (processed ch)))%nat by (by eapply lookup_lt_Some).
  unfold wait_entry, COUNTER_TO_FLAG. rewrite E, C1.
  rewrite wrap_small by (unfold in_u; lia).
  destruct (stores_from_lookup (iss_stores r (processed ch)) (processed ch) k sw
              (rp_stores (processed ch)) H0 ltac:(lia) Es) as [_ Hf].
  fold (lap_flag (processed ch + 8 * Z.of_nat k)). by rewrite bool_decide_eq_true_2.
Qed.

Lemma request_base r w :
  request_at r -> (snd <$> iss_stores r (processed ch)) !! O = Some w -> 0 < iss_size r ->
  load s ch (processed ch) = w.
Proof.
  intros [_ H0 H1 H2] Hk Hs. rewrite <- (H2 O w Hk). f_equal. rewrite Z.add_0_r.
  symmetry. apply wrap_small. unfold in_u. lia.
Qed.

(** Reading the entry at distance [off]: [Hw] gives the words by their index. *)
Ltac read_entry Hw k off :=
  rewrite (Hw k _ eq_refl : wait_entry s ch (u64 (processed ch + off)) = _).

(** The optional last entry of a request, with the queue pair. *)
Lemma read_qp qp c off :
  - 2 ^ 31 <= qp < 2 ^ 31 ->
  (qp <> NVSHMEMX_QP_DEFAULT -> wait_entry s ch (u64 (processed ch + off)) = Ret (qp_word qp c)) ->
  (if bool_decide (qp <> NVSHMEMX_QP_DEFAULT) then
     w ← wait_entry s ch (u64 (processed ch + off)); Ret (s32 (field w 32 32))
   else Ret NVSHMEMX_QP_DEFAULT) = Ret qp.
Proof.
  intros Hqp Hw. destruct (bool_decide_reflect (qp <> NVSHMEMX_QP_DEFAULT)) as [Hq|Hq]; [|f_equal; lia].
  by rewrite (Hw Hq), outcome_bind_ret, qp_word_qp, s32_field.
Qed.

(** ** Put and get *)

(** C24: a put or get ([nvshmemi_proxy_rma_nbi], and the [G] form) reaches the
    transport as it was issued: the host's handler decodes the peer, the
    remote and local addresses, the length, the operation and the queue pair
    the device encoded, and consumes the four entries. *)
Theorem dma_roundtrip tr base rptr lptr bytes pe op qp :
  let r := transfer_dma (dev base) rptr lptr bytes pe op qp in
  request_at r -> op ∈ [NVSHMEMI_OP_PUT; NVSHMEMI_OP_G; NVSHMEMI_OP_GET] ->
  Rma.heap_base e = base -> 0 <= base -> 0 <= rptr - base < 2 ^ 40 -> rptr < 2 ^ 64 ->
  lptr ∈u 64 -> 0 <= bytes < 2 ^ 48 -> 0 <= pe < 2 ^ 16 -> - 2 ^ 31 <= qp < 2 ^ 31 ->
  process_channel_dma h tr s ch =
    (t ← arr_get (transport_id s) pe;
     _ ← (if bool_decide (bytes = 0) then Ret tt else _ ← tcurr_of h s pe; Ret tt);
     tr ← Rma.nvshmemi_process_multisend_rma e tr t pe
            {| Rma.desc := op; Rma.is_nbi := 1; Rma.is_stream := 0 |} rptr lptr bytes qp;
     Ret (tr, proxy_update_processed ch PROXY_DMA_REQ_BYTES false, true)).
Proof.
  intros r Hr Hop Hb Hb0 Hro Hrp Hl Hs Hpe Hqp.
  pose proof (transfer_dma_ring base rptr lptr bytes pe op qp Hop) as R.
  pose proof (fun k w => request_wait r k w R Hr) as Hw. unfold process_channel_dma. cbv zeta.
  rewrite (request_base r _ Hr eq_refl eq_refl).
  read_entry Hw 1%nat 8.
  read_entry Hw 2%nat 16.
  read_entry Hw 3%nat 24.
  rewrite !outcome_bind_ret. cbn [snd]. rewrite !curr_flag_dev. cbn [heap_base dev].
  destruct (remote_ptr_back base rptr Hb0 Hro Hrp) as [-> Hback].
  fold (qp_op op qp).
  destruct (qp_op_decode op qp) as (Ho & Hop1 & Hop2).
  { set_unfold. unfold NVSHMEMI_OP_PUT, NVSHMEMI_OP_G, NVSHMEMI_OP_GET in *. lia. }
  rewrite (wrap_small 64 (qp_op op qp)) by (unfold in_u; lia).
  rewrite !(base_word_op _ (qp_op op qp)), !(base_word_roffset _ (qp_op op qp)) by lia.
  rewrite Hb, Hback, Hop1, Hop2.
  unfold put_dma_request_0_of, put_dma_request_1_of, put_dma_request_2_of;
    cbn [laddr_high laddr_2 laddr_3 laddr_low size_high size_low pd2_pe pd2_qp_index].
  fold (peer_word qp pe (next (next (next (processed ch))))).
  fold (addr_word lptr (next (processed ch))).
  fold (size_word bytes lptr (next (next (processed ch)))).
  by rewrite !addr_join, !size_word_join, !peer_word_pe, peer_word_qp, s32_field, qp_default by done.
Qed.

(** ** Put with signal *)

(** A put with signal reaches the transport as it was issued: data
    descriptors for the same ranges as a put, followed by the signal operation
    with its value and its own remote address, on the same peer and queue pair. *)
Theorem put_signal_roundtrip tr base rptr lptr bytes pe sig_addr sig_val sig_op qp :
  let r := nvshmemi_proxy_put_signal_nbi (dev base) rptr lptr bytes pe NVSHMEMI_OP_PUT_SIGNAL
             sig_addr sig_val sig_op qp in
  request_at r -> Rma.enable_rail_opt e = false ->
  Rma.heap_base e = base -> 0 <= base -> 0 <= rptr - base < 2 ^ 40 -> rptr < 2 ^ 64 ->
  0 <= sig_addr - base < 2 ^ 40 -> sig_addr < 2 ^ 64 -> sig_val ∈u 64 -> 0 <= sig_op < 256 ->
  lptr ∈u 64 -> 0 <= bytes < 2 ^ 48 -> 0 <= pe < 2 ^ 16 -> - 2 ^ 31 <= qp < 2 ^ 31 ->
  process_channel_put_signal h tr s ch =
    ('(rs, ls, bs, pe) ← put_signal_chunks h (Z.to_nat bytes) s pe rptr lptr bytes;
     t ← arr_get (transport_id s) pe;
     '(rh, roff, _) ← Rma.nvshmemi_get_remote_mem_handle e sig_addr pe t;
     _ ← tcurr_of h s pe;
     tr ← Rma.call e tr (Rma.EvPutSignal pe
            {| Rma.desc := NVSHMEMI_OP_PUT; Rma.is_nbi := 1; Rma.is_stream := 0 |} rs ls bs sig_op
            {| Rma.remote_memdesc :=
                 {| Rma.ptr := u64 (Rma.remote_pe_base e pe + (sig_addr - base));
                    Rma.offset := roff; Rma.handle := Some rh |};
               Rma.retflag := 0; Rma.retptr := 0; Rma.val := sig_val; Rma.cmp := 0;
               Rma.ret_handle := None |} 8 qp);
     Ret (tr, proxy_update_processed ch PROXY_PUT_WITH_SIG_REQ_BYTES false, true)).
Proof.
  intros r Hr Hrail Hb Hb0 Hro Hrp Hso Hsp Hsv Hsop Hl Hs Hpe Hqp.
  pose proof (put_signal_ring base rptr lptr bytes pe sig_addr sig_val sig_op qp) as R.
  pose proof (fun k w => request_wait r k w R Hr) as Hw. unfold process_channel_put_signal. cbv zeta.
  rewrite (request_base r _ Hr eq_refl eq_refl).
  read_entry Hw 1%nat 8.
  read_entry Hw 2%nat 16.
  read_entry Hw 3%nat 24.
  read_entry Hw 4%nat 32.
  read_entry Hw 5%nat 40.
  rewrite !outcome_bind_ret. cbn [snd]. rewrite !curr_flag_dev. cbn [heap_base dev].
  destruct (remote_ptr_back base rptr Hb0 Hro Hrp) as [-> Hback].
  destruct (remote_ptr_back base sig_addr Hb0 Hso Hsp) as [-> Hsback].
  fold (qp_op NVSHMEMI_OP_PUT_SIGNAL qp).
  destruct (qp_op_decode NVSHMEMI_OP_PUT_SIGNAL qp ltac:(unfold NVSHMEMI_OP_PUT_SIGNAL; lia)) as (Ho & _ & Hop2).
  set (o := qp_op NVSHMEMI_OP_PUT_SIGNAL qp) in *.
  rewrite (wrap_small 64 o) by (unfold in_u; lia).
  rewrite !(base_word_op _ o), !(base_word_roffset _ o) by lia.
  rewrite Hb, Hback, Hop2.
  unfold put_signal_request_0_of, put_signal_request_1_of, put_signal_request_2_of,
    put_signal_request_3_of, put_signal_request_4_of;
    cbn [laddr_write_high laddr_write_2 laddr_write_3 laddr_write_low write_size_high write_size_low
         ps2_pe ps2_qp_index sigval_low Channel.sig_op rsigoffset_low rsigoffset_high sigval_2 sigval_3 sigval_high].
  fold (peer_word qp pe (next (next (next (processed ch))))).
  fold (addr_word lptr (next (processed ch))).
  fold (size_word bytes lptr (next (next (processed ch)))).
  rewrite !addr_join, !size_word_join, !peer_word_pe, peer_word_qp, s32_field, qp_default by done.
  set (c4 := next (next (next (next (processed ch))))).
  fold (addr_word sig_val (next c4)).
  fold (sig_word (sig_addr - base) sig_op sig_val c4).
  rewrite !sig_val_join, !sig_word_offset, !sig_word_op, Hsback by done.
  unfold Rma.NVSHMEMU_UNMAPPED_PTR_PE_TRANSLATE. rewrite Hrail, Hb. reflexivity.
Qed.

(** ** Inline put *)

(** The value the transport receives: the object's bytes, zero-extended to 32
    bits for sizes 1 and 2 (the transport copies [sizeofT] bytes of it). *)
Lemma inline_value v sz : sz = 1 \/ sz = 2 \/ sz = 4 \/ sz = 8 ->
  convert_val_to_uint64 0 v sz = wrap (8 * sz) v /\ 0 <= convert_val_to_uint64 0 v sz < 2 ^ 64 /\
  (sz <> 8 -> convert_val_to_uint64 0 v sz < 2 ^ 32).
Proof.
  intros H. assert (convert_val_to_uint64 0 v sz = wrap (8 * sz) v) as E
    by (destruct H as [-> | [-> | [-> | ->]]]; reflexivity).
  rewrite E. split; [done|]. pose proof (wrap_in_u (8 * sz) v ltac:(lia)) as Hw. unfold in_u in Hw.
  destruct H as [-> | [-> | [-> | ->]]]; cbn [Z.mul Pos.mul] in *; lia.
Qed.

(** The words of an inline put, and its size. *)
Lemma inline_words base sz rptr v pe qp :
  sz = 1 \/ sz = 2 \/ sz = 4 \/ sz = 8 -> u64 (rptr - base) = rptr - base -> 0 <= pe < 2 ^ 16 ->
  let r := nvshmemi_proxy_rma_p (dev base) sz rptr v pe qp in
  exists c0 c1 c2 l, snd <$> iss_stores r (processed ch) =
    base_word (rptr - base) (qp_op NVSHMEMI_OP_P qp) 1 (lap_flag (processed ch)) ::
    low_word (wrap (8 * sz) v) pe 0 c0 :: high_word (wrap (8 * sz) v) sz 0 c1 :: l /\
    (qp <> NVSHMEMX_QP_DEFAULT -> l = [qp_word qp c2]) /\
    iss_size r = if bool_decide (qp <> NVSHMEMX_QP_DEFAULT)
                 then PROXY_INLINE_REQ_BYTES + CHANNEL_ENTRY_BYTES else PROXY_INLINE_REQ_BYTES.
Proof.
  intros Hsz Hback0 Hpe r. destruct (inline_value v sz Hsz) as (Hv & _).
  exists (next (processed ch)), (next (next (processed ch))), (next (next (next (processed ch)))).
  subst r. unfold nvshmemi_proxy_rma_p, transfer_inline, qp_op, low_word, high_word.
  destruct (bool_decide_reflect (qp <> NVSHMEMX_QP_DEFAULT));
    cbn [iss_stores iss_size fmap list_fmap snd heap_base dev];
    rewrite !curr_flag_dev, Hback0, Hv, u16_id by done;
    autorewrite with nvmask; change (u64 (Z.shiftl 0 8)) with 0; rewrite !Z.lor_0_r;
    (eexists; split; [reflexivity|split; [done|reflexivity]]).
Qed.

(** An inline put ([nvshmemi_proxy_rma_p]) of a 1, 2, 4 or 8 byte value
    reaches the transport as it was issued: one element of that size, with the
    value, remote address, peer and queue pair the device encoded. *)
Theorem inline_roundtrip tr base sz rptr v pe qp :
  let r := nvshmemi_proxy_rma_p (dev base) sz rptr v pe qp in
  request_at r -> Rma.enable_rail_opt e = false -> sz = 1 \/ sz = 2 \/ sz = 4 \/ sz = 8 ->
  Rma.heap_base e = base -> 0 <= base -> 0 <= rptr - base < 2 ^ 40 -> rptr < 2 ^ 64 ->
  0 <= pe < 2 ^ 16 -> - 2 ^ 31 <= qp < 2 ^ 31 ->
  process_channel_inline h tr s ch =
    (t ← arr_get (transport_id s) pe;
     '(rh, roff, _) ← Rma.nvshmemi_get_remote_mem_handle e rptr pe t;
     _ ← tcurr_of h s pe;
     tr ← Rma.call e tr (Rma.EvRma pe {| Rma.desc := NVSHMEMI_OP_P; Rma.is_nbi := 0; Rma.is_stream := 0 |}
            {| Rma.ptr := u64 (Rma.remote_pe_base e pe + (rptr - base));
               Rma.offset := roff; Rma.handle := Some rh |}
            {| Rma.ptr := wrap (8 * sz) v; Rma.offset := 0; Rma.handle := None |}
            {| Rma.nelems := 1; Rma.elembytes := sz; Rma.srcstride := 0; Rma.deststride := 0 |} qp);
     Ret (tr, proxy_update_processed ch (iss_size r) false, true)).
Proof.
  intros r Hr Hrail Hsz Hb Hb0 Hro Hrp Hpe Hqp.
  pose proof (rma_p_ring base sz rptr v pe qp) as R. fold r in R.
  destruct (inline_value v sz Hsz) as (Hv & Hv64 & Hv32).
  destruct (remote_ptr_back base rptr Hb0 Hro Hrp) as [Hback0 Hback].
  destruct (qp_op_decode NVSHMEMI_OP_P qp ltac:(unfold NVSHMEMI_OP_P; lia)) as (Ho & _ & Hop2).
  set (o := qp_op NVSHMEMI_OP_P qp) in *.
  destruct (inline_words base sz rptr v pe qp Hsz Hback0 Hpe) as (c0 & c1 & c2 & l & Ew & El & Hsize).
  fold r in Ew, Hsize. fold o in Ew.
  pose proof (fun k w => request_wait r k w R Hr) as Hw.
  unfold process_channel_inline. cbv zeta. rewrite Ew in Hw.
  rewrite (request_base r (base_word (rptr - base) o 1 (lap_flag (processed ch))) Hr);
    [|by rewrite Ew|rewrite Hsize; destruct (bool_decide (qp <> NVSHMEMX_QP_DEFAULT)); reflexivity].
  read_entry Hw 1%nat 8.
  read_entry Hw 2%nat 16.
  rewrite !outcome_bind_ret, !(base_word_op _ o), (base_word_roffset _ o) by lia.
  rewrite Hb, Hback, !Hop2.
  unfold put_inline_request_0_of, put_inline_request_1_of; cbn [pi0_pe lvalue_low pi1_size lvalue_high].
  destruct (low_word_fields (wrap (8 * sz) v) pe 0 c0) as (F1 & F2 & _); [lia..|].
  destruct (high_word_fields (wrap (8 * sz) v) sz 0 c1) as (F3 & F4 & _); [lia..|].
  rewrite F1, F2, F3, F4, join_words, field_full by (rewrite <- Hv; lia).
  assert ((if bool_decide (sz = 8) then wrap (8 * sz) v else field (wrap (8 * sz) v) 0 32) =
          wrap (8 * sz) v) as ->.
  { destruct (bool_decide_reflect (sz = 8)); [done|]. apply field_full. rewrite <- Hv. lia. }
  rewrite <- Hsize, (read_qp qp c2) by (done || (intros Hq; rewrite (El Hq) in Hw; exact (Hw 3%nat _ eq_refl))).
  rewrite outcome_bind_ret. unfold Rma.NVSHMEMU_UNMAPPED_PTR_PE_TRANSLATE. rewrite Hrail, Hb. reflexivity.
Qed.
(** ** Atomics *)
Lemma land_ones_id x n : 0 <= n -> 0 <= x < 2 ^ n -> Z.land x (Z.ones n) = x.
Proof. intros. rewrite Z.land_ones by lia. by apply Z.mod_small. Qed.

Lemma land_flag_mask c : Z.land (lap_flag c) mask_lowest_byte = 0.
Proof. unfold lap_flag. case_bool_decide; reflexivity. Qed.

(** The compare operand: upper seven bytes in one entry, low byte in another. *)
Lemma compare_join v c x : v ∈u 64 -> x = field v 0 8 ->
  Z.lor (Z.land (addr_word v c) mask_lowest_byte) x = v.
Proof.
  intros Hv ->. unfold addr_word. rewrite Z.land_lor_distr_l, land_flag_mask, Z.lor_0_r.
  rewrite <- Z.land_assoc, Z.land_diag.
  unfold field. rewrite Z.shiftr_0_r, <- Z.land_ones by lia. rewrite <- Z.land_lor_distr_r.
  change (Z.lor mask_lowest_byte (Z.ones 8)) with (Z.ones 64). by apply land_ones_id.
Qed.

(** The slot counter of the fetch buffer. *)
Definition counter_word (g c : Z) : Z :=
  Z.lor (u64 (Z.shiftl (Z.land g (Z.ones 56)) 8)) (lap_flag c).
Lemma counter_back g c : 0 <= g < 2 ^ 56 ->
  Z.shiftr (Z.land (counter_word g c) mask_lowest_byte) 8 = g.
Proof.
  intros Hg. unfold counter_word. rewrite land_ones_id by lia.
  rewrite Z.land_lor_distr_l, land_flag_mask, Z.lor_0_r, Z.shiftr_land.
  rewrite wrap_small by (unfold in_u; rewrite Z.shiftl_mul_pow2 by lia; lia).
  rewrite Z.shiftr_shiftl_l, Z.shiftl_0_r by lia. by apply (land_ones_id g 56).
Qed.

Lemma low_byte_field v : Z.land v mask_upper_7_bytes = field v 0 8.
Proof. unfold field. by rewrite mask_upper_eq, Z.shiftr_0_r, Z.land_ones by lia. Qed.

(** The words of an atomic, and its size. *)
Lemma amo_words base junk sz rptr g sw cp pe op qp :
  sz = 1 \/ sz = 2 \/ sz = 4 \/ sz = 8 -> u64 (rptr - base) = rptr - base ->
  0 <= pe < 2 ^ 16 -> 0 <= op < 256 ->
  let r := amo (dev base) junk sz rptr g sw cp pe op qp in
  exists c0 c1 c2 c3 c4 l, snd <$> iss_stores r (processed ch) =
    base_word (rptr - base) (qp_op NVSHMEMI_OP_AMO qp) 1 (lap_flag (processed ch)) ::
    low_word (wrap (8 * sz) sw) pe op c0 ::
    high_word (wrap (8 * sz) sw) sz (field (wrap (8 * sz) cp) 0 8) c1 ::
    addr_word (wrap (8 * sz) cp) c2 :: counter_word g c3 :: l /\
    (qp <> NVSHMEMX_QP_DEFAULT -> l = [qp_word qp c4]) /\
    iss_size r = if bool_decide (qp <> NVSHMEMX_QP_DEFAULT)
                 then PROXY_AMO_REQ_BYTES + CHANNEL_ENTRY_BYTES else PROXY_AMO_REQ_BYTES.
Proof.
  intros Hsz Hback0 Hpe Hop r.
  assert (forall v, convert_val_to_uint64 junk v sz = wrap (8 * sz) v) as Hconv
    by (intros; destruct Hsz as [-> | [-> | [-> | ->]]]; reflexivity).
  exists (next (processed ch)), (next (next (processed ch))), (next (next (next (processed ch)))),
    (next (next (next (next (processed ch))))), (next (next (next (next (next (processed ch)))))).
  subst r. unfold amo, qp_op, low_word, high_word, addr_word, counter_word.
  rewrite <- low_byte_field, mask_lowest_eq, mask_upper_eq.
  destruct (bool_decide_reflect (qp <> NVSHMEMX_QP_DEFAULT));
    cbn [iss_stores iss_size fmap list_fmap snd heap_base dev];
    rewrite !curr_flag_dev, Hback0, !Hconv, u16_id, (wrap_small 64 op) by (done || unfold in_u; lia);
    autorewrite with nvmask; (eexists; split; [reflexivity|split; [done|reflexivity]]).
Qed.

(** An atomic ([amo]: fetching or not, compare-and-swap included) of a 1, 2,
    4 or 8 byte operand reaches the transport as it was issued: operation,
    operand, compare value, remote address, peer and queue pair are those the
    device encoded, and a fetching atomic's result is directed to the slot of
    the fetch buffer that the device's counter names. *)
Theorem amo_roundtrip tr base junk sz rptr g sw cp pe op qp :
  let r := amo (dev base) junk sz rptr g sw cp pe op qp in
  request_at r -> sz = 1 \/ sz = 2 \/ sz = 4 \/ sz = 8 ->
  Rma.heap_base e = base -> 0 <= base -> 0 <= rptr - base < 2 ^ 40 -> rptr < 2 ^ 64 ->
  0 <= pe < 2 ^ 16 -> 0 <= op < 256 -> 0 <= g < 2 ^ 56 -> - 2 ^ 31 <= qp < 2 ^ 31 ->
  process_channel_amo h tr s ch =
    (t ← arr_get (transport_id s) pe;
     '(rh, roff, _) ← Rma.nvshmemi_get_remote_mem_handle e rptr pe t;
     '(retptr, retflag, ret_handle) ←
       (if bool_decide (op > NVSHMEMI_AMO_END_OF_NONFETCH) then
          let retptr := u64 (proxy_channel_g_buf h +
                             Z.land (u64 (g * 16)) (proxy_channel_g_buf_size h - 1)) in
          lh ← Rma.nvshmemi_get_local_mem_handle_null e retptr t;
          Ret (retptr, u64 (Z.shiftr (u64 (g * 16)) (proxy_channel_g_buf_log_size h) * 2 + 1), Some lh)
        else Ret (0, 0, None));
     _ ← tcurr_of h s pe;
     tr ← Rma.call e tr (Rma.EvAmo pe op
            {| Rma.remote_memdesc := {| Rma.ptr := u64 (Rma.remote_pe_base e pe + (rptr - base));
                                        Rma.offset := roff; Rma.handle := Some rh |};
               Rma.retflag := retflag; Rma.retptr := retptr; Rma.val := wrap (8 * sz) sw;
               Rma.cmp := if bool_decide (op = NVSHMEMI_AMO_COMPARE_SWAP) then wrap (8 * sz) cp else 0;
               Rma.ret_handle := ret_handle |} sz qp);
     Ret (tr, proxy_update_processed ch (iss_size r) false, true,
          if bool_decide (op > NVSHMEMI_AMO_END_OF_NONFETCH) && atomics_complete_on_quiet h
          then 1 else issued_get s)).
Proof.
  intros r Hr Hsz Hb Hb0 Hro Hrp Hpe Hop Hg Hqp.
  pose proof (amo_ring base junk sz rptr g sw cp pe op qp) as R. fold r in R.
  assert (forall v, wrap (8 * sz) v ∈u 64) as H64.
  { intros v. pose proof (wrap_in_u (8 * sz) v ltac:(lia)) as Hw. unfold in_u in *.
    destruct Hsz as [-> | [-> | [-> | ->]]]; cbn [Z.mul Pos.mul] in *; lia. }
  destruct (remote_ptr_back base rptr Hb0 Hro Hrp) as [Hback0 Hback].
  destruct (qp_op_decode NVSHMEMI_OP_AMO qp ltac:(unfold NVSHMEMI_OP_AMO; lia)) as (Ho & _ & Hop2).
  set (o := qp_op NVSHMEMI_OP_AMO qp) in *.
  destruct (amo_words base junk sz rptr g sw cp pe op qp Hsz Hback0 Hpe Hop)
    as (c0 & c1 & c2 & c3 & c4 & l & Ew & El & Hsize). fold r in Ew, Hsize. fold o in Ew.
  pose proof (fun k w => request_wait r k w R Hr) as Hw.
  unfold process_channel_amo. cbv zeta. rewrite Ew in Hw.
  rewrite (request_base r (base_word (rptr - base) o 1 (lap_flag (processed ch))) Hr);
    [|by rewrite Ew|rewrite Hsize; destruct (bool_decide (qp <> NVSHMEMX_QP_DEFAULT)); reflexivity].
  read_entry Hw 1%nat 8.
  read_entry Hw 2%nat 16.
  read_entry Hw 3%nat 24.
  read_entry Hw 4%nat 32.
  rewrite !outcome_bind_ret, !(base_word_op _ o), (base_word_roffset _ o) by lia.
  rewrite Hb, Hback, !Hop2, <- Hsize.
  rewrite (read_qp qp c4) by (done || (intros Hq; rewrite (El Hq) in Hw; exact (Hw 5%nat _ eq_refl))).
  rewrite outcome_bind_ret.
  unfold amo_request_0_of, amo_request_1_of;
    cbn [am0_pe am0_amo swap_add_low am1_size compare_low swap_add_high].
  pose proof (field_range (wrap (8 * sz) cp) 0 8 ltac:(lia)).
  destruct (low_word_fields (wrap (8 * sz) sw) pe op c0) as (F1 & F2 & F3); [lia..|].
  destruct (high_word_fields (wrap (8 * sz) sw) sz (field (wrap (8 * sz) cp) 0 8) c1) as (F4 & F5 & F6);
    [lia..|].
  rewrite F1, F2, F3, F4, F5, F6, join_words, field_full by apply H64.
  change 0xFFFFFFFFFFFFFF00 with mask_lowest_byte.
  rewrite compare_join, counter_back by done. reflexivity.
Qed.
(** ** Queue-pair requests *)
Lemma wait_entries_words l : forall c,
  (forall k w, l !! k = Some w -> wait_entry s ch (u64 (c + 8 * Z.of_nat k)) = Ret w) ->
  wait_entries s ch (u64 c) (length l) = Ret l.
Proof.
  induction l as [|w l IH]; intros c H; [done|]. cbn [wait_entries length].
  pose proof (H O w eq_refl) as H0. rewrite Z.add_0_r in H0. rewrite H0, outcome_bind_ret.
  assert (u64 (u64 c + 8) = u64 (c + 8)) as -> by (unfold wrap; by rewrite Zplus_mod_idemp_l).
  rewrite IH; [done|]. intros k w' Hk. rewrite <- (H (S k) w' Hk). f_equal. f_equal. lia.
Qed.

(** Both kinds: the host waits for one entry per queue pair. *)
Lemma qp_request_wait r n op body :
  ring_producer r -> request_at r -> 0 < iss_size r ->
  iss_stores r (processed ch) = (slot_state (dev 0) (processed ch),
    qp_sync_base_word (Z.of_nat n) op (lap_flag (processed ch))) :: body ->
  length body = n -> Z.of_nat n < 2 ^ 31 -> 0 <= op < 256 ->
  s32 (qp_count (qp_sync_base_request_of (load s ch (processed ch)))) = Z.of_nat n /\
  wait_entries s ch (u64 (processed ch + 8)) n = Ret (snd <$> body).
Proof.
  intros R Hr H0 Est Hl Hn Hop. split.
  - rewrite (request_base r _ Hr ltac:(rewrite Est; reflexivity) H0). cbn [snd].
    unfold qp_sync_base_request_of, qp_sync_base_word; cbn [qp_count]. fields.
    rewrite (field_byte op), Z.lor_0_r, field_full by lia.
    unfold s32. rewrite wrap_small by (unfold in_u; lia). by rewrite bool_decide_eq_true_2 by lia.
  - rewrite <- Hl, <- (length_fmap snd body). apply wait_entries_words. intros k w Hk.
    rewrite <- (request_wait r (S k) w R Hr).
    + f_equal. f_equal. lia.
    + by rewrite Est.
Qed.

Definition for_each_qp (f : Z -> Rma.trace -> Z -> outcome Rma.trace) (pe : Z) (qps : list Z) :=
  for_each (fun tr qp => for_each (f qp) (qp_pes h pe) tr) qps.

Definition qp_ok (q : Z) : Prop := - 2 ^ 31 <= q < 2 ^ 31.

Lemma quiet_entry_decode qp pe c tr : 0 <= pe < 2 ^ 16 -> qp_ok qp ->
  qp_quiet_entry h s tr
    (Z.lor (Z.lor (Z.lor (u64 (Z.shiftl (u64 qp) 32)) (u64 (Z.shiftl pe 16)))
                  (u64 (Z.shiftl NVSHMEMI_OP_QUIET_QP 8))) (lap_flag c)) =
  for_each (qp_quiet_pe h s qp) (qp_pes h pe) tr.
Proof.
  intros Hpe Hq. unfold qp_quiet_entry, qp_sync_request_0_of; cbn [qs0_pe qs0_qp_index].
  fields. change (field NVSHMEMI_OP_QUIET_QP (16 - 8) 16) with 0.
  change (field NVSHMEMI_OP_QUIET_QP (32 - 8) 32) with 0. change (32 - 16) with 16.
  by rewrite (field_above pe 16 32), ?Z.lor_0_r, (field_full pe), s32_low by (lia || done).
Qed.

Lemma quiet_entries_decode base pe qps : 0 <= pe < 2 ^ 16 -> Forall qp_ok qps ->
  forall idx tr,
  for_each (qp_quiet_entry h s) (snd <$> quiet_qp_entries (dev base) idx pe NVSHMEMI_OP_QUIET_QP qps) tr =
  for_each_qp (qp_quiet_pe h s) pe qps tr.
Proof.
  intros Hpe HF. unfold for_each_qp. induction qps as [|qp qps IH]; intros idx tr; [done|].
  apply Forall_cons in HF as [Hq HF]. cbn [quiet_qp_entries fmap list_fmap for_each snd].
  rewrite curr_flag_dev, quiet_entry_decode by done.
  destruct (for_each _ _ tr) as [tr'|f]; [|done]. apply (IH HF).
Qed.

Lemma fence_entry_decode qp pe c m tr : 0 <= pe < 256 -> qp_ok qp ->
  qp_fence_entry h s m tr
    (Z.lor (Z.lor (Z.lor (u64 (Z.shiftl (u64 qp) 32)) (u64 (Z.shiftl NVSHMEMI_OP_FENCE_QP 16)))
                  (u64 (Z.shiftl (u64 pe) 8))) (lap_flag c)) =
  for_each (qp_fence_pe h s qp m) (qp_pes h NVSHMEMI_OP_FENCE_QP) tr.
Proof.
  intros Hpe Hq. unfold qp_fence_entry, qp_sync_request_0_of; cbn [qs0_pe qs0_qp_index].
  rewrite (wrap_small 64 pe) by (unfold in_u; lia).
  fields. rewrite !(field_byte pe) by lia.
  change (field NVSHMEMI_OP_FENCE_QP 0 16) with NVSHMEMI_OP_FENCE_QP.
  change (field NVSHMEMI_OP_FENCE_QP (32 - 16) 32) with 0.
  by rewrite ?Z.lor_0_r, s32_low by done.
Qed.

Lemma fence_entries_decode base pe qps m : 0 <= pe < 256 -> Forall qp_ok qps ->
  forall idx tr,
  for_each (qp_fence_entry h s m) (snd <$> fence_qp_entries (dev base) idx pe NVSHMEMI_OP_FENCE_QP qps) tr =
  for_each_qp (fun qp => qp_fence_pe h s qp m) NVSHMEMI_OP_FENCE_QP qps tr.
Proof.
  intros Hpe HF. unfold for_each_qp. induction qps as [|qp qps IH]; intros idx tr; [done|].
  apply Forall_cons in HF as [Hq HF]. cbn [fence_qp_entries fmap list_fmap for_each snd].
  rewrite curr_flag_dev, fence_entry_decode by done.
  destruct (for_each _ _ tr) as [tr'|f]; [|done]. apply (IH HF).
Qed.

(** A quiet on queue pairs ([proxy_qp_quiet]) reaches the transport as it
    was issued: one quiet per queue pair named, on the PE named (or on every
    PE), then the consistency operation if a get is pending; and it is
    acknowledged at once through [complete]. *)
Theorem qp_quiet_roundtrip tr base pe qps :
  let r := proxy_qp_quiet (dev base) pe qps in
  request_at r -> 0 <= pe < 2 ^ 16 -> Forall qp_ok qps -> Z.of_nat (length qps) < 2 ^ 31 ->
  process_channel_qp_quiet h tr s ch =
    (tr ← for_each_qp (qp_quiet_pe h s) pe qps tr;
     tr ← (if bool_decide (issued_get s = 0) then Ret tr else enforce_cst h tr s);
     Ret (tr, proxy_update_processed ch (iss_size r) true)).
Proof.
  intros r Hr Hpe HF Hn. pose proof (qp_quiet_ring base pe qps Hn) as R.
  unfold process_channel_qp_quiet. cbv zeta.
  destruct (qp_request_wait r (length qps) NVSHMEMI_OP_QUIET_QP
              (quiet_qp_entries (dev base) (processed ch) (u16 pe) NVSHMEMI_OP_QUIET_QP qps))
    as [-> HW]; auto.
  { cbn. unfold CHANNEL_ENTRY_BYTES. lia. }
  { apply quiet_qp_entries_stores. }
  { vm_compute. split; congruence. }
  rewrite Nat2Z.id, HW, outcome_bind_ret, u16_id, quiet_entries_decode by done. reflexivity.
Qed.

(** A defect: [proxy_fence_qp] writes the operation code where the host
    reads the PE, so a fence for any PE below 256 fences PE 106
    ([NVSHMEMI_OP_FENCE_QP]) instead. *)
Theorem qp_fence_misdirected tr base pe qps :
  let r := proxy_fence_qp (dev base) pe qps in
  request_at r -> 0 <= pe < 256 -> Forall qp_ok qps -> Z.of_nat (length qps) < 2 ^ 31 ->
  process_channel_qp_fence h tr s ch =
    (tr ← for_each_qp (fun qp => qp_fence_pe h s qp (if bool_decide (Z.of_nat (length qps) > 1) then 1 else 0))
            106 qps tr;
     Ret (tr, proxy_update_processed ch (iss_size r) false)).
Proof.
  intros r Hr Hpe HF Hn. pose proof (fence_qp_ring base pe qps Hn) as R.
  unfold process_channel_qp_fence. cbv zeta.
  destruct (qp_request_wait r (length qps) NVSHMEMI_OP_FENCE_QP
              (fence_qp_entries (dev base) (processed ch) pe NVSHMEMI_OP_FENCE_QP qps))
    as [-> HW]; auto.
  { cbn. unfold CHANNEL_ENTRY_BYTES. lia. }
  { apply fence_qp_entries_stores. }
  { vm_compute. split; congruence. }
  rewrite Nat2Z.id, HW, outcome_bind_ret, fence_entries_decode by done. reflexivity.
Qed.
End Roundtrip.

(** ** Concrete runs

    Two PEs on two nodes, one transport; the channel holds one request at
    counter 4096, written by the device. *)
Definition pair_transport : transport_info := {|
  has_fence := true; has_quiet := true; has_enforce_cst := true; has_progress := true;
  attr_connected := true; is_ibgda := false; cpu_capable := [true; true]
|}.
Definition pair_host : host := {|
  henv := {| Rma.npes := 2; Rma.mype := 0; Rma.npes_node := 1; Rma.mype_node := 0;
             Rma.enable_rail_opt := false; Rma.heap_base := 65536; Rma.heap_size := 1048576;
             Rma.remote_pe_base := fun pe => (pe + 1) * 16777216; Rma.max_op_len := fun _ => 4096;
             Rma.op_status := fun _ _ => 0 |};
  transports := [pair_transport]; state_transport_bitmap := 1; BYPASS_FLUSH := false;
  flush_available := false; PROXY_REQUEST_BATCH_MAX := 32; atomics_complete_on_quiet := false;
  proxy_channel_g_buf := 131072; proxy_channel_g_buf_size := 262144;
  proxy_channel_g_buf_log_size := 18
|}.
Definition pair_state : proxy_state :=
  match nvshmemi_proxy_init pair_host false 0 with
  | Ret s => s
  | Fail _ => MkState [] [] 0 0 0 0 0 [] 0 false 0 0 0 0
  end.
Definition chan_with (r : issued) : proxy_channel :=
  foldr do_store (MkChannel ∅ 4096 0 0 0 0 0 0 4096 4096 None) (iss_stores r 4096).

Ltac request_at_tac :=
  split; [split; reflexivity|vm_compute; discriminate|vm_compute; reflexivity|];
  intros k w Hk;
  repeat (destruct k as [|k];
          [vm_compute in Hk; injection Hk as <-; vm_compute; reflexivity|]);
  vm_compute in Hk; discriminate Hk.

Definition demo_put : issued := transfer_dma (dev 65536) 66000 70000 100 1 NVSHMEMI_OP_PUT 1.

Lemma dma_roundtrip_witness :
  process_channel_dma (MH := Rma.demo_handles) pair_host [] pair_state (chan_with demo_put) =
  Ret ([Rma.EvRma 1 {| Rma.desc := NVSHMEMI_OP_PUT; Rma.is_nbi := 1; Rma.is_stream := 0 |}
          {| Rma.ptr := 33554432 + 464; Rma.offset := 66000 mod 4096; Rma.handle := Some 1 |}
          {| Rma.ptr := 70000; Rma.offset := 0; Rma.handle := Some 0 |} (Rma.byte_chunk 100) 1],
       proxy_update_processed (chan_with demo_put) 32 false, true).
Proof.
  rewrite (dma_roundtrip (MH := Rma.demo_handles) pair_host pair_state (chan_with demo_put) []
             65536 66000 70000 100 1 NVSHMEMI_OP_PUT 1);
    [vm_compute; reflexivity|request_at_tac|set_solver|reflexivity|lia..| |lia|lia|lia].
  unfold in_u. lia.
Defined.

Definition demo_put_signal : issued :=
  nvshmemi_proxy_put_signal_nbi (dev 65536) 66000 70000 100 1 NVSHMEMI_OP_PUT_SIGNAL 65536 7 9 1.

(** The signal an outcome ends with: peer, value and remote address. *)
Definition last_signal (o : outcome (Rma.trace * proxy_channel * bool)) : option (Z * Z * Z) :=
  match o with
  | Ret ([Rma.EvPutSignal pe _ _ _ _ _ sig _ _], _, _) =>
      Some (pe, Rma.val sig, Rma.ptr (Rma.remote_memdesc sig))
  | _ => None
  end.

Lemma put_signal_roundtrip_witness :
  last_signal (process_channel_put_signal (MH := Rma.demo_handles) pair_host [] pair_state
                 (chan_with demo_put_signal)) = Some (1, 7, 33554432).
Proof.
  rewrite (put_signal_roundtrip (MH := Rma.demo_handles) pair_host pair_state (chan_with demo_put_signal)
             [] 65536 66000 70000 100 1 65536 7 9 1);
    [vm_compute; reflexivity|request_at_tac|reflexivity|reflexivity|lia..| | | | | |].
  all: try lia; unfold in_u; lia.
Defined.

Definition demo_p : issued := nvshmemi_proxy_rma_p (dev 65536) 4 66000 77 1 3.

Lemma inline_roundtrip_witness :
  process_channel_inline (MH := Rma.demo_handles) pair_host [] pair_state (chan_with demo_p) =
  Ret ([Rma.EvRma 1 {| Rma.desc := NVSHMEMI_OP_P; Rma.is_nbi := 0; Rma.is_stream := 0 |}
          {| Rma.ptr := 33554432 + 464; Rma.offset := 66000 mod 4096; Rma.handle := Some 1 |}
          {| Rma.ptr := 77; Rma.offset := 0; Rma.handle := None |}
          {| Rma.nelems := 1; Rma.elembytes := 4; Rma.srcstride := 0; Rma.deststride := 0 |} 3],
       proxy_update_processed (chan_with demo_p) 32 false, true).
Proof.
  rewrite (inline_roundtrip (MH := Rma.demo_handles) pair_host pair_state (chan_with demo_p) []
             65536 4 66000 77 1 3);
    [vm_compute; reflexivity|request_at_tac|reflexivity|lia|reflexivity|lia..].
Defined.

Definition demo_cas : issued := amo (dev 65536) 0 8 66000 5 42 41 1 NVSHMEMI_AMO_COMPARE_SWAP 1.

Lemma amo_roundtrip_witness :
  match process_channel_amo (MH := Rma.demo_handles) pair_host [] pair_state (chan_with demo_cas) with
  | Ret ([Rma.EvAmo pe op m sz qp], _, _, _) =>
      (pe, op, sz, qp) = (1, NVSHMEMI_AMO_COMPARE_SWAP, 8, 1) /\
      (Rma.val m, Rma.cmp m, Rma.retptr m, Rma.retflag m) = (42, 41, 131072 + 80, 1)
  | _ => False
  end.
Proof.
  rewrite (amo_roundtrip (MH := Rma.demo_handles) pair_host pair_state (chan_with demo_cas) []
             65536 0 8 66000 5 42 41 1 NVSHMEMI_AMO_COMPARE_SWAP 1);
    [vm_compute; split; reflexivity|request_at_tac|lia|reflexivity|lia..| |lia|lia].
  unfold NVSHMEMI_AMO_COMPARE_SWAP. lia.
Defined.

Definition demo_qp_quiet : issued := proxy_qp_quiet (dev 65536) 1 [4; 5].

Lemma qp_quiet_roundtrip_witness :
  process_channel_qp_quiet pair_host [] pair_state (chan_with demo_qp_quiet) =
  Ret ([Rma.EvQuiet 1 4; Rma.EvQuiet 1 5], proxy_update_processed (chan_with demo_qp_quiet) 24 true).
Proof.
  rewrite (qp_quiet_roundtrip pair_host pair_state (chan_with demo_qp_quiet) [] 65536 1 [4; 5]);
    [vm_compute; reflexivity|request_at_tac|lia| |cbn; lia].
  repeat constructor; unfold qp_ok; lia.
Defined.

Definition demo_qp_fence : issued := proxy_fence_qp (dev 65536) 1 [4].

(** With two PEs, a fence for PE 1 makes the host index its table of transports
    out of range. *)
Lemma qp_fence_misdirected_witness :
  process_channel_qp_fence pair_host [] pair_state (chan_with demo_qp_fence) = Fail FUndef.
Proof.
  rewrite (qp_fence_misdirected pair_host pair_state (chan_with demo_qp_fence) [] 65536 1 [4]);
    [vm_compute; reflexivity|request_at_tac|lia| |cbn; lia].
  repeat constructor; unfold qp_ok; lia.
Defined.
