(* ===== verification/ProxyQuiet.v ===== *)
(** * Quiet: when the host acknowledges, and that it does

    The state machine of [progress_quiet] (inactive, in progress, done) over
    the channels' [quiet_issue], [last_quiet_issue] and [quiet_ack] counters.
    Safety: an acknowledgement covers only requests the host has processed, and
    follows a quiet on the connection of every connected PE (and the
    consistency operation if a get was issued).  Progress: a pending quiet
    whose requests are processed is acknowledged by the next call, or by the
    second one when an earlier quiet is in progress. *)
From stdpp Require Import base gmap list.
From Stdlib Require Import ZArith Lia.
From S2P Require Import Prelude ProxyChannel Rma ProxyHost ProxyRoundtrip.
Import Channel Host.

Module Quiet.
Section Quiet.
Context (h : host).
#[local] Abbreviation e := (henv h).

(** ** Loops that only append events *)
Lemma arr_get_inv {A} (l : list A) i x :
  arr_get l i = Ret x <-> 0 <= i /\ l !! Z.to_nat i = Some x.
Proof.
  unfold arr_get. case_bool_decide; [split; [done|lia]|].
  destruct (l !! Z.to_nat i); split; [intros [= ->]; split; [lia|done]|by intros [_ [= ->]]|done|].
  by intros [_ ?].
Qed.



Lemma for_each_total {A} (g : Rma.trace -> A -> outcome Rma.trace) l :
  (forall tr x, x ∈ l -> exists tr', g tr x = Ret tr') -> forall tr, exists tr', for_each g l tr = Ret tr'.
Proof.
  induction l as [|x l IH]; intros Hg tr; [eauto|]. cbn.
  destruct (Hg tr x ltac:(left)) as [tr1 ->]. rewrite outcome_bind_ret. apply IH.
  intros. apply Hg. by right.
Qed.


(** The transports that have the consistency operation and a connection, with
    their indices. *)
Definition cst_capable (ti : Z * transport_info) : bool :=
  Z.testbit (state_transport_bitmap h) ti.1 && has_enforce_cst ti.2 && attr_connected ti.2.
(** The consistency operations due after a get: none when they are bypassed; the
    flush of CUDA where it is supported, unless the device orders the writes
    itself; otherwise one operation per capable transport. *)
Definition cst_events (s : proxy_state) : list Rma.event :=
  if BYPASS_FLUSH h then []
  else if is_consistency_api_supported s then
    if bool_decide (gdr_device_native_ordering s < CU_FLUSH_GPU_DIRECT_RDMA_WRITES_TO_OWNER) && flush_available h
    then [Rma.EvFlush] else []
  else (fun ti => Rma.EvEnforceCst ti.1) <$> filter cst_capable (indexed_transports h).





(** ** Safety *)

(** The two transitions before the acknowledgement change no channel but for
    [last_quiet_issue]. *)
Lemma quiet_start_frame s :
  transport (quiet_start s) = transport s /\
  (issued_get (quiet_start s) = issued_get s /\ cst_events (quiet_start s) = cst_events s) /\
  quiet_ack <$> channels (quiet_start s) = quiet_ack <$> channels s /\
  processed <$> channels (quiet_start s) = processed <$> channels s.
Proof.
  unfold quiet_start. case_bool_decide; [|done]. cbn.
  assert (forall {B} (f : proxy_channel -> B), (forall ch, f (latch_quiet ch) = f ch) ->
            f <$> (latch_quiet <$> channels s) = f <$> channels s) as Hf.
  { intros B f Hl. rewrite <- list_fmap_compose. apply list_fmap_ext. intros i ch _. apply Hl. }
  destruct (existsb _ _); cbn; split; [done|split; [done|]|done|split; [done|]];
    split; apply Hf; intros; unfold latch_quiet; by destruct (quiet_pending _).
Qed.





(** ** Progress *)

(** Every entry of the proxy's transport table is usable. *)
Definition transports_ok (s : proxy_state) : Prop :=
  length (transport s) = Z.to_nat (Rma.npes e) /\
  forall i j, transport s !! i = Some (Some j) ->
    exists ti, arr_get (transports h) j = Ret ti /\ has_quiet ti = true.

Lemma quiet_peers_total s : (forall tr ev, Rma.op_status e tr ev = 0) -> transports_ok s ->
  forall tr, exists tr', for_each (quiet_peer h s) (pes (Rma.npes e)) tr = Ret tr'.
Proof.
  intros Hst [Hl Ht] tr. apply for_each_total. intros tr0 i Hi.
  unfold pes in Hi. apply elem_of_seqZ in Hi. unfold quiet_peer.
  destruct (lookup_lt_is_Some_2 (transport s) (Z.to_nat i)) as [t Hti]; [lia|].
  assert (arr_get (transport s) i = Ret t) as -> by (apply arr_get_inv; split; [lia|done]).
  rewrite outcome_bind_ret. destruct t as [j|]; [|eauto].
  destruct (Ht _ _ Hti) as (ti & -> & Hq). rewrite outcome_bind_ret, Hq. unfold Rma.call.
  rewrite Hst. eauto.
Qed.

Lemma enforce_cst_total s tr : (forall tr ev, Rma.op_status e tr ev = 0) ->
  exists tr', enforce_cst h tr s = Ret tr'.
Proof.
  intros Hst. assert (forall tr ev, exists tr', Rma.call e tr ev = Ret tr') as Hc
    by (intros; unfold Rma.call; rewrite Hst; eauto).
  unfold enforce_cst. destruct (BYPASS_FLUSH h); [eauto|].
  destruct (is_consistency_api_supported s); [destruct (_ && _); eauto|].
  apply for_each_total. intros tr0 [i t] _. unfold cst_transport. repeat case_match; eauto.
Qed.

(** A call that finds or starts a quiet in progress, with all requests processed,
    acknowledges what was latched. *)
Lemma quiet_ends tr s :
  (forall tr ev, Rma.op_status e tr ev = 0) -> transports_ok s ->
  quiet_in_progress (quiet_start s) = PROXY_QUIET_STATUS_CHANNELS_IN_PROGRESS ->
  Forall (fun ch => last_quiet_issue ch <= processed ch) (channels (quiet_start s)) ->
  exists tr' s', progress_quiet h tr s = Ret (tr', s') /\ quiet_in_progress s' = PROXY_QUIET_STATUS_CHANNELS_INACTIVE /\
    transports_ok s' /\ channels s' = ack_quiet <$> channels (quiet_start s).
Proof.
  intros Hst Ht Hp Hall. destruct (quiet_start_frame s) as (F1 & _). unfold progress_quiet. set (s1 := quiet_start s) in *.
  assert (quiet_advance s1 = set_quiet_in_progress PROXY_QUIET_STATUS_CHANNELS_DONE s1) as ->.
  { unfold quiet_advance. rewrite bool_decide_eq_true_2 by done.
    assert (quiet_channels_test s1 = true) as ->; [|done].
    unfold quiet_channels_test. apply forallb_forall. intros ch Hin. apply list_elem_of_In in Hin.
    rewrite Forall_forall in Hall. specialize (Hall ch Hin).
    rewrite negb_true_iff. apply bool_decide_eq_false_2. lia. }
  set (s2 := set_quiet_in_progress _ s1). rewrite bool_decide_eq_true_2 by done.
  assert (Ht2 : transports_ok s2) by (unfold transports_ok; change (transport s2) with (transport s1); by rewrite F1).
  destruct (quiet_peers_total s2 Hst Ht2 tr) as [tr1 ->]. rewrite outcome_bind_ret.
  assert (exists tr2 s3, (if bool_decide (issued_get s2 = 0) then Ret (tr1, s2)
            else tr ← enforce_cst h tr1 s2; Ret (tr, set_issued_get 0 s2)) = Ret (tr2, s3) /\
            channels s3 = channels s1 /\ transport s3 = transport s1) as (tr2 & s3 & -> & Hc & Htr).
  { case_bool_decide; [eexists _, _; split; [reflexivity|done]|].
    destruct (enforce_cst_total s2 tr1 Hst) as [tr2 ->]. rewrite outcome_bind_ret.
    eexists _, _. split; [reflexivity|done]. }
  rewrite outcome_bind_ret. eexists _, _. split; [reflexivity|]. split; [done|]. split; [|cbn; by rewrite Hc].
  unfold transports_ok in *. cbn [transport set_quiet_in_progress quiet_ack_channels set_channels]. rewrite Htr. exact Ht2.
Qed.

Lemma quiet_start_inactive s :
  quiet_in_progress s = PROXY_QUIET_STATUS_CHANNELS_INACTIVE ->
  channels (quiet_start s) = latch_quiet <$> channels s /\
  quiet_in_progress (quiet_start s) = if existsb quiet_pending (channels s) then PROXY_QUIET_STATUS_CHANNELS_IN_PROGRESS
                                      else PROXY_QUIET_STATUS_CHANNELS_INACTIVE.
Proof.
  intros Hi. unfold quiet_start. rewrite bool_decide_eq_true_2 by done. cbn. destruct (existsb _ _); [done|]. split; [done|exact Hi].
Qed.

Lemma latch_processed ch :
  quiet_issue ch <= processed ch -> last_quiet_issue ch <= processed ch ->
  last_quiet_issue (latch_quiet ch) <= processed (latch_quiet ch) /\ quiet_issue ch <= last_quiet_issue (latch_quiet ch) /\
  last_quiet_issue ch <= last_quiet_issue (latch_quiet ch) /\
  quiet_issue (latch_quiet ch) = quiet_issue ch /\ processed (latch_quiet ch) = processed ch.
Proof. unfold latch_quiet, quiet_pending. case_bool_decide; cbn; lia. Qed.

(** A call from the inactive state acknowledges every pending quiet. *)
Lemma quiet_inactive_call tr s :
  quiet_in_progress s = PROXY_QUIET_STATUS_CHANNELS_INACTIVE ->
  (forall tr ev, Rma.op_status e tr ev = 0) -> transports_ok s ->
  Exists (fun ch => quiet_issue ch > last_quiet_issue ch) (channels s) \/
    Forall (fun ch => last_quiet_issue ch <= quiet_ack ch) (channels s) ->
  Forall (fun ch => quiet_issue ch <= processed ch /\ last_quiet_issue ch <= processed ch) (channels s) ->
  exists tr' s', progress_quiet h tr s = Ret (tr', s') /\ quiet_in_progress s' = PROXY_QUIET_STATUS_CHANNELS_INACTIVE /\
    transports_ok s' /\
    Forall2 (fun ch ch' => quiet_issue ch <= quiet_ack ch' /\ last_quiet_issue ch <= quiet_ack ch' /\
                           quiet_issue ch' = quiet_issue ch /\ processed ch' = processed ch /\
                           last_quiet_issue ch' <= quiet_ack ch' /\ last_quiet_issue ch' <= processed ch') (channels s) (channels s').
Proof.
  intros Hi Hst Ht Hcase Hall. destruct (quiet_start_inactive s Hi) as [Hc Hp].
  destruct (existsb quiet_pending (channels s)) eqn:Ex.
  - destruct (quiet_ends tr s Hst Ht Hp) as (tr' & s' & E & Hi' & Ht' & Hc').
    { rewrite Hc. apply Forall_fmap. eapply Forall_impl; [exact Hall|]. intros ch [H1 H2]. by apply latch_processed. }
    exists tr', s'. split; [done|]. split; [done|]. split; [done|]. rewrite Hc', Hc, <- list_fmap_compose.
    apply Forall2_fmap_r, Forall_Forall2_diag. eapply Forall_impl; [exact Hall|]. intros ch [H1 H2].
    pose proof (latch_processed ch H1 H2) as Hl. unfold compose. destruct (latch_quiet ch). cbn in *. lia.
  - assert (Hno : Forall (fun ch => quiet_issue ch <= last_quiet_issue ch) (channels s)).
    { apply Forall_forall. intros ch Hin. destruct (Z.le_gt_cases (quiet_issue ch) (last_quiet_issue ch)); [done|]. exfalso.
      assert (existsb quiet_pending (channels s) = true); [|congruence]. apply existsb_exists. exists ch.
      split; [by apply list_elem_of_In|]. apply bool_decide_eq_true_2. lia. }
    assert (Hack : Forall (fun ch => last_quiet_issue ch <= quiet_ack ch) (channels s)).
    { destruct Hcase as [Hex|]; [|done]. exfalso. apply Exists_exists in Hex as (ch & Hin & Hgt).
      rewrite Forall_forall in Hno. specialize (Hno ch Hin). lia. }
    assert (latch_quiet <$> channels s = channels s) as El.
    { rewrite <- (list_fmap_id (channels s)) at 2. apply list_fmap_ext. intros i ch Hl. unfold latch_quiet, quiet_pending.
      rewrite bool_decide_eq_false_2; [done|]. rewrite Forall_lookup in Hno. specialize (Hno i ch Hl). cbn in Hno. lia. }
    exists tr, (quiet_start s). unfold progress_quiet.
    assert (quiet_advance (quiet_start s) = quiet_start s) as ->.
    { unfold quiet_advance. rewrite bool_decide_eq_false_2; [done|]. by rewrite Hp. }
    rewrite bool_decide_eq_false_2 by (by rewrite Hp). split; [done|]. split; [done|].
    split; [unfold transports_ok; by rewrite (proj1 (quiet_start_frame s))|]. rewrite Hc, El.
    apply Forall_Forall2_diag, Forall_forall. intros ch Hin.
    rewrite Forall_forall in Hno, Hack, Hall. specialize (Hno ch Hin). specialize (Hack ch Hin). specialize (Hall ch Hin). cbn in *. lia.
Qed.

(** C39: progress of quiet: when every PE has an entry in the transport table, the
    transports in it have a quiet and report no error, and every channel has
    processed what was issued before its pending quiet, calls of
    [progress_quiet] return and acknowledge it: if no quiet is in progress and
    one is pending, one call acknowledges the pending quiets of all channels; if
    one is in progress, the first call acknowledges the quiets that were latched
    and the second every other one. *)
Theorem progress_quiet_serves tr s :
  (forall tr ev, Rma.op_status e tr ev = 0) -> transports_ok s ->
  (quiet_in_progress s = PROXY_QUIET_STATUS_CHANNELS_INACTIVE /\
     Exists (fun ch => quiet_issue ch > last_quiet_issue ch) (channels s)) \/
   quiet_in_progress s = PROXY_QUIET_STATUS_CHANNELS_IN_PROGRESS ->
  Forall (fun ch => quiet_issue ch <= processed ch /\ last_quiet_issue ch <= processed ch) (channels s) ->
  exists tr1 s1 tr2 s2, progress_quiet h tr s = Ret (tr1, s1) /\ progress_quiet h tr1 s1 = Ret (tr2, s2) /\
    (quiet_in_progress s = PROXY_QUIET_STATUS_CHANNELS_INACTIVE ->
       Forall2 (fun ch ch' => quiet_issue ch <= quiet_ack ch') (channels s) (channels s1)) /\
    Forall2 (fun ch ch' => last_quiet_issue ch <= quiet_ack ch') (channels s) (channels s1) /\
    Forall2 (fun ch ch' => quiet_issue ch <= quiet_ack ch') (channels s) (channels s2).
Proof.
  intros Hst Ht Hcase Hall.
  assert (exists tr1 s1, progress_quiet h tr s = Ret (tr1, s1) /\ quiet_in_progress s1 = PROXY_QUIET_STATUS_CHANNELS_INACTIVE /\
    transports_ok s1 /\ (quiet_in_progress s = PROXY_QUIET_STATUS_CHANNELS_INACTIVE ->
       Forall2 (fun ch ch' => quiet_issue ch <= quiet_ack ch') (channels s) (channels s1)) /\
    Forall2 (fun ch ch' => last_quiet_issue ch <= quiet_ack ch' /\ quiet_issue ch' = quiet_issue ch /\ processed ch' = processed ch /\
                           last_quiet_issue ch' <= quiet_ack ch' /\ last_quiet_issue ch' <= processed ch') (channels s) (channels s1))
    as (tr1 & s1 & E1 & Hi1 & Ht1 & Hack1 & HF1).
  { destruct Hcase as [[Hi Hex]|Hi].
    - destruct (quiet_inactive_call tr s Hi Hst Ht (or_introl Hex) Hall) as (tr' & s' & E & Hi' & Ht' & HF).
      exists tr', s'. do 3 (split; [done|]). split; [intros _|]; (eapply Forall2_impl; [exact HF|]); by intros ? ? (? & ? & ?).
    - assert (quiet_start s = s) as Es by (unfold quiet_start; rewrite bool_decide_eq_false_2; [done|by rewrite Hi]).
      destruct (quiet_ends tr s Hst Ht) as (tr' & s' & E & Hi' & Ht' & Hc'); [by rewrite Es| |].
      { rewrite Es. eapply Forall_impl; [exact Hall|]. by intros ch [? ?]. }
      exists tr', s'. do 3 (split; [done|]). split; [by rewrite Hi|]. rewrite Hc', Es. apply Forall2_fmap_r, Forall_Forall2_diag.
      eapply Forall_impl; [exact Hall|]. intros ch [H1 H2]. cbn. lia. }
  assert (HF : Forall (fun ch => quiet_issue ch <= processed ch /\ last_quiet_issue ch <= processed ch) (channels s1) /\
               Forall (fun ch => last_quiet_issue ch <= quiet_ack ch) (channels s1)).
  { rewrite !Forall_forall. rewrite Forall_forall in Hall.
    split; intros ch' Hin; apply list_elem_of_lookup in Hin as [i Hi'];
      destruct (Forall2_lookup_r _ _ _ _ _ HF1 Hi') as (ch & Hch & HR); apply list_elem_of_lookup_2 in Hch; specialize (Hall ch Hch); cbn in *; lia. }
  destruct HF as [HFa HFb].
  destruct (quiet_inactive_call tr1 s1 Hi1 Hst Ht1 (or_intror HFb) HFa) as (tr2 & s2 & E2 & _ & _ & HF2).
  exists tr1, s1, tr2, s2. split; [done|]. split; [done|]. split; [done|]. split; [eapply Forall2_impl; [exact HF1|]; by intros ? ? [? _]|].
  refine (Forall2_trans (fun ch ch' => quiet_issue ch' = quiet_issue ch)
    (fun ch ch' => quiet_issue ch <= quiet_ack ch') _ _ (channels s1) _ _ _ _); [|
    eapply Forall2_impl; [exact HF1|]; by intros ? ? (_ & ? & _) | eapply Forall2_impl; [exact HF2|]; by intros ? ? [? _]].
  intros x y z. cbn. lia.
Qed.
End Quiet.

(** A quiet for 64 is in progress while one for 100 was issued. *)
Definition quiet_state2 : proxy_state :=
  set_quiet_in_progress PROXY_QUIET_STATUS_CHANNELS_IN_PROGRESS (set_channels [MkChannel ∅ 0 100 0 64 0 0 0 128 0 None] pair_state).

Lemma progress_quiet_serves_witness :
  exists tr1 s1 tr2 s2, progress_quiet pair_host [] quiet_state2 = Ret (tr1, s1) /\ progress_quiet pair_host tr1 s1 = Ret (tr2, s2) /\
    quiet_ack <$> channels s1 = [64] /\
    Forall2 (fun ch ch' => quiet_issue ch <= quiet_ack ch') (channels quiet_state2) (channels s2).
Proof.
  destruct (progress_quiet_serves pair_host [] quiet_state2) as (tr1 & s1 & tr2 & s2 & E1 & E2 & _ & _ & HF).
  - reflexivity.
  - split; [reflexivity|]. intros i j Hj. exists pair_transport.
    do 2 (destruct i as [|i]; [injection Hj as <-; split; reflexivity|]). discriminate Hj.
  - right. reflexivity.
  - repeat constructor; cbn; lia.
  - exists tr1, s1, tr2, s2. split; [exact E1|]. split; [exact E2|]. split; [|exact HF].
    vm_compute in E1. injection E1 as _ <-. reflexivity.
Defined.

End Quiet.
