(* ===== verification/BufCache.v ===== *)
(** * The cache of registered local buffers

    Models src/src/host/mem/mem.cpp: registration of non-symmetric buffers with
    a transport, their release, and the binary search the data path uses to
    find the memory handle of a local address.  The cache is an array of
    handles sorted by address; buffers above 2 GiB take several handles, linked
    by [linked_with_prev] and [linked_with_next].

    The answers of CUDA, of the C allocator, of the lock and of the transport
    are fields of [reg_env].  [freed] marks a handle whose memory was given
    back while the cache still points at it. *)
From stdpp Require Import base gmap list.
From Stdlib Require Import ZArith Lia.
From S2P Require Import Prelude.

Module BufCache.

Definition NVSHMEMI_MAX_HANDLE_LENGTH : Z := 2147483648.
Definition NVSHMEMI_DMA_BUF_MAX_LENGTH : Z := 0x100000000.
Definition NVSHMEMI_LOCAL_BUF_CACHE_DEFAULT_SIZE : Z := 64.
Definition sizeof_local_buf_handle : Z := 32.

(** [nvshmem_local_buf_handle_t]; [handle] names the [nvshmem_mem_handle_t] *)
Record local_buf_handle := MkBuf {
  ptr : Z; length : Z; handle : Z;
  registered_by_us : bool; linked_with_prev : bool; linked_with_next : bool;
  freed : bool
}.

(** [nvshmem_local_buf_cache_t]: [buffers] holds the entries below [array_used]. *)
Record local_buf_cache := MkCache { array_size : Z; buffers : list local_buf_handle }.
Definition array_used (c : local_buf_cache) : Z := Z.of_nat (List.length (buffers c)).

(** [nvshmemi_local_mem_cache_init] *)
Definition nvshmemi_local_mem_cache_init : local_buf_cache :=
  MkCache NVSHMEMI_LOCAL_BUF_CACHE_DEFAULT_SIZE [].

Inductive memory_type := cudaMemoryTypeUnregistered | cudaMemoryTypeHost
                       | cudaMemoryTypeDevice | cudaMemoryTypeManaged.
#[export] Instance memory_type_eq_dec : EqDecision memory_type.
Proof. solve_decision. Defined.

Record reg_env := {
  attr_status : Z; attr_type : memory_type;
  heap_base : Z; heap_size : Z;
  calloc_ok : bool; realloc_ok : bool;
  lock_status : Z;
  host_memory_registration_supported : bool; host_register_status : Z;
  is_get_mem : bool; is_release_mem : bool;
  get_mem_handle : Z -> Z -> Z * Z;
  update_device_state : Z
}.

Section Ops.
Context (env : reg_env).

Definition number_of_handles (length : Z) : Z :=
  u64 (length + NVSHMEMI_MAX_HANDLE_LENGTH - 1) / NVSHMEMI_MAX_HANDLE_LENGTH.

(** The loop that looks for the place of [addr]; [None] is an overlap. *)
Fixpoint select_index (addr : Z) (bufs : list local_buf_handle) (i : nat) : option nat :=
  match bufs with
  | [] => Some i
  | b :: bufs =>
      if bool_decide (addr > ptr b) then
        if bool_decide (addr < u64 (ptr b + length b)) then None
        else select_index addr bufs (S i)
      else if bool_decide (addr = ptr b) then None
      else Some i
  end.

(** The loop that fills the new handles; a non-zero status of the transport
    ends it. *)
Fixpoint assign_handles (n : nat) (first by_us : bool) (addr_calc remaining_length : Z)
  : outcome (Z * list local_buf_handle) :=
  match n with
  | O => Ret (0, [])
  | S n =>
      let register_length := if bool_decide (remaining_length > NVSHMEMI_MAX_HANDLE_LENGTH)
                             then NVSHMEMI_MAX_HANDLE_LENGTH else remaining_length in
      '(status, h) ←
        (if is_get_mem env then
           _ ← cassert (bool_decide (register_length < NVSHMEMI_DMA_BUF_MAX_LENGTH));
           Ret (get_mem_handle env addr_calc register_length)
         else Ret (0, 0));
      if bool_decide (status <> 0) then Ret (status, [])
      else
        let b := MkBuf addr_calc register_length h by_us (negb first) (bool_decide (n <> O)) false in
        '(status, l) ← assign_handles n false by_us (u64 (addr_calc + register_length))
                         (u64 (remaining_length - register_length));
        Ret (status, b :: l)
  end.

(** Growing the array: [None] when [realloc] fails. *)
Definition grow (c : local_buf_cache) (n : Z) : outcome (option local_buf_cache) :=
  if bool_decide (array_used c + n >= array_size c) then
    let new_array_size := if bool_decide (n > array_size c) then array_size c + n
                          else array_size c * 2 in
    _ ← cassert (bool_decide (new_array_size < SIZE_MAX / sizeof_local_buf_handle));
    if realloc_ok env then Ret (Some (MkCache new_array_size (buffers c))) else Ret None
  else Ret (Some c).

Definition insert_at (i : nat) (l : list local_buf_handle) (c : local_buf_cache) : local_buf_cache :=
  MkCache (array_size c) (take i (buffers c) ++ l ++ drop i (buffers c)).

Definition mark_freed (b : local_buf_handle) : local_buf_handle :=
  MkBuf (ptr b) (length b) (handle b) (registered_by_us b) (linked_with_prev b) (linked_with_next b) true.

(** [buffer_register]: the status and the cache. *)
Definition buffer_register (c : local_buf_cache) (addr len : Z) : outcome (Z * local_buf_cache) :=
  if bool_decide (len = 0) then Ret (NVSHMEMX_ERROR_INVALID_VALUE, c)
  else
    let n := number_of_handles len in
    if bool_decide (attr_status env <> 0) then Ret (NVSHMEMX_ERROR_INTERNAL, c)
    else if bool_decide (attr_type env = cudaMemoryTypeManaged) then Ret (NVSHMEMX_ERROR_INVALID_VALUE, c)
    else if bool_decide (addr >= heap_base env /\ addr < u64 (heap_base env + heap_size env))
      then Ret (NVSHMEMX_ERROR_INVALID_VALUE, c)
    else if negb (calloc_ok env) then Ret (NVSHMEMX_ERROR_OUT_OF_MEMORY, c)
    (* the count wrapped to 0: [handle[number_of_handles - 1]] is out of range *)
    else if bool_decide (n = 0) then Fail FUndef
    else if bool_decide (lock_status env <> 0) then Ret (NVSHMEMX_ERROR_INTERNAL, c)
    else
      let '(status, by_us) :=
        if bool_decide (attr_type env = cudaMemoryTypeUnregistered) then
          if negb (host_memory_registration_supported env) then (NVSHMEMX_ERROR_INVALID_VALUE, false)
          else if bool_decide (host_register_status env <> 0) then (NVSHMEMX_ERROR_INTERNAL, false)
          else (0, true)
        else (0, false) in
      if bool_decide (status <> 0) then Ret (status, c)
      else
        g ← grow c n;
        match g with
        | None => Ret (NVSHMEMX_ERROR_OUT_OF_MEMORY, c)
        | Some c =>
            match select_index addr (buffers c) 0 with
            | None => Ret (NVSHMEMX_ERROR_INVALID_VALUE, c)
            | Some selected_index =>
                '(status, hs) ← assign_handles (Z.to_nat n) true by_us addr len;
                if bool_decide (status <> 0) then Ret (status, c)
                else
                  _ ← cassert (bool_decide (Z.of_nat selected_index < array_size c));
                  if bool_decide (update_device_state env <> 0)
                  then Ret (NVSHMEMX_ERROR_INTERNAL, insert_at selected_index (mark_freed <$> hs) c)
                  else Ret (0, insert_at selected_index hs c)
            end
        end.

(** The [do ... while (linked_with_next)] loop of [buffer_unregister] from the
    entry of [addr] on: the handles of the buffer, and the rest.  A link that
    leads past [array_used] makes the code use an entry that is not there. *)
Fixpoint linked_run (bufs : list local_buf_handle) : outcome (list local_buf_handle * list local_buf_handle) :=
  match bufs with
  | [] => Fail FUndef
  | b :: bufs =>
      if linked_with_next b then '(l, rest) ← linked_run bufs; Ret (b :: l, rest)
      else Ret ([b], bufs)
  end.

(** [buffer_unregister]: the status, the cache, the memory handles released
    through the transport and the addresses unregistered from CUDA. *)
Fixpoint unregister_from (addr : Z) (before bufs : list local_buf_handle)
  : outcome (Z * list local_buf_handle * list Z * list Z) :=
  match bufs with
  | [] => Ret (NVSHMEMX_ERROR_INVALID_VALUE, before, [], [])
  | b :: rest =>
      if bool_decide (addr > ptr b) then unregister_from addr (before ++ [b]) rest
      else if bool_decide (addr = ptr b) then
        '(run, rest) ← linked_run bufs;
        let released := if is_release_mem env then handle <$> run else [] in
        let unreg := ptr <$> filter (fun b => registered_by_us b = true /\ linked_with_prev b = false) run in
        let status := if bool_decide (update_device_state env <> 0) then NVSHMEMX_ERROR_INTERNAL else 0 in
        Ret (status, before ++ rest, released, unreg)
      else Ret (NVSHMEMX_ERROR_INVALID_VALUE, before ++ bufs, [], [])
  end.
Definition buffer_unregister (c : local_buf_cache) (addr : Z)
  : outcome (Z * local_buf_cache * list Z * list Z) :=
  if bool_decide (lock_status env <> 0) then Ret (NVSHMEMX_ERROR_INTERNAL, c, [], [])
  else
    '(status, bufs, released, unreg) ← unregister_from addr [] (buffers c);
    Ret (status, MkCache (array_size c) bufs, released, unreg).

(** [buffer_unregister_all] *)
Definition buffer_unregister_all (c : local_buf_cache) : local_buf_cache * list Z * list Z :=
  if bool_decide (lock_status env <> 0) then (c, [], [])
  else (MkCache (array_size c) [],
        if is_release_mem env then handle <$> buffers c else [],
        ptr <$> filter (fun b => registered_by_us b = true /\ linked_with_prev b = false) (buffers c)).

(** The binary search of [nvshmemi_get_registered_buffer_handle].  [max] is
    exclusive at the start and inclusive once it has moved, as in the code. *)
Fixpoint search (fuel : nat) (bufs : list local_buf_handle) (addr len min max : Z)
  : outcome (option (Z * Z)) :=
  match fuel with
  | O => Fail FSpin
  | S fuel =>
      let mid := (max - min) / 2 + min in
      if bool_decide (mid >= Z.of_nat (List.length bufs)) then Ret None
      else
        b ← arr_get bufs mid;
        if bool_decide (addr > ptr b) then
          let max_addr := u64 (ptr b + length b) in
          let max_len := u64 (max_addr - addr) in
          if bool_decide (addr < max_addr)
          then Ret (Some (handle b, if bool_decide (len < max_len) then len else max_len))
          else if bool_decide (max >= mid + 1) then search fuel bufs addr len (mid + 1) max else Ret None
        else if bool_decide (addr = ptr b)
        then Ret (Some (handle b, if bool_decide (len < length b) then len else length b))
        else if bool_decide (mid = 0) then Ret None
        else if bool_decide (mid - 1 >= min) then search fuel bufs addr len min (mid - 1) else Ret None
  end.

Definition nvshmemi_get_registered_buffer_handle (c : local_buf_cache) (addr len : Z)
  : outcome (option (Z * Z)) :=
  if bool_decide (lock_status env <> 0) then Ret None
  else if bool_decide (array_used c = 0) then Ret None
  else search (S (List.length (buffers c))) (buffers c) addr len 0 (array_used c).

End Ops.

(** [nvshmemx_buffer_register], [nvshmemx_buffer_unregister] and
    [nvshmemx_buffer_unregister_all]: every transport of the bitmap, with the
    last error as the status. *)
Fixpoint register_all (bitmap i : Z) (ts : list (reg_env * local_buf_cache)) (addr len status : Z)
  : outcome (Z * list (reg_env * local_buf_cache)) :=
  match ts with
  | [] => Ret (status, [])
  | (env, c) :: ts =>
      '(status, c) ←
        (if bool_decide (Z.land bitmap (Z.shiftl 1 i) = 0) then Ret (status, c)
         else '(st, c) ← buffer_register env c addr len;
              Ret (if bool_decide (st = 0) then status else st, c));
      '(status, ts) ← register_all bitmap (i + 1) ts addr len status;
      Ret (status, (env, c) :: ts)
  end.
Definition nvshmemx_buffer_register (bitmap : Z) (ts : list (reg_env * local_buf_cache)) (addr len : Z) :=
  register_all bitmap 0 ts addr len NVSHMEMX_SUCCESS.

Fixpoint unregister_each (bitmap i : Z) (ts : list (reg_env * local_buf_cache)) (addr status : Z)
  : outcome (Z * list (reg_env * local_buf_cache)) :=
  match ts with
  | [] => Ret (status, [])
  | (env, c) :: ts =>
      '(status, c) ←
        (if bool_decide (Z.land bitmap (Z.shiftl 1 i) = 0) then Ret (status, c)
         else '(st, c, _, _) ← buffer_unregister env c addr;
              Ret (if bool_decide (st = 0) then status else st, c));
      '(status, ts) ← unregister_each bitmap (i + 1) ts addr status;
      Ret (status, (env, c) :: ts)
  end.
Definition nvshmemx_buffer_unregister (bitmap : Z) (ts : list (reg_env * local_buf_cache)) (addr : Z) :=
  unregister_each bitmap 0 ts addr NVSHMEMX_SUCCESS.

Definition nvshmemx_buffer_unregister_all (bitmap : Z) (ts : list (reg_env * local_buf_cache))
  : list (reg_env * local_buf_cache) :=
  imap (fun i ec => if bool_decide (Z.land bitmap (Z.shiftl 1 (Z.of_nat i)) = 0) then ec
                    else (ec.1, (buffer_unregister_all ec.1 ec.2).1.1)) ts.

(** ** The invariant *)

(** Entries in address order, non-empty and disjoint, from [lo] on. *)
Fixpoint ordered (lo : Z) (l : list local_buf_handle) : Prop :=
  match l with
  | [] => True
  | b :: l => lo <= ptr b /\ 0 < length b /\ ptr b + length b < 2 ^ 64 /\ ordered (ptr b + length b) l
  end.

(** The end of the last entry. *)
Fixpoint end_of (lo : Z) (l : list local_buf_handle) : Z :=
  match l with [] => lo | b :: l => end_of (ptr b + length b) l end.

Definition contains (b : local_buf_handle) (a : Z) : Prop := ptr b <= a < ptr b + length b.

(** The links: an entry has [linked_with_prev] exactly when the entry before it
    has [linked_with_next], and then it starts where that one ends.  [prev] is
    the end of a preceding linked entry; [link_end] is that of the whole list. *)
Fixpoint linked (prev : option Z) (l : list local_buf_handle) : Prop :=
  match l with
  | [] => True
  | b :: l =>
      match prev with
      | Some e => linked_with_prev b = true /\ ptr b = e
      | None => linked_with_prev b = false
      end /\ linked (if linked_with_next b then Some (ptr b + length b) else None) l
  end.
Fixpoint link_end (prev : option Z) (l : list local_buf_handle) : option Z :=
  match l with
  | [] => prev
  | b :: l => link_end (if linked_with_next b then Some (ptr b + length b) else None) l
  end.

Record wf (c : local_buf_cache) : Prop := {
  wf_order : ordered 0 (buffers c);
  wf_links : linked None (buffers c);
  wf_closed : link_end None (buffers c) = None;
  wf_room : array_used c < array_size c
}.

Lemma linked_app l1 : forall p l2, linked p (l1 ++ l2) <-> linked p l1 /\ linked (link_end p l1) l2.
Proof. induction l1 as [|b l1 IH]; intros p l2; cbn; [tauto|]. rewrite IH. tauto. Qed.

Lemma link_end_app l1 : forall p l2, link_end p (l1 ++ l2) = link_end (link_end p l1) l2.
Proof. induction l1 as [|b l1 IH]; intros p l2; cbn; auto. Qed.

Lemma link_end_bound l x : forall p e,
  (forall e, p = Some e -> e <= x) -> Forall (fun b => ptr b + length b <= x) l -> link_end p l = Some e -> e <= x.
Proof.
  induction l as [|b l IH]; intros p e Hp HF; cbn; [apply Hp|].
  apply Forall_cons in HF as [Hb HF]. apply IH; [|done].
  intros e'. destruct (linked_with_next b); [intros [= <-]; done|done].
Qed.

Lemma ordered_app lo l1 l2 : ordered lo (l1 ++ l2) <-> ordered lo l1 /\ ordered (end_of lo l1) l2.
Proof. revert lo. induction l1 as [|b l1 IH]; intros lo; cbn; [tauto|]. rewrite IH. tauto. Qed.

Lemma ordered_weaken lo lo' l : lo' <= lo -> ordered lo l -> ordered lo' l.
Proof. destruct l; cbn; [done|]. intros ? (? & ?). split; [lia|done]. Qed.

Lemma end_of_ge lo l : ordered lo l -> lo <= end_of lo l.
Proof. revert lo. induction l as [|b l IH]; intros lo; cbn; [lia|]. intros (? & ? & ? & H). apply IH in H. lia. Qed.

Lemma ordered_elem lo l i b :
  ordered lo l -> l !! i = Some b -> lo <= ptr b /\ 0 < length b /\ ptr b + length b < 2 ^ 64.
Proof.
  revert lo i. induction l as [|c l IH]; intros lo i; [done|]. cbn. intros (H1 & H2 & H3 & H4) Hi.
  destruct i as [|i]; cbn in Hi; [injection Hi as <-; lia|]. destruct (IH _ _ H4 Hi). lia.
Qed.

(** Entry [i] ends before entry [j] starts. *)
Lemma ordered_lookup lo l i j b b' :
  ordered lo l -> l !! i = Some b -> l !! j = Some b' -> (i < j)%nat -> ptr b + length b <= ptr b'.
Proof.
  revert lo i j. induction l as [|c l IH]; intros lo i j; [done|]. cbn. intros (H1 & H2 & H3 & H4) Hi Hj Hij.
  destruct j as [|j]; [lia|]. cbn in Hj. destruct i as [|i]; cbn in Hi.
  - injection Hi as <-. by destruct (ordered_elem _ _ _ _ H4 Hj).
  - eapply (IH _ i j); eauto. lia.
Qed.

(** ** The binary search *)

(** What the search returns for an address in [b]. *)
Definition answer (b : local_buf_handle) (addr len : Z) : Z * Z :=
  (handle b, Z.min len (ptr b + length b - addr)).

Lemma if_min x y : (if bool_decide (x < y) then x else y) = Z.min x y.
Proof. case_bool_decide; lia. Qed.

Lemma search_found fuel : forall bufs addr len min max k b lo,
  ordered lo bufs -> 0 <= lo -> bufs !! k = Some b -> contains b addr ->
  0 <= min -> min <= Z.of_nat k <= max -> max <= Z.of_nat (List.length bufs) ->
  max - min < Z.of_nat fuel ->
  search fuel bufs addr len min max = Ret (Some (answer b addr len)).
Proof.
  induction fuel as [|fuel IH]; intros bufs addr len min max k b lo HO H0 Hk Hc Hmin Hmk Hmax Hf; [lia|].
  cbn [search]. set (mid := (max - min) / 2 + min).
  assert (min <= mid <= max /\ (mid = max -> min = max)) as [Hmid Hend]
    by (subst mid; Z.div_mod_to_equations; lia).
  assert (k < List.length bufs)%nat as Hkl by (by eapply lookup_lt_Some).
  rewrite bool_decide_eq_false_2 by lia.
  destruct (lookup_lt_is_Some_2 bufs (Z.to_nat mid)) as [bm Hm]; [lia|].
  assert (arr_get bufs mid = Ret bm) as ->
    by (unfold arr_get; rewrite bool_decide_eq_false_2 by lia; by rewrite Hm).
  rewrite outcome_bind_ret. clearbody mid.
  destruct (ordered_elem _ _ _ _ HO Hm) as (M1 & M2 & M3).
  destruct (ordered_elem _ _ _ _ HO Hk) as (K1 & K2 & K3). unfold contains in Hc.
  rewrite !(wrap_small 64 (ptr bm + length bm)) by (unfold in_u; lia).
  destruct (lt_eq_lt_dec (Z.to_nat mid) k) as [[Hlt|Heq]|Hgt].
  - pose proof (ordered_lookup _ _ _ _ _ _ HO Hm Hk Hlt).
    rewrite bool_decide_eq_true_2, bool_decide_eq_false_2, bool_decide_eq_true_2 by lia.
    eapply IH; eauto; lia.
  - assert (bm = b) as -> by (rewrite Heq in Hm; congruence). unfold answer.
    destruct (bool_decide_reflect (addr > ptr b)).
    + rewrite bool_decide_eq_true_2 by lia. rewrite wrap_small, if_min by (unfold in_u; lia). done.
    + rewrite bool_decide_eq_true_2 by lia. rewrite if_min. do 3 f_equal. lia.
  - pose proof (ordered_lookup _ _ _ _ _ _ HO Hk Hm Hgt).
    rewrite !bool_decide_eq_false_2, bool_decide_eq_true_2 by lia. eapply IH; eauto; lia.
Qed.

Lemma search_missing fuel : forall bufs addr len min max lo,
  ordered lo bufs -> 0 <= lo -> (forall k b, bufs !! k = Some b -> ~ contains b addr) ->
  0 <= min <= max -> max <= Z.of_nat (List.length bufs) -> max - min < Z.of_nat fuel ->
  search fuel bufs addr len min max = Ret None.
Proof.
  induction fuel as [|fuel IH]; intros bufs addr len min max lo HO H0 Hno Hmin Hmax Hf; [lia|].
  cbn [search]. set (mid := (max - min) / 2 + min).
  assert (min <= mid <= max) as Hmid by (subst mid; Z.div_mod_to_equations; lia).
  clearbody mid. case_bool_decide as Hlen; [done|].
  destruct (lookup_lt_is_Some_2 bufs (Z.to_nat mid)) as [bm Hm]; [lia|].
  assert (arr_get bufs mid = Ret bm) as ->
    by (unfold arr_get; rewrite bool_decide_eq_false_2 by lia; by rewrite Hm).
  rewrite outcome_bind_ret. destruct (ordered_elem _ _ _ _ HO Hm) as (M1 & M2 & M3).
  pose proof (Hno _ _ Hm) as Hnc. unfold contains in Hnc.
  rewrite !(wrap_small 64 (ptr bm + length bm)) by (unfold in_u; lia).
  destruct (bool_decide_reflect (addr > ptr bm)).
  - rewrite bool_decide_eq_false_2 by lia. case_bool_decide; [|done]. eapply IH; eauto; lia.
  - rewrite bool_decide_eq_false_2 by lia. case_bool_decide; [done|].
    case_bool_decide; [|done]. eapply IH; eauto; lia.
Qed.

(** An address inside a registered buffer is found. *)
Lemma buffer_lookup_found env c addr len k b :
  wf c -> lock_status env = 0 -> buffers c !! k = Some b -> contains b addr ->
  nvshmemi_get_registered_buffer_handle env c addr len = Ret (Some (answer b addr len)).
Proof.
  intros [HO _ _ HR] HL Hk Hc. unfold nvshmemi_get_registered_buffer_handle, array_used.
  rewrite HL, bool_decide_eq_false_2 by lia.
  assert (k < List.length (buffers c))%nat by (by eapply lookup_lt_Some).
  rewrite bool_decide_eq_false_2 by lia. eapply search_found; eauto; lia.
Qed.

(** C37: the binary search of the data path agrees with the linear specification
    on every well-formed cache: an address inside a registered buffer gets that
    buffer's memory handle and the length clamped to the rest of the buffer,
    and any other address gets none.  It always terminates. *)
Theorem registered_buffer_lookup env c addr len :
  wf c -> lock_status env = 0 ->
  (forall k b, buffers c !! k = Some b -> contains b addr ->
     nvshmemi_get_registered_buffer_handle env c addr len = Ret (Some (answer b addr len))) /\
  ((forall k b, buffers c !! k = Some b -> ~ contains b addr) ->
     nvshmemi_get_registered_buffer_handle env c addr len = Ret None).
Proof.
  intros W HL. split; [intros k b Hk Hc; by eapply buffer_lookup_found|].
  destruct W as [HO _ _ HR]. intros Hno. unfold nvshmemi_get_registered_buffer_handle, array_used.
  rewrite HL, bool_decide_eq_false_2 by lia. case_bool_decide; [done|]. eapply search_missing; eauto; lia.
Qed.

(** ** Registration *)

(** The handles of one buffer: all linked, the last one ending the chain. *)
Fixpoint chain (l : list local_buf_handle) : Prop :=
  match l with
  | [] => False
  | b :: l => match l with [] => linked_with_next b = false | _ => linked_with_next b = true /\ chain l end
  end.

(** Consecutive handles that cover exactly [a, e). *)
Fixpoint tiles (a : Z) (l : list local_buf_handle) (e : Z) : Prop :=
  match l with
  | [] => a = e
  | b :: l => ptr b = a /\ 0 < length b /\ tiles (a + length b) l e
  end.

Lemma tiles_ordered l : forall a e, tiles a l e -> e < 2 ^ 64 -> a <= e /\ ordered a l /\ end_of a l = e.
Proof.
  induction l as [|b l IH]; intros a e; cbn; [intros ->; lia|].
  intros (-> & Hb & HT) He. destruct (IH _ _ HT He) as (H1 & H2 & H3).
  split; [lia|split; [|done]]. split; [lia|split; [lia|split; [lia|done]]].
Qed.

Lemma tiles_cover l : forall a e x, tiles a l e -> a <= x < e -> exists b, b ∈ l /\ contains b x.
Proof.
  induction l as [|b l IH]; intros a e x; cbn; [lia|]. intros (<- & Hb & HT) Hx.
  destruct (decide (x < ptr b + length b)) as [Hlt|Hge].
  - exists b. split; [left|]. unfold contains. lia.
  - destruct (IH _ _ x HT ltac:(lia)) as (b2 & Hin & Hc). exists b2. split; [by right|done].
Qed.

(** A transport that accepts every registration. *)
Definition transport_accepts (env : reg_env) : Prop :=
  is_get_mem env = true -> forall a l, fst (get_mem_handle env a l) = 0.

Lemma assign_handles_spec env n : forall first by_us addr rem,
  transport_accepts env -> 0 <= addr -> addr + rem < 2 ^ 64 ->
  (Z.of_nat n - 1) * NVSHMEMI_MAX_HANDLE_LENGTH < rem <= Z.of_nat n * NVSHMEMI_MAX_HANDLE_LENGTH ->
  0 < rem ->
  exists b hs, assign_handles env n first by_us addr rem = Ret (0, b :: hs) /\
    tiles addr (b :: hs) (addr + rem) /\ List.length (b :: hs) = n /\ chain (b :: hs) /\
    linked (if first then None else Some addr) (b :: hs) /\
    (forall p, link_end p (b :: hs) = None) /\
    Forall (fun b => freed b = false) (b :: hs).
Proof.
  unfold NVSHMEMI_MAX_HANDLE_LENGTH.
  induction n as [|n IH]; intros first by_us addr rem HT Ha Hend Hn Hr; [lia|].
  cbn [assign_handles]. unfold NVSHMEMI_MAX_HANDLE_LENGTH, NVSHMEMI_DMA_BUF_MAX_LENGTH.
  set (rl := if bool_decide (rem > 2147483648) then 2147483648 else rem).
  assert (rl = Z.min rem 2147483648) as Hrl by (subst rl; case_bool_decide; lia). clearbody rl.
  assert (exists h, (if is_get_mem env then
             _ ← cassert (bool_decide (rl < 4294967296)); Ret (get_mem_handle env addr rl)
           else Ret (0, 0)) = Ret (0, h)) as [hd ->].
  { destruct (is_get_mem env) eqn:E; [|eauto]. rewrite bool_decide_eq_true_2 by lia. cbn.
    specialize (HT E addr rl). destruct (get_mem_handle env addr rl) as [st hd]. cbn in HT. subst. eauto. }
  rewrite outcome_bind_ret. rewrite (bool_decide_eq_false_2 (0 <> 0)) by lia.
  rewrite (wrap_small 64 (addr + rl)), (wrap_small 64 (rem - rl)) by (unfold in_u; lia).
  destruct n as [|n].
  - cbn. eexists _, []. split; [reflexivity|]. cbn. destruct first; repeat split; auto; lia.
  - destruct (IH false by_us (addr + rl) (rem - rl)) as (b & hs & E & HTl & HLn & HC & HLk & HLe & HF);
      [done|lia..|].
    rewrite E, outcome_bind_ret. eexists _, (b :: hs). split; [reflexivity|].
    rewrite bool_decide_eq_true_2 by lia.
    split; [|split; [cbn in *; lia|split; [done|split; [|split; [|by constructor]]]]].
    + cbn in *. split; [done|split; [lia|]].
      by replace (addr + rem) with (addr + rl + (rem - rl)) by lia.
    + cbn [linked linked_with_prev linked_with_next ptr length] in *. split; [by destruct first|done].
    + intros p. exact (HLe (Some (addr + rl))).
Qed.

(** Where the new entry goes. *)
Lemma select_index_spec addr l : forall lo i0 i,
  ordered lo l -> 0 <= lo -> select_index addr l i0 = Some i ->
  exists l1 l2, l = l1 ++ l2 /\ i = (i0 + List.length l1)%nat /\
    Forall (fun b => ptr b < addr /\ ptr b + length b <= addr) l1 /\
    Forall (fun b => addr < ptr b) l2.
Proof.
  induction l as [|b l IH]; intros lo i0 i HO H0; cbn.
  { intros [= <-]. exists [], []. split; [done|split; [cbn; lia|split; constructor]]. }
  destruct HO as (H1 & H2 & H3 & H4). rewrite wrap_small by (unfold in_u; lia).
  case_bool_decide as C1; [case_bool_decide as C2; [done|]|case_bool_decide as C3; [done|]].
  - intros Hs. destruct (IH _ _ _ H4 ltac:(lia) Hs) as (l1 & l2 & -> & -> & F1 & F2).
    exists (b :: l1), l2. split; [done|split; [cbn; lia|split; [|done]]]. constructor; [lia|done].
  - intros [= <-]. exists [], (b :: l). split; [done|split; [cbn; lia|split; [done|]]].
    constructor; [lia|]. apply Forall_forall. intros x Hx. apply list_elem_of_lookup in Hx as [k Hk].
    destruct (ordered_elem _ _ _ _ H4 Hk). lia.
Qed.

Lemma select_index_total addr l : forall lo i0,
  ordered lo l -> 0 <= lo -> Forall (fun b => ~ contains b addr) l -> exists i, select_index addr l i0 = Some i.
Proof.
  unfold contains. induction l as [|b l IH]; intros lo i0 HO H0 HF; cbn; [eauto|].
  destruct HO as (H1 & H2 & H3 & H4). apply Forall_cons in HF as [Hb HF].
  rewrite wrap_small by (unfold in_u; lia).
  destruct (bool_decide_reflect (addr > ptr b)).
  - rewrite bool_decide_eq_false_2 by lia. apply (IH (ptr b + length b)); [done|lia|done].
  - rewrite bool_decide_eq_false_2 by lia. eauto.
Qed.

Lemma end_of_bound lo l x : lo <= x -> Forall (fun b => ptr b + length b <= x) l -> end_of lo l <= x.
Proof. revert lo. induction l as [|b l IH]; intros lo H HF; [done|]. apply Forall_cons in HF as [? ?]. cbn. auto. Qed.

(** An environment in which nothing outside the cache fails. *)
Record env_ok (env : reg_env) (addr : Z) : Prop := {
  eo_attr : attr_status env = 0;
  eo_type : attr_type env <> cudaMemoryTypeManaged;
  eo_heap : ~ (addr >= heap_base env /\ addr < u64 (heap_base env + heap_size env));
  eo_calloc : calloc_ok env = true;
  eo_realloc : realloc_ok env = true;
  eo_lock : lock_status env = 0;
  eo_host : attr_type env = cudaMemoryTypeUnregistered ->
    host_memory_registration_supported env = true /\ host_register_status env = 0;
  eo_accept : transport_accepts env;
  eo_update : update_device_state env = 0
}.

(** The new range overlaps no entry. *)
Definition apart (c : local_buf_cache) (addr len : Z) : Prop :=
  Forall (fun b => addr + len <= ptr b \/ ptr b + length b <= addr) (buffers c).

Lemma grow_spec env c n :
  realloc_ok env = true -> array_used c < array_size c -> 0 <= n ->
  2 * array_size c + n < SIZE_MAX / sizeof_local_buf_handle ->
  exists c', grow env c n = Ret (Some c') /\ buffers c' = buffers c /\ array_used c + n < array_size c'.
Proof.
  intros HR HU Hn HS. unfold grow. destruct (bool_decide_reflect (array_used c + n >= array_size c)).
  - set (k := if bool_decide (n > array_size c) then array_size c + n else array_size c * 2).
    assert (array_used c + n < k <= 2 * array_size c + n) as Hk by (subst k; unfold array_used in *; case_bool_decide; lia).
    rewrite (bool_decide_eq_true_2 (k < _)) by lia. cbn. rewrite HR. eexists. split; [reflexivity|].
    split; [done|]. cbn. unfold array_used in *. cbn in *. lia.
  - exists c. split; [done|]. split; [done|lia].
Qed.

Lemma number_of_handles_spec len : 0 < len -> len < 2 ^ 64 - 2 ^ 31 ->
  let n := number_of_handles len in
  0 < n /\ (n - 1) * NVSHMEMI_MAX_HANDLE_LENGTH < len <= n * NVSHMEMI_MAX_HANDLE_LENGTH.
Proof.
  intros H1 H2. unfold number_of_handles, NVSHMEMI_MAX_HANDLE_LENGTH.
  rewrite wrap_small by (unfold in_u; lia). Z.div_mod_to_equations. lia.
Qed.

(** A place between two entries that are not one buffer's is not inside a run. *)
Lemma insertion_unlinked addr l1 l2 :
  Forall (fun b => ptr b < addr /\ ptr b + length b <= addr) l1 -> Forall (fun b => addr < ptr b) l2 ->
  linked (link_end None l1) l2 -> link_end (link_end None l1) l2 = None -> link_end None l1 = None.
Proof.
  intros F1 F2 HL HE. destruct (link_end None l1) as [e|] eqn:E; [|done].
  destruct l2 as [|x l2]; [done|]. destruct HL as [[_ Hx] _]. apply Forall_cons in F2 as [F2 _].
  enough (e <= addr) by lia.
  apply (link_end_bound l1 addr None e); [done| |done]. eapply Forall_impl; [exact F1|]. cbn. tauto.
Qed.

(** What a successful registration does to the array. *)
Lemma buffer_register_inserts env c addr len :
  wf c -> env_ok env addr -> 0 <= addr -> 0 < len -> len < 2 ^ 64 - 2 ^ 31 -> addr + len < 2 ^ 64 ->
  2 * array_size c + number_of_handles len < SIZE_MAX / sizeof_local_buf_handle ->
  apart c addr len ->
  exists c' l1 l2 b hs, buffer_register env c addr len = Ret (0, c') /\
    buffers c = l1 ++ l2 /\ buffers c' = l1 ++ (b :: hs) ++ l2 /\
    Forall (fun x => ptr x < addr) l1 /\ tiles addr (b :: hs) (addr + len) /\ chain (b :: hs) /\
    wf c'.
Proof.
  intros [HO HLk HLe HR] [E1 E2 E3 E4 E5 E6 E7 E8 E9] Ha Hl Hl2 Hend HS HA.
  destruct (number_of_handles_spec len Hl Hl2) as [Hn0 Hn].
  unfold buffer_register. rewrite bool_decide_eq_false_2 by lia. rewrite E1, (bool_decide_eq_false_2 (0 <> 0)) by lia.
  rewrite (bool_decide_eq_false_2 (attr_type env = _)) by done.
  rewrite (bool_decide_eq_false_2 (addr >= _ /\ _)) by done. rewrite E4, E6. cbn [negb].
  rewrite (bool_decide_eq_false_2 (number_of_handles len = 0)) by lia.
  rewrite (bool_decide_eq_false_2 (0 <> 0)) by lia.
  set (p := if bool_decide (attr_type env = cudaMemoryTypeUnregistered) then _ else _).
  assert (exists by_us, p = (0, by_us)) as [by_us ->].
  { subst p. case_bool_decide as C; [|eauto]. destruct (E7 C) as [-> ->]. cbn. eauto. }
  cbv beta iota. rewrite (bool_decide_eq_false_2 (0 <> 0)) by lia.
  destruct (grow_spec env c (number_of_handles len)) as (c1 & -> & B1 & U1); [done|done|lia|done|].
  rewrite outcome_bind_ret, B1.
  assert (Forall (fun b => ~ contains b addr) (buffers c)) as HN.
  { eapply Forall_impl; [exact HA|]. unfold contains. intros x [?|?]; lia. }
  destruct (select_index_total addr (buffers c) 0 0 HO ltac:(lia) HN) as [i Hi]. rewrite Hi.
  destruct (select_index_spec addr (buffers c) 0 0 i HO ltac:(lia) Hi) as (l1 & l2 & EB & -> & F1 & F2).
  destruct (assign_handles_spec env (Z.to_nat (number_of_handles len)) true by_us addr len)
    as (b & hs & -> & HTl & HLb & HC & HP & HPe & HFr); [done|lia..|].
  destruct (tiles_ordered _ _ _ HTl ltac:(lia)) as (_ & HOb & HE).
  rewrite outcome_bind_ret, (bool_decide_eq_false_2 (0 <> 0)) by lia.
  assert (array_used c = Z.of_nat (List.length l1 + List.length l2)) as HU
    by (unfold array_used; by rewrite EB, length_app).
  rewrite (bool_decide_eq_true_2 (Z.of_nat (0 + List.length l1) < array_size c1)) by lia.
  cbn [cassert]. rewrite outcome_bind_ret, E9.
  rewrite (bool_decide_eq_false_2 (0 <> 0)) by lia.
  eexists _, l1, l2, b, hs. split; [reflexivity|]. unfold insert_at. cbn [buffers array_size].
  rewrite B1, EB, (take_app_length' l1 l2), (drop_app_length' l1 l2) by done.
  split; [done|split; [done|]]. split; [eapply Forall_impl; [exact F1|]; tauto|].
  split; [done|split; [done|]].
  rewrite EB in HO, HLk, HLe. apply ordered_app in HO as [HO1 HO2]. apply linked_app in HLk as [HL1 HL2].
  rewrite link_end_app in HLe.
  assert (link_end None l1 = None) as HN1 by (eapply insertion_unlinked; eauto).
  rewrite HN1 in HL2, HLe. split; cbn [buffers array_size].
  - apply ordered_app. split; [done|]. apply ordered_app. split.
    + eapply ordered_weaken; [|exact HOb]. apply end_of_bound; [lia|]. eapply Forall_impl; [exact F1|]. tauto.
    + cbn [end_of]. cbn [end_of] in HE. rewrite HE.
      destruct l2 as [|x l2]; [done|]. cbn in HO2 |- *. split; [|tauto].
      unfold apart in HA. rewrite EB in HA. apply Forall_app in HA as [_ HA].
      apply Forall_cons in HA as [HA _]. apply Forall_cons in F2 as [F2 _]. lia.
  - rewrite !linked_app, HN1, HPe. done.
  - by rewrite !link_end_app, HPe.
  - unfold array_used. cbn [buffers]. rewrite !length_app. rewrite HLb. lia.
Qed.


(** Registering a buffer that overlaps no registered one, with nothing
    outside the cache failing, succeeds and keeps the cache well-formed: every
    address of the buffer is then covered by an entry, no entry is lost, and
    the array has room left for the next insertion. *)
Theorem buffer_register_correct env c addr len :
  wf c -> env_ok env addr -> 0 <= addr -> 0 < len -> len < 2 ^ 64 - 2 ^ 31 -> addr + len < 2 ^ 64 ->
  2 * array_size c + number_of_handles len < SIZE_MAX / sizeof_local_buf_handle ->
  apart c addr len ->
  exists c', buffer_register env c addr len = Ret (0, c') /\ wf c' /\
    (forall x, addr <= x < addr + len -> exists b, b ∈ buffers c' /\ contains b x) /\
    (forall b, b ∈ buffers c -> b ∈ buffers c').
Proof.
  intros W EO Ha Hl Hl2 He HS HA.
  destruct (buffer_register_inserts env c addr len W EO Ha Hl Hl2 He HS HA)
    as (c' & l1 & l2 & b & hs & E & EB & EB' & _ & HT & _ & W').
  exists c'. split; [done|split; [done|]]. rewrite EB, EB'. split.
  - intros x Hx. destruct (tiles_cover _ _ _ x HT Hx) as (b' & Hin & Hc). exists b'.
    split; [|done]. rewrite !elem_of_app. auto.
  - intros b'. rewrite !elem_of_app. tauto.
Qed.

Lemma linked_run_chain l rest : chain l -> linked_run (l ++ rest) = Ret (l, rest).
Proof.
  induction l as [|b l IH]; [done|]. destruct l as [|b' l].
  - cbn. by intros ->.
  - intros [H HC]. change ((b :: b' :: l) ++ rest) with (b :: ((b' :: l) ++ rest)).
    cbn [linked_run]. rewrite H, (IH HC). reflexivity.
Qed.

Lemma unregister_from_skip env addr l1 : forall before rest,
  Forall (fun x => ptr x < addr) l1 ->
  unregister_from env addr before (l1 ++ rest) = unregister_from env addr (before ++ l1) rest.
Proof.
  induction l1 as [|b l1 IH]; intros before rest HF; [by rewrite app_nil_r|].
  apply Forall_cons in HF as [Hb HF]. cbn. rewrite bool_decide_eq_true_2 by lia.
  rewrite (IH _ _ HF), <- app_assoc. done.
Qed.

(** A round trip: unregistering a buffer that was just registered restores
    the entries of the cache exactly, and releases exactly the memory handles
    the registration acquired. *)
Theorem register_unregister_roundtrip env c addr len :
  wf c -> env_ok env addr -> is_release_mem env = true ->
  0 <= addr -> 0 < len -> len < 2 ^ 64 - 2 ^ 31 -> addr + len < 2 ^ 64 ->
  2 * array_size c + number_of_handles len < SIZE_MAX / sizeof_local_buf_handle ->
  apart c addr len ->
  exists c' hs unreg, buffer_register env c addr len = Ret (0, c') /\
    (forall b, b ∈ buffers c' <-> b ∈ hs \/ b ∈ buffers c) /\
    buffer_unregister env c' addr = Ret (0, MkCache (array_size c') (buffers c), handle <$> hs, unreg).
Proof.
  intros W EO HRel Ha Hl Hl2 He HS HA.
  destruct (buffer_register_inserts env c addr len W EO Ha Hl Hl2 He HS HA)
    as (c' & l1 & l2 & b & hs & E & EB & EB' & HF & HT & HC & _).
  exists c', (b :: hs). eexists. split; [done|]. split.
  { intros x. rewrite EB, EB', !elem_of_app. tauto. }
  destruct EO. unfold buffer_unregister. rewrite eo_lock0, (bool_decide_eq_false_2 (0 <> 0)) by lia.
  rewrite EB', unregister_from_skip by done. cbn [app]. destruct HT as (Hp & _ & _).
  cbn [unregister_from]. rewrite Hp, bool_decide_eq_false_2, bool_decide_eq_true_2 by lia.
  change (b :: hs ++ l2) with ((b :: hs) ++ l2). rewrite linked_run_chain by done.
  rewrite outcome_bind_ret, HRel, eo_update0, EB. reflexivity.
Qed.

Lemma end_of_app lo l1 l2 : end_of lo (l1 ++ l2) = end_of (end_of lo l1) l2.
Proof. revert lo. induction l1; intros; cbn; auto. Qed.

Lemma ordered_cut lo l1 r l2 : ordered lo (l1 ++ r ++ l2) -> ordered lo (l1 ++ l2).
Proof.
  rewrite !ordered_app. intros (H1 & H2 & H3). split; [done|].
  eapply ordered_weaken; [|exact H3]. by apply end_of_ge.
Qed.

(** In a closed list the run of linked entries ends. *)
Lemma linked_run_total l : forall p b t, l = b :: t -> linked p l -> link_end p l = None ->
  exists run rest, linked_run l = Ret (b :: run, rest) /\ t = run ++ rest /\
    Forall (fun b => linked_with_prev b = true) run /\ linked None rest /\ link_end None rest = None.
Proof.
  induction l as [|x l IH]; intros p b t; [done|]. intros [= -> ->]. cbn.
  intros [_ HL] HE. destruct (linked_with_next b).
  - destruct t as [|y t]; [done|].
    destruct (IH _ y t eq_refl HL HE) as (run & rest & -> & -> & HF & HL' & HE').
    exists (y :: run), rest. rewrite outcome_bind_ret. split; [done|]. split; [done|]. split; [|done].
    constructor; [apply HL|done].
  - by exists [], t.
Qed.

(** The CUDA registration of a run belongs to its first entry. *)
Lemma run_registered b run :
  linked_with_prev b = false -> Forall (fun b => linked_with_prev b = true) run ->
  ptr <$> filter (fun b => registered_by_us b = true /\ linked_with_prev b = false) (b :: run) =
  if registered_by_us b then [ptr b] else [].
Proof.
  intros Hb HF.
  assert (filter (fun b => registered_by_us b = true /\ linked_with_prev b = false) run = []) as HN.
  { induction HF as [|x l Hx HF IH]; [done|]. rewrite filter_cons_False; [done|].
    intros [_ Hx']. congruence. }
  destruct (registered_by_us b) eqn:E.
  - rewrite filter_cons_True by done. by rewrite HN.
  - rewrite filter_cons_False, HN; [done|]. intros [H _]. congruence.
Qed.

Lemma unregister_from_missing env addr l : forall before lo,
  ordered lo l -> (forall b, b ∈ l -> ptr b <> addr) ->
  unregister_from env addr before l = Ret (NVSHMEMX_ERROR_INVALID_VALUE, before ++ l, [], []).
Proof.
  induction l as [|b l IH]; intros before lo HO HN; cbn; [by rewrite app_nil_r|].
  destruct HO as (_ & _ & _ & HO). case_bool_decide.
  - rewrite (IH _ _ HO), <- app_assoc; [done|]. intros x Hx. apply HN. by right.
  - rewrite bool_decide_eq_false_2; [done|]. intros ->. by apply (HN b); [left|].
Qed.

(** Releasing.  An address that starts no entry changes nothing and is
    reported.  The address of a registered buffer removes exactly the run of
    handles of that buffer, releases them through the transport and the
    buffer from CUDA if it was registered there, and leaves a well-formed
    cache; the walk along the links always ends inside the array. *)
Theorem buffer_unregister_correct env c addr :
  wf c -> lock_status env = 0 ->
  ((forall b, b ∈ buffers c -> ptr b <> addr) ->
     buffer_unregister env c addr = Ret (NVSHMEMX_ERROR_INVALID_VALUE, c, [], [])) /\
  (forall b, b ∈ buffers c -> ptr b = addr -> linked_with_prev b = false ->
     exists l1 run l2, buffers c = l1 ++ (b :: run) ++ l2 /\
       Forall (fun b => linked_with_prev b = true) run /\
       buffer_unregister env c addr =
         Ret (if bool_decide (update_device_state env <> 0) then NVSHMEMX_ERROR_INTERNAL else 0,
              MkCache (array_size c) (l1 ++ l2),
              if is_release_mem env then handle <$> (b :: run) else [],
              if registered_by_us b then [addr] else []) /\
       wf (MkCache (array_size c) (l1 ++ l2))).
Proof.
  intros [HO HLk HLe HR] HL. unfold buffer_unregister. rewrite HL, bool_decide_eq_false_2 by lia.
  split.
  { intros HN. rewrite (unregister_from_missing env addr (buffers c) [] 0) by done. by destruct c. }
  intros b Hin <- Hp. apply list_elem_of_split in Hin as (l1 & t & EB). rewrite EB in *.
  assert (Forall (fun x => ptr x < ptr b) l1) as HF.
  { apply Forall_forall. intros x Hx. apply list_elem_of_lookup in Hx as [k Hk].
    assert (k < List.length l1)%nat by (by eapply lookup_lt_Some).
    destruct (ordered_elem 0 (l1 ++ b :: t) k x HO) as (_ & ? & _); [by apply lookup_app_l_Some|].
    enough (ptr x + length x <= ptr b) by lia.
    apply (ordered_lookup 0 (l1 ++ b :: t) k (List.length l1) x b HO); [by apply lookup_app_l_Some| |lia].
    by rewrite list_lookup_middle. }
  apply linked_app in HLk as [HL1 HL2]. rewrite link_end_app in HLe.
  assert (link_end None l1 = None) as HN1.
  { destruct (link_end None l1); [|done]. destruct HL2 as [[? _] _]. congruence. }
  rewrite HN1 in HL2, HLe.
  destruct (linked_run_total (b :: t) None b t eq_refl HL2 HLe) as (run & l2 & Hrun & -> & HFr & HLr & HEr).
  exists l1, run, l2. split; [done|split; [done|]]. rewrite unregister_from_skip by done. cbn [app].
  cbn [unregister_from]. rewrite bool_decide_eq_false_2, bool_decide_eq_true_2 by lia.
  rewrite Hrun, !outcome_bind_ret, run_registered by done. split; [done|].
  split; cbn [buffers array_size].
  - by apply (ordered_cut 0 l1 (b :: run) l2).
  - apply linked_app. by rewrite HN1.
  - by rewrite link_end_app, HN1.
  - unfold array_used in *. cbn [buffers]. rewrite EB in HR. revert HR.
    rewrite !length_app. cbn [List.length]. rewrite length_app. lia.
Qed.

(** ** Concrete runs and defects *)
Definition plain_env : reg_env := {|
  attr_status := 0; attr_type := cudaMemoryTypeHost; heap_base := 2 ^ 40; heap_size := 2 ^ 30;
  calloc_ok := true; realloc_ok := true; lock_status := 0;
  host_memory_registration_supported := true; host_register_status := 0;
  is_get_mem := true; is_release_mem := true; get_mem_handle := fun a _ => (0, a);
  update_device_state := 0
|}.
Lemma plain_env_ok addr : addr < 2 ^ 40 -> env_ok plain_env addr.
Proof.
  intros H. split; try done. intros [H1 _]. change (heap_base plain_env) with (2 ^ 40) in H1. lia.
Qed.

Definition cache1 : local_buf_cache :=
  match buffer_register plain_env nvshmemi_local_mem_cache_init 4096 4096 with
  | Ret (_, c) => c
  | Fail _ => nvshmemi_local_mem_cache_init
  end.
Lemma cache1_wf : wf cache1.
Proof. split; vm_compute; repeat split; congruence. Qed.

Lemma registered_buffer_lookup_witness :
  nvshmemi_get_registered_buffer_handle plain_env cache1 5000 8192 = Ret (Some (4096, 3192)).
Proof.
  destruct (registered_buffer_lookup plain_env cache1 5000 8192 cache1_wf eq_refl) as [H _].
  exact (H 0%nat _ eq_refl ltac:(vm_compute; split; congruence)).
Defined.

Lemma buffer_register_correct_witness :
  exists c', buffer_register plain_env cache1 65536 3000000000 = Ret (0, c') /\ wf c' /\
    (forall x, 65536 <= x < 65536 + 3000000000 -> exists b, b ∈ buffers c' /\ contains b x) /\
    (forall b, b ∈ buffers cache1 -> b ∈ buffers c').
Proof.
  apply (buffer_register_correct plain_env cache1 65536 3000000000);
    [apply cache1_wf|apply plain_env_ok; lia|lia..|vm_compute; reflexivity|].
  constructor; [right; vm_compute; congruence|constructor].
Defined.

Lemma register_unregister_roundtrip_witness :
  exists c' hs unreg, buffer_register plain_env cache1 65536 3000000000 = Ret (0, c') /\
    (forall b, b ∈ buffers c' <-> b ∈ hs \/ b ∈ buffers cache1) /\
    buffer_unregister plain_env c' 65536 =
      Ret (0, MkCache (array_size c') (buffers cache1), handle <$> hs, unreg).
Proof.
  apply (register_unregister_roundtrip plain_env cache1 65536 3000000000);
    [apply cache1_wf|apply plain_env_ok; lia|reflexivity|lia..|vm_compute; reflexivity|].
  constructor; [right; vm_compute; congruence|constructor].
Defined.

Lemma buffer_unregister_correct_witness :
  buffer_unregister plain_env cache1 65536 = Ret (NVSHMEMX_ERROR_INVALID_VALUE, cache1, [], []) /\
  exists c', buffer_unregister plain_env cache1 4096 = Ret (0, c', [4096], []) /\ wf c'.
Proof.
  split.
  - apply (buffer_unregister_correct plain_env cache1 65536 cache1_wf eq_refl).
    intros b Hb%list_elem_of_singleton. subst b. vm_compute. congruence.
  - destruct (buffer_unregister_correct plain_env cache1 4096 cache1_wf eq_refl) as [_ H].
    destruct (H (MkBuf 4096 4096 4096 false false false false)) as (l1 & run & l2 & _ & _ & E & W);
      [by apply list_elem_of_singleton|reflexivity..|].
    eexists. split; [|exact W]. rewrite E. vm_compute in E. injection E as E1 E2. vm_compute.
    rewrite <- E1, <- E2. reflexivity.
Defined.

(** A defect: a buffer above 2 GiB has an entry for its second part, and the
    address of that part is accepted as a registered address.  Releasing it
    leaves the first part linked to nothing, and releasing the buffer itself
    then walks past the end of the array. *)
Theorem unregister_part_dangles :
  exists c1 c2 rel, buffer_register plain_env nvshmemi_local_mem_cache_init 65536 3000000000 = Ret (0, c1) /\
    buffer_unregister plain_env c1 (65536 + 2 ^ 31) = Ret (0, c2, rel, []) /\
    buffer_unregister plain_env c2 65536 = Fail FUndef.
Proof. eexists _, _, _. split; [vm_compute; reflexivity|]. split; vm_compute; reflexivity. Qed.

(** A defect: only the buffers before the new address are checked for
    overlap.  Registering [2048, 10240) after [4096, 8192) succeeds, the cache
    is no longer ordered, and the address 9000, which is registered, is not
    found by the data path. *)
Theorem register_overlap_accepted :
  exists c', buffer_register plain_env cache1 2048 8192 = Ret (0, c') /\
    ~ wf c' /\ Exists (fun b => contains b 9000) (buffers c') /\
    nvshmemi_get_registered_buffer_handle plain_env c' 9000 8 = Ret None.
Proof.
  eexists. split; [vm_compute; reflexivity|]. split; [|split].
  - intros [HO _ _ _]. cbn in HO. lia.
  - left. unfold contains. cbn. lia.
  - vm_compute. reflexivity.
Qed.

(** The same environment, except that pushing the device state fails. *)
Definition update_fails_env : reg_env := {|
  attr_status := 0; attr_type := cudaMemoryTypeHost; heap_base := 2 ^ 40; heap_size := 2 ^ 30;
  calloc_ok := true; realloc_ok := true; lock_status := 0;
  host_memory_registration_supported := true; host_register_status := 0;
  is_get_mem := true; is_release_mem := true; get_mem_handle := fun a _ => (0, a);
  update_device_state := 1
|}.

(** A defect: when the update of the device state fails, registration
    reports an error and frees the handles, but leaves them in the cache: a
    later lookup returns a freed handle. *)
Theorem register_failure_dangles :
  exists c', buffer_register update_fails_env cache1 65536 4096 = Ret (NVSHMEMX_ERROR_INTERNAL, c') /\
    (exists b, b ∈ buffers c' /\ contains b 65536 /\ freed b = true) /\
    nvshmemi_get_registered_buffer_handle plain_env c' 65536 8 = Ret (Some (65536, 8)).
Proof.
  eexists. split; [vm_compute; reflexivity|]. split; [|vm_compute; reflexivity].
  eexists. split; [right; left|]. split; [unfold contains; cbn; lia|reflexivity].
Qed.
End BufCache.
