(* ===== verification/TransportCommon.v ===== *)
(** * Helpers the transports share

    Models src/src/modules/transport/common/transport_common.cpp: the cache of
    memory handles indexed by heap granule ([HandleCache]), the put-with-signal
    built from a transport's own operations ([PutSignal]), the membership test
    of the EGM map, and the parser of HCA lists ([HcaList]). *)
From stdpp Require Import base gmap list.
From Stdlib Require Import ZArith Lia Ascii.
From S2P Require Import Prelude ProxyChannel Rma.

(** ** Memory handles by heap granule *)
Module HandleCache.

(** The fields of [struct nvshmem_transport] in use. *)
Record transport := { heap_base : Z; log2_cumem_granularity : Z }.

(** [struct transport_mem_handle_info_cache]: the length of [cache] is [size];
    a null entry is [None]. *)
Record info_cache := MkInfo {
  cache : list (option Z); address_granularity : Z; address_mask : Z
}.
Definition size (c : info_cache) : Z := Z.of_nat (length (cache c)).

Definition nvshmemt_mem_handle_cache_init (t : transport) : info_cache :=
  let g := u64 (Z.shiftl 1 (log2_cumem_granularity t)) in
  MkInfo (replicate 1000 None) g (u64 (Z.lnot (u64 (g - 1)))).

(** [nvshmemt_mem_handle_cache_add]; [realloc_ok] is the answer of [realloc]. *)
Definition nvshmemt_mem_handle_cache_add (realloc_ok : bool) (t : transport) (c : info_cache)
    (addr : Z) (mem_handle_info : option Z) : Z * info_cache :=
  if bool_decide (addr < heap_base t) then (NVSHMEMX_ERROR_INVALID_VALUE, c)
  else
    let addr_offset := addr - heap_base t in
    if bool_decide (addr_offset mod address_granularity c <> 0) then (NVSHMEMX_ERROR_INVALID_VALUE, c)
    else
      let arr_idx := addr_offset / address_granularity c in
      let store (l : list (option Z)) :=
        (NVSHMEMX_SUCCESS,
         MkInfo (<[Z.to_nat arr_idx := mem_handle_info]> l) (address_granularity c) (address_mask c)) in
      if bool_decide (arr_idx >= size c) then
        let new_cache_size := if bool_decide (size c * 2 > arr_idx) then size c * 2 else arr_idx + 1 in
        if realloc_ok then store (cache c ++ replicate (Z.to_nat (new_cache_size - size c)) None)
        else (NVSHMEMX_ERROR_OUT_OF_MEMORY, c)
      else store (cache c).

(** [nvshmemt_mem_handle_cache_get] *)
Definition nvshmemt_mem_handle_cache_get (t : transport) (c : info_cache) (addr : Z) : option Z :=
  if bool_decide (addr < heap_base t) then None
  else
    let aligned_addr := Z.land (addr - heap_base t) (address_mask c) in
    let arr_idx := aligned_addr / address_granularity c in
    if bool_decide (arr_idx >= size c) then None
    else default None (cache c !! Z.to_nat arr_idx).

(** [nvshmemt_mem_handle_cache_get_by_idx]: the bounds test only prints. *)
Definition nvshmemt_mem_handle_cache_get_by_idx (c : info_cache) (idx : Z) : outcome (option Z) :=
  arr_get (cache c) idx.

Definition nvshmemt_mem_handle_cache_get_size (c : option info_cache) : Z :=
  match c with Some c => size c | None => 0 end.

(** [nvshmemt_mem_handle_cache_remove] *)
Definition nvshmemt_mem_handle_cache_remove (t : transport) (c : info_cache) (addr : Z) : Z * info_cache :=
  if bool_decide (addr < heap_base t) then (NVSHMEMX_ERROR_INVALID_VALUE, c)
  else
    let addr_offset := addr - heap_base t in
    if bool_decide (addr_offset mod address_granularity c <> 0) then (NVSHMEMX_ERROR_INVALID_VALUE, c)
    else
      let arr_idx := addr_offset / address_granularity c in
      if bool_decide (arr_idx >= size c) then (NVSHMEMX_ERROR_INVALID_VALUE, c)
      else (NVSHMEMX_SUCCESS,
            MkInfo (<[Z.to_nat arr_idx := None]> (cache c)) (address_granularity c) (address_mask c)).

(** [check_egm]: [None] is the null map. *)
Definition check_egm (addr : Z) (egm_map : option (gmap Z Z)) : bool :=
  match egm_map with
  | None => false
  | Some m => bool_decide (is_Some (m !! addr)) ||
      existsb (fun kv : Z * Z => bool_decide (addr >= kv.1 /\ addr < kv.1 + kv.2)) (map_to_list m)
  end.

(** *** The cache as a map from granules *)
Record cache_ok (t : transport) (c : info_cache) : Prop := {
  co_log : 0 <= log2_cumem_granularity t < 64;
  co_gran : address_granularity c = 2 ^ log2_cumem_granularity t;
  co_mask : address_mask c = Z.ldiff (Z.ones 64) (Z.ones (log2_cumem_granularity t));
  co_size : 0 < size c
}.

(** The granule of an address, and what the cache says of it. *)
Definition granule (t : transport) (addr : Z) : Z := (addr - heap_base t) / 2 ^ log2_cumem_granularity t.
Definition entry (c : info_cache) (g : Z) : option Z := default None (cache c !! Z.to_nat g).

Lemma init_ok t : 0 <= log2_cumem_granularity t < 64 -> cache_ok t (nvshmemt_mem_handle_cache_init t).
Proof.
  intros H. set (k := log2_cumem_granularity t) in *.
  assert (2 ^ k <= 2 ^ 63) by (apply Z.pow_le_mono_r; lia). pose proof (pow2_pos k ltac:(lia)).
  assert (u64 (Z.shiftl 1 k) = 2 ^ k) as Eg.
  { rewrite Z.shiftl_mul_pow2, Z.mul_1_l by lia. apply wrap_small. unfold in_u. lia. }
  split; cbn [address_granularity address_mask nvshmemt_mem_handle_cache_init]; fold k; auto; rewrite ?Eg; auto.
  - rewrite (wrap_small 64 (2 ^ k - 1)) by (unfold in_u; lia).
    apply Z.bits_inj'. intros n Hn. unfold wrap. rewrite Z.ldiff_spec, Z.testbit_ones_nonneg by lia.
    replace (2 ^ k - 1) with (Z.ones k) by (rewrite Z.ones_equiv; lia).
    destruct (decide (n < 64)).
    + rewrite Z.mod_pow2_bits_low, Z.lnot_spec by lia. rewrite (proj2 (Z.ltb_lt n 64)) by lia. done.
    + rewrite Z.mod_pow2_bits_high by lia. by rewrite (proj2 (Z.ltb_ge n 64)) by lia.
  - unfold size, nvshmemt_mem_handle_cache_init. cbn [cache]. rewrite length_replicate. lia.
Qed.

Lemma get_entry t c addr : cache_ok t c -> heap_base t <= addr -> addr - heap_base t < 2 ^ 64 ->
  nvshmemt_mem_handle_cache_get t c addr = entry c (granule t addr).
Proof.
  intros [H1 H2 H3 H4] Ha Hb. unfold nvshmemt_mem_handle_cache_get, entry, granule.
  rewrite bool_decide_eq_false_2 by lia. rewrite H2, H3, land_high_mask by (unfold in_u; lia).
  set (k := log2_cumem_granularity t) in *. pose proof (pow2_pos k ltac:(lia)).
  assert ((addr - heap_base t - (addr - heap_base t) mod 2 ^ k) / 2 ^ k = (addr - heap_base t) / 2 ^ k) as ->
    by (Z.div_mod_to_equations; nia).
  case_bool_decide as C; [|done]. unfold size in C. rewrite lookup_ge_None_2; [done|].
  pose proof (Z.div_pos (addr - heap_base t) (2 ^ k)). lia.
Qed.

Lemma add_inv ok t c addr info c' : cache_ok t c -> 
  nvshmemt_mem_handle_cache_add ok t c addr info = (NVSHMEMX_SUCCESS, c') ->
  heap_base t <= addr /\ cache_ok t c' /\
  (forall g, 0 <= g -> entry c' g = if bool_decide (g = granule t addr) then info else entry c g).
Proof.
  intros CO. destruct CO as [H1 H2 H3 H4]. unfold nvshmemt_mem_handle_cache_add. rewrite H2.
  fold (granule t addr). set (k := log2_cumem_granularity t) in *. pose proof (pow2_pos k ltac:(lia)).
  case_bool_decide as Ca; [done|]. case_bool_decide as Cm; [done|].
  assert (0 <= granule t addr) as Hg by (apply Z.div_pos; lia).
  assert (forall l : list (option Z), (Z.to_nat (granule t addr) < length l)%nat -> size c <= Z.of_nat (length l) ->
    (forall g, default None (l !! g) = default None (cache c !! g)) ->
    (NVSHMEMX_SUCCESS, MkInfo (<[Z.to_nat (granule t addr):=info]> l) (2 ^ k) (address_mask c)) =
      (NVSHMEMX_SUCCESS, c') ->
    heap_base t <= addr /\ cache_ok t c' /\
    (forall g, 0 <= g -> entry c' g = if bool_decide (g = granule t addr) then info else entry c g)) as Hst.
  { intros l Hl Hs He [= <-]. split; [lia|split].
    - split; cbn; auto. unfold size in *. cbn. rewrite length_insert. lia.
    - intros g Hg0. unfold entry. cbn. case_bool_decide as C.
      + subst g. by rewrite list_lookup_insert_eq.
      + rewrite list_lookup_insert_ne by lia. apply He. }
  unfold size in *. case_bool_decide as Ci.
  - destruct ok; [|done]. apply Hst.
    + rewrite length_app, length_replicate. case_bool_decide; lia.
    + rewrite length_app. lia.
    + intros g. destruct (decide (g < length (cache c))%nat).
      * by rewrite lookup_app_l.
      * rewrite lookup_app_r, (lookup_ge_None_2 (cache c)) by lia.
        destruct (replicate _ None !! _) as [x|] eqn:E; [|done].
        apply lookup_replicate in E as [-> _]. done.
  - apply Hst; [lia|lia|done].
Qed.

(** The cache is a map from heap granules to handles: after a successful
    [add] at [addr], [get] returns the new handle for every address of the same
    granule and what it returned before for every other heap address, however
    far the array had to grow. *)
Theorem handle_cache_add_get ok t c addr info c' x :
  cache_ok t c -> nvshmemt_mem_handle_cache_add ok t c addr info = (NVSHMEMX_SUCCESS, c') ->
  heap_base t <= x -> x - heap_base t < 2 ^ 64 ->
  nvshmemt_mem_handle_cache_get t c' x =
    if bool_decide (granule t x = granule t addr) then info else nvshmemt_mem_handle_cache_get t c x.
Proof.
  intros CO HA Hx Hx2. destruct (add_inv _ _ _ _ _ _ CO HA) as (_ & CO' & HE).
  rewrite !get_entry by done. apply HE. unfold granule. apply Z.div_pos; [lia|].
  apply pow2_pos, CO.
Qed.

(** [remove] of a granule that was added makes [get] return null on that
    granule, and restores what was there for all others. *)
Theorem handle_cache_remove_get t c addr c' x :
  cache_ok t c -> nvshmemt_mem_handle_cache_remove t c addr = (NVSHMEMX_SUCCESS, c') ->
  heap_base t <= x -> x - heap_base t < 2 ^ 64 ->
  nvshmemt_mem_handle_cache_get t c' x =
    if bool_decide (granule t x = granule t addr) then None else nvshmemt_mem_handle_cache_get t c x.
Proof.
  intros CO HA Hx Hx2. pose proof CO as [H1 H2 H3 H4].
  unfold nvshmemt_mem_handle_cache_remove in HA. rewrite H2 in HA. fold (granule t addr) in HA.
  set (k := log2_cumem_granularity t) in *. pose proof (pow2_pos k ltac:(lia)).
  case_bool_decide as Ca; [done|]. case_bool_decide as Cm; [done|]. case_bool_decide as Ci; [done|].
  injection HA as <-. unfold size in *.
  assert (0 <= granule t addr) as Hg by (apply Z.div_pos; lia).
  assert (0 <= granule t x) as Hgx by (apply Z.div_pos; [lia|done]).
  assert (cache_ok t (MkInfo (<[Z.to_nat (granule t addr):=None]> (cache c)) (2 ^ k) (address_mask c))) as CO'.
  { split; cbn; auto. unfold size. cbn. by rewrite length_insert. }
  rewrite !get_entry by done. unfold entry. cbn. case_bool_decide as C.
  - rewrite C, list_lookup_insert_eq by lia. done.
  - by rewrite list_lookup_insert_ne by lia.
Qed.

(** A heap at 2 MiB with 512-byte granules. *)
Definition demo_t : transport := {| heap_base := 2097152; log2_cumem_granularity := 9 |}.
Definition demo_c : info_cache := nvshmemt_mem_handle_cache_init demo_t.

Lemma handle_cache_add_get_witness :
  nvshmemt_mem_handle_cache_get demo_t
    (snd (nvshmemt_mem_handle_cache_add true demo_t demo_c (2097152 + 512 * 2000) (Some 7)))
    (2097152 + 512 * 2000 + 100) = Some 7.
Proof.
  rewrite (handle_cache_add_get true demo_t demo_c (2097152 + 512 * 2000) (Some 7)
             (snd (nvshmemt_mem_handle_cache_add true demo_t demo_c (2097152 + 512 * 2000) (Some 7))));
    [reflexivity|apply init_ok; cbn; lia|vm_compute; reflexivity|cbn; lia|cbn; lia].
Defined.

Lemma handle_cache_remove_get_witness :
  nvshmemt_mem_handle_cache_get demo_t
    (snd (nvshmemt_mem_handle_cache_remove demo_t demo_c 2098176)) 2098200 = None.
Proof.
  rewrite (handle_cache_remove_get demo_t demo_c 2098176
             (snd (nvshmemt_mem_handle_cache_remove demo_t demo_c 2098176)));
    [reflexivity|apply init_ok; cbn; lia|vm_compute; reflexivity|cbn; lia|cbn; lia].
Defined.
End HandleCache.

(** ** Put with signal from a transport's own operations *)
Module PutSignal.

(** [nvshmemt_put_signal]; [status_of] is what the transport's operation returns
    after the given trace.  The loop keeps only the last status. *)
Section PutSignal.
Context (status_of : Rma.trace -> Rma.event -> Z) (has_rma has_amo has_fence : bool).

Fixpoint put_loop (tr : Rma.trace) (status pe qp : Z) (verb : Rma.rma_verb)
    (remote local : list Rma.rma_memdesc) (bytes : list Rma.rma_bytesdesc) : Z * Rma.trace :=
  match remote, local, bytes with
  | r :: remote, l :: local, b :: bytes =>
      let ev := Rma.EvRma pe verb r l b qp in
      put_loop (tr ++ [ev]) (status_of tr ev) pe qp verb remote local bytes
  | _, _, _ => (status, tr)
  end.

Definition nvshmemt_put_signal (tr : Rma.trace) (pe : Z) (verb : Rma.rma_verb)
    (remote local : list Rma.rma_memdesc) (bytes : list Rma.rma_bytesdesc)
    (sig_op : Z) (sig_target : Rma.amo_memdesc) (sig_bytes qp : Z) : outcome (Z * Rma.trace) :=
  _ ← cassert has_rma;
  _ ← cassert has_amo;
  _ ← cassert (bool_decide (length remote = length local /\ length local = length bytes));
  let '(status, tr) := put_loop tr 0 pe qp verb remote local bytes in
  let '(status, tr) :=
    if has_fence then
      let ev := Rma.EvFence pe Channel.NVSHMEMX_QP_DEFAULT 0 in (status_of tr ev, tr ++ [ev])
    else (status, tr) in
  let '(status, tr) :=
    if bool_decide (status <> 0) then (status, tr)
    else let ev := Rma.EvAmo pe sig_op sig_target sig_bytes qp in (status_of tr ev, tr ++ [ev]) in
  Ret (if bool_decide (status = 0) then 0 else NVSHMEMX_ERROR_INTERNAL, tr).

(** The transfers of the descriptor vectors, in order. *)
Definition put_events (pe qp : Z) (verb : Rma.rma_verb) (remote local : list Rma.rma_memdesc)
    (bytes : list Rma.rma_bytesdesc) : Rma.trace :=
  zip_with (fun rl b => Rma.EvRma pe verb rl.1 rl.2 b qp) (zip remote local) bytes.

Lemma put_loop_trace pe qp verb : forall remote local bytes tr status,
  length remote = length local -> length local = length bytes ->
  snd (put_loop tr status pe qp verb remote local bytes) = tr ++ put_events pe qp verb remote local bytes.
Proof.
  induction remote as [|r remote IH]; intros [|l local] [|b bytes] tr status; try discriminate;
    cbn [length put_loop]; intros H1 H2.
  - by rewrite app_nil_r.
  - rewrite IH by lia. unfold put_events. cbn. by rewrite <- app_assoc.
Qed.

(** Ordering of put-with-signal on a transport with a fence: every data
    transfer is issued, in order, before the fence, and the signal only after
    the fence; when the fence reports an error no signal is sent and an error
    is returned. *)
Theorem put_signal_order tr pe verb remote local bytes sig_op sig_target sig_bytes qp :
  has_rma = true -> has_amo = true -> has_fence = true ->
  length remote = length local -> length local = length bytes ->
  let puts := tr ++ put_events pe qp verb remote local bytes in
  let fence := Rma.EvFence pe Channel.NVSHMEMX_QP_DEFAULT 0 in
  let signal := Rma.EvAmo pe sig_op sig_target sig_bytes qp in
  exists status,
    nvshmemt_put_signal tr pe verb remote local bytes sig_op sig_target sig_bytes qp =
      Ret (status, if bool_decide (status_of puts fence = 0) then puts ++ [fence; signal]
                   else puts ++ [fence]) /\
    (status = 0 <-> status_of puts fence = 0 /\ status_of (puts ++ [fence]) signal = 0).
Proof.
  intros H1 H2 H3 HL1 HL2 puts fence signal. unfold nvshmemt_put_signal. rewrite H1, H2, H3.
  rewrite (bool_decide_eq_true_2 (length remote = length local /\ _)) by done. cbn [cassert].
  rewrite !outcome_bind_ret.
  destruct (put_loop tr 0 pe qp verb remote local bytes) as [st tr1] eqn:E.
  assert (tr1 = puts) as -> by (pose proof (put_loop_trace pe qp verb remote local bytes tr 0 HL1 HL2) as H;
                                by rewrite E in H).
  fold fence. destruct (bool_decide_reflect (status_of puts fence = 0)) as [Hf|Hf].
  - rewrite Hf, (bool_decide_eq_false_2 (0 <> 0)) by lia. fold signal. eexists. split.
    { by rewrite <- app_assoc. }
    case_bool_decide; split; (done || tauto || (intros [_ ?]; done)).
  - rewrite bool_decide_eq_true_2 by done. rewrite bool_decide_eq_false_2 by done. eexists. split; [done|].
    split; [done|tauto].
Qed.
End PutSignal.

(** A transport whose transfers all fail but whose fence and atomics succeed. *)
Definition failing_puts (tr : Rma.trace) (ev : Rma.event) : Z :=
  match ev with Rma.EvRma _ _ _ _ _ _ => NVSHMEMX_ERROR_INTERNAL | _ => 0 end.
Definition demo_desc : Rma.rma_memdesc := {| Rma.ptr := 4096; Rma.offset := 0; Rma.handle := Some 1 |}.
Definition demo_sig : Rma.amo_memdesc :=
  {| Rma.remote_memdesc := demo_desc; Rma.retflag := 0; Rma.retptr := 0; Rma.val := 1; Rma.cmp := 0;
     Rma.ret_handle := None |}.

Lemma put_signal_order_witness :
  exists status,
    nvshmemt_put_signal (fun _ _ => 0) true true true [] 1 Rma.demo_verb [demo_desc] [demo_desc]
      [Rma.byte_chunk 8] 9 demo_sig 8 1 =
    Ret (status, [Rma.EvRma 1 Rma.demo_verb demo_desc demo_desc (Rma.byte_chunk 8) 1;
                  Rma.EvFence 1 1 0; Rma.EvAmo 1 9 demo_sig 8 1]) /\
    (status = 0 <-> 0 = 0 /\ 0 = 0).
Proof.
  apply (put_signal_order (fun _ _ => 0) true true true [] 1 Rma.demo_verb [demo_desc] [demo_desc]
           [Rma.byte_chunk 8] 9 demo_sig 8 1); reflexivity.
Defined.

(** A defect: the status of the transfers is overwritten by that of the
    fence, so a put whose transfers all fail still delivers its signal and
    reports success. *)
Theorem put_signal_ignores_errors :
  exists tr, nvshmemt_put_signal failing_puts true true true [] 1 Rma.demo_verb
      [demo_desc] [demo_desc] [Rma.byte_chunk 8] 9 demo_sig 8 1 = Ret (0, tr) /\
    last tr = Some (Rma.EvAmo 1 9 demo_sig 8 1).
Proof. eexists. split; vm_compute; reflexivity. Qed.
End PutSignal.

(** ** HCA lists *)
Module HcaList.
#[local] Open Scope char_scope.

(** [struct nvshmemt_hca_info]; [name] without its terminator *)
Record hca_info := MkHca { name : list ascii; port : Z; count : Z; found : Z }.
Definition name_size : nat := 64.

Definition is_digit (c : ascii) : bool :=
  bool_decide (48 <= Z.of_N (N_of_ascii c) <= 57)%Z.
Definition digit_val (c : ascii) : Z := Z.of_N (N_of_ascii c) - 48.
Definition is_space (c : ascii) : bool :=
  bool_decide (Z.of_N (N_of_ascii c) = 32 \/ 9 <= Z.of_N (N_of_ascii c) <= 13)%Z.

(** [atoi], without the undefined behaviour of values outside [int] *)
Fixpoint atoi_digits (acc : Z) (s : list ascii) : Z :=
  match s with
  | c :: s => if is_digit c then atoi_digits (acc * 10 + digit_val c) s else acc
  | [] => acc
  end.
Fixpoint skip_space (s : list ascii) : list ascii :=
  match s with c :: r => if is_space c then skip_space r else s | [] => [] end.
Definition atoi (s : list ascii) : Z :=
  match skip_space s with
  | "-" :: s => - atoi_digits 0 s
  | "+" :: s => atoi_digits 0 s
  | s => atoi_digits 0 s
  end.

(** [while (c != ',' && c != ':' && c != '\0')]: stop before the delimiter. *)
Fixpoint skip_segment (s : list ascii) : list ascii :=
  match s with
  | c :: r => if bool_decide (c = "," \/ c = ":") then s else skip_segment r
  | [] => []
  end.

(** The entries so far, the partial name with its [port] and [count], and
    [segment_counter]. *)
Record state := MkSt { parsed : list hca_info; cur : list ascii; cur_port : Z; cur_count : Z; segment : Z }.

(** [name[if_counter] = '\0'; port = p; found = 0; if_num++; if_counter = 0] *)
Definition finish (st : state) (p segment : Z) : outcome state :=
  if bool_decide (name_size <= length (cur st))%nat then Fail FUndef
  else Ret (MkSt (parsed st ++ [MkHca (cur st) p (cur_count st) 0]) [] (cur_port st) (cur_count st) segment).

(** [hca_list[if_num - 1].count = n] *)
Definition set_count (l : list hca_info) (n : Z) : outcome (list hca_info) :=
  match last l with
  | Some i => Ret (take (length l - 1) l ++ [MkHca (name i) (port i) n (found i)])
  | None => Fail FUndef
  end.

(** One iteration on the character [c], with [s] after it: the state, what is
    left of the string, and whether the loop's [c] is non-zero. *)
Definition on_char (st : state) (c : ascii) (s : list ascii) : outcome (state * list ascii * bool) :=
  if bool_decide (c = ":") then
    st ← (if bool_decide (segment st = 0) then
            if bool_decide (cur st = []) then Ret st else finish st (atoi s) 1
          else l ← set_count (parsed st) (atoi s);
               Ret (MkSt l (cur st) (cur_port st) (cur_count st) 0));
    let s := skip_segment s in Ret (st, s, bool_decide (s <> []))
  else if bool_decide (c = ",") then
    st ← (if bool_decide (cur st = []) then Ret (MkSt (parsed st) [] (cur_port st) (cur_count st) 0)
          else finish st (cur_port st) 0);
    Ret (st, s, true)
  else if bool_decide (name_size <= length (cur st))%nat then Fail FUndef
  else
    let '(p, n) := if bool_decide (cur st = []) then (-1, 1) else (cur_port st, cur_count st) in
    Ret (MkSt (parsed st) (cur st ++ [c]) p n (segment st), s, true).

(** The [do ... while] loop: the empty string is the terminator. *)
Fixpoint parse_loop (fuel : nat) (max_count : Z) (st : state) (s : list ascii) : outcome (list hca_info) :=
  match fuel with
  | O => Fail FSpin
  | S fuel =>
      match s with
      | [] => if bool_decide (cur st = []) then Ret (parsed st)
              else st ← finish st (cur_port st) 0; Ret (parsed st)
      | c :: s =>
          '(st, s, more) ← on_char st c s;
          if bool_decide (Z.of_nat (length (parsed st)) < max_count) && more
          then parse_loop fuel max_count st s else Ret (parsed st)
      end
  end.

(** [nvshmemt_parse_hca_list]: the entries filled, of which the return value is
    the number; [None] is the null string. *)
Definition nvshmemt_parse_hca_list (string : option (list ascii)) (max_count : Z) : outcome (list hca_info) :=
  match string with
  | None => Ret []
  | Some s =>
      let s := match s with "^" :: r => r | _ => s end in
      parse_loop (S (length s)) max_count (MkSt [] [] 0 0 0) s
  end.

(** *** Printing, and the round trip *)
Inductive hca_spec :=
| HName (n : list ascii)
| HPort (n : list ascii) (p : Z)
| HCount (n : list ascii) (p c : Z).

Definition chr (d : Z) : ascii := ascii_of_N (Z.to_N (d + 48)).
Fixpoint digits (fuel : nat) (n : Z) : list ascii :=
  match fuel with
  | O => []
  | S f => if bool_decide (n < 10)%Z then [chr n] else digits f (n / 10) ++ [chr (n mod 10)]
  end.
Definition print_int (n : Z) : list ascii := digits (S (Z.to_nat n)) n.

Definition print_spec (e : hca_spec) : list ascii :=
  match e with
  | HName n => n
  | HPort n p => n ++ ":" :: print_int p
  | HCount n p c => n ++ ":" :: print_int p ++ ":" :: print_int c
  end.
Fixpoint print_list (l : list hca_spec) : list ascii :=
  match l with
  | [] => []
  | e :: l => print_spec e ++ match l with [] => [] | _ => "," :: print_list l end
  end.

Definition info_of (e : hca_spec) : hca_info :=
  match e with
  | HName n => MkHca n (-1) 1 0
  | HPort n p => MkHca n p 1 0
  | HCount n p c => MkHca n p c 0
  end.

Definition name_ok (n : list ascii) : Prop :=
  n <> [] /\ (length n < name_size)%nat /\ Forall (fun c => c <> ":" /\ c <> ",") n.
Definition spec_ok (e : hca_spec) : Prop :=
  match e with
  | HName n => name_ok n
  | HPort n p => name_ok n /\ (0 <= p)%Z
  | HCount n p c => name_ok n /\ (0 <= p)%Z /\ (0 <= c)%Z
  end.

(** Decimal numbers *)
#[local] Open Scope Z_scope.
Lemma chr_digit d : 0 <= d < 10 -> is_digit (chr d) = true /\ digit_val (chr d) = d.
Proof.
  intros H. unfold is_digit, digit_val, chr. rewrite N_ascii_embedding by lia.
  rewrite Z2N.id by lia. split; [apply bool_decide_eq_true_2|]; lia.
Qed.

Lemma atoi_digits_app l : forall acc rest, Forall (fun c => is_digit c = true) l ->
  atoi_digits acc (l ++ rest) = atoi_digits (atoi_digits acc l) rest.
Proof.
  induction l as [|c l IH]; intros acc rest HF; [done|]. apply Forall_cons in HF as [Hc HF].
  cbn. rewrite Hc. by apply IH.
Qed.

Lemma digits_spec f : forall n, 0 <= n -> (Z.to_nat n < f)%nat ->
  Forall (fun c => is_digit c = true) (digits f n) /\ digits f n <> [] /\ atoi_digits 0 (digits f n) = n.
Proof.
  induction f as [|f IH]; intros n Hn Hf; [lia|]. cbn [digits]. case_bool_decide as C.
  - destruct (chr_digit n ltac:(lia)) as [H1 H2]. split; [by constructor|split; [done|]]. cbn. rewrite H1, H2. lia.
  - destruct (IH (n / 10)) as (F1 & F2 & F3); [apply Z.div_pos; lia| |].
    { assert (n / 10 < n) by (apply Z.div_lt; lia). lia. }
    destruct (chr_digit (n mod 10) (Z.mod_pos_bound n 10 ltac:(lia))) as [H1 H2].
    split; [apply Forall_app_2; [done|by constructor]|split].
    + by destruct (digits f (n / 10)).
    + rewrite atoi_digits_app, F3 by done. cbn. rewrite H1, H2. pose proof (Z.div_mod n 10). lia.
Qed.

(** What may follow a number or a name: the end or a delimiter. *)
Definition delimited (s : list ascii) : Prop :=
  match s with [] => True | c :: _ => c = "," \/ c = ":" end.

Lemma digit_not_space c : is_digit c = true -> is_space c = false /\ c <> "-" /\ c <> "+" /\ c <> "," /\ c <> ":".
Proof.
  unfold is_digit, is_space. intros H%bool_decide_eq_true_1. split.
  - apply bool_decide_eq_false_2. lia.
  - repeat split; intros ->; cbn in H; lia.
Qed.

Lemma print_int_atoi n rest : 0 <= n -> delimited rest ->
  atoi (print_int n ++ rest) = n /\ skip_segment (print_int n ++ rest) = rest /\ print_int n <> [].
Proof.
  intros Hn Hd. destruct (digits_spec (S (Z.to_nat n)) n Hn ltac:(lia)) as (F1 & F2 & F3).
  fold (print_int n) in *. split; [|split; [|done]].
  - destruct (print_int n) as [|c l] eqn:E; [done|]. apply Forall_cons in F1 as F1'. destruct F1' as [Hc _].
    destruct (digit_not_space c Hc) as (S1 & S2 & S3 & _). unfold atoi. cbn [app skip_space]. rewrite S1.
    assert (atoi_digits 0 ((c :: l) ++ rest) = n) as EV.
    { rewrite atoi_digits_app, F3 by done. destruct rest as [|d rest]; [done|]. cbn.
      destruct Hd as [-> | ->]; reflexivity. }
    rewrite <- EV at 1. cbn [app].
    destruct c as [[] [] [] [] [] [] [] []]; done.
  - clear F2 F3. induction F1 as [|c l Hc F1 IH]; cbn.
    + destruct rest as [|d rest]; [done|]. cbn. by rewrite bool_decide_eq_true_2.
    + destruct (digit_not_space c Hc) as (_ & _ & _ & S4 & S5). rewrite bool_decide_eq_false_2 by tauto. done.
Qed.

(** *** The loop on one entry *)

(** Name characters accumulate. *)
Lemma parse_name max n : forall fuel l pre p c rest,
  Forall (fun c => c <> ":" /\ c <> ",") n -> (length (pre ++ n) <= name_size)%nat ->
  Z.of_nat (length l) < max -> pre <> [] -> (length n < fuel)%nat ->
  parse_loop fuel max (MkSt l pre p c 0) (n ++ rest) =
  parse_loop (fuel - length n) max (MkSt l (pre ++ n) p c 0) rest.
Proof.
  induction n as [|x n IH]; intros fuel l pre p c rest HF Hlen Hmax Hpre Hf.
  { rewrite app_nil_r, Nat.sub_0_r. done. }
  apply Forall_cons in HF as [[Hx1 Hx2] HF]. destruct fuel as [|fuel]; [cbn in Hf; lia|].
  rewrite length_app in Hlen. cbn [length] in Hlen, Hf. cbn [app parse_loop]. unfold on_char.
  rewrite (bool_decide_eq_false_2 (x = ":")), (bool_decide_eq_false_2 (x = ",")) by done. cbn [cur segment].
  rewrite (bool_decide_eq_false_2 (name_size <= length pre)%nat) by lia.
  rewrite (bool_decide_eq_false_2 (pre = [])) by done. rewrite outcome_bind_ret. cbn [parsed cur_port cur_count].
  rewrite (bool_decide_eq_true_2 (Z.of_nat (length l) < max)) by done. cbn [andb].
  rewrite IH; [|done|rewrite !length_app; cbn [length]; lia|done|by destruct pre|lia].
  by rewrite <- app_assoc.
Qed.

Lemma parse_name_start max n fuel l p c rest :
  name_ok n -> Z.of_nat (length l) < max -> (length n < fuel)%nat ->
  parse_loop fuel max (MkSt l [] p c 0) (n ++ rest) =
  parse_loop (fuel - length n) max (MkSt l n (-1) 1 0) rest.
Proof.
  intros (Hn & Hl & HF) Hmax Hf. destruct n as [|x n]; [done|].
  apply Forall_cons in HF as [[Hx1 Hx2] HF]. destruct fuel as [|fuel]; [lia|].
  cbn [app parse_loop length] in *. unfold on_char.
  rewrite (bool_decide_eq_false_2 (x = ":")), (bool_decide_eq_false_2 (x = ",")) by done. cbn [cur segment].
  rewrite (bool_decide_eq_false_2 (name_size <= length [])%nat) by (cbn; unfold name_size; lia).
  rewrite (bool_decide_eq_true_2 ([] = [])) by done. rewrite outcome_bind_ret. cbn [parsed].
  rewrite (bool_decide_eq_true_2 (Z.of_nat (length l) < max)) by done. cbn [andb app].
  rewrite parse_name; [done|done|cbn; lia|done|done|lia].
Qed.

Lemma finish_ok l n p c q seg : name_ok n ->
  finish (MkSt l n p c 0) q seg = Ret (MkSt (l ++ [MkHca n q c 0]) [] p c seg).
Proof. intros (_ & H & _). unfold finish. cbn [cur]. by rewrite bool_decide_eq_false_2 by lia. Qed.

Lemma length_snoc {A} (l : list A) x : Z.of_nat (length (l ++ [x])) = Z.of_nat (length l) + 1.
Proof. rewrite length_app. cbn. lia. Qed.

(** After the name: a port. *)
Lemma parse_port max fuel l n p rest :
  name_ok n -> 0 <= p -> delimited rest -> Z.of_nat (length l) + 1 < max ->
  parse_loop (S fuel) max (MkSt l n (-1) 1 0) (":" :: print_int p ++ rest) =
  if bool_decide (rest = []) then Ret (l ++ [MkHca n p 1 0])
  else parse_loop fuel max (MkSt (l ++ [MkHca n p 1 0]) [] (-1) 1 1) rest.
Proof.
  intros Hn Hp Hd Hmax. destruct (print_int_atoi p rest Hp Hd) as (A1 & A2 & _).
  cbn [parse_loop]. unfold on_char. rewrite (bool_decide_eq_true_2 (":" = ":")) by done. cbn [segment cur].
  rewrite (bool_decide_eq_true_2 (0 = 0)), (bool_decide_eq_false_2 (n = [])) by (done || apply Hn).
  rewrite A1, A2, finish_ok, !outcome_bind_ret by done. cbn [parsed].
  rewrite bool_decide_eq_true_2 by (rewrite length_snoc; lia). cbn [andb].
  destruct rest; reflexivity.
Qed.

(** After the port: a count. *)
Lemma parse_count max fuel l n p c rest :
  0 <= c -> delimited rest -> Z.of_nat (length l) + 1 < max ->
  parse_loop (S fuel) max (MkSt (l ++ [MkHca n p 1 0]) [] (-1) 1 1) (":" :: print_int c ++ rest) =
  if bool_decide (rest = []) then Ret (l ++ [MkHca n p c 0])
  else parse_loop fuel max (MkSt (l ++ [MkHca n p c 0]) [] (-1) 1 0) rest.
Proof.
  intros Hc Hd Hmax. destruct (print_int_atoi c rest Hc Hd) as (A1 & A2 & _).
  cbn [parse_loop]. unfold on_char. rewrite (bool_decide_eq_true_2 (":" = ":")) by done. cbn [segment cur].
  rewrite (bool_decide_eq_false_2 (1 = 0)) by done. cbn [parsed].
  assert (set_count (l ++ [MkHca n p 1 0]) (atoi (print_int c ++ rest)) = Ret (l ++ [MkHca n p c 0])) as ->.
  { unfold set_count. rewrite last_snoc, A1. cbn. do 2 f_equal.
    rewrite length_app. cbn. rewrite Nat.add_sub. apply take_app_length. }
  rewrite A2, !outcome_bind_ret. cbn [parsed cur_port cur_count].
  rewrite bool_decide_eq_true_2 by (rewrite length_snoc; lia). cbn [andb].
  destruct rest; reflexivity.
Qed.

(** A comma after a finished entry, and after a bare name. *)
Lemma parse_comma max fuel l p c seg rest :
  Z.of_nat (length l) < max ->
  parse_loop (S fuel) max (MkSt l [] p c seg) ("," :: rest) = parse_loop fuel max (MkSt l [] p c 0) rest.
Proof.
  intros Hmax. cbn [parse_loop]. unfold on_char.
  rewrite (bool_decide_eq_false_2 ("," = ":")), (bool_decide_eq_true_2 ("," = ",")) by done. cbn [cur].
  rewrite (bool_decide_eq_true_2 ([] = [])) by done. rewrite !outcome_bind_ret. cbn [parsed].
  by rewrite (bool_decide_eq_true_2 (Z.of_nat (length l) < max)) by done.
Qed.

Lemma parse_comma_name max fuel l n p c rest :
  name_ok n -> Z.of_nat (length l) + 1 < max ->
  parse_loop (S fuel) max (MkSt l n p c 0) ("," :: rest) =
  parse_loop fuel max (MkSt (l ++ [MkHca n p c 0]) [] p c 0) rest.
Proof.
  intros Hn Hmax. cbn [parse_loop]. unfold on_char.
  rewrite (bool_decide_eq_false_2 ("," = ":")), (bool_decide_eq_true_2 ("," = ",")) by done. cbn [cur cur_port].
  rewrite (bool_decide_eq_false_2 (n = [])) by apply Hn. rewrite finish_ok, !outcome_bind_ret by done. cbn [parsed].
  by rewrite bool_decide_eq_true_2 by (rewrite length_snoc; lia).
Qed.

(** One printed entry, at the end of the string or before a comma. *)
Lemma parse_entry max e : forall fuel l p c rest,
  spec_ok e -> Z.of_nat (length l) + 1 < max -> (length (print_spec e ++ rest) < fuel)%nat ->
  (rest = [] -> parse_loop fuel max (MkSt l [] p c 0) (print_spec e ++ rest) = Ret (l ++ [info_of e])) /\
  (forall r, rest = "," :: r -> exists fuel' p' c', (length r < fuel')%nat /\
     parse_loop fuel max (MkSt l [] p c 0) (print_spec e ++ rest) =
     parse_loop fuel' max (MkSt (l ++ [info_of e]) [] p' c' 0) r).
Proof.
  intros fuel l p c rest He Hmax Hf. rewrite length_app in Hf.
  assert (Z.of_nat (length l) < max) as Hmax0 by lia.
  destruct e as [n|n q|n q k]; cbn [print_spec info_of spec_ok] in *.
  - rewrite parse_name_start by (done || lia). remember (fuel - length n)%nat as f eqn:Ef.
    destruct f as [|f]; [lia|]. split.
    + intros ->. cbn [parse_loop cur]. rewrite (bool_decide_eq_false_2 (n = [])) by apply He.
      cbn [cur_port]. by rewrite finish_ok, outcome_bind_ret.
    + intros r ->. eexists f, _, _. split; [cbn in Hf; lia|]. by apply parse_comma_name.
  - destruct He as (Hn & Hq). rewrite length_app in Hf. cbn [length] in Hf.
    rewrite <- app_assoc. rewrite parse_name_start by (done || lia).
    remember (fuel - length n)%nat as f eqn:Ef. destruct f as [|f]; [lia|]. cbn [app]. split.
    + intros ->. rewrite parse_port by done. by rewrite bool_decide_eq_true_2.
    + intros r ->. rewrite parse_port by (done || (cbn; auto)). rewrite bool_decide_eq_false_2 by done.
      cbn [length] in Hf. destruct f as [|f]; [lia|].
      rewrite parse_comma by (rewrite length_snoc; lia). eexists f, _, _. split; [lia|done].
  - destruct He as (Hn & Hq & Hk). rewrite !length_app in Hf. cbn [length] in Hf. rewrite length_app in Hf.
    cbn [length] in Hf. rewrite <- app_assoc. rewrite parse_name_start by (done || lia).
    remember (fuel - length n)%nat as f eqn:Ef. destruct f as [|f]; [lia|]. cbn [app].
    rewrite <- app_assoc. cbn [app]. rewrite parse_port by (done || (cbn; auto)).
    rewrite bool_decide_eq_false_2 by done. destruct f as [|f]; [lia|]. split.
    + intros ->. rewrite parse_count by done. by rewrite bool_decide_eq_true_2.
    + intros r ->. rewrite parse_count by (done || (cbn; auto)). rewrite bool_decide_eq_false_2 by done.
      cbn [length] in Hf. destruct f as [|f]; [lia|].
      rewrite parse_comma by (rewrite length_snoc; lia). eexists f, _, _. split; [lia|done].
Qed.

Lemma parse_list max es : forall fuel l p c,
  es <> [] -> Forall spec_ok es -> Z.of_nat (length l) + Z.of_nat (length es) < max ->
  (length (print_list es) < fuel)%nat ->
  parse_loop fuel max (MkSt l [] p c 0) (print_list es) = Ret (l ++ (info_of <$> es)).
Proof.
  induction es as [|e es IH]; intros fuel l p c Hne HF Hmax Hf; [done|].
  apply Forall_cons in HF as [He HF]. cbn [length] in Hmax. cbn [print_list] in *.
  destruct (parse_entry max e fuel l p c (match es with [] => [] | _ => "," :: print_list es end) He)
    as [H1 H2]; [lia|done|].
  destruct es as [|e' es]; [by rewrite H1|].
  destruct (H2 _ eq_refl) as (fuel' & p' & c' & Hf' & ->).
  rewrite IH; [|done|done|rewrite length_snoc; lia|done]. by rewrite <- app_assoc.
Qed.

(** Round trip of the HCA list syntax: parsing the printed form of a list of
    [name], [name:port] and [name:port:count] entries (shorter than the array)
    fills the array with exactly these entries, in order, with the documented
    defaults; a leading [^] is skipped. *)
Theorem hca_list_roundtrip max es (neg : bool) :
  es <> [] -> Forall spec_ok es -> Z.of_nat (length es) < max ->
  (neg = false -> head (print_list es) <> Some "^") ->
  nvshmemt_parse_hca_list (Some (if neg then "^" :: print_list es else print_list es)) max =
  Ret (info_of <$> es).
Proof.
  intros Hne HF Hmax Hneg. unfold nvshmemt_parse_hca_list.
  set (s := match _ with "^" :: r => r | _ => _ end).
  assert (s = print_list es) as ->.
  { subst s. destruct neg; [done|]. specialize (Hneg eq_refl).
    destruct (print_list es) as [|x l]; [done|]. destruct x as [[] [] [] [] [] [] [] []]; try done. }
  by rewrite parse_list by (done || (cbn; lia)).
Qed.

Definition demo_specs : list hca_spec :=
  [HName ["m"; "0"]; HPort ["m"; "1"] 2; HCount ["m"; "2"] 10 3].

Lemma hca_list_roundtrip_witness :
  nvshmemt_parse_hca_list (Some ("^" :: print_list demo_specs)) 16 = Ret (info_of <$> demo_specs).
Proof.
  apply (hca_list_roundtrip 16 demo_specs true); [done| |cbn; lia|done].
  unfold demo_specs, spec_ok, name_ok.
  repeat constructor; try discriminate; vm_compute; congruence || lia.
Defined.

(** A defect: an entry that fills the array loses its count, because the
    loop ends as soon as the number of names reaches the maximum. *)
Theorem hca_list_last_count_lost :
  nvshmemt_parse_hca_list (Some (print_list [HCount ["m"] 1 4])) 1 = Ret [MkHca ["m"] 1 1 0].
Proof. vm_compute. reflexivity. Qed.
End HcaList.
