(* ===== verification/Recexch.v ===== *)
(** * Recursive exchange: the neighbours of a reduction

    Models [nvshmemi_recexchalgo_get_neighbors] of
    src/src/host/team/team_internal.cpp: for each PE of a team, whom it sends to
    or receives from in step 1 (PEs outside the largest power of [k] hand their
    data to a participating PE) and its [k - 1] neighbours in every phase of
    step 2.  Arithmetic is on mathematical integers: the values stay below
    [num_pes * k], which the team sizes keep far below 2^31.

    The theorems: the two sides of step 1 agree; the neighbour relation of
    every phase is symmetric; and a reduction that follows the schedule leaves
    at every participating PE the contribution of every PE exactly once. *)
From stdpp Require Import base gmap list.
From Stdlib Require Import ZArith Lia.
From S2P Require Import Prelude.

Module Recexch.

(** [if (num_pes < k) k = (num_pes > 2) ? num_pes : 2] *)
Definition team_k (kval num_pes : Z) : Z :=
  if bool_decide (num_pes < kval) then (if bool_decide (num_pes > 2) then num_pes else 2) else kval.

(** [while (p_of_k <= num_pes) { p_of_k *= k; log_p_of_k++; }] *)
Fixpoint power_loop (fuel : nat) (k num_pes p log : Z) : outcome (Z * Z) :=
  match fuel with
  | O => Fail FSpin
  | S fuel => if bool_decide (p <= num_pes) then power_loop fuel k num_pes (p * k) (log + 1) else Ret (p, log)
  end.

(** [p_of_k] and [log_p_of_k] *)
Definition powers (k num_pes : Z) : outcome (Z * Z) :=
  '(p, log) ← power_loop (S (Z.to_nat num_pes)) k num_pes 1 0;
  Ret (p / k, if bool_decide (log > 0) then log - 1 else log).

Section Neighbors.
Context (k num_pes p_of_k log_p_of_k : Z).

Definition rem : Z := num_pes - p_of_k.
Definition T : Z := (rem * k) / (k - 1).

(** Step 1: [step1_sendto] (-1 for none), [step1_recvfrom] and [newpe]. *)
Definition step1 (my_pe : Z) : Z * list Z * Z :=
  if bool_decide (my_pe < T) then
    if bool_decide (my_pe mod k <> k - 1) then
      let sendto := my_pe + (k - 1 - my_pe mod k) in
      (if bool_decide (sendto > T - 1) then T else sendto, [], -1)
    else (-1, (fun i => my_pe - i - 1) <$> seqZ 0 (k - 1), my_pe / k)
  else
    if bool_decide (my_pe = T /\ Z.rem (T - 1) k <> k - 1 /\ T >= 1) then
      let nsenders := Z.rem (T - 1) k + 1 in
      (-1, (fun i => T - 1 - i) <$> seqZ 0 nsenders, my_pe - rem)
    else (-1, [], my_pe - rem).

(** The base-[k] digits of [temppe], written into [digit]. *)
Fixpoint fill_digits (fuel : nat) (temppe : Z) (i : nat) (digit : list Z) : outcome (list Z) :=
  if bool_decide (temppe = 0) then Ret digit
  else match fuel with
  | O => Fail FSpin
  | S fuel =>
      if bool_decide (i < length digit)%nat
      then fill_digits fuel (temppe / k) (S i) (<[i := temppe mod k]> digit)
      else Fail FUndef
  end.

(** The value of a digit array. *)
Fixpoint value (digit : list Z) (power : Z) : Z :=
  match digit with
  | [] => 0
  | d :: digit => d * power + value digit (power * k)
  end.

(** The PE of a participant. *)
Definition real_pe (nbr : Z) : Z :=
  if bool_decide (nbr < rem / (k - 1)) then nbr * k + (k - 1) else nbr + rem.

(** The neighbours of one phase. *)
Definition phase_nbrs (digit : list Z) (phase : nat) (cbit : Z) : list Z :=
  (fun i => real_pe (value (<[phase := i]> digit) 1)) <$> filter (fun i => i <> cbit) (seqZ 0 k).

(** Step 2, for a participating PE: the loop over the phases, while [mask] is
    below [p_of_k]. *)
Fixpoint step2_loop (fuel : nat) (digit : list Z) (phase : nat) (mask : Z) : outcome (list (list Z)) :=
  if bool_decide (mask < p_of_k) then
    match fuel with
    | O => Fail FSpin
    | S fuel =>
        cbit ← arr_get digit (Z.of_nat phase);
        rest ← step2_loop fuel digit (S phase) (mask * k);
        Ret (phase_nbrs digit phase cbit :: rest)
    end
  else Ret [].

Definition step2 (newpe : Z) : outcome (list (list Z)) :=
  digit ← fill_digits (S (Z.to_nat newpe)) newpe 0 (replicate (Z.to_nat log_p_of_k) 0);
  step2_loop (S (Z.to_nat p_of_k)) digit 0 1.
End Neighbors.

Record recexch := { step1_sendto : Z; step1_recvfrom : list Z; step2_nbrs : list (list Z) }.

Fixpoint map_pes (pe_mapping : list Z) (l : list Z) : outcome (list Z) :=
  match l with
  | [] => Ret []
  | x :: l => y ← arr_get pe_mapping x; r ← map_pes pe_mapping l; Ret (y :: r)
  end.
(** The neighbours, less the slots that were never filled in. *)
Definition TEAM_SCALAR_INVALID : Z := -1.
Fixpoint map_nbrs (pe_mapping : list Z) (l : list Z) : outcome (list Z) :=
  match l with
  | [] => Ret []
  | x :: l =>
      y ← (if bool_decide (x <> TEAM_SCALAR_INVALID) then arr_get pe_mapping x else Ret x);
      r ← map_nbrs pe_mapping l; Ret (y :: r)
  end.
Fixpoint map_phases (pe_mapping : list Z) (l : list (list Z)) : outcome (list (list Z)) :=
  match l with
  | [] => Ret []
  | x :: l => y ← map_nbrs pe_mapping x; r ← map_phases pe_mapping l; Ret (y :: r)
  end.
(** [step2_nbrs] as allocated: no neighbour in any phase. *)
Definition no_nbrs (k log_p_of_k : Z) : list (list Z) :=
  replicate (Z.to_nat log_p_of_k) (replicate (Z.to_nat (k - 1)) TEAM_SCALAR_INVALID).

(** [nvshmemi_recexchalgo_get_neighbors] *)
Definition nvshmemi_recexchalgo_get_neighbors (kval : Z) (pe_mapping : list Z) (my_pe num_pes : Z)
  : outcome recexch :=
  _ ← cassert (bool_decide (kval > 1));
  let k := team_k kval num_pes in
  '(p, log) ← powers k num_pes;
  let '(sendto, recvfrom, newpe) := step1 k num_pes p my_pe in
  nbrs ← (if bool_decide (sendto = -1) then step2 k num_pes p log newpe else Ret (no_nbrs k log));
  sendto ← (if bool_decide (sendto = -1) then Ret sendto else arr_get pe_mapping sendto);
  recvfrom ← map_pes pe_mapping recvfrom;
  nbrs ← map_phases pe_mapping nbrs;
  Ret {| step1_sendto := sendto; step1_recvfrom := recvfrom; step2_nbrs := nbrs |}.

(** ** The power of [k] *)
Lemma power_loop_spec fuel : forall k num p log j,
  2 <= k -> p = k ^ j -> 0 <= j -> log = j -> 1 <= num ->
  (num < p -> exists j', j = j' + 1 /\ 0 <= j' /\ k ^ j' <= num) ->
  num - p + 1 < Z.of_nat fuel -> (0 < fuel)%nat ->
  exists j', 0 <= j' /\ power_loop fuel k num p log = Ret (k ^ (j' + 1), j' + 1) /\
    k ^ j' <= num < k ^ (j' + 1).
Proof.
  induction fuel as [|fuel IH]; intros k num p log j Hk -> Hj -> Hn Hlast Hf Hf0; [lia|]. cbn [power_loop].
  assert (0 < k ^ j) by (apply Z.pow_pos_nonneg; lia).
  case_bool_decide as C.
  - assert (k ^ (j + 1) = k ^ j * k) as E by (rewrite Z.pow_add_r, Z.pow_1_r by lia; done).
    assert (k ^ j * k >= k ^ j + 1) by nia.
    apply (IH k num (k ^ j * k) (j + 1) (j + 1)); auto; try lia.
    intros _. exists j. lia.
  - destruct (Hlast ltac:(lia)) as (j' & -> & Hj' & Hle). exists j'. split; [lia|split; [done|lia]].
Qed.

Lemma powers_spec k num : 2 <= k -> 1 <= num ->
  exists log, 0 <= log /\ powers k num = Ret (k ^ log, log) /\ k ^ log <= num < k ^ log * k.
Proof.
  intros Hk Hn. unfold powers.
  destruct (power_loop_spec (S (Z.to_nat num)) k num 1 0 0) as (j & Hj & E & H); try lia.
  exists j. assert (k ^ (j + 1) = k ^ j * k) as Ep by (rewrite Z.pow_add_r, Z.pow_1_r by lia; done).
  rewrite E, outcome_bind_ret, Ep in *. rewrite Z.div_mul by lia.
  rewrite bool_decide_eq_true_2 by lia. split; [done|split; [|done]]. do 3 f_equal; lia.
Qed.

Lemma team_k_ge kval num : 2 <= kval -> 2 <= team_k kval num.
Proof. intros. unfold team_k. case_bool_decide; [case_bool_decide|]; lia. Qed.

(** ** Sums over lists of PEs *)
Definition zsum (f : Z -> Z) (l : list Z) : Z := foldr (fun q s => f q + s) 0 l.

Lemma zsum_app f l1 l2 : zsum f (l1 ++ l2) = zsum f l1 + zsum f l2.
Proof. unfold zsum. induction l1 as [|q l1 IH]; cbn; lia. Qed.
Lemma zsum_perm f l1 l2 : l1 ≡ₚ l2 -> zsum f l1 = zsum f l2.
Proof. unfold zsum. induction 1; cbn; lia. Qed.
Lemma zsum_fmap f g l : zsum f (g <$> l) = zsum (fun i => f (g i)) l.
Proof. unfold zsum. induction l as [|q l IH]; cbn in *; lia. Qed.
Lemma zsum_ext f g l : (forall q, q ∈ l -> f q = g q) -> zsum f l = zsum g l.
Proof.
  unfold zsum. induction l as [|q l IH]; intros H; cbn; [done|].
  rewrite (H q), IH; [done| |by left].
  intros q' ?. apply H. by right.
Qed.
Lemma seqZ_snoc a n : 0 <= n -> seqZ a (n + 1) = seqZ a n ++ [a + n].
Proof. intros. rewrite seqZ_app by lia. done. Qed.

(** A telescoping sum. *)
Lemma zsum_telescope (H : Z -> Z) n : 0 <= n ->
  zsum (fun d => H (d + 1) - H d) (seqZ 0 n) = H n - H 0.
Proof.
  intros Hn. pattern n. apply natlike_ind; [rewrite seqZ_nil by lia; cbn; lia| |done].
  intros m Hm IH. rewrite <- Z.add_1_r, seqZ_snoc, zsum_app, IH by lia. cbn. rewrite Z.add_0_l. lia.
Qed.
Lemma zsum_downto x (top n : Z) : 0 <= n ->
  zsum x ((fun i => top - i) <$> seqZ 0 n) = zsum x (seqZ 0 (top + 1)) - zsum x (seqZ 0 (top + 1 - n))
  \/ top + 1 < n.
Proof.
  intros Hn. destruct (Z.lt_ge_cases (top + 1) n) as [|Hle]; [by right|left]. rewrite zsum_fmap.
  set (F := fun m => - zsum x (seqZ 0 (top + 1 - m))).
  rewrite (zsum_ext _ (fun d => F (d + 1) - F d)).
  - rewrite zsum_telescope by lia. unfold F. rewrite Z.sub_0_r. lia.
  - intros d [Hd1 Hd2]%elem_of_seqZ. unfold F.
    replace (top + 1 - d) with (top + 1 - (d + 1) + 1) by lia. rewrite seqZ_snoc, zsum_app by lia.
    cbn. replace (top + 1 - (d + 1)) with (top - d) by lia. rewrite Z.add_0_l. lia.
Qed.

(** ** The participants *)
Section Schedule.
Context (k num log : Z).
Hypothesis Hk : 2 <= k.
Hypothesis Hlog : 0 <= log.
Hypothesis Hnum : k ^ log <= num < k ^ log * k.
Abbreviation p := (k ^ log).
Abbreviation rem := (rem num p).
Abbreviation T := (T k num p).
Abbreviation step1 := (step1 k num p).
Abbreviation real_pe := (real_pe k num p).

(** Full sets of [k], and the size of the partial one. *)
Definition sets : Z := rem / (k - 1).
Definition partial : Z := rem mod (k - 1).

Lemma sets_partial : rem = sets * (k - 1) + partial /\ 0 <= partial < k - 1 /\ 0 <= sets < p.
Proof.
  unfold sets, partial. pose proof (Z.div_mod rem (k - 1) ltac:(lia)).
  pose proof (Z.mod_pos_bound rem (k - 1) ltac:(lia)).
  unfold Recexch.rem in *. split; [lia|split; [done|split]].
  - apply Z.div_pos; lia.
  - apply Z.div_lt_upper_bound; nia.
Qed.

Lemma T_eq : T = sets * k + partial.
Proof.
  destruct sets_partial as (E & Hp & Hs). unfold Recexch.T. rewrite E.
  replace ((sets * (k - 1) + partial) * k) with ((sets * k + partial) * (k - 1) + partial) by ring.
  rewrite Z.div_add_l, (Z.div_small partial) by lia. lia.
Qed.

Lemma T_plus_rem : T = sets + rem.
Proof. rewrite T_eq. destruct sets_partial as (E & _). lia. Qed.
Lemma T_lt_num : 0 <= T < num.
Proof.
  pose proof T_eq. pose proof T_plus_rem as E. destruct sets_partial as (_ & ? & ?).
  unfold Recexch.rem in E. nia.
Qed.

(** The first PE of the group whose data participant [n] holds after step 1. *)
Definition group (n : Z) : Z := if bool_decide (n <= sets) then n * k else n + rem.

Lemma real_pe_eq n : real_pe n = if bool_decide (n < sets) then n * k + (k - 1) else n + rem.
Proof. done. Qed.

Lemma group_next n : group (n + 1) = real_pe n + 1.
Proof.
  rewrite real_pe_eq. unfold group. pose proof T_plus_rem. pose proof T_eq.
  destruct (bool_decide_reflect (n + 1 <= sets)); destruct (bool_decide_reflect (n < sets)); lia.
Qed.
Lemma group_le n : group n <= real_pe n.
Proof.
  rewrite real_pe_eq. unfold group. pose proof T_plus_rem. pose proof T_eq.
  destruct sets_partial as (? & ? & ?).
  destruct (bool_decide_reflect (n <= sets)); destruct (bool_decide_reflect (n < sets)); try lia.
  replace n with sets by lia. lia.
Qed.
Lemma group_mono n m : n < m -> real_pe n < group m.
Proof.
  intros. replace m with (n + 1 + Z.of_nat (Z.to_nat (m - n - 1))) by lia.
  induction (Z.to_nat (m - n - 1)) as [|d IH].
  - rewrite Z.add_0_r, group_next. lia.
  - rewrite Nat2Z.inj_succ. replace (n + 1 + Z.succ (Z.of_nat d)) with (n + 1 + Z.of_nat d + 1) by lia.
    rewrite group_next. pose proof (group_le (n + 1 + Z.of_nat d)). lia.
Qed.
Lemma group_unique q n m : group n <= q <= real_pe n -> group m <= q <= real_pe m -> n = m.
Proof.
  intros. destruct (Z.lt_trichotomy n m) as [Hl|[|Hl]]; [|done|]; apply group_mono in Hl; lia.
Qed.
Lemma group_0 : group 0 = 0.
Proof. unfold group. destruct sets_partial as (_ & _ & ?). by rewrite bool_decide_eq_true_2 by lia. Qed.
Lemma group_p : group p = num.
Proof.
  unfold group. destruct sets_partial as (_ & _ & ?). rewrite bool_decide_eq_false_2 by lia.
  unfold Recexch.rem. lia.
Qed.

(** Every PE belongs to the group of one participant. *)
Lemma group_cover q : 0 <= q < num -> exists n, 0 <= n < p /\ group n <= q <= real_pe n.
Proof.
  intros Hq. destruct (decide (q < sets * k)) as [Hlt|Hge].
  - exists (q / k). pose proof (Z.div_mod q k ltac:(lia)). pose proof (Z.mod_pos_bound q k ltac:(lia)).
    destruct sets_partial as (? & ? & ?). assert (q / k < sets) by (apply Z.div_lt_upper_bound; lia).
    assert (0 <= q / k) by (apply Z.div_pos; lia). split; [lia|].
    unfold group. rewrite real_pe_eq, !bool_decide_eq_true_2 by lia. lia.
  - destruct sets_partial as (? & ? & ?). pose proof T_eq. pose proof T_plus_rem. pose proof T_lt_num.
    assert (rem = num - p) by done. destruct (decide (q <= T)).
    + exists sets. split; [lia|]. unfold group.
      rewrite real_pe_eq, bool_decide_eq_true_2, bool_decide_eq_false_2 by lia. lia.
    + exists (q - rem). split; [lia|]. unfold group.
      rewrite real_pe_eq, !bool_decide_eq_false_2 by lia. lia.
Qed.

(** Step 1 at a participant: it receives from the rest of its group. *)
Lemma step1_real n : 0 <= n < p ->
  step1 (real_pe n) = (-1, (fun i => real_pe n - 1 - i) <$> seqZ 0 (real_pe n - group n), n).
Proof.
  intros Hn. destruct sets_partial as (Er & Hpart & Hs). pose proof T_eq as ET. pose proof T_plus_rem as ETr.
  unfold Recexch.step1, group. rewrite !real_pe_eq. destruct (bool_decide_reflect (n < sets)) as [Hlt|Hge].
  - assert ((n * k + (k - 1)) mod k = k - 1) as Em
      by (rewrite Z.add_comm, Z.mod_add, Z.mod_small; lia).
    rewrite (bool_decide_eq_true_2 (_ < T)) by nia.
    rewrite (bool_decide_eq_false_2 (_ <> k - 1)) by (rewrite Em; lia).
    rewrite (bool_decide_eq_true_2 (n <= sets)) by lia.
    rewrite Z.div_add_l, (Z.div_small (k - 1)), Z.add_0_r by lia.
    replace (n * k + (k - 1) - n * k) with (k - 1) by lia. do 2 f_equal.
    apply list_fmap_ext. intros ? i _. lia.
  - rewrite (bool_decide_eq_false_2 (_ < T)) by lia.
    destruct (decide (n = sets)) as [->|Hne].
    + rewrite (bool_decide_eq_true_2 (sets <= sets)) by lia. rewrite <- ETr.
      replace (T - sets * k) with partial by lia. replace (T - rem) with sets by lia.
      destruct (decide (partial = 0)) as [E0|Ne0].
      * rewrite bool_decide_eq_false_2; [by rewrite E0, seqZ_nil by lia|]. intros (_ & Hm & HT).
        rewrite Z.rem_mod_nonneg in Hm by lia. apply Hm. rewrite ET, E0.
        replace (sets * k + 0 - 1) with (k - 1 + (sets - 1) * k) by lia.
        rewrite Z.mod_add, Z.mod_small; lia.
      * assert (Z.rem (T - 1) k = partial - 1) as Em.
        { rewrite Z.rem_mod_nonneg, ET by nia.
          replace (sets * k + partial - 1) with (partial - 1 + sets * k) by lia.
          rewrite Z.mod_add, Z.mod_small; lia. }
        rewrite Em, bool_decide_eq_true_2 by nia. by replace (partial - 1 + 1) with partial by lia.
    + rewrite (bool_decide_eq_false_2 (_ = T /\ _)) by lia.
      rewrite (bool_decide_eq_false_2 (n <= sets)) by lia.
      rewrite Z.sub_diag, seqZ_nil by lia. cbn. f_equal. lia.
Qed.

(** Step 1 at the other PEs: they send to the participant of their group. *)
Lemma step1_other q n : 0 <= n < p -> group n <= q < real_pe n -> step1 q = (real_pe n, [], -1).
Proof.
  intros Hn Hq. destruct sets_partial as (Er & Hpart & Hs). pose proof T_eq as ET. pose proof T_plus_rem as ETr.
  unfold Recexch.step1, group in *. rewrite !real_pe_eq in *.
  destruct (bool_decide_reflect (n < sets)) as [Hlt|Hge].
  - rewrite (bool_decide_eq_true_2 (n <= sets)) in Hq by lia.
    assert (q mod k = q - n * k) as Em by (symmetry; apply (Z.mod_unique q k n); lia).
    rewrite Em, (bool_decide_eq_true_2 (q < T)), bool_decide_eq_true_2 by nia.
    rewrite bool_decide_eq_false_2 by nia. do 2 f_equal. lia.
  - destruct (bool_decide_reflect (n <= sets)) as [Hle|Hgt]; [|lia].
    assert (n = sets) as -> by lia.
    assert (q mod k = q - sets * k) as Em by (symmetry; apply (Z.mod_unique q k sets); lia).
    rewrite Em, (bool_decide_eq_true_2 (q < T)), bool_decide_eq_true_2 by nia.
    rewrite bool_decide_eq_true_2 by nia. by rewrite ETr.
Qed.

(** Sender and receiver agree. *)
Lemma step1_agree q r : 0 <= q < num -> 0 <= r < num ->
  (step1 q).1.1 = r <-> q ∈ (step1 r).1.2.
Proof.
  intros Hq Hr. destruct (group_cover q Hq) as (n & Hn & Gn). destruct (group_cover r Hr) as (m & Hm & Gm).
  destruct (decide (q = real_pe n)) as [Eq|Nq]; destruct (decide (r = real_pe m)) as [Er|Nr].
  - rewrite Eq, Er, !step1_real by done. cbn. split; [lia|]. intros (i & Ei & Hi%elem_of_seqZ)%list_elem_of_fmap.
    assert (n = m) as -> by (apply (group_unique q); lia). lia.
  - rewrite Eq, step1_real, (step1_other r m) by (done || lia). cbn. split; [lia|by intros ?%not_elem_of_nil].
  - rewrite Er, step1_real, (step1_other q n) by (done || lia). cbn. rewrite list_elem_of_fmap. split.
    + intros E. assert (n = m) as -> by (apply (group_unique r); pose proof (group_le n); lia).
      exists (real_pe m - 1 - q). rewrite elem_of_seqZ. lia.
    + intros (i & Ei & Hi%elem_of_seqZ). by assert (n = m) as -> by (apply (group_unique q); lia).
  - rewrite (step1_other q n), (step1_other r m) by lia. cbn. split; [|by intros ?%not_elem_of_nil].
    intros E. destruct (Nr). assert (n = m) as -> by (apply (group_unique r); pose proof (group_le n); lia). done.
Qed.

(** ** The digits *)
Fixpoint digits (t : Z) (m : nat) : list Z :=
  match m with O => [] | S m => t mod k :: digits (t / k) m end.

Lemma digits_0 m : digits 0 m = replicate m 0.
Proof. induction m as [|m IH]; [done|]. cbn [digits replicate]. by rewrite Z.mod_0_l, Z.div_0_l, IH by lia. Qed.
Lemma length_digits m : forall t, length (digits t m) = m.
Proof. induction m as [|m IH]; intros t; cbn; [done|by rewrite IH]. Qed.
Lemma digits_lookup m : forall t j, (j < m)%nat -> digits t m !! j = Some ((t / k ^ Z.of_nat j) mod k).
Proof.
  induction m as [|m IH]; intros t j Hj; [lia|]. destruct j as [|j]; cbn [digits].
  - cbn. by rewrite Z.pow_0_r, Z.div_1_r.
  - change ((t mod k :: digits (t / k) m) !! S j) with (digits (t / k) m !! j). rewrite IH by lia. rewrite Nat2Z.inj_succ, Z.pow_succ_r, Z.div_div by lia. done.
Qed.

Lemma value_digits m : forall t w, 0 <= t < k ^ Z.of_nat m -> value k (digits t m) w = t * w.
Proof.
  induction m as [|m IH]; intros t w Ht.
  - rewrite Z.pow_0_r in Ht. assert (t = 0) as -> by lia. done.
  - cbn [digits value]. rewrite Nat2Z.inj_succ, Z.pow_succ_r in Ht by lia.
    rewrite IH by (split; [apply Z.div_pos; lia|apply Z.div_lt_upper_bound; lia]).
    pose proof (Z.div_mod t k ltac:(lia)). nia.
Qed.
Lemma value_insert l : forall j d d0 w, l !! j = Some d0 ->
  value k (<[j := d]> l) w = value k l w + (d - d0) * k ^ Z.of_nat j * w.
Proof.
  induction l as [|x l IH]; intros j d d0 w E; [done|]. destruct j as [|j].
  - cbn in E. injection E as ->. cbn [insert list_insert value]. rewrite Z.pow_0_r. lia.
  - cbn in E. change (<[S j := d]> (x :: l)) with (x :: <[j := d]> l). cbn [value].
    rewrite (IH _ _ _ _ E), Nat2Z.inj_succ, Z.pow_succ_r by lia. lia.
Qed.

Lemma fill_digits_spec m : forall fuel t pre, 0 <= t < k ^ Z.of_nat m -> t < Z.of_nat fuel ->
  fill_digits k fuel t (length pre) (pre ++ replicate m 0) = Ret (pre ++ digits t m).
Proof.
  induction m as [|m IH]; intros fuel t pre Ht Hf.
  - rewrite Z.pow_0_r in Ht. assert (t = 0) as -> by lia. destruct fuel; done.
  - destruct fuel as [|fuel]; [lia|]. cbn [fill_digits].
    destruct (bool_decide_reflect (t = 0)) as [->|Hne]; [by rewrite digits_0|].
    rewrite bool_decide_eq_true_2 by (rewrite length_app, length_replicate; lia).
    rewrite Nat2Z.inj_succ, Z.pow_succ_r in Ht by lia. cbn [digits replicate].
    replace (<[length pre := t mod k]> (pre ++ 0 :: replicate m 0)) with ((pre ++ [t mod k]) ++ replicate m 0).
    + replace (S (length pre)) with (length (pre ++ [t mod k])) by (rewrite length_app; cbn; lia).
      assert (t / k < t) by (apply Z.div_lt; lia).
      rewrite IH; [by rewrite <- app_assoc| |lia].
      split; [apply Z.div_pos; lia|apply Z.div_lt_upper_bound; lia].
    + rewrite <- app_assoc. rewrite <- (Nat.add_0_r (length pre)) at 1. by rewrite insert_app_r.
Qed.

(** ** Step 2 *)
(** The [phase]-th digit of participant [n], and the participant that differs
    from [n] in that digit only. *)
Definition digit_of (n : Z) (phase : nat) : Z := (n / k ^ Z.of_nat phase) mod k.
Definition flip (n : Z) (phase : nat) (d : Z) : Z := n + (d - digit_of n phase) * k ^ Z.of_nat phase.
Definition nbrs (n : Z) (phase : nat) : list Z :=
  (fun d => real_pe (flip n phase d)) <$> filter (fun d => d <> digit_of n phase) (seqZ 0 k).

Lemma phase_nbrs_digits n phase : 0 <= n < p -> (phase < Z.to_nat log)%nat ->
  phase_nbrs k num p (digits n (Z.to_nat log)) phase (digit_of n phase) = nbrs n phase.
Proof.
  intros Hn Hph. unfold phase_nbrs, nbrs. apply list_fmap_ext. intros ? d _. f_equal.
  rewrite (value_insert _ _ _ _ _ (digits_lookup _ _ _ Hph)), value_digits by (rewrite Z2Nat.id; lia).
  unfold flip, digit_of. lia.
Qed.

Lemma step2_loop_spec n m : forall fuel phase, 0 <= n < p -> (phase + m = Z.to_nat log)%nat -> (m < fuel)%nat ->
  step2_loop k num p fuel (digits n (Z.to_nat log)) phase (k ^ Z.of_nat phase) = Ret (nbrs n <$> seq phase m).
Proof.
  induction m as [|m IH]; intros fuel phase Hn Hm Hf; (destruct fuel as [|fuel]; [lia|]); cbn [step2_loop].
  - rewrite bool_decide_eq_false_2; [done|]. rewrite Nat.add_0_r in Hm. rewrite Hm, Z2Nat.id by lia. lia.
  - rewrite bool_decide_eq_true_2 by (apply Z.pow_lt_mono_r; lia).
    unfold arr_get. rewrite bool_decide_eq_false_2 by lia.
    rewrite Nat2Z.id, digits_lookup by lia. rewrite outcome_bind_ret.
    replace (k ^ Z.of_nat phase * k) with (k ^ Z.of_nat (S phase)) by (rewrite Nat2Z.inj_succ, Z.pow_succ_r; lia).
    rewrite IH by (done || lia). rewrite outcome_bind_ret. cbn [seq fmap list_fmap]. fold (digit_of n phase).
    by rewrite phase_nbrs_digits by (done || lia).
Qed.

Lemma step2_spec n : 0 <= n < p -> step2 k num p log n = Ret (nbrs n <$> seq 0 (Z.to_nat log)).
Proof.
  intros Hn. unfold step2.
  pose proof (fill_digits_spec (Z.to_nat log) (S (Z.to_nat n)) n []) as E. cbn [length app] in E.
  rewrite E by (rewrite ?Z2Nat.id; lia). rewrite outcome_bind_ret.
  change 1 with (k ^ Z.of_nat 0). apply step2_loop_spec; [done|lia|].
  pose proof (Z.pow_gt_lin_r k log ltac:(lia) ltac:(lia)). lia.
Qed.

(** ** Changing one digit *)
Lemma digit_split n phase : exists hi lo, n = (hi * k + digit_of n phase) * k ^ Z.of_nat phase + lo /\
  0 <= lo < k ^ Z.of_nat phase /\ 0 <= digit_of n phase < k.
Proof.
  assert (0 < k ^ Z.of_nat phase) by (apply Z.pow_pos_nonneg; lia).
  exists (n / k ^ Z.of_nat phase / k), (n mod k ^ Z.of_nat phase). unfold digit_of.
  pose proof (Z.div_mod n (k ^ Z.of_nat phase) ltac:(lia)).
  pose proof (Z.div_mod (n / k ^ Z.of_nat phase) k ltac:(lia)).
  pose proof (Z.mod_pos_bound n (k ^ Z.of_nat phase) ltac:(lia)).
  pose proof (Z.mod_pos_bound (n / k ^ Z.of_nat phase) k ltac:(lia)). split; [nia|lia].
Qed.
Lemma digit_unique hi d w lo phase : w = k ^ Z.of_nat phase -> 0 <= lo < w -> 0 <= d < k ->
  digit_of ((hi * k + d) * w + lo) phase = d.
Proof.
  intros -> Hlo Hd. unfold digit_of.
  rewrite Z.div_add_l, (Z.div_small lo), Z.add_0_r by lia.
  rewrite Z.add_comm, Z.mod_add, Z.mod_small by lia. done.
Qed.
Lemma digit_of_flip n phase d : 0 <= d < k -> digit_of (flip n phase d) phase = d.
Proof.
  intros Hd. destruct (digit_split n phase) as (hi & lo & E & Hlo & Hc). unfold flip.
  replace (n + (d - digit_of n phase) * k ^ Z.of_nat phase) with ((hi * k + d) * k ^ Z.of_nat phase + lo) by lia.
  by apply digit_unique.
Qed.
Lemma flip_flip n phase d e : 0 <= d < k -> flip (flip n phase d) phase e = flip n phase e.
Proof. intros Hd. unfold flip at 1. rewrite digit_of_flip by done. unfold flip. lia. Qed.
Lemma flip_self n phase : flip n phase (digit_of n phase) = n.
Proof. unfold flip. lia. Qed.

(** The aligned block of [k ^ phase] participants that [n] lies in. *)
Definition block (n : Z) (phase : nat) : Z := n / k ^ Z.of_nat phase * k ^ Z.of_nat phase.

Lemma block_flip n phase d : 0 <= d < k ->
  block (flip n phase d) phase = block n (S phase) + d * k ^ Z.of_nat phase.
Proof.
  intros Hd. destruct (digit_split n phase) as (hi & lo & E & Hlo & Hc). unfold flip, block.
  replace (n + (d - digit_of n phase) * k ^ Z.of_nat phase) with ((hi * k + d) * k ^ Z.of_nat phase + lo) by lia.
  rewrite Z.div_add_l, (Z.div_small lo), Z.add_0_r, Nat2Z.inj_succ, Z.pow_succ_r by lia.
  replace (n / (k * k ^ Z.of_nat phase)) with hi; [lia|].
  apply (Z.div_unique n (k * k ^ Z.of_nat phase) hi (digit_of n phase * k ^ Z.of_nat phase + lo)); nia.
Qed.
Lemma flip_range n phase d : 0 <= n < p -> (phase < Z.to_nat log)%nat -> 0 <= d < k -> 0 <= flip n phase d < p.
Proof.
  intros Hn Hph Hd. destruct (digit_split n phase) as (hi & lo & E & Hlo & Hc).
  assert (p = k ^ (log - Z.of_nat (S phase)) * (k * k ^ Z.of_nat phase)) as Ep.
  { rewrite <- Z.pow_succ_r, <- Nat2Z.inj_succ, <- Z.pow_add_r by lia. f_equal. lia. }
  set (w := k ^ Z.of_nat phase) in *. set (top := k ^ (log - Z.of_nat (S phase))) in *.
  assert (0 < w) by lia. assert (0 <= hi * k + digit_of n phase) by nia. assert (0 <= hi) by nia.
  assert (hi * k + digit_of n phase < top * k) by nia. assert (hi < top) by nia.
  assert (flip n phase d = (hi * k + d) * w + lo) as -> by (unfold flip; fold w; lia).
  split; [nia|]. assert (hi * k + d <= top * k - 1) by nia. nia.
Qed.

Lemma nbrs_sym n m phase : 0 <= n < p -> 0 <= m < p -> (phase < Z.to_nat log)%nat ->
  real_pe m ∈ nbrs n phase -> real_pe n ∈ nbrs m phase.
Proof.
  intros Hn Hm Hph. unfold nbrs. rewrite !list_elem_of_fmap.
  intros (d & E & [Hd Hs%elem_of_seqZ]%list_elem_of_filter).
  pose proof (flip_range n phase d Hn Hph ltac:(lia)) as Hr.
  assert (m = flip n phase d) as ->.
  { apply (group_unique (real_pe m)); [|rewrite E]; split; auto using group_le, Z.le_refl. }
  exists (digit_of n phase). rewrite flip_flip, flip_self, digit_of_flip by lia. split; [done|].
  rewrite list_elem_of_filter, elem_of_seqZ. destruct (digit_split n phase) as (_ & _ & _ & _ & ?). split; lia.
Qed.

(** ** The reduction *)
Section Sum.
Context (x : Z -> Z).
Definition prefix (n : Z) : Z := zsum x (seqZ 0 (group n)).

(** What a participant holds after step 1 and after [i] phases. *)
Fixpoint held (i : nat) (n : Z) : Z :=
  match i with
  | O => x (real_pe n) + zsum x (step1 (real_pe n)).1.2
  | S i => held i n + zsum (fun d => held i (flip n i d)) (filter (fun d => d <> digit_of n i) (seqZ 0 k))
  end.

Lemma held_0 n : 0 <= n < p -> held 0 n = prefix (n + 1) - prefix n.
Proof.
  intros Hn. cbn [held]. rewrite step1_real by done. cbn [fst snd]. unfold prefix. rewrite group_next.
  assert (0 <= group n) by (destruct (decide (n = 0)) as [->|]; [rewrite group_0; lia|];
    pose proof (group_mono 0 n ltac:(lia)); pose proof (group_le 0); rewrite group_0 in *; lia).
  pose proof (group_le n). rewrite seqZ_snoc, zsum_app by lia.
  destruct (zsum_downto x (real_pe n - 1) (real_pe n - group n)) as [E|]; [lia| |lia]. rewrite E.
  replace (real_pe n - 1 + 1) with (real_pe n) by lia.
  replace (real_pe n - (real_pe n - group n)) with (group n) by lia. cbn. rewrite Z.add_0_l. lia.
Qed.

Lemma seqZ_filter_perm c : 0 <= c < k -> seqZ 0 k ≡ₚ c :: filter (fun d => d <> c) (seqZ 0 k).
Proof.
  intros Hc. apply NoDup_Permutation.
  - apply NoDup_seqZ.
  - apply NoDup_cons. split; [intros [? _]%list_elem_of_filter; done|]. apply NoDup_filter, NoDup_seqZ.
  - intros y. rewrite elem_of_cons, list_elem_of_filter, !elem_of_seqZ. destruct (decide (y = c)); lia.
Qed.

Lemma held_block i n : 0 <= n < p -> (i <= Z.to_nat log)%nat ->
  held i n = prefix (block n i + k ^ Z.of_nat i) - prefix (block n i).
Proof.
  revert n. induction i as [|i IH]; intros n Hn Hi.
  - rewrite held_0 by done. unfold block. by rewrite Z.pow_0_r, Z.div_1_r, Z.mul_1_r.
  - cbn [held]. rewrite <- (flip_self n i) at 1.
    change (held i (flip n i (digit_of n i))) with ((fun d => held i (flip n i d)) (digit_of n i)).
    set (f := fun d => held i (flip n i d)).
    change (f (digit_of n i) + zsum f ?l) with (zsum f (digit_of n i :: l)).
    destruct (digit_split n i) as (_ & _ & _ & _ & Hc). rewrite <- (zsum_perm f _ _ (seqZ_filter_perm _ Hc)).
    rewrite (zsum_ext f (fun d => prefix (block n (S i) + (d + 1) * k ^ Z.of_nat i)
                                - prefix (block n (S i) + d * k ^ Z.of_nat i))).
    + rewrite (zsum_telescope (fun d => prefix (block n (S i) + d * k ^ Z.of_nat i))) by lia.
      rewrite Nat2Z.inj_succ, Z.pow_succ_r, Z.mul_0_l, Z.add_0_r by lia. done.
    + intros d Hd%elem_of_seqZ. unfold f. rewrite IH by (apply flip_range || lia; lia || done).
      rewrite block_flip by lia. do 2 f_equal. lia.
Qed.

(** After the last phase every participant holds the sum over all PEs. *)
Lemma held_all n : 0 <= n < p -> held (Z.to_nat log) n = zsum x (seqZ 0 num).
Proof.
  intros Hn. rewrite held_block by lia. unfold block. rewrite Z2Nat.id, Z.div_small by lia.
  rewrite Z.mul_0_l, Z.add_0_l. unfold prefix. rewrite group_p, group_0, (seqZ_nil 0 0) by lia. cbn. lia.
Qed.
End Sum.

Lemma group_nonneg n : 0 <= n -> 0 <= group n.
Proof.
  intros. destruct (decide (n = 0)) as [->|]; [rewrite group_0; lia|].
  pose proof (group_mono 0 n ltac:(lia)). pose proof (group_le 0). rewrite group_0 in *. lia.
Qed.
Lemma real_pe_range n : 0 <= n < p -> 0 <= real_pe n < num.
Proof.
  intros Hn. pose proof (group_mono n p ltac:(lia)). rewrite group_p in *. pose proof (group_le n).
  pose proof (group_nonneg n ltac:(lia)). lia.
Qed.

(** ** The whole function *)
Section Mapping.
Context (pe_mapping : list Z).
Hypothesis Hlen : Z.of_nat (length pe_mapping) = num.

Definition pe_of (q : Z) : Z := default (-1) (pe_mapping !! Z.to_nat q).

Lemma arr_get_pe q : 0 <= q < num -> arr_get pe_mapping q = Ret (pe_of q).
Proof.
  intros Hq. unfold arr_get, pe_of. rewrite bool_decide_eq_false_2 by lia.
  destruct (lookup_lt_is_Some_2 pe_mapping (Z.to_nat q) ltac:(lia)) as [g ->]. done.
Qed.
Lemma map_pes_spec l : (forall q, q ∈ l -> 0 <= q < num) -> map_pes pe_mapping l = Ret (pe_of <$> l).
Proof.
  induction l as [|q l IH]; intros H; [done|]. cbn [map_pes].
  rewrite arr_get_pe, outcome_bind_ret, IH, outcome_bind_ret; [done| |apply H; by left].
  intros r Hr. apply H. by right.
Qed.
Lemma map_nbrs_spec l : (forall q, q ∈ l -> 0 <= q < num) -> map_nbrs pe_mapping l = Ret (pe_of <$> l).
Proof.
  induction l as [|q l IH]; intros H; [done|]. cbn [map_nbrs].
  assert (0 <= q < num) by (apply H; by left). rewrite bool_decide_eq_true_2 by (unfold TEAM_SCALAR_INVALID; lia).
  rewrite arr_get_pe, outcome_bind_ret, IH, outcome_bind_ret; [done| |done].
  intros r Hr. apply H. by right.
Qed.
Lemma map_no_nbrs c log' : map_phases pe_mapping (no_nbrs c log') = Ret (no_nbrs c log').
Proof.
  unfold no_nbrs. assert (forall m, map_nbrs pe_mapping (replicate m TEAM_SCALAR_INVALID) = Ret (replicate m TEAM_SCALAR_INVALID)) as E.
  { induction m as [|m IH]; [done|]. cbn [replicate map_nbrs]. by rewrite IH. }
  induction (Z.to_nat log') as [|m IH]; [done|]. cbn [replicate map_phases]. by rewrite E, outcome_bind_ret, IH.
Qed.
Lemma map_phases_spec l : (forall ph q, ph ∈ l -> q ∈ ph -> 0 <= q < num) ->
  map_phases pe_mapping l = Ret ((fmap pe_of : list Z -> list Z) <$> l).
Proof.
  induction l as [|ph l IH]; intros H; [done|]. cbn [map_phases].
  rewrite map_nbrs_spec, outcome_bind_ret, IH, outcome_bind_ret; [done| |].
  - intros ph' q Hp Hq. apply (H ph'); [by right|done].
  - intros q Hq. apply (H ph); [by left|done].
Qed.

Lemma nbrs_range n phase q : 0 <= n < p -> (phase < Z.to_nat log)%nat -> q ∈ nbrs n phase -> 0 <= q < num.
Proof.
  intros Hn Hph. unfold nbrs. rewrite list_elem_of_fmap. intros (d & -> & [_ Hd%elem_of_seqZ]%list_elem_of_filter).
  apply real_pe_range, flip_range; done || lia.
Qed.

Context (kval : Z).
Hypothesis Hkval : 2 <= kval.
Hypothesis Ek : team_k kval num = k.
Hypothesis Ep : powers k num = Ret (p, log).

Lemma get_neighbors_participant n : 0 <= n < p ->
  nvshmemi_recexchalgo_get_neighbors kval pe_mapping (real_pe n) num =
    Ret {| step1_sendto := -1;
           step1_recvfrom := pe_of <$> (step1 (real_pe n)).1.2;
           step2_nbrs := (fun ph => pe_of <$> nbrs n ph) <$> seq 0 (Z.to_nat log) |}.
Proof.
  intros Hn. unfold nvshmemi_recexchalgo_get_neighbors.
  rewrite bool_decide_eq_true_2 by lia. cbn [cassert]. rewrite outcome_bind_ret, Ek, Ep, outcome_bind_ret, step1_real by done.
  cbn [fst snd]. rewrite step2_spec, bool_decide_eq_true_2 by done. rewrite !outcome_bind_ret.
  rewrite map_pes_spec, outcome_bind_ret, map_phases_spec, outcome_bind_ret.
  - do 2 f_equal. by rewrite <- list_fmap_compose.
  - intros ph q (i & -> & Hi%elem_of_seq)%list_elem_of_fmap. apply nbrs_range; [done|lia].
  - intros q (i & -> & Hi%elem_of_seqZ)%list_elem_of_fmap. pose proof (real_pe_range n Hn).
    pose proof (group_nonneg n ltac:(lia)). lia.
Qed.

Lemma get_neighbors_other n q : 0 <= n < p -> group n <= q < real_pe n ->
  nvshmemi_recexchalgo_get_neighbors kval pe_mapping q num =
    Ret {| step1_sendto := pe_of (real_pe n); step1_recvfrom := []; step2_nbrs := no_nbrs k log |}.
Proof.
  intros Hn Hq. pose proof (real_pe_range n Hn). unfold nvshmemi_recexchalgo_get_neighbors.
  rewrite bool_decide_eq_true_2 by lia. cbn [cassert].
  rewrite outcome_bind_ret, Ek, Ep, outcome_bind_ret, (step1_other q n) by done.
  rewrite bool_decide_eq_false_2 by lia. rewrite outcome_bind_ret, arr_get_pe, !outcome_bind_ret by done.
  cbn [map_pes]. by rewrite outcome_bind_ret, map_no_nbrs.
Qed.
End Mapping.
End Schedule.

(** The parameters of a team. *)
Lemma team_params kval num : 2 <= kval -> 1 <= num ->
  exists k log, 2 <= k /\ 0 <= log /\ k ^ log <= num < k ^ log * k /\
    team_k kval num = k /\ powers k num = Ret (k ^ log, log).
Proof.
  intros Hk Hn. pose proof (team_k_ge kval num Hk) as Hk'.
  destruct (powers_spec _ num Hk' Hn) as (log & ? & ? & ?). by exists (team_k kval num), log.
Qed.

(** A reduction that follows the schedule: step 1 adds what the group sends,
    phase [i] adds what the [i]-th neighbours hold. *)
Fixpoint reduce_stage (sched : Z -> recexch) (x : Z -> Z) (i : nat) (pe : Z) : Z :=
  match i with
  | O => x pe + zsum x (step1_recvfrom (sched pe))
  | S i => reduce_stage sched x i pe +
           zsum (reduce_stage sched x i) (default [] (step2_nbrs (sched pe) !! i))
  end.

(** The PE numbers of a team are distinct. *)
Section Mapped.
Context (num : Z) (pe_mapping : list Z).
Hypothesis Hlen : Z.of_nat (length pe_mapping) = num.
Abbreviation pe_of := (pe_of pe_mapping).
Hypothesis Hnd : NoDup pe_mapping.
Lemma pe_of_lookup i g : pe_mapping !! i = Some g -> pe_of (Z.of_nat i) = g /\ 0 <= Z.of_nat i < num.
Proof.
  intros E. unfold Recexch.pe_of. rewrite Nat2Z.id, E. apply lookup_lt_Some in E. split; [done|lia].
Qed.
Lemma pe_of_inj q r : 0 <= q < num -> 0 <= r < num -> pe_of q = pe_of r -> q = r.
Proof.
  unfold Recexch.pe_of. intros Hq Hr E.
  destruct (lookup_lt_is_Some_2 pe_mapping (Z.to_nat q) ltac:(lia)) as [g Eg].
  destruct (lookup_lt_is_Some_2 pe_mapping (Z.to_nat r) ltac:(lia)) as [h Eh].
  rewrite Eg, Eh in E. cbn in E. subst h. pose proof (NoDup_lookup _ _ _ _ Hnd Eg Eh). lia.
Qed.
Lemma pe_of_elem q (l : list Z) : 0 <= q < num -> (forall r, r ∈ l -> 0 <= r < num) -> pe_of q ∈ pe_of <$> l <-> q ∈ l.
Proof.
  intros Hq Hl. rewrite list_elem_of_fmap. split.
  - intros (r & E & Hr). apply pe_of_inj in E; [by subst|done|by apply Hl].
  - intros. by exists q.
Qed.

End Mapped.

(** What the function returns for the PE of index [q], by its step 1. *)
Section Team.
Context (kval num k log : Z) (pe_mapping : list Z).
Hypothesis Hkval : 2 <= kval.
Hypothesis Hlen : Z.of_nat (length pe_mapping) = num.
Hypothesis Hk : 2 <= k.
Hypothesis Hlog : 0 <= log.
Hypothesis Hnum : k ^ log <= num < k ^ log * k.
Hypothesis Ek : team_k kval num = k.
Hypothesis Ep : powers k num = Ret (k ^ log, log).
Abbreviation get := (nvshmemi_recexchalgo_get_neighbors kval pe_mapping).
Abbreviation pe_of := (pe_of pe_mapping).
Abbreviation step1 := (step1 k num (k ^ log)).
Abbreviation real_pe := (real_pe k num (k ^ log)).
Abbreviation nbrs := (nbrs k num log).

Lemma get_neighbors_at q : 0 <= q < num -> exists n, 0 <= n < k ^ log /\
  ((q = real_pe n /\ (step1 q).1.1 = -1 /\
    get q num = Ret {| step1_sendto := -1; step1_recvfrom := pe_of <$> (step1 q).1.2;
                       step2_nbrs := (fun ph => pe_of <$> nbrs n ph) <$> seq 0 (Z.to_nat log) |}) \/
   ((step1 q).1.1 = real_pe n /\ (step1 q).1.2 = [] /\
    get q num = Ret {| step1_sendto := pe_of (real_pe n); step1_recvfrom := []; step2_nbrs := no_nbrs k log |})).
Proof.
  intros Hq. destruct (group_cover k num log Hk Hlog Hnum q Hq) as (n & Hn & Gn). exists n. split; [done|].
  destruct (decide (q = real_pe n)) as [->|Ne]; [left|right].
  - split; [done|split; [by rewrite step1_real|]]. by apply get_neighbors_participant.
  - assert (group k num log n <= q < real_pe n) by lia. rewrite (step1_other k num log Hk Hlog Hnum q n) by done.
    split; [done|split; [done|]]. by apply (get_neighbors_other k num log) with (n := n).
Qed.

Hypothesis Hnd : NoDup pe_mapping.
Hypothesis Hpos : Forall (fun g => 0 <= g) pe_mapping.
Lemma pe_of_nonneg q : 0 <= q < num -> 0 <= pe_of q.
Proof.
  intros Hq. unfold Recexch.pe_of.
  destruct (lookup_lt_is_Some_2 pe_mapping (Z.to_nat q) ltac:(lia)) as [h Eh]. rewrite Eh.
  exact (Forall_lookup_1 _ _ _ _ Hpos Eh).
Qed.
Lemma no_nbrs_elem g phase : 0 <= g -> g ∉ default [] (no_nbrs k log !! phase).
Proof.
  intros Hg. unfold no_nbrs. destruct (replicate _ _ !! phase) as [l|] eqn:E; cbn; [|apply not_elem_of_nil].
  apply lookup_replicate in E as [-> _]. intros [? _]%elem_of_replicate. unfold TEAM_SCALAR_INVALID in *. lia.
Qed.
Lemma phase_lookup (f : nat -> list Z) m phase : (phase < m)%nat ->
  default [] ((f <$> seq 0 m) !! phase) = f phase.
Proof. intros. by rewrite list_lookup_fmap, lookup_seq_lt. Qed.

(** One direction of the symmetry of step 2. *)
Lemma step2_sym_aux q r sq sr phase : 0 <= q < num -> 0 <= r < num ->
  get q num = Ret sq -> get r num = Ret sr ->
  pe_of r ∈ default [] (step2_nbrs sq !! phase) -> pe_of q ∈ default [] (step2_nbrs sr !! phase).
Proof.
  intros Hq Hr Gq Gr. destruct (get_neighbors_at q Hq) as (n & Hn & [(-> & _ & E)|(_ & _ & E)]);
    rewrite E in Gq; injection Gq as <-; cbn [step2_nbrs]; [|by intros []%no_nbrs_elem; apply pe_of_nonneg].
  destruct (decide (phase < Z.to_nat log)%nat) as [Hph|Hph];
    [|rewrite lookup_ge_None_2 by (rewrite length_fmap, length_seq; lia); by intros ?%not_elem_of_nil].
  rewrite phase_lookup by done.
  rewrite (pe_of_elem num) by (done || intros ? ?; eapply (nbrs_range k num log); eauto).
  intros Hel. assert (exists m, 0 <= m < k ^ log /\ r = real_pe m) as (m & Hm & ->).
  { unfold Recexch.nbrs in Hel. rewrite list_elem_of_fmap in Hel.
    destruct Hel as (d & -> & [_ Hd%elem_of_seqZ]%list_elem_of_filter).
    eexists. split; [|done]. apply (flip_range k num log); done || lia. }
  rewrite (get_neighbors_participant k num log) in Gr by done. injection Gr as <-. cbn [step2_nbrs].
  rewrite phase_lookup by done.
  rewrite (pe_of_elem num) by (done || intros ? ?; eapply (nbrs_range k num log); eauto).
  by apply nbrs_sym.
Qed.
End Team.

(** In step 1 of the recursive exchange the two sides agree: a PE of the
    team sends its data to another exactly when that one expects to receive
    from it. *)
Theorem recexch_step1_agree kval pe_mapping num i j gi gj si sj :
  2 <= kval -> Z.of_nat (length pe_mapping) = num -> NoDup pe_mapping -> Forall (fun g => 0 <= g) pe_mapping ->
  pe_mapping !! i = Some gi -> pe_mapping !! j = Some gj ->
  nvshmemi_recexchalgo_get_neighbors kval pe_mapping (Z.of_nat i) num = Ret si ->
  nvshmemi_recexchalgo_get_neighbors kval pe_mapping (Z.of_nat j) num = Ret sj ->
  step1_sendto si = gj <-> gi ∈ step1_recvfrom sj.
Proof.
  intros Hk Hlen Hnd Hpos Ei Ej Gi Gj.
  assert (0 <= gj) by (by eapply (Forall_lookup_1 _ _ _ _ Hpos Ej)).
  destruct (pe_of_lookup num pe_mapping Hlen i gi Ei) as [<- Hi].
  destruct (pe_of_lookup num pe_mapping Hlen j gj Ej) as [<- Hj].
  destruct (team_params kval num Hk ltac:(lia)) as (k & log & Hk2 & Hlog & Hnum & Ek & Ep).
  pose proof (step1_agree k num log Hk2 Hlog Hnum _ _ Hi Hj) as Agree.
  assert (pe_of pe_mapping (Z.of_nat i) ∈ step1_recvfrom sj <->
          Z.of_nat i ∈ (step1 k num (k ^ log) (Z.of_nat j)).1.2) as ->.
  { rewrite <- (pe_of_elem num pe_mapping Hlen Hnd (Z.of_nat i)); [|done|].
    - destruct (get_neighbors_at kval num k log pe_mapping Hk Hlen Hk2 Hlog Hnum Ek Ep _ Hj)
        as (m & _ & [(_ & _ & E)|(_ & E0 & E)]); rewrite E in Gj; injection Gj as <-; [done|by rewrite E0].
    - intros r Hr. destruct (group_cover k num log Hk2 Hlog Hnum _ Hj) as (m & Hm & Gm).
      destruct (decide (Z.of_nat j = real_pe k num (k ^ log) m)) as [Er|Ne].
      + rewrite Er, step1_real in Hr by done. apply list_elem_of_fmap in Hr as (d & -> & Hd%elem_of_seqZ).
        pose proof (real_pe_range k num log Hk2 Hlog Hnum m Hm). pose proof (group_nonneg k num log Hk2 Hlog Hnum m ltac:(lia)). lia.
      + rewrite (step1_other k num log Hk2 Hlog Hnum _ m) in Hr by (done || lia). by apply not_elem_of_nil in Hr. }
  rewrite <- Agree.
  destruct (get_neighbors_at kval num k log pe_mapping Hk Hlen Hk2 Hlog Hnum Ek Ep _ Hi)
    as (n & Hn & [(_ & E1 & E)|(E1 & _ & E)]); rewrite E in Gi; injection Gi as <-; cbn [step1_sendto]; rewrite E1; [lia|].
  split; [|by intros ->]. apply (pe_of_inj num); try done. by apply real_pe_range.
Qed.
Lemma recexch_step1_agree_witness :
  exists si sj, nvshmemi_recexchalgo_get_neighbors 2 [10; 20; 30] 0 3 = Ret si /\
    nvshmemi_recexchalgo_get_neighbors 2 [10; 20; 30] 1 3 = Ret sj /\
    (step1_sendto si = 20 <-> 10 ∈ step1_recvfrom sj) /\ step1_sendto si = 20.
Proof.
  eexists _, _. split; [vm_compute; reflexivity|]. split; [vm_compute; reflexivity|]. split; [|reflexivity].
  apply (recexch_step1_agree 2 [10; 20; 30] 3 0 1 10 20); [lia|reflexivity| | |reflexivity|reflexivity|vm_compute; reflexivity|vm_compute; reflexivity].
  - apply (bool_decide_unpack _); reflexivity.
  - repeat constructor; lia.
Defined.

(** The neighbours of every phase of step 2 are symmetric: if a PE
    exchanges data with another in a phase, the other exchanges with it in the
    same phase. *)
Theorem recexch_step2_symmetric kval pe_mapping num i j gi gj si sj phase :
  2 <= kval -> Z.of_nat (length pe_mapping) = num -> NoDup pe_mapping -> Forall (fun g => 0 <= g) pe_mapping ->
  pe_mapping !! i = Some gi -> pe_mapping !! j = Some gj ->
  nvshmemi_recexchalgo_get_neighbors kval pe_mapping (Z.of_nat i) num = Ret si ->
  nvshmemi_recexchalgo_get_neighbors kval pe_mapping (Z.of_nat j) num = Ret sj ->
  gj ∈ default [] (step2_nbrs si !! phase) <-> gi ∈ default [] (step2_nbrs sj !! phase).
Proof.
  intros Hk Hlen Hnd Hpos Ei Ej Gi Gj.
  destruct (pe_of_lookup num pe_mapping Hlen i gi Ei) as [<- Hi].
  destruct (pe_of_lookup num pe_mapping Hlen j gj Ej) as [<- Hj].
  destruct (team_params kval num Hk ltac:(lia)) as (k & log & Hk2 & Hlog & Hnum & Ek & Ep).
  pose proof (step2_sym_aux kval num k log pe_mapping Hk Hlen Hk2 Hlog Hnum Ek Ep Hnd Hpos) as Sym.
  split; [apply (Sym _ _ si sj phase Hi Hj Gi Gj)|apply (Sym _ _ sj si phase Hj Hi Gj Gi)].
Qed.
Lemma recexch_step2_symmetric_witness :
  exists si sj, nvshmemi_recexchalgo_get_neighbors 2 [10; 20; 30; 40; 50] 1 5 = Ret si /\
    nvshmemi_recexchalgo_get_neighbors 2 [10; 20; 30; 40; 50] 3 5 = Ret sj /\
    (40 ∈ default [] (step2_nbrs si !! 1%nat) <-> 20 ∈ default [] (step2_nbrs sj !! 1%nat)) /\
    default [] (step2_nbrs si !! 1%nat) = [40].
Proof.
  eexists _, _. split; [vm_compute; reflexivity|]. split; [vm_compute; reflexivity|]. split; [|reflexivity].
  apply (recexch_step2_symmetric 2 [10; 20; 30; 40; 50] 5 1 3 20 40);
    [lia|reflexivity| | |reflexivity|reflexivity|vm_compute; reflexivity|vm_compute; reflexivity].
  - apply (bool_decide_unpack _); reflexivity.
  - repeat constructor; lia.
Defined.

(** The stages of the reduction are those of the participants. *)
Lemma reduce_stage_held kval num k log pe_mapping sched x :
  2 <= kval -> Z.of_nat (length pe_mapping) = num -> 2 <= k -> 0 <= log -> k ^ log <= num < k ^ log * k ->
  team_k kval num = k -> powers k num = Ret (k ^ log, log) ->
  (forall q s, 0 <= q < num -> nvshmemi_recexchalgo_get_neighbors kval pe_mapping q num = Ret s ->
     sched (pe_of pe_mapping q) = s) ->
  forall i n, 0 <= n < k ^ log -> (i <= Z.to_nat log)%nat ->
    reduce_stage sched x i (pe_of pe_mapping (real_pe k num (k ^ log) n)) =
      held k num log (fun q => x (pe_of pe_mapping q)) i n.
Proof.
  intros Hkv Hlen Hk Hlog Hnum Ek Ep Hs.
  assert (forall n, 0 <= n < k ^ log -> sched (pe_of pe_mapping (real_pe k num (k ^ log) n)) =
      {| step1_sendto := -1; step1_recvfrom := pe_of pe_mapping <$> (step1 k num (k ^ log) (real_pe k num (k ^ log) n)).1.2;
         step2_nbrs := (fun ph => pe_of pe_mapping <$> nbrs k num log n ph) <$> seq 0 (Z.to_nat log) |}) as Hp.
  { intros n Hn. apply Hs; [by apply real_pe_range|]. by apply get_neighbors_participant. }
  induction i as [|i IH]; intros n Hn Hi; cbn [reduce_stage held]; rewrite (Hp n Hn); cbn [step1_recvfrom step2_nbrs].
  - by rewrite zsum_fmap.
  - rewrite phase_lookup by lia. rewrite IH by (done || lia). f_equal. unfold nbrs. rewrite !zsum_fmap.
    apply zsum_ext. intros d [_ Hd%elem_of_seqZ]%list_elem_of_filter. apply IH; [|lia].
    apply (flip_range k num log); done || lia.
Qed.

(** C5: the function returns for every PE of the team, and a reduction that
    follows the schedule it computes ends, at every PE that takes part in
    step 2, with the contribution of every PE of the team exactly once. *)
Theorem recexch_allreduce kval pe_mapping (sched : Z -> recexch) x num :
  2 <= kval -> Z.of_nat (length pe_mapping) = num -> Forall (fun g => 0 <= g) pe_mapping ->
  (forall i g s, pe_mapping !! i = Some g ->
     nvshmemi_recexchalgo_get_neighbors kval pe_mapping (Z.of_nat i) num = Ret s -> sched g = s) ->
  forall i g, pe_mapping !! i = Some g ->
    nvshmemi_recexchalgo_get_neighbors kval pe_mapping (Z.of_nat i) num = Ret (sched g) /\
    (step1_sendto (sched g) = -1 ->
     reduce_stage sched x (length (step2_nbrs (sched g))) g = zsum x pe_mapping).
Proof.
  intros Hk Hlen Hpos Hs i g Ei. destruct (pe_of_lookup num pe_mapping Hlen i g Ei) as [<- Hi].
  destruct (team_params kval num Hk ltac:(lia)) as (k & log & Hk2 & Hlog & Hnum & Ek & Ep).
  assert (forall q s, 0 <= q < num -> nvshmemi_recexchalgo_get_neighbors kval pe_mapping q num = Ret s ->
     sched (pe_of pe_mapping q) = s) as Hs'.
  { intros q s Hq E. destruct (lookup_lt_is_Some_2 pe_mapping (Z.to_nat q) ltac:(lia)) as [h Eh].
    apply (Hs (Z.to_nat q)); [unfold pe_of; by rewrite Eh|by rewrite Z2Nat.id by lia]. }
  destruct (get_neighbors_at kval num k log pe_mapping Hk Hlen Hk2 Hlog Hnum Ek Ep _ Hi)
    as (n & Hn & [(Er & _ & E)|(_ & _ & E)]); rewrite (Hs' _ _ Hi E); (split; [done|]); cbn [step1_sendto step2_nbrs].
  - intros _. rewrite length_fmap, length_seq, Er.
    rewrite (reduce_stage_held kval num k log) by (done || lia). rewrite held_all by done.
    rewrite <- zsum_fmap. f_equal. apply list_eq. intros j. rewrite list_lookup_fmap.
    destruct (decide (j < length pe_mapping)%nat).
    + rewrite lookup_seqZ_lt by lia. destruct (lookup_lt_is_Some_2 pe_mapping j ltac:(lia)) as [h Eh].
      rewrite Eh. cbn [fmap option_fmap option_map]. unfold pe_of. by rewrite Z.add_0_l, Nat2Z.id, Eh.
    + rewrite lookup_seqZ_ge by lia. by rewrite lookup_ge_None_2 by lia.
  - intros Ebad. pose proof (real_pe_range k num log Hk2 Hlog Hnum n Hn) as Hr. revert Ebad. unfold pe_of.
    destruct (lookup_lt_is_Some_2 pe_mapping (Z.to_nat (real_pe k num (k ^ log) n)) ltac:(lia)) as [h Eh].
    rewrite Eh. cbn. pose proof (Forall_lookup_1 _ _ _ _ Hpos Eh) as Hh. cbn in Hh. lia.
Qed.

(** The schedule of a team of three PEs with [k] = 2: PE 10 sends to PE 20,
    which exchanges with PE 30. *)
Definition team3_sched (g : Z) : recexch :=
  if bool_decide (g = 10) then {| step1_sendto := 20; step1_recvfrom := []; step2_nbrs := [[-1]] |}
  else if bool_decide (g = 20) then {| step1_sendto := -1; step1_recvfrom := [10]; step2_nbrs := [[30]] |}
  else {| step1_sendto := -1; step1_recvfrom := []; step2_nbrs := [[20]] |}.

Lemma recexch_allreduce_witness :
  nvshmemi_recexchalgo_get_neighbors 2 [10; 20; 30] 1 3 = Ret (team3_sched 20) /\
  reduce_stage team3_sched (fun g => g * g) 1 20 = zsum (fun g => g * g) [10; 20; 30].
Proof.
  destruct (recexch_allreduce 2 [10; 20; 30] team3_sched (fun g => g * g) 3) with (i := 1%nat) (g := 20) as [E R].
  - lia.
  - reflexivity.
  - repeat constructor; lia.
  - intros [|[|[|i]]] g s E; [| | |discriminate E]; injection E as <-; vm_compute; intros E; by injection E as <-.
  - reflexivity.
  - split; [exact E|]. apply R. reflexivity.
Defined.
End Recexch.
