(* ===== verification/TeamBits.v ===== *)
(** * The bit arrays of the team indices

    Models the bit operations of src/src/host/team/team_internal.cpp
    ([nvshmemi_bit_set], [nvshmemi_bit_clear], [nvshmemi_bit_fetch]) and
    [nvshmemi_bit_1st_nonzero] of src/src/host/team/team_internal.h, on byte
    arrays ([psync_pool_avail]), and the byte-wise AND that the PEs of a new
    team reduce their arrays with.  The lemmas describe each operation by the
    bits of the array. *)
From stdpp Require Import base gmap list.
From Stdlib Require Import ZArith Lia.
From S2P Require Import Prelude.

Module TeamBits.

Definition CHAR_BIT : Z := 8.

(** [ptr[which_byte] |= (1 << (index % CHAR_BIT))] *)
Definition nvshmemi_bit_set (ptr : list Z) (size index : Z) : outcome (list Z) :=
  _ ← cassert (bool_decide (size > 0 /\ index < size * CHAR_BIT));
  b ← arr_get ptr (index / CHAR_BIT);
  Ret (<[Z.to_nat (index / CHAR_BIT) := u8 (Z.lor b (Z.shiftl 1 (index mod CHAR_BIT)))]> ptr).

(** [ptr[which_byte] &= ~(1 << (index % CHAR_BIT))] *)
Definition nvshmemi_bit_clear (ptr : list Z) (size index : Z) : outcome (list Z) :=
  _ ← cassert (bool_decide (size > 0 /\ index < size * CHAR_BIT));
  b ← arr_get ptr (index / CHAR_BIT);
  Ret (<[Z.to_nat (index / CHAR_BIT) := u8 (Z.land b (Z.lnot (Z.shiftl 1 (index mod CHAR_BIT))))]> ptr).

Definition nvshmemi_bit_fetch (ptr : list Z) (index : Z) : outcome Z :=
  b ← arr_get ptr (index / CHAR_BIT); Ret (Z.land (Z.shiftr b (index mod CHAR_BIT)) 1).

(** The inner loop: [n] more bits of [bit_val], from bit [j]. *)
Fixpoint first_in_byte (n : nat) (bit_val j : Z) : option Z :=
  match n with
  | O => None
  | S n => if bool_decide (bit_val = 0) then None
           else if bool_decide (Z.land bit_val 1 <> 0) then Some j
           else first_in_byte n (Z.shiftr bit_val 1) (j + 1)
  end.

(** [nvshmemi_bit_1st_nonzero]: the bytes from index [i]; [(size_t)-1] when
    there is none. *)
Fixpoint first_nonzero_from (ptr : list Z) (i : Z) : Z :=
  match ptr with
  | [] => SIZE_MAX
  | b :: ptr => match first_in_byte 8 b 0 with
                | Some j => i * CHAR_BIT + j
                | None => first_nonzero_from ptr (i + 1)
                end
  end.
Definition nvshmemi_bit_1st_nonzero (ptr : list Z) : Z := first_nonzero_from ptr 0.

(** One step of the [RDXN_OPS_AND] reduction of the byte arrays. *)
Definition bytes_and (a b : list Z) : list Z := zip_with Z.land a b.

(** ** The bits of an array *)
Definition bytes_ok (ptr : list Z) : Prop := Forall (fun b => b ∈u 8) ptr.
Definition bit (ptr : list Z) (i : Z) : bool :=
  bool_decide (0 <= i) && Z.testbit (default 0 (ptr !! Z.to_nat (i / 8))) (i mod 8).

Lemma bit_neg ptr i : i < 0 -> bit ptr i = false.
Proof. intros. unfold bit. by rewrite bool_decide_eq_false_2 by lia. Qed.
Lemma bit_range ptr i : bit ptr i = true -> 0 <= i < 8 * Z.of_nat (length ptr).
Proof.
  unfold bit. case_bool_decide as Hi; [|done]. cbn. intros Hb. split; [done|].
  destruct (decide (i < 8 * Z.of_nat (length ptr))); [done|exfalso].
  rewrite lookup_ge_None_2 in Hb; [by rewrite Z.bits_0 in Hb|].
  apply Nat2Z.inj_le. rewrite Z2Nat.id by (apply Z.div_pos; lia). apply Z.div_le_lower_bound; lia.
Qed.
Lemma byte_index i : 0 <= i -> i = 8 * (i / 8) + i mod 8 /\ 0 <= i mod 8 < 8 /\ 0 <= i / 8.
Proof.
  intros. pose proof (Z.div_mod i 8 ltac:(lia)). pose proof (Z.mod_pos_bound i 8 ltac:(lia)).
  pose proof (Z.div_pos i 8). lia.
Qed.
Lemma byte_lookup (ptr : list Z) i : 0 <= i < 8 * Z.of_nat (length ptr) -> exists b, ptr !! Z.to_nat (i / 8) = Some b.
Proof.
  intros Hi. apply lookup_lt_is_Some_2. destruct (byte_index i ltac:(lia)) as (? & ? & ?). lia.
Qed.

(** Replacing one byte changes its bits only. *)
Lemma bit_insert ptr k b i : 0 <= k < 8 * Z.of_nat (length ptr) -> 0 <= i ->
  bit (<[Z.to_nat (k / 8) := b]> ptr) i =
    if bool_decide (i / 8 = k / 8) then Z.testbit b (i mod 8) else bit ptr i.
Proof.
  intros Hk Hi. unfold bit. rewrite (bool_decide_eq_true_2 (0 <= i)) by done. cbn.
  destruct (byte_index k ltac:(lia)) as (? & ? & ?). destruct (byte_index i Hi) as (? & ? & ?).
  destruct (bool_decide_reflect (i / 8 = k / 8)) as [->|Hne].
  - rewrite list_lookup_insert_eq by lia. done.
  - rewrite list_lookup_insert_ne by lia. done.
Qed.

Lemma testbit_u8 b n : 0 <= n < 8 -> Z.testbit (u8 b) n = Z.testbit b n.
Proof. intros. unfold wrap. by rewrite Z.mod_pow2_bits_low by lia. Qed.
Lemma testbit_one k n : 0 <= k -> 0 <= n -> Z.testbit (Z.shiftl 1 k) n = bool_decide (n = k).
Proof.
  intros. rewrite Z.shiftl_1_l. destruct (bool_decide_reflect (n = k)) as [->|Hne].
  - by apply Z.pow2_bits_true.
  - by apply Z.pow2_bits_false.
Qed.
Lemma same_byte i k : 0 <= i -> 0 <= k -> i / 8 = k / 8 -> bool_decide (i mod 8 = k mod 8) = bool_decide (i = k).
Proof.
  intros Hi Hk E. destruct (byte_index i Hi) as (? & _), (byte_index k Hk) as (? & _).
  apply bool_decide_ext. lia.
Qed.

Section Ops.
Context (ptr : list Z) (size : Z).
Hypothesis Hlen : Z.of_nat (length ptr) = size.

Lemma arr_get_byte k : 0 <= k < 8 * size -> exists b, arr_get ptr (k / 8) = Ret b /\ ptr !! Z.to_nat (k / 8) = Some b.
Proof.
  intros Hk. destruct (byte_lookup ptr k ltac:(lia)) as [b Eb]. exists b. unfold arr_get.
  destruct (byte_index k ltac:(lia)) as (_ & _ & ?). by rewrite bool_decide_eq_false_2, Eb by lia.
Qed.

Lemma bit_set_spec k : 0 <= k < 8 * size ->
  exists ptr', nvshmemi_bit_set ptr size k = Ret ptr' /\ length ptr' = length ptr /\
    (bytes_ok ptr -> bytes_ok ptr') /\ forall i, bit ptr' i = bool_decide (i = k) || bit ptr i.
Proof.
  intros Hk. unfold nvshmemi_bit_set, CHAR_BIT. rewrite bool_decide_eq_true_2 by lia. cbn [cassert].
  destruct (arr_get_byte k Hk) as (b & E & Eb). rewrite outcome_bind_ret, E, outcome_bind_ret.
  eexists. split; [done|]. split; [by rewrite length_insert|]. split.
  - intros Hok. apply Forall_insert; [done|]. apply wrap_in_u. lia.
  - intros i. destruct (decide (0 <= i)) as [Hi|Hi];
      [|rewrite !bit_neg, bool_decide_eq_false_2 by lia; done].
    rewrite bit_insert by lia. destruct (byte_index i Hi) as (Ei & Hm & _). destruct (byte_index k) as (Ek & Hk8 & _); [lia|].
    destruct (bool_decide_reflect (i / 8 = k / 8)) as [Es|Ns].
    + rewrite testbit_u8, Z.lor_spec, testbit_one, same_byte by lia. unfold bit.
      rewrite (bool_decide_eq_true_2 (0 <= i)), Es, Eb by done. apply orb_comm.
    + rewrite bool_decide_eq_false_2; [done|]. intros ->. done.
Qed.

Lemma bit_clear_spec k : 0 <= k < 8 * size ->
  exists ptr', nvshmemi_bit_clear ptr size k = Ret ptr' /\ length ptr' = length ptr /\
    (bytes_ok ptr -> bytes_ok ptr') /\ forall i, bit ptr' i = negb (bool_decide (i = k)) && bit ptr i.
Proof.
  intros Hk. unfold nvshmemi_bit_clear, CHAR_BIT. rewrite bool_decide_eq_true_2 by lia. cbn [cassert].
  destruct (arr_get_byte k Hk) as (b & E & Eb). rewrite outcome_bind_ret, E, outcome_bind_ret.
  eexists. split; [done|]. split; [by rewrite length_insert|]. split.
  - intros Hok. apply Forall_insert; [done|]. apply wrap_in_u. lia.
  - intros i. destruct (decide (0 <= i)) as [Hi|Hi];
      [|rewrite !bit_neg, bool_decide_eq_false_2 by lia; done].
    rewrite bit_insert by lia. destruct (byte_index i Hi) as (Ei & Hm & _). destruct (byte_index k) as (Ek & Hk8 & _); [lia|].
    destruct (bool_decide_reflect (i / 8 = k / 8)) as [Es|Ns].
    + rewrite testbit_u8, Z.land_spec, Z.lnot_spec, testbit_one, same_byte by lia. unfold bit.
      rewrite (bool_decide_eq_true_2 (0 <= i)), Es, Eb by done. apply andb_comm.
    + rewrite bool_decide_eq_false_2; [done|]. intros ->. done.
Qed.

Lemma bit_fetch_spec k : 0 <= k < 8 * size -> nvshmemi_bit_fetch ptr k = Ret (Z.b2z (bit ptr k)).
Proof.
  intros Hk. unfold nvshmemi_bit_fetch, CHAR_BIT. destruct (arr_get_byte k Hk) as (b & E & Eb).
  rewrite E, outcome_bind_ret. unfold bit. rewrite (bool_decide_eq_true_2 (0 <= k)), Eb by lia. cbn [andb from_option].
  destruct (byte_index k ltac:(lia)) as (_ & ? & _). rewrite Z.testbit_spec' by lia.
  rewrite (Z.land_ones _ 1), Z.shiftr_div_pow2 by lia. done.
Qed.
End Ops.

(** ** The first bit set *)
Lemma land_1_testbit v : bool_decide (Z.land v 1 <> 0) = Z.testbit v 0.
Proof.
  assert (Z.land v 1 = v mod 2) as -> by (apply (Z.land_ones v 1); lia).
  rewrite Z.bit0_odd, Zodd_mod. pose proof (Z.mod_pos_bound v 2 ltac:(lia)).
  destruct (decide (v mod 2 = 0)) as [E|E].
  - rewrite E. done.
  - replace (v mod 2) with 1 by lia. done.
Qed.

Lemma first_in_byte_spec n : forall v j, 
  match first_in_byte n v j with
  | Some j' => j <= j' < j + Z.of_nat n /\ Z.testbit v (j' - j) = true /\
               forall m, m < j' - j -> Z.testbit v m = false
  | None => forall m, m < Z.of_nat n -> Z.testbit v m = false
  end.
Proof.
  induction n as [|n IH]; intros v j; cbn [first_in_byte].
  - intros m Hm. apply Z.testbit_neg_r. lia.
  - destruct (bool_decide_reflect (v = 0)) as [->|Hv]; [intros m _; apply Z.bits_0|].
    rewrite land_1_testbit. destruct (Z.testbit v 0) eqn:E0.
    + split; [lia|]. rewrite Z.sub_diag. split; [done|]. intros m Hm. by apply Z.testbit_neg_r.
    + specialize (IH (Z.shiftr v 1) (j + 1)).
      assert (forall m, 0 < m -> Z.testbit (Z.shiftr v 1) (m - 1) = Z.testbit v m) as Sh.
      { intros m Hm. rewrite Z.shiftr_spec by lia. f_equal. lia. }
      assert (forall m, m <= 0 -> Z.testbit v m = false) as Neg.
      { intros m Hm. destruct (decide (m = 0)) as [->|]; [done|]. apply Z.testbit_neg_r. lia. }
      destruct (first_in_byte n (Z.shiftr v 1) (j + 1)) as [j'|].
      * destruct IH as (Hj & Ht & Hf). split; [lia|]. split.
        { rewrite <- Sh by lia. by replace (j' - j - 1) with (j' - (j + 1)) by lia. }
        intros m Hm. destruct (decide (m <= 0)); [by apply Neg|]. rewrite <- Sh by lia. apply Hf. lia.
      * intros m Hm. destruct (decide (m <= 0)); [by apply Neg|]. rewrite <- Sh by lia. apply IH. lia.
Qed.

Lemma bit_cons b ptr i : 0 <= i ->
  bit (b :: ptr) i = if bool_decide (i < 8) then Z.testbit b i else bit ptr (i - 8).
Proof.
  intros Hi. unfold bit. rewrite (bool_decide_eq_true_2 (0 <= i)) by done.
  destruct (bool_decide_reflect (i < 8)) as [Hlt|Hge]; cbn [andb].
  - rewrite Z.div_small, Z.mod_small by lia. done.
  - rewrite bool_decide_eq_true_2 by lia. cbn [andb].
    replace (i mod 8) with ((i - 8) mod 8) by (rewrite <- (Z.mod_add (i - 8) 1 8) by lia; f_equal; lia).
    replace (i / 8) with (1 + (i - 8) / 8) by (rewrite <- (Z.div_add_l 1 8 (i - 8)) by lia; f_equal; lia).
    rewrite Z2Nat.inj_add by (try apply Z.div_pos; lia). done.
Qed.

Lemma first_nonzero_from_spec ptr : forall i,
  (exists k, first_nonzero_from ptr i = i * 8 + k /\ bit ptr k = true /\ forall m, m < k -> bit ptr m = false) \/
  (first_nonzero_from ptr i = SIZE_MAX /\ forall m, bit ptr m = false).
Proof.
  induction ptr as [|b ptr IH]; intros i; cbn [first_nonzero_from].
  - right. split; [done|]. intros m. unfold bit. rewrite lookup_nil. cbn. by rewrite Z.bits_0, andb_false_r.
  - pose proof (first_in_byte_spec 8 b 0) as H. destruct (first_in_byte 8 b 0) as [j|].
    + destruct H as (Hj & Ht & Hf). rewrite Z.sub_0_r in *. left. exists j. split; [done|].
      rewrite bit_cons, bool_decide_eq_true_2 by lia. split; [done|]. intros m Hm.
      destruct (decide (0 <= m)); [|by apply bit_neg; lia]. rewrite bit_cons, bool_decide_eq_true_2 by lia. by apply Hf.
    + assert (forall m, m < 8 -> bit (b :: ptr) m = false) as Hb.
      { intros m Hm. destruct (decide (0 <= m)); [|by apply bit_neg; lia].
        rewrite bit_cons, bool_decide_eq_true_2 by lia. by apply H. }
      assert (forall m, 8 <= m -> bit (b :: ptr) m = bit ptr (m - 8)) as Hr.
      { intros m Hm. rewrite bit_cons, bool_decide_eq_false_2 by lia. done. }
      destruct (IH (i + 1)) as [(k & E & Ht & Hf)|[E Hf]].
      * pose proof (bit_range _ _ Ht). left. exists (k + 8). split; [lia|]. split.
        { rewrite Hr by lia. by replace (k + 8 - 8) with k by lia. }
        intros m Hm. destruct (decide (m < 8)); [by apply Hb|]. rewrite Hr by lia. apply Hf. lia.
      * right. split; [done|]. intros m. destruct (decide (m < 8)); [by apply Hb|]. rewrite Hr by lia. apply Hf.
Qed.

Lemma bit_1st_nonzero_spec ptr :
  (exists k, nvshmemi_bit_1st_nonzero ptr = k /\ bit ptr k = true /\ forall m, m < k -> bit ptr m = false) \/
  (nvshmemi_bit_1st_nonzero ptr = SIZE_MAX /\ forall m, bit ptr m = false).
Proof.
  unfold nvshmemi_bit_1st_nonzero. destruct (first_nonzero_from_spec ptr 0) as [(k & E & H)|H]; [left|by right].
  exists k. by rewrite E.
Qed.

Lemma bit_and a b i : bit (bytes_and a b) i = bit a i && bit b i.
Proof.
  unfold bit, bytes_and. destruct (bool_decide (0 <= i)); [|done]. cbn [andb]. rewrite lookup_zip_with.
  destruct (a !! _) as [x|]; cbn; [|by rewrite Z.bits_0].
  destruct (b !! _) as [y|]; cbn; [by rewrite Z.land_spec|by rewrite Z.bits_0, andb_false_r].
Qed.
End TeamBits.
