(* ===== verification/Team.v ===== *)
(** * Teams: the data of a team and what is computed from it

    Models the parts of src/src/host/team/team_internal.cpp that work on one
    team: the team record ([nvshmemi_team_t], nvshmem_types.h), its PE maps and
    the translation between teams, the tests [nvshmemi_team_is_identical] and
    [nvshmemi_team_is_subset], and strides.

    [pe_mapping] is one array: entries [0 .. size) map an index of the team to
    its PE, entry [size + g] maps PE [g] back to its index in the team, or -1.
    [team_wf] states this, and the operations establish and use it. *)
From stdpp Require Import base gmap list.
From Stdlib Require Import ZArith Lia.
From S2P Require Import Prelude Recexch.

Module Team.

Definition TEAM_SCALAR_INVALID : Z := -1.
Definition TEAM_ULSCALAR_INVALID : Z := 2 ^ 64 - 1.
Definition TEAM_CONFIG_SCALAR_INVALID : Z := -1.
Definition NVSHMEM_TEAM_INVALID : Z := -1.

(** [NVSHMEMI_TEAM_CONFIG_VERSION_1_IDENTIFIER] and [..._2_...]: both
    structures are 64 bytes. *)
Definition NVSHMEMI_TEAM_CONFIG_VERSION_1_IDENTIFIER : Z := Z.shiftl 1 16 + 64.
Definition NVSHMEMI_TEAM_CONFIG_VERSION_2_IDENTIFIER : Z := Z.shiftl 2 16 + 64.

Record team_config := { cfg_version : Z; cfg_num_contexts : Z; cfg_uniqueid : Z }.
Definition NVSHMEMI_TEAM_CONFIG_INITIALIZER : team_config :=
  {| cfg_version := NVSHMEMI_TEAM_CONFIG_VERSION_2_IDENTIFIER;
     cfg_num_contexts := TEAM_CONFIG_SCALAR_INVALID; cfg_uniqueid := TEAM_ULSCALAR_INVALID |}.

(** The per-collective counters of a team. *)
Record team_counters := {
  rdxn_count : Z; ll_flag : Z; alltoall_count : Z; bcast_count : Z; bcast_sync_offset : Z;
  fcollect_count : Z; p2p_sync_on_stream_count : Z }.

(** [nvshmemi_team_t], less the NCCL and NVLS resources and the duplicates. *)
Record team := {
  my_pe : Z;
  start : Z;
  stride : Z;
  size : Z;
  team_idx : Z;
  config : team_config;
  config_mask : Z;
  counters : team_counters;
  are_gpus_p2p_connected : bool;
  is_team_node : bool;
  team_node : Z;
  is_team_same_mype_node : bool;
  team_same_mype_node : Z;
  reduce_recexch : option Recexch.recexch;
  pe_mapping : list Z }.

(** [NVSHMEMI_TEAM_INITIALIZER] with the map [NVSHMEMI_TEAM_PE_MAPPING_INITIALIZER]
    fills in: [npes_team] slots and one per PE of the job. *)
Definition new_team (npes_team npes : Z) : team :=
  {| my_pe := TEAM_SCALAR_INVALID; start := TEAM_SCALAR_INVALID; stride := TEAM_SCALAR_INVALID;
     size := TEAM_SCALAR_INVALID; team_idx := TEAM_SCALAR_INVALID;
     config := NVSHMEMI_TEAM_CONFIG_INITIALIZER; config_mask := TEAM_SCALAR_INVALID;
     counters := {| rdxn_count := TEAM_ULSCALAR_INVALID; ll_flag := 2 ^ 32 - 1; alltoall_count := 0;
                    bcast_count := TEAM_ULSCALAR_INVALID; bcast_sync_offset := TEAM_ULSCALAR_INVALID;
                    fcollect_count := TEAM_ULSCALAR_INVALID; p2p_sync_on_stream_count := TEAM_ULSCALAR_INVALID |};
     are_gpus_p2p_connected := false; is_team_node := false; team_node := TEAM_SCALAR_INVALID;
     is_team_same_mype_node := false; team_same_mype_node := TEAM_SCALAR_INVALID;
     reduce_recexch := None;
     pe_mapping := replicate (Z.to_nat (npes_team + npes)) NVSHMEM_TEAM_INVALID |}.

(** Assignments to fields. *)
Definition set_geometry (me st sd n : Z) (t : team) : team :=
  {| my_pe := me; start := st; stride := sd; size := n; team_idx := team_idx t; config := config t;
     config_mask := config_mask t; counters := counters t;
     are_gpus_p2p_connected := are_gpus_p2p_connected t; is_team_node := is_team_node t;
     team_node := team_node t; is_team_same_mype_node := is_team_same_mype_node t;
     team_same_mype_node := team_same_mype_node t; reduce_recexch := reduce_recexch t;
     pe_mapping := pe_mapping t |}.
Definition set_pe_mapping (l : list Z) (t : team) : team :=
  {| my_pe := my_pe t; start := start t; stride := stride t; size := size t;
     team_idx := team_idx t; config := config t; config_mask := config_mask t;
     counters := counters t; are_gpus_p2p_connected := are_gpus_p2p_connected t;
     is_team_node := is_team_node t; team_node := team_node t;
     is_team_same_mype_node := is_team_same_mype_node t;
     team_same_mype_node := team_same_mype_node t; reduce_recexch := reduce_recexch t;
     pe_mapping := l |}.
Definition set_stride (sd : Z) (t : team) : team :=
  {| my_pe := my_pe t; start := start t; stride := sd; size := size t; team_idx := team_idx t;
     config := config t; config_mask := config_mask t; counters := counters t;
     are_gpus_p2p_connected := are_gpus_p2p_connected t; is_team_node := is_team_node t;
     team_node := team_node t; is_team_same_mype_node := is_team_same_mype_node t;
     team_same_mype_node := team_same_mype_node t; reduce_recexch := reduce_recexch t;
     pe_mapping := pe_mapping t |}.
Definition set_idx (i : Z) (t : team) : team :=
  {| my_pe := my_pe t; start := start t; stride := stride t; size := size t; team_idx := i;
     config := config t; config_mask := config_mask t; counters := counters t;
     are_gpus_p2p_connected := are_gpus_p2p_connected t; is_team_node := is_team_node t;
     team_node := team_node t; is_team_same_mype_node := is_team_same_mype_node t;
     team_same_mype_node := team_same_mype_node t; reduce_recexch := reduce_recexch t;
     pe_mapping := pe_mapping t |}.
Definition set_config (c : team_config) (mask : Z) (t : team) : team :=
  {| my_pe := my_pe t; start := start t; stride := stride t; size := size t;
     team_idx := team_idx t; config := c; config_mask := mask; counters := counters t;
     are_gpus_p2p_connected := are_gpus_p2p_connected t; is_team_node := is_team_node t;
     team_node := team_node t; is_team_same_mype_node := is_team_same_mype_node t;
     team_same_mype_node := team_same_mype_node t; reduce_recexch := reduce_recexch t;
     pe_mapping := pe_mapping t |}.
Definition set_counters (c : team_counters) (t : team) : team :=
  {| my_pe := my_pe t; start := start t; stride := stride t; size := size t;
     team_idx := team_idx t; config := config t; config_mask := config_mask t; counters := c;
     are_gpus_p2p_connected := are_gpus_p2p_connected t; is_team_node := is_team_node t;
     team_node := team_node t; is_team_same_mype_node := is_team_same_mype_node t;
     team_same_mype_node := team_same_mype_node t; reduce_recexch := reduce_recexch t;
     pe_mapping := pe_mapping t |}.
Definition set_flags (p2p node same : bool) (t : team) : team :=
  {| my_pe := my_pe t; start := start t; stride := stride t; size := size t;
     team_idx := team_idx t; config := config t; config_mask := config_mask t;
     counters := counters t; are_gpus_p2p_connected := p2p; is_team_node := node;
     team_node := team_node t; is_team_same_mype_node := same;
     team_same_mype_node := team_same_mype_node t; reduce_recexch := reduce_recexch t;
     pe_mapping := pe_mapping t |}.
Definition set_links (node same : Z) (t : team) : team :=
  {| my_pe := my_pe t; start := start t; stride := stride t; size := size t;
     team_idx := team_idx t; config := config t; config_mask := config_mask t;
     counters := counters t; are_gpus_p2p_connected := are_gpus_p2p_connected t;
     is_team_node := is_team_node t; team_node := node;
     is_team_same_mype_node := is_team_same_mype_node t; team_same_mype_node := same;
     reduce_recexch := reduce_recexch t; pe_mapping := pe_mapping t |}.
Definition set_recexch (r : Recexch.recexch) (t : team) : team :=
  {| my_pe := my_pe t; start := start t; stride := stride t; size := size t;
     team_idx := team_idx t; config := config t; config_mask := config_mask t;
     counters := counters t; are_gpus_p2p_connected := are_gpus_p2p_connected t;
     is_team_node := is_team_node t; team_node := team_node t;
     is_team_same_mype_node := is_team_same_mype_node t;
     team_same_mype_node := team_same_mype_node t; reduce_recexch := Some r;
     pe_mapping := pe_mapping t |}.

(** ** PE maps *)
Definition nvshmemi_team_pe (t : team) (pe : Z) : outcome Z := arr_get (pe_mapping t) pe.

(** [team->pe_mapping[i] = v] *)
Definition map_set (l : list Z) (i v : Z) : outcome (list Z) :=
  _ ← arr_get l i; Ret (<[Z.to_nat i := v]> l).

(** [nvshmemi_team_populate_from_world_pe_mapping]: [n] more indices from [i]. *)
Fixpoint populate_from (n : nat) (sz : Z) (world l : list Z) (i : Z) : outcome (list Z) :=
  match n with
  | O => Ret l
  | S n =>
      global_pe_index ← arr_get l i;
      w ← arr_get world i;
      l ← map_set l (global_pe_index + sz) w;
      populate_from n sz world l (i + 1)
  end.
Definition nvshmemi_team_populate_from_world_pe_mapping (world : team) (t : team) : outcome team :=
  l ← populate_from (Z.to_nat (size t)) (size t) (pe_mapping world) (pe_mapping t) 0;
  Ret (set_pe_mapping l t).

(** The first loop of [nvshmemi_team_populate_pe_mappings_from_constant_stride]. *)
Fixpoint fill_stride (n : nat) (st sd : Z) (l : list Z) (i : Z) : outcome (list Z) :=
  match n with
  | O => Ret l
  | S n => l ← map_set l i (st + i * sd); fill_stride n st sd l (i + 1)
  end.
(** For the world team, [world] is the team itself: the second loop reads the
    array the first one wrote. *)
Definition populate_world (t : team) : outcome team :=
  l ← fill_stride (Z.to_nat (size t)) (start t) (stride t) (pe_mapping t) 0;
  nvshmemi_team_populate_from_world_pe_mapping (set_pe_mapping l t) (set_pe_mapping l t).

Definition nvshmemi_team_translate_pe_to_team_world_wrap (src_team : team) (src_pe : Z) : outcome Z :=
  if bool_decide (size src_team = 0) then Fail FUndef
  else arr_get (pe_mapping src_team) (Z.rem src_pe (size src_team)).
Definition nvshmemi_team_translate_pe_from_team_world (dest_team : team) (src_pe : Z) : outcome Z :=
  arr_get (pe_mapping dest_team) (size dest_team + src_pe).

Definition nvshmemi_team_translate_pe (npes : Z) (src_team : team) (src_pe : Z) (dest_team : team)
  : outcome Z :=
  if bool_decide (src_pe > size src_team) then Ret (-1)
  else
    src_pe_world ← nvshmemi_team_translate_pe_to_team_world_wrap src_team src_pe;
    _ ← cassert (bool_decide (src_pe_world >= start src_team /\ src_pe_world < npes));
    nvshmemi_team_translate_pe_from_team_world dest_team src_pe_world.

(** ** Comparisons *)
Fixpoint maps_equal (n : nat) (l1 l2 : list Z) (i : Z) : outcome bool :=
  match n with
  | O => Ret true
  | S n =>
      a ← arr_get l1 i; b ← arr_get l2 i;
      if bool_decide (a <> b) then Ret false else maps_equal n l1 l2 (i + 1)
  end.
Definition nvshmemi_team_is_identical (t1 t2 : option team) : outcome bool :=
  match t1, t2 with
  | Some t1, Some t2 =>
      if bool_decide (start t1 <> start t2 \/ size t1 <> size t2) then Ret false
      else if bool_decide (stride t1 > 0 /\ stride t2 = stride t1) then Ret true
      else maps_equal (Z.to_nat (size t1)) (pe_mapping t1) (pe_mapping t2) 0
  | _, _ => Ret false
  end.

(** The inner loop: is [pe] among the [n] entries from [j]? *)
Fixpoint member_from (n : nat) (l : list Z) (j pe : Z) : outcome bool :=
  match n with
  | O => Ret false
  | S n => x ← arr_get l j; if bool_decide (pe = x) then Ret true else member_from n l (j + 1) pe
  end.
Fixpoint subset_from (n : nat) (l1 : list Z) (n2 : nat) (l2 : list Z) (i : Z) : outcome bool :=
  match n with
  | O => Ret true
  | S n =>
      pe ← arr_get l1 i;
      found ← member_from n2 l2 0 pe;
      if found : bool then subset_from n l1 n2 l2 (i + 1) else Ret false
  end.
Definition nvshmemi_team_is_subset (subset superset : team) : outcome bool :=
  if bool_decide (size subset > size superset) then Ret false
  else subset_from (Z.to_nat (size subset)) (pe_mapping subset)
                   (Z.to_nat (size superset)) (pe_mapping superset) 0.

(** ** Strides *)
Fixpoint stride_from (n : nat) (l : list Z) (sd i : Z) : outcome Z :=
  match n with
  | O => Ret sd
  | S n =>
      a ← arr_get l i; b ← arr_get l (i - 1);
      if bool_decide (a - b <> sd) then Ret TEAM_SCALAR_INVALID else stride_from n l sd (i + 1)
  end.
Definition nvshmemi_team_get_stride (t : team) : outcome Z :=
  b ← arr_get (pe_mapping t) 1; a ← arr_get (pe_mapping t) 0;
  stride_from (Z.to_nat (size t - 2)) (pe_mapping t) (b - a) 2.

(** [check_for_linear_stride]: the status and the new start, stride and size. *)
Definition check_for_linear_stride (pe st sd sz : Z) : outcome (Z * (Z * Z * Z)) :=
  if bool_decide (st < 0) then Ret (0, (pe, sd, sz + 1))
  else if bool_decide (sd < 0) then Ret (0, (st, pe - st, sz + 1))
  else if bool_decide (sd = 0) then Fail FUndef
  else if bool_decide (Z.rem (pe - st) sd <> 0) then Ret (-1, (st, sd, sz))
  else Ret (0, (st, sd, sz + 1)).

Definition nvshmemi_pe_in_active_set (global_pe PE_start PE_stride PE_size : Z) : outcome Z :=
  if bool_decide (PE_stride = 0) then Fail FUndef
  else
    let n := Z.quot (global_pe - PE_start) PE_stride in
    if bool_decide (global_pe < PE_start \/ Z.rem (global_pe - PE_start) PE_stride <> 0 \/ n >= PE_size)
    then Ret (-1) else Ret n.

(** ** Well-formed maps *)
Definition at_ (l : list Z) (i : Z) : option Z := if bool_decide (0 <= i) then l !! Z.to_nat i else None.
Definition members (t : team) : list Z := take (Z.to_nat (size t)) (pe_mapping t).

(** The map of a team of a job with [npes] PEs: forward, then backward. *)
Record team_wf (npes : Z) (t : team) : Prop := {
  wf_size : 1 <= size t;
  wf_len : Z.of_nat (length (pe_mapping t)) = size t + npes;
  wf_fwd : forall i, 0 <= i < size t -> exists g, 0 <= g < npes /\
    at_ (pe_mapping t) i = Some g /\ at_ (pe_mapping t) (size t + g) = Some i;
  wf_back : forall g, 0 <= g < npes -> exists j, at_ (pe_mapping t) (size t + g) = Some j /\
    (j = -1 \/ 0 <= j < size t /\ at_ (pe_mapping t) j = Some g) }.

Lemma at_arr_get l i x : at_ l i = Some x -> arr_get l i = Ret x.
Proof.
  unfold at_, arr_get. case_bool_decide; [|done]. intros E. rewrite bool_decide_eq_false_2 by lia. by rewrite E.
Qed.
Lemma at_range l i x : at_ l i = Some x -> 0 <= i < Z.of_nat (length l).
Proof. unfold at_. case_bool_decide; [|done]. intros E%lookup_lt_Some. lia. Qed.
Lemma at_some l i : 0 <= i < Z.of_nat (length l) -> exists x, at_ l i = Some x.
Proof. intros. unfold at_. rewrite bool_decide_eq_true_2 by lia. apply lookup_lt_is_Some_2. lia. Qed.
Lemma at_insert l i j v : 0 <= i < Z.of_nat (length l) ->
  at_ (<[Z.to_nat i := v]> l) j = if bool_decide (j = i) then Some v else at_ l j.
Proof.
  intros Hi. unfold at_. destruct (bool_decide_reflect (0 <= j)) as [Hj|Hj].
  - destruct (bool_decide_reflect (j = i)) as [->|Hne].
    + apply list_lookup_insert_eq. lia.
    + apply list_lookup_insert_ne. lia.
  - by rewrite bool_decide_eq_false_2 by lia.
Qed.
Lemma map_set_spec l i v : 0 <= i < Z.of_nat (length l) -> map_set l i v = Ret (<[Z.to_nat i := v]> l).
Proof. intros Hi. unfold map_set. destruct (at_some l i Hi) as [x E]. by rewrite (at_arr_get _ _ _ E). Qed.

Lemma members_lookup npes t i g : team_wf npes t -> at_ (pe_mapping t) i = Some g -> 0 <= i < size t ->
  members t !! Z.to_nat i = Some g.
Proof.
  intros Hw E Hi. unfold members. rewrite lookup_take_lt by lia. unfold at_ in E.
  by rewrite bool_decide_eq_true_2 in E by lia.
Qed.
Lemma length_members npes t : team_wf npes t -> 0 <= npes -> Z.of_nat (length (members t)) = size t.
Proof. intros [? ? ? ?] ?. unfold members. rewrite length_take. lia. Qed.
Lemma members_at npes t k g : team_wf npes t -> 0 <= npes -> members t !! k = Some g ->
  at_ (pe_mapping t) (Z.of_nat k) = Some g /\ 0 <= Z.of_nat k < size t /\ 0 <= g < npes /\
  at_ (pe_mapping t) (size t + g) = Some (Z.of_nat k).
Proof.
  intros Hw Hn E. pose proof (lookup_lt_Some _ _ _ E) as Hk.
  assert (0 <= Z.of_nat k < size t) as Hk' by (pose proof (length_members _ _ Hw Hn); lia).
  destruct (wf_fwd _ _ Hw _ Hk') as (g' & Hg & E1 & E2).
  pose proof (members_lookup _ _ _ _ Hw E1 Hk') as E3. rewrite Nat2Z.id, E in E3. injection E3 as <-. done.
Qed.
Lemma members_NoDup npes t : team_wf npes t -> 0 <= npes -> NoDup (members t).
Proof.
  intros Hw Hn. apply NoDup_alt. intros i j g Ei Ej.
  destruct (members_at _ _ _ _ Hw Hn Ei) as (_ & _ & _ & E1).
  destruct (members_at _ _ _ _ Hw Hn Ej) as (_ & _ & _ & E2). rewrite E1 in E2. injection E2. lia.
Qed.

(** A decision procedure for concrete teams. *)
Definition team_wfb (npes : Z) (t : team) : bool :=
  bool_decide (1 <= size t) && bool_decide (Z.of_nat (length (pe_mapping t)) = size t + npes) &&
  forallb (fun i => match at_ (pe_mapping t) i with
                    | Some g => bool_decide (0 <= g < npes) &&
                                bool_decide (at_ (pe_mapping t) (size t + g) = Some i)
                    | None => false end) (seqZ 0 (size t)) &&
  forallb (fun g => match at_ (pe_mapping t) (size t + g) with
                    | Some j => bool_decide (j = -1) ||
                                bool_decide (0 <= j < size t /\ at_ (pe_mapping t) j = Some g)
                    | None => false end) (seqZ 0 npes).
Lemma team_wfb_sound npes t : team_wfb npes t = true -> team_wf npes t.
Proof.
  unfold team_wfb. intros [[[H1%bool_decide_eq_true_1 H2%bool_decide_eq_true_1]%andb_prop H3]%andb_prop H4]%andb_prop.
  rewrite forallb_forall in H3, H4. constructor; [done|done| |].
  - intros i Hi. specialize (H3 i). destruct (at_ (pe_mapping t) i) as [g|].
    + destruct (andb_prop _ _ (H3 ltac:(apply list_elem_of_In, elem_of_seqZ; lia)))
        as [Hg%bool_decide_eq_true_1 E%bool_decide_eq_true_1]. by exists g.
    + discriminate (H3 ltac:(apply list_elem_of_In, elem_of_seqZ; lia)).
  - intros g Hg. specialize (H4 g). destruct (at_ (pe_mapping t) (size t + g)) as [j|].
    + exists j. split; [done|].
      destruct (orb_prop _ _ (H4 ltac:(apply list_elem_of_In, elem_of_seqZ; lia))) as [E|E];
        apply bool_decide_eq_true_1 in E; auto.
    + discriminate (H4 ltac:(apply list_elem_of_In, elem_of_seqZ; lia)).
Qed.

(** ** Translation *)
Lemma translate_eq npes src dest i g : team_wf npes src -> 0 <= i < size src -> at_ (pe_mapping src) i = Some g ->
  start src <= g < npes ->
  nvshmemi_team_translate_pe npes src i dest = arr_get (pe_mapping dest) (size dest + g).
Proof.
  intros Hw Hi E Hg. unfold nvshmemi_team_translate_pe, nvshmemi_team_translate_pe_to_team_world_wrap.
  rewrite !bool_decide_eq_false_2 by lia. rewrite Z.rem_small, (at_arr_get _ _ _ E), outcome_bind_ret by lia.
  by rewrite bool_decide_eq_true_2 by lia.
Qed.

(** The index of a PE translated from one team to another and back is the
    index one started from; the answer is -1 exactly for the PEs that the other
    team does not have. *)
Theorem translate_pe_roundtrip npes src dest i :
  team_wf npes src -> team_wf npes dest -> 0 <= npes -> 0 <= i < size src ->
  Forall (fun g => start src <= g) (members src) -> Forall (fun g => start dest <= g) (members dest) ->
  exists j g, members src !! Z.to_nat i = Some g /\ nvshmemi_team_translate_pe npes src i dest = Ret j /\
    (j = -1 /\ g ∉ members dest \/
     0 <= j < size dest /\ members dest !! Z.to_nat j = Some g /\
     nvshmemi_team_translate_pe npes dest j src = Ret i).
Proof.
  intros Hs Hd Hn Hi Fs Fd. destruct (wf_fwd _ _ Hs i Hi) as (g & Hg & E1 & E2).
  pose proof (members_lookup _ _ _ _ Hs E1 Hi) as Em. pose proof (Forall_lookup_1 _ _ _ _ Fs Em) as Hst. cbn in Hst.
  destruct (wf_back _ _ Hd g Hg) as (j & Ej & Hj). exists j, g. split; [done|].
  rewrite (translate_eq npes src dest i g) by (done || lia). rewrite (at_arr_get _ _ _ Ej). split; [done|].
  destruct Hj as [->|[Hj Ejg]]; [left|right].
  - split; [done|]. intros [k Ek]%list_elem_of_lookup.
    destruct (members_at _ _ _ _ Hd Hn Ek) as (_ & ? & _ & Eb). rewrite Ej in Eb. injection Eb. lia.
  - split; [done|]. pose proof (members_lookup _ _ _ _ Hd Ejg Hj) as Ed. split; [done|].
    pose proof (Forall_lookup_1 _ _ _ _ Fd Ed) as Hdt. cbn in Hdt.
    rewrite (translate_eq npes dest src j g) by (done || lia). by apply at_arr_get.
Qed.

(** A job of four PEs: the world, and the team of PEs 1 and 3. *)
Definition world4 : team := set_pe_mapping [0; 1; 2; 3; 0; 1; 2; 3] (set_geometry 1 0 1 4 (new_team 4 4)).
Definition odd4 : team := set_pe_mapping [1; 3; -1; 0; -1; 1] (set_geometry 0 1 2 2 (new_team 2 4)).

Lemma translate_pe_roundtrip_witness :
  exists j g, members world4 !! Z.to_nat 3 = Some g /\ nvshmemi_team_translate_pe 4 world4 3 odd4 = Ret j /\
    (j = -1 /\ g ∉ members odd4 \/
     0 <= j < size odd4 /\ members odd4 !! Z.to_nat j = Some g /\
     nvshmemi_team_translate_pe 4 odd4 j world4 = Ret 3).
Proof.
  apply (translate_pe_roundtrip 4 world4 odd4 3).
  - apply team_wfb_sound. reflexivity.
  - apply team_wfb_sound. reflexivity.
  - lia.
  - cbn. lia.
  - repeat constructor; cbn; lia.
  - repeat constructor; cbn; lia.
Defined.

(** One past the end: index [size] of a team is not rejected but
    translated as index 0. *)
Theorem translate_pe_past_end npes src dest : 0 < size src ->
  nvshmemi_team_translate_pe npes src (size src) dest = nvshmemi_team_translate_pe npes src 0 dest.
Proof.
  intros Hs. unfold nvshmemi_team_translate_pe, nvshmemi_team_translate_pe_to_team_world_wrap.
  rewrite !(bool_decide_eq_false_2 (_ > size src)) by lia.
  by rewrite Z.rem_same, Z.rem_0_l by lia.
Qed.

(** ** Subsets *)
Lemma member_from_spec n : forall l j pe, 0 <= j -> j + Z.of_nat n <= Z.of_nat (length l) ->
  member_from n l j pe = Ret (bool_decide (pe ∈ take n (drop (Z.to_nat j) l))).
Proof.
  induction n as [|n IH]; intros l j pe Hj Hn; cbn [member_from].
  - done.
  - destruct (at_some l j ltac:(lia)) as [x E]. rewrite (at_arr_get _ _ _ E), outcome_bind_ret.
    unfold at_ in E. rewrite bool_decide_eq_true_2 in E by done. rewrite (drop_S _ _ _ E). cbn [take].
    destruct (bool_decide_reflect (pe = x)) as [->|Hne].
    + f_equal. symmetry. apply bool_decide_eq_true_2. by left.
    + rewrite IH by lia. replace (Z.to_nat (j + 1)) with (S (Z.to_nat j)) by lia.
      f_equal. apply bool_decide_ext. rewrite elem_of_cons. tauto.
Qed.
Lemma subset_from_spec n : forall l1 n2 l2 i, 0 <= i -> i + Z.of_nat n <= Z.of_nat (length l1) ->
  (n2 <= length l2)%nat ->
  subset_from n l1 n2 l2 i = Ret (bool_decide (Forall (fun pe => pe ∈ take n2 l2) (take n (drop (Z.to_nat i) l1)))).
Proof.
  induction n as [|n IH]; intros l1 n2 l2 i Hi Hn Hn2; cbn [subset_from].
  - done.
  - destruct (at_some l1 i ltac:(lia)) as [x E]. rewrite (at_arr_get _ _ _ E), outcome_bind_ret.
    rewrite member_from_spec by lia. rewrite outcome_bind_ret, drop_0.
    unfold at_ in E. rewrite bool_decide_eq_true_2 in E by done. rewrite (drop_S _ _ _ E). cbn [take].
    destruct (bool_decide_reflect (x ∈ take n2 l2)) as [Hx|Hx].
    + rewrite IH by lia. replace (Z.to_nat (i + 1)) with (S (Z.to_nat i)) by lia.
      f_equal. apply bool_decide_ext. rewrite Forall_cons. tauto.
    + f_equal. symmetry. apply bool_decide_eq_false_2. rewrite Forall_cons. tauto.
Qed.

Lemma is_subset_spec npes t1 t2 : team_wf npes t1 -> team_wf npes t2 -> 0 <= npes ->
  nvshmemi_team_is_subset t1 t2 = Ret (bool_decide (members t1 ⊆ members t2)).
Proof.
  intros H1 H2 Hn. unfold nvshmemi_team_is_subset.
  pose proof (length_members _ _ H1 Hn). pose proof (length_members _ _ H2 Hn).
  pose proof (wf_len _ _ H1). pose proof (wf_len _ _ H2).
  destruct (bool_decide_reflect (size t1 > size t2)) as [Hgt|Hle].
  - f_equal. symmetry. apply bool_decide_eq_false_2. intros Hsub.
    pose proof (submseteq_length _ _ (NoDup_submseteq _ _ (members_NoDup _ _ H1 Hn) Hsub)). lia.
  - pose proof (wf_size _ _ H1). rewrite subset_from_spec by lia. rewrite drop_0. f_equal.
    apply bool_decide_ext. fold (members t1) (members t2). rewrite Forall_forall. done.
Qed.

(** [nvshmemi_team_is_subset] decides whether every PE of one team is a
    PE of the other. *)
Theorem is_subset_correct npes t1 t2 : team_wf npes t1 -> team_wf npes t2 -> 0 <= npes ->
  exists b, nvshmemi_team_is_subset t1 t2 = Ret b /\ (b = true <-> forall g, g ∈ members t1 -> g ∈ members t2).
Proof.
  intros H1 H2 Hn. rewrite (is_subset_spec npes) by done. eexists. split; [done|].
  rewrite bool_decide_eq_true. done.
Qed.
Lemma is_subset_correct_witness : exists b,
  nvshmemi_team_is_subset odd4 world4 = Ret b /\ (b = true <-> forall g, g ∈ members odd4 -> g ∈ members world4).
Proof. apply (is_subset_correct 4); [apply team_wfb_sound; reflexivity|apply team_wfb_sound; reflexivity|lia]. Defined.

(** ** Filling in the maps *)
(** The backward half after the indices from [i] on were entered. *)
Definition entered (sz i : Z) (l l' : list Z) : Prop :=
  length l' = length l /\
  (forall j, 0 <= j < sz -> at_ l' j = at_ l j) /\
  (forall j g, i <= j < sz -> at_ l j = Some g -> at_ l' (sz + g) = Some j) /\
  (forall g, 0 <= g -> (forall j, i <= j < sz -> at_ l j <> Some g) -> at_ l' (sz + g) = at_ l (sz + g)).

Lemma populate_from_spec npes sz world : 0 <= npes -> (forall j, 0 <= j < sz -> at_ world j = Some j) ->
  forall n l i, 0 <= i -> i + Z.of_nat n = sz -> Z.of_nat (length l) = sz + npes ->
  (forall j, i <= j < sz -> exists g, at_ l j = Some g /\ 0 <= g < npes) ->
  (forall j j' g, i <= j < sz -> i <= j' < sz -> at_ l j = Some g -> at_ l j' = Some g -> j = j') ->
  exists l', populate_from n sz world l i = Ret l' /\ entered sz i l l'.
Proof.
  intros Hnp Hw. induction n as [|n IH]; intros l i Hi Hn Hlen Hr Hinj; cbn [populate_from].
  - exists l. split; [done|]. split; [done|]. split; [done|]. split; [intros; lia|done].
  - destruct (Hr i ltac:(lia)) as (g & E & Hg). rewrite (at_arr_get _ _ _ E), outcome_bind_ret.
    rewrite (at_arr_get _ _ _ (Hw i ltac:(lia))), outcome_bind_ret, map_set_spec, outcome_bind_ret by lia.
    set (l1 := <[Z.to_nat (g + sz) := i]> l).
    assert (forall j, at_ l1 j = if bool_decide (j = g + sz) then Some i else at_ l j) as At
      by (intros j; apply at_insert; lia).
    assert (forall j, 0 <= j < sz -> at_ l1 j = at_ l j) as Fwd
      by (intros j Hj; rewrite At, bool_decide_eq_false_2 by lia; done).
    destruct (IH l1 (i + 1)) as (l' & El & (L1 & L2 & L3 & L4)); [lia|lia|unfold l1; rewrite length_insert; lia| | |].
    + intros j Hj. rewrite Fwd by lia. apply Hr. lia.
    + intros j j' h Hj Hj'. rewrite !Fwd by lia. apply Hinj; lia.
    + exists l'. split; [done|]. split; [rewrite L1; apply length_insert|]. split; [intros j Hj; rewrite L2, Fwd by lia; done|].
      split.
      * intros j h Hj Ej. destruct (decide (j = i)) as [->|Hne].
        { rewrite E in Ej. injection Ej as <-. rewrite L4; [rewrite At, bool_decide_eq_true_2 by lia; done|lia|].
          intros j Hj' Ej. rewrite Fwd in Ej by lia. pose proof (Hinj i j g ltac:(lia) ltac:(lia) E Ej). lia. }
        apply L3; [lia|]. by rewrite Fwd by lia.
      * intros h Hh Hno. rewrite L4; [|done|intros j Hj; rewrite Fwd by lia; apply Hno; lia].
        rewrite At, bool_decide_eq_false_2; [done|]. intros Eq. apply (Hno i); [lia|]. by replace h with g by lia.
Qed.

(** Entering every index of a fresh map makes it well-formed. *)
Lemma entered_wf npes t l' : 1 <= size t -> 0 <= npes -> Z.of_nat (length (pe_mapping t)) = size t + npes ->
  (forall j, 0 <= j < size t -> exists g, at_ (pe_mapping t) j = Some g /\ 0 <= g < npes) ->
  (forall g, 0 <= g < npes -> at_ (pe_mapping t) (size t + g) = Some (-1)) ->
  entered (size t) 0 (pe_mapping t) l' -> team_wf npes (set_pe_mapping l' t).
Proof.
  intros Hs Hn Hlen Hr Hb (L1 & L2 & L3 & L4). constructor; cbn [size pe_mapping set_pe_mapping]; [done|lia| |].
  - intros i Hi. destruct (Hr i Hi) as (g & E & Hg). exists g. rewrite L2 by done. auto.
  - intros g Hg.
    destruct (decide (Exists (fun j => at_ (pe_mapping t) j = Some g) (seqZ 0 (size t)))) as [Hex|Hno].
    + apply Exists_exists in Hex as (j & Hj%elem_of_seqZ & E). exists j. rewrite (L3 j g) by (done || lia).
      split; [done|]. right. split; [lia|]. by rewrite L2 by lia.
    + exists (-1). rewrite L4; [auto|lia|]. intros j Hj E. apply Hno, Exists_exists. exists j.
      rewrite elem_of_seqZ. split; [lia|done].
Qed.

Lemma populate_spec npes world t :
  0 <= npes -> (forall j, 0 <= j < size t -> at_ (pe_mapping world) j = Some j) ->
  1 <= size t -> Z.of_nat (length (pe_mapping t)) = size t + npes ->
  NoDup (members t) -> Forall (fun g => 0 <= g < npes) (members t) ->
  (forall g, 0 <= g < npes -> at_ (pe_mapping t) (size t + g) = Some (-1)) ->
  exists l, nvshmemi_team_populate_from_world_pe_mapping world t = Ret (set_pe_mapping l t) /\
    team_wf npes (set_pe_mapping l t) /\ members (set_pe_mapping l t) = members t.
Proof.
  intros Hn Hw Hs Hlen Hnd Hr Hb.
  assert (forall j g, 0 <= j < size t -> at_ (pe_mapping t) j = Some g -> members t !! Z.to_nat j = Some g) as Hm.
  { intros j g Hj E. unfold members. rewrite lookup_take_lt by lia. unfold at_ in E.
    by rewrite bool_decide_eq_true_2 in E by lia. }
  destruct (populate_from_spec npes (size t) (pe_mapping world) Hn Hw (Z.to_nat (size t)) (pe_mapping t) 0)
    as (l' & E & Hent); [lia|lia|done| | |].
  - intros j Hj. destruct (at_some (pe_mapping t) j ltac:(lia)) as [g Eg]. exists g. split; [done|].
    exact (Forall_lookup_1 _ _ _ _ Hr (Hm _ _ Hj Eg)).
  - intros j j' g Hj Hj' Ej Ej'. pose proof (NoDup_lookup _ _ _ _ Hnd (Hm _ _ Hj Ej) (Hm _ _ Hj' Ej')). lia.
  - unfold nvshmemi_team_populate_from_world_pe_mapping. rewrite E, outcome_bind_ret. eexists. split; [done|].
    split.
    + apply entered_wf; try done. intros j Hj. destruct (at_some (pe_mapping t) j ltac:(lia)) as [g Eg].
      exists g. split; [done|]. exact (Forall_lookup_1 _ _ _ _ Hr (Hm _ _ Hj Eg)).
    + destruct Hent as (L1 & L2 & _). unfold members. cbn [size pe_mapping set_pe_mapping].
      apply list_eq. intros k. destruct (decide (k < Z.to_nat (size t))%nat).
      * rewrite !lookup_take_lt by lia. specialize (L2 (Z.of_nat k) ltac:(lia)). unfold at_ in L2.
        by rewrite bool_decide_eq_true_2, Nat2Z.id in L2 by lia.
      * by rewrite !lookup_take_ge by lia.
Qed.

(** [nvshmemi_team_populate_from_world_pe_mapping] completes the map of a
    team whose forward half holds distinct PEs of the job: the result is
    well-formed and has the same members. *)
Theorem populate_correct npes world t :
  0 <= npes -> (forall j, 0 <= j < size t -> at_ (pe_mapping world) j = Some j) ->
  1 <= size t -> Z.of_nat (length (pe_mapping t)) = size t + npes ->
  NoDup (members t) -> Forall (fun g => 0 <= g < npes) (members t) ->
  (forall g, 0 <= g < npes -> at_ (pe_mapping t) (size t + g) = Some (-1)) ->
  exists t', nvshmemi_team_populate_from_world_pe_mapping world t = Ret t' /\ team_wf npes t' /\
    members t' = members t.
Proof.
  intros Hn Hw Hs Hlen Hnd Hr Hb.
  destruct (populate_spec npes world t Hn Hw Hs Hlen Hnd Hr Hb) as (l & E & H). by exists (set_pe_mapping l t).
Qed.
Lemma populate_correct_witness : exists t',
  nvshmemi_team_populate_from_world_pe_mapping world4 (set_pe_mapping [3; 1; -1; -1; -1; -1] odd4) = Ret t' /\
  team_wf 4 t' /\ members t' = members (set_pe_mapping [3; 1; -1; -1; -1; -1] odd4).
Proof.
  apply (populate_correct 4 world4 (set_pe_mapping [3; 1; -1; -1; -1; -1] odd4)).
  - lia.
  - cbn. intros j Hj. assert (j = 0 \/ j = 1) as [-> | ->] by lia; reflexivity.
  - cbn. lia.
  - reflexivity.
  - apply (bool_decide_unpack _). reflexivity.
  - repeat constructor; cbn; lia.
  - cbn. intros g Hg. assert (g = 0 \/ g = 1 \/ g = 2 \/ g = 3) as [-> | [-> | [-> | ->]]] by lia; reflexivity.
Defined.
End Team.
