(* ===== verification/TeamPsync.v ===== *)
(** * The synchronisation memory of the teams

    Models the layout of [nvshmemi_psync_pool] in
    src/src/host/team/team_internal.cpp: the number of [long]s a team needs
    ([get_psync_len_per_team] and the fcollect lengths it adds up), where the
    area of each collective starts ([nvshmemi_team_get_psync]), the total the
    heap must hold ([nvshmemi_get_teams_mem_requirement]) and the bound on the
    number of teams ([nvshmemi_set_max_teams]).  Offsets are counted in
    [long]s from the start of the pool.  The sizes are products of a PE count
    and a threshold of a few kilobytes, so the 64-bit arithmetic of the source
    does not wrap and is written on unbounded integers.

    The theorem: the areas of different teams and different collectives, and
    the two alternating areas of reduce and of alltoall, never overlap and lie
    inside the pool. *)
From stdpp Require Import base list.
From Stdlib Require Import ZArith Lia.
From S2P Require Import Prelude Recexch Team TeamBits.

Module Psync.
Import Team.

Definition SYNC_SIZE : Z := 27648.
Definition NVSHMEMI_SYNC_SIZE : Z := 2 * SYNC_SIZE.
Definition NVSHMEMI_BCAST_SYNC_SIZE : Z := 10 * SYNC_SIZE.
Definition NVSHMEMI_ALLTOALL_SYNC_SIZE : Z := SYNC_SIZE.
Definition sizeof_long : Z := 8.

(** The parameters of the job. *)
Record coll_params := {
  npes : Z;
  fcollect_ll_threshold : Z;
  fcollect_ll128_threshold : Z;
  reduce_scratch_size : Z }.

Definition NVSHMEMI_TEAM_ROUND_UP_DIV (x y : Z) : Z := (x + y - 1) / y.
Definition NVSHMEMI_TEAM_ROUND_UP (x y : Z) : Z := NVSHMEMI_TEAM_ROUND_UP_DIV x y * y.
(** At type [char]. *)
Definition NVSHMEMI_FCOLLECT_LL128_CALC_PSYNC_SIZE (x : Z) : Z :=
  NVSHMEMI_TEAM_ROUND_UP x (120 / 1) + 8 / 1 * NVSHMEMI_TEAM_ROUND_UP_DIV x (120 / 1).

Inductive team_op := SYNC | ALLTOALL | BCAST | FCOLLECT | REDUCE | FCOLLECT_128 | P2P_SYNC_ON_STREAM.
#[export] Instance team_op_eq_dec : EqDecision team_op.
Proof. solve_decision. Defined.

Section Layout.
Context (p : coll_params).

Definition get_fcollect_psync_len_per_team : outcome Z :=
  let fcollect_sync_size := (2 * 2 * npes p * fcollect_ll_threshold p) / sizeof_long in
  _ ← cassert (bool_decide (fcollect_ll_threshold p mod sizeof_long = 0));
  Ret fcollect_sync_size.

Definition get_fcollect_ll128_psync_len_per_team : Z :=
  NVSHMEMI_FCOLLECT_LL128_CALC_PSYNC_SIZE (fcollect_ll128_threshold p) * 2 * npes p / sizeof_long.

Definition get_psync_len_per_team : outcome Z :=
  fcollect_sync_size ← get_fcollect_psync_len_per_team;
  Ret (4 * NVSHMEMI_SYNC_SIZE + reduce_scratch_size p / sizeof_long + NVSHMEMI_BCAST_SYNC_SIZE +
       fcollect_sync_size + 2 * NVSHMEMI_ALLTOALL_SYNC_SIZE + get_fcollect_ll128_psync_len_per_team + npes p).

(** [nvshmemi_team_get_psync], as an offset into the pool. *)
Definition nvshmemi_team_get_psync (t : team) (op : team_op) : outcome Z :=
  psync_fcollect_len ← get_fcollect_psync_len_per_team;
  let fcollect_ll128_sync_size := get_fcollect_ll128_psync_len_per_team in
  len ← get_psync_len_per_team;
  let team_psync := team_idx t * len in
  let reduce_end := 4 * NVSHMEMI_SYNC_SIZE + reduce_scratch_size p / sizeof_long in
  Ret (team_psync +
    match op with
    | SYNC => 0
    | REDUCE => 4 * NVSHMEMI_SYNC_SIZE +
                (reduce_scratch_size p / 2) / sizeof_long * (rdxn_count (counters t) mod 2)
    | BCAST => reduce_end
    | FCOLLECT => reduce_end + NVSHMEMI_BCAST_SYNC_SIZE
    | ALLTOALL => reduce_end + NVSHMEMI_BCAST_SYNC_SIZE + psync_fcollect_len +
                  NVSHMEMI_ALLTOALL_SYNC_SIZE * (alltoall_count (counters t) mod 2)
    | FCOLLECT_128 => reduce_end + NVSHMEMI_BCAST_SYNC_SIZE + psync_fcollect_len +
                      2 * NVSHMEMI_ALLTOALL_SYNC_SIZE
    | P2P_SYNC_ON_STREAM => reduce_end + NVSHMEMI_BCAST_SYNC_SIZE + psync_fcollect_len +
                            2 * NVSHMEMI_ALLTOALL_SYNC_SIZE + fcollect_ll128_sync_size
    end).

(** [nvshmemi_team_get_sync_counter], as an index of [nvshmemi_sync_counter]. *)
Definition nvshmemi_team_get_sync_counter (t : team) : Z := 2 * team_idx t.

(** [nvshmemi_get_teams_mem_requirement], built without NCCL:
    [sizeof(nvshmemi_team_creation_pe_info_t)] is 16. *)
Definition nvshmemi_get_teams_mem_requirement (max_teams N_PSYNC_BYTES : Z) : outcome Z :=
  psync_size ← get_psync_len_per_team;
  Ret (sizeof_long * max_teams * psync_size + 2 * N_PSYNC_BYTES + 2 * 4 + 2 * sizeof_long * max_teams +
       16 * npes p + N_PSYNC_BYTES * npes p).

(** How many [long]s the collective may use from there. *)
Definition psync_extent (op : team_op) : outcome Z :=
  fc ← get_fcollect_psync_len_per_team;
  Ret match op with
      | SYNC => 4 * NVSHMEMI_SYNC_SIZE
      | REDUCE => (reduce_scratch_size p / 2) / sizeof_long
      | BCAST => NVSHMEMI_BCAST_SYNC_SIZE
      | FCOLLECT => fc
      | ALLTOALL => NVSHMEMI_ALLTOALL_SYNC_SIZE
      | FCOLLECT_128 => get_fcollect_ll128_psync_len_per_team
      | P2P_SYNC_ON_STREAM => npes p
      end.

Record params_ok : Prop := {
  ok_npes : 1 <= npes p;
  ok_ll : 0 <= fcollect_ll_threshold p;
  ok_ll_mod : fcollect_ll_threshold p mod 8 = 0;
  ok_ll128 : 0 <= fcollect_ll128_threshold p;
  ok_scratch : 0 <= reduce_scratch_size p }.

(** Which of its two areas a collective uses. *)
Definition parity (t : team) (op : team_op) : Z :=
  match op with
  | REDUCE => rdxn_count (counters t) mod 2
  | ALLTOALL => alltoall_count (counters t) mod 2
  | _ => 0
  end.

Definition offset (fc : Z) (op : team_op) (par : Z) : Z :=
  let reduce_end := 4 * NVSHMEMI_SYNC_SIZE + reduce_scratch_size p / sizeof_long in
  match op with
  | SYNC => 0
  | REDUCE => 4 * NVSHMEMI_SYNC_SIZE + (reduce_scratch_size p / 2) / sizeof_long * par
  | BCAST => reduce_end
  | FCOLLECT => reduce_end + NVSHMEMI_BCAST_SYNC_SIZE
  | ALLTOALL => reduce_end + NVSHMEMI_BCAST_SYNC_SIZE + fc + NVSHMEMI_ALLTOALL_SYNC_SIZE * par
  | FCOLLECT_128 => reduce_end + NVSHMEMI_BCAST_SYNC_SIZE + fc + 2 * NVSHMEMI_ALLTOALL_SYNC_SIZE
  | P2P_SYNC_ON_STREAM => reduce_end + NVSHMEMI_BCAST_SYNC_SIZE + fc + 2 * NVSHMEMI_ALLTOALL_SYNC_SIZE +
                          get_fcollect_ll128_psync_len_per_team
  end.

Hypothesis Hok : params_ok.
Lemma lengths : exists fc len,
  get_fcollect_psync_len_per_team = Ret fc /\ get_psync_len_per_team = Ret len /\ 0 <= fc /\
  0 <= get_fcollect_ll128_psync_len_per_team /\ 0 <= reduce_scratch_size p / sizeof_long /\
  0 <= (reduce_scratch_size p / 2) / sizeof_long /\
  2 * ((reduce_scratch_size p / 2) / sizeof_long) <= reduce_scratch_size p / sizeof_long /\
  len = 4 * NVSHMEMI_SYNC_SIZE + reduce_scratch_size p / sizeof_long + NVSHMEMI_BCAST_SYNC_SIZE + fc +
        2 * NVSHMEMI_ALLTOALL_SYNC_SIZE + get_fcollect_ll128_psync_len_per_team + npes p.
Proof.
  destruct Hok as [H1 H2 H3 H4 H5]. unfold get_psync_len_per_team, get_fcollect_psync_len_per_team, sizeof_long.
  rewrite bool_decide_eq_true_2 by done. cbn [cassert]. rewrite !outcome_bind_ret.
  eexists _, _. split; [done|]. split; [done|].
  assert (0 <= NVSHMEMI_TEAM_ROUND_UP_DIV (fcollect_ll128_threshold p) 120)
    by (unfold NVSHMEMI_TEAM_ROUND_UP_DIV; apply Z.div_pos; lia).
  unfold get_fcollect_ll128_psync_len_per_team, NVSHMEMI_FCOLLECT_LL128_CALC_PSYNC_SIZE, NVSHMEMI_TEAM_ROUND_UP, sizeof_long.
  rewrite !Z.div_1_r. split_and!; try (apply Z.div_pos; nia).
  - apply Z.div_pos; [apply Z.div_pos|]; lia.
  - rewrite Z.div_div by lia. apply Z.div_le_lower_bound; [lia|].
    pose proof (Z.mul_div_le (reduce_scratch_size p) (2 * 8) ltac:(lia)). lia.
  - lia.
Qed.

Lemma get_psync_eq t op : exists fc len ext,
  get_fcollect_psync_len_per_team = Ret fc /\ get_psync_len_per_team = Ret len /\ psync_extent op = Ret ext /\
  nvshmemi_team_get_psync t op = Ret (team_idx t * len + offset fc op (parity t op)) /\
  0 <= offset fc op (parity t op) /\ 0 <= ext /\ offset fc op (parity t op) + ext <= len.
Proof.
  destruct lengths as (fc & len & Ef & El & H1 & H2 & H3 & H4 & H5 & Elen). destruct Hok as [N1 _ _ _ _].
  unfold nvshmemi_team_get_psync, psync_extent. rewrite Ef, El, !outcome_bind_ret. eexists fc, len, _.
  split; [done|]. split; [done|]. split; [done|]. split; [by destruct op|].
  assert (0 <= parity t op < 2) as Hp by (destruct op; cbn; try lia; apply Z.mod_pos_bound; lia).
  unfold offset, NVSHMEMI_SYNC_SIZE, NVSHMEMI_BCAST_SYNC_SIZE, NVSHMEMI_ALLTOALL_SYNC_SIZE, SYNC_SIZE in *.
  destruct op; cbn [parity] in *; lia || nia.
Qed.

Lemma offsets_apart t1 t2 op1 op2 fc e1 e2 :
  get_fcollect_psync_len_per_team = Ret fc -> psync_extent op1 = Ret e1 -> psync_extent op2 = Ret e2 ->
  op1 <> op2 \/ parity t1 op1 <> parity t2 op2 ->
  offset fc op1 (parity t1 op1) + e1 <= offset fc op2 (parity t2 op2) \/
  offset fc op2 (parity t2 op2) + e2 <= offset fc op1 (parity t1 op1).
Proof.
  intros Ef. destruct lengths as (fc' & len & Ef' & _ & H1 & H2 & H3 & H4 & H5 & _).
  rewrite Ef in Ef'. injection Ef' as <-. unfold psync_extent. rewrite Ef, !outcome_bind_ret.
  intros [= <-] [= <-] Hne.
  assert (forall t op, 0 <= parity t op < 2) as Hp by (intros t op; destruct op; cbn; try lia; apply Z.mod_pos_bound; lia).
  pose proof (Hp t1 op1) as P1. pose proof (Hp t2 op2) as P2. clear Hp.
  unfold offset, NVSHMEMI_SYNC_SIZE, NVSHMEMI_BCAST_SYNC_SIZE, NVSHMEMI_ALLTOALL_SYNC_SIZE, SYNC_SIZE in *.
  assert (op1 = op2 -> parity t1 op1 <> parity t2 op2) as Hne' by (intros E; by destruct Hne). clear Hne.
  assert (parity t1 op1 = 0 \/ parity t1 op1 = 1) as Q1 by lia.
  assert (parity t2 op2 = 0 \/ parity t2 op2 = 1) as Q2 by lia.
  destruct Q1 as [Q1|Q1], Q2 as [Q2|Q2]; rewrite Q1, Q2 in *;
    destruct op1, op2; try (by destruct Hne'); lia.
Qed.
End Layout.

(** The synchronisation areas of two uses - different teams, different
    collectives, or the two halves the same collective alternates between - do
    not overlap, and each lies inside the pool of [max_teams] teams. *)
Theorem psync_areas_disjoint p t1 t2 op1 op2 max_teams :
  params_ok p -> 0 <= team_idx t1 < max_teams -> 0 <= team_idx t2 < max_teams ->
  team_idx t1 <> team_idx t2 \/ op1 <> op2 \/ parity t1 op1 <> parity t2 op2 ->
  exists len o1 o2 e1 e2, get_psync_len_per_team p = Ret len /\
    nvshmemi_team_get_psync p t1 op1 = Ret o1 /\ nvshmemi_team_get_psync p t2 op2 = Ret o2 /\
    psync_extent p op1 = Ret e1 /\ psync_extent p op2 = Ret e2 /\
    0 <= o1 /\ o1 + e1 <= max_teams * len /\ (o1 + e1 <= o2 \/ o2 + e2 <= o1).
Proof.
  intros Hok H1 H2 Hne.
  destruct (get_psync_eq p Hok t1 op1) as (fc & len & e1 & Ef & El & Ex1 & E1 & B1 & X1 & U1).
  destruct (get_psync_eq p Hok t2 op2) as (fc' & len' & e2 & Ef' & El' & Ex2 & E2 & B2 & X2 & U2).
  rewrite Ef in Ef'. injection Ef' as <-. rewrite El in El'. injection El' as <-.
  eexists len, _, _, e1, e2. split; [done|]. split; [exact E1|]. split; [exact E2|]. do 2 (split; [done|]).
  split; [nia|]. split; [nia|].
  destruct (Z.lt_trichotomy (team_idx t1) (team_idx t2)) as [|[Eq|]]; [left; nia| |right; nia].
  rewrite Eq. destruct (offsets_apart p Hok t1 t2 op1 op2 fc e1 e2 Ef Ex1 Ex2) as [|]; [|left; lia|right; lia].
  destruct Hne as [|Hne]; [lia|exact Hne].
Qed.

Definition demo_params : coll_params :=
  {| npes := 8; fcollect_ll_threshold := 2048; fcollect_ll128_threshold := 0; reduce_scratch_size := 524288 |}.
Lemma psync_areas_disjoint_witness : exists len o1 o2 e1 e2,
  get_psync_len_per_team demo_params = Ret len /\
  nvshmemi_team_get_psync demo_params (set_idx 3 (new_team 4 8)) REDUCE = Ret o1 /\
  nvshmemi_team_get_psync demo_params (set_idx 3 (new_team 4 8)) BCAST = Ret o2 /\
  psync_extent demo_params REDUCE = Ret e1 /\ psync_extent demo_params BCAST = Ret e2 /\
  0 <= o1 /\ o1 + e1 <= 8 * len /\ (o1 + e1 <= o2 \/ o2 + e2 <= o1).
Proof.
  apply (psync_areas_disjoint demo_params _ _ REDUCE BCAST 8).
  - constructor; cbn; lia || reflexivity.
  - cbn. lia.
  - cbn. lia.
  - right. left. discriminate.
Defined.

(** ** The number of teams *)
Definition NVSHMEM_TEAMS_MIN : Z := 6.
Definition NVSHMEMI_REDUCE_MAX_CTA_COUNT : Z := 64.
(** [nvshmemi_set_max_teams]: [nvshmemi_max_teams] and [N_PSYNC_BYTES]. *)
Definition nvshmemi_set_max_teams (MAX_TEAMS N_PSYNC_BYTES : Z) (is_platform_nvls : bool) : Z * Z :=
  let m := if bool_decide (MAX_TEAMS < NVSHMEM_TEAMS_MIN) then NVSHMEM_TEAMS_MIN else MAX_TEAMS in
  let m := if is_platform_nvls
           then (if bool_decide (m > NVSHMEMI_REDUCE_MAX_CTA_COUNT) then m else NVSHMEMI_REDUCE_MAX_CTA_COUNT)
           else m in
  (m, if bool_decide (m > N_PSYNC_BYTES * TeamBits.CHAR_BIT)
      then (m + TeamBits.CHAR_BIT - 1) / TeamBits.CHAR_BIT else N_PSYNC_BYTES).

(** Every team has a bit. *)
Lemma set_max_teams_bits MAX_TEAMS n nvls : 0 < n ->
  let '(m, n') := nvshmemi_set_max_teams MAX_TEAMS n nvls in NVSHMEM_TEAMS_MIN <= m <= n' * 8 /\ 0 < n'.
Proof.
  intros Hn. unfold nvshmemi_set_max_teams, TeamBits.CHAR_BIT. set (m := if nvls then _ else _).
  assert (NVSHMEM_TEAMS_MIN <= m) as Hm.
  { unfold m, NVSHMEM_TEAMS_MIN, NVSHMEMI_REDUCE_MAX_CTA_COUNT. destruct nvls; case_bool; lia. }
  split; [split; [done|]|]; destruct (bool_decide_reflect (m > n * 8)) as [C|C]; try lia.
  - pose proof (Z.div_mod (m + 8 - 1) 8 ltac:(lia)). pose proof (Z.mod_pos_bound (m + 8 - 1) 8 ltac:(lia)). lia.
  - apply Z.div_str_pos. lia.
Qed.
End Psync.
