(* ===== verification/TeamPool.v ===== *)
(** * The team pool: creating, splitting and destroying teams

    Models the operations of src/src/host/team/team_internal.cpp on the state
    one PE keeps about its teams: the objects themselves ([heap], by address),
    [nvshmemi_team_pool] (0 is a null entry), the bit array
    [psync_pool_avail] of free indices and the status words of a collective
    creation.  What the other PEs and the device kernels contribute to a
    collective is an oracle of the environment, indexed by the number of
    collectives so far ([clock]): the AND reduction of the bit arrays, the
    kernel that gathers the members of a unique id, the kernel that agrees on
    an index, and the MAX reduction of the status.

    The platform has no NVLS multicast, so [nvshmemi_duplicate_team] returns at
    once; device copies of the teams, NCCL communicators and the contents of
    the synchronisation memory are not part of the state. *)
From stdpp Require Import base gmap list.
From Stdlib Require Import ZArith Lia.
From S2P Require Import Prelude Recexch Team TeamBits TeamPsync.

Module Pool.
Import Team TeamBits.

Record tenv := {
  mype : Z; npes : Z; mype_node : Z; npes_node : Z;
  max_teams : Z; N_PSYNC_BYTES : Z;
  kval : Z;                        (** REDUCE_RECEXCH_KVAL *)
  params : Psync.coll_params;
  team_world : Z; team_shared : Z; team_nodes : Z; team_same_mype : Z;
  team_same_gpu : Z; team_gpu_leaders : Z;
  malloc_ok : Z -> bool;           (** by address handed out *)
  calloc_ok : Z -> bool;
  and_reduce : Z -> Z -> Z -> Z -> list Z -> list Z;   (** clock, start, stride, size *)
  gather_pes : Z -> Z -> Z -> list Z;                  (** clock, unique id, npes *)
  agree_index : Z -> list Z -> list Z -> Z;            (** clock, map, bit array *)
  max_reduce : Z -> Z -> Z }.                          (** clock, my status *)

Record tstate := {
  avail : list Z;            (** psync_pool_avail *)
  pool : list Z;             (** nvshmemi_team_pool *)
  heap : gmap Z team;
  next_addr : Z;
  clock : Z;
  team_ret_val : Z;
  team_ret_val_reduced : Z }.

Definition set_avail (a : list Z) (s : tstate) : tstate :=
  {| avail := a; pool := pool s; heap := heap s; next_addr := next_addr s; clock := clock s;
     team_ret_val := team_ret_val s; team_ret_val_reduced := team_ret_val_reduced s |}.
Definition set_pool (p : list Z) (s : tstate) : tstate :=
  {| avail := avail s; pool := p; heap := heap s; next_addr := next_addr s; clock := clock s;
     team_ret_val := team_ret_val s; team_ret_val_reduced := team_ret_val_reduced s |}.
Definition set_heap (h : gmap Z team) (s : tstate) : tstate :=
  {| avail := avail s; pool := pool s; heap := h; next_addr := next_addr s; clock := clock s;
     team_ret_val := team_ret_val s; team_ret_val_reduced := team_ret_val_reduced s |}.
Definition set_next (n : Z) (s : tstate) : tstate :=
  {| avail := avail s; pool := pool s; heap := heap s; next_addr := n; clock := clock s;
     team_ret_val := team_ret_val s; team_ret_val_reduced := team_ret_val_reduced s |}.
Definition tick (s : tstate) : tstate :=
  {| avail := avail s; pool := pool s; heap := heap s; next_addr := next_addr s; clock := clock s + 1;
     team_ret_val := team_ret_val s; team_ret_val_reduced := team_ret_val_reduced s |}.
Definition set_ret_val (v : Z) (s : tstate) : tstate :=
  {| avail := avail s; pool := pool s; heap := heap s; next_addr := next_addr s; clock := clock s;
     team_ret_val := v; team_ret_val_reduced := team_ret_val_reduced s |}.
Definition set_ret_val_reduced (v : Z) (s : tstate) : tstate :=
  {| avail := avail s; pool := pool s; heap := heap s; next_addr := next_addr s; clock := clock s;
     team_ret_val := team_ret_val s; team_ret_val_reduced := v |}.

(** Reading and writing through a team pointer. *)
Definition deref (s : tstate) (a : Z) : outcome team :=
  match heap s !! a with Some t => Ret t | None => Fail FUndef end.
Definition store (a : Z) (t : team) (s : tstate) : tstate := set_heap (<[a := t]> (heap s)) s.
(** [nvshmemi_team_pool[i] = a] *)
Definition pool_set (s : tstate) (i a : Z) : outcome tstate :=
  _ ← arr_get (pool s) i; Ret (set_pool (<[Z.to_nat i := a]> (pool s)) s).

Section Ops.
Context (e : tenv).

(** [nvshmemi_team_allocate_team]: the test of the result is on the wrong
    pointer, so a failed [malloc] is dereferenced. *)
Definition nvshmemi_team_allocate_team (s : tstate) (n : Z) : outcome (Z * tstate) :=
  let a := next_addr s in
  if malloc_ok e a then Ret (a, set_next (a + 1) (store a (new_team n (npes e)) s)) else Fail FUndef.

(** [nvshmemi_team_check_collective_error] *)
Definition nvshmemi_team_check_collective_error (s : tstate) : Z * tstate :=
  let r := max_reduce e (clock s) (team_ret_val s) in
  (r, tick (set_ret_val_reduced r s)).

(** The slot is taken: [team_idx], the bit and the pool entry. *)
Definition take_index (s : tstate) (myteam idx : Z) : outcome tstate :=
  t ← deref s myteam;
  let s := store myteam (set_idx idx t) s in
  a ← nvshmemi_bit_clear (avail s) (N_PSYNC_BYTES e) idx;
  pool_set (set_avail a s) idx myteam.

Definition nvshmemi_team_set_team_idx_v1 (s : tstate) (myteam parent_team : Z) : outcome (Z * tstate) :=
  parent ← deref s parent_team;
  _ ← Psync.nvshmemi_team_get_psync (params e) parent Psync.REDUCE;
  t ← deref s myteam;
  _ ← cassert (bool_decide (stride t <> TEAM_SCALAR_INVALID));
  let psync_pool_avail_reduced := and_reduce e (clock s) (start t) (stride t) (size t) (avail s) in
  let s := tick s in
  let idx := s32 (nvshmemi_bit_1st_nonzero psync_pool_avail_reduced) in
  if bool_decide (idx = -1 \/ idx >= s32 (max_teams e))
  then Ret (NVSHMEMX_ERROR_OUT_OF_MEMORY, set_ret_val 1 s)
  else s ← take_index s myteam idx; Ret (NVSHMEMX_SUCCESS, s).

(** [copy_team_pe_mapping_to_host]: the first [size] entries. *)
Definition copy_mapping (t : team) (pes : list Z) : team :=
  set_pe_mapping (take (Z.to_nat (size t)) (pes ++ pe_mapping t) ++ drop (Z.to_nat (size t)) (pe_mapping t)) t.

Definition nvshmemi_team_populate_from_uid (s : tstate) (myteam : Z) : outcome tstate :=
  if calloc_ok e (clock s) then
    t ← deref s myteam;
    world ← deref s (team_world e);
    let t := copy_mapping t (gather_pes e (clock s) (cfg_uniqueid (config t)) (size t)) in
    t ← nvshmemi_team_populate_from_world_pe_mapping world t;
    sd ← nvshmemi_team_get_stride t;
    Ret (tick (store myteam (set_stride sd t) s))
  else Ret s.

Definition nvshmemi_team_set_team_idx_v2 (s : tstate) (myteam : Z) : outcome (Z * tstate) :=
  t ← deref s myteam;
  _ ← cassert (bool_decide (cfg_version (config t) <> NVSHMEMI_TEAM_CONFIG_VERSION_1_IDENTIFIER));
  s ← nvshmemi_team_populate_from_uid s myteam;
  t ← deref s myteam;
  let idx := agree_index e (clock s) (pe_mapping t) (avail s) in
  let s := tick s in
  if bool_decide (idx >= max_teams e \/ idx < 0) then Ret (NVSHMEMX_ERROR_OUT_OF_MEMORY, s)
  else
    p ← arr_get (pool s) idx;
    if bool_decide (p <> 0) then Ret (NVSHMEMX_ERROR_OUT_OF_MEMORY, s)
    else s ← take_index s myteam idx; Ret (NVSHMEMX_SUCCESS, s).

Definition nvshmemi_team_set_team_idx (s : tstate) (myteam parent_team : Z) : outcome (Z * tstate) :=
  t ← deref s myteam;
  if bool_decide (stride t = TEAM_SCALAR_INVALID)
  then nvshmemi_team_set_team_idx_v2 s myteam
  else nvshmemi_team_set_team_idx_v1 s myteam parent_team.

(** ** Destruction *)
Definition nvshmemi_is_rsvd_teams (idx : Z) : bool :=
  bool_decide (idx = NVSHMEM_TEAM_INVALID \/ 0 <= idx < Psync.NVSHMEM_TEAMS_MIN).

Definition predefined (a : Z) : bool :=
  bool_decide (a ∈ [team_world e; team_shared e; team_nodes e; team_same_mype e; team_same_gpu e;
                    team_gpu_leaders e]).

Fixpoint nvshmemi_team_destroy (fuel : nat) (s : tstate) (a : Z) : outcome tstate :=
  match fuel with
  | O => Fail FSpin
  | S fuel =>
      if bool_decide (a = 0) then Ret s
      else
        t ← deref s a;
        let idx := team_idx t in
        _ ← (if bool_decide (idx <> NVSHMEM_TEAM_INVALID) then nvshmemi_bit_fetch (avail s) idx else Ret 0);
        s ← (if is_team_node t || nvshmemi_is_rsvd_teams (team_node t) then Ret s
             else p ← arr_get (pool s) (team_node t);
                  if bool_decide (p <> 0) then nvshmemi_team_destroy fuel s p else Ret s);
        s ← (if is_team_same_mype_node t || nvshmemi_is_rsvd_teams (team_same_mype_node t) then Ret s
             else p ← arr_get (pool s) (team_same_mype_node t);
                  if bool_decide (p <> 0) then nvshmemi_team_destroy fuel s p else Ret s);
        s ← (if bool_decide (idx <> NVSHMEM_TEAM_INVALID)
             then b ← nvshmemi_bit_set (avail s) (N_PSYNC_BYTES e) idx;
                  pool_set (set_avail b s) idx 0
             else Ret s);
        Ret (if predefined a then s else set_heap (delete a (heap s)) s)
  end.

(** ** Internal teams: the intersection with a team of the node *)
Record overlap := {
  ov_pes : list Z;            (** pes_in_team, of [size] entries *)
  ov_my_pe : Z; ov_stride : Z; ov_new_stride : Z; ov_start : Z;
  ov_stride_is_invalid : bool; ov_is_reversed : bool }.
Definition overlap_init : overlap :=
  {| ov_pes := []; ov_my_pe := TEAM_SCALAR_INVALID; ov_stride := TEAM_SCALAR_INVALID;
     ov_new_stride := TEAM_SCALAR_INVALID; ov_start := TEAM_SCALAR_INVALID;
     ov_stride_is_invalid := false; ov_is_reversed := false |}.

(** The body of the inner loop, for a PE in both teams. *)
Definition overlap_add (o : overlap) (pe : Z) : overlap :=
  let size := Z.of_nat (length (ov_pes o)) in
  let me := if bool_decide (mype e = pe) then size else ov_my_pe o in
  let new_stride :=
    if bool_decide (ov_stride o <> TEAM_SCALAR_INVALID)
    then let d := pe - default 0 (last (ov_pes o)) in if ov_is_reversed o then d * -1 else d
    else ov_new_stride o in
  let pes := ov_pes o ++ [pe] in
  if bool_decide (ov_start o = TEAM_SCALAR_INVALID) then
    {| ov_pes := pes; ov_my_pe := me; ov_stride := ov_stride o; ov_new_stride := new_stride; ov_start := pe;
       ov_stride_is_invalid := ov_stride_is_invalid o; ov_is_reversed := ov_is_reversed o |}
  else if bool_decide (ov_stride o = TEAM_SCALAR_INVALID) && negb (ov_stride_is_invalid o) then
    let d := pe - ov_start o in
    {| ov_pes := pes; ov_my_pe := me; ov_stride := (if bool_decide (d < 0) then d * -1 else d);
       ov_new_stride := new_stride; ov_start := ov_start o;
       ov_stride_is_invalid := ov_stride_is_invalid o;
       ov_is_reversed := if bool_decide (d < 0) then true else ov_is_reversed o |}
  else if bool_decide (ov_stride o <> new_stride) then
    {| ov_pes := pes; ov_my_pe := me; ov_stride := TEAM_SCALAR_INVALID; ov_new_stride := new_stride;
       ov_start := ov_start o; ov_stride_is_invalid := true; ov_is_reversed := ov_is_reversed o |}
  else
    {| ov_pes := pes; ov_my_pe := me; ov_stride := ov_stride o; ov_new_stride := new_stride;
       ov_start := ov_start o; ov_stride_is_invalid := ov_stride_is_invalid o; ov_is_reversed := ov_is_reversed o |}.

(** The inner loop: does the overlapping team have [pe], from index [j] on? *)
Fixpoint overlap_has (n : nat) (t : team) (j pe : Z) : outcome bool :=
  match n with
  | O => Ret false
  | S n => x ← nvshmemi_team_translate_pe_to_team_world_wrap t j;
           if bool_decide (x = pe) then Ret true else overlap_has n t (j + 1) pe
  end.
Fixpoint overlap_loop (n : nat) (parent overlapping : team) (i : Z) (o : overlap) : outcome overlap :=
  match n with
  | O => Ret o
  | S n =>
      pe ← nvshmemi_team_translate_pe_to_team_world_wrap parent i;
      b ← overlap_has (Z.to_nat (size overlapping)) overlapping 0 pe;
      overlap_loop n parent overlapping (i + 1) (if b : bool then overlap_add o pe else o)
  end.

(** [nvshmemi_team_initialize_from_overlap]: the status, and the new team when
    the pointer was set.  A version 1 parent whose members have no common
    stride jumps to a clean-up that destroys the team before it was made. *)
Definition nvshmemi_team_initialize_from_overlap (s : tstate) (parent_team overlapping_team : Z)
  : outcome (Z * option Z * tstate) :=
  parent ← deref s parent_team;
  overlapping ← deref s overlapping_team;
  o ← overlap_loop (Z.to_nat (size parent)) parent overlapping 0 overlap_init;
  let size := Z.of_nat (length (ov_pes o)) in
  let stride := if bool_decide (size = 1) then 1 else ov_stride o in
  let stride := if ov_is_reversed o && bool_decide (stride <> TEAM_SCALAR_INVALID) then stride * -1 else stride in
  if bool_decide (ov_start o = TEAM_SCALAR_INVALID \/ size = 0) then Ret (NVSHMEMX_ERROR_INTERNAL, None, s)
  else if bool_decide (cfg_version (config parent) = NVSHMEMI_TEAM_CONFIG_VERSION_1_IDENTIFIER /\
                       stride = TEAM_SCALAR_INVALID) then Fail FUndef
  else
    '(a, s) ← nvshmemi_team_allocate_team s size;
    t ← deref s a;
    world ← deref s (team_world e);
    let c := if bool_decide (cfg_version (config parent) = NVSHMEMI_TEAM_CONFIG_VERSION_1_IDENTIFIER)
             then {| cfg_version := NVSHMEMI_TEAM_CONFIG_VERSION_1_IDENTIFIER;
                     cfg_num_contexts := cfg_num_contexts (config parent);
                     cfg_uniqueid := cfg_uniqueid (config t) |}
             else {| cfg_version := NVSHMEMI_TEAM_CONFIG_VERSION_2_IDENTIFIER;
                     cfg_num_contexts := cfg_num_contexts (config parent);
                     cfg_uniqueid := cfg_uniqueid (config parent) |} in
    let t := set_config c (config_mask t) (set_geometry (ov_my_pe o) (ov_start o) stride size t) in
    t ← nvshmemi_team_populate_from_world_pe_mapping world
          (set_pe_mapping (ov_pes o ++ drop (length (ov_pes o)) (pe_mapping t)) t);
    Ret (NVSHMEMX_SUCCESS, Some a, store a t s).

(** Depth of the recursive destruction of a team: itself, its internal teams,
    and one level to spare. *)
Definition destroy_fuel : nat := 3.

(** [config.uniqueid] of a team. *)
Definition set_uniqueid (u : Z) (t : team) : team :=
  set_config {| cfg_version := cfg_version (config t); cfg_num_contexts := cfg_num_contexts (config t);
                cfg_uniqueid := u |} (config_mask t) t.

Section Alloc.
(** [nvshmemi_team_allocate_resources], one level down. *)
Context (allocate_resources : tstate -> Z -> Z -> outcome (Z * tstate)).

(** The loop of [nvshmemi_team_split_same_mype_node] over the PEs of a node. *)
Fixpoint same_mype_loop (idxs : list Z) (s : tstate) (parent_team myteam status : Z) : outcome (Z * tstate) :=
  match idxs with
  | [] => Ret (status, s)
  | i :: idxs =>
      '(status, s) ←
        (if bool_decide (mype_node e = i) then
           parent ← deref s parent_team; t ← deref s myteam;
           '(st, s) ← allocate_resources
              (store myteam (set_uniqueid (u64 (cfg_uniqueid (config parent) + mype_node e)) t) s)
              myteam parent_team;
           Ret (if bool_decide (st <> 0) then NVSHMEMX_ERROR_INTERNAL else status, s)
         else Ret (status, s));
      same_mype_loop idxs s parent_team myteam status
  end.
(** [nvshmemi_team_split_same_mype_node(parent, &parent->team_same_mype_node)].
    When the team could not be initialised, [myteam] was never set. *)
Definition nvshmemi_team_split_same_mype_node (s : tstate) (parent_team : Z) : outcome (Z * tstate) :=
  parent ← deref s parent_team;
  let s := store parent_team (set_links (team_node parent) NVSHMEM_TEAM_INVALID parent) s in
  '(st, a, s) ← nvshmemi_team_initialize_from_overlap s parent_team (team_same_mype e);
  match a with
  | None => Fail FUndef
  | Some myteam =>
      t ← deref s myteam;
      let s := store myteam (set_flags (are_gpus_p2p_connected t) (is_team_node t) true t) s in
      '(status, s) ← same_mype_loop (seqZ 0 (npes_node e)) s parent_team myteam NVSHMEMX_SUCCESS;
      if bool_decide (status <> NVSHMEMX_SUCCESS)
      then Ret (status, set_heap (delete myteam (heap s)) s)
      else t ← deref s myteam; parent ← deref s parent_team;
           Ret (status, store parent_team (set_links (team_node parent) (team_idx t) parent) s)
  end.

(** The loop of [nvshmemi_team_split_node] over the nodes. *)
Fixpoint node_loop (idxs : list Z) (s : tstate) (parent_team myteam status : Z) : outcome (Z * tstate) :=
  match idxs with
  | [] => Ret (status, s)
  | i :: idxs =>
      parent ← deref s parent_team; t ← deref s myteam;
      let s := store myteam (set_uniqueid (u64 (cfg_uniqueid (config parent) +
                                                u64 (Z.shiftl (mype e / npes_node e) 32))) t) s in
      '(status, s) ←
        (if bool_decide (mype e / npes_node e = i) then
           '(st, s) ← allocate_resources s myteam parent_team;
           Ret (if bool_decide (st <> 0) then NVSHMEMX_ERROR_INTERNAL else status, s)
         else Ret (status, s));
      node_loop idxs s parent_team myteam status
  end.
(** [nvshmemi_team_split_node(parent, &parent->team_node)] *)
Definition nvshmemi_team_split_node (s : tstate) (parent_team : Z) : outcome (Z * tstate) :=
  parent ← deref s parent_team;
  let s := store parent_team (set_links NVSHMEM_TEAM_INVALID (team_same_mype_node parent) parent) s in
  '(st, a, s) ← nvshmemi_team_initialize_from_overlap s parent_team (team_nodes e);
  match a with
  | None => Fail FUndef
  | Some myteam =>
      t ← deref s myteam;
      let s := store myteam (set_flags (are_gpus_p2p_connected t) true (is_team_same_mype_node t) t) s in
      '(status, s) ← node_loop (seqZ 0 (npes e / npes_node e)) s parent_team myteam NVSHMEMX_SUCCESS;
      if bool_decide (status <> NVSHMEMX_SUCCESS)
      then s ← nvshmemi_team_destroy destroy_fuel s myteam; Ret (status, s)
      else t ← deref s myteam; parent ← deref s parent_team;
           Ret (status, store parent_team (set_links (team_idx t) (team_same_mype_node parent) parent) s)
  end.

Definition nvshmemi_team_create_internal_teams (s : tstate) (myteam : Z) : outcome (Z * tstate) :=
  t ← deref s myteam;
  if is_team_node t || is_team_same_mype_node t then Ret (NVSHMEMX_SUCCESS, s)
  else
    node ← deref s (team_nodes e); same ← deref s (team_same_mype e);
    b1 ← nvshmemi_team_is_subset t node;
    let t := set_flags (are_gpus_p2p_connected t) (is_team_node t || b1) (is_team_same_mype_node t) t in
    b2 ← nvshmemi_team_is_subset t same;
    let t := set_flags (are_gpus_p2p_connected t) (is_team_node t) (is_team_same_mype_node t || b2) t in
    let s := store myteam t s in
    if is_team_node t || is_team_same_mype_node t then Ret (NVSHMEMX_SUCCESS, s)
    else
      '(st1, s) ← nvshmemi_team_split_node s myteam;
      '(st2, s) ← nvshmemi_team_split_same_mype_node s myteam;
      Ret (if bool_decide (st1 <> 0 \/ st2 <> 0) then NVSHMEMX_ERROR_INTERNAL else NVSHMEMX_SUCCESS, s).
End Alloc.

Definition fresh_counters : team_counters :=
  {| rdxn_count := 0; ll_flag := 1; alltoall_count := 0; bcast_count := 0; bcast_sync_offset := 0;
     fcollect_count := 0; p2p_sync_on_stream_count := 0 |}.

(** [nvshmemi_team_allocate_resources]; [parent_team] 0 is null.  The fuel
    bounds the nesting of internal teams. *)
Fixpoint nvshmemi_team_allocate_resources (fuel : nat) (s : tstate) (myteam parent_team : Z)
  : outcome (Z * tstate) :=
  match fuel with
  | O => Fail FSpin
  | S fuel =>
      t ← deref s myteam;
      let t := set_counters fresh_counters t in
      t ← (if bool_decide (parent_team = 0) then Ret t
           else p ← deref s parent_team;
                Ret (set_flags (are_gpus_p2p_connected t) (is_team_node t || is_team_node p)
                               (is_team_same_mype_node t || is_team_same_mype_node p) t));
      '(st, s) ← nvshmemi_team_set_team_idx (store myteam t s) myteam parent_team;
      if bool_decide (st <> NVSHMEMX_SUCCESS) then Ret (NVSHMEMX_ERROR_INTERNAL, s)
      else
        t ← deref s myteam; shared ← deref s (team_shared e);
        b ← nvshmemi_team_is_subset t shared;
        let t := set_flags b (is_team_node t) (is_team_same_mype_node t) t in
        r ← Recexch.nvshmemi_recexchalgo_get_neighbors (kval e) (members t) (my_pe t) (size t);
        let s := store myteam (set_recexch r t) s in
        '(st, s) ← nvshmemi_team_create_internal_teams (nvshmemi_team_allocate_resources fuel) s myteam;
        Ret (if bool_decide (st <> NVSHMEMX_SUCCESS) then NVSHMEMX_ERROR_INTERNAL else NVSHMEMX_SUCCESS, s)
  end.
Definition resources_fuel : nat := 2.

(** ** Splitting *)
(** The end of both split functions: agree on the status. *)
Definition destroy (s : tstate) (a : Z) : outcome tstate := nvshmemi_team_destroy destroy_fuel s a.

(** The search of [nvshmemi_team_split_from_non_strided_parent] for the calling
    PE: [n] more values of [i]. *)
Fixpoint find_me (n : nat) (parent : team) (PE_start PE_stride i : Z) : outcome (option Z) :=
  match n with
  | O => Ret None
  | S n =>
      team_world_index ← arr_get (pe_mapping parent) (PE_start + i * PE_stride);
      if bool_decide (team_world_index = mype e) then Ret (Some i)
      else find_me n parent PE_start PE_stride (i + 1)
  end.

(** Configurations that cannot describe a team without stride. *)
Definition bad_unstrided_config (parent : team) (cfg : option team_config) : bool :=
  match cfg with
  | None => bool_decide (cfg_version (config parent) <> NVSHMEMI_TEAM_CONFIG_VERSION_2_IDENTIFIER)
  | Some c => bool_decide (cfg_version c = NVSHMEMI_TEAM_CONFIG_VERSION_1_IDENTIFIER \/
                           cfg_uniqueid c = TEAM_ULSCALAR_INVALID)
  end.

(** [nvshmemi_team_split_from_non_strided_parent]: the status, the new handle
    and the state.  On success the handle is read through [myteam], which is
    null on a PE that is not a member. *)
Definition nvshmemi_team_split_from_non_strided_parent (s : tstate) (parent_team PE_start PE_stride PE_size : Z)
    (cfg : option team_config) (config_mask new_team : Z) : outcome (Z * Z * tstate) :=
  let s := set_ret_val NVSHMEMX_SUCCESS s in
  parent ← deref s parent_team;
  '(myteam, s) ←
    (if bad_unstrided_config parent cfg then Ret (0, set_ret_val NVSHMEMX_ERROR_INVALID_VALUE s)
     else
       me ← find_me (Z.to_nat PE_size) parent PE_start PE_stride PE_start;
       match me with
       | None => Ret (0, s)
       | Some me =>
           '(a, s) ← nvshmemi_team_allocate_team s PE_size;
           t ← deref s a;
           let t := match cfg with
                    | None => set_config {| cfg_version := NVSHMEMI_TEAM_CONFIG_VERSION_2_IDENTIFIER;
                                            cfg_num_contexts := cfg_num_contexts (config parent);
                                            cfg_uniqueid := cfg_uniqueid (config parent) |}
                                         (Team.config_mask parent) t
                    | Some c => set_config c config_mask t
                    end in
           let s := store a (set_geometry me (start t) (stride t) PE_size t) s in
           '(st, s) ← nvshmemi_team_allocate_resources resources_fuel s a parent_team;
           Ret (a, if bool_decide (st <> 0) then set_ret_val NVSHMEMX_ERROR_INTERNAL s else s)
       end);
  let '(_, s) := nvshmemi_team_check_collective_error s in
  if bool_decide (team_ret_val_reduced s <> NVSHMEMX_SUCCESS) then
    let r := team_ret_val_reduced s in s ← destroy s myteam; Ret (r, new_team, s)
  else t ← deref s myteam; Ret (team_ret_val_reduced s, team_idx t, s).

(** The loop of [nvshmemi_team_split_strided] that fills in the map. *)
Fixpoint fill_strided (n : nat) (sz st sd : Z) (l : list Z) (i : Z) : outcome (list Z) :=
  match n with
  | O => Ret l
  | S n =>
      let pe := st + i * sd in
      l ← map_set l i pe;
      l ← map_set l (pe + sz) i;
      fill_strided n sz st sd l (i + 1)
  end.

(** The label [out] of [nvshmemi_team_split_strided]. *)
Definition split_out (s : tstate) (myteam new_team : Z) : outcome (Z * Z * tstate) :=
  let '(_, s) := nvshmemi_team_check_collective_error s in
  let r := team_ret_val_reduced s in
  if bool_decide (r <> NVSHMEMX_SUCCESS)
  then s ← destroy s myteam; Ret (r, NVSHMEM_TEAM_INVALID, s)
  else Ret (r, new_team, s).

Definition nvshmemi_team_split_strided (s : tstate) (parent_team PE_start PE_stride PE_size : Z)
    (cfg : option team_config) (config_mask : Z) : outcome (Z * Z * tstate) :=
  parent ← deref s parent_team;
  let s := set_ret_val_reduced NVSHMEMX_SUCCESS (set_ret_val NVSHMEMX_SUCCESS s) in
  if bool_decide (PE_start < 0 \/ PE_start >= size parent \/ PE_size <= 0 \/ PE_size > size parent \/ PE_stride < 1)
  then split_out (set_ret_val_reduced NVSHMEMX_ERROR_INVALID_VALUE s) 0 NVSHMEM_TEAM_INVALID
  else if bool_decide (stride parent = TEAM_SCALAR_INVALID) then
    _ ← nvshmemi_team_translate_pe_from_team_world parent (mype e);
    '(r, h, s) ← nvshmemi_team_split_from_non_strided_parent s parent_team PE_start PE_stride PE_size
                   cfg config_mask NVSHMEM_TEAM_INVALID;
    Ret (r, h, set_ret_val_reduced r s)
  else
    global_PE_start ← nvshmemi_team_pe parent PE_start;
    let global_PE_stride := stride parent * PE_stride in
    let global_PE_end := global_PE_start + global_PE_stride * (PE_size - 1) in
    if bool_decide (global_PE_start >= npes e \/ global_PE_end >= npes e)
    then split_out (set_ret_val NVSHMEMX_ERROR_INVALID_VALUE s) 0 NVSHMEM_TEAM_INVALID
    else
      me ← nvshmemi_pe_in_active_set (mype e) global_PE_start global_PE_stride PE_size;
      if bool_decide (me >= 0) then
        '(a, s) ← nvshmemi_team_allocate_team s PE_size;
        t ← deref s a;
        let t := set_geometry me global_PE_start global_PE_stride PE_size t in
        let t := match cfg with
                 | Some c => set_config c config_mask t
                 | None => set_config {| cfg_version := NVSHMEMI_TEAM_CONFIG_VERSION_1_IDENTIFIER;
                                         cfg_num_contexts := TEAM_CONFIG_SCALAR_INVALID;
                                         cfg_uniqueid := cfg_uniqueid (config t) |} (Team.config_mask t) t
                 end in
        l ← fill_strided (Z.to_nat PE_size) PE_size global_PE_start global_PE_stride (pe_mapping t) 0;
        '(st, s) ← nvshmemi_team_allocate_resources resources_fuel (store a (set_pe_mapping l t) s) a parent_team;
        if bool_decide (st <> 0)
        then split_out (set_ret_val NVSHMEMX_ERROR_INTERNAL s) a NVSHMEM_TEAM_INVALID
        else t ← deref s a; split_out s a (team_idx t)
      else split_out s 0 NVSHMEM_TEAM_INVALID.

(** The two loops of [nvshmemi_team_split_2d]; [axis_team] is the handle found
    so far.  A failed split is only reported. *)
Fixpoint split_axis (calls : list (Z * Z * Z)) (s : tstate) (parent_team : Z) (cfg : option team_config)
    (mask axis_team : Z) : outcome (Z * tstate) :=
  match calls with
  | [] => Ret (axis_team, s)
  | (st, sd, n) :: calls =>
      '(_, h, s) ← nvshmemi_team_split_strided s parent_team st sd n cfg mask;
      if bool_decide (h <> NVSHMEM_TEAM_INVALID) then
        _ ← cassert (bool_decide (axis_team = NVSHMEM_TEAM_INVALID));
        split_axis calls s parent_team cfg mask h
      else split_axis calls s parent_team cfg mask axis_team
  end.
(** The arguments of the splits: start, stride and size of each row and each
    column.  [ceil(parent_size / (float)xrange)] is the exact quotient rounded
    up for sizes below 2^24, where the division is precise enough. *)
Definition x_calls (parent_size xrange : Z) : list (Z * Z * Z) :=
  let num_xteams := - ((- parent_size) / xrange) in
  (fun i => (i * xrange, 1,
             if bool_decide (i = num_xteams - 1 /\ Z.rem parent_size xrange <> 0)
             then Z.rem parent_size xrange else xrange)) <$> seqZ 0 num_xteams.
Definition y_calls (parent_size xrange : Z) : list (Z * Z * Z) :=
  (fun i => (i, xrange,
             let remainder := Z.rem parent_size xrange in
             let yrange := Z.quot parent_size xrange in
             if bool_decide (remainder <> 0 /\ i < remainder) then yrange + 1 else yrange)) <$> seqZ 0 xrange.

Definition nvshmemi_team_split_2d (s : tstate) (parent_team xrange : Z) (xcfg : option team_config) (xmask : Z)
    (ycfg : option team_config) (ymask : Z) : outcome (Z * (Z * Z) * tstate) :=
  parent ← deref s parent_team;
  let xrange := if bool_decide (xrange > size parent) then size parent else xrange in
  if bool_decide (xrange = 0) then Fail FUndef
  else
    '(x, s) ← split_axis (x_calls (size parent) xrange) s parent_team xcfg xmask NVSHMEM_TEAM_INVALID;
    '(y, s) ← split_axis (y_calls (size parent) xrange) s parent_team ycfg ymask NVSHMEM_TEAM_INVALID;
    Ret (0, (x, y), s).

(** ** Creation from a unique id *)
Definition nvshmemi_team_create (s : tstate) (cfg : option team_config) (config_mask n my_pe_idx_in_team : Z)
  : outcome (Z * Z * tstate) :=
  match cfg with
  | None => Ret (NVSHMEMX_ERROR_INVALID_VALUE, NVSHMEM_TEAM_INVALID, s)
  | Some c =>
      if bool_decide (cfg_version c = NVSHMEMI_TEAM_CONFIG_VERSION_1_IDENTIFIER)
      then Ret (NVSHMEMX_ERROR_INVALID_VALUE, NVSHMEM_TEAM_INVALID, s)
      else if bool_decide (cfg_uniqueid c = TEAM_ULSCALAR_INVALID)
      then Ret (NVSHMEMX_ERROR_INVALID_VALUE, NVSHMEM_TEAM_INVALID, s)
      else
        '(a, s) ← nvshmemi_team_allocate_team s n;
        t ← deref s a;
        let t := set_config c config_mask (set_geometry my_pe_idx_in_team (start t) (stride t) n t) in
        '(st, s) ← nvshmemi_team_allocate_resources resources_fuel (store a t s) a 0;
        if bool_decide (st <> 0)
        then s ← destroy s a; Ret (NVSHMEMX_ERROR_OUT_OF_MEMORY, NVSHMEM_TEAM_INVALID, s)
        else t ← deref s a; Ret (NVSHMEMX_SUCCESS, team_idx t, s)
  end.

(** The loop of [nvshmemi_team_finalize]: [n] more indices. *)
Fixpoint finalize_loop (n : nat) (s : tstate) (i : Z) : outcome tstate :=
  match n with
  | O => Ret s
  | S n =>
      p ← arr_get (pool s) i;
      s ← (if bool_decide (p <> 0) then destroy s p else Ret s);
      finalize_loop n s (i + 1)
  end.
Definition nvshmemi_team_finalize (s : tstate) : outcome tstate := finalize_loop (Z.to_nat (max_teams e)) s 0.

(** ** The entry points of team.cu *)
Definition nvshmem_team_split_strided (s : tstate) (parent_team PE_start PE_stride PE_size : Z)
    (cfg : option team_config) (config_mask : Z) : outcome (Z * Z * tstate) :=
  if bool_decide (parent_team = NVSHMEM_TEAM_INVALID) then Ret (1, NVSHMEM_TEAM_INVALID, s)
  else p ← arr_get (pool s) parent_team;
       nvshmemi_team_split_strided s p PE_start PE_stride PE_size cfg config_mask.
Definition nvshmem_team_translate_pe (s : tstate) (src_team src_pe dest_team : Z) : outcome Z :=
  if bool_decide (src_team = NVSHMEM_TEAM_INVALID \/ dest_team = NVSHMEM_TEAM_INVALID) then Ret (-1)
  else
    p ← arr_get (pool s) src_team; q ← arr_get (pool s) dest_team;
    src ← deref s p; dest ← deref s q;
    nvshmemi_team_translate_pe (npes e) src src_pe dest.
(** A predefined team is reported and then destroyed all the same. *)
Definition nvshmem_team_destroy (s : tstate) (h : Z) : outcome tstate :=
  if bool_decide (h = NVSHMEM_TEAM_INVALID) then Ret s
  else if bool_decide (h >= max_teams e) then Ret s
  else p ← arr_get (pool s) h; destroy s p.
End Ops.
End Pool.
