(* ===== verification/TeamPoolSpec.v ===== *)
(** * Team pool: invariant and correctness

    The invariant [pool_ok]: a set bit of [psync_pool_avail] marks a free slot
    of the pool, and a pool entry points to a team that carries its index.
    The theorems: the choice of an index keeps the invariant, takes a slot that
    is free on every member and is the same on all of them; destroying a team
    gives its slots back; the rows and columns of a 2D split partition the
    parent.  The internal teams are in [TeamOverlap], the strided split and the
    calls with a surprising result in [TeamSplit]. *)
From stdpp Require Import base gmap list.
From Stdlib Require Import ZArith Lia.
From S2P Require Import Prelude Recexch Team TeamBits TeamPsync TeamPool.

Module PoolSpec.
Import Team TeamBits Pool.

Section Spec.
Context (e : tenv).

(** The limits [nvshmemi_set_max_teams] establishes. *)
Record env_ok : Prop := {
  eo_bytes : 0 < N_PSYNC_BYTES e;
  eo_max : 0 <= max_teams e <= 8 * N_PSYNC_BYTES e;
  eo_int : max_teams e < 2 ^ 31;
  eo_params : Psync.params_ok (params e);
  eo_kval : 2 <= kval e;
  eo_npes : 1 <= npes e < 2 ^ 31 }.

(** The AND reduction includes the PE's own array. *)
Definition reduce_includes_self : Prop :=
  forall c st sd n bytes i, bit (and_reduce e c st sd n bytes) i = true -> bit bytes i = true.

Record pool_ok (s : tstate) : Prop := {
  po_avail : Z.of_nat (length (avail s)) = N_PSYNC_BYTES e;
  po_pool : Z.of_nat (length (pool s)) = max_teams e;
  po_free : forall i, bit (avail s) i = true -> at_ (pool s) i = Some 0;
  po_used : forall i a, at_ (pool s) i = Some a -> a <> 0 ->
    exists t, heap s !! a = Some t /\ team_idx t = i }.

Hypothesis He : env_ok.

Lemma free_range s i : pool_ok s -> bit (avail s) i = true -> 0 <= i < max_teams e.
Proof. intros Hp Hb. apply (po_free _ Hp), at_range in Hb. rewrite (po_pool _ Hp) in Hb. done. Qed.

Lemma pool_set_spec s i a : 0 <= i < Z.of_nat (length (pool s)) ->
  pool_set s i a = Ret (set_pool (<[Z.to_nat i := a]> (pool s)) s).
Proof.
  intros Hi. unfold pool_set. destruct (at_some _ _ Hi) as [x E]. by rewrite (at_arr_get _ _ _ E).
Qed.

(** ** Taking an index *)
(** [s'] is [s] after the team at [a], now [t'], took the free index [idx]. *)
Record took (s s' : tstate) (a idx : Z) (t' : team) : Prop := {
  tk_idx : team_idx t' = idx;
  tk_was_free : at_ (pool s) idx = Some 0;
  tk_heap : heap s' = <[a := t']> (heap s);
  tk_pool : pool s' = <[Z.to_nat idx := a]> (pool s);
  tk_len : length (avail s') = length (avail s);
  tk_bits : forall i, bit (avail s') i = negb (bool_decide (i = idx)) && bit (avail s) i;
  tk_ret : team_ret_val s' = team_ret_val s }.

Lemma took_ok s s' a idx t' : pool_ok s -> took s s' a idx t' -> a <> 0 ->
  (forall i, at_ (pool s) i <> Some a) -> pool_ok s'.
Proof.
  intros Hp [K1 K2 K3 K4 K5 K6 _] Ha Hfresh. pose proof (at_range _ _ _ K2) as Hi.
  constructor.
  - rewrite K5. apply Hp.
  - rewrite K4, length_insert. apply Hp.
  - intros i. rewrite K6, K4, at_insert by done. destruct (bool_decide_reflect (i = idx)); [done|]. apply Hp.
  - intros i b. rewrite K4, at_insert by done. destruct (bool_decide_reflect (i = idx)) as [->|Hne].
    + intros [= <-] _. exists t'. by rewrite K3, lookup_insert_eq.
    + intros E Hb. destruct (po_used _ Hp i b E Hb) as (u & Eu & Hu). exists u.
      rewrite K3, lookup_insert_ne; [done|]. intros ->. by apply (Hfresh i).
Qed.

Lemma take_index_spec s a t idx : pool_ok s -> heap s !! a = Some t -> at_ (pool s) idx = Some 0 ->
  exists s', take_index e s a idx = Ret s' /\ took s s' a idx (set_idx idx t) /\
    clock s' = clock s /\ next_addr s' = next_addr s /\ team_ret_val_reduced s' = team_ret_val_reduced s.
Proof.
  intros Hp Ht Hf. pose proof (at_range _ _ _ Hf) as Hi. rewrite (po_pool _ Hp) in Hi.
  unfold take_index, deref. rewrite Ht, outcome_bind_ret. cbn [avail store set_heap].
  destruct (bit_clear_spec (avail s) (N_PSYNC_BYTES e) (po_avail _ Hp) idx) as (b & E & Hl & _ & Hb).
  { destruct He. lia. }
  rewrite E, outcome_bind_ret, pool_set_spec by (cbn; rewrite (po_pool _ Hp); lia).
  eexists. split; [done|]. split; [|done]. by constructor.
Qed.

Lemma s32_size_max : s32 SIZE_MAX = -1.
Proof. done. Qed.

Section V1.
Context (s : tstate) (a p : Z) (t parent : team).
Hypothesis Hp : pool_ok s.
Hypothesis Hself : forall i, bit (and_reduce e (clock s) (start t) (stride t) (size t) (avail s)) i = true ->
  bit (avail s) i = true.
Hypothesis Ha : heap s !! a = Some t.
Hypothesis Hpar : heap s !! p = Some parent.
Hypothesis Hsd : stride t <> TEAM_SCALAR_INVALID.
Abbreviation reduced := (and_reduce e (clock s) (start t) (stride t) (size t) (avail s)).

(** The version 1 protocol: the lowest index free on every member, or none. *)
Lemma set_team_idx_v1_spec :
  (exists idx s', nvshmemi_team_set_team_idx_v1 e s a p = Ret (NVSHMEMX_SUCCESS, s') /\
     took s s' a idx (set_idx idx t) /\ clock s' = clock s + 1 /\ next_addr s' = next_addr s /\
     bit reduced idx = true /\ forall i, i < idx -> bit reduced i = false) \/
  (nvshmemi_team_set_team_idx_v1 e s a p = Ret (NVSHMEMX_ERROR_OUT_OF_MEMORY, set_ret_val 1 (tick s)) /\
     forall i, bit reduced i = false).
Proof.
  unfold nvshmemi_team_set_team_idx_v1, deref. rewrite Hpar, outcome_bind_ret.
  destruct (Psync.get_psync_eq (params e) (eo_params He) parent Psync.REDUCE) as (fc & len & ext & _ & _ & _ & -> & _).
  rewrite outcome_bind_ret, Ha, outcome_bind_ret.
  rewrite (bool_decide_eq_true_2 (stride t <> TEAM_SCALAR_INVALID)) by done. cbn [cassert]. rewrite outcome_bind_ret.
  destruct He as [H1 H2 H3 _ _ _].
  destruct (bit_1st_nonzero_spec reduced) as [(k & E & Hk & Hlow)|[E Hnone]].
  - pose proof (Hself _ Hk) as Hmine. pose proof (free_range s k Hp Hmine) as Hr.
    rewrite E, !s32_small by lia. rewrite bool_decide_eq_false_2 by lia.
    destruct (take_index_spec (tick s) a t k) as (s' & -> & Htk & C1 & C2 & C3).
    + destruct Hp as [P1 P2 P3 P4]. by constructor.
    + done.
    + by apply (po_free _ Hp).
    + rewrite outcome_bind_ret. left. exists k, s'. split; [done|]. split; [|done].
      destruct Htk. by constructor.
  - rewrite E, s32_size_max, bool_decide_eq_true_2 by lia. by right.
Qed.
End V1.
End Spec.

(** The version 1 choice of an index always returns and keeps the pool
    invariant: it takes the lowest index free on every member of the new team,
    or reports that there is none and changes no slot. *)
Theorem set_team_idx_v1_correct e s a p t parent :
  env_ok e -> reduce_includes_self e -> pool_ok e s ->
  heap s !! a = Some t -> heap s !! p = Some parent -> stride t <> TEAM_SCALAR_INVALID ->
  a <> 0 -> (forall i, at_ (pool s) i <> Some a) ->
  exists st s', nvshmemi_team_set_team_idx_v1 e s a p = Ret (st, s') /\ pool_ok e s' /\
    let reduced := and_reduce e (clock s) (start t) (stride t) (size t) (avail s) in
    ((st = NVSHMEMX_SUCCESS /\ exists idx,
        bit reduced idx = true /\ (forall i, i < idx -> bit reduced i = false) /\
        at_ (pool s) idx = Some 0 /\ (team_idx <$> heap s' !! a) = Some idx /\
        forall i, at_ (pool s') i = if bool_decide (i = idx) then Some a else at_ (pool s) i) \/
     (st = NVSHMEMX_ERROR_OUT_OF_MEMORY /\ (forall i, bit reduced i = false) /\
        pool s' = pool s /\ avail s' = avail s)).
Proof.
  intros He Hs Hp Ha Hpar Hsd Hnz Hfr.
  destruct (set_team_idx_v1_spec e He s a p t parent Hp (fun i => Hs _ _ _ _ _ i) Ha Hpar Hsd)
    as [(idx & s' & E & Htk & _ & _ & Hb & Hlow)|[E Hnone]]; rewrite E; eexists _, _; (split; [done|]).
  - split; [by apply (took_ok e s s' a idx (set_idx idx t))|]. left. split; [done|]. exists idx.
    destruct Htk as [K1 K2 K3 K4 _ _ _]. do 3 (split; [done|]). rewrite K3, K4, lookup_insert_eq. split; [done|].
    intros i. apply at_insert. by apply at_range in K2.
  - split; [destruct Hp; by constructor|]. by right.
Qed.

(** ** A job of two PEs, for the examples *)
Ltac cases8 i :=
  assert (i = 0 \/ i = 1 \/ i = 2 \/ i = 3 \/ i = 4 \/ i = 5 \/ i = 6 \/ i = 7)
    as [-> | [-> | [-> | [-> | [-> | [-> | [-> | ->]]]]]]] by lia.
Definition demo_params : Psync.coll_params := Psync.demo_params.
Definition world2 : team :=
  set_idx 0 (set_pe_mapping [0; 1; 0; 1] (set_geometry 0 0 1 2 (new_team 2 2))).
Definition pair2 : team := set_pe_mapping [0; 1; 0; 1] (set_geometry 0 0 1 2 (new_team 2 2)).
Definition demo_env : tenv :=
  {| mype := 0; npes := 2; mype_node := 0; npes_node := 2; max_teams := 8; N_PSYNC_BYTES := 1; kval := 2;
     params := demo_params; team_world := 100; team_shared := 100; team_nodes := 100; team_same_mype := 100;
     team_same_gpu := 100; team_gpu_leaders := 100;
     malloc_ok := fun _ => true; calloc_ok := fun _ => true;
     and_reduce := fun _ _ _ _ bytes => bytes; gather_pes := fun _ _ _ => [0; 1];
     agree_index := fun _ _ bytes => nvshmemi_bit_1st_nonzero bytes; max_reduce := fun _ v => v |}.
(** Indices 0 to 5 are the predefined teams, here all the same object. *)
Definition demo_state : tstate :=
  {| avail := [192]; pool := [100; 0; 0; 0; 0; 0; 0; 0];
     heap := {[ 100 := world2; 200 := pair2 ]}; next_addr := 300; clock := 0; team_ret_val := 0;
     team_ret_val_reduced := 0 |}.
Lemma demo_env_ok : env_ok demo_env.
Proof. constructor; cbn; try lia. constructor; cbn; lia || reflexivity. Qed.
Lemma demo_pool_ok : pool_ok demo_env demo_state.
Proof.
  constructor; [done|done| |].
  - intros i Hb. pose proof (bit_range _ _ Hb) as Hr. cbn in Hr.
    cases8 i; try discriminate Hb; reflexivity.
  - intros i a E Ha. pose proof (at_range _ _ _ E) as Hr. cbn in Hr.
    cases8 i; injection E as <-; try done. by exists world2.
Qed.

Lemma set_team_idx_v1_correct_witness : exists st s',
  nvshmemi_team_set_team_idx_v1 demo_env demo_state 200 100 = Ret (st, s') /\ pool_ok demo_env s' /\
  let reduced := avail demo_state in
  ((st = NVSHMEMX_SUCCESS /\ exists idx,
      bit reduced idx = true /\ (forall i, i < idx -> bit reduced i = false) /\
      at_ (pool demo_state) idx = Some 0 /\ (team_idx <$> heap s' !! 200) = Some idx /\
      forall i, at_ (pool s') i = if bool_decide (i = idx) then Some 200 else at_ (pool demo_state) i) \/
   (st = NVSHMEMX_ERROR_OUT_OF_MEMORY /\ (forall i, bit reduced i = false) /\
      pool s' = pool demo_state /\ avail s' = avail demo_state)).
Proof.
  apply (set_team_idx_v1_correct demo_env demo_state 200 100 pair2 world2).
  - exact demo_env_ok.
  - intros c st sd n bytes i H. exact H.
  - exact demo_pool_ok.
  - reflexivity.
  - reflexivity.
  - discriminate.
  - lia.
  - intros i E. pose proof (at_range _ _ _ E) as Hr. cbn in Hr.
    cases8 i; discriminate E.
Defined.

(** ** Agreement between the PEs *)
(** The AND of the arrays of all members. *)
Fixpoint all_and (arrays : list (list Z)) : list Z :=
  match arrays with
  | [] => []
  | [a] => a
  | a :: arrays => bytes_and a (all_and arrays)
  end.
Lemma all_and_bit arrays a i : a ∈ arrays -> bit (all_and arrays) i = true -> bit a i = true.
Proof.
  induction arrays as [|b arrays IH]; intros Ha Hb; [by apply not_elem_of_nil in Ha|].
  destruct arrays as [|c arrays].
  - apply list_elem_of_singleton in Ha as ->. done.
  - change (all_and (b :: c :: arrays)) with (bytes_and b (all_and (c :: arrays))) in Hb.
    rewrite bit_and in Hb. apply andb_prop in Hb as [H1 H2].
    apply elem_of_cons in Ha as [->|Ha]; [done|]. by apply IH.
Qed.

(** When the reduction delivers the AND of the members' bit arrays, any two
    members of the new team choose the same index, which was free on both, or
    both report that no index is left. *)
Theorem members_agree arrays e1 s1 a1 p1 t1 par1 e2 s2 a2 p2 t2 par2 :
  env_ok e1 -> pool_ok e1 s1 -> heap s1 !! a1 = Some t1 -> heap s1 !! p1 = Some par1 -> stride t1 <> TEAM_SCALAR_INVALID ->
  env_ok e2 -> pool_ok e2 s2 -> heap s2 !! a2 = Some t2 -> heap s2 !! p2 = Some par2 -> stride t2 <> TEAM_SCALAR_INVALID ->
  avail s1 ∈ arrays -> avail s2 ∈ arrays ->
  and_reduce e1 (clock s1) (start t1) (stride t1) (size t1) (avail s1) = all_and arrays ->
  and_reduce e2 (clock s2) (start t2) (stride t2) (size t2) (avail s2) = all_and arrays ->
  exists st s1' s2', nvshmemi_team_set_team_idx_v1 e1 s1 a1 p1 = Ret (st, s1') /\
    nvshmemi_team_set_team_idx_v1 e2 s2 a2 p2 = Ret (st, s2') /\
    (st = NVSHMEMX_SUCCESS -> exists idx,
       (team_idx <$> heap s1' !! a1) = Some idx /\ (team_idx <$> heap s2' !! a2) = Some idx /\
       at_ (pool s1) idx = Some 0 /\ at_ (pool s2) idx = Some 0).
Proof.
  intros He1 Hp1 Ha1 Hr1 Hs1 He2 Hp2 Ha2 Hr2 Hs2 In1 In2 R1 R2.
  assert (forall i, bit (and_reduce e1 (clock s1) (start t1) (stride t1) (size t1) (avail s1)) i = true ->
    bit (avail s1) i = true) as Self1 by (rewrite R1; intros i; by apply all_and_bit).
  assert (forall i, bit (and_reduce e2 (clock s2) (start t2) (stride t2) (size t2) (avail s2)) i = true ->
    bit (avail s2) i = true) as Self2 by (rewrite R2; intros i; by apply all_and_bit).
  destruct (set_team_idx_v1_spec e1 He1 s1 a1 p1 t1 par1 Hp1 Self1 Ha1 Hr1 Hs1)
    as [(i1 & s1' & E1 & K1 & _ & _ & B1 & L1)|[E1 N1]];
  destruct (set_team_idx_v1_spec e2 He2 s2 a2 p2 t2 par2 Hp2 Self2 Ha2 Hr2 Hs2)
    as [(i2 & s2' & E2 & K2 & _ & _ & B2 & L2)|[E2 N2]]; rewrite R1 in *; rewrite R2 in *; rewrite E1, E2.
  - eexists _, _, _. do 2 (split; [done|]). intros _.
    assert (i1 = i2) as -> by (destruct (Z.lt_trichotomy i1 i2) as [H|[H|H]];
      [rewrite (L2 _ H) in B1; done|done|rewrite (L1 _ H) in B2; done]).
    exists i2. rewrite (tk_heap _ _ _ _ _ K1), (tk_heap _ _ _ _ _ K2), !lookup_insert_eq.
    do 2 (split; [done|]). split; [apply K1|apply K2].
  - by rewrite N2 in B1.
  - by rewrite N1 in B2.
  - eexists _, _, _. do 2 (split; [done|]). done.
Qed.

(** PE 0 has indices 6 and 7 free, PE 1 only 7. *)
Definition reduce_env (m : Z) (r : list Z) : tenv :=
  {| mype := m; npes := 2; mype_node := 0; npes_node := 2; max_teams := 8; N_PSYNC_BYTES := 1; kval := 2;
     params := demo_params; team_world := 100; team_shared := 100; team_nodes := 100; team_same_mype := 100;
     team_same_gpu := 100; team_gpu_leaders := 100;
     malloc_ok := fun _ => true; calloc_ok := fun _ => true;
     and_reduce := fun _ _ _ _ _ => r; gather_pes := fun _ _ _ => [0; 1];
     agree_index := fun _ _ bytes => nvshmemi_bit_1st_nonzero bytes; max_reduce := fun _ v => v |}.
Lemma pool_ok_fewer e s b : pool_ok e s -> length b = length (avail s) ->
  (forall i, bit b i = true -> bit (avail s) i = true) -> pool_ok e (set_avail b s).
Proof. intros [H1 H2 H3 H4] Hl Hb. constructor; cbn; [by rewrite Hl|done|by auto|done]. Qed.

Lemma members_agree_witness : exists st s1' s2',
  nvshmemi_team_set_team_idx_v1 (reduce_env 0 [128]) demo_state 200 100 = Ret (st, s1') /\
  nvshmemi_team_set_team_idx_v1 (reduce_env 1 [128]) (set_avail [128] demo_state) 200 100 = Ret (st, s2') /\
  (st = NVSHMEMX_SUCCESS -> exists idx,
     (team_idx <$> heap s1' !! 200) = Some idx /\ (team_idx <$> heap s2' !! 200) = Some idx /\
     at_ (pool demo_state) idx = Some 0 /\ at_ (pool (set_avail [128] demo_state)) idx = Some 0).
Proof.
  assert (forall m, env_ok (reduce_env m [128])) as Hok.
  { intros m. constructor; cbn; try lia. constructor; cbn; lia || reflexivity. }
  assert (forall m, pool_ok (reduce_env m [128]) demo_state) as Hp.
  { intros m. destruct demo_pool_ok as [H1 H2 H3 H4]. constructor; assumption. }
  apply (members_agree [[192]; [128]] _ _ _ _ pair2 world2 _ _ _ _ pair2 world2);
    try reflexivity; try discriminate; try apply Hok; try apply Hp.
  - apply pool_ok_fewer; [apply Hp|reflexivity|]. intros i Hb. pose proof (bit_range _ _ Hb) as Hr. cbn in Hr.
    cases8 i; try discriminate Hb; reflexivity.
  - left.
  - right. left.
Defined.

(** ** Destruction *)
Section Destroy.
Context (e : tenv).
Hypothesis He : env_ok e.

(** [s'] is [s] without the team [a] of index [idx]. *)
Record released (s s' : tstate) (a idx : Z) : Prop := {
  rl_heap : heap s' = delete a (heap s);
  rl_pool : pool s' = <[Z.to_nat idx := 0]> (pool s);
  rl_len : length (avail s') = length (avail s);
  rl_bits : forall i, bit (avail s') i = bool_decide (i = idx) || bit (avail s) i;
  rl_rest : clock s' = clock s /\ next_addr s' = next_addr s /\ team_ret_val s' = team_ret_val s /\
            team_ret_val_reduced s' = team_ret_val_reduced s }.

Lemma released_ok s s' a idx : pool_ok e s -> released s s' a idx -> 0 <= idx < max_teams e ->
  (forall i, at_ (pool s) i = Some a -> i = idx) -> pool_ok e s'.
Proof.
  intros Hp [R1 R2 R3 R4 _] Hi Huniq. rewrite <- (po_pool _ _ Hp) in Hi. constructor.
  - rewrite R3. apply Hp.
  - rewrite R2, length_insert. apply Hp.
  - intros i. rewrite R4, R2, at_insert by done. destruct (bool_decide_reflect (i = idx)); [done|]. apply Hp.
  - intros i b. rewrite R2, at_insert by done. destruct (bool_decide_reflect (i = idx)) as [->|Hne]; [by intros [= <-]|].
    intros E Hb. destruct (po_used _ _ Hp i b E Hb) as (u & Eu & Hu). exists u. split; [|done].
    rewrite R1, lookup_delete_ne; [done|]. intros ->. by apply Hne, Huniq.
Qed.

(** No internal team hangs off [t]. *)
Definition leaf (t : team) : Prop :=
  (is_team_node t = true \/ nvshmemi_is_rsvd_teams (team_node t) = true) /\
  (is_team_same_mype_node t = true \/ nvshmemi_is_rsvd_teams (team_same_mype_node t) = true).

(** The end of the destruction, once the internal teams are gone. *)
Lemma slot_release_spec s a idx : pool_ok e s -> 0 <= idx < max_teams e -> predefined e a = false ->
  exists s', (s ← (b ← nvshmemi_bit_set (avail s) (N_PSYNC_BYTES e) idx; pool_set (set_avail b s) idx 0);
              Ret (if predefined e a then s else set_heap (delete a (heap s)) s)) = Ret s' /\
             released s s' a idx.
Proof.
  intros Hp Hi Hpre.
  destruct (bit_set_spec (avail s) (N_PSYNC_BYTES e) (po_avail _ _ Hp) idx) as (b & E & Hl & _ & Hb).
  { destruct He. lia. }
  rewrite E, outcome_bind_ret, pool_set_spec by (cbn; rewrite (po_pool _ _ Hp); lia).
  rewrite outcome_bind_ret, Hpre. eexists. split; [done|]. by constructor.
Qed.

Lemma destroy_leaf fuel s a t : pool_ok e s -> heap s !! a = Some t -> a <> 0 -> predefined e a = false ->
  0 <= team_idx t < max_teams e -> leaf t ->
  exists s', nvshmemi_team_destroy e (S fuel) s a = Ret s' /\ released s s' a (team_idx t).
Proof.
  intros Hp Ha Hnz Hpre Hi [L1 L2]. cbn [nvshmemi_team_destroy]. rewrite bool_decide_eq_false_2 by done.
  unfold deref. rewrite Ha, outcome_bind_ret.
  rewrite (bool_decide_eq_true_2 (team_idx t <> NVSHMEM_TEAM_INVALID)) by (unfold NVSHMEM_TEAM_INVALID; lia).
  rewrite (bit_fetch_spec (avail s) (N_PSYNC_BYTES e) (po_avail _ _ Hp)) by (destruct He; lia).
  rewrite outcome_bind_ret.
  assert (is_team_node t || nvshmemi_is_rsvd_teams (team_node t) = true) as -> by (apply orb_true_iff; done).
  assert (is_team_same_mype_node t || nvshmemi_is_rsvd_teams (team_same_mype_node t) = true) as ->
    by (apply orb_true_iff; done).
  rewrite !outcome_bind_ret. by apply slot_release_spec.
Qed.

(** An internal team of [a]: none, already gone, or one without internal teams
    of its own. *)
Definition sub_ok (s : tstate) (a : Z) (flag : bool) (link : Z) : Prop :=
  flag || nvshmemi_is_rsvd_teams link = true \/ at_ (pool s) link = Some 0 \/
  exists b u, at_ (pool s) link = Some b /\ b <> 0 /\ b <> a /\ predefined e b = false /\
    heap s !! b = Some u /\ leaf u.

Lemma pool_unique s i j a : pool_ok e s -> a <> 0 -> at_ (pool s) i = Some a -> at_ (pool s) j = Some a -> i = j.
Proof.
  intros Hp Ha Hi Hj. destruct (po_used _ _ Hp i a Hi Ha) as (t & Et & <-).
  destruct (po_used _ _ Hp j a Hj Ha) as (u & Eu & <-). rewrite Et in Eu. by injection Eu as ->.
Qed.

(** Destroying an internal team, if there is one. *)
Lemma sub_destroy fuel s a flag link : pool_ok e s -> sub_ok s a flag link ->
  exists s1, (if flag || nvshmemi_is_rsvd_teams link then Ret s
              else p ← arr_get (pool s) link;
                   if bool_decide (p <> 0) then nvshmemi_team_destroy e (S fuel) s p else Ret s) = Ret s1 /\
    (s1 = s \/ exists b, released s s1 b link /\ at_ (pool s) link = Some b /\ b <> 0 /\ b <> a) /\
    (flag || nvshmemi_is_rsvd_teams link = true \/ at_ (pool s1) link = Some 0).
Proof.
  intros Hp. unfold sub_ok. destruct (flag || nvshmemi_is_rsvd_teams link); [exists s; auto|]. intros Hsub.
  destruct Hsub as [[=]|[E|(b & u & E & Hb & Hne & Hpre & Hu & Hl)]]; rewrite (at_arr_get _ _ _ E), outcome_bind_ret.
  - exists s. auto.
  - rewrite bool_decide_eq_true_2 by done. pose proof (at_range _ _ _ E) as Hr. rewrite (po_pool _ _ Hp) in Hr.
    destruct (po_used _ _ Hp _ _ E Hb) as (u' & Eu & Hidx). rewrite Hu in Eu. injection Eu as <-.
    destruct (destroy_leaf fuel s b u) as (s1 & E1 & R1); [done..|by rewrite Hidx|done|]. rewrite Hidx in R1.
    exists s1. split; [done|]. split; [right; by exists b|]. right.
    rewrite (rl_pool _ _ _ _ R1), at_insert by (rewrite (po_pool _ _ Hp); lia). by rewrite bool_decide_eq_true_2.
Qed.

(** What destroying the internal team of [link] leaves of the rest. *)
Lemma sub_frame s s1 a t link : pool_ok e s -> heap s !! a = Some t -> a <> 0 -> at_ (pool s) (team_idx t) = Some a ->
  (s1 = s \/ exists b, released s s1 b link /\ at_ (pool s) link = Some b /\ b <> 0 /\ b <> a) ->
  pool_ok e s1 /\ heap s1 !! a = Some t /\ at_ (pool s1) (team_idx t) = Some a /\
  (forall i, i <> link -> at_ (pool s1) i = at_ (pool s) i /\ bit (avail s1) i = bit (avail s) i) /\
  (forall b u, heap s !! b = Some u -> at_ (pool s) link <> Some b -> heap s1 !! b = Some u).
Proof.
  intros Hp Ha Hnz Hat [->|(b & R & E & Hb & Hne)]; [by auto|].
  pose proof (at_range _ _ _ E) as Hr.
  assert (team_idx t <> link) as Hl by (intros El; rewrite El, E in Hat; by injection Hat).
  pose proof R as [R1 R2 R3 R4 _].
  assert (forall i, i <> link -> at_ (pool s1) i = at_ (pool s) i /\ bit (avail s1) i = bit (avail s) i) as Hfr.
  { intros i Hi. rewrite R2, at_insert, R4, !bool_decide_eq_false_2 by done. done. }
  split; [apply (released_ok s s1 b link); try done; [by rewrite <- (po_pool _ _ Hp)|];
          intros i Ei; by apply (pool_unique s i link b)|].
  split; [by rewrite R1, lookup_delete_ne|]. split; [by rewrite (proj1 (Hfr _ Hl))|]. split; [done|].
  intros c u Hc Hcl. rewrite R1, lookup_delete_ne; [done|]. intros ->. done.
Qed.
End Destroy.

(** Destroying a team that is not predefined destroys its internal teams
    too, frees its object and gives all their indices back; no other index is
    touched and the pool invariant holds afterwards. *)
Theorem destroy_correct e s a t :
  env_ok e -> pool_ok e s -> heap s !! a = Some t -> a <> 0 -> predefined e a = false ->
  at_ (pool s) (team_idx t) = Some a ->
  sub_ok e s a (is_team_node t) (team_node t) -> sub_ok e s a (is_team_same_mype_node t) (team_same_mype_node t) ->
  exists s', destroy e s a = Ret s' /\ pool_ok e s' /\ heap s' !! a = None /\
    at_ (pool s') (team_idx t) = Some 0 /\ bit (avail s') (team_idx t) = true /\
    (is_team_node t || nvshmemi_is_rsvd_teams (team_node t) = true \/ at_ (pool s') (team_node t) = Some 0) /\
    (is_team_same_mype_node t || nvshmemi_is_rsvd_teams (team_same_mype_node t) = true \/
       at_ (pool s') (team_same_mype_node t) = Some 0) /\
    forall i, i <> team_idx t -> i <> team_node t -> i <> team_same_mype_node t ->
      at_ (pool s') i = at_ (pool s) i /\ bit (avail s') i = bit (avail s) i.
Proof.
  intros He Hp Ha Hnz Hpre Hat Hs1 Hs2. pose proof (at_range _ _ _ Hat) as Hr. rewrite (po_pool _ _ Hp) in Hr.
  unfold destroy, destroy_fuel. remember 2%nat as fuel eqn:Ef. cbn [nvshmemi_team_destroy]. rewrite bool_decide_eq_false_2 by done.
  unfold deref. rewrite Ha, outcome_bind_ret.
  rewrite (bool_decide_eq_true_2 (team_idx t <> NVSHMEM_TEAM_INVALID)) by (unfold NVSHMEM_TEAM_INVALID; lia).
  rewrite (bit_fetch_spec (avail s) (N_PSYNC_BYTES e) (po_avail _ _ Hp)) by (destruct He; lia).
  rewrite outcome_bind_ret.
  destruct (sub_destroy e He 1 s a _ _ Hp Hs1) as (s1 & E1 & D1 & N1).
  rewrite <- Ef in *. rewrite E1, outcome_bind_ret.
  destruct (sub_frame e s s1 a t _ Hp Ha Hnz Hat D1) as (Hp1 & Ha1 & Hat1 & F1 & G1).
  assert (sub_ok e s1 a (is_team_same_mype_node t) (team_same_mype_node t)) as Hs2'.
  { destruct (decide (team_same_mype_node t = team_node t)) as [El|Hnl].
    - destruct D1 as [->|(c & R & Ec & Hc & Hca)]; [done|]. right. left.
      rewrite El, (rl_pool _ _ _ _ R), at_insert by (by apply at_range in Ec). by rewrite bool_decide_eq_true_2.
    - destruct Hs2 as [|[E|(b & u & E & Hb & Hne & Hpb & Hu & Hl)]]; [by left| |].
      + right. left. by rewrite (proj1 (F1 _ Hnl)).
      + right. right. exists b, u. rewrite (proj1 (F1 _ Hnl)). split_and!; try done.
        apply G1; [done|]. intros E'. apply Hnl. by apply (pool_unique e s _ _ b). }
  destruct (sub_destroy e He 1 s1 a _ _ Hp1 Hs2') as (s2 & E2 & D2 & N2).
  rewrite <- Ef in *. rewrite E2, outcome_bind_ret.
  destruct (sub_frame e s1 s2 a t _ Hp1 Ha1 Hnz Hat1 D2) as (Hp2 & Ha2 & Hat2 & F2 & G2).
  destruct (slot_release_spec e He s2 a (team_idx t) Hp2 Hr Hpre) as (s' & -> & R). exists s'. split; [done|].
  pose proof R as [R1 R2 R3 R4 _].
  assert (forall i, at_ (pool s') i = if bool_decide (i = team_idx t) then Some 0 else at_ (pool s2) i) as AtI.
  { intros i. rewrite R2. apply at_insert. rewrite (po_pool _ _ Hp2). lia. }
  assert (forall i, at_ (pool s2) i = Some 0 -> at_ (pool s') i = Some 0) as Keep
    by (intros i E; rewrite AtI; by destruct (bool_decide _)).
  split; [apply (released_ok e s2 s' a (team_idx t)); try done; intros i Ei; by apply (pool_unique e s2 i _ a)|].
  split; [by rewrite R1, lookup_delete_eq|]. split; [by rewrite AtI, bool_decide_eq_true_2|].
  split; [by rewrite R4, bool_decide_eq_true_2|].
  split; [destruct N1 as [|N1]; [by left|]; right; apply Keep|].
  { destruct (decide (team_node t = team_same_mype_node t)) as [El|Hn]; [|by rewrite (proj1 (F2 _ Hn))].
    destruct D2 as [->|(b & Rb & Eb & Hb & _)]; [done|]. rewrite <- El, N1 in Eb. by injection Eb as <-. }
  split; [destruct N2; [by left|]; right; by apply Keep|].
  intros i H1 H2 H3. rewrite AtI, R4, !bool_decide_eq_false_2 by done. cbn [orb].
  destruct (F2 i H3) as [-> ->]. by apply F1.
Qed.

(** The job with the pair's team at index 6. *)
Definition demo_state6 : tstate :=
  {| avail := [128]; pool := [100; 0; 0; 0; 0; 0; 200; 0];
     heap := {[ 100 := world2; 200 := set_idx 6 pair2 ]}; next_addr := 300; clock := 0; team_ret_val := 0;
     team_ret_val_reduced := 0 |}.
Lemma demo_pool6_ok : pool_ok demo_env demo_state6.
Proof.
  constructor; [done|done| |].
  - intros i Hb. pose proof (bit_range _ _ Hb) as Hr. cbn in Hr. cases8 i; try discriminate Hb; reflexivity.
  - intros i a E Ha. pose proof (at_range _ _ _ E) as Hr. cbn in Hr.
    cases8 i; injection E as <-; try done; [by exists world2|by exists (set_idx 6 pair2)].
Qed.
Lemma destroy_correct_witness : exists s', destroy demo_env demo_state6 200 = Ret s' /\ pool_ok demo_env s' /\
  heap s' !! 200 = None /\ at_ (pool s') 6 = Some 0 /\ bit (avail s') 6 = true /\
  (true = true \/ at_ (pool s') (-1) = Some 0) /\ (true = true \/ at_ (pool s') (-1) = Some 0) /\
  forall i, i <> 6 -> i <> -1 -> i <> -1 ->
    at_ (pool s') i = at_ (pool demo_state6) i /\ bit (avail s') i = bit (avail demo_state6) i.
Proof.
  apply (destroy_correct demo_env demo_state6 200 (set_idx 6 pair2)).
  - exact demo_env_ok.
  - exact demo_pool6_ok.
  - reflexivity.
  - discriminate.
  - reflexivity.
  - reflexivity.
  - left. reflexivity.
  - left. reflexivity.
Defined.

(** ** The rows and columns of a 2D split *)
(** The indices of the parent that a strided split takes. *)
Definition expand (c : Z * Z * Z) : list Z := let '(st, sd, n) := c in (fun i => st + i * sd) <$> seqZ 0 n.

Lemma expand_elem st sd n k : k ∈ expand (st, sd, n) <-> exists i, 0 <= i < n /\ k = st + i * sd.
Proof.
  unfold expand. rewrite list_elem_of_fmap. setoid_rewrite elem_of_seqZ.
  split; intros (i & H1 & H2); exists i; split; lia.
Qed.

(** A 2D split partitions the parent twice: every index of the parent is in
    exactly one row, at the column given by its remainder, and in exactly one
    column. *)
Theorem split_2d_partition n xrange k : 0 < xrange <= n -> 0 <= k < n ->
  (exists! c, c ∈ x_calls n xrange /\ k ∈ expand c) /\ (exists! c, c ∈ y_calls n xrange /\ k ∈ expand c).
Proof.
  intros Hx Hk. pose proof (Z.div_mod n xrange ltac:(lia)) as Dn. pose proof (Z.mod_pos_bound n xrange ltac:(lia)) as Mn.
  pose proof (Z.div_mod k xrange ltac:(lia)) as Dk. pose proof (Z.mod_pos_bound k xrange ltac:(lia)) as Mk.
  unfold x_calls, y_calls. rewrite Z.rem_mod_nonneg, Z.quot_div_nonneg by lia.
  set (q := n / xrange) in *. set (r := n mod xrange) in *. set (kq := k / xrange) in *. set (kr := k mod xrange) in *.
  split.
  - set (num := - (- n / xrange)).
    assert (num = if bool_decide (r = 0) then q else q + 1) as Hnum.
    { unfold num. destruct (bool_decide_reflect (r = 0)) as [Er|Er].
      - rewrite <- (Z.div_unique (- n) xrange (- q) 0); lia.
      - rewrite <- (Z.div_unique (- n) xrange (- q - 1) (xrange - r)); lia. }
    exists (kq * xrange, 1, if bool_decide (kq = num - 1 /\ r <> 0) then r else xrange). split.
    + rewrite expand_elem, list_elem_of_fmap. split.
      * exists kq. split; [done|]. rewrite elem_of_seqZ, Hnum. destruct (bool_decide_reflect (r = 0)); nia.
      * exists kr. split; [|lia]. destruct (bool_decide_reflect (kq = num - 1 /\ r <> 0)) as [[E1 E2]|]; [|lia].
        rewrite Hnum, bool_decide_eq_false_2 in E1 by done. nia.
    + intros c [(i & -> & Hi%elem_of_seqZ)%list_elem_of_fmap (j & Hj & Ej)%expand_elem].
      assert (0 <= j < xrange) as Hj' by (destruct (bool_decide_reflect (i = num - 1 /\ r <> 0)); lia).
      assert (i = kq) as -> by nia. done.
  - exists (kr, xrange, if bool_decide (r <> 0 /\ kr < r) then q + 1 else q). split.
    + rewrite expand_elem, list_elem_of_fmap. split.
      * exists kr. split; [done|]. rewrite elem_of_seqZ. lia.
      * exists kq. split; [|lia]. destruct (bool_decide_reflect (r <> 0 /\ kr < r)) as [[E1 E2]|E]; [nia|].
        assert (r <= kr) by lia. nia.
    + intros c [(i & -> & Hi%elem_of_seqZ)%list_elem_of_fmap (j & Hj & Ej)%expand_elem].
      assert (i = kr) as -> by (unfold kr; apply (Z.mod_unique k xrange j i); lia). done.
Qed.
Lemma split_2d_partition_witness :
  (exists! c, c ∈ x_calls 7 3 /\ 5 ∈ expand c) /\ (exists! c, c ∈ y_calls 7 3 /\ 5 ∈ expand c).
Proof. apply (split_2d_partition 7 3 5); lia. Defined.
End PoolSpec.
