(* ===== verification/TeamOverlap.v ===== *)
(** * Internal teams: correctness of the intersection

    [nvshmemi_team_initialize_from_overlap] (src/src/host/team/team_internal.cpp)
    builds the team of the PEs that the parent shares with a team of the node.
    The theorem: the new team has a well-formed map, its members are the shared
    PEs in the parent's order, the calling PE finds its own index, and the
    recorded stride is either invalid or the common distance of the members. *)
From stdpp Require Import base gmap list.
From Stdlib Require Import ZArith Lia.
From S2P Require Import Prelude Recexch Team TeamBits TeamPsync TeamPool TeamPoolSpec.

Module Overlap.
Import Team Pool PoolSpec.

Lemma translate_wrap t i : 0 <= i < size t ->
  nvshmemi_team_translate_pe_to_team_world_wrap t i = arr_get (pe_mapping t) i.
Proof.
  intros Hi. unfold nvshmemi_team_translate_pe_to_team_world_wrap.
  by rewrite bool_decide_eq_false_2, Z.rem_small by lia.
Qed.

Section Loop.
Context (e : tenv) (n_pes : Z).
Hypothesis Hn : 0 <= n_pes.

Lemma overlap_has_spec t pe n : forall j, team_wf n_pes t -> 0 <= j -> j + Z.of_nat n = size t ->
  overlap_has n t j pe = Ret (bool_decide (pe ∈ drop (Z.to_nat j) (members t))).
Proof.
  induction n as [|n IH]; intros j Hw Hj Hs; cbn [overlap_has].
  - rewrite drop_ge by (pose proof (length_members _ _ Hw Hn); lia). done.
  - rewrite translate_wrap by lia. destruct (wf_fwd _ _ Hw j ltac:(lia)) as (g & _ & E & _).
    rewrite (at_arr_get _ _ _ E), outcome_bind_ret, (drop_S _ _ _ (members_lookup _ _ _ _ Hw E ltac:(lia))).
    destruct (bool_decide_reflect (g = pe)) as [->|Hne].
    + f_equal. symmetry. apply bool_decide_eq_true_2. by left.
    + rewrite IH by (done || lia). replace (Z.to_nat (j + 1)) with (S (Z.to_nat j)) by lia.
      f_equal. apply bool_decide_ext. rewrite elem_of_cons. split; [by right|by intros [->|]].
Qed.

(** The loop adds the shared PEs one by one. *)
Lemma overlap_loop_spec parent ov n : forall i o, team_wf n_pes parent -> team_wf n_pes ov ->
  0 <= i -> i + Z.of_nat n = size parent ->
  overlap_loop e n parent ov i o =
    Ret (fold_left (overlap_add e) (filter (fun g => g ∈ members ov) (drop (Z.to_nat i) (members parent))) o).
Proof.
  induction n as [|n IH]; intros i o Hp Ho Hi Hs; cbn [overlap_loop].
  - by rewrite drop_ge by (pose proof (length_members _ _ Hp Hn); lia).
  - rewrite translate_wrap by lia. destruct (wf_fwd _ _ Hp i ltac:(lia)) as (g & _ & E & _).
    rewrite (at_arr_get _ _ _ E), outcome_bind_ret.
    rewrite overlap_has_spec by (done || (pose proof (wf_size _ _ Ho); lia)).
    rewrite outcome_bind_ret, IH by (done || lia).
    rewrite (drop_S _ _ _ (members_lookup _ _ _ _ Hp E ltac:(lia))).
    replace (Z.to_nat (i + 1)) with (S (Z.to_nat i)) by lia. rewrite drop_0, filter_cons.
    destruct (decide (g ∈ members ov)) as [Hin|Hout].
    + by rewrite bool_decide_eq_true_2.
    + by rewrite bool_decide_eq_false_2.
Qed.

(** ** The invariant of the loop *)
Definition signed_stride (o : overlap) : Z := if ov_is_reversed o then - ov_stride o else ov_stride o.
Definition progression (o : overlap) : Prop :=
  forall i g, ov_pes o !! i = Some g -> g = ov_start o + Z.of_nat i * signed_stride o.

Record ov_inv (o : overlap) : Prop := {
  oi_nodup : NoDup (ov_pes o);
  oi_pos : Forall (fun g => 0 <= g) (ov_pes o);
  oi_me : match list_find (fun g => g = mype e) (ov_pes o) with
          | Some (i, _) => ov_my_pe o = Z.of_nat i
          | None => ov_my_pe o = -1 end;
  oi_start : match ov_pes o with [] => ov_start o = -1 | x :: _ => ov_start o = x end;
  oi_stride :
    (ov_stride_is_invalid o = false /\ ov_stride o = -1 /\ ov_is_reversed o = false /\ (length (ov_pes o) <= 1)%nat) \/
    (ov_stride_is_invalid o = true /\ ov_stride o = -1) \/
    (ov_stride_is_invalid o = false /\ 0 < ov_stride o /\ (1 < length (ov_pes o))%nat /\ progression o) }.

Lemma overlap_add_pes o pe : ov_pes (overlap_add e o pe) = ov_pes o ++ [pe].
Proof. unfold overlap_add. cbv zeta. by repeat case_match. Qed.
Lemma overlap_add_me o pe : ov_my_pe (overlap_add e o pe) =
  if bool_decide (mype e = pe) then Z.of_nat (length (ov_pes o)) else ov_my_pe o.
Proof. unfold overlap_add. cbv zeta. by repeat case_match. Qed.

Lemma last_lookup_some (l : list Z) : l <> [] -> exists g, last l = Some g /\ l !! (length l - 1)%nat = Some g.
Proof.
  intros Hl. destruct (last l) as [g|] eqn:E; [|by apply last_None in E]. exists g. split; [done|].
  rewrite last_lookup in E. by replace (length l - 1)%nat with (Init.Nat.pred (length l)) by lia.
Qed.

Lemma progression_snoc o o' pe : progression o -> ov_pes o' = ov_pes o ++ [pe] -> ov_start o' = ov_start o ->
  signed_stride o' = signed_stride o -> pe = ov_start o + Z.of_nat (length (ov_pes o)) * signed_stride o ->
  progression o'.
Proof.
  intros Hp Ep Es Ed -> i g. unfold progression in *. rewrite Ep, Es, Ed. intros E.
  apply lookup_app_Some in E as [E|[Hi E]]; [by apply Hp|].
  apply list_lookup_singleton_Some in E as [E0 <-]. do 2 f_equal. lia.
Qed.

Lemma overlap_add_stride o pe : ov_inv o -> 0 <= pe -> pe ∉ ov_pes o ->
  let o' := overlap_add e o pe in
  match ov_pes o' with [] => ov_start o' = -1 | x :: _ => ov_start o' = x end /\
  ((ov_stride_is_invalid o' = false /\ ov_stride o' = -1 /\ ov_is_reversed o' = false /\ (length (ov_pes o') <= 1)%nat) \/
   (ov_stride_is_invalid o' = true /\ ov_stride o' = -1) \/
   (ov_stride_is_invalid o' = false /\ 0 < ov_stride o' /\ (1 < length (ov_pes o'))%nat /\ progression o')).
Proof.
  intros [Hnd Hpos _ Hst Hsd] Hpe Hnew. unfold overlap_add, TEAM_SCALAR_INVALID. cbv zeta.
  destruct (ov_pes o) as [|x l] eqn:El.
  - rewrite (bool_decide_eq_true_2 (ov_start o = -1)) by done. cbn -[Z.of_nat]. split; [done|]. rewrite ?El. cbn.
    destruct Hsd as [(H1 & H2 & H3 & _)|[(H1 & H2)|(_ & _ & H & _)]]; [left; split_and!; done || lia|auto|cbn in H; lia].
  - assert (0 <= x) by (by apply Forall_inv in Hpos).
    rewrite (bool_decide_eq_false_2 (ov_start o = -1)) by lia.
    assert (pe <> x) as Hpx by (intros ->; apply Hnew; left).
    destruct Hsd as [(H1 & H2 & H3 & Hlen)|[(H1 & H2)|(H1 & H2 & Hlen & Hap)]].
    + rewrite (bool_decide_eq_true_2 (ov_stride o = -1)), H1 by done. cbn [negb andb].
      assert (l = []) as -> by (destruct l; [done|cbn in Hlen; lia]).
      cbn -[Z.of_nat]. rewrite ?El. split; [done|]. right. right. split; [done|].
      split; [destruct (bool_decide_reflect (pe - ov_start o < 0)); lia|]. split; [cbn; lia|].
      unfold progression, signed_stride. cbn [ov_pes ov_start ov_is_reversed ov_stride]. rewrite ?El, ?H3.
      intros [|[|i]] g E; cbn in E; [| |done]; injection E as <-;
        destruct (bool_decide_reflect (pe - ov_start o < 0)); lia.
    + rewrite (bool_decide_eq_true_2 (ov_stride o = -1)), H1 by done. cbn [negb andb].
      destruct (bool_decide (ov_stride o <> _)); cbn -[Z.of_nat]; rewrite ?El; (split; [done|]); right; left; done.
    + rewrite (bool_decide_eq_false_2 (ov_stride o = -1)) by lia. cbn [negb andb].
      rewrite (bool_decide_eq_true_2 (ov_stride o <> -1)) by lia.
      destruct (last_lookup_some (x :: l)) as (g & Eg & Lg); [done|]. rewrite Eg. change (default 0 (Some g)) with g.
      assert (g = ov_start o + (Z.of_nat (length (x :: l)) - 1) * signed_stride o) as Hg.
      { assert (Z.of_nat (length (x :: l)) - 1 = Z.of_nat (length (x :: l) - 1)) as -> by (cbn; lia).
        apply Hap. by rewrite El. }
      destruct (bool_decide_reflect (ov_stride o <> (if ov_is_reversed o then (pe - g) * -1 else pe - g))) as [|Heq]; cbn -[Z.of_nat]; rewrite ?El; (split; [done|]); right; [by left|right].
      split; [done|]. split; [done|]. split; [cbn; rewrite length_app; cbn; lia|].
      eapply (progression_snoc o); [done|cbn; by rewrite ?El|done|done|]. rewrite El.
      unfold signed_stride in *. destruct (ov_is_reversed o); lia.
Qed.

Lemma overlap_add_inv o pe : ov_inv o -> 0 <= pe -> pe ∉ ov_pes o -> ov_inv (overlap_add e o pe).
Proof.
  intros Hi Hpe Hnew. destruct (overlap_add_stride o pe Hi Hpe Hnew) as [Hs Hd]. destruct Hi as [Hnd Hpos Hme _ _].
  constructor; [| | |done|done]; rewrite overlap_add_pes.
  - apply NoDup_app. split; [done|]. split; [|apply NoDup_singleton]. intros y Hy ->%list_elem_of_singleton. done.
  - apply Forall_app. by split; [|apply Forall_singleton].
  - rewrite overlap_add_me. destruct (list_find (fun g => g = mype e) (ov_pes o)) as [[i g]|] eqn:Ef.
    + rewrite (list_find_app_l _ _ _ _ _ Ef). apply list_find_Some in Ef as (Ei & -> & _).
      rewrite bool_decide_eq_false_2; [done|]. intros <-. by apply Hnew, (list_elem_of_lookup_2 _ _ _ Ei).
    + rewrite (list_find_app_r _ _ _ Ef). cbn. destruct (decide (pe = mype e)) as [->|Hne].
      * rewrite bool_decide_eq_true_2 by done. cbn. lia.
      * by rewrite bool_decide_eq_false_2 by done.
Qed.

Lemma overlap_fold_inv l : forall o, ov_inv o -> NoDup (ov_pes o ++ l) -> Forall (fun g => 0 <= g) l ->
  ov_inv (fold_left (overlap_add e) l o) /\ ov_pes (fold_left (overlap_add e) l o) = ov_pes o ++ l.
Proof.
  induction l as [|pe l IH]; intros o Ho Hnd Hpos; cbn [fold_left]; [by rewrite app_nil_r|].
  apply Forall_cons in Hpos as [Hpe Hpos].
  assert (pe ∉ ov_pes o) as Hnew.
  { intros Hin. apply NoDup_app in Hnd as (_ & Hd & _). apply (Hd pe Hin). left. }
  destruct (IH (overlap_add e o pe)) as [H1 H2].
  - by apply overlap_add_inv.
  - rewrite overlap_add_pes, <- app_assoc. done.
  - done.
  - split; [done|]. by rewrite H2, overlap_add_pes, <- app_assoc.
Qed.

Lemma overlap_init_inv : ov_inv overlap_init.
Proof. constructor; cbn; [constructor|constructor|done|done|]. left. split_and!; done || lia. Qed.
End Loop.

(** The stride recorded in the team. *)
Lemma stride_final (e : tenv) r x l : ov_pes r = x :: l -> ov_start r = x ->
  (ov_stride_is_invalid r = false /\ ov_stride r = -1 /\ ov_is_reversed r = false /\ (length (ov_pes r) <= 1)%nat) \/
  (ov_stride_is_invalid r = true /\ ov_stride r = -1) \/
  (ov_stride_is_invalid r = false /\ 0 < ov_stride r /\ (1 < length (ov_pes r))%nat /\ progression r) ->
  let sd := if bool_decide (Z.of_nat (length (x :: l)) = 1) then 1 else ov_stride r in
  let sd := if ov_is_reversed r && bool_decide (sd <> TEAM_SCALAR_INVALID) then sd * -1 else sd in
  sd = -1 \/ forall i g, (x :: l) !! i = Some g -> g = ov_start r + Z.of_nat i * sd.
Proof.
  intros Hp Hs H. cbv zeta. unfold TEAM_SCALAR_INVALID. rewrite Hp in H.
  destruct (bool_decide_reflect (Z.of_nat (length (x :: l)) = 1)) as [E1|N1].
  - assert (l = []) as -> by (destruct l; [done|cbn in E1; lia]).
    right. intros [|i] g E; cbn in E; [injection E as <-|done]. lia.
  - destruct H as [(_ & _ & _ & H)|[(_ & ->)|(_ & H1 & H2 & H3)]]; [cbn in H, N1; lia| |].
    + left. by rewrite bool_decide_eq_false_2, andb_false_r by lia.
    + right. rewrite bool_decide_eq_true_2, andb_true_r by lia. intros i g E. rewrite <- Hp in E.
      rewrite (H3 _ _ E). unfold signed_stride. destruct (ov_is_reversed r); lia.
Qed.

(** The shared PEs, in the parent's order. *)
Definition shared_pes (parent ov : team) : list Z := filter (fun g => g ∈ members ov) (members parent).

Lemma shared_pes_ok npes parent ov : team_wf npes parent -> 0 <= npes ->
  Forall (fun g => 0 <= g < npes) (shared_pes parent ov) /\ NoDup (shared_pes parent ov).
Proof.
  intros Wp Hn. split; [|by apply NoDup_filter, (members_NoDup npes)].
  apply Forall_forall. intros g [_ [k Ek]%list_elem_of_lookup]%list_elem_of_filter.
  by destruct (members_at _ _ _ _ Wp Hn Ek) as (_ & _ & ? & _).
Qed.

(** Completing the map of a new team whose forward half has been copied in. *)
Lemma populate_copied npes world t l :
  0 <= npes -> (forall j, 0 <= j < npes -> at_ (pe_mapping world) j = Some j) ->
  Forall (fun g => 0 <= g < npes) l -> NoDup l -> l <> [] -> size t = Z.of_nat (length l) ->
  pe_mapping t = l ++ replicate (Z.to_nat npes) (-1) ->
  members t = l /\ exists l', nvshmemi_team_populate_from_world_pe_mapping world t = Ret (set_pe_mapping l' t) /\
    team_wf npes (set_pe_mapping l' t) /\ members (set_pe_mapping l' t) = l.
Proof.
  intros Hn Hid Hrange Hnd Hne Hs Em.
  assert (members t = l) as Emem.
  { unfold members. rewrite Em, Hs, Nat2Z.id. apply take_app_length. }
  split; [done|].
  assert (1 <= Z.of_nat (length l)) by (destruct l; cbn; [done|lia]).
  destruct (populate_spec npes world t) as (l' & E & W & M); rewrite ?Emem, ?Hs; try done.
  - intros j Hj. apply Hid.
    pose proof (submseteq_length _ _ (NoDup_submseteq _ (seqZ 0 npes) Hnd
      ltac:(intros g Hg; rewrite Forall_forall in Hrange; apply elem_of_seqZ; specialize (Hrange g Hg); lia))) as Hle.
    rewrite length_seqZ in Hle. lia.
  - rewrite Em, length_app, length_replicate. lia.
  - intros g Hg. unfold at_. rewrite bool_decide_eq_true_2, Em by lia.
    rewrite lookup_app_r by lia. apply lookup_replicate. lia.
  - exists l'. rewrite E, M. done.
Qed.

(** The internal team made from a parent and a team of the node that share
    a PE: the call succeeds, the new team's map is well-formed and its members
    are the shared PEs in the parent's order, [my_pe] is the calling PE's
    index, and the stride is invalid or the distance between neighbours. *)
Theorem overlap_correct e s p o parent ov world :
  env_ok e -> heap s !! p = Some parent -> heap s !! o = Some ov -> heap s !! team_world e = Some world ->
  team_wf (npes e) parent -> team_wf (npes e) ov ->
  (forall j, 0 <= j < npes e -> at_ (pe_mapping world) j = Some j) ->
  shared_pes parent ov <> [] -> team_world e <> next_addr s -> malloc_ok e (next_addr s) = true ->
  cfg_version (config parent) = NVSHMEMI_TEAM_CONFIG_VERSION_2_IDENTIFIER ->
  exists s' t, nvshmemi_team_initialize_from_overlap e s p o = Ret (NVSHMEMX_SUCCESS, Some (next_addr s), s') /\
    heap s' = <[next_addr s := t]> (heap s) /\ team_wf (npes e) t /\ members t = shared_pes parent ov /\
    (my_pe t = -1 /\ mype e ∉ members t \/ members t !! Z.to_nat (my_pe t) = Some (mype e)) /\
    (stride t = -1 \/ forall i g, members t !! i = Some g -> g = start t + Z.of_nat i * stride t).
Proof.
  intros He Ep Eo Ew Wp Wo Hid Hne Hwn Hm Hv. assert (0 <= npes e) as Hn by (destruct He; lia).
  unfold nvshmemi_team_initialize_from_overlap, deref. rewrite Ep, outcome_bind_ret, Eo, outcome_bind_ret.
  rewrite (overlap_loop_spec e (npes e) Hn parent ov) by (done || (pose proof (wf_size _ _ Wp); lia)).
  rewrite outcome_bind_ret, drop_0. fold (shared_pes parent ov).
  destruct (shared_pes_ok (npes e) parent ov Wp Hn) as [Hrange Hnd].
  destruct (overlap_fold_inv e (shared_pes parent ov) overlap_init) as [[_ _ Hme Hst Hsd] Hpes];
    [apply overlap_init_inv|done|by eapply Forall_impl; [exact Hrange|cbn; lia]|].
  cbn [app ov_pes overlap_init] in Hpes. set (r := fold_left _ _ _) in *.
  rewrite !Hpes. destruct (shared_pes parent ov) as [|x l] eqn:El; [done|]. rewrite Hpes in Hst.
  assert (0 <= x) by (apply Forall_inv in Hrange; lia). set (n := Z.of_nat (length (x :: l))) in *.
  assert (1 <= n) by (unfold n; cbn; lia).
  set (sd := if ov_is_reversed r && _ then _ else _).
  rewrite (bool_decide_eq_false_2 (ov_start r = TEAM_SCALAR_INVALID \/ n = 0)) by (unfold TEAM_SCALAR_INVALID; lia).
  rewrite bool_decide_eq_false_2 by (rewrite Hv; intros [? _]; done).
  unfold nvshmemi_team_allocate_team. rewrite Hm, outcome_bind_ret. cbn [heap set_next store set_heap].
  rewrite lookup_insert_eq, outcome_bind_ret, lookup_insert_ne, Ew, outcome_bind_ret by done.
  rewrite bool_decide_eq_false_2 by (by rewrite Hv).
  set (t0 := set_config _ _ _). set (t1 := set_pe_mapping _ _).
  assert (pe_mapping t1 = (x :: l) ++ replicate (Z.to_nat (npes e)) (-1)) as Em.
  { unfold t1, t0. cbn [pe_mapping set_pe_mapping set_config set_geometry new_team].
    rewrite drop_replicate. do 2 f_equal. unfold n. lia. }
  destruct (populate_copied (npes e) world t1 (x :: l)) as (Emem & l' & E & W & M); try done.
  rewrite E, outcome_bind_ret. eexists _, (set_pe_mapping l' t1). split; [done|].
  split; [cbn; by rewrite insert_insert_eq|]. split; [done|]. rewrite M. split; [done|].
  split; [|exact (stride_final e r x l Hpes Hst Hsd)].
  change (my_pe (set_pe_mapping l' t1)) with (ov_my_pe r). rewrite Hpes in Hme.
  destruct (list_find _ _) as [[i g]|] eqn:Ef.
  - right. rewrite Hme, Nat2Z.id. apply list_find_Some in Ef as (Ei & -> & _). done.
  - left. split; [done|]. apply list_find_None in Ef. rewrite Forall_forall in Ef.
  intros Hin. by apply (Ef _ Hin).
Qed.
Lemma overlap_correct_witness : exists s' t,
  nvshmemi_team_initialize_from_overlap demo_env demo_state 100 200 = Ret (NVSHMEMX_SUCCESS, Some 300, s') /\
  heap s' = <[300 := t]> (heap demo_state) /\ team_wf 2 t /\ members t = shared_pes world2 pair2 /\
  (my_pe t = -1 /\ 0 ∉ members t \/ members t !! Z.to_nat (my_pe t) = Some 0) /\
  (stride t = -1 \/ forall i g, members t !! i = Some g -> g = start t + Z.of_nat i * stride t).
Proof.
  apply (overlap_correct demo_env demo_state 100 200 world2 pair2 world2).
  - exact demo_env_ok.
  - reflexivity.
  - reflexivity.
  - reflexivity.
  - apply team_wfb_sound. reflexivity.
  - apply team_wfb_sound. reflexivity.
  - cbn. intros j Hj. assert (j = 0 \/ j = 1) as [-> | ->] by lia; reflexivity.
  - discriminate.
  - discriminate.
  - reflexivity.
  - reflexivity.
Defined.
End Overlap.
