(* ===== verification/TeamSplit.v ===== *)
(** * Strided splits: correctness and corner cases

    [nvshmemi_team_split_strided] (src/src/host/team/team_internal.cpp) on a
    member of the new team, all the way through the choice of the index, the
    connectivity test, the reduction schedule and the internal teams, for a
    split whose members lie on one node; and the calls of the team interface
    whose result differs from what their error paths intend. *)
From stdpp Require Import base gmap list.
From Stdlib Require Import ZArith Lia.
From S2P Require Import Prelude Recexch Team TeamBits TeamPsync TeamPool TeamPoolSpec.

Module Split.
Import Team TeamBits Pool PoolSpec.

(** ** The map of the new team *)
Lemma fill_strided_spec npes sz st sd n : forall l i, sd <> 0 -> 0 <= i -> i + Z.of_nat n = sz ->
  Z.of_nat (length l) = sz + npes -> (forall j, i <= j < sz -> 0 <= st + j * sd < npes) ->
  exists l', fill_strided n sz st sd l i = Ret l' /\ length l' = length l /\
    (forall j, 0 <= j < sz -> at_ l' j = if bool_decide (i <= j) then Some (st + j * sd) else at_ l j) /\
    (forall j, i <= j < sz -> at_ l' (sz + (st + j * sd)) = Some j) /\
    (forall g, 0 <= g -> (forall j, i <= j < sz -> g <> st + j * sd) -> at_ l' (sz + g) = at_ l (sz + g)).
Proof.
  induction n as [|n IH]; intros l i Hsd Hi Hn Hlen Hr; cbn [fill_strided].
  - exists l. split_and!; try done; [|intros; lia]. intros j Hj. by rewrite bool_decide_eq_false_2 by lia.
  - pose proof (Hr i ltac:(lia)) as Hg.
    rewrite map_set_spec, outcome_bind_ret by lia.
    rewrite map_set_spec, outcome_bind_ret by (rewrite length_insert; lia).
    set (l1 := <[Z.to_nat (st + i * sd + sz) := i]> (<[Z.to_nat i := st + i * sd]> l)).
    assert (length l1 = length l) as Hl1 by (unfold l1; by rewrite !length_insert).
    assert (forall j, at_ l1 j = if bool_decide (j = st + i * sd + sz) then Some i
                                 else if bool_decide (j = i) then Some (st + i * sd) else at_ l j) as At.
    { intros j. unfold l1. rewrite at_insert by (rewrite length_insert; lia).
      destruct (bool_decide _); [done|]. apply at_insert. lia. }
    destruct (IH l1 (i + 1)) as (l' & E & L1 & L2 & L3 & L4); [done|lia|lia|lia|intros; apply Hr; lia|].
    exists l'. split; [done|]. split; [lia|]. split_and!.
    + intros j Hj. rewrite L2 by done. destruct (decide (j = i)) as [->|Hne].
      * rewrite bool_decide_eq_false_2, bool_decide_eq_true_2, At by lia.
        by rewrite bool_decide_eq_false_2, bool_decide_eq_true_2 by lia.
      * destruct (bool_decide_reflect (i + 1 <= j)); [by rewrite bool_decide_eq_true_2 by lia|].
        rewrite bool_decide_eq_false_2, At by lia. by rewrite !bool_decide_eq_false_2 by lia.
    + intros j Hj. destruct (decide (j = i)) as [->|Hne]; [|apply L3; lia].
      rewrite L4; [rewrite At, bool_decide_eq_true_2 by lia; done|lia|]. intros j Hj'. nia.
    + intros g Hg0 Hno. rewrite L4; [|done|intros j Hj; apply Hno; lia].
      rewrite At. pose proof (Hno i ltac:(lia)). by rewrite !bool_decide_eq_false_2 by lia.
Qed.

Lemma replicate_at n (i : Z) v : 0 <= i < Z.of_nat n -> at_ (replicate n v) i = Some v.
Proof. intros. unfold at_. rewrite bool_decide_eq_true_2 by lia. apply lookup_replicate. lia. Qed.

(** The map is well-formed and lists the progression. *)
Lemma fill_strided_wf npes sz st sd t : sd <> 0 -> 1 <= sz -> 0 <= npes ->
  (forall j, 0 <= j < sz -> 0 <= st + j * sd < npes) ->
  size t = sz -> pe_mapping t = replicate (Z.to_nat (sz + npes)) (-1) ->
  exists l, fill_strided (Z.to_nat sz) sz st sd (pe_mapping t) 0 = Ret l /\
    team_wf npes (set_pe_mapping l t) /\
    forall j, 0 <= j < sz -> members (set_pe_mapping l t) !! Z.to_nat j = Some (st + j * sd).
Proof.
  intros Hsd Hsz Hn Hr Hs Hmap.
  destruct (fill_strided_spec npes sz st sd (Z.to_nat sz) (pe_mapping t) 0) as (l & E & L1 & L2 & L3 & L4);
    [done|lia|lia|rewrite Hmap, length_replicate; lia|done|].
  exists l. split; [done|].
  assert (team_wf npes (set_pe_mapping l t)) as W.
  { constructor; cbn [size pe_mapping set_pe_mapping]; rewrite ?Hs.
    - done.
    - rewrite L1, Hmap, length_replicate. lia.
    - intros i Hi. exists (st + i * sd). split; [by apply Hr|]. split; [|by apply L3].
      rewrite L2, bool_decide_eq_true_2 by lia. done.
    - intros g Hg. destruct (decide (Exists (fun j => g = st + j * sd) (seqZ 0 sz))) as [Hex|Hno].
      + apply Exists_exists in Hex as (j & Hj%elem_of_seqZ & ->). exists j. split; [apply L3; lia|]. right.
        split; [lia|]. rewrite L2, bool_decide_eq_true_2 by lia. done.
      + exists (-1). split; [|by left]. rewrite L4; [|lia|].
        * rewrite Hmap. apply replicate_at. lia.
        * intros j Hj Eg. apply Hno, Exists_exists. exists j. rewrite elem_of_seqZ. split; [lia|done]. }
  split; [done|]. intros j Hj. eapply members_lookup; [done| |cbn; lia].
  cbn [pe_mapping set_pe_mapping]. rewrite L2, bool_decide_eq_true_2 by lia. done.
Qed.

Lemma active_set_spec st sd n me g : 0 < sd -> 0 <= me < n -> g = st + me * sd ->
  nvshmemi_pe_in_active_set g st sd n = Ret me.
Proof.
  intros Hsd Hme ->. unfold nvshmemi_pe_in_active_set. rewrite bool_decide_eq_false_2 by lia.
  replace (st + me * sd - st) with (me * sd) by lia. rewrite Z.quot_mul, Z.rem_mul by lia.
  rewrite bool_decide_eq_false_2; [done|]. nia.
Qed.

(** ** The resources of a team inside a node *)
Record addr_ok (s : tstate) : Prop := {
  ao_pos : 0 < next_addr s;
  ao_fresh : forall a, next_addr s <= a -> heap s !! a = None }.

Section Resources.
Context (e : tenv) (s : tstate) (a p : Z) (t parent shared node same : team).
Hypothesis He : env_ok e.
Hypothesis Hself : reduce_includes_self e.
Hypothesis Hp : pool_ok e s.
Hypothesis Ha : heap s !! a = Some t.
Hypothesis Hnz : a <> 0.
Hypothesis Hfresh : forall i, at_ (pool s) i <> Some a.
Hypothesis Hpar : heap s !! p = Some parent.
Hypothesis Hp0 : p <> 0.
Hypothesis Hpa : p <> a.
Hypothesis Hshared : heap s !! team_shared e = Some shared.
Hypothesis Hsa : team_shared e <> a.
Hypothesis Hnode : heap s !! team_nodes e = Some node.
Hypothesis Hna : team_nodes e <> a.
Hypothesis Hsame : heap s !! team_same_mype e = Some same.
Hypothesis Hma : team_same_mype e <> a.
Hypothesis Wt : team_wf (npes e) t.
Hypothesis Wshared : team_wf (npes e) shared.
Hypothesis Wnode : team_wf (npes e) node.
Hypothesis Wsame : team_wf (npes e) same.
Hypothesis Hsub : members t ⊆ members node.
Hypothesis Hsd : stride t <> TEAM_SCALAR_INVALID.
Hypothesis Hme : 0 <= my_pe t < size t.
Hypothesis Hfree : exists i, bit (and_reduce e (clock s) (start t) (stride t) (size t) (avail s)) i = true.

(** Fields that allocation leaves alone. *)
Definition same_team (t t' : team) : Prop :=
  my_pe t' = my_pe t /\ start t' = start t /\ stride t' = stride t /\ size t' = size t /\
  pe_mapping t' = pe_mapping t /\ config t' = config t.

Lemma same_team_wf u u' n : same_team u u' -> team_wf n u -> team_wf n u' /\ members u' = members u.
Proof.
  intros (_ & _ & _ & E1 & E2 & _) [H1 H2 H3 H4]. split; [|unfold members; by rewrite E1, E2].
  constructor; rewrite ?E1, ?E2; done.
Qed.

Lemma neighbors_total n (l : list Z) me : 1 <= n -> Z.of_nat (length l) = n -> 0 <= me < n ->
  exists r, Recexch.nvshmemi_recexchalgo_get_neighbors (kval e) l me n = Ret r.
Proof.
  intros Hn Hl Hm. destruct (Recexch.team_params (kval e) n) as (k & log & Hk & Hlog & Hnum & Ek & Ep);
    [apply He|done|].
  destruct (Recexch.get_neighbors_at (kval e) n k log l (eo_kval _ He) Hl Hk Hlog Hnum Ek Ep me Hm)
    as (x & _ & [(_ & _ & E)|(_ & _ & E)]); eauto.
Qed.

Lemma deref_some (x : Z) u s0 : heap s0 !! x = Some u -> deref s0 x = Ret u.
Proof. intros E. unfold deref. by rewrite E. Qed.

(** Inside a node no internal team is made. *)
Lemma create_internal_spec alloc s3 t4 : heap s3 = <[a := t4]> (heap s) -> same_team t t4 ->
  exists s4 t5, nvshmemi_team_create_internal_teams e alloc s3 a = Ret (NVSHMEMX_SUCCESS, s4) /\
    heap s4 = <[a := t5]> (heap s) /\ same_team t t5 /\ team_idx t5 = team_idx t4 /\
    avail s4 = avail s3 /\ pool s4 = pool s3 /\ clock s4 = clock s3 /\ team_ret_val s4 = team_ret_val s3.
Proof.
  intros H3 S4. assert (0 <= npes e) as Hn by (destruct He; lia). unfold nvshmemi_team_create_internal_teams.
  rewrite (deref_some a t4 s3) by (by rewrite H3, lookup_insert_eq). rewrite outcome_bind_ret.
  destruct (is_team_node t4 || is_team_same_mype_node t4); [by exists s3, t4|].
  rewrite (deref_some (team_nodes e) node s3) by (rewrite H3, lookup_insert_ne by congruence; done).
  rewrite outcome_bind_ret, (deref_some (team_same_mype e) same s3) by (rewrite H3, lookup_insert_ne by congruence; done).
  destruct (same_team_wf _ _ _ S4 Wt) as [W4 M4].
  rewrite outcome_bind_ret, (is_subset_spec (npes e) t4 node W4 Wnode Hn).
  rewrite (bool_decide_eq_true_2 (members t4 ⊆ members node)) by (by rewrite M4). rewrite outcome_bind_ret.
  set (t4' := set_flags _ _ _ t4). destruct (same_team_wf t4 t4' (npes e)) as [W4' M4']; [done|done|].
  rewrite (is_subset_spec (npes e) t4' same W4' Wsame Hn), outcome_bind_ret.
  eexists _, _. cbn [is_team_node set_flags]. unfold t4'. rewrite !orb_true_r. cbn [orb].
  split; [done|]. cbn [heap store set_heap]. rewrite H3, insert_insert_eq. done.
Qed.

Lemma pool_ok_store s0 b u u' : pool_ok e s0 -> heap s0 !! b = Some u -> team_idx u' = team_idx u ->
  pool_ok e (store b u' s0).
Proof.
  intros [P1 P2 P3 P4] Hb Hi. constructor; cbn [avail pool heap store set_heap]; [done|done|done|].
  intros i c Ec Hc. destruct (P4 i c Ec Hc) as (v & Ev & Hv). destruct (decide (c = b)) as [->|Hne].
  - rewrite Hb in Ev. injection Ev as <-. exists u'. by rewrite lookup_insert_eq, Hi.
  - exists v. by rewrite lookup_insert_ne.
Qed.
Lemma pool_ok_same s0 s1 : pool_ok e s0 -> avail s1 = avail s0 -> pool s1 = pool s0 -> heap s1 = heap s0 -> pool_ok e s1.
Proof. intros [P1 P2 P3 P4] E1 E2 E3. constructor; rewrite ?E1, ?E2, ?E3; done. Qed.

Lemma allocate_resources_spec fuel : exists idx s' t',
  nvshmemi_team_allocate_resources e (S fuel) s a p = Ret (NVSHMEMX_SUCCESS, s') /\
  heap s' = <[a := t']> (heap s) /\ same_team t t' /\ team_idx t' = idx /\
  at_ (pool s) idx = Some 0 /\ pool s' = <[Z.to_nat idx := a]> (pool s) /\
  pool_ok e s' /\ clock s' = clock s + 1 /\ team_ret_val s' = team_ret_val s.
Proof.
  cbn [nvshmemi_team_allocate_resources]. rewrite (deref_some a t s Ha), outcome_bind_ret.
  rewrite (bool_decide_eq_false_2 (p = 0)) by done. rewrite (deref_some p parent s Hpar), !outcome_bind_ret.
  set (t1 := set_flags _ _ _ (set_counters _ _)). set (s1 := store a t1 s).
  assert (pool_ok e s1) as Hp1 by (by apply (pool_ok_store s a t)).
  assert (heap s1 !! a = Some t1) as Ha1 by apply lookup_insert_eq.
  unfold nvshmemi_team_set_team_idx. rewrite (deref_some a t1 s1 Ha1), outcome_bind_ret.
  rewrite (bool_decide_eq_false_2 (stride t1 = _)) by done.
  destruct (set_team_idx_v1_spec e He s1 a p t1 parent Hp1 (fun i => Hself _ _ _ _ _ i) Ha1)
    as [(idx & s2 & E & Htk & C2 & _ & _ & _)|[_ Hnone]];
    [by cbn; rewrite lookup_insert_ne|done| |destruct Hfree as [i Hi]; by rewrite Hnone in Hi].
  rewrite E, outcome_bind_ret. cbv zeta. rewrite bool_decide_eq_false_2 by (intros H; by apply H).
  pose proof (took_ok e s1 s2 a idx _ Hp1 Htk Hnz Hfresh) as Hp2. destruct Htk as [K1 K2 K3 K4 K5 K6 K7].
  cbn [heap s1 store set_heap] in K3. rewrite insert_insert_eq in K3. set (t2 := set_idx idx t1) in *.
  rewrite (deref_some a t2 s2) by (by rewrite K3, lookup_insert_eq). rewrite outcome_bind_ret.
  rewrite (deref_some (team_shared e) shared s2) by (rewrite K3, lookup_insert_ne by congruence; done). rewrite outcome_bind_ret.
  assert (0 <= npes e) as Hn by (destruct He; lia).
  assert (same_team t t2) as S2 by done. destruct (same_team_wf _ _ _ S2 Wt) as [W2 M2].
  rewrite (is_subset_spec (npes e) t2 shared W2 Wshared Hn), outcome_bind_ret.
  set (t3 := set_flags _ _ _ t2).
  destruct (neighbors_total (size t3) (members t3) (my_pe t3)) as [r Er];
    [apply (wf_size _ _ W2)|by apply (length_members (npes e) t2)|done|].
  rewrite Er, outcome_bind_ret. set (t4 := set_recexch r t3).
  destruct (create_internal_spec (nvshmemi_team_allocate_resources e fuel) (store a t4 s2) t4)
    as (s4 & t5 & E5 & H4 & S5 & I5 & A4 & P4 & C4 & R4); [cbn; by rewrite K3, insert_insert_eq|done|].
  rewrite E5, outcome_bind_ret. exists idx, s4, t5. split; [done|]. split; [done|]. split; [done|].
  split; [by rewrite I5|]. split; [done|]. split; [by rewrite P4|]. split; [|rewrite C4, R4; split; [exact C2|exact K7]].
  apply (pool_ok_same (store a t5 s2)); [|done|done|by cbn; rewrite H4, K3, insert_insert_eq].
  apply (pool_ok_store s2 a t2); [done|by rewrite K3, lookup_insert_eq|by rewrite I5].
Qed.
End Resources.

(** What a PE knows of its predefined teams. *)
Record predefined_ok (e : tenv) (s : tstate) (shared node same : team) : Prop := {
  pd_shared : heap s !! team_shared e = Some shared;
  pd_node : heap s !! team_nodes e = Some node;
  pd_same : heap s !! team_same_mype e = Some same;
  pd_wf : team_wf (npes e) shared /\ team_wf (npes e) node /\ team_wf (npes e) same }.

(** A team whose members are [start + i * stride]. *)
Definition strided (t : team) : Prop :=
  0 < stride t /\ forall i, 0 <= i < size t -> at_ (pe_mapping t) i = Some (start t + i * stride t).

Lemma strided_member e t i : team_wf (npes e) t -> strided t -> 0 <= i < size t -> 0 <= npes e ->
  members t !! Z.to_nat i = Some (start t + i * stride t) /\ 0 <= start t + i * stride t < npes e.
Proof.
  intros W [_ H] Hi Hn. pose proof (members_lookup _ _ _ _ W (H i Hi) Hi) as E. split; [done|].
  by destruct (members_at _ _ _ _ W Hn E) as (_ & _ & ? & _).
Qed.

(** A regular slice of a strided team is the progression from its first PE. *)
Lemma strided_slice e parent PE_start PE_stride PE_size i :
  team_wf (npes e) parent -> 0 <= npes e -> strided parent ->
  0 <= PE_start -> 1 <= PE_stride -> PE_start + (PE_size - 1) * PE_stride < size parent -> 0 <= i < PE_size ->
  let g := start parent + PE_start * stride parent + i * (stride parent * PE_stride) in
  0 <= PE_start + i * PE_stride < size parent /\
  members parent !! Z.to_nat (PE_start + i * PE_stride) = Some g /\ 0 <= g < npes e.
Proof.
  intros W Hn Hst H1 H2 H3 Hi g. assert (0 <= PE_start + i * PE_stride < size parent) as Hr by nia.
  split; [done|]. replace g with (start parent + (PE_start + i * PE_stride) * stride parent) by (unfold g; ring).
  by apply strided_member.
Qed.

(** A team stored at an address no slot points to leaves the invariant alone. *)
Lemma pool_ok_fresh e s s' a t :
  pool_ok e s -> heap s !! a = None -> avail s' = avail s -> pool s' = pool s -> heap s' = <[a := t]> (heap s) ->
  pool_ok e s'.
Proof.
  intros [P1 P2 P3 P4] Ha E1 E2 E3. constructor; rewrite ?E1, ?E2, ?E3; try done. intros i b Eb Hb.
  destruct (P4 i b Eb Hb) as (u & Eu & Hu). exists u. rewrite lookup_insert_ne; [done|]. intros <-. by rewrite Ha in Eu.
Qed.

(** The label [out] when every member has succeeded. *)
Lemma split_out_success e s a h :
  (forall c, max_reduce e c NVSHMEMX_SUCCESS = NVSHMEMX_SUCCESS) -> team_ret_val s = NVSHMEMX_SUCCESS ->
  split_out e s a h = Ret (NVSHMEMX_SUCCESS, h, tick (set_ret_val_reduced NVSHMEMX_SUCCESS s)).
Proof.
  intros Hmax Hr. unfold split_out, nvshmemi_team_check_collective_error. rewrite Hr, Hmax.
  cbn [team_ret_val_reduced tick set_ret_val_reduced]. by rewrite bool_decide_eq_false_2 by (intros H'; by apply H').
Qed.

(** The split up to the allocation of resources: the new team is at the next
    address, with its geometry and its map. *)
Lemma split_strided_enters e s p parent PE_start PE_stride PE_size cfg mask me :
  env_ok e -> malloc_ok e (next_addr s) = true -> heap s !! p = Some parent ->
  team_wf (npes e) parent -> strided parent ->
  0 <= PE_start -> 1 <= PE_stride -> 1 <= PE_size -> PE_start + (PE_size - 1) * PE_stride < size parent ->
  0 <= me < PE_size -> members parent !! Z.to_nat (PE_start + me * PE_stride) = Some (mype e) ->
  exists s2 t2, let a := next_addr s in
    heap s2 = <[a := t2]> (heap s) /\ pool s2 = pool s /\ avail s2 = avail s /\ clock s2 = clock s /\
    team_ret_val s2 = NVSHMEMX_SUCCESS /\ team_wf (npes e) t2 /\ size t2 = PE_size /\ my_pe t2 = me /\
    start t2 = start parent + PE_start * stride parent /\ stride t2 = stride parent * PE_stride /\
    (forall i, 0 <= i < PE_size ->
       members t2 !! Z.to_nat i = members parent !! Z.to_nat (PE_start + i * PE_stride)) /\
    nvshmemi_team_split_strided e s p PE_start PE_stride PE_size cfg mask =
      ('(st, s) ← nvshmemi_team_allocate_resources e resources_fuel s2 a p;
       if bool_decide (st <> 0) then split_out e (set_ret_val NVSHMEMX_ERROR_INTERNAL s) a NVSHMEM_TEAM_INVALID
       else t ← deref s a; split_out e s a (team_idx t)).
Proof.
  intros He Hm Hpar Wp Hst H1 H2 H3 H4 Hme Emype. assert (0 <= npes e) as Hn by (destruct He; lia).
  set (gs := start parent + PE_start * stride parent). set (gd := stride parent * PE_stride).
  pose proof (fun i => strided_slice e parent PE_start PE_stride PE_size i Wp Hn Hst H1 H2 H4) as Hmem. cbv zeta in Hmem.
  fold gs in Hmem. fold gd in Hmem. destruct Hst as [Hsd Hat].
  assert (0 < gd) by (unfold gd; nia).
  unfold nvshmemi_team_split_strided. rewrite (deref_some p parent s Hpar), outcome_bind_ret. cbv zeta.
  set (s0 := set_ret_val_reduced _ (set_ret_val _ s)).
  destruct (Hmem 0 ltac:(lia)) as (? & _ & G0). destruct (Hmem (PE_size - 1) ltac:(lia)) as (? & _ & G1).
  rewrite (bool_decide_eq_false_2 (PE_start < 0 \/ _)) by nia.
  rewrite (bool_decide_eq_false_2 (stride parent = _)) by (unfold TEAM_SCALAR_INVALID; lia).
  unfold nvshmemi_team_pe. rewrite (at_arr_get _ _ _ (Hat PE_start ltac:(lia))), outcome_bind_ret. fold gs. fold gd.
  rewrite (bool_decide_eq_false_2 (gs >= npes e \/ _)) by lia.
  assert (mype e = gs + me * gd) as Em by (destruct (Hmem me Hme) as (_ & E & _); rewrite E in Emype; by injection Emype).
  rewrite (active_set_spec gs gd PE_size me (mype e)), outcome_bind_ret, bool_decide_eq_true_2 by (done || lia).
  unfold nvshmemi_team_allocate_team. cbn [next_addr s0 set_ret_val_reduced set_ret_val]. rewrite Hm, outcome_bind_ret.
  set (a := next_addr s) in *. set (s1 := set_next _ _).
  rewrite (deref_some a (new_team PE_size (npes e)) s1), outcome_bind_ret by apply lookup_insert_eq.
  set (t1 := match cfg with Some c => _ | None => _ end).
  assert (size t1 = PE_size /\ my_pe t1 = me /\ start t1 = gs /\ stride t1 = gd /\
          pe_mapping t1 = replicate (Z.to_nat (PE_size + npes e)) (-1)) as (T1 & T2 & T3 & T4 & T5) by (by destruct cfg).
  destruct (fill_strided_wf (npes e) PE_size gs gd t1) as (l & El & Wl & Ml); try done;
    [lia|intros j Hj; by destruct (Hmem j Hj) as (_ & _ & ?)|].
  rewrite El, outcome_bind_ret. exists (store a (set_pe_mapping l t1) s1), (set_pe_mapping l t1).
  split; [cbn; by rewrite insert_insert_eq|]. split_and!; try done.
  intros i Hi. rewrite (Ml i Hi). by destruct (Hmem i Hi) as (_ & -> & _).
Qed.

(** C25: a strided split of a strided parent, called by a PE of the new team
    whose members all lie on the caller's node: when an index is free on every
    member and no member fails, the call returns success and a handle of a new
    well-formed team whose [i]-th member is the parent's member
    [PE_start + i * PE_stride]; the caller's index in it is right, the handle's
    slot was free, and the pool invariant holds. *)
Theorem split_strided_correct e s p parent shared node same PE_start PE_stride PE_size cfg mask me :
  env_ok e -> reduce_includes_self e -> pool_ok e s -> addr_ok s -> predefined_ok e s shared node same ->
  malloc_ok e (next_addr s) = true -> p <> 0 -> heap s !! p = Some parent ->
  team_wf (npes e) parent -> strided parent ->
  0 <= PE_start -> 1 <= PE_stride -> 1 <= PE_size -> PE_start + (PE_size - 1) * PE_stride < size parent ->
  0 <= me < PE_size -> members parent !! Z.to_nat (PE_start + me * PE_stride) = Some (mype e) ->
  (forall i g, 0 <= i < PE_size -> members parent !! Z.to_nat (PE_start + i * PE_stride) = Some g -> g ∈ members node) ->
  (exists i, bit (and_reduce e (clock s) (start parent + PE_start * stride parent) (stride parent * PE_stride)
                             PE_size (avail s)) i = true) ->
  (forall c, max_reduce e c NVSHMEMX_SUCCESS = NVSHMEMX_SUCCESS) ->
  exists h s' t, nvshmemi_team_split_strided e s p PE_start PE_stride PE_size cfg mask = Ret (NVSHMEMX_SUCCESS, h, s') /\
    at_ (pool s) h = Some 0 /\ at_ (pool s') h = Some (next_addr s) /\ heap s' !! next_addr s = Some t /\
    team_idx t = h /\ team_wf (npes e) t /\ size t = PE_size /\ my_pe t = me /\
    (forall i, 0 <= i < PE_size ->
       members t !! Z.to_nat i = members parent !! Z.to_nat (PE_start + i * PE_stride)) /\
    pool_ok e s'.
Proof.
  intros He Hself Hp [Hpos Hfr] [Ds Dn Dm (Ws & Wn & Wm)] Hm Hp0 Hpar Wp Hst H1 H2 H3 H4 Hme Emype Hnode Hfree Hmax.
  assert (0 <= npes e) as Hn by (destruct He; lia).
  assert (forall x u, heap s !! x = Some u -> x <> next_addr s) as Hold.
  { intros x u E ->. by rewrite Hfr in E. }
  destruct (split_strided_enters e s p parent PE_start PE_stride PE_size cfg mask me)
    as (s2 & t2 & Hh & Q1 & Q2 & Q3 & Q4 & Wl & T1 & T2 & T3 & T4 & Ml & ->); try done.
  set (a := next_addr s) in *.
  assert (forall i, at_ (pool s) i <> Some a) as Hnot.
  { intros i E. destruct (po_used _ _ Hp i a E ltac:(lia)) as (u & Eu & _). by apply Hold in Eu. }
  assert (pool_ok e s2) as Hp2 by (eapply pool_ok_fresh; eauto; apply Hfr; lia).
  destruct (allocate_resources_spec e s2 a p t2 parent shared node same) with (fuel := 1%nat)
    as (h & s3 & t3 & E3 & H3' & S3 & I3 & F3 & P3 & Hp3 & C3 & R3); rewrite ?Q1; try done;
    try (rewrite Hh, lookup_insert_ne; [done|apply not_eq_sym; by eapply Hold]); try (by eapply Hold);
    try (by rewrite Hh, lookup_insert_eq); try lia.
  { intros g [k Ek]%list_elem_of_lookup. destruct (members_at _ _ _ _ Wl Hn Ek) as (_ & Hk & _).
    rewrite T1 in Hk. apply (Hnode (Z.of_nat k)); [done|]. by rewrite <- Ml, Nat2Z.id. }
  { rewrite T4. destruct Hst as [Hsd _]. unfold TEAM_SCALAR_INVALID. nia. }
  { by rewrite T1, T3, T4, Q2, Q3. }
  rewrite Q1 in F3, P3. change resources_fuel with 2%nat. rewrite E3, outcome_bind_ret.
  rewrite bool_decide_eq_false_2 by (intros H'; by apply H').
  rewrite (deref_some a t3 s3), outcome_bind_ret by (by rewrite H3', lookup_insert_eq).
  rewrite split_out_success by (done || by rewrite R3).
  eexists (team_idx t3), _, t3. split; [done|]. rewrite I3. destruct (same_team_wf _ _ _ S3 Wl) as [W3 M3].
  split; [done|]. split; [cbn; rewrite P3, at_insert by (by apply at_range in F3); by rewrite bool_decide_eq_true_2|].
  split; [cbn; by rewrite H3', lookup_insert_eq|]. split; [done|]. split; [done|].
  destruct S3 as (S31 & _ & _ & S34 & _). rewrite S34, S31. split; [done|]. split; [done|].
  split; [|destruct Hp3; by constructor]. intros i Hi. by rewrite M3, (Ml i Hi).
Qed.
Lemma split_strided_correct_witness : exists h s' t,
  nvshmemi_team_split_strided demo_env demo_state 100 0 1 2 None 0 = Ret (NVSHMEMX_SUCCESS, h, s') /\
  at_ (pool demo_state) h = Some 0 /\ at_ (pool s') h = Some 300 /\ heap s' !! 300 = Some t /\
  team_idx t = h /\ team_wf 2 t /\ size t = 2 /\ my_pe t = 0 /\
  (forall i, 0 <= i < 2 -> members t !! Z.to_nat i = members world2 !! Z.to_nat (0 + i * 1)) /\
  pool_ok demo_env s'.
Proof.
  assert (team_wf 2 world2) as W by (apply team_wfb_sound; reflexivity).
  apply (split_strided_correct demo_env demo_state 100 world2 world2 world2 world2 0 1 2 None 0 0).
  - exact demo_env_ok.
  - intros c st sd n bytes i H. exact H.
  - exact demo_pool_ok.
  - constructor; [cbn; lia|]. intros a Ha. cbn in Ha. unfold demo_state. cbn [heap].
    rewrite lookup_insert_ne by lia. apply lookup_insert_None. split; [reflexivity|lia].
  - constructor; [reflexivity|reflexivity|reflexivity|]. split; [exact W|split; exact W].
  - reflexivity.
  - discriminate.
  - reflexivity.
  - exact W.
  - split; [cbn; lia|]. cbn. intros i Hi. assert (i = 0 \/ i = 1) as [-> | ->] by lia; reflexivity.
  - lia.
  - lia.
  - lia.
  - cbn. lia.
  - lia.
  - reflexivity.
  - intros i g _ E. apply list_elem_of_lookup_2 in E. exact E.
  - exists 6. reflexivity.
  - intros c. reflexivity.
Defined.

(** ** Calls whose result is not the intended one *)
(** A split with an invalid start, stride or size reports success: the error
    is stored in the word that the agreement on the status then overwrites. *)
Theorem split_invalid_arguments_succeed e s p parent PE_start PE_stride PE_size cfg mask :
  heap s !! p = Some parent ->
  PE_start < 0 \/ PE_start >= size parent \/ PE_size <= 0 \/ PE_size > size parent \/ PE_stride < 1 ->
  max_reduce e (clock s) NVSHMEMX_SUCCESS = NVSHMEMX_SUCCESS ->
  exists s', nvshmemi_team_split_strided e s p PE_start PE_stride PE_size cfg mask =
    Ret (NVSHMEMX_SUCCESS, NVSHMEM_TEAM_INVALID, s').
Proof.
  intros Hp Hbad Hmax. unfold nvshmemi_team_split_strided. rewrite (deref_some p parent s Hp), outcome_bind_ret.
  cbv zeta. rewrite (bool_decide_eq_true_2 (PE_start < 0 \/ _)) by done.
  unfold split_out, nvshmemi_team_check_collective_error. cbn -[bool_decide]. rewrite Hmax.
  by eexists.
Qed.
Lemma split_invalid_arguments_succeed_witness : exists s',
  nvshmemi_team_split_strided demo_env demo_state 100 0 0 2 None 0 = Ret (NVSHMEMX_SUCCESS, NVSHMEM_TEAM_INVALID, s').
Proof.
  apply (split_invalid_arguments_succeed demo_env demo_state 100 world2); [reflexivity|right; right; right; right; lia|reflexivity].
Defined.

(** A split of a team without stride, on a PE that is not in the new team
    (PE 1, for a split that takes index 0 only): no error is found, and the
    handle is read through a null pointer. *)
Theorem split_non_member_crashes :
  let e := reduce_env 1 [192] in
  let s := store 100 (set_stride TEAM_SCALAR_INVALID world2) demo_state in
  find_me e 1 (set_stride TEAM_SCALAR_INVALID world2) 0 1 0 = Ret None /\
  nvshmemi_team_split_strided e s 100 0 1 1
    (Some {| cfg_version := NVSHMEMI_TEAM_CONFIG_VERSION_2_IDENTIFIER; cfg_num_contexts := 0; cfg_uniqueid := 7 |}) 0
  = Fail FUndef.
Proof. split; vm_compute; reflexivity. Qed.

(** The search of a split from a parent without stride adds the start twice:
    asked for index 1 alone of the parent [3; 1; 0; 2], PE 1 (index 1) does not
    find itself and PE 0 (index 2) does. *)
Theorem non_strided_split_wrong_pe :
  let parent := set_pe_mapping [3; 1; 0; 2; 2; 1; 3; 0] (set_geometry 1 3 (-1) 4 (new_team 4 4)) in
  find_me (reduce_env 1 []) 1 parent 1 1 1 = Ret None /\ find_me (reduce_env 0 []) 1 parent 1 1 1 = Ret (Some 1).
Proof. split; vm_compute; reflexivity. Qed.

(** Destroying a predefined team is reported as an error and carried out:
    the world team's index is free afterwards. *)
Theorem destroy_world_frees_index :
  exists s', nvshmem_team_destroy demo_env demo_state 0 = Ret s' /\ bit (avail s') 0 = true /\ at_ (pool s') 0 = Some 0.
Proof. eexists. split; [vm_compute; reflexivity|]. split; reflexivity. Qed.

(** The stride of a team of one PE is computed from the backward half of its
    map; for PE 0 it is 0, and a split of that team divides by zero. *)
Theorem single_pe_stride_zero :
  nvshmemi_team_get_stride (set_pe_mapping [0; 0; -1] (set_geometry 0 (-1) (-1) 1 (new_team 1 2))) = Ret 0 /\
  forall g, nvshmemi_pe_in_active_set g 0 0 1 = Fail FUndef.
Proof. split; [vm_compute; reflexivity|]. intros g. reflexivity. Qed.
End Split.
