(* ===== verification/HeapState.v ===== *)
(** * The symmetric heap: its state and the calls it makes

    Data of the classes of src/src/include/internal/host/nvshmemi_symmetric_heap.hpp:
    the members of [nvshmemi_symmetric_heap] and of the dynamic (VMM) heap, the
    constants they use, and the interface to what lies below: CUDA, the bootstrap,
    the transports.  A call of one of these is recorded in a log; the status it
    returns and the value it stores are functions of the log and of the call, so
    a theorem that holds for every [henv] holds whatever they answer.

    Memory handles are opaque non-zero words, 0 being the all-zero handle that
    [is_mem_handle_null] recognises; a null pointer is address 0. *)
From stdpp Require Import base gmap list.
From Stdlib Require Import ZArith Lia.
From S2P Require Import Prelude Mspace.
Import Mspace.

Module HeapState.

(** ** Constants *)
Definition NVSHMEMI_MAX_HANDLE_LENGTH : Z := 2147483648.
Definition NVSHMEMI_DMA_BUF_MAX_LENGTH : Z := 0x100000000.
Definition NVSHMEM_TRANSPORT_CAP_MAP : Z := 1.
Definition NVSHMEM_TRANSPORT_CAP_MAP_GPU_ST : Z := Z.shiftl 1 1.
Definition NVSHMEM_TRANSPORT_CAP_MAP_GPU_LD : Z := Z.shiftl 1 2.
Definition NVSHMEM_TRANSPORT_CAP_MAP_GPU_ATOMICS : Z := Z.shiftl 1 3.
Definition CU_MEMORYTYPE_HOST : Z := 1.
Definition CU_MEMORYTYPE_DEVICE : Z := 2.

(** The allocation types [NVSHMEMX_MALLOC], [NVSHMEMX_CALLOC], [NVSHMEMX_ALIGN]. *)
Inductive alloc_type := NVSHMEMX_MALLOC | NVSHMEMX_CALLOC | NVSHMEMX_ALIGN | NVSHMEMX_ALLOC_MAX.

(** The three concrete classes. *)
Inductive heap_kind := sysmem_static_shm | vidmem_static_pinned | vidmem_dynamic_vmm.
#[export] Instance heap_kind_eq_dec : EqDecision heap_kind.
Proof. solve_decision. Defined.

(** ** Members *)

(** Set by [reserve_heap] and constant afterwards. *)
Record geometry := MkGeo {
  mem_granularity_ : Z; log2_mem_granularity_ : Z; heap_size_ : Z; reserved_heap_size_ : Z;
  global_heap_base_ : Z; heap_base_ : Z; mmap_base_ : Z
}.

(** The tables of memory handles.  A row of [remote_handles_] holds the handle of
    every PE and transport for one registered chunk; an entry of
    [idx_in_handles_] or [idx_in_mmap_handles_] is (row, chunk start, chunk size)
    for one granule of the heap. *)
Abbreviation idx_entry := (Z * Z * Z)%type.
Record handle_tables := MkTab {
  remote_handles_ : list (list Z); p2p_handles_ : list (list Z);
  remote_mmap_handles_ : list (list Z);
  idx_in_handles_ : list idx_entry; idx_in_mmap_handles_ : gmap Z idx_entry;
  heap_handle_cache_ : Z; gather_mem_handles_done_ : bool
}.

(** An element of [cumem_handles_]: handle, multicast offset, size, released
    (the offset into the handle is 0 in every entry). *)
Record cumem := MkCumem { cm_handle : Z; cm_mc_offset : Z; cm_size : Z; cm_released : bool }.

(** The members of the VMM heap that track physical memory and user buffers. *)
Record vmm_state := MkVmm {
  cumem_handles_ : list cumem; mmap_handle_idx_in_cumem_handles_ : gmap Z Z;
  alias_va_map_ : gmap Z Z; egm_map_ : gmap Z Z
}.

Record heap := MkHeap {
  geo : geometry; tab : handle_tables; vmm : vmm_state;
  heap_mspace_ : mspace; mmap_mspace_ : mspace;
  physical_internal_heap_size_ : Z;
  peer_heap_base_remote_ : list Z; peer_heap_base_p2p_ : list Z
}.

(** The object as its constructor leaves it. *)
Definition heap0 : heap :=
  MkHeap (MkGeo 0 0 0 0 0 0 0) (MkTab [] [] [] [] ∅ 0 false) (MkVmm [] ∅ ∅ ∅)
         mspace_empty mspace_empty 0 [] [].

Definition with_geo (g : geometry) (h : heap) : heap :=
  MkHeap g (tab h) (vmm h) (heap_mspace_ h) (mmap_mspace_ h)
         (physical_internal_heap_size_ h) (peer_heap_base_remote_ h) (peer_heap_base_p2p_ h).
Definition with_tab (t : handle_tables) (h : heap) : heap :=
  MkHeap (geo h) t (vmm h) (heap_mspace_ h) (mmap_mspace_ h)
         (physical_internal_heap_size_ h) (peer_heap_base_remote_ h) (peer_heap_base_p2p_ h).
Definition with_vmm (v : vmm_state) (h : heap) : heap :=
  MkHeap (geo h) (tab h) v (heap_mspace_ h) (mmap_mspace_ h)
         (physical_internal_heap_size_ h) (peer_heap_base_remote_ h) (peer_heap_base_p2p_ h).
Definition with_mspace (m : mspace) (h : heap) : heap :=
  MkHeap (geo h) (tab h) (vmm h) m (mmap_mspace_ h)
         (physical_internal_heap_size_ h) (peer_heap_base_remote_ h) (peer_heap_base_p2p_ h).
Definition with_mmap_mspace (m : mspace) (h : heap) : heap :=
  MkHeap (geo h) (tab h) (vmm h) (heap_mspace_ h) m
         (physical_internal_heap_size_ h) (peer_heap_base_remote_ h) (peer_heap_base_p2p_ h).
Definition with_physical (n : Z) (h : heap) : heap :=
  MkHeap (geo h) (tab h) (vmm h) (heap_mspace_ h) (mmap_mspace_ h)
         n (peer_heap_base_remote_ h) (peer_heap_base_p2p_ h).
Definition with_peers (r p : list Z) (h : heap) : heap :=
  MkHeap (geo h) (tab h) (vmm h) (heap_mspace_ h) (mmap_mspace_ h)
         (physical_internal_heap_size_ h) r p.

(** ** Calls below the heap *)
Inductive call :=
| Allgather (mine : list Z) | Barrier
| CuMemCreate (size : Z) | CuMemRetainAllocationHandle (ptr : Z) | CuMemRelease (h : Z)
| CuMemMap (va size h : Z) | CuMemSetAccess (va size : Z) | CuMemUnmap (va size : Z)
| CuMemAddressReserve (size align : Z) | CuMemAddressFree (va size : Z)
| CuMemGetAllocationGranularity | CuMemExportToShareableHandle (h : Z)
| CuMemImportFromShareableHandle (h : Z) | CuCtxGetDevice | CuDeviceGet
| CuDeviceGetAttribute | CuPointerGetAttribute (attr ptr : Z) | CuPointerSetAttribute (ptr : Z)
| CuMemGetAccess (ptr : Z) | CuMemGetAllocationProperties (h : Z)
| CudaMalloc (size : Z) | CudaFree (ptr : Z) | CudaIpcGetMemHandle (ptr : Z)
| CudaIpcOpenMemHandle (h : Z) | CudaIpcCloseMemHandle (ptr : Z)
| CudaHostRegister (ptr size : Z) | CudaHostGetDevicePointer (ptr : Z) | CudaHostUnregister
| ShmCreate (size : Z) | ShmOpen (size : Z) | ShmClose
| IpcOpen (peer : Z) | IpcSend (fd peer : Z) | IpcRecv (peer : Z) | IpcClose (peer : Z)
| GetMemHandle (t buf size : Z) | ReleaseMemHandle (t h : Z)
| AddDeviceRemoteMemHandles (t : Z) (handles : list Z) (heap_offset size : Z)
| UpdateDeviceState | NvlsBind (mc h mc_offset size : Z) | NvlsUnbind (mc mc_offset size : Z)
| NvlsMap (mc size mmap_offset mc_offset : Z) | NvlsUnmap (mc_offset size : Z)
| DestroyInstances | BarrierAll.
Definition calls := list call.

(** A team of the pool that supports NVLS: does it own its resource, and the
    multicast handles of that resource. *)
Record nvls_team := MkNvlsTeam { nt_owner : bool; nt_handles : list Z }.

(** The host state ([nvshmemi_state_t], options, the NVLS teams) the heap reads,
    and the answers. *)
Record henv := {
  kind : heap_kind;
  npes : Z; mype : Z; npes_node : Z; mype_node : Z; device_id : Z;
  num_initialized_transports : Z; transport_bitmap : Z; transport_map : Z -> Z -> Z;
  is_get_mem : Z -> bool; is_release_mem : Z -> bool; is_add_device_remote_mem : Z -> bool;
  is_platform_nvls : bool; nvls_teams : list nvls_team; enable_rail_opt : bool;
  mem_handle_type : Z; is_ipc : bool; proc_map : list (Z * Z); my_pid : Z;
  nvl_connected_pes : Z;
  ENABLE_ERROR_CHECKS : bool; ENABLE_ALIGNED_MALLOC : bool;
  CUMEM_GRANULARITY : Z; SYMMETRIC_SIZE : Z; MAX_MEMORY_PER_GPU : Z;
  G_BUF_SIZE : Z; G_COALESCING_BUF_SIZE : Z; teams_mem_requirement : Z;
  init_status : Z; calloc_ok : bool;
  status : calls -> call -> Z; value : calls -> call -> Z;
  gathered : calls -> list Z -> list (list Z)
}.

(** The heap object, the capability words [transports[j]->cap[pe]], the log. *)
Record st := MkSt { obj : heap; caps : list (list Z); log : calls }.

(** ** State, faults and a log *)
Definition H (A : Type) : Type := st -> outcome (A * st).
#[export] Instance H_ret : MRet H := fun A a s => Ret (a, s).
#[export] Instance H_bind : MBind H := fun A B k m s =>
  match m s with Ret (a, s) => k a s | Fail f => Fail f end.

Definition fail {A} (f : fault) : H A := fun _ => Fail f.
Definition lift {A} (o : outcome A) : H A := fun s =>
  match o with Ret a => Ret (a, s) | Fail f => Fail f end.
Definition get_obj : H heap := fun s => Ret (obj s, s).
Definition upd (f : heap -> heap) : H unit := fun s => Ret (tt, MkSt (f (obj s)) (caps s) (log s)).
Definition upd_tab (f : handle_tables -> handle_tables) : H unit :=
  upd (fun h => with_tab (f (tab h)) h).
Definition upd_vmm (f : vmm_state -> vmm_state) : H unit := upd (fun h => with_vmm (f (vmm h)) h).
Definition get_cap (j pe : Z) : H Z := fun s =>
  Ret (default 0 (caps s !! Z.to_nat j ≫= fun l => l !! Z.to_nat pe), s).
Definition clear_cap (j pe mask : Z) : H unit := fun s =>
  Ret (tt, MkSt (obj s) (alter (alter (fun c => Z.land c (Z.lnot mask)) (Z.to_nat pe)) (Z.to_nat j) (caps s))
             (log s)).

(** [NVSHMEMI_NZ_ERROR_JMP]: a non-zero status becomes [err] and ends the
    function; otherwise it goes on. *)
Definition or_jmp (m : H Z) (err : Z) (k : H Z) : H Z :=
  s ← m; if bool_decide (s <> 0) then mret err else k.
Notation "m '?!' err ;; k" := (or_jmp m err k)
  (at level 90, err at level 9, k at level 200, right associativity) : nv_scope.

(** [for (i = from; ...; i++)] with a body that may jump out with a status. *)
Fixpoint for_each (n : nat) (i : Z) (body : Z -> H Z) : H Z :=
  match n with
  | O => mret 0
  | S n => s ← body i; if bool_decide (s <> 0) then mret s else for_each n (i + 1) body
  end.

(** [NVSHMEMU_FOR_EACH_IF(i, count, condition, code)] *)
Definition for_each_if (count : Z) (cond : Z -> H bool) (code : Z -> H Z) : H Z :=
  for_each (Z.to_nat count) 0 (fun i => c ← cond i; if (c : bool) then code i else mret 0).

Section Calls.
Context (e : henv).

Definition do_call (c : call) : H Z := fun s =>
  Ret (status e (log s) c, MkSt (obj s) (caps s) (log s ++ [c])).
(** A call with an output parameter: status and the value stored. *)
Definition do_call_val (c : call) : H (Z * Z) := fun s =>
  Ret ((status e (log s) c, value e (log s) c), MkSt (obj s) (caps s) (log s ++ [c])).
(** [nvshmemi_boot_handle.allgather] of the words [mine]: the buffer it fills. *)
Definition allgather (mine : list Z) : H (Z * list Z) := fun s =>
  Ret ((status e (log s) (Allgather mine), concat (gathered e (log s) mine)),
       MkSt (obj s) (caps s) (log s ++ [Allgather mine])).

End Calls.

(** ** Total correctness of a run: it ends without a fault in a state and with
    a result that satisfy [Q] *)
Definition wp {A} (m : H A) (Q : A -> st -> Prop) (s : st) : Prop :=
  match m s with Ret (a, s) => Q a s | Fail _ => False end.
Arguments wp : simpl never.

Lemma wp_ret {A} (a : A) (Q : A -> st -> Prop) s : Q a s -> wp (mret a) Q s.
Proof. done. Qed.

Lemma wp_bind {A B} (m : H A) (k : A -> H B) Q s :
  wp m (fun a => wp (k a) Q) s -> wp (m ≫= k) Q s.
Proof. unfold wp, mbind, H_bind. by destruct (m s) as [[a s']|]. Qed.

Lemma wp_mono {A} (m : H A) (Q Q' : A -> st -> Prop) s :
  wp m Q s -> (forall a s, Q a s -> Q' a s) -> wp m Q' s.
Proof. unfold wp. destruct (m s) as [[a s']|]; auto. Qed.

Lemma wp_run {A} (m : H A) (Q : A -> st -> Prop) s :
  wp m Q s -> exists a s', m s = Ret (a, s') /\ Q a s'.
Proof. unfold wp. destruct (m s) as [[a s']|]; [eauto|done]. Qed.

Lemma wp_of_run {A} (m : H A) (Q : A -> st -> Prop) s a s' :
  m s = Ret (a, s') -> Q a s' -> wp m Q s.
Proof. intros E. unfold wp. by rewrite E. Qed.

(** The state a run ends in. *)
Definition final {A} (m : H A) (s : st) : st := match m s with Ret (_, s') => s' | Fail _ => s end.
Lemma wp_final {A} (m : H A) (Q : A -> st -> Prop) (P : st -> Prop) s :
  wp m Q s -> (forall a s', Q a s' -> P s') -> P (final m s).
Proof. unfold wp, final. destruct (m s) as [[a s']|]; [eauto|done]. Qed.

Lemma wp_get_obj (Q : heap -> st -> Prop) s : Q (obj s) s -> wp get_obj Q s.
Proof. done. Qed.

Lemma wp_upd f (Q : unit -> st -> Prop) s :
  Q tt (MkSt (f (obj s)) (caps s) (log s)) -> wp (upd f) Q s.
Proof. done. Qed.

Lemma wp_lift {A} (o : outcome A) a (Q : A -> st -> Prop) s :
  o = Ret a -> Q a s -> wp (lift o) Q s.
Proof. intros -> HQ. done. Qed.

Lemma wp_get_cap j pe (Q : Z -> st -> Prop) s :
  Q (default 0 (caps s !! Z.to_nat j ≫= fun l => l !! Z.to_nat pe)) s -> wp (get_cap j pe) Q s.
Proof. done. Qed.

Lemma wp_jmp m err k (Q : Z -> st -> Prop) s :
  wp m (fun a s => if bool_decide (a <> 0) then Q err s else wp k Q s) s -> wp (or_jmp m err k) Q s.
Proof.
  intros HW. apply wp_bind. eapply wp_mono; [exact HW|]. cbn. intros a s' ?. by case_bool_decide.
Qed.

(** A step that succeeds. *)
Lemma wp_jmp_ok m err k (Q : Z -> st -> Prop) s :
  wp m (fun a s => a = 0 /\ wp k Q s) s -> wp (or_jmp m err k) Q s.
Proof.
  intros HW. apply wp_jmp. eapply wp_mono; [exact HW|]. intros a s' [-> ?].
  by rewrite bool_decide_eq_false_2 by lia.
Qed.

(** Loop rule: an invariant indexed by the number of iterations done. *)
Lemma wp_for_each n i body (Inv : Z -> st -> Prop) s :
  Inv i s ->
  (forall j s, i <= j < i + Z.of_nat n -> Inv j s -> wp (body j) (fun r s => r = 0 /\ Inv (j + 1) s) s) ->
  wp (for_each n i body) (fun r s => r = 0 /\ Inv (i + Z.of_nat n) s) s.
Proof.
  revert i s. induction n as [|n IH]; intros i s HI Hb; cbn [for_each].
  - apply wp_ret. split; [done|]. by rewrite Z.add_0_r.
  - apply wp_bind. eapply wp_mono; [apply Hb; [lia|done]|]. cbn. intros r s' [-> HI'].
    rewrite bool_decide_eq_false_2 by lia.
    eapply wp_mono; [apply (IH (i + 1)); [done|]|].
    + intros j s'' Hj. apply Hb. lia.
    + cbn. intros r s'' [-> HI'']. split; [done|]. replace (i + Z.of_nat (S n)) with (i + 1 + Z.of_nat n) by lia. done.
Qed.

Section CallRules.
Context (e : henv) (OK : forall l c, status e l c = 0).

Lemma wp_do_call c (Q : Z -> st -> Prop) s :
  Q 0 (MkSt (obj s) (caps s) (log s ++ [c])) -> wp (do_call e c) Q s.
Proof. intros. unfold wp, do_call. by rewrite OK. Qed.

Lemma wp_do_call_val c (Q : Z * Z -> st -> Prop) s :
  Q (0, value e (log s) c) (MkSt (obj s) (caps s) (log s ++ [c])) -> wp (do_call_val e c) Q s.
Proof. intros. unfold wp, do_call_val. by rewrite OK. Qed.

Lemma wp_allgather mine (Q : Z * list Z -> st -> Prop) s :
  Q (0, concat (gathered e (log s) mine)) (MkSt (obj s) (caps s) (log s ++ [Allgather mine])) ->
  wp (allgather e mine) Q s.
Proof. intros. unfold wp, allgather. by rewrite OK. Qed.

End CallRules.

End HeapState.
