(* ===== verification/Heap.v ===== *)
(** * The symmetric heap: registration, growth, user buffers, allocation

    Models src/src/host/mem/mem_heap.cpp (the common class, the static heaps and
    the dynamic VMM heap), the lookups of
    src/src/include/internal/host/nvshmemi_symmetric_heap.hpp and the remote and
    p2p transport classes of src/src/host/mem/mem_transport.cpp they call.
    Virtual functions dispatch on [kind].  Functions return the [int] status of
    the code; [m ?! err ;; k] is the error-jump macro.  Sizes are [size_t], with
    the wrap-around written where a caller's argument can reach it; sums of
    addresses inside the reserved range do not wrap. *)
From stdpp Require Import base gmap list.
From Stdlib Require Import ZArith Lia.
From S2P Require Import Prelude Mspace HeapState.
Import Mspace HeapState.

Module Heap.

(** Unsigned division, undefined for a zero divisor. *)
Definition cdiv (a b : Z) : outcome Z := if bool_decide (b = 0) then Fail FUndef else Ret (a / b).

(** [nvshmemu_compute_log2]; a [size_t] is shifted to zero in 64 steps. *)
Fixpoint compute_log2 (fuel : nat) (tmp y : Z) : Z :=
  match fuel with
  | O => y
  | S fuel => if bool_decide (Z.shiftr tmp 1 <> 0) then compute_log2 fuel (Z.shiftr tmp 1) (y + 1) else y
  end.
Definition nvshmemu_compute_log2 (x : Z) : Z := compute_log2 64 x 0.

(** [NVSHMEMU_ROUND_UP(x, y)] on [size_t] *)
Definition NVSHMEMU_ROUND_UP (x y : Z) : outcome Z :=
  q ← cdiv (u64 (x + y - 1)) y; Ret (u64 (q * y)).

Definition is_bit_set (bmp i : Z) : bool := Z.testbit bmp i.

Section Ops.
Context (e : henv).

Definition gran : H Z := h ← get_obj; mret (mem_granularity_ (geo h)).

(** [mem_granularity_ * (NVSHMEMI_MAX_HANDLE_LENGTH / mem_granularity_)] *)
Definition adjusted_max_handle_len : H Z :=
  g ← gran; q ← lift (cdiv NVSHMEMI_MAX_HANDLE_LENGTH g); mret (g * q).

Definition is_cap_map (j pe : Z) : H bool :=
  c ← get_cap j pe; mret (bool_decide (Z.land c NVSHMEM_TRANSPORT_CAP_MAP <> 0)).

(** [peer_heap_base_p2p_[i] = v] and its read *)
Definition peer_set (i v : Z) : H unit :=
  h ← get_obj;
  if bool_decide (0 <= i < Z.of_nat (length (peer_heap_base_p2p_ h))) then
    upd (fun h => with_peers (peer_heap_base_remote_ h) (<[Z.to_nat i := v]> (peer_heap_base_p2p_ h)) h)
  else fail FUndef.
Definition peer_get (i : Z) : H Z := h ← get_obj; lift (arr_get (peer_heap_base_p2p_ h) i).

(** ** Checks and geometry *)

(** [is_symmetric]: the loop over the gathered values *)
Fixpoint check_symmetric (n : nat) (i value : Z) (scratch : list Z) : outcome Z :=
  match n with
  | O => Ret 0
  | S n =>
      x ← arr_get scratch i;
      if bool_decide (x = value) then check_symmetric n (i + 1) value scratch
      else Ret NVSHMEMX_ERROR_SYMMETRY
  end.
Definition is_symmetric (value : Z) : H Z :=
  if negb (ENABLE_ERROR_CHECKS e) then mret 0
  else if negb (calloc_ok e) then mret NVSHMEMX_ERROR_OUT_OF_MEMORY
  else
    '(s, scratch) ← allgather e [value];
    if bool_decide (s <> 0) then mret NVSHMEMX_ERROR_INTERNAL
    else lift (check_symmetric (Z.to_nat (npes e)) 0 value scratch).

(** [set_heap_size_attr]: heapextra, alignbytes, log2 of the granularity *)
Definition set_heap_size_attr (mem_granularity : Z) : outcome (Z * Z * Z) :=
  let alignbytes := NVSHMEMI_MALLOC_ALIGNMENT in
  _ ← cassert (bool_decide (Z.land mem_granularity (u64 (mem_granularity - 1)) = 0));
  Ret (u64 (G_BUF_SIZE e + teams_mem_requirement e + G_COALESCING_BUF_SIZE e +
            4 * alignbytes + 20 * alignbytes),
       alignbytes, nvshmemu_compute_log2 mem_granularity).

(** [setup_mspace]: static and dynamic *)
Definition setup_mspace_static : H Z :=
  _ ← upd (fun h => with_mspace (mspace_new (heap_base_ (geo h)) (heap_size_ (geo h))) h); mret 0.
Definition setup_mspace_dynamic : H Z :=
  _ ← upd (fun h => with_mmap_mspace (mspace_new (heap_base_ (geo h)) (physical_internal_heap_size_ h))
                     (with_mspace (mspace_new (heap_base_ (geo h)) (physical_internal_heap_size_ h)) h));
  mret 0.

(** [cleanup_mspace] *)
Definition cleanup_mspace : H Z :=
  _ ← upd (fun h => with_mmap_mspace mspace_empty (with_mspace mspace_empty h)); mret 0.

Definition set_base (global base reserved : Z) : H unit :=
  upd (fun h => let g := geo h in
    with_geo (MkGeo (mem_granularity_ g) (log2_mem_granularity_ g) (heap_size_ g) reserved
                    global base (mmap_base_ g)) h).

(** [allocate_heap_memory] of the two static heaps *)
Definition allocate_heap_memory_pinned : H Z :=
  h ← get_obj;
  '(s, base) ← do_call_val e (CudaMalloc (heap_size_ (geo h)));
  if bool_decide (s <> 0) then mret NVSHMEMX_ERROR_OUT_OF_MEMORY
  else _ ← set_base (global_heap_base_ (geo h)) base (heap_size_ (geo h)); mret 0.

Definition allocate_heap_memory_shm : H Z :=
  h ← get_obj;
  let shm_size := u64 (heap_size_ (geo h) * npes_node e) in
  '(_, addr) ← (if bool_decide (mype_node e = 0) then
                  '(s, a) ← do_call_val e (ShmCreate shm_size);
                  if bool_decide (s <> 0) then fail (FExit (-1)) else mret (s, a)
                else mret (0, 0));
  _ ← do_call e Barrier;
  '(_, addr) ← (if bool_decide (mype_node e <> 0) then
                  '(s, a) ← do_call_val e (ShmOpen shm_size);
                  if bool_decide (s <> 0) then fail (FExit (-1)) else mret (s, a)
                else mret (0, addr));
  s ← do_call e Barrier;
  r ← do_call e (CudaHostRegister addr shm_size);
  if bool_decide (r <> 0) then fail (FExit (-1)) else
  '(r, global) ← do_call_val e (CudaHostGetDevicePointer addr);
  if bool_decide (r <> 0) then fail (FExit (-1)) else
  _ ← set_base global (global + mype_node e * heap_size_ (geo h)) shm_size;
  mret s.

Definition allocate_heap_memory : H Z :=
  match kind e with
  | sysmem_static_shm => allocate_heap_memory_shm
  | _ => allocate_heap_memory_pinned
  end.

(** [free_heap_memory] *)
Definition free_heap_memory (addr : Z) : H Z :=
  match kind e with
  | sysmem_static_shm =>
      r ← do_call e CudaHostUnregister;
      if bool_decide (r <> 0) then fail (FExit (-1)) else _ ← do_call e ShmClose; mret 0
  | _ => r ← do_call e (CudaFree addr); if bool_decide (r <> 0) then fail (FExit (-1)) else mret 0
  end.

(** [nvshmemi_symmetric_heap_static::reserve_heap]; the status of
    [allocate_heap_memory] is not looked at. *)
Definition reserve_heap_static : H Z :=
  let g := if bool_decide (CUMEM_GRANULARITY e < NVSHMEMI_MAX_HANDLE_LENGTH)
           then CUMEM_GRANULARITY e else NVSHMEMI_MAX_HANDLE_LENGTH in
  '(heapextra, _, lg) ← lift (set_heap_size_attr g);
  size ← lift (NVSHMEMU_ROUND_UP (u64 (SYMMETRIC_SIZE e + heapextra)) g);
  _ ← upd (fun h => with_physical 0 (with_geo (MkGeo g lg size (reserved_heap_size_ (geo h))
             (global_heap_base_ (geo h)) (heap_base_ (geo h)) (mmap_base_ (geo h))) h));
  _ ← allocate_heap_memory;
  h ← get_obj;
  s ← (do_call e (CuPointerSetAttribute (heap_base_ (geo h))) ?! NVSHMEMX_ERROR_OUT_OF_MEMORY ;;
       setup_mspace_static ?! NVSHMEMX_ERROR_INTERNAL ;; mret 0);
  if bool_decide (s <> 0) then h ← get_obj; _ ← free_heap_memory (heap_base_ (geo h)); mret s
  else mret s.

(** [get_num_p2p_connected_pes] *)
Definition get_num_p2p_connected_pes : Z := Z.max (npes_node e) (nvl_connected_pes e).

(** [nvshmemi_symmetric_heap_vidmem_dynamic_vmm::reserve_heap] *)
Definition reserve_heap_vmm : H Z :=
  let p2p_npes := get_num_p2p_connected_pes in
  '(s, g) ← do_call_val e CuMemGetAllocationGranularity;
  if bool_decide (s <> 0) then mret NVSHMEMX_ERROR_INTERNAL else
  let g := Z.max (CUMEM_GRANULARITY e) g in
  let g := if bool_decide (g < NVSHMEMI_MAX_HANDLE_LENGTH) then g else NVSHMEMI_MAX_HANDLE_LENGTH in
  '(heapextra, alignbytes, lg) ← lift (set_heap_size_attr g);
  size ← lift (NVSHMEMU_ROUND_UP (Z.max (MAX_MEMORY_PER_GPU e) heapextra) g);
  '(s, global) ← do_call_val e (CuMemAddressReserve (u64 (p2p_npes * size)) alignbytes);
  _ ← upd (fun h => with_physical 0 (with_geo (MkGeo g lg size (reserved_heap_size_ (geo h))
             (if bool_decide (s = 0) then global else global_heap_base_ (geo h))
             (heap_base_ (geo h)) (mmap_base_ (geo h))) h));
  if bool_decide (s <> 0) then mret NVSHMEMX_ERROR_INTERNAL else
  _ ← upd (fun h => let g := geo h in
             with_geo (MkGeo (mem_granularity_ g) (log2_mem_granularity_ g) (heap_size_ g)
                (reserved_heap_size_ g) (global_heap_base_ g) (global_heap_base_ g)
                (global_heap_base_ g + heap_size_ g)) h);
  setup_mspace_dynamic ?! NVSHMEMX_ERROR_INTERNAL ;;
  h ← get_obj;
  _ ← set_base (global_heap_base_ (geo h)) (heap_base_ (geo h)) (u64 (p2p_npes * heap_size_ (geo h)));
  mret 0.

(** [get_mmap_allocated_range]: 0 for the static heaps *)
Definition mmap_range (h : heap) : Z :=
  match kind e with
  | vidmem_dynamic_vmm =>
      match get_startInusePtr (mmap_mspace_ h) with
      | Some p => if bool_decide (p <> 0) then mmap_base_ (geo h) - p else 0
      | None => 0
      end
  | _ => 0
  end.
Definition get_mmap_allocated_range : H Z := h ← get_obj; mret (mmap_range h).

(** ** Peer memory *)

(** [allgather_peer_base] *)
Definition allgather_peer_base : H Z :=
  if negb (calloc_ok e) then
    _ ← upd (with_peers [] []); mret NVSHMEMX_ERROR_OUT_OF_MEMORY
  else
    h ← get_obj;
    '(s, bases) ← allgather e [heap_base_ (geo h)];
    if bool_decide (s <> 0) then _ ← upd (with_peers [] []); mret NVSHMEMX_ERROR_INTERNAL
    else
      _ ← upd (with_peers bases (replicate (Z.to_nat (npes e)) 0));
      _ ← peer_set (mype e) (heap_base_ (geo h));
      mret 0.

(** The loops over the other PEs, [for (i = (mype + 1) % npes; i != mype; i = (i + 1) % npes)] *)
Fixpoint peers_loop (fuel : nat) (i : Z) (body : Z -> H Z) : H Z :=
  if bool_decide (i = mype e) then mret 0
  else match fuel with
  | O => fail FSpin
  | S fuel => _ ← body i; peers_loop fuel ((i + 1) mod npes e) body
  end.
Definition for_peers (body : Z -> H Z) : H Z :=
  peers_loop (Z.to_nat (npes e)) ((mype e + 1) mod npes e) body.

(** [setup_symmetric_heap] of the VMM heap.  The [break] of the loop over the
    transports leaves only the [do ... while (0)] that [NVSHMEMU_FOR_EACH_IF]
    wraps around it, so the loop goes on.  The counter is returned. *)
Fixpoint assign_peer (n : nat) (j i p2p_counter : Z) : H Z :=
  match n with
  | O => mret p2p_counter
  | S n =>
      c ← is_cap_map j i;
      if is_bit_set (transport_map e (mype e) i) j && c then
        h ← get_obj;
        _ ← peer_set i (global_heap_base_ (geo h) + heap_size_ (geo h) * p2p_counter);
        assign_peer n (j + 1) i (p2p_counter + 1)
      else assign_peer n (j + 1) i p2p_counter
  end.
Fixpoint assign_peers (fuel : nat) (i p2p_counter : Z) : H Z :=
  if bool_decide (i = mype e) then mret p2p_counter
  else match fuel with
  | O => fail FSpin
  | S fuel =>
      c ← assign_peer (Z.to_nat (num_initialized_transports e)) 0 i p2p_counter;
      assign_peers fuel ((i + 1) mod npes e) c
  end.
Definition setup_symmetric_heap_vmm : H Z :=
  allgather_peer_base ?! NVSHMEMX_ERROR_INTERNAL ;;
  _ ← assign_peers (Z.to_nat (npes e)) ((mype e + 1) mod npes e) 1;
  mret 0.

(** ** Handles of the transports *)

(** [register_mem_handle]: status and the handle it stores *)
Definition register_mem_handle (t buf size : Z) : H (Z * Z) :=
  if is_get_mem e t then do_call_val e (GetMemHandle t buf size) else mret (0, 0).

(** [gather_mem_handles] *)
Definition gather_mem_handles (heap_offset size : Z) (ext_allocation : bool) : H Z :=
  for_each_if (num_initialized_transports e)
    (fun i => mret (is_bit_set (transport_bitmap e) i && is_add_device_remote_mem e i))
    (fun i =>
       h ← get_obj;
       let rows := if ext_allocation then remote_mmap_handles_ (tab h) else remote_handles_ (tab h) in
       do_call e (AddDeviceRemoteMemHandles i (default [] (last rows)) heap_offset size)
         ?! NVSHMEMX_ERROR_INTERNAL ;;
       do_call e UpdateDeviceState ?! NVSHMEMX_ERROR_INTERNAL ;; mret 0).

(** [release_mem_handles(&row[first])] *)
Definition release_mem_handles (row : list Z) (first : Z) : H Z :=
  for_each_if (num_initialized_transports e)
    (fun i => mret (is_bit_set (transport_bitmap e) i && is_release_mem e i))
    (fun i =>
       x ← lift (arr_get row (first + i));
       if bool_decide (x <> 0) then
         do_call e (ReleaseMemHandle i x) ?! NVSHMEMX_ERROR_INTERNAL ;; mret 0
       else mret 0).

(** [empty_heap_handle_cache], [inc_heap_handle_cache] *)
Definition empty_heap_handle_cache (h : heap) : bool := bool_decide (heap_handle_cache_ (tab h) = 0).
Definition inc_heap_handle_cache : H unit :=
  upd_tab (fun t => MkTab (remote_handles_ t) (p2p_handles_ t) (remote_mmap_handles_ t)
    (idx_in_handles_ t) (idx_in_mmap_handles_ t) (heap_handle_cache_ t + 1) (gather_mem_handles_done_ t)).

(** [update_idx_in_handle] *)
Definition update_idx_in_handle (addr size idx : Z) (ext_allocation : bool) : H unit :=
  h ← get_obj;
  if ext_allocation then
    let addr_idx := Z.shiftr (u64 (addr - heap_base_ (geo h))) (log2_mem_granularity_ (geo h)) + idx in
    upd_tab (fun t => MkTab (remote_handles_ t) (p2p_handles_ t) (remote_mmap_handles_ t)
      (idx_in_handles_ t)
      (<[addr_idx := (Z.of_nat (length (remote_mmap_handles_ t)) - 1, addr, size)]> (idx_in_mmap_handles_ t))
      (heap_handle_cache_ t) (gather_mem_handles_done_ t))
  else
    upd_tab (fun t => MkTab (remote_handles_ t) (p2p_handles_ t) (remote_mmap_handles_ t)
      (idx_in_handles_ t ++ [(Z.of_nat (length (remote_handles_ t)) - 1, addr, size)])
      (idx_in_mmap_handles_ t) (heap_handle_cache_ t) (gather_mem_handles_done_ t)).

Definition index_granules (count addr size : Z) (ext_allocation : bool) : H Z :=
  for_each (Z.to_nat count) 0 (fun idx => _ ← update_idx_in_handle addr size idx ext_allocation; mret 0).

(** [update_heap_handle_cache] *)
Definition update_heap_handle_cache (buf size : Z) (ext_allocation : bool) : H Z :=
  h ← get_obj;
  _ ← (if enable_rail_opt e then
         if empty_heap_handle_cache h then
           let whole := u64 (heap_size_ (geo h) * npes_node e) in
           n ← lift (cdiv whole (mem_granularity_ (geo h)));
           _ ← index_granules n (global_heap_base_ (geo h)) whole false;
           _ ← inc_heap_handle_cache; mret 0
         else mret 0
       else
         n ← lift (cdiv size (mem_granularity_ (geo h)));
         index_granules n buf size ext_allocation);
  h ← get_obj;
  if empty_heap_handle_cache h then _ ← inc_heap_handle_cache; mret 0 else mret 0.

(** The loops that fill [local_handles] (zeroed by [memset]): one word per
    transport, [cond] selecting those for which [f] is called. *)
Fixpoint collect (n : nat) (i : Z) (cond : Z -> H bool) (f : Z -> H (Z * Z)) : H (Z * list Z) :=
  match n with
  | O => mret (0, [])
  | S n =>
      c ← cond i;
      '(s, x) ← (if (c : bool) then f i else mret (0, 0));
      if bool_decide (s <> 0) then mret (NVSHMEMX_ERROR_INTERNAL, [])
      else '(s, l) ← collect n (i + 1) cond f; mret (s, x :: l)
  end.
Definition local_handles (map : bool) (f : Z -> H (Z * Z)) : H (Z * list Z) :=
  collect (Z.to_nat (num_initialized_transports e)) 0
    (fun i => c ← is_cap_map i (mype e);
              mret (is_bit_set (transport_bitmap e) i && Bool.eqb c map)) f.

(** [rows.push_back(vector(n)); allgather(local, rows.back().data())] on the
    member selected by [set]. *)
Definition gather_row (set : list (list Z) -> handle_tables -> handle_tables)
    (rows : handle_tables -> list (list Z)) (local : list Z) : H Z :=
  let blank := replicate (Z.to_nat (num_initialized_transports e * npes e)) 0 in
  _ ← upd_tab (fun t => set (rows t ++ [blank]) t);
  '(s, row) ← allgather e local;
  if bool_decide (s <> 0) then mret s
  else _ ← upd_tab (fun t => set (removelast (rows t) ++ [row]) t); mret 0.
Definition set_remote (r : list (list Z)) (t : handle_tables) : handle_tables :=
  MkTab r (p2p_handles_ t) (remote_mmap_handles_ t) (idx_in_handles_ t) (idx_in_mmap_handles_ t)
    (heap_handle_cache_ t) (gather_mem_handles_done_ t).
Definition set_p2p (r : list (list Z)) (t : handle_tables) : handle_tables :=
  MkTab (remote_handles_ t) r (remote_mmap_handles_ t) (idx_in_handles_ t) (idx_in_mmap_handles_ t)
    (heap_handle_cache_ t) (gather_mem_handles_done_ t).
Definition set_remote_mmap (r : list (list Z)) (t : handle_tables) : handle_tables :=
  MkTab (remote_handles_ t) (p2p_handles_ t) r (idx_in_handles_ t) (idx_in_mmap_handles_ t)
    (heap_handle_cache_ t) (gather_mem_handles_done_ t).
Definition set_idx_mmap (m : gmap Z idx_entry) (t : handle_tables) : handle_tables :=
  MkTab (remote_handles_ t) (p2p_handles_ t) (remote_mmap_handles_ t) (idx_in_handles_ t) m
    (heap_handle_cache_ t) (gather_mem_handles_done_ t).
Definition set_gather_done (t : handle_tables) : handle_tables :=
  MkTab (remote_handles_ t) (p2p_handles_ t) (remote_mmap_handles_ t) (idx_in_handles_ t)
    (idx_in_mmap_handles_ t) (heap_handle_cache_ t) true.

(** ** Mapping peers *)

(** [import_memory] of the VMM heap *)
Definition import_memory_vmm (mem_handle buf size : Z) : H Z :=
  do_call e CuCtxGetDevice ?! NVSHMEMX_ERROR_INTERNAL ;;
  '(s, peer_handle) ← do_call_val e (CuMemImportFromShareableHandle mem_handle);
  mret s ?! NVSHMEMX_ERROR_INTERNAL ;;
  do_call e (CuMemMap buf size peer_handle) ?! NVSHMEMX_ERROR_INTERNAL ;;
  do_call e (CuMemRelease peer_handle) ?! NVSHMEMX_ERROR_INTERNAL ;;
  do_call e (CuMemSetAccess buf size).

(** [map_heap_range_by_pe] of the three heaps *)
Definition map_heap_range_by_pe (pe_id transport_idx buf size : Z) : H Z :=
  h ← get_obj;
  let back := default [] (last (p2p_handles_ (tab h))) in
  let slot := pe_id * num_initialized_transports e + transport_idx in
  match kind e with
  | vidmem_static_pinned =>
      if empty_heap_handle_cache h then
        x ← lift (arr_get back slot);
        '(s, addr) ← do_call_val e (CudaIpcOpenMemHandle x);
        if bool_decide (s <> 0) then mret NVSHMEMX_ERROR_INVALID_VALUE
        else _ ← peer_set pe_id addr; mret 0
      else mret 0
  | sysmem_static_shm =>
      if empty_heap_handle_cache h then
        _ ← peer_set (mype e) (heap_base_ (geo h));
        q ← lift (if bool_decide (npes_node e = 0) then Fail FUndef else Ret (Z.rem pe_id (npes_node e)));
        _ ← peer_set pe_id (global_heap_base_ (geo h) + q * heap_size_ (geo h));
        mret 0
      else mret 0
  | vidmem_dynamic_vmm =>
      base ← peer_get pe_id;
      x ← lift (arr_get back slot);
      import_memory_vmm x (buf - heap_base_ (geo h) + base) size
  end.

Definition CAP_MAP_ALL : Z :=
  Z.lor (Z.lor NVSHMEM_TRANSPORT_CAP_MAP NVSHMEM_TRANSPORT_CAP_MAP_GPU_ST)
        (Z.lor NVSHMEM_TRANSPORT_CAP_MAP_GPU_LD NVSHMEM_TRANSPORT_CAP_MAP_GPU_ATOMICS).

(** [map_heap_range_by_size]: a failed mapping clears the capabilities and is
    not reported; [break] and [continue] leave only the inner [do ... while (0)]. *)
Definition map_heap_range_by_size (buf size : Z) : H Z :=
  for_peers (fun i =>
    for_each_if (num_initialized_transports e)
      (fun j => c ← is_cap_map j i; mret (is_bit_set (transport_map e (mype e) i) j && c))
      (fun j =>
         s ← map_heap_range_by_pe i j buf size;
         if bool_decide (s <> 0) then
           _ ← clear_cap j i CAP_MAP_ALL; _ ← peer_set i 0; mret 0
         else mret 0)).

(** [exchange_heap_memory_handle] of the VMM heap: with POSIX handles every
    peer's file descriptor replaces the gathered word; a socket error exits. *)
Definition ipc (c : call) : H Z :=
  '(s, v) ← do_call_val e c; if bool_decide (s = -1) then fail (FExit (-1)) else mret v.
Fixpoint over_peers (ps : list (Z * Z)) (f : Z * Z -> H unit) : H unit :=
  match ps with
  | [] => mret tt
  | p :: ps => _ ← (if bool_decide (p.1 = my_pid e) then mret tt else f p); over_peers ps f
  end.
Definition set_back (rows : list (list Z)) (i v : Z) : outcome (list (list Z)) :=
  match last rows with
  | Some r => if bool_decide (0 <= i < Z.of_nat (length r))
              then Ret (removelast rows ++ [<[Z.to_nat i := v]> r]) else Fail FUndef
  | None => Fail FUndef
  end.
Definition exchange_heap_memory_handle (local : list Z) : H Z :=
  if negb (is_ipc e) then mret 0
  else
    _ ← ipc (IpcOpen (my_pid e));
    _ ← over_peers (proc_map e) (fun p => _ ← ipc (IpcOpen p.1); mret tt);
    _ ← do_call e Barrier;
    fd ← lift (arr_get local 0);
    _ ← over_peers (proc_map e) (fun p => _ ← ipc (IpcSend fd p.1); mret tt);
    _ ← over_peers (proc_map e) (fun p =>
          v ← ipc (IpcRecv p.1);
          h ← get_obj;
          rows ← lift (set_back (p2p_handles_ (tab h)) (p.2 * num_initialized_transports e) v);
          upd_tab (set_p2p rows));
    s ← do_call e Barrier;
    _ ← ipc (IpcClose (my_pid e));
    _ ← over_peers (proc_map e) (fun p => _ ← ipc (IpcClose p.1); mret tt);
    mret s.

(** ** Registration *)

(** [map_heap_memory]: the export per kind, the exchange, the mapping *)
Definition export_memory (mem_handle_in : Z) : H (Z * Z) :=
  h ← get_obj;
  match kind e with
  | vidmem_dynamic_vmm => do_call_val e (CuMemExportToShareableHandle mem_handle_in)
  | vidmem_static_pinned => do_call_val e (CudaIpcGetMemHandle (heap_base_ (geo h)))
  | sysmem_static_shm => mret (0, 0)
  end.
Definition map_heap_memory_static (buf size : Z) : H Z :=
  '(s, local) ← local_handles true (fun i =>
     h ← get_obj;
     if empty_heap_handle_cache h then export_memory 0
     else x ← lift (arr_get (default [] (head (p2p_handles_ (tab h)))) i); mret (0, x));
  mret s ?! NVSHMEMX_ERROR_INTERNAL ;;
  gather_row set_p2p p2p_handles_ local ?! NVSHMEMX_ERROR_INTERNAL ;;
  map_heap_range_by_size buf size ?! NVSHMEMX_ERROR_INTERNAL ;; mret 0.
Definition map_heap_memory_dynamic (mem_handle_in buf size : Z) : H Z :=
  '(s, local) ← local_handles true (fun i => export_memory mem_handle_in);
  mret s ?! NVSHMEMX_ERROR_INTERNAL ;;
  gather_row set_p2p p2p_handles_ local ?! NVSHMEMX_ERROR_INTERNAL ;;
  _ ← exchange_heap_memory_handle local;
  map_heap_range_by_size buf size ?! NVSHMEMX_ERROR_INTERNAL ;; mret 0.

(** [register_heap_memory_handle] of the static heaps; under rail optimisation
    the cached handle is read at the bare transport index. *)
Definition register_heap_memory_handle (transport_idx buf size : Z) : H (Z * Z) :=
  h ← get_obj;
  match kind e with
  | sysmem_static_shm =>
      if negb (enable_rail_opt e) then register_mem_handle transport_idx buf size
      else if empty_heap_handle_cache h then
        register_mem_handle transport_idx (global_heap_base_ (geo h))
          (u64 (heap_size_ (geo h) * npes_node e))
      else x ← lift (arr_get (default [] (head (remote_handles_ (tab h)))) transport_idx); mret (0, x)
  | _ => register_mem_handle transport_idx buf size
  end.

(** [register_heap_chunk_by_size], static and dynamic *)
Definition register_heap_chunk_by_size_static (buf size : Z) : H Z :=
  '(s, local) ← local_handles false (fun i => register_heap_memory_handle i buf size);
  mret s ?! NVSHMEMX_ERROR_INTERNAL ;;
  gather_row set_remote remote_handles_ local ?! NVSHMEMX_ERROR_INTERNAL ;;
  h ← get_obj;
  (if enable_rail_opt e then
     if gather_mem_handles_done_ (tab h) then mret 0
     else s ← gather_mem_handles 0 (u64 (heap_size_ (geo h) * npes_node e)) false;
          _ ← upd_tab set_gather_done; mret s
   else gather_mem_handles (u64 (buf - heap_base_ (geo h))) size false)
    ?! NVSHMEMX_ERROR_INTERNAL ;;
  update_heap_handle_cache buf size false ?! NVSHMEMX_ERROR_INTERNAL ;; mret 0.

Definition register_heap_chunk_by_size_dynamic (buf size : Z) (ext_allocation : bool) : H Z :=
  '(s, local) ← local_handles false (fun i => register_mem_handle i buf size);
  mret s ?! NVSHMEMX_ERROR_INTERNAL ;;
  (if ext_allocation then gather_row set_remote_mmap remote_mmap_handles_ local
   else gather_row set_remote remote_handles_ local) ?! NVSHMEMX_ERROR_INTERNAL ;;
  h ← get_obj;
  gather_mem_handles (u64 (buf - heap_base_ (geo h))) size ext_allocation ?! NVSHMEMX_ERROR_INTERNAL ;;
  update_heap_handle_cache buf size ext_allocation ?! NVSHMEMX_ERROR_INTERNAL ;; mret 0.

(** The [do ... while (remaining_size)] loops of [register_heap_memory]; [fuel]
    bounds the number of chunks. *)
Definition chunk_len (remaining_size max_len : Z) : Z :=
  if bool_decide (remaining_size > max_len) then max_len else remaining_size.
Fixpoint register_loop (fuel : nat) (max_len : Z) (chunk : Z -> Z -> H Z) (internal : bool)
    (buf_start remaining_size : Z) : H Z :=
  match fuel with
  | O => fail FSpin
  | S fuel =>
      let registration_size := chunk_len remaining_size max_len in
      chunk buf_start registration_size ?! NVSHMEMX_ERROR_INTERNAL ;;
      _ ← (if internal then
             upd (fun h => with_physical (u64 (physical_internal_heap_size_ h + registration_size)) h)
           else mret tt);
      _ ← lift (cassert (bool_decide (remaining_size >= registration_size)));
      if bool_decide (remaining_size - registration_size = 0) then mret 0
      else register_loop fuel max_len chunk internal (buf_start + registration_size)
             (remaining_size - registration_size)
  end.
Definition chunk_fuel (size max_len : Z) : nat := S (Z.to_nat (size / max_len)).

(** [nvshmemi_symmetric_heap_static::register_heap_memory] *)
Definition register_heap_memory_static (buf size : Z) : H Z :=
  if bool_decide (size = 0) then mret NVSHMEMX_ERROR_INVALID_VALUE else
  max_len ← adjusted_max_handle_len;
  _ ← lift (cassert (bool_decide (buf <> 0)));
  _ ← lift (cassert (bool_decide (size < NVSHMEMI_DMA_BUF_MAX_LENGTH)));
  map_heap_memory_static buf size ?! NVSHMEMX_ERROR_INTERNAL ;;
  register_loop (chunk_fuel size max_len) max_len register_heap_chunk_by_size_static false buf size.

(** [nvshmemi_symmetric_heap_dynamic::register_heap_memory] *)
Definition extend_mmap_mspace (buf size : Z) : H Z :=
  h ← get_obj;
  if bool_decide (buf < mmap_base_ (geo h) - mmap_range h) then
    m ← lift (add_new_chunk (mmap_mspace_ h) buf size);
    let '(r, m) := allocate m size in
    _ ← upd (with_mmap_mspace m);
    match r with
    | None => mret NVSHMEMX_ERROR_INTERNAL
    | Some mmap_alloc => if bool_decide (mmap_alloc <> buf) then mret NVSHMEMX_ERROR_INTERNAL else mret 0
    end
  else mret 0.
Definition extend_heap_mspace (size : Z) : H Z :=
  h ← get_obj;
  m ← lift (add_new_chunk (heap_mspace_ h)
              (heap_base_ (geo h) + physical_internal_heap_size_ h) size);
  _ ← upd (with_mspace m); mret 0.
Definition register_heap_memory_dynamic (mem_handle_in buf size : Z) (ext_allocation : bool) : H Z :=
  if bool_decide (size = 0) then mret NVSHMEMX_ERROR_INVALID_VALUE else
  max_len ← adjusted_max_handle_len;
  _ ← lift (cassert (bool_decide (buf <> 0)));
  _ ← lift (cassert (bool_decide (size < NVSHMEMI_DMA_BUF_MAX_LENGTH)));
  map_heap_memory_dynamic mem_handle_in buf size ?! NVSHMEMX_ERROR_INTERNAL ;;
  (if ext_allocation then extend_mmap_mspace buf size else extend_heap_mspace size)
    ?! NVSHMEMX_ERROR_INTERNAL ;;
  register_loop (chunk_fuel size max_len) max_len
    (fun b n => register_heap_chunk_by_size_dynamic b n ext_allocation) (negb ext_allocation) buf size.

End Ops.
Arguments chunk_fuel : simpl never.
End Heap.
