(* ===== verification/HeapAlloc.v ===== *)
(** * The symmetric heap: growth on demand, user buffers, the allocation calls

    The second half of src/src/host/mem/mem_heap.cpp: adding physical memory to
    the VMM heap, mapping and unmapping user buffers, teardown, and the entry
    points [nvshmem_malloc], [nvshmem_calloc], [nvshmem_align], [nvshmem_free],
    [nvshmem_ptr], [nvshmemx_buffer_register_symmetric] and its inverse; and the
    handle lookup of nvshmemi_symmetric_heap.hpp that the RMA path uses. *)
From stdpp Require Import base gmap list.
From Stdlib Require Import ZArith Lia.
From S2P Require Import Prelude Mspace HeapState Heap.
Import Mspace HeapState Heap.

Module HeapAlloc.

Section Ops.
Context (e : henv).

(** ** Lookup of the handle of an address *)

(** [get_transport_mem_handle]: [None] is the null pointer; otherwise the handle
    and the length stored through [len].  Reading [idx_in_mmap_handles_] through
    [operator[]] creates missing entries; [at] throws; a vector index out of
    range is undefined. *)
Definition get_transport_mem_handle (addr pe transport_idx : Z) : H (option (Z * Z)) :=
  h ← get_obj;
  let base := heap_base_ (geo h) in
  if bool_decide (addr < base \/ addr > base + heap_size_ (geo h)) then mret None
  else
    let offset := addr - base in
    let addr_idx := Z.shiftr offset (log2_mem_granularity_ (geo h)) in
    let handle_sub_index := pe * num_initialized_transports e + transport_idx in
    if bool_decide (addr >= base + (heap_size_ (geo h) - mmap_range e h)) then
      let entry := default (0, 0, 0) (idx_in_mmap_handles_ (tab h) !! addr_idx) in
      _ ← upd_tab (fun t => set_idx_mmap (<[addr_idx := entry]> (idx_in_mmap_handles_ t)) t);
      let '(handle_idx, handle_start_addr, handle_size) := entry in
      match remote_mmap_handles_ (tab h) !! Z.to_nat handle_idx ≫= (fun r => r !! Z.to_nat handle_sub_index) with
      | Some x => mret (Some (x, u64 (handle_size - (addr - handle_start_addr))))
      | None => fail FThrow
      end
    else
      entry ← lift (arr_get (idx_in_handles_ (tab h)) addr_idx);
      let '(handle_idx, handle_start_addr, handle_size) := entry in
      row ← lift (arr_get (remote_handles_ (tab h)) handle_idx);
      x ← lift (arr_get row handle_sub_index);
      mret (Some (x, u64 (handle_size - (addr - handle_start_addr)))).

(** [get_mem_handle_addr_offset]: the table of user buffers is not consulted *)
Definition get_mem_handle_addr_offset (addr : Z) : H Z :=
  h ← get_obj;
  let addr_idx := Z.shiftr (u64 (addr - heap_base_ (geo h))) (log2_mem_granularity_ (geo h)) in
  entry ← lift (arr_get (idx_in_handles_ (tab h)) addr_idx);
  mret (u64 (addr - entry.1.2)).

(** [is_egm] *)
Definition is_egm (addr : Z) : H bool :=
  h ← get_obj;
  mret (bool_decide (egm_map_ (vmm h) !! addr <> None) ||
        existsb (fun '(a, n) => bool_decide (addr >= a /\ addr < a + n)) (map_to_list (egm_map_ (vmm h)))).

(** ** Multicast: the loops over the teams with an NVLS resource *)
Definition last_mc_handle (t : nvls_team) : outcome Z :=
  match last (nt_handles t) with Some mc => Ret mc | None => Fail FUndef end.
Fixpoint for_teams (ts : list nvls_team) (f : nvls_team -> H Z) : H Z :=
  match ts with [] => mret 0 | t :: ts => f t ?! NVSHMEMX_ERROR_INTERNAL ;; for_teams ts f end.

(** [nvls_bind_heap_memory_by_size]: a failure is fatal *)
Definition nvls_bind_heap_memory_by_size (t : nvls_team) (x mc_offset size : Z) : H Z :=
  if negb (nt_owner t) then mret 0
  else mc ← lift (last_mc_handle t);
       s ← do_call e (NvlsBind mc x mc_offset size);
       if bool_decide (s <> 0) then fail (FExit 1) else mret 0.
(** [nvls_bind_heap_memory] *)
Definition nvls_bind_heap_memory (x mc_offset size : Z) : H Z :=
  if negb (is_platform_nvls e) then mret 0
  else for_teams (nvls_teams e) (fun t => nvls_bind_heap_memory_by_size t x mc_offset size).
(** [nvls_unbind_heap_memory_by_size] *)
Definition nvls_unbind_heap_memory_by_size (mc_offset size : Z) : H Z :=
  for_teams (nvls_teams e) (fun t =>
    if negb (nt_owner t) then mret 0
    else mc ← lift (last_mc_handle t); do_call e (NvlsUnbind mc mc_offset size)).

(** ** Unmapping a user buffer *)

(** The loop over the granules of one registered chunk. *)
Definition unmap_granule (curr_ptr register_size idx : Z) : H Z :=
  h ← get_obj;
  let addr_idx := Z.shiftr (u64 (curr_ptr - heap_base_ (geo h))) (log2_mem_granularity_ (geo h)) + idx in
  let entry := default (0, 0, 0) (idx_in_mmap_handles_ (tab h) !! addr_idx) in
  _ ← upd_tab (fun t => set_idx_mmap (<[addr_idx := entry]> (idx_in_mmap_handles_ t)) t);
  let '(handle_idx, start, size) := entry in
  if bool_decide (start <> curr_ptr \/ size <> register_size) then mret NVSHMEMX_ERROR_INTERNAL
  else
    (if bool_decide (idx = 0) then
       row ← lift (arr_get (remote_mmap_handles_ (tab h)) handle_idx);
       release_mem_handles e row (mype e * num_initialized_transports e) ?! NVSHMEMX_ERROR_INTERNAL ;;
       _ ← upd_tab (fun t => set_remote_mmap (<[Z.to_nat handle_idx := []]> (remote_mmap_handles_ t)) t);
       mret 0
     else mret 0) ?! NVSHMEMX_ERROR_INTERNAL ;;
    _ ← upd_tab (fun t => set_idx_mmap (<[addr_idx := (handle_idx, 0, 0)]> (idx_in_mmap_handles_ t)) t);
    mret 0.

Fixpoint unmap_loop (fuel : nat) (max_len curr_ptr remaining_size : Z) : H Z :=
  match fuel with
  | O => fail FSpin
  | S fuel =>
      let register_size := chunk_len remaining_size max_len in
      g ← gran;
      n ← lift (cdiv register_size g);
      for_each (Z.to_nat n) 0 (unmap_granule curr_ptr register_size) ?! NVSHMEMX_ERROR_INTERNAL ;;
      _ ← upd_vmm (fun v => MkVmm (cumem_handles_ v) (mmap_handle_idx_in_cumem_handles_ v)
                              (delete curr_ptr (alias_va_map_ v)) (delete curr_ptr (egm_map_ v)));
      _ ← lift (cassert (bool_decide (remaining_size >= register_size)));
      if bool_decide (remaining_size - register_size = 0) then mret 0
      else unmap_loop fuel max_len (curr_ptr + register_size) (remaining_size - register_size)
  end.

(** [release_memory] of the VMM heap *)
Definition release_memory (buf size : Z) : H Z :=
  do_call e (CuMemUnmap buf size) ?! NVSHMEMX_ERROR_INVALID_VALUE ;; mret 0.

Definition release_peers (off : Z) (size : Z) : H Z :=
  for_each_if (npes e)
    (fun i => if bool_decide (i = mype e) then mret false
              else b ← peer_get i; mret (bool_decide (b <> 0)))
    (fun i => b ← peer_get i; release_memory (b + off) size ?! NVSHMEMX_ERROR_INTERNAL ;; mret 0).

(** Releasing the allocation handle of a user buffer. *)
Definition release_user_handle (ptr : Z) : H Z :=
  h ← get_obj;
  match mmap_handle_idx_in_cumem_handles_ (vmm h) !! ptr with
  | None => mret 0
  | Some i =>
      c ← lift (arr_get (cumem_handles_ (vmm h)) i);
      do_call e (CuMemRelease (cm_handle c)) ?! NVSHMEMX_ERROR_INTERNAL ;;
      _ ← upd_vmm (fun v =>
            MkVmm (<[Z.to_nat i := MkCumem (cm_handle c) (cm_mc_offset c) (cm_size c) true]> (cumem_handles_ v))
                  (delete ptr (mmap_handle_idx_in_cumem_handles_ v)) (alias_va_map_ v) (egm_map_ v));
      mret 0
  end.

(** [unmap_mem] *)
Definition unmap_mem (ptr size : Z) : H Z :=
  h ← get_obj;
  let g := mem_granularity_ (geo h) in
  _ ← lift (cdiv size g);
  size ← (if bool_decide (size mod g <> 0) then lift (NVSHMEMU_ROUND_UP size g) else mret size);
  max_len ← adjusted_max_handle_len;
  let range := mmap_range e h in
  if bool_decide (size > range \/ size = 0) then mret NVSHMEMX_ERROR_INVALID_VALUE
  else if bool_decide (ptr > mmap_base_ (geo h) \/ ptr < mmap_base_ (geo h) - range)
    then mret NVSHMEMX_ERROR_INVALID_VALUE
  else if negb (checkInuse (mmap_mspace_ h) ptr size) then mret NVSHMEMX_ERROR_INVALID_VALUE
  else
    unmap_loop (chunk_fuel size max_len) max_len ptr size ?! NVSHMEMX_ERROR_INTERNAL ;;
    (if is_platform_nvls e then nvls_unbind_heap_memory_by_size (ptr - heap_base_ (geo h)) size else mret 0)
      ?! NVSHMEMX_ERROR_INTERNAL ;;
    do_call e (CuMemUnmap ptr size) ?! NVSHMEMX_ERROR_INTERNAL ;;
    release_peers (ptr - heap_base_ (geo h)) size ?! NVSHMEMX_ERROR_INTERNAL ;;
    release_user_handle ptr ?! NVSHMEMX_ERROR_INTERNAL ;;
    h ← get_obj;
    m ← lift (deallocate (mmap_mspace_ h) ptr);
    _ ← upd (with_mmap_mspace m);
    mret 0.

(** ** Teardown *)

(** [cleanup_symmetric_heap] of the VMM heap *)
Fixpoint unmap_all (fuel : nat) : H Z :=
  h ← get_obj;
  match head (entries (inuse_chunks (mmap_mspace_ h))) with
  | None => mret 0
  | Some (p, n) =>
      match fuel with
      | O => fail FSpin
      | S fuel => unmap_mem p n ?! NVSHMEMX_ERROR_INTERNAL ;; unmap_all fuel
      end
  end.
Definition release_rows : H Z :=
  h ← get_obj;
  for_each_if (Z.of_nat (length (remote_handles_ (tab h))))
    (fun j => mret (bool_decide (j = 0) || negb (enable_rail_opt e)))
    (fun j => row ← lift (arr_get (remote_handles_ (tab h)) j);
              release_mem_handles e row (mype e * num_initialized_transports e)
                ?! NVSHMEMX_ERROR_INTERNAL ;; mret 0).
Definition release_cumem : H Z :=
  h ← get_obj;
  for_each (length (cumem_handles_ (vmm h))) 0 (fun i =>
    c ← lift (arr_get (cumem_handles_ (vmm h)) i);
    if cm_released c then mret 0
    else do_call e (CuMemRelease (cm_handle c)) ?! NVSHMEMX_ERROR_INTERNAL ;; mret 0).
Definition cleanup_symmetric_heap_vmm : H Z :=
  release_rows ?! NVSHMEMX_ERROR_INTERNAL ;;
  h ← get_obj;
  unmap_all (size (inuse_chunks (mmap_mspace_ h))) ?! NVSHMEMX_ERROR_INTERNAL ;;
  h ← get_obj;
  (if bool_decide (heap_base_ (geo h) <> 0)
   then do_call e (CuMemUnmap (heap_base_ (geo h)) (physical_internal_heap_size_ h)) else mret 0)
    ?! NVSHMEMX_ERROR_INTERNAL ;;
  release_cumem ?! NVSHMEMX_ERROR_INTERNAL ;;
  _ ← upd_vmm (fun v => MkVmm [] (mmap_handle_idx_in_cumem_handles_ v) (alias_va_map_ v) (egm_map_ v));
  release_peers 0 (heap_size_ (geo h)) ?! NVSHMEMX_ERROR_INTERNAL ;;
  do_call e (CuMemAddressFree (global_heap_base_ (geo h)) (reserved_heap_size_ (geo h)))
    ?! NVSHMEMX_ERROR_INTERNAL ;;
  _ ← do_call e DestroyInstances; mret 0.

(** [cleanup_symmetric_heap] of the static heaps *)
Definition release_memory_static (buf : Z) : H Z :=
  match kind e with
  | vidmem_static_pinned =>
      do_call e (CudaIpcCloseMemHandle buf) ?! NVSHMEMX_ERROR_INVALID_VALUE ;; mret 0
  | _ => mret 0
  end.
Definition cleanup_symmetric_heap_static : H Z :=
  release_rows ?! NVSHMEMX_ERROR_INTERNAL ;;
  h ← get_obj;
  (match peer_heap_base_p2p_ h with
   | [] => mret 0
   | _ => b ← peer_get (mype e); free_heap_memory e b
   end) ?! NVSHMEMX_ERROR_INTERNAL ;;
  for_each_if (npes e)
    (fun i => if bool_decide (i = mype e) then mret false
              else b ← peer_get i; mret (bool_decide (b <> 0)))
    (fun i => b ← peer_get i; release_memory_static b ?! NVSHMEMX_ERROR_INTERNAL ;; mret 0)
    ?! NVSHMEMX_ERROR_INTERNAL ;;
  _ ← do_call e DestroyInstances; mret 0.

(** [setup_symmetric_heap] of the static heaps *)
Definition setup_symmetric_heap_static : H Z :=
  h ← get_obj;
  s ← (allgather_peer_base e ?! NVSHMEMX_ERROR_INTERNAL ;;
       register_heap_memory_static e (heap_base_ (geo h)) (heap_size_ (geo h)) ?! NVSHMEMX_ERROR_INTERNAL ;;
       mret 0);
  if bool_decide (s <> 0) then
    _ ← cleanup_symmetric_heap_static;
    _ ← (if bool_decide (heap_size_ (geo h) <> 0) then free_heap_memory e (heap_base_ (geo h)) else mret 0);
    mret s
  else mret s.

(** ** Growth of the VMM heap *)

(** [allocate_physical_memory_to_heap] *)
Definition push_cumem (c : cumem) : H unit :=
  upd_vmm (fun v => MkVmm (cumem_handles_ v ++ [c]) (mmap_handle_idx_in_cumem_handles_ v)
                          (alias_va_map_ v) (egm_map_ v)).
Definition grow_body (size : Z) : H Z :=
  h ← get_obj;
  mret (Z.b2z (bool_decide (u64 (physical_internal_heap_size_ h + mmap_range e h + size) >= heap_size_ (geo h))))
    ?! NVSHMEMX_ERROR_INTERNAL ;;
  _ ← lift (cassert (bool_decide (size mod mem_granularity_ (geo h) = 0)));
  _ ← lift (cassert (bool_decide (mem_granularity_ (geo h) <= NVSHMEMI_MAX_HANDLE_LENGTH)));
  let buf_start := heap_base_ (geo h) + physical_internal_heap_size_ h in
  '(s, cumem_handle) ← do_call_val e (CuMemCreate size);
  mret s ?! NVSHMEMX_ERROR_INTERNAL ;;
  let heap_offset := physical_internal_heap_size_ h in
  _ ← push_cumem (MkCumem cumem_handle heap_offset size false);
  do_call e (CuMemMap buf_start size cumem_handle) ?! NVSHMEMX_ERROR_INTERNAL ;;
  do_call e (CuMemSetAccess buf_start size) ?! NVSHMEMX_ERROR_INTERNAL ;;
  nvls_bind_heap_memory cumem_handle heap_offset size ?! NVSHMEMX_ERROR_INTERNAL ;;
  register_heap_memory_dynamic e cumem_handle buf_start size false ?! NVSHMEMX_ERROR_INTERNAL ;;
  do_call e Barrier.
Definition allocate_physical_memory_to_heap (size : Z) : H Z :=
  g ← gran;
  size ← lift (NVSHMEMU_ROUND_UP size g);
  s ← grow_body size;
  if bool_decide (s <> 0) then _ ← cleanup_symmetric_heap_vmm; mret s else mret s.

(** [allocate_virtual_memory_from_mspace]; the null pointer is 0 *)
Definition allocate_virtual_memory_from_mspace (size count alignment : Z) (type : alloc_type) : H Z :=
  h ← get_obj;
  match type with
  | NVSHMEMX_MALLOC =>
      let '(r, m) := allocate (heap_mspace_ h) size in
      _ ← upd (with_mspace m); mret (default 0 r)
  | NVSHMEMX_CALLOC =>
      let '(r, m, _) := allocate_zeroed (heap_mspace_ h) count size in
      _ ← upd (with_mspace m); mret (default 0 r)
  | NVSHMEMX_ALIGN =>
      '(r, m) ← lift (allocate_aligned (heap_mspace_ h) alignment size);
      _ ← upd (with_mspace m); mret (default 0 r)
  | NVSHMEMX_ALLOC_MAX => mret 0
  end.

(** [allocate_symmetric_memory] of the VMM heap and of the static heaps *)
Definition grow_request (size count alignment : Z) (type : alloc_type) : Z :=
  match type with
  | NVSHMEMX_CALLOC => u64 (u64 (count * size) + alignment)
  | _ => u64 (size + alignment)
  end.
Definition allocate_symmetric_memory_vmm (size count alignment : Z) (type : alloc_type) : H Z :=
  ptr ← allocate_virtual_memory_from_mspace size count alignment type;
  if bool_decide (size > 0 /\ ptr = 0) then
    s ← allocate_physical_memory_to_heap (grow_request size count alignment type);
    if bool_decide (s <> 0) then mret ptr
    else
      ptr ← allocate_virtual_memory_from_mspace size count alignment type;
      _ ← do_call e UpdateDeviceState;
      mret ptr
  else mret ptr.
Definition is_calloc (type : alloc_type) : bool :=
  match type with NVSHMEMX_CALLOC => true | _ => false end.
Definition allocate_symmetric_memory_static (size count alignment : Z) (type : alloc_type) : H Z :=
  ptr ← allocate_virtual_memory_from_mspace size count alignment type;
  if bool_decide (count > 0) && is_calloc type && bool_decide (size > 0) && bool_decide (ptr = 0)
  then fail (FExit (-1)) else mret ptr.
Definition allocate_symmetric_memory (size count alignment : Z) (type : alloc_type) : H Z :=
  match kind e with
  | vidmem_dynamic_vmm => allocate_symmetric_memory_vmm size count alignment type
  | _ => allocate_symmetric_memory_static size count alignment type
  end.

(** [heap_allocate], [heap_malloc], [heap_calloc], [heap_align], [heap_deallocate] *)
Definition heap_allocate (size count alignment : Z) (type : alloc_type) : H Z :=
  s ← is_symmetric e size;
  if bool_decide (s <> 0) then mret 0 else allocate_symmetric_memory size count alignment type.
Definition heap_malloc (size : Z) : H Z :=
  g ← gran;
  if ENABLE_ALIGNED_MALLOC e then heap_allocate size 0 g NVSHMEMX_ALIGN
  else heap_allocate size 0 0 NVSHMEMX_MALLOC.
Definition heap_calloc (size count : Z) : H Z := heap_allocate size count 0 NVSHMEMX_CALLOC.
Definition heap_align (size alignment : Z) : H Z := heap_allocate size 0 alignment NVSHMEMX_ALIGN.
Definition heap_deallocate (ptr : Z) : H unit :=
  h ← get_obj;
  m ← lift (deallocate (heap_mspace_ h) ptr);
  _ ← upd (with_mspace m);
  _ ← do_call e UpdateDeviceState; mret tt.

(** ** User buffers *)

(** [check_buffers_on_same_device]: the loop compares with PE 0 only *)
Fixpoint check_distinct (n : nat) (i loc_id : Z) (scratch : list Z) : outcome Z :=
  match n with
  | O => Ret 0
  | S n =>
      x ← arr_get scratch i;
      if bool_decide (x = loc_id) then Ret NVSHMEMX_ERROR_INVALID_VALUE
      else check_distinct n (i + 1) loc_id scratch
  end.
Definition check_buffers_on_same_device (onGPU : bool) : H Z :=
  if negb (ENABLE_ERROR_CHECKS e) then mret 0 else
  '(s, buf_loc_id) ←
    (if onGPU then mret (0, device_id e)
     else
       s ← do_call e CuDeviceGet;
       if bool_decide (s <> 0) then mret (NVSHMEMX_ERROR_INVALID_VALUE, 0)
       else '(s, x) ← do_call_val e CuDeviceGetAttribute;
            if bool_decide (s <> 0) then mret (NVSHMEMX_ERROR_INVALID_VALUE, 0) else mret (0, x));
  mret s ?! s ;;
  if negb (calloc_ok e) then mret NVSHMEMX_ERROR_OUT_OF_MEMORY else
  '(s, scratch) ← allgather e [buf_loc_id];
  mret s ?! NVSHMEMX_ERROR_INTERNAL ;;
  loc_id ← lift (arr_get scratch 0);
  lift (check_distinct (Z.to_nat (npes_node e - 1)) 1 loc_id scratch).

(** [check_user_buffer_for_mmap]: status and memory type.  [ptrAttr] is
    overwritten with the device ordinal before the aliasing check compares it
    with [CU_MEMORYTYPE_DEVICE]. *)
Definition ATTR_MEMORY_TYPE : Z := 2.
Definition ATTR_DEVICE_ORDINAL : Z := 9.
Definition check_user_alloc (ptr userAllocHandle : Z) : H (Z * Z) :=
  '(s, mem_type) ← do_call_val e (CuPointerGetAttribute ATTR_MEMORY_TYPE ptr);
  if bool_decide (s <> 0) then mret (NVSHMEMX_ERROR_INTERNAL, 0)
  else if bool_decide (mem_type <> CU_MEMORYTYPE_DEVICE /\ mem_type <> CU_MEMORYTYPE_HOST)
    then mret (NVSHMEMX_ERROR_INVALID_VALUE, mem_type)
  else
    '(s, ptrAttr) ←
      (if bool_decide (mem_type = CU_MEMORYTYPE_DEVICE) then
         '(s, ord) ← do_call_val e (CuPointerGetAttribute ATTR_DEVICE_ORDINAL ptr);
         if bool_decide (s <> 0) then mret (NVSHMEMX_ERROR_INTERNAL, ord)
         else if bool_decide (s32 ord <> device_id e) then mret (NVSHMEMX_ERROR_INVALID_VALUE, ord)
         else mret (0, ord)
       else mret (0, mem_type));
    s ← (mret s ?! s ;;
         check_buffers_on_same_device (bool_decide (ptrAttr = CU_MEMORYTYPE_DEVICE))
           ?! NVSHMEMX_ERROR_INVALID_VALUE ;;
         '(s, requested) ← do_call_val e (CuMemGetAllocationProperties userAllocHandle);
         mret s ?! NVSHMEMX_ERROR_INTERNAL ;;
         mret (Z.b2z (bool_decide (requested <> mem_handle_type e))) ?! NVSHMEMX_ERROR_INVALID_VALUE ;;
         do_call e CuMemGetAllocationGranularity ?! NVSHMEMX_ERROR_INTERNAL ;; mret 0);
    mret (s, mem_type).
Definition check_user_buffer_for_mmap (ptr size : Z) : H (Z * Z) :=
  if bool_decide (size = 0) then mret (NVSHMEMX_ERROR_SYMMETRY, 0) else
  s ← is_symmetric e size;
  if bool_decide (s <> 0) then mret (NVSHMEMX_ERROR_SYMMETRY, 0) else
  g ← gran;
  _ ← lift (cdiv size g);
  if bool_decide (s32 (size mod g) <> 0) then mret (NVSHMEMX_ERROR_INVALID_VALUE, 0) else
  '(s, userAllocHandle) ← do_call_val e (CuMemRetainAllocationHandle ptr);
  '(s, mem_type) ← (if bool_decide (s <> 0) then mret (NVSHMEMX_ERROR_INVALID_VALUE, 0)
                    else check_user_alloc ptr userAllocHandle);
  r ← do_call e (CuMemRelease userAllocHandle);
  if bool_decide (s <> 0) then mret (s, mem_type)
  else if bool_decide (r <> 0) then mret (r, mem_type) else mret (0, mem_type).

(** The loop that records the aliases of a user buffer, chunk by chunk. *)
Fixpoint alias_loop (fuel : nat) (max_len : Z) (egm : bool) (curr_ptr curr_buf_ptr remaining_size : Z) : H Z :=
  match fuel with
  | O => fail FSpin
  | S fuel =>
      h ← get_obj;
      if bool_decide (alias_va_map_ (vmm h) !! curr_ptr <> None) then mret NVSHMEMX_ERROR_INTERNAL
      else
        let register_size := chunk_len remaining_size max_len in
        _ ← upd_vmm (fun v => MkVmm (cumem_handles_ v) (mmap_handle_idx_in_cumem_handles_ v)
              (<[curr_ptr := curr_buf_ptr]> (alias_va_map_ v))
              (if egm then <[curr_ptr := register_size]> (egm_map_ v) else egm_map_ v));
        if bool_decide (remaining_size - register_size > 0) then
          alias_loop fuel max_len egm (curr_ptr + register_size) (curr_buf_ptr + register_size)
            (remaining_size - register_size)
        else mret 0
  end.

(** The range a user buffer gets: a hole of [mmap_mspace_], or new space below
    the lowest mapped buffer. *)
Definition place_user_buffer (size : Z) : H (Z * Z) :=
  h ← get_obj;
  let '(r, m) := allocate (mmap_mspace_ h) size in
  _ ← upd (with_mmap_mspace m);
  h ← get_obj;
  match r with
  | Some ptr => mret (0, ptr)
  | None =>
      let range := mmap_range e h in
      if bool_decide (u64 (physical_internal_heap_size_ h + range + size) >= heap_size_ (geo h))
      then mret (NVSHMEMX_ERROR_INTERNAL, 0)
      else mret (0, mmap_base_ (geo h) - range - size)
  end.

(** [mmap_mem] up to its label [out]: status and pointer *)
Definition mmap_body (buf_ptr size flags : Z) : H (Z * Z) :=
  max_len ← adjusted_max_handle_len;
  '(s, mem_type) ← check_user_buffer_for_mmap buf_ptr size;
  if bool_decide (s <> 0) then mret (NVSHMEMX_ERROR_INTERNAL, 0) else
  let egm := bool_decide (mem_type = CU_MEMORYTYPE_HOST) in
  s ← (if egm then
         do_call e CuDeviceGet ?! NVSHMEMX_ERROR_INVALID_VALUE ;;
         do_call e CuDeviceGetAttribute ?! NVSHMEMX_ERROR_INVALID_VALUE ;; mret 0
       else mret 0);
  if bool_decide (s <> 0) then mret (s, 0) else
  s ← (do_call e (CuMemGetAccess buf_ptr) ?! NVSHMEMX_ERROR_INVALID_VALUE ;; mret 0);
  if bool_decide (s <> 0) then mret (s, 0) else
  g ← gran;
  _ ← lift (cassert (bool_decide (g <= NVSHMEMI_MAX_HANDLE_LENGTH)));
  (* the jump sets [flags], not [status], which stays 0: null without teardown *)
  if bool_decide (flags <> 0) then mret (0, 0) else
  '(s, ptr) ← place_user_buffer size;
  if bool_decide (s <> 0) then mret (s, 0) else
  s ← (alias_loop (chunk_fuel size max_len) max_len egm ptr buf_ptr size ?! NVSHMEMX_ERROR_INTERNAL ;;
       h ← get_obj;
       let heap_offset := ptr - heap_base_ (geo h) in
       '(s, userAllocHandle) ← do_call_val e (CuMemRetainAllocationHandle buf_ptr);
       mret s ?! NVSHMEMX_ERROR_INVALID_VALUE ;;
       _ ← push_cumem (MkCumem userAllocHandle heap_offset size false);
       _ ← upd_vmm (fun v => MkVmm (cumem_handles_ v)
             (<[ptr := Z.of_nat (length (cumem_handles_ v)) - 1]> (mmap_handle_idx_in_cumem_handles_ v))
             (alias_va_map_ v) (egm_map_ v));
       do_call e (CuMemMap ptr size userAllocHandle) ?! NVSHMEMX_ERROR_INTERNAL ;;
       do_call e (CuMemSetAccess ptr size) ?! NVSHMEMX_ERROR_INTERNAL ;;
       nvls_bind_heap_memory userAllocHandle heap_offset size ?! NVSHMEMX_ERROR_INTERNAL ;;
       register_heap_memory_dynamic e userAllocHandle ptr size true ?! NVSHMEMX_ERROR_INTERNAL ;;
       do_call e Barrier);
  mret (s, ptr).
Definition mmap_mem (buf_ptr size flags : Z) : H Z :=
  '(s, ptr) ← mmap_body buf_ptr size flags;
  if bool_decide (s <> 0) then _ ← cleanup_symmetric_heap_vmm; mret 0 else mret ptr.

(** ** Entry points; a non-zero [init_status] is what
    [nvshmemi_check_state_and_init] or the check of the initialisation gives *)
Definition nvshmem_malloc (size : Z) : H Z :=
  if bool_decide (init_status e <> 0) then mret 0
  else if bool_decide (size = 0) then mret 0
  else ptr ← heap_malloc size; _ ← do_call e BarrierAll; mret ptr.
Definition nvshmem_calloc (count size : Z) : H Z :=
  if bool_decide (init_status e <> 0) then mret 0
  else if bool_decide (u64 (count * size) = 0) then mret 0
  else ptr ← heap_calloc size count; _ ← do_call e BarrierAll; mret ptr.
Definition nvshmem_align (alignment size : Z) : H Z :=
  if bool_decide (init_status e <> 0) then mret 0
  else if bool_decide (size = 0) then mret 0
  else ptr ← heap_align size alignment; _ ← do_call e BarrierAll; mret ptr.
Definition nvshmem_free (ptr : Z) : H unit :=
  if bool_decide (init_status e <> 0) then fail (FExit (-1))
  else if bool_decide (ptr = 0) then mret tt
  else _ ← do_call e BarrierAll; heap_deallocate ptr.
Definition nvshmemx_buffer_register_symmetric (buf_ptr size flags : Z) : H Z :=
  if bool_decide (init_status e <> 0) then mret 0
  else ptr ← (match kind e with vidmem_dynamic_vmm => mmap_mem buf_ptr size flags | _ => fail FAssert end);
       _ ← do_call e BarrierAll; mret ptr.
Definition nvshmemx_buffer_unregister_symmetric (ptr size : Z) : H Z :=
  if bool_decide (init_status e <> 0) then fail (FExit (-1))
  else _ ← do_call e BarrierAll;
       match kind e with vidmem_dynamic_vmm => unmap_mem ptr size | _ => fail FAssert end.

(** [nvshmemi_ptr]: the address of [ptr] in the window of [pe], 0 if there is none *)
Definition nvshmemi_ptr (ptr pe : Z) : H Z :=
  h ← get_obj;
  if bool_decide (pe >= 0 /\ pe < npes e /\ ptr >= heap_base_ (geo h)) then
    let offset := ptr - heap_base_ (geo h) in
    if bool_decide (offset < heap_size_ (geo h)) then
      peer_addr ← peer_get pe;
      mret (if bool_decide (peer_addr <> 0) then peer_addr + offset else 0)
    else mret 0
  else mret 0.

End Ops.
End HeapAlloc.
