(* ===== verification/HeapSpec.v ===== *)
(** * The symmetric heap: what registration and growth establish

    The invariant of the VMM heap ([heap_ok]): its geometry, the allocator's
    chunks inside the physical part, and a handle table whose entry for granule
    [i] describes the registered chunk that contains it.  Under answers that
    succeed ([env_ok]) each routine is described by a total-correctness lemma
    ([wp]) that says exactly which members it changes. *)
From stdpp Require Import base gmap list.
From Stdlib Require Import ZArith Lia.
From S2P Require Import Prelude Mspace MspaceSpec HeapState Heap HeapAlloc.
Import Mspace HeapState Heap HeapAlloc.

Module HeapSpec.

(** ** Hypotheses on what lies below *)
Record env_ok (e : henv) : Prop := {
  ok_status : forall l c, status e l c = 0;
  ok_npes : 0 <= mype e < npes e;
  ok_transports : 0 < num_initialized_transports e;
  ok_gather_length : forall l w, Z.of_nat (length (gathered e l w)) = npes e;
  ok_gather_width : forall l w, Forall (fun x => length x = length w) (gathered e l w);
  ok_gather_mine : forall l w, gathered e l w !! Z.to_nat (mype e) = Some w;
  ok_kind : kind e = vidmem_dynamic_vmm;
  ok_rail : enable_rail_opt e = false;
  ok_proc_map : Forall (fun p => 0 <= p.2 < npes e) (proc_map e);
  ok_nvls : Forall (fun t => nt_handles t <> []) (nvls_teams e)
}.

Definition row_len (e : henv) : Z := num_initialized_transports e * npes e.

(** Entry [pe * T + t] of a gathered row is word [t] of what [pe] contributed. *)
Lemma concat_lookup {A} (ls : list (list A)) (w : nat) i j :
  Forall (fun x => length x = w) ls -> (j < w)%nat ->
  concat ls !! (i * w + j)%nat = ls !! i ≫= fun r => r !! j.
Proof.
  intros HF Hj. revert i. induction HF as [|x ls Hx HF IH]; intros i; [done|].
  destruct i as [|i]; cbn [concat].
  - rewrite lookup_app_l by (rewrite Hx; lia). done.
  - rewrite lookup_app_r by (rewrite Hx; lia).
    replace (S i * w + j - length x)%nat with (i * w + j)%nat by (rewrite Hx; lia). by rewrite IH.
Qed.

Lemma concat_length {A} (ls : list (list A)) (w : nat) :
  Forall (fun x => length x = w) ls -> length (concat ls) = (length ls * w)%nat.
Proof. induction 1 as [|x ls Hx HF IH]; [done|]. cbn. rewrite length_app, Hx, IH. lia. Qed.

Lemma arr_get_some {A} (l : list A) i :
  0 <= i < Z.of_nat (length l) -> exists x, arr_get l i = Ret x /\ l !! Z.to_nat i = Some x.
Proof.
  intros Hi. unfold arr_get. rewrite bool_decide_eq_false_2 by lia.
  destruct (lookup_lt_is_Some_2 l (Z.to_nat i)) as [x Hx]; [lia|]. rewrite Hx. eauto.
Qed.

Lemma removelast_snoc {A} (l : list A) x : removelast (l ++ [x]) = l.
Proof. rewrite List.removelast_app by done. apply app_nil_r. Qed.

Lemma mod_sub_0 a b n : 0 <= a < n -> 0 <= b < n -> (a - b) mod n = 0 -> a = b.
Proof.
  intros Ha Hb Hm. apply Z.mod_divide in Hm as [k Hk]; [|lia].
  assert (k = 0) by nia. nia.
Qed.

(** One step of the ring brings the distance down by one. *)
Lemma ring_distance a i n :
  0 <= a < n -> 0 <= i < n -> i <> a -> (a - (i + 1) mod n) mod n = (a - i) mod n - 1.
Proof.
  intros Ha Hi Hne. rewrite Zminus_mod_idemp_r.
  pose proof (Z.mod_pos_bound (a - i) n ltac:(lia)) as Hb.
  assert ((a - i) mod n <> 0) by (intros E; apply Hne; symmetry; by eapply mod_sub_0).
  replace (a - (i + 1)) with (a - i - 1) by lia.
  rewrite Zminus_mod, (Z.mod_small 1) by lia. apply Z.mod_small. lia.
Qed.

(** ** The two parts of the state a routine may touch *)

(** Nothing but the log. *)
Definition same (s s' : st) : Prop := obj s' = obj s /\ caps s' = caps s.
(** Only the rows of [p2p_handles_]. *)
Definition same_but_p2p (s s' : st) : Prop :=
  exists r, obj s' = with_tab (set_p2p r (tab (obj s))) (obj s) /\ caps s' = caps s.

Lemma same_refl s : same s s. Proof. done. Qed.
Lemma same_trans s1 s2 s3 : same s1 s2 -> same s2 s3 -> same s1 s3.
Proof. unfold same. intros [-> ->] [-> ->]. done. Qed.

Section Routines.
Context (e : henv) (OK : env_ok e).
Let ST := ok_status e OK.

Lemma row_shape l w : Z.of_nat (length w) = num_initialized_transports e ->
  Z.of_nat (length (concat (gathered e l w))) = row_len e.
Proof.
  intros Hw. rewrite (concat_length _ _ (ok_gather_width e OK l w)).
  pose proof (ok_gather_length e OK l w). unfold row_len. nia.
Qed.

(** A loop whose body changes nothing but the log. *)
Lemma for_each_if_same count cond code s :
  0 <= count ->
  (forall i s1, 0 <= i < count -> same s s1 -> wp (cond i) (fun _ s2 => same s1 s2) s1) ->
  (forall i s1, 0 <= i < count -> same s s1 -> wp (code i) (fun r s2 => r = 0 /\ same s1 s2) s1) ->
  wp (for_each_if count cond code) (fun r s' => r = 0 /\ same s s') s.
Proof.
  intros Hc Hcond Hcode. unfold for_each_if.
  eapply wp_mono; [apply (wp_for_each _ _ _ (fun _ => same s)); [done|]|].
  - intros j s1 Hj HS. apply wp_bind. eapply wp_mono; [apply Hcond; [lia|done]|]. cbn.
    intros b s2 HS2. destruct b.
    + eapply wp_mono; [apply Hcode; [lia|by eapply same_trans]|]. cbn.
      intros r s3 [-> HS3]. split; [done|]. by eapply same_trans; [|eapply same_trans].
    + apply wp_ret. split; [done|]. by eapply same_trans.
  - cbn. tauto.
Qed.

Lemma wp_is_cap_map j pe s : wp (is_cap_map j pe) (fun _ s' => same s s') s.
Proof. unfold is_cap_map. apply wp_bind, wp_get_cap, wp_ret. done. Qed.

Lemma wp_peer_get i s :
  0 <= i < npes e -> Z.of_nat (length (peer_heap_base_p2p_ (obj s))) = npes e ->
  wp (peer_get i) (fun b s' => s' = s /\ peer_heap_base_p2p_ (obj s) !! Z.to_nat i = Some b) s.
Proof.
  intros Hi Hl. unfold peer_get. apply wp_bind, wp_get_obj.
  destruct (arr_get_some (peer_heap_base_p2p_ (obj s)) i) as (x & Hx & Hx'); [lia|].
  eapply wp_lift; [exact Hx|]. done.
Qed.

Lemma wp_import_memory x buf size s :
  wp (import_memory_vmm e x buf size) (fun r s' => r = 0 /\ same s s') s.
Proof.
  unfold import_memory_vmm. apply wp_jmp_ok, (wp_do_call e ST). split; [done|].
  apply wp_bind, (wp_do_call_val e ST). apply wp_jmp_ok, wp_ret. split; [done|].
  do 2 (apply wp_jmp_ok, (wp_do_call e ST); split; [done|]). by apply (wp_do_call e ST).
Qed.

Lemma wp_map_by_pe pe t buf size s :
  0 <= pe < npes e -> 0 <= t < num_initialized_transports e ->
  Z.of_nat (length (peer_heap_base_p2p_ (obj s))) = npes e ->
  (exists r, last (p2p_handles_ (tab (obj s))) = Some r /\ Z.of_nat (length r) = row_len e) ->
  wp (map_heap_range_by_pe e pe t buf size) (fun r s' => r = 0 /\ same s s') s.
Proof.
  intros Hpe Ht Hl (r & Hr & Hrl). unfold map_heap_range_by_pe. apply wp_bind, wp_get_obj.
  rewrite (ok_kind e OK). rewrite Hr. cbn [default].
  apply wp_bind. eapply wp_mono; [by apply wp_peer_get|]. cbn. intros b s' [-> _].
  destruct (arr_get_some r (pe * num_initialized_transports e + t)) as (x & Hx & _).
  { unfold row_len in Hrl. nia. }
  apply wp_bind. eapply wp_lift; [exact Hx|]. apply wp_import_memory.
Qed.

(** The loop over the peers visits PEs in range and ends. *)
Lemma wp_peers_loop fuel body : forall i s,
  0 <= i < npes e -> ((mype e - i) mod npes e <= Z.of_nat fuel) ->
  (forall j s1, 0 <= j < npes e -> same s s1 -> wp (body j) (fun _ s2 => same s1 s2) s1) ->
  wp (peers_loop e fuel i body) (fun r s' => r = 0 /\ same s s') s.
Proof.
  pose proof (ok_npes e OK) as HN.
  induction fuel as [|fuel IH]; intros i s Hi Hf Hb; cbn [peers_loop]; case_bool_decide as Hm.
  - by apply wp_ret.
  - exfalso. apply Hm. symmetry. apply (mod_sub_0 (mype e) i (npes e)); [lia..|].
    pose proof (Z.mod_pos_bound (mype e - i) (npes e)). lia.
  - by apply wp_ret.
  - apply wp_bind. eapply wp_mono; [apply Hb; done|]. cbn. intros _ s1 HS.
    eapply wp_mono; [apply IH|].
    + apply Z.mod_pos_bound. lia.
    + rewrite ring_distance by (done || lia). lia.
    + intros j s2 Hj HS2. apply Hb; [done|]. by eapply same_trans.
    + cbn. intros r s2 [-> HS2]. split; [done|]. by eapply same_trans.
Qed.

Lemma wp_for_peers body s :
  (forall j s1, 0 <= j < npes e -> same s s1 -> wp (body j) (fun _ s2 => same s1 s2) s1) ->
  wp (for_peers e body) (fun r s' => r = 0 /\ same s s') s.
Proof.
  pose proof (ok_npes e OK). intros Hb. apply wp_peers_loop; [|..|done].
  - apply Z.mod_pos_bound. lia.
  - pose proof (Z.mod_pos_bound (mype e - (mype e + 1) mod npes e) (npes e)). lia.
Qed.

Lemma wp_map_by_size buf size s :
  Z.of_nat (length (peer_heap_base_p2p_ (obj s))) = npes e ->
  (exists r, last (p2p_handles_ (tab (obj s))) = Some r /\ Z.of_nat (length r) = row_len e) ->
  wp (map_heap_range_by_size e buf size) (fun r s' => r = 0 /\ same s s') s.
Proof.
  intros Hl Hr. pose proof (ok_transports e OK). apply wp_for_peers. intros j s1 Hj [HS HC].
  eapply wp_mono; [apply for_each_if_same; [lia|..]|cbn; tauto].
  - intros i s2 Hi _. apply wp_bind. eapply wp_mono; [apply wp_is_cap_map|]. cbn. intros b s3 HS3.
    by apply wp_ret.
  - intros i s2 Hi [HS2 HC2]. apply wp_bind. eapply wp_mono; [apply wp_map_by_pe|]; rewrite ?HS2, ?HS; try done.
    cbn. intros r s3 [-> HS3]. rewrite bool_decide_eq_false_2 by lia. by apply wp_ret.
Qed.

(** ** Gathering the handles of a chunk *)
Lemma wp_collect (P : Z -> Z -> Prop) cond f : forall n i s,
  (forall j s1, i <= j < i + Z.of_nat n -> same s s1 ->
     wp (c ← cond j; if (c : bool) then f j else mret (0, 0))
        (fun r s2 => r.1 = 0 /\ same s1 s2 /\ P j r.2) s1) ->
  wp (collect n i cond f)
     (fun r s' => r.1 = 0 /\ length r.2 = n /\ same s s' /\
                  forall k x, r.2 !! k = Some x -> P (i + Z.of_nat k) x) s.
Proof.
  induction n as [|n IH]; intros i s Hf; cbn [collect].
  - by apply wp_ret.
  - pose proof (Hf i s ltac:(lia) (same_refl s)) as Hi.
    apply wp_bind. unfold wp, mbind, H_bind in Hi |- *.
    destruct (cond i s) as [[c s1]|]; [|done]. cbn.
    destruct ((if c then f i else mret (0, 0)) s1) as [[[st x] s2]|]; [|done]. cbn in *.
    destruct Hi as (-> & HS & HP). rewrite bool_decide_eq_false_2 by lia.
    assert (wp (collect n (i + 1) cond f)
     (fun r s' => r.1 = 0 /\ length r.2 = n /\ same s2 s' /\
                  forall k x, r.2 !! k = Some x -> P (i + 1 + Z.of_nat k) x) s2) as Hr.
    { apply IH. intros j s3 Hj HS3. apply Hf; [lia|]. by eapply same_trans. }
    unfold wp in Hr. destruct (collect n (i + 1) cond f s2) as [[[st l] s3]|]; [|done]. cbn in *.
    destruct Hr as (-> & Hl & HS3 & HPl). split; [done|split; [by rewrite Hl|split; [by eapply same_trans|]]].
    intros [|k] y Hk; cbn in Hk; [injection Hk as <-; by rewrite Z.add_0_r|].
    replace (i + Z.of_nat (S k)) with (i + 1 + Z.of_nat k) by lia. by apply HPl.
Qed.

(** The transports whose [get_mem_handle] registers heap memory. *)
Definition cap_map (cs : list (list Z)) (t : Z) : bool :=
  bool_decide (Z.land (default 0 (cs !! Z.to_nat t ≫= fun l => l !! Z.to_nat (mype e)))
                      NVSHMEM_TRANSPORT_CAP_MAP <> 0).
Definition registers (cs : list (list Z)) (t : Z) : bool :=
  is_bit_set (transport_bitmap e) t && negb (cap_map cs t) && is_get_mem e t.

(** A row gathered when the chunk [start, start+len) was registered: this PE's
    words are what the transports returned for that chunk. *)
Definition row_of (cs : list (list Z)) (row : list Z) (start len : Z) : Prop :=
  exists l local, row = concat (gathered e l local) /\
    Z.of_nat (length local) = num_initialized_transports e /\
    forall t, 0 <= t < num_initialized_transports e -> registers cs t = true ->
      exists l', local !! Z.to_nat t = Some (value e l' (GetMemHandle t start len)).

Lemma wp_local_register buf size s :
  wp (local_handles e false (fun i => register_mem_handle e i buf size))
     (fun r s' => r.1 = 0 /\ Z.of_nat (length r.2) = num_initialized_transports e /\ same s s' /\
        forall t, 0 <= t < num_initialized_transports e -> registers (caps s) t = true ->
          exists l, r.2 !! Z.to_nat t = Some (value e l (GetMemHandle t buf size))) s.
Proof.
  pose proof (ok_transports e OK). unfold local_handles.
  eapply wp_mono; [apply (wp_collect (fun t x => registers (caps s) t = true ->
      exists l, x = value e l (GetMemHandle t buf size)))|].
  - intros j s1 Hj [HS HC]. do 2 apply wp_bind. unfold is_cap_map. apply wp_bind, wp_get_cap. cbn beta. apply wp_ret. cbn beta. apply wp_ret.
    cbn beta. rewrite HC. fold (cap_map (caps s) j). unfold registers.
    destruct (is_bit_set _ _); [|by apply wp_ret]. destruct (cap_map _ _); cbn; [by apply wp_ret|].
    unfold register_mem_handle. destruct (is_get_mem e j); [|by apply wp_ret].
    apply (wp_do_call_val e ST). cbn. split; [done|split; [done|]]. eauto.
  - cbn. intros [st l] s' (-> & Hl & HS & HP). cbn in *. split; [done|split; [lia|split; [done|]]].
    intros t Ht Hr. destruct (lookup_lt_is_Some_2 l (Z.to_nat t)) as [x Hx]; [lia|].
    destruct (HP _ _ Hx) as [l' ->]; [by rewrite Z.add_0_l, Z2Nat.id by lia|].
    exists l'. rewrite Z.add_0_l, Z2Nat.id in Hx by lia. done.
Qed.

Lemma wp_gather_row set rows local s :
  (forall r t, rows (set r t) = r) -> (forall r r' t, set r (set r' t) = set r t) ->
  wp (gather_row e set rows local)
     (fun r s' => r = 0 /\ caps s' = caps s /\ exists l,
        obj s' = with_tab (set (rows (tab (obj s)) ++ [concat (gathered e l local)]) (tab (obj s))) (obj s)) s.
Proof.
  intros H1 H2. unfold gather_row. apply wp_bind, wp_upd. apply wp_bind, (wp_allgather e ST).
  rewrite bool_decide_eq_false_2 by lia. apply wp_bind, wp_upd, wp_ret.
  split; [done|split; [done|]]. eexists. cbn. rewrite H1, H2, removelast_snoc. done.
Qed.

Lemma wp_gather_mem_handles off size ext s :
  wp (gather_mem_handles e off size ext) (fun r s' => r = 0 /\ same s s') s.
Proof.
  pose proof (ok_transports e OK). apply for_each_if_same; [lia|..].
  - intros. by apply wp_ret.
  - intros i s1 Hi _. apply wp_bind, wp_get_obj.
    do 2 (apply wp_jmp_ok, (wp_do_call e ST); split; [done|]). by apply wp_ret.
Qed.

(** ** The granule index *)
Definition set_idx (l : list idx_entry) (t : handle_tables) : handle_tables :=
  MkTab (remote_handles_ t) (p2p_handles_ t) (remote_mmap_handles_ t) l (idx_in_mmap_handles_ t)
    (heap_handle_cache_ t) (gather_mem_handles_done_ t).
Definition set_cache (c : Z) (t : handle_tables) : handle_tables :=
  MkTab (remote_handles_ t) (p2p_handles_ t) (remote_mmap_handles_ t) (idx_in_handles_ t)
    (idx_in_mmap_handles_ t) c (gather_mem_handles_done_ t).

Lemma with_tab_same h : with_tab (tab h) h = h.
Proof. by destruct h. Qed.
Lemma with_vmm_same h : with_vmm (vmm h) h = h.
Proof. by destruct h. Qed.

Definition new_entry (t : handle_tables) (addr size : Z) : idx_entry :=
  (Z.of_nat (length (remote_handles_ t)) - 1, addr, size).

Lemma wp_index_granules n addr size s :
  0 <= n ->
  wp (index_granules n addr size false)
     (fun r s' => r = 0 /\ caps s' = caps s /\
        obj s' = with_tab (set_idx (idx_in_handles_ (tab (obj s)) ++
                   replicate (Z.to_nat n) (new_entry (tab (obj s)) addr size)) (tab (obj s))) (obj s)) s.
Proof.
  intros Hn. unfold index_granules.
  eapply wp_mono; [apply (wp_for_each _ _ _ (fun k s' => 0 <= k /\ caps s' = caps s /\
     obj s' = with_tab (set_idx (idx_in_handles_ (tab (obj s)) ++
        replicate (Z.to_nat k) (new_entry (tab (obj s)) addr size)) (tab (obj s))) (obj s)))|].
  - split; [done|split; [done|]]. cbn. rewrite app_nil_r. unfold set_idx, with_tab. by destruct s as [[? [] ? ? ? ? ? ?] ? ?].
  - intros j s1 Hj (Hj0 & HC & HO). apply wp_bind, wp_bind, wp_get_obj, wp_upd, wp_ret.
    split; [done|split; [lia|split; [done|]]]. cbn. rewrite HO. cbn.
    replace (Z.to_nat (j + 1)) with (Z.to_nat j + 1)%nat by lia.
    rewrite replicate_add, app_assoc. done.
  - cbn. intros r s' (-> & _ & HC & HO). split; [done|split; [done|]]. rewrite HO.
    by rewrite Z2Nat.id by lia.
Qed.

(** One more granule of a user buffer, [k] granules done. *)
Fixpoint mmap_entries (n : nat) (first : Z) (entry : idx_entry) (m : gmap Z idx_entry) : gmap Z idx_entry :=
  match n with
  | O => m
  | S n => <[first + Z.of_nat n := entry]> (mmap_entries n first entry m)
  end.
Definition granule_of (h : heap) (addr : Z) : Z :=
  Z.shiftr (u64 (addr - heap_base_ (geo h))) (log2_mem_granularity_ (geo h)).

Lemma wp_index_granules_ext n addr size s :
  0 <= n ->
  wp (index_granules n addr size true)
     (fun r s' => r = 0 /\ caps s' = caps s /\
        obj s' = with_tab (set_idx_mmap (mmap_entries (Z.to_nat n) (granule_of (obj s) addr)
          (Z.of_nat (length (remote_mmap_handles_ (tab (obj s)))) - 1, addr, size)
          (idx_in_mmap_handles_ (tab (obj s)))) (tab (obj s))) (obj s)) s.
Proof.
  intros Hn. unfold index_granules.
  eapply wp_mono; [apply (wp_for_each _ _ _ (fun k s' => 0 <= k /\ caps s' = caps s /\
     obj s' = with_tab (set_idx_mmap (mmap_entries (Z.to_nat k) (granule_of (obj s) addr)
          (Z.of_nat (length (remote_mmap_handles_ (tab (obj s)))) - 1, addr, size)
          (idx_in_mmap_handles_ (tab (obj s)))) (tab (obj s))) (obj s)))|].
  - split; [done|split; [done|]]. cbn. unfold set_idx_mmap, with_tab. by destruct s as [[? [] ? ? ? ? ? ?] ? ?].
  - intros j s1 Hj (Hj0 & HC & HO). apply wp_bind, wp_bind, wp_get_obj, wp_upd, wp_ret.
    split; [done|split; [lia|split; [done|]]]. cbn. rewrite HO. cbn.
    replace (Z.to_nat (j + 1)) with (S (Z.to_nat j)) by lia. cbn. rewrite Z2Nat.id by lia. done.
  - cbn. intros r s' (-> & _ & HC & HO). split; [done|split; [done|]]. rewrite HO.
    by rewrite Z2Nat.id by lia.
Qed.

Lemma wp_update_cache buf size s :
  0 <= size -> 0 < mem_granularity_ (geo (obj s)) ->
  wp (update_heap_handle_cache e buf size false)
     (fun r s' => r = 0 /\ caps s' = caps s /\ exists c,
        obj s' = with_tab (set_cache c (set_idx (idx_in_handles_ (tab (obj s)) ++
                   replicate (Z.to_nat (size / mem_granularity_ (geo (obj s))))
                     (new_entry (tab (obj s)) buf size)) (tab (obj s)))) (obj s)) s.
Proof.
  intros Hs Hg. unfold update_heap_handle_cache. apply wp_bind, wp_get_obj. rewrite (ok_rail e OK).
  apply wp_bind, wp_bind. eapply wp_lift; [unfold cdiv; by rewrite bool_decide_eq_false_2 by lia|].
  eapply wp_mono; [apply wp_index_granules; apply Z.div_pos; lia|]. cbn.
  intros r s' (-> & HC & HO). apply wp_bind, wp_get_obj.
  destruct (empty_heap_handle_cache _).
  - apply wp_bind, wp_upd, wp_ret. split; [done|split; [done|]]. cbn. rewrite HO. by eexists.
  - apply wp_ret. split; [done|split; [done|]]. eexists. rewrite HO. cbn. done.
Qed.

(** ** Mapping the peers: only the rows of [p2p_handles_] change *)
Definition p2p_row_ok (s : st) : Prop :=
  exists r, last (p2p_handles_ (tab (obj s))) = Some r /\ Z.of_nat (length r) = row_len e.

Lemma wp_ipc c s : wp (ipc e c) (fun _ s' => same s s') s.
Proof.
  unfold ipc. apply wp_bind, (wp_do_call_val e ST). rewrite bool_decide_eq_false_2 by lia. by apply wp_ret.
Qed.

(** A loop over the processes of the node. *)
Lemma wp_over_peers (I : st -> Prop) f : forall ps s,
  Forall (fun p => 0 <= p.2 < npes e) ps -> I s ->
  (forall p s1, 0 <= p.2 < npes e -> I s1 -> wp (f p) (fun _ s2 => I s2) s1) ->
  wp (over_peers e ps f) (fun _ s' => I s') s.
Proof.
  induction ps as [|p ps IH]; intros s HF HI Hf; cbn [over_peers]; [by apply wp_ret|].
  apply Forall_cons in HF as [Hp HF]. apply wp_bind. case_bool_decide.
  - apply wp_ret. by apply IH.
  - eapply wp_mono; [by apply Hf|]. cbn. intros _ s1 HI1. by apply IH.
Qed.

Lemma wp_ipc_peers (c : Z -> call) s :
  wp (over_peers e (proc_map e) (fun p => _ ← ipc e (c p.1); mret tt)) (fun _ s' => same s s') s.
Proof.
  apply (wp_over_peers (same s)); [apply (ok_proc_map e OK)|done|].
  intros p s1 _ HS. apply wp_bind. eapply wp_mono; [apply wp_ipc|]. cbn. intros v s2 HS2.
  apply wp_ret. by eapply same_trans.
Qed.

Lemma set_back_row rows i v r :
  last rows = Some r -> 0 <= i < Z.of_nat (length r) ->
  exists rows', set_back rows i v = Ret rows' /\
    exists r', last rows' = Some r' /\ length r' = length r.
Proof.
  intros Hr Hi. unfold set_back. rewrite Hr, bool_decide_eq_true_2 by done.
  eexists. split; [done|]. eexists. rewrite last_snoc. split; [done|]. by rewrite length_insert.
Qed.

Lemma wp_exchange local s :
  Z.of_nat (length local) = num_initialized_transports e -> p2p_row_ok s ->
  wp (exchange_heap_memory_handle e local)
     (fun _ s' => same_but_p2p s s' /\ p2p_row_ok s') s.
Proof.
  intros Hl HR. pose proof (ok_transports e OK) as HT. unfold exchange_heap_memory_handle.
  assert (forall s', same s s' -> same_but_p2p s s' /\ p2p_row_ok s') as Hsame.
  { intros s' [HO HC]. split.
    - exists (p2p_handles_ (tab (obj s))). rewrite HO, HC. split; [|done].
      unfold with_tab, set_p2p. by destruct s as [[? [] ? ? ? ? ? ?] ? ?].
    - unfold p2p_row_ok. by rewrite HO. }
  destruct (is_ipc e); [|apply wp_ret; by apply Hsame].
  apply wp_bind. eapply wp_mono; [apply wp_ipc|]. cbn. intros _ s1 HS1.
  apply wp_bind. eapply wp_mono; [apply (wp_ipc_peers IpcOpen)|]. cbn. intros _ s2 HS2.
  apply wp_bind, (wp_do_call e ST).
  destruct (arr_get_some local 0) as (fd & Hfd & _); [lia|].
  apply wp_bind. eapply wp_lift; [exact Hfd|].
  apply wp_bind. eapply wp_mono; [apply (wp_ipc_peers (IpcSend fd))|]. cbn. intros _ s3 HS3.
  assert (same s s3) as HS by (eapply same_trans; [|eapply same_trans; [exact HS2|exact HS3]]; done).
  apply wp_bind.
  eapply wp_mono; [apply (wp_over_peers (fun s' => same_but_p2p s s' /\ p2p_row_ok s'))|].
  - apply (ok_proc_map e OK).
  - by apply Hsame.
  - intros p s4 Hp [(r & HO & HC) (row & Hrow & Hlen)].
    apply wp_bind. eapply wp_mono; [apply wp_ipc|]. cbn. intros v s5 [HO5 HC5].
    apply wp_bind, wp_get_obj. rewrite HO5.
    destruct (set_back_row (p2p_handles_ (tab (obj s4))) (p.2 * num_initialized_transports e) v row Hrow)
      as (rows' & Hset & r' & Hr' & Hl'); [unfold row_len in Hlen; nia|].
    apply wp_bind. eapply wp_lift; [exact Hset|]. apply wp_upd. cbn.
    split; [|exists r'; cbn; rewrite Hl'; done].
    exists rows'. cbn. rewrite HO5, HO, HC5. done.
  - cbn. intros _ s4 HI. apply wp_bind, (wp_do_call e ST).
    apply wp_bind. eapply wp_mono; [apply wp_ipc|]. cbn. intros _ s5 [HO5 HC5].
    apply wp_bind. eapply wp_mono; [apply (wp_ipc_peers IpcClose)|]. cbn. intros _ s6 [HO6 HC6].
    apply wp_ret. unfold same_but_p2p, p2p_row_ok in *. rewrite HO6, HC6, HO5, HC5. exact HI.
Qed.

Lemma wp_local_export x s :
  wp (local_handles e true (fun i => export_memory e x))
     (fun r s' => r.1 = 0 /\ Z.of_nat (length r.2) = num_initialized_transports e /\ same s s') s.
Proof.
  pose proof (ok_transports e OK). unfold local_handles.
  eapply wp_mono; [apply (wp_collect (fun _ _ => True))|].
  - intros j s1 Hj _. do 2 apply wp_bind. unfold is_cap_map. apply wp_bind, wp_get_cap, wp_ret.
    cbn beta. apply wp_ret. destruct (_ && _); [|by apply wp_ret].
    unfold export_memory. apply wp_bind, wp_get_obj. rewrite (ok_kind e OK).
    by apply (wp_do_call_val e ST).
  - cbn. intros [st l] s' (-> & Hl & HS & _). cbn in *. split; [done|split; [lia|done]].
Qed.

Lemma wp_map_heap_memory x buf size s :
  Z.of_nat (length (peer_heap_base_p2p_ (obj s))) = npes e ->
  wp (map_heap_memory_dynamic e x buf size) (fun r s' => r = 0 /\ same_but_p2p s s') s.
Proof.
  intros Hp. unfold map_heap_memory_dynamic.
  apply wp_bind. eapply wp_mono; [apply wp_local_export|]. cbn. intros [st local] s1 (Hst & Hlen & HO1 & HC1).
  cbn in Hst, Hlen. subst st. apply wp_jmp_ok, wp_ret. split; [done|].
  apply wp_jmp_ok. eapply wp_mono; [by apply wp_gather_row|]. cbn. intros r s2 (-> & HC2 & l & HO2).
  split; [done|]. apply wp_bind.
  eapply wp_mono; [apply wp_exchange; [done|]|].
  { exists (concat (gathered e l local)). rewrite HO2. cbn. rewrite last_snoc. split; [done|].
    by apply row_shape. }
  cbn. intros _ s3 [(rows & HO3 & HC3) HR3]. apply wp_jmp_ok.
  eapply wp_mono; [apply wp_map_by_size; [|exact HR3]|].
  { rewrite HO3. cbn. rewrite HO2. cbn. by rewrite HO1. }
  cbn. intros r s4 [-> [HO4 HC4]]. split; [done|]. apply wp_ret. split; [done|].
  exists rows. rewrite HO4, HO3, HO2, HO1, HC4, HC3, HC2, HC1. done.
Qed.

(** ** Registering one chunk of internal memory *)
Definition registered (cs : list (list Z)) (h : heap) (buf size : Z) (h' : heap) : Prop :=
  exists row c, row_of cs row buf size /\
    h' = with_tab (set_cache c (set_idx (idx_in_handles_ (tab h) ++
           replicate (Z.to_nat (size / mem_granularity_ (geo h)))
             (Z.of_nat (length (remote_handles_ (tab h))), buf, size))
           (set_remote (remote_handles_ (tab h) ++ [row]) (tab h)))) h.

Lemma wp_register_chunk buf size s :
  0 <= size -> 0 < mem_granularity_ (geo (obj s)) ->
  wp (register_heap_chunk_by_size_dynamic e buf size false)
     (fun r s' => r = 0 /\ caps s' = caps s /\ registered (caps s) (obj s) buf size (obj s')) s.
Proof.
  intros Hs Hg. unfold register_heap_chunk_by_size_dynamic.
  apply wp_bind. eapply wp_mono; [apply wp_local_register|].
  intros [st local] s1 (Hst & Hlen & [HO1 HC1] & Hloc). cbn in Hst, Hlen, Hloc. subst st.
  apply wp_jmp_ok, wp_ret. split; [done|].
  apply wp_jmp_ok. eapply wp_mono; [by apply wp_gather_row|]. cbn. intros r s2 (-> & HC2 & l & HO2).
  split; [done|]. apply wp_bind, wp_get_obj.
  apply wp_jmp_ok. eapply wp_mono; [apply wp_gather_mem_handles|]. cbn. intros r s3 [-> [HO3 HC3]].
  split; [done|].
  apply wp_jmp_ok. eapply wp_mono; [apply wp_update_cache; [done|]|].
  { rewrite HO3, HO2. cbn. by rewrite HO1. }
  intros r s4 (-> & HC4 & c & HO4). split; [done|]. apply wp_ret.
  split; [done|split; [by rewrite HC4, HC3, HC2|]].
  exists (concat (gathered e l local)), c. split.
  - exists l, local. split; [done|split; [done|]]. exact Hloc.
  - rewrite HO4, HO3, HO2, HO1. unfold new_entry. cbn. rewrite length_app. cbn.
    replace (Z.of_nat (length (remote_handles_ (tab (obj s))) + 1) - 1)
      with (Z.of_nat (length (remote_handles_ (tab (obj s))))) by lia. done.
Qed.

(** ** The invariant of the handle table *)
Record geo_ok (g : geometry) : Prop := {
  geo_gran : mem_granularity_ g = 2 ^ log2_mem_granularity_ g;
  geo_log : 9 <= log2_mem_granularity_ g <= 31;
  geo_size : 0 <= heap_size_ g /\ heap_size_ g mod mem_granularity_ g = 0;
  geo_base : 0 < heap_base_ g /\ heap_base_ g mod NVSHMEMI_MALLOC_ALIGNMENT = 0;
  geo_end : heap_base_ g + heap_size_ g < 2 ^ 64;
  geo_mmap : mmap_base_ g = heap_base_ g + heap_size_ g
}.

(** Entry [i] describes a registered chunk of the physical part that contains
    granule [i], and names the row gathered for that chunk. *)
Record idx_ok (cs : list (list Z)) (h : heap) : Prop := {
  idx_length : Z.of_nat (length (idx_in_handles_ (tab h))) * mem_granularity_ (geo h) =
               physical_internal_heap_size_ h;
  idx_entries : forall i k start len, idx_in_handles_ (tab h) !! i = Some (k, start, len) ->
    heap_base_ (geo h) <= start /\
    start + len <= heap_base_ (geo h) + physical_internal_heap_size_ h /\
    start <= heap_base_ (geo h) + Z.of_nat i * mem_granularity_ (geo h) /\
    heap_base_ (geo h) + (Z.of_nat i + 1) * mem_granularity_ (geo h) <= start + len /\
    0 <= k /\ exists row, remote_handles_ (tab h) !! Z.to_nat k = Some row /\ row_of cs row start len
}.

(** What registration leaves alone, and that it only appends to the tables. *)
Record only_grows (h h' : heap) : Prop := {
  og_geo : geo h' = geo h;
  og_vmm : vmm h' = vmm h;
  og_mspace : heap_mspace_ h' = heap_mspace_ h;
  og_mmap : mmap_mspace_ h' = mmap_mspace_ h;
  og_peers : peer_heap_base_p2p_ h' = peer_heap_base_p2p_ h;
  og_mmap_rows : remote_mmap_handles_ (tab h') = remote_mmap_handles_ (tab h);
  og_mmap_idx : idx_in_mmap_handles_ (tab h') = idx_in_mmap_handles_ (tab h);
  og_rows : remote_handles_ (tab h) `prefix_of` remote_handles_ (tab h');
  og_idx : idx_in_handles_ (tab h) `prefix_of` idx_in_handles_ (tab h')
}.

Lemma only_grows_refl h : only_grows h h.
Proof. by split. Qed.
Lemma only_grows_trans h1 h2 h3 : only_grows h1 h2 -> only_grows h2 h3 -> only_grows h1 h3.
Proof. intros [] []. split; try congruence; by etrans. Qed.

Lemma geo_gran_pos g : geo_ok g -> 512 <= mem_granularity_ g <= 2 ^ 31.
Proof.
  intros [-> Hl _ _ _ _]. split.
  - change 512 with (2 ^ 9). apply Z.pow_le_mono_r; lia.
  - apply Z.pow_le_mono_r; lia.
Qed.

(** The granularity divides the largest chunk, so the adjusted length is it. *)
Lemma gran_divides g : geo_ok g -> exists q, 0 < q /\ NVSHMEMI_MAX_HANDLE_LENGTH = mem_granularity_ g * q.
Proof.
  intros [-> Hl _ _ _ _]. exists (2 ^ (31 - log2_mem_granularity_ g)). split; [apply pow2_pos; lia|].
  rewrite <- Z.pow_add_r by lia. by replace (log2_mem_granularity_ g + (31 - log2_mem_granularity_ g)) with 31 by lia.
Qed.

Lemma wp_adjusted s :
  geo_ok (geo (obj s)) ->
  wp adjusted_max_handle_len (fun r s' => r = NVSHMEMI_MAX_HANDLE_LENGTH /\ s' = s) s.
Proof.
  intros HG. pose proof (geo_gran_pos _ HG). destruct (gran_divides _ HG) as (q & Hq & Hm).
  unfold adjusted_max_handle_len. apply wp_bind. unfold gran. apply wp_bind, wp_get_obj, wp_ret.
  apply wp_bind. eapply wp_lift; [unfold cdiv; by rewrite bool_decide_eq_false_2 by lia|].
  apply wp_ret. split; [|done]. rewrite Hm, (Z.mul_comm _ q), Z.div_mul by lia. lia.
Qed.

(** The chunk the loop takes is a positive number of granules. *)
Lemma chunk_len_granules g rem :
  geo_ok g -> 0 < rem -> rem mod mem_granularity_ g = 0 ->
  let n := chunk_len rem NVSHMEMI_MAX_HANDLE_LENGTH in
  0 < n <= rem /\ n mod mem_granularity_ g = 0 /\ (rem - n) mod mem_granularity_ g = 0 /\
  (n = rem \/ n = NVSHMEMI_MAX_HANDLE_LENGTH /\ NVSHMEMI_MAX_HANDLE_LENGTH < rem).
Proof.
  intros HG Hr Hm. pose proof (geo_gran_pos _ HG). destruct (gran_divides _ HG) as (q & Hq & HM).
  apply Z.mod_divide in Hm as [k Hk]; [|lia]. unfold chunk_len. case_bool_decide as Hc.
  - assert (0 < NVSHMEMI_MAX_HANDLE_LENGTH) by (unfold NVSHMEMI_MAX_HANDLE_LENGTH; lia).
    split; [lia|]. rewrite HM. split; [rewrite Z.mul_comm; apply Z.mod_mul; lia|].
    split; [|right; rewrite <- HM; split; lia]. rewrite Hk.
    replace (k * mem_granularity_ g - mem_granularity_ g * q) with ((k - q) * mem_granularity_ g) by lia.
    apply Z.mod_mul. lia.
  - split; [lia|]. split; [rewrite Hk; apply Z.mod_mul; lia|]. split; [|by left].
    rewrite Z.sub_diag. apply Z.mod_0_l. lia.
Qed.

(** Registering the chunk that starts where the physical part ends extends the
    invariant by it. *)
Lemma registered_idx_ok cs h buf n h1 :
  0 < mem_granularity_ (geo h) -> idx_ok cs h -> buf = heap_base_ (geo h) + physical_internal_heap_size_ h ->
  0 < n -> n mod mem_granularity_ (geo h) = 0 -> registered cs h buf n h1 ->
  idx_ok cs (with_physical (physical_internal_heap_size_ h + n) h1) /\
  only_grows h (with_physical (physical_internal_heap_size_ h + n) h1).
Proof.
  intros Hg [HL HE] -> Hn Hm (row & c & Hrow & ->).
  apply Z.mod_divide in Hm as [k Hk]; [|lia]. assert (0 < k) by nia.
  set (g := mem_granularity_ (geo h)) in *. rewrite Hk, Z.div_mul by lia.
  split; [|by split; cbn; try done; apply prefix_app_r].
  split; cbn.
  - rewrite length_app, length_replicate. nia.
  - intros i j start len [Hi|[Hl Hi]]%lookup_app_Some.
    + destruct (HE _ _ _ _ Hi) as (H1 & H2 & H3 & H4 & H5 & r & Hr & Hro).
      fold g in H2, H3, H4. split_and!; [lia..|]. exists r. split; [|done].
      by apply lookup_app_l_Some.
    + apply lookup_replicate in Hi as [[= -> -> ->] Hi].
      assert (Z.of_nat i + 1 <= Z.of_nat (length (idx_in_handles_ (tab h))) + k) as Hi1 by lia.
      apply (Z.mul_le_mono_nonneg_r _ _ g) in Hi1; [|lia].
      assert (Z.of_nat (length (idx_in_handles_ (tab h))) <= Z.of_nat i) as Hi2 by lia.
      apply (Z.mul_le_mono_nonneg_r _ _ g) in Hi2; [|lia].
      fold g. split_and!; [lia..|]. exists row. rewrite <- Hk in *. split; [|done].
      rewrite Nat2Z.id. rewrite lookup_app_r, Nat.sub_diag by lia. done.
Qed.

(** ** The registration loop *)
Lemma wp_register_loop fuel : forall buf rem s,
  geo_ok (geo (obj s)) -> idx_ok (caps s) (obj s) ->
  buf = heap_base_ (geo (obj s)) + physical_internal_heap_size_ (obj s) ->
  0 < rem -> rem mod mem_granularity_ (geo (obj s)) = 0 ->
  0 <= physical_internal_heap_size_ (obj s) -> physical_internal_heap_size_ (obj s) + rem < 2 ^ 64 ->
  rem / NVSHMEMI_MAX_HANDLE_LENGTH < Z.of_nat fuel ->
  wp (register_loop fuel NVSHMEMI_MAX_HANDLE_LENGTH
        (fun b n => register_heap_chunk_by_size_dynamic e b n false) true buf rem)
     (fun r s' => r = 0 /\ caps s' = caps s /\ idx_ok (caps s) (obj s') /\
        physical_internal_heap_size_ (obj s') = physical_internal_heap_size_ (obj s) + rem /\
        only_grows (obj s) (obj s')) s.
Proof.
  induction fuel as [|fuel IH]; intros buf rem s HG HI Hb Hr Hm Hp Hbound Hf.
  { pose proof (Z.div_pos rem NVSHMEMI_MAX_HANDLE_LENGTH ltac:(lia) ltac:(done)). lia. }
  cbn [register_loop].
  destruct (chunk_len_granules _ rem HG Hr Hm) as (Hn & Hnm & Hrm & Hcase).
  set (n := chunk_len rem NVSHMEMI_MAX_HANDLE_LENGTH) in *.
  pose proof (geo_gran_pos _ HG) as Hg.
  apply wp_jmp_ok. eapply wp_mono; [apply wp_register_chunk; lia|]. cbn.
  intros r s1 (-> & HC1 & HR). split; [done|].
  destruct (registered_idx_ok (caps s) (obj s) buf n (obj s1) ltac:(lia) HI Hb ltac:(lia) Hnm HR) as [HI1 HG1].
  assert (physical_internal_heap_size_ (obj s1) = physical_internal_heap_size_ (obj s)) as HP1
    by (by destruct HR as (row & c & _ & ->)).
  apply wp_bind, wp_upd. rewrite HP1, (wrap_small 64 (_ + n)) by (unfold in_u; lia).
  apply wp_bind. eapply wp_lift; [unfold cassert; by rewrite bool_decide_eq_true_2 by lia|].
  case_bool_decide as Hz.
  - apply wp_ret. cbn. split; [done|split; [done|]].
    split; [by replace rem with n by lia; exact HI1|]. split; [lia|exact HG1].
  - destruct Hcase as [?|[Hmax Hlt]]; [lia|].
    eapply wp_mono; [apply IH|]; cbn.
    + by rewrite (og_geo _ _ HG1 : geo (obj s1) = geo (obj s)).
    + by rewrite HC1.
    + rewrite (og_geo _ _ HG1 : geo (obj s1) = geo (obj s)). lia.
    + lia.
    + by rewrite (og_geo _ _ HG1 : geo (obj s1) = geo (obj s)).
    + lia.
    + lia.
    + rewrite Hmax. replace (rem - NVSHMEMI_MAX_HANDLE_LENGTH) with (rem + (-1) * NVSHMEMI_MAX_HANDLE_LENGTH) by lia.
      rewrite Z.div_add by done. lia.
    + cbn. intros r s2 (-> & HC2 & HI2 & HP2 & HG2). split; [done|split; [congruence|]].
      rewrite HC1 in HI2. split; [done|]. split; [lia|]. by eapply only_grows_trans.
Qed.

(** ** The invariant of the VMM heap *)
Record heap_ok (cs : list (list Z)) (h : heap) : Prop := {
  hk_geo : geo_ok (geo h);
  hk_peers : Z.of_nat (length (peer_heap_base_p2p_ h)) = npes e;
  hk_range : 0 <= mmap_range e h;
  hk_room : 0 <= physical_internal_heap_size_ h /\
            physical_internal_heap_size_ h + mmap_range e h <= heap_size_ (geo h);
  hk_idx : idx_ok cs h;
  hk_wf : wf (heap_mspace_ h);
  hk_total : total_size (heap_mspace_ h) = physical_internal_heap_size_ h;
  hk_bytes : forall x, free_byte (heap_mspace_ h) x \/ used_byte (heap_mspace_ h) x <->
    heap_base_ (geo h) <= x < heap_base_ (geo h) + physical_internal_heap_size_ h
}.

(** Nothing the allocator knows reaches beyond the physical part. *)
Lemma hk_fresh cs h n :
  heap_ok cs h -> 0 < n -> heap_base_ (geo h) + physical_internal_heap_size_ h + n < 2 ^ 64 ->
  fresh_block (heap_mspace_ h) (heap_base_ (geo h) + physical_internal_heap_size_ h) n.
Proof.
  intros [HG _ _ [HP _] [HL _] W _ HB] Hn Hmax.
  pose proof (geo_gran_pos _ HG) as Hg. destruct (geo_base _ HG) as [Hb0 Hb512].
  assert (forall b t, 0 < t -> (forall x, b <= x < b + t -> free_byte (heap_mspace_ h) x \/ used_byte (heap_mspace_ h) x) ->
     apart (heap_base_ (geo h) + physical_internal_heap_size_ h) n b t) as Hapart.
  { intros b t Ht Hx. right. specialize (Hx (b + t - 1) ltac:(lia)). apply HB in Hx. lia. }
  split.
  - split_and!; [lia..|].
    assert (mem_granularity_ (geo h) mod 512 = 0) as Hg512.
    { rewrite (geo_gran _ HG). replace (log2_mem_granularity_ (geo h)) with ((log2_mem_granularity_ (geo h) - 9) + 9) by lia.
      rewrite Z.pow_add_r by (pose proof (geo_log _ HG); lia). apply Z.mod_mul. lia. }
    rewrite <- HL. unfold NVSHMEMI_MALLOC_ALIGNMENT in *.
    rewrite Z.add_mod, Hb512, Z.mul_mod, Hg512 by lia. by rewrite Z.mul_0_r.
  - intros b t Hb. pose proof (wf_free_range _ _ W _ _ Hb). apply Hapart; [lia|].
    intros x Hx. left. by exists b, t.
  - intros b t Hb. pose proof (wf_use_range _ _ W _ _ Hb). apply Hapart; [lia|].
    intros x Hx. right. by exists b, t.
Qed.

Lemma round_up_granules n g :
  0 < g -> 0 < n -> n + g <= 2 ^ 64 ->
  exists z, NVSHMEMU_ROUND_UP n g = Ret z /\ n <= z < n + g /\ z mod g = 0.
Proof.
  intros Hg Hn Hmax. unfold NVSHMEMU_ROUND_UP, cdiv. rewrite bool_decide_eq_false_2 by lia. cbn.
  rewrite (wrap_small 64 (n + g - 1)) by (unfold in_u; lia).
  pose proof (Z.div_mod (n + g - 1) g ltac:(lia)) as Hd.
  pose proof (Z.mod_pos_bound (n + g - 1) g ltac:(lia)) as Hb.
  rewrite (wrap_small 64) by (unfold in_u; nia).
  eexists. split; [done|]. split; [nia|]. apply Z.mod_mul. lia.
Qed.

(** ** Growth *)
Record grows (cs : list (list Z)) (h : heap) (n : Z) (h' : heap) : Prop := {
  gr_ok : heap_ok cs h';
  gr_geo : geo h' = geo h;
  gr_phys : physical_internal_heap_size_ h' = physical_internal_heap_size_ h + n;
  gr_use : inuse_chunks (heap_mspace_ h') = inuse_chunks (heap_mspace_ h);
  gr_free : forall x, free_byte (heap_mspace_ h') x <->
     (heap_base_ (geo h) + physical_internal_heap_size_ h <= x <
        heap_base_ (geo h) + physical_internal_heap_size_ h + n \/ free_byte (heap_mspace_ h) x);
  gr_mmap : mmap_mspace_ h' = mmap_mspace_ h;
  gr_mmap_rows : remote_mmap_handles_ (tab h') = remote_mmap_handles_ (tab h);
  gr_mmap_idx : idx_in_mmap_handles_ (tab h') = idx_in_mmap_handles_ (tab h);
  gr_idx : idx_in_handles_ (tab h) `prefix_of` idx_in_handles_ (tab h')
}.

Lemma mmap_range_same h h' : geo h' = geo h -> mmap_mspace_ h' = mmap_mspace_ h -> mmap_range e h' = mmap_range e h.
Proof. unfold mmap_range. by intros -> ->. Qed.

Lemma used_byte_same m m' x : inuse_chunks m' = inuse_chunks m -> used_byte m' x <-> used_byte m x.
Proof. unfold used_byte. by intros ->. Qed.

(** Registration of new physical memory at the end of the physical part. *)
Lemma wp_register_internal x n s :
  heap_ok (caps s) (obj s) -> 0 < n < NVSHMEMI_DMA_BUF_MAX_LENGTH ->
  n mod mem_granularity_ (geo (obj s)) = 0 ->
  physical_internal_heap_size_ (obj s) + mmap_range e (obj s) + n <= heap_size_ (geo (obj s)) ->
  wp (register_heap_memory_dynamic e x (heap_base_ (geo (obj s)) + physical_internal_heap_size_ (obj s)) n false)
     (fun r s' => r = 0 /\ caps s' = caps s /\ vmm (obj s') = vmm (obj s) /\ grows (caps s) (obj s) n (obj s')) s.
Proof.
  intros HK Hn Hm Hroom. pose proof HK as [HG HPe HR0 HR HI W HT HB].
  pose proof (geo_gran_pos _ HG) as Hg. pose proof (geo_base _ HG). pose proof (geo_end _ HG).
  unfold register_heap_memory_dynamic. rewrite bool_decide_eq_false_2 by lia.
  apply wp_bind. eapply wp_mono; [by apply wp_adjusted|]. cbn. intros r s0 [-> ->].
  do 2 (apply wp_bind; eapply wp_lift; [unfold cassert; by rewrite bool_decide_eq_true_2 by lia|]).
  apply wp_jmp_ok. eapply wp_mono; [by apply wp_map_heap_memory|]. cbn. intros r s1 (-> & rows & HO1 & HC1).
  split; [done|].
  pose proof (hk_fresh _ _ n HK ltac:(lia) ltac:(lia)) as F.
  destruct (add_new_chunk_spec _ _ _ W F ltac:(lia)) as (m' & Em & Wm & Um & Tm & Bm).
  apply wp_jmp_ok. unfold extend_heap_mspace. apply wp_bind, wp_get_obj. apply wp_bind.
  eapply wp_lift; [rewrite HO1; exact Em|]. apply wp_bind, wp_upd, wp_ret. split; [done|].
  eapply wp_mono; [apply wp_register_loop|]; cbn; rewrite ?HO1; cbn; try done; try lia.
  - by destruct HI; split; cbn; rewrite ?HC1.
  - unfold chunk_fuel. pose proof (Z.div_pos n NVSHMEMI_MAX_HANDLE_LENGTH ltac:(lia) ltac:(done)). lia.
  - intros r s2 (-> & HC2 & HI2 & HP2 & [Og Ov Om Omm Op Omr Omi Or Oi]). cbn in *.
    split; [done|split; [congruence|split; [congruence|]]].
    assert (mmap_range e (obj s2) = mmap_range e (obj s)) as HRs by (by apply mmap_range_same).
    split; try done.
    + split; rewrite ?HRs, ?Og, ?Om, ?HP2, ?Op; try done; try lia.
      * by rewrite <- HC1.
      * intros y. rewrite Bm, (used_byte_same _ _ y Um). destruct (HB y) as [Hin Hout]. split.
        -- intros [[Hy|Hy]|Hy]; [lia|pose proof (Hin (or_introl Hy)); lia|pose proof (Hin (or_intror Hy)); lia].
        -- intros Hy. destruct (decide (y < heap_base_ (geo (obj s)) + physical_internal_heap_size_ (obj s))).
           ++ destruct Hout; [lia|tauto..].
           ++ left. left. lia.
    + by rewrite Om.
    + by rewrite Om.
Qed.

(** The same with the start given by an equation. *)
Lemma wp_register_internal_at x buf n s :
  buf = heap_base_ (geo (obj s)) + physical_internal_heap_size_ (obj s) ->
  heap_ok (caps s) (obj s) -> 0 < n < NVSHMEMI_DMA_BUF_MAX_LENGTH ->
  n mod mem_granularity_ (geo (obj s)) = 0 ->
  physical_internal_heap_size_ (obj s) + mmap_range e (obj s) + n <= heap_size_ (geo (obj s)) ->
  wp (register_heap_memory_dynamic e x buf n false)
     (fun r s' => r = 0 /\ caps s' = caps s /\ vmm (obj s') = vmm (obj s) /\ grows (caps s) (obj s) n (obj s')) s.
Proof. intros ->. apply wp_register_internal. Qed.

End Routines.
End HeapSpec.
