(* ===== verification/HeapSetup.v ===== *)
(** * The symmetric heap: reservation and the windows of the peers

    [reserve_heap] and [setup_symmetric_heap] of the VMM heap establish the
    invariant [heap_ok]; the windows at which the peers' heaps are mapped are
    disjoint and inside the reserved range when every peer is reached by one
    mapping transport, and not otherwise. *)
From stdpp Require Import base gmap list.
From Stdlib Require Import ZArith Lia.
From S2P Require Import Prelude Mspace MspaceSpec HeapState Heap HeapAlloc HeapSpec.
Import Mspace HeapState Heap HeapAlloc HeapSpec.

Module HeapSetup.

(** ** The logarithm of the granularity *)
Lemma compute_log2_spec fuel : forall x y,
  0 < x -> Z.log2 x <= Z.of_nat fuel -> compute_log2 fuel x y = y + Z.log2 x.
Proof.
  induction fuel as [|fuel IH]; intros x y Hx Hf; cbn [compute_log2].
  - pose proof (Z.log2_nonneg x). lia.
  - assert (Z.shiftr x 1 = x / 2) as -> by (rewrite Z.shiftr_div_pow2 by lia; done).
    case_bool_decide as Hc.
    + assert (0 < x / 2) by (pose proof (Z.div_pos x 2); lia).
      assert (Z.log2 x = Z.log2 (x / 2) + 1) as Hlog.
      { replace (x / 2) with (Z.shiftr x 1) by (rewrite Z.shiftr_div_pow2 by lia; done).
        rewrite Z.log2_shiftr by done. assert (1 <= Z.log2 x); [|lia].
        change 1 with (Z.log2 2). apply Z.log2_le_mono. Z.div_mod_to_equations. lia. }
      rewrite IH by lia. lia.
    + assert (x = 1) as -> by (Z.div_mod_to_equations; lia). cbn. lia.
Qed.

Lemma log2_correct x : 0 < x < 2 ^ 64 -> nvshmemu_compute_log2 x = Z.log2 x.
Proof.
  intros Hx. unfold nvshmemu_compute_log2. rewrite compute_log2_spec; [lia|lia|].
  assert (Z.log2 x < 64); [|lia]. apply Z.log2_lt_pow2; lia.
Qed.

Lemma pow2_land k : 0 <= k -> Z.land (2 ^ k) (2 ^ k - 1) = 0.
Proof. intros Hk. rewrite land_low_mask by done. apply Z.mod_same. pose proof (pow2_pos k). lia. Qed.

Section Setup.
Context (e : henv) (OK : env_ok e).
Let ST := ok_status e OK.

(** The granularity the heap ends up with. *)
Definition granularity (recommended : Z) : Z :=
  let g := Z.max (CUMEM_GRANULARITY e) recommended in
  if bool_decide (g < NVSHMEMI_MAX_HANDLE_LENGTH) then g else NVSHMEMI_MAX_HANDLE_LENGTH.
Definition heapextra : Z :=
  G_BUF_SIZE e + teams_mem_requirement e + G_COALESCING_BUF_SIZE e + 24 * NVSHMEMI_MALLOC_ALIGNMENT.

(** What CUDA and the options give at start-up: granularities that are powers
    of two, a reserved range that is aligned and inside the address space. *)
Record boot_ok : Prop := {
  bt_gran : forall l, exists k, 9 <= k <= 31 /\ granularity (value e l CuMemGetAllocationGranularity) = 2 ^ k;
  bt_sizes : 0 <= G_BUF_SIZE e /\ 0 <= teams_mem_requirement e /\ 0 <= G_COALESCING_BUF_SIZE e;
  bt_max : Z.max (MAX_MEMORY_PER_GPU e) heapextra <= 2 ^ 56;
  bt_p2p : 0 < get_num_p2p_connected_pes e <= 64;
  bt_base : forall l n a, 0 < value e l (CuMemAddressReserve n a) < 2 ^ 62 /\
                          value e l (CuMemAddressReserve n a) mod NVSHMEMI_MALLOC_ALIGNMENT = 0
}.

Lemma mspace_new_zero base : base mod NVSHMEMI_MALLOC_ALIGNMENT = 0 -> mspace_new base 0 = mspace_empty.
Proof.
  intros Hb. unfold mspace_new. assert (align_offset base = 0) as ->; [|done].
  unfold align_offset, CHUNK_ALIGN_MASK, NVSHMEMI_MALLOC_ALIGNMENT in *.
  change (512 - 1) with (2 ^ 9 - 1). rewrite land_low_mask by lia. change (2 ^ 9) with 512.
  by rewrite bool_decide_eq_true_2.
Qed.

Lemma size_attr k :
  boot_ok -> 9 <= k <= 31 -> set_heap_size_attr e (2 ^ k) = Ret (heapextra, NVSHMEMI_MALLOC_ALIGNMENT, k).
Proof.
  intros [_ Hsizes Hmax _ _] Hk.
  assert (512 <= 2 ^ k <= 2 ^ 31) as Hpow.
  { split; [change 512 with (2 ^ 9)|]; apply Z.pow_le_mono_r; lia. }
  unfold set_heap_size_attr. rewrite (wrap_small 64 (2 ^ k - 1)) by (unfold in_u; lia).
  rewrite pow2_land, log2_correct, Z.log2_pow2 by lia.
  rewrite bool_decide_eq_true_2 by done. cbn [cassert]. rewrite outcome_bind_ret.
  rewrite (wrap_small 64) by (unfold in_u, heapextra, NVSHMEMI_MALLOC_ALIGNMENT in *; lia).
  unfold heapextra. do 3 f_equal. lia.
Qed.

(** [reserve_heap]: a geometry in order, two empty address spaces. *)
Lemma wp_reserve s :
  boot_ok ->
  wp (reserve_heap_vmm e) (fun r s' => r = 0 /\ caps s' = caps s /\ geo_ok (geo (obj s')) /\
    heap_base_ (geo (obj s')) = global_heap_base_ (geo (obj s')) /\
    (0 < heap_size_ (geo (obj s')) /\ reserved_heap_size_ (geo (obj s')) = get_num_p2p_connected_pes e * heap_size_ (geo (obj s'))) /\
    tab (obj s') = tab (obj s) /\ vmm (obj s') = vmm (obj s) /\
    heap_mspace_ (obj s') = mspace_empty /\ mmap_mspace_ (obj s') = mspace_empty /\
    physical_internal_heap_size_ (obj s') = 0) s.
Proof.
  intros HBt. pose proof HBt as [Hgran Hsizes Hmax Hp2p Hbase]. unfold reserve_heap_vmm.
  apply wp_bind, (wp_do_call_val e ST). rewrite bool_decide_eq_false_2 by lia.
  destruct (Hgran (log s)) as (k & Hk & Hg). unfold granularity in Hg. cbv zeta in Hg. rewrite Hg.
  assert (512 <= 2 ^ k <= 2 ^ 31) as Hpow.
  { split; [change 512 with (2 ^ 9)|]; apply Z.pow_le_mono_r; lia. }
  apply wp_bind. eapply wp_lift; [by apply size_attr|].
  cbv beta iota. set (want := Z.max (MAX_MEMORY_PER_GPU e) heapextra). assert (0 < want <= 2 ^ 56) as Hwant by (unfold want, heapextra, NVSHMEMI_MALLOC_ALIGNMENT in *; lia).
  destruct (round_up_granules want (2 ^ k)) as (size & Esz & Hsz & Hszm); [lia..|].
  apply wp_bind. eapply wp_lift; [exact Esz|].
  assert (0 <= get_num_p2p_connected_pes e * size < 2 ^ 64) as Hprod by nia.
  rewrite (wrap_small 64) by (unfold in_u; lia).
  apply wp_bind, (wp_do_call_val e ST). cbv beta iota.
  rewrite (bool_decide_eq_true_2 (0 = 0)) by done.
  set (base := value e _ _).
  assert (0 < base < 2 ^ 62 /\ base mod NVSHMEMI_MALLOC_ALIGNMENT = 0) as [Hb1 Hb2] by apply Hbase.
  apply wp_bind, wp_upd. rewrite bool_decide_eq_false_2 by lia. apply wp_bind, wp_upd.
  apply wp_jmp_ok. unfold setup_mspace_dynamic. apply wp_bind, wp_upd, wp_ret. split; [done|].
  apply wp_bind, wp_get_obj, wp_bind, wp_upd, wp_ret. cbn.
  rewrite mspace_new_zero by done. rewrite (wrap_small 64) by (unfold in_u; lia).
  split_and!; try done; [split; cbn; try done; [split; [lia|done]|split; [lia|done]|lia]|lia].
Qed.

(** ** The windows of the peers *)

(** Transport [j] maps the memory of PE [i]. *)
Definition maps (cs : list (list Z)) (i j : Z) : bool :=
  is_bit_set (transport_map e (mype e) i) j &&
  bool_decide (Z.land (default 0 (cs !! Z.to_nat j ≫= fun l => l !! Z.to_nat i)) NVSHMEM_TRANSPORT_CAP_MAP <> 0).
(** The number of transports from [j] on that map [i]. *)
Fixpoint map_count (cs : list (list Z)) (n : nat) (j i : Z) : Z :=
  match n with
  | O => 0
  | S n => Z.b2z (maps cs i j) + map_count cs n (j + 1) i
  end.
Definition map_transports (cs : list (list Z)) (i : Z) : Z :=
  map_count cs (Z.to_nat (num_initialized_transports e)) 0 i.

Lemma map_count_nonneg cs n : forall j i, 0 <= map_count cs n j i.
Proof. induction n as [|n IH]; intros j i; cbn; [lia|]. specialize (IH (j + 1) i). destruct (maps _ _ _); cbn; lia. Qed.

Definition window (g : geometry) (c : Z) : Z := global_heap_base_ g + heap_size_ g * c.
Definition set_peers (p : list Z) (h : heap) : heap := with_peers (peer_heap_base_remote_ h) p h.

(** The loop over the transports of one peer: the last one that maps it wins,
    and the counter grows by the number of them. *)
Lemma wp_assign_peer n : forall j i c s,
  0 <= i < Z.of_nat (length (peer_heap_base_p2p_ (obj s))) ->
  wp (assign_peer e n j i c) (fun c' s' => caps s' = caps s /\ c' = c + map_count (caps s) n j i /\
    obj s' = if bool_decide (map_count (caps s) n j i = 0) then obj s
             else set_peers (<[Z.to_nat i := window (geo (obj s)) (c' - 1)]> (peer_heap_base_p2p_ (obj s))) (obj s)) s.
Proof.
  induction n as [|n IH]; intros j i c s Hi; cbn [assign_peer map_count].
  - apply wp_ret. rewrite bool_decide_eq_true_2 by done. split; [done|split; [lia|done]].
  - apply wp_bind. unfold is_cap_map. apply wp_bind, wp_get_cap, wp_ret. cbn beta. fold (maps (caps s) i j).
    pose proof (map_count_nonneg (caps s) n (j + 1) i) as Hc0.
    destruct (maps (caps s) i j) eqn:Hmap; cbn [Z.b2z].
    + apply wp_bind, wp_get_obj, wp_bind. unfold peer_set. apply wp_bind, wp_get_obj.
      rewrite bool_decide_eq_true_2 by done. apply wp_upd.
      eapply wp_mono; [apply IH; cbn; by rewrite length_insert|]. cbn.
      intros c' s' (HC & -> & HO). split; [done|split; [lia|]]. rewrite HO.
      rewrite (bool_decide_eq_false_2 (1 + _ = 0)) by lia. case_bool_decide as Hz.
      * unfold set_peers, window. cbn. rewrite Hz. by replace (c + 1 + 0 - 1) with c by lia.
      * unfold set_peers, window. cbn. rewrite list_insert_insert_eq. done.
    + eapply wp_mono; [by apply IH|]. cbn. intros c' s' (HC & -> & HO). split; [done|split; [lia|]].
      rewrite HO. done.
Qed.

(** The windows assigned so far: distinct multiples of the heap size below the
    counter, the own heap being number 0 and the last one in the table. *)
Definition windows_ok (g : geometry) (c : Z) (p : list Z) : Prop :=
  exists f : nat -> Z, (forall i b, p !! i = Some b -> b <> 0 -> b = window g (f i) /\ 0 <= f i < c) /\
    (forall i j b b', p !! i = Some b -> p !! j = Some b' -> b <> 0 -> b' <> 0 -> f i = f j -> i = j) /\
    (exists i, p !! i = Some (window g (c - 1))).

Lemma windows_ok_set g c p i :
  windows_ok g c p -> 0 <= c -> (i < length p)%nat -> windows_ok g (c + 1) (<[i := window g c]> p).
Proof.
  intros (f & Hf & Hinj & _) Hc Hi. exists (fun k => if decide (k = i) then c else f k). split; [|split].
  - intros k b Hk Hb. apply list_lookup_insert_Some in Hk as [(<- & <- & _)|[Hne Hk]].
    + rewrite decide_True by done. split; [done|lia].
    + rewrite decide_False by done. destruct (Hf _ _ Hk Hb). split; [done|lia].
  - intros k1 k2 b1 b2 H1 H2 Hb1 Hb2 E.
    apply list_lookup_insert_Some in H1 as [(-> & <- & _)|[Hne1 H1]];
      apply list_lookup_insert_Some in H2 as [(-> & <- & _)|[Hne2 H2]]; [done|..];
      cbn in E; repeat case_decide; subst; try done.
    + destruct (Hf _ _ H2 Hb2). lia.
    + destruct (Hf _ _ H1 Hb1). lia.
    + by eapply Hinj.
  - exists i. replace (c + 1 - 1) with c by lia. by apply list_lookup_insert_eq.
Qed.

(** At most one transport maps each peer. *)
Definition one_map (cs : list (list Z)) : Prop :=
  forall i, 0 <= i < npes e -> map_transports cs i <= 1.
(** How many peers are mapped, from [i] round the ring to this PE. *)
Fixpoint mapped_peers (cs : list (list Z)) (fuel : nat) (i : Z) : Z :=
  if bool_decide (i = mype e) then 0
  else match fuel with
  | O => 0
  | S fuel => map_transports cs i + mapped_peers cs fuel ((i + 1) mod npes e)
  end.

Lemma wp_assign_peers fuel : forall i c s,
  0 <= i < npes e -> (mype e - i) mod npes e <= Z.of_nat fuel -> 0 <= c ->
  Z.of_nat (length (peer_heap_base_p2p_ (obj s))) = npes e -> one_map (caps s) ->
  windows_ok (geo (obj s)) c (peer_heap_base_p2p_ (obj s)) ->
  wp (assign_peers e fuel i c) (fun c' s' => caps s' = caps s /\ c' = c + mapped_peers (caps s) fuel i /\
    exists p, obj s' = set_peers p (obj s) /\ Z.of_nat (length p) = npes e /\
      windows_ok (geo (obj s)) c' p) s.
Proof.
  pose proof (ok_npes e OK) as HN.
  induction fuel as [|fuel IH]; intros i c s Hi Hf Hc Hl H1 HW; cbn [assign_peers mapped_peers];
    case_bool_decide as Hm.
  1, 3: apply wp_ret; split; [done|split; [lia|]]; exists (peer_heap_base_p2p_ (obj s));
    split; [by destruct s as [[] ? ?]|done].
  - exfalso. apply Hm. symmetry. apply (mod_sub_0 (mype e) i (npes e)); [lia..|].
    pose proof (Z.mod_pos_bound (mype e - i) (npes e)). lia.
  - apply wp_bind. eapply wp_mono; [apply wp_assign_peer; lia|]. cbn. fold (map_transports (caps s) i).
    intros c1 s1 (HC1 & -> & HO1). specialize (H1 i Hi) as H1i.
    pose proof (map_count_nonneg (caps s) (Z.to_nat (num_initialized_transports e)) 0 i) as Hpos.
    fold (map_transports (caps s) i) in Hpos, HO1.
    assert (exists p1, obj s1 = set_peers p1 (obj s) /\ Z.of_nat (length p1) = npes e /\
      windows_ok (geo (obj s)) (c + map_transports (caps s) i) p1) as (p1 & HO & Hl1 & HW1).
    { case_bool_decide as Hz; rewrite HO1.
      - exists (peer_heap_base_p2p_ (obj s)). split; [by destruct s as [[] ? ?]|]. by rewrite Hz, Z.add_0_r.
      - assert (map_transports (caps s) i = 1) as -> by lia. eexists. split; [done|].
        rewrite length_insert. split; [done|]. replace (c + 1 - 1) with c by lia. apply windows_ok_set; [done|lia|lia]. }
    eapply wp_mono; [apply IH|]; rewrite ?HO, ?HC1; cbn; try done; try lia.
    + apply Z.mod_pos_bound. lia.
    + rewrite ring_distance by (done || lia). lia.
    + intros c2 s2 (HC2 & -> & p2 & HO2 & Hl2 & HW2). split; [done|split; [lia|]].
      exists p2. rewrite HO2. done.
Qed.

(** [allgather_peer_base]: only the own window is known. *)
Lemma wp_allgather_base s :
  calloc_ok e = true ->
  wp (allgather_peer_base e) (fun r s' => r = 0 /\ caps s' = caps s /\ exists rb,
    obj s' = with_peers rb (<[Z.to_nat (mype e) := heap_base_ (geo (obj s))]>
                              (replicate (Z.to_nat (npes e)) 0)) (obj s)) s.
Proof.
  intros Hc. pose proof (ok_npes e OK). unfold allgather_peer_base. rewrite Hc. cbn [negb].
  apply wp_bind, wp_get_obj, wp_bind, (wp_allgather e ST). cbn. rewrite bool_decide_eq_false_2 by lia.
  apply wp_bind, wp_upd. apply wp_bind. unfold peer_set. apply wp_bind, wp_get_obj. cbn.
  rewrite length_replicate, bool_decide_eq_true_2 by lia. apply wp_upd, wp_ret.
  split; [done|split; [done|]]. by eexists.
Qed.

Lemma own_window_ok g n : (n < Z.to_nat (npes e))%nat -> windows_ok g 1 (<[n := window g 0]> (replicate (Z.to_nat (npes e)) 0)).
Proof.
  intros Hn. exists (fun _ => 0). split; [|split].
  - intros i b Hi Hb. apply list_lookup_insert_Some in Hi as [(-> & <- & _)|[_ Hi]]; [lia|].
    by apply lookup_replicate in Hi as [-> _].
  - intros i j b b' Hi Hj Hb Hb' _.
    apply list_lookup_insert_Some in Hi as [(-> & _ & _)|[_ Hi]]; [|by apply lookup_replicate in Hi as [-> _]].
    apply list_lookup_insert_Some in Hj as [(-> & _ & _)|[_ Hj]]; [done|by apply lookup_replicate in Hj as [-> _]].
  - exists n. apply list_lookup_insert_eq. by rewrite length_replicate.
Qed.

Definition boot : H Z := reserve_heap_vmm e ?! 1 ;; setup_symmetric_heap_vmm e.

Lemma wp_boot s :
  boot_ok -> calloc_ok e = true -> one_map (caps s) -> obj s = heap0 ->
  wp boot (fun r s' => r = 0 /\ caps s' = caps s /\ heap_ok e (caps s) (obj s') /\
    (0 < heap_size_ (geo (obj s')) /\ 0 < global_heap_base_ (geo (obj s')) /\ reserved_heap_size_ (geo (obj s')) = get_num_p2p_connected_pes e * heap_size_ (geo (obj s'))) /\
    idx_in_mmap_handles_ (tab (obj s')) = ∅ /\ remote_mmap_handles_ (tab (obj s')) = [] /\
    mmap_mspace_ (obj s') = mspace_empty /\ vmm (obj s') = MkVmm [] ∅ ∅ ∅ /\
    windows_ok (geo (obj s')) (1 + mapped_peers (caps s) (Z.to_nat (npes e)) ((mype e + 1) mod npes e))
      (peer_heap_base_p2p_ (obj s'))) s.
Proof.
  intros HBt Hc H1 Hobj. pose proof (ok_npes e OK) as HN. unfold boot.
  apply wp_jmp_ok. eapply wp_mono; [by apply wp_reserve|]. cbn.
  intros r s1 (-> & HC1 & HG & Hbase & [Hsz Hres] & Htab & Hvmm & Hm & Hmm & Hph). split; [done|].
  unfold setup_symmetric_heap_vmm. apply wp_jmp_ok. eapply wp_mono; [by apply wp_allgather_base|]. cbn.
  intros r s2 (-> & HC2 & rb & HO2). split; [done|]. apply wp_bind.
  pose proof (own_window_ok (geo (obj s1)) (Z.to_nat (mype e)) ltac:(lia)) as HW0. unfold window in HW0 at 1.
  rewrite Z.mul_0_r, Z.add_0_r, <- Hbase in HW0.
  eapply wp_mono; [apply (wp_assign_peers (Z.to_nat (npes e)))|]; rewrite ?HO2, ?HC2, ?HC1; cbn; try done.
  - apply Z.mod_pos_bound. lia.
  - pose proof (Z.mod_pos_bound (mype e - (mype e + 1) mod npes e) (npes e)). lia.
  - rewrite length_insert, length_replicate. lia.
  - intros c s3 (HC3 & -> & p & HO3 & Hlp & HW). apply wp_ret. rewrite HC3, HO3. cbn.
    rewrite Htab, Hvmm, Hobj, Hmm, Hres. pose proof (proj1 (geo_base _ HG)). split_and!; try done; [|by rewrite <- Hbase].
    assert (mmap_range e (set_peers p (with_peers rb (<[Z.to_nat (mype e):=heap_base_ (geo (obj s1))]> (replicate (Z.to_nat (npes e)) 0)) (obj s1))) = 0) as HR.
    { unfold mmap_range. cbn. rewrite Hmm. by destruct (kind e). }
    split; cbn; rewrite ?HR; try done.
    + rewrite Hph. split; [done|]. apply (geo_size _ HG).
    + split; cbn; rewrite Htab, Hobj; cbn; [lia|]. intros i k st ln Hi. by rewrite lookup_nil in Hi.
    + rewrite Hm. apply mspace_empty_wf.
    + by rewrite Hm.
    + intros x. rewrite Hm, Hph.
      split; [|lia]. intros [(a & t & Ha & _)|(a & t & Ha & _)]; cbn in Ha; by rewrite lookup_empty in Ha.
Qed.

End Setup.

(** The window of a PE lies in the reserved range. *)
Definition window_in (h : heap) (b : Z) : Prop :=
  global_heap_base_ (geo h) <= b /\
  b + heap_size_ (geo h) <= global_heap_base_ (geo h) + reserved_heap_size_ (geo h).

(** C34: start-up of the VMM heap: with answers of CUDA and the bootstrap that
    succeed and at most one mapping transport per peer, [reserve_heap] and
    [setup_symmetric_heap] return 0 and establish the invariant of the heap, and
    the windows of any two mapped PEs (this one included) are disjoint.  The
    windows all lie in the reserved range exactly when this PE and the peers a
    transport maps are not more than [get_num_p2p_connected_pes] counts (the
    larger of the node and the NVLink clique), which the code does not check. *)
Theorem vmm_setup_correct e cs :
  env_ok e -> boot_ok e -> calloc_ok e = true -> one_map e cs ->
  exists s', boot e (MkSt heap0 cs []) = Ret (0, s') /\ caps s' = cs /\ heap_ok e cs (obj s') /\
    (forall i j b b', peer_heap_base_p2p_ (obj s') !! i = Some b -> peer_heap_base_p2p_ (obj s') !! j = Some b' ->
      b <> 0 -> b' <> 0 -> i <> j -> b + heap_size_ (geo (obj s')) <= b' \/ b' + heap_size_ (geo (obj s')) <= b) /\
    ((forall i b, peer_heap_base_p2p_ (obj s') !! i = Some b -> b <> 0 -> window_in (obj s') b) <->
     1 + mapped_peers e cs (Z.to_nat (npes e)) ((mype e + 1) mod npes e) <= get_num_p2p_connected_pes e).
Proof.
  intros OK HB Hc H1.
  destruct (wp_run _ _ _ (wp_boot e OK (MkSt heap0 cs []) HB Hc H1 eq_refl))
    as (r & s' & E & -> & HC & HK & (Hs & Hbase & Hres) & _ & _ & _ & _ & f & Hf & Hinj & k & Hk).
  exists s'. split; [done|split; [done|split; [done|]]].
  unfold window in *. unfold window_in. rewrite Hres. set (sz := heap_size_ (geo (obj s'))) in *. cbn [caps] in *. split.
  - intros i j b b' Hi Hj Hb Hb' Hne. destruct (Hf _ _ Hi Hb) as [Ei Ri]. destruct (Hf _ _ Hj Hb') as [Ej Rj].
    assert (f i <> f j) as Hfne by (intros E'; apply Hne; by eapply Hinj).
    assert (f i + 1 <= f j \/ f j + 1 <= f i) as [Hlt|Hlt] by lia; [left|right]; nia.
  - pose proof (bt_p2p _ HB) as Hp. split.
    + intros Hall. destruct (Z.le_gt_cases (1 + mapped_peers e cs (Z.to_nat (npes e)) ((mype e + 1) mod npes e)) (get_num_p2p_connected_pes e)) as [|Hgt]; [done|].
      exfalso. destruct (Hall _ _ Hk) as [Hbeg Hend]; nia.
    + intros Hle i b Hi Hb. destruct (Hf _ _ Hi Hb) as [Ei Ri]. split; nia.
Qed.

(** ** A two-PE node: transport 0 maps the peer, transport 1 is a network
    transport that registers memory; 2 MiB granules and 64 MiB heaps *)
Definition MiB : Z := 1048576.
Definition demo_env : henv := {|
  kind := vidmem_dynamic_vmm; npes := 2; mype := 0; npes_node := 2; mype_node := 0; device_id := 0;
  num_initialized_transports := 2; transport_bitmap := 3; transport_map := fun _ _ => 3;
  is_get_mem := fun t => bool_decide (t = 1); is_release_mem := fun t => bool_decide (t = 1);
  is_add_device_remote_mem := fun _ => false;
  is_platform_nvls := false; nvls_teams := []; enable_rail_opt := false; mem_handle_type := 1; is_ipc := false;
  proc_map := []; my_pid := 100; nvl_connected_pes := 0;
  ENABLE_ERROR_CHECKS := false; ENABLE_ALIGNED_MALLOC := false;
  CUMEM_GRANULARITY := 2 * MiB; SYMMETRIC_SIZE := 16 * MiB; MAX_MEMORY_PER_GPU := 64 * MiB;
  G_BUF_SIZE := 1024; G_COALESCING_BUF_SIZE := 1024; teams_mem_requirement := 65536;
  init_status := 0; calloc_ok := true;
  status := fun _ _ => 0;
  value := fun l c => match c with
    | CuMemAddressReserve _ _ => 2 ^ 40
    | CuMemGetAllocationGranularity => 2 * MiB
    | CuPointerGetAttribute a _ => if bool_decide (a = ATTR_MEMORY_TYPE) then CU_MEMORYTYPE_DEVICE else 0
    | CuMemGetAllocationProperties _ => 1
    | _ => 1000 + Z.of_nat (length l)
    end;
  gathered := fun _ mine => [mine; mine]
|}.
Definition demo_caps : list (list Z) := [[1; 1]; [0; 0]].
Definition demo_st : st := final (boot demo_env) (MkSt heap0 demo_caps []).

Lemma demo_node_ok : env_ok demo_env.
Proof. split; cbn; try done; intros; repeat constructor. Qed.

Lemma demo_boot_ok : boot_ok demo_env.
Proof.
  split; cbn; try done. intros _. exists 21. split; [lia|]. by vm_compute.
Qed.

Lemma demo_one_map : one_map demo_env demo_caps.
Proof. intros i Hi. cbn in Hi. assert (i = 0 \/ i = 1) as [-> | ->] by lia; by vm_compute. Qed.

Lemma vmm_setup_correct_witness :
  exists s', boot demo_env (MkSt heap0 demo_caps []) = Ret (0, s') /\ heap_ok demo_env demo_caps (obj s') /\
    peer_heap_base_p2p_ (obj s') = [2 ^ 40; 2 ^ 40 + 64 * MiB] /\ window_in (obj s') (2 ^ 40 + 64 * MiB).
Proof.
  destruct (vmm_setup_correct demo_env demo_caps demo_node_ok demo_boot_ok eq_refl demo_one_map)
    as (s' & E & _ & HK & _ & Hin).
  assert (EP : peer_heap_base_p2p_ (obj s') = [2 ^ 40; 2 ^ 40 + 64 * MiB]) by (vm_compute in E; injection E as <-; reflexivity).
  exists s'. split; [exact E|split; [exact HK|split; [exact EP|]]].
  apply (proj2 Hin ltac:(vm_compute; discriminate) 1%nat); [by rewrite EP|done].
Defined.

Lemma demo_st_ok : caps demo_st = demo_caps /\ heap_ok demo_env demo_caps (obj demo_st) /\
  vmm (obj demo_st) = MkVmm [] ∅ ∅ ∅ /\ mmap_mspace_ (obj demo_st) = mspace_empty.
Proof.
  apply (wp_final _ _ (fun s => caps s = demo_caps /\ heap_ok demo_env demo_caps (obj s) /\
    vmm (obj s) = MkVmm [] ∅ ∅ ∅ /\ mmap_mspace_ (obj s) = mspace_empty)
    _ (wp_boot demo_env demo_node_ok (MkSt heap0 demo_caps []) demo_boot_ok eq_refl demo_one_map eq_refl)).
  intros r s' (_ & HC & HK & _ & _ & _ & Hm & Hv & _). done.
Qed.

(** A defect of the assignment of windows: the [break] meant to leave the loop
    over the transports leaves only the [do ... while (0)] of the loop macro.
    When two transports can map the peer, its window is assigned twice, the
    second time behind the reserved range. *)
Theorem second_map_transport_outside :
  match boot demo_env (MkSt heap0 [[1; 1]; [1; 1]] []) with
  | Ret (0, s') => peer_heap_base_p2p_ (obj s') !! 1%nat =
      Some (global_heap_base_ (geo (obj s')) + reserved_heap_size_ (geo (obj s')))
  | _ => False
  end.
Proof. vm_compute. reflexivity. Qed.

End HeapSetup.
