(* ===== verification/HeapGrow.v ===== *)
(** * The symmetric heap: allocation, growth on demand and handle lookup

    The theorems on the VMM heap built on the invariant [heap_ok]: every byte of
    the physical part has a memory handle; a request that finds no free block
    makes the heap grow and is then served; blocks are disjoint; releasing
    returns the bytes. *)
From stdpp Require Import base gmap list.
From Stdlib Require Import ZArith Lia.
From S2P Require Import Prelude Mspace MspaceSpec HeapState Heap HeapAlloc HeapSpec HeapSetup.
Import Mspace HeapState Heap HeapAlloc HeapSpec HeapSetup.

Module HeapGrow.

(** ** Taking a block *)
Record takes (m : mspace) (q n : Z) (m' : mspace) : Prop := {
  tk_wf : wf m';
  tk_use : inuse_chunks m' = <[q := n]> (inuse_chunks m);
  tk_none : inuse_chunks m !! q = None;
  tk_total : total_size m' = total_size m;
  tk_pos : 0 < n;
  tk_was_free : forall x, q <= x < q + n -> free_byte m x;
  tk_free : forall x, free_byte m' x <-> (free_byte m x /\ ~ (q <= x < q + n))
}.

Lemma allocate_takes m b p m' :
  wf m -> 0 < b <= 2 ^ 64 - 512 -> allocate m b = (Some p, m') -> takes m p (align_request b) m'.
Proof.
  intros W Hb E. destruct (allocate_spec _ _ _ _ W Hb E) as (W' & _ & _ & Hn & Hu & HF & HB & _).
  pose proof (align_request_spec b Hb). split; auto; [by eapply allocate_total|lia|].
  intros x Hx. by apply HF.
Qed.

Lemma used_byte_insert m m' q n x :
  inuse_chunks m' = <[q := n]> (inuse_chunks m) -> inuse_chunks m !! q = None ->
  used_byte m' x <-> (q <= x < q + n \/ used_byte m x).
Proof.
  intros Hu Hn. unfold used_byte. rewrite Hu. split.
  - intros (a & t & [[<- <-]|[_ Ha]]%lookup_insert_Some & Hx); [by left|right; eauto].
  - intros [Hx|(a & t & Ha & Hx)].
    + exists q, n. by rewrite lookup_insert_eq.
    + exists a, t. rewrite lookup_insert_ne; [done|congruence].
Qed.

Section Theorems.
Context (e : henv) (OK : env_ok e).
Let ST := ok_status e OK.

(** Taking a block keeps the invariant of the heap. *)
Lemma heap_ok_takes cs h q n m' :
  heap_ok e cs h -> takes (heap_mspace_ h) q n m' -> heap_ok e cs (with_mspace m' h).
Proof.
  intros [HG HP HR HRo HI W HT HB] [W' Hu Hn Ht Hp Hwas HF]. split; cbn; try done.
  - by destruct HI; split.
  - by rewrite Ht.
  - intros x. rewrite HF, (used_byte_insert _ _ _ _ x Hu Hn), <- HB.
    destruct (decide (q <= x < q + n)); [|tauto]. pose proof (Hwas x ltac:(lia)). tauto.
Qed.

Lemma heap_ok_vmm cs v h : heap_ok e cs h -> heap_ok e cs (with_vmm v h).
Proof. intros [? ? ? ? [? ?] ? ? ?]. by split. Qed.

(** ** Growth *)
Lemma wp_for_teams f : forall ts s,
  Forall (fun t => nt_handles t <> []) ts ->
  (forall t s1, nt_handles t <> [] -> wp (f t) (fun r s2 => r = 0 /\ same s1 s2) s1) ->
  wp (for_teams ts f) (fun r s' => r = 0 /\ same s s') s.
Proof.
  induction ts as [|t ts IH]; intros s HF Hf; cbn [for_teams]; [by apply wp_ret|].
  inversion HF; subst. apply wp_jmp_ok. eapply wp_mono; [by apply Hf|]. cbn. intros r s1 [-> HS]. split; [done|].
  eapply wp_mono; [by apply IH|]. cbn. intros r s2 [-> HS2]. split; [done|]. by eapply same_trans.
Qed.

Lemma wp_nvls_bind x off n s : wp (nvls_bind_heap_memory e x off n) (fun r s' => r = 0 /\ same s s') s.
Proof.
  unfold nvls_bind_heap_memory. destruct (is_platform_nvls e); [|by apply wp_ret].
  apply wp_for_teams; [apply (ok_nvls e OK)|]. intros t s1 Ht. unfold nvls_bind_heap_memory_by_size.
  destruct (nt_owner t); cbn [negb]; [|by apply wp_ret].
  destruct (last (nt_handles t)) as [mc|] eqn:E; [|by apply last_None in E].
  apply wp_bind. eapply wp_lift; [unfold last_mc_handle; by rewrite E|].
  apply wp_bind, (wp_do_call e ST). rewrite bool_decide_eq_false_2 by lia. by apply wp_ret.
Qed.

Lemma wp_grow_body n s :
  heap_ok e (caps s) (obj s) -> 0 < n < NVSHMEMI_DMA_BUF_MAX_LENGTH ->
  n mod mem_granularity_ (geo (obj s)) = 0 ->
  physical_internal_heap_size_ (obj s) + mmap_range e (obj s) + n < heap_size_ (geo (obj s)) ->
  wp (grow_body e n) (fun r s' => r = 0 /\ caps s' = caps s /\ grows e (caps s) (obj s) n (obj s')) s.
Proof.
  intros HK Hn Hm Hroom. pose proof HK as [HG HPe HR0 HR HI W HT HB].
  pose proof (geo_gran_pos _ HG). pose proof (geo_base _ HG). pose proof (geo_end _ HG).
  unfold grow_body. apply wp_bind, wp_get_obj.
  rewrite (wrap_small 64) by (unfold in_u; lia). rewrite bool_decide_eq_false_2 by lia.
  apply wp_jmp_ok, wp_ret. split; [done|].
  do 2 (apply wp_bind; eapply wp_lift;
        [unfold cassert; by rewrite bool_decide_eq_true_2 by (done || unfold NVSHMEMI_MAX_HANDLE_LENGTH; lia)|]).
  apply wp_bind, (wp_do_call_val e ST). apply wp_jmp_ok, wp_ret. split; [done|].
  apply wp_bind, wp_upd.
  do 2 (apply wp_jmp_ok, (wp_do_call e ST); split; [done|]).
  apply wp_jmp_ok. eapply wp_mono; [apply wp_nvls_bind|]. cbn. intros r s1 [-> [HO1 HC1]]. split; [done|].
  cbn in HO1, HC1. set (v := MkVmm _ _ _ _) in HO1.
  apply wp_jmp_ok. eapply wp_mono; [apply (wp_register_internal_at e OK); rewrite ?HO1, ?HC1|].
  - done.
  - by apply heap_ok_vmm.
  - done.
  - done.
  - change (mmap_range e (with_vmm v (obj s))) with (mmap_range e (obj s)). cbn. lia.
  - cbn. intros r s2 (-> & HC2 & _ & [G1 G2 G3 G4 G5 G6 G7 G8 G9]). cbn in *. split; [done|].
    apply (wp_do_call e ST). split; [done|split; [by rewrite HC2, HC1|]].
    by split; rewrite ?HC1 in *; rewrite ?HO1 in *.
Qed.

(** What a request needs to be served by growth: the rounded size fits below the
    user buffers and in one DMA buffer. *)
Definition room (h : heap) (req : Z) : Prop :=
  req + mem_granularity_ (geo h) <= NVSHMEMI_DMA_BUF_MAX_LENGTH /\
  physical_internal_heap_size_ h + mmap_range e h + req + mem_granularity_ (geo h) <= heap_size_ (geo h).

Lemma wp_allocate_physical req s :
  heap_ok e (caps s) (obj s) -> 0 < req -> room (obj s) req ->
  wp (allocate_physical_memory_to_heap e req)
     (fun r s' => r = 0 /\ caps s' = caps s /\ exists n, req <= n /\ n mod 512 = 0 /\
        grows e (caps s) (obj s) n (obj s')) s.
Proof.
  intros HK Hr [HD HF]. pose proof (geo_gran_pos _ (hk_geo _ _ _ HK)) as Hg.
  destruct (round_up_granules req (mem_granularity_ (geo (obj s)))) as (n & En & Hn & Hm);
    [lia|lia|unfold NVSHMEMI_DMA_BUF_MAX_LENGTH in HD; lia|].
  unfold allocate_physical_memory_to_heap, gran. apply wp_bind, wp_bind, wp_get_obj, wp_ret.
  apply wp_bind. eapply wp_lift; [exact En|]. apply wp_bind.
  eapply wp_mono; [apply wp_grow_body; [done|lia|done|lia]|]. cbn.
  intros r s1 (-> & HC & HGr). rewrite bool_decide_eq_false_2 by lia. apply wp_ret.
  split; [done|split; [done|]]. exists n. split; [lia|split; [|done]].
  apply Z.mod_divide in Hm as [k ->]; [|lia].
  destruct (hk_geo _ _ _ HK) as [-> Hl _ _ _ _].
  replace (log2_mem_granularity_ (geo (obj s))) with ((log2_mem_granularity_ (geo (obj s)) - 9) + 9) by lia.
  rewrite Z.pow_add_r, Z.mul_assoc by lia. apply Z.mod_mul. lia.
Qed.

(** ** Allocation from the address space *)

(** The arguments the entry points pass, without overflow. *)
Definition args_ok (size count alignment : Z) (type : alloc_type) : Prop :=
  match type with
  | NVSHMEMX_MALLOC => alignment = 0 /\ 0 < size <= 2 ^ 64 - 512
  | NVSHMEMX_CALLOC => alignment = 0 /\ 0 < size /\ 0 < count * size <= 2 ^ 64 - 512
  | NVSHMEMX_ALIGN => 0 < alignment /\ alignment mod 8 = 0 /\ Z.land alignment (alignment - 1) = 0 /\
                      0 < size /\ size + alignment <= 2 ^ 64 - 512
  | NVSHMEMX_ALLOC_MAX => False
  end.
(** The bytes the caller asked for, and the bytes searched in the free chunks. *)
Definition wanted (size count : Z) (type : alloc_type) : Z :=
  match type with NVSHMEMX_CALLOC => count * size | _ => size end.

Lemma grow_request_ok size count alignment type :
  args_ok size count alignment type ->
  0 < grow_request size count alignment type <= 2 ^ 64 - 512 /\
  0 < size /\ wanted size count type <= grow_request size count alignment type.
Proof.
  destruct type; cbn; intros; deex; try done; unfold grow_request, wanted; subst;
    rewrite ?Z.add_0_r, ?wrap_wrap; rewrite !(wrap_small 64) by (unfold in_u; lia); lia.
Qed.

(** The block a request gets. *)
Definition serves (h : heap) (size count alignment : Z) (type : alloc_type) (p : Z) (h' : heap) : Prop :=
  exists n m', takes (heap_mspace_ h) p n m' /\ h' = with_mspace m' h /\ wanted size count type <= n /\
    match type with NVSHMEMX_ALIGN => p mod alignment = 0 | _ => p mod NVSHMEMI_MALLOC_ALIGNMENT = 0 end.

Lemma serves_nonnull cs h size count alignment type p h' :
  heap_ok e cs h -> serves h size count alignment type p h' -> p <> 0.
Proof.
  intros HK (n & m' & T & _). pose proof (tk_was_free _ _ _ _ T p) as HF. pose proof (tk_pos _ _ _ _ T).
  pose proof (geo_base _ (hk_geo _ _ _ HK)).
  pose proof (proj1 (hk_bytes _ _ _ HK p) (or_introl (HF ltac:(lia)))). lia.
Qed.

Lemma with_mspace_same h : with_mspace (heap_mspace_ h) h = h.
Proof. by destruct h. Qed.

(** A plain allocation either changes nothing or serves the request. *)
Lemma allocate_serves cs h req size count alignment type r m' :
  heap_ok e cs h -> 0 < req <= 2 ^ 64 - 512 -> wanted size count type <= req -> type <> NVSHMEMX_ALIGN ->
  allocate (heap_mspace_ h) req = (r, m') ->
  (r = None /\ with_mspace m' h = h) \/
  (exists p, r = Some p /\ p <> 0 /\ serves h size count alignment type p (with_mspace m' h)).
Proof.
  intros HK Hr Hle Hty E. pose proof (hk_wf _ _ _ HK) as W. destruct r as [p|].
  - right. assert (serves h size count alignment type p (with_mspace m' h)) as HS.
    { exists (align_request req), m'. pose proof (align_request_spec req Hr).
      split; [by apply allocate_takes|split; [done|split; [lia|]]].
      destruct (allocate_spec _ _ _ _ W Hr E) as (_ & Hp & _). by destruct type. }
    exists p. split; [done|split; [by eapply serves_nonnull|done]].
  - left. split; [done|]. pose proof (proj2 (allocate_none (heap_mspace_ h) req)) as HN.
    rewrite E in HN. cbn in HN. rewrite HN by done. apply with_mspace_same.
Qed.

(** An aligned allocation fails only because the plain one it makes does. *)
Lemma allocate_aligned_None m al b m' :
  0 < al -> al mod 8 = 0 -> Z.land al (al - 1) = 0 -> 0 <= b -> b + al <= 2 ^ 64 - 512 ->
  allocate_aligned m al b = Ret (None, m') -> fst (allocate m (b + al)) = None.
Proof.
  intros Ha H8 Hl Hb Hsum E. unfold allocate_aligned in E.
  rewrite (wrap_small 64 (al - 1)), (wrap_small 64 (b + al)) in E by (unfold in_u; lia).
  rewrite (bool_decide_eq_true_2 (al mod 8 = 0 /\ _)) in E by auto. cbn [cassert] in E.
  rewrite outcome_bind_ret in E.
  destruct (allocate m (b + al)) as [[p|] m1]; [|done]. exfalso.
  rewrite (bool_decide_eq_false_2 (al = 0)) in E by lia. case_bool_decide; [done|].
  apply outcome_bind_inv in E as (? & _ & E). done.
Qed.

Lemma wp_from_mspace size count alignment type s :
  heap_ok e (caps s) (obj s) -> args_ok size count alignment type ->
  wp (allocate_virtual_memory_from_mspace size count alignment type)
     (fun p s' => caps s' = caps s /\
        (p = 0 /\ obj s' = obj s /\
           fst (allocate (heap_mspace_ (obj s)) (grow_request size count alignment type)) = None \/
         p <> 0 /\ serves (obj s) size count alignment type p (obj s'))) s.
Proof.
  intros HK HA. pose proof (grow_request_ok _ _ _ _ HA) as (Hreq & Hs & Hw).
  unfold allocate_virtual_memory_from_mspace. apply wp_bind, wp_get_obj.
  destruct type; cbn in HA; [| | |done].
  - unfold grow_request in *. destruct HA as [-> HA]. rewrite Z.add_0_r, (wrap_small 64) in * by (unfold in_u; lia).
    destruct (allocate _ size) as [r m'] eqn:E. apply wp_bind, wp_upd, wp_ret. split; [done|]. cbn.
    destruct (allocate_serves _ _ _ size count 0 NVSHMEMX_MALLOC _ _ HK Hreq Hw ltac:(done) E)
      as [[-> HO]|(p & -> & Hp)]; [left|right]; done.
  - unfold grow_request in *. destruct HA as (-> & _ & HA).
    rewrite Z.add_0_r, wrap_wrap, (wrap_small 64) in * by (unfold in_u; lia).
    unfold allocate_zeroed. rewrite (wrap_small 64 (count * size)) by (unfold in_u; lia).
    destruct (allocate _ (count * size)) as [r m'] eqn:E.
    destruct (allocate_serves _ _ _ size count 0 NVSHMEMX_CALLOC _ _ HK Hreq Hw ltac:(done) E)
      as [[-> HO]|(p & -> & Hp)]; apply wp_bind, wp_upd, wp_ret; (split; [done|]); [left|right]; done.
  - destruct HA as (Ha & H8 & Hl & _ & Hsum).
    destruct (allocate_aligned_spec (heap_mspace_ (obj s)) alignment size) as (r & m' & E & W' & HR);
      [apply (hk_wf _ _ _ HK)|done..|lia|done|].
    apply wp_bind. eapply wp_lift; [exact E|]. apply wp_bind, wp_upd, wp_ret. split; [done|]. cbn.
    destruct r as [q|]; cbn.
    + right. destruct HR as (Hq & n & Hu & Ht & Hle & Hnone & Hwas & HF).
      assert (serves (obj s) size count alignment NVSHMEMX_ALIGN q (with_mspace m' (obj s))) as HS.
      { exists n, m'. split; [split; auto; lia|]. done. }
      split; [by eapply serves_nonnull|done].
    + left. subst m'. split; [done|split; [apply with_mspace_same|]].
      unfold grow_request. rewrite (wrap_small 64) by (unfold in_u; lia).
      eapply allocate_aligned_None; [done..|lia|done|exact E].
Qed.

(** ** Requests are served, growing the heap when no free block fits *)

(** After growth the request fits in the new memory. *)
Lemma grown_fits cs h n h' req :
  grows e cs h n h' -> 0 < req <= 2 ^ 64 - 512 -> req <= n -> n mod 512 = 0 ->
  fst (allocate (heap_mspace_ h') req) <> None.
Proof.
  intros HGr Hr Hle Hm. destruct (align_request_spec req Hr) as (H1 & H2 & H3).
  destruct (allocate_in_range (heap_mspace_ h') (heap_base_ (geo h) + physical_internal_heap_size_ h) n req)
    as (p & m' & E); [apply (hk_wf _ _ _ (gr_ok _ _ _ _ _ HGr))|lia|lia| | |by rewrite E].
  - unfold NVSHMEMI_MALLOC_ALIGNMENT in H2. Z.div_mod_to_equations. lia.
  - intros x Hx. apply (gr_free _ _ _ _ _ HGr). by left.
Qed.

(** The outcome of an allocation: the block was free or new memory, it is
    disjoint from every block in use, which all stay. *)
Record allocated (cs : list (list Z)) (h : heap) (size count alignment : Z) (type : alloc_type)
    (p : Z) (h' : heap) : Prop := {
  al_ok : heap_ok e cs h';
  al_nonnull : p <> 0;
  al_align : match type with NVSHMEMX_ALIGN => p mod alignment = 0 | _ => p mod NVSHMEMI_MALLOC_ALIGNMENT = 0 end;
  al_size : exists n, wanted size count type <= n /\ 0 < n /\
     inuse_chunks (heap_mspace_ h') = <[p := n]> (inuse_chunks (heap_mspace_ h)) /\
     (forall x, p <= x < p + n -> ~ used_byte (heap_mspace_ h) x) /\
     heap_base_ (geo h') <= p /\ p + n <= heap_base_ (geo h') + physical_internal_heap_size_ h';
  al_geo : geo h' = geo h;
  al_mmap : mmap_mspace_ h' = mmap_mspace_ h;
  al_idx : idx_in_handles_ (tab h) `prefix_of` idx_in_handles_ (tab h')
}.

(** A free byte is not in use. *)
Lemma free_not_used m x : wf m -> free_byte m x -> ~ used_byte m x.
Proof.
  intros W (a & s & Ha & Hx) (b & t & Hb & Hy). destruct (wf_free_use _ _ W _ _ _ _ Ha Hb); lia.
Qed.

Lemma serves_allocated cs h0 h size count alignment type p h' :
  heap_ok e cs h -> serves h size count alignment type p h' ->
  inuse_chunks (heap_mspace_ h) = inuse_chunks (heap_mspace_ h0) ->
  geo h = geo h0 -> mmap_mspace_ h = mmap_mspace_ h0 ->
  idx_in_handles_ (tab h0) `prefix_of` idx_in_handles_ (tab h) ->
  allocated cs h0 size count alignment type p h'.
Proof.
  intros HK HS Hu Hg Hm Hi. pose proof (serves_nonnull _ _ _ _ _ _ _ _ HK HS) as Hnn.
  destruct HS as (n & m' & T & -> & Hw & Hal). pose proof T as [W' Tu Tn Tt Tp Twas TF].
  split; cbn; try done; [by eapply heap_ok_takes|].
  exists n. split; [done|split; [done|]]. rewrite <- Hu. split; [done|]. split.
  - intros x Hx. rewrite <- (used_byte_same _ _ x Hu).
    apply free_not_used; [apply (hk_wf _ _ _ HK)|by apply Twas].
  - pose proof (proj1 (hk_bytes _ _ _ HK p) (or_introl (Twas p ltac:(lia)))).
    pose proof (proj1 (hk_bytes _ _ _ HK (p + n - 1)) (or_introl (Twas (p + n - 1) ltac:(lia)))). lia.
Qed.

Lemma wp_allocate_symmetric size count alignment type s :
  heap_ok e (caps s) (obj s) -> args_ok size count alignment type ->
  room (obj s) (grow_request size count alignment type) ->
  wp (allocate_symmetric_memory e size count alignment type)
     (fun p s' => caps s' = caps s /\ allocated (caps s) (obj s) size count alignment type p (obj s')) s.
Proof.
  intros HK HA HR. pose proof (grow_request_ok _ _ _ _ HA) as (Hreq & Hs & Hw).
  unfold allocate_symmetric_memory. rewrite (ok_kind e OK). unfold allocate_symmetric_memory_vmm.
  apply wp_bind. eapply wp_mono; [by apply wp_from_mspace|]. cbn.
  intros p s1 (HC1 & [(-> & HO1 & HN)|[Hp HS]]).
  2:{ rewrite bool_decide_eq_false_2 by lia. apply wp_ret. split; [done|].
      by eapply serves_allocated. }
  rewrite bool_decide_eq_true_2 by lia. apply wp_bind.
  eapply wp_mono; [apply wp_allocate_physical; rewrite ?HO1, ?HC1; [done|lia|done]|]. cbn.
  rewrite HC1, HO1. intros r s2 (-> & HC2 & n & Hn & Hm & HGr). rewrite bool_decide_eq_false_2 by lia.
  apply wp_bind. eapply wp_mono; [apply wp_from_mspace; [|done]|].
  { rewrite HC2. apply HGr. }
  cbn. intros p s3 (HC3 & [(-> & HO3 & HN3)|[Hp HS]]).
  - exfalso. by eapply (grown_fits _ _ _ _ _ HGr).
  - apply wp_bind, (wp_do_call e ST), wp_ret. cbn. split; [congruence|].
    rewrite HC2 in *. eapply serves_allocated; [apply HGr|done|apply HGr|apply HGr|apply HGr|apply HGr].
Qed.

(** All PEs pass the same size (or the check is off). *)
Definition agree (v : Z) : Prop :=
  ENABLE_ERROR_CHECKS e = true ->
  calloc_ok e = true /\ forall l, gathered e l [v] = replicate (Z.to_nat (npes e)) [v].

Lemma check_symmetric_ok v n : forall i k,
  0 <= i -> (Z.to_nat i + n <= k)%nat -> check_symmetric n i v (concat (replicate k [v])) = Ret 0.
Proof.
  induction n as [|n IH]; intros i k Hi Hk; cbn [check_symmetric]; [done|].
  assert (concat (replicate k [v]) !! Z.to_nat i = Some v) as Hl.
  { pose proof (concat_lookup (replicate k [v]) 1 (Z.to_nat i) 0) as HL.
    rewrite Nat.mul_1_r, Nat.add_0_r in HL. rewrite HL; [|by apply Forall_replicate|lia].
    by rewrite lookup_replicate_2 by lia. }
  unfold arr_get. rewrite bool_decide_eq_false_2 by lia. rewrite Hl, outcome_bind_ret.
  rewrite bool_decide_eq_true_2 by done. apply IH; lia.
Qed.

Lemma wp_is_symmetric v s : agree v -> wp (is_symmetric e v) (fun r s' => r = 0 /\ same s s') s.
Proof.
  intros HA. unfold is_symmetric. destruct (ENABLE_ERROR_CHECKS e) eqn:E; [|by apply wp_ret].
  destruct (HA E) as [-> HG]. cbn [negb]. apply wp_bind, (wp_allgather e ST). cbn.
  rewrite bool_decide_eq_false_2 by lia. eapply wp_lift; [|done].
  rewrite HG. apply check_symmetric_ok; lia.
Qed.

Lemma wp_heap_allocate size count alignment type s :
  heap_ok e (caps s) (obj s) -> agree size -> args_ok size count alignment type ->
  room (obj s) (grow_request size count alignment type) ->
  wp (heap_allocate e size count alignment type)
     (fun p s' => caps s' = caps s /\ allocated (caps s) (obj s) size count alignment type p (obj s')) s.
Proof.
  intros HK Hag HA HR. unfold heap_allocate. apply wp_bind.
  eapply wp_mono; [by apply wp_is_symmetric|]. cbn. intros r s1 [-> [HO HC]].
  rewrite bool_decide_eq_false_2 by lia.
  pose proof (wp_allocate_symmetric size count alignment type s1) as HW. rewrite HO, HC in HW.
  apply HW; done.
Qed.

(** The lookup of the handle of an address in the physical part. *)
Lemma wp_get_handle a pe t s :
  heap_ok e (caps s) (obj s) -> 0 <= pe < npes e -> 0 <= t < num_initialized_transports e ->
  heap_base_ (geo (obj s)) <= a < heap_base_ (geo (obj s)) + physical_internal_heap_size_ (obj s) ->
  exists start len row w,
    start <= a < start + len /\ heap_base_ (geo (obj s)) <= start /\
    start + len <= heap_base_ (geo (obj s)) + physical_internal_heap_size_ (obj s) /\
    row_of e (caps s) row start len /\
    row !! Z.to_nat (pe * num_initialized_transports e + t) = Some w /\
    get_transport_mem_handle e a pe t s = Ret (Some (w, start + len - a), s) /\
    get_mem_handle_addr_offset a s = Ret (a - start, s).
Proof.
  intros HK Hpe Ht Ha. pose proof HK as [HG HPe HR0 HR [HL HE] W HT HB].
  pose proof (geo_gran_pos _ HG) as Hg. pose proof (geo_end _ HG). pose proof (geo_base _ HG).
  set (b := heap_base_ (geo (obj s))) in *. set (g := mem_granularity_ (geo (obj s))) in *.
  assert (Z.shiftr (a - b) (log2_mem_granularity_ (geo (obj s))) = (a - b) / g) as Hsh.
  { rewrite Z.shiftr_div_pow2 by (pose proof (geo_log _ HG); lia). unfold g. by rewrite (geo_gran _ HG). }
  assert (0 <= (a - b) / g < Z.of_nat (length (idx_in_handles_ (tab (obj s))))) as Hidx.
  { split; [apply Z.div_pos; lia|]. apply Z.div_lt_upper_bound; lia. }
  destruct (arr_get_some _ _ Hidx) as ([[k start] len] & Hget & Hlook).
  destruct (HE _ _ _ _ Hlook) as (E1 & E2 & E3 & E4 & E5 & row & Hrow & Hro). rewrite Z2Nat.id in E3, E4 by lia.
  pose proof (Z.mul_div_le (a - b) g ltac:(lia)). pose proof (Z.mul_succ_div_gt (a - b) g ltac:(lia)).
  assert (start <= a < start + len) as Hin by nia.
  pose proof Hro as (l & local & Hrl & Hll & _).
  assert (Z.of_nat (length row) = row_len e) as Hlen by (rewrite Hrl; by apply row_shape).
  destruct (arr_get_some row (pe * num_initialized_transports e + t)) as (w & Hw & Hw').
  { unfold row_len in Hlen. nia. }
  exists start, len, row, w. split; [done|split; [done|split; [done|split; [done|split; [done|]]]]]. split.
  - unfold get_transport_mem_handle, mbind, H_bind, get_obj. fold b.
    rewrite (bool_decide_eq_false_2 (a < b \/ _)) by lia. rewrite Hsh.
    rewrite (bool_decide_eq_false_2 (a >= _)) by lia. unfold lift. rewrite Hget. cbn.
    assert (arr_get (remote_handles_ (tab (obj s))) k = Ret row) as ->
      by (unfold arr_get; rewrite bool_decide_eq_false_2 by lia; by rewrite Hrow).
    rewrite Hw. cbn. rewrite (wrap_small 64) by (unfold in_u; lia). by replace (len - (a - start)) with (start + len - a) by lia.
  - unfold get_mem_handle_addr_offset, mbind, H_bind, get_obj. fold b.
    rewrite (wrap_small 64) by (unfold in_u; lia). rewrite Hsh. unfold lift. rewrite Hget. cbn.
    rewrite (wrap_small 64) by (unfold in_u; lia). done.
Qed.

(** This PE's handle is the one its transport returned for the chunk. *)
Lemma row_mine cs row start len t w :
  row_of e cs row start len -> 0 <= t < num_initialized_transports e -> registers e cs t = true ->
  row !! Z.to_nat (mype e * num_initialized_transports e + t) = Some w ->
  exists l, w = value e l (GetMemHandle t start len).
Proof.
  intros (l & local & -> & Hl & Hloc) Ht Hr Hw. pose proof (ok_npes e OK).
  destruct (Hloc t Ht Hr) as [l' Hl']. exists l'.
  replace (Z.to_nat (mype e * num_initialized_transports e + t))
    with (Z.to_nat (mype e) * length local + Z.to_nat t)%nat in Hw by nia.
  rewrite (concat_lookup _ (length local)) in Hw; [|apply (ok_gather_width e OK)|lia].
  rewrite (ok_gather_mine e OK) in Hw. cbn in Hw. congruence.
Qed.

(** ** Release *)
Lemma wp_heap_deallocate p s :
  heap_ok e (caps s) (obj s) -> forall n, inuse_chunks (heap_mspace_ (obj s)) !! p = Some n ->
  wp (heap_deallocate e p) (fun _ s' => caps s' = caps s /\ heap_ok e (caps s) (obj s') /\
     inuse_chunks (heap_mspace_ (obj s')) = delete p (inuse_chunks (heap_mspace_ (obj s))) /\
     physical_internal_heap_size_ (obj s') = physical_internal_heap_size_ (obj s) /\
     (forall x, free_byte (heap_mspace_ (obj s')) x <->
                (p <= x < p + n \/ free_byte (heap_mspace_ (obj s)) x))) s.
Proof.
  intros HK n Hp. pose proof HK as [HG HPe HR0 HR HI W HT HB].
  pose proof (deallocate_spec (heap_mspace_ (obj s)) p W) as HD. rewrite Hp in HD.
  destruct HD as (m' & E & W' & Hu & HF). unfold heap_deallocate.
  apply wp_bind, wp_get_obj, wp_bind. eapply wp_lift; [exact E|]. apply wp_bind, wp_upd.
  apply wp_bind, (wp_do_call e ST), wp_ret. cbn. split; [done|]. split; [|done].
  split; cbn; try done; [by destruct HI; split|by erewrite deallocate_total|].
  intros x. rewrite <- HB, HF. unfold used_byte. rewrite Hu. split.
  - intros [[Hx|Hx]|(a & t & [_ Ha]%lookup_delete_Some & Hx)]; [right; by exists p, n|by left|right; by exists a, t].
  - intros [Hx|(a & t & Ha & Hx)]; [by left; right|].
    destruct (decide (p = a)) as [->|Hne]; [left; left; assert (t = n) as -> by congruence; lia|].
    right. exists a, t. by rewrite lookup_delete_ne.
Qed.

End Theorems.

(** C33: on the VMM heap without rail optimisation, where the calls of CUDA, the
    bootstrap and the transports succeed ([env_ok]) and, if error checks are on,
    all PEs ask for the same size ([agree]), a symmetric allocation (plain, zeroed
    or aligned) with arguments in range ([args_ok]: positive sizes, an alignment
    that is a power of two and a multiple of 8, no overflow) whose request fits below the user buffers and with
    one granule is at most 4 GiB (a larger growth fails the assertion on the
    length of a DMA-BUF handle) is served: from free memory, or, when no free
    block fits, after the heap has grown.  The block is aligned, at least as long as
    asked, disjoint from every block in use (all of which stay), inside the
    physical part, and the invariant of the heap holds again. *)
Theorem symmetric_allocation_correct e s size count alignment type :
  env_ok e -> heap_ok e (caps s) (obj s) -> agree e size -> args_ok size count alignment type ->
  room e (obj s) (grow_request size count alignment type) ->
  exists p s', heap_allocate e size count alignment type s = Ret (p, s') /\ caps s' = caps s /\
    allocated e (caps s) (obj s) size count alignment type p (obj s').
Proof.
  intros OK HK Hag HA HR.
  destruct (wp_run _ _ _ (wp_heap_allocate e OK size count alignment type s HK Hag HA HR))
    as (p & s' & E & HC & HA'). eauto.
Qed.

(** Every address of the physical part has a memory handle for every PE and
    transport: the lookup returns, without fault and without changing the heap,
    the word that PE contributed when the chunk around the address was
    registered, together with the bytes left in that chunk; the offset lookup
    gives the distance from the start of the same chunk; and this PE's word is
    the handle its transport returned for exactly that chunk. *)
Theorem handle_of_every_byte e s a pe t :
  env_ok e -> heap_ok e (caps s) (obj s) -> 0 <= pe < npes e -> 0 <= t < num_initialized_transports e ->
  heap_base_ (geo (obj s)) <= a < heap_base_ (geo (obj s)) + physical_internal_heap_size_ (obj s) ->
  exists start len row w,
    start <= a < start + len /\
    start + len <= heap_base_ (geo (obj s)) + physical_internal_heap_size_ (obj s) /\
    row_of e (caps s) row start len /\
    row !! Z.to_nat (pe * num_initialized_transports e + t) = Some w /\
    get_transport_mem_handle e a pe t s = Ret (Some (w, start + len - a), s) /\
    get_mem_handle_addr_offset a s = Ret (a - start, s) /\
    (pe = mype e -> registers e (caps s) t = true -> exists l, w = value e l (GetMemHandle t start len)).
Proof.
  intros OK HK Hpe Ht Ha.
  destruct (wp_get_handle e OK a pe t s HK Hpe Ht Ha) as (start & len & row & w & H1 & H2 & H3 & H4 & H5 & H6 & H7).
  exists start, len, row, w. split_and!; try done; try lia. intros -> Hr. by eapply (row_mine e OK).
Qed.

(** [nvshmem_free] of a block in use never faults: after the barrier exactly
    the block's bytes return to the free set, the block is forgotten, every
    other block and the physical memory stay, and the invariant holds. *)
Theorem nvshmem_free_correct e s p n :
  env_ok e -> init_status e = 0 -> heap_ok e (caps s) (obj s) ->
  inuse_chunks (heap_mspace_ (obj s)) !! p = Some n ->
  exists s', nvshmem_free e p s = Ret (tt, s') /\ heap_ok e (caps s) (obj s') /\
    inuse_chunks (heap_mspace_ (obj s')) = delete p (inuse_chunks (heap_mspace_ (obj s))) /\
    physical_internal_heap_size_ (obj s') = physical_internal_heap_size_ (obj s) /\
    (forall x, free_byte (heap_mspace_ (obj s')) x <->
               (p <= x < p + n \/ free_byte (heap_mspace_ (obj s)) x)).
Proof.
  intros OK Hi HK Hp. pose proof (wf_use_range _ _ (hk_wf _ _ _ HK) _ _ Hp).
  assert (used_byte (heap_mspace_ (obj s)) p) as Hup by (exists p, n; split; [done|lia]).
  pose proof (proj1 (hk_bytes _ _ _ HK p) (or_intror Hup)).
  pose proof (geo_base _ (hk_geo _ _ _ HK)).
  assert (wp (nvshmem_free e p) (fun _ s' => heap_ok e (caps s) (obj s') /\
    inuse_chunks (heap_mspace_ (obj s')) = delete p (inuse_chunks (heap_mspace_ (obj s))) /\
    physical_internal_heap_size_ (obj s') = physical_internal_heap_size_ (obj s) /\
    (forall x, free_byte (heap_mspace_ (obj s')) x <->
               (p <= x < p + n \/ free_byte (heap_mspace_ (obj s)) x))) s) as HW.
  { unfold nvshmem_free. rewrite bool_decide_eq_false_2 by lia. rewrite bool_decide_eq_false_2 by lia.
    apply wp_bind, (wp_do_call e (ok_status e OK)).
    eapply wp_mono; [by apply (wp_heap_deallocate e OK p)|]. cbn. tauto. }
  destruct (wp_run _ _ _ HW) as ([] & s' & E & HQ). eauto.
Qed.

(** ** Witnesses on the two-PE node *)
Definition demo_malloc : st := final (heap_allocate demo_env 1000 0 0 NVSHMEMX_MALLOC) demo_st.

Lemma demo_agree v : agree demo_env v.
Proof. intros H. discriminate H. Qed.

Lemma demo_room : room demo_env (obj demo_st) (grow_request 1000 0 0 NVSHMEMX_MALLOC).
Proof. split; vm_compute; discriminate. Qed.

Lemma demo_heap_ok : heap_ok demo_env (caps demo_st) (obj demo_st).
Proof. destruct demo_st_ok as (HC & HK & _). by rewrite HC. Qed.

Lemma symmetric_allocation_correct_witness :
  exists s', heap_allocate demo_env 1000 0 0 NVSHMEMX_MALLOC demo_st = Ret (2 ^ 40, s') /\
    allocated demo_env (caps demo_st) (obj demo_st) 1000 0 0 NVSHMEMX_MALLOC (2 ^ 40) (obj s').
Proof.
  destruct (symmetric_allocation_correct demo_env demo_st 1000 0 0 NVSHMEMX_MALLOC
              demo_node_ok demo_heap_ok (demo_agree 1000) ltac:(cbn; lia) demo_room)
    as (p & s' & E & _ & HA).
  exists s'. assert (p = 2 ^ 40) as -> by (vm_compute in E; injection E as <- _; reflexivity).
  split; [exact E|exact HA].
Defined.

Lemma demo_malloc_ok : heap_ok demo_env (caps demo_malloc) (obj demo_malloc) /\ caps demo_malloc = demo_caps.
Proof.
  apply (wp_final _ _ (fun s => heap_ok demo_env (caps s) (obj s) /\ caps s = demo_caps)
    _ (wp_heap_allocate demo_env demo_node_ok 1000 0 0 NVSHMEMX_MALLOC demo_st demo_heap_ok (demo_agree 1000)
         ltac:(cbn; lia) demo_room)).
  intros p s' [HC HA]. rewrite HC. split; [apply HA|apply demo_st_ok].
Qed.

Lemma handle_of_every_byte_witness :
  exists start len w, get_transport_mem_handle demo_env (2 ^ 40 + 4096) 0 1 demo_malloc =
      Ret (Some (w, start + len - (2 ^ 40 + 4096)), demo_malloc) /\
    start = 2 ^ 40 /\ len = 2 * MiB /\ exists l, w = value demo_env l (GetMemHandle 1 start len).
Proof.
  destruct (handle_of_every_byte demo_env demo_malloc (2 ^ 40 + 4096) 0 1 demo_node_ok (proj1 demo_malloc_ok)
              ltac:(cbn; lia) ltac:(cbn; lia) ltac:(vm_compute; split; [discriminate|reflexivity]))
    as (start & len & row & w & _ & _ & _ & _ & E & E' & Hm).
  exists start, len, w. split; [exact E|].
  assert (get_mem_handle_addr_offset (2 ^ 40 + 4096) demo_malloc = Ret (4096, demo_malloc)) as F'
    by (vm_compute; reflexivity).
  assert (get_transport_mem_handle demo_env (2 ^ 40 + 4096) 0 1 demo_malloc =
          Ret (Some (1013, 2 * MiB - 4096), demo_malloc)) as F by (vm_compute; reflexivity).
  assert (start = 2 ^ 40) as Es.
  { pose proof (f_equal (fun o => match o with Ret (x, _) => x | Fail _ => 0 end) (eq_trans (eq_sym F') E')) as G.
    cbv beta iota in G. lia. }
  assert (len = 2 * MiB) as El.
  { pose proof (f_equal (fun o => match o with Ret (Some (_, x), _) => x | _ => 0 end) (eq_trans (eq_sym F) E)) as G.
    cbv beta iota in G. lia. }
  split; [exact Es|split; [exact El|]]. apply Hm; [reflexivity|vm_compute; reflexivity].
Defined.

Lemma nvshmem_free_correct_witness :
  exists s', nvshmem_free demo_env (2 ^ 40) demo_malloc = Ret (tt, s') /\
    inuse_chunks (heap_mspace_ (obj s')) = delete (2 ^ 40) (inuse_chunks (heap_mspace_ (obj demo_malloc))).
Proof.
  destruct (nvshmem_free_correct demo_env demo_malloc (2 ^ 40) 1024 demo_node_ok eq_refl (proj1 demo_malloc_ok))
    as (s' & E & _ & HU & _); [vm_compute; reflexivity|].
  exists s'. split; [exact E|exact HU].
Defined.

End HeapGrow.
