(* ===== verification/HeapMmap.v ===== *)
(** * The symmetric heap: user buffers

    [mmap_mem] places a user buffer in a hole left by an earlier one, or below
    the lowest one.  [mmap_ok] is the invariant of that part of the heap: the
    chunks of [mmap_mspace_] tile the top [R] bytes, and every byte of a mapped
    buffer has an entry in the granule table whose row was gathered for a chunk
    of that buffer.  Mapping keeps it when a hole fits or no hole lies below the
    lowest mapped buffer; the last section shows what happens otherwise. *)
From stdpp Require Import base gmap list sorting.
From Stdlib Require Import ZArith Lia.
From S2P Require Import Prelude Mspace MspaceSpec HeapState Heap HeapAlloc HeapSpec HeapSetup HeapGrow.
Import Mspace HeapState Heap HeapAlloc HeapSpec HeapSetup HeapGrow.

Module HeapMmap.

(** ** The lowest block in use *)
Lemma startInuse_spec m :
  match get_startInusePtr m with
  | None => inuse_chunks m = ∅
  | Some p => (exists n, inuse_chunks m !! p = Some n) /\
              forall a n, inuse_chunks m !! a = Some n -> p <= a
  end.
Proof.
  unfold get_startInusePtr. pose proof (entries_sorted (inuse_chunks m)) as HS.
  pose proof (entries_spec (inuse_chunks m)) as HE. destruct (entries (inuse_chunks m)) as [|[p n] l]; cbn.
  - apply map_eq. intros a. rewrite lookup_empty. destruct (inuse_chunks m !! a) eqn:E; [|done].
    apply HE in E. by apply elem_of_nil in E.
  - split.
    + exists n. apply HE. by left.
    + intros a t Ha. apply HE in Ha as [[= -> ->]|Ha]%elem_of_cons; [lia|].
      inversion HS as [|? ? _ HF]; subst. rewrite Forall_forall in HF. apply (HF (a, t) Ha).
Qed.

Section Mmap.
Context (e : henv) (OK : env_ok e).
Let ST := ok_status e OK.

Lemma mmap_range_spec h :
  (forall a n, inuse_chunks (mmap_mspace_ h) !! a = Some n -> a <> 0) ->
  (inuse_chunks (mmap_mspace_ h) = ∅ /\ mmap_range e h = 0) \/
  (exists p n, inuse_chunks (mmap_mspace_ h) !! p = Some n /\ mmap_range e h = mmap_base_ (geo h) - p /\
     forall a n, inuse_chunks (mmap_mspace_ h) !! a = Some n -> p <= a).
Proof.
  intros Hnz. unfold mmap_range. rewrite (ok_kind e OK). pose proof (startInuse_spec (mmap_mspace_ h)) as HS.
  destruct (get_startInusePtr _) as [p|]; [|by left]. right. destruct HS as [[n Hp] Hmin].
  exists p, n. rewrite bool_decide_eq_true_2 by (by eapply Hnz). done.
Qed.

(** ** The invariant *)

(** Byte [a] of the buffer [lo, hi) is found through the granule table. *)
Definition byte_indexed (cs : list (list Z)) (h : heap) (lo hi a : Z) : Prop :=
  exists k start len row, idx_in_mmap_handles_ (tab h) !! granule_of h a = Some (k, start, len) /\
    lo <= start <= a /\ a < start + len /\ start + len <= hi /\ 0 <= k /\
    remote_mmap_handles_ (tab h) !! Z.to_nat k = Some row /\ row_of e cs row start len.

(** The chunks of the user-buffer space tile the top [R] bytes of the heap. *)
Record tiles (g : geometry) (phys : Z) (m : mspace) (R : Z) : Prop := {
  ti_wf : wf m;
  ti_total : total_size m = R;
  ti_bytes : forall x, free_byte m x \/ used_byte m x <-> mmap_base_ g - R <= x < mmap_base_ g;
  ti_room : 0 <= phys /\ 0 <= R /\ phys + R <= heap_size_ g;
  ti_gran : forall p n, inuse_chunks m !! p = Some n ->
    (p - heap_base_ g) mod mem_granularity_ g = 0 /\ n mod mem_granularity_ g = 0;
  ti_rmod : R mod mem_granularity_ g = 0
}.

Record mmap_ok (cs : list (list Z)) (h : heap) (R : Z) : Prop := {
  mm_tiles : tiles (geo h) (physical_internal_heap_size_ h) (mmap_mspace_ h) R;
  mm_alias : forall a b, alias_va_map_ (vmm h) !! a = Some b -> used_byte (mmap_mspace_ h) a;
  mm_idx : forall p n a, inuse_chunks (mmap_mspace_ h) !! p = Some n -> p <= a < p + n ->
    byte_indexed cs h p (p + n) a
}.

(** Start-up gives an empty user-buffer space. *)
Lemma mmap_ok_boot cs h :
  heap_ok e cs h -> mmap_mspace_ h = mspace_empty -> vmm h = MkVmm [] ∅ ∅ ∅ -> mmap_ok cs h 0.
Proof.
  intros HK Hm Hv. pose proof (hk_room _ _ _ HK). pose proof (hk_range _ _ _ HK).
  assert (forall a : Z, (∅ : gmap Z Z) !! a = None) as HE by (intros; apply lookup_empty).
  split; rewrite ?Hm, ?Hv; cbn; try (intros *; rewrite HE; done).
  split; cbn; try done; try lia; try (intros *; rewrite HE; done).
  intros x. split; [|lia]. intros [(a & t & Ha & _)|(a & t & Ha & _)]; cbn in Ha; by rewrite HE in Ha.
Qed.

Section Facts.
Context (g : geometry) (phys : Z) (m : mspace) (R : Z) (HG : geo_ok g) (TI : tiles g phys m R).

Lemma ti_inuse_range p n : inuse_chunks m !! p = Some n ->
  mmap_base_ g - R <= p /\ 0 < n /\ p + n <= mmap_base_ g /\ heap_base_ g + phys <= p.
Proof.
  intros Hp. pose proof (wf_use_range _ _ (ti_wf _ _ _ _ TI) _ _ Hp) as RU.
  assert (forall x, p <= x < p + n -> mmap_base_ g - R <= x < mmap_base_ g) as HB.
  { intros x Hx. apply (ti_bytes _ _ _ _ TI). right. by exists p, n. }
  pose proof (HB p ltac:(lia)). pose proof (HB (p + n - 1) ltac:(lia)).
  pose proof (ti_room _ _ _ _ TI). pose proof (geo_mmap _ HG). lia.
Qed.

Lemma ti_nonzero a n : inuse_chunks m !! a = Some n -> a <> 0.
Proof.
  intros Ha. pose proof (ti_inuse_range _ _ Ha). pose proof (geo_base _ HG). pose proof (ti_room _ _ _ _ TI). lia.
Qed.

(** The top of the heap is on a granule, and so is the bottom of the tiles. *)
Lemma ti_bottom : (mmap_base_ g - R - heap_base_ g) mod mem_granularity_ g = 0.
Proof.
  pose proof (geo_gran_pos _ HG). rewrite (geo_mmap _ HG).
  pose proof (ti_rmod _ _ _ _ TI) as HR. pose proof (proj2 (geo_size _ HG)) as HS.
  replace (heap_base_ g + heap_size_ g - R - heap_base_ g) with (heap_size_ g - R) by lia.
  rewrite Zminus_mod, HR, HS. by apply Z.mod_0_l; lia.
Qed.

(** A free chunk starts on a granule: below it lies a buffer or nothing. *)
Lemma ti_free_gran a n : free_chunks_start m !! a = Some n ->
  (a - heap_base_ g) mod mem_granularity_ g = 0.
Proof.
  intros Ha. pose proof (ti_wf _ _ _ _ TI) as W. pose proof (geo_gran_pos _ HG) as Hg.
  pose proof (wf_free_range _ _ W _ _ Ha) as RF.
  assert (mmap_base_ g - R <= a < mmap_base_ g) as Hin.
  { apply (ti_bytes _ _ _ _ TI). left. exists a, n. split; [done|lia]. }
  destruct (decide (a = mmap_base_ g - R)) as [->|Hne]; [apply ti_bottom|].
  assert (free_byte m (a - 1) \/ used_byte m (a - 1)) as [HF|(q & t & Hq & Hx)]
    by (apply (ti_bytes _ _ _ _ TI); lia).
  - exfalso. destruct HF as (b & t & Hb & Hx). destruct (decide (b = a)) as [->|Hba]; [lia|].
    destruct (wf_free_disj _ _ W _ _ _ _ Ha Hb ltac:(done)); lia.
  - pose proof (wf_free_use _ _ W _ _ _ _ Ha Hq) as Hap. destruct (ti_gran _ _ _ _ TI _ _ Hq) as [H1 H2].
    assert (a = q + t) as -> by (destruct Hap; lia).
    replace (q + t - heap_base_ g) with (q - heap_base_ g + t) by lia.
    rewrite Z.add_mod, H1, H2 by lia. by apply Z.mod_0_l; lia.
Qed.

(** Taking a block of whole granules keeps the tiling. *)
Lemma tiles_takes p n m' :
  takes m p n m' -> (p - heap_base_ g) mod mem_granularity_ g = 0 -> n mod mem_granularity_ g = 0 ->
  tiles g phys m' R.
Proof.
  intros T Hp Hn. destruct T as [W' Tu Tn Tt Tp Twas TF]. destruct TI as [W HT HB HR HGr HM].
  split; try done; [congruence|..].
  - intros x. rewrite TF, (used_byte_insert _ _ _ _ x Tu Tn), <- HB.
    destruct (decide (p <= x < p + n)); [|tauto]. pose proof (Twas x ltac:(lia)). tauto.
  - intros q t. rewrite Tu. intros [[<- <-]|[_ Hq]]%lookup_insert_Some; [done|by eapply HGr].
Qed.

Lemma gran_512 n : n mod mem_granularity_ g = 0 -> n mod NVSHMEMI_MALLOC_ALIGNMENT = 0.
Proof.
  intros Hm. apply Z.mod_divide in Hm as [k ->]; [|pose proof (geo_gran_pos _ HG); lia].
  rewrite (geo_gran _ HG). pose proof (geo_log _ HG).
  replace (log2_mem_granularity_ g) with ((log2_mem_granularity_ g - 9) + 9) by lia.
  rewrite Z.pow_add_r, Z.mul_assoc by lia. by apply Z.mod_mul.
Qed.

(** A whole number of granules is a request [allocate] does not round. *)
Lemma align_granules n : 0 < n <= 2 ^ 64 - 512 -> n mod mem_granularity_ g = 0 -> align_request n = n.
Proof.
  intros Hn Hm. destruct (align_request_spec n Hn) as (H1 & H2 & _). unfold NVSHMEMI_MALLOC_ALIGNMENT in H2.
  pose proof (gran_512 n Hm) as H5. unfold NVSHMEMI_MALLOC_ALIGNMENT in H5. Z.div_mod_to_equations. lia.
Qed.

(** A hole: the block lies on granules. *)
Lemma tiles_allocate n p m' :
  0 < n <= 2 ^ 64 - 512 -> n mod mem_granularity_ g = 0 -> allocate m n = (Some p, m') ->
  takes m p n m' /\ tiles g phys m' R /\ (p - heap_base_ g) mod mem_granularity_ g = 0.
Proof.
  intros Hn Hm E. pose proof (allocate_takes _ _ _ _ (ti_wf _ _ _ _ TI) Hn E) as T.
  rewrite (align_granules n Hn Hm) in T. destruct (allocate_inv _ _ _ _ E) as (_ & t & Hp & _).
  pose proof (ti_free_gran _ _ Hp). split; [done|split; [|done]]. by apply (tiles_takes p n).
Qed.

End Facts.

(** New space below the tiles. *)
Lemma tiles_add g phys m R n :
  geo_ok g -> tiles g phys m R -> 0 < n -> n mod mem_granularity_ g = 0 -> phys + R + n <= heap_size_ g ->
  let b := mmap_base_ g - R - n in
  exists m1, add_new_chunk m b n = Ret m1 /\ tiles g phys m1 (R + n) /\ inuse_chunks m1 = inuse_chunks m /\
    (b - heap_base_ g) mod mem_granularity_ g = 0 /\
    forall x, free_byte m1 x <-> (b <= x < b + n \/ free_byte m x).
Proof.
  intros HG TI Hn Hm Hroom b. pose proof TI as [W HT HB HR HGr HM].
  pose proof (geo_base _ HG). pose proof (geo_end _ HG). pose proof (geo_mmap _ HG). pose proof (geo_gran_pos _ HG) as Hg.
  assert ((b - heap_base_ g) mod mem_granularity_ g = 0) as Hbg.
  { unfold b. replace (mmap_base_ g - R - n - heap_base_ g) with (mmap_base_ g - R - heap_base_ g - n) by lia.
    rewrite Zminus_mod, (ti_bottom _ _ _ _ HG TI), Hm. by apply Z.mod_0_l; lia. }
  assert (forall x, free_byte m x \/ used_byte m x -> b + n <= x) as Habove by (intros x Hx%HB; lia).
  assert (fresh_block m b n) as F.
  { split.
    - split_and!; try lia. replace b with (heap_base_ g + (b - heap_base_ g)) by lia.
      rewrite Z.add_mod, (proj2 (geo_base _ HG)), (gran_512 _ HG _ Hbg) by done. done.
    - intros q t Hq. pose proof (wf_free_range _ _ W _ _ Hq). left.
      apply Habove. left. exists q, t. split; [done|lia].
    - intros q t Hq. pose proof (wf_use_range _ _ W _ _ Hq). left.
      apply Habove. right. exists q, t. split; [done|lia]. }
  destruct (add_new_chunk_spec m b n W F ltac:(lia)) as (m1 & E1 & W1 & U1 & T1 & B1).
  exists m1. split_and!; try done. split; try done; [lia| |lia|by rewrite U1|].
  - intros x. rewrite B1, (used_byte_same _ _ x U1). specialize (HB x).
    destruct (decide (b <= x < b + n)); [lia|]. destruct HB as [Hfw Hbw]. split.
    + intros [[?|?]|?]; [lia|..]; pose proof (Hfw ltac:(tauto)); lia.
    + intros Hx. destruct Hbw; [lia|tauto..].
  - rewrite Z.add_mod, HM, Hm by lia. by apply Z.mod_0_l; lia.
Qed.

(** When the lowest tile is in use and no hole fits, taking the new space gives
    exactly that space. *)
Lemma tiles_extend g phys m R n :
  geo_ok g -> tiles g phys m R -> 0 < n -> n mod mem_granularity_ g = 0 -> phys + R + n <= heap_size_ g ->
  (R = 0 \/ used_byte m (mmap_base_ g - R)) -> fst (allocate m n) = None ->
  let b := mmap_base_ g - R - n in
  exists m1 m2, add_new_chunk m b n = Ret m1 /\ allocate m1 n = (Some b, m2) /\ tiles g phys m2 (R + n) /\
    inuse_chunks m2 = <[b := n]> (inuse_chunks m) /\ (b - heap_base_ g) mod mem_granularity_ g = 0.
Proof.
  intros HG TI Hn Hm Hroom Hlow Hno b.
  destruct (tiles_add g phys m R n HG TI Hn Hm Hroom) as (m1 & E1 & TI1 & U1 & Hbg & B1). fold b in E1, Hbg, B1.
  assert (n <= 2 ^ 64 - 512) as Hmax.
  { pose proof (geo_base _ HG) as [? Hb]. pose proof (geo_end _ HG). pose proof (ti_room _ _ _ _ TI).
    unfold NVSHMEMI_MALLOC_ALIGNMENT in Hb. Z.div_mod_to_equations; lia. }
  pose proof (align_granules g HG n ltac:(lia) Hm) as Hal. pose proof (ti_wf _ _ _ _ TI1) as W1.
  pose proof (ti_wf _ _ _ _ TI) as W.
  destruct (allocate_in_range m1 b n n W1 Hn Hn ltac:(lia)) as (p & m2 & E2); [intros x Hx; apply B1; by left|].
  destruct (tiles_allocate _ _ _ _ HG TI1 n p m2 ltac:(lia) Hm E2) as (T & TI2 & _).
  assert (forall x, free_byte m x -> b + n < x) as Habove.
  { intros x Hx. pose proof (proj1 (ti_bytes _ _ _ _ TI x) (or_introl Hx)).
    destruct Hlow as [->|Hu]; [lia|]. destruct (decide (x = b + n)) as [->|]; [|lia].
    exfalso. apply (free_not_used m (b + n)); [done..|]. by replace (b + n) with (mmap_base_ g - R) by lia. }
  assert (p = b) as ->.
  { pose proof (tk_was_free _ _ _ _ T) as HF.
    assert (exists x, p <= x < p + n /\ b <= x < b + n) as (x & Hx & Hb).
    { destruct (decide (p < b + n)) as [?|Hge].
      - destruct (proj1 (B1 p) (HF p ltac:(lia))) as [?|Hf%Habove]; [|lia]. exists p. lia.
      - exfalso. destruct (allocate_in_range m p n n W Hn Hn ltac:(lia)) as (q & mq & Eq); [|by rewrite Eq in Hno].
        intros x Hx. destruct (proj1 (B1 x) (HF x ltac:(lia))) as [?|?]; [lia|done]. }
    destruct (decide (p < b)).
    - destruct (proj1 (B1 p) (HF p ltac:(lia))) as [?|?%Habove]; lia.
    - destruct (decide (p = b)) as [|]; [done|].
      destruct (proj1 (B1 (b + n)) (HF (b + n) ltac:(lia))) as [?|?%Habove]; lia. }
  exists m1, m2. split_and!; try done. by rewrite (tk_use _ _ _ _ T), U1.
Qed.

(** ** The granule table of user buffers *)
Lemma lookup_mmap_entries n first entry m j :
  mmap_entries n first entry m !! j =
  if bool_decide (first <= j < first + Z.of_nat n) then Some entry else m !! j.
Proof.
  induction n as [|n IH]; cbn [mmap_entries].
  - by rewrite bool_decide_eq_false_2 by lia.
  - rewrite lookup_insert. destruct (decide (first + Z.of_nat n = j)) as [Hj|Hj].
    + by rewrite bool_decide_eq_true_2 by lia.
    + rewrite IH. case_bool_decide; case_bool_decide; try done; lia.
Qed.

Lemma granule_div h a :
  geo_ok (geo h) -> heap_base_ (geo h) <= a < 2 ^ 64 ->
  granule_of h a = (a - heap_base_ (geo h)) / mem_granularity_ (geo h).
Proof.
  intros HG Ha. pose proof (geo_base _ HG). unfold granule_of.
  rewrite (wrap_small 64), Z.shiftr_div_pow2 by (unfold in_u; pose proof (geo_log _ HG); lia).
  by rewrite (geo_gran _ HG).
Qed.

(** What registering the buffer [lo, hi) does to the heap. *)
Record indexed (cs : list (list Z)) (h : heap) (lo hi : Z) (h' : heap) : Prop := {
  ix_geo : geo h' = geo h;
  ix_vmm : vmm h' = vmm h;
  ix_mspace : heap_mspace_ h' = heap_mspace_ h;
  ix_mmap : mmap_mspace_ h' = mmap_mspace_ h;
  ix_phys : physical_internal_heap_size_ h' = physical_internal_heap_size_ h;
  ix_peers : peer_heap_base_p2p_ h' = peer_heap_base_p2p_ h;
  ix_remote : remote_handles_ (tab h') = remote_handles_ (tab h);
  ix_idx : idx_in_handles_ (tab h') = idx_in_handles_ (tab h);
  ix_rows : remote_mmap_handles_ (tab h) `prefix_of` remote_mmap_handles_ (tab h');
  ix_frame : forall a, heap_base_ (geo h) <= a < 2 ^ 64 -> ~ (lo <= a < hi) ->
    idx_in_mmap_handles_ (tab h') !! granule_of h a = idx_in_mmap_handles_ (tab h) !! granule_of h a;
  ix_new : forall a, lo <= a < hi -> byte_indexed cs h' lo hi a
}.

(** An entry found before is found after, with more rows. *)
Lemma byte_indexed_mono cs h h' lo hi lo' hi' a :
  byte_indexed cs h lo hi a -> geo h' = geo h ->
  idx_in_mmap_handles_ (tab h') !! granule_of h a = idx_in_mmap_handles_ (tab h) !! granule_of h a ->
  remote_mmap_handles_ (tab h) `prefix_of` remote_mmap_handles_ (tab h') ->
  lo' <= lo -> hi <= hi' -> byte_indexed cs h' lo' hi' a.
Proof.
  intros (k & start & len & row & H1 & H2 & H3 & H4 & H5 & H6 & H7) Hg Hi Hp Hlo Hhi.
  exists k, start, len, row. assert (granule_of h' a = granule_of h a) as -> by (unfold granule_of; by rewrite Hg).
  rewrite Hi. split_and!; try done; try lia. by eapply prefix_lookup_Some.
Qed.

Lemma indexed_trans cs h lo mid hi h1 h2 :
  geo_ok (geo h) -> heap_base_ (geo h) <= lo -> lo <= mid <= hi -> hi < 2 ^ 64 ->
  indexed cs h lo mid h1 -> indexed cs h1 mid hi h2 -> indexed cs h lo hi h2.
Proof.
  intros HG Hb Hm Hmax I1 I2.
  assert (forall a, granule_of h1 a = granule_of h a) as Hgr by (intros; unfold granule_of; by rewrite (ix_geo _ _ _ _ _ I1)).
  destruct I1 as [A1 A2 A3 A4 A5 A6 A7 A8 A9 A10 A11]. destruct I2 as [B1 B2 B3 B4 B5 B6 B7 B8 B9 B10 B11].
  split; try congruence; [by etrans|..].
  - intros a Ha Hn. rewrite <- Hgr, B10, Hgr by (rewrite ?A1; lia). apply A10; lia.
  - intros a Ha. destruct (decide (a < mid)).
    + eapply (byte_indexed_mono cs h1); [apply A11; lia|done| |done|lia|lia].
      apply B10; [rewrite A1; lia|lia].
    + eapply (byte_indexed_mono cs h2); [apply B11; lia|done..|lia|lia].
Qed.

(** One registered chunk. *)
Lemma chunk_indexed cs h b n row c :
  geo_ok (geo h) -> heap_base_ (geo h) <= b -> b + n < 2 ^ 64 -> 0 < n ->
  (b - heap_base_ (geo h)) mod mem_granularity_ (geo h) = 0 -> n mod mem_granularity_ (geo h) = 0 ->
  row_of e cs row b n ->
  indexed cs h b (b + n)
    (with_tab (set_cache c (set_idx_mmap (mmap_entries (Z.to_nat (n / mem_granularity_ (geo h))) (granule_of h b)
       (Z.of_nat (length (remote_mmap_handles_ (tab h))), b, n) (idx_in_mmap_handles_ (tab h)))
       (set_remote_mmap (remote_mmap_handles_ (tab h) ++ [row]) (tab h)))) h).
Proof.
  intros HG Hb Hmax Hn Hbm Hnm Hrow. pose proof (geo_gran_pos _ HG) as Hg.
  set (g := mem_granularity_ (geo h)) in *. set (base := heap_base_ (geo h)) in *.
  apply Z.mod_divide in Hbm as [q Hq]; [|lia]. apply Z.mod_divide in Hnm as [k Hk]; [|lia].
  assert (granule_of h b = q) as Hgb by (rewrite granule_div by (done || lia); fold base g; rewrite Hq; apply Z.div_mul; lia).
  assert (n / g = k) as Hnk by (rewrite Hk; apply Z.div_mul; lia). assert (0 < k) by nia.
  assert (forall a, base <= a < 2 ^ 64 -> (b <= a < b + n <-> q <= granule_of h a < q + Z.of_nat (Z.to_nat k))) as Hiff.
  { intros a Ha. rewrite granule_div by done. fold base g.
    pose proof (Z.mul_div_le (a - base) g ltac:(lia)). pose proof (Z.mul_succ_div_gt (a - base) g ltac:(lia)).
    rewrite Z2Nat.id by lia. split; intros; nia. }
  split; cbn; try done; [by apply prefix_app_r|..].
  - intros a Ha Hna. rewrite lookup_mmap_entries, Hgb, Hnk.
    rewrite bool_decide_eq_false_2; [done|]. by rewrite <- Hiff.
  - intros a Ha. exists (Z.of_nat (length (remote_mmap_handles_ (tab h)))), b, n, row. cbn.
    change (granule_of (with_tab _ h) a) with (granule_of h a).
    rewrite lookup_mmap_entries, Hgb, Hnk, bool_decide_eq_true_2 by (apply Hiff; lia).
    split_and!; try done; try lia. rewrite Nat2Z.id, lookup_app_r, Nat.sub_diag by lia. done.
Qed.

(** ** Registering a user buffer *)
Lemma wp_update_cache_ext buf size s :
  0 <= size -> 0 < mem_granularity_ (geo (obj s)) ->
  wp (update_heap_handle_cache e buf size true)
     (fun r s' => r = 0 /\ caps s' = caps s /\ exists c,
        obj s' = with_tab (set_cache c (set_idx_mmap (mmap_entries
          (Z.to_nat (size / mem_granularity_ (geo (obj s)))) (granule_of (obj s) buf)
          (Z.of_nat (length (remote_mmap_handles_ (tab (obj s)))) - 1, buf, size)
          (idx_in_mmap_handles_ (tab (obj s)))) (tab (obj s)))) (obj s)) s.
Proof.
  intros Hs Hg. unfold update_heap_handle_cache. apply wp_bind, wp_get_obj. rewrite (ok_rail e OK).
  apply wp_bind, wp_bind. eapply wp_lift; [unfold cdiv; by rewrite bool_decide_eq_false_2 by lia|].
  eapply wp_mono; [apply wp_index_granules_ext; apply Z.div_pos; lia|]. cbn.
  intros r s' (-> & HC & HO). apply wp_bind, wp_get_obj.
  destruct (empty_heap_handle_cache _).
  - apply wp_bind, wp_upd, wp_ret. split; [done|split; [done|]]. cbn. rewrite HO. by eexists.
  - apply wp_ret. split; [done|split; [done|]]. eexists. rewrite HO. cbn. done.
Qed.

Lemma wp_register_chunk_ext buf n s :
  geo_ok (geo (obj s)) -> heap_base_ (geo (obj s)) <= buf -> buf + n < 2 ^ 64 -> 0 < n ->
  (buf - heap_base_ (geo (obj s))) mod mem_granularity_ (geo (obj s)) = 0 ->
  n mod mem_granularity_ (geo (obj s)) = 0 ->
  wp (register_heap_chunk_by_size_dynamic e buf n true)
     (fun r s' => r = 0 /\ caps s' = caps s /\ indexed (caps s) (obj s) buf (buf + n) (obj s')) s.
Proof.
  intros HG Hb Hmax Hn Hbm Hnm. pose proof (geo_gran_pos _ HG).
  unfold register_heap_chunk_by_size_dynamic.
  apply wp_bind. eapply wp_mono; [apply (wp_local_register e OK)|]. cbn.
  intros [st local] s1 (Hst & Hlen & [HO1 HC1] & Hloc). cbn in Hst, Hlen, Hloc. subst st.
  apply wp_jmp_ok, wp_ret. split; [done|].
  apply wp_jmp_ok. eapply wp_mono; [by apply (wp_gather_row e OK)|]. cbn. intros r s2 (-> & HC2 & l & HO2).
  split; [done|]. apply wp_bind, wp_get_obj.
  apply wp_jmp_ok. eapply wp_mono; [apply (wp_gather_mem_handles e OK)|]. cbn. intros r s3 [-> [HO3 HC3]].
  split; [done|].
  apply wp_jmp_ok. eapply wp_mono; [apply wp_update_cache_ext; [lia|]|].
  { rewrite HO3, HO2. cbn. rewrite HO1. lia. }
  cbn. intros r s4 (-> & HC4 & c & HO4). split; [done|]. apply wp_ret.
  split; [done|split; [by rewrite HC4, HC3, HC2|]].
  rewrite HO4, HO3, HO2, HO1. cbn. rewrite length_app. cbn.
  replace (Z.of_nat (length (remote_mmap_handles_ (tab (obj s))) + 1) - 1)
    with (Z.of_nat (length (remote_mmap_handles_ (tab (obj s))))) by lia.
  apply (chunk_indexed (caps s) (obj s) buf n (concat (gathered e l local)) c); try done.
  exists l, local. split; [done|split; [done|]]. exact Hloc.
Qed.

Lemma wp_register_loop_ext fuel : forall buf rem s,
  geo_ok (geo (obj s)) -> heap_base_ (geo (obj s)) <= buf -> buf + rem < 2 ^ 64 -> 0 < rem ->
  (buf - heap_base_ (geo (obj s))) mod mem_granularity_ (geo (obj s)) = 0 ->
  rem mod mem_granularity_ (geo (obj s)) = 0 -> rem / NVSHMEMI_MAX_HANDLE_LENGTH < Z.of_nat fuel ->
  wp (register_loop fuel NVSHMEMI_MAX_HANDLE_LENGTH
        (fun b n => register_heap_chunk_by_size_dynamic e b n true) false buf rem)
     (fun r s' => r = 0 /\ caps s' = caps s /\ indexed (caps s) (obj s) buf (buf + rem) (obj s')) s.
Proof.
  induction fuel as [|fuel IH]; intros buf rem s HG Hb Hmax Hr Hbm Hm Hf.
  { pose proof (Z.div_pos rem NVSHMEMI_MAX_HANDLE_LENGTH ltac:(lia) ltac:(done)). lia. }
  cbn [register_loop]. destruct (chunk_len_granules _ rem HG Hr Hm) as (Hn & Hnm & Hrm & Hcase).
  set (n := chunk_len rem NVSHMEMI_MAX_HANDLE_LENGTH) in *. pose proof (geo_gran_pos _ HG) as Hg.
  apply wp_jmp_ok. eapply wp_mono; [apply (wp_register_chunk_ext buf n); (done || lia)|]. cbn.
  intros r s1 (-> & HC1 & HI1). split; [done|]. apply wp_bind, wp_ret.
  apply wp_bind. eapply wp_lift; [unfold cassert; by rewrite bool_decide_eq_true_2 by lia|].
  pose proof (ix_geo _ _ _ _ _ HI1) as Hgeo. case_bool_decide as Hz.
  - apply wp_ret. split; [done|split; [done|]]. by replace rem with n by lia.
  - destruct Hcase as [?|[Hmx Hlt]]; [lia|].
    eapply wp_mono; [apply (IH (buf + n) (rem - n)); rewrite ?Hgeo; try done; try lia|].
    + replace (buf + n - heap_base_ (geo (obj s))) with (buf - heap_base_ (geo (obj s)) + n) by lia.
      rewrite Z.add_mod, Hbm, Hnm by lia. by apply Z.mod_0_l; lia.
    + rewrite Hmx. replace (rem - NVSHMEMI_MAX_HANDLE_LENGTH) with (rem + (-1) * NVSHMEMI_MAX_HANDLE_LENGTH) by lia.
      rewrite Z.div_add by done. lia.
    + cbn. intros r s2 (-> & HC2 & HI2). split; [done|split; [congruence|]]. rewrite HC1 in HI2.
      replace (buf + n + (rem - n)) with (buf + rem) in HI2 by lia.
      by apply (indexed_trans _ _ _ (buf + n) _ (obj s1)); try lia.
Qed.

(** ** The checks and the alias table *)

(** A buffer the checks accept: VMM memory of this device, or host memory. *)
Record user_buffer_ok (ptr : Z) : Prop := {
  ub_checks : ENABLE_ERROR_CHECKS e = false;
  ub_type : forall l, value e l (CuPointerGetAttribute ATTR_MEMORY_TYPE ptr) = CU_MEMORYTYPE_DEVICE \/
                      value e l (CuPointerGetAttribute ATTR_MEMORY_TYPE ptr) = CU_MEMORYTYPE_HOST;
  ub_device : forall l, s32 (value e l (CuPointerGetAttribute ATTR_DEVICE_ORDINAL ptr)) = device_id e;
  ub_handle_type : forall l x, value e l (CuMemGetAllocationProperties x) = mem_handle_type e
}.

Lemma wp_check_user_alloc ptr x s :
  user_buffer_ok ptr -> wp (check_user_alloc e ptr x) (fun r s' => r.1 = 0 /\ same s s') s.
Proof.
  intros [Hc Hty Hdev Hht]. unfold check_user_alloc. apply wp_bind, (wp_do_call_val e ST).
  rewrite bool_decide_eq_false_2 by lia. rewrite bool_decide_eq_false_2 by (destruct (Hty (log s)); lia).
  set (mt := value e _ _). apply wp_bind.
  assert (forall o s1, same s s1 ->
    wp (s0 ← (mret 0 ?! 0 ;; check_buffers_on_same_device e (bool_decide (o = CU_MEMORYTYPE_DEVICE))
           ?! NVSHMEMX_ERROR_INVALID_VALUE ;;
         '(s2, requested) ← do_call_val e (CuMemGetAllocationProperties x);
         mret s2 ?! NVSHMEMX_ERROR_INTERNAL ;;
         mret (Z.b2z (bool_decide (requested <> mem_handle_type e))) ?! NVSHMEMX_ERROR_INVALID_VALUE ;;
         do_call e CuMemGetAllocationGranularity ?! NVSHMEMX_ERROR_INTERNAL ;; mret 0); mret (s0, mt))
      (fun r s' => r.1 = 0 /\ same s s') s1) as Hrest.
  { intros o s1 HS. apply wp_bind, wp_jmp_ok, wp_ret. split; [done|].
    apply wp_jmp_ok. unfold check_buffers_on_same_device. rewrite Hc. apply wp_ret. split; [done|].
    apply wp_bind, (wp_do_call_val e ST). apply wp_jmp_ok, wp_ret. split; [done|].
    rewrite bool_decide_eq_false_2 by (intros H; by apply H, Hht). apply wp_jmp_ok, wp_ret. split; [done|].
    apply wp_jmp_ok, (wp_do_call e ST). split; [done|]. apply wp_ret, wp_ret. done. }
  case_bool_decide as Hd.
  - apply wp_bind, (wp_do_call_val e ST). rewrite bool_decide_eq_false_2 by lia.
    rewrite bool_decide_eq_false_2 by (intros H; by apply H, Hdev). apply wp_ret. by apply Hrest.
  - apply wp_ret. by apply Hrest.
Qed.

Lemma wp_check_user ptr size s :
  user_buffer_ok ptr -> geo_ok (geo (obj s)) -> 0 < size -> size mod mem_granularity_ (geo (obj s)) = 0 ->
  wp (check_user_buffer_for_mmap e ptr size) (fun r s' => r.1 = 0 /\ same s s') s.
Proof.
  intros HU HG Hs Hm. pose proof (geo_gran_pos _ HG). unfold check_user_buffer_for_mmap.
  rewrite bool_decide_eq_false_2 by lia. apply wp_bind. unfold is_symmetric. rewrite (ub_checks _ HU).
  apply wp_ret. rewrite bool_decide_eq_false_2 by lia. apply wp_bind. unfold gran.
  apply wp_bind, wp_get_obj, wp_ret, wp_bind.
  eapply wp_lift; [unfold cdiv; by rewrite bool_decide_eq_false_2 by lia|]. rewrite Hm.
  rewrite bool_decide_eq_false_2 by (intros Hx; by apply Hx).
  apply wp_bind, (wp_do_call_val e ST). rewrite bool_decide_eq_false_2 by lia.
  apply wp_bind. eapply wp_mono; [by apply wp_check_user_alloc|]. cbn. intros [c mt] s1 [Hc HS]. cbn in Hc. subst c.
  apply wp_bind, (wp_do_call e ST). rewrite bool_decide_eq_false_2 by lia. by apply wp_ret.
Qed.

(** The alias loop adds keys of the buffer only. *)
Definition aliased (h : heap) (lo hi : Z) (h' : heap) : Prop :=
  exists al eg, h' = with_vmm (MkVmm (cumem_handles_ (vmm h)) (mmap_handle_idx_in_cumem_handles_ (vmm h)) al eg) h /\
    forall a b, al !! a = Some b -> alias_va_map_ (vmm h) !! a = Some b \/ lo <= a < hi.

Lemma wp_alias_loop fuel egm : forall ptr buf rem s,
  0 < rem -> rem / NVSHMEMI_MAX_HANDLE_LENGTH < Z.of_nat fuel ->
  (forall a, ptr <= a < ptr + rem -> alias_va_map_ (vmm (obj s)) !! a = None) ->
  wp (alias_loop fuel NVSHMEMI_MAX_HANDLE_LENGTH egm ptr buf rem)
     (fun r s' => r = 0 /\ caps s' = caps s /\ aliased (obj s) ptr (ptr + rem) (obj s')) s.
Proof.
  induction fuel as [|fuel IH]; intros ptr buf rem s Hr Hf Hno.
  { pose proof (Z.div_pos rem NVSHMEMI_MAX_HANDLE_LENGTH ltac:(lia) ltac:(done)). lia. }
  cbn [alias_loop]. apply wp_bind, wp_get_obj. rewrite bool_decide_eq_false_2 by (intros H; apply H, Hno; lia).
  apply wp_bind, wp_upd.
  assert (0 < chunk_len rem NVSHMEMI_MAX_HANDLE_LENGTH <= rem /\
    (chunk_len rem NVSHMEMI_MAX_HANDLE_LENGTH = rem \/ chunk_len rem NVSHMEMI_MAX_HANDLE_LENGTH = NVSHMEMI_MAX_HANDLE_LENGTH)) as [Hc Hcase].
  { unfold chunk_len, NVSHMEMI_MAX_HANDLE_LENGTH. case_bool_decide; lia. }
  set (n := chunk_len rem NVSHMEMI_MAX_HANDLE_LENGTH) in *. case_bool_decide as Hz.
  - eapply wp_mono; [apply IH|]; cbn.
    + lia.
    + destruct Hcase as [?|Hmx]; [lia|]. rewrite Hmx.
      replace (rem - NVSHMEMI_MAX_HANDLE_LENGTH) with (rem + (-1) * NVSHMEMI_MAX_HANDLE_LENGTH) by lia.
      rewrite Z.div_add by done. lia.
    + intros a Ha. rewrite lookup_insert_ne by lia. apply Hno. lia.
    + intros r s' (-> & HC & al & eg & HO & Hal). split; [done|split; [done|]].
      exists al, eg. split; [by rewrite HO|]. cbn in Hal. intros a b Hab.
      destruct (Hal a b Hab) as [[[<- _]|[_ ?]]%lookup_insert_Some|?]; [right; lia|by left|right; lia].
  - apply wp_ret. split; [done|split; [done|]]. eexists _, _. split; [done|]. cbn.
    intros a b [[<- _]|[_ ?]]%lookup_insert_Some; [right; lia|by left].
Qed.

(** ** Placing a buffer *)

(** A hole fits, or the lowest tile is in use and there is room below it. *)
Definition fits (h : heap) (R n : Z) : Prop :=
  fst (allocate (mmap_mspace_ h) n) <> None \/
  mmap_range e h = R /\ physical_internal_heap_size_ h + R + n < heap_size_ (geo h).

(** Block [p, p + n) chosen in heap [h]: [m1] is the space while the buffer is
    being mapped, [m2] the space after. *)
Record placement (h : heap) (n p : Z) (m1 m2 : mspace) (R' : Z) : Prop := {
  pl_tiles : tiles (geo h) (physical_internal_heap_size_ h) m2 R';
  pl_use : inuse_chunks m2 = <[p := n]> (inuse_chunks (mmap_mspace_ h));
  pl_none : inuse_chunks (mmap_mspace_ h) !! p = None;
  pl_gran : (p - heap_base_ (geo h)) mod mem_granularity_ (geo h) = 0;
  pl_extend : m1 = m2 \/ mmap_base_ (geo h) - mmap_range e h = p + n /\ m1 = mmap_mspace_ h /\
    exists m, add_new_chunk m1 p n = Ret m /\ allocate m n = (Some p, m2)
}.

Lemma wp_place cs n s R :
  heap_ok e cs (obj s) -> tiles (geo (obj s)) (physical_internal_heap_size_ (obj s)) (mmap_mspace_ (obj s)) R ->
  0 < n -> n mod mem_granularity_ (geo (obj s)) = 0 -> n <= 2 ^ 64 - 512 -> fits (obj s) R n ->
  wp (place_user_buffer e n) (fun r s' => caps s' = caps s /\ exists p m1 m2 R', r = (0, p) /\
     obj s' = with_mmap_mspace m1 (obj s) /\ placement (obj s) n p m1 m2 R') s.
Proof.
  intros HK TI Hn Hm Hmax HF. pose proof (hk_geo _ _ _ HK) as HG. unfold place_user_buffer. apply wp_bind, wp_get_obj.
  destruct (allocate _ n) as [r m'] eqn:E. apply wp_bind, wp_upd, wp_bind, wp_get_obj. cbn [obj].
  destruct r as [p|].
  - apply wp_ret. split; [done|]. destruct (tiles_allocate _ _ _ _ HG TI n p m' ltac:(lia) Hm E) as (T & TI' & Hp).
    exists p, m', m', R. split; [done|split; [done|]]. split; try done; [apply T..|by left].
  - destruct HF as [HF|[HR Hroom]]; [by rewrite E in HF|].
    pose proof (proj2 (allocate_none (mmap_mspace_ (obj s)) n)) as HN. rewrite E in HN. cbn in HN.
    rewrite HN by done. unfold fits in *. clear HN.
    change (mmap_range e (with_mmap_mspace _ _)) with (mmap_range e (obj s)). cbn [with_mmap_mspace geo physical_internal_heap_size_].
    pose proof (ti_room _ _ _ _ TI). pose proof (geo_base _ HG). pose proof (geo_end _ HG). pose proof (geo_mmap _ HG).
    rewrite HR, (wrap_small 64) by (unfold in_u; lia). rewrite bool_decide_eq_false_2 by lia. apply wp_ret. split; [done|].
    destruct (tiles_extend _ _ _ R n HG TI Hn Hm ltac:(lia)) as (m1 & m2 & E1 & E2 & TI2 & U2 & Hb).
    + destruct (mmap_range_spec (obj s) (ti_nonzero _ _ _ _ HG TI)) as [[_ ?]|(q & t & Hq & Hr & _)]; [left; lia|right].
      pose proof (wf_use_range _ _ (ti_wf _ _ _ _ TI) _ _ Hq). exists q, t. split; [done|lia].
    + by rewrite E.
    + eexists _, (mmap_mspace_ (obj s)), m2, (R + n). split; [done|split; [by destruct (obj s)|]].
      split; try done.
      * destruct (inuse_chunks _ !! _) as [t|] eqn:Hu; [|done].
        pose proof (ti_inuse_range _ _ _ _ HG TI _ _ Hu). lia.
      * right. split; [lia|split; [done|]]. by exists m1.
Qed.

(** While the buffer is mapped the space is extended once. *)
Lemma wp_extend_placed h n p m1 m2 R' s :
  heap_ok e (caps s) h -> placement h n p m1 m2 R' -> 0 < n ->
  geo (obj s) = geo h -> mmap_mspace_ (obj s) = m1 ->
  wp (extend_mmap_mspace e p n) (fun r s' => r = 0 /\ caps s' = caps s /\
     obj s' = with_mmap_mspace m2 (obj s)) s.
Proof.
  intros HK PL Hn Hg Hm. pose proof (hk_geo _ _ _ HK) as HG. unfold extend_mmap_mspace. apply wp_bind, wp_get_obj.
  pose proof (ti_nonzero _ _ _ _ HG (pl_tiles _ _ _ _ _ _ PL)) as Hnz.
  destruct (pl_extend _ _ _ _ _ _ PL) as [->|(Hp & -> & m & E1 & E2)].
  - rewrite bool_decide_eq_false_2.
    + apply wp_ret. split; [done|split; [done|]]. rewrite <- Hm. by destruct (obj s).
    + unfold mmap_range. rewrite (ok_kind e OK), Hm, Hg. pose proof (startInuse_spec m2) as HS.
      rewrite (pl_use _ _ _ _ _ _ PL) in HS. destruct (get_startInusePtr m2) as [q|].
      * destruct HS as [[t Hq] Hmin]. specialize (Hmin p n). rewrite lookup_insert_eq in Hmin.
        specialize (Hmin eq_refl). rewrite bool_decide_eq_true_2; [lia|].
        eapply Hnz. by rewrite (pl_use _ _ _ _ _ _ PL).
      * exfalso. by apply insert_non_empty in HS.
  - rewrite (mmap_range_same e h (obj s)) by (done || congruence). rewrite bool_decide_eq_true_2 by (rewrite Hg; lia).
    apply wp_bind. eapply wp_lift; [rewrite Hm; exact E1|]. rewrite E2. apply wp_bind, wp_upd.
    rewrite bool_decide_eq_false_2 by (intros Hx; by apply Hx). by apply wp_ret.
Qed.

Lemma wp_register_ext x h n p m1 m2 R' s :
  heap_ok e (caps s) h -> placement h n p m1 m2 R' -> 0 < n < NVSHMEMI_DMA_BUF_MAX_LENGTH ->
  n mod mem_granularity_ (geo h) = 0 -> geo (obj s) = geo h -> mmap_mspace_ (obj s) = m1 ->
  peer_heap_base_p2p_ (obj s) = peer_heap_base_p2p_ h ->
  wp (register_heap_memory_dynamic e x p n true) (fun r s' => r = 0 /\ caps s' = caps s /\
     indexed (caps s) (with_mmap_mspace m2 (obj s)) p (p + n) (obj s')) s.
Proof.
  intros HK PL Hn Hmod Hg Hm Hpe. pose proof (hk_geo _ _ _ HK) as HG.
  destruct (ti_inuse_range _ _ _ _ HG (pl_tiles _ _ _ _ _ _ PL) p n) as (_ & _ & Hp1 & Hp2).
  { by rewrite (pl_use _ _ _ _ _ _ PL), lookup_insert_eq. }
  pose proof (ti_room _ _ _ _ (pl_tiles _ _ _ _ _ _ PL)). pose proof (geo_base _ HG). pose proof (geo_end _ HG).
  pose proof (geo_mmap _ HG).
  unfold register_heap_memory_dynamic. rewrite bool_decide_eq_false_2 by lia.
  apply wp_bind. eapply wp_mono; [apply wp_adjusted; by rewrite Hg|]. cbn. intros r s0 [-> ->].
  do 2 (apply wp_bind; eapply wp_lift; [unfold cassert; by rewrite bool_decide_eq_true_2 by lia|]).
  apply wp_jmp_ok. eapply wp_mono; [apply (wp_map_heap_memory e OK); rewrite Hpe; apply HK|]. cbn.
  intros r s1 (-> & rows & HO1 & HC1). split; [done|]. apply wp_jmp_ok.
  eapply wp_mono; [apply (wp_extend_placed h n p m1 m2 R'); rewrite ?HC1, ?HO1; (done || lia)|]. cbn.
  intros r s2 (-> & HC2 & HO2). split; [done|].
  eapply wp_mono; [apply wp_register_loop_ext; rewrite ?HO2, ?HO1; cbn; rewrite ?Hg; try done; try lia|].
  - apply (pl_gran _ _ _ _ _ _ PL).
  - unfold chunk_fuel. pose proof (Z.div_pos n NVSHMEMI_MAX_HANDLE_LENGTH ltac:(lia) ltac:(done)). lia.
  - cbn. intros r s3 (-> & HC3 & IX). split; [done|split; [congruence|]].
    rewrite HC2, HC1, HO2, HO1 in IX. by destruct IX; split.
Qed.

(** ** Mapping a buffer *)

(** The outcome of mapping a user buffer of [n] bytes at [p]. *)
Record mapped (cs : list (list Z)) (h : heap) (n p R' : Z) (h' : heap) : Prop := {
  mp_heap : heap_ok e cs h';
  mp_ok : mmap_ok cs h' R';
  mp_geo : geo h' = geo h;
  mp_use : inuse_chunks (mmap_mspace_ h') = <[p := n]> (inuse_chunks (mmap_mspace_ h));
  mp_new : forall x, p <= x < p + n -> ~ used_byte (mmap_mspace_ h) x;
  mp_above : heap_base_ (geo h) + physical_internal_heap_size_ h <= p /\ p + n <= mmap_base_ (geo h);
  mp_internal : heap_mspace_ h' = heap_mspace_ h /\
    physical_internal_heap_size_ h' = physical_internal_heap_size_ h
}.

Lemma tiles_range_le h R : geo_ok (geo h) ->
  tiles (geo h) (physical_internal_heap_size_ h) (mmap_mspace_ h) R -> 0 <= mmap_range e h <= R.
Proof.
  intros HG TI. pose proof (ti_room _ _ _ _ TI).
  destruct (mmap_range_spec h (ti_nonzero _ _ _ _ HG TI)) as [[_ ->]|(p & n & Hp & -> & _)]; [lia|].
  pose proof (ti_inuse_range _ _ _ _ HG TI _ _ Hp). lia.
Qed.

Lemma placement_unused h n p m1 m2 R' :
  placement h n p m1 m2 R' -> forall x, p <= x < p + n -> ~ used_byte (mmap_mspace_ h) x.
Proof.
  intros [TI2 PU PN _ _] x Hx (q & t & Hq & Hxq). assert (p <> q) by congruence.
  pose proof (wf_use_disj _ _ (ti_wf _ _ _ _ TI2) p n q t) as HD.
  rewrite PU, lookup_insert_eq, lookup_insert_ne in HD by done. destruct (HD eq_refl Hq ltac:(done)); lia.
Qed.

(** The pieces of the state at the end of [mmap_mem] make the invariant. *)
Lemma mapped_intro cs h R n p m1 m2 R' h1 h2 v :
  heap_ok e cs h -> mmap_ok cs h R -> placement h n p m1 m2 R' -> 0 < n ->
  aliased (with_mmap_mspace m1 h) p (p + n) h1 -> vmm h2 = MkVmm (cumem_handles_ v)
    (mmap_handle_idx_in_cumem_handles_ v) (alias_va_map_ (vmm h1)) (egm_map_ v) ->
  indexed cs (with_mmap_mspace m2 (with_vmm (vmm h2) h)) p (p + n) h2 ->
  mapped cs h n p R' h2.
Proof.
  intros HK [TI MA MI] PL Hn (al & eg & -> & Hal) Hv IX. cbn in Hal, Hv.
  pose proof (placement_unused _ _ _ _ _ _ PL) as Hun.
  pose proof (hk_geo _ _ _ HK) as HG. destruct PL as [TI2 PU PN PG PX].
  destruct IX as [Ig Iv Im Imm Ip Ipe Ir Ii Irows Ifr Inew]. cbn in *.
  pose proof (ti_wf _ _ _ _ TI2) as W2.
  assert (inuse_chunks m2 !! p = Some n) as Hpn by (by rewrite PU, lookup_insert_eq).
  destruct (ti_inuse_range _ _ _ _ HG TI2 _ _ Hpn) as (Hp0 & _ & Hp1 & Hp2).
  assert (forall q t, inuse_chunks (mmap_mspace_ h) !! q = Some t -> inuse_chunks m2 !! q = Some t /\ apart p n q t) as Hold.
  { intros q t Hq. assert (p <> q) by congruence. assert (inuse_chunks m2 !! q = Some t) as Hq2 by (by rewrite PU, lookup_insert_ne).
    split; [done|]. by apply (wf_use_disj _ _ W2 _ _ _ _ Hpn Hq2). }
  assert (mmap_ok cs h2 R') as MO.
  { split; [by rewrite Ig, Ip, Imm|..].
    - intros a b. rewrite Hv, Imm. cbn. intros [(q & t & Hq & Hx)%MA|Hx]%Hal; [|by exists p, n].
      exists q, t. split; [by apply Hold|done].
    - intros q t a. rewrite Imm, PU. intros [[<- <-]|[Hne Hq]]%lookup_insert_Some Ha; [by apply Inew|].
      destruct (Hold _ _ Hq) as [_ Hap]. destruct (ti_inuse_range _ _ _ _ HG TI _ _ Hq) as (_ & _ & Hq1 & Hq2).
      pose proof (geo_base _ HG). pose proof (geo_end _ HG). pose proof (geo_mmap _ HG).
      pose proof (hk_room _ _ _ HK).
      apply (byte_indexed_mono cs h h2 q (q + t)); try done; try lia; [by apply MI|].
      apply Ifr; [lia|]. destruct Hap; lia. }
  split; try done.
  - pose proof (tiles_range_le h2 R' ltac:(by rewrite Ig) (mm_tiles _ _ _ MO)) as HR.
    pose proof (ti_room _ _ _ _ TI2). destruct HK as [_ HP _ _ [Hl He] W HT HB].
    split; rewrite ?Ig, ?Ipe, ?Ip, ?Im; try done; try lia.
    split; rewrite ?Ii, ?Ir, ?Ig, ?Ip; done.
  - by rewrite Imm.
Qed.

Lemma wp_mmap_body buf n s R :
  heap_ok e (caps s) (obj s) -> mmap_ok (caps s) (obj s) R -> user_buffer_ok buf ->
  0 < n < NVSHMEMI_DMA_BUF_MAX_LENGTH -> n mod mem_granularity_ (geo (obj s)) = 0 -> fits (obj s) R n ->
  wp (mmap_body e buf n 0) (fun r s' => caps s' = caps s /\ exists p R', r = (0, p) /\
     mapped (caps s) (obj s) n p R' (obj s')) s.
Proof.
  intros HK MO HU Hn Hm HF. pose proof (hk_geo _ _ _ HK) as HG. pose proof (geo_gran_pos _ HG) as Hg.
  unfold mmap_body. apply wp_bind. eapply wp_mono; [by apply wp_adjusted|]. cbn. intros r s0 [-> ->].
  apply wp_bind. eapply wp_mono; [apply (wp_check_user buf n); (done || lia)|]. cbn.
  intros [c mt] s1 [Hc [HO1 HC1]]. cbn in Hc. subst c. rewrite (bool_decide_eq_false_2 (0 <> 0)) by lia.
  apply wp_bind. apply (wp_mono _ (fun r s' => r = 0 /\ same s s')).
  { case_bool_decide; [|by apply wp_ret]. do 2 (apply wp_jmp_ok, (wp_do_call e ST); split; [done|]). by apply wp_ret. }
  intros r s2 [-> [HO2 HC2]]. rewrite (bool_decide_eq_false_2 (0 <> 0)) by lia.
  apply wp_bind, wp_jmp_ok, (wp_do_call e ST). split; [done|]. apply wp_ret.
  rewrite (bool_decide_eq_false_2 (0 <> 0)) by lia.
  apply wp_bind. unfold gran. apply wp_bind, wp_get_obj, wp_ret. cbn [obj]. rewrite HO2. apply wp_bind.
  eapply wp_lift; [unfold cassert; by rewrite bool_decide_eq_true_2 by (unfold NVSHMEMI_MAX_HANDLE_LENGTH; lia)|].
  apply wp_bind. eapply wp_mono; [apply (wp_place (caps s) n _ R); cbn; rewrite ?HO2; try done; try lia; [apply MO|]|].
  { unfold NVSHMEMI_DMA_BUF_MAX_LENGTH in Hn. lia. }
  cbn. rewrite ?HO2, ?HC2. intros [c p] s3 (HC3 & p' & m1 & m2 & R' & [= -> ->] & HO3 & PL).
  rewrite bool_decide_eq_false_2 by lia. apply wp_bind, wp_jmp_ok.
  assert (forall a, p' <= a < p' + n -> ~ used_byte (mmap_mspace_ (obj s)) a) as Hfree.
  { intros a Ha. by apply (placement_unused _ _ _ _ _ _ PL). }
  eapply wp_mono; [apply wp_alias_loop; rewrite ?HO3; [lia|unfold chunk_fuel|]|].
  { pose proof (Z.div_pos n NVSHMEMI_MAX_HANDLE_LENGTH ltac:(lia) ltac:(done)). lia. }
  { intros a Ha. cbn. destruct (alias_va_map_ _ !! a) eqn:E; [|done]. exfalso.
    apply (Hfree a Ha). by eapply (mm_alias _ _ _ MO). }
  cbn. intros r s4 (-> & HC4 & HA). rewrite HO3 in HA. split; [done|]. apply wp_bind, wp_get_obj.
  apply wp_bind, (wp_do_call_val e ST). apply wp_jmp_ok, wp_ret. split; [done|].
  apply wp_bind. unfold push_cumem, upd_vmm. apply wp_upd, wp_bind, wp_upd.
  do 2 (apply wp_jmp_ok, (wp_do_call e ST); split; [done|]).
  apply wp_jmp_ok. eapply wp_mono; [apply (wp_nvls_bind e OK)|]. cbn. intros r s5 [-> [HO5 HC5]]. split; [done|].
  cbn in HO5, HC5. set (v := MkVmm _ _ _ _) in HO5.
  apply wp_jmp_ok. pose proof HA as (al & eg & HO4 & _).
  eapply wp_mono; [apply (wp_register_ext _ (obj s) n p' m1 m2 R')|]; rewrite ?HC5, ?HC4, ?HC3; try done;
    try (by rewrite HO5, HO4).
  cbn. intros r s6 (-> & HC6 & IX). split; [done|]. apply (wp_do_call e ST), wp_ret. cbn.
  split; [congruence|]. exists p', R'. split; [done|].
  assert (vmm (obj s6) = v) as Hv by (by rewrite (ix_vmm _ _ _ _ _ IX), HO5).
  apply (mapped_intro _ _ R n p' m1 m2 R' (obj s4) (obj s6) v); try done; [lia|].
  rewrite Hv. clearbody v. by rewrite HO5, HO4 in IX.
Qed.

Lemma wp_buffer_register buf n s R :
  init_status e = 0 -> heap_ok e (caps s) (obj s) -> mmap_ok (caps s) (obj s) R -> user_buffer_ok buf ->
  0 < n < NVSHMEMI_DMA_BUF_MAX_LENGTH -> n mod mem_granularity_ (geo (obj s)) = 0 -> fits (obj s) R n ->
  wp (nvshmemx_buffer_register_symmetric e buf n 0) (fun p s' => caps s' = caps s /\ exists R',
    mapped (caps s) (obj s) n p R' (obj s')) s.
Proof.
  intros Hi HK MO HU Hn Hm HF. unfold nvshmemx_buffer_register_symmetric. rewrite bool_decide_eq_false_2 by lia.
  rewrite (ok_kind e OK). apply wp_bind. unfold mmap_mem. apply wp_bind.
  eapply wp_mono; [by apply (wp_mmap_body buf n s R)|]. cbn. intros [c p] s1 (HC & p' & R' & [= -> ->] & MP).
  rewrite bool_decide_eq_false_2 by lia. apply wp_ret, wp_bind, (wp_do_call e ST), wp_ret. eauto.
Qed.

(** ** Looking up a byte of a mapped buffer *)
Lemma wp_mapped_handle a p n pe t s R :
  heap_ok e (caps s) (obj s) -> mmap_ok (caps s) (obj s) R ->
  inuse_chunks (mmap_mspace_ (obj s)) !! p = Some n -> p <= a < p + n ->
  0 <= pe < npes e -> 0 <= t < num_initialized_transports e ->
  exists start len row w, p <= start <= a /\ a < start + len <= p + n /\ row_of e (caps s) row start len /\
    row !! Z.to_nat (pe * num_initialized_transports e + t) = Some w /\
    get_transport_mem_handle e a pe t s = Ret (Some (w, start + len - a), s) /\
    get_mem_handle_addr_offset a s = Fail FUndef.
Proof.
  intros HK [TI MA MI] Hp Ha Hpe Ht. pose proof (hk_geo _ _ _ HK) as HG.
  destruct (MI p n a Hp Ha) as (k & start & len & row & Hidx & Hs & Hl & Hhi & Hk & Hrow & Hro).
  destruct (ti_inuse_range _ _ _ _ HG TI _ _ Hp) as (_ & Hn & Hp1 & Hp2).
  pose proof (geo_base _ HG). pose proof (geo_end _ HG). pose proof (geo_mmap _ HG). pose proof (hk_room _ _ _ HK).
  pose proof (geo_gran_pos _ HG) as Hg.
  assert (mmap_base_ (geo (obj s)) - mmap_range e (obj s) <= p) as Hlow.
  { destruct (mmap_range_spec (obj s) (ti_nonzero _ _ _ _ HG TI)) as [[He _]|(q & u & _ & -> & Hmin)].
    - by rewrite He, lookup_empty in Hp.
    - specialize (Hmin _ _ Hp). lia. }
  pose proof Hro as (l & local & Hrl & Hll & _).
  assert (Z.of_nat (length row) = row_len e) as Hlen by (rewrite Hrl; by apply row_shape).
  destruct (arr_get_some row (pe * num_initialized_transports e + t)) as (w & _ & Hw).
  { unfold row_len in Hlen. nia. }
  assert (granule_of (obj s) a = Z.shiftr (a - heap_base_ (geo (obj s))) (log2_mem_granularity_ (geo (obj s)))) as Hgr.
  { unfold granule_of. by rewrite (wrap_small 64) by (unfold in_u; lia). }
  exists start, len, row, w. split_and!; try done; try lia.
  - unfold get_transport_mem_handle, mbind, H_bind, get_obj, upd_tab, upd.
    rewrite (bool_decide_eq_false_2 (a < _ \/ _)) by lia. rewrite bool_decide_eq_true_2 by lia.
    rewrite <- Hgr, Hidx. cbn [default]. cbn. rewrite Hrow. cbn. rewrite Hw.
    rewrite (wrap_small 64) by (unfold in_u; lia). rewrite insert_id by done.
    replace (len - (a - start)) with (start + len - a) by lia. by destruct s as [[? [] ? ? ? ? ? ?] ? ?].
  - unfold get_mem_handle_addr_offset, mbind, H_bind, get_obj, lift. fold (granule_of (obj s) a).
    rewrite granule_div by (done || lia). unfold arr_get.
    pose proof (idx_length _ _ _ (hk_idx _ _ _ HK)) as HL.
    assert (Z.of_nat (length (idx_in_handles_ (tab (obj s)))) <=
      (a - heap_base_ (geo (obj s))) / mem_granularity_ (geo (obj s))) by (apply Z.div_le_lower_bound; lia).
    rewrite bool_decide_eq_false_2 by lia. by rewrite lookup_ge_None_2 by lia.
Qed.

End Mmap.

(** C35: registering a user buffer: for memory the checks accept, a positive
    number of granules below 4 GiB, and space for it (a hole that fits, or room
    below the lowest mapped buffer when no hole lies below it), the call returns
    a block of the top of the heap that no mapped buffer and no internal block
    overlaps; both invariants of the heap hold afterwards, so every byte of
    every mapped buffer has a memory handle. *)
Theorem register_symmetric_correct e s R buf n :
  env_ok e -> init_status e = 0 -> heap_ok e (caps s) (obj s) -> mmap_ok e (caps s) (obj s) R ->
  user_buffer_ok e buf -> 0 < n < NVSHMEMI_DMA_BUF_MAX_LENGTH ->
  n mod mem_granularity_ (geo (obj s)) = 0 -> fits e (obj s) R n ->
  exists p s' R', nvshmemx_buffer_register_symmetric e buf n 0 s = Ret (p, s') /\ p <> 0 /\
    caps s' = caps s /\ mapped e (caps s) (obj s) n p R' (obj s').
Proof.
  intros OK Hi HK MO HU Hn Hm HF.
  destruct (wp_run _ _ _ (wp_buffer_register e OK buf n s R Hi HK MO HU Hn Hm HF)) as (p & s' & E & HC & R' & MP). exists p, s', R'. split_and!; try done.
  pose proof (mp_above _ _ _ _ _ _ _ MP). pose proof (geo_base _ (hk_geo _ _ _ HK)). pose proof (hk_room _ _ _ HK). lia.
Qed.

(** Every byte of every mapped user buffer has a memory handle for every PE
    and transport: the lookup returns, without changing the heap, the word that
    PE contributed when the chunk around the byte was registered, with the bytes
    left in that chunk, which lies inside the buffer.  But the offset lookup
    that a remote access makes next consults only the table of the internal
    heap, past its end. *)
Theorem handle_of_mapped_byte e s R a p n pe t :
  env_ok e -> heap_ok e (caps s) (obj s) -> mmap_ok e (caps s) (obj s) R ->
  inuse_chunks (mmap_mspace_ (obj s)) !! p = Some n -> p <= a < p + n ->
  0 <= pe < npes e -> 0 <= t < num_initialized_transports e ->
  exists start len row w, p <= start <= a /\ a < start + len <= p + n /\ row_of e (caps s) row start len /\
    row !! Z.to_nat (pe * num_initialized_transports e + t) = Some w /\
    get_transport_mem_handle e a pe t s = Ret (Some (w, start + len - a), s) /\
    get_mem_handle_addr_offset a s = Fail FUndef.
Proof. intros OK HK MO Hp Ha Hpe Ht. by eapply (wp_mapped_handle e OK). Qed.

(** ** Witness: a 4 MiB buffer on the two-PE node *)
Definition demo_mapped : st := final (nvshmemx_buffer_register_symmetric demo_env 4096 (4 * MiB) 0) demo_st.

Lemma demo_user_ok buf : user_buffer_ok demo_env buf.
Proof. split; cbn; auto. Qed.

Lemma demo_mmap_ok : mmap_ok demo_env (caps demo_st) (obj demo_st) 0.
Proof. apply mmap_ok_boot; [apply demo_heap_ok|apply demo_st_ok..]. Qed.

Lemma register_symmetric_correct_witness :
  exists s', nvshmemx_buffer_register_symmetric demo_env 4096 (4 * MiB) 0 demo_st = Ret (2 ^ 40 + 60 * MiB, s') /\
    mmap_ok demo_env (caps demo_st) (obj s') (4 * MiB).
Proof.
  destruct (register_symmetric_correct demo_env demo_st 0 4096 (4 * MiB) demo_node_ok eq_refl demo_heap_ok demo_mmap_ok
    (demo_user_ok 4096)) as (p & s' & R' & E & _ & _ & MP);
    [vm_compute; split; reflexivity|vm_compute; reflexivity|right; vm_compute; split; reflexivity|].
  assert (p = 2 ^ 40 + 60 * MiB) as -> by (vm_compute in E; injection E as <- _; reflexivity).
  exists s'. split; [exact E|].
  assert (total_size (mmap_mspace_ (obj s')) = 4 * MiB) as HT by (vm_compute in E; injection E as <-; reflexivity).
  pose proof (mp_ok _ _ _ _ _ _ _ MP) as MO. pose proof (ti_total _ _ _ _ (mm_tiles _ _ _ _ MO)) as HR.
  rewrite HT in HR. subst R'. exact MO.
Defined.

Lemma demo_mapped_ok : caps demo_mapped = caps demo_st /\ exists p R,
  mapped demo_env (caps demo_st) (obj demo_st) (4 * MiB) p R (obj demo_mapped).
Proof.
  assert (wp (nvshmemx_buffer_register_symmetric demo_env 4096 (4 * MiB) 0) (fun p s' => caps s' = caps demo_st /\
    exists R', mapped demo_env (caps demo_st) (obj demo_st) (4 * MiB) p R' (obj s')) demo_st) as HW.
  { apply (wp_buffer_register demo_env demo_node_ok 4096 (4 * MiB) demo_st 0);
      [reflexivity|apply demo_heap_ok|apply demo_mmap_ok|apply demo_user_ok|split; reflexivity|reflexivity|
       right; split; vm_compute; reflexivity]. }
  apply (wp_final _ _ (fun s => caps s = caps demo_st /\ exists p R, mapped demo_env _ _ _ p R (obj s)) _ HW).
  intros p s' (HC & R & HM). split; [exact HC|]. exists p, R. exact HM.
Qed.

Lemma handle_of_mapped_byte_witness :
  exists start len w, 2 ^ 40 + 60 * MiB <= start <= 2 ^ 40 + 61 * MiB /\ start + len <= 2 ^ 40 + 64 * MiB /\
    get_transport_mem_handle demo_env (2 ^ 40 + 61 * MiB) 1 1 demo_mapped =
      Ret (Some (w, start + len - (2 ^ 40 + 61 * MiB)), demo_mapped).
Proof.
  destruct demo_mapped_ok as (HC & p & R & HM).
  destruct (handle_of_mapped_byte demo_env demo_mapped R (2 ^ 40 + 61 * MiB) (2 ^ 40 + 60 * MiB) (4 * MiB) 1 1)
    as (start & len & row & w & H1 & [_ H2] & _ & _ & E & _).
  - exact demo_node_ok.
  - rewrite HC. apply HM.
  - rewrite HC. apply HM.
  - vm_compute. reflexivity.
  - unfold MiB. lia.
  - cbn. lia.
  - cbn. lia.
  - exists start, len, w. split; [exact H1|split; [|exact E]].
    replace (2 ^ 40 + 64 * MiB) with (2 ^ 40 + 60 * MiB + 4 * MiB) by reflexivity. exact H2.
Defined.

End HeapMmap.
