(* ===== verification/HeapNvls.v ===== *)
(** * The symmetric heap: multicast memory of a team

    The functions of src/src/host/mem/mem_heap.cpp that a new or a destroyed
    team calls: binding every allocation of the heap to the team's multicast
    handle, mapping, unmapping and unbinding it. *)
From stdpp Require Import base gmap list.
From Stdlib Require Import ZArith Lia.
From S2P Require Import Prelude Mspace HeapState Heap HeapAlloc HeapSpec HeapSetup HeapMmap.
Import Mspace HeapState Heap HeapAlloc HeapSpec HeapSetup HeapMmap.

Module HeapNvls.

Section Ops.
Context (e : henv).

(** [nvls_bind_heap_memory_by_team]; without allocations the status is -1 *)
Fixpoint bind_cumem (t : nvls_team) (l : list cumem) (status : Z) : H Z :=
  match l with
  | [] => mret status
  | c :: l =>
      s ← nvls_bind_heap_memory_by_size e t (cm_handle c) (cm_mc_offset c) (cm_size c);
      if bool_decide (s <> 0) then mret NVSHMEMX_ERROR_INTERNAL else bind_cumem t l s
  end.
Definition nvls_bind_heap_memory_by_team (t : nvls_team) : H Z :=
  h ← get_obj; bind_cumem t (cumem_handles_ (vmm h)) (-1).

(** [nvls_map_heap_memory_by_size], [nvls_map_heap_memory_by_team] *)
Definition nvls_map_heap_memory_by_size (t : nvls_team) (size mmap_offset mc_offset : Z) : H Z :=
  if negb (nt_owner t) then mret 0
  else mc ← lift (last_mc_handle t);
       do_call e (NvlsMap mc size mmap_offset mc_offset) ?! NVSHMEMX_ERROR_INTERNAL ;; mret 0.
Definition nvls_map_heap_memory_by_team (t : nvls_team) : H Z :=
  h ← get_obj; nvls_map_heap_memory_by_size t (heap_size_ (geo h)) 0 0.

(** [nvls_map_heap_memory]; [nvls_unmap_heap_memory_by_size] and its callers *)
Definition nvls_map_heap_memory (size mmap_offset mc_offset : Z) : H Z :=
  if negb (is_platform_nvls e) then mret 0
  else for_teams (nvls_teams e) (fun t => nvls_map_heap_memory_by_size t size mmap_offset mc_offset).
Definition nvls_unmap_heap_memory_by_size (t : nvls_team) (mc_offset size : Z) : H Z :=
  if negb (nt_owner t) then mret 0 else do_call e (NvlsUnmap mc_offset size).
Definition nvls_unmap_heap_memory_by_team (t : nvls_team) : H unit :=
  h ← get_obj; _ ← nvls_unmap_heap_memory_by_size t 0 (heap_size_ (geo h)); mret tt.
Definition nvls_unmap_heap_memory (mc_offset size : Z) : H Z :=
  if negb (is_platform_nvls e) then mret 0
  else for_teams (nvls_teams e) (fun t => nvls_unmap_heap_memory_by_size t mc_offset size).

(** [nvls_unbind_heap_memory_by_team]: the physical part and every mapped
    buffer, for each multicast handle; no status is looked at *)
Fixpoint unbind_bufs (mc base : Z) (l : list (Z * Z)) : H unit :=
  match l with
  | [] => mret tt
  | (p, n) :: l => _ ← do_call e (NvlsUnbind mc (p - base) n); unbind_bufs mc base l
  end.
Fixpoint unbind_handles (l : list Z) : H unit :=
  match l with
  | [] => mret tt
  | mc :: l =>
      h ← get_obj;
      _ ← do_call e (NvlsUnbind mc 0 (physical_internal_heap_size_ h));
      _ ← unbind_bufs mc (heap_base_ (geo h)) (entries (inuse_chunks (mmap_mspace_ h)));
      unbind_handles l
  end.
Definition nvls_unbind_heap_memory_by_team (t : nvls_team) : H unit :=
  if negb (nt_owner t) then mret tt else unbind_handles (nt_handles t).

End Ops.

(** ** Binding a new team *)

(** The calls a team's binding makes. *)
Definition binds (mc : Z) (l : list cumem) : calls :=
  map (fun c => NvlsBind mc (cm_handle c) (cm_mc_offset c) (cm_size c)) l.

Section Bind.
Context (e : henv) (ST : forall l c, status e l c = 0).

Lemma bind_cumem_calls t mc : nt_owner t = true -> last (nt_handles t) = Some mc ->
  forall l r s, bind_cumem e t l r s =
    Ret (match l with [] => r | _ => 0 end, MkSt (obj s) (caps s) (log s ++ binds mc l)).
Proof.
  intros Ho Hl. induction l as [|c l IH]; intros r s; cbn [bind_cumem binds map].
  - rewrite app_nil_r. by destruct s.
  - unfold nvls_bind_heap_memory_by_size, last_mc_handle. rewrite Ho, Hl. cbn [negb lift].
    unfold mbind, H_bind, lift, do_call. rewrite ST. rewrite (bool_decide_eq_false_2 (0 <> 0)) by lia.
    cbn [mret H_ret]. rewrite (bool_decide_eq_false_2 (0 <> 0)) by lia. rewrite IH. cbn.
    rewrite <- app_assoc. by destruct l.
Qed.
End Bind.

(** Binding a new team that owns its multicast resource issues exactly one
    bind per entry of the heap's list of allocations, in order, to the team's
    most recent multicast handle, at the offset and with the size the
    allocation has in the heap, and changes nothing else; a heap without
    allocations gives status -1, otherwise 0. *)
Theorem bind_by_team_correct e s t mc :
  (forall l c, status e l c = 0) -> nt_owner t = true -> last (nt_handles t) = Some mc ->
  nvls_bind_heap_memory_by_team e t s =
    Ret (match cumem_handles_ (vmm (obj s)) with [] => -1 | _ => 0 end,
         MkSt (obj s) (caps s) (log s ++ binds mc (cumem_handles_ (vmm (obj s))))).
Proof. intros ST Ho Hl. unfold nvls_bind_heap_memory_by_team, mbind, H_bind, get_obj. by apply bind_cumem_calls. Qed.

Definition demo_team : nvls_team := MkNvlsTeam true [77].
Lemma bind_by_team_correct_witness :
  nvls_bind_heap_memory_by_team demo_env demo_team demo_mapped =
    Ret (0, MkSt (obj demo_mapped) (caps demo_mapped)
              (log demo_mapped ++ binds 77 (cumem_handles_ (vmm (obj demo_mapped))))).
Proof. apply (bind_by_team_correct demo_env demo_mapped demo_team 77); reflexivity. Defined.

(** The list keeps the handle of an unmapped user buffer, marked as released;
    the binding does not look at the mark, so a team created later binds a
    handle that was given back to CUDA. *)
Definition bind_after_unmap : H Z :=
  a ← nvshmemx_buffer_register_symmetric demo_env 4096 (4 * MiB) 0;
  _ ← nvshmemx_buffer_unregister_symmetric demo_env a (4 * MiB);
  nvls_bind_heap_memory_by_team demo_env demo_team.

Theorem released_handle_bound :
  let s' := final bind_after_unmap demo_st in
  exists x l, bind_after_unmap demo_st = Ret (0, s') /\
    log s' = l ++ [CuMemRelease x; NvlsBind 77 x (60 * MiB) (4 * MiB)] /\
    cumem_handles_ (vmm (obj s')) = [MkCumem x (60 * MiB) (4 * MiB) true].
Proof. exists 1010, (take 28 (log (final bind_after_unmap demo_st))). vm_compute. repeat split. Qed.

End HeapNvls.
