(* ===== verification/HeapLimits.v ===== *)
(** * The symmetric heap: behaviours outside the theorems' hypotheses

    Runs of the model on the two-PE node of HeapSetup.v that show what the code
    does where the correctness theorems do not apply: a hole below the lowest
    user buffer, a request the heap has no room for, the error checks of user
    buffers, a static heap of 4 GiB. *)
From stdpp Require Import base gmap list.
From Stdlib Require Import ZArith Lia.
From S2P Require Import Prelude Mspace MspaceSpec HeapState Heap HeapAlloc HeapSpec HeapSetup HeapGrow HeapMmap.
Import Mspace HeapState Heap HeapAlloc HeapSpec HeapSetup HeapGrow HeapMmap.

Module HeapLimits.

(** Two in-use blocks share an address. *)
Definition overlap (a n b t : Z) : Prop := a < b + t /\ b < a + n.

(** The result of a run, and the property of its final state. *)
Definition ends {A} (m : H A) (s : st) (a : A) (P : st -> Prop) : Prop :=
  match m s with Ret (x, s') => x = a /\ P s' | Fail _ => False end.

(** ** User buffers *)

(** After the only 2 MiB buffer is unmapped, the space keeps a 2 MiB hole at the
    top while [get_mmap_allocated_range] is 0; a 4 MiB buffer is then placed
    across the hole. [add_new_chunk] records those bytes as new memory, so the
    hole stays free, and the next 2 MiB buffer is placed inside the 4 MiB one. *)
Definition remap : H (Z * Z) :=
  a ← nvshmemx_buffer_register_symmetric demo_env 4096 (2 * MiB) 0;
  _ ← nvshmemx_buffer_unregister_symmetric demo_env a (2 * MiB);
  b ← nvshmemx_buffer_register_symmetric demo_env 4096 (4 * MiB) 0;
  c ← nvshmemx_buffer_register_symmetric demo_env 8192 (2 * MiB) 0;
  mret (b, c).

Theorem remapped_buffers_overlap :
  exists b c, ends remap demo_st (b, c) (fun s' =>
    inuse_chunks (mmap_mspace_ (obj s')) !! b = Some (4 * MiB) /\
    inuse_chunks (mmap_mspace_ (obj s')) !! c = Some (2 * MiB) /\ b <> c /\ overlap b (4 * MiB) c (2 * MiB)).
Proof.
  exists (2 ^ 40 + 60 * MiB), (2 ^ 40 + 62 * MiB). vm_compute. repeat split; discriminate.
Qed.

(** The growth of the internal heap looks at the lowest mapped buffer only: it
    takes the bytes of an unmapped one, which the next registration hands out. *)
Definition remap_internal : H (Z * Z) :=
  a ← nvshmemx_buffer_register_symmetric demo_env 4096 (4 * MiB) 0;
  _ ← nvshmemx_buffer_unregister_symmetric demo_env a (4 * MiB);
  p ← nvshmem_malloc demo_env (62 * MiB - 512);
  b ← nvshmemx_buffer_register_symmetric demo_env 4096 (4 * MiB) 0;
  mret (p, b).

Theorem remapped_buffer_overlaps_internal :
  exists p b n, ends remap_internal demo_st (p, b) (fun s' =>
    inuse_chunks (heap_mspace_ (obj s')) !! p = Some n /\
    inuse_chunks (mmap_mspace_ (obj s')) !! b = Some (4 * MiB) /\ overlap p n b (4 * MiB)).
Proof.
  exists (2 ^ 40), (2 ^ 40 + 60 * MiB), (62 * MiB - 512). vm_compute. repeat split; discriminate.
Qed.

(** ** A request without room *)

(** Is [a] inside a range mapped by [CuMemMap] and not unmapped since? *)
Definition mapped_at (l : calls) (a : Z) : bool :=
  fold_left (fun b c => match c with
    | CuMemMap va n _ => b || (bool_decide (va <= a) && bool_decide (a < va + n))
    | CuMemUnmap va n => b && negb (bool_decide (va <= a) && bool_decide (a < va + n))
    | _ => b end) l false.

(** A request larger than the heap returns the null pointer, and the error path
    of [allocate_physical_memory_to_heap] unmaps and frees the whole heap; the
    object still believes in it: the next small request is served from it. *)
Definition too_large : H (Z * Z * Z) :=
  p ← nvshmem_malloc demo_env 1000;
  q ← nvshmem_malloc demo_env (1024 * MiB);
  r ← nvshmem_malloc demo_env 1000;
  mret (p, q, r).

Theorem failed_malloc_tears_down :
  exists p r, ends too_large demo_st (p, 0, r) (fun s' => p <> 0 /\ r <> 0 /\
    mapped_at (log s') p = false /\ mapped_at (log s') r = false /\
    In (CuMemAddressFree (global_heap_base_ (geo (obj s'))) (reserved_heap_size_ (geo (obj s')))) (log s')) /\
  mapped_at (log demo_malloc) p = true.
Proof.
  exists (2 ^ 40), (2 ^ 40 + 1024). vm_compute. repeat split; try discriminate. tauto.
Qed.

(** ** Checks of user buffers *)

(** Two PEs with devices 0 and 1 on one NUMA node, the error checks on. *)
Definition checked_env : henv := {|
  kind := kind demo_env; npes := 2; mype := 0; npes_node := 2; mype_node := 0; device_id := 0;
  num_initialized_transports := 2; transport_bitmap := 3; transport_map := transport_map demo_env;
  is_get_mem := is_get_mem demo_env; is_release_mem := is_release_mem demo_env;
  is_add_device_remote_mem := is_add_device_remote_mem demo_env;
  is_platform_nvls := false; nvls_teams := []; enable_rail_opt := false; mem_handle_type := 1; is_ipc := false;
  proc_map := []; my_pid := 100; nvl_connected_pes := 0;
  ENABLE_ERROR_CHECKS := true; ENABLE_ALIGNED_MALLOC := false;
  CUMEM_GRANULARITY := 2 * MiB; SYMMETRIC_SIZE := 16 * MiB; MAX_MEMORY_PER_GPU := 64 * MiB;
  G_BUF_SIZE := 1024; G_COALESCING_BUF_SIZE := 1024; teams_mem_requirement := 65536;
  init_status := 0; calloc_ok := true;
  status := fun _ _ => 0;
  value := fun l c => match c with CuDeviceGetAttribute => 7 | _ => value demo_env l c end;
  gathered := fun _ mine => [mine; map (fun x => if bool_decide (x = 0) then 1 else x) mine]
|}.

(** Memory of this PE's own device, distinct from the peer's device, is rejected:
    [ptrAttr] holds the device ordinal when it is compared with
    [CU_MEMORYTYPE_DEVICE], so the check compares NUMA nodes.  The rejection
    also tears the heap down. *)
Theorem device_buffer_rejected :
  exists s', check_buffers_on_same_device checked_env true demo_st = Ret (0, s') /\
  ends (nvshmemx_buffer_register_symmetric checked_env 4096 (4 * MiB) 0) demo_st 0 (fun s' =>
    In (CuMemAddressFree (global_heap_base_ (geo (obj s'))) (reserved_heap_size_ (geo (obj s')))) (log s')).
Proof. eexists. split; [vm_compute; reflexivity|]. vm_compute. split; [reflexivity|tauto]. Qed.

(** ** The static heaps *)

(** A static heap of 4 GiB or more fails an assertion in [register_heap_memory],
    whatever the environment answers. *)
Theorem static_heap_below_4GiB e h cs l buf size :
  NVSHMEMI_DMA_BUF_MAX_LENGTH <= size -> 0 < mem_granularity_ (geo h) ->
  register_heap_memory_static e buf size (MkSt h cs l) = Fail FAssert.
Proof.
  intros Hs Hg. unfold register_heap_memory_static. rewrite bool_decide_eq_false_2 by (unfold NVSHMEMI_DMA_BUF_MAX_LENGTH in Hs; lia).
  unfold adjusted_max_handle_len, gran, mbind, H_bind, get_obj, mret, H_ret, lift, cdiv. cbn [obj].
  rewrite bool_decide_eq_false_2 by lia. cbn. destruct (cassert (bool_decide (buf <> 0))) as [[]|f] eqn:E.
  - by rewrite bool_decide_eq_false_2 by lia.
  - unfold cassert in E. by case_bool_decide; simplify_eq.
Qed.

End HeapLimits.
