(* ===== verification/HeapTerm.v ===== *)
(** * The symmetric heap: every call ends

    Whatever CUDA, the bootstrap and the transports answer, errors included, no
    call of the heap loops forever: the loops over chunks, peers and mapped
    buffers end within the fuel the model gives them.  [total] holds of a
    routine that neither runs out of fuel nor changes the granularity (the
    number the chunk loops divide by), in every state; it is closed under the
    constructs of the routines, and the tactic [total_tac] composes it. *)
From stdpp Require Import base gmap list.
From Stdlib Require Import ZArith Lia.
From S2P Require Import Prelude Mspace HeapState Heap HeapAlloc HeapSpec HeapSetup.
Import Mspace HeapState Heap HeapAlloc HeapSpec HeapSetup.

Module HeapTerm.

Create HintDb total.

(** ** Pure steps *)
Definition calm {A} (o : outcome A) : Prop := o <> Fail FSpin.

Lemma calm_ret {A} (a : A) : calm (Ret a).
Proof. done. Qed.
Lemma calm_bind {A B} (o : outcome A) (k : A -> outcome B) :
  calm o -> (forall a, calm (k a)) -> calm (o ≫= k).
Proof. unfold calm, mbind, outcome_bind. destruct o; [auto|congruence]. Qed.
Lemma calm_cassert b : calm (cassert b).
Proof. by destruct b. Qed.
Lemma calm_arr_get {A} (l : list A) i : calm (arr_get l i).
Proof. unfold arr_get. case_bool_decide; [done|]. by destruct (_ !! _). Qed.
Lemma calm_cdiv a b : calm (cdiv a b).
Proof. unfold cdiv. by case_bool_decide. Qed.
Lemma calm_round_up x y : calm (NVSHMEMU_ROUND_UP x y).
Proof. apply calm_bind; [apply calm_cdiv|done]. Qed.
Lemma calm_add_free_chunk m b c : calm (add_free_chunk m b c).
Proof.
  unfold add_free_chunk. destruct (_ !! _); [done|]. destruct (merge_prev _ _ _) as [[[? ?] ?] ?].
  destruct (merge_next _ _ _ _) as [? []]; done.
Qed.
Lemma calm_add_new_chunk m b c : calm (add_new_chunk m b c).
Proof. apply calm_add_free_chunk. Qed.
Lemma calm_deallocate m p : calm (deallocate m p).
Proof. unfold deallocate. destruct (_ !! _); [apply calm_add_free_chunk|done]. Qed.
Lemma calm_allocate_aligned m a b : calm (allocate_aligned m a b).
Proof.
  apply calm_bind; [apply calm_cassert|]. intros _. cbv zeta.
  destruct (allocate m _) as [[p|] ?]; [|done].
  case_bool_decide; [done|]. case_bool_decide; [done|]. by apply calm_bind; [apply calm_add_free_chunk|].
Qed.
Lemma calm_check_symmetric n : forall i v l, calm (check_symmetric n i v l).
Proof.
  induction n as [|n IH]; intros; cbn; [done|]. apply calm_bind; [apply calm_arr_get|]. intros.
  by case_bool_decide.
Qed.
Lemma calm_check_distinct n : forall i v l, calm (check_distinct n i v l).
Proof.
  induction n as [|n IH]; intros; cbn; [done|]. apply calm_bind; [apply calm_arr_get|]. intros.
  by case_bool_decide.
Qed.
Lemma calm_set_back r i v : calm (set_back r i v).
Proof. unfold set_back. destruct (last r); [|done]. by case_bool_decide. Qed.
#[export] Hint Resolve calm_ret calm_cassert calm_arr_get calm_cdiv calm_round_up calm_add_new_chunk
  calm_deallocate calm_allocate_aligned calm_check_symmetric calm_check_distinct calm_set_back : total.

(** ** Routines *)

(** A routine that ends, with [Q] if it returns. *)
Definition twp {A} (m : H A) (Q : A -> st -> Prop) (s : st) : Prop :=
  match m s with Ret (a, s') => Q a s' | Fail f => f <> FSpin end.

Lemma twp_bind {A B} (m : H A) (k : A -> H B) Q s :
  twp m (fun a => twp (k a) Q) s -> twp (m ≫= k) Q s.
Proof. unfold twp, mbind, H_bind. by destruct (m s) as [[a s']|]. Qed.
Lemma twp_mono {A} (m : H A) (Q Q' : A -> st -> Prop) s :
  twp m Q s -> (forall a s, Q a s -> Q' a s) -> twp m Q' s.
Proof. unfold twp. destruct (m s) as [[a s']|]; auto. Qed.

(** The granularity of a heap in use: [reserve_heap] bounds it by the largest
    handle. *)
Definition gran_ok (h : heap) : Prop := 0 < mem_granularity_ (geo h) <= NVSHMEMI_MAX_HANDLE_LENGTH.

(** What a routine leaves alone: the granularity, and with [b] the user-buffer
    space too. *)
Definition keeps (b : bool) (h h' : heap) : Prop :=
  mem_granularity_ (geo h') = mem_granularity_ (geo h) /\ (b = true -> mmap_mspace_ h' = mmap_mspace_ h).
#[export] Instance keeps_preorder b : PreOrder (keeps b).
Proof. split; [by split|]. intros h1 h2 h3 [H1 H2] [H3 H4]. split; [congruence|]. intros ->. rewrite H4, H2; done. Qed.

Definition total {A} (b : bool) (m : H A) : Prop :=
  forall s, gran_ok (obj s) -> twp m (fun _ s' => keeps b (obj s) (obj s')) s.

Section Constructs.
Context (b : bool).

Lemma total_ret {A} (a : A) : total b (mret a).
Proof. intros s _. unfold twp. cbn. done. Qed.
Lemma total_bind {A B} (m : H A) (k : A -> H B) :
  total b m -> (forall a, total b (k a)) -> total b (m ≫= k).
Proof.
  intros Hm Hk s HG. apply twp_bind. eapply twp_mono; [by apply Hm|]. cbn. intros a s1 HK.
  eapply twp_mono; [apply Hk|].
  - unfold gran_ok. by rewrite (proj1 HK).
  - cbn. intros _ s2 HK2. by transitivity (obj s1).
Qed.
Lemma total_lift {A} (o : outcome A) : calm o -> total b (lift o).
Proof. intros Ho s _. unfold twp, lift. destruct o; [done|]. congruence. Qed.
Lemma total_fail {A} f : f <> FSpin -> total b (@fail A f).
Proof. intros Hf s _. done. Qed.
Lemma total_get_obj : total b get_obj.
Proof. intros s _. done. Qed.
Lemma total_upd f : (forall h, keeps b h (f h)) -> total b (upd f).
Proof. intros Hf s _. apply Hf. Qed.
Lemma total_upd_tab f : total b (upd_tab f).
Proof. apply total_upd. done. Qed.
Lemma total_upd_vmm f : total b (upd_vmm f).
Proof. apply total_upd. done. Qed.
Lemma total_get_cap j pe : total b (get_cap j pe).
Proof. intros s _. done. Qed.
Lemma total_clear_cap j pe m : total b (clear_cap j pe m).
Proof. intros s _. done. Qed.
Lemma total_do_call e c : total b (do_call e c).
Proof. intros s _. done. Qed.
Lemma total_do_call_val e c : total b (do_call_val e c).
Proof. intros s _. done. Qed.
Lemma total_allgather e l : total b (allgather e l).
Proof. intros s _. done. Qed.
Lemma total_jmp m err k : total b m -> total b k -> total b (or_jmp m err k).
Proof. intros Hm Hk. apply total_bind; [done|]. intros a. case_bool_decide; [apply total_ret|done]. Qed.
Lemma total_for_each n body : (forall i, total b (body i)) -> forall i, total b (for_each n i body).
Proof.
  intros Hb. induction n as [|n IH]; intros i; cbn; [apply total_ret|].
  apply total_bind; [done|]. intros a. case_bool_decide; [apply total_ret|apply IH].
Qed.
Lemma total_for_each_if n cond code :
  (forall i, total b (cond i)) -> (forall i, total b (code i)) -> total b (for_each_if n cond code).
Proof.
  intros Hc Hb. apply total_for_each. intros i. apply total_bind; [done|]. intros []; [done|apply total_ret].
Qed.
Lemma total_adjusted {B} (k : Z -> H B) :
  (forall n, 0 < n -> total b (k n)) -> total b (adjusted_max_handle_len ≫= k).
Proof.
  intros Hk s HG. unfold gran_ok in HG. apply twp_bind. unfold adjusted_max_handle_len, gran.
  unfold twp at 1, mbind, H_bind, get_obj, mret, H_ret, lift, cdiv. rewrite bool_decide_eq_false_2 by lia.
  apply Hk; [|done]. assert (0 < NVSHMEMI_MAX_HANDLE_LENGTH / mem_granularity_ (geo (obj s))).
  { apply Z.div_str_pos. lia. } nia.
Qed.
End Constructs.

#[export] Hint Resolve total_ret total_get_obj total_upd_tab total_upd_vmm total_get_cap total_clear_cap
  total_do_call total_do_call_val total_allgather total_lift : total.

Ltac total_step :=
  lazymatch goal with
  | |- total _ (adjusted_max_handle_len ≫= _) => apply total_adjusted; intros
  | |- total _ (_ ≫= _) => apply total_bind; [|intros]
  | |- total _ (or_jmp _ _ _) => apply total_jmp
  | |- total _ (for_each _ _ _) => apply total_for_each; intros
  | |- total _ (for_each_if _ _ _) => apply total_for_each_if; intros
  | |- total _ (lift _) => apply total_lift
  | |- total _ (fail _) => by apply total_fail
  | |- total _ (upd _) => apply total_upd; intros; by split
  | |- total _ (let _ := _ in _) => cbv zeta
  | |- total _ (match ?x with _ => _ end) => destruct x eqn:?
  | |- total _ ((fun _ => _) _) => cbv beta
  | |- calm (match ?x with _ => _ end) => by destruct x
  end.
Ltac total_tac := repeat first [solve [auto with total] | total_step].

Section Routines.
Context (e : henv) (HN : 0 <= mype e < npes e).

(** ** The loops *)

(** The chunk loops: each round takes the largest handle or the rest. *)
Lemma chunk_rest rem max fuel :
  0 < max -> rem / max < Z.of_nat (S fuel) -> rem - chunk_len rem max <> 0 ->
  (rem - chunk_len rem max) / max < Z.of_nat fuel /\ (0 < fuel)%nat.
Proof.
  intros Hm Hf. unfold chunk_len. case_bool_decide; [|lia]. intros _.
  pose proof (Z.div_pos (rem - max) max ltac:(lia) Hm) as Hp.
  replace (rem - max) with (rem + (-1) * max) in * by lia. rewrite Z.div_add in * by lia. lia.
Qed.

Lemma chunk_fuel_enough size max : size / max < Z.of_nat (chunk_fuel size max) /\ (0 < chunk_fuel size max)%nat.
Proof. unfold chunk_fuel. lia. Qed.

Lemma total_register_loop b max chunk internal :
  0 < max -> (forall p n, total b (chunk p n)) ->
  forall fuel p rem, rem / max < Z.of_nat fuel /\ (0 < fuel)%nat ->
  total b (register_loop fuel max chunk internal p rem).
Proof.
  intros Hm Hc. induction fuel as [|fuel IH]; intros p rem [Hf H0]; [lia|]. cbn [register_loop].
  total_tac. apply IH, chunk_rest; [done..|]. by eapply bool_decide_eq_false.
Qed.

Lemma total_alias_loop b max egm : 0 < max -> forall fuel p q rem,
  rem / max < Z.of_nat fuel /\ (0 < fuel)%nat -> total b (alias_loop fuel max egm p q rem).
Proof.
  intros Hm. induction fuel as [|fuel IH]; intros p q rem [Hf H0]; [lia|]. cbn [alias_loop].
  total_tac; apply IH, chunk_rest; try done; by match goal with Hb : bool_decide _ = true |- _ => apply bool_decide_eq_true in Hb; lia end.
Qed.

Lemma total_peers_loop b body : (forall i, total b (body i)) -> forall fuel i,
  0 <= i < npes e -> (mype e - i) mod npes e <= Z.of_nat fuel -> total b (peers_loop e fuel i body).
Proof.
  intros Hb. induction fuel as [|fuel IH]; intros i Hi Hf; cbn [peers_loop]; case_bool_decide as Hm;
    [apply total_ret| |apply total_ret|].
  - exfalso. apply Hm. symmetry. apply (mod_sub_0 (mype e) i (npes e)); [lia..|].
    pose proof (Z.mod_pos_bound (mype e - i) (npes e)). lia.
  - apply total_bind; [done|]. intros _. apply IH; [apply Z.mod_pos_bound; lia|].
    rewrite ring_distance by (done || lia). lia.
Qed.

Lemma total_for_peers b body : (forall i, total b (body i)) -> total b (for_peers e body).
Proof.
  intros Hb. apply total_peers_loop; [done|apply Z.mod_pos_bound; lia|].
  pose proof (Z.mod_pos_bound (mype e - (mype e + 1) mod npes e) (npes e)). lia.
Qed.

(** ** Registration *)
Lemma total_peer_get b i : total b (peer_get i).
Proof. unfold peer_get. total_tac. Qed.
Lemma total_peer_set b i v : total b (peer_set i v).
Proof. unfold peer_set. total_tac. Qed.
Lemma total_is_cap_map b j pe : total b (is_cap_map j pe).
Proof. unfold is_cap_map. total_tac. Qed.
Lemma total_gran b : total b gran.
Proof. unfold gran. total_tac. Qed.
#[local] Hint Resolve total_peer_get total_peer_set total_is_cap_map total_gran : total.

Lemma total_collect b cond f : (forall i, total b (cond i)) -> (forall i, total b (f i)) ->
  forall n i, total b (collect n i cond f).
Proof. intros Hc Hf. induction n as [|n IH]; intros i; cbn [collect]; total_tac. Qed.
Lemma total_local_handles b map f : (forall i, total b (f i)) -> total b (local_handles e map f).
Proof. intros Hf. apply total_collect; [|done]. intros i. total_tac. Qed.
Lemma total_gather_row b set rows l : total b (gather_row e set rows l).
Proof. unfold gather_row. total_tac. Qed.
Lemma total_gather_mem_handles b off n ext : total b (gather_mem_handles e off n ext).
Proof. unfold gather_mem_handles. total_tac. Qed.
Lemma total_release_mem_handles b row i : total b (release_mem_handles e row i).
Proof. unfold release_mem_handles. total_tac. Qed.
Lemma total_update_cache b p n ext : total b (update_heap_handle_cache e p n ext).
Proof.
  unfold update_heap_handle_cache, index_granules, update_idx_in_handle, inc_heap_handle_cache. total_tac.
Qed.
Lemma total_map_by_pe b pe t p n : total b (map_heap_range_by_pe e pe t p n).
Proof. unfold map_heap_range_by_pe, import_memory_vmm. total_tac. Qed.
#[local] Hint Resolve total_gather_row total_gather_mem_handles total_release_mem_handles
  total_update_cache total_map_by_pe : total.
Lemma total_map_by_size b p n : total b (map_heap_range_by_size e p n).
Proof. apply total_for_peers. intros i. total_tac. Qed.
Lemma total_over_peers b f : (forall p, total b (f p)) -> forall l, total b (over_peers e l f).
Proof. intros Hf. induction l; cbn [over_peers]; total_tac. Qed.
Lemma total_ipc b c : total b (ipc e c).
Proof. unfold ipc. total_tac. Qed.
#[local] Hint Resolve total_map_by_size total_ipc : total.
Lemma total_exchange b l : total b (exchange_heap_memory_handle e l).
Proof.
  unfold exchange_heap_memory_handle. total_tac; apply total_over_peers; intros; total_tac.
Qed.
#[local] Hint Resolve total_exchange : total.

Lemma total_map_dynamic b x p n : total b (map_heap_memory_dynamic e x p n).
Proof.
  unfold map_heap_memory_dynamic, export_memory. total_tac. apply total_local_handles. intros. total_tac.
Qed.
Lemma total_register_chunk b p n ext : total b (register_heap_chunk_by_size_dynamic e p n ext).
Proof.
  unfold register_heap_chunk_by_size_dynamic, register_mem_handle. total_tac.
  apply total_local_handles. intros. total_tac.
Qed.
#[local] Hint Resolve total_map_dynamic total_register_chunk : total.
Lemma total_extend_mmap p n : total false (extend_mmap_mspace e p n).
Proof. unfold extend_mmap_mspace. total_tac. Qed.
Lemma total_extend_heap b n : total b (extend_heap_mspace n).
Proof. unfold extend_heap_mspace. total_tac. Qed.
#[local] Hint Resolve total_extend_mmap total_extend_heap : total.
Lemma total_register x p n ext : total false (register_heap_memory_dynamic e x p n ext).
Proof.
  unfold register_heap_memory_dynamic. total_tac.
  apply total_register_loop; [done|intros; total_tac|apply chunk_fuel_enough].
Qed.
#[local] Hint Resolve total_register : total.

(** ** Unmapping and teardown *)
Lemma calm_last_mc t : calm (last_mc_handle t).
Proof. unfold last_mc_handle. by destruct (last _). Qed.
#[local] Hint Resolve calm_last_mc : total.
Lemma total_for_teams b f : (forall t, total b (f t)) -> forall ts, total b (for_teams ts f).
Proof. intros Hf. induction ts; cbn [for_teams]; total_tac. Qed.
Lemma total_nvls_unbind b off n : total b (nvls_unbind_heap_memory_by_size e off n).
Proof. apply total_for_teams. intros. total_tac. Qed.
#[local] Hint Resolve total_nvls_unbind : total.
Lemma total_unmap_granule b p n i : total b (unmap_granule e p n i).
Proof. unfold unmap_granule. total_tac. Qed.
#[local] Hint Resolve total_unmap_granule : total.
Lemma total_unmap_loop b max : 0 < max -> forall fuel p rem,
  rem / max < Z.of_nat fuel /\ (0 < fuel)%nat -> total b (unmap_loop e fuel max p rem).
Proof.
  intros Hm. induction fuel as [|fuel IH]; intros p rem [Hf H0]; [lia|]. cbn [unmap_loop].
  total_tac. apply IH, chunk_rest; [done..|]. by eapply bool_decide_eq_false.
Qed.
Lemma total_release_peers b off n : total b (release_peers e off n).
Proof. unfold release_peers, release_memory. total_tac. Qed.
Lemma total_release_user_handle b p : total b (release_user_handle e p).
Proof. unfold release_user_handle. total_tac. Qed.
#[local] Hint Resolve total_release_peers total_release_user_handle : total.

(** A buffer that was unmapped is no longer in use. *)
Lemma deallocate_inuse m p m' : deallocate m p = Ret m' -> inuse_chunks m' = delete p (inuse_chunks m).
Proof.
  unfold deallocate. destruct (_ !! _) as [n|]; [|done]. unfold add_free_chunk, merge_prev, merge_next. cbn.
  rewrite lookup_delete_eq. repeat (destruct (_ !! _); cbn); by intros [= <-].
Qed.

Definition unmapped (p : Z) (s : st) (r : Z) (s' : st) : Prop :=
  keeps false (obj s) (obj s') /\
  (r = 0 -> inuse_chunks (mmap_mspace_ (obj s')) = delete p (inuse_chunks (mmap_mspace_ (obj s)))).

Definition unmaps (p : Z) (m : H Z) : Prop := forall s, gran_ok (obj s) -> twp m (unmapped p s) s.

Lemma unmaps_ret p r : r <> 0 -> unmaps p (mret r).
Proof. intros Hr s _. by split. Qed.
Lemma unmaps_bind {A} p (m : H A) k : total true m -> (forall a, unmaps p (k a)) -> unmaps p (m ≫= k).
Proof.
  intros Hm Hk s HG. apply twp_bind. eapply twp_mono; [by apply Hm|]. cbn. intros a s1 [HK1 HK2].
  eapply twp_mono; [apply Hk; unfold gran_ok; by rewrite HK1|]. cbn. intros r s2 [HK3 HK4].
  split; [by transitivity (obj s1); [split|]|]. intros ->. by rewrite HK4, HK2.
Qed.
Lemma unmaps_jmp p m err k : total true m -> err <> 0 -> unmaps p k -> unmaps p (or_jmp m err k).
Proof.
  intros Hm He Hk. apply unmaps_bind; [done|]. intros a. case_bool_decide; [by apply unmaps_ret|done].
Qed.
Lemma unmaps_adjusted p k : (forall n, 0 < n -> unmaps p (k n)) -> unmaps p (adjusted_max_handle_len ≫= k).
Proof.
  intros Hk s HG. pose proof HG as HG'. unfold gran_ok in HG'. apply twp_bind. unfold adjusted_max_handle_len, gran.
  unfold twp at 1, mbind, H_bind, get_obj, mret, H_ret, lift, cdiv. rewrite bool_decide_eq_false_2 by lia.
  apply Hk; [|done]. assert (0 < NVSHMEMI_MAX_HANDLE_LENGTH / mem_granularity_ (geo (obj s))).
  { apply Z.div_str_pos. lia. } nia.
Qed.
Lemma unmaps_end p :
  unmaps p (h ← get_obj; m ← lift (deallocate (mmap_mspace_ h) p); _ ← upd (with_mmap_mspace m); mret 0).
Proof.
  intros s HG. unfold twp, mbind, H_bind, get_obj, lift, upd, mret, H_ret.
  destruct (deallocate _ p) as [m|f] eqn:E; [|pose proof (calm_deallocate (mmap_mspace_ (obj s)) p) as HC; rewrite E in HC; congruence].
  split; [by split|]. intros _. by apply deallocate_inuse.
Qed.

Lemma unmaps_unmap_mem p n : unmaps p (unmap_mem e p n).
Proof.
  unfold unmap_mem.
  repeat first [apply unmaps_end | apply unmaps_adjusted; intros | apply unmaps_jmp; [|done|]
    | apply unmaps_bind; [|intros] | case_bool_decide | by apply unmaps_ret
    | match goal with |- unmaps _ (if ?c then _ else _) => destruct c end | progress cbv zeta | solve [total_tac]].
  apply total_unmap_loop; [done|apply chunk_fuel_enough].
Qed.

Lemma total_unmap_mem p n : total false (unmap_mem e p n).
Proof. intros s HG. eapply twp_mono; [by apply (unmaps_unmap_mem p n)|]. by intros r s' [HK _]. Qed.

(** Teardown unmaps one buffer per round. *)
Lemma total_unmap_all : forall fuel s, gran_ok (obj s) ->
  (size (inuse_chunks (mmap_mspace_ (obj s))) <= fuel)%nat ->
  twp (unmap_all e fuel) (fun _ s' => keeps false (obj s) (obj s')) s.
Proof.
  induction fuel as [|fuel IH]; intros s HG Hf; cbn [unmap_all]; apply twp_bind; unfold twp at 1, get_obj;
    destruct (entries (inuse_chunks (mmap_mspace_ (obj s)))) as [|[p n] l] eqn:E; cbn [head]; try (by unfold twp);
    assert (inuse_chunks (mmap_mspace_ (obj s)) !! p = Some n) as Hp by (apply entries_spec; rewrite E; by left).
  - assert (inuse_chunks (mmap_mspace_ (obj s)) = ∅) as HE by (apply map_size_empty_iff; lia).
    by rewrite HE, lookup_empty in Hp.
  - apply twp_bind. eapply twp_mono; [by apply unmaps_unmap_mem|]. cbn. intros r s1 [HK Hd].
    case_bool_decide as Hr; [by unfold twp|]. eapply twp_mono; [apply IH|].
    + unfold gran_ok. by rewrite (proj1 HK).
    + rewrite Hd, map_size_delete_Some by (lia || by eexists). lia.
    + cbn. intros _ s2 HK2. by transitivity (obj s1).
Qed.

Lemma total_cleanup : total false (cleanup_symmetric_heap_vmm e).
Proof.
  unfold cleanup_symmetric_heap_vmm. apply total_jmp; [unfold release_rows; total_tac|].
  intros s HG. apply twp_bind. unfold twp at 1, get_obj. apply twp_bind.
  eapply twp_mono; [by apply total_unmap_all|]. cbn. intros r s1 HK.
  eapply (twp_mono _ (fun _ s2 => keeps false (obj s1) (obj s2))).
  - revert s1 HK. enough (total false (if bool_decide (r <> 0) then mret NVSHMEMX_ERROR_INTERNAL else
      h ← get_obj;
      (if bool_decide (heap_base_ (geo h) <> 0)
       then do_call e (CuMemUnmap (heap_base_ (geo h)) (physical_internal_heap_size_ h)) else mret 0)
        ?! NVSHMEMX_ERROR_INTERNAL ;;
      release_cumem e ?! NVSHMEMX_ERROR_INTERNAL ;;
      _ ← upd_vmm (fun v => MkVmm [] (mmap_handle_idx_in_cumem_handles_ v) (alias_va_map_ v) (egm_map_ v));
      release_peers e 0 (heap_size_ (geo h)) ?! NVSHMEMX_ERROR_INTERNAL ;;
      do_call e (CuMemAddressFree (global_heap_base_ (geo h)) (reserved_heap_size_ (geo h)))
        ?! NVSHMEMX_ERROR_INTERNAL ;;
      _ ← do_call e DestroyInstances; mret 0)) as HT.
    { intros s1 HK. apply HT. unfold gran_ok. by rewrite (proj1 HK). }
    unfold release_cumem. total_tac.
  - cbn. intros _ s2 HK2. by transitivity (obj s1).
Qed.
#[local] Hint Resolve total_unmap_mem total_cleanup : total.

(** ** Allocation and user buffers *)
Lemma total_from_mspace b n c a t : total b (allocate_virtual_memory_from_mspace n c a t).
Proof. unfold allocate_virtual_memory_from_mspace. total_tac. Qed.
Lemma total_is_symmetric b v : total b (is_symmetric e v).
Proof. unfold is_symmetric. total_tac. Qed.
Lemma total_nvls_bind b x off n : total b (nvls_bind_heap_memory e x off n).
Proof.
  unfold nvls_bind_heap_memory. total_tac. apply total_for_teams. intros. unfold nvls_bind_heap_memory_by_size. total_tac.
Qed.
#[local] Hint Resolve total_from_mspace total_is_symmetric total_nvls_bind : total.
Lemma total_grow n : total false (allocate_physical_memory_to_heap e n).
Proof. unfold allocate_physical_memory_to_heap, grow_body, push_cumem. total_tac. Qed.
#[local] Hint Resolve total_grow : total.
Lemma total_heap_allocate n c a t : total false (heap_allocate e n c a t).
Proof.
  unfold heap_allocate, allocate_symmetric_memory, allocate_symmetric_memory_vmm, allocate_symmetric_memory_static.
  total_tac.
Qed.
Lemma total_check_user p n : total false (check_user_buffer_for_mmap e p n).
Proof. unfold check_user_buffer_for_mmap, check_user_alloc, check_buffers_on_same_device. total_tac. Qed.
#[local] Hint Resolve total_heap_allocate total_check_user : total.
Lemma total_mmap_mem p n f : total false (mmap_mem e p n f).
Proof.
  unfold mmap_mem, mmap_body, place_user_buffer, push_cumem. total_tac.
  apply total_alias_loop; [done|apply chunk_fuel_enough].
Qed.
#[local] Hint Resolve total_mmap_mem : total.

(** ** The calls of the heap *)
Inductive heap_call :=
| OpMalloc (size : Z) | OpCalloc (count size : Z) | OpAlign (alignment size : Z) | OpFree (ptr : Z)
| OpRegister (buf size flags : Z) | OpUnregister (ptr size : Z) | OpPtr (ptr pe : Z).

Definition run_call (c : heap_call) : H Z :=
  match c with
  | OpMalloc n => nvshmem_malloc e n
  | OpCalloc c n => nvshmem_calloc e c n
  | OpAlign a n => nvshmem_align e a n
  | OpFree p => _ ← nvshmem_free e p; mret 0
  | OpRegister p n f => nvshmemx_buffer_register_symmetric e p n f
  | OpUnregister p n => nvshmemx_buffer_unregister_symmetric e p n
  | OpPtr p pe => nvshmemi_ptr e p pe
  end.
Fixpoint run_calls (l : list heap_call) : H (list Z) :=
  match l with [] => mret [] | c :: l => r ← run_call c; rs ← run_calls l; mret (r :: rs) end.

Lemma total_run_call c : total false (run_call c).
Proof.
  destruct c; cbn [run_call];
    unfold nvshmem_malloc, nvshmem_calloc, nvshmem_align, nvshmem_free, nvshmemx_buffer_register_symmetric,
      nvshmemx_buffer_unregister_symmetric, nvshmemi_ptr, heap_malloc, heap_calloc, heap_align, heap_deallocate;
    total_tac.
Qed.

Lemma total_run_calls l : total false (run_calls l).
Proof. induction l as [|c l IH]; cbn [run_calls]; [apply total_ret|]. pose proof (total_run_call c). total_tac. Qed.

End Routines.

(** C36: no sequence of calls of the heap (allocation, release, registration and
    deregistration of user buffers, address translation) runs forever, whatever
    arguments the program passes and whatever CUDA, the bootstrap and the
    transports answer, failures included: with a granularity up to 2 GiB, which
    [reserve_heap] ensures, every loop of every call ends within its bound. *)
Theorem heap_calls_terminate e l s :
  0 <= mype e < npes e -> gran_ok (obj s) -> run_calls e l s <> Fail FSpin.
Proof.
  intros HN HG E. pose proof (total_run_calls e HN l s HG) as HT. unfold twp in HT. by rewrite E in HT.
Qed.

(** Served, refused and rejected calls on the two-PE node. *)
Lemma heap_calls_terminate_witness :
  run_calls demo_env [OpMalloc 1000; OpMalloc (1024 * MiB); OpRegister 4096 (4 * MiB) 0; OpUnregister 0 1; OpMalloc 7]
    demo_st <> Fail FSpin.
Proof.
  apply (heap_calls_terminate demo_env); [cbn; lia|]. vm_compute. split; [reflexivity|discriminate].
Defined.

End HeapTerm.
