(* ===== verification/HeapRma.v ===== *)
(** * From a put to the wire: heap, registered buffers and chunking together

    The interface [mem_handles] that the RMA path is written against is
    instantiated with the two components that implement it, the symmetric heap
    and the cache of registered buffers.  A put between memory they know is
    refined: the abstract operation moves [size] bytes between two ranges; the
    code issues transfers that move exactly those bytes, in order, each through
    handles of registered chunks that contain it. *)
From stdpp Require Import base gmap list.
From Stdlib Require Import ZArith Lia.
From S2P Require Import Prelude ProxyChannel Rma BufCache Mspace MspaceSpec HeapState Heap HeapAlloc HeapSpec HeapSetup HeapGrow.
Import HeapState HeapSpec.

Module HeapRma.

(** ** The instance *)
Section Instance_.
Context (e : henv) (s : st) (renv : Z -> BufCache.reg_env) (cache : Z -> BufCache.local_buf_cache).

(** The functions behind the pointers: [heap_obj] and the cache of each
    transport.  A lookup that faults gives no handle here; the theorems below
    show that on covered memory none does. *)
Definition heap_handle (addr pe t : Z) : option (Z * Z) :=
  match HeapAlloc.get_transport_mem_handle e addr pe t s with Ret (r, _) => r | Fail _ => None end.
Definition heap_offset (addr : Z) : Z :=
  match HeapAlloc.get_mem_handle_addr_offset addr s with Ret (o, _) => o | Fail _ => 0 end.
Definition buffer_handle (t addr len : Z) : option (Z * Z) :=
  match BufCache.nvshmemi_get_registered_buffer_handle (renv t) (cache t) addr len with
  | Ret r => r | Fail _ => None end.
Definition host_handles : mem_handles := {|
  get_transport_mem_handle := heap_handle;
  get_mem_handle_addr_offset := heap_offset;
  nvshmemi_get_registered_buffer_handle := buffer_handle
|}.

(** Memory the local side can use: the physical part of the heap, or a
    registered buffer outside the heap. *)
Definition in_heap (a : Z) : Prop :=
  heap_base_ (geo (obj s)) <= a < heap_base_ (geo (obj s)) + physical_internal_heap_size_ (obj s).
Definition in_buffer (t a : Z) : Prop :=
  (a < heap_base_ (geo (obj s)) \/ a > heap_base_ (geo (obj s)) + heap_size_ (geo (obj s))) /\
  exists k b, BufCache.buffers (cache t) !! k = Some b /\ BufCache.contains b a.

Context (OK : env_ok e) (HK : heap_ok e (caps s) (obj s)).
Context (WF : forall t, BufCache.wf (cache t)) (LK : forall t, BufCache.lock_status (renv t) = 0).

Lemma heap_handle_in a pe t :
  in_heap a -> 0 <= pe < npes e -> 0 <= t < num_initialized_transports e ->
  exists start len row w, start <= a < start + len /\ row_of e (caps s) row start len /\
    row !! Z.to_nat (pe * num_initialized_transports e + t) = Some w /\
    heap_handle a pe t = Some (w, start + len - a) /\ heap_offset a = a - start.
Proof.
  intros Ha Hpe Ht.
  destruct (HeapGrow.wp_get_handle e OK a pe t s HK Hpe Ht Ha) as (start & len & row & w & H1 & _ & _ & H4 & H5 & H6 & H7).
  exists start, len, row, w. unfold heap_handle, heap_offset. by rewrite H6, H7.
Qed.

Lemma heap_handle_out a pe t :
  a < heap_base_ (geo (obj s)) \/ a > heap_base_ (geo (obj s)) + heap_size_ (geo (obj s)) ->
  heap_handle a pe t = None.
Proof.
  intros Ha. unfold heap_handle, HeapAlloc.get_transport_mem_handle, mbind, H_bind, get_obj.
  by rewrite bool_decide_eq_true_2.
Qed.

(** The hypothesis of the chunking theorem, discharged. *)
Lemma host_covered (renv' : Rma.env) pe t r l size :
  Rma.mype renv' = mype e -> 0 <= pe < npes e -> 0 <= t < num_initialized_transports e ->
  (forall o, 0 <= o < size -> in_heap (r + o)) ->
  (forall o, 0 <= o < size -> in_heap (l + o) \/ in_buffer t (l + o)) ->
  Rma.covered (MH := host_handles) renv' pe t r l size.
Proof.
  intros Hm Hpe Ht Hr Hl o Ho. split.
  - destruct (heap_handle_in _ pe t (Hr o Ho) Hpe Ht) as (start & len & row & w & H1 & _ & _ & H3 & _).
    exists w, (start + len - (r + o)). split; [exact H3|lia].
  - intros n Hn. unfold Rma.local_handle. cbn [Rma.get_transport_mem_handle host_handles]. rewrite Hm.
    destruct (Hl o Ho) as [Hin|[Hout (k & b & Hk & Hc)]].
    + destruct (heap_handle_in _ (mype e) t Hin (ok_npes e OK) Ht) as (start & len & row & w & H1 & _ & _ & H3 & _).
      rewrite H3. exists w, (start + len - (l + o)). split; [done|lia].
    + rewrite heap_handle_out by done. cbn. unfold buffer_handle.
      rewrite (BufCache.buffer_lookup_found _ _ _ n _ _ (WF t) (LK t) Hk Hc).
      eexists _, _. split; [done|]. unfold BufCache.contains in Hc. lia.
Qed.

End Instance_.

(** ** The abstract put and what the events do *)

(** Byte moves of a put: (address at the peer, local address), in order. *)
Definition abstract_put (remote local size : Z) : list (Z * Z) :=
  (fun o => (remote + o, local + o)) <$> seqZ 0 size.
Definition event_bytes (ev : Rma.event) : list (Z * Z) :=
  match ev with
  | Rma.EvRma _ _ r l b _ => abstract_put (Rma.ptr r) (Rma.ptr l) (Rma.nelems b * Rma.elembytes b)
  | _ => []
  end.

Lemma abstract_put_app r l m n :
  0 <= m -> 0 <= n -> abstract_put r l (m + n) = abstract_put r l m ++ abstract_put (r + m) (l + m) n.
Proof.
  intros Hm Hn. unfold abstract_put. rewrite seqZ_app, fmap_app by done. f_equal.
  rewrite Z.add_0_l. rewrite <- (Z.add_0_r m) at 1. rewrite <- fmap_add_seqZ, <- list_fmap_compose.
  apply list_fmap_ext. intros i x _. cbn. f_equal; lia.
Qed.

(** The handles of a transfer: the peer's word for a registered chunk that
    holds the whole range, and the offset of the range in that chunk. *)
Definition event_ok (e : henv) (s : st) (pe t r : Z) (ev : Rma.event) : Prop :=
  exists verb rd ld n qp start len row, ev = Rma.EvRma pe verb rd ld (Rma.byte_chunk n) qp /\
    0 < n /\ start <= r /\ r + n <= start + len /\ row_of e (caps s) row start len /\
    Rma.handle rd = row !! Z.to_nat (pe * num_initialized_transports e + t) /\ Rma.offset rd = r - start.

(** The transfers of a tiling, each with the heap address it starts at. *)
Fixpoint starts (r : Z) (evs : list Rma.event) : list (Z * Rma.event) :=
  match evs with
  | [] => []
  | ev :: evs => (r, ev) :: starts (r + Z.of_nat (length (event_bytes ev))) evs
  end.

Lemma tiling_bytes e s renv cache (renv' : Rma.env) pe t verb qp :
  env_ok e -> heap_ok e (caps s) (obj s) -> 0 <= pe < npes e -> 0 <= t < num_initialized_transports e ->
  forall r l size evs,
  Rma.rma_tiling (MH := host_handles e s renv cache) renv' pe t verb qp r l size evs ->
  0 <= size -> 0 <= Rma.remote_pe_base renv' pe + (r - Rma.heap_base renv') ->
  Rma.remote_pe_base renv' pe + (r - Rma.heap_base renv') + size < 2 ^ 64 ->
  (forall o, 0 <= o < size -> in_heap s (r + o)) ->
  concat (event_bytes <$> evs) =
    abstract_put (Rma.remote_pe_base renv' pe + (r - Rma.heap_base renv')) l size /\
  Forall (fun p => event_ok e s pe t p.1 p.2) (starts r evs).
Proof.
  intros OK HK Hpe Ht r l size evs HT.
  induction HT as [r l|r l size n rh rlen lh llen evs Hn Hmax Hr Hrn Hl Hln HT IH]; intros Hs Hlo Hhi Hin.
  - done.
  - destruct IH as [IHb IHf]; [lia..| |].
    { intros o Ho. replace (r + n + o) with (r + (n + o)) by lia. apply Hin. lia. }
    assert (length (event_bytes (Rma.EvRma pe verb
         {| Rma.ptr := u64 (Rma.remote_pe_base renv' pe + (r - Rma.heap_base renv'));
            Rma.offset := get_mem_handle_addr_offset (mem_handles := host_handles e s renv cache) r; Rma.handle := Some rh |}
         {| Rma.ptr := l; Rma.offset := 0; Rma.handle := Some lh |} (Rma.byte_chunk n) qp)) = Z.to_nat n) as Hlen.
    { unfold event_bytes, abstract_put. rewrite length_fmap, length_seqZ. cbn. lia. }
    split.
    + rewrite fmap_cons. cbn [concat]. rewrite IHb. cbn [event_bytes Rma.ptr Rma.byte_chunk Rma.nelems Rma.elembytes].
      rewrite Z.mul_1_r, (wrap_small 64) by (unfold in_u; lia).
      replace size with (n + (size - n)) at 2 by lia. rewrite abstract_put_app by lia. do 2 f_equal. lia.
    + cbn [starts]. constructor.
      * destruct (heap_handle_in e s OK HK r pe t) as (start & len & row & w & H1 & H2 & H3 & H4 & H5); [|done..|].
        { rewrite <- (Z.add_0_r r). apply Hin. lia. }
        assert (Some (w, start + len - r) = Some (rh, rlen)) as [= -> <-] by (rewrite <- H4; exact Hr).
        eexists _, _, _, n, _, start, len, row. split; [done|].
        split_and!; try done; cbn; lia.
      * rewrite Hlen, Z2Nat.id by lia. exact IHf.
Qed.

(** C28: refinement of a put without rail optimisation (with it later chunks are
    misdirected, [rail_multisend_misdirected]).  The remote range lies in the
    physical part of the heap proper, so user buffers mapped into the heap are
    excluded as targets (their remote lookup is undefined,
    [handle_of_mapped_byte]), and every local byte lies there or in a buffer
    registered for the transport; addresses do not wrap and the transport reports
    no error.  Then the multi-chunk RMA of the host terminates without fault; the bytes
    its transfers move are exactly, and in order, those of the abstract put
    from [l] to the peer's copy of [r]; and every transfer carries the handle
    that the peer registered for a chunk containing its whole range, with its
    offset in that chunk. *)
Theorem put_refines_abstract e s renv cache (renv' : Rma.env) tr t pe verb r l size qp :
  env_ok e -> heap_ok e (caps s) (obj s) ->
  (forall t, BufCache.wf (cache t)) -> (forall t, BufCache.lock_status (renv t) = 0) ->
  Rma.mype renv' = mype e -> Rma.enable_rail_opt renv' = false -> 0 < Rma.max_op_len renv' t ->
  (forall tr ev, Rma.op_status renv' tr ev = 0) ->
  0 <= pe < npes e -> 0 <= t < num_initialized_transports e -> 0 <= size ->
  0 <= l -> l + size < 2 ^ 64 ->
  0 <= Rma.remote_pe_base renv' pe + (r - Rma.heap_base renv') ->
  Rma.remote_pe_base renv' pe + (r - Rma.heap_base renv') + size < 2 ^ 64 ->
  (forall o, 0 <= o < size -> in_heap s (r + o)) -> 0 <= r -> r + size < 2 ^ 64 ->
  (forall o, 0 <= o < size -> in_heap s (l + o) \/ in_buffer s cache t (l + o)) ->
  exists evs,
    Rma.nvshmemi_process_multisend_rma (MH := host_handles e s renv cache) renv' tr t pe verb r l size qp =
      Ret (tr ++ evs) /\
    concat (event_bytes <$> evs) =
      abstract_put (Rma.remote_pe_base renv' pe + (r - Rma.heap_base renv')) l size /\
    Forall (fun p => event_ok e s pe t p.1 p.2) (starts r evs).
Proof.
  intros OK HK WF LK Hm Hrail Hmax Hst Hpe Ht Hs Hl1 Hl2 Hb1 Hb2 Hr Hr1 Hr2 Hl.
  destruct (Rma.multisend_loop_tiles (MH := host_handles e s renv cache) renv' (Z.to_nat size) tr t pe verb r l size qp)
    as (evs & E & HT); auto; [by apply host_covered|].
  exists evs. split; [exact E|]. by eapply tiling_bytes.
Qed.

(** ** Witness: a put of 40 bytes from a registered buffer to a block of the
    two-PE node, 16 bytes per operation *)
Definition demo_rma : Rma.env := {|
  Rma.npes := 2; Rma.mype := 0; Rma.npes_node := 2; Rma.mype_node := 0;
  Rma.enable_rail_opt := false; Rma.heap_base := 2 ^ 40; Rma.heap_size := 64 * HeapSetup.MiB;
  Rma.remote_pe_base := fun _ => 2 ^ 41; Rma.max_op_len := fun _ => 16; Rma.op_status := fun _ _ => 0
|}.

Lemma demo_geometry :
  heap_base_ (geo (obj HeapGrow.demo_malloc)) = 2 ^ 40 /\
  physical_internal_heap_size_ (obj HeapGrow.demo_malloc) = 2 * HeapSetup.MiB.
Proof. split; vm_compute; reflexivity. Qed.

Lemma cache1_buffer : exists b, BufCache.buffers BufCache.cache1 !! 0%nat = Some b /\
  BufCache.ptr b = 4096 /\ BufCache.length b = 4096.
Proof. eexists. split; [vm_compute; reflexivity|split; reflexivity]. Qed.

Lemma put_refines_abstract_witness :
  exists evs,
    Rma.nvshmemi_process_multisend_rma
      (MH := host_handles HeapSetup.demo_env HeapGrow.demo_malloc (fun _ => BufCache.plain_env)
               (fun _ => BufCache.cache1)) demo_rma [] 1 1 Rma.demo_verb (2 ^ 40 + 64) 4160 40 1 = Ret ([] ++ evs) /\
    concat (event_bytes <$> evs) = abstract_put (2 ^ 41 + 64) 4160 40.
Proof.
  destruct demo_geometry as [Hb Hp]. destruct cache1_buffer as (b & Hb0 & Hb1 & Hb2).
  destruct (put_refines_abstract HeapSetup.demo_env HeapGrow.demo_malloc (fun _ => BufCache.plain_env)
    (fun _ => BufCache.cache1) demo_rma [] 1 1 Rma.demo_verb (2 ^ 40 + 64) 4160 40 1) as (evs & E & HB & _);
    try (cbn; lia); try reflexivity.
  - apply HeapSetup.demo_node_ok.
  - apply HeapGrow.demo_malloc_ok.
  - intros _. apply BufCache.cache1_wf.
  - intros o Ho. unfold in_heap. rewrite Hb, Hp. unfold HeapSetup.MiB. lia.
  - intros o Ho. right. split; [left; rewrite Hb; lia|]. exists 0%nat, b. split; [exact Hb0|].
    unfold BufCache.contains. rewrite Hb1, Hb2. lia.
  - exists evs. split; [exact E|]. rewrite HB. f_equal.
Defined.

End HeapRma.
