(* ===== verification/Barrier.v ===== *)
(** * Device barrier: the dissemination schedules

    src/src/include/non_abi/device/coll/barrier.cuh.  A thread group of each PE
    runs the phases of a schedule: every thread notifies some PEs of the team by
    storing the sync counter into the cell of this PE in their pSync area, then
    waits until the cells of some PEs in its own area reach the counter; the
    group synchronises after each phase.  A [plan] is the program of one PE: for
    every phase and thread the PEs notified and the PEs waited for, as numbers in
    NVSHMEM_TEAM_WORLD.  The four functions below compute it; BarrierProtocol.v
    runs the plans of all PEs against each other.

    Indices and shifts are 32-bit in the code; the largest product is below the
    square of the team size, so with fewer than 46341 PEs no operation wraps. *)
From stdpp Require Import base list.
From Stdlib Require Import ZArith Lia.
From S2P Require Import Prelude Recexch Team.
Import Team.

Module Barrier.

(** PEs notified and PEs waited for by one thread in one phase. *)
Abbreviation thread_plan := (list Z * list Z)%type.
Abbreviation plan := (list (list thread_plan)).

(** [for (int j = myIdx + 1; j <= k - 1; j += groupSize)] with
    [if (shift >= size) break]: the shifts one thread takes.  [groupSize] is at
    least 1, so [k] rounds are enough. *)
Fixpoint shifts_from (fuel : nat) (k groupSize size : Z) (shift : Z -> Z) (j : Z) : list Z :=
  match fuel with
  | O => []
  | S fuel =>
      if bool_decide (j <= k - 1) then
        if bool_decide (shift j >= size) then []
        else shift j :: shifts_from fuel k groupSize size shift (j + groupSize)
      else []
  end.
Definition thread_shifts (k groupSize size : Z) (shift : Z -> Z) (myIdx : Z) : list Z :=
  shifts_from (Z.to_nat k) k groupSize size shift (myIdx + 1).

(** The neighbours at each shift. *)
Fixpoint neighbours (f : Z -> outcome Z) (l : list Z) : outcome (list Z) :=
  match l with [] => Ret [] | s :: l => x ← f s; xs ← neighbours f l; Ret (x :: xs) end.

Fixpoint for_threads (n : nat) (myIdx : Z) (f : Z -> outcome thread_plan) : outcome (list thread_plan) :=
  match n with O => Ret [] | S n => x ← f myIdx; xs ← for_threads n (myIdx + 1) f; Ret (x :: xs) end.

(** One phase: every thread's notifications and waits. *)
Definition phase_plan (k groupSize size : Z) (shift : Z -> Z) (to_nbr from_nbr : Z -> outcome Z)
  : outcome (list thread_plan) :=
  for_threads (Z.to_nat groupSize) 0 (fun myIdx =>
    let l := thread_shifts k groupSize size shift myIdx in
    ts ← neighbours to_nbr l; fs ← neighbours from_nbr l; Ret (ts, fs)).

(** [from_nbr_idx = my - shift; if (from_nbr_idx < 0) from_nbr_idx = size + from_nbr_idx] *)
Definition from_nbr_idx (my size shift : Z) : Z :=
  if bool_decide (my - shift < 0) then size + (my - shift) else my - shift.

(** [while (temp) { num_phases++; temp /= k; }] *)
Fixpoint num_phases (fuel : nat) (k temp : Z) : outcome nat :=
  if bool_decide (temp = 0) then Ret O
  else if bool_decide (k = 0) then Fail FUndef
  else match fuel with
       | O => Fail FSpin
       | S fuel => n ← num_phases fuel k (Z.quot temp k); Ret (S n)
       end.

(** The phases [i], [i + 1], ... of the division schedules; [pow_k] is [k] to the [i]. *)
Fixpoint dissem_phases (n : nat) (k groupSize size pow_k : Z) (to_nbr from_nbr : Z -> outcome Z) : outcome plan :=
  match n with
  | O => Ret []
  | S n =>
      ph ← phase_plan k groupSize size (fun j => j * pow_k) to_nbr from_nbr;
      l ← dissem_phases n k groupSize size (pow_k * k) to_nbr from_nbr;
      Ret (ph :: l)
  end.

(** [sync_dissem_threadgroup_non_strided] *)
Definition sync_dissem_threadgroup_non_strided (kval groupSize : Z) (t : team) : outcome plan :=
  let k := Z.min kval (size t) in
  n ← num_phases (Z.to_nat (size t)) k (size t - 1);
  dissem_phases n k groupSize (size t) 1
    (fun shift => arr_get (pe_mapping t) (Z.rem (my_pe t + shift) (size t)))
    (fun shift => arr_get (pe_mapping t) (from_nbr_idx (my_pe t) (size t) shift)).

(** [sync_dissem_threadgroup_2] *)
Definition sync_dissem_threadgroup_2 (kval groupSize mype start stride size : Z) : outcome plan :=
  let k := Z.min kval size in
  let my := Z.quot (mype - start) stride in
  n ← num_phases (Z.to_nat size) k (size - 1);
  dissem_phases n k groupSize size 1
    (fun shift => Ret (start + Z.rem (my + shift) size * stride))
    (fun shift => Ret (start + from_nbr_idx my size shift * stride)).

(** [sync_dissem_threadgroup] *)
Definition sync_dissem_threadgroup (kval groupSize mype : Z) (t : team) : outcome plan :=
  if bool_decide (stride t > 0) then sync_dissem_threadgroup_2 kval groupSize mype (start t) (stride t) (size t)
  else sync_dissem_threadgroup_non_strided kval groupSize t.

(** [sync_dissem_pow2_threadgroup<k, logk>]: [shift = j << phase_num], the
    phases end when [temp >>= logk] is 0 *)
Fixpoint pow2_phases (fuel : nat) (k logk groupSize : Z) (t : team) (phase_num temp : Z) : outcome plan :=
  if bool_decide (temp = 0) then Ret []
  else match fuel with
  | O => Fail FSpin
  | S fuel =>
      ph ← phase_plan k groupSize (size t) (fun j => Z.shiftl j phase_num)
             (fun shift => nvshmemi_team_translate_pe_to_team_world_wrap t (my_pe t + shift))
             (fun shift => nvshmemi_team_translate_pe_to_team_world_wrap t (from_nbr_idx (my_pe t) (size t) shift));
      l ← pow2_phases fuel k logk groupSize t (phase_num + 1) (Z.shiftr temp logk);
      Ret (ph :: l)
  end.
Definition sync_dissem_pow2_threadgroup (k logk groupSize : Z) (t : team) : outcome plan :=
  pow2_phases (Z.to_nat (size t)) k logk groupSize t 0 (size t - 1).

(** [nvshmemi_sync_algo_threadgroup]; [block] is SCOPE == NVSHMEMI_THREADGROUP_BLOCK *)
Definition sync_radix (kval : Z) (block : bool) (t : team) : Z :=
  let k := Z.max (Z.min kval (size t)) 2 in
  if are_gpus_p2p_connected t && block then size t else k.
Definition nvshmemi_sync_algo_threadgroup (kval groupSize mype : Z) (block : bool) (t : team) : outcome plan :=
  let k := sync_radix kval block t in
  if bool_decide (k = 2) then sync_dissem_pow2_threadgroup 2 1 groupSize t
  else if bool_decide (k = 4) then sync_dissem_pow2_threadgroup 4 2 groupSize t
  else if bool_decide (k = 8) then sync_dissem_pow2_threadgroup 8 3 groupSize t
  else if bool_decide (k = 16) then sync_dissem_pow2_threadgroup 16 4 groupSize t
  else if bool_decide (k = 32) then sync_dissem_pow2_threadgroup 32 5 groupSize t
  else sync_dissem_threadgroup kval groupSize mype t.

End Barrier.
