(* ===== verification/BarrierProtocol.v ===== *)
(** * Device barrier: the protocol

    The plans of all PEs of a team run against each other.  A state holds every
    PE's sync counter and what it has still to do in the present sync, the
    signals in flight and the cells of the pSync areas.  Signals are delivered
    in any order, at any time.  The counter's parity selects one of the two
    halves of the area, as in [pSync + NVSHMEMI_SYNC_SIZE * (sync_counter[0] % 2)].

    [dissemination] is what the protocol needs of a schedule: the PEs notified
    and waited for mirror each other, every distance is used in one phase only,
    and the distances of the phases add up to cover the team.  From it the
    invariant [inv] follows for every reachable state: a PE that passed phase
    [p] knows that the PEs up to a distance growing with [p] have entered. *)
From stdpp Require Import base list relations.
From Stdlib Require Import ZArith Lia.
From S2P Require Import Prelude Barrier.
Import Barrier.

Module BarrierProtocol.

(** ** States and steps *)

(** [sync_counter[0]] and the rest of the present sync ([None] outside):
    the current phase as the threads have left it, then the later phases. *)
Record pe_state := MkPe { counter : Z; todo : option plan }.
(** A signal: half of the area, destination, source, value. *)
Abbreviation key := (Z * Z * Z)%type.
Record sys := MkSys { pes : Z -> pe_state; net : list (key * Z); cell : key -> Z }.

Definition set_pe (s : sys) (w : Z) (x : pe_state) : Z -> pe_state :=
  fun w' => if bool_decide (w' = w) then x else pes s w'.
Definition set_cell (s : sys) (k : key) (v : Z) : key -> Z :=
  fun k' => if bool_decide (k' = k) then v else cell s k'.
Definition half (c : Z) : Z := c mod 2.
Definition done_thread : thread_plan := ([], []).

Section Steps.
Context (team : list Z) (prog : Z -> plan).

Inductive event := Enter (w : Z) | Notify (w : Z) (t : nat) | Wait (w : Z) (t : nat)
  | Sync (w : Z) | Leave (w : Z) | Deliver (i : nat).

(** What a PE does: enter, notify [d], pass the wait for [f], synchronise its
    threads, leave. *)
Inductive action := AEnter | ANotify (d : Z) | AWait (f : Z) | ASync | ALeave.

Definition local (x : pe_state) (w : Z) (a : event) : option (action * pe_state) :=
  match a, todo x with
  | Enter _, None => Some (AEnter, MkPe (counter x) (Some (prog w)))
  | Notify _ t, Some (ph :: rest) =>
      match ph !! t with
      | Some (d :: ds, ws) => Some (ANotify d, MkPe (counter x) (Some (<[t := (ds, ws)]> ph :: rest)))
      | _ => None
      end
  | Wait _ t, Some (ph :: rest) =>
      match ph !! t with
      | Some ([], f :: ws) => Some (AWait f, MkPe (counter x) (Some (<[t := ([], ws)]> ph :: rest)))
      | _ => None
      end
  | Sync _, Some (ph :: rest) =>
      if bool_decide (Forall (fun x => x = done_thread) ph)
      then Some (ASync, MkPe (counter x) (Some rest)) else None
  | Leave _, Some [] => Some (ALeave, MkPe (counter x + 1) None)
  | _, _ => None
  end.
Definition event_pe (a : event) : option Z :=
  match a with Enter w | Notify w _ | Wait w _ | Sync w | Leave w => Some w | Deliver _ => None end.

(** One event of the system; [None] if it cannot happen. *)
Definition fire (s : sys) (a : event) : option sys :=
  match event_pe a, a with
  | Some w, _ =>
      if bool_decide (w ∈ team) then
        '(l, x) ← local (pes s w) w a;
        let c := counter (pes s w) in
        match l with
        | ANotify d => Some (MkSys (set_pe s w x) (((half c, d, w), c) :: net s) (cell s))
        | AWait f =>
            if bool_decide (cell s (half c, w, f) >= c) then Some (MkSys (set_pe s w x) (net s) (cell s)) else None
        | _ => Some (MkSys (set_pe s w x) (net s) (cell s))
        end
      else None
  | None, Deliver i =>
      '(k, v) ← net s !! i; Some (MkSys (pes s) (delete i (net s)) (set_cell s k v))
  | None, _ => None
  end.

(** After team creation: counters 1, cells 0. *)
Definition init : sys := MkSys (fun _ => MkPe 1 None) [] (fun _ => 0).

Definition step (s s' : sys) : Prop := exists a, fire s a = Some s'.
(** A step of a sync that has begun. *)
Definition inner (s s' : sys) : Prop := exists a, fire s a = Some s' /\ forall w, a <> Enter w.
Definition reachable (s : sys) : Prop := rtc step init s.

(** Has the PE entered, left sync number [b]? *)
Definition entered (x : pe_state) (b : Z) : Prop := b < counter x \/ (b = counter x /\ todo x <> None).
Definition left (x : pe_state) (b : Z) : Prop := b < counter x.

Fixpoint run (l : list event) (s : sys) : option sys :=
  match l with [] => Some s | a :: l => s' ← fire s a; run l s' end.
Lemma barrier_run_reachable l : forall s s', reachable s -> run l s = Some s' -> reachable s'.
Proof.
  induction l as [|a l IH]; intros s s' HR HE; cbn in HE; [by simplify_eq|].
  apply bind_Some in HE as (s1 & E1 & E2). apply (IH s1); [|done].
  eapply rtc_r; [exact HR|]. by exists a.
Qed.
End Steps.

(** ** What a schedule promises *)

(** Distances: [sh p] lists the distances each thread uses in phase [p], [reach p]
    bounds the distances known after [p] phases. *)
Class dissemination (size : Z) (n : nat) (pe : Z -> Z) (sh : nat -> list (list Z)) (reach : nat -> Z)
    (team : list Z) (prog : Z -> plan) : Prop := {
  di_size : 0 < size;
  di_team : forall w, w ∈ team <-> exists i, 0 <= i < size /\ w = pe i;
  di_inj : forall i j, 0 <= i < size -> 0 <= j < size -> pe i = pe j -> i = j;
  di_prog : forall i, 0 <= i < size -> prog (pe i) =
    map (fun p => map (fun l => (map (fun s => pe ((i + s) mod size)) l,
                                 map (fun s => pe ((i - s) mod size)) l)) (sh p)) (seq 0 n);
  di_range : forall p s, s ∈ concat (sh p) -> 0 < s < size;
  di_nodup : forall p, (p < n)%nat -> NoDup (concat (sh p));
  di_phase : forall p q s, (p < n)%nat -> (q < n)%nat -> s ∈ concat (sh p) -> s ∈ concat (sh q) -> p = q;
  di_reach0 : reach 0%nat = 1;
  di_reach : forall p d, (p < n)%nat -> reach p <= d < reach (S p) -> d < size ->
    exists s, s ∈ concat (sh p) /\ 0 <= d - s < reach p;
  di_mono : forall p, (p < n)%nat -> reach p <= reach (S p);
  di_cover : size <= reach n
}.

Lemma map_lookup {A B} (f : A -> B) l i : map f l !! i = f <$> l !! i.
Proof. revert i. induction l as [|a l IH]; intros [|i]; cbn; auto. Qed.

Section Protocol.
Context {size : Z} {n : nat} {pe : Z -> Z} {sh : nat -> list (list Z)} {reach : nat -> Z}.
Context {team : list Z} {prog : Z -> plan} {DI : dissemination size n pe sh reach team prog}.

Definition nto (i s : Z) : Z := pe ((i + s) mod size).
Definition nfrom (i s : Z) : Z := pe ((i - s) mod size).
Definition idx (i : Z) : Prop := 0 <= i < size.

(** ** How far a PE is *)

(** It has begun phase [p] of sync [b] (phase [n]: all its phases are done). *)
Definition past (x : pe_state) (b : Z) (p : nat) : Prop :=
  b < counter x \/ (b = counter x /\ exists td, todo x = Some td /\ (p + length td <= n)%nat).
(** It is in phase [p], with [ph] left of it. *)
Definition cur (x : pe_state) (p : nat) (ph : list thread_plan) : Prop :=
  exists rest, todo x = Some (ph :: rest) /\ (p + S (length rest) = n)%nat.
Definition pend_n (ph : list thread_plan) : list Z := concat (map fst ph).
Definition pend_w (ph : list thread_plan) : list Z := concat (map snd ph).
Definition notified (x : pe_state) (b : Z) (p : nat) (d : Z) : Prop :=
  past x b (S p) \/ (b = counter x /\ exists ph, cur x p ph /\ d ∉ pend_n ph).
Definition waited (x : pe_state) (b : Z) (p : nat) (f : Z) : Prop :=
  past x b (S p) \/ (b = counter x /\ exists ph, cur x p ph /\ f ∉ pend_w ph).

(** What is left is a part of the program. *)
Definition wf_todo (i : Z) (x : pe_state) : Prop :=
  forall ph rest, todo x = Some (ph :: rest) -> exists p ph0,
    (p + S (length rest) = n)%nat /\ prog (pe i) !! p = Some ph0 /\ rest = drop (S p) (prog (pe i)) /\
    pend_n ph ⊆ pend_n ph0 /\ pend_w ph ⊆ pend_w ph0 /\ NoDup (pend_n ph).

(** ** The program of a PE *)
Lemma prog_length i : idx i -> length (prog (pe i)) = n.
Proof. intros Hi. rewrite di_prog by done. by rewrite length_map, length_seq. Qed.

Lemma prog_phase i p : idx i -> (p < n)%nat ->
  exists ph, prog (pe i) !! p = Some ph /\ pend_n ph = map (nto i) (concat (sh p)) /\
    pend_w ph = map (nfrom i) (concat (sh p)).
Proof.
  intros Hi Hp. rewrite di_prog by done. eexists. split.
  - rewrite map_lookup. by rewrite lookup_seq_lt by done.
  - unfold pend_n, pend_w. rewrite !map_map. cbn. by rewrite !concat_map.
Qed.

Lemma nto_idx i s : idx ((i + s) mod size).
Proof. apply Z.mod_pos_bound, di_size. Qed.
Lemma nfrom_idx i s : idx ((i - s) mod size).
Proof. apply Z.mod_pos_bound, di_size. Qed.

Lemma nto_inj i s s' : 0 < s < size -> 0 < s' < size -> nto i s = nto i s' -> s = s'.
Proof.
  intros Hs Hs' E. unfold nto in E. apply di_inj in E; [|apply nto_idx..].
  apply mod_eq_close in E; [lia|apply di_size|lia].
Qed.

(** The PE a distance back sends to this one over the same distance. *)
Lemma nfrom_nto i s : idx i -> nto ((i - s) mod size) s = pe i.
Proof.
  intros Hi. pose proof di_size. unfold nto. f_equal. rewrite Zplus_mod_idemp_l.
  replace (i - s + s) with i by lia. by apply Z.mod_small.
Qed.
Lemma nto_nfrom i s : idx i -> nfrom ((i + s) mod size) s = pe i.
Proof.
  intros Hi. pose proof di_size. unfold nfrom. f_equal. rewrite Zminus_mod_idemp_l.
  replace (i + s - s) with i by lia. by apply Z.mod_small.
Qed.
Lemma nfrom_add i s d : nfrom ((i - s) mod size) d = nfrom i (s + d).
Proof. pose proof di_size. unfold nfrom. f_equal. rewrite Zminus_mod_idemp_l. f_equal. lia. Qed.

(** ** One PE moves *)
Lemma pend_insert (g : thread_plan -> list Z) ph t x y : ph !! t = Some x ->
  concat (map g ph) ≡ₚ g x ++ concat (map g (delete t ph)) /\
  concat (map g (<[t := y]> ph)) ≡ₚ g y ++ concat (map g (delete t ph)).
Proof.
  revert t. induction ph as [|z ph IH]; intros [|t]; cbn; intros E; try done; [by simplify_eq|].
  destruct (IH t E) as [H1 H2]. rewrite H1, H2. split; by rewrite !app_assoc, (Permutation_app_comm (g z)).
Qed.

Lemma pend_notify ph t d ds ws : ph !! t = Some (d :: ds, ws) ->
  pend_n ph ≡ₚ d :: pend_n (<[t := (ds, ws)]> ph) /\ pend_w ph ≡ₚ pend_w (<[t := (ds, ws)]> ph).
Proof.
  intros E. destruct (pend_insert fst ph t _ (ds, ws) E) as [H1 H2].
  destruct (pend_insert snd ph t _ (ds, ws) E) as [H3 H4]. unfold pend_n, pend_w. by rewrite H1, H2, H3, H4.
Qed.
Lemma pend_wait ph t f ws : ph !! t = Some ([], f :: ws) ->
  pend_w ph ≡ₚ f :: pend_w (<[t := ([], ws)]> ph) /\ pend_n ph ≡ₚ pend_n (<[t := ([], ws)]> ph).
Proof.
  intros E. destruct (pend_insert fst ph t _ ([], ws) E) as [H1 H2].
  destruct (pend_insert snd ph t _ ([], ws) E) as [H3 H4]. unfold pend_n, pend_w. by rewrite H1, H2, H3, H4.
Qed.
Lemma pend_done ph : Forall (fun x => x = done_thread) ph -> pend_n ph = [] /\ pend_w ph = [].
Proof. induction 1 as [|x ph -> _ IH]; [done|]. unfold pend_n, pend_w in *. by cbn. Qed.

(** The five moves, by what is left to do. *)
Inductive moves (w : Z) : pe_state -> action -> pe_state -> Prop :=
| mv_enter c : moves w (MkPe c None) AEnter (MkPe c (Some (prog w)))
| mv_notify c ph ph' rest d : pend_n ph ≡ₚ d :: pend_n ph' -> pend_w ph ≡ₚ pend_w ph' ->
    moves w (MkPe c (Some (ph :: rest))) (ANotify d) (MkPe c (Some (ph' :: rest)))
| mv_wait c ph ph' rest f : pend_w ph ≡ₚ f :: pend_w ph' -> pend_n ph ≡ₚ pend_n ph' ->
    moves w (MkPe c (Some (ph :: rest))) (AWait f) (MkPe c (Some (ph' :: rest)))
| mv_sync c ph rest : pend_n ph = [] -> pend_w ph = [] ->
    moves w (MkPe c (Some (ph :: rest))) ASync (MkPe c (Some rest))
| mv_leave c : moves w (MkPe c (Some [])) ALeave (MkPe (c + 1) None).

Lemma local_moves x w a l x' : local prog x w a = Some (l, x') -> moves w x l x'.
Proof.
  destruct x as [c td]. unfold local. cbn. destruct a, td as [[|ph rest]|]; try done; intros E;
    repeat match goal with
    | E : context [ph !! ?t] |- _ => destruct (ph !! t) as [[[|d ds] [|f ws]]|] eqn:?; try done
    | E : context [bool_decide _] |- _ => case_bool_decide; try done
    end; simplify_eq; try by constructor.
  1-2: by constructor; eapply pend_notify.
  - by constructor; eapply pend_wait.
  - constructor; by apply pend_done.
Qed.

(** Facts about a PE stay true. *)
Record advances (x x' : pe_state) : Prop := {
  ad_counter : counter x <= counter x';
  ad_past : forall b p, past x b p -> past x' b p;
  ad_entered : forall b, entered x b -> entered x' b;
  ad_notified : forall b p d, notified x b p d -> notified x' b p d;
  ad_waited : forall b p f, waited x b p f -> waited x' b p f
}.

Lemma advances_refl x : advances x x.
Proof. by split. Qed.

Lemma not_in_perm (l l' : list Z) d x : l ≡ₚ d :: l' -> x ∉ l -> x ∉ l'.
Proof. intros HP Hx Hin. apply Hx. rewrite HP. by right. Qed.

Lemma moves_past w x l x' b p : moves w x l x' -> past x b p -> past x' b p.
Proof.
  destruct 1; intros [Hb|(Hb & td & Htd & Hl)]; cbn in *; simplify_eq; unfold past; cbn; (try by left); (try (left; lia));
    right; (split; [done|]); eexists; (split; [done|]); cbn in *; lia.
Qed.

Lemma moves_advances w x l x' : moves w x l x' -> advances x x'.
Proof.
  intros M. pose proof (moves_past w x l x') as HP. split.
  - destruct M; cbn; lia.
  - eauto.
  - destruct M; intros b [Hb|[Hb Ht]]; cbn in *; unfold entered; cbn; (try by left); try (by right); left; lia.
  - intros b p d [Hp|(Hb & ph1 & (rest1 & Ht & Hl) & Hd)]; [left; eauto|].
    destruct M as [c|c ph ph' rest d' H1 H2|c ph ph' rest f H1 H2|c ph rest H1 H2|c]; cbn in *; simplify_eq; unfold notified, past, cur; cbn.
    + right. split; [done|]. exists ph'. split; [by eexists|]. by eapply not_in_perm.
    + right. split; [done|]. exists ph'. split; [by eexists|]. by rewrite <- H2.
    + left. right. split; [done|]. eexists. split; [done|lia].
  - intros b p d [Hp|(Hb & ph1 & (rest1 & Ht & Hl) & Hd)]; [left; eauto|].
    destruct M as [c|c ph ph' rest d' H1 H2|c ph ph' rest f H1 H2|c ph rest H1 H2|c]; cbn in *; simplify_eq; unfold waited, past, cur; cbn.
    + right. split; [done|]. exists ph'. split; [by eexists|]. by rewrite <- H2.
    + right. split; [done|]. exists ph'. split; [by eexists|]. by eapply not_in_perm.
    + left. right. split; [done|]. eexists. split; [done|lia].
Qed.

Lemma prog_nodup i p ph : idx i -> prog (pe i) !! p = Some ph -> NoDup (pend_n ph).
Proof.
  intros Hi E. assert (p < n)%nat as Hp by (rewrite <- (prog_length i Hi); by eapply lookup_lt_Some).
  destruct (prog_phase i p Hi Hp) as (ph' & E' & Hn & _).
  rewrite E in E'. simplify_eq. rewrite Hn.
  apply NoDup_ListNoDup, (NoDup_map_NoDup_ForallPairs (nto i)); [|by apply NoDup_ListNoDup, di_nodup].
  intros s s' Hs Hs'. apply nto_inj; by eapply di_range, list_elem_of_In.
Qed.

Lemma moves_wf i x l x' : idx i -> wf_todo i x -> moves (pe i) x l x' -> wf_todo i x'.
Proof.
  intros Hi W M ph2 rest2 E2. destruct M as [c|c ph ph' rest d H1 H2|c ph ph' rest f H1 H2|c ph rest H1 H2|c]; cbn in E2; simplify_eq.
  - pose proof (prog_length i Hi) as HL. rewrite E2 in HL. cbn in HL.
    exists 0%nat, ph2. rewrite E2. cbn. split_and!; try done.
    apply (prog_nodup i 0); [done|]. by rewrite E2.
  - destruct (W _ _ eq_refl) as (p & ph0 & Hl & Hp & Hr & Hn & Hw & Hnd). exists p, ph0.
    rewrite H1 in Hn, Hnd. rewrite H2 in Hw. apply NoDup_cons in Hnd as [_ Hnd].
    split_and!; try done. intros y Hy. apply Hn. by right.
  - destruct (W _ _ eq_refl) as (p & ph0 & Hl & Hp & Hr & Hn & Hw & Hnd). exists p, ph0.
    rewrite H1 in Hw. rewrite H2 in Hn, Hnd. split_and!; try done. intros y Hy. apply Hw. by right.
  - destruct (W _ _ eq_refl) as (p & ph0 & Hl & Hp & Hr & _). cbn in Hl.
    assert (prog (pe i) !! S p = Some ph2) as E.
    { rewrite <- (Nat.add_0_r (S p)), <- lookup_drop, <- Hr. done. }
    erewrite drop_S in Hr by done. simplify_eq. exists (S p), ph2.
    split_and!; try done; [cbn in Hl; lia|by eapply prog_nodup].
Qed.

(** A phase that has just begun is complete. *)
Lemma fresh_phase i p x l x' ph0 ph : idx i -> wf_todo i x -> moves (pe i) x l x' -> l = AEnter \/ l = ASync ->
  cur x' p ph -> prog (pe i) !! p = Some ph0 -> ph = ph0.
Proof.
  intros Hi W M Hl (rest & Ht & Hlen) E0.
  destruct M as [c|c ph1 ph' r d H1 H2|c ph1 ph' r f H1 H2|c ph1 r H1 H2|c]; cbn in Ht; simplify_eq; try (by destruct Hl).
  - pose proof (prog_length i Hi) as HL. rewrite Ht in HL, E0. cbn in HL.
    assert (p = 0%nat) as -> by lia. by simplify_eq/=.
  - destruct (W _ _ eq_refl) as (q & ph2 & Hq & _ & Hr & _). cbn in Hq. assert (p = S q) as -> by lia.
    erewrite drop_S in Hr by done. by simplify_eq.
Qed.

(** Only a notification makes a notification done, and only a wait a wait;
    a phase begins by entering, or by synchronising at the end of the one before. *)
Lemma back_past i x l x' b p : idx i -> wf_todo i x -> moves (pe i) x l x' -> (p <= n)%nat -> past x' b p ->
  past x b p \/ (b = counter x /\ ((l = AEnter /\ p = 0%nat) \/
    (l = ASync /\ exists q ph, p = S q /\ cur x q ph /\ pend_n ph = [] /\ pend_w ph = []))).
Proof.
  intros Hi W M Hp HP.
  destruct M as [c|c ph ph' rest d H1 H2|c ph ph' rest f H1 H2|c ph rest H1 H2|c];
    destruct HP as [Hb|(Hb & td & Ht & Hl)]; cbn in *; simplify_eq; try (left; left; cbn; lia).
  - right. split; [done|]. left. split; [done|]. rewrite prog_length in Hl by done. lia.
  - left. right. split; [done|]. eexists. done.
  - left. right. split; [done|]. eexists. done.
  - destruct (decide (p + S (length td) <= n)%nat).
    + left. right. split; [done|]. by eexists.
    + right. split; [done|]. right. split; [done|]. destruct (W _ _ eq_refl) as (q & _ & Hq & _). exists q, ph.
      split_and!; try done; [lia|]. by exists td.
  - destruct (decide (b < c)); [left; left; done|]. left. right. cbn. split; [lia|]. exists []. cbn. split; [done|lia].
Qed.

Lemma back_notified i x l x' b p s : idx i -> wf_todo i x -> moves (pe i) x l x' ->
  (p < n)%nat -> s ∈ concat (sh p) -> notified x' b p (nto i s) ->
  notified x b p (nto i s) \/
  (l = ANotify (nto i s) /\ b = counter x /\ exists ph, cur x p ph /\ nto i s ∈ pend_n ph).
Proof.
  intros Hi W M Hp Hs [HP|(Hb & ph2 & HC & Hd)].
  { destruct (back_past i x l x' b (S p) Hi W M ltac:(lia) HP) as [HP'|[Hb [[_ ?]|(_ & q & ph & ? & HC & HN & _)]]];
      [by left; left|done|]. simplify_eq. left. right. split; [done|]. exists ph. split; [done|]. rewrite HN. apply not_elem_of_nil. }
  destruct (prog_phase i p Hi Hp) as (ph0 & E0 & Hn0 & _).
  assert (nto i s ∈ pend_n ph0) as Hin0 by (rewrite Hn0; apply list_elem_of_In, in_map; by apply list_elem_of_In).
  pose proof (fresh_phase i p x l x' ph0 ph2 Hi W M) as HF.
  destruct M as [c|c ph ph' rest d H1 H2|c ph ph' rest f H1 H2|c ph rest H1 H2|c]; cbn in *.
  - rewrite HF in Hd by auto. done.
  - destruct HC as (r & Ht & Hl). cbn in Ht. simplify_eq. destruct (decide (nto i s ∈ pend_n ph)) as [Hin|Hni].
    + right. pose proof Hin as Hin2. rewrite H1 in Hin2. apply elem_of_cons in Hin2 as [->|?]; [|done].
      split; [done|split; [done|]]. exists ph. split; [by eexists|]. rewrite H1. by left.
    + left. right. split; [done|]. exists ph. split; [by eexists|done].
  - destruct HC as (r & Ht & Hl). cbn in Ht. simplify_eq. left. right. split; [done|]. exists ph.
    split; [by eexists|by rewrite H2].
  - rewrite HF in Hd by auto. done.
  - by destruct HC as (r & Ht & Hl).
Qed.

Lemma back_waited i x l x' b p s : idx i -> wf_todo i x -> moves (pe i) x l x' ->
  (p < n)%nat -> s ∈ concat (sh p) -> waited x' b p (nfrom i s) ->
  waited x b p (nfrom i s) \/ (l = AWait (nfrom i s) /\ b = counter x).
Proof.
  intros Hi W M Hp Hs [HP|(Hb & ph2 & HC & Hd)].
  { destruct (back_past i x l x' b (S p) Hi W M ltac:(lia) HP) as [HP'|[Hb [[_ ?]|(_ & q & ph & ? & HC & _ & HN)]]];
      [by left; left|done|]. simplify_eq. left. right. split; [done|]. exists ph. split; [done|]. rewrite HN. apply not_elem_of_nil. }
  destruct (prog_phase i p Hi Hp) as (ph0 & E0 & _ & Hn0).
  assert (nfrom i s ∈ pend_w ph0) as Hin0 by (rewrite Hn0; apply list_elem_of_In, in_map; by apply list_elem_of_In).
  pose proof (fresh_phase i p x l x' ph0 ph2 Hi W M) as HF.
  destruct M as [c|c ph ph' rest d H1 H2|c ph ph' rest f H1 H2|c ph rest H1 H2|c]; cbn in *.
  - rewrite HF in Hd by auto. done.
  - destruct HC as (r & Ht & Hl). cbn in Ht. simplify_eq. left. right. split; [done|]. exists ph.
    split; [by eexists|by rewrite H2].
  - destruct HC as (r & Ht & Hl). cbn in Ht. simplify_eq. destruct (decide (nfrom i s ∈ pend_w ph)) as [Hin|Hni].
    + right. rewrite H1 in Hin. apply elem_of_cons in Hin as [->|?]; done.
    + left. right. split; [done|]. exists ph. split; [by eexists|done].
  - rewrite HF in Hd by auto. done.
  - by destruct HC as (r & Ht & Hl).
Qed.

(** ** The invariant *)

(** Signal [v] in cell [k] was sent by a PE that had got that far. *)
Definition sent (s : sys) (k : key) (v : Z) : Prop :=
  1 <= v /\ exists i p t, idx i /\ (p < n)%nat /\ t ∈ concat (sh p) /\ k = (half v, nto i t, pe i) /\
    notified (pes s (pe i)) v p (nto i t).

Record inv (s : sys) : Prop := {
  iv_wf : forall i, idx i -> wf_todo i (pes s (pe i)) /\ 1 <= counter (pes s (pe i));
  iv_msg : forall k v, (k, v) ∈ net s -> sent s k v /\ cell s k < v;
  iv_uniq : NoDup (map fst (net s));
  iv_cell : forall k, cell s k = 0 \/ sent s k (cell s k);
  iv_sent : forall i p t b, idx i -> (p < n)%nat -> t ∈ concat (sh p) -> 1 <= b ->
    notified (pes s (pe i)) b p (nto i t) ->
    b <= cell s (half b, nto i t, pe i) \/ ((half b, nto i t, pe i), b) ∈ net s;
  iv_wait : forall i p t b, idx i -> (p < n)%nat -> t ∈ concat (sh p) -> 1 <= b ->
    waited (pes s (pe i)) b p (nfrom i t) -> b <= cell s (half b, pe i, nfrom i t);
  iv_know : forall i p d b, idx i -> (p <= n)%nat -> 1 <= b -> past (pes s (pe i)) b p ->
    0 <= d < reach p -> d < size -> entered (pes s (nfrom i d)) b
}.

Lemma notified_le x b p d : notified x b p d -> b <= counter x.
Proof. intros [[?|[? _]]|[? _]]; lia. Qed.

(** The phase and distance of a signal follow from its two ends. *)
Lemma sent_notified s h i t p v : idx i -> (p < n)%nat -> t ∈ concat (sh p) ->
  sent s (h, nto i t, pe i) v -> h = half v /\ 1 <= v /\ notified (pes s (pe i)) v p (nto i t).
Proof.
  intros Hi Hp Ht (Hv & i' & p' & t' & Hi' & Hp' & Ht' & E & HN). injection E as -> E1 E2.
  apply di_inj in E2 as <-; [|done..]. pose proof (di_range _ _ Ht). pose proof (di_range _ _ Ht').
  apply nto_inj in E1 as <-; [|done..]. by rewrite (di_phase p p' t Hp Hp' Ht Ht').
Qed.

Lemma past_lt x b p : b < counter x -> past x b p.
Proof. by left. Qed.

(** Everyone has entered a sync that someone has left. *)
Lemma left_all_entered s i j b : inv s -> idx i -> idx j -> 1 <= b ->
  past (pes s (pe i)) b n -> entered (pes s (pe j)) b.
Proof.
  intros IV Hi Hj Hb HP. pose proof di_size as Hz. pose proof di_cover as Hc.
  pose proof (Z.mod_pos_bound (i - j) size Hz) as Hd.
  assert (nfrom i ((i - j) mod size) = pe j) as <-.
  { unfold nfrom. f_equal. rewrite Zminus_mod_idemp_r. replace (i - (i - j)) with j by lia. by apply Z.mod_small. }
  by apply (iv_know _ IV i n); try lia.
Qed.

(** ** Signals *)
Lemma notify_target i x x' d : idx i -> wf_todo i x -> moves (pe i) x (ANotify d) x' ->
  exists p t ph, (p < n)%nat /\ t ∈ concat (sh p) /\ d = nto i t /\ cur x p ph /\ d ∈ pend_n ph /\
    notified x' (counter x) p d.
Proof.
  intros Hi W M. inversion M as [|c ph ph' rest d' H1 H2| | |]; subst.
  destruct (W _ _ eq_refl) as (p & ph0 & Hl & Hp & Hr & Hn & _ & Hnd).
  assert (p < n)%nat as Hpn by lia. destruct (prog_phase i p Hi Hpn) as (ph1 & E1 & Hn1 & _). simplify_eq.
  assert (d ∈ pend_n ph) as Hd by (rewrite H1; by left).
  pose proof (Hn _ Hd) as Hd0. rewrite Hn1 in Hd0. apply list_elem_of_In, in_map_iff in Hd0 as (t & <- & Ht).
  exists p, t, ph. split_and!; try done; [by apply list_elem_of_In|by eexists|].
  right. split; [done|]. exists ph'. split; [by eexists|]. rewrite H1 in Hnd. by apply NoDup_cons in Hnd as [? _].
Qed.

Lemma half_small a b : half a = half b -> a < b -> a <= b - 2.
Proof. unfold half. intros E Hlt. destruct (decide (a = b - 1)) as [->|]; [|lia]. Z.div_mod_to_equations. lia. Qed.

(** A signal about to be sent meets no other in flight to its cell. *)
Lemma notify_alone s i p t ph v : inv s -> idx i -> (p < n)%nat -> t ∈ concat (sh p) ->
  cur (pes s (pe i)) p ph -> nto i t ∈ pend_n ph ->
  let c := counter (pes s (pe i)) in
  (((half c, nto i t, pe i), v) ∉ net s) /\ cell s (half c, nto i t, pe i) < c.
Proof.
  intros IV Hi Hp Ht HC Hin c. pose proof (iv_wf _ IV i Hi) as [W Hc1]. fold c in Hc1.
  assert (~ notified (pes s (pe i)) c p (nto i t)) as Hnot.
  { destruct HC as (rest & Htd & Hl). intros [[?|(_ & td & E & ?)]|(_ & ph' & (r' & E & _) & Hni)]; [unfold c in *; lia|..];
      rewrite Htd in E; simplify_eq; cbn in *; [lia|done]. }
  assert (forall v', sent s (half c, nto i t, pe i) v' -> v' <= c - 2) as Hold.
  { intros v' HS. destruct (sent_notified _ _ _ _ _ _ Hi Hp Ht HS) as (Hh & Hv & HN).
    pose proof (notified_le _ _ _ _ HN) as Hle. fold c in Hle.
    apply half_small; [done|]. destruct (decide (v' = c)) as [->|]; [done|lia]. }
  split.
  - intros Hm. destruct (iv_msg _ IV _ _ Hm) as [HS Hlt]. pose proof (Hold _ HS) as Hv.
    destruct (sent_notified _ _ _ _ _ _ Hi Hp Ht HS) as (Hh & Hv1 & _).
    set (j := (i + t) mod size). assert (idx j) as Hj by apply nto_idx.
    assert (entered (pes s (pe j)) (c - 1)) as HE.
    { apply (left_all_entered s i); try done; [lia|]. left. fold c. lia. }
    assert (v < counter (pes s (pe j))) by (destruct HE as [?|[? _]]; lia).
    pose proof (iv_wait _ IV j p t v Hj Hp Ht Hv1 ltac:(left; by left)) as HW.
    unfold j in HW. rewrite (nto_nfrom i t Hi) in HW. rewrite Hh in Hlt.
    change (pe ((i + t) mod size)) with (nto i t) in HW. lia.
  - destruct (iv_cell _ IV (half c, nto i t, pe i)) as [->|HS]; [lia|]. pose proof (Hold _ HS). lia.
Qed.

(** ** Every step keeps the invariant *)
Lemma notified_past x v p d b : notified x v p d -> b <= v -> past x b p.
Proof.
  intros HN Hb. destruct (decide (b < counter x)) as [|Hge]; [by left|].
  destruct HN as [[?|(Hv & td & Ht & Hl)]|(Hv & ph & (rest & Ht & Hl) & _)]; [left; lia|..];
    right; (split; [lia|]); eexists; (split; [done|]); cbn; lia.
Qed.

Lemma set_pe_same s w x : set_pe s w x w = x.
Proof. unfold set_pe. by rewrite bool_decide_eq_true_2. Qed.
Lemma set_pe_other s w x w' : w' <> w -> set_pe s w x w' = pes s w'.
Proof. intros. unfold set_pe. by rewrite bool_decide_eq_false_2. Qed.
Lemma set_cell_same s k v : set_cell s k v k = v.
Proof. unfold set_cell. by rewrite bool_decide_eq_true_2. Qed.
Lemma set_cell_other s k v k' : k' <> k -> set_cell s k v k' = cell s k'.
Proof. intros. unfold set_cell. by rewrite bool_decide_eq_false_2. Qed.

Lemma sent_mono s s' k v : (forall w, advances (pes s w) (pes s' w)) -> sent s k v -> sent s' k v.
Proof.
  intros HA (Hv & i & p & t & Hi & Hp & Ht & -> & HN). split; [done|]. exists i, p, t.
  split_and!; try done. by apply HA.
Qed.

Definition moved_net (s : sys) (i : Z) (l : action) : list (key * Z) :=
  match l with
  | ANotify d => ((half (counter (pes s (pe i))), d, pe i), counter (pes s (pe i))) :: net s
  | _ => net s
  end.

Section Move.
Context (s : sys) (i : Z) (l : action) (x' : pe_state).
Context (IV : inv s) (Hi : idx i) (M : moves (pe i) (pes s (pe i)) l x').
Context (HW : forall f, l = AWait f -> counter (pes s (pe i)) <= cell s (half (counter (pes s (pe i))), pe i, f)).
Let c := counter (pes s (pe i)).
Let s' := MkSys (set_pe s (pe i) x') (moved_net s i l) (cell s).

Lemma move_advances w : advances (pes s w) (pes s' w).
Proof.
  cbn. destruct (decide (w = pe i)) as [->|]; [rewrite set_pe_same; by eapply moves_advances|].
  rewrite set_pe_other by done. apply advances_refl.
Qed.

Lemma move_net m : m ∈ net s -> m ∈ net s'.
Proof. intros Hm. cbn. unfold moved_net. destruct l; try done. by right. Qed.

(** The state of a PE after the move: the new one, or as before. *)
Lemma move_pe j : idx j -> (j = i /\ pes s' (pe j) = x') \/ (j <> i /\ pes s' (pe j) = pes s (pe j)).
Proof.
  intros Hj. cbn. destruct (decide (j = i)) as [->|Hne]; [left; by rewrite set_pe_same|].
  right. split; [done|]. apply set_pe_other. intros E. by apply di_inj in E.
Qed.

Lemma move_wf j : idx j -> wf_todo j (pes s' (pe j)) /\ 1 <= counter (pes s' (pe j)).
Proof.
  intros Hj. pose proof (iv_wf _ IV j Hj) as [W Hc]. destruct (move_pe j Hj) as [[-> ->]|[_ ->]]; [|done].
  split; [by eapply moves_wf|]. pose proof (ad_counter _ _ (moves_advances _ _ _ _ M)). lia.
Qed.

Lemma move_msg k v : (k, v) ∈ net s' -> sent s' k v /\ cell s' k < v.
Proof.
  intros Hin. assert ((k, v) ∈ net s \/ exists d, l = ANotify d /\ k = (half c, d, pe i) /\ v = c) as [Hold|(d & El & -> & ->)].
  { cbn in Hin. unfold moved_net in Hin. destruct l; try (by left).
    apply elem_of_cons in Hin as [E|?]; [right|by left]. injection E as -> ->. eauto. }
  - destruct (iv_msg _ IV _ _ Hold) as [HS Hlt]. split; [|done]. by eapply sent_mono; [apply move_advances|].
  - pose proof (iv_wf _ IV i Hi) as [W Hc]. pose proof M as M'. rewrite El in M'.
    destruct (notify_target i _ _ d Hi W M') as (p & t & ph & Hp & Ht & -> & HC & Hin' & HN).
    split; [|exact (proj2 (notify_alone s i p t ph 0 IV Hi Hp Ht HC Hin'))]. split; [done|]. exists i, p, t. split_and!; try done.
    destruct (move_pe i Hi) as [[_ ->]|[? _]]; [|done]. by apply HN.
Qed.

Lemma move_uniq : NoDup (map fst (net s')).
Proof.
  pose proof (iv_uniq _ IV) as HU. cbn. unfold moved_net. destruct l eqn:El; try done.
  cbn. apply NoDup_cons. split; [|done].
  pose proof (iv_wf _ IV i Hi) as [W Hc]. destruct (notify_target i _ _ d Hi W M) as (p & t & ph & Hp & Ht & -> & HC & Hin' & HN).
  intros ((k & v) & E & Hm)%list_elem_of_In%in_map_iff. cbn in E. subst k. apply list_elem_of_In in Hm.
  by apply (notify_alone s i p t ph v IV) in Hm.
Qed.

Lemma move_sent j p t b : idx j -> (p < n)%nat -> t ∈ concat (sh p) -> 1 <= b ->
  notified (pes s' (pe j)) b p (nto j t) ->
  b <= cell s' (half b, nto j t, pe j) \/ ((half b, nto j t, pe j), b) ∈ net s'.
Proof.
  intros Hj Hp Ht Hb HN.
  assert (notified (pes s (pe j)) b p (nto j t) ->
    b <= cell s' (half b, nto j t, pe j) \/ ((half b, nto j t, pe j), b) ∈ net s') as Hold.
  { intros HN'. destruct (iv_sent _ IV j p t b Hj Hp Ht Hb HN') as [?|?]; [by left|right; by apply move_net]. }
  destruct (move_pe j Hj) as [[-> E]|[_ E]]; rewrite E in HN; [|by apply Hold].
  pose proof (iv_wf _ IV i Hi) as [W _].
  destruct (back_notified i _ _ _ b p t Hi W M Hp Ht HN) as [?|(El & -> & _)]; [by apply Hold|].
  right. cbn. unfold moved_net. rewrite El. by left.
Qed.

Lemma move_wait j p t b : idx j -> (p < n)%nat -> t ∈ concat (sh p) -> 1 <= b ->
  waited (pes s' (pe j)) b p (nfrom j t) -> b <= cell s' (half b, pe j, nfrom j t).
Proof.
  intros Hj Hp Ht Hb HN. destruct (move_pe j Hj) as [[-> E]|[_ E]]; rewrite E in HN; [|by eapply (iv_wait _ IV)].
  pose proof (iv_wf _ IV i Hi) as [W _].
  destruct (back_waited i _ _ _ b p t Hi W M Hp Ht HN) as [?|[El ->]]; [by eapply (iv_wait _ IV)|]. by apply HW.
Qed.

(** The end of a phase joins what the PEs waited for know. *)
Lemma sync_knows q ph d : cur (pes s (pe i)) q ph -> pend_w ph = [] -> 0 <= d < reach (S q) -> d < size ->
  entered (pes s (nfrom i d)) c.
Proof.
  intros HC Hw Hd Hs. pose proof (iv_wf _ IV i Hi) as [_ Hc]. fold c in Hc.
  assert (q < n)%nat as Hq by (destruct HC as (r & _ & ?); lia).
  assert (past (pes s (pe i)) c q) as HP.
  { destruct HC as (r & Ht & Hl). right. split; [done|]. eexists. split; [done|]. cbn. lia. }
  destruct (decide (d < reach q)); [by apply (iv_know _ IV i q); try lia|].
  assert (reach q <= d < reach (S q)) as Hr by lia. destruct (di_reach q d Hq Hr Hs) as (t & Ht & Hdt). pose proof (di_range _ _ Ht) as Htr.
  assert (waited (pes s (pe i)) c q (nfrom i t)) as HWt.
  { right. split; [done|]. exists ph. split; [done|]. rewrite Hw. apply not_elem_of_nil. }
  pose proof (iv_wait _ IV i q t c Hi Hq Ht Hc HWt) as Hcell.
  set (j := (i - t) mod size). assert (idx j) as Hj by apply nfrom_idx.
  destruct (iv_cell _ IV (half c, pe i, nfrom i t)) as [E0|HS]; [lia|].
  assert (pe i = nto j t) as Ej by (symmetry; by apply nfrom_nto).
  change (nfrom i t) with (pe j) in HS, Hcell. rewrite Ej in HS, Hcell.
  destruct (sent_notified _ _ _ _ _ _ Hj Hq Ht HS) as (_ & _ & HN).
  replace d with (t + (d - t)) by lia. rewrite <- nfrom_add. fold j.
  apply (iv_know _ IV j q); try done; try lia. by eapply notified_past.
Qed.

Lemma move_know j p d b : idx j -> (p <= n)%nat -> 1 <= b -> past (pes s' (pe j)) b p ->
  0 <= d < reach p -> d < size -> entered (pes s' (nfrom j d)) b.
Proof.
  intros Hj Hp Hb HP Hd Hs. pose proof di_size as Hz.
  destruct (move_pe j Hj) as [[-> E]|[_ E]]; rewrite E in HP;
    [|apply (ad_entered _ _ (move_advances _)); by apply (iv_know _ IV j p)].
  pose proof (iv_wf _ IV i Hi) as [W _].
  destruct (back_past i _ _ _ b p Hi W M Hp HP) as [?|(-> & [[El ->]|(El & q & ph & -> & HC & _ & Hw)])].
  - apply (ad_entered _ _ (move_advances _)). by apply (iv_know _ IV i p).
  - rewrite di_reach0 in Hd. assert (d = 0) as -> by lia.
    assert (nfrom i 0 = pe i) as ->.
    { unfold nfrom. rewrite Z.sub_0_r. f_equal. by apply Z.mod_small. }
    rewrite E. clear E HP. revert El. destruct M; try done. intros _. by right.
  - apply (ad_entered _ _ (move_advances _)). by apply (sync_knows q ph).
Qed.

Lemma move_inv : inv s'.
Proof.
  split; [apply move_wf|apply move_msg|apply move_uniq| |apply move_sent|apply move_wait|apply move_know].
  intros k. destruct (iv_cell _ IV k) as [?|HS]; [by left|right]. by eapply sent_mono; [apply move_advances|].
Qed.
End Move.

Section Delivery.
Context (s : sys) (j : nat) (k : key) (v : Z) (IV : inv s) (Hj : net s !! j = Some (k, v)).
Let s' := MkSys (pes s) (delete j (net s)) (set_cell s k v).

Lemma net_split : net s ≡ₚ (k, v) :: net s'.
Proof. by apply delete_Permutation. Qed.

Lemma delivered_alone k' v' : (k', v') ∈ net s' -> k' <> k.
Proof.
  intros Hin ->. pose proof (iv_uniq _ IV) as HU. rewrite net_split in HU. cbn in HU.
  apply NoDup_cons in HU as [Hni _]. apply Hni, list_elem_of_In, in_map_iff. exists (k, v'). split; [done|].
  by apply list_elem_of_In.
Qed.

Lemma delivered_grows k0 : cell s k0 <= cell s' k0.
Proof.
  destruct (iv_msg _ IV k v) as [_ Hlt]; [by eapply list_elem_of_lookup_2|].
  cbn. destruct (decide (k0 = k)) as [->|]; [rewrite set_cell_same; lia|]. by rewrite set_cell_other.
Qed.

Lemma deliver_inv : inv s'.
Proof.
  pose proof (list_elem_of_lookup_2 _ _ _ Hj) as Hin. destruct (iv_msg _ IV k v Hin) as [HS Hlt].
  split.
  - apply (iv_wf _ IV).
  - intros k' v' Hm. pose proof (delivered_alone _ _ Hm) as Hne.
    destruct (iv_msg _ IV k' v') as [HS' Hlt']; [rewrite net_split; by right|].
    split; [done|]. cbn. by rewrite set_cell_other.
  - pose proof (iv_uniq _ IV) as HU. rewrite net_split in HU. cbn in HU. by apply NoDup_cons in HU as [_ ?].
  - intros k'. cbn. destruct (decide (k' = k)) as [->|]; [right; by rewrite set_cell_same|].
    rewrite set_cell_other by done. apply (iv_cell _ IV).
  - intros i p t b Hi Hp Ht Hb HN. destruct (iv_sent _ IV i p t b Hi Hp Ht Hb HN) as [Hc|Hm].
    + left. etrans; [exact Hc|]. apply delivered_grows.
    + rewrite net_split in Hm. apply elem_of_cons in Hm as [E|?]; [|by right].
      injection E as <- <-. left. cbn. by rewrite set_cell_same.
  - intros i p t b Hi Hp Ht Hb HN. etrans; [by eapply (iv_wait _ IV)|]. apply delivered_grows.
  - apply (iv_know _ IV).
Qed.
End Delivery.

Lemma local_enter x w a l x' : local prog x w a = Some (l, x') -> (l = AEnter <-> exists w, a = Enter w).
Proof.
  unfold local. destruct a as [?|? t|? t|?|?|?]; destruct (todo x) as [[|ph r]|]; try done; intros EL;
    try (destruct (ph !! t) as [[[|d ds] [|f ws]]|]); try case_bool_decide; simplify_eq; split; (by eauto) || by intros [? [=]].
Qed.

(** What an event is. *)
Lemma fire_cases s a s' : fire team prog s a = Some s' ->
  (exists i l x', idx i /\ event_pe a = Some (pe i) /\ moves (pe i) (pes s (pe i)) l x' /\
     (l = AEnter <-> exists w, a = Enter w) /\
     (forall f, l = AWait f -> counter (pes s (pe i)) <= cell s (half (counter (pes s (pe i))), pe i, f)) /\
     s' = MkSys (set_pe s (pe i) x') (moved_net s i l) (cell s)) \/
  (exists j k v, a = Deliver j /\ net s !! j = Some (k, v) /\ s' = MkSys (pes s) (delete j (net s)) (set_cell s k v)).
Proof.
  unfold fire. destruct (event_pe a) as [w|] eqn:Ea.
  - case_bool_decide as Hw; [|done]. apply di_team in Hw as (i & Hi & ->).
    intros ([l x'] & EL & E)%bind_Some. left. exists i, l, x'.
    assert (l = AEnter <-> exists w, a = Enter w) as HE.
    { by apply (local_enter _ _ _ _ _ EL). }
    split_and!; try done; [by eapply local_moves|..]; destruct l; simplify_eq; try done;
      case_bool_decide; simplify_eq; try done. intros f' [= <-]. lia.
  - destruct a; try done. intros ([k v] & EL & E)%bind_Some. right. simplify_eq. by exists i, k, v.
Qed.

Lemma barrier_fire_inv s a s' : inv s -> fire team prog s a = Some s' -> inv s'.
Proof.
  intros IV [(i & l & x' & Hi & _ & M & _ & HW & ->)|(j & k & v & _ & Hj & ->)]%fire_cases.
  - by apply move_inv.
  - by apply deliver_inv.
Qed.

Lemma barrier_init_inv : inv init.
Proof.
  assert (forall b p, 1 <= b -> ~ past (MkPe 1 None) b p) as HP by (intros b p Hb [?|(_ & td & ? & _)]; cbn in *; [lia|done]).
  split; cbn.
  - intros i _. by split.
  - intros k v Hm. by apply elem_of_nil in Hm.
  - apply NoDup_nil_2.
  - by left.
  - intros i p t b _ _ _ Hb [?%HP|(_ & ph & (r & ? & _) & _)]; done.
  - intros i p t b _ _ _ Hb [?%HP|(_ & ph & (r & ? & _) & _)]; done.
  - intros i p d b _ _ Hb ?%HP; done.
Qed.

Lemma barrier_reachable_inv s : reachable team prog s -> inv s.
Proof.
  intros HR. unfold reachable in HR. remember init as s0 eqn:E0. assert (inv s0) as IV by (subst; apply barrier_init_inv).
  clear E0. induction HR as [|s1 s2 s3 [a Ha] _ IH]; [done|]. apply IH. by eapply barrier_fire_inv.
Qed.

(** ** Safety *)
Lemma barrier_safe_idx s i j b : reachable team prog s -> idx i -> idx j -> 1 <= b ->
  left (pes s (pe i)) b -> entered (pes s (pe j)) b.
Proof.
  intros HR%barrier_reachable_inv Hi Hj Hb HL. apply (left_all_entered s i); try done. by left.
Qed.

(** ** Progress *)
Lemma fire_local s i a l x' : idx i -> event_pe a = Some (pe i) -> local prog (pes s (pe i)) (pe i) a = Some (l, x') ->
  (forall f, l = AWait f -> counter (pes s (pe i)) <= cell s (half (counter (pes s (pe i))), pe i, f)) ->
  exists s', fire team prog s a = Some s'.
Proof.
  intros Hi Ea EL HW. unfold fire. rewrite Ea. rewrite bool_decide_eq_true_2 by (apply di_team; eauto).
  rewrite EL. cbn. destruct l; try by eexists. rewrite bool_decide_eq_true_2 by (specialize (HW f eq_refl); lia).
  by eexists.
Qed.

(** An inside PE with nothing to wait for can act. *)
Lemma can_act s i c td : idx i -> pes s (pe i) = MkPe c (Some td) ->
  (exists s', inner team prog s s') \/
  exists ph rest t f ws, td = ph :: rest /\ ph !! t = Some ([], f :: ws) /\ cell s (half c, pe i, f) < c.
Proof.
  intros Hi E. destruct td as [|ph rest].
  { left. destruct (fire_local s i (Leave (pe i)) ALeave (MkPe (c + 1) None)) as [s' HF]; try done; [by rewrite E|].
    exists s', (Leave (pe i)). done. }
  destruct (decide (Forall (fun x => x = done_thread) ph)) as [HD|HD].
  { left. destruct (fire_local s i (Sync (pe i)) ASync (MkPe c (Some rest))) as [s' HF]; try done.
    - rewrite E. cbn. by rewrite bool_decide_eq_true_2.
    - exists s', (Sync (pe i)). done. }
  apply not_Forall_Exists in HD; [|apply _]. apply Exists_exists in HD as ([ds ws] & Hin & Hne).
  apply list_elem_of_lookup in Hin as [t Ht]. destruct ds as [|d ds].
  - destruct ws as [|f ws]; [by destruct Hne|]. destruct (decide (cell s (half c, pe i, f) < c)); [right; eauto 10|].
    left. destruct (fire_local s i (Wait (pe i) t) (AWait f) (MkPe c (Some (<[t := ([], ws)]> ph :: rest)))) as [s' HF]; try done.
    + rewrite E. cbn. by rewrite Ht.
    + intros f' [= <-]. rewrite E. cbn. lia.
    + exists s', (Wait (pe i) t). done.
  - left. destruct (fire_local s i (Notify (pe i) t) (ANotify d) (MkPe c (Some (<[t := (ds, ws)]> ph :: rest)))) as [s' HF]; try done.
    + rewrite E. cbn. by rewrite Ht.
    + exists s', (Notify (pe i) t). done.
Qed.

End Protocol.
End BarrierProtocol.
