(* ===== verification/BarrierProgress.v ===== *)
(** * Device barrier: progress

    Once every PE of the team has entered sync number [b], the protocol cannot
    get stuck before every PE has left it ([barrier_step]), and it cannot run for
    ever: every step but entering a new sync makes [work] smaller. *)
From stdpp Require Import base list relations.
From Stdlib Require Import ZArith Lia.
From S2P Require Import Prelude Barrier BarrierProtocol.
Import Barrier BarrierProtocol.

Module BarrierProgress.

(** ** The work left *)
Definition phase_work (ph : list thread_plan) : nat := 1 + 2 * length (pend_n ph) + length (pend_w ph).
Definition pe_work (x : pe_state) : nat :=
  match todo x with None => 0 | Some td => 1 + sum_list_with phase_work td end.

Section Progress.
Context {size : Z} {n : nat} {pe : Z -> Z} {sh : nat -> list (list Z)} {reach : nat -> Z}.
Context {team : list Z} {prog : Z -> plan} {DI : dissemination size n pe sh reach team prog}.
Local Abbreviation idx := (@idx size).
Local Abbreviation nto := (@nto size pe).
Local Abbreviation nfrom := (@nfrom size pe).
Local Abbreviation moves := (@moves prog).
Local Abbreviation notified := (@notified n).
Local Abbreviation inv := (@inv size n pe sh reach prog).

Definition work (s : sys) : nat :=
  sum_list_with (fun k => pe_work (pes s (pe (Z.of_nat k)))) (seq 0 (Z.to_nat size)) + length (net s).

(** A move of a PE other than entering takes work away, a notification puts one
    unit of it into the network. *)
Lemma moves_work w x l x' : moves w x l x' -> l <> AEnter ->
  (pe_work x' + (if l is ANotify _ then 2 else 1) <= pe_work x)%nat.
Proof.
  destruct 1 as [c|c ph ph' rest d H1 H2|c ph ph' rest f H1 H2|c ph rest H1 H2|c]; intros Hl; try done;
    unfold pe_work; cbn; unfold phase_work; rewrite ?H1, ?H2; cbn; lia.
Qed.

Lemma inner_work s s' : inner team prog s s' -> (work s' < work s)%nat.
Proof.
  intros (a & [(i & l & x' & Hi & Ea & M & HE & HW & ->)|(j & k & v & -> & Hj & ->)]%fire_cases & Hne).
  - assert (l <> AEnter) as Hl by (intros [w ->]%HE; by eapply Hne).
    pose proof (moves_work _ _ _ _ M Hl) as HM. unfold work.
    pose proof (sum_list_upd (fun k => pe_work (pes s (pe (Z.of_nat k))))
      (fun k => pe_work (set_pe s (pe i) x' (pe (Z.of_nat k)))) (seq 0 (Z.to_nat size)) (Z.to_nat i)) as HU.
    cbn in HU |- *. destruct Hi as [Hi1 Hi2]. rewrite !Z2Nat.id, set_pe_same in HU by done.
    specialize (HU (NoDup_seq _ _) ltac:(apply elem_of_seq; lia)).
    ospecialize (HU _).
    { intros k Hk%elem_of_seq Hki. rewrite set_pe_other; [lia|]. intros E. apply di_inj in E; lia. }
    unfold moved_net. destruct l; cbn [length]; lia.
  - unfold work. cbn. rewrite length_delete by (by eexists). apply lookup_lt_Some in Hj. lia.
Qed.

Lemma inner_terminates s : sn (inner team prog) s.
Proof.
  remember (work s) as m eqn:Em. revert s Em. induction (lt_wf m) as [m _ IH]. intros s ->.
  constructor. intros s' HS. eapply IH; [by apply inner_work|done].
Qed.

(** ** No PE is stuck *)
Lemma pend_thread ph d : d ∈ pend_n ph -> exists t d' ds ws, ph !! t = Some (d' :: ds, ws).
Proof.
  unfold pend_n. intros (l & Hd & Hl)%list_elem_of_In%in_concat. apply in_map_iff in Hd as ([ds ws] & <- & Hin).
  apply list_elem_of_In, list_elem_of_lookup in Hin as [t Ht]. cbn in Hl. destruct ds as [|d' ds]; [done|]. eauto.
Qed.

Lemma can_notify s i c ph rest d : idx i -> pes s (pe i) = MkPe c (Some (ph :: rest)) -> d ∈ pend_n ph ->
  exists s', inner team prog s s'.
Proof.
  intros Hi E (t & d' & ds & ws & Ht)%pend_thread.
  destruct (fire_local s i (Notify (pe i) t) (ANotify d') (MkPe c (Some (<[t := (ds, ws)]> ph :: rest)))) as [s' HF]; try done.
  - rewrite E. cbn. by rewrite Ht.
  - exists s', (Notify (pe i) t). done.
Qed.

Lemma can_deliver s : net s <> [] -> exists s', inner team prog s s'.
Proof.
  destruct s as [ps [|[k v] net] ce]; [done|]. intros _. eexists. by exists (Deliver 0).
Qed.

(** The notification a PE waits for is sent, or its sender can act. *)
Lemma sender_acts s j p t c : inv s -> idx j -> (p < n)%nat -> t ∈ concat (sh p) -> 1 <= c ->
  net s = [] -> cell s (half c, nto j t, pe j) < c -> entered (pes s (pe j)) c ->
  (exists s', inner team prog s s') \/
  exists td, pes s (pe j) = MkPe c (Some td) /\ (length td <= n < p + length td)%nat.
Proof.
  intros IV Hj Hp Ht Hc Hnet Hcell HE.
  assert (~ notified (pes s (pe j)) c p (nto j t)) as HN.
  { intros HN. destruct (iv_sent _ IV j p t c Hj Hp Ht Hc HN) as [?|Hm]; [lia|]. rewrite Hnet in Hm. by apply elem_of_nil in Hm. }
  destruct HE as [Hlt|[Hb Htd]]; [destruct HN; left; by left|].
  pose proof (iv_wf _ IV j Hj) as [W _]. destruct (pes s (pe j)) as [c' [td|]] eqn:E; [|done]. cbn in Hb. subst c'.
  assert (length td <= n)%nat as Hle.
  { destruct td as [|ph rest]; [cbn; lia|]. destruct (W _ _ eq_refl) as (q & _ & Hq & _). cbn. lia. }
  destruct (decide (n < p + length td)%nat); [right; eauto|]. left.
  destruct (decide (S p + length td <= n)%nat).
  { destruct HN. left. right. cbn. split; [done|]. by exists td. }
  destruct td as [|ph rest]; [cbn in *; lia|]. cbn in *.
  destruct (decide (nto j t ∈ pend_n ph)) as [Hin|Hni]; [by eapply can_notify|].
  destruct HN. right. split; [done|]. exists ph. split; [|done]. exists rest. cbn. split; [done|lia].
Qed.

Lemma barrier_stuck_step s c : inv s -> (forall j, idx j -> entered (pes s (pe j)) c) -> 1 <= c ->
  forall m i td, idx i -> pes s (pe i) = MkPe c (Some td) -> (n - length td = m)%nat ->
  exists s', inner team prog s s'.
Proof.
  intros IV HE Hc m. induction (lt_wf m) as [m _ IH]. intros i td Hi E Em.
  destruct (can_act s i c td Hi E) as [?|(ph & rest & t & f & ws & -> & Ht & Hcell)]; [done|].
  destruct (decide (net s = [])) as [Hnet|?]; [|by apply can_deliver].
  pose proof (iv_wf _ IV i Hi) as [W _]. destruct (W ph rest) as (p & ph0 & Hp & Hph & Hr & Hn & Hw & _); [by rewrite E|].
  destruct (prog_phase i p Hi ltac:(lia)) as (ph1 & Hph1 & _ & Hw1). assert (ph1 = ph0) as -> by congruence.
  assert (f ∈ pend_w ph) as Hf.
  { apply list_elem_of_In, in_concat. exists (f :: ws). split; [|by left]. apply in_map_iff.
    exists ([], f :: ws). split; [done|]. by apply list_elem_of_In, list_elem_of_lookup_2 with t. }
  apply Hw in Hf. rewrite Hw1 in Hf. apply list_elem_of_In, in_map_iff in Hf as (d & <- & Hd%list_elem_of_In).
  pose proof (di_range _ _ Hd) as Hdr. set (j := (i - d) mod size). assert (idx j) as Hj by apply nfrom_idx.
  change (nfrom i d) with (pe j) in Hcell. replace (pe i) with (nto j d) in Hcell by (by apply nfrom_nto).
  destruct (sender_acts s j p d c IV Hj ltac:(lia) Hd Hc Hnet Hcell (HE j Hj)) as [?|(td & Etd & Hl)]; [done|].
  eapply (IH (n - length td)%nat); [cbn in *; lia|exact Hj|done|done].
Qed.

Lemma barrier_step s b i : inv s -> (forall j, idx j -> entered (pes s (pe j)) b) -> 1 <= b -> idx i ->
  ~ left (pes s (pe i)) b -> exists s', inner team prog s s'.
Proof.
  intros IV HE Hb Hi HL. pose proof (HE i Hi) as [?|[Hc Ht]]; [done|].
  destruct (pes s (pe i)) as [c [td|]] eqn:E; [|done]. cbn in Hc. subst c.
  by eapply barrier_stuck_step.
Qed.

Lemma barrier_inner_keeps s s' b : inv s -> (forall j, idx j -> entered (pes s (pe j)) b) -> inner team prog s s' ->
  inv s' /\ forall j, idx j -> entered (pes s' (pe j)) b.
Proof.
  intros IV HE (a & HF & _). split; [by eapply barrier_fire_inv|]. intros j Hj.
  apply fire_cases in HF as [(i & l & x' & Hi & _ & M & _ & _ & ->)|(q & k & v & _ & _ & ->)]; [|by apply HE].
  exact (ad_entered _ _ (move_advances (n := n) s i l x' M _) b (HE j Hj)).
Qed.

Lemma barrier_done s s' b : reachable team prog s -> 1 <= b -> (forall j, idx j -> entered (pes s (pe j)) b) ->
  rtc (inner team prog) s s' -> nf (inner team prog) s' -> forall i, idx i -> left (pes s' (pe i)) b.
Proof.
  intros HR Hb HE HS HN i Hi. assert (inv s) as IV by (by apply barrier_reachable_inv). clear HR.
  induction HS as [s|s s1 s2 H1 _ IH].
  - destruct (decide (b < counter (pes s (pe i)))) as [?|HL]; [done|]. destruct HN.
    destruct (barrier_step s b i IV HE Hb Hi HL) as [s' ?]. by exists s'.
  - destruct (barrier_inner_keeps s s1 b IV HE H1). by apply IH.
Qed.
End Progress.
End BarrierProgress.
