(* ===== verification/BarrierDissem.v ===== *)
(** * Device barrier: the schedules are dissemination schedules

    The plans of Barrier.v satisfy the interface of BarrierProtocol.v: in phase
    [p] a PE with radix [k] uses the distances [j * k ^ p], [1 <= j < k], and after
    [p] phases it knows the PEs at distances below [k ^ p].  With the protocol's
    theorems this gives the barrier's safety and liveness.  The power-of-two
    routine shifts by the phase number and not by [logk] times it, which is the
    same for radix 2 and for teams no larger than the radix; for a larger team
    PEs leave before all have entered ([pow2_leaves_early]). *)
From stdpp Require Import base list list_numbers relations.
From Stdlib Require Import ZArith Lia.
From S2P Require Import Prelude Recexch Team Barrier BarrierProtocol BarrierProgress.
Import Team Barrier BarrierProtocol BarrierProgress.

Module BarrierDissem.

(** ** The distances of a phase *)
Definition thread_lists (k g N : Z) (shift : Z -> Z) : list (list Z) :=
  map (thread_shifts k g N shift) (seqZ 0 g).

Section Shifts.
Context (k g N : Z) (shift : Z -> Z).
Context (Hg : 1 <= g) (Hmono : forall a b, 0 < a < b -> shift a < shift b).

Lemma shifts_from_sound fuel : forall j s, s ∈ shifts_from fuel k g N shift j ->
  exists m, 0 <= m /\ s = shift (j + m * g) /\ j + m * g <= k - 1 /\ s < N.
Proof.
  induction fuel as [|fuel IH]; intros j s; cbn; [by intros ?%elem_of_nil|].
  case_bool_decide; [|by intros ?%elem_of_nil]. case_bool_decide; [by intros ?%elem_of_nil|].
  intros [->|Hs]%elem_of_cons.
  - exists 0. rewrite Z.mul_0_l, Z.add_0_r. lia.
  - apply IH in Hs as (m & Hm & -> & Hk & HN). exists (m + 1).
    replace (j + (m + 1) * g) with (j + g + m * g) by lia. lia.
Qed.

Lemma shifts_from_complete fuel : forall j m, 0 < j -> 0 <= m -> k - j <= Z.of_nat fuel ->
  j + m * g <= k - 1 -> shift (j + m * g) < N -> shift (j + m * g) ∈ shifts_from fuel k g N shift j.
Proof.
  induction fuel as [|fuel IH]; intros j m Hj Hm Hf Hk HN; cbn; [nia|].
  rewrite bool_decide_eq_true_2 by nia. destruct (decide (m = 0)) as [->|Hm0].
  - rewrite Z.mul_0_l, Z.add_0_r in *. rewrite bool_decide_eq_false_2 by lia. by left.
  - pose proof (Hmono j (j + m * g) ltac:(nia)). rewrite bool_decide_eq_false_2 by lia. right.
    replace (j + m * g) with (j + g + (m - 1) * g) in * by lia. apply IH; lia.
Qed.

Lemma shifts_from_NoDup fuel : forall j, 0 < j -> NoDup (shifts_from fuel k g N shift j).
Proof.
  induction fuel as [|fuel IH]; intros j Hj; cbn; [apply NoDup_nil_2|].
  case_bool_decide; [|apply NoDup_nil_2]. case_bool_decide; [apply NoDup_nil_2|].
  apply NoDup_cons. split; [|apply IH; lia]. intros (m & Hm & E & _)%shifts_from_sound.
  pose proof (Hmono j (j + g + m * g) ltac:(nia)). lia.
Qed.

Lemma concat_map_bind {A B} (f : A -> list B) (l : list A) : concat (map f l) = l ≫= f.
Proof. induction l as [|a l IH]; [done|]. cbn. by rewrite IH. Qed.

Lemma thread_lists_elem s : s ∈ concat (thread_lists k g N shift) <->
  exists j, 1 <= j <= k - 1 /\ s = shift j /\ s < N.
Proof.
  unfold thread_lists. rewrite concat_map_bind, list_elem_of_bind. split.
  - intros (t & Hs & Ht%elem_of_seqZ). apply shifts_from_sound in Hs as (m & Hm & -> & Hk & HN).
    exists (t + 1 + m * g). split; [nia|done].
  - intros (j & Hj & -> & HN). exists ((j - 1) mod g). pose proof (Z.mod_pos_bound (j - 1) g ltac:(lia)) as Hr.
    pose proof (Z.div_mod (j - 1) g ltac:(lia)) as Hd. pose proof (Z.div_pos (j - 1) g ltac:(lia) ltac:(lia)) as Hq.
    assert (j = (j - 1) mod g + 1 + (j - 1) / g * g) as Ej by lia.
    split; [|apply elem_of_seqZ; lia]. unfold thread_shifts. rewrite Ej at 1. apply shifts_from_complete; rewrite <- ?Ej; lia.
Qed.

Lemma shift_inj a b : 0 < a -> 0 < b -> shift a = shift b -> a = b.
Proof.
  intros Ha Hb E. destruct (Z.lt_trichotomy a b) as [Hlt|[?|Hlt]]; [|done|].
  - pose proof (Hmono a b ltac:(lia)). lia.
  - pose proof (Hmono b a ltac:(lia)). lia.
Qed.

Lemma thread_lists_NoDup : NoDup (concat (thread_lists k g N shift)).
Proof.
  unfold thread_lists. rewrite concat_map_bind. apply NoDup_bind; [| |apply NoDup_seqZ].
  - intros t1 t2 s Ht1%elem_of_seqZ Ht2%elem_of_seqZ (m1 & Hm1 & E1 & _)%shifts_from_sound (m2 & Hm2 & E2 & _)%shifts_from_sound.
    rewrite E1 in E2. apply shift_inj in E2; [|nia..].
    destruct (Z.lt_trichotomy m1 m2) as [Hlt|[->|Hlt]]; nia.
  - intros t Ht%elem_of_seqZ. apply shifts_from_NoDup. lia.
Qed.
End Shifts.

(** ** The plan of a phase *)
Lemma neighbours_map f f' l : (forall s, s ∈ l -> f s = Ret (f' s)) -> neighbours f l = Ret (map f' l).
Proof.
  induction l as [|s l IH]; intros Hf; [done|]. cbn. rewrite Hf by (by left). cbn. rewrite IH; [done|].
  intros s' Hs'. apply Hf. by right.
Qed.

Lemma for_threads_map n : forall i f f', (forall t, i <= t < i + Z.of_nat n -> f t = Ret (f' t)) ->
  for_threads n i f = Ret (map f' (seqZ i (Z.of_nat n))).
Proof.
  induction n as [|n IH]; intros i f f' Hf; [done|]. cbn [for_threads].
  rewrite Hf by lia. cbn. rewrite (IH _ _ f') by (intros; apply Hf; lia).
  rewrite (seqZ_cons i) by lia. by replace (Z.pred (Z.of_nat (S n))) with (Z.of_nat n) by lia.
Qed.

Lemma phase_plan_map k g N shift to from to' from' : 1 <= g -> (forall a b, 0 < a < b -> shift a < shift b) ->
  0 < shift 1 -> (forall s, 0 < s < N -> to s = Ret (to' s)) -> (forall s, 0 < s < N -> from s = Ret (from' s)) ->
  phase_plan k g N shift to from = Ret (map (fun l => (map to' l, map from' l)) (thread_lists k g N shift)).
Proof.
  intros Hg Hm H1 Ht Hf. unfold phase_plan, thread_lists.
  erewrite for_threads_map; [rewrite map_map, Z2Nat.id by lia; done|].
  intros t Hti. cbn.
  assert (forall s, s ∈ thread_shifts k g N shift t -> 0 < s < N) as Hs.
  { intros s (m & Hm0 & -> & _ & HN)%shifts_from_sound. split; [|done].
    destruct (decide (t + 1 + m * g = 1)) as [->|]; [done|]. pose proof (Hm 1 (t + 1 + m * g) ltac:(nia)). lia. }
  rewrite (neighbours_map to to') by auto. cbn. by rewrite (neighbours_map from from') by auto.
Qed.

Lemma from_nbr_idx_mod i N s : 0 <= i < N -> 0 < s < N -> from_nbr_idx i N s = (i - s) mod N.
Proof.
  intros Hi Hs. unfold from_nbr_idx. case_bool_decide; [|symmetry; apply Z.mod_small; lia].
  apply (Z.mod_unique_pos _ _ (-1)); lia.
Qed.
Lemma to_nbr_mod i N s : 0 <= i < N -> 0 < s -> Z.rem (i + s) N = (i + s) mod N.
Proof. intros. apply Z.rem_mod_nonneg; lia. Qed.

(** ** The radix-[k] schedule *)
Definition dissem_shifts (k g N : Z) (p : nat) : list (list Z) := thread_lists k g N (fun j => j * k ^ Z.of_nat p).

Section Radix.
Context (k g N : Z) (n : nat) (pe : Z -> Z) (team : list Z) (prog : Z -> plan).
Context (Hg : 1 <= g) (HN : 1 <= N) (Hk : 2 <= k \/ n = 0%nat) (Hcov : N <= k ^ Z.of_nat n).
Context (Hteam : forall w, w ∈ team <-> exists i, 0 <= i < N /\ w = pe i).
Context (Hinj : forall i j, 0 <= i < N -> 0 <= j < N -> pe i = pe j -> i = j).
Context (Hprog : forall i, 0 <= i < N -> prog (pe i) =
  map (fun p => map (fun l => (map (fun s => pe ((i + s) mod N)) l, map (fun s => pe ((i - s) mod N)) l))
    (dissem_shifts k g N p)) (seq 0 n)).

Lemma dissem_shifts_elem p s : 2 <= k -> s ∈ concat (dissem_shifts k g N p) <->
  exists j, 1 <= j <= k - 1 /\ s = j * k ^ Z.of_nat p /\ s < N.
Proof. intros. apply thread_lists_elem; [done|]. intros a b Hab. apply Z.mul_lt_mono_pos_r; [|lia]. apply Z.pow_pos_nonneg; lia. Qed.

Lemma dissem_shifts_range p s : s ∈ concat (dissem_shifts k g N p) -> 2 <= k /\ 0 < s < N.
Proof.
  intros Hs. destruct (decide (2 <= k)) as [Hk2|Hk2].
  - apply dissem_shifts_elem in Hs as (j & Hj & -> & HsN); [|done]. split; [done|].
    pose proof (Z.pow_pos_nonneg k (Z.of_nat p)). nia.
  - unfold dissem_shifts, thread_lists in Hs. rewrite concat_map_bind in Hs.
    apply list_elem_of_bind in Hs as (t & Hs & Ht%elem_of_seqZ). apply shifts_from_sound in Hs as (m & Hm & _ & ? & _). pose proof (Z.mul_nonneg_nonneg m g). lia.
Qed.

(** A distance is used in one phase only. *)
Lemma dissem_phase_lt p q j j' : 2 <= k -> 1 <= j <= k - 1 -> 1 <= j' -> (p < q)%nat ->
  j * k ^ Z.of_nat p <> j' * k ^ Z.of_nat q.
Proof.
  intros Hk2 Hj Hj' Hpq E. replace (Z.of_nat q) with (Z.of_nat p + Z.of_nat (q - p)) in E by lia.
  rewrite Z.pow_add_r in E by lia. pose proof (Z.pow_pos_nonneg k (Z.of_nat p)) as H0.
  assert (k ^ 1 <= k ^ Z.of_nat (q - p)) as H1 by (apply Z.pow_le_mono_r; lia). rewrite Z.pow_1_r in H1.
  rewrite (Z.mul_comm (k ^ _)), Z.mul_assoc in E. apply Z.mul_cancel_r in E; [|lia]. nia.
Qed.

(** Digit [p] of a distance known after phase [p] is the distance of the PE that told it. *)
Lemma dissem_reach p d : 2 <= k -> k ^ Z.of_nat p <= d < k ^ Z.of_nat (S p) -> d < N ->
  exists s, s ∈ concat (dissem_shifts k g N p) /\ 0 <= d - s < k ^ Z.of_nat p.
Proof.
  intros Hk2 Hd HdN. rewrite Nat2Z.inj_succ, Z.pow_succ_r in Hd by lia.
  set (K := k ^ Z.of_nat p) in *. assert (0 < K) as HK by (apply Z.pow_pos_nonneg; lia).
  pose proof (Z.div_mod d K ltac:(lia)) as HD. pose proof (Z.mod_pos_bound d K HK) as HR.
  exists (d / K * K). split; [|lia]. apply dissem_shifts_elem; [done|]. exists (d / K).
  split_and!; [nia|nia|done|nia].
Qed.

Lemma radix_dissemination : dissemination N n pe (dissem_shifts k g N) (fun p => k ^ Z.of_nat p) team prog.
Proof.
  split; try done; [lia|..].
  - intros p s Hs. apply (dissem_shifts_range _ _ Hs).
  - intros p Hp. apply thread_lists_NoDup; [done|]. intros a b Hab. apply Z.mul_lt_mono_pos_r; [|lia].
    apply Z.pow_pos_nonneg; lia.
  - intros p q s Hp Hq Hs Hs'. pose proof (dissem_shifts_range _ _ Hs) as [Hk2 _].
    apply dissem_shifts_elem in Hs as (j & Hj & -> & _); [|done].
    apply dissem_shifts_elem in Hs' as (j' & Hj' & E & _); [|done].
    destruct (Nat.lt_trichotomy p q) as [Hlt|[?|Hlt]]; [|done|].
    + destruct (dissem_phase_lt p q j j'); try done; lia.
    + destruct (dissem_phase_lt q p j' j); try done; lia.
  - intros p d Hp Hd HdN. apply dissem_reach; [lia|done|done].
  - intros p Hp. apply Z.pow_le_mono_r; lia.
Qed.
End Radix.
(** ** The phases the code computes *)
Lemma num_phases_0 fuel k : num_phases fuel k 0 = Ret O.
Proof. by destruct fuel. Qed.

Lemma num_phases_spec k fuel : 2 <= k -> forall temp, 0 <= temp <= Z.of_nat fuel ->
  exists n, num_phases fuel k temp = Ret n /\ temp < k ^ Z.of_nat n /\ (temp < k -> (n <= 1)%nat).
Proof.
  intros Hk. induction fuel as [|fuel IH]; intros temp Ht; cbn [num_phases].
  - assert (temp = 0) as -> by lia. exists 0%nat. split_and!; [done|lia|lia].
  - case_bool_decide as H0; [exists 0%nat; split_and!; [done|lia|lia]|]. rewrite bool_decide_eq_false_2 by lia.
    rewrite Z.quot_div_nonneg by lia. pose proof (Z.div_lt temp k ltac:(lia) ltac:(lia)) as Hd.
    pose proof (Z.div_pos temp k ltac:(lia) ltac:(lia)) as Hp.
    destruct (IH (temp / k) ltac:(lia)) as (n & E & Hn & _). exists (S n). rewrite E. split; [done|].
    rewrite Nat2Z.inj_succ, Z.pow_succ_r by lia. split.
    + pose proof (Z.div_mod temp k ltac:(lia)). pose proof (Z.mod_pos_bound temp k ltac:(lia)).
      pose proof (Z.mul_le_mono_nonneg_l (temp / k + 1) (k ^ Z.of_nat n) k ltac:(lia) ltac:(lia)) as HM.
      rewrite Z.mul_add_distr_l in HM. lia.
    + intros Hlt. rewrite Z.div_small in E by lia. rewrite num_phases_0 in E. injection E. lia.
Qed.

Definition phase_of (N : Z) (pe : Z -> Z) (i : Z) (ls : list (list Z)) : list thread_plan :=
  map (fun l => (map (fun s => pe ((i + s) mod N)) l, map (fun s => pe ((i - s) mod N)) l)) ls.

Section Plans.
Context (g N i : Z) (pe : Z -> Z) (Hg : 1 <= g) (Hi : 0 <= i < N).
Context (to from : Z -> outcome Z).
Context (Hto : forall s, 0 < s < N -> to s = Ret (pe ((i + s) mod N))).
Context (Hfrom : forall s, 0 < s < N -> from s = Ret (pe ((i - s) mod N))).

Lemma dissem_phases_spec k n : 2 <= k -> forall p, dissem_phases n k g N (k ^ Z.of_nat p) to from =
  Ret (map (fun p => phase_of N pe i (dissem_shifts k g N p)) (seq p n)).
Proof.
  intros Hk. induction n as [|n IH]; intros p; [done|]. cbn [dissem_phases].
  pose proof (Z.pow_pos_nonneg k (Z.of_nat p) ltac:(lia) ltac:(lia)) as HP.
  erewrite phase_plan_map; [|done| |lia|exact Hto|exact Hfrom]; [|intros; nia]. cbn [mbind outcome_bind].
  replace (k ^ Z.of_nat p * k) with (k ^ Z.of_nat (S p)) by (rewrite Nat2Z.inj_succ, Z.pow_succ_r; lia).
  by rewrite IH.
Qed.
End Plans.

Lemma pow2_phases_spec k logk g t pe n fuel : 1 <= g -> 1 <= logk ->
  (forall s, 0 < s < size t -> nvshmemi_team_translate_pe_to_team_world_wrap t (my_pe t + s) = Ret (pe ((my_pe t + s) mod size t))) ->
  (forall s, 0 < s < size t -> nvshmemi_team_translate_pe_to_team_world_wrap t (from_nbr_idx (my_pe t) (size t) s)
     = Ret (pe ((my_pe t - s) mod size t))) ->
  forall temp p, 0 <= temp -> num_phases fuel (2 ^ logk) temp = Ret n ->
  pow2_phases fuel k logk g t (Z.of_nat p) temp =
  Ret (map (fun p => phase_of (size t) pe (my_pe t) (thread_lists k g (size t) (fun j => Z.shiftl j (Z.of_nat p)))) (seq p n)).
Proof.
  intros Hg Hl Hto Hfrom. revert n. induction fuel as [|fuel IH]; intros n temp p Ht E; cbn [pow2_phases num_phases] in *.
  - case_bool_decide; [by simplify_eq|]. by case_bool_decide.
  - case_bool_decide; [by simplify_eq|]. case_bool_decide; [done|].
    apply outcome_bind_inv in E as (m & E & [= <-]).
    rewrite (phase_plan_map _ _ _ _ _ _ (fun s => pe ((my_pe t + s) mod size t)) (fun s => pe ((my_pe t - s) mod size t)));
      try done; [| |]; cbn [mbind outcome_bind].
    + rewrite Z.quot_div_nonneg in E by lia. rewrite Z.shiftr_div_pow2 by lia.
      replace (Z.of_nat p + 1) with (Z.of_nat (S p)) by lia. rewrite (IH m); [done| |done]. apply Z.div_pos; lia.
    + intros a b Hab. rewrite !Z.shiftl_mul_pow2 by lia. apply Z.mul_lt_mono_pos_r; lia.
    + rewrite Z.shiftl_mul_pow2 by lia. lia.
Qed.

(** ** A team seen from each of its PEs *)

(** [view w] is the team's record on PE [w]; [ms] the members in order. *)
Record same_team (npes : Z) (ms : list Z) (view : Z -> team) : Prop := {
  sm_npes : 0 <= npes;
  sm_some : ms <> [];
  sm_wf : forall w, w ∈ ms -> team_wf npes (view w);
  sm_members : forall w, w ∈ ms -> members (view w) = ms;
  sm_me : forall i w, ms !! i = Some w -> my_pe (view w) = Z.of_nat i;
  sm_p2p : forall w w', w ∈ ms -> w' ∈ ms -> are_gpus_p2p_connected (view w) = are_gpus_p2p_connected (view w');
  sm_stride : forall i w w', w' ∈ ms -> ms !! i = Some w -> stride (view w') > 0 ->
    w = start (view w') + Z.of_nat i * stride (view w')
}.

(** Radices for which the schedule is right: a power-of-two routine other than
    radix 2 only for teams that need one phase, the division routines from
    radix 2 on. *)
Definition sched_ok (kval : Z) (block : bool) (t : team) : Prop :=
  let k := sync_radix kval block t in
  (k ∈ [4; 8; 16; 32] -> size t <= k) /\ (k ∉ [2; 4; 8; 16; 32] -> size t = 1 \/ 2 <= kval).

(** The program of PE [w]. *)
Definition sync_plan (kval g : Z) (block : bool) (view : Z -> team) (w : Z) : plan :=
  match nvshmemi_sync_algo_threadgroup kval g w block (view w) with Ret p => p | Fail _ => [] end.

Lemma thread_lists_ext k g N f f' : (forall j, f j = f' j) -> thread_lists k g N f = thread_lists k g N f'.
Proof.
  intros Hf. apply map_ext. intros t. unfold thread_shifts. generalize (t + 1) as j. induction (Z.to_nat k) as [|fuel IH]; intros j; [done|].
  cbn. rewrite Hf, IH. done.
Qed.

(** The power-of-two radices, and which routine runs. *)
Lemma radix_log2 k : k ∈ [2; 4; 8; 16; 32] -> k = 2 ^ Z.log2 k /\ 1 <= Z.log2 k.
Proof. rewrite !elem_of_cons, elem_of_nil. intros [->|[->|[->|[->|[->|[]]]]]]; cbn; lia. Qed.
Lemma algo_cases kval g w block t k : sync_radix kval block t = k -> nvshmemi_sync_algo_threadgroup kval g w block t =
  if bool_decide (k ∈ [2; 4; 8; 16; 32]) then sync_dissem_pow2_threadgroup k (Z.log2 k) g t
  else sync_dissem_threadgroup kval g w t.
Proof.
  intros E. unfold nvshmemi_sync_algo_threadgroup. rewrite E. cbn zeta.
  destruct (bool_decide_reflect (k ∈ [2; 4; 8; 16; 32])) as [Hk|Hk].
  - rewrite !elem_of_cons, elem_of_nil in Hk. by destruct Hk as [->|[->|[->|[->|[->|[]]]]]].
  - rewrite !not_elem_of_cons in Hk. destruct Hk as (?&?&?&?&?&_). by rewrite !bool_decide_eq_false_2.
Qed.

Section Views.
Context (npes : Z) (ms : list Z) (view : Z -> team) (ST : same_team npes ms view).
Context (kval g : Z) (block : bool) (Hg : 1 <= g).
Let N := Z.of_nat (length ms).
Definition nth_pe (i : Z) : Z := default 0 (ms !! Z.to_nat i).

Lemma view_first : exists w, ms !! 0%nat = Some w.
Proof.
  destruct (ms !! 0%nat) as [w|] eqn:E; [by exists w|]. destruct (sm_some _ _ _ ST).
  apply lookup_ge_None in E. apply nil_length_inv. lia.
Qed.

Lemma view_size w : w ∈ ms -> size (view w) = N.
Proof.
  intros Hw. rewrite <- (length_members npes) by (by apply (sm_wf _ _ _ ST) || apply (sm_npes _ _ _ ST)).
  by rewrite (sm_members _ _ _ ST).
Qed.

Lemma view_pe w j : w ∈ ms -> 0 <= j < N -> arr_get (pe_mapping (view w)) j = Ret (nth_pe j).
Proof.
  intros Hw Hj. pose proof (sm_wf _ _ _ ST w Hw) as W. pose proof (view_size w Hw) as HS.
  destruct (wf_fwd _ _ W j ltac:(lia)) as (x & _ & E & _). rewrite (at_arr_get _ _ _ E). f_equal.
  apply (members_lookup npes) in E; [|done|lia]. rewrite (sm_members _ _ _ ST) in E by done. unfold nth_pe. by rewrite E.
Qed.

Lemma nth_pe_at i w : ms !! i = Some w -> nth_pe (Z.of_nat i) = w.
Proof. intros E. unfold nth_pe. by rewrite Nat2Z.id, E. Qed.

Lemma view_wrap w x : w ∈ ms -> 0 <= x ->
  nvshmemi_team_translate_pe_to_team_world_wrap (view w) x = Ret (nth_pe (x mod N)).
Proof.
  intros Hw Hx. unfold nvshmemi_team_translate_pe_to_team_world_wrap. rewrite view_size by done.
  assert (0 < N) by (destruct ms; [by apply elem_of_nil in Hw|cbn in *; lia]).
  rewrite bool_decide_eq_false_2 by lia. rewrite Z.rem_mod_nonneg by lia. apply view_pe; [done|]. apply Z.mod_pos_bound. lia.
Qed.

Definition radix_plan (k : Z) (n : nat) (i : nat) : plan :=
  map (fun p => phase_of N nth_pe (Z.of_nat i) (dissem_shifts k g N p)) (seq 0 n).

Lemma pow2_plan k logk n i w : k = 2 ^ logk -> 1 <= logk -> logk = 1 \/ (n <= 1)%nat -> ms !! i = Some w ->
  num_phases (Z.to_nat N) k (N - 1) = Ret n ->
  sync_dissem_pow2_threadgroup k logk g (view w) = Ret (radix_plan k n i).
Proof.
  intros -> Hl Hc Hi E. pose proof (list_elem_of_lookup_2 _ _ _ Hi) as Hw. pose proof (lookup_lt_Some _ _ _ Hi) as Hlt.
  pose proof (view_size w Hw) as HS. pose proof (sm_me _ _ _ ST i w Hi) as Hme.
  unfold sync_dissem_pow2_threadgroup, radix_plan. change 0 with (Z.of_nat 0) at 1. rewrite HS.
  rewrite (pow2_phases_spec _ _ _ _ nth_pe n); rewrite ?HS, ?Hme; try done; try lia.
  - f_equal. apply map_ext_in. intros p Hp%in_seq. unfold dissem_shifts. f_equal. apply thread_lists_ext. intros j.
    rewrite Z.shiftl_mul_pow2 by lia. destruct Hc as [->|Hn]; [done|]. by assert (p = 0%nat) as -> by lia.
  - intros s Hs. apply view_wrap; [done|lia].
  - intros s Hs. rewrite from_nbr_idx_mod by lia. rewrite view_wrap by (done || apply Z.mod_pos_bound; lia).
    by rewrite Z.mod_mod by lia.
Qed.

(** The arithmetic of a strided team is its map. *)
Lemma view_stride w j : w ∈ ms -> stride (view w) > 0 -> 0 <= j < N -> start (view w) + j * stride (view w) = nth_pe j.
Proof.
  intros Hw Hst Hj. destruct (lookup_lt_is_Some_2 ms (Z.to_nat j)) as [x E]; [lia|].
  rewrite <- (Z2Nat.id j) by lia. rewrite (nth_pe_at _ _ E). symmetry. by apply (sm_stride _ _ _ ST).
Qed.
Lemma view_my i w : ms !! i = Some w -> stride (view w) > 0 ->
  Z.quot (w - start (view w)) (stride (view w)) = Z.of_nat i.
Proof.
  intros Hi Hst. pose proof (list_elem_of_lookup_2 _ _ _ Hi) as Hw. pose proof (sm_stride _ _ _ ST i w w Hw Hi Hst) as E.
  replace (w - start (view w)) with (Z.of_nat i * stride (view w)) by lia. apply Z.quot_mul. lia.
Qed.

Lemma division_plan k n i w : k = Z.min kval N -> 2 <= k \/ n = 0%nat -> ms !! i = Some w ->
  num_phases (Z.to_nat N) k (N - 1) = Ret n ->
  sync_dissem_threadgroup kval g w (view w) = Ret (radix_plan k n i).
Proof.
  intros Hk Hc Hi E. pose proof (list_elem_of_lookup_2 _ _ _ Hi) as Hw. pose proof (lookup_lt_Some _ _ _ Hi) as Hlt.
  pose proof (view_size w Hw) as HS. pose proof (sm_me _ _ _ ST i w Hi) as Hme.
  assert (forall to from, (forall s, 0 < s < N -> to s = Ret (nth_pe ((Z.of_nat i + s) mod N))) ->
    (forall s, 0 < s < N -> from s = Ret (nth_pe ((Z.of_nat i - s) mod N))) ->
    dissem_phases n k g N 1 to from = Ret (radix_plan k n i)) as HD.
  { intros to from Hto Hfrom. destruct Hc as [Hk2| ->]; [|done].
    change 1 with (k ^ Z.of_nat 0). by apply dissem_phases_spec; try lia. }
  unfold sync_dissem_threadgroup, sync_dissem_threadgroup_2, sync_dissem_threadgroup_non_strided.
  rewrite HS, Hme, <- Hk, E. cbn [mbind outcome_bind]. case_bool_decide as Hst; apply HD; intros s Hs.
  - rewrite (view_my i), to_nbr_mod, view_stride by (done || lia || apply Z.mod_pos_bound; lia). done.
  - rewrite (view_my i), from_nbr_idx_mod, view_stride by (done || lia || apply Z.mod_pos_bound; lia). done.
  - rewrite to_nbr_mod by lia. apply view_pe; [done|]. apply Z.mod_pos_bound. lia.
  - rewrite from_nbr_idx_mod by lia. apply view_pe; [done|]. apply Z.mod_pos_bound. lia.
Qed.

Lemma view_phases k : 1 <= N -> 2 <= k -> exists n, num_phases (Z.to_nat N) k (N - 1) = Ret n /\
  N <= k ^ Z.of_nat n /\ (N <= k -> (n <= 1)%nat).
Proof.
  intros HN Hk. destruct (num_phases_spec k (Z.to_nat N) Hk (N - 1) ltac:(lia)) as (n & E & Hn & H1).
  exists n. split; [done|]. split; [lia|]. intros. apply H1. lia.
Qed.

(** Every PE's plan is the radix-[k] schedule, with one [k] and one number of
    phases for the whole team. *)
Lemma algo_plan : (forall w, w ∈ ms -> sched_ok kval block (view w)) -> exists k n,
  (2 <= k \/ n = 0%nat) /\ N <= k ^ Z.of_nat n /\
  forall i w, ms !! i = Some w -> nvshmemi_sync_algo_threadgroup kval g w block (view w) = Ret (radix_plan k n i).
Proof.
  intros HS. destruct view_first as [w0 E0].
  pose proof (list_elem_of_lookup_2 _ _ _ E0) as Hw0. pose proof (view_size w0 Hw0) as HN.
  assert (1 <= N) as HN1 by (apply lookup_lt_Some in E0; lia).
  assert (forall i w, ms !! i = Some w -> sync_radix kval block (view w) = sync_radix kval block (view w0)) as Hr.
  { intros i w Hw%list_elem_of_lookup_2. unfold sync_radix. by rewrite (view_size w Hw), HN, (sm_p2p _ _ _ ST w w0 Hw Hw0). }
  pose proof (HS w0 Hw0) as [H4 Hd]. rewrite HN in H4, Hd. set (k := sync_radix kval block (view w0)) in *.
  destruct (decide (k ∈ [2; 4; 8; 16; 32])) as [Hin|Hni].
  - destruct (radix_log2 k Hin) as [Ek Hl]. pose proof (Z.pow_le_mono_r 2 1 (Z.log2 k) ltac:(lia) Hl) as Hk2. rewrite <- Ek in Hk2.
    destruct (view_phases k HN1 Hk2) as (n & En & Hcov & H1). exists k, n. split_and!; [left; lia|done|].
    intros i w Hi. rewrite (algo_cases _ _ _ _ _ _ (Hr i w Hi)), bool_decide_eq_true_2 by done. apply pow2_plan; try done.
    apply elem_of_cons in Hin as [->|Hin]; [by left|]. right. by apply H1, H4.
  - assert (exists n, num_phases (Z.to_nat N) (Z.min kval N) (N - 1) = Ret n /\ N <= Z.min kval N ^ Z.of_nat n /\
      (2 <= Z.min kval N \/ n = 0%nat)) as (n & En & Hcov & Hc).
    { destruct (decide (N = 1)) as [E1|]; [exists 0%nat; rewrite E1, num_phases_0; split_and!; [done|lia|by right]|].
      destruct (Hd Hni) as [?|Hkv]; [done|].
      destruct (view_phases (Z.min kval N) HN1 ltac:(lia)) as (m & En & Hcov & _). exists m. split_and!; try done. left. lia. }
    exists (Z.min kval N), n. split_and!; try done. intros i w Hi.
    rewrite (algo_cases _ _ _ _ _ _ (Hr i w Hi)), bool_decide_eq_false_2 by done. by apply division_plan.
Qed.

(** The plans of a team are a dissemination schedule. *)
Lemma algo_dissemination : (forall w, w ∈ ms -> sched_ok kval block (view w)) -> exists k n,
  dissemination N n nth_pe (dissem_shifts k g N) (fun p => k ^ Z.of_nat p) ms (sync_plan kval g block view).
Proof.
  intros (k & n & Hk & Hcov & HP)%algo_plan. exists k, n.
  assert (forall i, 0 <= i < N -> exists w, ms !! Z.to_nat i = Some w /\ nth_pe i = w) as Hat.
  { intros i Hi. destruct (lookup_lt_is_Some_2 ms (Z.to_nat i)) as [w E]; [lia|]. exists w. split; [done|].
    unfold nth_pe. by rewrite E. }
  assert (NoDup ms) as HND.
  { destruct view_first as [w Hw%list_elem_of_lookup_2]. rewrite <- (sm_members _ _ _ ST w Hw).
    apply (members_NoDup npes); [by apply (sm_wf _ _ _ ST)|apply (sm_npes _ _ _ ST)]. }
  apply radix_dissemination; try done.
  - destruct view_first as [w Hw%lookup_lt_Some]. lia.
  - intros w. split.
    + intros [i Hi]%list_elem_of_lookup. exists (Z.of_nat i). pose proof (lookup_lt_Some _ _ _ Hi).
      split; [lia|]. symmetry. by apply nth_pe_at.
    + intros (i & Hi & ->). destruct (Hat i Hi) as (w & E & ->). by eapply list_elem_of_lookup_2.
  - intros i j Hi Hj E. destruct (Hat i Hi) as (w & Ei & Hw). destruct (Hat j Hj) as (w' & Ej & Hw').
    rewrite Hw, Hw' in E. subst w'. pose proof (NoDup_lookup _ _ _ _ HND Ei Ej). lia.
  - intros i Hi. destruct (Hat i Hi) as (w & E & ->). unfold sync_plan. rewrite (HP _ _ E). unfold radix_plan, phase_of.
    by rewrite Z2Nat.id by lia.
Qed.
End Views.

(** ** The barrier is safe and live *)
Lemma default_sched_ok block t : 1 <= size t -> sched_ok 2 block t.
Proof.
  intros HS. unfold sched_ok, sync_radix. destruct (are_gpus_p2p_connected t && block); [split; [lia|by right]|].
  split; [|by right]. replace (Z.max (Z.min 2 (size t)) 2) with 2 by lia. rewrite !elem_of_cons, elem_of_nil. lia.
Qed.

(** C2: when the radix suits the team ([sched_ok]; the default radix 2 always
    does), every PE of a well-formed team gets a plan, and in every state the plans reach, with
    any interleaving and any delivery order, a PE leaves sync number [b] only after
    every PE of the team has entered it. *)
Theorem barrier_safe npes ms view kval g block : same_team npes ms view -> 1 <= g ->
  (forall w, w ∈ ms -> sched_ok kval block (view w)) ->
  (forall w, w ∈ ms -> exists p, nvshmemi_sync_algo_threadgroup kval g w block (view w) = Ret p) /\
  forall s w w' b, reachable ms (sync_plan kval g block view) s -> w ∈ ms -> w' ∈ ms -> 1 <= b ->
    left (pes s w) b -> entered (pes s w') b.
Proof.
  intros ST Hg HS. split.
  - destruct (algo_plan npes ms view ST kval g block Hg HS) as (k & n & _ & _ & HP).
    intros w [i Hi]%list_elem_of_lookup. by eexists; apply (HP i).
  - destruct (algo_dissemination npes ms view ST kval g block Hg HS) as (k & n & DI).
    intros s w w' b HR (i & Hi & ->)%di_team (j & Hj & ->)%di_team Hb HL. by apply (barrier_safe_idx s i j).
Qed.

(** C23: when the radix suits the team ([sched_ok]; the default radix 2 always
    does, while with NVSHMEM_BARRIER_TG_DISSEM_KVAL=1 a sync can hang,
    [radix_one_spins]), once every PE of a well-formed team has entered sync
    number [b], the steps that are not entries cannot go on for ever, and when none is possible any more every
    PE has left sync [b]: the barrier does not deadlock. *)
Theorem barrier_live npes ms view kval g block s b : same_team npes ms view -> 1 <= g ->
  (forall w, w ∈ ms -> sched_ok kval block (view w)) ->
  reachable ms (sync_plan kval g block view) s -> 1 <= b -> (forall w, w ∈ ms -> entered (pes s w) b) ->
  let R := inner ms (sync_plan kval g block view) in
  sn R s /\ forall s', rtc R s s' -> nf R s' -> forall w, w ∈ ms -> left (pes s' w) b.
Proof.
  intros ST Hg HS HR Hb HE R. destruct (algo_dissemination npes ms view ST kval g block Hg HS) as (k & n & DI).
  split; [apply inner_terminates|]. intros s' Hs' HN w (i & Hi & ->)%di_team.
  apply (barrier_done s s' b); try done. intros j Hj. apply HE, di_team. by exists j.
Qed.

(** ** A strided team of three *)
Definition odd3 : list Z := [1; 3; 5].
Definition odd3_view (w : Z) : team :=
  set_pe_mapping [1; 3; 5; -1; 0; -1; 1; -1; 2] (set_geometry ((w - 1) / 2) 1 2 3 (new_team 3 6)).
Lemma odd3_same : same_team 6 odd3 odd3_view.
Proof.
  assert (forall w, odd3_view w = set_geometry ((w - 1) / 2) 1 2 3 (odd3_view 1)) as HV by done.
  split; try done; try (intros w _; rewrite HV; try (by apply team_wfb_sound); done).
  - by intros [|[|[|i]]] w [= <-].
  - intros [|[|[|i]]] w w' _ [= <-]; done.
Qed.
Definition all3 (f : Z -> list event) : list event := flat_map f odd3.
Definition two_phases (w : Z) : list event := [Notify w 0; Deliver 0].
Definition sync3 : list event :=
  all3 (fun w => [Enter w]) ++ all3 two_phases ++ all3 (fun w => [Wait w 0; Sync w]) ++ all3 two_phases ++
  [Wait 1 0; Sync 1; Leave 1].
Definition sys_of (ms : list Z) (prog : Z -> plan) (l : list event) : sys := default init (run ms prog l init).
Lemma runs_is_Some {A} (o : option A) : (if o is Some _ then true else false) = true -> is_Some o.
Proof. destruct o; [by eexists|done]. Qed.
Lemma sys_of_reachable ms prog l : is_Some (run ms prog l init) -> reachable ms prog (sys_of ms prog l).
Proof. intros [s E]. unfold sys_of. rewrite E. by apply (barrier_run_reachable _ _ l init); [apply rtc_refl|]. Qed.
Lemma odd3_sched w : w ∈ odd3 -> sched_ok 2 false (odd3_view w).
Proof. intros _. apply default_sched_ok. by cbn. Qed.
Lemma sync3_runs : is_Some (run odd3 (sync_plan 2 1 false odd3_view) sync3 init).
Proof. apply runs_is_Some. by vm_compute. Qed.

Lemma barrier_safe_witness : let s := sys_of odd3 (sync_plan 2 1 false odd3_view) sync3 in
  left (pes s 1) 1 /\ entered (pes s 5) 1.
Proof.
  assert (left (pes (sys_of odd3 (sync_plan 2 1 false odd3_view) sync3) 1) 1) as HL by (by vm_compute).
  split; [exact HL|].
  exact (proj2 (barrier_safe 6 odd3 odd3_view 2 1 false odd3_same ltac:(done) odd3_sched) _ 1 5 1
    (sys_of_reachable _ _ _ sync3_runs) ltac:(by left) ltac:(by right; right; left) ltac:(done) HL).
Defined.

Lemma barrier_live_witness : let s := sys_of odd3 (sync_plan 2 1 false odd3_view) (all3 (fun w => [Enter w])) in
  let R := inner odd3 (sync_plan 2 1 false odd3_view) in
  sn R s /\ forall s', rtc R s s' -> nf R s' -> forall w, w ∈ odd3 -> left (pes s' w) 1.
Proof.
  apply (barrier_live 6 odd3 odd3_view 2 1 false); [exact odd3_same|done|exact odd3_sched| |done|].
  - apply sys_of_reachable, runs_is_Some. by vm_compute.
  - apply Forall_forall, Forall_cons; split; [by right|]. apply Forall_cons; split; [by right|]. by apply Forall_singleton; right.
Defined.

(** ** The power-of-two routine with more than one phase *)
Definition all11 : list Z := seqZ 0 11.
Definition world11_view (w : Z) : team := set_pe_mapping (all11 ++ all11) (set_geometry w 0 1 11 (new_team 11 11)).
Definition early11 : list event :=
  let notify w := [Notify w 0; Deliver 0; Notify w 0; Deliver 0; Notify w 0; Deliver 0] in
  let wait w := [Wait w 0; Wait w 0; Wait w 0; Sync w] in
  flat_map (fun w => Enter w :: notify w) [2; 3; 4; 5; 6; 7; 8; 9; 10; 0] ++
  flat_map (fun w => wait w ++ notify w) [7; 5; 0] ++ wait 0 ++ [Leave 0].

Lemma world11_same : same_team 11 all11 world11_view.
Proof.
  assert (forall w, world11_view w = set_geometry w 0 1 11 (world11_view 0)) as HV by done.
  split; try done; try (intros w _; rewrite HV; try (by apply team_wfb_sound); done).
  - intros i w Hi. apply lookup_seqZ in Hi as [-> Hi]. by cbn.
  - intros i w w' _ Hi _. apply lookup_seqZ in Hi as [-> Hi]. cbn. lia.
Qed.

(** With radix 4 the schedule of a team of eleven uses the distances 1, 2, 3 and
    then 2, 4, 6, which do not reach distance 10; PE 0 leaves the first sync and
    PE 1 has not entered it. *)
Theorem pow2_leaves_early : same_team 11 all11 world11_view /\ exists s,
  reachable all11 (sync_plan 4 1 false world11_view) s /\ left (pes s 0) 1 /\ ~ entered (pes s 1) 1.
Proof.
  split; [exact world11_same|]. exists (sys_of all11 (sync_plan 4 1 false world11_view) early11). split; [|split].
  - apply sys_of_reachable, runs_is_Some. by vm_compute.
  - by vm_compute.
  - assert (pes (sys_of all11 (sync_plan 4 1 false world11_view) early11) 1 = MkPe 1 None) as -> by (by vm_compute).
    intros [?|[_ ?]]; done.
Qed.

(** A radix below 2 sends the division routines into an endless loop. *)
Theorem radix_one_spins g w t : 1 < size t -> sync_dissem_threadgroup 1 g w t = Fail FSpin.
Proof.
  intros HS. assert (forall fuel temp, temp <> 0 -> num_phases fuel 1 temp = Fail FSpin) as HL.
  { induction fuel as [|fuel IH]; intros temp Ht; cbn [num_phases]; rewrite !bool_decide_eq_false_2 by lia; [done|].
    rewrite Z.quot_1_r. by rewrite IH. }
  unfold sync_dissem_threadgroup, sync_dissem_threadgroup_2, sync_dissem_threadgroup_non_strided.
  replace (Z.min 1 (size t)) with 1 by lia. rewrite HL by lia. by case_bool_decide.
Qed.

End BarrierDissem.
