(* ===== verification/IbgdaQueue.v ===== *)
(** * GPU-initiated InfiniBand: the send queue of a queue pair

    src/src/include/non_abi/device/pt-to-pt/ibgda_device.cuh.  Device threads claim
    slots of the send queue with an atomic add, wait until the slots are free,
    write their work-queue entries (WQEs), publish them in order with a
    compare-and-swap of [ready_head] and ring the doorbell, directly or through
    the host; the NIC executes WQEs in order and reports the index of the last
    one that asks for a completion, as a 16-bit number, in a collapsed CQ.

    The file has the index computations and one event per access to shared
    memory; a thread is a group that makes its reservation with one atomic add.
    64-bit indices do not wrap (at 10^9 requests a second they last 500 years);
    everything the NIC sees of them has 16 bits.  Memory is sequentially
    consistent, which the fences of the code are there for.  Completions with
    an error, which end in a failed assertion, and polling timeouts (a debug
    option) are not modelled. *)
From stdpp Require Import base list option.
From Stdlib Require Import ZArith Lia.
From S2P Require Import Prelude.

Module IbgdaQueue.

(** ** Index computations *)

(** [ibgda_get_wqe_ptr], as an index of the queue *)
Definition ibgda_get_wqe_ptr (nwqes wqe_idx : Z) : Z := Z.land (u16 wqe_idx) (u16 (nwqes - 1)).

(** The loop condition of [ibgda_poll_cq]: not there yet. *)
Definition poll_wait (ncqes idx wqe_counter : Z) : bool :=
  bool_decide (u16 (u16 idx - wqe_counter - 2) < ncqes).
(** The 64-bit index of the 16-bit counter. *)
Definition poll_new_cons_idx (idx wqe_counter : Z) : Z :=
  let wqe_counter := u16 (wqe_counter + 1) in
  Z.lor (Z.land idx (Z.lnot 0xffff)) wqe_counter + (if bool_decide (u16 idx > wqe_counter) then 0x10000 else 0).

(** [do_post_send] of [ibgda_submit_requests] without the test of [resv_head] *)
Definition batch_full (batch base_wqe_idx num_wqes : Z) : bool :=
  let mask := Z.lnot (batch - 1) in
  let new_wqe_idx := base_wqe_idx + num_wqes in
  bool_decide (Z.land base_wqe_idx mask <> Z.land new_wqe_idx mask) || bool_decide (num_wqes >= batch).
Definition do_post_send (batch resv_head base_wqe_idx num_wqes : Z) : bool :=
  bool_decide (base_wqe_idx + num_wqes = resv_head) || batch_full batch base_wqe_idx num_wqes.

(** [ibgda_update_dbr]: the value the NIC reads *)
Definition dbr_value (dbrec_head : Z) : Z := Z.land dbrec_head 0xffff.

(** ** Sizes of requests *)
Inductive qp_type := DCI | RC.
#[export] Instance qp_type_eq_dec : EqDecision qp_type.
Proof. solve_decision. Defined.
Inductive amo_op :=
| AMO_ACK | AMO_INC | AMO_SET | AMO_ADD | AMO_AND | AMO_OR | AMO_XOR | AMO_SIGNAL | AMO_SIGNAL_SET | AMO_SIGNAL_ADD
| AMO_FETCH | AMO_FETCH_INC | AMO_FETCH_ADD | AMO_FETCH_AND | AMO_FETCH_OR | AMO_FETCH_XOR | AMO_SWAP | AMO_COMPARE_SWAP.
(** [ibgda_get_num_wqes_in_atomic]; [bytes] is sizeof(T) *)
Definition ibgda_get_num_wqes_in_atomic (bytes : Z) (op : amo_op) (ty : qp_type) : Z :=
  match ty with
  | DCI => 2
  | RC =>
      if bool_decide (bytes = 8) then
        match op with
        | AMO_SIGNAL | AMO_SIGNAL_SET | AMO_SWAP | AMO_SET | AMO_FETCH_AND | AMO_AND | AMO_FETCH_OR | AMO_OR => 2
        | _ => 1
        end
      else 1
  end.
(** [num_wqes_per_cmd] of a put or get *)
Definition rdma_wqes_per_cmd (support_half_av_seg : bool) (ty : qp_type) : Z :=
  match ty with DCI => if support_half_av_seg then 1 else 2 | RC => 1 end.
(** [num_wqes] of [ibgda_rma_thread] for a group of [tg_size] threads *)
Definition rma_num_wqes (support_half_av_seg need_immediate_cst : bool) (ty : qp_type) (tg_size : Z) : Z :=
  let need_additional_wqe :=
    need_immediate_cst || match ty with DCI => negb support_half_av_seg | RC => false end in
  rdma_wqes_per_cmd support_half_av_seg ty * tg_size + (if need_additional_wqe then 1 else 0).
(** [num_wqes] of [nvshmemi_ibgda_put_signal_thread_impl], payload in one piece *)
Definition put_signal_num_wqes (support_half_av_seg : bool) (ty : qp_type) (sig_op : amo_op) (tg_size : Z) : Z :=
  let num_atomic_wqes_per_cmd := ibgda_get_num_wqes_in_atomic 8 sig_op ty in
  let num_wqes_per_cmd := rdma_wqes_per_cmd support_half_av_seg ty + num_atomic_wqes_per_cmd in
  num_wqes_per_cmd * tg_size + (if bool_decide (num_atomic_wqes_per_cmd > 1) then 1 else 0).

(** ** Configuration *)
Record config := MkConfig {
  nwqes : Z;  (* slots of the queue: the depth, a power of 2 *)
  ncqes : Z;
  num_requests_in_batch : Z;
  use_async_postsend : bool
}.

(** ** State *)
Section Queue.
Context {W : Type} (sig : W -> bool).  (* a WQE; does it ask for a completion? *)

(** Where a thread is.  [after] a poll: its reservation (first index and WQEs), or
    nothing more to do for a quiet. *)
Abbreviation resv := (Z * list W)%type.
Inductive after := Slots (r : resv) | Quiet.
Inductive pc :=
| Idle
| PollStart (idx : Z) (k : after)                      (* read cons_idx *)
| PollProd (idx : Z) (k : after)                       (* wait for prod_idx *)
| PollRead (idx : Z) (k : after)                       (* read wqe_counter *)
| PollCons (idx wqe_counter : Z) (k : after)           (* read cons_idx again, decide *)
| PollMax (idx new_cons_idx : Z) (k : after)           (* atomicMax of cons_idx *)
| Writing (r : resv) (k : nat)                         (* [k] WQEs are written *)
| Cas (r : resv)                                       (* wait for ready_head *)
| Decide (base num : Z)                                (* read resv_head *)
| Lock (new : Z) | MaxProd (new : Z) | Dbr (new : Z) | Ring | Unlock
| AsyncMax (new : Z) | AsyncBf (new : Z).

(** The host thread that rings doorbells in the asynchronous mode. *)
Inductive host_pc := HIdle | HRead (prod_idx_snapshot : Z) | HRing.

#[export] Instance host_pc_eq_dec : EqDecision host_pc.
Proof. solve_decision. Defined.

Record queue := MkQueue {
  resv_head : Z; ready_head : Z; prod_idx : Z; cons_idx : Z; post_send_lock : bool;
  wqe : Z -> option W;                                 (* the slots *)
  bf : Z; prod_idx_cache : Z; host : host_pc;          (* asynchronous mode *)
  dbrec : Z; rung : bool;                              (* doorbell record, doorbell *)
  nic_prod : Z; hw : Z; cqe : Z;                       (* the NIC: producer index it knows (16 bits), next WQE, completion (16 bits) *)
  executed : list W;                                   (* what the NIC has executed *)
  issued : list W;                                     (* every WQE reserved, in the order of the indices *)
  threads : nat -> pc
}.

Definition init : queue :=
  {| resv_head := 0; ready_head := 0; prod_idx := 0; cons_idx := 0; post_send_lock := false;
     wqe := fun _ => None; bf := 0; prod_idx_cache := 0; host := HIdle; dbrec := 0; rung := false;
     nic_prod := 0; hw := 0; cqe := 0xffff; executed := []; issued := []; threads := fun _ => Idle |}.

Context (c : config).

(** What a poll leads to. *)
Definition polled (k : after) : pc := match k with Slots r => Writing r 0 | Quiet => Idle end.
(** [ibgda_wait_for_slot_availability] after the reservation of [r] *)
Definition wait_for_slot (r : resv) : pc :=
  let wqe_idx := r.1 + Z.of_nat (length r.2) in
  if bool_decide (wqe_idx >= nwqes c) then PollStart (wqe_idx - nwqes c) (Slots r) else Writing r 0.

(** ** Changes of the state *)
Definition at_pc (q : queue) (t : nat) (p : pc) : nat -> pc := fun t' => if decide (t' = t) then p else threads q t'.
Definition goto (q : queue) (t : nat) (p : pc) : queue :=
  MkQueue (resv_head q) (ready_head q) (prod_idx q) (cons_idx q) (post_send_lock q) (wqe q) (bf q) (prod_idx_cache q)
    (host q) (dbrec q) (rung q) (nic_prod q) (hw q) (cqe q) (executed q) (issued q) (at_pc q t p).
Definition set_resv (q : queue) (n : Z) (l : list W) : queue :=
  MkQueue n (ready_head q) (prod_idx q) (cons_idx q) (post_send_lock q) (wqe q) (bf q) (prod_idx_cache q)
    (host q) (dbrec q) (rung q) (nic_prod q) (hw q) (cqe q) (executed q) l (threads q).
Definition set_ready (q : queue) (n : Z) : queue :=
  MkQueue (resv_head q) n (prod_idx q) (cons_idx q) (post_send_lock q) (wqe q) (bf q) (prod_idx_cache q)
    (host q) (dbrec q) (rung q) (nic_prod q) (hw q) (cqe q) (executed q) (issued q) (threads q).
Definition set_prod (q : queue) (n : Z) : queue :=
  MkQueue (resv_head q) (ready_head q) n (cons_idx q) (post_send_lock q) (wqe q) (bf q) (prod_idx_cache q)
    (host q) (dbrec q) (rung q) (nic_prod q) (hw q) (cqe q) (executed q) (issued q) (threads q).
Definition set_cons (q : queue) (n : Z) : queue :=
  MkQueue (resv_head q) (ready_head q) (prod_idx q) n (post_send_lock q) (wqe q) (bf q) (prod_idx_cache q)
    (host q) (dbrec q) (rung q) (nic_prod q) (hw q) (cqe q) (executed q) (issued q) (threads q).
Definition set_lock (q : queue) (b : bool) : queue :=
  MkQueue (resv_head q) (ready_head q) (prod_idx q) (cons_idx q) b (wqe q) (bf q) (prod_idx_cache q)
    (host q) (dbrec q) (rung q) (nic_prod q) (hw q) (cqe q) (executed q) (issued q) (threads q).
Definition set_wqe (q : queue) (i : Z) (w : W) : queue :=
  MkQueue (resv_head q) (ready_head q) (prod_idx q) (cons_idx q) (post_send_lock q)
    (fun j => if decide (j = i) then Some w else wqe q j) (bf q) (prod_idx_cache q)
    (host q) (dbrec q) (rung q) (nic_prod q) (hw q) (cqe q) (executed q) (issued q) (threads q).
Definition set_bf (q : queue) (n : Z) : queue :=
  MkQueue (resv_head q) (ready_head q) (prod_idx q) (cons_idx q) (post_send_lock q) (wqe q) n (prod_idx_cache q)
    (host q) (dbrec q) (rung q) (nic_prod q) (hw q) (cqe q) (executed q) (issued q) (threads q).
Definition set_host (q : queue) (n : Z) (h : host_pc) : queue :=
  MkQueue (resv_head q) (ready_head q) (prod_idx q) (cons_idx q) (post_send_lock q) (wqe q) (bf q) n
    h (dbrec q) (rung q) (nic_prod q) (hw q) (cqe q) (executed q) (issued q) (threads q).
Definition set_db (q : queue) (n : Z) (b : bool) : queue :=
  MkQueue (resv_head q) (ready_head q) (prod_idx q) (cons_idx q) (post_send_lock q) (wqe q) (bf q) (prod_idx_cache q)
    (host q) n b (nic_prod q) (hw q) (cqe q) (executed q) (issued q) (threads q).
Definition set_nic (q : queue) (n : Z) (b : bool) : queue :=
  MkQueue (resv_head q) (ready_head q) (prod_idx q) (cons_idx q) (post_send_lock q) (wqe q) (bf q) (prod_idx_cache q)
    (host q) (dbrec q) b n (hw q) (cqe q) (executed q) (issued q) (threads q).
(** The NIC executes [w], the WQE it is at. *)
Definition execute (q : queue) (w : W) : queue :=
  MkQueue (resv_head q) (ready_head q) (prod_idx q) (cons_idx q) (post_send_lock q) (wqe q) (bf q) (prod_idx_cache q)
    (host q) (dbrec q) (rung q) (nic_prod q) (hw q + 1) (if sig w then u16 (hw q) else cqe q)
    (executed q ++ [w]) (issued q) (threads q).

(** ** Events *)

(** A thread's next access to shared memory.  [None]: the thread spins. *)
Definition thread_step (q : queue) (t : nat) : option queue :=
  match threads q t with
  | Idle => None
  | PollStart idx k =>
      Some (goto q t (if bool_decide (cons_idx q >= idx) then polled k else PollProd idx k))
  | PollProd idx k => if bool_decide (prod_idx q < idx) then None else Some (goto q t (PollRead idx k))
  | PollRead idx k => Some (goto q t (PollCons idx (cqe q) k))
  | PollCons idx wqe_counter k =>
      if bool_decide (cons_idx q >= idx) then Some (goto q t (polled k))
      else if poll_wait (ncqes c) idx wqe_counter then Some (goto q t (PollRead idx k))
      else Some (goto q t (PollMax idx (poll_new_cons_idx idx wqe_counter) k))
  | PollMax _ new_cons_idx k => Some (goto (set_cons q (Z.max (cons_idx q) new_cons_idx)) t (polled k))
  | Writing r k =>
      match r.2 !! k with
      | Some w => Some (goto (set_wqe q (ibgda_get_wqe_ptr (nwqes c) (r.1 + Z.of_nat k)) w) t (Writing r (S k)))
      | None => Some (goto q t (Cas r))
      end
  | Cas r =>
      let num := Z.of_nat (length r.2) in
      if bool_decide (ready_head q = r.1) then Some (goto (set_ready q (r.1 + num)) t (Decide r.1 num)) else None
  | Decide base num =>
      Some (goto q t (if do_post_send (num_requests_in_batch c) (resv_head q) base num
                      then (if use_async_postsend c then AsyncMax (base + num) else Lock (base + num)) else Idle))
  | Lock new => if post_send_lock q then None else Some (goto (set_lock q true) t (MaxProd new))
  | MaxProd new =>
      Some (goto (set_prod q (Z.max (prod_idx q) new)) t (if bool_decide (new > prod_idx q) then Dbr new else Unlock))
  | Dbr new => Some (goto (set_db q (dbr_value new) (rung q)) t Ring)
  | Ring => Some (goto (set_db q (dbrec q) true) t Unlock)
  | Unlock => Some (goto (set_lock q false) t Idle)
  | AsyncMax new =>
      Some (goto (set_prod q (Z.max (prod_idx q) new)) t (if bool_decide (new > prod_idx q) then AsyncBf new else Idle))
  | AsyncBf new => Some (goto (set_bf q (Z.max (bf q) new)) t Idle)
  end.

(** [ibgda_dci_progress], one queue: the host's next access *)
Definition host_step (q : queue) : option queue :=
  if use_async_postsend c then
    match host q with
    | HIdle => Some (set_host q (prod_idx_cache q) (HRead (bf q)))
    | HRead snapshot =>
        Some (if bool_decide (prod_idx_cache q < snapshot)
              then set_host (set_db q (dbr_value snapshot) (rung q)) snapshot HRing
              else set_host q (prod_idx_cache q) HIdle)
    | HRing => Some (set_host (set_db q (dbrec q) true) (prod_idx_cache q) HIdle)
    end
  else None.

Inductive event :=
| Reserve (t : nat) (l : list W)   (* a thread begins a request of these WQEs *)
| Await (t : nat)                  (* a thread begins a quiet *)
| Thread (t : nat)
| Host
| Fetch                            (* after a doorbell the NIC reads the doorbell record *)
| Execute.                         (* the NIC executes a WQE *)

Definition fire (q : queue) (a : event) : option queue :=
  match a with
  | Reserve t l =>
      match threads q t with
      | Idle => Some (goto (set_resv q (resv_head q + Z.of_nat (length l)) (issued q ++ l)) t (wait_for_slot (resv_head q, l)))
      | _ => None
      end
  | Await t =>
      match threads q t with Idle => Some (goto q t (PollStart (ready_head q) Quiet)) | _ => None end
  | Thread t => thread_step q t
  | Host => host_step q
  | Fetch => if rung q then Some (set_nic q (dbrec q) false) else None
  | Execute =>
      if bool_decide (u16 (hw q) = nic_prod q) then None
      else w ← wqe q (ibgda_get_wqe_ptr (nwqes c) (hw q)); Some (execute q w)
  end.

Fixpoint run (l : list event) (q : queue) : option queue :=
  match l with [] => Some q | a :: l => q' ← fire q a; run l q' end.
End Queue.

Arguments pc : clear implicits.
Arguments after : clear implicits.
Arguments queue : clear implicits.
Arguments event : clear implicits.

(** ** What the computations give *)

(** A depth the transport accepts. *)
Record depth_ok (n : Z) : Prop := {
  dp_range : 1 <= n <= 32768;
  dp_pow2 : exists e, 0 <= e /\ n = 2 ^ e
}.

Lemma get_wqe_ptr_mod n i : depth_ok n -> 0 <= i -> ibgda_get_wqe_ptr n i = i mod n.
Proof.
  intros [Hr (e & He & ->)] Hi. unfold ibgda_get_wqe_ptr, wrap.
  assert (e < 16) by (apply (Z.pow_lt_mono_r_iff 2); lia).
  rewrite (Z.mod_small (2 ^ e - 1)) by (pose proof (Z.pow_lt_mono_r 2 e 16); lia).
  replace (2 ^ e - 1) with (Z.ones e) by (rewrite Z.ones_equiv; lia). rewrite Z.land_ones by lia.
  apply Z.bits_inj'. intros k Hk. destruct (Z.lt_ge_cases k e).
  - by rewrite !Z.mod_pow2_bits_low by lia.
  - by rewrite !Z.mod_pow2_bits_high by lia.
Qed.

(** Whole batches below an index. *)
Definition batches (batch i : Z) : Z := batch * (i / batch).
Lemma land_batch e i : 0 <= e -> Z.land i (Z.lnot (2 ^ e - 1)) = batches (2 ^ e) i.
Proof.
  intros He. replace (2 ^ e - 1) with (Z.ones e) by (rewrite Z.ones_equiv; lia).
  rewrite <- Z.ldiff_land, Z.ldiff_ones_r by lia. unfold batches. rewrite Z.shiftl_mul_pow2, Z.shiftr_div_pow2 by lia. lia.
Qed.
Lemma batches_bound b i : 0 < b -> batches b i <= i < batches b i + b.
Proof. intros Hb. unfold batches. pose proof (Z.div_mod i b ltac:(lia)). pose proof (Z.mod_pos_bound i b Hb). lia. Qed.

(** For the depths the transport accepts (a power of two up to 32768, as the
    static assertion asks), the loop condition of [ibgda_poll_cq] on a 16-bit
    completion counter is exact: with the last completed index less than a depth away it
    waits exactly while WQE [idx - 1] is not completed, and the index it then
    stores in [cons_idx] is the 64-bit index the counter stands for. *)
Theorem poll_cq_counter n idx h : depth_ok n -> 0 <= idx -> 0 <= h -> - n < idx - h <= n ->
  poll_wait n idx (u16 (h - 1)) = bool_decide (h < idx) /\
  (idx <= h -> poll_new_cons_idx idx (u16 (h - 1)) = h).
Proof.
  intros [Hr _] Hi Hh Hd. unfold wrap in *. split.
  - unfold poll_wait, wrap. apply bool_decide_ext.
    assert ((idx mod 2 ^ 16 - (h - 1) mod 2 ^ 16 - 2) mod 2 ^ 16 = (idx - h - 1) mod 2 ^ 16) as ->.
    { change (2 ^ 16) with 65536. Z.div_mod_to_equations. lia. }
    destruct (Z.lt_ge_cases h idx).
    + rewrite Z.mod_small by lia. lia.
    + rewrite <- (Z.mod_unique_pos (idx - h - 1) (2 ^ 16) (-1) (idx - h - 1 + 2 ^ 16)) by lia. lia.
  - intros Hle. unfold poll_new_cons_idx, wrap.
    assert (((h - 1) mod 2 ^ 16 + 1) mod 2 ^ 16 = h mod 2 ^ 16) as ->.
    { rewrite Zplus_mod_idemp_l. f_equal. lia. }
    change (0xffff) with (2 ^ 16 - 1). change (0x10000) with (2 ^ 16). rewrite land_batch by lia. unfold batches.
    assert (Z.land (2 ^ 16 * (idx / 2 ^ 16)) (h mod 2 ^ 16) = 0) as HL.
    { apply Z.bits_inj'. intros k Hk. rewrite Z.land_spec, Z.bits_0, Z.mul_comm, <- Z.shiftl_mul_pow2 by lia.
      destruct (Z.lt_ge_cases k 16); [by rewrite Z.shiftl_spec_low by lia|].
      by rewrite (Z.mod_pow2_bits_high h), andb_false_r by lia. }
    pose proof (Z.add_lor_land (2 ^ 16 * (idx / 2 ^ 16)) (h mod 2 ^ 16)) as HA. rewrite HL, Z.add_0_r in HA. rewrite HA. change (2 ^ 16) with 65536 in *. case_bool_decide; Z.div_mod_to_equations; lia.
Qed.

Lemma poll_cq_counter_witness :
  poll_wait 128 65537 (u16 (65539 - 1)) = bool_decide (65539 < 65537) /\ poll_new_cons_idx 65530 (u16 (65539 - 1)) = 65539.
Proof.
  assert (depth_ok 128) as HD by (split; [lia|by exists 7]). split.
  - apply (poll_cq_counter 128 65537 65539); (done || lia).
  - apply (poll_cq_counter 128 65530 65539); (done || lia).
Defined.

End IbgdaQueue.
