(* ===== verification/IbgdaProtocol.v ===== *)
(** * GPU-initiated InfiniBand: safety of the send queue

    The invariant [inv] of the event system of IbgdaQueue.v, for any number of
    threads, any interleaving and both ways of ringing the doorbell.  From it: the
    NIC executes the WQEs exactly as they were issued, in the order of their
    indices, and a quiet returns only when everything published before it has
    been executed. *)
From stdpp Require Import base list option relations.
From Stdlib Require Import ZArith Lia.
From S2P Require Import Prelude IbgdaQueue.
Import IbgdaQueue.

Module IbgdaProtocol.

Section Protocol.
Context {W : Type} {sig : W -> bool} {c : config}.
Local Abbreviation queue := (queue W).
Local Abbreviation pc := (pc W).

(** Length of a reservation and its end. *)
Definition len (r : Z * list W) : Z := Z.of_nat (length r.2).
Definition end_ (r : Z * list W) : Z := r.1 + len r.

(** One more than the index of the last WQE executed that asked for a completion. *)
Definition completed_from (st : Z * Z) (l : list W) : Z * Z :=
  foldl (fun st w => (st.1 + 1, if sig w then st.1 + 1 else st.2)) st l.
Definition completed (l : list W) : Z := (completed_from (0, 0) l).2.

Lemma completed_fst l : forall st, (completed_from st l).1 = st.1 + Z.of_nat (length l).
Proof. unfold completed_from. induction l as [|w l IH]; intros st; cbn [foldl length]; [lia|]. rewrite IH. cbn. lia. Qed.
Lemma completed_snoc l w : completed (l ++ [w]) = if sig w then Z.of_nat (length l) + 1 else completed l.
Proof.
  unfold completed, completed_from. rewrite foldl_app. cbn. fold (completed_from (0, 0) l).
  rewrite completed_fst. cbn. done.
Qed.
Lemma completed_bound l : 0 <= completed l <= Z.of_nat (length l).
Proof.
  induction l as [|w l IH] using rev_ind; [done|]. rewrite completed_snoc, length_app. cbn. destruct (sig w); lia.
Qed.

(** ** What holds of a thread *)
Definition resv_ok (q : queue) (r : Z * list W) : Prop :=
  ready_head q <= r.1 /\ end_ r <= resv_head q /\ 1 <= len r /\
  forall k w, r.2 !! k = Some w -> issued q !! (Z.to_nat r.1 + k)%nat = Some w.
Definition after_ok (q : queue) (idx : Z) (k : after W) : Prop :=
  0 <= idx /\
  match k with
  | Slots r => resv_ok q r /\ idx = end_ r - nwqes c
  | Quiet => idx <= ready_head q
  end.
Definition granted_ok (q : queue) (r : Z * list W) (k : nat) : Prop :=
  resv_ok q r /\ end_ r <= cons_idx q + nwqes c /\ (k <= length r.2)%nat /\
  forall j, (j < k)%nat -> wqe q ((r.1 + Z.of_nat j) mod nwqes c) = r.2 !! j.

Definition thread_ok (q : queue) (p : pc) : Prop :=
  match p with
  | Idle | Ring | Unlock => True
  | PollStart idx k | PollProd idx k => after_ok q idx k
  | PollRead idx k => after_ok q idx k /\ idx <= prod_idx q
  | PollCons idx wqe_counter k => after_ok q idx k /\ idx <= prod_idx q /\
      exists h, 0 <= h <= completed (executed q) /\ wqe_counter = u16 (h - 1) /\ idx <= h + nwqes c
  | PollMax idx new k => after_ok q idx k /\ idx <= new <= completed (executed q)
  | Writing r k => granted_ok q r k
  | Cas r => granted_ok q r (length r.2)
  | Decide base num => 0 <= base /\ 1 <= num /\ base + num <= ready_head q
  | Lock new | MaxProd new | AsyncMax new => 0 <= new <= ready_head q
  | Dbr new => new = prod_idx q
  | AsyncBf new => new <= prod_idx q
  end.

(** A reservation not yet published; threads inside the lock; the mode. *)
Definition owns (p : pc) : option (Z * list W) :=
  match p with
  | PollStart _ (Slots r) | PollProd _ (Slots r) | PollRead _ (Slots r) | PollCons _ _ (Slots r)
  | PollMax _ _ (Slots r) | Writing r _ | Cas r => Some r
  | _ => None
  end.
Definition holds (p : pc) : bool := match p with MaxProd _ | Dbr _ | Ring | Unlock => true | _ => false end.
Definition mode_ok (p : pc) : bool :=
  match p with
  | Lock _ | MaxProd _ | Dbr _ | Ring | Unlock => negb (use_async_postsend c)
  | AsyncMax _ | AsyncBf _ => use_async_postsend c
  | _ => true
  end.

(** ** The invariant *)
Record counters_ok (q : queue) : Prop := {
  co_resv : resv_head q = Z.of_nat (length (issued q));
  co_exec : executed q = take (Z.to_nat (hw q)) (issued q);
  co_cons : 0 <= cons_idx q <= completed (executed q);
  co_cqe : cqe q = u16 (completed (executed q) - 1);
  co_ready : prod_idx q <= ready_head q <= resv_head q;
  co_room : ready_head q <= cons_idx q + nwqes c;
  co_slots : forall i, hw q <= i < ready_head q -> wqe q (i mod nwqes c) = issued q !! Z.to_nat i
}.
(** [m] and [d] are the indices behind the 16-bit producer index the NIC knows and
    the doorbell record. *)
Record doorbell_ok (q : queue) (m d : Z) : Prop := {
  db_nic : nic_prod q = u16 m;
  db_rec : dbrec q = u16 d;
  db_order : 0 <= hw q <= m /\ m <= d <= prod_idx q;
  db_async : use_async_postsend c = true -> d = prod_idx_cache q;
  db_bf : 0 <= bf q <= prod_idx q /\ prod_idx_cache q <= bf q;
  db_host : forall n, host q = HRead n -> n <= bf q
}.
Record inv (q : queue) : Prop := {
  iv_counters : counters_ok q;
  iv_doorbell : exists m d, doorbell_ok q m d;
  iv_thread : forall t, thread_ok q (threads q t) /\ mode_ok (threads q t) = true;
  iv_disj : forall t t' r r', t <> t' -> owns (threads q t) = Some r -> owns (threads q t') = Some r' ->
    end_ r <= r'.1 \/ end_ r' <= r.1;
  iv_lock : forall t, holds (threads q t) = true -> post_send_lock q = true /\ forall t', holds (threads q t') = true -> t' = t
}.

Lemma length_executed q : inv q -> Z.of_nat (length (executed q)) = hw q.
Proof.
  intros [CO (m & d & DB) _ _ _]. pose proof (co_resv _ CO). pose proof (co_ready _ CO). pose proof (db_order _ _ _ DB).
  rewrite (co_exec _ CO), length_take. lia.
Qed.

(** Everything is ordered. *)
Lemma heads q : inv q -> 0 <= cons_idx q <= completed (executed q) /\ completed (executed q) <= hw q <= prod_idx q /\
  prod_idx q <= ready_head q <= resv_head q /\ ready_head q <= cons_idx q + nwqes c.
Proof.
  intros IV. pose proof (length_executed q IV). pose proof (completed_bound (executed q)).
  destruct IV as [CO (m & d & DB) _ _ _]. pose proof (co_cons _ CO). pose proof (co_ready _ CO). pose proof (co_room _ CO).
  pose proof (db_order _ _ _ DB). lia.
Qed.

(** ** The other threads *)
Definition granted (p : pc) : option (Z * list W) := match p with Writing r _ | Cas r => Some r | _ => None end.

Record ext (q q' : queue) : Prop := {
  ex_cons : cons_idx q <= cons_idx q';
  ex_prod : prod_idx q <= prod_idx q';
  ex_ready : ready_head q <= ready_head q';
  ex_resv : resv_head q <= resv_head q';
  ex_issued : issued q `prefix_of` issued q';
  ex_exec : completed (executed q) <= completed (executed q')
}.

Lemma resv_ok_mono q q' r : ext q q' -> ready_head q' <= r.1 -> resv_ok q r -> resv_ok q' r.
Proof.
  intros [] Hr (_ & He & Hl & Hs). split_and!; [done|lia|done|]. intros k w E. by eapply prefix_lookup_Some; [apply Hs|].
Qed.
Lemma after_ok_mono q q' idx k : ext q q' -> (forall r, k = Slots r -> ready_head q' <= r.1) -> after_ok q idx k -> after_ok q' idx k.
Proof.
  intros EX Hr (H0 & Hk). split; [done|]. destruct k as [r|]; [|destruct EX; lia].
  destruct Hk as [HR ->]. split; [|done]. eapply resv_ok_mono; eauto.
Qed.
Lemma granted_ok_mono q q' r k : ext q q' -> ready_head q' <= r.1 ->
  (forall i, r.1 <= i < end_ r -> wqe q' (i mod nwqes c) = wqe q (i mod nwqes c)) ->
  granted_ok q r k -> granted_ok q' r k.
Proof.
  intros EX Hr Hw (HR & He & Hk & Hs). split_and!; [by eapply resv_ok_mono|destruct EX; lia|done|].
  intros j Hj. rewrite Hw; [by apply Hs|]. unfold end_, len. lia.
Qed.
Lemma thread_ok_mono q q' p : ext q q' -> (forall r, owns p = Some r -> ready_head q' <= r.1) ->
  (forall r i, granted p = Some r -> r.1 <= i < end_ r -> wqe q' (i mod nwqes c) = wqe q (i mod nwqes c)) ->
  (forall n, p = Dbr n -> prod_idx q' = prod_idx q) -> thread_ok q p -> thread_ok q' p.
Proof.
  intros EX Hr Hw Hd. destruct EX as [Ec Ep Er Es Ei Ex] eqn:E0.
  assert (forall idx k, (forall r, k = Slots r -> owns p = Some r) -> after_ok q idx k -> after_ok q' idx k) as HA.
  { intros idx k Hk. apply (after_ok_mono _ _ _ _ EX). intros r Hkr. apply Hr. by apply Hk. }
  destruct p; cbn in *; try done; try lia.
  - apply HA. intros ? ->. done.
  - apply HA. intros ? ->. done.
  - intros [? ?]. split; [|lia]. apply HA; [|done]. intros ? ->. done.
  - intros (? & ? & h & ? & ? & ?). split_and!; [|lia|]. { apply HA; [|done]. intros ? ->. done. } exists h. lia.
  - intros (? & ?). split; [|lia]. apply HA; [|done]. intros ? ->. done.
  - apply (granted_ok_mono _ _ _ _ EX); [by apply Hr|]. intros i Hi. by apply (Hw r).
  - apply (granted_ok_mono _ _ _ _ EX); [by apply Hr|]. intros i Hi. by apply (Hw r).
  - intros ->. by rewrite (Hd _ eq_refl).
Qed.

(** ** One thread moves *)
Lemma at_pc_same (q : queue) t p : at_pc q t p t = p.
Proof. unfold at_pc. by rewrite decide_True. Qed.
Lemma at_pc_other (q : queue) t p t' : t' <> t -> at_pc q t p t' = threads q t'.
Proof. intros. unfold at_pc. by rewrite decide_False. Qed.

Lemma goto_inv (q q1 : queue) t p : inv q -> threads q1 = threads q -> counters_ok q1 -> (exists m d, doorbell_ok q1 m d) ->
  (forall t', t' <> t -> thread_ok q1 (threads q t')) -> thread_ok q1 p -> mode_ok p = true ->
  (forall r t' r', owns p = Some r -> t' <> t -> owns (threads q t') = Some r' -> end_ r <= r'.1 \/ end_ r' <= r.1) ->
  (holds p = true -> post_send_lock q1 = true /\ forall t', t' <> t -> holds (threads q t') = false) ->
  (forall t', t' <> t -> holds (threads q t') = true -> post_send_lock q1 = true) ->
  inv (goto q1 t p).
Proof.
  intros IV HT CO (m & d & DB) Hoth Hp Hm Hown Hh Hlk. split.
  - by destruct CO.
  - exists m, d. by destruct DB.
  - intros t'. cbn. destruct (decide (t' = t)) as [->|Hne]; [by rewrite at_pc_same|].
    rewrite at_pc_other, HT by done. split; [by apply Hoth|apply (iv_thread _ IV)].
  - intros t1 t2 r1 r2 Hne. cbn. destruct (decide (t1 = t)) as [->|H1], (decide (t2 = t)) as [->|H2];
      rewrite ?at_pc_same, ?(at_pc_other q1 t p t1), ?(at_pc_other q1 t p t2), ?HT by done; try done.
    + intros E1 E2. by eapply Hown.
    + intros E1 E2. by apply or_comm; eapply Hown.
    + by apply (iv_disj _ IV).
  - intros t1. cbn. destruct (decide (t1 = t)) as [->|H1].
    + rewrite at_pc_same. intros [Hl Ho]%Hh. split; [done|]. intros t2. destruct (decide (t2 = t)) as [->|H2]; [done|].
      rewrite at_pc_other, HT, Ho by done. done.
    + rewrite at_pc_other, HT by done. intros E. split; [by eapply Hlk|]. intros t2.
      destruct (decide (t2 = t)) as [->|H2].
      * rewrite at_pc_same. intros [_ Ho]%Hh. rewrite Ho in E by done. done.
      * rewrite at_pc_other, HT by done. by apply (iv_lock _ IV).
Qed.

(** A thread that keeps or gives up its reservation, and its place at the lock. *)
Lemma keep_disj q t p : inv q -> owns p = None \/ owns p = owns (threads q t) ->
  forall r t' r', owns p = Some r -> t' <> t -> owns (threads q t') = Some r' -> end_ r <= r'.1 \/ end_ r' <= r.1.
Proof.
  intros IV [E|E] r t' r' Er Hne Er'; [congruence|]. rewrite E in Er. by apply (iv_disj _ IV t t').
Qed.
Lemma keep_lock (q q1 : queue) t p : inv q -> post_send_lock q1 = post_send_lock q -> holds p = false \/ holds p = holds (threads q t) ->
  (holds p = true -> post_send_lock q1 = true /\ forall t', t' <> t -> holds (threads q t') = false) /\
  (forall t', t' <> t -> holds (threads q t') = true -> post_send_lock q1 = true).
Proof.
  intros IV HL Hp. rewrite HL. split.
  - intros Ep. assert (holds (threads q t) = true) as Et by (destruct Hp; congruence).
    apply (iv_lock _ IV) in Et as [? Hu]. split; [done|]. intros t' Hne. apply not_true_is_false. intros E. by apply Hne, Hu.
  - intros t' _ E. by apply (iv_lock _ IV) in E as [? _].
Qed.

(** A step that changes nothing the other threads rely on. *)
Lemma local_inv q t p : inv q -> thread_ok q p -> mode_ok p = true ->
  owns p = None \/ owns p = owns (threads q t) -> holds p = false \/ holds p = holds (threads q t) -> inv (goto q t p).
Proof.
  intros IV Hp Hm Ho Hh. destruct (keep_lock q q t p IV eq_refl Hh) as [H1 H2].
  apply (goto_inv q); try done; [apply (iv_counters _ IV)|apply (iv_doorbell _ IV)| |by apply keep_disj].
  intros t' _. apply (iv_thread _ IV).
Qed.

Lemma ext_refl q : ext q q.
Proof. by split. Qed.

(** ** Every event keeps the invariant *)
Context (Hdepth : depth_ok (nwqes c)) (Hcqes : ncqes c = nwqes c).

Lemma owns_ok q p r : thread_ok q p -> owns p = Some r -> resv_ok q r.
Proof.
  destruct p as [|? k|? k|? k|? ? k|? ? k| | | | | | | | | |]; cbn; try done; try (destruct k; [|done]);
    intros Hok [= <-]; cbn in Hok; unfold after_ok, granted_ok in Hok; intuition.
Qed.
Lemma granted_owns (p : pc) r : granted p = Some r -> owns p = Some r.
Proof. by destruct p. Qed.
Lemma granted_room q p r : thread_ok q p -> granted p = Some r -> end_ r <= cons_idx q + nwqes c.
Proof. destruct p; cbn; try done; intros (_ & ? & _) [= <-]; done. Qed.

(** The threads that do not move, when slots, [ready_head] and [prod_idx] stay. *)
Lemma others_ok q q1 : inv q -> ext q q1 -> ready_head q1 = ready_head q -> wqe q1 = wqe q ->
  prod_idx q1 = prod_idx q -> forall t, thread_ok q1 (threads q t).
Proof.
  intros IV EX Hr Hw Hp t. pose proof (iv_thread _ IV t) as [Ht _]. apply (thread_ok_mono q); try done.
  - intros r Er. rewrite Hr. apply (owns_ok _ _ _ Ht Er).
  - intros. by rewrite Hw.
Qed.

Lemma env_inv q q1 : inv q -> counters_ok q1 -> (exists m d, doorbell_ok q1 m d) -> ext q q1 ->
  ready_head q1 = ready_head q -> wqe q1 = wqe q -> prod_idx q1 = prod_idx q -> threads q1 = threads q ->
  post_send_lock q1 = post_send_lock q -> inv q1.
Proof.
  intros IV CO DB EX Hr Hw Hp HT HL. split; try done; rewrite HT.
  - intros t. split; [by apply others_ok|apply (iv_thread _ IV)].
  - apply (iv_disj _ IV).
  - rewrite HL. apply (iv_lock _ IV).
Qed.

Lemma polled_ok q idx k : after_ok q idx k -> idx <= cons_idx q -> thread_ok q (polled k) /\ mode_ok (polled k) = true.
Proof.
  intros [_ Hk] Hc. destruct k as [r|]; [|done]. destruct Hk as [HR ->]. split; [|done]. cbn. split_and!; [done|lia|lia|]. intros. lia.
Qed.
Lemma polled_owns (k : after W) (p : pc) : (forall r, k = Slots r -> owns p = Some r) ->
  (owns (polled k) = None \/ owns (polled k) = owns p) /\ holds (polled k) = false.
Proof. intros H. destruct k as [r|]; cbn; [|auto]. rewrite (H r eq_refl). auto. Qed.

Lemma poll_start_inv q t idx k : inv q -> threads q t = PollStart idx k ->
  inv (goto q t (if bool_decide (cons_idx q >= idx) then polled k else PollProd idx k)).
Proof.
  intros IV Et. pose proof (iv_thread _ IV t) as [Ht _]. rewrite Et in Ht. case_bool_decide.
  - destruct (polled_ok q idx k Ht ltac:(lia)). destruct (polled_owns k (PollStart idx k)) as [Ho Hh]; [by intros r ->|].
    apply local_inv; try done; rewrite Et; auto.
  - apply local_inv; try done; rewrite Et; auto.
Qed.

Lemma poll_cons_inv q t idx wc k : inv q -> threads q t = PollCons idx wc k ->
  inv (goto q t (if bool_decide (cons_idx q >= idx) then polled k
                 else if poll_wait (ncqes c) idx wc then PollRead idx k else PollMax idx (poll_new_cons_idx idx wc) k)).
Proof.
  intros IV Et. pose proof (iv_thread _ IV t) as [Ht _]. rewrite Et in Ht. destruct Ht as (HA & Hp & h & Hh & -> & Hi).
  pose proof (heads _ IV) as HH. case_bool_decide.
  - destruct (polled_ok q idx k HA ltac:(lia)). destruct (polled_owns k (PollCons idx (u16 (h - 1)) k)) as [Ho Hho]; [by intros r ->|].
    apply local_inv; try done; rewrite Et; auto.
  - assert (0 <= idx) as H0 by apply HA.
    destruct (poll_cq_counter (nwqes c) idx h Hdepth H0 ltac:(lia) ltac:(lia)) as [Hw Hnew].
    rewrite Hcqes, Hw.
    case_bool_decide; apply local_inv; try done; rewrite ?Et; auto; cbn. split; [done|]. rewrite Hnew by lia. lia.
Qed.

Lemma poll_max_inv q t idx new k : inv q -> threads q t = PollMax idx new k ->
  inv (goto (set_cons q (Z.max (cons_idx q) new)) t (polled k)).
Proof.
  intros IV Et. pose proof (iv_thread _ IV t) as [Ht _]. rewrite Et in Ht. destruct Ht as (HA & Hn).
  pose proof (heads _ IV) as HH. set (q1 := set_cons q _).
  assert (ext q q1) as EX by (split; cbn; try done; lia).
  destruct (polled_ok q1 idx k) as [H1 H2]; [|cbn; lia|].
  { eapply after_ok_mono; [done| |done]. intros r ->. destruct HA as (_ & (? & _) & _). done. }
  destruct (polled_owns k (PollMax idx new k)) as [Ho Hho]; [by intros r ->|].
  destruct (keep_lock q q1 t (polled k) IV eq_refl) as [L1 L2]; [auto|].
  apply (goto_inv q); try done.
  - destruct (iv_counters _ IV). split; cbn; try done; lia.
  - destruct (iv_doorbell _ IV) as (m & d & []). by exists m, d.
  - intros t' _. by apply others_ok.
  - apply keep_disj; [done|]. by rewrite Et.
Qed.

(** Indices within one turn of the ring have different slots. *)
Lemma slot_ne i j lo : i <> j -> lo <= i < lo + nwqes c -> lo <= j < lo + nwqes c -> i mod nwqes c <> j mod nwqes c.
Proof. intros Hne Hi Hj E. apply Hne. apply (mod_eq_close (nwqes c)); [destruct Hdepth; lia|lia|done]. Qed.

Lemma write_inv q t r k w : inv q -> threads q t = Writing r k -> r.2 !! k = Some w ->
  inv (goto (set_wqe q (ibgda_get_wqe_ptr (nwqes c) (r.1 + Z.of_nat k)) w) t (Writing r (S k))).
Proof.
  intros IV Et Ew. pose proof (iv_thread _ IV t) as [Ht _]. rewrite Et in Ht. destruct Ht as (HR & He & Hk & Hs).
  pose proof (heads _ IV) as HH. pose proof (lookup_lt_Some _ _ _ Ew) as Hlt. destruct HR as (HR1 & HR2 & HR3 & HR4).
  rewrite get_wqe_ptr_mod by (done || lia). set (j := r.1 + Z.of_nat k). set (q1 := set_wqe q _ w).
  assert (j < end_ r) as Hj by (unfold end_, len, j; lia).
  assert (forall i, i <> j -> cons_idx q <= i < cons_idx q + nwqes c -> wqe q1 (i mod nwqes c) = wqe q (i mod nwqes c)) as Hw.
  { intros i Hne Hi. cbn. rewrite decide_False; [done|]. apply (slot_ne i j (cons_idx q)); lia. }
  destruct (keep_lock q q1 t (Writing r (S k)) IV eq_refl) as [L1 L2]; [auto|].
  apply (goto_inv q); try done.
  - destruct (iv_counters _ IV). split; cbn -[wqe]; try done. intros i Hi. cbn in Hi. rewrite Hw by lia. by apply co_slots0.
  - destruct (iv_doorbell _ IV) as (m & d & []). by exists m, d.
  - intros t' Hne. pose proof (iv_thread _ IV t') as [Ht' _]. apply (thread_ok_mono q); try done.
    + intros r' Er. apply (owns_ok _ _ _ Ht' Er).
    + intros r' i Eg Hi. pose proof (granted_room _ _ _ Ht' Eg). pose proof (granted_owns _ _ Eg) as Eo.
      pose proof (owns_ok _ _ _ Ht' Eo) as (? & _). apply Hw; [|lia]. intros ->.
      destruct (iv_disj _ IV t t' r r' ltac:(done)); [by rewrite Et|done|lia|lia].
  - split_and!; try done. intros j' Hj'. destruct (decide (j' = k)) as [->|].
    + rewrite Ew. cbn. by rewrite decide_True.
    + rewrite Hw by (unfold j; lia). apply Hs. lia.
  - apply keep_disj; [done|]. right. by rewrite Et.
Qed.

Lemma cas_inv q t r : inv q -> threads q t = Cas r -> ready_head q = r.1 ->
  inv (goto (set_ready q (end_ r)) t (Decide r.1 (len r))).
Proof.
  intros IV Et Er. pose proof (iv_thread _ IV t) as [Ht _]. rewrite Et in Ht. destruct Ht as (HR & He & _ & Hs).
  pose proof (heads _ IV) as HH. destruct HR as (HR1 & HR2 & HR3 & HR4). set (q1 := set_ready q _).
  assert (ext q q1) as EX by (split; cbn; try done; unfold end_; lia).
  destruct (keep_lock q q1 t (Decide r.1 (len r)) IV eq_refl) as [L1 L2]; [auto|].
  apply (goto_inv q); try done.
  - destruct (iv_counters _ IV). split; cbn; try done; [unfold end_ in *; lia|]. intros i Hi.
    destruct (decide (i < ready_head q)); [apply co_slots0; lia|].
    replace i with (r.1 + Z.of_nat (Z.to_nat (i - r.1))) by lia. unfold end_, len in Hi. rewrite Hs by lia.
    destruct (lookup_lt_is_Some_2 r.2 (Z.to_nat (i - r.1))) as [w Ew]; [lia|]. rewrite Ew. symmetry.
    rewrite <- (HR4 _ _ Ew). f_equal. lia.
  - destruct (iv_doorbell _ IV) as (m & d & []). by exists m, d.
  - intros t' Hne. pose proof (iv_thread _ IV t') as [Ht' _]. apply (thread_ok_mono q); try done.
    intros r' Eo. pose proof (owns_ok _ _ _ Ht' Eo) as (? & _ & ? & _). cbn.
    destruct (iv_disj _ IV t t' r r' ltac:(done)); [by rewrite Et|done|lia|unfold end_ in *; lia].
  - cbn. unfold end_. lia.
Qed.

(** A step that changes [prod_idx], the lock or the doorbell. *)
Lemma post_inv q q1 t p : inv q -> resv_head q1 = resv_head q -> ready_head q1 = ready_head q -> cons_idx q1 = cons_idx q ->
  wqe q1 = wqe q -> hw q1 = hw q -> cqe q1 = cqe q -> executed q1 = executed q -> issued q1 = issued q -> threads q1 = threads q ->
  prod_idx q <= prod_idx q1 <= ready_head q -> (forall t' n, t' <> t -> threads q t' = Dbr n -> prod_idx q1 = prod_idx q) ->
  (exists m d, doorbell_ok q1 m d) -> thread_ok q1 p -> mode_ok p = true -> owns p = None ->
  (holds p = true -> post_send_lock q1 = true /\ forall t', t' <> t -> holds (threads q t') = false) ->
  (forall t', t' <> t -> holds (threads q t') = true -> post_send_lock q1 = true) ->
  inv (goto q1 t p).
Proof.
  intros IV E1 E2 E3 E4 E5 E6 E7 E8 E9 Hp Hd DB Hok Hm Ho L1 L2. destruct (iv_counters _ IV).
  apply (goto_inv q); try done.
  - split; rewrite ?E1, ?E2, ?E3, ?E4, ?E5, ?E6, ?E7, ?E8; try done. lia.
  - intros t' Hne. pose proof (iv_thread _ IV t') as [Ht' _]. apply (thread_ok_mono q).
    + split; rewrite ?E1, ?E2, ?E3, ?E7, ?E8; try done. lia.
    + rewrite E2. intros r' Eo. apply (owns_ok _ _ _ Ht' Eo).
    + intros. by rewrite E4.
    + intros n En. by eapply Hd.
    + done.
  - intros r t' r' Er. by rewrite Ho in Er.
Qed.

Lemma lock_free q t : inv q -> post_send_lock q = false -> holds (threads q t) = false.
Proof. intros IV E. apply not_true_is_false. intros Ht. apply (iv_lock _ IV) in Ht as [Ht _]. congruence. Qed.
Lemma lock_alone q t t' : inv q -> holds (threads q t) = true -> t' <> t -> holds (threads q t') = false.
Proof. intros IV E Hne. apply not_true_is_false. intros Ht. by apply Hne, (iv_lock _ IV t). Qed.
Lemma dbr_value_u16 n : dbr_value n = u16 n.
Proof. unfold dbr_value, wrap. change 0xffff with (Z.ones 16). by rewrite Z.land_ones. Qed.
Lemma mode_at q t p : inv q -> threads q t = p -> mode_ok p = true.
Proof. intros IV <-. apply (iv_thread _ IV). Qed.

Lemma lock_inv q t new : inv q -> threads q t = Lock new -> post_send_lock q = false -> inv (goto (set_lock q true) t (MaxProd new)).
Proof.
  intros IV Et El. pose proof (iv_thread _ IV t) as [Ht Hm]. rewrite Et in Ht, Hm. pose proof (heads _ IV).
  apply (post_inv q); try done; cbn; [lia|..].
  - destruct (iv_doorbell _ IV) as (m & d & []). by exists m, d.
  - intros _. split; [done|]. intros t' _. by apply lock_free.
Qed.
Lemma max_prod_inv q t new : inv q -> threads q t = MaxProd new ->
  inv (goto (set_prod q (Z.max (prod_idx q) new)) t (if bool_decide (new > prod_idx q) then Dbr new else Unlock)).
Proof.
  intros IV Et. pose proof (iv_thread _ IV t) as [Ht Hm]. rewrite Et in Ht, Hm. pose proof (heads _ IV). cbn in Ht.
  assert (holds (threads q t) = true) as Hh by (by rewrite Et). pose proof (lock_alone q t) as HL.
  pose proof (iv_lock _ IV t Hh) as [Hlk _].
  apply (post_inv q); try done; cbn; [lia|..].
  - intros t' n Hne En. pose proof (HL t' IV Hh Hne) as E. by rewrite En in E.
  - destruct (iv_doorbell _ IV) as (m & d & []). exists m, d. split; cbn; try done; lia.
  - case_bool_decide; cbn; [lia|done].
  - by case_bool_decide.
  - by case_bool_decide.
  - intros _. split; [done|]. intros t' Hne. by apply HL.
Qed.
Lemma dbr_inv q t new : inv q -> threads q t = Dbr new -> inv (goto (set_db q (dbr_value new) (rung q)) t Ring).
Proof.
  intros IV Et. pose proof (iv_thread _ IV t) as [Ht Hm]. rewrite Et in Ht, Hm. pose proof (heads _ IV). cbn in Ht, Hm.
  destruct (keep_lock q (set_db q (dbr_value new) (rung q)) t Ring IV eq_refl) as [L1 L2]; [right; by rewrite Et|].
  apply (post_inv q); try done; cbn; [lia|]. destruct (iv_doorbell _ IV) as (m & d & []). exists m, new.
  split; cbn; try done; [by apply dbr_value_u16|lia|]. intros Ha. by rewrite Ha in Hm.
Qed.
Lemma ring_inv q t : inv q -> threads q t = Ring -> inv (goto (set_db q (dbrec q) true) t Unlock).
Proof.
  intros IV Et. pose proof (iv_thread _ IV t) as [Ht Hm]. rewrite Et in Ht, Hm. pose proof (heads _ IV).
  destruct (keep_lock q (set_db q (dbrec q) true) t Unlock IV eq_refl) as [L1 L2]; [right; by rewrite Et|].
  apply (post_inv q); try done; cbn; [lia|]. destruct (iv_doorbell _ IV) as (m & d & []). by exists m, d.
Qed.
Lemma unlock_inv q t : inv q -> threads q t = Unlock -> inv (goto (set_lock q false) t Idle).
Proof.
  intros IV Et. assert (holds (threads q t) = true) as Hh by (by rewrite Et). pose proof (heads _ IV).
  apply (post_inv q); try done; cbn; [lia|..].
  - destruct (iv_doorbell _ IV) as (m & d & []). by exists m, d.
  - intros t' Hne E. by rewrite (lock_alone q t t' IV Hh Hne) in E.
Qed.
Lemma async_max_inv q t new : inv q -> threads q t = AsyncMax new ->
  inv (goto (set_prod q (Z.max (prod_idx q) new)) t (if bool_decide (new > prod_idx q) then AsyncBf new else Idle)).
Proof.
  intros IV Et. pose proof (iv_thread _ IV t) as [Ht Hm]. rewrite Et in Ht, Hm. pose proof (heads _ IV). cbn in Ht, Hm.
  set (p := if bool_decide _ then _ else _). assert (holds p = false) as Hp by (unfold p; by case_bool_decide).
  destruct (keep_lock q (set_prod q (Z.max (prod_idx q) new)) t p IV eq_refl) as [L1 L2]; [by left|].
  apply (post_inv q); try done; cbn; [lia|..].
  - intros t' n Hne En. pose proof (mode_at q t' _ IV En) as E. cbn in E. by rewrite Hm in E.
  - destruct (iv_doorbell _ IV) as (m & d & []). exists m, d. split; cbn; try done; lia.
  - unfold p. case_bool_decide; cbn; [lia|done].
  - unfold p. by case_bool_decide.
  - unfold p. by case_bool_decide.
Qed.
Lemma async_bf_inv q t new : inv q -> threads q t = AsyncBf new -> inv (goto (set_bf q (Z.max (bf q) new)) t Idle).
Proof.
  intros IV Et. pose proof (iv_thread _ IV t) as [Ht Hm]. rewrite Et in Ht, Hm. pose proof (heads _ IV). cbn in Ht, Hm.
  destruct (keep_lock q (set_bf q (Z.max (bf q) new)) t Idle IV eq_refl) as [L1 L2]; [by left|].
  apply (post_inv q); try done; cbn; [lia|]. destruct (iv_doorbell _ IV) as (m & d & []). exists m, d.
  split; cbn; try done; [lia|]. intros n En. pose proof (db_host0 n En). lia.
Qed.

Lemma thread_inv q t q' : inv q -> thread_step c q t = Some q' -> inv q'.
Proof.
  intros IV. pose proof (iv_thread _ IV t) as [Ht Hm]. pose proof (heads _ IV) as HH. unfold thread_step.
  destruct (threads q t) as [|idx k|idx k|idx k|idx wc k|idx new k|r k|r|base num|new|new|new| | |new|new] eqn:Et; cbn in Ht, Hm; try done.
  - intros [= <-]. by apply poll_start_inv.
  - case_bool_decide; [done|]. intros [= <-]. apply local_inv; try done; rewrite ?Et; auto. cbn. split; [done|lia].
  - intros [= <-]. apply local_inv; try done; rewrite ?Et; auto. cbn. split_and!; try apply Ht.
    exists (completed (executed q)). split_and!; [lia|lia|apply (co_cqe _ (iv_counters _ IV))|lia].
  - intros E. pose proof (poll_cons_inv q t idx wc k IV Et) as HI. revert E. case_bool_decide; [by intros [= <-]|].
    case_match; by intros [= <-].
  - intros [= <-]. by eapply poll_max_inv.
  - destruct (r.2 !! k) as [w|] eqn:Ew; intros [= <-]; [by apply write_inv|].
    apply local_inv; try done; rewrite ?Et; auto. cbn. destruct Ht as (H1 & H2 & H3 & H4).
    apply lookup_ge_None in Ew. by replace (length r.2) with k by lia.
  - case_bool_decide; [|done]. intros [= <-]. by apply cas_inv.
  - intros [= <-]. destruct (do_post_send _ _ _ _), (use_async_postsend c) eqn:Ea; apply local_inv; try done; rewrite ?Et; auto; cbn;
      rewrite ?Ea; try done; lia.
  - destruct (post_send_lock q) eqn:El; [done|]. intros [= <-]. by apply lock_inv.
  - intros [= <-]. by apply max_prod_inv.
  - intros [= <-]. by apply dbr_inv.
  - intros [= <-]. by apply ring_inv.
  - intros [= <-]. by apply unlock_inv.
  - intros [= <-]. by apply async_max_inv.
  - intros [= <-]. by apply async_bf_inv.
Qed.

Lemma host_inv q q' : inv q -> host_step c q = Some q' -> inv q'.
Proof.
  intros IV. unfold host_step. destruct (use_async_postsend c) eqn:Ea; [|done].
  destruct (iv_doorbell _ IV) as (m & d & DB). pose proof DB as [D1 D2 D3 D4 D5 D6]. specialize (D4 Ea).
  assert (forall n h, ext q (set_host q n h)) as EX1 by (intros; by split).
  destruct (host q) as [|snap|] eqn:Eh; intros [= <-].
  - apply (env_inv q); try done; [by destruct (iv_counters _ IV)|]. exists m, d. split; cbn; try done. by intros n [= <-].
  - specialize (D6 _ eq_refl). case_bool_decide; apply (env_inv q); try done; try (by destruct (iv_counters _ IV)).
    + exists m, snap. split; cbn; try done; try apply dbr_value_u16; lia.
    + exists m, d. by split.
  - apply (env_inv q); try done; try (by split); try (by destruct (iv_counters _ IV)). exists m, d. by split.
Qed.

Lemma fetch_inv q : inv q -> inv (set_nic q (dbrec q) false).
Proof.
  intros IV. destruct (iv_doorbell _ IV) as (m & d & []).
  apply (env_inv q); try done; try (by split); try (by destruct (iv_counters _ IV)). exists d, d. split; cbn; try done. lia.
Qed.

(** The NIC is at a WQE that was published, and finds it in its slot. *)
Lemma nic_wqe q w : inv q -> u16 (hw q) <> nic_prod q -> wqe q (ibgda_get_wqe_ptr (nwqes c) (hw q)) = Some w ->
  issued q !! Z.to_nat (hw q) = Some w /\ exists m d, doorbell_ok q m d /\ hw q < m.
Proof.
  intros IV Hne Hw. destruct (iv_doorbell _ IV) as (m & d & DB). pose proof (db_order _ _ _ DB) as HO. pose proof (heads _ IV) as HH.
  assert (hw q < m) as Hm.
  { destruct (decide (hw q = m)) as [E|]; [|lia]. by rewrite E, (db_nic _ _ _ DB) in Hne. }
  rewrite get_wqe_ptr_mod, (co_slots _ (iv_counters _ IV)) in Hw by (done || lia). split; [done|]. by exists m, d.
Qed.

Lemma execute_inv q w : inv q -> u16 (hw q) <> nic_prod q -> wqe q (ibgda_get_wqe_ptr (nwqes c) (hw q)) = Some w ->
  inv (execute sig q w).
Proof.
  intros IV Hne Hw. destruct (nic_wqe q w IV Hne Hw) as (Ei & m & d & DB & Hm). pose proof (length_executed q IV) as HL.
  pose proof (heads _ IV) as HH. destruct DB as [D1 D2 D3 D4 D5 D6].
  pose proof (completed_bound (executed q)) as HB.
  assert (completed (executed q) <= completed (executed q ++ [w])) as Hc by (rewrite completed_snoc; destruct (sig w); lia).
  apply (env_inv q); try done.
  - destruct (iv_counters _ IV). split; cbn; try done; [|lia| |].
    + rewrite Z2Nat.inj_add, Nat.add_1_r by lia. by rewrite (take_S_r _ _ w Ei), co_exec0.
    + rewrite completed_snoc. destruct (sig w); [f_equal; lia|done].
    + intros i Hi. apply co_slots0. lia.
  - exists m, d. split; cbn; try done. lia.
Qed.

Lemma reserve_inv q t l : inv q -> threads q t = Idle -> l <> [] ->
  inv (goto (set_resv q (resv_head q + Z.of_nat (length l)) (issued q ++ l)) t (wait_for_slot c (resv_head q, l))).
Proof.
  intros IV Et Hl. set (q1 := set_resv q _ _). set (r := (resv_head q, l)). pose proof (heads _ IV) as HH.
  assert (1 <= Z.of_nat (length l)) as Hlen by (destruct l; [done|cbn; lia]).
  assert (ext q q1) as EX by (split; cbn; try done; [lia|by apply prefix_app_r]).
  assert (resv_ok q1 r) as HR.
  { split_and!; cbn; [lia|done|done|]. intros k w Ew. rewrite (co_resv _ (iv_counters _ IV)), Nat2Z.id.
    rewrite lookup_app_r by lia. rewrite <- Ew. f_equal. lia. }
  assert (thread_ok q1 (wait_for_slot c r) /\ owns (wait_for_slot c r) = Some r /\ holds (wait_for_slot c r) = false /\
    mode_ok (wait_for_slot c r) = true) as (H1 & H2 & H3 & H4).
  { unfold wait_for_slot. case_bool_decide as Hge; split_and!; try done.
    - cbn in Hge |- *. split; [lia|]. by split.
    - cbn in Hge. split_and!; [done|unfold end_, len; cbn; lia|cbn; lia|]. intros. lia. }
  destruct (keep_lock q q1 t (wait_for_slot c r) IV eq_refl) as [L1 L2]; [by left|].
  apply (goto_inv q); try done.
  - destruct (iv_counters _ IV). split; cbn; try done; [rewrite length_app; lia| |lia|].
    + rewrite take_app_le; [done|]. lia.
    + intros i Hi. rewrite lookup_app_l by lia. by apply co_slots0.
  - destruct (iv_doorbell _ IV) as (m & d & []). by exists m, d.
  - intros t' _. by apply others_ok.
  - intros r1 t' r' Er Hne Er'. rewrite H2 in Er. injection Er as <-. right.
    pose proof (iv_thread _ IV t') as [Ht' _]. pose proof (owns_ok _ _ _ Ht' Er') as (_ & ? & _). done.
Qed.

(** ** Reachable states *)

(** Requests with at least one WQE. *)
Definition event_ok (a : event W) : Prop := match a with Reserve _ l => l <> [] | _ => True end.
Definition step (q q' : queue) : Prop := exists a, event_ok a /\ fire sig c q a = Some q'.
Definition reachable (q : queue) : Prop := rtc step init q.

Lemma fire_inv q a q' : inv q -> event_ok a -> fire sig c q a = Some q' -> inv q'.
Proof.
  intros IV Ha. destruct a as [t l|t|t| | |]; cbn.
  - destruct (threads q t) eqn:Et; try done. intros [= <-]. by apply reserve_inv.
  - destruct (threads q t) eqn:Et; try done. intros [= <-]. pose proof (heads _ IV).
    apply local_inv; try done; auto. cbn. split; lia.
  - by apply thread_inv.
  - by apply host_inv.
  - destruct (rung q); [|done]. intros [= <-]. by apply fetch_inv.
  - case_bool_decide as Hn; [done|]. intros (w & Hw & [= <-])%bind_Some. by apply execute_inv.
Qed.

Lemma init_inv : inv init.
Proof.
  destruct Hdepth. split; try done.
  - split; cbn; try done; lia.
  - exists 0, 0. split; cbn; try done; lia.
Qed.
Lemma step_inv q q' : inv q -> step q q' -> inv q'.
Proof. intros IV (a & Ha & Hf). by eapply fire_inv. Qed.
Lemma steps_inv q q' : inv q -> rtc step q q' -> inv q'.
Proof. intros IV HS. induction HS; [done|]. eauto using step_inv. Qed.
Lemma reachable_inv q : reachable q -> inv q.
Proof. apply steps_inv, init_inv. Qed.
Lemma run_reachable l : forall q q', Forall event_ok l -> reachable q -> run sig c l q = Some q' -> reachable q'.
Proof.
  induction l as [|a l IH]; intros q q' Hok HR E; cbn in E; [by simplify_eq|]. apply Forall_cons in Hok as [Ha Hok].
  apply bind_Some in E as (q1 & E1 & E2). apply (IH q1); try done. eapply rtc_r; [exact HR|]. by exists a.
Qed.

Lemma take_le_prefix {A} (l : list A) a b : (a <= b)%nat -> take a l `prefix_of` take b l.
Proof.
  intros Hab. exists (drop a (take b l)). replace (take a l) with (take a (take b l)) by (rewrite take_take; f_equal; lia).
  by rewrite take_drop.
Qed.
Lemma executed_prefix q : inv q -> executed q `prefix_of` issued q.
Proof. intros IV. rewrite (co_exec _ (iv_counters _ IV)). exists (drop (Z.to_nat (hw q)) (issued q)). by rewrite take_drop. Qed.

(** ** A quiet *)
Definition quiet_idx (p : pc) : option Z :=
  match p with
  | PollStart idx Quiet | PollProd idx Quiet | PollRead idx Quiet | PollCons idx _ Quiet | PollMax idx _ Quiet => Some idx
  | _ => None
  end.

(** The thread is in the quiet, or everything up to [idx] is executed. *)
Definition quiet_or_done (q : queue) (t : nat) (idx : Z) : Prop := quiet_idx (threads q t) = Some idx \/ idx <= hw q.

Lemma hw_grows q a q' : fire sig c q a = Some q' -> hw q <= hw q'.
Proof.
  destruct a as [t l|t|t| | |]; cbn; try (destruct (threads q t); try done; intros [= <-]; cbn; lia).
  - unfold thread_step. repeat case_match; intros [= <-]; cbn; lia.
  - unfold host_step. repeat case_match; intros [= <-]; cbn; lia.
  - case_match; [|done]. intros [= <-]. cbn. lia.
  - case_bool_decide; [done|]. intros (w & _ & [= <-])%bind_Some. cbn. lia.
Qed.

Lemma issued_grows q a q' : fire sig c q a = Some q' -> issued q `prefix_of` issued q'.
Proof.
  destruct a as [t l|t|t| | |]; cbn; try (destruct (threads q t); try done; intros [= <-]; cbn; by try apply prefix_app_r).
  - unfold thread_step. repeat case_match; intros [= <-]; done.
  - unfold host_step. repeat case_match; intros [= <-]; done.
  - case_match; [|done]. by intros [= <-].
  - case_bool_decide; [done|]. by intros (w & _ & [= <-])%bind_Some.
Qed.

Lemma quiet_thread_step q t q' idx : inv q -> quiet_idx (threads q t) = Some idx -> thread_step c q t = Some q' -> quiet_or_done q' t idx.
Proof.
  intros IV. pose proof (iv_thread _ IV t) as [Ht _]. pose proof (heads _ IV) as HH. unfold thread_step, quiet_or_done.
  destruct (threads q t) as [|i k|i k|i k|i wc k|i new k|r k|r|base num|new|new|new| | |new|new]; try done; cbn in Ht;
    try (destruct k; [done|]); intros [= ->]; cbn [polled].
  - intros [= <-]. cbn. rewrite at_pc_same. case_bool_decide; [right; lia|by left].
  - case_bool_decide; [done|]. intros [= <-]. cbn. rewrite at_pc_same. by left.
  - intros [= <-]. cbn. rewrite at_pc_same. by left.
  - case_bool_decide; [intros [= <-]; right; cbn; lia|]. case_match; intros [= <-]; cbn; rewrite at_pc_same; by left.
  - intros [= <-]. right. cbn. lia.
Qed.

Lemma quiet_step q a q' t idx : inv q -> fire sig c q a = Some q' -> quiet_or_done q t idx -> quiet_or_done q' t idx.
Proof.
  intros IV HF [Hq|Hd]; [|right; pose proof (hw_grows _ _ _ HF); lia].
  destruct a as [t' l|t'|t'| | |]; cbn in HF.
  - destruct (threads q t') eqn:Et; try done. injection HF as <-. left. cbn. rewrite at_pc_other; [done|]. intros ->. by rewrite Et in Hq.
  - destruct (threads q t') eqn:Et; try done. injection HF as <-. left. cbn. rewrite at_pc_other; [done|]. intros ->. by rewrite Et in Hq.
  - destruct (decide (t' = t)) as [->|Hne]; [by eapply quiet_thread_step|]. left. rewrite <- Hq. f_equal.
    unfold thread_step in HF. repeat case_match; try done; injection HF as <-; cbn; by rewrite at_pc_other.
  - left. unfold host_step in HF. repeat case_match; try done; injection HF as <-; done.
  - destruct (rung q); [|done]. injection HF as <-. by left.
  - case_bool_decide; [done|]. apply bind_Some in HF as (w & _ & [= <-]). by left.
Qed.
End Protocol.

Section Safety.
Context {W : Type} (sig : W -> bool) (c : config) (Hdepth : depth_ok (nwqes c)) (Hcqes : ncqes c = nwqes c).

(** C6: in every state that any number of threads reach, under any interleaving
    of their accesses with the NIC's and with either way of ringing the
    doorbell, what the NIC has executed is a prefix of the WQEs in the order of
    their reservations, each once and unchanged; it has executed only published
    WQEs, and every published WQE it has still to execute is intact in its slot. *)
Theorem ibgda_fifo q : reachable (sig := sig) (c := c) q ->
  executed q `prefix_of` issued q /\ Z.of_nat (length (executed q)) = hw q /\ hw q <= ready_head q /\
  forall i, hw q <= i < ready_head q -> wqe q (ibgda_get_wqe_ptr (nwqes c) i) = issued q !! Z.to_nat i.
Proof.
  intros IV%reachable_inv; [|done..]. pose proof (heads _ IV). split_and!; [exact (executed_prefix _ IV)|exact (length_executed _ IV)|lia|].
  intros i Hi. rewrite get_wqe_ptr_mod by (done || lia). by apply (co_slots _ (iv_counters _ IV)).
Qed.

(** C27: when a thread that began a quiet is idle again, the NIC has executed every
    WQE that was published when the quiet began. *)
Theorem ibgda_quiet_correct q q1 q2 t : reachable (sig := sig) (c := c) q -> fire sig c q (Await t) = Some q1 ->
  rtc (step (sig := sig) (c := c)) q1 q2 -> threads q2 t = Idle ->
  take (Z.to_nat (ready_head q)) (issued q) `prefix_of` executed q2.
Proof.
  intros IV%reachable_inv HA HS Hi; [|done..].
  assert (inv (sig := sig) (c := c) q1) as IV1 by (by apply (fire_inv Hdepth Hcqes q (Await t) q1)).
  assert (quiet_or_done q1 t (ready_head q) /\ issued q `prefix_of` issued q1) as [HQ HP].
  { cbn in HA. destruct (threads q t); try done. injection HA as <-. split; [|done]. left. cbn. by rewrite at_pc_same. }
  clear HA. assert (inv (sig := sig) (c := c) q2 /\ quiet_or_done q2 t (ready_head q) /\ issued q `prefix_of` issued q2) as (IV2 & HQ2 & HP2).
  { revert IV1 HQ HP. clear Hi. induction HS as [|q1 q1' q2 (a & Ha & Hf) _ IH]; [done|]. intros IV1 HQ HP.
    apply IH; [by eapply fire_inv|by eapply quiet_step|]. etrans; [done|]. by eapply issued_grows. }
  destruct HQ2 as [E|Hle]; [by rewrite Hi in E|]. rewrite (co_exec _ (iv_counters _ IV2)).
  pose proof (heads _ IV). pose proof (co_resv _ (iv_counters _ IV)) as HR. destruct HP2 as [l ->].
  rewrite <- (take_app_le _ l) by lia. apply take_le_prefix. lia.
Qed.
End Safety.
(** ** A small queue

    WQEs for the examples: all alike, all asking for a completion. *)
Definition wqes (n : Z) : list unit := replicate (Z.to_nat n) ().
Definition always (w : unit) : bool := true.
Definition queue_of (c : config) (l : list (event unit)) : queue unit := default init (run always c l init).
Lemma queue_of_reachable c l : Forall event_ok l -> (if run always c l init is Some _ then true else false) = true ->
  reachable (sig := always) (c := c) (queue_of c l).
Proof.
  intros Hok Hs. unfold queue_of. destruct (run always c l init) as [q|] eqn:E; [|done].
  by apply (run_reachable l init); [|apply rtc_refl|].
Qed.

Definition depth128 (batch : Z) : config := MkConfig 128 128 batch false.
Lemma depth128_ok batch : depth_ok (nwqes (depth128 batch)).
Proof. split; [cbn; lia|]. by exists 7. Qed.


(** A request of two WQEs from reservation to doorbell, and the NIC. *)
Definition two_wqes : list (event unit) := Reserve 0 (wqes 2) :: replicate 10 (Thread 0).
Definition nic2 : list (event unit) := [Fetch; Execute; Execute].
Lemma ibgda_fifo_witness : let q := queue_of (depth128 32) (two_wqes ++ nic2) in
  executed q = [(); ()] /\ executed q `prefix_of` issued q.
Proof.
  split; [by vm_compute|].
  apply (ibgda_fifo always (depth128 32) (depth128_ok 32) eq_refl). apply queue_of_reachable; [|by vm_compute].
  repeat constructor; by vm_compute.
Defined.

Lemma run_steps {W} (sig : W -> bool) c l : forall q q', Forall event_ok l -> run sig c l q = Some q' -> rtc (step (sig := sig) (c := c)) q q'.
Proof.
  induction l as [|a l IH]; intros q q' Hok E; cbn in E; [simplify_eq; apply rtc_refl|]. apply Forall_cons in Hok as [Ha Hok].
  apply bind_Some in E as (q1 & E1 & E2). eapply rtc_l; [by exists a|]. by apply IH.
Qed.
Definition quiet2 : list (event unit) := [Thread 0; Thread 0] ++ nic2 ++ [Thread 0; Thread 0; Thread 0].
Lemma ibgda_quiet_correct_witness : let q := queue_of (depth128 32) two_wqes in
  let q2 := queue_of (depth128 32) (two_wqes ++ [Await 0] ++ quiet2) in
  ready_head q = 2 /\ threads q2 0%nat = Idle /\ take (Z.to_nat (ready_head q)) (issued q) `prefix_of` executed q2.
Proof.
  split; [by vm_compute|]. split; [by vm_compute|].
  apply (ibgda_quiet_correct always (depth128 32) (depth128_ok 32) eq_refl (queue_of (depth128 32) two_wqes)
    (queue_of (depth128 32) (two_wqes ++ [Await 0])) (queue_of (depth128 32) (two_wqes ++ [Await 0] ++ quiet2)) 0).
  - apply queue_of_reachable; [|by vm_compute]. repeat constructor; by vm_compute.
  - by vm_compute.
  - apply (run_steps always (depth128 32) quiet2); [by repeat constructor|by vm_compute].
  - by vm_compute.
Defined.

End IbgdaProtocol.
