(* ===== verification/IbgdaLive.v ===== *)
(** * GPU-initiated InfiniBand: the send queue does not get stuck

    Requests that leave room for a batch ([fits]) and end in a WQE that asks for
    a completion: from every reachable state all threads can finish and the NIC
    can execute everything, without new requests.  The reason a thread may rely
    on: WQEs are published in order, and at most a batch less one of the published
    ones are not posted unless some thread is about to post them.  Longer
    requests can block the queue for ever ([batch_stuck], [put_signal_stuck]). *)
From stdpp Require Import base list option relations.
From Stdlib Require Import ZArith Lia.
From S2P Require Import Prelude IbgdaQueue IbgdaProtocol.
Import IbgdaQueue IbgdaProtocol.

Module IbgdaLive.

Section Live.
Context {W : Type} {sig : W -> bool} {c : config} {ts : list nat} {e : Z}.
Context (Hdepth : depth_ok (nwqes c)) (Hcqes : ncqes c = nwqes c) (He : 0 <= e) (Hbatch : num_requests_in_batch c = 2 ^ e).
Context (Hts : NoDup ts).
Local Abbreviation queue := (queue W).
Local Abbreviation pc := (pc W).
Local Abbreviation inv := (inv (sig := sig) (c := c)).
Local Abbreviation batch := (num_requests_in_batch c).

(** ** Requests *)
Definition fits (l : list W) : Prop := Z.of_nat (length l) + batch - 1 <= nwqes c.
Definition request_ok (l : list W) : Prop := (exists w, last l = Some w /\ sig w = true) /\ fits l.
Definition event_fits (a : event W) : Prop :=
  match a with Reserve t l => t ∈ ts /\ request_ok l | Await t => t ∈ ts | _ => True end.
Definition fit_step (q q' : queue) : Prop := exists a, event_fits a /\ fire sig c q a = Some q'.
(** A step that begins no request. *)
Definition internal (a : event W) : Prop := match a with Reserve _ _ | Await _ => False | _ => True end.
Definition inner (q q' : queue) : Prop := exists a, internal a /\ fire sig c q a = Some q'.

Lemma event_fits_ok a : event_fits a -> event_ok a.
Proof. destruct a as [t l|t|t| | |]; try done. intros (_ & (w & Hw & _) & _) ->. done. Qed.
Lemma internal_fits a : internal a -> event_fits a.
Proof. by destruct a. Qed.

(** ** What is pending *)

(** The last WQE before [i] asks for a completion. *)
Definition boundary (q : queue) (i : Z) : Prop :=
  i = 0 \/ (1 <= i /\ exists w, issued q !! Z.to_nat (i - 1) = Some w /\ sig w = true).
Definition marked (q : queue) (p : pc) : Prop :=
  match p with
  | Decide base num => boundary q (base + num)
  | Lock n | MaxProd n | AsyncMax n => boundary q n
  | _ => match owns p with Some r => request_ok r.2 | None => True end
  end.
(** The thread will post the batches published so far; it will post all. *)
Definition posts_batch (q : queue) (p : pc) : Prop :=
  match p with
  | Decide base num => batch_full batch base num = true /\ batches batch (ready_head q) <= base + num
  | Lock n | MaxProd n | AsyncMax n => batches batch (ready_head q) <= n
  | _ => False
  end.
Definition posts_last (q : queue) (p : pc) : Prop :=
  match p with
  | Decide base num => base + num = ready_head q
  | Lock n | MaxProd n | AsyncMax n => n = ready_head q
  | _ => False
  end.
Definition someone (q : queue) (P : pc -> Prop) : Prop := exists t, P (threads q t).

Record doorbell_due (q : queue) (m d : Z) : Prop := {
  du_ok : doorbell_ok (c := c) q m d;
  du_nic : m = d \/ rung q = true \/ someone q (fun p => p = Ring) \/ (host q = HRing /\ use_async_postsend c = true);
  du_rec : use_async_postsend c = false -> d = prod_idx q \/ someone q (fun p => p = Dbr (prod_idx q));
  du_bf : use_async_postsend c = true -> bf q = prod_idx q \/ someone q (fun p => p = AsyncBf (prod_idx q))
}.

Record live (q : queue) : Prop := {
  lv_fin : forall t, t ∉ ts -> threads q t = Idle;
  lv_marked : forall t, marked q (threads q t);
  lv_prod : boundary q (prod_idx q);
  lv_cover : forall i, ready_head q <= i < resv_head q ->
    someone q (fun p => exists r, owns p = Some r /\ r.1 <= i < end_ r);
  lv_batch : batches batch (ready_head q) <= prod_idx q \/ someone q (posts_batch q);
  lv_last : prod_idx q = ready_head q \/ ready_head q < resv_head q \/ someone q (posts_last q);
  lv_lock : post_send_lock q = true -> someone q (fun p => holds p = true);
  lv_db : exists m d, doorbell_due q m d
}.

(** ** One thread moves *)
Lemma someone_keep (q q1 : queue) t p (P P' : pc -> Prop) : threads q1 = threads q ->
  (P (threads q t) -> P' p) -> (forall t', t' <> t -> P (threads q t') -> P' (threads q t')) -> someone q P -> someone (goto q1 t p) P'.
Proof.
  intros HT Hp Ho [t' Ht']. destruct (decide (t' = t)) as [->|Hne].
  - exists t. cbn. rewrite at_pc_same. auto.
  - exists t'. cbn. rewrite at_pc_other, HT by done. auto.
Qed.
Lemma someone_self (q : queue) t p (P : pc -> Prop) : P p -> someone (goto q t p) P.
Proof. intros HP. exists t. cbn. by rewrite at_pc_same. Qed.


Lemma boundary_mono (q q1 : queue) i : issued q `prefix_of` issued q1 -> boundary q i -> boundary q1 i.
Proof. intros HP [->|(Hi & w & Hw & Hs)]; [by left|]. right. split; [done|]. exists w. split; [|done]. by eapply prefix_lookup_Some. Qed.
Lemma marked_mono (q q1 : queue) p : issued q `prefix_of` issued q1 -> marked q p -> marked q1 p.
Proof. intros HP. destruct p; cbn; try done; by apply boundary_mono. Qed.

Lemma live_goto (q q1 : queue) t p : live q -> threads q1 = threads q -> t ∈ ts -> issued q `prefix_of` issued q1 ->
  marked q1 p -> boundary q1 (prod_idx q1) ->
  (forall i, ready_head q1 <= i < resv_head q1 -> someone (goto q1 t p) (fun p => exists r, owns p = Some r /\ r.1 <= i < end_ r)) ->
  batches batch (ready_head q1) <= prod_idx q1 \/ someone (goto q1 t p) (posts_batch q1) ->
  prod_idx q1 = ready_head q1 \/ ready_head q1 < resv_head q1 \/ someone (goto q1 t p) (posts_last q1) ->
  (post_send_lock q1 = true -> someone (goto q1 t p) (fun p => holds p = true)) ->
  (exists m d, doorbell_due (goto q1 t p) m d) -> live (goto q1 t p).
Proof.
  intros LV HT Hin HI Hm Hb Hcov Hbat Hlast Hlk Hdb. split; try done.
  - intros t' Hni. cbn. rewrite at_pc_other, HT by (by intros ->). by apply (lv_fin _ LV).
  - intros t'. cbn. destruct (decide (t' = t)) as [->|Hne]; [by rewrite at_pc_same|]. rewrite at_pc_other, HT by done.
    eapply marked_mono; [exact HI|]. apply (lv_marked _ LV).
Qed.

(** The part of the state the doorbell depends on. *)
Definition same_db (q q1 : queue) : Prop :=
  prod_idx q1 = prod_idx q /\ bf q1 = bf q /\ prod_idx_cache q1 = prod_idx_cache q /\ host q1 = host q /\ dbrec q1 = dbrec q /\
  rung q1 = rung q /\ nic_prod q1 = nic_prod q /\ hw q1 = hw q.

Lemma db_keep (q q1 : queue) t p m d : doorbell_due q m d -> same_db q q1 -> threads q1 = threads q ->
  (threads q t = Ring -> p = Ring) -> (forall n, threads q t = Dbr n -> p = Dbr n) -> (forall n, threads q t = AsyncBf n -> p = AsyncBf n) ->
  doorbell_due (goto q1 t p) m d.
Proof.
  intros [OK Hn Hr Hbf] (E1 & E2 & E3 & E4 & E5 & E6 & E7 & E8) HT H1 H2 H3. split.
  - destruct OK. split; cbn; rewrite ?E1, ?E2, ?E3, ?E4, ?E5, ?E6, ?E7, ?E8; done.
  - cbn. rewrite E6, E4. destruct Hn as [?|[?|[Hs|?]]]; auto. right. right. left. revert Hs. by apply someone_keep.
  - cbn. rewrite E1. intros Ha. destruct (Hr Ha) as [?|Hs]; auto. right. revert Hs. apply someone_keep; auto.
  - cbn. rewrite E2, E1. intros Ha. destruct (Hbf Ha) as [?|Hs]; auto. right. revert Hs. apply someone_keep; auto.
Qed.

Lemma cover_keep (q q1 : queue) t p : live q -> threads q1 = threads q -> ready_head q1 = ready_head q -> resv_head q1 = resv_head q ->
  owns p = owns (threads q t) ->
  forall i, ready_head q1 <= i < resv_head q1 -> someone (goto q1 t p) (fun p => exists r, owns p = Some r /\ r.1 <= i < end_ r).
Proof.
  intros LV HT Hr Hv Ho i Hi. rewrite Hr, Hv in Hi. pose proof (lv_cover _ LV i Hi) as Hc. revert Hc. apply someone_keep; auto.
  by rewrite Ho.
Qed.

(** A step before the publication, or of a quiet. *)
Definition passive (p : pc) : bool :=
  match p with Idle | PollStart _ _ | PollProd _ _ | PollRead _ _ | PollCons _ _ _ | PollMax _ _ _ | Writing _ _ | Cas _ => true | _ => false end.
Lemma passive_live (q q1 : queue) t p : live q -> t ∈ ts -> threads q1 = threads q -> same_db q q1 ->
  resv_head q1 = resv_head q -> ready_head q1 = ready_head q -> issued q1 = issued q -> post_send_lock q1 = post_send_lock q ->
  passive (threads q t) = true -> passive p = true -> owns p = owns (threads q t) -> live (goto q1 t p).
Proof.
  intros LV Hin HT SD Hv Hr HI Hl Hp1 Hp2 Ho. pose proof SD as (Hpr & _).
  apply (live_goto q); try done; rewrite ?HI, ?Hr, ?Hv, ?Hpr, ?Hl; try done.
  - apply (marked_mono q); [by rewrite HI|]. pose proof (lv_marked _ LV t) as Hm. unfold marked in *. rewrite <- Ho in Hm.
    destruct p; try done; destruct (threads q t); try done.
  - apply (boundary_mono q); [by rewrite HI|]. apply (lv_prod _ LV).
  - rewrite <- Hr, <- Hv. by apply cover_keep with q.
  - destruct (lv_batch _ LV) as [?|Hs]; [by left|right]. revert Hs. unfold posts_batch. rewrite Hr. apply someone_keep; auto.
    by destruct (threads q t).
  - destruct (lv_last _ LV) as [?|[?|Hs]]; [by left|by right; left|right; right]. revert Hs. unfold posts_last. rewrite Hr.
    apply someone_keep; auto. by destruct (threads q t).
  - intros Hs%(lv_lock _ LV). revert Hs. apply someone_keep; auto. by destruct (threads q t).
  - destruct (lv_db _ LV) as (m & d & DU). exists m, d. apply (db_keep q); try done; by destruct (threads q t).
Qed.

Lemma in_ts q t : live q -> threads q t <> Idle -> t ∈ ts.
Proof. intros LV Hne. destruct (decide (t ∈ ts)) as [?|Hni]; [done|]. by destruct Hne; apply (lv_fin _ LV). Qed.

Lemma cas_live q t r : inv q -> live q -> threads q t = Cas r -> ready_head q = r.1 ->
  live (goto (set_ready q (end_ r)) t (Decide r.1 (len r))).
Proof.
  intros IV LV Et Er. pose proof (iv_thread _ IV t) as [Ht _]. rewrite Et in Ht. destruct Ht as ((_ & HR2 & HR3 & HR4) & _).
  pose proof (heads _ IV) as HH. pose proof (lv_marked _ LV t) as Hmk. rewrite Et in Hmk. destruct Hmk as [(w & Hw & Hs) _].
  set (q1 := set_ready q (end_ r)).
  apply (live_goto q); try done; [apply (in_ts q); [done|by rewrite Et]|..].
  - right. fold (end_ r). split; [unfold end_; lia|]. exists w. split; [|done]. rewrite last_lookup in Hw.
    change (issued q1) with (issued q). rewrite <- (HR4 _ _ Hw). f_equal. unfold end_, len in *. lia.
  - apply (lv_prod _ LV).
  - cbn. intros i Hi. destruct (lv_cover _ LV i ltac:(unfold end_ in *; lia)) as (t' & r' & Eo & Hi').
    exists t'. cbn. destruct (decide (t' = t)) as [->|Hne].
    + rewrite Et in Eo. injection Eo as <-. lia.
    + rewrite at_pc_other by done. eauto.
  - destruct (decide (batches batch (end_ r) = batches batch (ready_head q))) as [E|Hne].
    + destruct (lv_batch _ LV) as [?|Hsm]; [left; cbn; lia|right]. revert Hsm. apply someone_keep; [done|by rewrite Et|].
      intros t' _. unfold posts_batch. cbn. rewrite E. done.
    + right. apply someone_self. cbn. fold (end_ r). pose proof (batches_bound batch (end_ r)) as HB. split; [|apply HB; rewrite Hbatch; lia].
      unfold batch_full. rewrite Hbatch, !land_batch by done. rewrite Hbatch, Er in Hne.
      rewrite bool_decide_eq_true_2; [done|]. fold (end_ r). congruence.
  - right. right. by apply someone_self.
  - intros Hl%(lv_lock _ LV). revert Hl. apply someone_keep; [done|by rewrite Et|done].
  - destruct (lv_db _ LV) as (m & d & DU). exists m, d. apply (db_keep q); try done; by rewrite Et.
Qed.

Lemma decide_live q t base num : inv q -> live q -> threads q t = Decide base num ->
  live (goto q t (if do_post_send batch (resv_head q) base num
                  then (if use_async_postsend c then AsyncMax (base + num) else Lock (base + num)) else Idle)).
Proof.
  intros IV LV Et. pose proof (heads _ IV) as HH. pose proof (iv_thread _ IV t) as [Ht _]. rewrite Et in Ht. cbn in Ht.
  pose proof (lv_marked _ LV t) as Hmk. rewrite Et in Hmk. set (p := if do_post_send _ _ _ _ then _ else _).
  assert (p = Idle \/ p = AsyncMax (base + num) \/ p = Lock (base + num)) as Hp by (unfold p; repeat case_match; auto).
  apply (live_goto q); try done; [apply (in_ts q); [done|by rewrite Et]|..].
  - destruct Hp as [->|[->| ->]]; done.
  - apply (lv_prod _ LV).
  - apply (cover_keep q); try done. rewrite Et. destruct Hp as [->|[->| ->]]; done.
  - destruct (lv_batch _ LV) as [?|Hsm]; [by left|right]. revert Hsm. apply someone_keep; [done| |done].
    rewrite Et. intros [Hf Hb]. unfold p, do_post_send. rewrite Hf, orb_true_r. by case_match.
  - destruct (lv_last _ LV) as [?|[?|Hsm]]; [by left|by right; left|].
    destruct (decide (base + num = ready_head q /\ do_post_send batch (resv_head q) base num = false)) as [[E Hno]|Hyes].
    + right. left. unfold do_post_send in Hno. apply orb_false_elim in Hno as [Hno%bool_decide_eq_false_1 _]. lia.
    + right. right. revert Hsm. apply someone_keep; [done| |done]. rewrite Et. cbn. intros E. unfold p.
      destruct (do_post_send _ _ _ _); [by case_match|]. by destruct Hyes.
  - intros Hl%(lv_lock _ LV). revert Hl. apply someone_keep; [done|by rewrite Et|done].
  - destruct (lv_db _ LV) as (m & d & DU). exists m, d. apply (db_keep q); try done; by rewrite Et.
Qed.

Lemma lock_live q t new : inv q -> live q -> threads q t = Lock new -> live (goto (set_lock q true) t (MaxProd new)).
Proof.
  intros IV LV Et. pose proof (lv_marked _ LV t) as Hmk. rewrite Et in Hmk.
  apply (live_goto q); try done; [apply (in_ts q); [done|by rewrite Et]|..].
  - apply (lv_prod _ LV).
  - apply (cover_keep q); try done. by rewrite Et.
  - destruct (lv_batch _ LV) as [?|Hsm]; [by left|right]. revert Hsm. apply someone_keep; [done|by rewrite Et|done].
  - destruct (lv_last _ LV) as [?|[?|Hsm]]; [by left|by right; left|right; right]. revert Hsm. apply someone_keep; [done|by rewrite Et|done].
  - intros _. by apply someone_self.
  - destruct (lv_db _ LV) as (m & d & DU). exists m, d. apply (db_keep q); try done; by rewrite Et.
Qed.

(** Raising [prod_idx] to [new], in either mode. *)
Lemma prod_live q t old new p : inv q -> live q -> threads q t = old -> owns old = None -> marked q old -> 0 <= new <= ready_head q ->
  boundary q new -> holds p = holds old -> owns p = None -> marked q p ->
  (posts_batch q old -> batches batch (ready_head q) <= new) -> (posts_last q old -> ready_head q = new) -> old <> Idle ->
  (exists m d, doorbell_due (goto (set_prod q (Z.max (prod_idx q) new)) t p) m d) ->
  live (goto (set_prod q (Z.max (prod_idx q) new)) t p).
Proof.
  intros IV LV Et Ho Hmk Hn Hb Hh Hop Hmp Hpb Hpl Hidle Hdb. pose proof (heads _ IV) as HH.
  apply (live_goto q); try done; [apply (in_ts q); [done|by rewrite Et]|..].
  - cbn. destruct (Z.max_spec (prod_idx q) new) as [[_ ->]|[_ ->]]; [done|apply (lv_prod _ LV)].
  - apply (cover_keep q); try done. by rewrite Et, Ho, Hop.
  - cbn. destruct (lv_batch _ LV) as [?|[t' Ht']]; [left; lia|]. destruct (decide (t' = t)) as [->|Hne].
    + rewrite Et in Ht'. left. specialize (Hpb Ht'). lia.
    + right. exists t'. cbn. by rewrite at_pc_other.
  - cbn. destruct (lv_last _ LV) as [?|[?|[t' Ht']]]; [left; lia|by right; left|]. destruct (decide (t' = t)) as [->|Hne].
    + rewrite Et in Ht'. left. specialize (Hpl Ht'). lia.
    + right. right. exists t'. cbn. by rewrite at_pc_other.
  - intros Hl%(lv_lock _ LV). revert Hl. apply someone_keep; [done|rewrite Et; congruence|done].
Qed.

Lemma max_prod_live q t new : inv q -> live q -> threads q t = MaxProd new ->
  live (goto (set_prod q (Z.max (prod_idx q) new)) t (if bool_decide (new > prod_idx q) then Dbr new else Unlock)).
Proof.
  intros IV LV Et. pose proof (lv_marked _ LV t) as Hmk. pose proof (iv_thread _ IV t) as [Ht Hmode]. rewrite Et in Hmk, Ht, Hmode.
  cbn in Ht, Hmode. pose proof (heads _ IV).
  apply (prod_live q t (MaxProd new)); try done; try (by case_bool_decide). destruct (lv_db _ LV) as (m & d & DU). exists m, d.
  case_bool_decide.
  - pose proof DU as [OK Hn Hr Hbf]. split; cbn.
    + destruct OK. split; cbn; try done; lia.
    + destruct Hn as [?|[?|[Hs|?]]]; auto. right. right. left. revert Hs. apply someone_keep; [done|by rewrite Et|done].
    + intros _. right. apply someone_self. f_equal. lia.
    + intros Ha. by rewrite Ha in Hmode.
  - apply (db_keep q); try done; try (by rewrite Et). split_and!; try done. cbn. lia.
Qed.
Lemma async_max_live q t new : inv q -> live q -> threads q t = AsyncMax new ->
  live (goto (set_prod q (Z.max (prod_idx q) new)) t (if bool_decide (new > prod_idx q) then AsyncBf new else Idle)).
Proof.
  intros IV LV Et. pose proof (lv_marked _ LV t) as Hmk. pose proof (iv_thread _ IV t) as [Ht Hmode]. rewrite Et in Hmk, Ht, Hmode.
  cbn in Ht, Hmode. pose proof (heads _ IV).
  apply (prod_live q t (AsyncMax new)); try done; try (by case_bool_decide). destruct (lv_db _ LV) as (m & d & DU). exists m, d.
  case_bool_decide.
  - pose proof DU as [OK Hn Hr Hbf]. split; cbn.
    + destruct OK. split; cbn; try done; lia.
    + destruct Hn as [?|[?|[Hs|?]]]; auto. right. right. left. revert Hs. apply someone_keep; [done|by rewrite Et|done].
    + intros Ha. by rewrite Ha in Hmode.
    + intros _. right. apply someone_self. f_equal. lia.
  - apply (db_keep q); try done; try (by rewrite Et). split_and!; try done. cbn. lia.
Qed.

(** The steps after the posted index is recorded. *)
Definition posted (p : pc) : bool := match p with Dbr _ | Ring | Unlock | AsyncBf _ => true | _ => false end.
Lemma posted_live (q q1 : queue) t p : live q -> threads q1 = threads q -> resv_head q1 = resv_head q -> ready_head q1 = ready_head q ->
  prod_idx q1 = prod_idx q -> issued q1 = issued q -> posted (threads q t) = true -> posted p = true \/ p = Idle ->
  (post_send_lock q1 = true -> someone (goto q1 t p) (fun p => holds p = true)) ->
  (exists m d, doorbell_due (goto q1 t p) m d) -> live (goto q1 t p).
Proof.
  intros LV HT Hv Hr Hp HI Hpo Hpp Hl Hdb.
  assert (marked q1 p) as Hm by (destruct Hpp as [?| ->]; [by destruct p|done]).
  assert (owns p = None) as Ho by (destruct Hpp as [?| ->]; [by destruct p|done]).
  apply (live_goto q); try done; rewrite ?HI, ?Hr, ?Hv, ?Hp; try done.
  - apply (in_ts q); [done|]. intros E. by rewrite E in Hpo.
  - apply (boundary_mono q); [by rewrite HI|]. apply (lv_prod _ LV).
  - rewrite <- Hr, <- Hv. apply (cover_keep q); try done. rewrite Ho. by destruct (threads q t).
  - destruct (lv_batch _ LV) as [?|Hs]; [by left|right]. revert Hs. unfold posts_batch. rewrite Hr. apply someone_keep; auto.
    by destruct (threads q t).
  - destruct (lv_last _ LV) as [?|[?|Hs]]; [by left|by right; left|right; right]. revert Hs. unfold posts_last. rewrite Hr.
    apply someone_keep; auto. by destruct (threads q t).
Qed.

Lemma dbr_live q t new : inv q -> live q -> threads q t = Dbr new -> live (goto (set_db q (dbr_value new) (rung q)) t Ring).
Proof.
  intros IV LV Et. pose proof (iv_thread _ IV t) as [Ht Hmode]. rewrite Et in Ht, Hmode. cbn in Ht, Hmode. subst new.
  apply (posted_live q); try done; [by rewrite Et|by left|intros _; by apply someone_self|].
  destruct (lv_db _ LV) as (m & d & DU). exists m, (prod_idx q). destruct DU as [[] _ _ _]. split.
  - split; cbn; try done; [apply dbr_value_u16|lia|]. intros Ha. by rewrite Ha in Hmode.
  - right. right. left. by apply someone_self.
  - by left.
  - intros Ha. by rewrite Ha in Hmode.
Qed.
Lemma ring_live q t : inv q -> live q -> threads q t = Ring -> live (goto (set_db q (dbrec q) true) t Unlock).
Proof.
  intros IV LV Et. apply (posted_live q); try done; [by rewrite Et|by left|intros _; by apply someone_self|].
  destruct (lv_db _ LV) as (m & d & DU). exists m, d. destruct DU as [[] _ Hr Hbf]. split; [done|by right; left|..]; cbn.
  - intros Ha. destruct (Hr Ha) as [?|Hs]; [by left|right]. revert Hs. apply someone_keep; [done|by rewrite Et|done].
  - intros Ha. destruct (Hbf Ha) as [?|Hs]; [by left|right]. revert Hs. apply someone_keep; [done|by rewrite Et|done].
Qed.
Lemma unlock_live q t : inv q -> live q -> threads q t = Unlock -> live (goto (set_lock q false) t Idle).
Proof.
  intros IV LV Et. apply (posted_live q); try done; [by rewrite Et|by right|].
  destruct (lv_db _ LV) as (m & d & DU). exists m, d. apply (db_keep q); try done; by rewrite Et.
Qed.
Lemma async_bf_live q t new : inv q -> live q -> threads q t = AsyncBf new -> live (goto (set_bf q (Z.max (bf q) new)) t Idle).
Proof.
  intros IV LV Et. pose proof (iv_thread _ IV t) as [Ht Hmode]. rewrite Et in Ht, Hmode. cbn in Ht, Hmode.
  apply (posted_live q); try done; [by rewrite Et|by right|..].
  { intros Hl%(lv_lock _ LV). revert Hl. apply someone_keep; [done|by rewrite Et|done]. }
  destruct (lv_db _ LV) as (m & d & DU). exists m, d. destruct DU as [[] Hn Hr Hbf]. split; cbn.
  - split; cbn; try done; [lia|]. intros n En. pose proof (db_host0 n En). lia.
  - destruct Hn as [?|[?|[Hs|?]]]; auto. right. right. left. revert Hs. apply someone_keep; [done|by rewrite Et|done].
  - intros Ha. by rewrite Ha in Hmode.
  - intros Ha. destruct (Hbf Ha) as [?|[t' Ht']]; [left; lia|]. destruct (decide (t' = t)) as [->|Hne].
    + rewrite Et in Ht'. injection Ht' as ->. left. lia.
    + right. exists t'. cbn. by rewrite at_pc_other.
Qed.

Lemma polled_passive (k : after W) (p : pc) : (forall r, k = Slots r -> owns p = Some r) -> (k = Quiet -> owns p = None) ->
  passive (polled k) = true /\ owns (polled k) = owns p.
Proof. intros H1 H2. destruct k as [r|]; cbn; [by rewrite (H1 r)|by rewrite H2]. Qed.

Lemma thread_live q t q' : inv q -> live q -> thread_step c q t = Some q' -> live q'.
Proof.
  intros IV LV. pose proof (in_ts q t LV) as Hin. unfold thread_step.
  destruct (threads q t) as [|idx k|idx k|idx k|idx wc k|idx new k|r k|r|base num|new|new|new| | |new|new] eqn:Et; try done;
    specialize (Hin ltac:(done)).
  - intros [= <-]. destruct (polled_passive k (PollStart idx k)) as [H1 H2]; [by intros ? ->|by intros ->|].
    case_bool_decide; apply (passive_live q); try done; by rewrite Et.
  - case_bool_decide; [done|]. intros [= <-]. apply (passive_live q); try done; by rewrite Et.
  - intros [= <-]. apply (passive_live q); try done; by rewrite Et.
  - destruct (polled_passive k (PollCons idx wc k)) as [H1 H2]; [by intros ? ->|by intros ->|].
    repeat case_match; intros [= <-]; apply (passive_live q); try done; by rewrite Et.
  - destruct (polled_passive k (PollMax idx new k)) as [H1 H2]; [by intros ? ->|by intros ->|].
    intros [= <-]. apply (passive_live q); try done; by rewrite Et.
  - case_match; intros [= <-]; apply (passive_live q); try done; by rewrite Et.
  - case_bool_decide; [|done]. intros [= <-]. by apply cas_live.
  - intros [= <-]. by apply decide_live.
  - case_match; [done|]. intros [= <-]. by apply lock_live.
  - intros [= <-]. by apply max_prod_live.
  - intros [= <-]. by apply dbr_live.
  - intros [= <-]. by apply ring_live.
  - intros [= <-]. by apply unlock_live.
  - intros [= <-]. by apply async_max_live.
  - intros [= <-]. by apply async_bf_live.
Qed.

(** ** The NIC, the host and new requests *)
Lemma env_live (q q1 : queue) : live q -> threads q1 = threads q -> resv_head q1 = resv_head q -> ready_head q1 = ready_head q ->
  prod_idx q1 = prod_idx q -> issued q1 = issued q -> post_send_lock q1 = post_send_lock q ->
  (exists m d, doorbell_due q1 m d) -> live q1.
Proof.
  intros [] HT Hv Hr Hp HI Hl Hdb. unfold someone, posts_batch, posts_last in *.
  split; unfold someone, posts_batch, posts_last; rewrite ?HT, ?Hv, ?Hr, ?Hp, ?Hl; try done.
  - intros t. rewrite ?HT. apply (marked_mono q); [by rewrite HI|done].
  - apply (boundary_mono q); [by rewrite HI|done].
Qed.

Lemma host_live q q' : inv q -> live q -> host_step c q = Some q' -> live q'.
Proof.
  intros IV LV. unfold host_step. destruct (use_async_postsend c) eqn:Ea; [|done].
  destruct (lv_db _ LV) as (m & d & [[D1 D2 D3 D4 D5 D6] Hn Hr Hbf]). specialize (D4 Ea).
  destruct (host q) as [|snap|] eqn:Eh; intros [= <-].
  - apply (env_live q); try done. exists m, d. split; cbn.
    + split; cbn; try done. by intros n [= <-].
    + destruct Hn as [?|[?|[?|[[=] _]]]]; auto.
    + by rewrite Ea.
    + done.
  - specialize (D6 _ eq_refl). case_bool_decide; apply (env_live q); try done.
    + exists m, snap. split; cbn; [|auto|by rewrite Ea|done]. split; cbn; try done; try apply dbr_value_u16; lia.
    + exists m, d. split; cbn; [by split| |by rewrite Ea|done]. destruct Hn as [?|[?|[?|[[=] _]]]]; auto.
  - apply (env_live q); try done. exists m, d. split; cbn; [by split|auto|by rewrite Ea|done].
Qed.

Lemma fetch_live q : live q -> live (set_nic q (dbrec q) false).
Proof.
  intros LV. apply (env_live q); try done. destruct (lv_db _ LV) as (m & d & [[] Hn Hr Hbf]).
  exists d, d. split; try done; [|by left]. split; cbn; try done. lia.
Qed.

Lemma execute_live q w : inv q -> live q -> u16 (hw q) <> nic_prod q -> live (execute sig q w).
Proof.
  intros IV LV Hne. apply (env_live q); try done. destruct (lv_db _ LV) as (m & d & [[] Hn Hr Hbf]).
  exists m, d. split; try done. split; cbn; try done.
  destruct (decide (hw q = m)) as [E|]; [|lia]. by rewrite E, db_nic0 in Hne.
Qed.

Lemma reserve_live q t l : inv q -> live q -> threads q t = Idle -> t ∈ ts -> request_ok l ->
  live (goto (set_resv q (resv_head q + Z.of_nat (length l)) (issued q ++ l)) t (wait_for_slot c (resv_head q, l))).
Proof.
  intros IV LV Et Hin HR. set (r := (resv_head q, l)). pose proof (heads _ IV) as HH.
  assert (1 <= Z.of_nat (length l)) as Hlen by (destruct HR as [(w & Hw & _) _]; destruct l; [done|cbn; lia]).
  assert (owns (wait_for_slot c r) = Some r /\ passive (wait_for_slot c r) = true) as [Ho Hpa]
    by (unfold wait_for_slot; by case_bool_decide).
  apply (live_goto q); try done; cbn.
  - by apply prefix_app_r.
  - unfold marked. rewrite Ho. by destruct (wait_for_slot c r).
  - apply (boundary_mono q); [by apply prefix_app_r|]. apply (lv_prod _ LV).
  - intros i Hi. destruct (decide (i < resv_head q)).
    + destruct (lv_cover _ LV i ltac:(lia)) as (t' & r' & Eo & Hi'). exists t'. cbn. rewrite at_pc_other; [eauto|].
      intros ->. by rewrite Et in Eo.
    + apply someone_self. exists r. split; [done|]. unfold end_, len. cbn. lia.
  - destruct (lv_batch _ LV) as [?|Hs]; [by left|right]. revert Hs. apply someone_keep; [done|by rewrite Et|done].
  - right. left. lia.
  - intros Hs%(lv_lock _ LV). revert Hs. apply someone_keep; [done|by rewrite Et|done].
  - destruct (lv_db _ LV) as (m & d & DU). exists m, d. apply (db_keep q); try done; by rewrite Et.
Qed.

Lemma fire_live q a q' : inv q -> live q -> event_fits a -> fire sig c q a = Some q' -> live q'.
Proof.
  intros IV LV Ha. destruct a as [t l|t|t| | |]; cbn.
  - destruct (threads q t) eqn:Et; try done. intros [= <-]. by apply reserve_live; try apply Ha.
  - destruct (threads q t) eqn:Et; try done. intros [= <-]. apply (passive_live q); try done; by rewrite Et.
  - by apply thread_live.
  - by apply host_live.
  - destruct (rung q); [|done]. intros [= <-]. by apply fetch_live.
  - case_bool_decide as Hn; [done|]. intros (w & Hw & [= <-])%bind_Some. by apply execute_live.
Qed.

Lemma init_live : live init.
Proof.
  pose proof (Z.pow_pos_nonneg 2 e). split; try done; cbn.
  - by left.
  - intros i Hi. lia.
  - left. unfold batches. rewrite Z.div_0_l by lia. lia.
  - by left.
  - exists 0, 0. split; [|by left..]. split; cbn; try done; lia.
Qed.
Lemma reachable_live q : rtc fit_step init q -> inv q /\ live q.
Proof.
  intros HR. assert (inv init /\ live init) as H0 by (split; [exact (init_inv Hdepth)|apply init_live]).
  induction HR as [|q q1 q2 (a & Ha & Hf) _ IH]; [done|]. apply IH. destruct H0 as [IV LV].
  split; [|exact (fire_live _ _ _ IV LV Ha Hf)]. exact (fire_inv Hdepth Hcqes _ _ _ IV (event_fits_ok _ Ha) Hf).
Qed.

(** ** The work left *)
Definition after_rank (k : after W) : nat := match k with Slots r => 9 + length r.2 | Quiet => 0 end.
(** The counter read is new enough to end the poll. *)
Definition fresh (q : queue) (idx wqe_counter : Z) : bool :=
  bool_decide (cons_idx q >= idx) || negb (poll_wait (ncqes c) idx wqe_counter).
Definition rank (q : queue) (p : pc) : nat :=
  match p with
  | Idle => 0
  | PollStart _ k => 6 + after_rank k
  | PollProd _ k => 5 + after_rank k
  | PollRead _ k => 3 + after_rank k
  | PollCons idx wqe_counter k => (if fresh q idx wqe_counter then 2 else 4) + after_rank k
  | PollMax _ _ k => 1 + after_rank k
  | Writing r k => 9 + (length r.2 - k)
  | Cas _ => 8
  | Decide _ _ => 7
  | Lock _ => 6
  | MaxProd _ => 5
  | Dbr _ => 4
  | Ring => 3
  | Unlock => 1
  | AsyncMax _ => 2
  | AsyncBf _ => 1
  end.
Definition host_rank (q : queue) : nat :=
  match host q with HIdle => 1 | HRead n => if bool_decide (prod_idx_cache q < n) then 0 else 2 | HRing => 3 end.
Definition rung_rank (q : queue) : nat := if rung q then 1 else 0.
Definition work (q : queue) : nat :=
  sum_list_with (fun t => rank q (threads q t)) ts + 5 * Z.to_nat (resv_head q - prod_idx_cache q) + host_rank q + rung_rank q +
  Z.to_nat (resv_head q - hw q).

Lemma rank_mono (q q1 : queue) p : cons_idx q <= cons_idx q1 -> (rank q1 p <= rank q p)%nat.
Proof.
  intros Hc. destruct p; cbn; try lia. unfold fresh.
  destruct (poll_wait _ _ _); cbn; rewrite ?orb_true_r, ?orb_false_r; [|lia]. repeat case_bool_decide; lia.
Qed.

Lemma work_goto (q q1 : queue) t p : t ∈ ts -> threads q1 = threads q -> cons_idx q <= cons_idx q1 -> resv_head q1 = resv_head q ->
  prod_idx_cache q1 = prod_idx_cache q -> host q1 = host q -> hw q1 = hw q ->
  (rank q1 p + rung_rank q1 < rank q (threads q t) + rung_rank q)%nat -> (work (goto q1 t p) < work q)%nat.
Proof.
  intros Hin HT Hc Hv Hca Hh Hhw Hlt. unfold work, host_rank. cbn -[rank rung_rank]. rewrite Hv, Hca, Hh, Hhw.
  pose proof (sum_list_upd (fun t => rank q (threads q t)) (fun t' => rank (goto q1 t p) (at_pc q1 t p t')) ts t Hts Hin) as HU.
  cbn -[rank rung_rank] in HU. rewrite at_pc_same in HU. change (rank (goto q1 t p)) with (rank q1) in *.
  change (rung_rank (goto q1 t p)) with (rung_rank q1).
  ospecialize (HU _); [|lia]. intros t' _ Hne. rewrite at_pc_other, HT by done. by apply rank_mono.
Qed.

(** ** Some step makes progress *)

(** The thread's next access makes progress. *)
Definition can_go (q : queue) (p : pc) : bool :=
  match p with
  | Idle => false
  | PollProd idx _ => bool_decide (idx <= prod_idx q)
  | PollRead idx _ => fresh q idx (cqe q)
  | Cas r => bool_decide (ready_head q = r.1)
  | Lock _ => negb (post_send_lock q)
  | _ => true
  end.

Lemma polled_rank (q : queue) k : rank q (polled k) = after_rank k.
Proof. destruct k; cbn; [lia|done]. Qed.

Ltac go Et := eexists; split; [reflexivity|]; apply work_goto; try done; try (cbn; lia); rewrite Et, ?polled_rank;
  unfold rung_rank; cbn -[after_rank fresh]; try lia.

Lemma go_step q t : inv q -> live q -> can_go q (threads q t) = true ->
  exists q', thread_step c q t = Some q' /\ (work q' < work q)%nat.
Proof.
  intros IV LV Hgo. assert (t ∈ ts) as Hin by (apply (in_ts q); [done|]; intros E; by rewrite E in Hgo).
  pose proof (iv_thread _ IV t) as [Ht _]. unfold thread_step.
  destruct (threads q t) as [|idx k|idx k|idx k|idx wc k|idx new k|r k|r|base num|new|new|new| | |new|new] eqn:Et; try done; cbn -[fresh] in Hgo.
  - case_bool_decide; go Et.
  - apply bool_decide_eq_true_1 in Hgo. rewrite bool_decide_eq_false_2 by lia. go Et.
  - go Et. rewrite Hgo. lia.
  - destruct (bool_decide (cons_idx q >= idx)) eqn:Hc; [go Et; destruct (fresh _ _ _); lia|].
    destruct (poll_wait _ _ _) eqn:Ew; go Et; [|destruct (fresh _ _ _); lia].
    replace (fresh q idx wc) with false by (unfold fresh; by rewrite Hc, Ew). lia.
  - go Et.
  - destruct (r.2 !! k) as [w|] eqn:Ew; go Et. apply lookup_lt_Some in Ew. lia.
  - rewrite Hgo. go Et.
  - destruct (do_post_send _ _ _ _), (use_async_postsend c); go Et.
  - apply negb_true_iff in Hgo. rewrite Hgo. go Et.
  - case_bool_decide; go Et.
  - go Et.
  - go Et.
  - go Et.
  - case_bool_decide; go Et.
  - go Et.
Qed.

(** The work of the NIC and of the host. *)
Lemma fetch_work (q : queue) : rung q = true -> (work (set_nic q (dbrec q) false) < work q)%nat.
Proof. intros E. unfold work, rung_rank, host_rank. cbn -[rank]. rewrite E. change (rank (set_nic q (dbrec q) false)) with (rank q). lia. Qed.
Lemma execute_work q w : inv q -> u16 (hw q) <> nic_prod q -> (work (execute sig q w) < work q)%nat.
Proof.
  intros IV Hne. destruct (iv_doorbell _ IV) as (m & d & []). pose proof (heads _ IV).
  assert (hw q <> m) by (intros E; by rewrite E, db_nic0 in Hne).
  unfold work, rung_rank, host_rank. cbn -[rank]. change (rank (execute sig q w)) with (rank q). lia.
Qed.
Lemma host_work q : inv q -> use_async_postsend c = true -> host q <> HIdle \/ prod_idx_cache q < bf q ->
  exists q', host_step c q = Some q' /\ (work q' < work q)%nat.
Proof.
  intros IV Ha Hd. destruct (iv_doorbell _ IV) as (m & d & []). pose proof (heads _ IV). unfold host_step. rewrite Ha.
  destruct (host q) as [|n|] eqn:Eh; (eexists; split; [reflexivity|]); unfold work, rung_rank, host_rank.
  - cbn -[rank]. rewrite Eh, bool_decide_eq_true_2 by (by destruct Hd). change (rank (set_host _ _ _)) with (rank q). lia.
  - specialize (db_host0 _ eq_refl). rewrite Eh. case_bool_decide; cbn -[rank]; change (rank (set_host _ _ _)) with (rank q); lia.
  - cbn -[rank]. rewrite Eh. change (rank (set_host _ _ _)) with (rank q). destruct (rung q); lia.
Qed.

(** ** Nothing left to do means that all is done *)
Lemma completed_boundary q : inv q -> boundary q (hw q) -> completed (sig := sig) (executed q) = hw q.
Proof.
  intros IV Hb. pose proof (length_executed _ IV) as HL. pose proof (co_exec _ (iv_counters _ IV)) as HE.
  destruct Hb as [H0|(H1 & w & Hw & Hs)]; [rewrite HE, H0; done|].
  replace (Z.to_nat (hw q)) with (S (Z.to_nat (hw q - 1))) in HE by lia. rewrite (take_S_r _ _ w Hw) in HE.
  rewrite HE, completed_snoc, Hs. rewrite HE, length_app in HL. cbn in HL. lia.
Qed.

Section Quiescent.
Context (q : queue) (IV : inv q) (LV : live q).
Context (Hgo : forall t, can_go q (threads q t) = false) (Hrung : rung q = false) (Hnic : u16 (hw q) = nic_prod q).
Context (Hhost : use_async_postsend c = true -> host q = HIdle /\ bf q <= prod_idx_cache q).

Lemma nobody (P : pc -> Prop) : (forall p, P p -> can_go q p = true) -> ~ someone q P.
Proof. intros HP [t Ht%HP]. by rewrite Hgo in Ht. Qed.

Lemma quiescent_hw : hw q = prod_idx q.
Proof.
  destruct (lv_db _ LV) as (m & d & [[] Hn Hr Hbf]). pose proof (heads _ IV). destruct Hdepth as [Hdp _].
  assert (hw q = m) as ->.
  { apply (mod_eq_close (2 ^ 16)); [lia|lia|]. rewrite db_nic0 in Hnic. exact Hnic. }
  destruct (use_async_postsend c) eqn:Ea.
  - destruct (Hhost eq_refl) as [Hi Hb]. specialize (db_async0 eq_refl).
    destruct Hn as [->|[?|[Hs|[? _]]]]; [|congruence|by apply nobody in Hs; [|intros p ->]|congruence].
    destruct (Hbf eq_refl) as [?|Hs]; [lia|]. by apply nobody in Hs; [|intros p ->].
  - destruct Hn as [->|[?|[Hs|[_ ?]]]]; [|congruence|by apply nobody in Hs; [|intros p ->]|done].
    destruct (Hr eq_refl) as [?|Hs]; [lia|]. by apply nobody in Hs; [|intros p ->].
Qed.

Lemma quiescent_completed : completed (sig := sig) (executed q) = prod_idx q.
Proof. rewrite <- quiescent_hw. apply completed_boundary; [done|]. rewrite quiescent_hw. apply (lv_prod _ LV). Qed.

(** The threads that are left wait for [prod_idx] or for [ready_head]. *)
Lemma quiescent_thread t : threads q t = Idle \/ (exists idx k, threads q t = PollProd idx k /\ prod_idx q < idx) \/
  (exists r, threads q t = Cas r /\ ready_head q <> r.1).
Proof.
  pose proof (Hgo t) as Hg. pose proof (iv_thread _ IV t) as [Ht _]. pose proof (heads _ IV) as HH.
  destruct (threads q t) as [|idx k|idx k|idx k|idx wc k|idx new k|r k|r|base num|new|new|new| | |new|new] eqn:Et; cbn -[fresh] in Hg; try done.
  - by left.
  - right. left. apply bool_decide_eq_false_1 in Hg. exists idx, k. split; [done|lia].
  - exfalso. destruct Ht as [HA Hp]. unfold fresh in Hg. apply orb_false_elim in Hg as [Hc%bool_decide_eq_false_1 Hw%negb_false_iff].
    rewrite (co_cqe _ (iv_counters _ IV)), quiescent_completed, Hcqes in Hw. assert (0 <= idx) by apply HA.
    destruct (poll_cq_counter (nwqes c) idx (prod_idx q) Hdepth) as [E _]; [lia..|]. rewrite E in Hw.
    apply bool_decide_eq_true_1 in Hw. lia.
  - right. right. apply bool_decide_eq_false_1 in Hg. eauto.
  - exfalso. apply negb_false_iff in Hg. apply (lv_lock _ LV) in Hg. apply nobody in Hg; [done|]. by intros [].
Qed.

Lemma quiescent_ready : ready_head q = resv_head q.
Proof.
  pose proof (heads _ IV) as HH. destruct (decide (ready_head q = resv_head q)) as [?|Hne]; [done|]. exfalso.
  destruct (lv_cover _ LV (ready_head q) ltac:(lia)) as (t & r & Eo & Hi).
  pose proof (iv_thread _ IV t) as [Ht _]. pose proof (owns_ok _ _ _ Ht Eo) as (Hr & _ & Hl & _).
  assert (r.1 = ready_head q) as Hr1 by lia. pose proof (lv_marked _ LV t) as Hmk.
  destruct (quiescent_thread t) as [E|[(idx & k & E & Hp)|(r' & E & Hne')]]; rewrite E in Eo, Ht, Hmk; cbn in Eo; try done.
  - destruct k as [r'|]; [|done]. injection Eo as ->. destruct Ht as (_ & _ & ->). destruct Hmk as [_ Hf].
    assert (batches batch (ready_head q) <= prod_idx q) as HB.
    { destruct (lv_batch _ LV) as [?|[t' Ht']]; [done|]. exfalso.
      destruct (quiescent_thread t') as [Ex|[(? & ? & Ex & _)|(? & Ex & _)]]; by rewrite Ex in Ht'. }
    pose proof (batches_bound batch (ready_head q)) as HBB. pose proof (Z.pow_pos_nonneg 2 e).
    unfold fits in Hf. unfold end_, len in *. lia.
  - injection Eo as ->. lia.
Qed.

Lemma quiescent_done : (forall t, threads q t = Idle) /\ hw q = resv_head q.
Proof.
  pose proof quiescent_ready as HR. pose proof (heads _ IV) as HH. 
  assert (prod_idx q = ready_head q) as HP.
  { destruct (lv_last _ LV) as [?|[?|[t' Ht']]]; [done|lia|]. exfalso.
    destruct (quiescent_thread t') as [Ex|[(? & ? & Ex & _)|(? & Ex & _)]]; by rewrite Ex in Ht'. }
  split; [|rewrite quiescent_hw; lia]. intros t. pose proof (iv_thread _ IV t) as [Ht _].
  destruct (quiescent_thread t) as [E|[(idx & k & E & Hp)|(r & E & Hne)]]; [done|..]; exfalso; rewrite E in Ht.
  - destruct Ht as [_ Hk]. destruct k as [r|]; [|lia]. destruct Hk as [(H1 & H2 & H3 & _) _]. unfold end_ in *. lia.
  - destruct Ht as [(H1 & H2 & H3 & _) _]. unfold end_ in *. lia.
Qed.

End Quiescent.

(** Either all is done, or some step makes progress. *)
Lemma progress q : inv q -> live q -> ((forall t, threads q t = Idle) /\ hw q = resv_head q) \/
  exists q', inner q q' /\ (work q' < work q)%nat.
Proof.
  intros IV LV. destruct (decide (Exists (fun t => can_go q (threads q t) = true) ts)) as [HE|HE].
  { right. apply Exists_exists in HE as (t & _ & Ht). destruct (go_step q t IV LV Ht) as (q' & Hs & Hw).
    exists q'. split; [|done]. by exists (Thread t). }
  assert (forall t, can_go q (threads q t) = false) as Hgo.
  { intros t. destruct (decide (t ∈ ts)) as [Hin|Hni]; [|by rewrite (lv_fin _ LV)]. apply not_true_is_false. intros E.
    apply HE, Exists_exists. eauto. }
  destruct (rung q) eqn:Er.
  { right. eexists. split; [exists Fetch; cbn; by rewrite Er|]. by apply fetch_work. }
  destruct (decide (u16 (hw q) = nic_prod q)) as [En|En].
  2:{ right. destruct (wqe q (ibgda_get_wqe_ptr (nwqes c) (hw q))) as [w|] eqn:Ew.
      - exists (execute sig q w). split; [|by apply execute_work]. exists Execute. cbn. by rewrite bool_decide_eq_false_2, Ew.
      - exfalso. destruct (iv_doorbell _ IV) as (m & d & []). pose proof (heads _ IV). destruct (iv_counters _ IV).
        assert (hw q <> m) by (intros E; by rewrite E, db_nic0 in En).
        rewrite get_wqe_ptr_mod, co_slots0 in Ew by (done || lia). apply lookup_ge_None in Ew. lia. }
  destruct (decide (use_async_postsend c = true /\ (host q <> HIdle \/ prod_idx_cache q < bf q))) as [[Ha Hh]|Hno].
  { right. destruct (host_work q IV Ha Hh) as (q' & Hs & Hw). exists q'. split; [|done]. by exists Host. }
  left. apply quiescent_done; try done. intros Ha. destruct (host q) eqn:Eh; [|by destruct Hno; auto..]. split; [done|].
  destruct (decide (prod_idx_cache q < bf q)); [destruct Hno; auto|lia].
Qed.

Lemma inner_keeps q q' : inv q -> live q -> inner q q' -> inv q' /\ live q' /\ issued q' = issued q.
Proof.
  intros IV LV (a & Ha & Hf). pose proof (internal_fits _ Ha) as Hfit.
  split; [exact (fire_inv Hdepth Hcqes _ _ _ IV (event_fits_ok _ Hfit) Hf)|]. split; [by eapply fire_live|].
  destruct a as [t l|t|t| | |]; try done; cbn in Hf.
  - unfold thread_step in Hf. repeat case_match; try done; by injection Hf as <-.
  - unfold host_step in Hf. repeat case_match; try done; by injection Hf as <-.
  - destruct (rung q); [|done]. by injection Hf as <-.
  - case_bool_decide; [done|]. by apply bind_Some in Hf as (w & _ & [= <-]).
Qed.

Lemma completes q : inv q -> live q -> exists q', rtc inner q q' /\ (forall t, threads q' t = Idle) /\ executed q' = issued q.
Proof.
  remember (work q) as m eqn:Em. revert q Em. induction (lt_wf m) as [m _ IH]. intros q -> IV LV.
  destruct (progress q IV LV) as [[Hidle Hhw]|(q1 & HS & Hw)].
  - exists q. split; [apply rtc_refl|]. split; [done|]. destruct (iv_counters _ IV). rewrite co_exec0, Hhw, co_resv0, Nat2Z.id.
    apply take_ge. lia.
  - destruct (inner_keeps _ _ IV LV HS) as (IV1 & LV1 & HI). destruct (IH _ Hw q1 eq_refl IV1 LV1) as (q' & HR & Hidle & HE).
    exists q'. split; [by eapply rtc_l|]. by rewrite <- HI.
Qed.
End Live.

(** C26: as long as every request leaves room for a batch in the queue and ends
    in a WQE that asks for a completion, the queue does not deadlock: from every
    state the threads reach, they can all return and the NIC can execute
    everything that was issued, without new requests. *)
Theorem ibgda_no_deadlock {W} (sig : W -> bool) c ts e q : depth_ok (nwqes c) -> ncqes c = nwqes c ->
  0 <= e -> num_requests_in_batch c = 2 ^ e -> NoDup ts -> rtc (fit_step (sig := sig) (c := c) (ts := ts)) init q ->
  exists q', rtc (inner (sig := sig) (c := c)) q q' /\ (forall t, threads q' t = Idle) /\ executed q' = issued q.
Proof.
  intros Hd Hn He Hb Hts HR. destruct (reachable_live Hd Hn He Hb q HR) as [IV LV].
  exact (completes Hd Hn He Hb Hts q IV LV).
Qed.

Lemma run_fit_steps {W} (sig : W -> bool) c ts l : forall q q', Forall (event_fits (sig := sig) (c := c) (ts := ts)) l ->
  run sig c l q = Some q' -> rtc (fit_step (sig := sig) (c := c) (ts := ts)) q q'.
Proof.
  induction l as [|a l IH]; intros q q' Hok E; cbn in E; [simplify_eq; apply rtc_refl|]. apply Forall_cons in Hok as [Ha Hok].
  apply bind_Some in E as (q1 & E1 & E2). eapply rtc_l; [by exists a|]. by apply IH.
Qed.
Definition two_requests : list (event unit) :=
  [Reserve 0 (wqes 33); Reserve 1 (wqes 90); Thread 0; Thread 1; Await 2; Thread 0].
Lemma ibgda_no_deadlock_witness : let q := queue_of (depth128 32) two_requests in
  exists q', rtc (inner (sig := always) (c := depth128 32)) q q' /\ (forall t, threads q' t = Idle) /\ executed q' = issued q.
Proof.
  apply (ibgda_no_deadlock always (depth128 32) [0; 1; 2]%nat 5); try done.
  - apply depth128_ok.
  - by apply (bool_decide_unpack _).
  - assert (forall n, n = 33 \/ n = 90 -> request_ok (sig := always) (c := depth128 32) (wqes n)) as HR.
    { intros n [-> | ->]; (split; [exists (); split; by vm_compute|by vm_compute]). }
    apply (run_fit_steps always (depth128 32) [0; 1; 2]%nat two_requests); [|by vm_compute].
    apply Forall_cons; split; [split; [by left|auto]|]. apply Forall_cons; split; [split; [by right; left|auto]|].
    repeat apply Forall_cons_2; try done. by right; right; left.
Defined.

(** ** Requests that do not fit *)
Section Stuck.
Context {W : Type} {sig : W -> bool} {c : config} (Hdepth : depth_ok (nwqes c)) (Hcqes : ncqes c = nwqes c).

(** The thread whose turn it is to publish waits for WQEs nobody is going to post. *)
Record stuck (q : queue W) (t : nat) (idx : Z) (r : Z * list W) : Prop := {
  sk_thread : threads q t = PollProd idx (Slots r);
  sk_turn : ready_head q = r.1;
  sk_wait : prod_idx q < idx;
  sk_passive : forall t', passive (threads q t') = true
}.

Lemma stuck_goto (q q1 : queue W) t idx r t' p : stuck q t idx r -> t' <> t -> threads q1 = threads q ->
  ready_head q1 = ready_head q -> prod_idx q1 = prod_idx q -> passive p = true -> stuck (goto q1 t' p) t idx r.
Proof.
  intros [] Hne HT Hr Hp Hpa. split; cbn; rewrite ?Hr, ?Hp; try done.
  - by rewrite at_pc_other, HT.
  - intros t''. destruct (decide (t'' = t')) as [->|]; [by rewrite at_pc_same|]. by rewrite at_pc_other, HT.
Qed.

Lemma stuck_step q q' t idx r : inv (sig := sig) (c := c) q -> stuck q t idx r -> step (sig := sig) (c := c) q q' -> stuck q' t idx r.
Proof.
  intros IV SK (a & Ha & Hf). pose proof SK as [S1 S2 S3 S4].
  destruct a as [t' l|t'|t'| | |]; cbn in Hf.
  - destruct (threads q t') eqn:Et; try done. injection Hf as <-. apply (stuck_goto q); try done; [intros ->; congruence|].
    unfold wait_for_slot. by case_bool_decide.
  - destruct (threads q t') eqn:Et; try done. injection Hf as <-. apply (stuck_goto q); try done. intros ->; congruence.
  - pose proof (S4 t') as Hpa. unfold thread_step in Hf. destruct (decide (t' = t)) as [->|Hne].
    { rewrite S1, bool_decide_eq_true_2 in Hf by lia. done. }
    destruct (threads q t') as [|i k|i k|i k|i wc k|i new k|r' k|r'|base num|new|new|new| | |new|new] eqn:Et; try done;
      try (repeat case_match; try done; injection Hf as <-; apply (stuck_goto q); try done; try destruct k; done).
    exfalso. case_bool_decide as Hr; [|done]. pose proof (iv_thread _ IV t) as [Ht _]. pose proof (iv_thread _ IV t') as [Ht' _].
    destruct (owns_ok _ _ r Ht ltac:(by rewrite S1)) as (_ & _ & L1 & _).
    destruct (owns_ok _ _ r' Ht' ltac:(by rewrite Et)) as (_ & _ & L2 & _).
    destruct (iv_disj _ IV t t' r r' ltac:(done)); [by rewrite S1|by rewrite Et|unfold end_ in *; lia..].
  - unfold host_step in Hf. repeat case_match; try done; injection Hf as <-; try by split.
  - destruct (rung q); [|done]. injection Hf as <-. by split.
  - case_bool_decide; [done|]. apply bind_Some in Hf as (w & _ & [= <-]). by split.
Qed.

Lemma stuck_forever q q' t idx r : inv (sig := sig) (c := c) q -> stuck q t idx r -> rtc (step (sig := sig) (c := c)) q q' ->
  threads q' t = PollProd idx (Slots r).
Proof.
  intros IV SK HS. induction HS as [|q q1 q2 H1 _ IH]; [apply SK|]. apply IH; [by eapply step_inv|by eapply stuck_step].
Qed.
End Stuck.

(** A warp that puts with a signal through a DCI without half address vectors
    asks for 129 WQEs; in the smallest queue the transport accepts it waits for
    one of its own WQEs, for ever. *)
Theorem put_signal_stuck : put_signal_num_wqes false DCI AMO_SIGNAL_ADD 32 = 129 /\
  exists q, reachable (sig := always) (c := depth128 32) q /\
    forall q', rtc (step (sig := always) (c := depth128 32)) q q' -> threads q' 0%nat <> Idle.
Proof.
  split; [done|]. set (l := [Reserve 0 (wqes 129); Thread 0]). exists (queue_of (depth128 32) l).
  assert (reachable (sig := always) (c := depth128 32) (queue_of (depth128 32) l)) as HR.
  { apply queue_of_reachable; [repeat constructor; by vm_compute|by vm_compute]. }
  split; [done|]. intros q' HS. apply (reachable_inv (depth128_ok 32) eq_refl) in HR as IV.
  rewrite (stuck_forever (depth128_ok 32) eq_refl _ q' 0 1 (0, wqes 129) IV); [done| |done].
  split; try by vm_compute. intros [|t']; by vm_compute.
Qed.

(** Batches as large as the queue, which the transport accepts: three warps have
    published 33 WQEs each without posting them, as a fourth had reserved, and
    the fourth waits for them for ever. *)
Theorem batch_stuck : exists q, reachable (sig := always) (c := depth128 128) q /\
  forall q', rtc (step (sig := always) (c := depth128 128)) q q' -> threads q' 3%nat <> Idle.
Proof.
  set (l := map (fun t => Reserve t (wqes 33)) [0; 1; 2; 3]%nat ++
            concat (map (fun t => replicate 36 (Thread t)) [0; 1; 2]%nat) ++ [Thread 3%nat]).
  exists (queue_of (depth128 128) l).
  assert (reachable (sig := always) (c := depth128 128) (queue_of (depth128 128) l)) as HR.
  { apply queue_of_reachable; [|by vm_compute]. apply Forall_app. split; [repeat constructor; by vm_compute|].
    apply Forall_app. split; [|by repeat constructor]. vm_compute. repeat constructor. }
  split; [done|]. intros q' HS. apply (reachable_inv (depth128_ok 128) eq_refl) in HR as IV.
  rewrite (stuck_forever (depth128_ok 128) eq_refl _ q' 3 4 (99, wqes 33) IV); [done| |done].
  split; try by vm_compute. intros [|[|[|[|t']]]]; by vm_compute.
Qed.

End IbgdaLive.
