(* ===== verification/IbgdaQp.v ===== *)
(** * GPU-initiated InfiniBand: which queue pair serves a request

    src/src/include/non_abi/device/pt-to-pt/ibgda_device.cuh: the choice of a DCT, of
    a DCI and of an RC queue pair ([ibgda_get_dct_id] to [ibgda_get_qp]), the
    loops of quiet and fence over the queue pairs, and the consistency
    operation on every device.

    Arithmetic on [uint32_t] is wrapped where it is computed.  A thread is the
    part of its coordinates the code reads.  [qp_group_switches] is an array of
    bytes that every choice of a queue pair increments; the increments of
    concurrent threads are taken one after the other. *)
From stdpp Require Import base list option.
From Stdlib Require Import ZArith Lia.
From S2P Require Import Prelude IbgdaQueue.

Module IbgdaQp.
Import IbgdaQueue.

(** ** Device state *)
Inductive map_type := MAP_CTA | MAP_SM | MAP_WARP | MAP_DCT | MAP_INVALID.
#[export] Instance map_type_eq_dec : EqDecision map_type.
Proof. solve_decision. Defined.

(** The fields of [nvshmemi_ibgda_device_state_t] and of the device state these
    functions read. *)
Record device_state := MkDevice {
  num_shared_dcis : Z;
  num_exclusive_dcis : Z;
  dci_map_type : map_type;
  ndcts_per_pe : Z;
  num_qp_groups : Z;
  num_dct_groups : Z;
  num_rc_per_pe : Z;
  num_default_rc_per_pe : Z;
  num_devices_initialized : Z;
  may_skip_cst : bool;
  npes : Z;
  mype : Z;
  node_npes : Z;
  node_mype : Z;
  enable_rail_opt : Z
}.

Record thread := MkThread {
  ctaid : Z;  (* [ibgda_get_ctaid] *)
  smid : Z;
  block_size : Z;
  thread_id_in_block : Z
}.
(** [nvshmemi_warp_size] *)
Definition warp_size (th : thread) : Z := if bool_decide (block_size th < 32) then block_size th else 32.

Definition NVSHMEMX_QP_DEFAULT : Z := 1.
Definition NVSHMEMX_QP_ANY : Z := 2 ^ 31 - 1.
Definition NVSHMEMX_QP_ALL : Z := 2 ^ 31 - 1.
Definition NVSHMEMX_PE_ANY : Z := 2 ^ 15.
Definition IBGDA_MAX_THREADS_PER_QUIET : Z := 32.

(** A queue pair: an index of [globalmem.dcis] or of [globalmem.rcs]. *)
Inductive qp_ref := QDci (idx : Z) | QRc (idx : Z).
#[export] Instance qp_ref_eq_dec : EqDecision qp_ref.
Proof. solve_decision. Defined.

(** Division and remainder of unsigned words; by zero it is undefined. *)
Definition udiv (a b : Z) : outcome Z := if bool_decide (b = 0) then Fail FUndef else Ret (a / b).
Definition umod (a b : Z) : outcome Z := if bool_decide (b = 0) then Fail FUndef else Ret (a mod b).

Section Device.
Context (st : device_state).

(** [ibgda_get_proxy_pe] *)
Definition ibgda_get_proxy_pe (pe : Z) : Z :=
  if bool_decide (enable_rail_opt st = 1)
  then Z.quot pe (node_npes st) * node_npes st + node_mype st
  else pe.

(** [ibgda_get_dct_id] *)
Definition ibgda_get_dct_id (th : thread) (pe dev_idx : Z) : outcome Z :=
  m ← umod (ctaid th) (ndcts_per_pe st);
  Ret (u32 (pe * ndcts_per_pe st * num_devices_initialized st + (m * num_devices_initialized st + dev_idx))).

(** The switch of [ibgda_get_dci] on the map type: [id] and whether the queue
    pair is shared. *)
Definition dci_id (th : thread) (pe : Z) : outcome (Z * bool) :=
  let warpid := thread_id_in_block th / warp_size th in
  match dci_map_type st with
  | MAP_CTA => Ret (ctaid th, false)
  | MAP_SM => Ret (smid th, true)
  | MAP_WARP =>
      q ← udiv (u32 (ctaid th * block_size th)) (warp_size th);
      Ret (u32 (q + warpid), false)
  | MAP_DCT =>
      q ← udiv (u32 (ctaid th * block_size th)) (warp_size th);
      let group_id := u32 (q + warpid) in
      dct_id ← ibgda_get_dct_id th pe 0;
      g ← umod group_id (num_dct_groups st);
      Ret (u32 (g * ndcts_per_pe st * npes st * num_devices_initialized st + dct_id * num_devices_initialized st), true)
  | MAP_INVALID => Fail FAssert
  end.

(** [++qp_group_switches[g]], a [uint8_t] *)
Definition bump (sw : list Z) (g : Z) : outcome (Z * list Z) :=
  v ← arr_get sw g;
  let v' := u8 (v + 1) in
  Ret (v', <[Z.to_nat g := v']> sw).

(** The rest of [ibgda_get_dci]: from [id] and the counter of its group to an
    index of [dcis]. *)
Definition dci_index (id dev_offset : Z) (shared_among_ctas : bool) : outcome (Z * bool) :=
  q ← udiv id (num_devices_initialized st);
  r ← umod dev_offset (num_devices_initialized st);
  let id := u32 (q * num_devices_initialized st + r) in
  if bool_decide (id < num_exclusive_dcis st) then Ret (id, shared_among_ctas)
  else
    s ← umod id (num_shared_dcis st);
    Ret (u32 (num_exclusive_dcis st + s), true).

Definition ibgda_get_dci (sw : list Z) (th : thread) (pe : Z) : outcome ((Z * bool) * list Z) :=
  '(id, shared) ← dci_id th pe;
  g ← umod id (num_qp_groups st);
  '(dev_offset, sw') ← bump sw g;
  r ← dci_index id dev_offset shared;
  Ret (r, sw').

(** [ibgda_get_rc] *)
Definition ibgda_get_rc (sw : list Z) (pe qp_index : Z) : outcome ((Z * bool) * list Z) :=
  cassert (bool_decide (pe <> mype st));;
  if bool_decide (qp_index = NVSHMEMX_QP_DEFAULT) || bool_decide (qp_index = NVSHMEMX_QP_ANY) then
    let any := bool_decide (qp_index = NVSHMEMX_QP_ANY) in
    let rc_modulo := u32 ((if any then num_rc_per_pe st else num_default_rc_per_pe st) * num_devices_initialized st) in
    let qp_switch_group := if any then 1 else 0 in
    '(v, sw') ← bump sw qp_switch_group;
    id ← umod v rc_modulo;
    Ret ((u32 (id * npes st + pe), true), sw')
  else Ret ((u32 (qp_index + pe), true), sw).

(** [ibgda_is_rc_enabled], [ibgda_get_qp] *)
Definition ibgda_is_rc_enabled : bool := bool_decide (num_rc_per_pe st > 0).
Definition ibgda_get_qp (sw : list Z) (th : thread) (pe qp_index : Z) : outcome ((qp_ref * bool) * list Z) :=
  if ibgda_is_rc_enabled && bool_decide (pe <> mype st) then
    '((i, sh), sw') ← ibgda_get_rc sw pe qp_index; Ret ((QRc i, sh), sw')
  else
    '((i, sh), sw') ← ibgda_get_dci sw th pe; Ret ((QDci i, sh), sw').

(** The loop of [nvshmemi_ibgda_enforce_consistency_at_target] over the devices:
    the DCIs on which a consistency operation runs. *)
Fixpoint cst_dcis (n : nat) (sw : list Z) (th : thread) : outcome (list Z * list Z) :=
  match n with
  | O => Ret ([], sw)
  | S n =>
      '((i, _), sw) ← ibgda_get_dci sw th (mype st);
      '(l, sw) ← cst_dcis n sw th;
      Ret (i :: l, sw)
  end.
Definition nvshmemi_ibgda_enforce_consistency_at_target (sw : list Z) (th : thread) : outcome (list Z * list Z) :=
  if may_skip_cst st then Ret ([], sw) else cst_dcis (Z.to_nat (num_devices_initialized st)) sw th.

(** ** Quiet and fence *)

(** [for (uint32_t i = i0; i < n; i += step)] *)
Fixpoint strided (fuel : nat) (i n step : Z) : list Z :=
  match fuel with
  | O => []
  | S fuel => if bool_decide (i < n) then i :: strided fuel (u32 (i + step)) n step else []
  end.
Definition strides (i n step : Z) : list Z := strided (Z.to_nat n) i n step.

Definition ndcis : Z := u32 (num_shared_dcis st + num_exclusive_dcis st).

(** [qp_handle && qp_handle[0] == v] *)
Definition first_is (qp_handle : option (list Z)) (v : Z) : outcome bool :=
  match qp_handle with None => Ret false | Some l => h ← arr_get l 0; Ret (bool_decide (h = v)) end.

(** The three cases of [nvshmemi_ibgda_qp_quiet]: is every DCI quieted, [nrcs],
    and [qp_handle] as the loop below sees it. *)
Definition quiet_case (qp_handle : option (list Z)) (num_qps : Z) : outcome (bool * Z * option (list Z)) :=
  all ← (if bool_decide (num_qps = NVSHMEMX_QP_ALL) then Ret true else first_is qp_handle NVSHMEMX_QP_ALL);
  if all : bool then Ret (true, u32 (num_rc_per_pe st * num_devices_initialized st), None)
  else
    dflt ← (if bool_decide (num_qps = NVSHMEMX_QP_DEFAULT) then Ret true else first_is qp_handle NVSHMEMX_QP_DEFAULT);
    if dflt : bool then Ret (true, u32 (num_default_rc_per_pe st * num_devices_initialized st), None)
    else
      let total := u32 (num_rc_per_pe st * num_devices_initialized st) in
      Ret (false, (if bool_decide (u32 num_qps < total) then u32 num_qps else total), qp_handle).

(** One round of the loop over the RCs: the queue pair it quiets, if any. *)
Definition quiet_rc (nrcs start_pe n : Z) (qp_handle : option (list Z)) (i : Z) : outcome (list qp_ref) :=
  let qp_idx := i mod nrcs in
  let pe_idx := i / nrcs + start_pe in
  if bool_decide (pe_idx = mype st) then Ret []
  else if bool_decide (pe_idx < start_pe) || bool_decide (pe_idx >= start_pe + n) then Ret []
  else match qp_handle with
       | None => Ret [QRc (qp_idx * npes st + pe_idx)]
       | Some l => h ← arr_get l qp_idx; Ret [QRc (h + pe_idx)]
       end.
Fixpoint quiet_rcs (nrcs start_pe n : Z) (qp_handle : option (list Z)) (l : list Z) : outcome (list qp_ref) :=
  match l with
  | [] => Ret []
  | i :: l => a ← quiet_rc nrcs start_pe n qp_handle i; b ← quiet_rcs nrcs start_pe n qp_handle l; Ret (a ++ b)
  end.

Definition quiet_scope (scope_size : Z) : Z :=
  if bool_decide (scope_size > IBGDA_MAX_THREADS_PER_QUIET) then IBGDA_MAX_THREADS_PER_QUIET else scope_size.

(** [nvshmemi_ibgda_qp_quiet]: the queue pairs thread [index_in_scope] of
    [scope_size] threads quiets, in order. *)
Definition nvshmemi_ibgda_qp_quiet (pe_hint : Z) (qp_handle : option (list Z)) (num_qps index_in_scope scope_size : Z)
  : outcome (list qp_ref) :=
  let scope := quiet_scope scope_size in
  let '(n, start_pe) := if bool_decide (pe_hint = NVSHMEMX_PE_ANY) then (npes st, 0) else (1, pe_hint) in
  '(all_dcis, nrcs, h) ← quiet_case qp_handle num_qps;
  let dcis := if (all_dcis : bool) && bool_decide (index_in_scope < scope)
              then map QDci (strides index_in_scope ndcis scope) else [] in
  rcs ← (if bool_decide (index_in_scope < scope)
         then quiet_rcs nrcs start_pe n h (strides index_in_scope (u32 (nrcs * n)) scope) else Ret []);
  Ret (dcis ++ rcs).

(** [nvshmemi_ibgda_qp_fence]: quiet, unless the caller names one queue pair,
    in which requests stay in order. *)
Definition nvshmemi_ibgda_qp_fence (pe_hint : Z) (qp_handle : option (list Z)) (num_qps index_in_scope scope_size : Z)
  : outcome (list qp_ref) :=
  quiet ← (if bool_decide (num_qps <> 1) then Ret true
           else match qp_handle with
                | None => Ret true
                | Some l => h ← arr_get l 0; Ret (bool_decide (h = NVSHMEMX_QP_DEFAULT) || bool_decide (num_qps = NVSHMEMX_QP_ALL))
                end);
  if quiet : bool then nvshmemi_ibgda_qp_quiet pe_hint qp_handle num_qps index_in_scope scope_size else Ret [].

(** [nvshmemi_ibgda_fence] (no caller in the sources) *)
Definition nvshmemi_ibgda_fence (index_in_scope scope_size : Z) : outcome (list qp_ref) :=
  let nrcs := u32 (num_default_rc_per_pe st * npes st * num_devices_initialized st) in
  if bool_decide (u32 (ndcis + nrcs) <= 1) then Ret []
  else
    let scope := quiet_scope scope_size in
    if bool_decide (index_in_scope < scope) then
      let per_pe := u32 (num_default_rc_per_pe st * num_devices_initialized st) in
      Ret (map QDci (strides index_in_scope ndcis scope) ++
           map QRc (filter (fun i => i / per_pe <> mype st) (strides index_in_scope nrcs scope)))
    else Ret [].
End Device.
End IbgdaQp.
