(* ===== verification/IbgdaQpSpec.v ===== *)
(** * Queue pairs: the choice is sound, quiet and fence reach every queue pair

    What [IbgdaQp] computes on a device state the host may post ([device_ok]):
    indices are in range, name the device whose turn it is and the PE asked
    for; the threads of a scope quiet every queue pair exactly once.  At the end the
    runs where the code does not do what it means to. *)
From stdpp Require Import base list option.
From Stdlib Require Import ZArith Lia.
From S2P Require Import Prelude IbgdaQueue IbgdaQp.

Module IbgdaQpSpec.
Import IbgdaQueue IbgdaQp.

(** ** Strided loops *)
Lemma elem_of_strided fuel i n step x : 0 < step -> 0 <= i -> n + step <= 2 ^ 32 -> n - i <= Z.of_nat fuel ->
  x ∈ strided fuel i n step <-> i <= x < n /\ (x - i) mod step = 0.
Proof.
  intros Hs. revert i. induction fuel as [|fuel IH]; intros i Hi Hn Hf; simpl.
  - split; [by intros ?%elem_of_nil | lia].
  - case_bool_decide; [|split; [by intros ?%elem_of_nil | lia]].
    rewrite elem_of_cons, wrap_small by (unfold in_u; lia). rewrite IH by lia.
    assert (forall x, x - (i + step) = x - i + (-1) * step) as HE by lia. rewrite HE, Z_mod_plus_full.
    split.
    + intros [->|[? ?]]; [|lia]. rewrite Z.sub_diag, Zmod_0_l. lia.
    + intros [? Hm]. destruct (decide (x = i)) as [|Hx]; [by left|right]. split; [|done].
      assert (i + step <= x); [|lia]. destruct (Z.le_gt_cases (i + step) x); [done|].
      rewrite Z.mod_small in Hm by lia. lia.
Qed.

Lemma strided_NoDup fuel i n step : 0 < step -> 0 <= i -> n + step <= 2 ^ 32 -> n - i <= Z.of_nat fuel ->
  NoDup (strided fuel i n step).
Proof.
  intros Hs. revert i. induction fuel as [|fuel IH]; intros i Hi Hn Hf; simpl; [constructor|].
  case_bool_decide; [|constructor]. rewrite wrap_small by (unfold in_u; lia).
  constructor; [|apply IH; lia]. rewrite elem_of_strided by lia. lia.
Qed.

(** Thread [t] of [s] visits the indices that leave the remainder [t]. *)
Lemma elem_of_strides t n s x : 0 <= t < s -> 0 <= n -> n + s <= 2 ^ 32 ->
  x ∈ strides t n s <-> 0 <= x < n /\ x mod s = t.
Proof.
  intros Ht Hn0 Hn. unfold strides. rewrite elem_of_strided by lia. split.
  - intros [? Hm]. split; [lia|]. apply (mod_eq_close s); [lia| |].
    + pose proof (Z.mod_pos_bound x s). lia.
    + rewrite Zmod_mod. apply Z.mod_divide in Hm as [k Hk]; [|lia].
      replace x with (t + k * s) by lia. apply Z_mod_plus_full.
  - intros [? Hm]. pose proof (Z.div_mod x s ltac:(lia)) as HD. pose proof (Z.div_pos x s ltac:(lia) ltac:(lia)).
    split; [nia|]. replace (x - t) with (x / s * s) by lia. apply Z_mod_mult.
Qed.

Lemma strides_disjoint n s t t' x : 0 <= t < s -> 0 <= t' < s -> 0 <= n -> n + s <= 2 ^ 32 ->
  x ∈ strides t n s -> x ∈ strides t' n s -> t = t'.
Proof. intros ???? H H'. apply elem_of_strides in H, H'; lia. Qed.

(** The threads of a scope share the indices out among them. *)
Lemma strides_partition n s : 0 < s -> 0 <= n -> n + s <= 2 ^ 32 ->
  (seqZ 0 s ≫= fun t => strides t n s) ≡ₚ seqZ 0 n.
Proof.
  intros Hs Hn0 Hn. apply NoDup_Permutation.
  - apply NoDup_bind; [| |apply NoDup_seqZ].
    + intros t t' x Ht%elem_of_seqZ Ht'%elem_of_seqZ. apply strides_disjoint; lia.
    + intros t Ht%elem_of_seqZ. apply strided_NoDup; lia.
  - apply NoDup_seqZ.
  - intros x. rewrite elem_of_seqZ, list_elem_of_bind. split.
    + intros (t & Hx & Ht%elem_of_seqZ). apply elem_of_strides in Hx; lia.
    + intros Hx. exists (x mod s). pose proof (Z.mod_pos_bound x s ltac:(lia)).
      rewrite elem_of_seqZ, elem_of_strides; lia.
Qed.

Lemma bind_app_perm {A B} (f g : A -> list B) (l : list A) :
  (l ≫= fun x => f x ++ g x) ≡ₚ (l ≫= f) ++ (l ≫= g).
Proof. induction l as [|x l IH]; csimpl; [done|]. rewrite IH. solve_Permutation. Qed.

Lemma bind_bind {A B C} (f : A -> list B) (g : B -> list C) (l : list A) :
  ((l ≫= f) ≫= g) = (l ≫= fun x => f x ≫= g).
Proof. induction l as [|x l IH]; csimpl; [done|]. by rewrite bind_app, IH. Qed.

Lemma bind_nil {A B} (f : A -> list B) (l : list A) : (forall x, x ∈ l -> f x = []) -> (l ≫= f) = [].
Proof.
  induction l as [|x l IH]; intros H; csimpl; [done|].
  by rewrite H, IH; [|intros; apply H; by right|left].
Qed.

Lemma join_fmap {A B} (f : A -> list B) (l : list A) : mjoin (f <$> l) = l ≫= f.
Proof. induction l as [|x l IH]; csimpl; [done|]. by rewrite IH. Qed.

(** With at most 32 of them at work, the threads of a scope do a loop of [n]
    rounds between them. *)
Lemma scope_partition {A} (g : Z -> list A) n s : 0 < s -> 0 <= n -> n + 32 <= 2 ^ 32 ->
  (seqZ 0 s ≫= fun t => if bool_decide (t < quiet_scope s) then strides t n (quiet_scope s) ≫= g else [])
  ≡ₚ (seqZ 0 n ≫= g).
Proof.
  intros Hs Hn0 Hn. set (q := quiet_scope s).
  assert (0 < q <= s /\ q <= 32) as Hq by (unfold q, quiet_scope, IBGDA_MAX_THREADS_PER_QUIET; case_bool_decide; lia).
  rewrite <- (strides_partition n q) by lia. rewrite bind_bind.
  replace s with (q + (s - q)) by lia. rewrite seqZ_app by lia. rewrite bind_app, Z.add_0_l.
  rewrite (bind_nil _ (seqZ q (s - q))), app_nil_r.
  - erewrite Forall_bind_ext; [reflexivity|]. apply Forall_forall. intros t Ht%list_elem_of_In%elem_of_seqZ. by rewrite bool_decide_true by lia.
  - intros t Ht%elem_of_seqZ. by rewrite bool_decide_false by lia.
Qed.

Lemma mapM_Ret {A B} (f : A -> outcome B) (g : A -> B) (l : list A) : (forall x, x ∈ l -> f x = Ret (g x)) ->
  mapM f l = Ret (g <$> l).
Proof.
  induction l as [|x l IH]; intros H; [done|].
  change (mapM f (x :: l)) with (y ← f x; k ← mapM f l; mret (M:=outcome) (y :: k)).
  rewrite H, IH by (left || (intros; apply H; by right)). done.
Qed.

(** ** Device states *)

(** What [ibgda_post_gpu_device_state] posts: arrays hold one entry per device in
    turn, and queue pairs have 24-bit numbers. *)
Record device_ok (st : device_state) : Prop := {
  dk_devs : 0 < num_devices_initialized st <= 15;
  dk_excl : 0 <= num_exclusive_dcis st < 2 ^ 24 /\ num_exclusive_dcis st mod num_devices_initialized st = 0;
  dk_shared : 0 < num_shared_dcis st < 2 ^ 24 /\ num_shared_dcis st mod num_devices_initialized st = 0;
  dk_pes : 0 <= mype st < npes st /\ npes st < 2 ^ 15;
  dk_rcs : 0 <= num_default_rc_per_pe st <= num_rc_per_pe st /\
           num_rc_per_pe st * num_devices_initialized st * npes st < 2 ^ 24
}.

(** The queue pairs in use: every DCI, and the RCs to other PEs. *)
Definition rcs_of (st : device_state) (nrcs : Z) : list qp_ref :=
  QRc <$> filter (fun i => i mod npes st <> mype st) (seqZ 0 (nrcs * npes st)).
Definition all_qps (st : device_state) : list qp_ref :=
  (QDci <$> seqZ 0 (num_shared_dcis st + num_exclusive_dcis st)) ++
  rcs_of st (num_rc_per_pe st * num_devices_initialized st).

Section Quiet.
Context (st : device_state) (Hok : device_ok st).

Definition quiet_rc_list (nrcs start_pe n i : Z) : list qp_ref :=
  let pe_idx := i / nrcs + start_pe in
  if bool_decide (pe_idx = mype st) then []
  else if bool_decide (pe_idx < start_pe) || bool_decide (pe_idx >= start_pe + n) then []
  else [QRc (i mod nrcs * npes st + pe_idx)].

Lemma quiet_rcs_none nrcs start_pe n l :
  quiet_rcs st nrcs start_pe n None l = Ret (l ≫= quiet_rc_list nrcs start_pe n).
Proof.
  induction l as [|i l IH]; csimpl; [done|]. unfold quiet_rc at 1, quiet_rc_list at 1.
  repeat case_bool_decide; csimpl; rewrite IH; done.
Qed.

(** Numbering by queue pair and then PE, or by PE and then queue pair, is the same set. *)
Lemma quiet_rc_list_all nrcs : 0 <= nrcs ->
  (seqZ 0 (nrcs * npes st) ≫= quiet_rc_list nrcs 0 (npes st)) ≡ₚ rcs_of st nrcs.
Proof.
  intros Hr. destruct (dk_pes st Hok) as [Hm Hp]. set (N := npes st) in *.
  assert (forall i, 0 <= i < nrcs * N -> 0 <= i / nrcs < N /\ 0 <= i mod nrcs < nrcs /\ i = nrcs * (i / nrcs) + i mod nrcs) as HD.
  { intros i Hi. pose proof (Z.mod_pos_bound i nrcs ltac:(nia)). pose proof (Z.div_mod i nrcs ltac:(nia)).
    split; [|lia]. split; [apply Z.div_pos; nia|]. apply Z.div_lt_upper_bound; nia. }
  assert (forall a b, 0 <= b < N -> (a * N + b) mod N = b /\ (a * N + b) / N = a) as HQ.
  { intros a b Hb. split; [rewrite Z.add_comm, Z_mod_plus_full; apply Z.mod_small; lia|].
    rewrite Z.add_comm, Z_div_plus_full, Z.div_small by lia. lia. }
  apply NoDup_Permutation.
  - apply NoDup_bind; [| |apply NoDup_seqZ].
    + intros i i' q Hi%elem_of_seqZ Hi'%elem_of_seqZ. unfold quiet_rc_list. fold N. rewrite !Z.add_0_r.
      repeat (case_bool_decide; csimpl; [by intros ?%elem_of_nil || by intros _ ?%elem_of_nil|]).
      intros ->%list_elem_of_singleton [= HE]%list_elem_of_singleton.
      destruct (HD i) as (D1 & D2 & D3), (HD i') as (D1' & D2' & D3'); try lia.
      destruct (HQ (i mod nrcs) (i / nrcs) D1) as [E1 E2], (HQ (i' mod nrcs) (i' / nrcs) D1') as [E1' E2'].
      rewrite HE in E1, E2. congruence.
    + intros i _. unfold quiet_rc_list. repeat case_bool_decide; csimpl; repeat constructor; by intros ?%elem_of_nil.
  - unfold rcs_of. apply NoDup_fmap_2; [by intros ?? [=]|]. apply list.NoDup_filter, NoDup_seqZ.
  - intros q. unfold rcs_of. rewrite list_elem_of_bind, list_elem_of_fmap. fold N. split.
    + intros (i & Hq & Hi%elem_of_seqZ). unfold quiet_rc_list in Hq. fold N in Hq. rewrite Z.add_0_r in Hq.
      destruct (HD i) as (D1 & D2 & D3); [lia|].
      destruct (bool_decide_reflect (i / nrcs = mype st)) as [|Hne]; [by apply elem_of_nil in Hq|].
      rewrite !bool_decide_false in Hq by lia. simpl in Hq. apply list_elem_of_singleton in Hq as ->.
      eexists; split; [done|]. destruct (HQ (i mod nrcs) (i / nrcs) D1) as [E1 E2].
      rewrite list_elem_of_filter, elem_of_seqZ, E1. split; [done|nia].
    + intros (j & -> & [Hne Hj%elem_of_seqZ]%list_elem_of_filter).
      pose proof (Z.mod_pos_bound j N ltac:(lia)) as HB. pose proof (Z.div_mod j N ltac:(lia)) as HJ.
      assert (0 <= j / N < nrcs) as HR by (split; [apply Z.div_pos; lia|apply Z.div_lt_upper_bound; lia]).
      exists (j mod N * nrcs + j / N).
      assert ((j mod N * nrcs + j / N) / nrcs = j mod N) as E1 by (rewrite Z.add_comm, Z_div_plus_full, Z.div_small by lia; lia).
      assert ((j mod N * nrcs + j / N) mod nrcs = j / N) as E2 by (rewrite Z.add_comm, Z_mod_plus_full, Z.mod_small by lia; lia).
      rewrite elem_of_seqZ. split; [|nia]. unfold quiet_rc_list. rewrite E1, E2, Z.add_0_r. fold N.
      rewrite !bool_decide_false by lia. apply list_elem_of_singleton. f_equal. lia.
Qed.

Lemma quiet_counts : 0 <= num_rc_per_pe st * num_devices_initialized st < 2 ^ 24 /\
  0 <= num_default_rc_per_pe st * num_devices_initialized st <= num_rc_per_pe st * num_devices_initialized st /\
  ndcis st = num_shared_dcis st + num_exclusive_dcis st.
Proof.
  destruct Hok as [? [? _] [? _] ? ?]. split; [nia|]. split; [nia|]. apply wrap_small. unfold in_u. lia.
Qed.

(** The lists of a scope in the cases that quiet all DCIs. *)
Definition quiet_list (nrcs s t : Z) : list qp_ref :=
  (if bool_decide (t < quiet_scope s) then QDci <$> strides t (ndcis st) (quiet_scope s) else []) ++
  (if bool_decide (t < quiet_scope s)
   then strides t (nrcs * npes st) (quiet_scope s) ≫= quiet_rc_list nrcs 0 (npes st) else []).

Lemma quiet_list_eq qp_handle num_qps nrcs s t :
  quiet_case st qp_handle num_qps = Ret (true, nrcs, None) -> 0 <= nrcs -> nrcs * npes st < 2 ^ 31 ->
  nvshmemi_ibgda_qp_quiet st NVSHMEMX_PE_ANY qp_handle num_qps t s = Ret (quiet_list nrcs s t).
Proof.
  intros HC Hn Hb. unfold nvshmemi_ibgda_qp_quiet, quiet_list. rewrite bool_decide_true by done. rewrite HC. cbn.
  rewrite (wrap_small 32 (nrcs * npes st)) by (unfold in_u; pose proof (dk_pes st Hok); nia).
  case_bool_decide; [|done]. rewrite quiet_rcs_none. done.
Qed.

Lemma quiet_list_perm nrcs s : 0 <= nrcs -> nrcs * npes st < 2 ^ 31 -> 0 < s ->
  (seqZ 0 s ≫= quiet_list nrcs s) ≡ₚ (QDci <$> seqZ 0 (num_shared_dcis st + num_exclusive_dcis st)) ++ rcs_of st nrcs.
Proof.
  intros Hn Hb Hs. pose proof (dk_pes st Hok). destruct quiet_counts as (_ & _ & HN).
  destruct Hok as [_ [He _] [Hsh _] _ _]. unfold quiet_list. rewrite bind_app_perm. f_equiv.
  - assert (forall l : list Z, QDci <$> l = l ≫= fun i => [QDci i]) as HF by (induction l as [|i l IH]; csimpl; by rewrite ?IH).
    rewrite HF, <- HN, <- (scope_partition _ (ndcis st) s) by lia.
    erewrite list_bind_ext; [reflexivity| |done]. intros t. repeat case_bool_decide; (done || apply HF).
  - rewrite scope_partition by nia. apply quiet_rc_list_all. lia.
Qed.
End Quiet.

(** C9: [nvshmem_quiet] and [nvshmem_fence] without arguments reach everything:
    the threads of a scope of any size share the queue pairs out among them, so
    that between them they wait for every DCI and every RC connected to another
    PE, each exactly once, and touch no other. *)
Theorem quiet_reaches_all st s qp_handle : device_ok st -> 0 < s ->
  (exists ls, mapM (fun t => nvshmemi_ibgda_qp_quiet st NVSHMEMX_PE_ANY qp_handle NVSHMEMX_QP_ALL t s) (seqZ 0 s) = Ret ls /\
    mjoin ls ≡ₚ all_qps st) /\
  (exists ls, mapM (fun t => nvshmemi_ibgda_qp_fence st NVSHMEMX_PE_ANY qp_handle NVSHMEMX_QP_ALL t s) (seqZ 0 s) = Ret ls /\
    mjoin ls ≡ₚ all_qps st).
Proof.
  intros Hok Hs. destruct (quiet_counts st Hok) as (Hr & Hd & _). pose proof (dk_pes st Hok).
  set (nrcs := num_rc_per_pe st * num_devices_initialized st) in *.
  assert (nrcs * npes st < 2 ^ 24) by apply (dk_rcs st Hok).
  assert (quiet_case st qp_handle NVSHMEMX_QP_ALL = Ret (true, nrcs, None)) as HC.
  { unfold quiet_case. rewrite (bool_decide_true (NVSHMEMX_QP_ALL = NVSHMEMX_QP_ALL)) by done. cbn. rewrite wrap_small by (unfold in_u; lia). done. }
  assert (exists ls, mapM (fun t => nvshmemi_ibgda_qp_quiet st NVSHMEMX_PE_ANY qp_handle NVSHMEMX_QP_ALL t s) (seqZ 0 s) = Ret ls /\
    mjoin ls ≡ₚ all_qps st) as HQ; [|split; exact HQ].
  eexists. rewrite (mapM_Ret _ (quiet_list st nrcs s)); [|intros; apply quiet_list_eq; (done || lia)].
  split; [done|]. unfold all_qps. fold nrcs. rewrite <- (quiet_list_perm st Hok nrcs s) by lia. by rewrite join_fmap.
Qed.

Definition sample_device : device_state :=
  {| num_shared_dcis := 2; num_exclusive_dcis := 6; dci_map_type := MAP_CTA; ndcts_per_pe := 2; num_qp_groups := 8;
     num_dct_groups := 1; num_rc_per_pe := 3; num_default_rc_per_pe := 2; num_devices_initialized := 1; may_skip_cst := false;
     npes := 4; mype := 1; node_npes := 4; node_mype := 1; enable_rail_opt := 0 |}.
Lemma sample_device_ok : device_ok sample_device.
Proof. by repeat split. Qed.

Lemma quiet_reaches_all_witness : exists ls,
  mapM (fun t => nvshmemi_ibgda_qp_quiet sample_device NVSHMEMX_PE_ANY None NVSHMEMX_QP_ALL t 64) (seqZ 0 64) = Ret ls /\
  mjoin ls ≡ₚ all_qps sample_device.
Proof. apply (quiet_reaches_all sample_device 64 None); [apply sample_device_ok|lia]. Defined.

(** ** Quiet on queue pairs the caller names *)
Lemma pairs_perm k n : 0 <= k -> 0 <= n ->
  ((fun i => (i mod k, i / k)) <$> seqZ 0 (k * n)) ≡ₚ (seqZ 0 k ≫= fun a => pair a <$> seqZ 0 n).
Proof.
  intros Hk Hn. apply NoDup_Permutation.
  - apply NoDup_fmap_2_strong; [|apply NoDup_seqZ]. intros i j Hi%elem_of_seqZ Hj%elem_of_seqZ [= E1 E2].
    rewrite (Z.div_mod i k), (Z.div_mod j k) by nia. congruence.
  - apply NoDup_bind; [| |apply NoDup_seqZ].
    + by intros a a' p _ _ (? & -> & _)%list_elem_of_fmap (? & [= -> _] & _)%list_elem_of_fmap.
    + intros a _. apply NoDup_fmap_2; [by intros ?? [=]|apply NoDup_seqZ].
  - intros [a b]. rewrite list_elem_of_fmap, list_elem_of_bind. split.
    + intros (i & [= -> ->] & Hi%elem_of_seqZ). exists (i mod k).
      pose proof (Z.mod_pos_bound i k ltac:(nia)). rewrite elem_of_seqZ. split; [|lia].
      apply list_elem_of_fmap. eexists; split; [done|]. rewrite elem_of_seqZ. split; [apply Z.div_pos; nia|].
      rewrite Z.add_0_l. apply Z.div_lt_upper_bound; nia.
    + intros (a' & (b' & [= <- <-] & Hb%elem_of_seqZ)%list_elem_of_fmap & Ha%elem_of_seqZ).
      exists (b * k + a). rewrite elem_of_seqZ. split; [|nia].
      rewrite Z.add_comm, Z_mod_plus_full, Z_div_plus_full, Z.mod_small, Z.div_small by lia. f_equal; lia.
Qed.

Lemma pairs_bind {A} (g : Z -> Z -> list A) k n : 0 <= k -> 0 <= n ->
  (seqZ 0 (k * n) ≫= fun i => g (i mod k) (i / k)) ≡ₚ (seqZ 0 k ≫= fun a => seqZ 0 n ≫= g a).
Proof.
  intros Hk Hn. pose proof (bind_Permutation (uncurry g) _ _ (pairs_perm k n Hk Hn)) as HP.
  rewrite bind_bind in HP.
  assert (forall {X} (h : X -> Z * Z) l, (h <$> l) ≫= uncurry g = l ≫= fun x => uncurry g (h x)) as HF
    by (intros X h l; induction l; csimpl; congruence).
  rewrite HF in HP. etrans; [exact HP|]. erewrite list_bind_ext; [reflexivity| |done].
  intros a. by rewrite HF.
Qed.

Lemma bind_lookup {A B} (f : A -> list B) (d : A) (l : list A) :
  (seqZ 0 (Z.of_nat (length l)) ≫= fun a => f (nth (Z.to_nat a) l d)) = l ≫= f.
Proof.
  induction l as [|x l IH] using rev_ind; [done|].
  rewrite length_app, bind_app. cbn [length]. rewrite Nat2Z.inj_add, seqZ_app, bind_app by lia. f_equal.
  - rewrite <- IH. apply Forall_bind_ext, Forall_forall. intros a Ha%list_elem_of_In%elem_of_seqZ.
    by rewrite app_nth1 by lia.
  - unfold seqZ. change (Z.to_nat (Z.of_nat 1)) with 1%nat. csimpl.
    by rewrite !Z.add_0_l, Nat2Z.id, app_nth2, Nat.sub_diag by lia.
Qed.

Lemma first_is_cons h l v : first_is (Some (h :: l)) v = Ret (bool_decide (h = v)).
Proof. reflexivity. Qed.

(** The queue pairs of handle [h] to the other PEs. *)
Definition rcs_of_handle (st : device_state) (h : Z) : list qp_ref :=
  (fun pe => QRc (h + pe)) <$> filter (fun pe => pe <> mype st) (seqZ 0 (npes st)).

Lemma quiet_rcs_some st k (l js : list Z) : 0 < k <= Z.of_nat (length l) ->
  (forall i, i ∈ js -> 0 <= i < k * npes st) ->
  quiet_rcs st k 0 (npes st) (Some l) js =
  Ret (js ≫= fun i => if bool_decide (i / k = mype st) then [] else [QRc (nth (Z.to_nat (i mod k)) l 0 + i / k)]).
Proof.
  intros Hk His. induction js as [|i js IH]; [done|]. cbn [quiet_rcs].
  rewrite IH by (intros; apply His; by right). specialize (His i ltac:(left)).
  pose proof (Z.mod_pos_bound i k ltac:(lia)).
  assert (0 <= i / k < npes st) by (split; [apply Z.div_pos; lia|apply Z.div_lt_upper_bound; lia]).
  unfold quiet_rc. rewrite !Z.add_0_r, Z.add_0_l, (bool_decide_false (i / k < 0)), (bool_decide_false (i / k >= npes st)) by lia.
  cbn [orb]. csimpl. case_bool_decide; [done|].
  unfold arr_get. rewrite bool_decide_false by lia.
  destruct (l !! Z.to_nat (i mod k)) as [h|] eqn:E.
  - apply nth_lookup_Some with (d := 0) in E. rewrite E. done.
  - apply lookup_ge_None in E. lia.
Qed.

Lemma filter_bind (P : Z -> Prop) `{!forall x, Decision (P x)} {A} (f : Z -> A) (l : list Z) :
  (l ≫= fun x => if bool_decide (P x) then [] else [f x]) = f <$> filter (fun x => ~ P x) l.
Proof.
  induction l as [|x l IH]; csimpl; [done|]. rewrite IH, filter_cons.
  case_bool_decide; case_decide; (done || tauto).
Qed.

(** Quiet on several named queue pairs: for two or more handles the threads
    of a scope wait, between them, for the queue pairs of each handle to all
    other PEs, each once, and for nothing else. *)
Theorem quiet_handles st s (l : list Z) : device_ok st -> 0 < s ->
  2 <= Z.of_nat (length l) <= num_rc_per_pe st * num_devices_initialized st ->
  (forall h, head l = Some h -> h <> NVSHMEMX_QP_DEFAULT /\ h <> NVSHMEMX_QP_ALL) ->
  exists ls, mapM (fun t => nvshmemi_ibgda_qp_quiet st NVSHMEMX_PE_ANY (Some l) (Z.of_nat (length l)) t s) (seqZ 0 s) = Ret ls /\
    mjoin ls ≡ₚ (l ≫= rcs_of_handle st).
Proof.
  intros Hok Hs Hl Hh. destruct (quiet_counts st Hok) as (Hr & _ & _). pose proof (dk_pes st Hok). pose proof (dk_rcs st Hok).
  set (k := Z.of_nat (length l)) in *. set (g2 := fun a b : Z => if bool_decide (b = mype st) then [] else [QRc (nth (Z.to_nat a) l 0 + b)]).
  set (g := fun i => g2 (i mod k) (i / k)).
  assert (quiet_case st (Some l) k = Ret (false, k, Some l)) as HC.
  { unfold quiet_case. rewrite (bool_decide_false (k = NVSHMEMX_QP_ALL)) by (unfold NVSHMEMX_QP_ALL; lia).
    rewrite (bool_decide_false (k = NVSHMEMX_QP_DEFAULT)) by (unfold NVSHMEMX_QP_DEFAULT; lia).
    destruct l as [|h l']; [simpl in *; lia|]. destruct (Hh h eq_refl) as [H1 H2].
    rewrite !first_is_cons, (bool_decide_false _ H1), (bool_decide_false _ H2). csimpl.
    rewrite !wrap_small by (unfold in_u; lia). case_bool_decide; [done|]. do 2 f_equal. f_equal. lia. }
  eexists. rewrite (mapM_Ret _ (fun t => if bool_decide (t < quiet_scope s) then strides t (k * npes st) (quiet_scope s) ≫= g else [])).
  - split; [done|]. rewrite join_fmap, scope_partition by nia. unfold g.
    etrans; [apply (pairs_bind g2); lia|].
    rewrite <- (bind_lookup (rcs_of_handle st) 0 l). fold k. erewrite list_bind_ext; [reflexivity| |done].
    intros a. unfold rcs_of_handle. symmetry. by rewrite <- (filter_bind (fun pe => pe = mype st)).
  - intros t Ht%elem_of_seqZ. unfold nvshmemi_ibgda_qp_quiet. rewrite (bool_decide_true (NVSHMEMX_PE_ANY = _)), HC by done.
    cbn. rewrite (wrap_small 32 (k * npes st)) by (unfold in_u; nia). case_bool_decide; [|done].
    rewrite quiet_rcs_some; [done|lia|]. intros i Hi.
    apply elem_of_strides in Hi; [lia| |nia|]; unfold quiet_scope, IBGDA_MAX_THREADS_PER_QUIET in *; case_bool_decide; nia.
Qed.

Lemma quiet_handles_witness : exists ls,
  mapM (fun t => nvshmemi_ibgda_qp_quiet sample_device NVSHMEMX_PE_ANY (Some [8; 12]) 2 t 1) (seqZ 0 1) = Ret ls /\
  mjoin ls ≡ₚ ([8; 12] ≫= rcs_of_handle sample_device).
Proof.
  apply (quiet_handles sample_device 1 [8; 12]); [apply sample_device_ok|lia|cbn; lia|].
  intros h [= <-]. done.
Defined.

(** With a single handle the count 1 is taken for [NVSHMEMX_QP_DEFAULT]: the
    default queue pairs are quieted and the one the caller names is not. *)
Lemma quiet_one_handle st s h pe : device_ok st -> 0 < s -> 0 <= pe < npes st ->
  num_default_rc_per_pe st * num_devices_initialized st * npes st <= h ->
  h <> NVSHMEMX_QP_ALL ->
  exists ls : list (list qp_ref), mapM (fun t => nvshmemi_ibgda_qp_quiet st NVSHMEMX_PE_ANY (Some [h]) 1 t s) (seqZ 0 s) = Ret ls /\
    QRc (h + pe) ∉ mjoin (M:=list) ls.
Proof.
  intros Hok Hs Hpe Hh Hne. destruct (quiet_counts st Hok) as (Hr & Hd & _). pose proof (dk_pes st Hok). pose proof (dk_rcs st Hok).
  set (nrcs := num_default_rc_per_pe st * num_devices_initialized st) in *.
  assert (quiet_case st (Some [h]) 1 = Ret (true, nrcs, None)) as HC.
  { unfold quiet_case. rewrite (bool_decide_false (1 = NVSHMEMX_QP_ALL)), !first_is_cons, (bool_decide_false _ Hne) by done.
    csimpl. rewrite wrap_small by (unfold in_u; nia). done. }
  eexists. rewrite (mapM_Ret _ (quiet_list st nrcs s)); [|intros; apply quiet_list_eq; (done || nia)].
  split; [done|]. intros Hin.
  assert (mjoin (quiet_list st nrcs s <$> seqZ 0 s) ≡ₚ (QDci <$> seqZ 0 (num_shared_dcis st + num_exclusive_dcis st)) ++ rcs_of st nrcs) as HP.
  { rewrite <- (quiet_list_perm st Hok nrcs s) by nia. by rewrite join_fmap. }
  rewrite HP in Hin. apply elem_of_app in Hin as [(? & ? & _)%list_elem_of_fmap|Hin]; [done|].
  unfold rcs_of in Hin. apply list_elem_of_fmap in Hin as (i & [= <-] & [_ Hi%elem_of_seqZ]%list_elem_of_filter). nia.
Qed.

(** ** The choice of a queue pair *)

(** The array of counters: one byte per group. *)
Definition switches_ok (st : device_state) (sw : list Z) : Prop :=
  Z.of_nat (length sw) = num_qp_groups st /\ 2 <= num_qp_groups st /\ Forall (fun v => 0 <= v < 256) sw.

Lemma bump_ok sw g : 0 <= g < Z.of_nat (length sw) -> exists v, sw !! Z.to_nat g = Some v /\
  bump sw g = Ret (u8 (v + 1), <[Z.to_nat g := u8 (v + 1)]> sw).
Proof.
  intros Hg. destruct (lookup_lt_is_Some_2 sw (Z.to_nat g)) as [v Hv]; [lia|]. exists v. split; [done|].
  unfold bump, arr_get. rewrite bool_decide_false by lia. by rewrite Hv.
Qed.

Lemma switches_ok_bump st sw g v : switches_ok st sw -> switches_ok st (<[g := u8 (v + 1)]> sw).
Proof.
  intros (Hl & H2 & HF). split_and!; [by rewrite length_insert|done|].
  apply Forall_insert; [done|]. apply wrap_in_u. lia.
Qed.

Lemma umod_ok a b : b <> 0 -> umod a b = Ret (a mod b).
Proof. intros. unfold umod. by rewrite bool_decide_false. Qed.
Lemma udiv_ok a b : b <> 0 -> udiv a b = Ret (a / b).
Proof. intros. unfold udiv. by rewrite bool_decide_false. Qed.

Section Choice.
Context (st : device_state) (Hok : device_ok st).

(** The default queue pairs, any queue pair, or the handle of the [k]-th. *)
Inductive qp_choice : Z -> Z -> Prop :=
| choose_default : 0 < num_default_rc_per_pe st -> qp_choice NVSHMEMX_QP_DEFAULT (num_default_rc_per_pe st * num_devices_initialized st)
| choose_any : 0 < num_rc_per_pe st -> qp_choice NVSHMEMX_QP_ANY (num_rc_per_pe st * num_devices_initialized st)
| choose_handle k : 0 <= k < num_rc_per_pe st * num_devices_initialized st ->
    qp_choice (k * npes st) (num_rc_per_pe st * num_devices_initialized st).

Lemma rc_default_any sw pe q m : switches_ok st sw -> 0 <= pe < npes st -> pe <> mype st ->
  q = NVSHMEMX_QP_DEFAULT \/ q = NVSHMEMX_QP_ANY ->
  m = (if bool_decide (q = NVSHMEMX_QP_ANY) then num_rc_per_pe st else num_default_rc_per_pe st) * num_devices_initialized st ->
  0 < m -> exists i sw', ibgda_get_rc st sw pe q = Ret ((i, true), sw') /\ switches_ok st sw' /\
    i mod npes st = pe /\ 0 <= i < m * npes st.
Proof.
  intros Hsw Hpe Hne Hq Hm Hpos. pose proof (dk_pes st Hok). pose proof (dk_rcs st Hok). destruct (quiet_counts st Hok) as (Hc & Hd & _).
  assert (m <= num_rc_per_pe st * num_devices_initialized st) by (rewrite Hm; case_bool_decide; lia).
  destruct (bump_ok sw (if bool_decide (q = NVSHMEMX_QP_ANY) then 1 else 0)) as (v & Hv & HB).
  { destruct Hsw as (? & ? & _). case_bool_decide; lia. }
  unfold ibgda_get_rc. rewrite (bool_decide_true (pe <> mype st)) by done.
  assert (bool_decide (q = NVSHMEMX_QP_DEFAULT) || bool_decide (q = NVSHMEMX_QP_ANY) = true) as ->
    by (apply orb_true_iff; rewrite !bool_decide_eq_true; done).
  cbn -[wrap bump bool_decide]. rewrite <- Hm, HB. cbn -[wrap bool_decide].
  rewrite (wrap_small 32 m), umod_ok by (unfold in_u; nia). cbn -[wrap].
  set (x := u8 (v + 1)). pose proof (wrap_in_u 8 (v + 1) ltac:(lia)) as Hx. fold x in Hx. unfold in_u in Hx.
  pose proof (Z.mod_pos_bound x m Hpos). assert (0 <= x mod m * npes st + pe < m * npes st) by nia.
  eexists _, _. split; [done|]. split; [by apply switches_ok_bump|].
  rewrite wrap_small by (unfold in_u; nia). split; [|done].
  rewrite Z.add_comm, Z_mod_plus_full. apply Z.mod_small. lia.
Qed.

(** The RC queue pair chosen for a PE is one connected to it: for the
    default queue pairs, for any, and for the handle of a created one, the
    index leaves the remainder [pe] by the number of PEs (the order in which the
    host lays [rcs] out) and is in range. *)
Theorem get_rc_reaches_pe sw pe q m : switches_ok st sw -> 0 <= pe < npes st -> pe <> mype st -> qp_choice q m ->
  exists i sw', ibgda_get_rc st sw pe q = Ret ((i, true), sw') /\ switches_ok st sw' /\
    i mod npes st = pe /\ 0 <= i < m * npes st.
Proof.
  intros Hsw Hpe Hne HC. pose proof (dk_pes st Hok). pose proof (dk_rcs st Hok). pose proof (dk_devs st Hok).
  destruct HC as [Hd|Hr|k Hk].
  - apply rc_default_any; [done|done|done|by left| |nia]. by rewrite bool_decide_false.
  - apply rc_default_any; [done|done|done|by right| |nia]. by rewrite bool_decide_true.
  - assert (k * npes st < 2 ^ 24 /\ k * npes st <> 1) as [HB HN1] by (assert (2 <= npes st) by lia; split; nia).
    unfold ibgda_get_rc. rewrite (bool_decide_true (pe <> mype st)) by done.
    rewrite (bool_decide_false (_ = NVSHMEMX_QP_DEFAULT)), (bool_decide_false (_ = NVSHMEMX_QP_ANY))
      by (unfold NVSHMEMX_QP_DEFAULT, NVSHMEMX_QP_ANY; lia).
    cbn -[wrap]. eexists _, _. split; [done|]. split; [done|]. rewrite wrap_small by (unfold in_u; nia).
    split; [|nia]. rewrite Z.add_comm, Z_mod_plus_full. apply Z.mod_small. lia.
Qed.

(** ** DCIs *)

(** A thread and a device state for which [dci_id] is defined. *)
Definition thread_ok (th : thread) : Prop :=
  0 <= ctaid th < 2 ^ 31 /\ 0 <= smid th < 2 ^ 31 /\ 0 < block_size th <= 1024 /\ 0 <= thread_id_in_block th < block_size th.

Lemma warp_size_pos th : thread_ok th -> 0 < warp_size th <= 32 /\ warp_size th <= block_size th.
Proof. intros (_ & _ & ? & _). unfold warp_size. case_bool_decide; lia. Qed.

Lemma dci_index_ok id v sh : 0 <= id < 2 ^ 31 -> 0 <= v -> exists i sh', dci_index st id v sh = Ret (i, sh') /\
  0 <= i < num_shared_dcis st + num_exclusive_dcis st /\ i mod num_devices_initialized st = v mod num_devices_initialized st.
Proof.
  intros Hid Hv. destruct Hok as [Hd [He He'] [Hs Hs'] _ _]. set (n := num_devices_initialized st) in *.
  unfold dci_index. fold n. rewrite udiv_ok, umod_ok by lia. cbn -[wrap umod].
  pose proof (Z.mod_pos_bound v n ltac:(lia)) as HV. pose proof (Z.div_mod id n ltac:(lia)).
  pose proof (Z.mod_pos_bound id n ltac:(lia)). pose proof (Z.div_pos id n ltac:(lia) ltac:(lia)).
  rewrite wrap_small by (unfold in_u; lia). set (w := id / n * n + v mod n).
  assert (w mod n = v mod n) as HM by (unfold w; rewrite Z.add_comm, Z_mod_plus_full; apply Zmod_mod).
  case_bool_decide; [eexists _, _; split; [done|]; split; [lia|done]|].
  rewrite umod_ok by lia. cbn -[wrap]. pose proof (Z.mod_pos_bound w (num_shared_dcis st) ltac:(lia)).
  rewrite wrap_small by (unfold in_u; lia). eexists _, _. split; [done|]. split; [lia|].
  apply Z.mod_divide in He' as [a Ha]; [|lia]. apply Z.mod_divide in Hs' as [b Hb]; [|lia].
  rewrite Ha, Z.add_comm, Z_mod_plus_full, <- HM, Hb. rewrite (Z.mul_comm b n).
  apply Z.mod_mod_divide. by exists b; lia.
Qed.

Lemma get_dci_ok sw th pe id sh : switches_ok st sw -> dci_id st th pe = Ret (id, sh) -> 0 <= id < 2 ^ 31 ->
  exists i sh' v, sw !! Z.to_nat (id mod num_qp_groups st) = Some v /\
    ibgda_get_dci st sw th pe = Ret ((i, sh'), <[Z.to_nat (id mod num_qp_groups st) := u8 (v + 1)]> sw) /\
    0 <= i < num_shared_dcis st + num_exclusive_dcis st /\
    i mod num_devices_initialized st = u8 (v + 1) mod num_devices_initialized st.
Proof.
  intros Hsw HI Hid. destruct Hsw as (Hl & H2 & _). pose proof (Z.mod_pos_bound id (num_qp_groups st) ltac:(lia)).
  destruct (bump_ok sw (id mod num_qp_groups st)) as (v & Hv & HB); [lia|].
  destruct (dci_index_ok id (u8 (v + 1)) sh Hid) as (i & sh' & HD & Hr & Hm); [apply wrap_in_u; lia|].
  exists i, sh', v. split; [done|]. split; [|done].
  unfold ibgda_get_dci. rewrite HI. cbn -[wrap umod]. rewrite umod_ok by lia. cbn -[wrap]. rewrite HB. cbn -[wrap].
  by rewrite HD.
Qed.

(** The loop over the devices takes the counter of one group through
    consecutive values. *)
Lemma cst_dcis_ok th id sh n sw v : dci_id st th (mype st) = Ret (id, sh) -> 0 <= id < 2 ^ 31 ->
  switches_ok st sw -> sw !! Z.to_nat (id mod num_qp_groups st) = Some v ->
  exists l sw', cst_dcis st n sw th = Ret (l, sw') /\
    Forall (fun i => 0 <= i < num_shared_dcis st + num_exclusive_dcis st) l /\
    (fun i => i mod num_devices_initialized st) <$> l =
    (fun k => u8 (v + k) mod num_devices_initialized st) <$> seqZ 1 (Z.of_nat n).
Proof.
  intros HI Hid. revert sw v. induction n as [|n IH]; intros sw v Hsw Hv; [by exists [], sw|].
  destruct (get_dci_ok sw th (mype st) id sh Hsw HI Hid) as (i & sh' & v' & Hv' & HG & Hr & Hm).
  rewrite Hv in Hv'. injection Hv' as <-. set (g := Z.to_nat (id mod num_qp_groups st)) in *.
  destruct (IH (<[g := u8 (v + 1)]> sw) (u8 (v + 1))) as (l & sw' & HC & HF & HE).
  { by apply switches_ok_bump. }
  { apply list_lookup_insert_eq. eapply lookup_lt_Some, Hv. }
  exists (i :: l), sw'. cbn [cst_dcis]. rewrite HG. cbn -[wrap]. rewrite HC. split; [done|]. split; [by constructor|].
  rewrite seqZ_cons by lia. replace (Z.pred (Z.of_nat (S n))) with (Z.of_nat n) by lia.
  change (Z.succ 1) with (1 + 1). rewrite <- (fmap_add_seqZ 1 1), !fmap_cons, <- list_fmap_compose, Hm, HE.
  f_equal. apply list_fmap_ext. intros _ k _. unfold compose, wrap. rewrite Zplus_mod_idemp_l. do 2 f_equal. lia.
Qed.

Lemma consecutive_perm v n : 0 < n -> ((fun k => (v + k) mod n) <$> seqZ 1 n) ≡ₚ seqZ 0 n.
Proof.
  intros Hn. apply NoDup_Permutation; [|apply NoDup_seqZ|].
  - apply NoDup_fmap_2_strong; [|apply NoDup_seqZ]. intros a b Ha%elem_of_seqZ Hb%elem_of_seqZ HE.
    apply mod_eq_close in HE; lia.
  - intros j. rewrite list_elem_of_fmap, elem_of_seqZ. split.
    + intros (k & -> & _). pose proof (Z.mod_pos_bound (v + k) n Hn). lia.
    + intros Hj. pose proof (Z.mod_pos_bound (j - v - 1) n Hn). exists (1 + (j - v - 1) mod n).
      rewrite elem_of_seqZ. split; [|lia]. rewrite Z.add_assoc, Zplus_mod_idemp_r.
      replace (v + 1 + (j - v - 1)) with j by lia. symmetry. apply Z.mod_small. lia.
Qed.

(** The consistency operation reaches every device: where the number of
    devices divides 256, the DCIs on which
    [nvshmemi_ibgda_enforce_consistency_at_target] runs it exist and belong to
    pairwise different devices, all of them, whatever the counter of the group
    was, a wrap-around of the byte included. *)
Theorem cst_reaches_devices sw th id sh : switches_ok st sw -> may_skip_cst st = false ->
  dci_id st th (mype st) = Ret (id, sh) -> 0 <= id < 2 ^ 31 -> (num_devices_initialized st | 256) ->
  exists l sw', nvshmemi_ibgda_enforce_consistency_at_target st sw th = Ret (l, sw') /\
    Forall (fun i => 0 <= i < num_shared_dcis st + num_exclusive_dcis st) l /\
    ((fun i => i mod num_devices_initialized st) <$> l) ≡ₚ seqZ 0 (num_devices_initialized st).
Proof.
  intros Hsw Hc HI Hid Hdiv. pose proof (dk_devs st Hok). unfold nvshmemi_ibgda_enforce_consistency_at_target. rewrite Hc.
  destruct Hsw as (Hl & H2 & HF). pose proof (Z.mod_pos_bound id (num_qp_groups st) ltac:(lia)).
  destruct (lookup_lt_is_Some_2 sw (Z.to_nat (id mod num_qp_groups st))) as [v Hv]; [lia|].
  destruct (cst_dcis_ok th id sh (Z.to_nat (num_devices_initialized st)) sw v HI Hid) as (l & sw' & HE & HR & HM); [done|done|].
  exists l, sw'. split; [done|]. split; [done|]. rewrite HM, Z2Nat.id by lia.
  rewrite <- (consecutive_perm v) by lia. erewrite list_fmap_ext; [reflexivity|].
  intros _ k _. unfold wrap. by apply Z.mod_mod_divide.
Qed.

Lemma dci_index_unshared id v sh i : num_devices_initialized st = 1 -> 0 <= id < 2 ^ 32 ->
  dci_index st id v sh = Ret (i, false) -> i = id /\ sh = false.
Proof.
  intros Hd Hr. unfold dci_index. rewrite Hd, udiv_ok, umod_ok by lia. cbn -[wrap umod].
  rewrite Z.mod_1_r, Z.div_1_r, Z.mul_1_r, Z.add_0_r. intros HE. rewrite wrap_small in HE by done.
  case_bool_decide; [by simplify_eq|]. by destruct (umod _ _).
Qed.

(** In blocks of whole warps the warps of a grid are numbered without a gap. *)
Definition warp_number (t : thread) : Z :=
  u32 (u32 (ctaid t * block_size t) / warp_size t + thread_id_in_block t / warp_size t).
Lemma warp_number_block t : thread_ok t -> block_size t < 32 \/ block_size t mod 32 = 0 -> ctaid t * block_size t < 2 ^ 31 ->
  warp_number t / (block_size t / warp_size t) = ctaid t.
Proof.
  intros Ht Hm HO. pose proof (warp_size_pos t Ht). destruct Ht as (? & _ & ? & ?).
  assert (exists q, block_size t = q * warp_size t /\ 0 < q) as (q & Hq & Hp).
  { unfold warp_size. case_bool_decide; [exists 1; lia|]. destruct Hm as [|HM]; [lia|].
    apply Z.mod_divide in HM as [q Hq]; [|done]. exists q. lia. }
  assert (0 <= thread_id_in_block t / warp_size t < q) by (split; [apply Z.div_pos; lia|apply Z.div_lt_upper_bound; lia]).
  unfold warp_number. rewrite (wrap_small 32 (ctaid t * _)) by (unfold in_u; nia).
  rewrite Hq, Z.mul_assoc, !Z.div_mul, wrap_small by (unfold in_u; nia).
  rewrite Z.add_comm, Z_div_plus_full, Z.div_small by lia. lia.
Qed.

(** A DCI that is not flagged as shared is not shared: with one device, and
    blocks of whole warps if DCIs are mapped to warps, threads of different
    blocks never get the same DCI with [out_shared_among_ctas] false (which lets
    them use atomics of block scope on it). *)
Theorem dci_exclusive th th' pe pe' id id' sh sh' v v' i j :
  thread_ok th -> thread_ok th' -> num_devices_initialized st = 1 ->
  block_size th = block_size th' -> block_size th < 32 \/ block_size th mod 32 = 0 ->
  ctaid th * block_size th < 2 ^ 31 -> ctaid th' * block_size th' < 2 ^ 31 ->
  dci_id st th pe = Ret (id, sh) -> dci_id st th' pe' = Ret (id', sh') ->
  dci_index st id v sh = Ret (i, false) -> dci_index st id' v' sh' = Ret (j, false) ->
  ctaid th <> ctaid th' -> i <> j.
Proof.
  intros Ht Ht' Hd Hb Hm Ho Ho' HI HI' HD HD' Hne.
  assert (forall x, 0 <= u32 x < 2 ^ 32) as HU by (intros; apply (wrap_in_u 32); lia).
  pose proof (warp_size_pos th Ht). pose proof (warp_size_pos th' Ht').
  pose proof Ht as (? & ? & _). pose proof Ht' as (? & ? & _).
  unfold dci_id in HI, HI'. destruct (dci_map_type st); [| | | |done].
  - simplify_eq. apply dci_index_unshared in HD as [-> _], HD' as [-> _]; lia.
  - simplify_eq. apply dci_index_unshared in HD as [_ ?]; (done || lia).
  - rewrite udiv_ok in HI, HI' by lia. cbn -[wrap] in HI, HI'. fold (warp_number th) in HI. fold (warp_number th') in HI'.
    simplify_eq. apply dci_index_unshared in HD as [-> _], HD' as [-> _]; try done; try apply HU.
    intros HE. apply Hne. rewrite <- (warp_number_block th), <- (warp_number_block th') by (done || by rewrite <- Hb).
    assert (warp_size th' = warp_size th) as -> by (unfold warp_size; by rewrite Hb). by rewrite HE, Hb.
  - bind_inv HI. simplify_eq. apply dci_index_unshared in HD as [_ ?]; (done || apply HU).
Qed.
End Choice.

Definition sample_switches : list Z := [3; 255; 0; 7; 0; 0; 0; 0].
Lemma sample_switches_ok : switches_ok sample_device sample_switches.
Proof. split_and!; [done|done|]. by repeat constructor. Qed.

Lemma get_rc_reaches_pe_witness : exists i sw',
  ibgda_get_rc sample_device sample_switches 3 NVSHMEMX_QP_DEFAULT = Ret ((i, true), sw') /\
  switches_ok sample_device sw' /\ i mod 4 = 3 /\ 0 <= i < 2 * 4.
Proof.
  apply (get_rc_reaches_pe sample_device sample_device_ok sample_switches 3 NVSHMEMX_QP_DEFAULT 2); [|done|done|].
  - apply sample_switches_ok.
  - by apply (choose_default sample_device).
Defined.

Definition two_devices : device_state :=
  {| num_shared_dcis := 2; num_exclusive_dcis := 6; dci_map_type := MAP_CTA; ndcts_per_pe := 2; num_qp_groups := 8;
     num_dct_groups := 1; num_rc_per_pe := 0; num_default_rc_per_pe := 0; num_devices_initialized := 2; may_skip_cst := false;
     npes := 4; mype := 1; node_npes := 4; node_mype := 1; enable_rail_opt := 0 |}.
Definition sample_thread (cta : Z) : thread := MkThread cta 5 64 40.
Lemma cst_reaches_devices_witness : exists l sw',
  nvshmemi_ibgda_enforce_consistency_at_target two_devices sample_switches (sample_thread 1) = Ret (l, sw') /\
  Forall (fun i => 0 <= i < 8) l /\ ((fun i => i mod 2) <$> l) ≡ₚ seqZ 0 2.
Proof.
  apply (cst_reaches_devices two_devices ltac:(by repeat split) sample_switches (sample_thread 1) 1 false).
  - split_and!; [done|done|]. by repeat constructor.
  - done.
  - done.
  - done.
  - by exists 128.
Defined.

Lemma dci_exclusive_witness :
  dci_index sample_device 3 0 false = Ret (3, false) /\ dci_index sample_device 4 0 false = Ret (4, false) /\ 3 <> 4.
Proof.
  split_and!; [done|done|].
  apply (dci_exclusive sample_device (sample_thread 3) (sample_thread 4) 0 0 3 4 false false 0 0); done || (by left) || (by right).
Defined.

(** ** Runs outside the hypotheses *)

(** Two devices: blocks 0 and 1 get DCI 1, neither flagged as shared. *)
Example dci_two_devices_shared :
  exists sw sw', ibgda_get_dci two_devices [0; 0; 0; 0; 0; 0; 0; 0] (sample_thread 0) 0 = Ret ((1, false), sw) /\
    ibgda_get_dci two_devices sw (sample_thread 1) 0 = Ret ((1, false), sw').
Proof. by eexists _, _. Qed.

(** DCIs mapped to warps and blocks of 48 threads: warp 1 of block 0 and warp 0
    of block 1 get DCI 1, neither flagged as shared. *)
Example dci_partial_warps_shared :
  let st := {| num_shared_dcis := 2; num_exclusive_dcis := 6; dci_map_type := MAP_WARP; ndcts_per_pe := 2; num_qp_groups := 8;
     num_dct_groups := 1; num_rc_per_pe := 0; num_default_rc_per_pe := 0; num_devices_initialized := 1; may_skip_cst := false;
     npes := 4; mype := 1; node_npes := 4; node_mype := 1; enable_rail_opt := 0 |} in
  exists sw sw', ibgda_get_dci st [0; 0; 0; 0; 0; 0; 0; 0] (MkThread 0 5 48 40) 0 = Ret ((1, false), sw) /\
    ibgda_get_dci st sw (MkThread 1 6 48 0) 0 = Ret ((1, false), sw').
Proof. by eexists _, _. Qed.

(** Three devices, the counter of the group at 253: the byte wraps in the loop
    and the consistency operation runs twice on one device and never on another. *)
Example cst_misses_device :
  let st := {| num_shared_dcis := 3; num_exclusive_dcis := 6; dci_map_type := MAP_CTA; ndcts_per_pe := 2; num_qp_groups := 3;
     num_dct_groups := 1; num_rc_per_pe := 0; num_default_rc_per_pe := 0; num_devices_initialized := 3; may_skip_cst := false;
     npes := 4; mype := 1; node_npes := 4; node_mype := 1; enable_rail_opt := 0 |} in
  exists l sw, nvshmemi_ibgda_enforce_consistency_at_target st [253; 0; 0] (sample_thread 0) = Ret (l, sw) /\
    (fun i => i mod 3) <$> l = [2; 0; 0].
Proof. by eexists _, _. Qed.

(** [nvshmemi_ibgda_fence] takes RCs to be ordered by PE and then number, but
    they are ordered by number and then PE: with two default RCs per PE, PE 0 of
    2 does not wait for RC 1, to PE 1, and waits for RC 2, to itself. *)
Example fence_skips_peer :
  let st := {| num_shared_dcis := 1; num_exclusive_dcis := 0; dci_map_type := MAP_CTA; ndcts_per_pe := 2; num_qp_groups := 2;
     num_dct_groups := 1; num_rc_per_pe := 2; num_default_rc_per_pe := 2; num_devices_initialized := 1; may_skip_cst := false;
     npes := 2; mype := 0; node_npes := 2; node_mype := 0; enable_rail_opt := 0 |} in
  nvshmemi_ibgda_fence st 0 1 = Ret [QDci 0; QRc 2; QRc 3].
Proof. reflexivity. Qed.
End IbgdaQpSpec.
