(* ===== verification/IbgdaHost.v ===== *)
(** * GPU-initiated InfiniBand: queue pairs on the host

    src/src/modules/transport/ibgda/ibgda.cpp: how many queue pairs a device gets,
    the creation and the connection of RCs, later RCs on request, and the tables
    of DCTs, DCIs, RCs and CQs that the device code indexes.

    The numbers and addresses the hardware gives to queue pairs are an oracle
    ([hw]).  All PEs run the collective parts together: [setup_rc_endpoints] is a
    step of the whole job around one [alltoall] of the bootstrap, which hands
    block [j] of PE [i] to PE [i] as block [i] of PE [j].  An array from [calloc]
    holds null pointers; the part that [realloc] adds is not initialised and is
    absent from the map.  Failures of verbs and CUDA calls are not modelled, and
    of a queue pair only its numbers and its peer. *)
From stdpp Require Import base gmap list option strings.
From Stdlib Require Import ZArith Lia Ascii.
From S2P Require Import Prelude IbgdaQueue IbgdaQp.

Module IbgdaHost.
Import IbgdaQueue IbgdaQp.

(** ** Options *)

(** [std::remove_if(.., ::isspace)] and [::tolower] *)
Definition isspace (c : ascii) : bool :=
  let n := Z.of_nat (nat_of_ascii c) in bool_decide (n = 32) || (bool_decide (9 <= n) && bool_decide (n <= 13)).
Definition tolower (c : ascii) : ascii :=
  let n := nat_of_ascii c in
  if bool_decide (65 <= n)%nat && bool_decide (n <= 90)%nat then ascii_of_nat (n + 32) else c.
Fixpoint normalise (s : string) : string :=
  match s with
  | EmptyString => EmptyString
  | String c s => if isspace c then normalise s else String (tolower c) (normalise s)
  end.

(** [ibgda_parse_qp_map_by]: the status, and the map type if it is 0 *)
Definition ibgda_parse_qp_map_by (str : string) : Z * option map_type :=
  let req := normalise str in
  if bool_decide (req = "cta"%string) then (0, Some MAP_CTA)
  else if bool_decide (req = "sm"%string) then (0, Some MAP_SM)
  else if bool_decide (req = "warp"%string) then (0, Some MAP_WARP)
  else if bool_decide (req = "dct"%string) then (0, Some MAP_DCT)
  else (NVSHMEMX_ERROR_INVALID_VALUE, None).

Inductive nic_handler := HANDLER_AUTO | HANDLER_GPU | HANDLER_CPU_GDRCOPY | HANDLER_CPU_HOST_MEMORY.
#[export] Instance nic_handler_eq_dec : EqDecision nic_handler.
Proof. solve_decision. Defined.

(** [ibgda_parse_nic_handler_request] *)
Definition ibgda_parse_nic_handler_request (use_gdrcopy : bool) (str : string) : Z * option nic_handler :=
  let req := normalise str in
  let '(status, loc) :=
    if bool_decide (req = "auto"%string) then (0, HANDLER_AUTO)
    else if bool_decide (req = "gpu"%string) then (0, HANDLER_GPU)
    else if bool_decide (req = "cpu"%string) then (0, HANDLER_CPU_GDRCOPY)
    else if bool_decide (req = "cpu_host_memory"%string) then (0, HANDLER_CPU_HOST_MEMORY)
    else (NVSHMEMX_ERROR_INVALID_VALUE, HANDLER_AUTO) in
  if bool_decide (loc = HANDLER_CPU_GDRCOPY) && negb use_gdrcopy then (NVSHMEMX_ERROR_NOT_SUPPORTED, None)
  else if bool_decide (status = 0) then (0, Some loc) else (status, None).

Record options := MkOptions {
  IBGDA_NUM_DCT : Z;
  IBGDA_NUM_DCI : Z;
  IBGDA_NUM_SHARED_DCI : Z;
  IBGDA_NUM_RC_PER_PE : Z;
  IBGDA_DCI_MAP_BY : string;
  IBGDA_RC_MAP_BY : string;
  IBGDA_NUM_FETCH_SLOTS_PER_DCI : Z;
  IBGDA_NUM_FETCH_SLOTS_PER_RC : Z
}.

(** [ibgda_calculate_dci_endpoints]: status, or map type, [num_eps] and
    [num_shared_eps] *)
Definition ibgda_calculate_dci_endpoints (o : options) (dct_num_eps n_pes warp_size mpc : Z) : outcome (Z + (map_type * Z * Z)) :=
  match ibgda_parse_qp_map_by (IBGDA_DCI_MAP_BY o) with
  | (_, None) => Ret (inl NVSHMEMX_ERROR_INVALID_VALUE)
  | (_, Some dc_map_type) =>
      if bool_decide (IBGDA_NUM_FETCH_SLOTS_PER_DCI o < warp_size) then Ret (inl NVSHMEMX_ERROR_INVALID_VALUE)
      else
        let num_shared_dci_eps := IBGDA_NUM_SHARED_DCI o in
        let num_dci_eps :=
          if bool_decide (IBGDA_NUM_DCI o <= 0) then
            match dc_map_type with
            | MAP_CTA | MAP_SM => Some mpc
            | MAP_WARP => Some (mpc * warp_size)
            | MAP_DCT => Some (dct_num_eps * n_pes)
            | MAP_INVALID => None
            end ≫= fun n => Some (n + num_shared_dci_eps)
          else Some (IBGDA_NUM_DCI o) in
        match num_dci_eps with
        | None => Ret (inl NVSHMEMX_ERROR_INVALID_VALUE)
        | Some num_dci_eps =>
            cassert (bool_decide (num_dci_eps > 0));;
            if bool_decide (num_shared_dci_eps > num_dci_eps) then Ret (inl NVSHMEMX_ERROR_INVALID_VALUE)
            else Ret (inr (dc_map_type, num_dci_eps, num_shared_dci_eps))
        end
  end.

(** [ibgda_calculate_rc_endpoints]: the status and [rc.map_by] where it is set *)
Definition ibgda_calculate_rc_endpoints (o : options) (warp_size : Z) : Z * option map_type :=
  if bool_decide (IBGDA_NUM_RC_PER_PE o < 0) then (NVSHMEMX_SUCCESS, None)
  else match ibgda_parse_qp_map_by (IBGDA_RC_MAP_BY o) with
       | (status, None) => (status, None)
       | (_, Some rc_map_type) =>
           if bool_decide (IBGDA_NUM_FETCH_SLOTS_PER_RC o < warp_size) then (NVSHMEMX_ERROR_INVALID_VALUE, None)
           else match rc_map_type with
                | MAP_CTA | MAP_SM | MAP_WARP => (0, Some rc_map_type)
                | _ => (NVSHMEMX_ERROR_INVALID_VALUE, None)
                end
       end.

(** ** Devices and endpoints *)

(** [struct ibgda_rc_handle]: the number of a queue pair and the address of its port *)
Record rc_handle := MkRcHandle { rh_qpn : Z; rh_addr : Z }.
Definition null_handle : rc_handle := MkRcHandle 0 0.

(** [struct ibgda_ep] *)
Record ep := MkEp {
  ep_qpn : Z;
  ep_user_index : Z;
  ep_portid : Z;
  ep_peer : option rc_handle  (* what [ibgda_rc_init2rtr] connects it to *)
}.

Record device := MkHostDevice {
  dct_num_eps : Z;
  dci_num_eps : Z;
  dci_num_shared_eps : Z;
  rc_num_eps_per_pe : Z;
  rc_cap : Z;                  (* entries of the array [rc.eps]; 0 for a null pointer *)
  rc_eps : gmap Z (option ep)  (* [Some None] is a null pointer *)
}.

Definition set_rc (d : device) (num cap : Z) (eps : gmap Z (option ep)) : device :=
  {| dct_num_eps := dct_num_eps d; dci_num_eps := dci_num_eps d; dci_num_shared_eps := dci_num_shared_eps d;
     rc_num_eps_per_pe := num; rc_cap := cap; rc_eps := eps |}.

(** [ibgda_connect_device_calculations], with [ibgda_validate_dct_endpoints]:
    status, or the device with its counts and the two map types *)
Definition ibgda_connect_device_calculations (o : options) (n_pes warp_size mpc : Z) (d : device)
  : outcome (Z + (device * map_type * option map_type)) :=
  r ← ibgda_calculate_dci_endpoints o (IBGDA_NUM_DCT o) n_pes warp_size mpc;
  match r with
  | inl status => Ret (inl status)
  | inr (dc_map_type, num_dci_eps, num_shared_dci_eps) =>
      let '(status, rc_map_type) := ibgda_calculate_rc_endpoints o warp_size in
      if bool_decide (status <> 0) then Ret (inl status)
      else Ret (inr (MkHostDevice (IBGDA_NUM_DCT o) num_dci_eps num_shared_dci_eps (rc_num_eps_per_pe d) (rc_cap d) (rc_eps d),
                     dc_map_type, rc_map_type))
  end.

Section Rc.
Context (n_pes : Z).

(** [ibgda_allocate_rc_structures] *)
Definition ibgda_allocate_rc_structures (d : device) (num_rc_eps : Z) : device :=
  if bool_decide (num_rc_eps <= 0) then d
  else if bool_decide (rc_cap d = 0) then
    set_rc d (rc_num_eps_per_pe d) num_rc_eps (list_to_map ((fun i => (i, None)) <$> seqZ 0 num_rc_eps))
  else
    let new_size := rc_num_eps_per_pe d * n_pes + num_rc_eps in
    set_rc d (rc_num_eps_per_pe d) new_size (filter (fun p => p.1 < new_size) (rc_eps d)).

(** [eps[i] = e] and [*eps[i]] *)
Definition store_ep (d : device) (i : Z) (e : ep) : outcome device :=
  if bool_decide (0 <= i) && bool_decide (i < rc_cap d)
  then Ret (set_rc d (rc_num_eps_per_pe d) (rc_cap d) (<[i := Some e]> (rc_eps d))) else Fail FUndef.
Definition load_ep (d : device) (i : Z) : outcome ep :=
  match rc_eps d !! i with Some (Some e) => Ret e | _ => Fail FUndef end.
Definition store_handle (l : list rc_handle) (i : Z) (h : rc_handle) : outcome (list rc_handle) :=
  if bool_decide (0 <= i) && bool_decide (i < Z.of_nat (length l)) then Ret (<[Z.to_nat i := h]> l) else Fail FUndef.

(** The hardware: the number of the queue pair created at an index of a device,
    and the address of a port. *)
Context (qpn : Z -> Z) (addr : Z -> Z).

(** One round of the first loop of [ibgda_setup_rc_endpoints]: create the queue
    pair and export its handle. *)
Definition create_rc (mype num_eps_per_pe portid rc_first_index i j : Z) (s : device * list rc_handle)
  : outcome (device * list rc_handle) :=
  let dst_pe := (i * n_pes + 1 + mype + j) mod n_pes in
  if bool_decide (dst_pe = mype) then Ret s
  else
    let mapped_i := rc_first_index + i * n_pes + dst_pe in
    let local_mapped_i := i + num_eps_per_pe * dst_pe in
    d ← store_ep s.1 mapped_i (MkEp (qpn mapped_i) mapped_i portid None);
    l ← store_handle s.2 local_mapped_i (MkRcHandle (qpn mapped_i) (addr portid));
    Ret (d, l).

(** One round of the second loop: connect the queue pair. *)
Definition connect_rc (mype num_eps_per_pe rc_first_index : Z) (peer_ep_handles : list rc_handle) (i j : Z) (d : device)
  : outcome device :=
  if bool_decide (j = mype) then Ret d
  else
    let ep_index := rc_first_index + i * n_pes + j in
    e ← load_ep d ep_index;
    h ← arr_get peer_ep_handles (num_eps_per_pe * j + i);
    store_ep d ep_index (MkEp (ep_qpn e) (ep_user_index e) (ep_portid e) (Some h)).

(** [for (i = 0; i < a; ++i) for (j = 0; j < b; ++j)] *)
Fixpoint for_list {S} (f : Z -> S -> outcome S) (l : list Z) (s : S) : outcome S :=
  match l with [] => Ret s | i :: l => s ← f i s; for_list f l s end.
Definition for_grid {S} (a b : Z) (f : Z -> Z -> S -> outcome S) (s : S) : outcome S :=
  for_list (fun i => for_list (f i) (seqZ 0 b)) (seqZ 0 a) s.

(** Before and after the [alltoall] *)
Definition create_rcs (mype num_eps_per_pe portid : Z) (d : device) : outcome (device * list rc_handle) :=
  for_grid num_eps_per_pe n_pes
    (create_rc mype num_eps_per_pe portid (rc_num_eps_per_pe d * n_pes))
    (d, replicate (Z.to_nat (num_eps_per_pe * n_pes)) null_handle).
Definition connect_rcs (mype num_eps_per_pe : Z) (peer_ep_handles : list rc_handle) (d : device) : outcome device :=
  d' ← for_grid num_eps_per_pe n_pes
         (connect_rc mype num_eps_per_pe (rc_num_eps_per_pe d * n_pes) peer_ep_handles) d;
  Ret (set_rc d' (rc_num_eps_per_pe d + num_eps_per_pe) (rc_cap d') (rc_eps d')).
End Rc.

(** The [alltoall] of the bootstrap, as PE [i] receives it: block [i] of every PE. *)
Definition alltoall_recv (num_eps_per_pe i : Z) (sent : list (list rc_handle)) : list rc_handle :=
  sent ≫= fun l => take (Z.to_nat num_eps_per_pe) (drop (Z.to_nat (num_eps_per_pe * i)) l).

(** What the hardware gives out, by PE *)
Record hw := MkHw { hw_qpn : Z -> Z -> Z; hw_addr : Z -> Z -> Z }.

Fixpoint for_pes {A B} (f : Z -> A -> outcome B) (pe : Z) (l : list A) : outcome (list B) :=
  match l with [] => Ret [] | a :: l => b ← f pe a; k ← for_pes f (pe + 1) l; Ret (b :: k) end.

(** [ibgda_setup_rc_endpoints], by all PEs on one of their devices *)
Definition ibgda_setup_rc_endpoints (e : hw) (n_pes num_eps_per_pe portid : Z) (ds : list device) : outcome (list device) :=
  if bool_decide (num_eps_per_pe * n_pes <= 0) then Ret ds
  else
    cs ← for_pes (fun pe d => create_rcs n_pes (hw_qpn e pe) (hw_addr e pe) pe num_eps_per_pe portid d) 0 ds;
    let sent := snd <$> cs in
    for_pes (fun pe d => connect_rcs n_pes pe num_eps_per_pe (alltoall_recv num_eps_per_pe pe sent) d) 0 (fst <$> cs).

(** ** Tables for the device *)
Definition USCALAR_INVALID : Z := 2 ^ 32 - 1.

(** The part of [nvshmemi_ibgda_device_qp_t] that says which queue pair it is;
    [dq_cq] is an index of the table of CQs. *)
Record dev_qp := MkDevQp { dq_qpn : Z; dq_type : option qp_type; dq_dev_idx : Z; dq_cq : option Z }.
(** [nvshmemi_init_ibgda_device_qp] *)
Definition init_dev_qp : dev_qp := MkDevQp USCALAR_INVALID None USCALAR_INVALID None.
(** Of [nvshmemi_ibgda_device_cq_t]: whose completions it holds ([cqe]), and [qpn]. *)
Record dev_cq := MkDevCq { cq_of : option Z; cq_qpn : Z }.
Definition init_dev_cq : dev_cq := MkDevCq None USCALAR_INVALID.

Definition arr_set {A} (l : list A) (i : Z) (x : A) : outcome (list A) :=
  if bool_decide (0 <= i) && bool_decide (i < Z.of_nat (length l)) then Ret (<[Z.to_nat i := x]> l) else Fail FUndef.

(** [ibgda_get_device_qp]: an entry that is filled in already stays *)
Definition ibgda_get_device_qp (q : dev_qp) (ep_qpn : Z) (ty : qp_type) (selected_dev_idx : Z) : dev_qp :=
  if bool_decide (dq_qpn q <> USCALAR_INVALID) then q
  else MkDevQp ep_qpn (Some ty) selected_dev_idx (dq_cq q).
Definition set_cq (q : dev_qp) (i : Z) : dev_qp := MkDevQp (dq_qpn q) (dq_type q) (dq_dev_idx q) (Some i).

Section Tables.
Context (n_pes my_pe : Z) (devs : list device).
Context (dci_qpn : Z -> Z -> Z).  (* the number of DCI [i] of device [j] *)
Definition n_devs_selected : Z := Z.of_nat (length devs).

(** The loops that count entries in [ibgda_setup_dci_gpu_state],
    [ibgda_setup_rc_gpu_state], [ibgda_setup_cq_gpu_state] and
    [ibgda_setup_dct_gpu_state] *)
Definition num_dci_handles : Z := foldr (fun d n => dci_num_eps d + n) 0 devs.
Definition num_shared_dci_handles : Z := foldr (fun d n => dci_num_shared_eps d + n) 0 devs.
Definition num_rc_handles : Z := foldr (fun d n => rc_num_eps_per_pe d * n_pes + n) 0 devs.
Definition num_cq_handles : Z := foldr (fun d n => dci_num_eps d + rc_num_eps_per_pe d * n_pes + n) 0 devs.
Definition num_dct_handles : Z := foldr (fun d n => dct_num_eps d * n_pes + n) 0 devs.

(** One round of [ibgda_populate_dci_gpu_data]; [cq_idx] counts the rounds. *)
Definition populate_dci (i j : Z) (s : list dev_qp * list dev_cq * Z) : outcome (list dev_qp * list dev_cq * Z) :=
  let '(dci_h, cq_h, cq_idx) := s in
  let arr_idx := i * n_devs_selected + j in
  d ← arr_get devs j;
  if bool_decide (dci_num_eps d <= i) then Fail FUndef
  else
    q ← arr_get dci_h arr_idx;
    let q := set_cq (ibgda_get_device_qp q (dci_qpn j i) DCI j) cq_idx in
    dci_h ← arr_set dci_h arr_idx q;
    cq_h ← arr_set cq_h cq_idx (MkDevCq (Some (dci_qpn j i)) (dq_qpn q));
    Ret (dci_h, cq_h, cq_idx + 1).
Definition ibgda_populate_dci_gpu_data (dci_h : list dev_qp) (cq_h : list dev_cq) : outcome (list dev_qp * list dev_cq) :=
  '(dci_h, cq_h, cq_idx) ← for_grid (num_dci_handles / n_devs_selected) n_devs_selected populate_dci (dci_h, cq_h, 0);
  cassert (bool_decide (cq_idx = num_dci_handles));;
  Ret (dci_h, cq_h).

(** One round of [ibgda_populate_rc_gpu_data] *)
Definition populate_rc (i : Z) (d : device) (j : Z) (s : list dev_qp * list dev_cq) : outcome (list dev_qp * list dev_cq) :=
  if bool_decide (j mod n_pes = my_pe) then Ret s
  else
    let '(rc_h, cq_h) := s in
    let ep_index := rc_num_eps_per_pe d * i + j in
    e ← load_ep d ep_index;
    let qp_index := ep_user_index e in
    let my_cq_index := dci_num_eps d + qp_index in
    cassert (bool_decide (qp_index < num_rc_handles));;
    q ← arr_get rc_h qp_index;
    let q := set_cq (ibgda_get_device_qp q (ep_qpn e) RC i) my_cq_index in
    rc_h ← arr_set rc_h qp_index q;
    cq_h ← arr_set cq_h my_cq_index (MkDevCq (Some (ep_qpn e)) (dq_qpn q));
    Ret (rc_h, cq_h).
Definition ibgda_populate_rc_gpu_data (rc_h : list dev_qp) (cq_h : list dev_cq) : outcome (list dev_qp * list dev_cq) :=
  if bool_decide (num_rc_handles > 0) then
    for_list (fun i s => d ← arr_get devs i; for_list (populate_rc i d) (seqZ 0 (rc_num_eps_per_pe d * n_pes)) s)
      (seqZ 0 n_devs_selected) (rc_h, cq_h)
  else Ret (rc_h, cq_h).

(** The first [ibgda_setup_gpu_state]: fresh tables, filled. *)
Definition ibgda_setup_gpu_state : outcome (list dev_qp * list dev_qp * list dev_cq) :=
  let cq_h := replicate (Z.to_nat num_cq_handles) init_dev_cq in
  '(dci_h, cq_h) ← ibgda_populate_dci_gpu_data (replicate (Z.to_nat num_dci_handles) init_dev_qp) cq_h;
  '(rc_h, cq_h) ← ibgda_populate_rc_gpu_data (replicate (Z.to_nat num_rc_handles) init_dev_qp) cq_h;
  Ret (dci_h, rc_h, cq_h).

(** [ibgda_setup_qp_groups_gpu_state]: the number of counters *)
Definition ibgda_setup_qp_groups_gpu_state : Z :=
  if bool_decide (num_rc_handles > 0) then Z.max (num_rc_handles / n_devs_selected / n_pes) 2
  else num_dci_handles / n_devs_selected.

(** [ibgda_post_gpu_device_state] *)
Definition ibgda_post_gpu_device_state (o : options) (dc_map_type : map_type) (skip_cst : bool) (qp_groups node_n node_me rail : Z)
  : outcome device_state :=
  groups ← udiv (num_dci_handles - num_shared_dci_handles) (num_dct_handles / n_devs_selected);
  Ret {| num_shared_dcis := num_shared_dci_handles;
         num_exclusive_dcis := num_dci_handles - num_shared_dci_handles;
         dci_map_type := dc_map_type;
         ndcts_per_pe := num_dct_handles / n_devs_selected / n_pes;
         num_qp_groups := qp_groups;
         num_dct_groups := Z.max groups 1;
         num_rc_per_pe := num_rc_handles / n_devs_selected / n_pes;
         num_default_rc_per_pe := IBGDA_NUM_RC_PER_PE o;
         num_devices_initialized := n_devs_selected;
         may_skip_cst := skip_cst;
         npes := n_pes; mype := my_pe;
         node_npes := node_n; node_mype := node_me; enable_rail_opt := rail |}.
End Tables.

(** ** RCs on request *)

(** The part of [nvshmemt_ibgda_state_t] of one PE; devices and port numbers by
    position in the selection ([selected]: the position in [dev_ids] and
    [port_ids] of each selected device). *)
Record ibgda_state := MkIbgdaState {
  st_devices : list device;
  st_selected : list Z;
  st_port_ids : list Z;
  st_cur_qp_index : Z;
  st_last_device_index : Z
}.

(** [ibgda_connect_rc_only]: on which device and port each of [num_qps] new queue
    pairs is made, and the handle the caller gets; every one advances
    [cur_qp_index] by the number of PEs. *)
Fixpoint connect_rc_plan (n_pes : Z) (s : ibgda_state) (num_qps : nat) : outcome (list (Z * Z * Z)) :=
  match num_qps with
  | O => Ret []
  | S num_qps =>
      selected_dev_idx ← umod (st_last_device_index s) (Z.of_nat (length (st_devices s)));
      portid ← arr_get (st_port_ids s) selected_dev_idx;
      l ← connect_rc_plan n_pes
            (MkIbgdaState (st_devices s) (st_selected s) (st_port_ids s) (st_cur_qp_index s + n_pes) (st_last_device_index s + 1))
            num_qps;
      Ret ((st_cur_qp_index s, selected_dev_idx, portid) :: l)
  end.
(** The port [nvshmemt_ibgda_connect_endpoints] uses for the same device. *)
Definition connect_endpoints_port (s : ibgda_state) (selected_dev_idx : Z) : outcome Z :=
  k ← arr_get (st_selected s) selected_dev_idx; arr_get (st_port_ids s) k.

(** ** The doorbell of the host *)

(** The loop of [ibgda_rc_progress] over the RCs of a device: the queue pairs
    whose doorbell it rings, given their producer index and the cached one. *)
Definition ibgda_rc_progress (n_pes : Z) (prod_idx prod_idx_cache : Z -> Z) (d : device) : outcome (list Z) :=
  for_list (fun i l =>
      match rc_eps d !! i with
      | None => Fail FUndef
      | Some None => Ret l
      | Some (Some e) => Ret (if bool_decide (prod_idx_cache (ep_qpn e) < prod_idx (ep_qpn e)) then l ++ [ep_qpn e] else l)
      end) (seqZ 0 (rc_num_eps_per_pe d * n_pes)) [].

Definition IBGDA_DBRSIZE : Z := 8.
(** The offset of the doorbell record of DCI [i] in their buffer: as the GPU is
    told ([ibgda_get_device_qp]) and as the host computes it ([ibgda_dci_progress]) *)
Definition dbr_offset (i : Z) : Z := IBGDA_DBRSIZE * i.
Definition gpu_dbrec (i : Z) : Z := dbr_offset i + 4.
Definition host_dbrec (i : Z) : Z := dbr_offset i * 4.
End IbgdaHost.
