(* ===== verification/IbgdaHostSpec.v ===== *)
(** * Queue pairs on the host: connections and tables

    The creation loops of [IbgdaHost] connect the queue pairs of all PEs in
    pairs, and the tables of the device name for every PE a queue pair connected
    to it, with its own completion queue.  At the end the runs with several
    devices and the host's doorbell, which fail. *)
From stdpp Require Import base gmap list option strings.
From Stdlib Require Import ZArith Lia Ascii.
From S2P Require Import Prelude IbgdaQueue IbgdaQp IbgdaQpSpec IbgdaHost.

Module IbgdaHostSpec.
Import IbgdaQueue IbgdaQp IbgdaQpSpec IbgdaHost.

(** ** Loops *)
Lemma for_list_app {S} (f : Z -> S -> outcome S) l l' s :
  for_list f (l ++ l') s = (for_list f l s ≫= for_list f l').
Proof. revert s. induction l as [|i l IH]; intros s; [done|]. cbn. destruct (f i s); cbn; [apply IH|done]. Qed.

Lemma for_seq_inv {S} (I : Z -> S -> Prop) (f : Z -> S -> outcome S) n s : 0 <= n -> I 0 s ->
  (forall k s, 0 <= k < n -> I k s -> exists s', f k s = Ret s' /\ I (k + 1) s') ->
  exists s', for_list f (seqZ 0 n) s = Ret s' /\ I n s'.
Proof.
  intros Hn. pattern n. apply natlike_ind; [| |done].
  - intros H0 _. by exists s.
  - clear n Hn. intros n Hn IH H0 HS. unfold Z.succ in *.
    destruct IH as (s1 & H1 & HI); [done|intros; apply HS; [lia|done]|].
    destruct (HS n s1) as (s2 & H2 & HI2); [lia|done|]. exists s2. split; [|done].
    rewrite seqZ_app by lia. rewrite for_list_app, H1, outcome_bind_ret.
    rewrite seqZ_cons, Z.add_0_l by lia. cbn [for_list]. by rewrite H2.
Qed.

Lemma for_list_shift {S} (f : Z -> S -> outcome S) k b s :
  for_list f (seqZ k b) s = for_list (fun j => f (k + j)) (seqZ 0 b) s.
Proof.
  rewrite <- (Z.add_0_r k) at 1. rewrite <- fmap_add_seqZ. generalize (seqZ 0 b). intros l.
  revert s. induction l as [|j l IH]; intros s; [done|]. csimpl. by destruct (f (k + j) s); cbn; [apply IH|].
Qed.

Lemma for_list_ext {S} (f g : Z -> S -> outcome S) l s : (forall i s, i ∈ l -> f i s = g i s) -> for_list f l s = for_list g l s.
Proof.
  revert s. induction l as [|i l IH]; intros s H; [done|]. cbn. rewrite H by left.
  destruct (g i s); cbn; [|done]. apply IH. intros; apply H; by right.
Qed.

(** Two nested loops are one loop over quotient and remainder. *)
Lemma for_grid_flat {S} a b (f : Z -> Z -> S -> outcome S) s : 0 <= a -> 0 < b ->
  for_grid a b f s = for_list (fun x => f (x / b) (x mod b)) (seqZ 0 (a * b)) s.
Proof.
  intros Ha Hb. unfold for_grid. revert s. pattern a. apply natlike_ind; [done| |done]. clear a Ha. intros a Ha IH s.
  unfold Z.succ. rewrite seqZ_app by lia. rewrite for_list_app, IH.
  replace ((a + 1) * b) with (a * b + b) by ring. rewrite (seqZ_app 0 (a * b) b) by nia. rewrite for_list_app.
  destruct (for_list _ (seqZ 0 (a * b)) s) as [s'|]; [|done]. rewrite !outcome_bind_ret.
  rewrite (seqZ_cons (0 + a) 1), Z.add_0_l by lia. cbn [for_list].
  rewrite (for_list_shift _ (0 + a * b)).
  assert (for_list (f a) (seqZ 0 b) s' = for_list (fun j => f ((0 + a * b + j) / b) ((0 + a * b + j) mod b)) (seqZ 0 b) s') as <-.
  { apply for_list_ext. intros j t Hj%elem_of_seqZ. rewrite Z.add_0_l, (Z.add_comm (a * b)).
    rewrite Z_div_plus_full, Z_mod_plus_full, Z.div_small, Z.mod_small by lia. by rewrite Z.add_0_l. }
  by destruct (for_list (f a) (seqZ 0 b) s').
Qed.

Lemma for_grid_inv {S} (I : Z -> S -> Prop) a b (f : Z -> Z -> S -> outcome S) s : 0 <= a -> 0 < b -> I 0 s ->
  (forall x s, 0 <= x < a * b -> 0 <= x / b < a -> 0 <= x mod b < b -> x = x / b * b + x mod b ->
     I x s -> exists s', f (x / b) (x mod b) s = Ret s' /\ I (x + 1) s') ->
  exists s', for_grid a b f s = Ret s' /\ I (a * b) s'.
Proof.
  intros Ha Hb H0 HS. rewrite for_grid_flat by done. apply for_seq_inv; [nia|done|]. intros k t Hk HI.
  apply HS; [done| | | |done].
  - split; [apply Z.div_pos; lia|apply Z.div_lt_upper_bound; lia].
  - apply Z.mod_pos_bound. lia.
  - pose proof (Z.div_mod k b ltac:(lia)). lia.
Qed.

Lemma for_pes_ok {A B} (Q : Z -> A -> B -> Prop) (f : Z -> A -> outcome B) pe l :
  (forall k a, l !! k = Some a -> exists b, f (pe + Z.of_nat k) a = Ret b /\ Q (pe + Z.of_nat k) a b) ->
  exists l', for_pes f pe l = Ret l' /\ length l' = length l /\
    forall k a b, l !! k = Some a -> l' !! k = Some b -> Q (pe + Z.of_nat k) a b.
Proof.
  revert pe. induction l as [|a l IH]; intros pe H; [by exists []|].
  destruct (H 0%nat a eq_refl) as (b & Hb & HQ). rewrite Z.add_0_r in *.
  destruct (IH (pe + 1)) as (l' & Hl & Hlen & HI).
  { intros k a' Hk. destruct (H (S k) a' Hk) as (b' & Hb' & HQ'). rewrite Nat2Z.inj_succ in *.
    exists b'. by replace (pe + 1 + Z.of_nat k) with (pe + Z.succ (Z.of_nat k)) by lia. }
  exists (b :: l'). cbn. rewrite Hb. cbn. rewrite Hl. split; [done|]. split; [cbn; lia|].
  intros [|k] x y Hx Hy; cbn in *; simplify_eq; [by rewrite Z.add_0_r|].
  replace (pe + Z.of_nat (S k)) with (pe + 1 + Z.of_nat k) by lia. by apply HI.
Qed.

(** A list of blocks of one size, indexed by block and place. *)
Lemma bind_blocks {A B} (g : A -> list B) (l : list A) m j i a : (forall a, a ∈ l -> length (g a) = m) ->
  l !! j = Some a -> (i < m)%nat -> (l ≫= g) !! (m * j + i)%nat = g a !! i.
Proof.
  revert j. induction l as [|a0 l IH]; intros j Hm Hj Hi; [done|]. csimpl.
  pose proof (Hm a0 ltac:(left)) as H0. destruct j as [|j]; cbn in Hj.
  - simplify_eq. rewrite Nat.mul_0_r, Nat.add_0_l, lookup_app_l by lia. done.
  - rewrite lookup_app_r, H0 by nia. replace (m * S j + i - m)%nat with (m * j + i)%nat by nia.
    apply IH; [intros; apply Hm; by right|done|done].
Qed.

(** ** Creation *)
Definition with_eps (d : device) (m : gmap Z (option ep)) : device := set_rc d (rc_num_eps_per_pe d) (rc_cap d) m.

Lemma with_eps_id d : with_eps d (rc_eps d) = d.
Proof. by destruct d. Qed.

Lemma store_ep_ok d m i e : 0 <= i < rc_cap d -> store_ep (with_eps d m) i e = Ret (with_eps d (<[i := Some e]> m)).
Proof. intros Hi. unfold store_ep, with_eps. cbn. by rewrite !bool_decide_true by lia. Qed.

Section Create.
Context (n me num port : Z) (qpn addr : Z -> Z) (d : device).
Context (Hme : 0 <= me < n) (Hnum : 0 < num) (H0 : 0 <= rc_num_eps_per_pe d).
Context (Hcap : (rc_num_eps_per_pe d + num) * n <= rc_cap d).
Local Abbreviation first := (rc_num_eps_per_pe d * n).

Definition created (x : Z) (peer : option rc_handle) : ep := MkEp (qpn x) x port peer.
Definition exported (x : Z) : rc_handle := MkRcHandle (qpn x) (addr port).

(** After [k] rounds of the loop *)
Definition create_inv (k : Z) (s : device * list rc_handle) : Prop :=
  exists m, s.1 = with_eps d m /\ Z.of_nat (length s.2) = num * n /\
    (forall x, x < first -> m !! x = rc_eps d !! x) /\
    (forall x dst, 0 <= x < k -> dst = (x / n * n + 1 + me + x mod n) mod n -> dst <> me ->
       m !! (first + x / n * n + dst) = Some (Some (created (first + x / n * n + dst) None)) /\
       s.2 !! Z.to_nat (x / n + num * dst) = Some (exported (first + x / n * n + dst))).

Lemma create_step x s : 0 <= x < num * n -> 0 <= x / n < num -> create_inv x s ->
  exists s', create_rc n qpn addr me num port first (x / n) (x mod n) s = Ret s' /\ create_inv (x + 1) s'.
Proof.
  intros Hx Hi (m & Hd & Hl & Hold & HI). unfold create_rc. set (dst := (x / n * n + 1 + me + x mod n) mod n).
  assert (0 <= dst < n) as Hdst by (apply Z.mod_pos_bound; lia).
  case_bool_decide as HE.
  - exists s. split; [done|]. exists m. split_and!; try done. intros y e Hy -> Hne.
    destruct (decide (y = x)) as [->|]; [done|]. apply HI; [lia|done|done].
  - destruct s as [d' l]. cbn in Hd, Hl, HI |- *. subst d'. set (y := first + x / n * n + dst).
    assert (0 <= x / n + num * dst < num * n) as HR by nia.
    rewrite store_ep_ok by nia. cbn. unfold store_handle. rewrite !bool_decide_true by nia. cbn.
    eexists. split; [done|]. exists (<[y := Some (created y None)]> m). cbn. split_and!; [done|by rewrite length_insert| |].
    + intros z Hz. rewrite lookup_insert_ne by (unfold y; nia). by apply Hold.
    + intros z e Hz He Hne.
      assert (z = x \/ z <> x /\ 0 <= z < x) as [->|[Hzx Hz']] by lia.
      { replace e with dst by done. fold y. rewrite lookup_insert_eq. split; [done|]. apply list_lookup_insert_eq. lia. }
      destruct (HI z e Hz' He Hne) as [HA HB]. split.
      * destruct (decide (first + z / n * n + e = y)) as [->|Hy]; [by rewrite lookup_insert_eq|by rewrite lookup_insert_ne].
      * assert (0 <= z / n < num) by (split; [apply Z.div_pos; lia|apply Z.div_lt_upper_bound; lia]).
        assert (0 <= e < n) by (subst e; apply Z.mod_pos_bound; lia).
        destruct (decide (x / n + num * dst = z / n + num * e)) as [HQ|HQ].
        -- assert (x / n = z / n) as HQ2.
           { apply (mod_eq_close num); [lia|lia|]. rewrite <- (Z_mod_plus_full (x / n) dst num), <- (Z_mod_plus_full (z / n) e num).
             f_equal. lia. }
           assert (dst = e) as HQ1 by (apply (Z.mul_reg_l _ _ num); lia).
           rewrite <- HQ1, <- HQ2. fold y. by rewrite list_lookup_insert_eq by lia.
        -- rewrite list_lookup_insert_ne; [done|]. intros ?%Z2Nat.inj; nia.
Qed.

Lemma create_rcs_ok : exists m l, create_rcs n qpn addr me num port d = Ret (with_eps d m, l) /\
  Z.of_nat (length l) = num * n /\ (forall x, x < first -> m !! x = rc_eps d !! x) /\
  forall i dst, 0 <= i < num -> 0 <= dst < n -> dst <> me ->
    m !! (first + i * n + dst) = Some (Some (created (first + i * n + dst) None)) /\
    l !! Z.to_nat (i + num * dst) = Some (exported (first + i * n + dst)).
Proof.
  unfold create_rcs.
  destruct (for_grid_inv create_inv num n (create_rc n qpn addr me num port first)
    (d, replicate (Z.to_nat (num * n)) null_handle)) as (s & HG & (m & Hd & Hl & Hold & HI)); [lia|lia| | |].
  - exists (rc_eps d). cbn. rewrite with_eps_id, length_replicate. assert (0 <= num * n) by nia. split_and!; [done|lia|done|]. intros; lia.
  - intros x s Hx Hi _ _. by apply create_step.
  - destruct s as [d' l]. cbn in *. subst d'. exists m, l. split; [done|]. split; [done|]. split; [done|].
    intros i dst Hi Hdst Hne. pose proof (Z.mod_pos_bound (dst - 1 - me) n ltac:(lia)) as HM.
    assert ((i * n + (dst - 1 - me) mod n) / n = i) as HQ by (rewrite Z.add_comm, Z_div_plus_full, Z.div_small by lia; lia).
    destruct (HI (i * n + (dst - 1 - me) mod n) dst) as [HA HB]; [nia| |done|].
    + rewrite HQ. rewrite (Z.add_comm (i * n) (_ mod n)), Z_mod_plus_full, Zmod_mod, Zplus_mod_idemp_r.
      replace (i * n + 1 + me + (dst - 1 - me)) with (dst + i * n) by lia. rewrite Z_mod_plus_full.
      symmetry. apply Z.mod_small. lia.
    + by rewrite HQ in HA, HB.
Qed.
End Create.

(** ** Connection *)
Section Connect.
Context (n me num port : Z) (qpn : Z -> Z) (d : device) (m : gmap Z (option ep)) (recv : list rc_handle).
Context (Hme : 0 <= me < n) (Hnum : 0 < num) (H0 : 0 <= rc_num_eps_per_pe d).
Context (Hcap : (rc_num_eps_per_pe d + num) * n <= rc_cap d).
Context (Hrecv : Z.of_nat (length recv) = num * n).
Local Abbreviation first := (rc_num_eps_per_pe d * n).
Context (Hm : forall x, 0 <= x < num * n -> x mod n <> me -> m !! (first + x) = Some (Some (created port qpn (first + x) None))).

Definition peer_of (x : Z) : option rc_handle := recv !! Z.to_nat (num * (x mod n) + x / n).

Definition connect_inv (k : Z) (d' : device) : Prop :=
  exists m', d' = with_eps d m' /\ (forall x, x < first -> m' !! x = m !! x) /\
    forall x, 0 <= x < num * n -> x mod n <> me ->
      m' !! (first + x) = Some (Some (created port qpn (first + x) (if bool_decide (x < k) then peer_of x else None))).

Lemma connect_step x d' : 0 <= x < num * n -> 0 <= x / n < num -> 0 <= x mod n < n -> x = x / n * n + x mod n ->
  connect_inv x d' -> exists d'', connect_rc n me num first recv (x / n) (x mod n) d' = Ret d'' /\ connect_inv (x + 1) d''.
Proof.
  intros Hx Hi Hj HE (m' & -> & Hold & HI). unfold connect_rc. case_bool_decide as HS.
  { eexists. split; [done|]. exists m'. split_and!; [done|done|]. intros y Hy Hne. rewrite HI by done.
    destruct (decide (y = x)) as [->|]; [done|]. repeat case_bool_decide; (done || lia). }
  replace (first + x / n * n + x mod n) with (first + x) by lia.
  unfold load_ep. cbn [rc_eps with_eps set_rc]. rewrite (HI x Hx HS), bool_decide_false by lia. rewrite outcome_bind_ret.
  assert (0 <= num * (x mod n) + x / n < num * n) as HR by nia.
  destruct (lookup_lt_is_Some_2 recv (Z.to_nat (num * (x mod n) + x / n))) as [h Hh]; [lia|].
  unfold arr_get. rewrite bool_decide_false, Hh, outcome_bind_ret by lia. rewrite store_ep_ok by nia.
  eexists. split; [done|]. eexists. split; [done|]. split.
  - intros y Hy. rewrite lookup_insert_ne by lia. by apply Hold.
  - intros y Hy Hne. destruct (decide (y = x)) as [->|].
    + rewrite lookup_insert_eq, bool_decide_true by lia. unfold peer_of. by rewrite Hh.
    + rewrite lookup_insert_ne by lia. rewrite HI by done. repeat case_bool_decide; (done || lia).
Qed.

Lemma connect_rcs_ok : exists m', connect_rcs n me num recv (with_eps d m) =
    Ret (set_rc d (rc_num_eps_per_pe d + num) (rc_cap d) m') /\
  (forall x, x < first -> m' !! x = m !! x) /\
  forall x, 0 <= x < num * n -> x mod n <> me ->
    m' !! (first + x) = Some (Some (created port qpn (first + x) (peer_of x))).
Proof.
  unfold connect_rcs. change (rc_num_eps_per_pe (with_eps d m)) with (rc_num_eps_per_pe d).
  destruct (for_grid_inv connect_inv num n (connect_rc n me num first recv) (with_eps d m)) as (d' & HG & (m' & Hd & Hold & HI)); [lia|lia| | |].
  - exists m. split_and!; [done|done|]. intros x Hx Hne. rewrite bool_decide_false by lia. by apply Hm.
  - intros. by apply connect_step.
  - rewrite HG. exists m'. rewrite outcome_bind_ret, Hd. split; [done|]. split; [done|].
    intros x Hx Hne. by rewrite HI, bool_decide_true by (done || lia).
Qed.
End Connect.

(** ** All PEs together *)

(** The RC at index [x] of PE [a]'s device is connected to PE [b]'s at [y]. *)
Definition connects (e : hw) (port : Z) (ds : list device) (a x b y : Z) : Prop :=
  exists da ea, ds !! Z.to_nat a = Some da /\ rc_eps da !! x = Some (Some ea) /\
    ep_qpn ea = hw_qpn e a x /\ ep_user_index ea = x /\
    ep_peer ea = Some (MkRcHandle (hw_qpn e b y) (hw_addr e b port)).

(** Devices before the collective step: the same number of RCs everywhere and
    room for the new ones. *)
Definition rc_ready (n num f : Z) (ds : list device) : Prop :=
  Z.of_nat (length ds) = n /\ Forall (fun d => rc_num_eps_per_pe d = f /\ (f + num) * n <= rc_cap d) ds.

Section Setup.
Context (e : hw) (n num port f : Z) (ds : list device).
Context (Hn : 2 <= n) (Hnum : 0 < num) (Hf : 0 <= f) (Hds : rc_ready n num f ds).

Lemma create_all : exists cs, for_pes (fun pe d => create_rcs n (hw_qpn e pe) (hw_addr e pe) pe num port d) 0 ds = Ret cs /\
  length cs = length ds /\
  forall pe d c, ds !! pe = Some d -> cs !! pe = Some c ->
    exists m, c.1 = with_eps d m /\ Z.of_nat (length c.2) = num * n /\ (forall x, x < f * n -> m !! x = rc_eps d !! x) /\
      forall i dst, 0 <= i < num -> 0 <= dst < n -> dst <> Z.of_nat pe ->
        m !! (f * n + i * n + dst) = Some (Some (created port (hw_qpn e (Z.of_nat pe)) (f * n + i * n + dst) None)) /\
        c.2 !! Z.to_nat (i + num * dst) = Some (exported port (hw_qpn e (Z.of_nat pe)) (hw_addr e (Z.of_nat pe)) (f * n + i * n + dst)).
Proof.
  destruct Hds as [Hlen HF].
  destruct (for_pes_ok (fun pe d c => exists m, c.1 = with_eps d m /\ Z.of_nat (length c.2) = num * n /\
      (forall x, x < f * n -> m !! x = rc_eps d !! x) /\
      forall i dst, 0 <= i < num -> 0 <= dst < n -> dst <> pe ->
        m !! (f * n + i * n + dst) = Some (Some (created port (hw_qpn e pe) (f * n + i * n + dst) None)) /\
        c.2 !! Z.to_nat (i + num * dst) = Some (exported port (hw_qpn e pe) (hw_addr e pe) (f * n + i * n + dst)))
    (fun pe d => create_rcs n (hw_qpn e pe) (hw_addr e pe) pe num port d) 0 ds) as (cs & HC & Hl & HQ).
  - intros k d Hk. pose proof (lookup_lt_Some _ _ _ Hk). rewrite Forall_lookup in HF. destruct (HF k d Hk) as [<- Hc].
    destruct (create_rcs_ok n (0 + Z.of_nat k) num port (hw_qpn e (0 + Z.of_nat k)) (hw_addr e (0 + Z.of_nat k)) d)
      as (m & l & HE & HR); [lia|done|done|done|].
    exists (with_eps d m, l). split; [done|]. exists m. split; [done|]. exact HR.
  - exists cs. split; [done|]. split; [done|]. intros pe d c Hd Hc. exact (HQ pe d c Hd Hc).
Qed.

Lemma alltoall_lookup (sent : list (list rc_handle)) pe j l i : 0 <= pe < n -> 0 <= i < num ->
  (forall l, l ∈ sent -> Z.of_nat (length l) = num * n) -> sent !! Z.to_nat j = Some l -> 0 <= j ->
  alltoall_recv num pe sent !! Z.to_nat (num * j + i) = l !! Z.to_nat (i + num * pe).
Proof.
  intros Hpe Hi HL Hl Hj. unfold alltoall_recv.
  replace (Z.to_nat (num * j + i)) with (Z.to_nat num * Z.to_nat j + Z.to_nat i)%nat by nia.
  rewrite (bind_blocks _ _ (Z.to_nat num) _ _ l); [| |done|lia].
  - rewrite lookup_take_lt, lookup_drop by lia. f_equal. nia.
  - intros l' Hl'%HL. rewrite length_take, length_drop. nia.
Qed.

Lemma alltoall_length (sent : list (list rc_handle)) pe : 0 <= pe < n -> Z.of_nat (length sent) = n ->
  (forall l, l ∈ sent -> Z.of_nat (length l) = num * n) -> Z.of_nat (length (alltoall_recv num pe sent)) = num * n.
Proof.
  intros Hpe Hlen HL. rewrite <- Hlen. unfold alltoall_recv. clear Hlen. induction sent as [|l sent IH]; [cbn; lia|].
  csimpl. rewrite length_app, Nat2Z.inj_add, IH by (intros; apply HL; by right).
  specialize (HL l ltac:(left)). rewrite length_take, length_drop. nia.
Qed.

(** What PE [pe] has after the step, given the handles all PEs sent. *)
Definition rc_done (sent : list (list rc_handle)) (pe : Z) (d d' : device) : Prop :=
  dci_num_eps d' = dci_num_eps d /\ rc_num_eps_per_pe d' = f + num /\ (forall x, x < f * n -> rc_eps d' !! x = rc_eps d !! x) /\
  forall x, 0 <= x < num * n -> x mod n <> pe ->
    rc_eps d' !! (f * n + x) = Some (Some (created port (hw_qpn e pe) (f * n + x) (peer_of n num (alltoall_recv num pe sent) x))).

Lemma connect_all cs : let sent := snd <$> cs in length cs = length ds ->
  (forall l, l ∈ sent -> Z.of_nat (length l) = num * n) ->
  (forall pe d c, ds !! pe = Some d -> cs !! pe = Some c -> exists m, c.1 = with_eps d m /\
     (forall x, x < f * n -> m !! x = rc_eps d !! x) /\
     forall x, 0 <= x < num * n -> x mod n <> Z.of_nat pe ->
       m !! (f * n + x) = Some (Some (created port (hw_qpn e (Z.of_nat pe)) (f * n + x) None))) ->
  exists ds', for_pes (fun pe d => connect_rcs n pe num (alltoall_recv num pe sent) d) 0 (fst <$> cs) = Ret ds' /\
    length ds' = length ds /\ forall k d', ds' !! k = Some d' -> exists d, ds !! k = Some d /\ rc_done sent (Z.of_nat k) d d'.
Proof.
  intros sent Hl HSL HQ. destruct Hds as [Hlen HF]. rewrite Forall_lookup in HF.
  destruct (for_pes_ok (fun pe c d' => forall d, ds !! Z.to_nat pe = Some d -> rc_done sent pe d d')
    (fun pe d => connect_rcs n pe num (alltoall_recv num pe sent) d) 0 (fst <$> cs)) as (ds' & HE & Hl' & HD).
  { intros k c1 Hk. rewrite list_lookup_fmap in Hk. destruct (cs !! k) as [c|] eqn:Hc; [|done]. injection Hk as <-.
    pose proof (lookup_lt_Some _ _ _ Hc) as Hlt. destruct (lookup_lt_is_Some_2 ds k) as [d Hd]; [lia|].
    destruct (HQ k d c Hd Hc) as (m & -> & Hold & HI). destruct (HF k d Hd) as [Hfd Hcap]. rewrite Z.add_0_l.
    destruct (connect_rcs_ok n (Z.of_nat k) num port (hw_qpn e (Z.of_nat k)) d m (alltoall_recv num (Z.of_nat k) sent))
      as (m' & HE & Ho & Hn'); [lia|done|lia|by rewrite Hfd| |by rewrite Hfd|].
    - apply alltoall_length; [lia|unfold sent; rewrite length_fmap; lia|done].
    - eexists. split; [exact HE|]. rewrite Nat2Z.id, Hd. intros d0 [= <-]. rewrite Hfd in *. split_and!; [done|done| |done].
      cbn. intros x Hx. rewrite Ho by done. by apply Hold. }
  rewrite length_fmap in Hl'. exists ds'. split; [exact HE|]. split; [lia|].
  intros k d' Hk. pose proof (lookup_lt_Some _ _ _ Hk). destruct (lookup_lt_is_Some_2 cs k) as [c Hc]; [lia|].
  destruct (lookup_lt_is_Some_2 ds k) as [d Hd]; [lia|]. exists d. split; [done|].
  specialize (HD k c.1 d'). rewrite list_lookup_fmap, Hc, Z.add_0_l, Nat2Z.id in HD. by apply HD.
Qed.

(** Both halves: the devices afterwards and the handles that were exchanged. *)
Lemma setup_all : exists ds' sent, ibgda_setup_rc_endpoints e n num port ds = Ret ds' /\ length ds' = length ds /\
  (forall l, l ∈ sent -> Z.of_nat (length l) = num * n) /\
  (forall b, 0 <= b < n -> exists l, sent !! Z.to_nat b = Some l /\ forall i dst, 0 <= i < num -> 0 <= dst < n -> dst <> b ->
     l !! Z.to_nat (i + num * dst) = Some (exported port (hw_qpn e b) (hw_addr e b) (f * n + i * n + dst))) /\
  forall k d', ds' !! k = Some d' -> exists d, ds !! k = Some d /\ rc_done sent (Z.of_nat k) d d'.
Proof.
  unfold ibgda_setup_rc_endpoints. rewrite bool_decide_false by nia.
  destruct create_all as (cs & HC & Hl & HQ). rewrite HC, outcome_bind_ret. destruct Hds as [Hlen _].
  assert (forall l, l ∈ (snd <$> cs) -> Z.of_nat (length l) = num * n) as HSL.
  { intros l (c & -> & [k Hk]%list_elem_of_lookup)%list_elem_of_fmap.
    destruct (lookup_lt_is_Some_2 ds k) as [d Hd]; [rewrite <- Hl; by eapply lookup_lt_Some|].
    by destruct (HQ k d c Hd Hk) as (m & _ & HLc & _). }
  destruct (connect_all cs Hl HSL) as (ds' & HE & Hl' & HD).
  { intros pe d c Hd Hc. destruct (HQ pe d c Hd Hc) as (m & Hm & _ & Hold & HI). exists m. split_and!; [done|done|].
    intros x Hx Hne. pose proof (Z.div_mod x n ltac:(lia)). pose proof (Z.mod_pos_bound x n ltac:(lia)).
    destruct (HI (x / n) (x mod n)) as [HX _]; [|done|done|].
    - split; [apply Z.div_pos; lia|apply Z.div_lt_upper_bound; lia].
    - by replace (f * n + x / n * n + x mod n) with (f * n + x) in HX by lia. }
  exists ds', (snd <$> cs). split_and!; [done|done|done| |done]. intros b Hb.
  destruct (lookup_lt_is_Some_2 cs (Z.to_nat b)) as [c Hc]; [lia|]. destruct (lookup_lt_is_Some_2 ds (Z.to_nat b)) as [db Hdb]; [lia|].
  exists c.2. rewrite list_lookup_fmap, Hc. split; [done|]. destruct (HQ _ _ _ Hdb Hc) as (m & _ & _ & _ & HX).
  rewrite Z2Nat.id in HX by lia. intros i dst Hi Hd Hne. by destruct (HX i dst Hi Hd Hne).
Qed.

(** [ibgda_setup_rc_endpoints] connects queue pairs in pairs: when all PEs
    run it, for every two different PEs [a] and [b] and every [i] below the number
    asked for, the new queue pair of [a] for [b] is connected to the new queue
    pair of [b] for [a] (its number and the address of its port), and the
    other way round; the queue pairs that exist stay as they are. *)
Lemma rc_setup_pairs : exists ds', ibgda_setup_rc_endpoints e n num port ds = Ret ds' /\
  Z.of_nat (length ds') = n /\
  (forall k d', ds' !! k = Some d' -> exists d, ds !! k = Some d /\ dci_num_eps d' = dci_num_eps d /\ rc_num_eps_per_pe d' = f + num) /\
  (forall a b i, 0 <= a < n -> 0 <= b < n -> a <> b -> 0 <= i < num ->
     connects e port ds' a (f * n + i * n + b) b (f * n + i * n + a)) /\
  (forall a d d' x, ds !! a = Some d -> ds' !! a = Some d' -> x < f * n -> rc_eps d' !! x = rc_eps d !! x).
Proof.
  destruct setup_all as (ds' & sent & HE & Hl & HSL & HS & HD). destruct Hds as [Hlen _].
  exists ds'. split; [done|]. split; [lia|].
  split; [intros k d' Hk; destruct (HD k d' Hk) as (d & ? & ? & ? & _); by exists d|]. split.
  - intros a b i Ha Hb Hne Hi. destruct (lookup_lt_is_Some_2 ds' (Z.to_nat a)) as [da Hda]; [lia|].
    destruct (HD _ _ Hda) as (d & Hd & _ & _ & _ & HI). rewrite Z2Nat.id in HI by lia.
    assert ((i * n + b) mod n = b /\ (i * n + b) / n = i) as [HM HV].
    { rewrite Z.add_comm, Z_mod_plus_full, Z_div_plus_full, Z.mod_small, Z.div_small by lia. lia. }
    specialize (HI (i * n + b) ltac:(nia) ltac:(lia)). rewrite Z.add_assoc in HI.
    exists da. eexists. split; [done|]. split; [exact HI|]. split; [done|]. split; [done|]. cbn. unfold peer_of. rewrite HM, HV.
    destruct (HS b Hb) as (l & Hl2 & HX). rewrite (alltoall_lookup _ _ _ l) by (done || lia). by rewrite HX by done.
  - intros a d d' x Hd Hd' Hx. destruct (HD _ _ Hd') as (d0 & Hd0 & _ & _ & HO & _). rewrite Hd in Hd0. injection Hd0 as <-. by apply HO.
Qed.
End Setup.

(** ** The tables of one device *)
Lemma arr_get_ok {A} (l : list A) i x : 0 <= i -> l !! Z.to_nat i = Some x -> arr_get l i = Ret x.
Proof. intros Hi Hx. unfold arr_get. by rewrite bool_decide_false, Hx by lia. Qed.
Lemma arr_set_ok {A} (l : list A) i x : 0 <= i < Z.of_nat (length l) -> arr_set l i x = Ret (<[Z.to_nat i := x]> l).
Proof. intros Hi. unfold arr_set. by rewrite !bool_decide_true by lia. Qed.

Lemma insert_lookup_Z {A} (l : list A) i j x : 0 <= i < Z.of_nat (length l) -> 0 <= j ->
  <[Z.to_nat i := x]> l !! Z.to_nat j = if bool_decide (j = i) then Some x else l !! Z.to_nat j.
Proof.
  intros Hi Hj. case_bool_decide as HE; [subst; apply list_lookup_insert_eq; lia|].
  apply list_lookup_insert_ne. lia.
Qed.

Section Tables.
Context (n me : Z) (d : device) (dci_qpn : Z -> Z -> Z) (rc_qpn : Z -> Z).
Context (Hme : 0 <= me < n) (Hdci : 0 < dci_num_eps d) (Hrc : 0 <= rc_num_eps_per_pe d).
Context (Heps : forall x, 0 <= x < rc_num_eps_per_pe d * n -> x mod n <> me ->
  exists e, rc_eps d !! x = Some (Some e) /\ ep_user_index e = x /\ ep_qpn e = rc_qpn x).

Definition dci_entry (i : Z) : dev_qp := MkDevQp (dci_qpn 0 i) (Some DCI) 0 (Some i).
Definition rc_entry (x : Z) : dev_qp := MkDevQp (rc_qpn x) (Some RC) 0 (Some (dci_num_eps d + x)).
Definition cq_entry (q : Z) : dev_cq := MkDevCq (Some q) q.

Lemma counts_one : n_devs_selected [d] = 1 /\ num_dci_handles [d] = dci_num_eps d /\
  num_rc_handles n [d] = rc_num_eps_per_pe d * n /\ num_cq_handles n [d] = dci_num_eps d + rc_num_eps_per_pe d * n.
Proof. unfold n_devs_selected, num_dci_handles, num_rc_handles, num_cq_handles. cbn. lia. Qed.

Lemma fill_qp ty c q : set_cq (ibgda_get_device_qp init_dev_qp q ty 0) c = MkDevQp q (Some ty) 0 (Some c).
Proof. reflexivity. Qed.

Definition dci_inv (ncq k : Z) (s : list dev_qp * list dev_cq * Z) : Prop :=
  let '(dci_h, cq_h, cq_idx) := s in
  cq_idx = k /\ Z.of_nat (length dci_h) = dci_num_eps d /\ Z.of_nat (length cq_h) = ncq /\
  (forall i, 0 <= i < dci_num_eps d -> dci_h !! Z.to_nat i = Some (if bool_decide (i < k) then dci_entry i else init_dev_qp)) /\
  (forall i, 0 <= i < k -> cq_h !! Z.to_nat i = Some (cq_entry (dci_qpn 0 i))).

Lemma populate_dci_ok ncq : dci_num_eps d <= ncq -> exists dci_h cq_h,
  ibgda_populate_dci_gpu_data [d] dci_qpn (replicate (Z.to_nat (dci_num_eps d)) init_dev_qp) (replicate (Z.to_nat ncq) init_dev_cq) =
    Ret (dci_h, cq_h) /\ Z.of_nat (length cq_h) = ncq /\
  (forall i, 0 <= i < dci_num_eps d -> dci_h !! Z.to_nat i = Some (dci_entry i) /\ cq_h !! Z.to_nat i = Some (cq_entry (dci_qpn 0 i))).
Proof.
  intros Hc. destruct counts_one as (H1 & H2 & _ & _). unfold ibgda_populate_dci_gpu_data. rewrite H1, H2, Z.div_1_r.
  destruct (for_grid_inv (dci_inv ncq) (dci_num_eps d) 1 (populate_dci [d] dci_qpn)
    (replicate (Z.to_nat (dci_num_eps d)) init_dev_qp, replicate (Z.to_nat ncq) init_dev_cq, 0))
    as ([[dci_h cq_h] k] & HG & (-> & Hl & Hlc & HD & HQ)); [lia|lia| | |].
  - cbn. rewrite !length_replicate. split_and!; [done|lia|lia| |lia]. intros i Hi. rewrite bool_decide_false by lia.
    apply lookup_replicate_2. lia.
  - intros x [[dh ch] k] Hx _ _ _ (-> & Hl & Hlc & HD & HQ). rewrite Z.div_1_r, Z.mod_1_r. rewrite Z.mul_1_r in Hx.
    unfold populate_dci. rewrite (arr_get_ok _ 0 d) by done. rewrite outcome_bind_ret, bool_decide_false by lia.
    rewrite H1, Z.mul_1_r, Z.add_0_r. rewrite (arr_get_ok dh x init_dev_qp).
    2: lia. 2: { rewrite HD, bool_decide_false by lia. done. }
    rewrite outcome_bind_ret, fill_qp. rewrite arr_set_ok by lia. cbn -[Z.add]. rewrite arr_set_ok by lia. cbn -[Z.add]. eexists. split; [done|].
    split_and!; [done|by rewrite length_insert|by rewrite length_insert| |].
    + intros i Hi. rewrite insert_lookup_Z, HD by lia. repeat case_bool_decide; subst; (done || lia).
    + intros i Hi. rewrite insert_lookup_Z by lia. case_bool_decide; [by subst|]. apply HQ. lia.
  - rewrite Z.mul_1_r in *. rewrite HG, outcome_bind_ret, bool_decide_true by done.
    exists dci_h, cq_h. split; [done|]. split; [done|]. intros i Hi. rewrite HD, HQ, bool_decide_true by lia. done.
Qed.

Definition rc_inv (cq0 : list dev_cq) (k : Z) (s : list dev_qp * list dev_cq) : Prop :=
  let '(rc_h, cq_h) := s in
  Z.of_nat (length rc_h) = rc_num_eps_per_pe d * n /\ length cq_h = length cq0 /\
  (forall i, 0 <= i < dci_num_eps d -> cq_h !! Z.to_nat i = cq0 !! Z.to_nat i) /\
  (forall x, 0 <= x < rc_num_eps_per_pe d * n ->
     rc_h !! Z.to_nat x = Some (if bool_decide (x < k /\ x mod n <> me) then rc_entry x else init_dev_qp)) /\
  (forall x, 0 <= x < k -> x mod n <> me -> cq_h !! Z.to_nat (dci_num_eps d + x) = Some (cq_entry (rc_qpn x))).

Lemma populate_rc_ok cq0 : Z.of_nat (length cq0) = dci_num_eps d + rc_num_eps_per_pe d * n -> exists rc_h cq_h,
  ibgda_populate_rc_gpu_data n me [d] (replicate (Z.to_nat (rc_num_eps_per_pe d * n)) init_dev_qp) cq0 = Ret (rc_h, cq_h) /\
  (forall i, 0 <= i < dci_num_eps d -> cq_h !! Z.to_nat i = cq0 !! Z.to_nat i) /\
  (forall x, 0 <= x < rc_num_eps_per_pe d * n -> x mod n <> me ->
     rc_h !! Z.to_nat x = Some (rc_entry x) /\ cq_h !! Z.to_nat (dci_num_eps d + x) = Some (cq_entry (rc_qpn x))) /\
  (forall x, 0 <= x < rc_num_eps_per_pe d * n -> x mod n = me -> rc_h !! Z.to_nat x = Some init_dev_qp).
Proof.
  intros Hc. destruct counts_one as (H1 & _ & H3 & _). unfold ibgda_populate_rc_gpu_data. rewrite H1, H3.
  set (N := rc_num_eps_per_pe d * n) in *.
  case_bool_decide as HN.
  2: { exists (replicate (Z.to_nat N) init_dev_qp), cq0. split_and!; [done|done| |]; intros; lia. }
  change (seqZ 0 1) with [0]. cbn [for_list]. rewrite (arr_get_ok _ 0 d) by done. rewrite outcome_bind_ret. fold N.
  destruct (for_seq_inv (rc_inv cq0) (populate_rc n me [d] 0 d) N (replicate (Z.to_nat N) init_dev_qp, cq0))
    as ([rc_h cq_h] & HG & (Hl & Hlc & HD & HR & HQ)); [lia| | |].
  - cbn. rewrite !length_replicate. fold N. split_and!; [lia|done|done| |lia]. intros x Hx. rewrite bool_decide_false by lia.
    apply lookup_replicate_2. lia.
  - intros x [rh ch] Hx (Hl & Hlc & HD & HR & HQ). unfold populate_rc. case_bool_decide as HM.
    { eexists. split; [done|]. split_and!; try done.
      - intros y Hy. rewrite HR by done. f_equal. assert (y < x /\ y mod n <> me <-> y < x + 1 /\ y mod n <> me) as HW.
        { split; intros [? ?]; (split; [|done]); [lia|]. destruct (decide (y = x)) as [->|]; [done|lia]. }
        by rewrite (bool_decide_ext _ _ HW).
      - intros y Hy Hne. apply HQ; [|done]. destruct (decide (y = x)) as [->|]; [done|lia]. }
    destruct (Heps x Hx HM) as (e & He & Hu & Hq). unfold load_ep. rewrite Z.mul_0_r, Z.add_0_l, He, outcome_bind_ret, Hu, H3.
    fold N. rewrite bool_decide_true by lia. cbn [cassert]. rewrite outcome_bind_ret || cbn. rewrite (arr_get_ok rh x init_dev_qp).
    2: lia. 2: { rewrite HR, bool_decide_false by lia. done. }
    rewrite outcome_bind_ret, Hq, fill_qp. rewrite arr_set_ok by lia. cbn -[Z.add]. rewrite arr_set_ok by lia. eexists. split; [done|].
    split_and!; [by rewrite length_insert|by rewrite length_insert| | |].
    + intros i Hi. rewrite insert_lookup_Z, bool_decide_false by lia. by apply HD.
    + intros y Hy. rewrite insert_lookup_Z, HR by lia. repeat case_bool_decide; subst; (done || lia).
    + intros y Hy Hne. rewrite insert_lookup_Z by lia. case_bool_decide as HE; [by replace y with x by lia|]. apply HQ; [lia|done].
  - rewrite HG. exists rc_h, cq_h. split; [done|]. split; [done|]. split.
    + intros x Hx Hne. rewrite HR, HQ, bool_decide_true by lia. done.
    + intros x Hx HE. rewrite HR, bool_decide_false by (lia || naive_solver). done.
Qed.

(** The tables of the device: every entry is a queue pair of its own kind with
    its own completion queue, except for the RCs to the PE itself, which are
    never used. *)
Lemma gpu_state_ok : exists dci_h rc_h cq_h, ibgda_setup_gpu_state n me [d] dci_qpn = Ret (dci_h, rc_h, cq_h) /\
  (forall i, 0 <= i < dci_num_eps d -> dci_h !! Z.to_nat i = Some (dci_entry i) /\ cq_h !! Z.to_nat i = Some (cq_entry (dci_qpn 0 i))) /\
  (forall x, 0 <= x < rc_num_eps_per_pe d * n -> x mod n <> me ->
     rc_h !! Z.to_nat x = Some (rc_entry x) /\ cq_h !! Z.to_nat (dci_num_eps d + x) = Some (cq_entry (rc_qpn x))).
Proof.
  destruct counts_one as (_ & H2 & H3 & H4). unfold ibgda_setup_gpu_state. rewrite H2, H3, H4.
  destruct (populate_dci_ok (dci_num_eps d + rc_num_eps_per_pe d * n)) as (dci_h & cq0 & -> & Hl & HD); [nia|].
  rewrite outcome_bind_ret. destruct (populate_rc_ok cq0 Hl) as (rc_h & cq_h & -> & HO & HR & _).
  exists dci_h, rc_h, cq_h. split; [done|]. split; [|done]. intros i Hi. rewrite HO by done. by apply HD.
Qed.
End Tables.

(** C8: from the device's choice to the wire: all PEs have created their RCs on
    one device and PE [a] has filled the tables of its GPU; then the queue pair
    [ibgda_get_rc] chooses on the GPU of [a] for another PE [b] is an RC in the
    table with its own completion queue, connected to a queue pair of [b] that is
    connected back to it. *)
Theorem rc_choice_connected (e : hw) n num port (ds : list device) (dci_qpn : Z -> Z -> Z) (st : device_state) sw a b :
  2 <= n -> 0 < num -> rc_ready n num 0 ds -> (forall d, d ∈ ds -> 0 < dci_num_eps d) ->
  device_ok st -> switches_ok st sw -> npes st = n -> mype st = a -> num_devices_initialized st = 1 ->
  num_rc_per_pe st = num -> 0 < num_default_rc_per_pe st -> 0 <= b < n -> b <> a ->
  exists ds' da tables, ibgda_setup_rc_endpoints e n num port ds = Ret ds' /\ ds' !! Z.to_nat a = Some da /\
    ibgda_setup_gpu_state n a [da] dci_qpn = Ret tables /\
    exists x sw' y c, ibgda_get_rc st sw b NVSHMEMX_QP_DEFAULT = Ret ((x, true), sw') /\
      tables.1.2 !! Z.to_nat x = Some (MkDevQp (hw_qpn e a x) (Some RC) 0 (Some c)) /\
      tables.2 !! Z.to_nat c = Some (MkDevCq (Some (hw_qpn e a x)) (hw_qpn e a x)) /\
      connects e port ds' a x b y /\ connects e port ds' b y a x.
Proof.
  intros Hn Hnum Hr Hdci Hok Hsw HN HM HD1 HRC Hdef Hb Hne. pose proof (dk_pes st Hok) as [Hpe _]. pose proof (dk_rcs st Hok) as [Hdr _].
  destruct (rc_setup_pairs e n num port 0 ds Hn Hnum ltac:(lia) Hr) as (ds' & HE & Hl & HF & HC & _).
  rewrite HN in Hpe. destruct (lookup_lt_is_Some_2 ds' (Z.to_nat a)) as [da Hda]; [lia|].
  destruct (HF _ _ Hda) as (d & Hd & Hdn & Hrn). rewrite Z.add_0_l in Hrn.
  assert (forall x, 0 <= x < num * n -> x mod n <> a -> connects e port ds' a x (x mod n) (x / n * n + a) /\
      connects e port ds' (x mod n) (x / n * n + a) a x) as HCx.
  { intros x Hx Hxa. pose proof (Z.mod_pos_bound x n ltac:(lia)). pose proof (Z.div_mod x n ltac:(lia)).
    assert (0 <= x / n < num) by (split; [apply Z.div_pos; lia|apply Z.div_lt_upper_bound; lia]).
    pose proof (HC a (x mod n) (x / n) ltac:(lia) ltac:(lia) ltac:(lia) ltac:(lia)) as C1.
    pose proof (HC (x mod n) a (x / n) ltac:(lia) ltac:(lia) ltac:(lia) ltac:(lia)) as C2.
    rewrite Z.mul_0_l, Z.add_0_l in C1, C2. by replace (x / n * n + x mod n) with x in C1, C2 by lia. }
  destruct (gpu_state_ok n a da dci_qpn (hw_qpn e a)) as (dci_h & rc_h & cq_h & HT & _ & HR).
  { lia. } { rewrite Hdn. apply Hdci. by eapply list_elem_of_lookup_2. } { lia. }
  { rewrite Hrn. intros x Hx Hxa. destruct (HCx x Hx Hxa) as [(da' & ea & Hda' & Hea & Hq & Hu & _) _].
    rewrite Hda in Hda'. injection Hda' as <-. by exists ea. }
  exists ds', da, (dci_h, rc_h, cq_h). split; [done|]. split; [done|]. split; [done|].
  destruct (rc_default_any st Hok sw b NVSHMEMX_QP_DEFAULT (num_default_rc_per_pe st * num_devices_initialized st))
    as (x & sw' & HG & _ & Hx & Hxr); [done|lia|lia|by left|by rewrite bool_decide_false|lia|].
  rewrite HN, HD1, Z.mul_1_r in *. assert (0 <= x < num * n) as Hxn by nia.
  destruct (HR x) as [HR1 HR2]; [by rewrite Hrn|lia|].
  destruct (HCx x Hxn) as [HC1 HC2]; [lia|]. rewrite Hx in HC1, HC2.
  exists x, sw', (x / n * n + a), (dci_num_eps da + x). done.
Qed.

Definition sample_hw : hw := MkHw (fun pe x => 1000 * (pe + 1) + x) (fun pe port => 10 * pe + port).
Definition sample_host_device : device :=
  ibgda_allocate_rc_structures 3 (MkHostDevice 2 4 1 0 0 ∅) (2 * 3).
Definition sample_state : device_state :=
  {| num_shared_dcis := 1; num_exclusive_dcis := 3; dci_map_type := MAP_CTA; ndcts_per_pe := 2; num_qp_groups := 2;
     num_dct_groups := 1; num_rc_per_pe := 2; num_default_rc_per_pe := 2; num_devices_initialized := 1; may_skip_cst := true;
     npes := 3; mype := 1; node_npes := 3; node_mype := 1; enable_rail_opt := 0 |}.
Lemma rc_choice_connected_witness : exists ds' da tables,
  ibgda_setup_rc_endpoints sample_hw 3 2 1 (replicate 3 sample_host_device) = Ret ds' /\ ds' !! 1%nat = Some da /\
  ibgda_setup_gpu_state 3 1 [da] (fun _ i => 500 + i) = Ret tables /\
  exists x sw' y c, ibgda_get_rc sample_state [7; 0] 2 NVSHMEMX_QP_DEFAULT = Ret ((x, true), sw') /\
    tables.1.2 !! Z.to_nat x = Some (MkDevQp (2000 + x) (Some RC) 0 (Some c)) /\
    tables.2 !! Z.to_nat c = Some (MkDevCq (Some (2000 + x)) (2000 + x)) /\
    connects sample_hw 1 ds' 1 x 2 y /\ connects sample_hw 1 ds' 2 y 1 x.
Proof.
  apply (rc_choice_connected sample_hw 3 2 1 (replicate 3 sample_host_device) (fun _ i => 500 + i) sample_state [7; 0] 1 2);
    first [lia | reflexivity | idtac].
  - split; [done|]. by repeat constructor.
  - intros d [-> _]%elem_of_replicate. done.
  - by repeat split.
  - split_and!; [done|done|]. by repeat constructor.
Defined.

(** ** The posted state *)
Section Post.
Context (n me : Z) (d : device) (k : nat).  (* [k] selected devices with equal counts *)
Local Abbreviation devs := (replicate k d).

Lemma counts_equal : n_devs_selected devs = Z.of_nat k /\ num_dci_handles devs = Z.of_nat k * dci_num_eps d /\
  num_shared_dci_handles devs = Z.of_nat k * dci_num_shared_eps d /\ num_rc_handles n devs = Z.of_nat k * (rc_num_eps_per_pe d * n) /\
  num_dct_handles n devs = Z.of_nat k * (dct_num_eps d * n).
Proof.
  unfold n_devs_selected, num_dci_handles, num_shared_dci_handles, num_rc_handles, num_dct_handles.
  rewrite length_replicate. split; [done|]. induction k as [|k' IH]; [cbn; lia|]. rewrite Nat2Z.inj_succ. cbn [replicate foldr]. lia.
Qed.

Lemma post_ok o map skip node_n node_me rail :
  0 < Z.of_nat k <= 15 -> 0 <= me < n -> n < 2 ^ 15 -> 0 < dct_num_eps d ->
  0 < dci_num_shared_eps d <= dci_num_eps d -> Z.of_nat k * dci_num_eps d < 2 ^ 24 ->
  0 <= IBGDA_NUM_RC_PER_PE o <= rc_num_eps_per_pe d -> rc_num_eps_per_pe d * Z.of_nat k * n < 2 ^ 24 ->
  exists st, ibgda_post_gpu_device_state n me devs o map skip (ibgda_setup_qp_groups_gpu_state n devs) node_n node_me rail = Ret st /\ device_ok st /\
    npes st = n /\ mype st = me /\ ndcts_per_pe st = dct_num_eps d /\ num_rc_per_pe st = rc_num_eps_per_pe d /\ dci_map_type st = map /\
    num_shared_dcis st = Z.of_nat k * dci_num_shared_eps d /\ num_exclusive_dcis st = Z.of_nat k * (dci_num_eps d - dci_num_shared_eps d) /\
    (0 < rc_num_eps_per_pe d -> 2 <= num_qp_groups st).
Proof.
  intros Hk Hme Hn Hdct Hdci Hdcib Hrc Hrcb. destruct counts_equal as (H1 & H2 & H3 & H4 & H5).
  unfold ibgda_post_gpu_device_state. rewrite H1, H2, H3, H4, H5.
  rewrite (Z.mul_comm (Z.of_nat k) (dct_num_eps d * n)), (Z.mul_comm (Z.of_nat k) (rc_num_eps_per_pe d * n)), !Z.div_mul by lia.
  rewrite udiv_ok by nia. rewrite outcome_bind_ret. eexists. split; [done|]. split.
  - split; cbn; [lia| | |lia|nia].
    + split; [nia|]. rewrite <- Z.mul_sub_distr_l, Z.mul_comm. apply Z_mod_mult.
    + split; [nia|]. rewrite Z.mul_comm. apply Z_mod_mult.
  - cbn. split_and!; try done; [lia|]. intros Hpos. unfold ibgda_setup_qp_groups_gpu_state.
    rewrite H4. assert (0 < rc_num_eps_per_pe d * n) by nia. rewrite bool_decide_true by nia. lia.
Qed.
End Post.

(** The documented ranges of the options, for mapping texts that name [map] and
    [rmap] *)
Record options_ok (o : options) (warp_size : Z) (map rmap : map_type) : Prop := {
  oo_map : ibgda_parse_qp_map_by (IBGDA_DCI_MAP_BY o) = (0, Some map);
  oo_rmap : ibgda_parse_qp_map_by (IBGDA_RC_MAP_BY o) = (0, Some rmap) /\ rmap <> MAP_DCT;
  oo_slots : warp_size <= IBGDA_NUM_FETCH_SLOTS_PER_DCI o /\ warp_size <= IBGDA_NUM_FETCH_SLOTS_PER_RC o;
  oo_dct : 0 < IBGDA_NUM_DCT o;
  oo_shared : 0 < IBGDA_NUM_SHARED_DCI o /\ (IBGDA_NUM_DCI o <= 0 \/ IBGDA_NUM_SHARED_DCI o <= IBGDA_NUM_DCI o);
  oo_rc : 0 <= IBGDA_NUM_RC_PER_PE o }.

(** The exclusive DCIs of a device: as asked for, or one for each unit of the
    mapping (multiprocessors, their warps, DCTs of all PEs) *)
Definition exclusive_dcis (o : options) (n warp_size mpc : Z) (map : map_type) : Z :=
  if bool_decide (0 < IBGDA_NUM_DCI o) then IBGDA_NUM_DCI o - IBGDA_NUM_SHARED_DCI o
  else match map with MAP_WARP => mpc * warp_size | MAP_DCT => IBGDA_NUM_DCT o * n | _ => mpc end.

Lemma parse_map_valid str st map : ibgda_parse_qp_map_by str = (st, Some map) -> map <> MAP_INVALID.
Proof. unfold ibgda_parse_qp_map_by. repeat case_bool_decide; congruence. Qed.

(** Options in range are accepted and give these counts. *)
Lemma calculations_ok o n warp_size mpc d map rmap :
  options_ok o warp_size map rmap -> 0 < n -> 0 < warp_size -> 0 < mpc ->
  ibgda_connect_device_calculations o n warp_size mpc d =
    Ret (inr (MkHostDevice (IBGDA_NUM_DCT o) (exclusive_dcis o n warp_size mpc map + IBGDA_NUM_SHARED_DCI o) (IBGDA_NUM_SHARED_DCI o)
                (rc_num_eps_per_pe d) (rc_cap d) (rc_eps d), map, Some rmap)) /\
  0 <= exclusive_dcis o n warp_size mpc map.
Proof.
  intros [Hm [Hr Hrd] [Hs1 Hs2] Hd [Hsh Hn] Hrc] Hn0 Hw Hmpc. pose proof (parse_map_valid _ _ _ Hm) as Hv. pose proof (parse_map_valid _ _ _ Hr) as Hrv.
  assert (0 <= exclusive_dcis o n warp_size mpc map) as Hex by (unfold exclusive_dcis; case_bool_decide; [lia|destruct map; nia]).
  split; [|done]. unfold ibgda_connect_device_calculations, ibgda_calculate_dci_endpoints, ibgda_calculate_rc_endpoints. rewrite Hm, Hr.
  rewrite !(bool_decide_false (_ < warp_size)), (bool_decide_false (IBGDA_NUM_RC_PER_PE o < 0)) by lia.
  assert (rmap = MAP_CTA \/ rmap = MAP_SM \/ rmap = MAP_WARP) as Hrm by (destruct rmap; naive_solver).
  unfold cassert, exclusive_dcis in *. destruct (decide (0 < IBGDA_NUM_DCI o)) as [Hp|Hp].
  - rewrite (bool_decide_true (0 < _)), (bool_decide_false (IBGDA_NUM_DCI o <= 0)) in * by lia.
    rewrite (bool_decide_true (_ > 0)), outcome_bind_ret, (bool_decide_false (_ > IBGDA_NUM_DCI o)) by lia.
    replace (IBGDA_NUM_DCI o - IBGDA_NUM_SHARED_DCI o + IBGDA_NUM_SHARED_DCI o) with (IBGDA_NUM_DCI o) by lia.
    by destruct Hrm as [-> |[-> | ->]].
  - rewrite (bool_decide_false (0 < _)), (bool_decide_true (IBGDA_NUM_DCI o <= 0)) in * by lia.
    destruct map; try done; cbn [mbind option_bind];
      rewrite (bool_decide_true (_ > 0)), outcome_bind_ret, (bool_decide_false (IBGDA_NUM_SHARED_DCI o > _)) by nia;
      by destruct Hrm as [-> |[-> | ->]].
Qed.

(** C32: from the options to the state the device code uses.  For options in
    their documented ranges ([options_ok]; at least one shared DCI, which the code
    itself does not demand, and one DCT), [ibgda_connect_device_calculations]
    accepts them; and when at most 15 selected devices get the counts it computes
    and the option's number of RCs per PE (whatever the contents of their RC
    arrays), with fewer than 2^24 queue pairs of a kind and 2^15 PEs,
    [ibgda_post_gpu_device_state] returns a state with the invariant [device_ok]
    of the device side, in which the shared DCIs are those asked for on every
    device, the exclusive ones those asked for or one for each unit of the
    mapping, DCTs and RCs are per PE, and the counters of
    [ibgda_setup_qp_groups_gpu_state] suffice for RCs. *)
Theorem posted_state_ok o n me warp_size mpc (k : nat) d0 cap eps map rmap skip node_n node_me rail :
  options_ok o warp_size map rmap -> 0 < warp_size -> 0 < mpc -> 0 <= me < n -> n < 2 ^ 15 -> 0 < Z.of_nat k <= 15 ->
  Z.of_nat k * (exclusive_dcis o n warp_size mpc map + IBGDA_NUM_SHARED_DCI o) < 2 ^ 24 ->
  IBGDA_NUM_RC_PER_PE o * Z.of_nat k * n < 2 ^ 24 ->
  exists d, ibgda_connect_device_calculations o n warp_size mpc d0 = Ret (inr (d, map, Some rmap)) /\
    let devs := replicate k (set_rc d (IBGDA_NUM_RC_PER_PE o) cap eps) in
    exists st, ibgda_post_gpu_device_state n me devs o map skip (ibgda_setup_qp_groups_gpu_state n devs) node_n node_me rail = Ret st /\
      device_ok st /\ npes st = n /\ mype st = me /\ dci_map_type st = map /\ map <> MAP_INVALID /\
      ndcts_per_pe st = IBGDA_NUM_DCT o /\ num_rc_per_pe st = IBGDA_NUM_RC_PER_PE o /\
      num_shared_dcis st = Z.of_nat k * IBGDA_NUM_SHARED_DCI o /\
      num_exclusive_dcis st = Z.of_nat k * exclusive_dcis o n warp_size mpc map /\
      (0 < IBGDA_NUM_RC_PER_PE o -> 2 <= num_qp_groups st).
Proof.
  intros Ho Hw Hmpc Hme Hn Hk Hdci Hrc. destruct (calculations_ok o n warp_size mpc d0 map rmap Ho ltac:(lia) Hw Hmpc) as [E Hex].
  eexists. split; [exact E|]. cbv zeta. clear E. destruct Ho as [Hm _ _ Hdct [Hs _] Hrc0].
  match goal with |- context [set_rc ?dev _ _ _] => set (d := dev) end.
  destruct (post_ok n me (set_rc d (IBGDA_NUM_RC_PER_PE o) cap eps) k o map skip node_n node_me rail)
    as (st & HS & HK & P1 & P2 & P3 & P4 & P5 & P6 & P7 & P8); cbn in *; try lia.
  exists st. split; [exact HS|]. pose proof (parse_map_valid _ _ _ Hm). split_and!; try done. rewrite P7. f_equal. lia.
Qed.

Definition sample_options : options := MkOptions 2 0 1 1 "CTA" "sm" 1024 1024.
Lemma sample_options_ok : options_ok sample_options 32 MAP_CTA MAP_SM.
Proof. split; cbn; try done; try lia. Qed.
Lemma posted_state_ok_witness : exists d, ibgda_connect_device_calculations sample_options 3 32 132 sample_host_device = Ret (inr (d, MAP_CTA, Some MAP_SM)) /\
  exists st, ibgda_post_gpu_device_state 3 1 (replicate 2 (set_rc d 1 3 ∅)) sample_options MAP_CTA false
    (ibgda_setup_qp_groups_gpu_state 3 (replicate 2 (set_rc d 1 3 ∅))) 3 1 0 = Ret st /\ device_ok st /\
    num_shared_dcis st = 2 /\ num_exclusive_dcis st = 264.
Proof.
  destruct (posted_state_ok sample_options 3 1 32 132 2 sample_host_device 3 ∅ MAP_CTA MAP_SM false 3 1 0 sample_options_ok)
    as (d & E & st & HS & HK & _ & _ & _ & _ & _ & _ & H1 & H2 & _); [lia|lia|lia|lia|lia|by vm_compute|by vm_compute|].
  exists d. split; [exact E|]. exists st. split; [exact HS|]. split; [exact HK|]. split; [exact H1|exact H2].
Defined.

(** ** Runs outside the hypotheses *)

(** Two devices with one RC per PE each, 2 PEs: the second device's endpoints are
    looked up past the end of its array. *)
Example two_devices_undefined :
  let d := MkHostDevice 2 4 1 1 2 (<[1 := Some (MkEp 77 1 1 None)]> (<[0 := None]> ∅)) in
  ibgda_setup_gpu_state 2 0 [d; d] (fun j i => 500 + 10 * j + i) = Fail FUndef.
Proof. vm_compute. reflexivity. Qed.

(** Were they in range, both devices' queue pairs would claim the same entries:
    two different indices of [eps] of two devices have the same [user_index]. *)
Example two_devices_same_entry e :
  (ds ← ibgda_setup_rc_endpoints e 2 1 1 (replicate 2 (ibgda_allocate_rc_structures 2 (MkHostDevice 2 4 1 0 0 ∅) 2));
   ds' ← ibgda_setup_rc_endpoints e 2 1 1 (replicate 2 (ibgda_allocate_rc_structures 2 (MkHostDevice 2 4 1 0 0 ∅) 2));
   d ← arr_get ds 0; d' ← arr_get ds' 0; ep1 ← load_ep d 1; ep2 ← load_ep d' 1;
   Ret (ep_user_index ep1, ep_user_index ep2)) = Ret (1, 1).
Proof. vm_compute. reflexivity. Qed.

(** After queue pairs were added, the host's progress loop reads the entry for
    the PE itself, which [realloc] left uninitialised. *)
Example rc_progress_uninitialised :
  (ds ← ibgda_setup_rc_endpoints sample_hw 2 1 1 (replicate 2 (ibgda_allocate_rc_structures 2 (MkHostDevice 2 4 1 0 0 ∅) 2));
   ds' ← ibgda_setup_rc_endpoints sample_hw 2 1 1 ((fun d => ibgda_allocate_rc_structures 2 d 2) <$> ds);
   d ← arr_get ds 0; d' ← arr_get ds' 0;
   before ← ibgda_rc_progress 2 (fun _ => 1) (fun _ => 0) d;
   Ret (before, ibgda_rc_progress 2 (fun _ => 1) (fun _ => 0) d')) = Ret ([1001], Fail FUndef).
Proof. vm_compute. reflexivity. Qed.

(** The doorbell record the host writes is never the one the GPU is told, and
    from the second quarter of the DCIs on it is outside the buffer. *)
Lemma host_dbrec_differs i : host_dbrec i <> gpu_dbrec i.
Proof. unfold host_dbrec, gpu_dbrec, dbr_offset, IBGDA_DBRSIZE. lia. Qed.
Lemma host_dbrec_outside i num_eps : num_eps <= 4 * i -> IBGDA_DBRSIZE * num_eps <= host_dbrec i.
Proof. unfold host_dbrec, dbr_offset, IBGDA_DBRSIZE. lia. Qed.

(** A queue pair added later may be made on another port than the first ones of
    the same device: the only selected device is the second of the list. *)
Example connect_rc_other_port :
  let s := MkIbgdaState [MkHostDevice 2 4 1 1 2 ∅] [1] [1; 2] 2 0 in
  connect_rc_plan 2 s 1 = Ret [(2, 0, 1)] /\ connect_endpoints_port s 0 = Ret 2.
Proof. done. Qed.
End IbgdaHostSpec.
