(* ===== verification/IbgdaWqe.v ===== *)
(** * GPU-initiated InfiniBand: work-queue entries

    src/src/include/non_abi/device/pt-to-pt/ibgda_device.cuh (and the byte-order
    macros of utils_device.h): how device threads write work-queue entries
    (WQEs) into the send queue, byte by byte.

    A WQE is a sequence of 16-byte segments in one or more consecutive 64-byte
    blocks (WQEBBs) of a ring; the writers get one pointer per block ([out_wqes]).
    The structs of the segments and the opcodes come from <infiniband/mlx5dv.h>,
    which is not part of the sources: where a field lies in its struct and the
    values of the opcodes are the parameter [mlx5dv], of which [mlx5dv_ok] says
    what is relied on (fields in their struct and disjoint, opcodes of a byte
    and different).  A segment is 16 bytes, as the counts of the sources have
    it.  The reader ([decode]) is the NIC's side of the same format: it takes
    segments from the ring in order and reads fields in big-endian order; it is
    what the writers are compared with. *)
From stdpp Require Import base gmap list option.
From Stdlib Require Import ZArith Lia.
From S2P Require Import Prelude IbgdaQueue IbgdaQp.

Module IbgdaWqe.
Import IbgdaQueue IbgdaQp.

(** ** Byte order *)
Definition BSWAP32 (x : Z) : Z :=
  Z.lor (Z.lor (Z.lor (Z.shiftr (Z.land x 0xff000000) 24) (Z.shiftr (Z.land x 0x00ff0000) 8))
    (Z.shiftl (Z.land x 0x0000ff00) 8)) (Z.shiftl (Z.land x 0x000000ff) 24).
Definition BSWAP64 (x : Z) : Z :=
  Z.lor (Z.lor (Z.lor (Z.lor (Z.lor (Z.lor (Z.lor
    (Z.shiftr (Z.land x 0xff00000000000000) 56) (Z.shiftr (Z.land x 0x00ff000000000000) 40))
    (Z.shiftr (Z.land x 0x0000ff0000000000) 24)) (Z.shiftr (Z.land x 0x000000ff00000000) 8))
    (Z.shiftl (Z.land x 0x00000000ff000000) 8)) (Z.shiftl (Z.land x 0x0000000000ff0000) 24))
    (Z.shiftl (Z.land x 0x000000000000ff00) 40)) (Z.shiftl (Z.land x 0x00000000000000ff) 56).
Abbreviation HTOBE32 := BSWAP32.
Abbreviation HTOBE64 := BSWAP64.

(** The [w] bytes of a word in memory order (the GPU is little-endian), and a
    number from its bytes, most significant first. *)
Fixpoint le_bytes (w : nat) (x : Z) : list Z :=
  match w with O => [] | S w => x mod 256 :: le_bytes w (x / 256) end.
Definition be_val (bs : list Z) : Z := foldl (fun a b => a * 256 + b) 0 bs.

(** ** Structs *)

(** A field assignment [seg.f = x] of [w] bytes at offset [off] *)
Definition put (off w : nat) (x : Z) (bs : list Z) : list Z := take off bs ++ le_bytes w x ++ drop (off + w) bs.
(** The field as the NIC reads it *)
Definition get (off w : nat) (bs : list Z) : Z := be_val (take w (drop off bs)).
Definition zeros : list Z := replicate 16 0.

(** Of <infiniband/mlx5dv.h>: offsets of fields, opcodes and flags *)
Record mlx5dv := MkMlx5dv {
  ctrl_opmod_idx_opcode : nat; ctrl_qpn_ds : nat; ctrl_fm_ce_se : nat;
  raddr_raddr : nat; raddr_rkey : nat; raddr_reserved : nat;
  data_byte_count : nat; data_lkey : nat; data_addr : nat;
  atomic_swap_add : nat; atomic_compare : nat;
  OPCODE_NOP : Z; OPCODE_RDMA_WRITE : Z; OPCODE_RDMA_READ : Z;
  OPCODE_ATOMIC_CS : Z; OPCODE_ATOMIC_FA : Z; OPCODE_ATOMIC_MASKED_CS : Z; OPCODE_ATOMIC_MASKED_FA : Z;
  WQE_CTRL_CQ_UPDATE : Z; INLINE_SEG : Z
}.
(** [IBGDA_MLX5_OPCODE_DUMP] *)
Definition OPCODE_DUMP : Z := 0x23.
Definition opcodes (c : mlx5dv) : list Z :=
  [OPCODE_NOP c; OPCODE_RDMA_WRITE c; OPCODE_RDMA_READ c; OPCODE_ATOMIC_CS c; OPCODE_ATOMIC_FA c; OPCODE_ATOMIC_MASKED_CS c;
   OPCODE_ATOMIC_MASKED_FA c; OPCODE_DUMP].

(** [a] bytes at [x] and [b] bytes at [y] do not overlap *)
Definition apart (x a y b : nat) : Prop := (x + a <= y \/ y + b <= x)%nat.
Record mlx5dv_ok (c : mlx5dv) : Prop := {
  mk_ctrl : (ctrl_opmod_idx_opcode c + 4 <= 16 /\ ctrl_qpn_ds c + 4 <= 16 /\ ctrl_fm_ce_se c + 1 <= 16)%nat /\
    apart (ctrl_opmod_idx_opcode c) 4 (ctrl_qpn_ds c) 4 /\ apart (ctrl_opmod_idx_opcode c) 4 (ctrl_fm_ce_se c) 1 /\
    apart (ctrl_qpn_ds c) 4 (ctrl_fm_ce_se c) 1;
  mk_raddr : (raddr_raddr c + 8 <= 16 /\ raddr_rkey c + 4 <= 16 /\ raddr_reserved c + 4 <= 16)%nat /\
    apart (raddr_raddr c) 8 (raddr_rkey c) 4 /\ apart (raddr_raddr c) 8 (raddr_reserved c) 4 /\
    apart (raddr_rkey c) 4 (raddr_reserved c) 4;
  mk_data : (data_byte_count c = 0 /\ data_lkey c + 4 <= 16 /\ data_addr c + 8 <= 16)%nat /\
    apart (data_byte_count c) 4 (data_lkey c) 4 /\ apart (data_byte_count c) 4 (data_addr c) 8 /\ apart (data_lkey c) 4 (data_addr c) 8;
  mk_atomic : (atomic_swap_add c + 8 <= 16 /\ atomic_compare c + 8 <= 16)%nat /\ apart (atomic_swap_add c) 8 (atomic_compare c) 8;
  mk_opcodes : NoDup (opcodes c) /\ Forall (fun o => 0 <= o < 256) (opcodes c);
  mk_flags : 0 <= WQE_CTRL_CQ_UPDATE c < 32 /\ INLINE_SEG c = 2 ^ 31
}.

(** ** Memory of the send queue, by byte *)
Abbreviation mem := (gmap Z Z).
Fixpoint store_bytes (a : Z) (bs : list Z) (m : mem) : mem :=
  match bs with [] => m | b :: bs => store_bytes (a + 1) bs (<[a := b]> m) end.

(** Copying a segment word by word with [ibgda_store_relaxed] *)
Definition store_seg (a : Z) (seg : list Z) (m : mem) : mem := store_bytes a seg m.

Section Writers.
Context (c : mlx5dv).

Definition ctrl_seg (opmod_idx_opcode qpn_ds fm_ce_se : Z) : list Z :=
  put (ctrl_opmod_idx_opcode c) 4 opmod_idx_opcode (put (ctrl_fm_ce_se c) 1 fm_ce_se (put (ctrl_qpn_ds c) 4 qpn_ds zeros)).
Definition raddr_seg (raddr rkey : Z) : list Z :=
  put (raddr_reserved c) 4 0 (put (raddr_rkey c) 4 rkey (put (raddr_raddr c) 8 (HTOBE64 raddr) zeros)).
Definition data_seg (byte_count lkey addr : Z) : list Z :=
  put (data_addr c) 8 (HTOBE64 addr) (put (data_lkey c) 4 lkey (put (data_byte_count c) 4 (HTOBE32 byte_count) zeros)).

(** The address vectors of DCTs: 12 words each, the first 128 in constant memory. *)
Definition MAX_CONST_DCTS : Z := 128.
Record dct_tables := MkDctTables { const_dcts : list (list Z); global_dcts : list (list Z) }.
Definition dct_av (t : dct_tables) (dct_idx : Z) : outcome (list Z) :=
  if bool_decide (dct_idx < MAX_CONST_DCTS) then arr_get (const_dcts t) dct_idx
  else arr_get (global_dcts t) (dct_idx - MAX_CONST_DCTS).
(** [IBGDA_STORE_DCT_AV_SEG]: the first [av_seg_size] bytes of the entry *)
Definition store_av (t : dct_tables) (dct_idx av_seg_size av_seg_ptr : Z) (m : mem) : outcome mem :=
  if bool_decide (av_seg_size > 0) then
    av ← dct_av t dct_idx;
    Ret (store_bytes av_seg_ptr (take (Z.to_nat av_seg_size) av) m)
  else Ret m.

(** [ibgda_write_nop_wqe] *)
Definition ibgda_write_nop_wqe (qpn wqe_idx : Z) (out_wqes : list Z) (m : mem) : outcome mem :=
  ctrl_seg_ptr ← arr_get out_wqes 0;
  Ret (store_seg ctrl_seg_ptr
        (ctrl_seg (HTOBE32 (Z.lor (Z.shiftl (u16 wqe_idx) 8) (OPCODE_NOP c))) (HTOBE32 (u32 (Z.lor (Z.shiftl qpn 8) 2)))
           (WQE_CTRL_CQ_UPDATE c)) m).

(** [ibgda_write_dump_wqe] *)
Definition ibgda_write_dump_wqe (qpn laddr lkey bytes wqe_idx fm : Z) (out_wqes : list Z) (m : mem) : outcome mem :=
  ctrl_seg_ptr ← arr_get out_wqes 0;
  Ret (store_seg (ctrl_seg_ptr + 16) (data_seg bytes lkey laddr)
      (store_seg ctrl_seg_ptr
        (ctrl_seg (HTOBE32 (Z.lor (Z.shiftl (u16 wqe_idx) 8) OPCODE_DUMP)) (HTOBE32 (u32 (Z.lor (Z.shiftl qpn 8) 2)))
           (u8 (Z.lor (WQE_CTRL_CQ_UPDATE c) fm))) m)).

(** The branches at the top of the RDMA writers: [ds], [av_seg_size] and
    [raddr_seg_ptr] *)
Definition rdma_layout (support_half_av_seg : bool) (ty : qp_type) (out_wqes : list Z) : outcome (Z * Z * Z) :=
  ctrl_seg_ptr ← arr_get out_wqes 0;
  let av_seg_ptr := ctrl_seg_ptr + 16 in
  match ty with
  | DCI =>
      if support_half_av_seg then Ret (4, 16, av_seg_ptr + 16)
      else p ← arr_get out_wqes 1; Ret (6, 48, p)
  | RC => Ret (3, 0, av_seg_ptr + 0)
  end.

(** [ibgda_write_rdma_write_wqe] and [ibgda_write_rdma_read_wqe], which differ in
    the opcode *)
Definition write_rdma (opcode : Z) (half : bool) (t : dct_tables) (ty : qp_type)
  (qpn dct_idx laddr lkey raddr rkey bytes wqe_idx fm_ce_se : Z) (out_wqes : list Z) (m : mem) : outcome mem :=
  '(ds, av_seg_size, raddr_seg_ptr) ← rdma_layout half ty out_wqes;
  ctrl_seg_ptr ← arr_get out_wqes 0;
  let data_seg_ptr := raddr_seg_ptr + 16 in
  let m := store_seg ctrl_seg_ptr
             (ctrl_seg (HTOBE32 (Z.lor (Z.shiftl (u16 wqe_idx) 8) opcode)) (HTOBE32 (u32 (Z.lor (Z.shiftl qpn 8) ds))) fm_ce_se) m in
  m ← store_av t dct_idx av_seg_size (ctrl_seg_ptr + 16) m;
  let m := store_seg raddr_seg_ptr (raddr_seg raddr rkey) m in
  Ret (store_seg data_seg_ptr (data_seg bytes lkey laddr) m).
Definition ibgda_write_rdma_write_wqe := write_rdma (OPCODE_RDMA_WRITE c).
Definition ibgda_write_rdma_read_wqe := write_rdma (OPCODE_RDMA_READ c).

(** [ibgda_write_rdma_write_inl_wqe]; [val] is the memory at the pointer *)
Definition inl_seg (byte_count : Z) : list Z := le_bytes 4 (HTOBE32 (Z.lor byte_count (INLINE_SEG c))).
Definition ibgda_write_rdma_write_inl_wqe (half : bool) (t : dct_tables) (ty : qp_type)
  (qpn dct_idx : Z) (val : list Z) (raddr rkey bytes wqe_idx fm_ce_se : Z) (out_wqes : list Z) (m : mem) : outcome mem :=
  cassert (bool_decide (bytes <= 12));;
  '(ds, av_seg_size, raddr_seg_ptr) ← rdma_layout half ty out_wqes;
  ctrl_seg_ptr ← arr_get out_wqes 0;
  let inl_seg_ptr := raddr_seg_ptr + 16 in
  let wqe_data_ptr := inl_seg_ptr + 4 in
  let m := store_seg ctrl_seg_ptr
             (ctrl_seg (HTOBE32 (Z.lor (Z.shiftl (u16 wqe_idx) 8) (OPCODE_RDMA_WRITE c)))
                (HTOBE32 (u32 (Z.lor (Z.shiftl qpn 8) ds))) fm_ce_se) m in
  m ← store_av t dct_idx av_seg_size (ctrl_seg_ptr + 16) m;
  let m := store_seg raddr_seg_ptr (raddr_seg raddr rkey) m in
  let m := store_seg inl_seg_ptr (inl_seg bytes) m in
  Ret (store_bytes wqe_data_ptr (take (Z.to_nat bytes) val) m).

(** ** Values of a whole warp in one WQE *)

(** [ibgda_get_num_wqes_in_inl_combine_warp] and [ibgda_get_ds_in_inl_combine_warp];
    [size] is sizeof(T) *)
Definition ibgda_get_num_wqes_in_inl_combine_warp (size : Z) (ty : qp_type) : outcome Z :=
  match ty with
  | DCI =>
      if bool_decide (size = 1) || bool_decide (size = 2) then Ret 3
      else if bool_decide (size = 4) then Ret 4 else Fail FAssert
  | RC =>
      if bool_decide (size = 1) || bool_decide (size = 2) then Ret 3
      else if bool_decide (size = 4) then Ret 4
      else if bool_decide (size = 8) then Ret 6 else Fail FAssert
  end.
Definition ibgda_get_ds_in_inl_combine_warp (size : Z) (ty : qp_type) : outcome Z :=
  match ty with
  | DCI =>
      if bool_decide (size = 1) then Ret 6 else if bool_decide (size = 2) then Ret 8
      else if bool_decide (size = 4) then Ret 12 else Fail FAssert
  | RC =>
      if bool_decide (size = 1) then Ret 5 else if bool_decide (size = 2) then Ret 7
      else if bool_decide (size = 4) then Ret 11 else if bool_decide (size = 8) then Ret 19 else Fail FAssert
  end.

(** Where byte [idx] of the inline data goes: behind the header of the first
    block, or in one of the blocks after it. *)
Definition inl_data_ptr (inl_seg_ptr remaining : Z) (out_wqes : list Z) (base_out idx : Z) : outcome Z :=
  if bool_decide (idx < remaining) then Ret (inl_seg_ptr + 4 + idx)
  else
    let my_data_idx := idx - remaining in
    let my_data_in_wqe_idx := my_data_idx / 64 + 1 in
    p ← arr_get out_wqes (my_data_in_wqe_idx + base_out);
    Ret (p + Z.land my_data_idx (64 - 1)).

(** The parts every lane writes: header, its own value ([vals]: pieces of
    [piece] bytes starting at [idx]), and the no-op at the end. *)
Fixpoint store_pieces (inl_seg_ptr remaining : Z) (out_wqes : list Z) (base_out idx : Z) (pieces : list (list Z)) (m : mem)
  : outcome mem :=
  match pieces with
  | [] => Ret m
  | v :: pieces =>
      p ← inl_data_ptr inl_seg_ptr remaining out_wqes base_out idx;
      store_pieces inl_seg_ptr remaining out_wqes base_out (idx + Z.of_nat (length v)) pieces (store_bytes p v m)
  end.

(** [ibgda_write_rdma_write_inl_wqe_combine_warp], by lane [my_tid] of a warp;
    [val] are the bytes of its value *)
Definition ibgda_write_rdma_write_inl_wqe_combine_warp (t : dct_tables) (ty : qp_type) (qpn dct_idx : Z) (val : list Z)
  (_raddr rkey wqe_idx my_tid : Z) (out_wqes : list Z) (m : mem) : outcome mem :=
  let bytes := Z.of_nat (length val) in
  let raddr := u64 (_raddr - my_tid * bytes) in
  ctrl_seg_ptr ← arr_get out_wqes 0;
  ds ← ibgda_get_ds_in_inl_combine_warp bytes ty;
  n ← ibgda_get_num_wqes_in_inl_combine_warp bytes ty;
  let '(av_seg_size, remaining) := match ty with DCI => (16, 12) | RC => (0, 28) end in
  let nop_relative_wqe_idx := n - 1 in
  let av_seg_ptr := ctrl_seg_ptr + 16 in
  let raddr_seg_ptr := av_seg_ptr + av_seg_size in
  let inl_seg_ptr := raddr_seg_ptr + 16 in
  let m := store_seg ctrl_seg_ptr
             (ctrl_seg (HTOBE32 (Z.lor (Z.shiftl (u16 wqe_idx) 8) (OPCODE_RDMA_WRITE c)))
                (HTOBE32 (u32 (Z.lor (Z.shiftl qpn 8) ds))) 0) m in
  m ← store_av t dct_idx av_seg_size av_seg_ptr m;
  let m := store_seg raddr_seg_ptr (raddr_seg raddr rkey) m in
  let m := store_seg inl_seg_ptr (inl_seg (bytes * 32)) m in
  let pieces := if bool_decide (bytes <= 4) then [val] else [take 4 val; drop 4 val] in
  cassert (bool_decide (bytes <= 4) || (bool_decide (bytes = 8) && bool_decide (ty = RC)));;
  m ← store_pieces inl_seg_ptr remaining out_wqes 0 (my_tid * bytes) pieces m;
  nop_ptr ← arr_get out_wqes nop_relative_wqe_idx;
  Ret (store_seg nop_ptr
        (ctrl_seg (HTOBE32 (Z.lor (Z.shiftl (u16 (wqe_idx + nop_relative_wqe_idx)) 8) (OPCODE_NOP c)))
           (HTOBE32 (u32 (Z.lor (Z.shiftl qpn 8) 1))) (WQE_CTRL_CQ_UPDATE c)) m).

(** [ibgda_write_rdma_write_inl_wqe_combine_warp_for_dci_8B]: two WQEs of 16
    values each *)
Definition ibgda_write_rdma_write_inl_wqe_combine_warp_for_dci_8B (t : dct_tables) (ty : qp_type) (qpn dct_idx : Z) (val : list Z)
  (_raddr rkey _wqe_idx my_tid : Z) (out_wqes : list Z) (m : mem) : outcome mem :=
  cassert (bool_decide (length val = 8%nat) && bool_decide (ty = DCI));;
  let base_tid := Z.land my_tid (Z.lnot 0xF) in
  let base_out_wqe_idx := Z.shiftr base_tid 2 in
  let wqe_idx := u16 (_wqe_idx + base_out_wqe_idx) in
  ctrl_seg_ptr ← arr_get out_wqes base_out_wqe_idx;
  ds ← ibgda_get_ds_in_inl_combine_warp 4 DCI;
  n ← ibgda_get_num_wqes_in_inl_combine_warp 4 DCI;
  let raddr := u64 (_raddr - (my_tid - base_tid) * 8) in
  let av_seg_ptr := ctrl_seg_ptr + 16 in
  let raddr_seg_ptr := av_seg_ptr + 16 in
  let inl_seg_ptr := raddr_seg_ptr + 16 in
  let m := store_seg ctrl_seg_ptr
             (ctrl_seg (HTOBE32 (Z.lor (Z.shiftl wqe_idx 8) (OPCODE_RDMA_WRITE c)))
                (HTOBE32 (u32 (Z.lor (Z.shiftl qpn 8) ds))) 0) m in
  m ← store_av t dct_idx 16 av_seg_ptr m;
  let m := store_seg raddr_seg_ptr (raddr_seg raddr rkey) m in
  let m := store_seg inl_seg_ptr (inl_seg (8 * 32 / 2)) m in
  m ← store_pieces inl_seg_ptr 12 out_wqes base_out_wqe_idx ((my_tid - base_tid) * 8) [take 4 val; drop 4 val] m;
  let nop_relative_wqe_idx := n - 1 in
  nop_ptr ← arr_get out_wqes (nop_relative_wqe_idx + base_out_wqe_idx);
  Ret (store_seg nop_ptr
        (ctrl_seg (HTOBE32 (Z.lor (Z.shiftl (u16 (wqe_idx + nop_relative_wqe_idx)) 8) (OPCODE_NOP c)))
           (HTOBE32 (u32 (Z.lor (Z.shiftl qpn 8) 1))) (WQE_CTRL_CQ_UPDATE c)) m).

(** ** Atomics *)
Definition EXT_AMO_OPMOD_4 : Z := 0x08000000.
Definition EXT_AMO_OPMOD_8 : Z := 0x09000000.
Definition UINT32_MAX : Z := 2 ^ 32 - 1.
Definition UINT64_MAX : Z := 2 ^ 64 - 1.

(** The structs of the file: [ibgda_atomic_32_masked_fa_seg_t], its 64-bit form,
    [ibgda_atomic_32_masked_cs_seg_t], [ibgda_atomic_64_masked_cs_seg_t], and
    [struct mlx5_wqe_atomic_seg] for the plain operations; [seg] is what the
    (uninitialised) struct held before. *)
Definition masked_fa32 (add_data field_boundary : Z) (seg : list Z) : list Z := put 4 4 field_boundary (put 0 4 add_data seg).
Definition masked_fa64 (add_data field_boundary : Z) (seg : list Z) : list Z := put 8 8 field_boundary (put 0 8 add_data seg).
Definition masked_cs32 (swap_data compare_data swap_mask compare_mask : Z) (seg : list Z) : list Z :=
  put 8 4 swap_mask (put 12 4 compare_mask (put 4 4 compare_data (put 0 4 swap_data seg))).
Definition masked_cs64 (swap compare : Z) (seg : list Z) : list Z := put 8 8 compare (put 0 8 swap seg).

(** One case of the switch of [ibgda_write_atomic_wqe]: opcode with its
    modifier, [atomic_seg_1], and [atomic_seg_2] where it is used (then [ds]
    grows by one and the data segment moves). *)
Definition amo_case (op : amo_op) (bytes val_1 val_2 : Z) (junk : list Z) : outcome (Z * list Z * option (list Z)) :=
  let fa32 add bnd := Ret (Z.lor (OPCODE_ATOMIC_MASKED_FA c) EXT_AMO_OPMOD_4, masked_fa32 add bnd junk, None) in
  let fa64 add bnd := Ret (Z.lor (OPCODE_ATOMIC_MASKED_FA c) EXT_AMO_OPMOD_8, masked_fa64 add bnd junk, None) in
  let cs32 sw cm smask cmask := Ret (Z.lor (OPCODE_ATOMIC_MASKED_CS c) EXT_AMO_OPMOD_4, masked_cs32 sw cm smask cmask junk, None) in
  let cs64 sw smask := Ret (Z.lor (OPCODE_ATOMIC_MASKED_CS c) EXT_AMO_OPMOD_8, masked_cs64 sw 0 junk, Some (masked_cs64 smask 0 zeros)) in
  let four := bool_decide (bytes = 4) in
  match op with
  | AMO_FETCH_INC | AMO_INC => if four then fa32 (HTOBE32 1) 0 else fa64 (HTOBE64 1) 0
  | AMO_SIGNAL | AMO_SIGNAL_SET | AMO_SWAP | AMO_SET =>
      if four then cs32 (HTOBE32 val_1) 0 UINT32_MAX 0 else cs64 (HTOBE64 val_1) UINT64_MAX
  | AMO_SIGNAL_ADD | AMO_ADD => if four then fa32 (HTOBE32 val_1) 0 else fa64 (HTOBE64 val_1) 0
  | AMO_FETCH_AND | AMO_AND =>
      if four then cs32 (HTOBE32 val_1) 0 (HTOBE32 (u32 (Z.lnot val_1))) 0 else cs64 (HTOBE64 val_1) (HTOBE64 (u64 (Z.lnot val_1)))
  | AMO_FETCH_OR | AMO_OR =>
      if four then cs32 (HTOBE32 val_1) 0 (HTOBE32 val_1) 0 else cs64 (HTOBE64 val_1) (HTOBE64 val_1)
  | AMO_FETCH_XOR | AMO_XOR => if four then fa32 (HTOBE32 val_1) UINT32_MAX else fa64 (HTOBE64 val_1) UINT64_MAX
  | AMO_FETCH => if four then fa32 0 0 else fa64 0 0
  | AMO_FETCH_ADD =>
      if four then fa32 (HTOBE32 val_1) 0
      else Ret (OPCODE_ATOMIC_FA c, put (atomic_swap_add c) 8 (HTOBE64 val_1) junk, None)
  | AMO_COMPARE_SWAP =>
      if four then cs32 (HTOBE32 val_1) (HTOBE32 val_2) UINT32_MAX UINT32_MAX
      else Ret (OPCODE_ATOMIC_CS c, put (atomic_compare c) 8 (HTOBE64 val_2) (put (atomic_swap_add c) 8 (HTOBE64 val_1) junk), None)
  | AMO_ACK => Fail FAssert
  end.

(** The branches at the top: [ds], [av_seg_size], [raddr_seg_ptr],
    [atomic_seg_1_ptr], [atomic_seg_2_ptr] *)
Definition atomic_layout (half : bool) (ty : qp_type) (out_wqes : list Z) : outcome (Z * Z * Z * Z * Z) :=
  ctrl_seg_ptr ← arr_get out_wqes 0;
  let av_seg_ptr := ctrl_seg_ptr + 16 in
  match ty with
  | DCI =>
      p ← arr_get out_wqes 1;
      if half then Ret (5, 16, av_seg_ptr + 16, av_seg_ptr + 16 + 16, p)
      else Ret (7, 48, p, p + 16, p + 16 + 16)
  | RC => Ret (4, 0, av_seg_ptr + 0, av_seg_ptr + 0 + 16, av_seg_ptr + 0 + 16 + 16)
  end.

(** [ibgda_write_atomic_wqe] *)
Definition ibgda_write_atomic_wqe (half : bool) (t : dct_tables) (ty : qp_type) (qpn dct_idx val_1 val_2 laddr lkey raddr rkey bytes wqe_idx : Z)
  (op : amo_op) (fm_ce_se : Z) (junk : list Z) (out_wqes : list Z) (m : mem) : outcome mem :=
  '(ds, av_seg_size, raddr_seg_ptr, atomic_seg_1_ptr, atomic_seg_2_ptr) ← atomic_layout half ty out_wqes;
  ctrl_seg_ptr ← arr_get out_wqes 0;
  cassert (bool_decide (bytes = 4) || bool_decide (bytes = 8));;
  '(opmod_opcode, seg1, seg2) ← amo_case op bytes val_1 val_2 junk;
  '(ds, data_seg_ptr) ← match seg2 with
                        | None => Ret (ds, atomic_seg_2_ptr)
                        | Some _ => match ty with
                                    | DCI => Ret (ds + 1, atomic_seg_2_ptr + 16)
                                    | RC => p ← arr_get out_wqes 1; Ret (ds + 1, p)
                                    end
                        end;
  let m := store_seg ctrl_seg_ptr
             (ctrl_seg (HTOBE32 (Z.lor opmod_opcode (Z.shiftl (u16 wqe_idx) 8))) (HTOBE32 (u32 (Z.lor (Z.shiftl qpn 8) ds))) fm_ce_se) m in
  m ← store_av t dct_idx av_seg_size (ctrl_seg_ptr + 16) m;
  let m := store_seg raddr_seg_ptr (raddr_seg raddr rkey) m in
  let m := store_seg atomic_seg_1_ptr seg1 m in
  let m := store_seg atomic_seg_2_ptr (default zeros seg2) m in
  Ret (store_seg data_seg_ptr (data_seg bytes lkey laddr) m).
End Writers.
End IbgdaWqe.
