(* ===== verification/IbgdaNic.v ===== *)
(** * The NIC's side of the work-queue entries

    Reading back what [IbgdaWqe] writes: bytes, fields, segments of the ring, and
    [decode], the request the NIC makes of a WQE.  The rounds trips of the
    writers against it are in [IbgdaWqeSpec]. *)
From stdpp Require Import base gmap list option.
From Stdlib Require Import ZArith Lia.
From S2P Require Import Prelude IbgdaQueue IbgdaQp IbgdaWqe.

Module IbgdaNic.
Import IbgdaQueue IbgdaQp IbgdaWqe.

(** ** Bytes *)
Lemma length_le_bytes w x : length (le_bytes w x) = w.
Proof. revert x. induction w as [|w IH]; intros x; cbn; [done|]. by rewrite IH. Qed.

Lemma be_val_app l b : be_val (l ++ [b]) = be_val l * 256 + b.
Proof. unfold be_val. by rewrite foldl_app. Qed.

Lemma be_val_rev_le w x : be_val (rev (le_bytes w x)) = x mod 256 ^ Z.of_nat w.
Proof.
  revert x. induction w as [|w IH]; intros x; [by rewrite Z.mod_1_r|]. cbn [le_bytes rev].
  rewrite be_val_app, IH, Nat2Z.inj_succ, Z.pow_succ_r by lia.
  pose proof (Z.pow_pos_nonneg 256 (Z.of_nat w) ltac:(lia) ltac:(lia)).
  rewrite Z.rem_mul_r by lia. lia.
Qed.

Lemma byte_eq x y i j : 0 <= i -> 0 <= j -> (forall n, 0 <= n < 8 -> Z.testbit x (n + 8 * i) = Z.testbit y (n + 8 * j)) ->
  (x / 256 ^ i) mod 256 = (y / 256 ^ j) mod 256.
Proof.
  intros Hi Hj H. change 256 with (2 ^ 8). rewrite <- !Z.pow_mul_r by lia. apply Z.bits_inj'. intros n Hn.
  rewrite <- !Z.shiftr_div_pow2 by lia. destruct (Z.lt_ge_cases n 8).
  - rewrite !Z.mod_pow2_bits_low, !Z.shiftr_spec by lia. by apply H.
  - by rewrite !Z.mod_pow2_bits_high by lia.
Qed.

Ltac bits8 n := let H := fresh in assert (H : n = 0 \/ n = 1 \/ n = 2 \/ n = 3 \/ n = 4 \/ n = 5 \/ n = 6 \/ n = 7) by lia;
  destruct H as [->|[->|[->|[->|[->|[->|[->| ->]]]]]]].
Ltac bswap_bits := rewrite !Z.lor_spec, ?Z.shiftr_spec, ?Z.shiftl_spec, ?Z.land_spec by lia; cbn -[Z.testbit];
  cbn [Z.testbit Pos.testbit Pos.pred_N Pos.pred_double]; rewrite ?andb_true_r, ?andb_false_r, ?orb_false_r, ?orb_false_l; reflexivity.

Lemma le_bytes_div w x : le_bytes w x = (fun i => (x / 256 ^ i) mod 256) <$> seqZ 0 (Z.of_nat w).
Proof.
  revert x. induction w as [|w IH]; intros x; [done|]. cbn [le_bytes]. rewrite IH, Nat2Z.inj_succ, (seqZ_cons 0 (Z.succ _)) by lia.
  csimpl. f_equal; [by rewrite Z.div_1_r|]. rewrite Z.pred_succ. change (Z.succ 0) with (1 + 0). rewrite <- fmap_add_seqZ.
  rewrite <- list_fmap_compose. apply list_fmap_ext. intros k y Hy. unfold compose.
  apply lookup_seqZ in Hy as [-> _]. rewrite (Z.pow_add_r 256 1 (0 + _)), Z.pow_1_r, Z.div_div by lia. done.
Qed.

Lemma bswap32_bytes x : le_bytes 4 (BSWAP32 x) = rev (le_bytes 4 x).
Proof.
  rewrite !le_bytes_div. change (seqZ 0 (Z.of_nat 4)) with [0; 1; 2; 3]. csimpl. unfold BSWAP32.
  f_equal; [|f_equal; [|f_equal; [|f_equal]]]; apply byte_eq; try lia; intros n Hn; bits8 n; bswap_bits.
Qed.
Lemma bswap64_bytes x : le_bytes 8 (BSWAP64 x) = rev (le_bytes 8 x).
Proof.
  rewrite !le_bytes_div. change (seqZ 0 (Z.of_nat 8)) with [0; 1; 2; 3; 4; 5; 6; 7]. csimpl. unfold BSWAP64.
  f_equal; [|f_equal; [|f_equal; [|f_equal; [|f_equal; [|f_equal; [|f_equal; [|f_equal]]]]]]];
    apply byte_eq; try lia; intros n Hn; bits8 n; bswap_bits.
Qed.

(** ** Fields *)
Lemma length_put off w x bs : (off + w <= length bs)%nat -> length (put off w x bs) = length bs.
Proof. intros H. unfold put. rewrite !length_app, length_take, length_drop, length_le_bytes. lia. Qed.

Lemma take_drop_put off w x bs : (off + w <= length bs)%nat -> take w (drop off (put off w x bs)) = le_bytes w x.
Proof.
  intros H. unfold put. rewrite drop_app_length' by (rewrite length_take; lia).
  by rewrite take_app_length' by (by rewrite length_le_bytes).
Qed.

Lemma lookup_put_other off w x bs i : (off + w <= length bs)%nat -> (i < off \/ off + w <= i)%nat -> put off w x bs !! i = bs !! i.
Proof.
  intros H Hi. unfold put. destruct Hi.
  - rewrite lookup_app_l by (rewrite length_take; lia). apply lookup_take_lt. lia.
  - rewrite lookup_app_r by (rewrite length_take; lia). rewrite length_take, Nat.min_l by lia.
    rewrite lookup_app_r by (rewrite length_le_bytes; lia). rewrite length_le_bytes, lookup_drop. f_equal. lia.
Qed.

Lemma get_put_other off w x bs o n : (off + w <= length bs)%nat -> apart off w o n -> get o n (put off w x bs) = get o n bs.
Proof.
  intros H HA. unfold get. f_equal. apply list_eq. intros i. destruct (decide (i < n)%nat).
  - rewrite !lookup_take_lt, !lookup_drop by lia. apply lookup_put_other; [done|]. unfold apart in HA. lia.
  - by rewrite !lookup_take_ge by lia.
Qed.

Lemma get_put_be32 off x bs : (off + 4 <= length bs)%nat -> get off 4 (put off 4 (HTOBE32 x) bs) = u32 x.
Proof. intros H. unfold get. rewrite take_drop_put, bswap32_bytes by done. by rewrite be_val_rev_le. Qed.
Lemma get_put_be64 off x bs : (off + 8 <= length bs)%nat -> get off 8 (put off 8 (HTOBE64 x) bs) = u64 x.
Proof. intros H. unfold get. rewrite take_drop_put, bswap64_bytes by done. by rewrite be_val_rev_le. Qed.
Lemma get_put_byte off x bs : (off + 1 <= length bs)%nat -> get off 1 (put off 1 x bs) = u8 x.
Proof. intros H. unfold get. rewrite take_drop_put by done. done. Qed.
(** A key is kept in big-endian form; the NIC sees the number. *)
Lemma get_put_raw32 off x bs : (off + 4 <= length bs)%nat -> get off 4 (put off 4 x bs) = be_val (le_bytes 4 x).
Proof. intros H. unfold get. by rewrite take_drop_put. Qed.
Definition key_of (key : Z) : Z := be_val (le_bytes 4 key).
Lemma key_of_be32 x : key_of (HTOBE32 x) = u32 x.
Proof. unfold key_of. rewrite bswap32_bytes. apply be_val_rev_le. Qed.

Section Decode.
Context (c : mlx5dv).

(** ** The ring *)

(** Byte [k] of the WQE at index [idx], in a ring of [nwqes] blocks at [base] *)
Definition view (base nwqes idx : Z) (m : mem) (k : Z) : Z :=
  default 0 (m !! (base + 64 * ((idx + k / 64) mod nwqes) + k mod 64)).
Definition read (v : Z -> Z) (p : Z) (len : nat) : list Z := v <$> seqZ p (Z.of_nat len).

(** ** Requests *)
Inductive payload := Gather (laddr lkey bytes : Z) | Inline (data : list Z).
Inductive body :=
| BNop
| BDump (p : payload)
| BWrite (av : list Z) (raddr rkey : Z) (p : payload)
| BRead (av : list Z) (raddr rkey : Z) (p : payload)
| BAtomic (opcode opmod : Z) (av : list Z) (raddr rkey : Z) (seg1 : list Z) (seg2 : option (list Z)) (p : payload).
Record request := MkRequest { rq_qpn : Z; rq_wqe_idx : Z; rq_fm_ce_se : Z; rq_ds : Z; rq_body : body }.

Definition decode_payload (v : Z -> Z) (p : Z) : payload :=
  let seg := read v p 16 in
  let n := get (data_byte_count c) 4 seg in
  if bool_decide (2 ^ 31 <= n) then Inline (read v (p + 4) (Z.to_nat (n - 2 ^ 31)))
  else Gather (get (data_addr c) 8 seg) (get (data_lkey c) 4 seg) n.
(** Bytes of the WQE up to the end of the payload at [p], in segments *)
Definition payload_ds (p : Z) (q : payload) : Z :=
  match q with Gather _ _ _ => (p + 16) / 16 | Inline d => (p + 4 + Z.of_nat (length d) + 15) / 16 end.

(** A DCI's request names its target by an address vector, of 48 bytes if the
    extension flag (bit 31 of [dqp_dct], the third word) is set and of 16
    otherwise; an RC has none. *)
Definition av_len (ty : qp_type) (v : Z -> Z) : Z :=
  match ty with RC => 0 | DCI => if Z.testbit (get 8 4 (read v 16 16)) 31 then 48 else 16 end.

Definition decode (ty : qp_type) (v : Z -> Z) : option request :=
  let ctrl := read v 0 16 in
  let w0 := get (ctrl_opmod_idx_opcode c) 4 ctrl in
  let w1 := get (ctrl_qpn_ds c) 4 ctrl in
  let opcode := w0 mod 2 ^ 8 in
  let opmod := w0 / 2 ^ 24 in
  let ds := w1 mod 2 ^ 6 in
  let av := read v 16 (Z.to_nat (av_len ty v)) in
  let r := 16 + av_len ty v in
  let seg := read v r 16 in
  let raddr := get (raddr_raddr c) 8 seg in
  let rkey := get (raddr_rkey c) 4 seg in
  let req b := Some (MkRequest (w1 / 2 ^ 8) (w0 / 2 ^ 8 mod 2 ^ 16) (get (ctrl_fm_ce_se c) 1 ctrl) ds b) in
  if bool_decide (opcode = OPCODE_NOP c) then req BNop
  else if bool_decide (opcode = OPCODE_DUMP) then
    let p := decode_payload v 16 in guard (ds = payload_ds 16 p);; req (BDump p)
  else if bool_decide (opcode = OPCODE_RDMA_WRITE c) then
    let p := decode_payload v (r + 16) in guard (ds = payload_ds (r + 16) p);; req (BWrite av raddr rkey p)
  else if bool_decide (opcode = OPCODE_RDMA_READ c) then
    let p := decode_payload v (r + 16) in guard (ds = payload_ds (r + 16) p);; req (BRead av raddr rkey p)
  else
    let two := bool_decide (opcode = OPCODE_ATOMIC_MASKED_CS c) && bool_decide (opmod = 9) in
    let q := r + (if two then 48 else 32) in
    let p := decode_payload v q in
    guard (opcode ∈ opcodes c);;
    guard (ds = payload_ds q p);;
    req (BAtomic opcode opmod av raddr rkey (read v (r + 16) 16) (if two then Some (read v (r + 32) 16) else None) p).

(** The blocks of the ring a request occupies *)
Definition request_blocks (r : request) : Z := (rq_ds r + 3) / 4.
End Decode.

(** The values of rdma-core's header, at which the hypotheses hold *)
Definition mlx5 : mlx5dv := MkMlx5dv 0 4 11 0 8 12 0 4 8 0 8 0 8 0x10 0x11 0x12 0x14 0x15 8 (2 ^ 31).
Lemma mlx5_ok : mlx5dv_ok mlx5.
Proof.
  split; cbn; unfold apart; try lia.
  split; [by apply (bool_decide_unpack (NoDup (opcodes mlx5)))|by apply (bool_decide_unpack (Forall _ (opcodes mlx5)))].
Qed.
End IbgdaNic.
