(* ===== verification/IbgdaWqeSpec.v ===== *)
(** * Work-queue entries: what is written is what the NIC reads

    For each writer of [IbgdaWqe]: decoding the ring at the index it was given
    yields the request it was asked for, the request takes exactly the blocks
    its caller reserved, and no other block of the ring changes. *)
From stdpp Require Import base gmap list option.
From Stdlib Require Import ZArith Lia.
From S2P Require Import Prelude IbgdaQueue IbgdaQp IbgdaWqe IbgdaNic.

Module IbgdaWqeSpec.
Import IbgdaQueue IbgdaQp IbgdaWqe IbgdaNic.

Lemma lookup_store_bytes a bs m k : store_bytes a bs m !! k =
  if bool_decide (a <= k < a + Z.of_nat (length bs)) then bs !! Z.to_nat (k - a) else m !! k.
Proof.
  revert a m. induction bs as [|b bs IH]; intros a m; cbn [store_bytes length].
  { by rewrite bool_decide_false by lia. }
  rewrite IH, Nat2Z.inj_succ. destruct (decide (k = a)) as [->|].
  - rewrite bool_decide_false, bool_decide_true, Z.sub_diag by lia. by rewrite lookup_insert_eq.
  - rewrite lookup_insert_ne by done. repeat case_bool_decide; try lia; [|done].
    replace (Z.to_nat (k - a)) with (S (Z.to_nat (k - (a + 1)))) by lia. done.
Qed.

Section Ring.
Context (base nwqes idx : Z) (Hn : depth_ok nwqes) (Hi : 0 <= idx).

(** [wqe_ptrs[j] = ibgda_get_wqe_ptr(qp, my_wqe_idx + j)] *)
Definition wqe_ptr (j : Z) : Z := base + 64 * ibgda_get_wqe_ptr nwqes (idx + j).
Definition ptrs (n : Z) : list Z := wqe_ptr <$> seqZ 0 n.
Local Abbreviation vw := (view base nwqes idx).

Lemma arr_get_ptrs n j : 0 <= j < n -> arr_get (ptrs n) j = Ret (wqe_ptr j).
Proof.
  intros Hj. unfold arr_get, ptrs. rewrite bool_decide_false by lia.
  rewrite list_lookup_fmap, lookup_seqZ_lt by lia. cbn. do 2 f_equal. lia.
Qed.

(** A store into block [j] is a store into the WQE. *)
Lemma view_store j off bs m k : 0 <= j < nwqes -> 0 <= off -> off + Z.of_nat (length bs) <= 64 -> 0 <= k < 64 * nwqes ->
  vw (store_bytes (wqe_ptr j + off) bs m) k =
  if bool_decide (64 * j + off <= k < 64 * j + off + Z.of_nat (length bs)) then default 0 (bs !! Z.to_nat (k - (64 * j + off)))
  else vw m k.
Proof.
  intros Hj Ho Hl Hk. unfold view, wqe_ptr. rewrite get_wqe_ptr_mod, lookup_store_bytes by (done || lia).
  pose proof (Z.mod_pos_bound k 64 ltac:(lia)). pose proof (Z.div_mod k 64 ltac:(lia)).
  assert (0 <= k / 64 < nwqes) by (split; [apply Z.div_pos; lia|apply Z.div_lt_upper_bound; lia]).
  destruct (decide (k / 64 = j)) as [<-|Hne].
  - repeat case_bool_decide; first [lia | done | do 2 f_equal; lia].
  - assert ((idx + k / 64) mod nwqes <> (idx + j) mod nwqes) by (intros HE; apply mod_eq_close in HE; lia).
    repeat case_bool_decide; (done || lia).
Qed.

Lemma read_same j off bs m : 0 <= j < nwqes -> 0 <= off -> off + Z.of_nat (length bs) <= 64 ->
  read (vw (store_bytes (wqe_ptr j + off) bs m)) (64 * j + off) (length bs) = bs.
Proof.
  intros Hj Ho Hl. unfold read. apply list_eq_same_length with (length bs).
  - done.
  - by rewrite length_fmap, length_seqZ, Nat2Z.id.
  - intros i x y Hx Hxs Hys. rewrite list_lookup_fmap, lookup_seqZ_lt in Hxs by lia. cbn in Hxs. injection Hxs as <-.
    rewrite view_store, bool_decide_true by lia. replace (Z.to_nat _) with i by lia. by rewrite Hys.
Qed.

Lemma read_other j off bs m p len : 0 <= j < nwqes -> 0 <= off -> off + Z.of_nat (length bs) <= 64 ->
  0 <= p -> p + Z.of_nat len <= 64 * nwqes -> p + Z.of_nat len <= 64 * j + off \/ 64 * j + off + Z.of_nat (length bs) <= p ->
  read (vw (store_bytes (wqe_ptr j + off) bs m)) p len = read (vw m) p len.
Proof.
  intros Hj Ho Hl Hp Hb Hd. unfold read. apply list_fmap_ext. intros i x Hx. apply lookup_seqZ in Hx as [-> Hx].
  rewrite view_store, bool_decide_false by lia. done.
Qed.
End Ring.

(** ** Reading parts *)
Lemma length_read v p len : length (read v p len) = len.
Proof. unfold read. by rewrite length_fmap, length_seqZ, Nat2Z.id. Qed.
Lemma take_drop_read v p len off w : (off + w <= len)%nat -> take w (drop off (read v p len)) = read v (p + Z.of_nat off) w.
Proof.
  intros H. apply list_eq_same_length with w; [by rewrite length_read|rewrite length_take, length_drop, length_read; lia|].
  intros i x y Hi. rewrite lookup_take_lt, lookup_drop by done. unfold read. rewrite !list_lookup_fmap, !lookup_seqZ_lt by lia.
  cbn. intros [= <-] [= <-]. f_equal. lia.
Qed.
Lemma get_read v p len off w : (off + w <= len)%nat -> get off w (read v p len) = be_val (read v (p + Z.of_nat off) w).
Proof. intros H. unfold get. by rewrite take_drop_read. Qed.

(** ** Segments *)
Lemma lor_shl x k o : 0 <= k -> 0 <= o < 2 ^ k -> Z.lor (Z.shiftl x k) o = x * 2 ^ k + o.
Proof.
  intros Hk Ho. assert (Z.land (Z.shiftl x k) o = 0) as HL.
  { apply Z.bits_inj'. intros n Hn. rewrite Z.land_spec, Z.bits_0. destruct (Z.lt_ge_cases n k).
    - rewrite Z.shiftl_spec_low by lia; done.
    - destruct (decide (o = 0)) as [->|]; [by rewrite Z.bits_0, andb_false_r|].
      rewrite (Z.bits_above_log2 o n), andb_false_r; [done|lia|]. apply Z.log2_lt_pow2; [lia|].
      eapply Z.lt_le_trans; [apply Ho|]. apply Z.pow_le_mono_r; lia. }
  rewrite <- Z.shiftl_mul_pow2 by lia. pose proof (Z.add_lor_land (Z.shiftl x k) o) as HA. rewrite HL in HA. lia.
Qed.

Section Segments.
Context (c : mlx5dv) (Hc : mlx5dv_ok c).

Lemma length_ctrl_seg a b f : length (ctrl_seg c a b f) = 16%nat.
Proof. destruct (mk_ctrl c Hc) as [(? & ? & ?) _]. unfold ctrl_seg. by repeat rewrite length_put. Qed.
Lemma length_raddr_seg a b : length (raddr_seg c a b) = 16%nat.
Proof. destruct (mk_raddr c Hc) as [(? & ? & ?) _]. unfold raddr_seg. by repeat rewrite length_put. Qed.
Lemma length_data_seg a b d : length (data_seg c a b d) = 16%nat.
Proof. destruct (mk_data c Hc) as [(? & ? & ?) _]. unfold data_seg. repeat rewrite length_put; cbn; lia. Qed.

Ltac field := repeat (rewrite get_put_other; [|by repeat rewrite length_put|unfold apart in *; lia]);
  first [rewrite get_put_be32 | rewrite get_put_be64 | rewrite get_put_byte | rewrite get_put_raw32];
  [try done|repeat rewrite length_put; cbn; lia].

Lemma ctrl_seg_fields a b f : get (ctrl_opmod_idx_opcode c) 4 (ctrl_seg c (HTOBE32 a) (HTOBE32 b) f) = u32 a /\
  get (ctrl_qpn_ds c) 4 (ctrl_seg c (HTOBE32 a) (HTOBE32 b) f) = u32 b /\
  get (ctrl_fm_ce_se c) 1 (ctrl_seg c (HTOBE32 a) (HTOBE32 b) f) = u8 f.
Proof. destruct (mk_ctrl c Hc) as [(? & ? & ?) (? & ? & ?)]. unfold ctrl_seg. split_and!; field. Qed.
Lemma raddr_seg_fields a k : get (raddr_raddr c) 8 (raddr_seg c a k) = u64 a /\ get (raddr_rkey c) 4 (raddr_seg c a k) = key_of k.
Proof. destruct (mk_raddr c Hc) as [(? & ? & ?) (? & ? & ?)]. unfold raddr_seg. split_and!; field. Qed.
Lemma data_seg_fields n k a : get (data_byte_count c) 4 (data_seg c n k a) = u32 n /\
  get (data_lkey c) 4 (data_seg c n k a) = key_of k /\ get (data_addr c) 8 (data_seg c n k a) = u64 a.
Proof.
  destruct (mk_data c Hc) as [(HB & ? & ?) (? & ? & ?)]. assert (data_byte_count c + 4 <= length zeros)%nat by (cbn; lia).
  unfold data_seg. split_and!; field.
Qed.

(** ** Control segments *)
Lemma ctrl_word0 opmod i op : 0 <= opmod < 2 ^ 8 -> 0 <= op < 2 ^ 8 -> let w := opmod * 2 ^ 24 + u16 i * 2 ^ 8 + op in
  u32 w mod 2 ^ 8 = op /\ u32 w / 2 ^ 24 = opmod /\ u32 w / 2 ^ 8 mod 2 ^ 16 = u16 i.
Proof.
  intros Hm Ho w. pose proof (Z.mod_pos_bound i (2 ^ 16) ltac:(lia)). unfold w, u32, u16 in *.
  rewrite !(Z.mod_small _ (2 ^ 32)) by lia. split_and!.
  - symmetry. apply Z.mod_unique with (opmod * 2 ^ 16 + i mod 2 ^ 16); lia.
  - symmetry. apply Z.div_unique with (i mod 2 ^ 16 * 2 ^ 8 + op); lia.
  - replace (_ / 2 ^ 8) with (opmod * 2 ^ 16 + i mod 2 ^ 16) by (apply Z.div_unique with op; lia).
    symmetry. apply Z.mod_unique with opmod; lia.
Qed.
Lemma ctrl_word1 qpn ds : 0 <= qpn < 2 ^ 24 -> 0 <= ds < 2 ^ 6 -> let w := u32 (Z.lor (Z.shiftl qpn 8) ds) in
  u32 w mod 2 ^ 6 = ds /\ u32 w / 2 ^ 8 = qpn.
Proof.
  intros Hq Hd w. unfold w, u32. rewrite (lor_shl qpn 8 ds) by lia.
  assert (0 <= qpn * 2 ^ 8 + ds < 2 ^ 32) by lia. rewrite !(Z.mod_small (qpn * 2 ^ 8 + ds) (2 ^ 32)) by lia. split.
  - symmetry. apply Z.mod_unique with (qpn * 4); lia.
  - symmetry. apply Z.div_unique with ds; lia.
Qed.

(** What [decode] makes of a control segment *)
Definition head_is (v : Z -> Z) (opmod op qpn i ds fm : Z) : Prop :=
  exists w0, w0 = opmod * 2 ^ 24 + u16 i * 2 ^ 8 + op /\
    read v 0 16 = ctrl_seg c (HTOBE32 w0) (HTOBE32 (u32 (Z.lor (Z.shiftl qpn 8) ds))) fm /\
    0 <= opmod < 2 ^ 8 /\ 0 <= op < 2 ^ 8 /\ 0 <= qpn < 2 ^ 24 /\ 0 <= ds < 2 ^ 6.

Ltac decode_head H := let w0 := fresh "w0" in let HR := fresh "HR" in
  destruct H as (w0 & -> & HR & ? & ? & ? & ?); unfold decode; rewrite HR;
  match goal with |- context [ctrl_seg c (HTOBE32 ?a) (HTOBE32 ?b) ?f] =>
    destruct (ctrl_seg_fields a b f) as (-> & -> & ->) end;
  match goal with |- context [u32 (?m * 2 ^ 24 + u16 ?i * 2 ^ 8 + ?o)] =>
    destruct (ctrl_word0 m i o) as (-> & -> & ->); [done..|] end;
  match goal with |- context [u32 (u32 (Z.lor (Z.shiftl ?q 8) ?d))] =>
    destruct (ctrl_word1 q d) as (-> & ->); [done..|] end.

Lemma opcode_facts : OPCODE_NOP c <> OPCODE_DUMP /\ OPCODE_RDMA_WRITE c <> OPCODE_NOP c /\ OPCODE_RDMA_WRITE c <> OPCODE_DUMP /\
  OPCODE_RDMA_READ c <> OPCODE_NOP c /\ OPCODE_RDMA_READ c <> OPCODE_DUMP /\ OPCODE_RDMA_READ c <> OPCODE_RDMA_WRITE c.
Proof.
  destruct (mk_opcodes c Hc) as [HN _]. unfold opcodes in HN. rewrite !list.NoDup_cons, !not_elem_of_cons in HN.
  destruct HN as ((? & ? & _ & _ & _ & _ & ? & _) & (? & _ & _ & _ & _ & ? & _) & (_ & _ & _ & _ & ? & _) & _). split_and!; congruence.
Qed.
Lemma opcode_bound o : o ∈ opcodes c -> 0 <= o < 2 ^ 8.
Proof. destruct (mk_opcodes c Hc) as [_ HF]. rewrite Forall_forall in HF. intros HO. apply list_elem_of_In in HO. by apply HF. Qed.

Lemma decode_nop ty v opmod qpn i ds fm : head_is v opmod (OPCODE_NOP c) qpn i ds fm ->
  decode c ty v = Some (MkRequest qpn (u16 i) (u8 fm) ds BNop).
Proof. intros H. decode_head H. by rewrite bool_decide_true. Qed.
Lemma decode_dump ty v qpn i ds fm p : head_is v 0 OPCODE_DUMP qpn i ds fm -> decode_payload c v 16 = p -> ds = payload_ds 16 p ->
  decode c ty v = Some (MkRequest qpn (u16 i) (u8 fm) ds (BDump p)).
Proof.
  intros H <- HD. decode_head H. destruct opcode_facts as (? & ? & ? & ? & ? & ?).
  rewrite bool_decide_false, bool_decide_true by congruence. by rewrite option_guard_True.
Qed.
Lemma decode_rdma (wr : bool) ty v qpn i ds fm a raddr rkey p :
  head_is v 0 (if wr then OPCODE_RDMA_WRITE c else OPCODE_RDMA_READ c) qpn i ds fm ->
  av_len ty v = a -> read v (16 + a) 16 = raddr_seg c raddr rkey -> decode_payload c v (16 + a + 16) = p ->
  ds = payload_ds (16 + a + 16) p ->
  decode c ty v = Some (MkRequest qpn (u16 i) (u8 fm) ds
    ((if wr then BWrite else BRead) (read v 16 (Z.to_nat a)) (u64 raddr) (key_of rkey) p)).
Proof.
  intros H <- HR <- HD. decode_head H. rewrite HR. destruct (raddr_seg_fields raddr rkey) as [-> ->].
  destruct opcode_facts as (? & ? & ? & ? & ? & ?).
  destruct wr; repeat first [rewrite bool_decide_true by congruence | rewrite bool_decide_false by congruence];
    by rewrite option_guard_True.
Qed.
End Segments.

(** ** Writing at an offset of the WQE *)
Ltac eval_block := repeat match goal with
  | |- context [?a / 64] => let v := eval vm_compute in (a / 64) in change (a / 64) with v
  | |- context [?a mod 64] => let v := eval vm_compute in (a mod 64) in change (a mod 64) with v
  end.

Section Wqe.
Context (c : mlx5dv) (Hc : mlx5dv_ok c) (base nwqes idx : Z) (Hn : depth_ok nwqes) (Hi : 0 <= idx).
Local Abbreviation vw := (view base nwqes idx).

Definition wst (p : Z) (bs : list Z) (m : mem) : mem := store_bytes (wqe_ptr base nwqes idx (p / 64) + p mod 64) bs m.
Definition fits (p : Z) (bs : list Z) : Prop := 0 <= p /\ p / 64 < nwqes /\ p mod 64 + Z.of_nat (length bs) <= 64.

Lemma wst_at q p bs m : q = wqe_ptr base nwqes idx (p / 64) + p mod 64 -> store_bytes q bs m = wst p bs m.
Proof. by intros ->. Qed.

Lemma read_wst_same p bs m w : fits p bs -> length bs = w -> read (vw (wst p bs m)) p w = bs.
Proof.
  intros (H1 & H2 & H3) <-. pose proof (Z.mod_pos_bound p 64 ltac:(lia)). pose proof (Z.div_pos p 64 H1 ltac:(lia)).
  pose proof (Z.div_mod p 64 ltac:(lia)) as HD.
  pose proof (read_same base nwqes idx Hn Hi (p / 64) (p mod 64) bs m ltac:(lia) ltac:(lia) H3) as HR. by rewrite <- HD in HR.
Qed.
Lemma read_wst_other p bs m q w : fits p bs -> 0 <= q -> q + Z.of_nat w <= 64 * nwqes ->
  q + Z.of_nat w <= p \/ p + Z.of_nat (length bs) <= q -> read (vw (wst p bs m)) q w = read (vw m) q w.
Proof.
  intros (H1 & H2 & H3) Hq Hw Hd. pose proof (Z.mod_pos_bound p 64 ltac:(lia)). pose proof (Z.div_pos p 64 H1 ltac:(lia)).
  pose proof (Z.div_mod p 64 ltac:(lia)). apply read_other; try lia; done.
Qed.
Lemma view_wst_other p bs m k : fits p bs -> 0 <= k < 64 * nwqes -> k < p \/ p + Z.of_nat (length bs) <= k ->
  vw (wst p bs m) k = vw m k.
Proof.
  intros HF Hk Hd. pose proof (read_wst_other p bs m k 1 HF ltac:(lia) ltac:(lia) ltac:(lia)) as HR.
  unfold read in HR. cbn in HR. injection HR as HR. by rewrite Z.add_0_l in HR.
Qed.

Lemma fits_seg p bs k : 0 <= p -> p mod 64 + Z.of_nat (length bs) <= 64 -> p < 64 * k -> k <= nwqes -> fits p bs.
Proof. intros H1 H2 H3 H4. split_and!; [done| |done]. assert (p / 64 < k) by (apply Z.div_lt_upper_bound; lia). lia. Qed.

(** The payload of an RDMA operation or an atomic *)
Lemma decode_gather v p n lkey laddr : 0 <= n < 2 ^ 31 -> read v p 16 = data_seg c n lkey laddr ->
  decode_payload c v p = Gather (u64 laddr) (key_of lkey) n.
Proof.
  intros Hl HR. unfold decode_payload. rewrite HR. destruct (data_seg_fields c Hc n lkey laddr) as (-> & -> & ->).
  unfold u32. rewrite Z.mod_small by lia. by rewrite bool_decide_false by lia.
Qed.

(** What a DCI's entry of the DCT table must be: 48 bytes, with the extension
    flag set exactly where the device has no short address vectors. *)
Definition av_ok (half : bool) (av : list Z) : Prop := length av = 48%nat /\ Z.testbit (get 8 4 av) 31 = negb half.
Definition av_size (half : bool) (ty : qp_type) : Z := match ty with RC => 0 | DCI => if half then 16 else 48 end.
Definition target_av (half : bool) (ty : qp_type) (av : list Z) : list Z := take (Z.to_nat (av_size half ty)) av.
Definition dct_ok (half : bool) (ty : qp_type) (t : dct_tables) (dct_idx : Z) (av : list Z) : Prop :=
  ty = DCI -> dct_av t dct_idx = Ret av /\ av_ok half av.

Lemma length_target_av half ty t d av : dct_ok half ty t d av -> length (target_av half ty av) = Z.to_nat (av_size half ty).
Proof.
  intros H. unfold target_av, av_size. destruct ty; [|done]. destruct (H eq_refl) as [_ [HL _]]. rewrite length_take, HL. by destruct half.
Qed.
Lemma av_len_target half ty t d av v : dct_ok half ty t d av ->
  read v 16 (Z.to_nat (av_size half ty)) = target_av half ty av -> av_len ty v = av_size half ty.
Proof.
  intros H HR. unfold av_len, av_size in *. destruct ty; [|done]. destruct (H eq_refl) as [_ [HL HB]].
  assert (get 8 4 (read v 16 16) = get 8 4 av) as ->.
  { rewrite get_read by lia. unfold get. f_equal. unfold target_av, av_size in HR.
    transitivity (take 4 (drop 8 (take (Z.to_nat (if half then 16 else 48)) av))).
    - rewrite <- HR. symmetry. apply take_drop_read. destruct half; cbn; lia.
    - rewrite !take_drop_commute, take_take. by destruct half. }
  rewrite HB. by destruct half.
Qed.

Lemma store_av_ok half ty t d av m : dct_ok half ty t d av ->
  store_av t d (av_size half ty) (wqe_ptr base nwqes idx 0 + 16) m = Ret (wst 16 (target_av half ty av) m).
Proof.
  intros H. unfold store_av, target_av, av_size. destruct ty; [|done]. destruct (H eq_refl) as [-> [HL _]].
  destruct half; cbn [bool_decide]; rewrite bool_decide_true by lia; rewrite outcome_bind_ret;
    f_equal; by apply wst_at.
Qed.

(** ** RDMA writes and reads *)
Lemma rdma_wqes_pos half ty : 1 <= rdma_wqes_per_cmd half ty.
Proof. by destruct ty, half. Qed.
Lemma rdma_layout_ok half ty n : rdma_wqes_per_cmd half ty <= n -> rdma_layout half ty (ptrs base nwqes idx n) =
  Ret (av_size half ty / 16 + 3, av_size half ty, wqe_ptr base nwqes idx ((16 + av_size half ty) / 64) + (16 + av_size half ty) mod 64).
Proof.
  intros H. unfold rdma_layout. rewrite (arr_get_ptrs _ _ _ n 0), outcome_bind_ret by (pose proof (rdma_wqes_pos half ty); lia).
  destruct ty, half; cbn [av_size]; cbn [rdma_wqes_per_cmd] in H; [|rewrite arr_get_ptrs, outcome_bind_ret by lia|..];
    (match goal with |- Ret (?a, ?b, ?x) = Ret (?a', ?b', ?y) => replace y with x; [done|] end; eval_block; lia).
Qed.

Definition ctrl_word (op : Z) : Z := Z.lor (Z.shiftl (u16 idx) 8) op.
Lemma write_rdma_stores op half t ty qpn d av laddr lkey raddr rkey bytes fm n m :
  rdma_wqes_per_cmd half ty <= n -> dct_ok half ty t d av ->
  write_rdma c op half t ty qpn d laddr lkey raddr rkey bytes idx fm (ptrs base nwqes idx n) m =
  Ret (wst (16 + av_size half ty + 16) (data_seg c bytes lkey laddr) (wst (16 + av_size half ty) (raddr_seg c raddr rkey)
    (wst 16 (target_av half ty av)
      (wst 0 (ctrl_seg c (HTOBE32 (ctrl_word op)) (HTOBE32 (u32 (Z.lor (Z.shiftl qpn 8) (av_size half ty / 16 + 3)))) fm) m)))).
Proof.
  intros H HD. unfold write_rdma. rewrite rdma_layout_ok, outcome_bind_ret by done.
  rewrite arr_get_ptrs, outcome_bind_ret by (pose proof (rdma_wqes_pos half ty); lia).
  rewrite (store_av_ok half ty t d av), outcome_bind_ret by done. do 2 f_equal. unfold store_seg.
  rewrite (wst_at _ 0 _ m), (wst_at _ (16 + av_size half ty) (raddr_seg c raddr rkey)) by (eval_block; lia).
  apply wst_at. destruct ty, half; cbn [av_size]; eval_block; lia.
Qed.

(** The control segment as the writers build it is the head [decode] sees. *)
Lemma head_of v op qpn ds fm : read v 0 16 = ctrl_seg c (HTOBE32 (ctrl_word op)) (HTOBE32 (u32 (Z.lor (Z.shiftl qpn 8) ds))) fm ->
  op ∈ opcodes c -> 0 <= qpn < 2 ^ 24 -> 0 <= ds < 2 ^ 6 -> head_is c v 0 op qpn idx ds fm.
Proof.
  intros HR HO Hq Hd. pose proof (opcode_bound c Hc op HO). exists (ctrl_word op). split_and!; try done || lia.
  unfold ctrl_word. rewrite lor_shl by lia. lia.
Qed.

(** An RDMA operation from its parts *)
Lemma decode_parts (wr : bool) half t ty d av v qpn ds fm raddr rkey p : dct_ok half ty t d av -> 0 <= qpn < 2 ^ 24 -> 0 <= ds < 2 ^ 6 ->
  read v 0 16 = ctrl_seg c (HTOBE32 (ctrl_word (if wr then OPCODE_RDMA_WRITE c else OPCODE_RDMA_READ c)))
    (HTOBE32 (u32 (Z.lor (Z.shiftl qpn 8) ds))) fm ->
  read v 16 (Z.to_nat (av_size half ty)) = target_av half ty av ->
  read v (16 + av_size half ty) 16 = raddr_seg c raddr rkey ->
  decode_payload c v (16 + av_size half ty + 16) = p -> ds = payload_ds (16 + av_size half ty + 16) p ->
  decode c ty v = Some (MkRequest qpn (u16 idx) (u8 fm) ds
    ((if wr then BWrite else BRead) (target_av half ty av) (u64 raddr) (key_of rkey) p)).
Proof.
  intros HD Hq Hd HC HA HR HP HS. rewrite <- HA. pose proof (av_len_target _ _ _ _ _ _ HD HA) as HL.
  apply decode_rdma; try done. apply head_of; try done. unfold opcodes. rewrite !elem_of_cons. destruct wr; tauto.
Qed.

(** An inline payload *)
Lemma decode_inline v p n data : 0 <= n < 2 ^ 31 -> read v p 4 = inl_seg c n -> read v (p + 4) (Z.to_nat n) = data ->
  decode_payload c v p = Inline data.
Proof.
  intros Hl HR HD. unfold decode_payload. destruct (mk_data c Hc) as [(-> & _ & _) _]. rewrite get_read by lia.
  rewrite Z.add_0_r, HR. destruct (mk_flags c Hc) as [_ HF]. unfold inl_seg. rewrite HF, bswap32_bytes, be_val_rev_le.
  assert (Z.lor n (2 ^ 31) = 2 ^ 31 + n) as ->.
  { rewrite Z.lor_comm. change (2 ^ 31) with (Z.shiftl 1 31) at 1. rewrite lor_shl by lia. lia. }
  rewrite Z.mod_small by (change (256 ^ Z.of_nat 4) with (2 ^ 32); lia). rewrite bool_decide_true by lia.
  replace (2 ^ 31 + n - 2 ^ 31) with n by lia. by rewrite HD.
Qed.

Lemma write_inl_stores half t ty qpn d av val raddr rkey bytes fm n m :
  rdma_wqes_per_cmd half ty <= n -> dct_ok half ty t d av -> bytes <= 12 ->
  ibgda_write_rdma_write_inl_wqe c half t ty qpn d val raddr rkey bytes idx fm (ptrs base nwqes idx n) m =
  Ret (wst (16 + av_size half ty + 20) (take (Z.to_nat bytes) val) (wst (16 + av_size half ty + 16) (inl_seg c bytes)
    (wst (16 + av_size half ty) (raddr_seg c raddr rkey) (wst 16 (target_av half ty av)
      (wst 0 (ctrl_seg c (HTOBE32 (ctrl_word (OPCODE_RDMA_WRITE c)))
                (HTOBE32 (u32 (Z.lor (Z.shiftl qpn 8) (av_size half ty / 16 + 3)))) fm) m))))).
Proof.
  intros H HD Hb. unfold ibgda_write_rdma_write_inl_wqe. rewrite (bool_decide_true _ Hb). cbn [cassert].
  rewrite outcome_bind_ret, rdma_layout_ok, outcome_bind_ret by done.
  rewrite arr_get_ptrs, outcome_bind_ret by (pose proof (rdma_wqes_pos half ty); lia).
  rewrite (store_av_ok half ty t d av), outcome_bind_ret by done. do 2 f_equal. unfold store_seg.
  rewrite (wst_at _ 0 _ m), (wst_at _ (16 + av_size half ty) (raddr_seg c raddr rkey)) by (eval_block; lia).
  rewrite (wst_at _ (16 + av_size half ty + 16) (inl_seg c bytes)) by (destruct ty, half; cbn [av_size]; eval_block; lia).
  apply wst_at. destruct ty, half; cbn [av_size]; eval_block; lia.
Qed.
End Wqe.

Ltac seg_size Hc := unfold fits; rewrite ?length_ctrl_seg, ?length_raddr_seg, ?length_data_seg, ?length_le_bytes by exact Hc;
  repeat match goal with H : length ?l = _ |- context [length ?l] => rewrite H end; eval_block; lia.
Ltac read_back Hc Hn := repeat first
  [ rewrite (read_wst_same _ _ _ Hn) by (first [assumption | solve [seg_size Hc]])
  | rewrite (read_wst_other _ _ _ Hn) by (first [assumption | solve [seg_size Hc]]) ].
Ltac untouched Hc Hn := repeat rewrite (view_wst_other _ _ _ Hn) by (first [assumption | solve [seg_size Hc]]).

(** The WQE of an RDMA write or read, as the NIC decodes it, is the operation
    asked for: on the queue pair, with the target's address vector where the
    queue pair is a DCI, the remote address and key, and the local address, key
    and size; it takes exactly the blocks a caller reserves for it
    ([rdma_wqes_per_cmd]), and writing it changes no other block of the ring. *)
Lemma rdma_wqe_ok (wr : bool) c base nwqes idx half t ty qpn d av laddr lkey raddr rkey bytes fm N m :
  mlx5dv_ok c -> depth_ok nwqes -> 2 <= nwqes -> 0 <= idx -> dct_ok half ty t d av -> 0 <= qpn < 2 ^ 24 -> 0 <= bytes < 2 ^ 31 ->
  rdma_wqes_per_cmd half ty <= N ->
  let n := rdma_wqes_per_cmd half ty in
  let write := if wr then ibgda_write_rdma_write_wqe c else ibgda_write_rdma_read_wqe c in
  exists m' r, write half t ty qpn d laddr lkey raddr rkey bytes idx fm (ptrs base nwqes idx N) m = Ret m' /\
    decode c ty (view base nwqes idx m') = Some r /\
    rq_qpn r = qpn /\ rq_wqe_idx r = u16 idx /\ rq_fm_ce_se r = u8 fm /\
    rq_body r = (if wr then BWrite else BRead) (target_av half ty av) (u64 raddr) (key_of rkey) (Gather (u64 laddr) (key_of lkey) bytes) /\
    request_blocks r = n /\
    (forall k, 64 * n <= k < 64 * nwqes -> view base nwqes idx m' k = view base nwqes idx m k).
Proof.
  intros Hc Hn H2 Hi HD Hq Hb HN n write. set (op := if wr then OPCODE_RDMA_WRITE c else OPCODE_RDMA_READ c).
  assert (write = write_rdma c op) as -> by (by destruct wr). pose proof (length_target_av _ _ _ _ _ HD) as HL.
  rewrite (write_rdma_stores c base nwqes idx op half t ty qpn d av) by done. set (ds := av_size half ty / 16 + 3).
  assert (0 <= ds < 2 ^ 6) by (destruct ty, half; split; vm_compute; congruence).
  set (m' := wst _ _ _ _ _ _). eexists m', _. split; [done|]. split.
  - eapply (decode_parts c Hc idx wr half t ty d av) with (ds := ds) (p := Gather _ _ _);
      try done; [..|apply (decode_gather c Hc)|by destruct ty, half];
      try done; unfold m'; destruct ty, half; cbn [av_size] in *; by read_back Hc Hn.
  - cbn [rq_qpn rq_wqe_idx rq_fm_ce_se rq_ds rq_body]. split_and!; try done; [by destruct ty, half|].
    intros k Hk. unfold m', n in *. destruct ty, half; cbn [av_size rdma_wqes_per_cmd] in *; by untouched Hc Hn.
Qed.

Definition ex_av : list Z := replicate 8 7 ++ [128] ++ replicate 39 5.
Definition ex_dcts : dct_tables := MkDctTables [ex_av] [].
Lemma ex_dct_ok : dct_ok false DCI ex_dcts 0 ex_av.
Proof. intros _. by vm_compute. Qed.
Lemma depth4_ok : depth_ok 4.
Proof. split; [lia|by exists 2]. Qed.

(** A value of up to 12 bytes is carried in the WQE itself: the NIC decodes an
    RDMA write of exactly those bytes. *)
Lemma inline_wqe_ok c base nwqes idx half t ty qpn d av val raddr rkey fm N m :
  mlx5dv_ok c -> depth_ok nwqes -> 2 <= nwqes -> 0 <= idx -> dct_ok half ty t d av -> 0 <= qpn < 2 ^ 24 -> (1 <= length val <= 12)%nat ->
  rdma_wqes_per_cmd half ty <= N ->
  let n := rdma_wqes_per_cmd half ty in
  exists m' r, ibgda_write_rdma_write_inl_wqe c half t ty qpn d val raddr rkey (Z.of_nat (length val)) idx fm (ptrs base nwqes idx N) m = Ret m' /\
    decode c ty (view base nwqes idx m') = Some r /\
    rq_qpn r = qpn /\ rq_wqe_idx r = u16 idx /\ rq_fm_ce_se r = u8 fm /\
    rq_body r = BWrite (target_av half ty av) (u64 raddr) (key_of rkey) (Inline val) /\
    request_blocks r = n /\
    (forall k, 64 * n <= k < 64 * nwqes -> view base nwqes idx m' k = view base nwqes idx m k).
Proof.
  intros Hc Hn H2 Hi HD Hq Hb HN n. pose proof (length_target_av _ _ _ _ _ HD) as HL.
  rewrite (write_inl_stores c base nwqes idx half t ty qpn d av) by (done || lia). rewrite Nat2Z.id, firstn_all. set (ds := av_size half ty / 16 + 3).
  assert (0 <= ds < 2 ^ 6) by (destruct ty, half; split; vm_compute; congruence).
  assert (length (inl_seg c (Z.of_nat (length val))) = 4%nat) as HI by done.
  set (m' := wst _ _ _ _ _ _). eexists m', _. split; [done|]. split.
  - eapply (decode_parts c Hc idx true half t ty d av) with (ds := ds) (p := Inline val);
      try done; [..|apply (decode_inline c Hc) with (n := Z.of_nat (length val))|].
    1-6: try (unfold m'; destruct ty, half; cbn [av_size] in *; by read_back Hc Hn); lia.
    unfold ds, payload_ds. assert (av_size half ty / 16 * 16 = av_size half ty) by (by destruct ty, half).
    replace (16 + _ + 16 + 4 + _ + 15) with (Z.of_nat (length val) + 3 + (av_size half ty / 16 + 3) * 16)
      by lia.
    rewrite Z.div_add, (Z.div_small (_ + 3)) by lia. lia.
  - cbn [rq_qpn rq_wqe_idx rq_fm_ce_se rq_ds rq_body]. split_and!; try done; [by destruct ty, half|].
    intros k Hk. unfold m', n in *. destruct ty, half; cbn [av_size rdma_wqes_per_cmd] in *; by untouched Hc Hn.
Qed.

(** The two commands that end a group *)
Lemma nop_wqe_ok c base nwqes idx ty qpn N m : mlx5dv_ok c -> depth_ok nwqes -> 2 <= nwqes -> 0 <= idx -> 0 <= qpn < 2 ^ 24 -> 1 <= N ->
  exists m' r, ibgda_write_nop_wqe c qpn idx (ptrs base nwqes idx N) m = Ret m' /\ decode c ty (view base nwqes idx m') = Some r /\
    rq_qpn r = qpn /\ rq_wqe_idx r = u16 idx /\ rq_fm_ce_se r = u8 (WQE_CTRL_CQ_UPDATE c) /\ rq_body r = BNop /\ request_blocks r = 1 /\
    (forall k, 64 <= k < 64 * nwqes -> view base nwqes idx m' k = view base nwqes idx m k).
Proof.
  intros Hc Hn H2 Hi Hq HN. unfold ibgda_write_nop_wqe. rewrite arr_get_ptrs, outcome_bind_ret by lia. unfold store_seg.
  rewrite (wst_at base nwqes idx _ 0) by (eval_block; lia). eexists _, _. split; [done|]. split.
  - apply (decode_nop c Hc) with (opmod := 0) (ds := 2) (fm := WQE_CTRL_CQ_UPDATE c) (qpn := qpn). apply (head_of c Hc); try lia.
    + by read_back Hc Hn.
    + unfold opcodes. rewrite !elem_of_cons. tauto.
  - cbn [rq_qpn rq_wqe_idx rq_fm_ce_se rq_ds rq_body]. split_and!; try done. intros k Hk. by untouched Hc Hn.
Qed.
Lemma dump_wqe_ok c base nwqes idx ty qpn laddr lkey bytes fm N m : mlx5dv_ok c -> depth_ok nwqes -> 2 <= nwqes -> 0 <= idx -> 0 <= qpn < 2 ^ 24 ->
  0 <= bytes < 2 ^ 31 -> 1 <= N ->
  exists m' r, ibgda_write_dump_wqe c qpn laddr lkey bytes idx fm (ptrs base nwqes idx N) m = Ret m' /\ decode c ty (view base nwqes idx m') = Some r /\
    rq_qpn r = qpn /\ rq_wqe_idx r = u16 idx /\ rq_fm_ce_se r = u8 (Z.lor (WQE_CTRL_CQ_UPDATE c) fm) /\
    rq_body r = BDump (Gather (u64 laddr) (key_of lkey) bytes) /\ request_blocks r = 1 /\
    (forall k, 64 <= k < 64 * nwqes -> view base nwqes idx m' k = view base nwqes idx m k).
Proof.
  intros Hc Hn H2 Hi Hq Hb HN. unfold ibgda_write_dump_wqe. rewrite arr_get_ptrs, outcome_bind_ret by lia. unfold store_seg.
  rewrite (wst_at base nwqes idx _ 0 (ctrl_seg c _ _ _)), (wst_at base nwqes idx _ 16 (data_seg c _ _ _)) by (eval_block; lia). eexists _, _. split; [done|]. split.
  - apply (decode_dump c Hc) with (ds := 2) (fm := u8 (Z.lor (WQE_CTRL_CQ_UPDATE c) fm)) (qpn := qpn) (p := Gather (u64 laddr) (key_of lkey) bytes).
    + apply (head_of c Hc); try lia; [by read_back Hc Hn|]. unfold opcodes. rewrite !elem_of_cons. tauto.
    + apply (decode_gather c Hc); [done|]. by read_back Hc Hn.
    + done.
  - cbn [rq_qpn rq_wqe_idx rq_fm_ce_se rq_ds rq_body]. split_and!; try done.
    + unfold u8, wrap. by rewrite Z.mod_mod by lia.
    + intros k Hk. by untouched Hc Hn.
Qed.
End IbgdaWqeSpec.
