(* ===== verification/IbgdaAmo.v ===== *)
(** * Atomics on the wire: what the NIC does is what was asked for

    [ibgda_write_atomic_wqe] maps the operations of the library to the few the
    NIC has: fetch-and-add and compare-and-swap of 64 bits, and their masked
    forms of 32 and 64 bits.  What those do to the remote word is the parameter
    [exec], of which [nic_ok] states the documented behaviour: a masked
    fetch-and-add drops the carry out of every bit of its field boundary, a
    masked compare-and-swap compares under one mask and replaces under another. *)
From stdpp Require Import base gmap list option.
From Stdlib Require Import ZArith Lia.
From S2P Require Import Prelude IbgdaQueue IbgdaQp IbgdaWqe IbgdaNic IbgdaWqeSpec.

Module IbgdaAmo.
Import IbgdaQueue IbgdaQp IbgdaWqe IbgdaNic IbgdaWqeSpec.

(** ** The NIC's operations *)
Fixpoint masked_add (w : nat) (carry : bool) (x y boundary : Z) : Z :=
  match w with
  | O => 0
  | S w =>
      let t := x mod 2 + y mod 2 + Z.b2z carry in
      t mod 2 + 2 * masked_add w (bool_decide (2 <= t) && Z.even boundary) (x / 2) (y / 2) (boundary / 2)
  end.
Definition masked_swap (old swap compare swap_mask compare_mask : Z) : Z :=
  if bool_decide (Z.land (Z.lxor old compare) compare_mask = 0) then Z.lor (Z.ldiff old swap_mask) (Z.land swap swap_mask) else old.

(** Behaviour of the NIC on the remote word: opcode, modifier, the one or two
    segments, the word before, the word after *)
Record nic_ok (c : mlx5dv) (exec : Z -> Z -> list Z -> option (list Z) -> Z -> Z) : Prop := {
  nic_masked_fa32 seg old : exec (OPCODE_ATOMIC_MASKED_FA c) 8 seg None old = masked_add 32 false old (get 0 4 seg) (get 4 4 seg);
  nic_masked_fa64 seg old : exec (OPCODE_ATOMIC_MASKED_FA c) 9 seg None old = masked_add 64 false old (get 0 8 seg) (get 8 8 seg);
  nic_masked_cs32 seg old : exec (OPCODE_ATOMIC_MASKED_CS c) 8 seg None old =
    masked_swap old (get 0 4 seg) (get 4 4 seg) (get 8 4 seg) (get 12 4 seg);
  nic_masked_cs64 seg1 seg2 old : exec (OPCODE_ATOMIC_MASKED_CS c) 9 seg1 (Some seg2) old =
    masked_swap old (get 0 8 seg1) (get 8 8 seg1) (get 0 8 seg2) (get 8 8 seg2);
  nic_fa64 seg old : exec (OPCODE_ATOMIC_FA c) 0 seg None old = u64 (old + get (atomic_swap_add c) 8 seg);
  nic_cs64 seg old : exec (OPCODE_ATOMIC_CS c) 0 seg None old =
    if bool_decide (old = get (atomic_compare c) 8 seg) then get (atomic_swap_add c) 8 seg else old
}.

(** ** The library's operations, on words of [8 * bytes] bits *)
Definition amo_spec (op : amo_op) (bytes val_1 val_2 old : Z) : Z :=
  match op with
  | AMO_FETCH_INC | AMO_INC => (old + 1) mod 2 ^ (8 * bytes)
  | AMO_SIGNAL | AMO_SIGNAL_SET | AMO_SWAP | AMO_SET => val_1
  | AMO_SIGNAL_ADD | AMO_ADD | AMO_FETCH_ADD => (old + val_1) mod 2 ^ (8 * bytes)
  | AMO_FETCH_AND | AMO_AND => Z.land old val_1
  | AMO_FETCH_OR | AMO_OR => Z.lor old val_1
  | AMO_FETCH_XOR | AMO_XOR => Z.lxor old val_1
  | AMO_FETCH => old
  | AMO_COMPARE_SWAP => if bool_decide (old = val_2) then val_1 else old
  | AMO_ACK => old
  end.

(** ** Masked operations *)
Lemma masked_add_plain w b x y : masked_add w b x y 0 = (x + y + Z.b2z b) mod 2 ^ Z.of_nat w.
Proof.
  revert b x y. induction w as [|w IH]; intros b x y; cbn [masked_add]; [by rewrite Z.mod_1_r|].
  change (0 / 2) with 0. change (Z.even 0) with true. rewrite IH, andb_true_r, Nat2Z.inj_succ, Z.pow_succ_r by lia.
  pose proof (Z.pow_pos_nonneg 2 (Z.of_nat w) ltac:(lia) ltac:(lia)).
  rewrite Z.rem_mul_r by lia. f_equal.
  - rewrite (Z.div_mod x 2), (Z.div_mod y 2) at 2 by lia.
    replace (2 * (x / 2) + x mod 2 + (2 * (y / 2) + y mod 2) + Z.b2z b) with (x mod 2 + y mod 2 + Z.b2z b + (x / 2 + y / 2) * 2) by lia.
    by rewrite Z.mod_add by lia.
  - do 2 f_equal. pose proof (Z.mod_pos_bound x 2 ltac:(lia)). pose proof (Z.mod_pos_bound y 2 ltac:(lia)).
    pose proof (Z.div_mod x 2 ltac:(lia)). pose proof (Z.div_mod y 2 ltac:(lia)).
    case_bool_decide; [apply Z.div_unique with (x mod 2 + y mod 2 + Z.b2z b - 2)|apply Z.div_unique with (x mod 2 + y mod 2 + Z.b2z b)];
      destruct b; cbn in *; lia.
Qed.

Lemma masked_add_xor w x y : 0 <= x < 2 ^ Z.of_nat w -> 0 <= y < 2 ^ Z.of_nat w ->
  masked_add w false x y (2 ^ Z.of_nat w - 1) = Z.lxor x y.
Proof.
  revert x y. induction w as [|w IH]; intros x y Hx Hy; cbn [masked_add].
  { change (2 ^ Z.of_nat 0) with 1 in *. by replace x with 0 by lia; replace y with 0 by lia. }
  rewrite Nat2Z.inj_succ, Z.pow_succ_r in * by lia.
  replace (Z.even (2 * 2 ^ Z.of_nat w - 1)) with false by (by rewrite Z.even_sub, Z.even_mul).
  replace ((2 * 2 ^ Z.of_nat w - 1) / 2) with (2 ^ Z.of_nat w - 1) by (apply Z.div_unique with 1; lia).
  rewrite andb_false_r, IH by (split; [apply Z.div_pos|apply Z.div_lt_upper_bound]; lia).
  rewrite (Z.div_mod (Z.lxor x y) 2), Z.add_comm by lia. f_equal.
  - change 2 with (2 ^ 1). rewrite <- !Z.shiftr_div_pow2, Z.shiftr_lxor by lia. done.
  - rewrite <- !Z.bit0_mod, Z.lxor_spec. by destruct (Z.testbit x 0), (Z.testbit y 0).
Qed.

Lemma masked_add_id w x : 0 <= x < 2 ^ Z.of_nat w -> masked_add w false x 0 0 = x.
Proof. intros H. rewrite masked_add_plain. cbn [Z.b2z]. rewrite !Z.add_0_r. by apply Z.mod_small. Qed.

(** Replacement under masks: everywhere, under a mask of the value itself and
    under its complement *)
Section Swap.
Context (w old v : Z) (Hw : 0 <= w) (Ho : 0 <= old < 2 ^ w) (Hv : 0 <= v < 2 ^ w).

Lemma masked_swap_cmp0 cmp mask : masked_swap old v cmp mask 0 = Z.lor (Z.ldiff old mask) (Z.land v mask).
Proof. unfold masked_swap. by rewrite Z.land_0_r, bool_decide_true. Qed.
Lemma bit_above x n : 0 <= x < 2 ^ w -> w <= n -> Z.testbit x n = false.
Proof.
  intros Hx Hn. destruct (decide (x = 0)) as [->|]; [apply Z.bits_0|]. apply Z.bits_above_log2; [lia|].
  apply Z.log2_lt_pow2; [lia|]. eapply Z.lt_le_trans; [apply Hx|]. apply Z.pow_le_mono_r; lia.
Qed.
Ltac bits := apply Z.bits_inj'; intros n Hn; rewrite ?Z.lor_spec, ?Z.ldiff_spec, ?Z.land_spec, ?Z.lor_spec, ?Z.land_spec;
  destruct (Z.lt_ge_cases n w); [|rewrite ?(bit_above old n), ?(bit_above v n) by lia; done].
Lemma ones_bit n : 0 <= n < w -> Z.testbit (2 ^ w - 1) n = true.
Proof. intros H. rewrite Z.sub_1_r, <- Z.ones_equiv. apply Z.ones_spec_low. lia. Qed.
Lemma swap_all : Z.lor (Z.ldiff old (2 ^ w - 1)) (Z.land v (2 ^ w - 1)) = v.
Proof. bits. rewrite ones_bit by lia. cbn. by rewrite andb_false_r, andb_true_r. Qed.
Lemma swap_or : Z.lor (Z.ldiff old v) (Z.land v v) = Z.lor old v.
Proof. bits. by destruct (Z.testbit old n), (Z.testbit v n). Qed.
Lemma swap_and : Z.lor (Z.ldiff old (Z.lnot v mod 2 ^ w)) (Z.land v (Z.lnot v mod 2 ^ w)) = Z.land old v.
Proof.
  bits. rewrite Z.mod_pow2_bits_low, Z.lnot_spec by lia. by destruct (Z.testbit old n), (Z.testbit v n).
Qed.
Lemma swap_compare cmp : 0 <= cmp < 2 ^ w ->
  masked_swap old v cmp (2 ^ w - 1) (2 ^ w - 1) = if bool_decide (old = cmp) then v else old.
Proof.
  intros Hc. unfold masked_swap. rewrite swap_all. rewrite Z.sub_1_r, <- Z.ones_equiv, Z.land_ones by lia.
  assert (0 <= Z.lxor old cmp < 2 ^ w) as HX.
  { split; [apply Z.lxor_nonneg; lia|]. destruct (decide (Z.lxor old cmp = 0)) as [->|]; [lia|].
    assert (0 <= Z.lxor old cmp) by (apply Z.lxor_nonneg; lia). apply Z.log2_lt_pow2; [lia|].
    eapply Z.le_lt_trans; [apply Z.log2_lxor; lia|].
    assert (0 < w) by (destruct (decide (w = 0)) as [->|]; [|lia]; change (2 ^ 0) with 1 in *;
      replace old with 0 in * by lia; replace cmp with 0 in * by lia; by cbn in *).
    apply Z.max_lub_lt; (destruct (decide (0 < old)); destruct (decide (0 < cmp));
      first [apply Z.log2_lt_pow2; lia | replace old with 0 by lia; cbn; lia | replace cmp with 0 by lia; cbn; lia]). }
  rewrite Z.mod_small by done. repeat case_bool_decide; try done.
  - by apply Z.lxor_eq in H.
  - subst. by rewrite Z.lxor_nilpotent in H.
Qed.
End Swap.

(** ** Fields of the atomic segments *)
Definition be (w : nat) (x : Z) : Z := be_val (le_bytes w x).
Lemma get_put_be off w x bs : (off + w <= length bs)%nat -> get off w (put off w x bs) = be w x.
Proof. intros H. unfold get, be. by rewrite take_drop_put. Qed.
Lemma be4 x : 0 <= x < 2 ^ 32 -> be 4 (HTOBE32 x) = x.
Proof. intros H. unfold be. rewrite bswap32_bytes, be_val_rev_le. by apply Z.mod_small. Qed.
Lemma be8 x : 0 <= x < 2 ^ 64 -> be 8 (HTOBE64 x) = x.
Proof. intros H. unfold be. rewrite bswap64_bytes, be_val_rev_le. by apply Z.mod_small. Qed.

Ltac at_field := repeat (rewrite get_put_other; [|repeat rewrite length_put; lia|unfold apart in *; lia]);
  rewrite get_put_be; [done|repeat rewrite length_put; lia].
Section Fields.
Context (seg : list Z) (Hl : length seg = 16%nat).
Lemma fa32_fields a b : get 0 4 (masked_fa32 a b seg) = be 4 a /\ get 4 4 (masked_fa32 a b seg) = be 4 b.
Proof. unfold masked_fa32. split; at_field. Qed.
Lemma fa64_fields a b : get 0 8 (masked_fa64 a b seg) = be 8 a /\ get 8 8 (masked_fa64 a b seg) = be 8 b.
Proof. unfold masked_fa64. split; at_field. Qed.
Lemma cs32_fields a b d e : get 0 4 (masked_cs32 a b d e seg) = be 4 a /\ get 4 4 (masked_cs32 a b d e seg) = be 4 b /\
  get 8 4 (masked_cs32 a b d e seg) = be 4 d /\ get 12 4 (masked_cs32 a b d e seg) = be 4 e.
Proof. unfold masked_cs32. split_and!; at_field. Qed.
Lemma cs64_fields a b : get 0 8 (masked_cs64 a b seg) = be 8 a /\ get 8 8 (masked_cs64 a b seg) = be 8 b.
Proof. unfold masked_cs64. split; at_field. Qed.
End Fields.

(** ** One case of the switch *)
Section Case.
Context (c : mlx5dv) (Hc : mlx5dv_ok c) (exec : Z -> Z -> list Z -> option (list Z) -> Z -> Z) (He : nic_ok c exec).

Definition atomic_opcodes : list Z := [OPCODE_ATOMIC_CS c; OPCODE_ATOMIC_FA c; OPCODE_ATOMIC_MASKED_CS c; OPCODE_ATOMIC_MASKED_FA c].
Definition two_segs (opc opmod : Z) : bool := bool_decide (opc = OPCODE_ATOMIC_MASKED_CS c) && bool_decide (opmod = 9).

Lemma atomic_opcodes_in o : o ∈ atomic_opcodes -> o ∈ opcodes c /\ 0 <= o < 2 ^ 8 /\ o <> OPCODE_NOP c /\ o <> OPCODE_DUMP /\
  o <> OPCODE_RDMA_WRITE c /\ o <> OPCODE_RDMA_READ c.
Proof.
  intros HO. assert (o ∈ opcodes c) as HI.
  { unfold atomic_opcodes, opcodes in *. rewrite !elem_of_cons in *. tauto. }
  pose proof (opcode_bound c Hc o HI). split_and!; try done; try lia.
  all: destruct (mk_opcodes c Hc) as [HN _]; unfold opcodes in HN; rewrite !list.NoDup_cons, !not_elem_of_cons in HN.
  all: unfold atomic_opcodes in HO; rewrite !elem_of_cons in HO.
  all: destruct HN as ((_ & _ & ? & ? & ? & ? & _) & (_ & ? & ? & ? & ? & _) & (? & ? & ? & ? & _) & (_ & _ & _ & ? & _) & (_ & _ & ? & _) & (_ & ? & _) & (? & _) & _).
  all: destruct HO as [->|[->|[->|[->|HO]]]]; (congruence || by apply elem_of_nil in HO).
Qed.

Record amo_case_ok (op : amo_op) (bytes v1 v2 old : Z) (opc opmod : Z) (seg1 : list Z) (seg2 : option (list Z)) : Prop := {
  ac_opc : opc ∈ atomic_opcodes;
  ac_opmod : 0 <= opmod < 2 ^ 8;
  ac_len : length seg1 = 16%nat;
  ac_len2 : length (default zeros seg2) = 16%nat;
  ac_two : two_segs opc opmod = match seg2 with Some _ => true | None => false end;
  ac_exec : exec opc opmod seg1 seg2 old = amo_spec op bytes v1 v2 old
}.

Definition in_range (bytes x : Z) : Prop := 0 <= x < 2 ^ (8 * bytes).

Section Values.
Context (junk : list Z) (Hj : length junk = 16%nat) (old : Z).

(** The four masked forms, each with what it does to the word *)
Lemma case_fa32 op v1 v2 a b :
  masked_add 32 false old (be 4 a) (be 4 b) = amo_spec op 4 v1 v2 old ->
  amo_case_ok op 4 v1 v2 old (OPCODE_ATOMIC_MASKED_FA c) 8 (masked_fa32 a b junk) None.
Proof.
  intros H. destruct (fa32_fields junk Hj a b) as [H1 H2]. split; try done.
  - unfold atomic_opcodes. rewrite !elem_of_cons. tauto.
  - unfold masked_fa32. repeat rewrite length_put; lia.
  - unfold two_segs. by rewrite andb_false_r.
  - by rewrite (nic_masked_fa32 c exec He), H1, H2.
Qed.
Lemma case_fa64 op v1 v2 a b :
  masked_add 64 false old (be 8 a) (be 8 b) = amo_spec op 8 v1 v2 old ->
  amo_case_ok op 8 v1 v2 old (OPCODE_ATOMIC_MASKED_FA c) 9 (masked_fa64 a b junk) None.
Proof.
  intros H. destruct (fa64_fields junk Hj a b) as [H1 H2]. split; try done.
  - unfold atomic_opcodes. rewrite !elem_of_cons. tauto.
  - unfold masked_fa64. repeat rewrite length_put; lia.
  - unfold two_segs. rewrite bool_decide_false; [done|]. destruct (mk_opcodes c Hc) as [HN _].
    unfold opcodes in HN. rewrite !list.NoDup_cons, !not_elem_of_cons in HN. intros HE. rewrite HE in HN. tauto.
  - by rewrite (nic_masked_fa64 c exec He), H1, H2.
Qed.
Lemma case_cs32 op v1 v2 a b d e :
  masked_swap old (be 4 a) (be 4 b) (be 4 d) (be 4 e) = amo_spec op 4 v1 v2 old ->
  amo_case_ok op 4 v1 v2 old (OPCODE_ATOMIC_MASKED_CS c) 8 (masked_cs32 a b d e junk) None.
Proof.
  intros H. destruct (cs32_fields junk Hj a b d e) as (H1 & H2 & H3 & H4). split; try done.
  - unfold atomic_opcodes. rewrite !elem_of_cons. tauto.
  - unfold masked_cs32. repeat rewrite length_put; lia.
  - unfold two_segs. by rewrite andb_false_r.
  - by rewrite (nic_masked_cs32 c exec He), H1, H2, H3, H4.
Qed.
Lemma case_cs64 op v1 v2 a d :
  masked_swap old (be 8 a) 0 (be 8 d) 0 = amo_spec op 8 v1 v2 old ->
  amo_case_ok op 8 v1 v2 old (OPCODE_ATOMIC_MASKED_CS c) 9 (masked_cs64 a 0 junk) (Some (masked_cs64 d 0 zeros)).
Proof.
  intros H. destruct (cs64_fields junk Hj a 0) as [H1 H2]. destruct (cs64_fields zeros eq_refl d 0) as [H3 H4]. split; try done.
  - unfold atomic_opcodes. rewrite !elem_of_cons. tauto.
  - unfold masked_cs64. repeat rewrite length_put; lia.
  - unfold two_segs. by rewrite !bool_decide_true.
  - by rewrite (nic_masked_cs64 c exec He), H1, H2, H3, H4.
Qed.

Lemma case_fa op v2 v1 : 0 <= old < 2 ^ 64 -> 0 <= v1 < 2 ^ 64 -> op = AMO_FETCH_ADD ->
  amo_case_ok op 8 v1 v2 old (OPCODE_ATOMIC_FA c) 0 (put (atomic_swap_add c) 8 (HTOBE64 v1) junk) None.
Proof.
  intros Ho Hv ->. destruct (mk_atomic c Hc) as [[? ?] ?]. split; try done.
  - unfold atomic_opcodes. rewrite !elem_of_cons. tauto.
  - rewrite length_put; lia.
  - unfold two_segs. by rewrite andb_false_r.
  - rewrite (nic_fa64 c exec He), get_put_be64 by lia. cbn [amo_spec]. unfold u64. by rewrite (Z.mod_small v1).
Qed.
Lemma case_cas op v1 v2 : 0 <= old < 2 ^ 64 -> 0 <= v1 < 2 ^ 64 -> 0 <= v2 < 2 ^ 64 -> op = AMO_COMPARE_SWAP ->
  amo_case_ok op 8 v1 v2 old (OPCODE_ATOMIC_CS c) 0
    (put (atomic_compare c) 8 (HTOBE64 v2) (put (atomic_swap_add c) 8 (HTOBE64 v1) junk)) None.
Proof.
  intros Ho Hv Hw ->. destruct (mk_atomic c Hc) as [[? ?] ?]. split; try done.
  - unfold atomic_opcodes. rewrite !elem_of_cons. tauto.
  - repeat rewrite length_put; lia.
  - unfold two_segs. by rewrite andb_false_r.
  - rewrite (nic_cs64 c exec He), get_put_be64, get_put_other, get_put_be64 by (unfold apart in *; try rewrite length_put; lia).
    unfold u64. by rewrite !Z.mod_small.
Qed.

Lemma be_const : be 4 UINT32_MAX = 2 ^ 32 - 1 /\ be 8 UINT64_MAX = 2 ^ 64 - 1 /\ be 4 0 = 0 /\ be 8 0 = 0.
Proof. by vm_compute. Qed.

Ltac amo_word Ho Hv Hw := destruct be_const as (? & ? & ? & ?);
  repeat match goal with H : be _ _ = _ |- _ => rewrite H; clear H end;
  rewrite ?be4, ?be8 by (assumption || lia || (unfold u32, u64; apply Z.mod_pos_bound; lia));
  first
  [ by rewrite masked_add_plain, Z.add_0_r
  | by rewrite (masked_add_xor 32) by assumption
  | by rewrite (masked_add_xor 64) by assumption
  | by rewrite masked_add_id by assumption
  | by rewrite (masked_swap_cmp0 old);
      first [ apply (swap_all 32); (assumption || lia) | apply (swap_all 64); (assumption || lia)
            | apply (swap_or 32); (assumption || lia) | apply (swap_or 64); (assumption || lia)
            | apply (swap_and 32); (assumption || lia) | apply (swap_and 64); (assumption || lia) ]
  | by rewrite (swap_compare 32) by (assumption || lia) ].

Lemma amo_case_correct op bytes v1 v2 : op <> AMO_ACK -> bytes = 4 \/ bytes = 8 ->
  in_range bytes old -> in_range bytes v1 -> in_range bytes v2 ->
  exists opc opmod seg1 seg2, amo_case c op bytes v1 v2 junk = Ret (Z.lor opc (opmod * 2 ^ 24), seg1, seg2) /\
    amo_case_ok op bytes v1 v2 old opc opmod seg1 seg2 /\
    ibgda_get_num_wqes_in_atomic bytes op RC = match seg2 with Some _ => 2 | None => 1 end.
Proof.
  intros HA [-> | ->] Ho Hv Hw; unfold in_range in *; cbn [Z.mul Pos.mul] in *.
  - destruct op; try done; eexists _, 8, _, None; (split; [reflexivity|split; [|done]]);
      first [apply case_fa32; amo_word Ho Hv Hw | apply case_cs32; amo_word Ho Hv Hw].
  - destruct op; try done;
    first
    [ eexists _, 9, _, (Some _); split; [reflexivity|]; split; [|done]; apply case_cs64; amo_word Ho Hv Hw
    | eexists _, 9, _, None; split; [reflexivity|]; split; [|done]; apply case_fa64; amo_word Ho Hv Hw
    | eexists (OPCODE_ATOMIC_FA c), 0, _, None; rewrite Z.mul_0_l, Z.lor_0_r; split; [reflexivity|]; split; [|done]; by apply case_fa
    | eexists (OPCODE_ATOMIC_CS c), 0, _, None; rewrite Z.mul_0_l, Z.lor_0_r; split; [reflexivity|]; split; [|done]; by apply case_cas ].
Qed.
End Values.
End Case.

(** ** The whole WQE *)
Section Wqe.
Context (c : mlx5dv) (Hc : mlx5dv_ok c) (base nwqes idx : Z) (Hn : depth_ok nwqes) (Hi : 0 <= idx).
Local Abbreviation at_ p := (wqe_ptr base nwqes idx (p / 64) + p mod 64).

Lemma atomic_layout_ok half ty : atomic_layout half ty (ptrs base nwqes idx 2) =
  Ret (av_size half ty / 16 + 4, av_size half ty, at_ (16 + av_size half ty), at_ (32 + av_size half ty), at_ (48 + av_size half ty)).
Proof.
  unfold atomic_layout. rewrite (arr_get_ptrs _ _ _ 2 0), outcome_bind_ret by lia.
  destruct ty, half; cbn [av_size]; rewrite ?(arr_get_ptrs _ _ _ 2 1), ?outcome_bind_ret by lia;
    match goal with |- Ret (_, _, ?x, ?y, ?z) = Ret (_, _, ?x', ?y', ?z') =>
      replace x' with x by (eval_block; lia); replace y' with y by (eval_block; lia); replace z' with z by (eval_block; lia) end; done.
Qed.

Definition opmod_word (opc opmod : Z) : Z := Z.lor (Z.lor opc (opmod * 2 ^ 24)) (Z.shiftl (u16 idx) 8).
Lemma opmod_word_eq opc opmod : 0 <= opc < 2 ^ 8 -> 0 <= opmod < 2 ^ 8 ->
  opmod_word opc opmod = opmod * 2 ^ 24 + u16 idx * 2 ^ 8 + opc.
Proof.
  intros H1 H2. pose proof (Z.mod_pos_bound idx (2 ^ 16) ltac:(lia)). unfold opmod_word, u16 in *.
  rewrite (Z.lor_comm opc), <- Z.lor_assoc, (Z.lor_comm opc), (lor_shl _ 8 opc) by lia.
  rewrite <- (Z.shiftl_mul_pow2 opmod 24), (lor_shl _ 24), !Z.shiftl_mul_pow2 by lia. lia.
Qed.

Definition has_two (seg2 : option (list Z)) : Z := match seg2 with Some _ => 1 | None => 0 end.
Lemma write_atomic_stores half t ty qpn d av v1 v2 laddr lkey raddr rkey bytes op fm junk opc opmod seg1 seg2 m :
  dct_ok half ty t d av -> bytes = 4 \/ bytes = 8 -> amo_case c op bytes v1 v2 junk = Ret (Z.lor opc (opmod * 2 ^ 24), seg1, seg2) ->
  ibgda_write_atomic_wqe c half t ty qpn d v1 v2 laddr lkey raddr rkey bytes idx op fm junk (ptrs base nwqes idx 2) m =
  Ret (wst base nwqes idx (48 + av_size half ty + 16 * has_two seg2) (data_seg c bytes lkey laddr)
    (wst base nwqes idx (48 + av_size half ty) (default zeros seg2) (wst base nwqes idx (32 + av_size half ty) seg1
    (wst base nwqes idx (16 + av_size half ty) (raddr_seg c raddr rkey) (wst base nwqes idx 16 (target_av half ty av)
    (wst base nwqes idx 0 (ctrl_seg c (HTOBE32 (opmod_word opc opmod))
       (HTOBE32 (u32 (Z.lor (Z.shiftl qpn 8) (av_size half ty / 16 + 4 + has_two seg2)))) fm) m)))))).
Proof.
  intros HD HB HA. unfold ibgda_write_atomic_wqe. rewrite atomic_layout_ok, outcome_bind_ret, (arr_get_ptrs _ _ _ 2 0), outcome_bind_ret by lia.
  replace (bool_decide (bytes = 4) || bool_decide (bytes = 8)) with true
    by (by destruct HB as [-> | ->]).
  cbn [cassert]. rewrite outcome_bind_ret, HA, outcome_bind_ret.
  set (dp := at_ (48 + av_size half ty + 16 * has_two seg2)).
  match goal with |- context [match seg2 with Some _ => ?x | None => ?y end] =>
    replace (match seg2 with Some _ => x | None => y end) with (Ret (av_size half ty / 16 + 4 + has_two seg2, dp)) end.
  2: { unfold dp. destruct seg2; cbn [has_two]; [destruct ty|]; rewrite ?(arr_get_ptrs _ _ _ 2 1), ?outcome_bind_ret by lia;
       apply (f_equal Ret), f_equal2; try destruct ty; destruct half; cbn [av_size]; eval_block; lia. }
  rewrite outcome_bind_ret, (store_av_ok base nwqes idx half ty t d av), outcome_bind_ret by done.
  unfold store_seg, dp. by rewrite (wst_at base nwqes idx _ 0 _ m) by (eval_block; lia).
Qed.

Lemma decode_atomic half t ty d av v qpn ds fm raddr rkey opc opmod seg1 seg2 p :
  dct_ok half ty t d av -> 0 <= qpn < 2 ^ 24 -> 0 <= ds < 2 ^ 6 -> opc ∈ atomic_opcodes c -> 0 <= opmod < 2 ^ 8 ->
  two_segs c opc opmod = bool_decide (is_Some seg2) ->
  read v 0 16 = ctrl_seg c (HTOBE32 (opmod_word opc opmod)) (HTOBE32 (u32 (Z.lor (Z.shiftl qpn 8) ds))) fm ->
  read v 16 (Z.to_nat (av_size half ty)) = target_av half ty av ->
  read v (16 + av_size half ty) 16 = raddr_seg c raddr rkey ->
  read v (32 + av_size half ty) 16 = seg1 ->
  (forall s, seg2 = Some s -> read v (48 + av_size half ty) 16 = s) ->
  decode_payload c v (48 + av_size half ty + 16 * has_two seg2) = p -> ds = payload_ds (48 + av_size half ty + 16 * has_two seg2) p ->
  decode c ty v = Some (MkRequest qpn (u16 idx) (u8 fm) ds
    (BAtomic opc opmod (target_av half ty av) (u64 raddr) (key_of rkey) seg1 seg2 p)).
Proof.
  intros HD Hq Hd HO Hm HT HC HA HR H1 H2 HP HS. pose proof (av_len_target _ _ _ _ _ _ HD HA) as HL.
  destruct (atomic_opcodes_in c Hc opc HO) as (HI & Hb & ? & ? & ? & ?). unfold decode. rewrite HC, HL, HR, HA.
  match goal with |- context [ctrl_seg c (HTOBE32 ?a) (HTOBE32 ?b) ?f] =>
    destruct (ctrl_seg_fields c Hc a b f) as (-> & -> & ->) end.
  rewrite opmod_word_eq by done. destruct (ctrl_word0 opmod idx opc) as (-> & -> & ->); [done..|].
  destruct (ctrl_word1 qpn ds) as (-> & ->); [done..|]. destruct (raddr_seg_fields c Hc raddr rkey) as [-> ->].
  rewrite (bool_decide_false (opc = OPCODE_NOP c)), (bool_decide_false (opc = OPCODE_DUMP)), (bool_decide_false (opc = OPCODE_RDMA_WRITE c)),
    (bool_decide_false (opc = OPCODE_RDMA_READ c)) by done. fold (two_segs c opc opmod). rewrite HT.
  replace (16 + av_size half ty + 16) with (32 + av_size half ty) by lia. rewrite H1.
  replace (16 + av_size half ty + 32) with (48 + av_size half ty) by lia.
  replace (16 + av_size half ty + _) with (48 + av_size half ty + 16 * has_two seg2) by (destruct seg2; cbn; lia).
  rewrite HP, option_guard_True, option_guard_True by done. destruct seg2 as [s2|]; cbn; [|done]. by rewrite (H2 s2).
Qed.
End Wqe.

Lemma opmod_unique opc opc' opmod opmod' : 0 <= opc < 2 ^ 8 -> 0 <= opc' < 2 ^ 8 -> Z.lor opc (opmod * 2 ^ 24) = Z.lor opc' (opmod' * 2 ^ 24) ->
  opc = opc' /\ opmod = opmod'.
Proof.
  intros H1 H2. rewrite (Z.lor_comm opc), (Z.lor_comm opc'), <- !Z.shiftl_mul_pow2, !lor_shl by lia. lia.
Qed.

(** An atomic of the library, written as a WQE: the NIC decodes one of its own
    atomics, on the remote word named, whose documented effect on any value of
    that word is the operation's ([amo_spec]), the old value going to the local
    address; the WQE takes exactly the blocks the callers reserve, and changes
    no other block. *)
Lemma amo_wqe_ok c exec base nwqes idx half t ty qpn d av v1 v2 laddr lkey raddr rkey bytes op fm junk m :
  mlx5dv_ok c -> nic_ok c exec -> depth_ok nwqes -> 2 <= nwqes -> 0 <= idx -> dct_ok half ty t d av -> 0 <= qpn < 2 ^ 24 ->
  length junk = 16%nat -> op <> AMO_ACK -> bytes = 4 \/ bytes = 8 -> in_range bytes v1 -> in_range bytes v2 ->
  let n := ibgda_get_num_wqes_in_atomic bytes op ty in
  exists m' r opc opmod seg1 seg2,
    ibgda_write_atomic_wqe c half t ty qpn d v1 v2 laddr lkey raddr rkey bytes idx op fm junk (ptrs base nwqes idx 2) m = Ret m' /\
    decode c ty (view base nwqes idx m') = Some r /\ rq_qpn r = qpn /\ rq_wqe_idx r = u16 idx /\ rq_fm_ce_se r = u8 fm /\
    rq_body r = BAtomic opc opmod (target_av half ty av) (u64 raddr) (key_of rkey) seg1 seg2 (Gather (u64 laddr) (key_of lkey) bytes) /\
    (forall old, in_range bytes old -> exec opc opmod seg1 seg2 old = amo_spec op bytes v1 v2 old) /\
    request_blocks r = n /\
    (forall k, 64 * n <= k < 64 * nwqes -> view base nwqes idx m' k = view base nwqes idx m k).
Proof.
  intros Hc He Hn H2 Hi HD Hq Hj HA HB Hv Hw n. pose proof (length_target_av _ _ _ _ _ HD) as HL.
  pose proof (fun old Ho => amo_case_correct c Hc exec He junk Hj old op bytes v1 v2 HA HB Ho Hv Hw) as HAC.
  destruct (HAC v1 Hv) as (opc & opmod & seg1 & seg2 & HC & HO & HN). destruct HO as [HO1 HO2 HO3 HO4 HO5 _].
  rewrite (write_atomic_stores c base nwqes idx half t ty qpn d av v1 v2 laddr lkey raddr rkey bytes op fm junk opc opmod seg1 seg2) by done.
  set (ds := av_size half ty / 16 + 4 + has_two seg2).
  assert (0 <= ds < 2 ^ 6) by (unfold ds; destruct ty, half, seg2; split; vm_compute; congruence).
  set (m' := wst _ _ _ _ _ _). eexists m', _, opc, opmod, seg1, seg2. split; [done|]. split.
  - apply (decode_atomic c Hc idx half t ty d av) with (ds := ds) (p := Gather (u64 laddr) (key_of lkey) bytes) (seg1 := seg1) (seg2 := seg2)
      (raddr := raddr) (rkey := rkey) (qpn := qpn) (fm := fm); try done; [| | | | | |apply (decode_gather c Hc); [lia|]|].
    1: by destruct seg2.
    5: intros s ->.
    all: unfold m'; destruct ty, half; try destruct seg2; cbn [av_size has_two default from_option Z.mul] in *; rewrite ?Z.add_0_r; try done.
    all: by read_back Hc Hn.
  - cbn [rq_qpn rq_wqe_idx rq_fm_ce_se rq_ds rq_body]. split_and!; try done.
    + intros old Ho. destruct (HAC old Ho) as (opc' & opmod' & s1 & s2 & HC' & HO' & _). rewrite HC in HC'. injection HC' as HX -> ->.
      destruct (atomic_opcodes_in c Hc opc HO1) as (_ & B1 & _). destruct (atomic_opcodes_in c Hc opc' (ac_opc _ _ _ _ _ _ _ _ _ _ _ HO')) as (_ & B2 & _).
      destruct (opmod_unique opc opc' opmod opmod' B1 B2 HX) as [-> ->]. apply (ac_exec _ _ _ _ _ _ _ _ _ _ _ HO').
    + unfold n, ds. destruct ty, half; rewrite ?HN; by destruct seg2.
    + intros k Hk. unfold m', n in *. destruct ty, half; [..|rewrite HN in Hk|rewrite HN in Hk]; destruct seg2;
        cbn [av_size has_two default from_option Z.mul ibgda_get_num_wqes_in_atomic] in *; by untouched Hc Hn.
Qed.

(** A NIC that behaves as documented *)
Definition ex_exec (opc opmod : Z) (seg1 : list Z) (seg2 : option (list Z)) (old : Z) : Z :=
  if bool_decide (opc = 0x15) then
    if bool_decide (opmod = 8) then masked_add 32 false old (get 0 4 seg1) (get 4 4 seg1)
    else masked_add 64 false old (get 0 8 seg1) (get 8 8 seg1)
  else if bool_decide (opc = 0x14) then
    match seg2 with
    | None => masked_swap old (get 0 4 seg1) (get 4 4 seg1) (get 8 4 seg1) (get 12 4 seg1)
    | Some s => masked_swap old (get 0 8 seg1) (get 8 8 seg1) (get 0 8 s) (get 8 8 s)
    end
  else if bool_decide (opc = 0x12) then u64 (old + get 0 8 seg1)
  else if bool_decide (old = get 8 8 seg1) then get 0 8 seg1 else old.
Lemma ex_exec_ok : nic_ok mlx5 ex_exec.
Proof. by split. Qed.

End IbgdaAmo.
