(* ===== verification/IbgdaWarp.v ===== *)
(** * A warp's values in one work-queue entry

    When the 32 lanes of a warp store one value each to consecutive addresses of
    the same PE, they write a single RDMA write with the 32 values inline: each
    lane writes the header (all lanes the same) and its own value, wherever in
    the blocks of the WQE it falls, and the no-op that ends it and asks for the
    completion.  The lanes run in no particular order. *)
From stdpp Require Import base gmap list option.
From Stdlib Require Import ZArith Lia.
From S2P Require Import Prelude IbgdaQueue IbgdaQp IbgdaWqe IbgdaNic IbgdaWqeSpec.

Module IbgdaWarp.
Import IbgdaQueue IbgdaQp IbgdaWqe IbgdaNic IbgdaWqeSpec.

(** ** Writing parts of an image *)
Section Image.
Context (base nwqes idx : Z) (Hn : depth_ok nwqes) (Hi : 0 <= idx) (img : Z -> Z).
Local Abbreviation vw := (view base nwqes idx).

(** [m'] is [m] with the bytes in [P] set as in the image *)
Definition painted (P : Z -> Prop) (m m' : mem) : Prop :=
  forall k, 0 <= k < 64 * nwqes -> (P k -> vw m' k = img k) /\ (~ P k -> vw m' k = vw m k).
Definition within (p len : Z) (k : Z) : Prop := p <= k < p + len.

Lemma painted_trans P Q m1 m2 m3 `{DP : !forall k, Decision (P k)} `{DQ : !forall k, Decision (Q k)} :
  painted P m1 m2 -> painted Q m2 m3 -> painted (fun k => P k \/ Q k) m1 m3.
Proof.
  intros H1 H2 k Hk. destruct (H1 k Hk) as [A1 B1], (H2 k Hk) as [A2 B2].
  destruct (DQ k) as [HQ|HQ], (DP k) as [HP|HP]; split; intros H; first [by apply A2 | tauto | rewrite B2 by done; auto].
Qed.
Lemma painted_iff P Q m m' : (forall k, 0 <= k < 64 * nwqes -> P k <-> Q k) -> painted P m m' -> painted Q m m'.
Proof. intros HE H k Hk. rewrite <- (HE k Hk). by apply H. Qed.

Lemma read_img_lookup p bs i : read img p (length bs) = bs -> (i < length bs)%nat -> bs !! i = Some (img (p + Z.of_nat i)).
Proof.
  intros HR Hl. rewrite <- HR at 1. unfold read. rewrite list_lookup_fmap, lookup_seqZ_lt by lia. cbn. do 2 f_equal.
Qed.
Lemma painted_wst p bs m : fits nwqes p bs -> read img p (length bs) = bs ->
  painted (within p (Z.of_nat (length bs))) m (wst base nwqes idx p bs m).
Proof.
  intros HF HR k Hk. unfold within. split; intros HW; [|apply (view_wst_other base nwqes idx Hn Hi); (done || lia)].
  destruct HF as (H1 & H2 & H3). pose proof (Z.mod_pos_bound p 64 ltac:(lia)). pose proof (Z.div_pos p 64 H1 ltac:(lia)).
  pose proof (Z.div_mod p 64 ltac:(lia)) as HD. unfold wst.
  rewrite (view_store base nwqes idx Hn Hi (p / 64) (p mod 64)), bool_decide_true by lia. rewrite <- HD.
  rewrite (read_img_lookup p bs _ HR) by lia. cbn. f_equal. lia.
Qed.
#[export] Instance within_dec p len k : Decision (within p len k).
Proof. unfold within. apply _. Defined.
Lemma painted_add P p bs m1 m2 `{!forall k, Decision (P k)} : painted P m1 m2 -> fits nwqes p bs -> read img p (length bs) = bs ->
  painted (fun k => P k \/ within p (Z.of_nat (length bs)) k) m1 (wst base nwqes idx p bs m2).
Proof.
  intros H1 HF HR. eapply painted_trans; [apply _|apply _|done|by apply painted_wst].
Qed.
Lemma painted_nil m : painted (fun _ => False) m m.
Proof. intros k Hk. tauto. Qed.
Lemma painted_read P m m' p len : painted P m m' -> 0 <= p -> p + Z.of_nat len <= 64 * nwqes ->
  (forall k, within p (Z.of_nat len) k -> P k) -> read (vw m') p len = read img p len.
Proof.
  intros H Hp Hl HP. unfold read. apply list_fmap_ext. intros i k Hk. apply lookup_seqZ in Hk as [-> Hk].
  apply H; [lia|]. apply HP. unfold within. lia.
Qed.
End Image.

(** The next WQE, as part of this one's ring *)
Lemma read_shift base nwqes idx m j p len : 0 <= j -> 0 <= p ->
  read (view base nwqes (idx + j) m) p len = read (view base nwqes idx m) (64 * j + p) len.
Proof.
  intros Hj Hp. unfold read. rewrite <- fmap_add_seqZ, <- list_fmap_compose. apply list_fmap_ext.
  intros i k Hk. apply lookup_seqZ in Hk as [-> Hk]. unfold compose, view.
  replace (64 * j + (p + Z.of_nat i)) with (p + Z.of_nat i + j * 64) by lia.
  rewrite Z.div_add, Z.mod_add by lia. set (q := (p + Z.of_nat i) / 64). by replace (idx + (q + j)) with (idx + j + q) by lia.
Qed.

(** ** Parts of a list *)
Lemma read_list (l : list Z) p len : (p + len <= length l)%nat ->
  read (fun k => default 0 (l !! Z.to_nat k)) (Z.of_nat p) len = take len (drop p l).
Proof.
  intros H. apply list_eq_same_length with len; [rewrite length_take, length_drop; lia|by rewrite length_read|].
  intros i x y Hi. unfold read. rewrite list_lookup_fmap, lookup_seqZ_lt, lookup_take_lt, lookup_drop by lia. cbn. intros [= <-] Hy.
  replace (Z.to_nat (Z.of_nat p + Z.of_nat i)) with (p + i)%nat by lia. by rewrite Hy.
Qed.
Lemma drop_app_at {A} (l k : list A) n : n = length l -> drop n (l ++ k) = k.
Proof. intros ->. apply drop_app_length. Qed.

(** A value among values of the same size *)
Lemma concat_piece (vals : list (list Z)) (size i : nat) v : Forall (fun v => length v = size) vals -> vals !! i = Some v ->
  take size (drop (i * size) (concat vals)) = v.
Proof.
  revert i. induction vals as [|w vals IH]; intros i HF Hv; [done|]. inversion HF as [|? ? Hw HF']; subst.
  destruct i as [|i]; cbn in *.
  - injection Hv as <-. apply take_app_length.
  - rewrite drop_app_ge, Nat.add_comm, Nat.add_sub by lia. by apply IH.
Qed.
Lemma length_concat_same (vals : list (list Z)) size : Forall (fun v => length v = size) vals -> length (concat vals) = (length vals * size)%nat.
Proof. induction 1 as [|v vals Hv _ IH]; cbn; [done|]. rewrite length_app. lia. Qed.

(** Sizes: bytes of a value, blocks and segments of the WQE *)
Record sizes_ok (ty : qp_type) (size : nat) (n ds : Z) : Prop := {
  so_size : (1 <= size)%nat /\ (size | 4)%nat \/ size = 8%nat /\ ty = RC;
  so_n : ibgda_get_num_wqes_in_inl_combine_warp (Z.of_nat size) ty = Ret n;
  so_ds : ibgda_get_ds_in_inl_combine_warp (Z.of_nat size) ty = Ret ds;
  so_blocks : (ds + 3) / 4 = n - 1;
  so_fit : 36 + av_size true ty + 32 * Z.of_nat size <= 64 * (n - 1);
  so_segs : ds = (36 + av_size true ty + 32 * Z.of_nat size + 15) / 16;
  so_room : 3 <= n <= 8
}.
Lemma sizes_total ty size : size = 1%nat \/ size = 2%nat \/ size = 4%nat \/ size = 8%nat /\ ty = RC -> exists n ds, sizes_ok ty size n ds.
Proof.
  intros [-> | [-> | [-> | [-> HR]]]]; [destruct ty|destruct ty|destruct ty|subst ty];
    (eexists _, _; split;
     [first [by right | left; split; [lia|]; first [by exists 4%nat | by exists 2%nat | by exists 1%nat]]
     |reflexivity|reflexivity|reflexivity|cbn; lia|reflexivity|lia]).
Qed.

(** ** One lane *)
Section Lane.
Context (c : mlx5dv) (Hc : mlx5dv_ok c) (base nwqes idx : Z) (Hn : depth_ok nwqes) (Hi : 0 <= idx) (H8 : 8 <= nwqes).
Context (t : dct_tables) (ty : qp_type) (d : Z) (av : list Z) (HD : dct_ok true ty t d av).
Context (qpn raddr rkey : Z).
Local Abbreviation at_ p := (wqe_ptr base nwqes idx (p / 64) + p mod 64).

Context (size : nat) (n ds : Z) (Hs : sizes_ok ty size n ds) (vals : list (list Z)) (Hv : Forall (fun v => length v = size) vals)
  (Hl : length vals = 32%nat).

Local Abbreviation a := (av_size true ty).
Definition header : list Z :=
  ctrl_seg c (HTOBE32 (ctrl_word idx (OPCODE_RDMA_WRITE c))) (HTOBE32 (u32 (Z.lor (Z.shiftl qpn 8) ds))) 0 ++
  target_av true ty av ++ raddr_seg c (u64 raddr) rkey ++ inl_seg c (Z.of_nat size * 32).
Definition nop_seg : list Z :=
  ctrl_seg c (HTOBE32 (Z.lor (Z.shiftl (u16 (idx + (n - 1))) 8) (OPCODE_NOP c))) (HTOBE32 (u32 (Z.lor (Z.shiftl qpn 8) 1))) (WQE_CTRL_CQ_UPDATE c).
Definition image (k : Z) : Z :=
  default 0 (if bool_decide (64 * (n - 1) <= k) then nop_seg !! Z.to_nat (k - 64 * (n - 1)) else (header ++ concat vals) !! Z.to_nat k).

Lemma length_header : Z.of_nat (length header) = 36 + a.
Proof.
  unfold header. rewrite !length_app, (length_ctrl_seg c Hc), (length_raddr_seg c Hc), (length_target_av _ _ _ _ _ HD).
  unfold inl_seg. rewrite length_le_bytes. destruct ty; cbn; lia.
Qed.
Lemma read_image p len : (p + len <= length (header ++ concat vals))%nat -> read image (Z.of_nat p) len = take len (drop p (header ++ concat vals)).
Proof.
  intros H. rewrite <- read_list by done. unfold read. apply list_fmap_ext. intros i k Hk. apply lookup_seqZ in Hk as [-> Hk].
  unfold image. rewrite bool_decide_false; [done|]. pose proof (so_fit _ _ _ _ Hs). pose proof length_header.
  rewrite length_app, (length_concat_same _ size Hv) in H. lia.
Qed.
Lemma read_nop : read image (64 * (n - 1)) 16 = nop_seg.
Proof.
  transitivity (read (fun k => default 0 (nop_seg !! Z.to_nat k)) (Z.of_nat 0) 16).
  - unfold read. rewrite <- (Z.add_0_r (64 * (n - 1))), <- fmap_add_seqZ, <- list_fmap_compose. apply list_fmap_ext. intros i k Hk.
    apply lookup_seqZ in Hk as [-> Hk]. unfold compose, image. rewrite bool_decide_true by lia. do 3 f_equal. lia.
  - rewrite read_list by (unfold nop_seg; rewrite (length_ctrl_seg c Hc); lia). unfold nop_seg.
    rewrite drop_0. apply firstn_all2. rewrite (length_ctrl_seg c Hc). lia.
Qed.

(** The parts of the image *)
Lemma image_ctrl : read image 0 16 =
  ctrl_seg c (HTOBE32 (ctrl_word idx (OPCODE_RDMA_WRITE c))) (HTOBE32 (u32 (Z.lor (Z.shiftl qpn 8) ds))) 0.
Proof.
  pose proof length_header as HL. rewrite (read_image 0) by (rewrite length_app; destruct ty; cbn in HL; lia).
  unfold header. rewrite drop_0, <- !app_assoc. apply take_app_length'. by rewrite (length_ctrl_seg c Hc).
Qed.
Lemma image_av : read image 16 (Z.to_nat a) = target_av true ty av.
Proof.
  pose proof length_header as HL. rewrite (read_image 16) by (rewrite length_app; destruct ty; cbn in *; lia).
  unfold header. rewrite <- !app_assoc, drop_app_at by (by rewrite (length_ctrl_seg c Hc)). apply take_app_length'.
  by rewrite (length_target_av _ _ _ _ _ HD).
Qed.
Lemma image_raddr : read image (16 + a) 16 = raddr_seg c (u64 raddr) rkey.
Proof.
  pose proof length_header as HL. replace (16 + a) with (Z.of_nat (16 + Z.to_nat a)) by (destruct ty; cbn; lia).
  rewrite read_image by (rewrite length_app; destruct ty; cbn in *; lia).
  unfold header. rewrite <- !app_assoc, (app_assoc (ctrl_seg _ _ _ _)), drop_app_at
    by (by rewrite length_app, (length_ctrl_seg c Hc), (length_target_av _ _ _ _ _ HD)).
  apply take_app_length'. by rewrite (length_raddr_seg c Hc).
Qed.
Lemma image_inl : read image (32 + a) 4 = inl_seg c (Z.of_nat size * 32).
Proof.
  pose proof length_header as HL. replace (32 + a) with (Z.of_nat (32 + Z.to_nat a)) by (destruct ty; cbn; lia).
  rewrite read_image by (rewrite length_app; destruct ty; cbn in *; lia).
  unfold header. rewrite <- !app_assoc, (app_assoc (target_av _ _ _)), (app_assoc (ctrl_seg _ _ _ _)), drop_app_at
    by (rewrite !length_app, (length_ctrl_seg c Hc), (length_target_av _ _ _ _ _ HD), (length_raddr_seg c Hc); lia).
  by apply take_app_length'.
Qed.
Lemma image_data p len : (p + len <= 32 * size)%nat -> read image (36 + a + Z.of_nat p) len = take len (drop p (concat vals)).
Proof.
  intros H. pose proof length_header as HL. replace (36 + a + Z.of_nat p) with (Z.of_nat (length header + p)) by lia.
  rewrite read_image by (rewrite length_app, (length_concat_same _ size Hv); lia).
  by rewrite <- drop_drop, drop_app_length.
Qed.

(** Byte [k] of the data lies at offset [36 + a + k] of the WQE. *)
Lemma inl_data_ptr_ok k : 0 <= k < 32 * Z.of_nat size ->
  inl_data_ptr (at_ (32 + a)) (28 - a) (ptrs base nwqes idx 8) 0 k = Ret (at_ (36 + a + k)).
Proof.
  intros Hk. pose proof (so_fit _ _ _ _ Hs). pose proof (so_room _ _ _ _ Hs). unfold inl_data_ptr.
  assert (a = 16 \/ a = 0) as Ha by (destruct ty; auto). case_bool_decide as HK.
  - rewrite (Z.div_small (32 + a)), (Z.mod_small (32 + a)), (Z.div_small (36 + a + k)), (Z.mod_small (36 + a + k)) by lia. f_equal. lia.
  - replace (36 + a + k) with (k - (28 - a) + 1 * 64) by lia. rewrite Z.div_add, Z.mod_add, Z.add_0_r by lia.
    assert (0 <= (k - (28 - a)) / 64 < 7) by (split; [apply Z.div_pos|apply Z.div_lt_upper_bound]; lia).
    rewrite arr_get_ptrs, outcome_bind_ret by lia. do 2 f_equal. change (64 - 1) with (Z.ones 6). rewrite Z.land_ones by lia. done.
Qed.

(** A piece of a value lies in one block. *)
Lemma piece_fits k (v : list Z) : 0 <= k -> k + Z.of_nat (length v) <= 32 * Z.of_nat size -> (1 <= length v)%nat -> (length v | 4)%nat ->
  (Z.of_nat (length v) | k) -> fits nwqes (36 + a + k) v.
Proof.
  intros Hk Hb H1 [q Hq] [r Hr]. pose proof (so_fit _ _ _ _ Hs). pose proof (so_room _ _ _ _ Hs).
  assert (a = 16 \/ a = 0) as Ha by (destruct ty; auto). apply fits_seg with (n - 1); [lia| |lia|lia].
  assert (length v = 1 \/ length v = 2 \/ length v = 4)%nat as HL
    by (destruct (length v) as [|[|[|[|[|?]]]]]; [lia|auto|auto|lia|auto|nia]).
  pose proof (Z.mod_pos_bound (36 + a + k) 64 ltac:(lia)). pose proof (Z.div_mod (36 + a + k) 64 ltac:(lia)).
  assert (exists z, 36 + a + k = Z.of_nat (length v) * z) as [z Hz].
  { exists (r + Z.of_nat q * (if bool_decide (a = 16) then 13 else 9)). case_bool_decide; nia. }
  set (blk := (36 + a + k) / 64) in *. destruct HL as [HL | [HL | HL]]; rewrite HL in *; lia.
Qed.

Lemma store_pieces_ok k ps m : 0 <= k -> k + Z.of_nat (length (concat ps)) <= 32 * Z.of_nat size ->
  Forall (fun v => 1 <= length v)%nat ps ->
  store_pieces (at_ (32 + a)) (28 - a) (ptrs base nwqes idx 8) 0 k ps m =
  Ret (snd (foldl (fun '(k, m) v => (k + Z.of_nat (length v), wst base nwqes idx (36 + a + k) v m)) (k, m) ps)).
Proof.
  revert k m. induction ps as [|v ps IH]; intros k m Hk Hb HF; [done|]. inversion HF as [|? ? H1 HF']; subst.
  cbn [concat] in Hb. rewrite length_app in Hb. cbn [store_pieces foldl]. rewrite inl_data_ptr_ok by lia.
  rewrite outcome_bind_ret, IH by (done || lia). done.
Qed.

Definition lane (i : Z) (m : mem) : outcome mem :=
  ibgda_write_rdma_write_inl_wqe_combine_warp c t ty qpn d (vals !!! Z.to_nat i) (u64 (raddr + i * Z.of_nat size)) rkey idx i
    (ptrs base nwqes idx 8) m.
Definition pieces (v : list Z) : list (list Z) := if bool_decide (Z.of_nat (length v) <= 4) then [v] else [take 4 v; drop 4 v].

Lemma lane_value i : 0 <= i < 32 -> exists v, vals !! Z.to_nat i = Some v /\ vals !!! Z.to_nat i = v /\ length v = size.
Proof.
  intros Hr. destruct (lookup_lt_is_Some_2 vals (Z.to_nat i)) as [v Hx]; [lia|]. exists v. split; [done|]. split.
  - by apply list_lookup_total_correct.
  - by apply (proj1 (Forall_lookup _ _) Hv (Z.to_nat i) v).
Qed.

Lemma pieces_cover v : length v = size -> length (concat (pieces v)) = size /\ Forall (fun p => 1 <= length p)%nat (pieces v).
Proof.
  intros HL. unfold pieces. rewrite HL. destruct (so_size _ _ _ _ Hs) as [[? Hq] | [HS _]]; case_bool_decide;
    try apply Nat.divide_pos_le in Hq; try lia; cbn [concat];
    rewrite ?app_nil_r, ?length_app, ?length_take, ?length_drop; (split; [lia|]);
    repeat constructor; rewrite ?length_take, ?length_drop; lia.
Qed.

Lemma lane_raddr i : u64 (u64 (raddr + i * Z.of_nat size) - i * Z.of_nat size) = u64 raddr.
Proof. unfold u64. rewrite Zminus_mod_idemp_l. f_equal. lia. Qed.

Lemma lane_stores i m : 0 <= i < 32 ->
  lane i m = Ret (wst base nwqes idx (64 * (n - 1)) nop_seg
    (snd (foldl (fun '(k, m) v => (k + Z.of_nat (length v), wst base nwqes idx (36 + a + k) v m)) (i * Z.of_nat size,
       wst base nwqes idx (32 + a) (inl_seg c (Z.of_nat size * 32)) (wst base nwqes idx (16 + a) (raddr_seg c (u64 raddr) rkey)
       (wst base nwqes idx 16 (target_av true ty av)
         (wst base nwqes idx 0 (ctrl_seg c (HTOBE32 (ctrl_word idx (OPCODE_RDMA_WRITE c))) (HTOBE32 (u32 (Z.lor (Z.shiftl qpn 8) ds))) 0) m))))
       (pieces (vals !!! Z.to_nat i))))).
Proof.
  intros Hr. destruct (lane_value i Hr) as (v & _ & HV & HL). unfold lane, ibgda_write_rdma_write_inl_wqe_combine_warp. rewrite HV, HL.
  pose proof (so_room _ _ _ _ Hs). rewrite (arr_get_ptrs _ _ _ 8 0), outcome_bind_ret by lia.
  rewrite (so_ds _ _ _ _ Hs), outcome_bind_ret, (so_n _ _ _ _ Hs), outcome_bind_ret.
  replace (match ty with DCI => (16, 12) | RC => (0, 28) end) with (a, 28 - a) by (by destruct ty).
  cbv beta iota zeta. unfold store_seg. rewrite (store_av_ok base nwqes idx true ty t d av), outcome_bind_ret, lane_raddr by done.
  replace (bool_decide _ || _) with true
    by (destruct (so_size _ _ _ _ Hs) as [[? Hq] | [-> ->]]; [|done]; apply Nat.divide_pos_le in Hq; [|lia]; by rewrite bool_decide_true by lia).
  cbn [cassert]. rewrite outcome_bind_ret. unfold pieces. rewrite HL.
  rewrite (wst_at base nwqes idx _ 0 _ m) by (eval_block; lia).
  rewrite (wst_at base nwqes idx _ (16 + a) (raddr_seg c _ _)), (wst_at base nwqes idx _ (32 + a) (inl_seg c _)) by (destruct ty; cbn [av_size]; eval_block; lia).
  replace (wqe_ptr base nwqes idx 0 + 16 + a + 16) with (at_ (32 + a)) by (destruct ty; cbn [av_size]; eval_block; lia).
  destruct (pieces_cover v HL) as [HP1 HP2]. unfold pieces in HP1, HP2. rewrite HL in HP1, HP2.
  rewrite store_pieces_ok; [|lia|rewrite HP1; nia|done].
  rewrite outcome_bind_ret, arr_get_ptrs, outcome_bind_ret by lia. f_equal. fold nop_seg. apply wst_at.
  rewrite (Z.mul_comm 64), Z.div_mul, Z.mod_mul by lia. lia.
Qed.

Local Abbreviation img_ := image.
Local Abbreviation paints := (painted base nwqes idx image).
Fixpoint pieces_in (k : Z) (ps : list (list Z)) : Prop :=
  match ps with
  | [] => True
  | v :: ps => fits nwqes (36 + a + k) v /\ read image (36 + a + k) (length v) = v /\ pieces_in (k + Z.of_nat (length v)) ps
  end.
Lemma pieces_painted k ps m : pieces_in k ps ->
  paints (within (36 + a + k) (Z.of_nat (length (concat ps)))) m
    (snd (foldl (fun '(k, m) v => (k + Z.of_nat (length v), wst base nwqes idx (36 + a + k) v m)) (k, m) ps)).
Proof.
  revert k m. induction ps as [|v ps IH]; intros k m HP.
  - intros j Hj. unfold within. cbn. split; [lia|done].
  - destruct HP as (H1 & H2 & H3). cbn [foldl concat]. rewrite length_app.
    eapply painted_iff; [|eapply (painted_trans base nwqes idx image (within (36 + a + k) (Z.of_nat (length v)))
      (within (36 + a + (k + Z.of_nat (length v))) (Z.of_nat (length (concat ps)))));
      [apply _|apply _|by apply (painted_wst base nwqes idx Hn Hi)|by apply IH]].
    intros j _. unfold within. lia.
Qed.

Lemma lane_pieces i v : 0 <= i < 32 -> vals !! Z.to_nat i = Some v -> length v = size -> pieces_in (i * Z.of_nat size) (pieces v).
Proof.
  intros Hr HV HL. pose proof (concat_piece vals size _ v Hv HV) as HC. unfold pieces. rewrite HL.
  assert (forall off, i * Z.of_nat size + Z.of_nat off = Z.of_nat (Z.to_nat i * size + off)) as HZ
    by (intros; rewrite Nat2Z.inj_add, Nat2Z.inj_mul, Z2Nat.id by lia; done).
  assert (Z.to_nat i * size + size <= 32 * size)%nat as HB by nia.
  destruct (so_size _ _ _ _ Hs) as [[H1 Hq] | [HS _]].
  - pose proof (Nat.divide_pos_le size 4 ltac:(lia) Hq). rewrite bool_decide_true by lia. cbn [pieces_in]. split_and!; [| |done].
    + apply piece_fits; rewrite ?HL; try done; try nia. apply Z.divide_factor_r.
    + rewrite HL. specialize (HZ 0%nat). rewrite Z.add_0_r, Nat.add_0_r in HZ. rewrite HZ, image_data by lia. done.
  - rewrite bool_decide_false by lia. cbn [pieces_in]. rewrite !length_take, !length_drop, HL, HS.
    change (Z.of_nat (4 `min` 8)) with 4. change (8 - 4)%nat with 4%nat. change (4 `min` 8)%nat with 4%nat. split_and!; [| | | |done].
    + apply piece_fits; rewrite ?length_take, ?HL, ?HS; cbn; try lia; [by exists 1%nat|exists (i * 2); lia].
    + specialize (HZ 0%nat). rewrite Z.add_0_r, Nat.add_0_r, HS in HZ. rewrite HZ, image_data by lia.
      rewrite <- HC, HS, take_take. done.
    + apply piece_fits; rewrite ?length_drop, ?HL, ?HS; cbn; try lia; [by exists 1%nat|exists (i * 2 + 1); lia].
    + specialize (HZ 4%nat). rewrite HS in HZ. change (Z.of_nat 4) with 4 in HZ. rewrite HZ, image_data by lia.
      rewrite <- HC, HS, <- drop_drop. change 8%nat with (4 + 4)%nat at 2. by rewrite <- take_drop_commute.
Qed.

(** The bytes lane [i] sets *)
Definition lane_bytes (i k : Z) : Prop :=
  within 0 (36 + a) k \/ within (36 + a + i * Z.of_nat size) (Z.of_nat size) k \/ within (64 * (n - 1)) 16 k.
#[local] Instance lane_bytes_dec i k : Decision (lane_bytes i k).
Proof. unfold lane_bytes. apply _. Defined.

Lemma lane_painted i m : 0 <= i < 32 -> exists m', lane i m = Ret m' /\ paints (lane_bytes i) m m'.
Proof.
  intros Hr. destruct (lane_value i Hr) as (v & HV & HT & HL). pose proof (so_room _ _ _ _ Hs). pose proof (so_fit _ _ _ _ Hs).
  pose proof (length_target_av _ _ _ _ _ HD) as HA.
  eexists. split; [by apply lane_stores|]. rewrite HT. assert (a = 16 \/ a = 0) as Ha by (destruct ty; auto).
  set (ctrl := ctrl_seg c _ _ _). assert (length ctrl = 16%nat) as L1 by apply (length_ctrl_seg c Hc).
  set (ra := raddr_seg c _ _). assert (length ra = 16%nat) as L2 by apply (length_raddr_seg c Hc).
  set (inl := inl_seg c _). assert (length inl = 4%nat) as L3 by done.
  assert (length nop_seg = 16%nat) as L4 by apply (length_ctrl_seg c Hc).
  assert (fits nwqes 0 ctrl /\ fits nwqes 16 (target_av true ty av) /\ fits nwqes (16 + a) ra /\ fits nwqes (32 + a) inl) as (F1 & F2 & F3 & F4)
    by (unfold fits; rewrite L1, L2, L3, HA; destruct ty; cbn [av_size]; eval_block; lia).
  assert (fits nwqes (64 * (n - 1)) nop_seg) as F5
    by (apply fits_seg with n; [lia|rewrite L4, Z.mul_comm, Z.mod_mul; lia|lia|lia]).
  pose proof (painted_add base nwqes idx Hn Hi image _ 0 ctrl m m (painted_nil base nwqes idx image m) F1 ltac:(rewrite L1; apply image_ctrl)) as P.
  pose proof (painted_add base nwqes idx Hn Hi image _ 16 (target_av true ty av) _ _ P F2 ltac:(rewrite HA; apply image_av)) as P1.
  pose proof (painted_add base nwqes idx Hn Hi image _ (16 + a) ra _ _ P1 F3 ltac:(rewrite L2; apply image_raddr)) as P2.
  pose proof (painted_add base nwqes idx Hn Hi image _ (32 + a) inl _ _ P2 F4 ltac:(rewrite L3; apply image_inl)) as P3.
  pose proof (painted_trans base nwqes idx image _ _ _ _ _ P3 (pieces_painted _ _ _ (lane_pieces i v Hr HV HL))) as P4.
  pose proof (painted_add base nwqes idx Hn Hi image _ (64 * (n - 1)) nop_seg _ _ P4 F5 ltac:(rewrite L4; apply read_nop)) as P5.
  eapply painted_iff; [|exact P5]. intros k _. destruct (pieces_cover v HL) as [-> _]. rewrite L1, L2, L3, L4, HA. unfold lane_bytes, within.
  destruct Ha as [-> | ->]; cbn [Z.to_nat Pos.to_nat]; lia.
Qed.

(** ** The warp *)
Fixpoint lanes (order : list Z) (m : mem) : outcome mem :=
  match order with [] => Ret m | i :: order => m ← lane i m; lanes order m end.
Definition warp_bytes (order : list Z) (k : Z) : Prop := Exists (fun i => lane_bytes i k) order.
#[local] Instance warp_bytes_dec order k : Decision (warp_bytes order k).
Proof. unfold warp_bytes. apply _. Defined.

Lemma lanes_painted order m : Forall (fun i => 0 <= i < 32) order ->
  exists m', lanes order m = Ret m' /\ paints (warp_bytes order) m m'.
Proof.
  intros HF. revert m. induction HF as [|i order Hr HF IH]; intros m.
  - exists m. split; [done|]. eapply painted_iff; [|apply painted_nil]. intros k _. unfold warp_bytes. by rewrite Exists_nil.
  - destruct (lane_painted i m Hr) as (m1 & H1 & P1). destruct (IH m1) as (m2 & H2 & P2). exists m2. split.
    + cbn [lanes]. by rewrite H1, outcome_bind_ret.
    + eapply painted_iff; [|apply (painted_trans base nwqes idx image _ _ _ _ _ P1 P2)]. intros k _. unfold warp_bytes. by rewrite Exists_cons.
Qed.

Lemma warp_covers order k : (forall i, 0 <= i < 32 -> i ∈ order) ->
  within 0 (36 + a + 32 * Z.of_nat size) k \/ within (64 * (n - 1)) 16 k -> warp_bytes order k.
Proof.
  intros HO HW. unfold warp_bytes. rewrite Exists_exists.
  assert (1 <= size)%nat as H1 by (destruct (so_size _ _ _ _ Hs) as [[? _] | [-> _]]; lia). unfold lane_bytes, within in *.
  destruct (decide (36 + a <= k < 36 + a + 32 * Z.of_nat size)) as [HK|HK].
  - set (i := (k - (36 + a)) / Z.of_nat size). pose proof (Z.div_mod (k - (36 + a)) (Z.of_nat size) ltac:(lia)).
    pose proof (Z.mod_pos_bound (k - (36 + a)) (Z.of_nat size) ltac:(lia)).
    assert (0 <= i < 32) by (split; [apply Z.div_pos|apply Z.div_lt_upper_bound]; lia).
    exists i. split; [by apply list_elem_of_In, HO|]. right. left. fold i in H. lia.
  - exists 0. split; [apply list_elem_of_In, HO; lia|]. lia.
Qed.
End Lane.

(** When all 32 lanes of a warp have written their parts, in whatever
    order, the NIC finds one RDMA write of the 32 values in lane order, to the
    address of lane 0, in all but the last of the blocks reserved, and in the
    last a no-op that asks for the completion; no other block has changed. *)
Theorem combine_warp_roundtrip c base nwqes idx t ty d av qpn raddr rkey size vals order m :
  mlx5dv_ok c -> depth_ok nwqes -> 8 <= nwqes -> 0 <= idx -> dct_ok true ty t d av -> 0 <= qpn < 2 ^ 24 ->
  size = 1%nat \/ size = 2%nat \/ size = 4%nat \/ size = 8%nat /\ ty = RC ->
  length vals = 32%nat -> Forall (fun v => length v = size) vals ->
  Forall (fun i => 0 <= i < 32) order -> (forall i, 0 <= i < 32 -> i ∈ order) ->
  exists n m' r, ibgda_get_num_wqes_in_inl_combine_warp (Z.of_nat size) ty = Ret n /\
    lanes c base nwqes idx t ty d qpn raddr rkey size vals order m = Ret m' /\
    decode c ty (view base nwqes idx m') = Some r /\
    rq_qpn r = qpn /\ rq_wqe_idx r = u16 idx /\ request_blocks r = n - 1 /\
    rq_body r = BWrite (target_av true ty av) (u64 raddr) (key_of rkey) (Inline (concat vals)) /\
    decode c ty (view base nwqes (idx + (n - 1)) m') = Some (MkRequest qpn (u16 (idx + (n - 1))) (u8 (WQE_CTRL_CQ_UPDATE c)) 1 BNop) /\
    (forall k, 64 * n <= k < 64 * nwqes -> view base nwqes idx m' k = view base nwqes idx m k).
Proof.
  intros Hc Hn H8 Hi HD Hq Hz Hl Hv HF HO. destruct (sizes_total ty size Hz) as (n & ds & Hs).
  pose proof (so_room _ _ _ _ Hs) as HR. pose proof (so_fit _ _ _ _ Hs) as HT. pose proof (so_segs _ _ _ _ Hs) as HG.
  assert (av_size true ty = 16 \/ av_size true ty = 0) as Ha by (destruct ty; auto).
  destruct (lanes_painted c Hc base nwqes idx Hn Hi H8 t ty d av HD qpn raddr rkey size n ds Hs vals Hv Hl order m HF) as (m' & HM & HP).
  assert (forall p len, 0 <= p -> p + Z.of_nat len <= 36 + av_size true ty + 32 * Z.of_nat size ->
    read (view base nwqes idx m') p len = read (image c idx ty av qpn raddr rkey size n ds vals) p len) as HI.
  { intros p len Hp Hb. eapply painted_read; [exact HP|done|lia|]. intros k Hk. eapply warp_covers; try done.
    left. unfold within in *. lia. }
  assert (Z.of_nat size <= 8 /\ 0 <= ds < 2 ^ 6) as [HB Hd].
  { split; [lia|]. rewrite HG. split; [apply Z.div_pos; lia|apply Z.div_lt_upper_bound; lia]. }
  eexists n, m', _. split; [apply (so_n _ _ _ _ Hs)|]. split; [done|]. split.
  - apply (decode_parts c Hc idx true true t ty d av) with (ds := ds) (qpn := qpn) (fm := 0) (raddr := u64 raddr) (rkey := rkey)
      (p := Inline (concat vals)); try done.
    + rewrite HI by lia. by eapply image_ctrl.
    + rewrite HI by lia. by eapply image_av.
    + rewrite HI by lia. by eapply image_raddr.
    + apply (decode_inline c Hc) with (n := Z.of_nat size * 32); [lia| |].
      * rewrite HI by lia. replace (16 + _ + 16) with (32 + av_size true ty) by lia. by eapply image_inl.
      * rewrite HI by lia. replace (16 + _ + 16 + 4) with (36 + av_size true ty + Z.of_nat 0) by lia.
        replace (Z.to_nat (Z.of_nat size * 32)) with (32 * size)%nat by lia.
        rewrite (image_data c Hc idx t ty d av HD qpn raddr rkey size n ds Hs vals Hv Hl) by lia.
        rewrite drop_0. apply firstn_all2. rewrite (length_concat_same _ size Hv). lia.
    + rewrite HG. unfold payload_ds. f_equal. rewrite (length_concat_same _ size Hv). lia.
  - cbn [rq_qpn rq_wqe_idx rq_fm_ce_se rq_ds rq_body]. split_and!; try done.
    + apply (so_blocks _ _ _ _ Hs).
    + unfold u64. by rewrite Z.mod_mod by lia.
    + apply (decode_nop c Hc) with (opmod := 0). apply (head_of c Hc (idx + (n - 1))); try lia.
      * rewrite read_shift by lia. rewrite Z.add_0_r.
        rewrite (painted_read base nwqes idx _ _ _ _ _ _ HP) by
          (first [lia | intros k Hk; eapply warp_covers; try done; right; unfold within in *; lia]).
        by eapply read_nop.
      * unfold opcodes. rewrite !elem_of_cons. tauto.
    + intros k Hk. apply HP; [lia|]. unfold warp_bytes. rewrite Exists_exists. intros (i & HE & HL).
      apply list_elem_of_In in HE. rewrite Forall_forall in HF. apply list_elem_of_In, HF in HE. unfold lane_bytes, within in HL. nia.
Qed.

Definition ex_half_av : list Z := replicate 8 7 ++ [0] ++ replicate 39 5.
Definition ex_half_dcts : dct_tables := MkDctTables [ex_half_av] [].
Lemma ex_half_dct_ok : dct_ok true DCI ex_half_dcts 0 ex_half_av.
Proof. intros _. by vm_compute. Qed.
Lemma depth8_ok : depth_ok 8.
Proof. split; [lia|by exists 3]. Qed.
Definition ex_vals : list (list Z) := (fun i => [i; i + 1; 0; 9]) <$> seqZ 0 32.

Lemma combine_warp_roundtrip_witness : exists n m' r,
  ibgda_get_num_wqes_in_inl_combine_warp 4 DCI = Ret n /\
  lanes mlx5 65536 8 7 ex_half_dcts DCI 0 77 8192 (HTOBE32 6) 4 ex_vals (seqZ 0 32) ∅ = Ret m' /\
  decode mlx5 DCI (view 65536 8 7 m') = Some r /\
  rq_qpn r = 77 /\ rq_wqe_idx r = u16 7 /\ request_blocks r = n - 1 /\
  rq_body r = BWrite (target_av true DCI ex_half_av) (u64 8192) (key_of (HTOBE32 6)) (Inline (concat ex_vals)) /\
  decode mlx5 DCI (view 65536 8 (7 + (n - 1)) m') = Some (MkRequest 77 (u16 (7 + (n - 1))) (u8 (WQE_CTRL_CQ_UPDATE mlx5)) 1 BNop) /\
  (forall k, 64 * n <= k < 64 * 8 -> view 65536 8 7 m' k = view 65536 8 7 ∅ k).
Proof.
  apply (combine_warp_roundtrip mlx5 65536 8 7 ex_half_dcts DCI 0 ex_half_av 77 8192 (HTOBE32 6) 4 ex_vals (seqZ 0 32) ∅ mlx5_ok depth8_ok);
    [lia|lia|apply ex_half_dct_ok|lia|auto|done| | |].
  - by apply (bool_decide_unpack (Forall _ ex_vals)).
  - by apply (bool_decide_unpack (Forall _ (seqZ 0 32))).
  - intros i Hi. apply elem_of_seqZ. lia.
Defined.
End IbgdaWarp.
