(* ===== verification/IbgdaKeys.v ===== *)
(** * GPU-initiated InfiniBand: memory keys

    src/src/modules/transport/ibgda/ibgda.cpp ([nvshmemt_ibgda_get_mem_handle],
    [nvshmemt_ibgda_release_mem_handle], [nvshmemt_ibgda_add_device_remote_mem_handles])
    and ibgda_device.cuh ([ibgda_get_lkey], [ibgda_get_raddr_rkey]): how the host
    publishes the keys of registered memory and how device threads find them.

    Keys of the symmetric heap are tables with an entry per granule of the heap,
    device (and, for remote keys, PE), the first 64 entries in constant memory
    and the rest in a global array.  Buffers outside of the heap are a linked
    list in GPU memory, of which the host keeps a copy.  The keys themselves
    come from registering the memory with the devices, and whether a CUDA call
    succeeds is an input ([cuda]).  The device state of the host is taken as what
    the device sees. *)
From stdpp Require Import base gmap list option.
From Stdlib Require Import ZArith Lia.
From S2P Require Import Prelude IbgdaQueue IbgdaQp IbgdaHost IbgdaWqe.

Module IbgdaKeys.
Import IbgdaQueue IbgdaQp IbgdaHost IbgdaWqe.

(** ** State *)
(** [nvshmemi_ibgda_device_key_t] *)
Record dev_key := MkKey { key : Z; next_addr : Z }.
#[export] Instance dev_key_eq_dec : EqDecision dev_key.
Proof. solve_decision. Defined.
Definition zero_key : dev_key := MkKey 0 0.
(** [nvshmemi_ibgda_device_local_only_mhandle_t] *)
Record mhandle := MkMhandle { mh_start : Z; mh_end : Z; mh_sysmem : bool; mh_lkeys : list Z; mh_next : option Z }.
Definition set_next (h : mhandle) (p : option Z) : mhandle := MkMhandle (mh_start h) (mh_end h) (mh_sysmem h) (mh_lkeys h) p.
(** [ibgda_device_local_only_mhandle_cache] *)
Record mcache := MkMcache { mc_mhandle : mhandle; mc_dev_ptr : Z }.

(** A table of keys: the host's vector, [constmem] and [globalmem] *)
Record table := MkTable { tb_host : list dev_key; tb_const : list dev_key; tb_global : option (list dev_key) }.
Record mem_state := MkMem {
  ms_lkeys : table;
  ms_rkeys : table;
  ms_cache : list mcache;      (* ibgda_device_local_only_mhandles *)
  ms_head : option Z;          (* globalmem.local_only_mhandle_head *)
  ms_gpu : gmap Z mhandle      (* the elements allocated in GPU memory *)
}.
Definition with_lkeys (s : mem_state) (t : table) : mem_state := MkMem t (ms_rkeys s) (ms_cache s) (ms_head s) (ms_gpu s).
Definition with_rkeys (s : mem_state) (t : table) : mem_state := MkMem (ms_lkeys s) t (ms_cache s) (ms_head s) (ms_gpu s).
Definition with_list (s : mem_state) (c : list mcache) (h : option Z) (g : gmap Z mhandle) : mem_state :=
  MkMem (ms_lkeys s) (ms_rkeys s) c h g.

Definition MAX_CONST_KEYS : Z := 64.
Definition init_table : table := MkTable [] (replicate 64 zero_key) None.

(** ** Tables *)
(** [resize(n)], never down where it is called *)
Definition vec_resize (v : list dev_key) (n : Z) : list dev_key :=
  if bool_decide (Z.of_nat (length v) < n) then v ++ replicate (Z.to_nat n - length v) zero_key else v.
(** [at(i) = k] *)
Definition vec_at_set (v : list dev_key) (i : Z) (k : dev_key) : outcome (list dev_key) :=
  if bool_decide (0 <= i < Z.of_nat (length v)) then Ret (<[Z.to_nat i := k]> v) else Fail FThrow.

(** Whether the CUDA calls of an operation succeed: [cudaFree], [cudaMalloc]
    (with the address), the copies, the synchronisation *)
Record cuda := MkCuda { cu_attr : bool; cu_free : bool; cu_malloc : option Z; cu_copy : bool; cu_link : bool; cu_sync : bool }.

(** The copy of the vector to constant and global memory: constant memory takes
    the first entries, a new global array the others. *)
Definition publish (cu : cuda) (t : table) : bool * table :=
  match tb_global t with
  | Some _ => if cu_free cu then (true, MkTable (tb_host t) (tb_const t) None) else (false, t)
  | None => (true, t)
  end.
Definition publish_const (t : table) : table :=
  let n := Z.to_nat (Z.min (Z.of_nat (length (tb_host t))) MAX_CONST_KEYS) in
  MkTable (tb_host t) (take n (tb_host t) ++ drop n (tb_const t)) (tb_global t).
Definition publish_rest (cu : cuda) (t : table) : bool * table :=
  if bool_decide (Z.of_nat (length (tb_host t)) > MAX_CONST_KEYS) then
    match cu_malloc cu with
    | None => (false, t)
    | Some _ => if cu_copy cu then (true, MkTable (tb_host t) (tb_const t) (Some (drop (Z.to_nat MAX_CONST_KEYS) (tb_host t)))) else (false, t)
    end
  else (true, t).
(** The end of [nvshmemt_ibgda_get_mem_handle] for memory of the heap: any
    failure clears the vector ("unrecoverable") *)
Definition publish_lkeys (cu : cuda) (t : table) : bool * table :=
  let '(ok, t) := publish cu t in
  if ok then let '(ok, t) := publish_rest cu (publish_const t) in
    if ok && cu_sync cu then (true, t) else (false, MkTable [] (tb_const t) (tb_global t))
  else (false, MkTable [] (tb_const t) (tb_global t)).
(** The end of [nvshmemt_ibgda_add_device_remote_mem_handles]: it waits only for
    a copy it has made, and a failure frees the global array too *)
Definition publish_rkeys (cu : cuda) (t : table) : bool * table :=
  let '(ok, t) := publish cu t in
  if ok then let '(ok, t) := publish_rest cu (publish_const t) in
    if ok && (cu_sync cu || bool_decide (Z.of_nat (length (tb_host t)) <= MAX_CONST_KEYS)) then (true, t) else (false, MkTable [] (tb_const t) None)
  else (false, MkTable [] (tb_const t) None).

(** [device_key = state->constmem.lkeys + idx] or [globalmem.lkeys + idx - MAX] *)
Definition table_key (t : table) (idx : Z) : outcome dev_key :=
  if bool_decide (idx < MAX_CONST_KEYS) then arr_get (tb_const t) idx
  else match tb_global t with None => Fail FUndef | Some l => arr_get l (idx - MAX_CONST_KEYS) end.

Section Host.
Context (heap_base log2_gran n_devs : Z).

(** The entries of one granule, and the loop over the granules from the last to
    the first *)
Definition lkey_row (granule end_addr : Z) (lkeys : list Z) (v : list dev_key) : outcome (list dev_key) :=
  for_list (fun i v => k ← arr_get lkeys i; vec_at_set v (granule * n_devs + i) (MkKey (HTOBE32 k) end_addr)) (seqZ 0 n_devs) v.
Fixpoint set_lkeys (num_elements : nat) (chunk_idx end_addr : Z) (lkeys : list Z) (v : list dev_key) : outcome (list dev_key) :=
  match num_elements with
  | O => Ret v
  | S n => v ← lkey_row (chunk_idx + Z.of_nat (S n) - 1) end_addr lkeys v; set_lkeys n chunk_idx end_addr lkeys v
  end.
(** [nvshmemt_ibgda_get_mem_handle] for memory of the heap; [lkeys] are the keys
    of the registrations, one for each device *)
Definition get_mem_handle_heap (cu : cuda) (buf length : Z) (lkeys : list Z) (s : mem_state) : outcome (bool * mem_state) :=
  cassert (bool_decide (Z.land length (2 ^ log2_gran - 1) = 0));;
  let num_elements := Z.shiftr length log2_gran in
  let chunk_idx := u64 (Z.shiftr (buf - heap_base) log2_gran) in
  let num_chunks := Z.shiftr (u64 (buf - heap_base + length + log2_gran - 1)) log2_gran in
  let v := vec_resize (tb_host (ms_lkeys s)) (num_chunks * n_devs) in
  v ← set_lkeys (Z.to_nat num_elements) chunk_idx (u64 (buf + length)) lkeys v;
  let '(ok, t) := publish_lkeys cu (MkTable v (tb_const (ms_lkeys s)) (tb_global (ms_lkeys s))) in
  Ret (ok, with_lkeys s t).

(** [nvshmemt_ibgda_get_mem_handle] for other buffers *)
Definition get_mem_handle_local (cu : cuda) (buf length : Z) (is_sysmem : bool) (lkeys : list Z) (s : mem_state) : bool * mem_state :=
  match cu_attr cu, cu_malloc cu with
  | true, Some d =>
      let mh := MkMhandle buf (u64 (buf + length - 1)) is_sysmem (HTOBE32 <$> lkeys) None in
      if negb (cu_copy cu) then (false, s)
      else
        let gpu := <[d := mh]> (ms_gpu s) in
        let '(ok, cache, head, gpu) :=
          match list.last (ms_cache s) with
          | None => (true, ms_cache s, Some d, gpu)
          | Some l =>
              let cache := alter (fun c => MkMcache (set_next (mc_mhandle c) (Some d)) (mc_dev_ptr c)) (List.length (ms_cache s) - 1)%nat (ms_cache s) in
              (cu_link cu, cache, ms_head s, if cu_link cu then alter (fun h => set_next h (Some d)) (mc_dev_ptr l) gpu else gpu)
          end in
        let cache' := cache ++ [MkMcache mh d] in
        if negb ok then (false, with_list s cache head (delete d gpu))
        else if cu_sync cu then (true, with_list s cache' head gpu)
        else (false, with_list s (removelast cache') head (delete d gpu))  (* pop_back *)
  | _, _ => (false, s)
  end.
Definition nvshmemt_ibgda_get_mem_handle (cu : cuda) (buf length : Z) (local_only is_sysmem : bool) (lkeys : list Z) (s : mem_state)
  : outcome (bool * mem_state) :=
  if local_only then Ret (get_mem_handle_local cu buf length is_sysmem lkeys s) else get_mem_handle_heap cu buf length lkeys s.

(** [nvshmemt_ibgda_release_mem_handle], of a [local_only] handle for [buf]; that
    of memory of the heap leaves the tables as they are *)
Definition nvshmemt_ibgda_release_mem_handle (cu : cuda) (buf : Z) (s : mem_state) : bool * mem_state :=
  match list_find (fun c => mh_start (mc_mhandle c) = buf) (ms_cache s) with
  | None => (false, s)
  | Some (position, curr) =>
      let next := mc_dev_ptr <$> ms_cache s !! S position in
      let '(ok, cache, head, gpu) :=
        match position with
        | O => (true, ms_cache s, next, ms_gpu s)
        | S p =>
            match ms_cache s !! p with
            | Some prev =>
                let cache := alter (fun c => MkMcache (set_next (mc_mhandle c) next) (mc_dev_ptr c)) p (ms_cache s) in
                (cu_link cu, cache, ms_head s,
                 if cu_link cu then alter (fun h => set_next h next) (mc_dev_ptr prev) (ms_gpu s) else ms_gpu s)
            | None => (true, ms_cache s, ms_head s, ms_gpu s)
            end
        end in
      if negb ok then (false, with_list s cache head gpu)
      else if negb (cu_free cu) then (false, with_list s cache head gpu)
      else (cu_sync cu, with_list s (delete position cache) head (delete (mc_dev_ptr curr) gpu))
  end.

(** [nvshmemt_ibgda_add_device_remote_mem_handles]; [rkeys] are the keys in the
    handles of each PE *)
Definition rkey_pe (granule n_pes end_addr i : Z) (ks : list Z) (v : list dev_key) : outcome (list dev_key) :=
  for_list (fun j v => k ← arr_get ks j;
    vec_at_set v (granule * n_pes * n_devs + i * n_devs + j) (MkKey (HTOBE32 k) end_addr)) (seqZ 0 n_devs) v.
Definition rkey_row (granule n_pes end_addr : Z) (rkeys : list (list Z)) (v : list dev_key) : outcome (list dev_key) :=
  for_list (fun i v => ks ← arr_get rkeys i;
    cassert (bool_decide (n_devs = Z.of_nat (length ks)));; rkey_pe granule n_pes end_addr i ks v) (seqZ 0 n_pes) v.
Fixpoint set_rkeys (n_pes : Z) (num_elements : nat) (chunk_idx end_addr : Z) (rkeys : list (list Z)) (v : list dev_key) : outcome (list dev_key) :=
  match num_elements with
  | O => Ret v
  | S n => v ← rkey_row (chunk_idx + Z.of_nat (S n) - 1) n_pes end_addr rkeys v; set_rkeys n_pes n chunk_idx end_addr rkeys v
  end.
Definition nvshmemt_ibgda_add_device_remote_mem_handles (n_pes : Z) (cu : cuda) (heap_offset size : Z) (rkeys : list (list Z)) (s : mem_state)
  : outcome (bool * mem_state) :=
  cassert (bool_decide (Z.land size (2 ^ log2_gran - 1) = 0));;
  let num_elements := Z.shiftr size log2_gran in
  let chunk_idx := Z.shiftr heap_offset log2_gran in
  let num_chunks := Z.shiftr (u64 (heap_offset + size + log2_gran - 1)) log2_gran in
  let v := vec_resize (tb_host (ms_rkeys s)) (num_chunks * n_pes * n_devs) in
  v ← set_rkeys n_pes (Z.to_nat num_elements) chunk_idx (u64 (heap_offset + size)) rkeys v;
  let '(ok, t) := publish_rkeys cu (MkTable v (tb_const (ms_rkeys s)) (tb_global (ms_rkeys s))) in
  Ret (ok, with_rkeys s t).
End Host.

(** ** Device *)
Section Device.
Context (st : device_state) (heap_base heap_size log2_gran heap_kind : Z) (peer_heap_base_remote : list Z).
Definition MAX_LEN : Z := 2 ^ 30.

(** The walk over the list; freed memory is not to be read *)
Fixpoint find_mhandle (fuel : nat) (gpu : gmap Z mhandle) (p : option Z) (addr : Z) : outcome mhandle :=
  match p with
  | None => Fail FAssert
  | Some d =>
      match fuel with
      | O => Fail FSpin
      | S fuel =>
          match gpu !! d with
          | None => Fail FUndef
          | Some h => if bool_decide (mh_start h <= addr) && bool_decide (addr <= mh_end h) then Ret h else find_mhandle fuel gpu (mh_next h) addr
          end
      end
  end.

(** [ibgda_get_lkey]: key, bytes up to the end of the chunk, whether it is in
    system memory *)
Definition ibgda_get_lkey (s : mem_state) (addr dev_idx : Z) : outcome (Z * Z * bool) :=
  let heap_end := u64 (heap_base + heap_size - 1) in
  if bool_decide (heap_base <= addr) && bool_decide (addr <= heap_end) then
    let idx := Z.shiftr (addr - heap_base) log2_gran * num_devices_initialized st + dev_idx in
    k ← table_key (ms_lkeys s) idx;
    cassert (bool_decide (addr < next_addr k));;
    Ret (key k, Z.min (next_addr k - addr) MAX_LEN, bool_decide (heap_kind = 1))
  else
    h ← find_mhandle (S (size (ms_gpu s))) (ms_gpu s) (ms_head s) addr;
    k ← arr_get (mh_lkeys h) dev_idx;
    Ret (k, Z.min (mh_end h - addr + 1) MAX_LEN, mh_sysmem h).

(** [ibgda_get_raddr_rkey]: remote address, key, bytes up to the end of the chunk *)
Definition ibgda_get_raddr_rkey (s : mem_state) (addr dst_pe proxy_pe dev_idx : Z) : outcome (Z * Z * Z) :=
  let roffset := u64 (addr - heap_base) in
  let idx := Z.shiftr roffset log2_gran * npes st * num_devices_initialized st + proxy_pe * num_devices_initialized st + dev_idx in
  k ← table_key (ms_rkeys s) idx;
  cassert (bool_decide (roffset < next_addr k));;
  base ← arr_get peer_heap_base_remote proxy_pe;
  let raddr := u64 (base + roffset) in
  let raddr := if bool_decide (dst_pe <> proxy_pe)
               then u64 (raddr + (Z.rem dst_pe (node_npes st) - node_mype st) * heap_size) else raddr in
  Ret (raddr, key k, next_addr k - roffset).
End Device.
End IbgdaKeys.
