(* ===== verification/IbgdaKeysSpec.v ===== *)
(** * Memory keys: what is published is what is found

    After any sequence of registrations of the heap, a device thread finds for
    every address of a registered region the key of that region and its end, for
    local memory and for the memory of every PE; and the list of the other
    buffers in GPU memory is the host's list, through registrations and
    releases.  At the end what a failed registration leaves behind. *)
From stdpp Require Import base gmap list option.
From Stdlib Require Import ZArith Lia.
From S2P Require Import Prelude IbgdaQueue IbgdaQp IbgdaHost IbgdaHostSpec IbgdaWqe IbgdaKeys.

Module IbgdaKeysSpec.
Import IbgdaQueue IbgdaQp IbgdaHost IbgdaHostSpec IbgdaWqe IbgdaKeys.

(** ** Intervals of a vector *)
Section Intervals.
Context (img : Z -> dev_key).

(** [v'] is [v] with the entries from [a] to [b] set as in [img] *)
Definition keyed (a b : Z) (v v' : list dev_key) : Prop :=
  length v' = length v /\
  forall j, 0 <= j -> v' !! Z.to_nat j = if bool_decide (a <= j < b) then Some (img j) else v !! Z.to_nat j.

Lemma keyed_nil a v : keyed a a v v.
Proof. split; [done|]. intros j Hj. by rewrite bool_decide_false by lia. Qed.
Lemma keyed_app a b c v v1 v2 : a <= b <= c -> keyed a b v v1 -> keyed b c v1 v2 -> keyed a c v v2.
Proof.
  intros Hb [L1 H1] [L2 H2]. split; [congruence|]. intros j Hj. rewrite H2, H1 by done. repeat case_bool_decide; (done || lia).
Qed.
Lemma keyed_app_r a b c v v1 v2 : a <= b <= c -> keyed b c v v1 -> keyed a b v1 v2 -> keyed a c v v2.
Proof.
  intros Hb [L1 H1] [L2 H2]. split; [congruence|]. intros j Hj. rewrite H2, H1 by done. repeat case_bool_decide; (done || lia).
Qed.
Lemma keyed_one j v : 0 <= j < Z.of_nat (length v) -> exists v', vec_at_set v j (img j) = Ret v' /\ keyed j (j + 1) v v'.
Proof.
  intros Hj. unfold vec_at_set. rewrite bool_decide_true by lia. eexists. split; [done|]. split; [by rewrite length_insert|].
  intros k Hk. rewrite insert_lookup_Z by lia. repeat case_bool_decide; subst; (done || lia).
Qed.

(** A loop that sets [w] entries in each round *)
Lemma for_keyed f base w n v : 0 <= n -> 0 <= w ->
  (forall i v1, 0 <= i < n -> length v1 = length v -> exists v2, f i v1 = Ret v2 /\ keyed (base + i * w) (base + (i + 1) * w) v1 v2) ->
  exists v', for_list f (seqZ 0 n) v = Ret v' /\ keyed base (base + n * w) v v'.
Proof.
  intros Hn Hw Hf. apply (for_seq_inv (fun k v1 => keyed base (base + k * w) v v1)); [done| |].
  - rewrite Z.mul_0_l, Z.add_0_r. apply keyed_nil.
  - intros k v1 Hk HK. destruct (Hf k v1 Hk (proj1 HK)) as (v2 & H2 & HK2). exists v2. split; [done|].
    eapply keyed_app; [|exact HK|exact HK2]. nia.
Qed.
End Intervals.

(** ** Publication *)
Definition cuda_ok (cu : cuda) : Prop :=
  cu_attr cu = true /\ cu_free cu = true /\ is_Some (cu_malloc cu) /\ cu_copy cu = true /\ cu_link cu = true /\ cu_sync cu = true.

(** Constant and global memory hold the vector. *)
Definition published (t : table) : Prop :=
  length (tb_const t) = 64%nat /\ forall j, 0 <= j < Z.of_nat (length (tb_host t)) -> table_key t j = arr_get (tb_host t) j.

Lemma publish_ok cu t : cuda_ok cu -> length (tb_const t) = 64%nat -> exists t', publish_rest cu (publish_const (snd (publish cu t))) = (true, t') /\
  fst (publish cu t) = true /\ tb_host t' = tb_host t /\ published t'.
Proof.
  intros (_ & HF & [p HM] & HC & _ & _) HL. unfold publish.
  assert (exists g, (match tb_global t with Some _ => if cu_free cu then (true, MkTable (tb_host t) (tb_const t) None) else (false, t)
    | None => (true, t) end) = (true, MkTable (tb_host t) (tb_const t) g) /\ g = None) as (g & -> & ->).
  { destruct t as [h c [l|]]; cbn; rewrite ?HF; eauto. }
  cbn [fst snd]. unfold publish_const, publish_rest. cbn [tb_host tb_const tb_global]. rewrite HM, HC.
  set (n := Z.to_nat (Z.min _ _)). assert (n = (length (tb_host t)) `min` 64)%nat as Hn by (unfold n, MAX_CONST_KEYS; lia).
  case_bool_decide as HS; unfold MAX_CONST_KEYS in *.
  - eexists. split; [done|]. split_and!; try done; cbn [tb_host tb_const tb_global].
    split; [cbn; rewrite length_app, length_take, length_drop; lia|].
    intros j Hj. unfold table_key. cbn [tb_host tb_const tb_global]. unfold MAX_CONST_KEYS. unfold arr_get. rewrite (bool_decide_false (j < 0)) by lia.
    case_bool_decide as HB.
    + rewrite lookup_app_l, lookup_take_lt by (rewrite ?length_take; lia). done.
    + rewrite bool_decide_false by lia. rewrite lookup_drop. do 2 f_equal. replace (Z.to_nat 64 + Z.to_nat (j - 64))%nat with (Z.to_nat j) by lia. done.
  - eexists. split; [done|]. split_and!; try done; cbn [tb_host tb_const tb_global].
    split; [cbn; rewrite length_app, length_take, length_drop; lia|].
    intros j Hj. unfold table_key. cbn [tb_host tb_const tb_global] in *. unfold MAX_CONST_KEYS. rewrite bool_decide_true by lia. unfold arr_get.
    rewrite (bool_decide_false (j < 0)) by lia. rewrite lookup_app_l, lookup_take_lt by (rewrite ?length_take; lia). done.
Qed.
Lemma publish_lkeys_ok cu t : cuda_ok cu -> length (tb_const t) = 64%nat ->
  exists t', publish_lkeys cu t = (true, t') /\ tb_host t' = tb_host t /\ published t'.
Proof.
  intros Hcu HL. destruct (publish_ok cu t Hcu HL) as (t' & H1 & H2 & H3 & H4). exists t'. split; [|done]. unfold publish_lkeys.
  destruct (publish cu t) as [ok t1]. cbn in *. subst ok. rewrite H1. by destruct Hcu as (_ & _ & _ & _ & _ & ->).
Qed.
Lemma publish_rkeys_ok cu t : cuda_ok cu -> length (tb_const t) = 64%nat ->
  exists t', publish_rkeys cu t = (true, t') /\ tb_host t' = tb_host t /\ published t'.
Proof.
  intros Hcu HL. destruct (publish_ok cu t Hcu HL) as (t' & H1 & H2 & H3 & H4). exists t'. split; [|done]. unfold publish_rkeys.
  destruct (publish cu t) as [ok t1]. cbn in *. subst ok. rewrite H1. by destruct Hcu as (_ & _ & _ & _ & _ & ->).
Qed.

(** ** The loops of the registrations *)
Section Loops.
Context (n_devs n_pes : Z) (Hd : 0 < n_devs) (Hp : 0 < n_pes).

Definition limg (lkeys : list Z) (e : Z) (j : Z) : dev_key := MkKey (HTOBE32 (lkeys !!! Z.to_nat (j mod n_devs))) e.
Definition rimg (rkeys : list (list Z)) (e : Z) (j : Z) : dev_key :=
  MkKey (HTOBE32 ((rkeys !!! Z.to_nat (j / n_devs mod n_pes)) !!! Z.to_nat (j mod n_devs))) e.

Lemma arr_get_total `{!Inhabited A} (l : list A) i : 0 <= i < Z.of_nat (length l) -> arr_get l i = Ret (l !!! Z.to_nat i).
Proof. intros Hi. apply arr_get_ok; [lia|]. apply list_lookup_lookup_total_lt. lia. Qed.

Lemma mod_at q i : 0 <= i < n_devs -> (q * n_devs + i) mod n_devs = i /\ (q * n_devs + i) / n_devs = q.
Proof. intros Hi. split; [symmetry; apply Z.mod_unique with q; lia|symmetry; apply Z.div_unique with i; lia]. Qed.

Lemma lkey_row_ok g e lkeys v : 0 <= g -> Z.of_nat (length lkeys) = n_devs -> (g + 1) * n_devs <= Z.of_nat (length v) ->
  exists v', lkey_row n_devs g e lkeys v = Ret v' /\ keyed (limg lkeys e) (g * n_devs) ((g + 1) * n_devs) v v'.
Proof.
  intros Hg Hl Hv. replace ((g + 1) * n_devs) with (g * n_devs + n_devs * 1) by lia. apply for_keyed; [lia|lia|].
  intros i w Hi Hw. rewrite arr_get_total, outcome_bind_ret by lia.
  destruct (keyed_one (limg lkeys e) (g * n_devs + i) w) as (w' & H1 & H2); [rewrite Hw; nia|].
  exists w'. split; [|by rewrite Z.mul_1_r, (Z.mul_1_r (i + 1)), Z.add_assoc]. rewrite <- H1. unfold limg.
  by destruct (mod_at g i Hi) as [-> _].
Qed.
Lemma set_lkeys_ok num c e lkeys v : 0 <= c -> Z.of_nat (length lkeys) = n_devs -> (c + Z.of_nat num) * n_devs <= Z.of_nat (length v) ->
  exists v', set_lkeys n_devs num c e lkeys v = Ret v' /\ keyed (limg lkeys e) (c * n_devs) ((c + Z.of_nat num) * n_devs) v v'.
Proof.
  intros Hc Hl. revert v. induction num as [|num IH]; intros v Hv; cbn [set_lkeys].
  { exists v. split; [done|]. rewrite Z.add_0_r. apply keyed_nil. }
  replace (c + Z.of_nat (S num) - 1) with (c + Z.of_nat num) by lia. replace (c + Z.of_nat (S num)) with (c + Z.of_nat num + 1) in * by lia.
  destruct (lkey_row_ok (c + Z.of_nat num) e lkeys v) as (v1 & -> & K1); [lia|done|done|]. rewrite outcome_bind_ret.
  destruct (IH v1) as (v2 & H2 & K2); [rewrite (proj1 K1); nia|]. exists v2. split; [done|]. eapply keyed_app_r; [|exact K1|exact K2]. nia.
Qed.

Definition rkeys_ok (rkeys : list (list Z)) : Prop :=
  Z.of_nat (length rkeys) = n_pes /\ Forall (fun ks => Z.of_nat (length ks) = n_devs) rkeys.
Lemma rkey_index g i j : 0 <= i < n_pes -> 0 <= j < n_devs ->
  let k := g * n_pes * n_devs + i * n_devs + j in k mod n_devs = j /\ k / n_devs mod n_pes = i.
Proof.
  intros Hi Hj k. unfold k. replace (g * n_pes * n_devs + i * n_devs + j) with ((g * n_pes + i) * n_devs + j) by lia.
  destruct (mod_at (g * n_pes + i) j Hj) as [-> ->]. split; [done|]. symmetry. apply Z.mod_unique with g; lia.
Qed.
Lemma rkey_row_ok g e rkeys v : 0 <= g -> rkeys_ok rkeys -> (g + 1) * n_pes * n_devs <= Z.of_nat (length v) ->
  exists v', rkey_row n_devs g n_pes e rkeys v = Ret v' /\ keyed (rimg rkeys e) (g * n_pes * n_devs) ((g + 1) * n_pes * n_devs) v v'.
Proof.
  intros Hg [Hl HF] Hv. replace ((g + 1) * n_pes * n_devs) with (g * n_pes * n_devs + n_pes * n_devs) by lia. apply for_keyed; [lia|lia|].
  intros i w Hi Hw. rewrite arr_get_total, outcome_bind_ret by lia. set (ks := rkeys !!! Z.to_nat i).
  assert (Z.of_nat (length ks) = n_devs) as Hks.
  { apply (proj1 (Forall_lookup _ _) HF (Z.to_nat i)). apply list_lookup_lookup_total_lt. lia. }
  rewrite bool_decide_true by done. cbn [cassert]. rewrite outcome_bind_ret.
  replace (g * n_pes * n_devs + (i + 1) * n_devs) with (g * n_pes * n_devs + i * n_devs + n_devs * 1) by lia.
  apply for_keyed; [lia|lia|]. intros j w1 Hj Hw1. rewrite arr_get_total, outcome_bind_ret by lia.
  destruct (keyed_one (rimg rkeys e) (g * n_pes * n_devs + i * n_devs + j) w1) as (w2 & H1 & H2); [rewrite Hw1, Hw; nia|].
  exists w2. split; [|by rewrite Z.mul_1_r, (Z.mul_1_r (j + 1)), Z.add_assoc]. rewrite <- H1. unfold rimg.
  by destruct (rkey_index g i j Hi Hj) as [-> ->].
Qed.
Lemma set_rkeys_ok num c e rkeys v : 0 <= c -> rkeys_ok rkeys -> (c + Z.of_nat num) * n_pes * n_devs <= Z.of_nat (length v) ->
  exists v', set_rkeys n_devs n_pes num c e rkeys v = Ret v' /\
    keyed (rimg rkeys e) (c * n_pes * n_devs) ((c + Z.of_nat num) * n_pes * n_devs) v v'.
Proof.
  intros Hc Hr. revert v. induction num as [|num IH]; intros v Hv; cbn [set_rkeys].
  { exists v. split; [done|]. rewrite Z.add_0_r. apply keyed_nil. }
  replace (c + Z.of_nat (S num) - 1) with (c + Z.of_nat num) by lia. replace (c + Z.of_nat (S num)) with (c + Z.of_nat num + 1) in * by lia.
  destruct (rkey_row_ok (c + Z.of_nat num) e rkeys v) as (v1 & -> & K1); [lia|done|done|]. rewrite outcome_bind_ret.
  destruct (IH v1) as (v2 & H2 & K2); [rewrite (proj1 K1); nia|]. exists v2. split; [done|]. eapply keyed_app_r; [|exact K1|exact K2]. nia.
Qed.
End Loops.

(** ** Registered regions of the heap *)
(** A region: where it is, its keys on the devices and those of every PE *)
Record region := MkRegion { rg_off : Z; rg_len : Z; rg_lkeys : list Z; rg_rkeys : list (list Z) }.

Lemma vec_resize_ok v n : n <= Z.of_nat (length (vec_resize v n)) /\ (forall j x, v !! j = Some x -> vec_resize v n !! j = Some x).
Proof.
  unfold vec_resize. case_bool_decide.
  - rewrite length_app, length_replicate. split; [lia|]. intros j x Hj. by apply lookup_app_l_Some.
  - split; [lia|done].
Qed.

Section Heap.
Context (st : device_state) (heap_base heap_size lg : Z).
Local Abbreviation nd := (num_devices_initialized st).
Local Abbreviation np := (npes st).
Record heap_ok : Prop := {
  ho_devs : 0 < nd;
  ho_pes : 0 < np;
  ho_gran : 1 <= lg < 64;
  ho_base : 0 <= heap_base;
  ho_end : heap_base + heap_size + 64 <= 2 ^ 64
}.
Context (HH : heap_ok).
Record region_ok (r : region) : Prop := {
  ro_off : 0 <= rg_off r;
  ro_len : 0 < rg_len r;
  ro_end : rg_off r + rg_len r <= heap_size;
  ro_align : (2 ^ lg | rg_off r) /\ (2 ^ lg | rg_len r);
  ro_lkeys : Z.of_nat (length (rg_lkeys r)) = nd;
  ro_rkeys : rkeys_ok nd np (rg_rkeys r)
}.
(** What growing the heap does with the memory: registration, exchange of the
    handles, the remote keys *)
Definition add_region (cu : cuda) (r : region) (s : mem_state) : outcome (bool * mem_state) :=
  '(ok, s) ← nvshmemt_ibgda_get_mem_handle heap_base lg nd cu (heap_base + rg_off r) (rg_len r) false false (rg_lkeys r) s;
  if ok : bool then nvshmemt_ibgda_add_device_remote_mem_handles lg nd np cu (rg_off r) (rg_len r) (rg_rkeys r) s else Ret (false, s).

Definition first_granule (r : region) : Z := rg_off r / 2 ^ lg.
Definition end_granule (r : region) : Z := (rg_off r + rg_len r) / 2 ^ lg.
Definition apart_regions (r q : region) : Prop := rg_off r + rg_len r <= rg_off q \/ rg_off q + rg_len q <= rg_off r.

(** The tables hold the keys of the regions. *)
Record holds (s : mem_state) (rs : list region) : Prop := {
  hd_l : published (ms_lkeys s);
  hd_r : published (ms_rkeys s);
  hd_lkeys r j : r ∈ rs -> first_granule r * nd <= j < end_granule r * nd ->
    tb_host (ms_lkeys s) !! Z.to_nat j = Some (limg nd (rg_lkeys r) (heap_base + rg_off r + rg_len r) j);
  hd_rkeys r j : r ∈ rs -> first_granule r * np * nd <= j < end_granule r * np * nd ->
    tb_host (ms_rkeys s) !! Z.to_nat j = Some (rimg nd np (rg_rkeys r) (rg_off r + rg_len r) j)
}.

Lemma granules r : region_ok r -> let n := Z.shiftr (rg_len r) lg in
  0 <= first_granule r /\ end_granule r = first_granule r + n /\ 0 < n /\
  Z.land (rg_len r) (2 ^ lg - 1) = 0 /\ end_granule r <= Z.shiftr (rg_off r + rg_len r + lg - 1) lg /\
  rg_off r = first_granule r * 2 ^ lg /\ rg_off r + rg_len r = end_granule r * 2 ^ lg.
Proof.
  intros [H1 H2 _ [[a Ha] [b Hb]] _ _] n. destruct HH as [_ _ Hg _ _]. pose proof (Z.pow_pos_nonneg 2 lg ltac:(lia) ltac:(lia)).
  unfold first_granule, end_granule, n. rewrite !Z.shiftr_div_pow2 by lia. rewrite Ha, Hb. rewrite <- Z.mul_add_distr_r, !Z.div_mul by lia.
  split_and!; try nia.
  - rewrite Z.sub_1_r, <- Z.ones_equiv, Z.land_ones by lia. apply Z.mod_mul. lia.
  - rewrite <- (Z.div_mul (a + b) (2 ^ lg)) at 1 by lia. apply Z.div_le_mono; lia.
Qed.

Lemma apart_granules r q : region_ok r -> region_ok q -> apart_regions r q ->
  end_granule r <= first_granule q \/ end_granule q <= first_granule r.
Proof.
  intros Hr Hq HA. pose proof (granules r Hr) as (_ & _ & _ & _ & _ & E1 & E2). pose proof (granules q Hq) as (_ & _ & _ & _ & _ & E3 & E4).
  destruct HH as [_ _ Hg _ _]. pose proof (Z.pow_pos_nonneg 2 lg ltac:(lia) ltac:(lia)). 
  destruct HA as [HA|HA]; [left|right]; apply (Z.mul_le_mono_pos_r _ _ (2 ^ lg)); lia.
Qed.

(** Entries set before stay where the new ones do not come. *)
Lemma keyed_resize img a b v n v' : keyed img a b (vec_resize v n) v' -> 0 <= a ->
  (forall j, a <= j < b -> v' !! Z.to_nat j = Some (img j)) /\
  (forall j x, 0 <= j -> ~ a <= j < b -> v !! Z.to_nat j = Some x -> v' !! Z.to_nat j = Some x).
Proof.
  intros [HL HK] Ha. split.
  - intros j Hj. by rewrite HK, bool_decide_true by lia.
  - intros j x Hj Hn Hx. rewrite HK, bool_decide_false by done. by apply vec_resize_ok.
Qed.

Lemma add_lkeys_ok cu r rs s : cuda_ok cu -> region_ok r -> Forall region_ok rs -> Forall (apart_regions r) rs -> holds s rs ->
  exists s', nvshmemt_ibgda_get_mem_handle heap_base lg nd cu (heap_base + rg_off r) (rg_len r) false false (rg_lkeys r) s = Ret (true, s') /\
    ms_rkeys s' = ms_rkeys s /\ published (ms_lkeys s') /\
    forall q j, q ∈ r :: rs -> first_granule q * nd <= j < end_granule q * nd ->
      tb_host (ms_lkeys s') !! Z.to_nat j = Some (limg nd (rg_lkeys q) (heap_base + rg_off q + rg_len q) j).
Proof.
  intros Hcu Hr HF HA HS. pose proof (granules r Hr) as (G1 & G2 & G3 & G4 & G5 & G6 & G7).
  pose proof (ro_off r Hr). pose proof (ro_len r Hr). pose proof (ro_end r Hr). destruct HH as [D1 D2 D3 D4 D5].
  unfold nvshmemt_ibgda_get_mem_handle, get_mem_handle_heap. rewrite bool_decide_true by done. cbn [cassert]. rewrite outcome_bind_ret.
  replace (heap_base + rg_off r - heap_base) with (rg_off r) by lia. unfold u64.
  pose proof (Z.pow_pos_nonneg 2 lg ltac:(lia) ltac:(lia)).
  assert (rg_off r / 2 ^ lg <= rg_off r) by (apply Z.div_le_upper_bound; nia). pose proof (Z.div_pos (rg_off r) (2 ^ lg) ltac:(lia) ltac:(lia)).
  rewrite (Z.shiftr_div_pow2 (rg_off r)), !(Z.mod_small _ (2 ^ 64)) by lia.
  fold (first_granule r). set (nc := Z.shiftr (rg_off r + rg_len r + lg - 1) lg) in *.
  destruct (vec_resize_ok (tb_host (ms_lkeys s)) (nc * nd)) as [V1 V2].
  destruct (set_lkeys_ok nd D1 (Z.to_nat (Z.shiftr (rg_len r) lg)) (first_granule r) (heap_base + rg_off r + rg_len r) (rg_lkeys r)
    (vec_resize (tb_host (ms_lkeys s)) (nc * nd))) as (v' & -> & K); [lia|apply (ro_lkeys r Hr)|nia|].
  rewrite outcome_bind_ret. destruct (publish_lkeys_ok cu (MkTable v' (tb_const (ms_lkeys s)) (tb_global (ms_lkeys s))) Hcu) as (t' & -> & HT & HP);
    [apply (hd_l s rs HS)|]. eexists. split; [done|]. cbn [with_lkeys ms_rkeys ms_lkeys]. split; [done|]. split; [done|]. rewrite HT. cbn [tb_host].
  rewrite Z2Nat.id, <- G2 in K by lia. apply keyed_resize in K as [KA KB]; [|nia].
  intros q j Hq Hj. apply elem_of_cons in Hq as [->|Hq]; [by apply KA|]. rewrite Forall_forall in HF, HA. apply list_elem_of_In in Hq as Hq'.
  pose proof (granules q (HF q Hq')) as (? & ? & ? & _). destruct (apart_granules r q Hr (HF q Hq') (HA q Hq')).
  - apply KB; [nia|nia|]. by apply (hd_lkeys s rs HS q).
  - apply KB; [nia|nia|]. by apply (hd_lkeys s rs HS q).
Qed.
Lemma add_rkeys_ok cu r rs s : cuda_ok cu -> region_ok r -> Forall region_ok rs -> Forall (apart_regions r) rs -> published (ms_rkeys s) ->
  (forall q j, q ∈ rs -> first_granule q * np * nd <= j < end_granule q * np * nd ->
    tb_host (ms_rkeys s) !! Z.to_nat j = Some (rimg nd np (rg_rkeys q) (rg_off q + rg_len q) j)) ->
  exists s', nvshmemt_ibgda_add_device_remote_mem_handles lg nd np cu (rg_off r) (rg_len r) (rg_rkeys r) s = Ret (true, s') /\
    ms_lkeys s' = ms_lkeys s /\ published (ms_rkeys s') /\
    forall q j, q ∈ r :: rs -> first_granule q * np * nd <= j < end_granule q * np * nd ->
      tb_host (ms_rkeys s') !! Z.to_nat j = Some (rimg nd np (rg_rkeys q) (rg_off q + rg_len q) j).
Proof.
  intros Hcu Hr HF HA HS HK. pose proof (granules r Hr) as (G1 & G2 & G3 & G4 & G5 & G6 & G7).
  pose proof (ro_off r Hr). pose proof (ro_len r Hr). pose proof (ro_end r Hr). destruct HH as [D1 D2 D3 D4 D5].
  unfold nvshmemt_ibgda_add_device_remote_mem_handles. rewrite bool_decide_true by done. cbn [cassert]. rewrite outcome_bind_ret.
  unfold u64. rewrite (Z.shiftr_div_pow2 (rg_off r)), !(Z.mod_small _ (2 ^ 64)) by lia.
  fold (first_granule r). set (nc := Z.shiftr (rg_off r + rg_len r + lg - 1) lg) in *.
  destruct (vec_resize_ok (tb_host (ms_rkeys s)) (nc * np * nd)) as [V1 V2].
  destruct (set_rkeys_ok nd np D1 D2 (Z.to_nat (Z.shiftr (rg_len r) lg)) (first_granule r) (rg_off r + rg_len r) (rg_rkeys r)
    (vec_resize (tb_host (ms_rkeys s)) (nc * np * nd))) as (v' & -> & K); [lia|apply (ro_rkeys r Hr)| |].
  { etransitivity; [|exact V1]. apply Z.mul_le_mono_nonneg_r; [lia|]. apply Z.mul_le_mono_nonneg_r; lia. }
  rewrite outcome_bind_ret. destruct (publish_rkeys_ok cu (MkTable v' (tb_const (ms_rkeys s)) (tb_global (ms_rkeys s))) Hcu) as (t' & -> & HT & HP);
    [apply HS|]. eexists. split; [done|]. cbn [with_rkeys ms_rkeys ms_lkeys]. split; [done|]. split; [done|]. rewrite HT. cbn [tb_host].
  rewrite Z2Nat.id, <- G2 in K by lia. apply keyed_resize in K as [KA KB]; [|nia].
  intros q j Hq Hj. apply elem_of_cons in Hq as [->|Hq]; [by apply KA|]. rewrite Forall_forall in HF, HA. apply list_elem_of_In in Hq as Hq'.
  pose proof (granules q (HF q Hq')) as (Hq0 & _).
  assert (0 <= first_granule q * np * nd) by (apply Z.mul_nonneg_nonneg; [apply Z.mul_nonneg_nonneg|]; lia).
  destruct (apart_granules r q Hr (HF q Hq') (HA q Hq')) as [HE|HE]; apply (Z.mul_le_mono_nonneg_r _ _ np ltac:(lia)) in HE;
    apply (Z.mul_le_mono_nonneg_r _ _ nd ltac:(lia)) in HE; (apply KB; [lia|lia|]; by apply HK).
Qed.

Lemma add_region_ok cu r rs s : cuda_ok cu -> region_ok r -> Forall region_ok rs -> Forall (apart_regions r) rs -> holds s rs ->
  exists s', add_region cu r s = Ret (true, s') /\ holds s' (r :: rs).
Proof.
  intros Hcu Hr HF HA HS. destruct (add_lkeys_ok cu r rs s Hcu Hr HF HA HS) as (s1 & H1 & E1 & P1 & L1).
  destruct (add_rkeys_ok cu r rs s1 Hcu Hr HF HA) as (s2 & H2 & E2 & P2 & L2);
    [rewrite E1; apply (hd_r s rs HS)|rewrite E1; by apply (hd_rkeys s rs HS)|].
  exists s2. unfold add_region. rewrite H1, outcome_bind_ret. split; [done|]. split; [by rewrite E2|done|by rewrite E2|done].
Qed.

(** A sequence of registrations *)
Fixpoint add_regions (cus : list (cuda * region)) (s : mem_state) : outcome (bool * mem_state) :=
  match cus with
  | [] => Ret (true, s)
  | (cu, r) :: cus => '(ok, s) ← add_region cu r s; if ok : bool then add_regions cus s else Ret (false, s)
  end.
Fixpoint pairwise_apart (rs : list region) : Prop :=
  match rs with [] => True | r :: rs => Forall (apart_regions r) rs /\ pairwise_apart rs end.

Lemma add_regions_ok cus rs s : Forall (fun '(cu, r) => cuda_ok cu /\ region_ok r) cus -> Forall region_ok rs ->
  pairwise_apart (reverse (snd <$> cus) ++ rs) -> holds s rs ->
  exists s', add_regions cus s = Ret (true, s') /\ holds s' (reverse (snd <$> cus) ++ rs).
Proof.
  revert rs s. induction cus as [|[cu r] cus IH]; intros rs s HF HR HP HS; [by exists s|].
  inversion HF as [|? ? HX HF']; subst. destruct HX as [Hcu Hr]. cbn [fmap list_fmap snd] in *. rewrite reverse_cons, <- app_assoc in *. cbn [app] in *.
  assert (pairwise_apart (r :: rs)) as [HA _].
  { clear -HP. induction (reverse (snd <$> cus)) as [|q l IHl]; [done|]. apply IHl. apply HP. }
  destruct (add_region_ok cu r rs s Hcu Hr HR HA HS) as (s1 & H1 & HS1). cbn [add_regions]. rewrite H1, outcome_bind_ret.
  destruct (IH (r :: rs) s1 HF') as (s2 & H2 & HS2); [by constructor|done|done|]. by exists s2.
Qed.

(** ** What the device finds *)
Lemma granule_index r o i w : region_ok r -> rg_off r <= o < rg_off r + rg_len r -> 0 <= i < w ->
  first_granule r * w <= Z.shiftr o lg * w + i < end_granule r * w.
Proof.
  intros Hr Ho Hi. pose proof (granules r Hr) as (_ & _ & _ & _ & _ & G6 & G7). destruct HH as [D1 D2 D3 D4 D5].
  pose proof (Z.pow_pos_nonneg 2 lg ltac:(lia) ltac:(lia)). rewrite Z.shiftr_div_pow2 by lia.
  assert (first_granule r <= o / 2 ^ lg) by (apply Z.div_le_lower_bound; lia).
  assert (o / 2 ^ lg < end_granule r) by (apply Z.div_lt_upper_bound; lia). nia.
Qed.

Lemma lkey_found kind s rs r o dev : holds s rs -> region_ok r -> r ∈ rs -> rg_off r <= o < rg_off r + rg_len r -> 0 <= dev < nd ->
  ibgda_get_lkey st heap_base heap_size lg kind s (heap_base + o) dev =
  Ret (HTOBE32 (rg_lkeys r !!! Z.to_nat dev), Z.min (rg_off r + rg_len r - o) MAX_LEN, bool_decide (kind = 1)).
Proof.
  intros HS Hr HI Ho Hd. pose proof (ro_off r Hr). pose proof (ro_end r Hr). pose proof (granule_index r o dev nd Hr Ho Hd) as HG.
  pose proof (granules r Hr) as (G1 & _). destruct HH as [D1 D2 D3 D4 D5].
  unfold ibgda_get_lkey. unfold u64. rewrite (Z.mod_small _ (2 ^ 64)) by lia.
  rewrite (bool_decide_true (heap_base <= heap_base + o)), (bool_decide_true (_ <= heap_base + heap_size - 1)) by lia. cbn [andb].
  replace (heap_base + o - heap_base) with o by lia. set (j := Z.shiftr o lg * nd + dev) in *.
  pose proof (hd_lkeys s rs HS r j HI HG) as HK. assert (0 <= j) by (assert (0 <= first_granule r * nd) by nia; lia).
  rewrite (proj2 (hd_l s rs HS)) by (apply lookup_lt_Some in HK; lia). rewrite (arr_get_ok _ _ _ ltac:(done) HK), outcome_bind_ret.
  cbn [limg key next_addr]. rewrite (bool_decide_true (_ < _)) by lia. cbn [cassert]. rewrite outcome_bind_ret. unfold j.
  destruct (mod_at nd (Z.shiftr o lg) dev Hd) as [-> _]. do 3 f_equal. lia.
Qed.

Definition remote_addr (peers_base dst_pe proxy_pe o : Z) : Z :=
  if bool_decide (dst_pe <> proxy_pe) then u64 (u64 (peers_base + o) + (Z.rem dst_pe (node_npes st) - node_mype st) * heap_size)
  else u64 (peers_base + o).
Lemma rkey_found peers s rs r o dst proxy dev b : holds s rs -> region_ok r -> r ∈ rs -> rg_off r <= o < rg_off r + rg_len r ->
  0 <= dev < nd -> 0 <= proxy < np -> peers !! Z.to_nat proxy = Some b ->
  ibgda_get_raddr_rkey st heap_base heap_size lg peers s (heap_base + o) dst proxy dev =
  Ret (remote_addr b dst proxy o, HTOBE32 ((rg_rkeys r !!! Z.to_nat proxy) !!! Z.to_nat dev), rg_off r + rg_len r - o).
Proof.
  intros HS Hr HI Ho Hd Hp Hb. pose proof (ro_off r Hr). pose proof (ro_end r Hr).
  pose proof (granule_index r o (proxy * nd + dev) (np * nd) Hr Ho ltac:(nia)) as HG. rewrite !Z.mul_assoc, !Z.add_assoc in HG.
  pose proof (granules r Hr) as (G1 & _). destruct HH as [D1 D2 D3 D4 D5].
  unfold ibgda_get_raddr_rkey. replace (u64 (heap_base + o - heap_base)) with o by (unfold u64; rewrite Z.mod_small; lia). cbv zeta.
  set (j := Z.shiftr o lg * np * nd + proxy * nd + dev) in *.
  pose proof (hd_rkeys s rs HS r j HI HG) as HK.
  assert (0 <= j) by (assert (0 <= first_granule r * np * nd) by (apply Z.mul_nonneg_nonneg; [apply Z.mul_nonneg_nonneg|]; lia); lia).
  rewrite (proj2 (hd_r s rs HS)) by (apply lookup_lt_Some in HK; lia). rewrite (arr_get_ok _ _ _ ltac:(done) HK), outcome_bind_ret.
  cbn [rimg key next_addr]. rewrite (bool_decide_true (_ < _)) by lia. cbn [cassert]. rewrite outcome_bind_ret, (arr_get_ok _ _ b), outcome_bind_ret by (done || lia).
  unfold j. destruct (rkey_index nd np (Z.shiftr o lg) proxy dev Hp Hd) as [-> ->]. done.
Qed.
End Heap.

Lemma holds_init heap_base lg st : holds st heap_base lg (MkMem init_table init_table [] None ∅) [].
Proof. split; [| |intros r j HI; by apply elem_of_nil in HI..]; (split; [done|]; cbn; intros j Hj; lia). Qed.

(** Regions at different places of a list are apart. *)
Definition all_apart (rs : list region) : Prop :=
  forall i j r q, i <> j -> rs !! i = Some r -> rs !! j = Some q -> apart_regions r q.
Lemma all_apart_pairwise rs : all_apart rs -> pairwise_apart rs.
Proof.
  induction rs as [|r rs IH]; intros H; [done|]. split.
  - apply Forall_lookup. intros j q Hj. by apply (H 0%nat (S j)).
  - apply IH. intros i j a b Hij Ha Hb. apply (H (S i) (S j)); [lia|done|done].
Qed.
Lemma all_apart_reverse rs : all_apart rs -> all_apart (reverse rs).
Proof.
  intros H i j r q Hij Hr Hq. assert (i < length rs)%nat by (apply lookup_lt_Some in Hr; by rewrite length_reverse in Hr).
  assert (j < length rs)%nat by (apply lookup_lt_Some in Hq; by rewrite length_reverse in Hq).
  rewrite reverse_lookup in Hr, Hq by done. eapply H; [|exact Hr|exact Hq]. lia.
Qed.

(** C10: after any sequence of growths of the heap (each registering a region
    and publishing the keys all PEs have for it), a device thread finds, for
    every address of every region, the local key of that region on its device
    and the bytes left up to the region's end (at most 2^30), and for every PE
    the remote address, the key of that PE's region and the bytes left; regions
    registered later never disturb earlier ones, wherever the tables are split
    between constant and global memory. *)
Theorem heap_keys_found st heap_base heap_size lg kind peers cus :
  heap_ok st heap_base heap_size lg -> Forall (fun '(cu, r) => cuda_ok cu /\ region_ok st heap_size lg r) cus -> all_apart (snd <$> cus) ->
  exists s, add_regions st heap_base lg cus (MkMem init_table init_table [] None ∅) = Ret (true, s) /\
  forall r o dev, r ∈ snd <$> cus -> rg_off r <= o < rg_off r + rg_len r -> 0 <= dev < num_devices_initialized st ->
    ibgda_get_lkey st heap_base heap_size lg kind s (heap_base + o) dev =
      Ret (HTOBE32 (rg_lkeys r !!! Z.to_nat dev), Z.min (rg_off r + rg_len r - o) MAX_LEN, bool_decide (kind = 1)) /\
    forall dst proxy b, 0 <= proxy < npes st -> peers !! Z.to_nat proxy = Some b ->
      ibgda_get_raddr_rkey st heap_base heap_size lg peers s (heap_base + o) dst proxy dev =
      Ret (remote_addr st heap_size b dst proxy o, HTOBE32 ((rg_rkeys r !!! Z.to_nat proxy) !!! Z.to_nat dev), rg_off r + rg_len r - o).
Proof.
  intros HH HF HA. destruct (add_regions_ok st heap_base heap_size lg HH cus [] (MkMem init_table init_table [] None ∅) HF) as (s & Hs & HS).
  - constructor.
  - rewrite app_nil_r. by apply all_apart_pairwise, all_apart_reverse.
  - apply holds_init.
  - exists s. split; [done|]. rewrite app_nil_r in HS. intros r o dev Hr Ho Hd.
    assert (region_ok st heap_size lg r) as HR.
    { apply list_elem_of_fmap in Hr as ([cu q] & -> & HI). rewrite Forall_forall in HF. apply list_elem_of_In in HI. by apply (HF (cu, q)). }
    assert (r ∈ reverse (snd <$> cus)) as HI by (by apply elem_of_reverse). split.
    + by eapply lkey_found.
    + intros dst proxy b Hp Hb. by eapply rkey_found.
Qed.

Definition ex_dev : device_state := MkDevice 1 0 MAP_CTA 2 1 1 2 1 2 false 3 0 3 0 0.
Definition ex_cuda (p : Z) : cuda := MkCuda true true (Some p) true true true.
Definition ex_region (off len k : Z) : region :=
  MkRegion off len [k; k + 1] [[k + 10; k + 11]; [k + 20; k + 21]; [k + 30; k + 31]].
Definition ex_regions : list (cuda * region) :=
  [(ex_cuda 1, ex_region 0 (2 * 2 ^ 21) 100); (ex_cuda 2, ex_region (60 * 2 ^ 21) (3 * 2 ^ 21) 200); (ex_cuda 3, ex_region (2 * 2 ^ 21) (2 ^ 21) 300)].

Lemma heap_keys_found_witness : exists s,
  add_regions ex_dev (2 ^ 40) 21 ex_regions (MkMem init_table init_table [] None ∅) = Ret (true, s) /\
  ibgda_get_lkey ex_dev (2 ^ 40) (2 ^ 27) 21 0 s (2 ^ 40 + (61 * 2 ^ 21 + 5)) 1 = Ret (HTOBE32 201, 2 * 2 ^ 21 - 5, false) /\
  ibgda_get_raddr_rkey ex_dev (2 ^ 40) (2 ^ 27) 21 [2 ^ 41; 2 ^ 42; 2 ^ 43] s (2 ^ 40 + (61 * 2 ^ 21 + 5)) 2 2 1 =
    Ret (2 ^ 43 + 61 * 2 ^ 21 + 5, HTOBE32 231, 2 * 2 ^ 21 - 5).
Proof.
  destruct (heap_keys_found ex_dev (2 ^ 40) (2 ^ 27) 21 0 [2 ^ 41; 2 ^ 42; 2 ^ 43] ex_regions) as (s & Hs & HK).
  - split; cbn; lia.
  - assert (forall p, cuda_ok (ex_cuda p)) as HC by (intros p; split_and!; by eexists || done).
    assert (forall k, rkeys_ok 2 3 [[k + 10; k + 11]; [k + 20; k + 21]; [k + 30; k + 31]]) as HR by (intros k; split; [done|repeat constructor]).
    repeat (apply Forall_cons; [split; [apply HC|split; cbn; try lia; first [apply HR | split]]|]);
      [by exists 0|by exists 2|by exists 60|by exists 3|by exists 2|by exists 1|constructor].
  - intros i j r q Hij Hr Hq. assert (i < 3 /\ j < 3)%nat as [Hi Hj] by (split; [apply lookup_lt_Some in Hr|apply lookup_lt_Some in Hq]; done).
    unfold apart_regions. destruct i as [|[|[|]]], j as [|[|[|]]]; try lia; cbn in Hr, Hq; injection Hr as <-; injection Hq as <-; cbn; lia.
  - exists s. split; [done|]. destruct (HK (ex_region (60 * 2 ^ 21) (3 * 2 ^ 21) 200) (61 * 2 ^ 21 + 5) 1) as [HL HR].
    + right. left.
    + cbn. lia.
    + cbn. lia.
    + split; [rewrite HL; reflexivity|]. rewrite (HR 2 2 (2 ^ 43)); [reflexivity|cbn; lia|done].
Defined.

(** ** Buffers outside of the heap *)
(** A buffer, as the list describes it *)
Record buffer := MkBuffer { bf_start : Z; bf_end : Z; bf_sysmem : bool; bf_lkeys : list Z }.
Definition buffer_of (c : mcache) : buffer :=
  MkBuffer (mh_start (mc_mhandle c)) (mh_end (mc_mhandle c)) (mh_sysmem (mc_mhandle c)) (mh_lkeys (mc_mhandle c)).
Definition buffers (s : mem_state) : list buffer := buffer_of <$> ms_cache s.

(** A piece of the list in GPU memory: every element is the host's copy and
    points to the next, the last one to [p]. *)
Definition hd_ptr (l : list mcache) (p : option Z) : option Z := match l with [] => p | c :: _ => Some (mc_dev_ptr c) end.
Fixpoint seg (g : gmap Z mhandle) (l : list mcache) (p : option Z) : Prop :=
  match l with
  | [] => True
  | c :: l => g !! mc_dev_ptr c = Some (mc_mhandle c) /\ mh_next (mc_mhandle c) = hd_ptr l p /\ seg g l p
  end.
Lemma seg_app g l1 l2 p : seg g (l1 ++ l2) p <-> seg g l1 (hd_ptr l2 p) /\ seg g l2 p.
Proof. induction l1 as [|c l1 IH]; cbn; [tauto|]. rewrite IH. destruct l1; cbn; tauto. Qed.
Lemma seg_ext g g' l p : (forall x, x ∈ mc_dev_ptr <$> l -> g' !! x = g !! x) -> seg g l p -> seg g' l p.
Proof.
  induction l as [|c l IH]; cbn; [done|]. intros HE (H1 & H2 & H3). split_and!; [|done|].
  - rewrite HE; [done|]. left.
  - apply IH; [|done]. intros x Hx. apply HE. by right.
Qed.
Lemma seg_dom g l p x : seg g l p -> x ∈ mc_dev_ptr <$> l -> is_Some (g !! x).
Proof.
  induction l as [|c l IH]; cbn; [intros _ H; by apply elem_of_nil in H|]. intros (H1 & _ & H3) [->|Hx]%elem_of_cons; [by rewrite H1|auto].
Qed.

(** The list in GPU memory is the host's. *)
Record linked (s : mem_state) : Prop := {
  lk_head : ms_head s = hd_ptr (ms_cache s) None;
  lk_nodup : NoDup (mc_dev_ptr <$> ms_cache s);
  lk_seg : seg (ms_gpu s) (ms_cache s) None
}.
Lemma linked_size s : linked s -> (length (ms_cache s) <= size (ms_gpu s))%nat.
Proof.
  intros HL. rewrite <- (size_dom (D := gset Z)), <- (length_fmap mc_dev_ptr), <- (size_list_to_set (C := gset Z)) by apply HL.
  apply subseteq_size. intros x Hx. apply elem_of_list_to_set in Hx. apply elem_of_dom. by eapply seg_dom; [apply HL|].
Qed.

Definition covers (addr : Z) (b : buffer) : Prop := bf_start b <= addr /\ addr <= bf_end b.
#[export] Instance covers_dec addr b : Decision (covers addr b).
Proof. unfold covers. apply _. Defined.

Lemma find_mhandle_ok g l addr fuel : seg g l None -> (length l < fuel)%nat ->
  match list_find (covers addr) (buffer_of <$> l) with
  | Some (_, b) => exists h, find_mhandle fuel g (hd_ptr l None) addr = Ret h /\
      MkBuffer (mh_start h) (mh_end h) (mh_sysmem h) (mh_lkeys h) = b
  | None => find_mhandle fuel g (hd_ptr l None) addr = Fail FAssert
  end.
Proof.
  revert fuel. induction l as [|c l IH]; intros fuel HS Hf; (destruct fuel as [|fuel]; [cbn in Hf; lia|]); [done|].
  destruct HS as (H1 & H2 & H3). csimpl. rewrite H1. unfold covers at 1. cbn [buffer_of bf_start bf_end].
  destruct (decide (mh_start (mc_mhandle c) <= addr /\ addr <= mh_end (mc_mhandle c))) as [HD|HD].
  - rewrite !bool_decide_true by lia. cbn. by exists (mc_mhandle c).
  - replace (bool_decide (mh_start (mc_mhandle c) <= addr) && bool_decide (addr <= mh_end (mc_mhandle c))) with false
      by (symmetry; apply andb_false_iff; destruct (decide (mh_start (mc_mhandle c) <= addr)); [right|left]; apply bool_decide_false; tauto).
    rewrite H2. pose proof (IH fuel H3 ltac:(cbn in Hf; lia)) as HI. by destruct (list_find (covers addr) (buffer_of <$> l)) as [[n b]|].
Qed.

(** Setting the pointer of the last element of a piece *)
Definition relink (p : option Z) (c : mcache) : mcache := MkMcache (set_next (mc_mhandle c) p) (mc_dev_ptr c).
Lemma alter_last (f : mcache -> mcache) (pre post : list mcache) c : alter f (length pre) (pre ++ c :: post) = pre ++ f c :: post.
Proof.
  induction pre as [|x pre IH]; [done|]. cbn [app length]. change (alter f (S (length pre)) (x :: pre ++ c :: post)) with (x :: alter f (length pre) (pre ++ c :: post)).
  by rewrite IH.
Qed.
Lemma seg_relink g pre c p q : NoDup (mc_dev_ptr <$> pre ++ [c]) -> seg g (pre ++ [c]) p ->
  seg (alter (fun h => set_next h q) (mc_dev_ptr c) g) (pre ++ [relink q c]) q.
Proof.
  intros HN HS. apply seg_app in HS as [HA HB]. rewrite fmap_app in HN. apply list.NoDup_app in HN as (_ & HN & _). apply seg_app. split.
  - eapply seg_ext; [|exact HA]. intros x Hx. rewrite lookup_alter_ne; [done|]. intros HE. apply (HN x Hx). rewrite <- HE. left.
  - cbn in *. destruct HB as (HB & _ & _). rewrite lookup_alter_eq, HB. done.
Qed.

(** Registration appends a buffer. *)
Lemma register_linked cu d buf len sysmem lkeys s : linked s -> cuda_ok cu -> cu_malloc cu = Some d -> ms_gpu s !! d = None ->
  exists s', get_mem_handle_local cu buf len sysmem lkeys s = (true, s') /\ linked s' /\
    buffers s' = buffers s ++ [MkBuffer buf (u64 (buf + len - 1)) sysmem (HTOBE32 <$> lkeys)].
Proof.
  intros [L1 L2 L3] (C1 & C2 & _ & C4 & C5 & C6) CM HD. unfold get_mem_handle_local, buffers. rewrite C1, CM, C4. cbn [negb]. rewrite C5, C6.
  set (mh := MkMhandle buf _ _ _ None). assert (d ∉ mc_dev_ptr <$> ms_cache s) as HF.
  { intros HI. destruct (seg_dom _ _ _ _ L3 HI) as [h Hh]. congruence. }
  destruct (list.last (ms_cache s)) as [l|] eqn:HLast; eexists; (split; [done|]); cbn [with_list ms_cache].
  - apply last_Some in HLast as [pre HC]. rewrite HC in *. rewrite length_app, Nat.add_sub.
    change (fun c => MkMcache (set_next (mc_mhandle c) (Some d)) (mc_dev_ptr c)) with (relink (Some d)). rewrite alter_last. split.
    + rewrite fmap_app, list.NoDup_app in L2. destruct L2 as (N1 & N2 & _). rewrite fmap_app, elem_of_app in HF. split; unfold with_list; cbn [ms_head ms_cache ms_gpu].
      * rewrite L1. by destruct pre.
      * rewrite !fmap_app, !list.NoDup_app. split_and!; [done|done|apply NoDup_singleton| |apply NoDup_singleton].
        intros x Hx Hd. apply list_elem_of_singleton in Hd as ->. apply elem_of_app in Hx. tauto.
      * apply seg_app. split; [|split; [|done]].
        -- apply seg_relink with (p := None); [rewrite fmap_app, list.NoDup_app; split_and!; [done|done|apply NoDup_singleton]|]. eapply seg_ext; [|exact L3].
           intros x Hx. apply lookup_insert_ne. intros ->. rewrite fmap_app, elem_of_app in Hx. tauto.
        -- cbn [mc_dev_ptr mc_mhandle]. rewrite lookup_alter_ne; [apply lookup_insert_eq|]. intros HE. apply HF. right. rewrite <- HE. left.
    + by rewrite !fmap_app.
  - apply last_None in HLast. rewrite HLast in *. split; [|done]. split; cbn; [done|apply NoDup_singleton|]. by rewrite lookup_insert_eq.
Qed.

(** A release takes the first buffer with that address out. *)
Fixpoint remove_first (buf : Z) (bs : list buffer) : list buffer :=
  match bs with [] => [] | b :: bs => if bool_decide (bf_start b = buf) then bs else b :: remove_first buf bs end.
Lemma remove_first_at buf pre b post : Forall (fun c => bf_start c <> buf) pre -> bf_start b = buf -> remove_first buf (pre ++ b :: post) = pre ++ post.
Proof.
  induction 1 as [|c pre Hc _ IH]; intros Hb; cbn; [by rewrite bool_decide_true|]. rewrite bool_decide_false by done. by rewrite IH.
Qed.
Lemma find_split buf (l : list mcache) k c : list_find (fun c => mh_start (mc_mhandle c) = buf) l = Some (k, c) ->
  exists pre post, l = pre ++ c :: post /\ length pre = k /\ Forall (fun b => bf_start b <> buf) (buffer_of <$> pre) /\ bf_start (buffer_of c) = buf.
Proof.
  intros HF. apply list_find_Some in HF as (H1 & H2 & H3). exists (take k l), (drop (S k) l). split_and!.
  - by rewrite take_drop_middle.
  - rewrite length_take. apply lookup_lt_Some in H1. lia.
  - rewrite Forall_fmap. apply Forall_lookup. intros j d Hj. apply lookup_take_Some in Hj as [Hj Hk]. by apply (H3 j d).
  - done.
Qed.

Lemma release_linked cu buf s : linked s -> cuda_ok cu -> Exists (fun b => bf_start b = buf) (buffers s) ->
  exists s', nvshmemt_ibgda_release_mem_handle cu buf s = (true, s') /\ linked s' /\ buffers s' = remove_first buf (buffers s).
Proof.
  intros [L1 L2 L3] (C1 & C2 & _ & C4 & C5 & C6) HE. unfold nvshmemt_ibgda_release_mem_handle, buffers in *.
  destruct (list_find _ (ms_cache s)) as [[k c]|] eqn:HF.
  2: { apply list_find_None in HF. rewrite Exists_fmap, Exists_exists in HE. destruct HE as (x & Hx & Hb). rewrite Forall_forall in HF. by apply (HF x) in Hx. }
  apply find_split in HF as (pre & post & HC & Hk & HP & Hb). rewrite HC in *.
  assert ((pre ++ c :: post) !! S k = head post) as ->.
  { rewrite lookup_app_r, Hk by lia. replace (S k - k)%nat with 1%nat by lia. by destruct post. }
  assert (mc_dev_ptr <$> head post = hd_ptr post None) as -> by (by destruct post).
  rewrite C5, C2. cbn [negb]. rewrite C6. pose proof L2 as N. rewrite fmap_app, list.NoDup_app in N. destruct N as (N1 & N2 & N3).
  apply list.NoDup_cons in N3 as [N3 N4]. assert (NoDup (mc_dev_ptr <$> pre ++ post)) as N5.
  { rewrite fmap_app, list.NoDup_app. split_and!; [done| |done]. intros x Hx Hp. apply (N2 x Hx). by right. }
  apply seg_app in L3 as [S1 (S2 & S3 & S4)]. cbn [hd_ptr] in S1.
  assert (seg (delete (mc_dev_ptr c) (ms_gpu s)) post None) as S5.
  { eapply seg_ext; [|exact S4]. intros x Hx. apply lookup_delete_ne. intros HX. by rewrite <- HX in Hx. }
  destruct pre as [|prev pre _] using rev_ind.
  - cbn in Hk. subst k. eexists. split; [done|]. cbn. rewrite bool_decide_true by done. split; [|done]. by split.
  - rewrite length_app in Hk. cbn in Hk. subst k. rewrite Nat.add_1_r in *. rewrite <- app_assoc, lookup_app_r, Nat.sub_diag by lia. cbn [app lookup list_lookup].
    change (fun c0 => MkMcache (set_next (mc_mhandle c0) (hd_ptr post None)) (mc_dev_ptr c0)) with (relink (hd_ptr post None)). rewrite alter_last.
    eexists. split; [done|]. unfold with_list. cbn [ms_cache]. set (nx := hd_ptr post None) in *.
    assert (delete (S (length pre)) (pre ++ relink nx prev :: c :: post) = (pre ++ [relink nx prev]) ++ post) as ->.
    { change (relink nx prev :: c :: post) with ([relink nx prev] ++ c :: post). rewrite app_assoc.
      rewrite <- (delete_middle (pre ++ [relink nx prev]) post c). f_equal. rewrite length_app. cbn. lia. }
    rewrite fmap_app in HP. rewrite !fmap_app in N2. rewrite !fmap_app in N5. rewrite fmap_app in N1. split.
    + split; cbn [ms_head ms_cache ms_gpu].
      * rewrite L1. by destruct pre.
      * by rewrite !fmap_app.
      * apply seg_app. split.
        -- eapply seg_ext; [|apply seg_relink with (p := Some (mc_dev_ptr c)); [by rewrite fmap_app|exact S1]].
           intros x Hx. apply lookup_delete_ne. intros <-. rewrite fmap_app in Hx. by apply (N2 _ Hx); left.
        -- eapply seg_ext; [|exact S5]. intros x Hx. destruct (decide (x = mc_dev_ptr c)) as [->|]; [done|].
           rewrite !lookup_delete_ne by done. apply lookup_alter_ne. intros HX. apply (N2 x); [|by right].
           rewrite <- HX. apply elem_of_app. right. left.
    + rewrite !fmap_app. change (buffer_of <$> prev :: c :: post) with ([buffer_of prev] ++ buffer_of c :: (buffer_of <$> post)).
      rewrite app_assoc, remove_first_at; [done|exact HP|done].
Qed.

(** C29: the list of buffers outside of the heap, as the device walks it in GPU
    memory, refines a plain list: registration appends, release removes the
    first buffer at the address, and a lookup outside of the heap gives key and
    size of the first buffer that covers the address, or fails where there is
    none. *)
Theorem local_list_refines st heap_base heap_size lg kind s : linked s ->
  (forall cu d buf len sysmem lkeys, cuda_ok cu -> cu_malloc cu = Some d -> ms_gpu s !! d = None ->
    exists s', nvshmemt_ibgda_get_mem_handle heap_base lg (num_devices_initialized st) cu buf len true sysmem lkeys s = Ret (true, s') /\ linked s' /\
      buffers s' = buffers s ++ [MkBuffer buf (u64 (buf + len - 1)) sysmem (HTOBE32 <$> lkeys)]) /\
  (forall cu buf, cuda_ok cu -> Exists (fun b => bf_start b = buf) (buffers s) ->
    exists s', nvshmemt_ibgda_release_mem_handle cu buf s = (true, s') /\ linked s' /\ buffers s' = remove_first buf (buffers s)) /\
  (forall addr dev, addr < heap_base \/ u64 (heap_base + heap_size - 1) < addr -> 0 <= dev ->
    ibgda_get_lkey st heap_base heap_size lg kind s addr dev =
    match list_find (covers addr) (buffers s) with
    | Some (_, b) => k ← arr_get (bf_lkeys b) dev; Ret (k, Z.min (bf_end b - addr + 1) MAX_LEN, bf_sysmem b)
    | None => Fail FAssert
    end).
Proof.
  intros HL. split_and!.
  - intros cu d buf len sysmem lkeys HC HM HD. destruct (register_linked cu d buf len sysmem lkeys s HL HC HM HD) as (s' & H1 & H2).
    exists s'. split; [|done]. cbn. by rewrite H1.
  - intros cu buf HC HE. by apply release_linked.
  - intros addr dev Ha Hd. unfold ibgda_get_lkey.
    replace (bool_decide (heap_base <= addr) && bool_decide (addr <= u64 (heap_base + heap_size - 1))) with false
      by (symmetry; apply andb_false_iff; destruct Ha; [left|right]; apply bool_decide_false; lia).
    rewrite (lk_head s HL). pose proof (linked_size s HL) as HZ.
    pose proof (find_mhandle_ok (ms_gpu s) (ms_cache s) addr (S (size (ms_gpu s))) (lk_seg s HL) ltac:(lia)) as HF. fold (buffers s) in HF.
    destruct (list_find (covers addr) (buffers s)) as [[n b]|]; [|by rewrite HF].
    destruct HF as (h & -> & <-). done.
Qed.

Definition ex_list : mem_state := snd (get_mem_handle_local (ex_cuda 7000) 5000 16 true [3; 4] (MkMem init_table init_table [] None ∅)).
Lemma ex_list_linked : linked ex_list.
Proof. split; [done|apply NoDup_singleton|by vm_compute]. Qed.
Lemma local_list_refines_witness : linked ex_list /\ exists s',
  nvshmemt_ibgda_get_mem_handle 0 21 2 (ex_cuda 8000) 9000 8 true false [5; 6] ex_list = Ret (true, s') /\ linked s' /\
  buffers s' = buffers ex_list ++ [MkBuffer 9000 9007 false (HTOBE32 <$> [5; 6])].
Proof.
  split; [apply ex_list_linked|]. destruct (local_list_refines ex_dev 0 4096 21 0 ex_list ex_list_linked) as [HR _].
  destruct (HR (ex_cuda 8000) 8000 9000 8 false [5; 6]) as (s' & H1 & H2 & H3); [by split_and!; [..|by eexists| | |]|done|done|].
  by exists s'.
Defined.

(** A registration that fails at its last step, the synchronisation, frees its
    element of the list but leaves the head pointing at it, although it is
    treated as recoverable: the next lookup of a local buffer reads freed
    memory. *)
Theorem failed_register_dangling : let s0 := MkMem init_table init_table [] None ∅ in
  let '(ok, s) := get_mem_handle_local (MkCuda true true (Some 7000) true true false) 5000 16 true [3; 4] s0 in
  ok = false /\ ms_cache s = [] /\ ms_head s = Some 7000 /\ ms_gpu s = ∅ /\
  ibgda_get_lkey ex_dev 0 4096 21 0 s 5000 0 = Fail FUndef.
Proof. by vm_compute. Qed.

End IbgdaKeysSpec.
