(* ===== verification/IbgdaRma.v ===== *)
(** * GPU-initiated InfiniBand: what an operation posts

    ibgda_device.cuh, from [ibgda_cal_transfer_size] and [ibgda_rma_thread] to
    [nvshmemi_ibgda_put_signal]: how a put, get, scalar put or get, atomic or
    put with signal is cut into chunks of one key each, and which work-queue
    entries the lanes of a warp write for it, at which slots of the reserved
    range.  The queue pair, the keys and the bytes come from the other files;
    here a command is what is handed to a writer of [IbgdaWqe]. *)
From stdpp Require Import base gmap list option.
From Stdlib Require Import ZArith Lia.
From S2P Require Import Prelude IbgdaQueue IbgdaQp IbgdaWqe IbgdaKeys.

Module IbgdaRma.
Import IbgdaQueue IbgdaQp IbgdaWqe IbgdaKeys.

Definition IBGDA_MAX_TRANSFER_SIZE : Z := 2147483648.
(** [ibgda_cal_transfer_size] *)
Definition ibgda_cal_transfer_size (req_size lchunk_size rchunk_size : Z) : Z :=
  Z.min IBGDA_MAX_TRANSFER_SIZE (Z.min req_size (Z.min rchunk_size lchunk_size)).

(** ** Chunks *)
(** What one RDMA operation moves: local key and address, remote key and
    address, bytes; and whether the local buffer is system memory *)
Record chunk := MkChunk { ck_lkey : Z; ck_laddr : Z; ck_rkey : Z; ck_raddr : Z; ck_bytes : Z; ck_sysmem : bool }.

Section Chunks.
(** [ibgda_get_lkey] and [ibgda_get_raddr_rkey] for the queue pair's device and the PE *)
Context (lkey_of : Z -> outcome (Z * Z * bool)) (rkey_of : Z -> outcome (Z * Z * Z)).

(** The body of the loop of [ibgda_rma_thread], [ibgda_rma] and [nvshmemi_ibgda_put_signal_impl] *)
Definition one_chunk (rptr lptr remaining_size : Z) : outcome chunk :=
  '(lkey, lchunk_size, is_data_buf_in_sysmem) ← lkey_of lptr;
  '(raddr, rkey, rchunk_size) ← rkey_of rptr;
  Ret (MkChunk lkey lptr rkey raddr (ibgda_cal_transfer_size remaining_size lchunk_size rchunk_size) is_data_buf_in_sysmem).
(** [while (remaining_size > 0)] *)
Fixpoint chunks (fuel : nat) (rptr lptr remaining_size : Z) : outcome (list chunk) :=
  if bool_decide (remaining_size > 0) then
    match fuel with
    | O => Fail FSpin
    | S fuel =>
        c ← one_chunk rptr lptr remaining_size;
        cs ← chunks fuel (rptr + ck_bytes c) (lptr + ck_bytes c) (remaining_size - ck_bytes c);
        Ret (c :: cs)
    end
  else Ret [].
End Chunks.

(** ** Commands *)
Inductive command :=
| CWrite (dct : Z) (c : chunk)
| CRead (dct : Z) (c : chunk)
| CInline (dct : Z) (val : list Z) (raddr rkey : Z)
| CAtomic (dct : Z) (op : amo_op) (val_1 val_2 bytes raddr rkey laddr : Z)
| CDump
| CNop.
(** A command at a slot of the reserved range, of so many blocks; with or
    without [MLX5_WQE_CTRL_CQ_UPDATE]; and the lane that writes it *)
Record post := MkPost { po_lane : Z; po_slot : Z; po_blocks : Z; po_cq : bool; po_cmd : command }.

Section Posts.
Context (half : bool) (ty : qp_type).

Inductive channel_op := OP_PUT | OP_GET.
Definition rdma (op : channel_op) (dct : Z) (c : chunk) : command := match op with OP_PUT => CWrite dct c | OP_GET => CRead dct c end.
(** [need_cst], [need_immediate_cst] and [need_additional_wqe] of [ibgda_rma_thread]
    and [ibgda_rma] *)
Definition rma_cst (op : channel_op) (nbi may_skip_cst : bool) : bool * bool :=
  let need_cst := match op with OP_GET => negb may_skip_cst | OP_PUT => false end in (need_cst, negb nbi && need_cst).
Definition additional (imm : bool) : bool := imm || match ty with DCI => negb half | RC => false end.

(** The commands of one round of [ibgda_rma_thread]: lane [i] of the group sends
    its chunk, the last lane ends the group; [num_wqes] *)
Definition rma_posts (op : channel_op) (imm : bool) (dcts : list Z) (cs : list chunk) : list post * Z :=
  let n := Z.of_nat (length cs) in
  let per := rdma_wqes_per_cmd half ty in
  let lane i dc := MkPost i (i * per) per (negb (additional imm) && bool_decide (i = n - 1)) (rdma op dc.1 dc.2) in
  let extra := if additional imm then [MkPost (n - 1) (n * per) 1 true (if imm then CDump else CNop)] else [] in
  (zip_with lane (seqZ 0 n) (zip dcts cs) ++ extra, per * n + (if additional imm then 1 else 0)).

(** [ibgda_rma], by warp 0 of the group: at most 32 chunks, one for each lane
    ([Some]); otherwise lane 0 alone sends them one by one *)
Definition ibgda_rma (op : channel_op) (imm : bool) (dct : Z) (cs : list chunk) : option (list post * Z) :=
  if bool_decide (Z.of_nat (length cs) > 32) then None else Some (rma_posts op imm (replicate (length cs) dct) cs).
(** The rounds of [ibgda_rma_thread] by one thread *)
Definition ibgda_rma_thread (op : channel_op) (imm : bool) (dct : Z) (cs : list chunk) : list (list post * Z) :=
  (fun c => rma_posts op imm [dct] [c]) <$> cs.

(** [nvshmemi_ibgda_rma_p_impl]: a value, remote address and key for each lane.
    [combine] is [can_combine_data], for a full warp that writes contiguous values
    under one key: the values of the warp (for 8-byte values over a DCI, of each
    half warp, the second at the fourth block) go into one inline write, followed
    by a no-op that asks for the completion. *)
Definition combined_write (dct first slot n : Z) (vals : list (list Z * Z * Z)) : list post :=
  match vals with
  | (_, raddr, rkey) :: _ =>
      [MkPost first slot (n - 1) false (CInline dct (concat ((fun v => v.1.1) <$> vals)) raddr rkey); MkPost first (slot + (n - 1)) 1 true CNop]
  | [] => []
  end.
Definition rma_p_posts (combine : bool) (dcts : list Z) (vals : list (list Z * Z * Z)) : outcome (list post * Z) :=
  let n := Z.of_nat (length vals) in
  if combine then
    let sizeof := match vals with (val, _, _) :: _ => Z.of_nat (length val) | [] => 0 end in
    let dct := default 0 (head dcts) in
    match ty with
    | DCI =>
        if bool_decide (sizeof = 8) then
          k ← ibgda_get_num_wqes_in_inl_combine_warp 4 DCI;
          Ret (combined_write dct 0 (Z.shiftr 0 2) k (take 16 vals) ++ combined_write dct 16 (Z.shiftr 16 2) k (drop 16 vals), 2 * k)
        else k ← ibgda_get_num_wqes_in_inl_combine_warp sizeof DCI; Ret (combined_write dct 0 0 k vals, k)
    | RC => k ← ibgda_get_num_wqes_in_inl_combine_warp sizeof RC; Ret (combined_write dct 0 0 k vals, k)
    end
  else
    let per := rdma_wqes_per_cmd half ty in
    let add := bool_decide (per > 1) in
    let lane i (dv : Z * (list Z * Z * Z)) :=
      let '(dct, (val, raddr, rkey)) := dv in MkPost i (i * per) per (negb add && bool_decide (i = n - 1)) (CInline dct val raddr rkey) in
    Ret (zip_with lane (seqZ 0 n) (zip dcts vals) ++ (if add then [MkPost (n - 1) (n * per) 1 true CNop] else []), per * n + (if add then 1 else 0)).

(** [nvshmemi_ibgda_rma_g_impl]: one read of the whole warp where the addresses
    are contiguous, otherwise one for each lane *)
Definition rma_g_posts (need_cst combine : bool) (dcts : list Z) (cs : list chunk) : list post * Z :=
  let n := Z.of_nat (length cs) in
  let per := rdma_wqes_per_cmd half ty in
  let add := additional need_cst in
  let end_ := if need_cst then CDump else CNop in
  if combine then
    (match dcts, cs with
     | d :: _, c :: _ =>
         [MkPost 0 0 per (negb add) (CRead d (MkChunk (ck_lkey c) (ck_laddr c) (ck_rkey c) (ck_raddr c) (ck_bytes c * n) (ck_sysmem c)))]
     | _, _ => []
     end ++ (if add then [MkPost (n - 1) per 1 true end_] else []), per + (if add then 1 else 0))
  else
    let lane i dc := MkPost i (i * per) per (negb add && bool_decide (i = n - 1)) (CRead dc.1 dc.2) in
    (zip_with lane (seqZ 0 n) (zip dcts cs) ++ (if add then [MkPost (n - 1) (n * per) 1 true end_] else []), per * n + (if add then 1 else 0)).

(** [nvshmemi_ibgda_amo_nonfetch_impl] ([fetch] false) and [nvshmemi_ibgda_amo_fetch_impl]:
    an atomic for each lane *)
Definition amo_posts (fetch need_cst : bool) (op : amo_op) (bytes : Z) (cmds : list command) : list post * Z :=
  let n := Z.of_nat (length cmds) in
  let per := ibgda_get_num_wqes_in_atomic bytes op ty in
  let add := bool_decide (per > 1) || (fetch && need_cst) in
  let lane i cmd := MkPost i (i * per) per (negb add && bool_decide (i = n - 1)) cmd in
  (zip_with lane (seqZ 0 n) cmds ++ (if add then [MkPost (n - 1) (n * per) 1 true (if fetch && need_cst then CDump else CNop)] else []),
   per * n + (if add then 1 else 0)).

(** [nvshmemi_ibgda_put_signal_thread_impl], payload in one piece: for each lane
    a write and its signal *)
Definition put_signal_posts (sig_op : amo_op) (cmds : list (command * command)) : list post * Z :=
  let n := Z.of_nat (length cmds) in
  let w := rdma_wqes_per_cmd half ty in
  let a := ibgda_get_num_wqes_in_atomic 8 sig_op ty in
  let per := w + a in
  let add := bool_decide (a > 1) in
  let lane i (c : command * command) :=
    [MkPost i (i * per) w false c.1; MkPost i (i * per + w) a (negb add && bool_decide (i = n - 1)) c.2] in
  (mjoin (zip_with lane (seqZ 0 n) cmds) ++ (if add then [MkPost (n - 1) (n * per) 1 true CNop] else []), per * n + (if add then 1 else 0)).
(** The same with the payload in several pieces: the pieces go through
    [ibgda_rma_thread], with a queue pair of its own choice; then the signal *)
Definition put_signal_tail (sig_op : amo_op) (sig : command) : list post * Z :=
  let a := ibgda_get_num_wqes_in_atomic 8 sig_op ty in
  let add := bool_decide (a > 1) in
  (MkPost 0 0 a (negb add) sig :: (if add then [MkPost 0 a 1 true CNop] else []), a + (if add then 1 else 0)).

(** [nvshmemi_ibgda_put_signal_impl], by warp 0: a lane for each chunk and the
    next one for the signal; [None] where there are too many *)
Definition put_signal_group (sig_op : amo_op) (dct : Z) (cs : list chunk) (sig : command) : option (list post * Z) :=
  let n := Z.of_nat (length cs) in
  if bool_decide (n > 32 - 1) then None
  else
    let w := rdma_wqes_per_cmd half ty in
    let a := ibgda_get_num_wqes_in_atomic 8 sig_op ty in
    let add := bool_decide (a > 1) in
    let lane i c := MkPost i (i * w) w false (CWrite dct c) in
    Some (zip_with lane (seqZ 0 n) cs ++ MkPost n (n * w) a (negb add) sig :: (if add then [MkPost n (n * w + a) 1 true CNop] else []),
          w * n + a + (if add then 1 else 0)).
End Posts.

(** ** The queue pair of each lane *)
Section Lanes.
Context (st : device_state).

Definition all_equal (l : list Z) : bool := match l with [] => true | x :: l => forallb (fun y => bool_decide (y = x)) l end.
(** [ibgda_can_coalesce_warp] and [ibgda_can_coalesce_warp_pe]: what the lanes
    of a full warp agree on *)
Definition ibgda_can_coalesce_warp (full_warp : bool) (qpns : list Z) : bool := full_warp && all_equal qpns.
Definition ibgda_can_coalesce_warp_pe (full_warp : bool) (pes : list Z) : bool := full_warp && all_equal pes.

(** Each lane for itself, or lane 0 for all of them *)
Fixpoint own_qps (sw : list Z) (ths : list thread) (pes : list Z) (qp_index : Z) : outcome (list qp_ref * list Z) :=
  match ths, pes with
  | th :: ths, pe :: pes =>
      '((q, _), sw) ← ibgda_get_qp st sw th pe qp_index;
      '(qs, sw) ← own_qps sw ths pes qp_index;
      Ret (q :: qs, sw)
  | _, _ => Ret ([], sw)
  end.
Definition shared_qp (sw : list Z) (ths : list thread) (pes : list Z) (qp_index : Z) : outcome (list qp_ref * list Z) :=
  match ths, pes with
  | th :: _, pe :: _ => '((q, _), sw) ← ibgda_get_qp st sw th pe qp_index; Ret (replicate (length pes) q, sw)
  | _, _ => Ret ([], sw)
  end.
(** [ibgda_rma_thread], [nvshmemi_ibgda_rma_g_impl], the atomics and
    [nvshmemi_ibgda_put_signal_thread_impl]: lane 0 chooses where all lanes name
    the same PE *)
Definition coalesced_qps (full_warp : bool) (sw : list Z) (ths : list thread) (pes : list Z) (qp_index : Z) : outcome (list qp_ref * list Z) :=
  if ibgda_can_coalesce_warp_pe full_warp pes then shared_qp sw ths pes qp_index else own_qps sw ths pes qp_index.
(** [nvshmemi_ibgda_rma_p] and its [_impl]: lane 0 chooses whenever the warp is
    full *)
Definition rma_p_qps (full_warp : bool) (sw : list Z) (ths : list thread) (pes : list Z) (qp_index : Z) : outcome (list qp_ref * list Z) :=
  if full_warp then shared_qp sw ths pes qp_index else own_qps sw ths pes qp_index.
End Lanes.
End IbgdaRma.
