(* ===== verification/IbgdaRmaSpec.v ===== *)
(** * What an operation posts: the whole request, once, to the right place

    The chunks of a transfer tile it, each inside one registered region on
    either side; the commands of every operation fill the range of slots
    reserved for it, the last one alone asking for a completion; and the queue
    pair of each lane reaches the PE the lane names, except for the scalar
    puts of a full warp. *)
From stdpp Require Import base gmap list option.
From Stdlib Require Import ZArith Lia.
From S2P Require Import Prelude IbgdaQueue IbgdaQp IbgdaQpSpec IbgdaWqe IbgdaKeys IbgdaKeysSpec IbgdaRma.

Module IbgdaRmaSpec.
Import IbgdaQueue IbgdaQp IbgdaQpSpec IbgdaWqe IbgdaKeys IbgdaKeysSpec IbgdaRma.

(** ** Chunks *)
Section Chunks.
Context (st : device_state) (heap_base heap_size lg kind : Z) (peers : list Z) (s : mem_state) (rs : list region).
Context (HH : heap_ok st heap_base heap_size lg) (HR : Forall (region_ok st heap_size lg) rs) (HS : holds st heap_base lg s rs).
Context (dst proxy dev b : Z) (Hd : 0 <= dev < num_devices_initialized st) (Hp : 0 <= proxy < npes st) (Hb : peers !! Z.to_nat proxy = Some b).

(** The heap from [o] for [n] bytes is registered. *)
Definition registered (o n : Z) : Prop := forall k, o <= k < o + n -> exists r, r ∈ rs /\ rg_off r <= k < rg_off r + rg_len r.

(** The chunks of a transfer of [n] bytes from [lo] to [ro] *)
Inductive tiled : Z -> Z -> Z -> list chunk -> Prop :=
| tiled_nil lo ro : tiled lo ro 0 []
| tiled_cons lo ro n r1 r2 m cs :
    r1 ∈ rs -> r2 ∈ rs -> 0 < m <= MAX_LEN -> m <= n ->
    rg_off r1 <= lo -> lo + m <= rg_off r1 + rg_len r1 ->
    rg_off r2 <= ro -> ro + m <= rg_off r2 + rg_len r2 ->
    tiled (lo + m) (ro + m) (n - m) cs ->
    tiled lo ro n (MkChunk (HTOBE32 (rg_lkeys r1 !!! Z.to_nat dev)) (heap_base + lo)
      (HTOBE32 ((rg_rkeys r2 !!! Z.to_nat proxy) !!! Z.to_nat dev)) (remote_addr st heap_size b dst proxy ro) m (bool_decide (kind = 1)) :: cs).

Local Abbreviation lkey_of := (fun a => ibgda_get_lkey st heap_base heap_size lg kind s a dev).
Local Abbreviation rkey_of := (fun a => ibgda_get_raddr_rkey st heap_base heap_size lg peers s a dst proxy dev).

Lemma one_chunk_ok lo ro n : 0 < n -> registered lo n -> registered ro n -> exists r1 r2 m,
  one_chunk lkey_of rkey_of (heap_base + ro) (heap_base + lo) n =
    Ret (MkChunk (HTOBE32 (rg_lkeys r1 !!! Z.to_nat dev)) (heap_base + lo)
      (HTOBE32 ((rg_rkeys r2 !!! Z.to_nat proxy) !!! Z.to_nat dev)) (remote_addr st heap_size b dst proxy ro) m (bool_decide (kind = 1))) /\
  r1 ∈ rs /\ r2 ∈ rs /\ 0 < m <= MAX_LEN /\ m <= n /\
  rg_off r1 <= lo /\ lo + m <= rg_off r1 + rg_len r1 /\ rg_off r2 <= ro /\ ro + m <= rg_off r2 + rg_len r2.
Proof.
  intros Hn HL HO. destruct (HL lo ltac:(lia)) as (r1 & I1 & B1). destruct (HO ro ltac:(lia)) as (r2 & I2 & B2). rewrite Forall_forall in HR.
  assert (region_ok st heap_size lg r1) as K1 by (by apply HR, list_elem_of_In). assert (region_ok st heap_size lg r2) as K2 by (by apply HR, list_elem_of_In).
  exists r1, r2, (ibgda_cal_transfer_size n (Z.min (rg_off r1 + rg_len r1 - lo) MAX_LEN) (rg_off r2 + rg_len r2 - ro)).
  unfold one_chunk. rewrite (lkey_found st heap_base heap_size lg HH kind s rs r1) by done. rewrite outcome_bind_ret.
  rewrite (rkey_found st heap_base heap_size lg HH peers s rs r2 ro dst proxy dev b) by done. rewrite outcome_bind_ret. split; [done|].
  unfold ibgda_cal_transfer_size, IBGDA_MAX_TRANSFER_SIZE, MAX_LEN. split_and!; (done || lia).
Qed.

Lemma chunks_ok fuel lo ro n : 0 <= n <= Z.of_nat fuel -> registered lo n -> registered ro n ->
  exists cs, chunks lkey_of rkey_of fuel (heap_base + ro) (heap_base + lo) n = Ret cs /\ tiled lo ro n cs.
Proof.
  revert lo ro n. induction fuel as [|fuel IH]; intros lo ro n Hf HL HO; cbn [chunks].
  - assert (n = 0) as -> by lia. exists []. split; [done|]. constructor.
  - case_bool_decide as HN; [|assert (n = 0) as -> by lia; exists []; split; [done|constructor]].
    destruct (one_chunk_ok lo ro n) as (r1 & r2 & m & -> & I1 & I2 & M1 & M2 & A1 & A2 & A3 & A4); [lia|done|done|].
    rewrite outcome_bind_ret. cbn [ck_bytes].
    destruct (IH (lo + m) (ro + m) (n - m)) as (cs & HC & HT); [lia|intros k Hk; apply HL; lia|intros k Hk; apply HO; lia|].
    rewrite <- !Z.add_assoc, HC, outcome_bind_ret. eexists. split; [done|]. by econstructor.
Qed.
End Chunks.

(** C11: a put or get between registered parts of the heap is cut into chunks
    that tile it exactly, in order; each chunk is at most 2^30 bytes, lies in
    one registered region on the local and one on the remote side, and carries
    the keys of those regions and the address the remote PE has for its part.
    The loop ends after at most one round for each byte. *)
Theorem rma_chunks_tile st heap_base heap_size lg kind peers s rs dst proxy dev b lo ro n :
  heap_ok st heap_base heap_size lg -> Forall (region_ok st heap_size lg) rs -> holds st heap_base lg s rs ->
  0 <= dev < num_devices_initialized st -> 0 <= proxy < npes st -> peers !! Z.to_nat proxy = Some b ->
  0 <= n -> registered rs lo n -> registered rs ro n ->
  exists cs, chunks (fun a => ibgda_get_lkey st heap_base heap_size lg kind s a dev)
      (fun a => ibgda_get_raddr_rkey st heap_base heap_size lg peers s a dst proxy dev) (Z.to_nat n) (heap_base + ro) (heap_base + lo) n = Ret cs /\
    tiled st heap_base heap_size kind rs dst proxy dev b lo ro n cs.
Proof. intros HH HR HS Hd Hp Hb Hn HL HO. apply chunks_ok; (done || lia). Qed.

Lemma ex_holds : exists s, holds ex_dev (2 ^ 40) 21 s [ex_region 0 (2 * 2 ^ 21) 100].
Proof.
  destruct (add_region_ok ex_dev (2 ^ 40) (2 ^ 27) 21) with (cu := ex_cuda 1) (r := ex_region 0 (2 * 2 ^ 21) 100) (rs := @nil region)
    (s := MkMem init_table init_table [] None ∅) as (s & _ & HS).
  - split; cbn; lia.
  - by split_and!; [..|by eexists| | |].
  - split; cbn; try lia; [split; [by exists 0|by exists 2]|split; [done|repeat constructor]].
  - constructor.
  - constructor.
  - apply holds_init.
  - by exists s.
Qed.
Lemma rma_chunks_tile_witness : exists s, holds ex_dev (2 ^ 40) 21 s [ex_region 0 (2 * 2 ^ 21) 100] /\
  exists cs, chunks (fun a => ibgda_get_lkey ex_dev (2 ^ 40) (2 ^ 27) 21 0 s a 1)
      (fun a => ibgda_get_raddr_rkey ex_dev (2 ^ 40) (2 ^ 27) 21 [2 ^ 41; 2 ^ 42; 2 ^ 43] s a 2 2 1) (Z.to_nat 4000) (2 ^ 40 + 9) (2 ^ 40 + 100000) 4000 = Ret cs /\
    tiled ex_dev (2 ^ 40) (2 ^ 27) 0 [ex_region 0 (2 * 2 ^ 21) 100] 2 2 1 (2 ^ 43) 100000 9 4000 cs.
Proof.
  destruct ex_holds as [s HS]. exists s. split; [done|].
  apply (rma_chunks_tile ex_dev (2 ^ 40) (2 ^ 27) 21 0 [2 ^ 41; 2 ^ 42; 2 ^ 43] s [ex_region 0 (2 * 2 ^ 21) 100] 2 2 1 (2 ^ 43) 100000 9 4000).
  - split; cbn; lia.
  - constructor; [|constructor]. split; cbn; try lia; [split; [by exists 0|by exists 2]|split; [done|repeat constructor]].
  - done.
  - cbn. lia.
  - cbn. lia.
  - done.
  - lia.
  - intros k Hk. eexists. split; [left|]. cbn. lia.
  - intros k Hk. eexists. split; [left|]. cbn. lia.
Defined.

(** ** Slots *)
(** The commands fill the slots from [a] to [b]. *)
Fixpoint fill (a : Z) (ps : list post) (b : Z) : Prop :=
  match ps with [] => a = b | p :: ps => po_slot p = a /\ 0 < po_blocks p /\ fill (a + po_blocks p) ps b end.
(** The last command alone asks for a completion. *)
Definition last_cq (ps : list post) : Prop := forall i p, ps !! i = Some p -> po_cq p = bool_decide (S i = length ps).

Lemma fill_app a ps qs b c : fill a ps b -> fill b qs c -> fill a (ps ++ qs) c.
Proof. revert a. induction ps as [|p ps IH]; cbn; intros a H1 H2; [by subst|]. destruct H1 as (? & ? & ?). split_and!; [done|done|]. by apply IH. Qed.
Lemma last_cq_app ps p : Forall (fun q => po_cq q = false) ps -> po_cq p = true -> last_cq (ps ++ [p]).
Proof.
  intros HF Hp i q Hq. rewrite length_app. cbn. destruct (decide (i = length ps)) as [->|Hne].
  - rewrite lookup_app_r, Nat.sub_diag in Hq by lia. injection Hq as <-. rewrite Hp. by rewrite bool_decide_true by lia.
  - assert (i < length ps)%nat by (apply lookup_lt_Some in Hq; rewrite length_app in Hq; cbn in Hq; lia).
    rewrite lookup_app_l in Hq by done. rewrite (proj1 (Forall_lookup _ _) HF i q Hq). by rewrite bool_decide_false by lia.
Qed.

(** Lanes one after the other, each with [per] blocks *)
Lemma fill_lanes {A} (f : Z -> A -> post) per l : 0 < per ->
  (forall i x, 0 <= i -> po_slot (f i x) = i * per /\ po_blocks (f i x) = per) ->
  fill 0 (zip_with f (seqZ 0 (Z.of_nat (length l))) l) (per * Z.of_nat (length l)).
Proof.
  intros Hper Hf. assert (forall k, 0 <= k -> fill (k * per) (zip_with f (seqZ k (Z.of_nat (length l))) l) ((k + Z.of_nat (length l)) * per)) as HG.
  { induction l as [|x l IH]; intros k Hk; cbn [length]; [by rewrite Z.add_0_r|].
    rewrite Nat2Z.inj_succ, seqZ_cons by lia. cbn [zip_with fill]. destruct (Hf k x Hk) as [-> ->]. split_and!; [done|done|].
    rewrite Z.pred_succ. replace (k * per + per) with ((k + 1) * per) by lia.
    replace (k + Z.succ (Z.of_nat (length l))) with (k + 1 + Z.of_nat (length l)) by lia. apply (IH (k + 1)). lia. }
  specialize (HG 0 ltac:(lia)). rewrite Z.mul_0_l, Z.add_0_l, Z.mul_comm in HG. exact HG.
Qed.
Lemma lookup_lanes {A} (f : Z -> A -> post) l i p : zip_with f (seqZ 0 (Z.of_nat (length l))) l !! i = Some p ->
  exists x, l !! i = Some x /\ p = f (Z.of_nat i) x.
Proof.
  intros Hp. apply lookup_zip_with_Some in Hp as (k & x & -> & Hk & Hx). apply lookup_seqZ in Hk as [-> _]. exists x. by rewrite Z.add_0_l.
Qed.
Lemma length_lanes {A} (f : Z -> A -> post) l : length (zip_with f (seqZ 0 (Z.of_nat (length l))) l) = length l.
Proof. rewrite length_zip_with, length_seqZ, Nat2Z.id. lia. Qed.

(** A group of lanes with or without a command at the end *)
Definition group (ps : list post) (n : Z) : Prop := fill 0 ps n /\ last_cq ps.
Lemma lanes_group {A} (f : Z -> A -> post) (add : bool) e per (l : list A) : 0 < per -> l <> [] ->
  (forall i x, 0 <= i -> po_slot (f i x) = i * per /\ po_blocks (f i x) = per /\ po_cq (f i x) = negb add && bool_decide (i = Z.of_nat (length l) - 1)) ->
  po_slot e = per * Z.of_nat (length l) -> po_blocks e = 1 -> po_cq e = true ->
  group (zip_with f (seqZ 0 (Z.of_nat (length l))) l ++ (if add then [e] else [])) (per * Z.of_nat (length l) + (if add then 1 else 0)).
Proof.
  intros Hper Hne Hf E1 E2 E3. assert (fill 0 (zip_with f (seqZ 0 (Z.of_nat (length l))) l) (per * Z.of_nat (length l))) as HF.
  { apply fill_lanes; [done|]. intros i x Hi. by destruct (Hf i x Hi) as (? & ? & _). }
  destruct add; split.
  - eapply fill_app; [exact HF|]. cbn. rewrite E1, E2. done.
  - apply last_cq_app; [|done]. apply Forall_lookup. intros i p Hp. apply lookup_lanes in Hp as (x & _ & ->). by destruct (Hf (Z.of_nat i) x) as (_ & _ & ->); [lia|].
  - rewrite app_nil_r, Z.add_0_r. exact HF.
  - rewrite app_nil_r. intros i p Hp. rewrite length_lanes. apply lookup_lanes in Hp as (x & _ & ->). destruct (Hf (Z.of_nat i) x) as (_ & _ & ->); [lia|].
    cbn [negb andb]. apply bool_decide_ext. destruct l; [done|]. cbn [length]. lia.
Qed.

Lemma amo_wqes_pos bytes op ty : 0 < ibgda_get_num_wqes_in_atomic bytes op ty.
Proof. unfold ibgda_get_num_wqes_in_atomic. destruct ty; [lia|]. case_bool_decide; [destruct op|]; lia. Qed.
Lemma rdma_wqes_gt0 half ty : 0 < rdma_wqes_per_cmd half ty.
Proof. by destruct ty, half. Qed.

(** Each lane with a write of [w] blocks and a signal of [a] *)
Lemma fill_pairs (f : Z -> command * command -> list post) w a l : 0 < w -> 0 < a ->
  (forall i x, 0 <= i -> exists p q, f i x = [p; q] /\ po_slot p = i * (w + a) /\ po_blocks p = w /\ po_slot q = i * (w + a) + w /\ po_blocks q = a) ->
  fill 0 (mjoin (zip_with f (seqZ 0 (Z.of_nat (length l))) l)) ((w + a) * Z.of_nat (length l)).
Proof.
  intros Hw Ha Hf.
  assert (forall k, 0 <= k -> fill (k * (w + a)) (mjoin (zip_with f (seqZ k (Z.of_nat (length l))) l)) ((k + Z.of_nat (length l)) * (w + a))) as HG.
  { induction l as [|x l IH]; intros k Hk; cbn [length]; [by rewrite Z.add_0_r|].
    rewrite Nat2Z.inj_succ, seqZ_cons by lia. cbn [zip_with mjoin list_join]. destruct (Hf k x Hk) as (p & q & -> & E1 & E2 & E3 & E4).
    cbn [app fill]. rewrite E1, E2, E3, E4. split_and!; try done. rewrite Z.pred_succ. replace (k * (w + a) + w + a) with ((k + 1) * (w + a)) by lia.
    replace (k + Z.succ (Z.of_nat (length l))) with (k + 1 + Z.of_nat (length l)) by lia. apply (IH (k + 1)). lia. }
  specialize (HG 0 ltac:(lia)). rewrite Z.mul_0_l, Z.add_0_l, Z.mul_comm in HG. exact HG.
Qed.
Lemma pairs_no_cq (f : Z -> command * command -> list post) k l :
  (forall i x, k <= i < k + Z.of_nat (length l) -> Forall (fun p => po_cq p = false) (f i x)) ->
  Forall (fun p => po_cq p = false) (mjoin (zip_with f (seqZ k (Z.of_nat (length l))) l)).
Proof.
  revert k. induction l as [|x l IH]; intros k Hf; cbn [length] in *; [constructor|].
  rewrite Nat2Z.inj_succ, seqZ_cons by lia. cbn [zip_with mjoin list_join]. apply Forall_app. split; [apply Hf; lia|].
  rewrite Z.pred_succ. apply IH. intros i y Hi. apply Hf. lia.
Qed.

Lemma put_signal_posts_group half ty sig_op cmds : cmds <> [] -> let '(ps, n) := put_signal_posts half ty sig_op cmds in group ps n.
Proof.
  intros Hne. unfold put_signal_posts. set (w := rdma_wqes_per_cmd half ty). set (a := ibgda_get_num_wqes_in_atomic 8 sig_op ty).
  assert (0 < w) by apply rdma_wqes_gt0. assert (0 < a) by apply amo_wqes_pos. set (add := bool_decide (a > 1)). set (n := Z.of_nat (length cmds)).
  set (f := fun (i : Z) (c : command * command) => [MkPost i (i * (w + a)) w false c.1;
     MkPost i (i * (w + a) + w) a (negb add && bool_decide (i = n - 1)) c.2]).
  assert (fill 0 (mjoin (zip_with f (seqZ 0 n) cmds)) ((w + a) * n)) as HF by (apply fill_pairs; [done|done|]; intros i x Hi; by eexists _, _).
  destruct add eqn:HA; split.
  - eapply fill_app; [exact HF|]. cbn. split_and!; lia.
  - apply last_cq_app; [|done]. apply pairs_no_cq. intros i x Hi. unfold f. cbn [negb andb]. repeat constructor.
  - rewrite app_nil_r, Z.add_0_r. exact HF.
  - rewrite app_nil_r. destruct cmds as [|x l] using rev_ind; [done|]. unfold n. rewrite length_app, Nat2Z.inj_add. change (Z.of_nat (length [x])) with 1.
    rewrite seqZ_app, zip_with_app by (rewrite ?length_seqZ; lia). rewrite (seqZ_cons (0 + _) 1) by lia. cbn [zip_with]. rewrite join_app.
    cbn [mjoin list_join app]. unfold f at 2. cbn [app].
    match goal with |- last_cq (?l ++ ?p :: ?q :: ?r) =>
      replace (l ++ p :: q :: r) with ((l ++ [p]) ++ [q]) by (rewrite <- app_assoc; cbn [app]; do 3 f_equal; by destruct (seqZ _ (Z.pred 1))) end.
    apply last_cq_app.
    + apply Forall_app. split; [|by repeat constructor]. apply pairs_no_cq. intros i y Hi. unfold f.
      repeat constructor. cbn [po_cq negb andb]. apply bool_decide_false. unfold n. rewrite length_app. cbn. lia.
    + cbn [po_cq negb andb]. apply bool_decide_true. unfold n. rewrite length_app. cbn. lia.
Qed.

Lemma zip_ne {A B} (l : list A) (k : list B) : length l = length k -> k <> [] -> zip l k <> [] /\ length (zip l k) = length k.
Proof. intros HL HN. split; [destruct l, k; done|]. rewrite length_zip_with. lia. Qed.

(** Combined scalar puts: the no-ops, and only they, ask for a completion; one of
    them is the last command. *)
Definition nops_cq (ps : list post) : Prop :=
  (forall p, p ∈ ps -> po_cq p = true <-> po_cmd p = CNop) /\ exists qs p, ps = qs ++ [p] /\ po_cmd p = CNop.

Lemma combined_fill dct first slot n v vals : 1 < n -> fill slot (combined_write dct first slot n (v :: vals)) (slot + n).
Proof. intros Hn. destruct v as [[v r] k]. cbn. split_and!; lia. Qed.

Lemma combined_posts half ty dcts vals size :
  length vals = 32%nat -> Forall (fun v => length v.1.1 = size) vals -> (size = 1 \/ size = 2 \/ size = 4 \/ size = 8)%nat ->
  exists ps n, rma_p_posts half ty true dcts vals = Ret (ps, n) /\ fill 0 ps n /\ nops_cq ps /\
    ((ty = RC \/ size <> 8%nat) -> last_cq ps).
Proof.
  intros HL HF HS.
  assert (Hone : forall d n v l, 1 < n -> let ps := combined_write d 0 0 n (v :: l) in fill 0 ps n /\ nops_cq ps /\ last_cq ps).
  { intros d n v l Hn. split; [apply (combined_fill d 0 0 n v l Hn)|]. destruct v as [[v r] k]. cbn. split.
    - split; [|by eexists [_], _]. intros p. rewrite !elem_of_cons, elem_of_nil. by intros [-> |[-> |[]]].
    - apply (last_cq_app [_]); [by repeat constructor|done]. }
  destruct vals as [|v vals]; [done|]. assert (length v.1.1 = size) as Hv by (by inversion HF). destruct v as [[val r] k]. cbn [fst] in Hv.
  unfold rma_p_posts. cbv zeta. rewrite Hv. unfold ibgda_get_num_wqes_in_inl_combine_warp. destruct ty.
  - destruct HS as [-> |[-> |[-> | ->]]]; cbn - [combined_write last_cq firstn skipn];
      [(eexists _, _; split; [reflexivity|]; edestruct Hone as (? & ? & ?); [|split; [eassumption|]; split; [eassumption|done]]; lia)..|].
    eexists _, _. split; [reflexivity|]. destruct (drop 16 ((val, r, k) :: vals)) as [|v2 l2] eqn:Ed.
    { apply (f_equal length) in Ed. rewrite length_drop, HL in Ed. discriminate Ed. }
    change (take 16 ((val, r, k) :: vals)) with ((val, r, k) :: take 15 vals). split; [|split].
    + eapply fill_app; [by apply combined_fill|]. by apply (combined_fill _ _ 4 4).
    + destruct v2 as [[v2 r2] k2]. cbn. split; [|by eexists [_; _; _], _]. intros p. rewrite !elem_of_cons, elem_of_nil. by intros [-> |[-> |[-> |[-> |[]]]]].
    + by intros [|].
  - destruct HS as [-> |[-> |[-> | ->]]]; cbn - [combined_write last_cq];
      (eexists _, _; split; [reflexivity|]; edestruct Hone as (? & ? & ?); [|split; [eassumption|]; split; [eassumption|done]]; lia).
Qed.

(** C31: every operation (put and get of a warp or a thread, scalar put and get,
    combined or not, atomics, put with signal in its three forms) writes commands
    that fill the range of slots it reserves without gap or overlap, in order,
    whatever the kind of the queue pair and of the address vectors.  The last of
    them asks for a completion, and, but for the combined put of 8-byte values
    over a DCI, it alone, so the completion stands for the group; that put is two
    writes, each followed by a no-op that asks for one. *)
Theorem groups_fill half ty :
  (forall op imm dcts cs, length dcts = length cs -> cs <> [] -> let '(ps, n) := rma_posts half ty op imm dcts cs in group ps n) /\
  (forall dcts vals, length dcts = length vals -> vals <> [] -> exists ps n, rma_p_posts half ty false dcts vals = Ret (ps, n) /\ group ps n) /\
  (forall dcts vals size, length vals = 32%nat -> Forall (fun v => length v.1.1 = size) vals -> (size = 1 \/ size = 2 \/ size = 4 \/ size = 8)%nat ->
     exists ps n, rma_p_posts half ty true dcts vals = Ret (ps, n) /\ fill 0 ps n /\ nops_cq ps /\ ((ty = RC \/ size <> 8%nat) -> last_cq ps)) /\
  (forall need_cst combine dcts cs, length dcts = length cs -> cs <> [] -> let '(ps, n) := rma_g_posts half ty need_cst combine dcts cs in group ps n) /\
  (forall fetch need_cst op bytes cmds, cmds <> [] -> let '(ps, n) := amo_posts ty fetch need_cst op bytes cmds in group ps n) /\
  (forall sig_op cmds, cmds <> [] -> let '(ps, n) := put_signal_posts half ty sig_op cmds in group ps n) /\
  (forall sig_op sig, let '(ps, n) := put_signal_tail ty sig_op sig in group ps n) /\
  (forall sig_op dct cs sig ps n, put_signal_group half ty sig_op dct cs sig = Some (ps, n) -> group ps n).
Proof.
  pose proof (rdma_wqes_gt0 half ty) as Hw. split_and!.
  - intros op imm dcts cs HL HN. unfold rma_posts. destruct (zip_ne dcts cs HL HN) as [HZ HE]. rewrite <- HE.
    apply lanes_group; cbn; (done || lia).
  - intros dcts vals HL HN. unfold rma_p_posts. destruct (zip_ne dcts vals HL HN) as [HZ HE]. rewrite <- HE. eexists _, _. split; [reflexivity|].
    apply lanes_group; cbn; try (done || lia). intros i [d [[v r] k]] Hi. done.
  - intros dcts vals size. apply combined_posts.
  - intros need_cst combine dcts cs HL HN. unfold rma_g_posts. destruct combine.
    + destruct dcts as [|d dcts], cs as [|c cs]; try done. destruct (additional half ty need_cst); split; cbn; try (split_and!; lia).
      * apply (last_cq_app [_]); [by repeat constructor|done].
      * apply (last_cq_app []); [constructor|done].
    + destruct (zip_ne dcts cs HL HN) as [HZ HE]. rewrite <- HE. apply lanes_group; cbn; (done || lia).
  - intros fetch need_cst op bytes cmds HN. unfold amo_posts. pose proof (amo_wqes_pos bytes op ty).
    apply lanes_group; cbn; (done || lia).
  - intros sig_op cmds HN. by apply put_signal_posts_group.
  - intros sig_op sig. unfold put_signal_tail. pose proof (amo_wqes_pos 8 sig_op ty).
    case_bool_decide; split; cbn; try (split_and!; lia); [apply (last_cq_app [_]); [by repeat constructor|done]|apply (last_cq_app []); [constructor|done]].
  - intros sig_op dct cs sig ps n. unfold put_signal_group. destruct (bool_decide (Z.of_nat (length cs) > 32 - 1)); [done|]. intros [= <- <-].
    pose proof (amo_wqes_pos 8 sig_op ty). set (w := rdma_wqes_per_cmd half ty) in *. set (a := ibgda_get_num_wqes_in_atomic 8 sig_op ty) in *.
    match goal with |- context [zip_with ?f _ _] => set (g := f) end.
    assert (fill 0 (zip_with g (seqZ 0 (Z.of_nat (length cs))) cs) (w * Z.of_nat (length cs))) as HF by (apply fill_lanes; done).
    assert (Forall (fun p => po_cq p = false) (zip_with g (seqZ 0 (Z.of_nat (length cs))) cs)) as HC
      by (apply Forall_lookup; intros i p Hp; by apply lookup_lanes in Hp as (x & _ & ->)).
    case_bool_decide; split.
    + eapply fill_app; [exact HF|]. cbn. split_and!; lia.
    + match goal with |- last_cq (?l ++ [?p; ?q]) => replace (l ++ [p; q]) with ((l ++ [p]) ++ [q]) by (by rewrite <- app_assoc) end.
      apply last_cq_app; [|done]. apply Forall_app. split; [done|by repeat constructor].
    + eapply fill_app; [exact HF|]. cbn. split_and!; lia.
    + by apply last_cq_app.
Qed.
Lemma groups_fill_witness : (let '(ps, n) := rma_posts false DCI OP_PUT false [0; 0] [MkChunk 1 4096 2 8192 1000 false; MkChunk 1 5096 2 9192 24 false] in
  n = 5 /\ group ps n) /\
  (exists ps n, rma_p_posts true DCI true [0] ((fun i => (replicate 8 i, 8192 + 8 * i, 6)) <$> seqZ 0 32) = Ret (ps, n) /\ fill 0 ps n /\ nops_cq ps /\
    n = 8 /\ (po_cq <$> ps) = [false; true; false; true]).
Proof.
  split.
  - split; [done|]. destruct (groups_fill false DCI) as [H _]. by apply (H OP_PUT false [0; 0]).
  - destruct (groups_fill true DCI) as (_ & _ & H & _).
    destruct (H [0] ((fun i => (replicate 8 i, 8192 + 8 * i, 6)) <$> seqZ 0 32) 8%nat) as (ps & n & E & HF & HN & _); [done| |auto|].
    + apply Forall_fmap, Forall_forall. done.
    + exists ps, n. split; [exact E|]. split; [exact HF|]. split; [exact HN|]. vm_compute in E. injection E as <- <-. done.
Defined.

(** ** The queue pair of each lane *)
Section Lanes.
Context (st : device_state) (Hok : device_ok st) (Hrc : 0 < num_default_rc_per_pe st).

Definition reaches (pe : Z) (q : qp_ref) : Prop :=
  exists k, q = QRc k /\ k mod npes st = pe /\ 0 <= k < num_default_rc_per_pe st * num_devices_initialized st * npes st.
Lemma qp_reaches sw th pe : switches_ok st sw -> 0 <= pe < npes st -> pe <> mype st ->
  exists q sh sw', ibgda_get_qp st sw th pe NVSHMEMX_QP_DEFAULT = Ret ((q, sh), sw') /\ switches_ok st sw' /\ reaches pe q.
Proof.
  intros Hsw Hpe Hne. pose proof (dk_rcs st Hok). pose proof (dk_devs st Hok).
  destruct (rc_default_any st Hok sw pe NVSHMEMX_QP_DEFAULT (num_default_rc_per_pe st * num_devices_initialized st))
    as (k & sw' & HG & HS & HM & HB); [done|done|done|by left|by rewrite bool_decide_false|nia|].
  unfold ibgda_get_qp, ibgda_is_rc_enabled. rewrite !bool_decide_true by (done || lia). cbn [andb]. rewrite HG, outcome_bind_ret.
  eexists _, _, _. split; [done|]. split; [done|]. by exists k.
Qed.
Lemma own_qps_ok sw ths pes : switches_ok st sw -> length ths = length pes -> Forall (fun pe => 0 <= pe < npes st /\ pe <> mype st) pes ->
  exists qs sw', own_qps st sw ths pes NVSHMEMX_QP_DEFAULT = Ret (qs, sw') /\ Forall2 reaches pes qs.
Proof.
  intros Hsw HL HF. revert sw ths Hsw HL. induction HF as [|pe pes [Hpe Hne] HF IH]; intros sw ths Hsw HL.
  - destruct ths; [|done]. eexists _, _. split; [done|constructor].
  - destruct ths as [|th ths]; [done|]. destruct (qp_reaches sw th pe Hsw Hpe Hne) as (q & sh & sw1 & H1 & Hsw1 & HR).
    destruct (IH sw1 ths Hsw1) as (qs & sw2 & H2 & HR2); [by injection HL|]. exists (q :: qs), sw2. cbn [own_qps].
    rewrite H1, outcome_bind_ret, H2, outcome_bind_ret. split; [done|by constructor].
Qed.
End Lanes.

Lemma all_equal_spec l x : all_equal (x :: l) = true -> Forall (fun y => y = x) l.
Proof. cbn. rewrite forallb_forall. intros H. apply Forall_forall. intros y Hy. by apply H, bool_decide_eq_true in Hy. Qed.

(** With RC queue pairs, each lane of a warp that puts, gets or does an
    atomic gets a queue pair connected to the PE it names, whether lane 0
    chooses for all of them (a full warp, one PE) or each lane for itself. *)
Theorem lanes_reach_pe st full sw ths pes : device_ok st -> 0 < num_default_rc_per_pe st -> switches_ok st sw -> length ths = length pes ->
  Forall (fun pe => 0 <= pe < npes st /\ pe <> mype st) pes ->
  exists qs sw', coalesced_qps st full sw ths pes NVSHMEMX_QP_DEFAULT = Ret (qs, sw') /\ Forall2 (reaches st) pes qs.
Proof.
  intros Hok Hrc Hsw HL HF. unfold coalesced_qps, ibgda_can_coalesce_warp_pe. destruct full; [|by apply own_qps_ok]. cbn [andb].
  destruct (all_equal pes) eqn:HE; [|by apply own_qps_ok]. destruct pes as [|pe pes], ths as [|th ths]; try done.
  { eexists _, _. split; [done|constructor]. }
  inversion HF as [|? ? [Hpe Hne] HF']; subst. destruct (qp_reaches st Hok Hrc sw th pe Hsw Hpe Hne) as (q & sh & sw1 & H1 & _ & HR).
  exists (replicate (length (pe :: pes)) q), sw1. cbn [shared_qp]. rewrite H1, outcome_bind_ret. split; [done|].
  cbn [length replicate]. constructor; [done|]. apply all_equal_spec in HE. clear -HE HR. induction HE as [|y l Hy _ IH]; [constructor|].
  cbn [length replicate]. constructor; [by rewrite Hy|done].
Qed.

Lemma lanes_reach_pe_witness : exists qs sw',
  coalesced_qps sample_device true sample_switches (sample_thread <$> [0; 0; 0]) [3; 2; 3] NVSHMEMX_QP_DEFAULT = Ret (qs, sw') /\
  Forall2 (reaches sample_device) [3; 2; 3] qs.
Proof.
  apply (lanes_reach_pe sample_device true sample_switches (sample_thread <$> [0; 0; 0]) [3; 2; 3] sample_device_ok);
    [cbn; lia|apply sample_switches_ok|done|repeat constructor; cbn; lia].
Defined.

(** The scalar puts of a full warp take lane 0's queue pair whatever PEs the
    lanes name: with RC queue pairs, a lane that names another PE has its value
    written over lane 0's connection. *)
Theorem rma_p_wrong_peer : exists sw',
  rma_p_qps sample_device true sample_switches (sample_thread <$> [0; 0]) [3; 2] NVSHMEMX_QP_DEFAULT = Ret ([QRc 3; QRc 3], sw') /\
  reaches sample_device 3 (QRc 3) /\ ~ reaches sample_device 2 (QRc 3).
Proof. eexists. split; [reflexivity|]. split; [by exists 3|]. intros (k & [= <-] & Hk & _). done. Qed.
End IbgdaRmaSpec.
