(* ===== verification/IbgdaWarpSync.v ===== *)
(** * Lanes of a warp: what is ordered by what

    The operations of ibgda_device.cuh run on the 32 lanes of a warp, which are
    scheduled independently: lanes write their work-queue entries, the last one
    rings the doorbell for the group and may wait for the completion, and then
    the lanes return.  What puts these in order is [nvshmemi_warp_sync] (and a
    shuffle or a vote over the full warp): a lane that reaches it waits for all
    lanes.

    A lane is the sequence of its actions; the state says how far each lane has
    got.  The step relation lets any lane go on, except that the lanes pass a
    synchronisation together. *)
From stdpp Require Import base gmap list option relations.
From Stdlib Require Import ZArith Lia.
From S2P Require Import Prelude.

Module IbgdaWarpSync.

Inductive action :=
| AShfl              (* a shuffle or vote over the full warp *)
| AWrite (k : nat)   (* write its work-queue entry of the [k]-th group *)
| ASync              (* nvshmemi_warp_sync *)
| ASubmit (k : nat)  (* ibgda_submit_requests for the [k]-th group *)
| AOwn (k : nat)     (* reserve, write and submit an entry of its own, alone *)
| AQuiet             (* ibgda_quiet *)
| ARead              (* read the fetched value *)
| ARelease           (* ibgda_release_ibuf *)
| AReturn.
#[export] Instance action_eq_dec : EqDecision action.
Proof. solve_decision. Defined.
Definition is_sync (a : action) : bool := match a with ASync | AShfl => true | _ => false end.

(** ** The lanes, in a warp of [n] *)
Section Programs.
Context (n : nat).
Definition does (who i : nat) (l : list action) : list action := if bool_decide (i = who) then l else [].
Definition last_does (i : nat) (l : list action) : list action := does (n - 1) i l.
Definition blocking (nbi : bool) : list action := if nbi then [] else [AQuiet].

(** [ibgda_rma_thread], for a warp that names one PE.  Lane [i] has [rounds i]
    chunks; the first [c] rounds find the full warp active and are coalesced, in
    the others a lane sends its chunk alone.  In a coalesced round the lanes
    vote, after the doorbell, on whether all of them are through. *)
Definition all_through (c : nat) (rounds : nat -> nat) : bool :=
  bool_decide (0 < c)%nat && forallb (fun i => bool_decide (rounds i = c)) (seq 0 n).
Definition rma_round (nbi : bool) (c : nat) (rounds : nat -> nat) (i k : nat) : list action :=
  [AShfl; AShfl; AWrite k; ASync] ++ last_does i [ASubmit k] ++
  (if nbi then [] else AShfl :: (if all_through c rounds && bool_decide (S k = c) then last_does i [AQuiet] else [])) ++ [ASync].
Definition rma_thread_lane (nbi : bool) (c : nat) (rounds : nat -> nat) (i : nat) : list action :=
  [AShfl; AShfl; AShfl] ++ (seq 0 c ≫= rma_round nbi c rounds i) ++ (AOwn <$> seq c (rounds i - c)) ++
  (if nbi || bool_decide (rounds i = 0%nat) || all_through c rounds then [] else [AQuiet]) ++ [AReturn].
(** [ibgda_rma] by the lanes of a warp: at most one chunk for each lane, or more
    chunks, which lane 0 sends alone *)
Definition rma_warp_lane (nbi : bool) (chunk_idx : nat) (i : nat) : list action :=
  [AShfl; AShfl; AShfl] ++ (if bool_decide (i < chunk_idx)%nat then [AWrite 0] else []) ++ [ASync] ++
  does (chunk_idx - 1) i (ASubmit 0 :: blocking nbi) ++ [ASync; AReturn].
Definition rma_warp_many_lane (nbi : bool) (chunk_idx : nat) (i : nat) : list action :=
  [AShfl; AShfl] ++ does 0 i ((AOwn <$> seq 0 chunk_idx) ++ blocking nbi) ++ [ASync; AReturn].
(** [nvshmemi_ibgda_rma_p] and its [_impl] with a full warp, combined or not *)
Definition rma_p_lane (i : nat) : list action :=
  [AShfl; AShfl; AShfl; AShfl; AShfl; AShfl; AWrite 0; ASync] ++ last_does i [ASubmit 0] ++ [ASync; AReturn].
(** [nvshmemi_ibgda_rma_g_impl], coalesced: combined, lane 0 writes the only entry
    and submits it unless the last lane adds one *)
Definition g_submitter (combine additional : bool) : nat := if combine && negb additional then 0 else n - 1.
Definition rma_g_lane (combine additional : bool) (i : nat) : list action :=
  [AShfl; AShfl; AShfl; AShfl; AShfl; AShfl; AShfl] ++ (if combine then does 0 i [AWrite 0] else [AWrite 0]) ++ [ASync] ++
  does (g_submitter combine additional) i [ASubmit 0; AQuiet] ++ [ASync; ARead; ASync] ++ last_does i [ARelease] ++ [ASync; AReturn].
(** [nvshmemi_ibgda_amo_nonfetch_impl] and [nvshmemi_ibgda_amo_fetch_impl], coalesced *)
Definition amo_nonfetch_lane (i : nat) : list action :=
  [AShfl; AShfl; AShfl; AShfl; AWrite 0; ASync] ++ last_does i [ASubmit 0] ++ [ASync; AReturn].
Definition amo_fetch_lane (i : nat) : list action :=
  [AShfl; AShfl; AShfl; AShfl; AShfl; AWrite 0; ASync] ++ last_does i [ASubmit 0; AQuiet] ++ [ASync; ARead; ASync] ++ last_does i [ARelease] ++ [ASync; AReturn].
(** [nvshmemi_ibgda_put_signal_thread_impl], coalesced: the payload of the lane
    in one piece, or in several *)
Definition put_signal_lane (nbi : bool) (i : nat) : list action :=
  [AShfl; AShfl; AShfl; AShfl; AWrite 0] ++ last_does i (ASubmit 0 :: blocking nbi) ++ [AReturn].
Definition put_signal_pieces_lane (nbi : bool) : list action :=
  [AShfl; AShfl; AShfl; AOwn 0] ++ blocking nbi ++ [AReturn].
End Programs.

(** ** Steps *)
(** What a lane has done and what it has still to do *)
Record lane := MkLane { ln_done : list action; ln_todo : list action }.
Definition advance (l : lane) : lane := match ln_todo l with [] => l | a :: t => MkLane (ln_done l ++ [a]) t end.
Definition at_sync (l : lane) : bool := match ln_todo l with [] => false | a :: _ => is_sync a end.

Inductive step : list lane -> list lane -> Prop :=
| step_lane s i l a t : s !! i = Some l -> ln_todo l = a :: t -> is_sync a = false -> step s (<[i := advance l]> s)
| step_sync s : s <> [] -> Forall (fun l => at_sync l = true) s -> step s (advance <$> s).

Definition start (progs : list (list action)) : list lane := MkLane [] <$> progs.
Definition reach (progs : list (list action)) (s : list lane) : Prop := rtc step (start progs) s.

(** ** Synchronisations agree *)
Definition syncs (l : list action) : nat := length (filter (fun a => is_sync a = true) l).
Lemma syncs_app l k : syncs (l ++ k) = (syncs l + syncs k)%nat.
Proof. unfold syncs. by rewrite filter_app, length_app. Qed.

(** Every lane is somewhere in its program, and all have passed the same number
    of synchronisations. *)
Record agree (progs : list (list action)) (s : list lane) : Prop := {
  ag_prog : (fun l => ln_done l ++ ln_todo l) <$> s = progs;
  ag_sync : exists k, Forall (fun l => syncs (ln_done l) = k) s
}.

Lemma advance_prog l : ln_done (advance l) ++ ln_todo (advance l) = ln_done l ++ ln_todo l.
Proof. unfold advance. destruct l as [d [|a t]]; [done|]. cbn. by rewrite <- app_assoc. Qed.
Lemma advance_syncs l : syncs (ln_done (advance l)) = (syncs (ln_done l) + (if at_sync l then 1 else 0))%nat.
Proof.
  unfold advance, at_sync. destruct l as [d [|a t]]; cbn [ln_done ln_todo]; [lia|]. rewrite syncs_app. f_equal. by destruct a.
Qed.

Lemma step_agree progs s s' : agree progs s -> step s s' -> agree progs s'.
Proof.
  intros [HP [k HK]] HS. destruct HS as [s i l a t Hl Ht Ha | s Hne HA].
  - split.
    + rewrite list_fmap_insert, advance_prog. rewrite list_insert_id; [done|]. by rewrite list_lookup_fmap, Hl.
    + exists k. apply Forall_insert; [done|]. rewrite advance_syncs. pose proof (proj1 (Forall_lookup _ _) HK i l Hl) as HL.
      cbn in HL. rewrite HL. unfold at_sync. rewrite Ht, Ha. lia.
  - split.
    + rewrite <- list_fmap_compose, <- HP. apply list_fmap_ext. intros i l Hl. apply advance_prog.
    + exists (S k). apply Forall_fmap, Forall_lookup. intros i l Hl. unfold compose. rewrite advance_syncs.
      rewrite (proj1 (Forall_lookup _ _) HK i l Hl), (proj1 (Forall_lookup _ _) HA i l Hl). lia.
Qed.
Lemma reach_agree progs s : reach progs s -> agree progs s.
Proof.
  intros HR. assert (forall a b, rtc step a b -> agree progs a -> agree progs b) as HI.
  { induction 1; [done|]. intros HA. apply IHrtc. by eapply step_agree. }
  apply (HI _ _ HR). split.
  - unfold start. rewrite <- list_fmap_compose. cbn. apply list_fmap_id.
  - exists 0%nat. apply Forall_fmap, Forall_lookup. done.
Qed.

(** Two ways to split a program *)
Lemma prefix_cases {A} (d t p r : list A) : d ++ t = p ++ r -> (exists e, d = p ++ e) \/ (exists e, p = d ++ e /\ e <> []).
Proof.
  intros HE. destruct (decide (length p <= length d)%nat) as [HL|HL].
  - left. exists (drop (length p) d). rewrite <- (take_drop (length p) d) at 1. f_equal.
    apply (f_equal (take (length p))) in HE. rewrite take_app_le, take_app_length in HE by done. done.
  - right. exists (drop (length d) p). split.
    + rewrite <- (take_drop (length d) p) at 1. f_equal. apply (f_equal (take (length d))) in HE. rewrite take_app_length, take_app_le in HE by lia. done.
    + intros HN. apply (f_equal length) in HN. rewrite length_drop in HN. cbn in HN. lia.
Qed.

(** Programs whose first parts, up to some synchronisation, have the same number
    of synchronisations: what a lane has there is done once any lane has done
    something that comes after it. *)
Lemma phase_order progs s (pre : nat -> list action) m i j li lj a x : reach progs s ->
  (forall i p, progs !! i = Some p -> syncs (pre i) = m /\ exists r, p = pre i ++ ASync :: r) ->
  s !! i = Some li -> s !! j = Some lj -> x ∈ ln_done lj -> x ∉ pre j ++ [ASync] -> a ∈ pre i -> a ∈ ln_done li.
Proof.
  intros HR HP Hi Hj Hx Hnx Ha. destruct (reach_agree progs s HR) as [HG [k HK]].
  pose proof (proj1 (Forall_lookup _ _) HK i li Hi) as Ki. pose proof (proj1 (Forall_lookup _ _) HK j lj Hj) as Kj. cbn in Ki, Kj.
  assert (forall i l, s !! i = Some l -> progs !! i = Some (ln_done l ++ ln_todo l)) as HL by (intros ? ? H; by rewrite <- HG, list_lookup_fmap, H).
  destruct (HP j _ (HL j lj Hj)) as (Sj & rj & Ej). destruct (HP i _ (HL i li Hi)) as (Si & ri & Ei).
  replace (pre j ++ ASync :: rj) with ((pre j ++ [ASync]) ++ rj) in Ej by (by rewrite <- app_assoc).
  destruct (prefix_cases _ _ _ _ Ej) as [[e He]|[e [He _]]].
  - rewrite He, !syncs_app in Kj. change (syncs [ASync]) with 1%nat in Kj. destruct (prefix_cases _ _ _ _ Ei) as [[e' He']|[e' [He' _]]].
    + rewrite He'. apply elem_of_app. by left.
    + rewrite He', syncs_app in Si. lia.
  - exfalso. apply Hnx. rewrite He. apply elem_of_app. by left.
Qed.

(** What a lane does before something it has done is done. *)
Lemma own_order progs s i li p1 x p2 a : reach progs s -> progs !! i = Some (p1 ++ x :: p2) -> s !! i = Some li ->
  x ∈ ln_done li -> x ∉ p1 -> a ∈ p1 -> a ∈ ln_done li.
Proof.
  intros HR HP Hi Hx Hn Ha. destruct (reach_agree progs s HR) as [HG _].
  rewrite <- HG, list_lookup_fmap, Hi in HP. injection HP as HP. destruct (prefix_cases _ _ _ _ HP) as [[e He]|[e [He _]]].
  - rewrite He. apply elem_of_app. by left.
  - exfalso. apply Hn. rewrite He. apply elem_of_app. by left.
Qed.

(** ** The operations *)
Inductive warp_op :=
| OpRmaThread (nbi : bool) (c : nat) (rounds : nat -> nat)
| OpRmaWarp (nbi : bool) (chunk_idx : nat)
| OpRmaWarpMany (nbi : bool) (chunk_idx : nat)
| OpP
| OpG (combine additional : bool)
| OpAmo
| OpAmoFetch.

Section Ops.
Context (n : nat).
Definition lane_of (op : warp_op) (i : nat) : list action :=
  match op with
  | OpRmaThread nbi c rounds => rma_thread_lane n nbi c rounds i
  | OpRmaWarp nbi chunk_idx => rma_warp_lane nbi chunk_idx i
  | OpRmaWarpMany nbi chunk_idx => rma_warp_many_lane nbi chunk_idx i
  | OpP => rma_p_lane n i
  | OpG combine additional => rma_g_lane n combine additional i
  | OpAmo => amo_nonfetch_lane n i
  | OpAmoFetch => amo_fetch_lane n i
  end.
(** The numbers of rounds and chunks the code can come to *)
Definition op_ok (op : warp_op) : Prop :=
  match op with
  | OpRmaThread _ c rounds => forall i, (i < n)%nat -> (c <= rounds i)%nat
  | OpRmaWarp _ chunk_idx => (1 <= chunk_idx <= n)%nat
  | OpRmaWarpMany _ chunk_idx => (n < chunk_idx)%nat
  | _ => True
  end.
(** Whether lane [j] has something to wait for, and the lane that waits for it *)
Definition waits (op : warp_op) (j : nat) : bool :=
  match op with
  | OpRmaThread nbi _ rounds => negb nbi && negb (bool_decide (rounds j = 0%nat))
  | OpRmaWarp nbi _ | OpRmaWarpMany nbi _ => negb nbi
  | OpG _ _ | OpAmoFetch => true
  | OpP | OpAmo => false
  end.
Definition waiter (op : warp_op) (j : nat) : nat :=
  match op with
  | OpRmaThread _ c rounds => if all_through n c rounds then n - 1 else j
  | OpRmaWarp _ chunk_idx => chunk_idx - 1
  | OpRmaWarpMany _ _ => 0
  | OpG combine additional => g_submitter n combine additional
  | _ => n - 1
  end.
End Ops.

Lemma lane_prog (f : nat -> list action) n i p : (f <$> seq 0 n) !! i = Some p -> p = f i /\ (i < n)%nat.
Proof. intros H. apply list_lookup_fmap_Some in H as (k & -> & Hk). apply lookup_seq in Hk as [-> Hk]. done. Qed.
Lemma lane_lt (f : nat -> list action) n s i li : reach (f <$> seq 0 n) s -> s !! i = Some li -> (i < n)%nat /\ f i = ln_done li ++ ln_todo li.
Proof.
  intros HR Hi. destruct (reach_agree _ s HR) as [HG _].
  assert ((f <$> seq 0 n) !! i = Some (ln_done li ++ ln_todo li)) as HL by (by rewrite <- HG, list_lookup_fmap, Hi).
  apply lane_prog in HL as [-> Hl]. done.
Qed.
Lemma lane_exists (f : nat -> list action) n s i : reach (f <$> seq 0 n) s -> (i < n)%nat -> exists li, s !! i = Some li.
Proof.
  intros HR Hi. destruct (reach_agree _ s HR) as [HG _]. apply (lookup_lt_is_Some_2 s i).
  apply (f_equal length) in HG. rewrite !length_fmap, length_seq in HG. lia.
Qed.

(** The two orders, for lanes of one operation: [cut] splits the program of every
    lane at the same synchronisation, [ownp] that of one lane at an action. *)
Lemma op_phase (f : nat -> list action) n s (pre post : nat -> list action) m i j li lj a x : reach (f <$> seq 0 n) s ->
  (forall i, (i < n)%nat -> f i = pre i ++ ASync :: post i /\ syncs (pre i) = m) ->
  s !! i = Some li -> s !! j = Some lj -> x ∈ ln_done lj -> x <> ASync -> x ∉ pre j -> a ∈ pre i -> a ∈ ln_done li.
Proof.
  intros HR HF Hi Hj Hx Hns Hn Ha. eapply (phase_order (f <$> seq 0 n) s pre m i j); try done.
  - intros i' p Hp. apply lane_prog in Hp as [-> Hl]. destruct (HF i' Hl) as [HE HS]. split; [done|]. by eexists.
  - rewrite elem_of_app, list_elem_of_singleton. by intros [?|?].
Qed.
Lemma op_own (f : nat -> list action) n s i li p1 x p2 a : reach (f <$> seq 0 n) s -> s !! i = Some li ->
  f i = p1 ++ x :: p2 -> x ∈ ln_done li -> x ∉ p1 -> a ∈ p1 -> a ∈ ln_done li.
Proof.
  intros HR Hi HE. destruct (lane_lt f n s i li HR Hi) as [Hl _]. apply (own_order _ s i li p1 x p2 a HR); [|done].
  rewrite <- HE, list_lookup_fmap, lookup_seq_lt by done. done.
Qed.

(** ** What the synchronisations protect *)
Ltac cases := repeat match goal with H : _ \/ _ |- _ => destruct H | H : _ /\ _ |- _ => destruct H | H : exists _, _ |- _ => destruct H end; try congruence.
Section Protected.
Context (f : nat -> list action) (waits : nat -> bool) (waiter : nat -> nat).
(** The doorbell of a group rings after all its entries are written; when a lane
    waits for the completion of [j]'s entries, their doorbells have been rung;
    lane [j] returns, or reads a fetched value, after that wait; and the fetch
    buffer is released after all lanes have read. *)
Record protected (s : list lane) : Prop := {
  pt_submit : forall i j k li lj, s !! i = Some li -> s !! j = Some lj -> ASubmit k ∈ ln_done lj -> AWrite k ∈ f i -> AWrite k ∈ ln_done li;
  pt_quiet : forall j k lj lq, s !! j = Some lj -> s !! waiter j = Some lq -> AQuiet ∈ ln_done lq ->
    (AWrite k ∈ f j -> exists q lq', s !! q = Some lq' /\ ASubmit k ∈ ln_done lq') /\ (AOwn k ∈ f j -> AOwn k ∈ ln_done lj);
  pt_return : forall j lj, s !! j = Some lj -> waits j = true -> AReturn ∈ ln_done lj \/ ARead ∈ ln_done lj ->
    exists lq, s !! waiter j = Some lq /\ AQuiet ∈ ln_done lq;
  pt_release : forall i j li lj, s !! i = Some li -> s !! j = Some lj -> ARelease ∈ ln_done lj -> ARead ∈ ln_done li }.
End Protected.

Lemma does_elem who i l x : x ∈ does who i l <-> i = who /\ x ∈ l.
Proof. unfold does. case_bool_decide; [naive_solver|]. rewrite elem_of_nil. naive_solver. Qed.
Lemma does_self who l : does who who l = l.
Proof. unfold does. by rewrite bool_decide_true. Qed.
Lemma does_syncs who i l : syncs l = 0%nat -> syncs (does who i l) = 0%nat.
Proof. unfold does. by case_bool_decide. Qed.
Lemma blocking_syncs k nbi : syncs (ASubmit k :: blocking nbi) = 0%nat.
Proof. by destruct nbi. Qed.
Lemma blocking_elem nbi x : x ∈ blocking nbi <-> nbi = false /\ x = AQuiet.
Proof. destruct nbi; cbn; rewrite ?elem_of_nil, ?list_elem_of_singleton; naive_solver. Qed.

(** The part after the second synchronisation *)
Definition tail (n : nat) (fetch : bool) (i : nat) : list action :=
  (if fetch then ARead :: ASync :: last_does n i [ARelease] ++ [ASync] else []) ++ [AReturn].

(** An operation with one group: the entries, the doorbell and perhaps the wait by
    one lane, and the rest, with synchronisations in between. *)
Section OneGroup.
Context (n : nat) (f A : nat -> list action) (m sub : nat) (nbi fetch : bool) (s : list lane) (HR : reach (f <$> seq 0 n) s).
Context (HF : forall i, (i < n)%nat -> f i = A i ++ ASync :: does sub i (ASubmit 0 :: blocking nbi) ++ ASync :: tail n fetch i).
Context (HA : forall i, (i < n)%nat -> syncs (A i) = m /\ forall x, x ∈ A i -> x = AShfl \/ x = AWrite 0) (Hsub : (sub < n)%nat).
Context (Hnf : fetch = true -> nbi = false).

Lemma in_tail x i : x ∈ tail n fetch i -> x = AReturn \/ (fetch = true /\ (x = ARead \/ x = ASync \/ x = ARelease)).
Proof.
  unfold tail, last_does. destruct fetch; rewrite ?elem_of_cons, ?elem_of_app, ?elem_of_cons, ?elem_of_app, ?does_elem, ?list_elem_of_singleton, ?elem_of_nil; naive_solver.
Qed.
Lemma in_lane x i : (i < n)%nat -> x ∈ f i -> x = AShfl \/ x = ASync \/ x ∈ A i \/ (i = sub /\ (x = ASubmit 0 \/ (nbi = false /\ x = AQuiet))) \/
  x = AReturn \/ (fetch = true /\ (x = ARead \/ x = ARelease)).
Proof.
  intros Hi. rewrite (HF i Hi), elem_of_app, elem_of_cons, elem_of_app, elem_of_cons, does_elem, elem_of_cons, blocking_elem.
  intros [?|[?|[(? & [?|?])|[?|H%in_tail]]]]; naive_solver.
Qed.
Definition pre2 (i : nat) : list action := A i ++ ASync :: does sub i (ASubmit 0 :: blocking nbi).
Lemma pre2_ok i : (i < n)%nat -> f i = pre2 i ++ ASync :: tail n fetch i /\ syncs (pre2 i) = S m.
Proof.
  intros Hi. unfold pre2. rewrite (HF i Hi), <- app_assoc. split; [done|]. rewrite syncs_app. destruct (HA i Hi) as [-> _].
  change (syncs (ASync :: ?l)) with (S (syncs l)). rewrite does_syncs by apply blocking_syncs. lia.
Qed.
Lemma not_pre2 x i : (i < n)%nat -> x = AReturn \/ x = ARead \/ x = ARelease -> x ∉ pre2 i.
Proof.
  intros Hi Hx. unfold pre2. rewrite elem_of_app, elem_of_cons, does_elem, elem_of_cons, blocking_elem.
  intros [H%(proj2 (HA i Hi))|H]; cases.
Qed.

Lemma one_group : protected f (fun _ => negb nbi) (fun _ => sub) s.
Proof.
  assert (Hlane : forall x i li, s !! i = Some li -> x ∈ ln_done li -> (i < n)%nat /\ x ∈ f i).
  { intros x i li Hi Hx. destruct (lane_lt f n s i li HR Hi) as [Hl E]. split; [done|]. rewrite E. apply elem_of_app. by left. }
  assert (Hwrite : forall k i, (i < n)%nat -> AWrite k ∈ f i -> k = 0%nat /\ AWrite k ∈ A i).
  { intros k i Hi Hw. destruct (in_lane _ i Hi Hw) as [?|[?|[H|?]]]; [done|done| |cases]. destruct (proj2 (HA i Hi) _ H) as [?|E]; [done|]. injection E as ->. done. }
  split.
  - intros i j k li lj Hi Hj Hx Hw. destruct (lane_lt f n s i li HR Hi) as [Hil _]. destruct (Hlane _ _ _ Hj Hx) as [Hjl _].
    destruct (Hwrite k i Hil Hw) as [-> Hwa].
    refine (op_phase f n s A (fun i => does sub i (ASubmit 0 :: blocking nbi) ++ ASync :: tail n fetch i) m i j li lj _ _ HR _ Hi Hj Hx _ _ Hwa);
      [|done|intros H%(proj2 (HA j Hjl)); cases].
    intros i' Hi'. split; [by apply HF|by apply HA].
  - intros j k lj lq Hj Hq Hx. destruct (lane_lt f n s j lj HR Hj) as [Hjl _]. split.
    + intros [-> _]%Hwrite; [|done]. exists sub, lq. split; [done|].
      destruct (Hlane _ _ _ Hq Hx) as [_ [?|[?|[H%(proj2 (HA sub Hsub))|[(_ & [?|[Hb _]])|?]]]]%in_lane]; try cases.
      refine (op_own f n s sub lq (A sub ++ [ASync; ASubmit 0]) AQuiet (ASync :: tail n fetch sub) _ HR Hq _ Hx _ _).
      * rewrite (HF sub Hsub), does_self, Hb. cbn. by rewrite <- app_assoc.
      * rewrite elem_of_app, !elem_of_cons, elem_of_nil. intros [H%(proj2 (HA sub Hsub))|?]; cases.
      * apply elem_of_app. right. right. left.
    + intros H. destruct (in_lane _ j Hjl H) as [?|[?|[H'%(proj2 (HA j Hjl))|?]]]; cases.
  - intros j lj Hj Hb Hx. apply negb_true_iff in Hb. destruct (lane_exists f n s sub HR Hsub) as [lq Hq]. exists lq. split; [done|].
    destruct (lane_lt f n s j lj HR Hj) as [Hjl _].
    assert (Hqu : AQuiet ∈ pre2 sub) by (unfold pre2; rewrite does_self, Hb; apply elem_of_app; right; right; right; left).
    destruct Hx as [Hx|Hx].
    + refine (op_phase f n s pre2 (tail n fetch) (S m) sub j lq lj _ _ HR pre2_ok Hq Hj Hx _ _ Hqu); [done|apply not_pre2; auto].
    + refine (op_phase f n s pre2 (tail n fetch) (S m) sub j lq lj _ _ HR pre2_ok Hq Hj Hx _ _ Hqu); [done|apply not_pre2; auto].
  - intros i j li lj Hi Hj Hx. destruct (lane_lt f n s i li HR Hi) as [Hil _]. destruct (Hlane _ _ _ Hj Hx) as [Hjl Hin].
    assert (fetch = true) as Hft.
    { destruct (in_lane _ j Hjl Hin) as [?|[?|[H%(proj2 (HA j Hjl))|?]]]; cases. }
    refine (op_phase f n s (fun i => pre2 i ++ [ASync; ARead]) (fun i => last_does n i [ARelease] ++ [ASync; AReturn]) (S (S m)) i j li lj _ _ HR _ Hi Hj Hx _ _ _);
      [|done| |apply elem_of_app; right; right; left].
    + intros i' Hi'. destruct (pre2_ok i' Hi') as [E Hm]. rewrite E, syncs_app, Hm, <- app_assoc. unfold tail. rewrite Hft. change (syncs [ASync; ARead]) with 1%nat. split; [|lia].
      cbn. by rewrite <- app_assoc.
    + rewrite elem_of_app, !elem_of_cons, elem_of_nil. intros [H|H]; [|cases]. by apply not_pre2 in H; auto.
Qed.
End OneGroup.

(** ** Rounds *)
Section Rounds.
Context (n : nat) (nbi : bool) (c : nat) (rounds : nat -> nat) (Hc : forall i, (i < n)%nat -> (c <= rounds i)%nat).
Abbreviation f := (rma_thread_lane n nbi c rounds).
Abbreviation R := (rma_round n nbi c rounds).
Abbreviation through := (all_through n c rounds).

Lemma round_elem i k x : x ∈ R i k -> x = AShfl \/ x = ASync \/ x = AWrite k \/ (x = ASubmit k /\ i = (n - 1)%nat) \/
  (x = AQuiet /\ i = (n - 1)%nat /\ nbi = false /\ through = true /\ S k = c).
Proof.
  unfold rma_round, last_does. rewrite elem_of_app, elem_of_app, elem_of_app, does_elem.
  destruct nbi; [rewrite elem_of_nil|rewrite elem_of_cons]; rewrite ?list_elem_of_singleton, !elem_of_cons, ?elem_of_nil; [naive_solver|].
  destruct through; cbn [andb]; [|rewrite elem_of_nil; naive_solver]. case_bool_decide; [rewrite does_elem, list_elem_of_singleton|rewrite elem_of_nil]; naive_solver.
Qed.
Definition round_syncs : nat := if nbi then 4 else 5.
Lemma round_counts i k : syncs (R i k) = round_syncs.
Proof.
  unfold rma_round, last_does, does, round_syncs. destruct nbi, through; repeat case_bool_decide; reflexivity.
Qed.
Lemma rounds_count i a k : syncs (seq a k ≫= R i) = (k * round_syncs)%nat.
Proof. revert a. induction k as [|k IH]; intros a; [done|]. cbn [seq]. rewrite bind_cons, syncs_app, round_counts, IH. lia. Qed.
Lemma rounds_elem i a k x : x ∈ (seq a k ≫= R i) -> exists k', (a <= k' < a + k)%nat /\ x ∈ R i k'.
Proof. intros (k' & Hx & Hk)%list_elem_of_bind. apply elem_of_seq in Hk. eauto. Qed.

(** The rest of the program behind the coalesced rounds *)
Definition rest (i : nat) : list action :=
  (AOwn <$> seq c (rounds i - c)) ++ (if nbi || bool_decide (rounds i = 0%nat) || through then [] else [AQuiet]) ++ [AReturn].
Lemma rest_elem i x : x ∈ rest i -> (exists k, x = AOwn k) \/ (x = AQuiet /\ through = false /\ nbi = false) \/ x = AReturn.
Proof.
  unfold rest. rewrite elem_of_app, elem_of_app, list_elem_of_fmap, list_elem_of_singleton. intros [(k & -> & _)|[H| ->]]; [eauto| |auto].
  destruct nbi, (bool_decide (rounds i = 0%nat)), through; cbn in H; rewrite ?elem_of_nil, ?list_elem_of_singleton in H; naive_solver.
Qed.
Definition before (i k : nat) : list action := [AShfl; AShfl; AShfl] ++ (seq 0 k ≫= R i).
Lemma thread_split i k : (k < c)%nat -> f i = before i k ++ R i k ++ (seq (S k) (c - S k) ≫= R i) ++ rest i.
Proof.
  intros Hk. unfold rma_thread_lane, before, rest. rewrite <- !app_assoc. f_equal.
  replace (seq 0 c) with (seq 0 k ++ seq k (c - k)) by (rewrite <- seq_app; f_equal; lia).
  replace (seq k (c - k)) with (k :: seq (S k) (c - S k)) by (replace (c - k)%nat with (S (c - S k)) by lia; done).
  rewrite bind_app, bind_cons. by rewrite <- !app_assoc.
Qed.
Lemma before_elem i k x : x ∈ before i k -> x = AShfl \/ exists k', (k' < k)%nat /\ x ∈ R i k'.
Proof.
  unfold before. rewrite elem_of_app, !elem_of_cons, elem_of_nil. intros [?|(k' & ? & ?)%rounds_elem]; [naive_solver|]. right. exists k'. split; [lia|done].
Qed.
Lemma before_count i k : syncs (before i k) = (3 + k * round_syncs)%nat.
Proof. unfold before. rewrite syncs_app, rounds_count. done. Qed.
Lemma lane_elem i x : x ∈ f i -> x = AShfl \/ (exists k, (k < c)%nat /\ x ∈ R i k) \/ x ∈ rest i.
Proof.
  unfold rma_thread_lane. fold (rest i). rewrite elem_of_app, elem_of_app, !elem_of_cons, elem_of_nil.
  intros [?|[(k & ? & ?)%rounds_elem|?]]; [naive_solver| |auto]. right. left. exists k. split; [lia|done].
Qed.
Lemma through_spec : through = true -> (0 < c)%nat /\ forall i, (i < n)%nat -> rounds i = c.
Proof.
  unfold all_through. intros [H1 H2]%andb_prop. apply bool_decide_eq_true in H1. split; [done|]. intros i Hi.
  pose proof (proj1 (forallb_forall _ _) H2 i) as H. apply (bool_decide_eq_true (rounds i = c)), H, list_elem_of_In, elem_of_seq. lia.
Qed.

(** The parts of round [k] before the doorbell, and after it *)
Definition cut1 (i k : nat) : list action := before i k ++ [AShfl; AShfl; AWrite k].
Definition cut2 (i k : nat) : list action := before i k ++ [AShfl; AShfl; AWrite k; ASync] ++ last_does n i [ASubmit k] ++
  (if nbi then [] else AShfl :: (if through && bool_decide (S k = c) then last_does n i [AQuiet] else [])).
Definition post1 (i k : nat) : list action := last_does n i [ASubmit k] ++
  (if nbi then [] else AShfl :: (if through && bool_decide (S k = c) then last_does n i [AQuiet] else [])) ++ [ASync] ++ (seq (S k) (c - S k) ≫= R i) ++ rest i.
Lemma cut1_ok k i : (k < c)%nat -> f i = cut1 i k ++ ASync :: post1 i k /\ syncs (cut1 i k) = (5 + k * round_syncs)%nat.
Proof.
  intros Hk. rewrite (thread_split i k Hk). unfold cut1, post1, rma_round. split; [by rewrite <- !app_assoc|].
  rewrite syncs_app, before_count. change (syncs [AShfl; AShfl; AWrite k]) with 2%nat. lia.
Qed.
Lemma cut2_ok k i : (k < c)%nat -> f i = cut2 i k ++ ASync :: (seq (S k) (c - S k) ≫= R i) ++ rest i /\ syncs (cut2 i k) = (2 + (k + 1) * round_syncs)%nat.
Proof.
  intros Hk. assert (E : before i k ++ R i k = cut2 i k ++ [ASync]) by (unfold cut2, rma_round; by rewrite <- !app_assoc).
  rewrite (thread_split i k Hk), app_assoc, E. rewrite <- app_assoc. split; [done|].
  apply (f_equal syncs) in E. rewrite !syncs_app, before_count, round_counts in E. change (syncs [ASync]) with 1%nat in E. lia.
Qed.
Lemma cut2_elem i k x : x ∈ cut2 i k -> x = AShfl \/ x = ASync \/ exists k', (k' <= k)%nat /\ x ∈ R i k'.
Proof.
  intros Hx. assert (E : before i k ++ R i k = cut2 i k ++ [ASync]) by (unfold cut2, rma_round; by rewrite <- !app_assoc).
  assert (x ∈ before i k ++ R i k) as H by (rewrite E; apply elem_of_app; by left).
  apply elem_of_app in H as [[?|(k' & ? & ?)]%before_elem|?]; [auto| |]; right; right; [exists k'|exists k]; split; (lia || done).
Qed.

Context (s : list lane) (HR : reach (f <$> seq 0 n) s).

Lemma in_done x i li : s !! i = Some li -> x ∈ ln_done li -> x ∈ f i.
Proof. intros Hi Hx. destruct (lane_lt f n s i li HR Hi) as [_ ->]. apply elem_of_app. by left. Qed.
Lemma write_round i k : AWrite k ∈ f i -> (k < c)%nat.
Proof.
  intros [?|[(k' & Hk' & H%round_elem)|H%rest_elem]]%lane_elem; [done| |cases].
  destruct H as [?|[?|[[= ->]|[[? _]|[? _]]]]]; done.
Qed.
Lemma quiet_cut2 i k : AQuiet ∈ cut2 i k -> (k < c)%nat -> through = true /\ S k = c.
Proof.
  intros [?|[?|(k' & Hk' & H%round_elem)]]%cut2_elem Hk; [done..|]. destruct H as [?|[?|[?|[[? _]|(_ & _ & _ & ? & ?)]]]]; try done. split; [done|lia].
Qed.
Lemma quiet_before i k : (k < c)%nat -> AQuiet ∉ before i k ++ [AShfl; AShfl; AWrite k; ASync; ASubmit k; AShfl].
Proof.
  intros Hk. rewrite elem_of_app, !elem_of_cons, elem_of_nil. intros [[?|(k' & Hk' & H%round_elem)]%before_elem|?]; [done| |cases].
  destruct H as [?|[?|[?|[[? _]|(_ & _ & _ & _ & ?)]]]]; try done. lia.
Qed.
Lemma submit_cut2 k : ASubmit k ∈ cut2 (n - 1) k.
Proof. unfold cut2. apply elem_of_app. right. apply elem_of_app. right. apply elem_of_app. left. unfold last_does. rewrite does_self. left. Qed.
Lemma quiet_last i li : through = true -> s !! i = Some li -> AQuiet ∈ ln_done li -> nbi = false.
Proof.
  intros Et Hi [?|[(k' & _ & H%round_elem)|H%rest_elem]]%(in_done _ _ _ Hi)%lane_elem; [done| |].
  - destruct H as [?|[?|[?|[[? _]|(_ & _ & ? & _)]]]]; done.
  - destruct H as [[? ?]|[(_ & ? & _)|?]]; congruence.
Qed.

Lemma rounds_submit i j k li lj : s !! i = Some li -> s !! j = Some lj -> ASubmit k ∈ ln_done lj -> AWrite k ∈ f i -> AWrite k ∈ ln_done li.
Proof.
  intros Hi Hj Hx Hw%write_round.
  refine (op_phase f n s (fun i => cut1 i k) (fun i => post1 i k) _ i j li lj _ _ HR (fun i _ => cut1_ok k i Hw) Hi Hj Hx _ _ _); [done| |].
  - unfold cut1. rewrite elem_of_app, !elem_of_cons, elem_of_nil. intros [[?|(k' & Hk' & H%round_elem)]%before_elem|?]; [done| |cases].
    destruct H as [?|[?|[?|[[[= ->] _]|[? _]]]]]; try done. lia.
  - apply elem_of_app. right. right. right. left.
Qed.

(** Every group was submitted when a lane waits. *)
Lemma rounds_quiet j k lj : s !! j = Some lj -> (through = true -> j = (n - 1)%nat) -> AQuiet ∈ ln_done lj -> (k < c)%nat ->
  exists ll, s !! (n - 1)%nat = Some ll /\ ASubmit k ∈ ln_done ll.
Proof.
  intros Hj Hlast Hx Hk. destruct (lane_lt f n s j lj HR Hj) as [Hjl _].
  destruct (lane_exists f n s (n - 1) HR ltac:(lia)) as [ll Hl]. exists ll. split; [done|].
  destruct (decide (through = true /\ S k = c)) as [[Et Hkc]|Hno].
  - rewrite (Hlast Et), Hl in Hj. injection Hj as <-. pose proof (quiet_last _ _ Et Hl Hx) as Hb.
    refine (op_own f n s (n - 1) ll (before (n - 1) k ++ [AShfl; AShfl; AWrite k; ASync; ASubmit k; AShfl]) AQuiet
      (ASync :: (seq (S k) (c - S k) ≫= R (n - 1)%nat) ++ rest (n - 1)) _ HR Hl _ Hx (quiet_before _ _ Hk) _).
    + destruct (cut2_ok k (n - 1) Hk) as [-> _]. unfold cut2, last_does. rewrite !does_self, Hb, Et, bool_decide_true by done. cbn [andb]. by rewrite <- !app_assoc.
    + apply elem_of_app. right. do 4 right. left.
  - refine (op_phase f n s (fun i => cut2 i k) _ _ (n - 1) j ll lj _ _ HR (fun i _ => cut2_ok k i Hk) Hl Hj Hx ltac:(done) _ (submit_cut2 k)).
    intros H%quiet_cut2; done.
Qed.

(** The end of a lane whose entries are not all in coalesced rounds *)
Lemma rest_wait j : through = false -> nbi = false -> rounds j <> 0%nat ->
  f j = ([AShfl; AShfl; AShfl] ++ (seq 0 c ≫= R j) ++ (AOwn <$> seq c (rounds j - c))) ++ AQuiet :: [AReturn].
Proof. intros Et Hb Hr. unfold rma_thread_lane. rewrite Hb, Et, bool_decide_false by done. cbn [orb]. by rewrite <- !app_assoc. Qed.
Lemma no_wait_before j x : through = false -> x = AQuiet \/ x = AReturn ->
  x ∉ [AShfl; AShfl; AShfl] ++ (seq 0 c ≫= R j) ++ (AOwn <$> seq c (rounds j - c)).
Proof.
  intros Et Hx. rewrite !elem_of_app, !elem_of_cons, elem_of_nil, list_elem_of_fmap.
  intros [?|[(k' & _ & H%round_elem)%rounds_elem|(? & ? & _)]]; cases.
Qed.

Lemma rounds_own j k lj : s !! j = Some lj -> through = false -> AQuiet ∈ ln_done lj -> AOwn k ∈ f j -> AOwn k ∈ ln_done lj.
Proof.
  intros Hj Et Hx Ho. destruct (lane_lt f n s j lj HR Hj) as [Hjl _].
  assert (Hk : (c <= k < rounds j)%nat).
  { apply lane_elem in Ho as [?|[(k' & _ & H%round_elem)|H]]; [done|cases|]. unfold rest in H.
    rewrite elem_of_app, elem_of_app, list_elem_of_fmap in H. destruct H as [(k' & [= <-] & H%elem_of_seq)|[H|H]]; [lia| |by apply list_elem_of_singleton in H].
    destruct (nbi || _ || _); [by apply elem_of_nil in H|by apply list_elem_of_singleton in H]. }
  assert (nbi = false) as Hb.
  { apply (in_done _ _ _ Hj) in Hx as [?|[(k' & _ & H%round_elem)|H%rest_elem]]%lane_elem; [done| |]; cases. }
  refine (op_own f n s j lj _ AQuiet [AReturn] _ HR Hj (rest_wait j Et Hb ltac:(lia)) Hx (no_wait_before j _ Et (or_introl eq_refl)) _).
  rewrite !elem_of_app, list_elem_of_fmap. right. right. exists k. split; [done|]. apply elem_of_seq. lia.
Qed.

Lemma rounds_return j lj : s !! j = Some lj -> nbi = false -> rounds j <> 0%nat -> AReturn ∈ ln_done lj ->
  exists lq, s !! (if through then (n - 1)%nat else j) = Some lq /\ AQuiet ∈ ln_done lq.
Proof.
  intros Hj Hb Hr Hx. destruct (lane_lt f n s j lj HR Hj) as [Hjl _]. destruct through eqn:Et.
  - destruct (lane_exists f n s (n - 1) HR ltac:(lia)) as [ll Hl]. exists ll. split; [done|]. destruct (through_spec Et) as [H0 _].
    refine (op_phase f n s (fun i => cut2 i (c - 1)) _ _ (n - 1) j ll lj _ _ HR (fun i _ => cut2_ok (c - 1) i ltac:(lia)) Hl Hj Hx ltac:(done) _ _).
    + intros [?|[?|(k' & _ & H%round_elem)]]%cut2_elem; cases.
    + unfold cut2. rewrite Hb, Et, bool_decide_true by lia. cbn [andb]. apply elem_of_app. right. apply elem_of_app. right. apply elem_of_app. right. right.
      unfold last_does. rewrite does_self. left.
  - exists lj. split; [done|].
    refine (op_own f n s j lj (([AShfl; AShfl; AShfl] ++ (seq 0 c ≫= R j) ++ (AOwn <$> seq c (rounds j - c))) ++ [AQuiet]) AReturn [] _ HR Hj _ Hx _ _).
    + rewrite (rest_wait j Et Hb Hr). by rewrite <- !app_assoc.
    + rewrite elem_of_app. intros [H|H%list_elem_of_singleton]; [|done]. exact (no_wait_before j _ Et (or_intror eq_refl) H).
    + apply elem_of_app. right. left.
Qed.

Lemma rounds_protected :
  protected f (fun j => negb nbi && negb (bool_decide (rounds j = 0%nat))) (fun j => if through then (n - 1)%nat else j) s.
Proof.
  split.
  - apply rounds_submit.
  - intros j k lj lq Hj Hq Hx. split.
    + intros Hk%write_round. exists (n - 1)%nat.
      destruct through eqn:Et; [by apply (rounds_quiet (n - 1) k lq)|apply (rounds_quiet j k lq); [done|congruence|done..]].
    + destruct (lane_lt f n s j lj HR Hj) as [Hjl _]. destruct through eqn:Et.
      * intros [?|[(k' & _ & H%round_elem)|H]]%lane_elem; [done|cases|]. exfalso. unfold rest in H. destruct (through_spec Et) as [_ Hr].
        rewrite (Hr j Hjl), Nat.sub_diag, Et, orb_true_r in H. cbn in H. by apply list_elem_of_singleton in H.
      * rewrite Hj in Hq. injection Hq as <-. by apply rounds_own.
  - intros j lj Hj Hw Hx. apply andb_prop in Hw as [Hb%negb_true_iff Hr0%negb_true_iff%bool_decide_eq_false].
    apply rounds_return with lj; [done..|]. destruct Hx as [?|Hx]; [done|].
    apply (in_done _ _ _ Hj) in Hx as [?|[(k' & _ & H%round_elem)|H%rest_elem]]%lane_elem; cases.
  - intros i j li lj Hi Hj Hx. exfalso.
    apply (in_done _ _ _ Hj) in Hx as [?|[(k' & _ & H%round_elem)|H%rest_elem]]%lane_elem; cases.
Qed.
End Rounds.

(** More chunks than lanes: lane 0 sends them alone, the others wait for it. *)
Lemma many_protected n nbi m s : (0 < n)%nat -> reach (rma_warp_many_lane nbi m <$> seq 0 n) s ->
  protected (rma_warp_many_lane nbi m) (fun _ => negb nbi) (fun _ => 0%nat) s.
Proof.
  intros Hn HR. set (f := rma_warp_many_lane nbi m) in *.
  assert (Hel : forall x i, x ∈ f i -> x = AShfl \/ x = ASync \/ x = AReturn \/ (i = 0%nat /\ ((exists k, x = AOwn k) \/ (nbi = false /\ x = AQuiet)))).
  { intros x i. unfold f, rma_warp_many_lane. rewrite !elem_of_app, !elem_of_cons, elem_of_nil, does_elem, elem_of_app, list_elem_of_fmap, blocking_elem. naive_solver. }
  assert (Hin : forall x i li, s !! i = Some li -> x ∈ ln_done li -> x ∈ f i).
  { intros x i li Hi Hx. destruct (lane_lt f n s i li HR Hi) as [_ ->]. apply elem_of_app. by left. }
  split.
  - intros i j k li lj Hi Hj Hx%(Hin _ _ _ Hj)%Hel. cases.
  - intros j k lj lq Hj Hq Hx. split; [intros Hw%Hel; cases|]. intros Ho. pose proof (Hel _ _ Ho) as [?|[?|[?|[-> _]]]]; try done.
    rewrite Hj in Hq. injection Hq as <-. pose proof (Hel _ _ (Hin _ _ _ Hj Hx)) as [?|[?|[?|(_ & [[? ?]|[Hb _]])]]]; try done.
    refine (op_own f n s 0 lj ([AShfl; AShfl] ++ (AOwn <$> seq 0 m)) AQuiet [ASync; AReturn] _ HR Hj _ Hx _ _).
    + unfold f, rma_warp_many_lane. rewrite does_self, Hb. cbn [blocking]. by rewrite <- !app_assoc.
    + rewrite elem_of_app, !elem_of_cons, elem_of_nil, list_elem_of_fmap. intros [?|(? & ? & _)]; cases.
    + unfold f, rma_warp_many_lane in Ho. rewrite !elem_of_app, !elem_of_cons, elem_of_nil, does_elem, elem_of_app, blocking_elem in Ho.
      apply elem_of_app. right. cases; done.
  - intros j lj Hj Hb%negb_true_iff Hx. destruct (lane_exists f n s 0 HR Hn) as [l0 H0]. exists l0. split; [done|].
    destruct Hx as [Hx|Hx]; [|apply (Hin _ _ _ Hj), Hel in Hx; cases].
    refine (op_phase f n s (fun i => [AShfl; AShfl] ++ does 0 i ((AOwn <$> seq 0 m) ++ blocking nbi)) (fun _ => [AReturn]) 2 0 j l0 lj _ _ HR _ H0 Hj Hx ltac:(done) _ _).
    + intros i _. split; [by unfold f, rma_warp_many_lane; rewrite <- app_assoc|]. rewrite syncs_app. rewrite does_syncs; [done|].
      rewrite syncs_app. replace (syncs (blocking nbi)) with 0%nat by (by destruct nbi). generalize (seq 0 m). intros l. by induction l.
    + rewrite !elem_of_app, !elem_of_cons, elem_of_nil, does_elem, elem_of_app, list_elem_of_fmap, blocking_elem. intros H. cases.
    + rewrite does_self, Hb. rewrite !elem_of_app. right. right. left.
  - intros i j li lj Hi Hj Hx%(Hin _ _ _ Hj)%Hel. cases.
Qed.

Ltac shape := intros i Hi; split; [unfold does; repeat case_bool_decide; reflexivity
  |unfold does; repeat case_bool_decide; cbn -[elem_of]; intros x; rewrite ?elem_of_cons, ?elem_of_nil; naive_solver].

(** C30: whatever the schedule of the [n] lanes of a warp, in a coalesced put or
    get of a thread each (any number of chunks per lane, of which the first
    rounds are coalesced and the others sent alone), a put or get of the warp (up
    to one chunk per lane, or more, which lane 0 sends), a scalar put or get,
    combined or not, or an atomic of the full warp: the doorbell of a group is not
    rung before every lane has written its entry of it; when a lane waits for the
    completion, the doorbells of all groups it waits for have been rung; a lane of
    a blocking or fetching operation does not return, nor read the fetched value,
    before it or the lane responsible for it has waited; and the fetch buffer is
    not released before every lane has read its value.  The put with signal, which
    lacks these synchronisations, is not among the operations. *)
Theorem sync_protects n op s : (0 < n)%nat -> op_ok n op -> reach (lane_of n op <$> seq 0 n) s ->
  protected (lane_of n op) (waits op) (waiter n op) s.
Proof.
  intros Hn Hop HR. destruct op as [nbi c rounds|nbi m|nbi m| |combine additional| |]; cbn [lane_of waits waiter op_ok] in *.
  - by apply rounds_protected.
  - refine (one_group n _ (fun i => [AShfl; AShfl; AShfl] ++ (if bool_decide (i < m)%nat then [AWrite 0] else [])) 3 (m - 1) nbi false s HR _ _ _ ltac:(done)); [|shape|lia].
    intros i Hi. unfold rma_warp_lane, tail. reflexivity.
  - by apply (many_protected n).
  - refine (one_group n _ (fun i => [AShfl; AShfl; AShfl; AShfl; AShfl; AShfl; AWrite 0]) 6 (n - 1) true false s HR _ _ _ ltac:(done)); [intros i Hi; reflexivity|shape|lia].
  - refine (one_group n _ (fun i => [AShfl; AShfl; AShfl; AShfl; AShfl; AShfl; AShfl] ++ (if combine then does 0 i [AWrite 0] else [AWrite 0])) 7
      (g_submitter n combine additional) false true s HR _ _ _ ltac:(done)); [|destruct combine; shape|unfold g_submitter; destruct (_ && _); lia].
    intros i Hi. unfold rma_g_lane, tail. cbn [app]. by rewrite <- !app_assoc.
  - refine (one_group n _ (fun i => [AShfl; AShfl; AShfl; AShfl; AWrite 0]) 4 (n - 1) true false s HR _ _ _ ltac:(done)); [intros i Hi; reflexivity|shape|lia].
  - refine (one_group n _ (fun i => [AShfl; AShfl; AShfl; AShfl; AShfl; AWrite 0]) 5 (n - 1) false true s HR _ _ _ ltac:(done)); [|shape|lia].
    intros i Hi. cbn [lane_of]. unfold amo_fetch_lane, tail. cbn [app]. by rewrite <- !app_assoc.
Qed.

(** Schedules: lane [Some i] goes on, or all lanes pass a synchronisation. *)
Definition next (s : list lane) (e : option nat) : option (list lane) :=
  match e with
  | Some i => l ← s !! i; match ln_todo l with [] => None | a :: _ => if is_sync a then None else Some (<[i := advance l]> s) end
  | None => if bool_decide (s <> []) && forallb at_sync s then Some (advance <$> s) else None
  end.
Fixpoint schedule (s : list lane) (l : list (option nat)) : option (list lane) :=
  match l with [] => Some s | e :: l => s' ← next s e; schedule s' l end.
Lemma next_step s e s' : next s e = Some s' -> step s s'.
Proof.
  destruct e as [i|]; cbn; intros H.
  - destruct (s !! i) as [l|] eqn:Hi; cbn in H; [|done]. destruct (ln_todo l) as [|a t] eqn:Ht; [done|].
    destruct (is_sync a) eqn:Ha; [done|]. injection H as <-. by eapply step_lane.
  - destruct (bool_decide _ && _) eqn:E; [|done]. injection H as <-. apply andb_prop in E as [E1 E2]. apply bool_decide_eq_true in E1.
    apply step_sync; [done|]. apply Forall_lookup. intros i l Hl. apply (proj1 (forallb_forall _ _) E2), list_elem_of_In. by eapply list_elem_of_lookup_2.
Qed.
Lemma schedule_reach progs s l s' : reach progs s -> schedule s l = Some s' -> reach progs s'.
Proof.
  revert s. induction l as [|e l IH]; intros s HR H; cbn in H; [by injection H as <-|].
  destruct (next s e) as [s1|] eqn:E; cbn in H; [|done]. apply (IH s1); [|done]. eapply rtc_r; [exact HR|by eapply next_step].
Qed.

(** A blocking put of two lanes, of one and of two chunks: one coalesced round,
    then lane 1 sends its second chunk alone.  Lane 0 waits and returns. *)
Definition demo_op : warp_op := OpRmaThread false 1 (fun i => S i).
Definition demo_schedule : list (option nat) :=
  [None; None; None; None; None; Some 1; Some 0; None; Some 1; None; None; Some 0; Some 0; Some 1]%nat.
Definition demo_lanes : list lane := default [] (schedule (start (lane_of 2 demo_op <$> seq 0 2)) demo_schedule).

Lemma sync_protects_witness : exists l0 l1, demo_lanes !! 0%nat = Some l0 /\ demo_lanes !! 1%nat = Some l1 /\
  AReturn ∈ ln_done l0 /\ ASubmit 0 ∈ ln_done l1 /\ AOwn 1 ∈ ln_done l1 /\ (AQuiet ∉ ln_done l1) /\
  AWrite 0 ∈ ln_done l0 /\ (exists lq, demo_lanes !! waiter 2 demo_op 0 = Some lq /\ AQuiet ∈ ln_done lq).
Proof.
  assert (HR : reach (lane_of 2 demo_op <$> seq 0 2) demo_lanes) 
    by (apply (schedule_reach _ (start (lane_of 2 demo_op <$> seq 0 2)) demo_schedule); [apply rtc_refl|vm_compute; reflexivity]).
  pose proof (sync_protects 2 demo_op demo_lanes ltac:(lia) ltac:(intros i Hi; cbn; lia) HR) as HP.
  eexists _, _. split; [vm_compute; reflexivity|]. split; [vm_compute; reflexivity|].
  split; [by apply (bool_decide_unpack (AReturn ∈ _))|]. split; [by apply (bool_decide_unpack (ASubmit 0 ∈ _))|].
  split; [by apply (bool_decide_unpack (AOwn 1 ∈ _))|]. split; [by apply (bool_decide_unpack (AQuiet ∉ _))|]. split.
  - eapply (pt_submit _ _ _ _ HP 0 1 0); [vm_compute; reflexivity|vm_compute; reflexivity| |]; by apply (bool_decide_unpack (_ ∈ _)).
  - eapply (pt_return _ _ _ _ HP 0); [vm_compute; reflexivity|vm_compute; reflexivity|left; by apply (bool_decide_unpack (AReturn ∈ _))].
Defined.

(** ** A put with signal *)
Lemma sync_all s : s <> [] -> forallb at_sync s = true -> step s (advance <$> s).
Proof. intros HN HF. apply step_sync; [done|]. apply Forall_lookup. intros i l Hl.
  apply (proj1 (forallb_forall _ _) HF), list_elem_of_In. by eapply list_elem_of_lookup_2.
Qed.
Lemma put_signal_start nbi : reach (put_signal_lane 2 nbi <$> seq 0 2)
  [MkLane [AShfl; AShfl; AShfl; AShfl] [AWrite 0; AReturn]; MkLane [AShfl; AShfl; AShfl; AShfl] (AWrite 0 :: ASubmit 0 :: blocking nbi ++ [AReturn])].
Proof.
  do 4 (eapply rtc_l; [by apply sync_all|]). apply rtc_refl.
Qed.

(** The put with signal of a thread has no synchronisation between the lanes'
    entries and the doorbell: there is a schedule in which the last lane rings
    it for the whole group while another lane has not written its entry. *)
Theorem put_signal_doorbell_early nbi : exists s l0 l1, reach (put_signal_lane 2 nbi <$> seq 0 2) s /\
  s !! 0%nat = Some l0 /\ s !! 1%nat = Some l1 /\ ASubmit 0 ∈ ln_done l1 /\ AWrite 0 ∉ ln_done l0.
Proof.
  eexists _, _, _. split; [unfold reach; etransitivity; [apply put_signal_start|]; eapply rtc_l; [by eapply (step_lane _ 1)|]; eapply rtc_l; [by eapply (step_lane _ 1)|]; apply rtc_refl|].
  split; [done|]. split; [done|]. split; [by apply (bool_decide_unpack (ASubmit 0 ∈ _))|by apply (bool_decide_unpack (AWrite 0 ∉ _))].
Qed.
(** Nor is there one after the wait for the completion: a lane of a blocking put
    with signal may return before the last lane has even begun to wait, with its
    source buffer still in use. *)
Theorem put_signal_returns_early : exists s l0 l1, reach (put_signal_lane 2 false <$> seq 0 2) s /\
  s !! 0%nat = Some l0 /\ s !! 1%nat = Some l1 /\ AReturn ∈ ln_done l0 /\ AQuiet ∈ ln_todo l1.
Proof.
  eexists _, _, _. split; [unfold reach; etransitivity; [apply put_signal_start|]; eapply rtc_l; [by eapply (step_lane _ 0)|]; eapply rtc_l; [by eapply (step_lane _ 0)|]; apply rtc_refl|].
  split; [done|]. split; [done|]. split; [by apply (bool_decide_unpack (AReturn ∈ _))|by apply (bool_decide_unpack (AQuiet ∈ _))].
Qed.
(** Lanes whose payload is in one piece shuffle over the full warp, the others
    do not: where a warp has both, the former never write their entries. *)
Theorem put_signal_mixed_blocked n nbi progs s i j li : reach progs s -> progs !! i = Some (put_signal_lane n nbi i) ->
  progs !! j = Some (put_signal_pieces_lane nbi) -> s !! i = Some li -> AWrite 0 ∉ ln_done li.
Proof.
  intros HR Pi Pj Hi HW. destruct (reach_agree progs s HR) as [HG [k HK]].
  assert (exists lj, s !! j = Some lj /\ ln_done lj ++ ln_todo lj = put_signal_pieces_lane nbi) as (lj & Hj & Ej).
  { rewrite <- HG, list_lookup_fmap in Pj. destruct (s !! j) as [lj|]; [|done]. exists lj. by injection Pj. }
  pose proof (proj1 (Forall_lookup _ _) HK i li Hi) as Ki. pose proof (proj1 (Forall_lookup _ _) HK j lj Hj) as Kj. cbn in Ki, Kj.
  assert (syncs (ln_done lj) <= 3)%nat.
  { assert (syncs (ln_done lj ++ ln_todo lj) = 3)%nat as HS by (rewrite Ej; by destruct nbi). rewrite syncs_app in HS. lia. }
  rewrite <- HG, list_lookup_fmap, Hi in Pi. injection Pi as Pi. unfold put_signal_lane in Pi.
  replace ([AShfl; AShfl; AShfl; AShfl; AWrite 0] ++ last_does n i (ASubmit 0 :: blocking nbi) ++ [AReturn])
    with ([AShfl; AShfl; AShfl; AShfl] ++ (AWrite 0 :: last_does n i (ASubmit 0 :: blocking nbi) ++ [AReturn])) in Pi by done.
  destruct (prefix_cases _ _ _ _ Pi) as [[e He]|[e [He _]]].
  - rewrite He, syncs_app in Ki. change (syncs [AShfl; AShfl; AShfl; AShfl]) with 4%nat in Ki. lia.
  - assert (AWrite 0 ∈ [AShfl; AShfl; AShfl; AShfl]) as HX by (rewrite He; apply elem_of_app; by left). by apply (bool_decide_pack _) in HX.
Qed.
End IbgdaWarpSync.
