(* ===== verification/IbgdaRing.v ===== *)
(** * A group of commands in the ring

    The commands of [IbgdaRma], written by the writers of [IbgdaWqe] into the
    slots of the range, as the NIC reads them afterwards. *)
From stdpp Require Import base gmap list option.
From Stdlib Require Import ZArith Lia.
From S2P Require Import Prelude IbgdaQueue IbgdaQp IbgdaWqe IbgdaNic IbgdaWqeSpec IbgdaAmo IbgdaKeys IbgdaRma IbgdaRmaSpec.

Module IbgdaRing.
Import IbgdaQueue IbgdaQp IbgdaWqe IbgdaNic IbgdaWqeSpec IbgdaAmo IbgdaKeys IbgdaRma IbgdaRmaSpec.

(** [decode] reads no more than the request's blocks. *)
Lemma read_agree v v' p len n : (forall k, 0 <= k < n -> v' k = v k) -> 0 <= p -> p + Z.of_nat len <= n -> read v' p len = read v p len.
Proof. intros H Hp Hl. unfold read. apply list_fmap_ext. intros i k Hk. apply lookup_seqZ in Hk as [-> Hk]. apply H. lia. Qed.

Section Local.
Context (c : mlx5dv) (Hc : mlx5dv_ok c) (v v' : Z -> Z) (n : Z) (HV : forall k, 0 <= k < n -> v' k = v k).

Lemma payload_local p : 0 <= p -> (16 | p) -> 16 * payload_ds p (decode_payload c v p) <= n -> decode_payload c v' p = decode_payload c v p.
Proof.
  intros Hp [q Hq] Hn. unfold decode_payload, payload_ds in *.
  assert (p + 16 <= n) as H16.
  { case_bool_decide; [|rewrite Hq in *; replace (q * 16 + 16) with ((q + 1) * 16) in Hn by lia; rewrite Z.div_mul in Hn by lia; lia].
    match type of Hn with 16 * (?x / 16) <= _ => assert (q + 1 <= x / 16) by (apply Z.div_le_lower_bound; lia) end. lia. }
  rewrite (read_agree v v' p 16 n HV) by lia. case_bool_decide as HB; [|done]. f_equal. apply (read_agree v v' _ _ n HV); [lia|].
  rewrite length_read in Hn. match type of Hn with 16 * (?x / 16) <= _ => pose proof (Z.div_mod x 16 ltac:(lia)); pose proof (Z.mod_pos_bound x 16 ltac:(lia)) end.
  lia.
Qed.

Lemma payload_ds_min p q : 0 <= p -> (16 | p) -> p / 16 + 1 <= payload_ds p q.
Proof.
  intros Hp [k ->]. rewrite Z.div_mul by lia. unfold payload_ds. destruct q; apply Z.div_le_lower_bound; lia.
Qed.
Lemma av_len_cases ty : av_len ty v = 0 \/ av_len ty v = 16 \/ av_len ty v = 48.
Proof. unfold av_len. destruct ty; [|auto]. destruct (Z.testbit _ _); auto. Qed.

Lemma decode_local ty r : decode c ty v = Some r -> 16 * rq_ds r <= n -> 64 <= n -> decode c ty v' = Some r.
Proof.
  intros HD Hds Hn. pose proof (av_len_cases ty) as HA.
  assert (read v' 0 16 = read v 0 16) as E0 by (apply (read_agree v v' 0 16 n HV); lia).
  assert (av_len ty v' = av_len ty v) as EL by (unfold av_len; by rewrite (read_agree v v' 16 16 n HV) by lia).
  assert (read v' 16 (Z.to_nat (av_len ty v)) = read v 16 (Z.to_nat (av_len ty v))) as EA by (apply (read_agree v v' 16 _ n HV); lia).
  assert (forall q p, p / 16 + 1 <= rq_ds r -> 0 <= q -> (16 | p) -> q <= p -> read v' q 16 = read v q 16) as ER.
  { intros q p Hr Hq [k ->] Hk. rewrite Z.div_mul in Hr by lia. apply (read_agree v v' _ _ n HV); lia. }
  assert (forall k, (16 | k + av_len ty v) <-> (16 | k)) as HDiv.
  { intros k. assert ((16 | av_len ty v)) by (destruct HA as [-> | [-> | ->]]; [by exists 0|by exists 1|by exists 3]). split; intros H2.
    - replace k with (k + av_len ty v - av_len ty v) by lia. by apply Z.divide_sub_r.
    - by apply Z.divide_add_r. }
  set (a := av_len ty v) in *. assert (0 <= a) by lia. unfold decode in *. fold a in HD. rewrite E0, EL, EA.
  set (w0 := get (ctrl_opmod_idx_opcode c) 4 (read v 0 16)) in *. set (w1 := get (ctrl_qpn_ds c) 4 (read v 0 16)) in *.
  set (mk := fun (b : body) => Some (MkRequest (w1 / 2 ^ 8) (w0 / 2 ^ 8 mod 2 ^ 16) (get (ctrl_fm_ce_se c) 1 (read v 0 16)) (w1 mod 2 ^ 6) b)) in *.
  assert (forall q (B : payload -> body), 0 <= q -> (16 | q) ->
    (guard (w1 mod 2 ^ 6 = payload_ds q (decode_payload c v q));; mk (B (decode_payload c v q))) = Some r ->
    (guard (w1 mod 2 ^ 6 = payload_ds q (decode_payload c v' q));; mk (B (decode_payload c v' q))) = Some r /\ q / 16 + 1 <= rq_ds r) as HG.
  { intros q B Hq Hdv HF. destruct (decide (w1 mod 2 ^ 6 = payload_ds q (decode_payload c v q))) as [HE|HE]; [|by rewrite option_guard_False in HF].
    rewrite option_guard_True in HF by done. assert (rq_ds r = w1 mod 2 ^ 6) as HR by (by injection HF as <-).
    pose proof (payload_ds_min q (decode_payload c v q) Hq Hdv).
    rewrite payload_local by (done || lia). rewrite option_guard_True by done. split; [done|lia]. }
  assert (forall k, (16 | k) -> (16 | 16 + a + k)) as HK by (intros k Hk; replace (16 + a + k) with (16 + k + a) by lia; apply HDiv; apply Z.divide_add_r; [by exists 1|done]).
  set (two := bool_decide (w0 mod 2 ^ 8 = OPCODE_ATOMIC_MASKED_CS c) && bool_decide (w0 / 2 ^ 24 = 9)) in *. clearbody two.
  repeat (case_bool_decide; [try done|]).
  - by apply (HG 16 BDump); [lia|exists 1|].
  - apply (HG (16 + a + 16) (BWrite _ _ _)) in HD as [HD HM]; [|lia|apply HK; by exists 1].
    by rewrite (ER (16 + a) (16 + a + 16)); [|done|lia|apply HK; exists 1|lia].
  - apply (HG (16 + a + 16) (BRead _ _ _)) in HD as [HD HM]; [|lia|apply HK; by exists 1].
    by rewrite (ER (16 + a) (16 + a + 16)); [|done|lia|apply HK; exists 1|lia].
  - destruct (decide (w0 mod 2 ^ 8 ∈ opcodes c)) as [HO|HO]; [|by rewrite (option_guard_False (w0 mod 2 ^ 8 ∈ opcodes c)) in HD].
    rewrite (option_guard_True (w0 mod 2 ^ 8 ∈ opcodes c)) in HD |- * by done.
    assert ((16 | 16 + a + (if two then 48 else 32))) as HQ by (apply HK; destruct two; [by exists 3|by exists 2]).
    apply (HG (16 + a + (if two then 48 else 32)) (BAtomic _ _ _ _ _ _ _)) in HD as [HD HM]; [|destruct two; lia|done].
    rewrite (ER (16 + a) _ HM), (ER (16 + a + 16) _ HM) by (done || (destruct two; lia)).
    destruct two; [|done]. by rewrite (ER (16 + a + 32) _ HM) by (done || lia).
Qed.
End Local.

(** ** Commands *)
(** [IBGDA_MLX5_FM_FENCE] *)
Definition FM_FENCE : Z := Z.shiftl 2 5.

Section Commands.
Context (c : mlx5dv) (base nwqes : Z) (half : bool) (t : dct_tables) (ty : qp_type) (qpn ibuf_addr ibuf_lkey : Z) (junk : list Z).

(** The writer of a command, at slot [idx] *)
Definition write_command (idx : Z) (cq : bool) (cmd : command) (m : mem) : outcome mem :=
  let fm := if cq then WQE_CTRL_CQ_UPDATE c else 0 in
  let p := ptrs base nwqes idx 2 in
  match cmd with
  | CWrite d k => ibgda_write_rdma_write_wqe c half t ty qpn d (ck_laddr k) (ck_lkey k) (ck_raddr k) (ck_rkey k) (ck_bytes k) idx fm p m
  | CRead d k => ibgda_write_rdma_read_wqe c half t ty qpn d (ck_laddr k) (ck_lkey k) (ck_raddr k) (ck_rkey k) (ck_bytes k) idx fm p m
  | CInline d val raddr rkey => ibgda_write_rdma_write_inl_wqe c half t ty qpn d val raddr rkey (Z.of_nat (length val)) idx fm p m
  | CAtomic d op v1 v2 bytes raddr rkey laddr =>
      ibgda_write_atomic_wqe c half t ty qpn d v1 v2 laddr ibuf_lkey raddr rkey bytes idx op fm junk p m
  | CDump => ibgda_write_dump_wqe c qpn ibuf_addr ibuf_lkey 1 idx FM_FENCE p m
  | CNop => ibgda_write_nop_wqe c qpn idx p m
  end.
Fixpoint write_posts (base_wqe_idx : Z) (ps : list post) (m : mem) : outcome mem :=
  match ps with
  | [] => Ret m
  | p :: ps => m ← write_command (base_wqe_idx + po_slot p) (po_cq p) (po_cmd p) m; write_posts base_wqe_idx ps m
  end.

(** Commands within the limits of the format; [av] is the table's entry *)
Context (exec : Z -> Z -> list Z -> option (list Z) -> Z -> Z) (av : Z -> list Z).
Definition chunk_fits (k : chunk) : Prop := 0 <= ck_bytes k < 2 ^ 31.
Definition command_ok (cmd : command) : Prop :=
  match cmd with
  | CWrite d k | CRead d k => dct_ok half ty t d (av d) /\ chunk_fits k
  | CInline d val _ _ => dct_ok half ty t d (av d) /\ (1 <= length val <= 12)%nat
  | CAtomic d op v1 v2 bytes _ _ _ => dct_ok half ty t d (av d) /\ op <> AMO_ACK /\ (bytes = 4 \/ bytes = 8) /\ in_range bytes v1 /\ in_range bytes v2
  | CDump | CNop => True
  end.
Definition command_blocks (cmd : command) : Z :=
  match cmd with
  | CWrite _ _ | CRead _ _ | CInline _ _ _ _ => rdma_wqes_per_cmd half ty
  | CAtomic _ op _ _ bytes _ _ _ => ibgda_get_num_wqes_in_atomic bytes op ty
  | CDump | CNop => 1
  end.
(** What the NIC is to make of a command *)
Definition gather (k : chunk) : payload := Gather (u64 (ck_laddr k)) (key_of (ck_lkey k)) (ck_bytes k).
Definition means (cmd : command) (b : body) : Prop :=
  match cmd with
  | CWrite d k => b = BWrite (target_av half ty (av d)) (u64 (ck_raddr k)) (key_of (ck_rkey k)) (gather k)
  | CRead d k => b = BRead (target_av half ty (av d)) (u64 (ck_raddr k)) (key_of (ck_rkey k)) (gather k)
  | CInline d val raddr rkey => b = BWrite (target_av half ty (av d)) (u64 raddr) (key_of rkey) (Inline val)
  | CAtomic d op v1 v2 bytes raddr rkey laddr => exists opc opmod seg1 seg2,
      b = BAtomic opc opmod (target_av half ty (av d)) (u64 raddr) (key_of rkey) seg1 seg2 (Gather (u64 laddr) (key_of ibuf_lkey) bytes) /\
      (forall old, in_range bytes old -> exec opc opmod seg1 seg2 old = amo_spec op bytes v1 v2 old)
  | CDump => b = BDump (Gather (u64 ibuf_addr) (key_of ibuf_lkey) 1)
  | CNop => b = BNop
  end.
Definition completes (cq : bool) (cmd : command) (fm : Z) : Prop :=
  match cmd with CDump | CNop => Z.land fm (WQE_CTRL_CQ_UPDATE c) = WQE_CTRL_CQ_UPDATE c | _ => fm = if cq then WQE_CTRL_CQ_UPDATE c else 0 end.
(** The request at [idx] is the command's. *)
Definition serves (m : mem) (idx : Z) (cq : bool) (cmd : command) : Prop :=
  exists r, decode c ty (view base nwqes idx m) = Some r /\ rq_qpn r = qpn /\ rq_wqe_idx r = u16 idx /\
    completes cq cmd (rq_fm_ce_se r) /\ means cmd (rq_body r) /\ request_blocks r = command_blocks cmd.

Context (Hc : mlx5dv_ok c) (He : nic_ok c exec) (Hn : depth_ok nwqes) (H2 : 2 <= nwqes) (Hq : 0 <= qpn < 2 ^ 24) (Hj : length junk = 16%nat).

Lemma flag_u8 (cq : bool) : u8 (if cq then WQE_CTRL_CQ_UPDATE c else 0) = if cq then WQE_CTRL_CQ_UPDATE c else 0.
Proof. destruct (mk_flags c Hc) as [HF _]. destruct cq; [|done]. unfold u8, wrap. apply Z.mod_small. lia. Qed.
Lemma land_flag x : Z.land (u8 (Z.lor (WQE_CTRL_CQ_UPDATE c) x)) (WQE_CTRL_CQ_UPDATE c) = WQE_CTRL_CQ_UPDATE c.
Proof.
  destruct (mk_flags c Hc) as [HF _]. apply Z.bits_inj'. intros k Hk. unfold u8, wrap. rewrite Z.land_spec.
  destruct (Z.lt_ge_cases k 8).
  - rewrite Z.mod_pow2_bits_low, Z.lor_spec by lia. by destruct (Z.testbit (WQE_CTRL_CQ_UPDATE c) k), (Z.testbit x k).
  - rewrite (bit_above 8 (WQE_CTRL_CQ_UPDATE c) k) by lia. by rewrite andb_false_r.
Qed.

Lemma write_command_ok idx cq cmd m : 0 <= idx -> command_ok cmd -> exists m', write_command idx cq cmd m = Ret m' /\ serves m' idx cq cmd /\
  (forall k, 64 * command_blocks cmd <= k < 64 * nwqes -> view base nwqes idx m' k = view base nwqes idx m k).
Proof.
  intros Hi HO. assert (rdma_wqes_per_cmd half ty <= 2) by (destruct ty, half; cbn; lia).
  destruct cmd as [d k|d k|d val raddr rkey|d op v1 v2 bytes raddr rkey laddr| |]; cbn [command_ok write_command command_blocks] in *.
  - destruct HO as [HD HB].
    destruct (rdma_wqe_ok true c base nwqes idx half t ty qpn d (av d) (ck_laddr k) (ck_lkey k) (ck_raddr k) (ck_rkey k) (ck_bytes k)
      (if cq then WQE_CTRL_CQ_UPDATE c else 0) 2 m) as (m' & r & HW & HR & ? & ? & HF & HE & ? & HK); try done.
    exists m'. split; [done|]. split; [|done]. exists r. split_and!; try done. by rewrite HF, flag_u8.
  - destruct HO as [HD HB].
    destruct (rdma_wqe_ok false c base nwqes idx half t ty qpn d (av d) (ck_laddr k) (ck_lkey k) (ck_raddr k) (ck_rkey k) (ck_bytes k)
      (if cq then WQE_CTRL_CQ_UPDATE c else 0) 2 m) as (m' & r & HW & HR & ? & ? & HF & HE & ? & HK); try done.
    exists m'. split; [done|]. split; [|done]. exists r. split_and!; try done. by rewrite HF, flag_u8.
  - destruct HO as [HD HB].
    destruct (inline_wqe_ok c base nwqes idx half t ty qpn d (av d) val raddr rkey (if cq then WQE_CTRL_CQ_UPDATE c else 0) 2 m)
      as (m' & r & HW & HR & ? & ? & HF & HE & ? & HK); try done.
    exists m'. split; [done|]. split; [|done]. exists r. split_and!; try done. by rewrite HF, flag_u8.
  - destruct HO as (HD & HO & HB & HV1 & HV2).
    destruct (amo_wqe_ok c exec base nwqes idx half t ty qpn d (av d) v1 v2 laddr ibuf_lkey raddr rkey bytes op (if cq then WQE_CTRL_CQ_UPDATE c else 0) junk m)
      as (m' & r & opc & opmod & seg1 & seg2 & HW & HR & ? & ? & HF & HE & HX & ? & HK); try done.
    exists m'. split; [done|]. split; [|done]. exists r. split_and!; try done; [by rewrite HF, flag_u8|by exists opc, opmod, seg1, seg2].
  - destruct (dump_wqe_ok c base nwqes idx ty qpn ibuf_addr ibuf_lkey 1 FM_FENCE 2 m) as (m' & r & HW & HR & ? & ? & HF & HE & ? & HK); try done.
    exists m'. split; [done|]. split; [|by rewrite Z.mul_1_r]. exists r. split_and!; try done. cbn [completes]. rewrite HF. apply land_flag.
  - destruct (nop_wqe_ok c base nwqes idx ty qpn 2 m) as (m' & r & HW & HR & ? & ? & HF & HE & ? & HK); try done.
    exists m'. split; [done|]. split; [|by rewrite Z.mul_1_r]. exists r. split_and!; try done. cbn [completes]. rewrite HF.
    rewrite <- (Z.lor_0_r (WQE_CTRL_CQ_UPDATE c)) at 1. apply land_flag.
Qed.

(** ** Groups *)
Lemma ring_view_wrap i d m k : view base nwqes i m k = view base nwqes (i + d) m (k + 64 * (nwqes - d)).
Proof.
  unfold view. replace (k + 64 * (nwqes - d)) with (k + (nwqes - d) * 64) by lia. rewrite Z.div_add, Z.mod_add by lia.
  replace (i + d + (k / 64 + (nwqes - d))) with (i + k / 64 + 1 * nwqes) by lia. by rewrite Z.mod_add by lia.
Qed.
Lemma command_blocks_pos cmd : 0 < command_blocks cmd.
Proof. destruct cmd; cbn; first [apply rdma_wqes_gt0 | apply amo_wqes_pos | lia]. Qed.
Lemma blocks_ds r : 16 * rq_ds r <= 64 * request_blocks r.
Proof. unfold request_blocks. pose proof (Z.div_mod (rq_ds r + 3) 4 ltac:(lia)). pose proof (Z.mod_pos_bound (rq_ds r + 3) 4 ltac:(lia)). lia. Qed.

(** Writing a later command of the range leaves an earlier one alone. *)
Lemma serves_frame m m' i s s' n' cq cmd : serves m (i + s) cq cmd -> 0 <= s -> s + command_blocks cmd <= s' -> s' + n' <= nwqes ->
  (forall k, 64 * n' <= k < 64 * nwqes -> view base nwqes (i + s') m' k = view base nwqes (i + s') m k) -> serves m' (i + s) cq cmd.
Proof.
  intros (r & HD & HR) Hs Hb Hn' HF. exists r. split; [|done]. destruct HR as (_ & _ & _ & _ & HB). pose proof (command_blocks_pos cmd).
  eapply (decode_local c (view base nwqes (i + s) m) _ (64 * command_blocks cmd)); [|exact HD|rewrite <- HB; apply blocks_ds|lia].
  intros k Hk. rewrite !(ring_view_wrap (i + s) (s' - s)). replace (i + s + (s' - s)) with (i + s') by lia. apply HF. lia.
Qed.

Definition post_ok (p : post) : Prop := command_ok (po_cmd p) /\ po_blocks p = command_blocks (po_cmd p).
Lemma fill_le a ps b : fill a ps b -> a <= b.
Proof. revert a. induction ps as [|p ps IH]; cbn; intros a HF; [lia|]. destruct HF as (_ & ? & HF). apply IH in HF. lia. Qed.

Lemma write_posts_ok i ps a b m : 0 <= i -> 0 <= a -> b <= nwqes -> fill a ps b -> Forall post_ok ps ->
  exists m', write_posts i ps m = Ret m' /\ Forall (fun p => serves m' (i + po_slot p) (po_cq p) (po_cmd p)) ps /\
    (forall s cq cmd, serves m (i + s) cq cmd -> 0 <= s -> s + command_blocks cmd <= a -> serves m' (i + s) cq cmd).
Proof.
  intros Hi Ha Hb HF HP. revert a m Ha HF. induction HP as [|p ps [HO HB] HP IH]; intros a m Ha HF.
  { exists m. split; [done|]. split; [constructor|]. done. }
  destruct HF as (HS & Hpos & HF). pose proof (fill_le _ _ _ HF) as HL. cbn [write_posts]. rewrite HS.
  destruct (write_command_ok (i + a) (po_cq p) (po_cmd p) m) as (m1 & H1 & S1 & F1); [lia|done|]. rewrite H1, outcome_bind_ret.
  destruct (IH (a + po_blocks p) m1 ltac:(lia) HF) as (m2 & HW & HA & HK). exists m2. split; [done|]. split.
  - constructor; [|done]. rewrite HS. apply HK; [done|done|lia].
  - intros s cq cmd HSv Hs0 Hs. apply HK; [|done|lia].
    eapply (serves_frame m m1 i s a (command_blocks (po_cmd p))); [done|done|done|lia|exact F1].
Qed.
End Commands.

(** C7: the commands of a group, written into its range of slots, are what the
    NIC finds there: at each slot it decodes exactly the command posted (an
    RDMA write or read of the chunk with its keys and addresses, an inline
    value, an atomic whose documented effect on the remote word is the
    library's operation, a fence or a no-op), to the address vector of the PE
    it names, with the completion asked for where it was, in the number of
    blocks its slot has; no command disturbs another, also where the range
    wraps around the end of the ring. *)
Theorem group_roundtrip c base nwqes half t ty qpn ibuf_addr ibuf_lkey junk exec av i ps n m :
  mlx5dv_ok c -> nic_ok c exec -> depth_ok nwqes -> 2 <= nwqes -> 0 <= qpn < 2 ^ 24 -> length junk = 16%nat ->
  0 <= i -> fill 0 ps n -> n <= nwqes -> Forall (post_ok half t ty av) ps ->
  exists m', write_posts c base nwqes half t ty qpn ibuf_addr ibuf_lkey junk i ps m = Ret m' /\
    Forall (fun p => serves c base nwqes half ty qpn ibuf_addr ibuf_lkey exec av m' (i + po_slot p) (po_cq p) (po_cmd p)) ps.
Proof.
  intros Hc He Hn H2 Hq Hj Hi HF Hb HP.
  destruct (write_posts_ok c base nwqes half t ty qpn ibuf_addr ibuf_lkey junk exec av Hc He Hn H2 Hq Hj i ps 0 n m) as (m' & HW & HA & _); try done.
  by exists m'.
Qed.

(** A put of two chunks by a warp over a DCI with long address vectors, in a
    ring of 8 blocks, from block 5 *)
Definition ex_posts : list post * Z :=
  rma_posts false DCI OP_PUT false [0; 0] [MkChunk (HTOBE32 5) 4096 (HTOBE32 6) 8192 1000 false; MkChunk (HTOBE32 7) 5096 (HTOBE32 8) 9192 24 false].
Lemma ex_posts_ok : Forall (post_ok false ex_dcts DCI (fun _ => ex_av)) (fst ex_posts).
Proof.
  let l := eval vm_compute in (fst ex_posts) in change (fst ex_posts) with l.
  repeat (apply list.Forall_cons; split; [split; [|done]|]); [split; [apply ex_dct_ok|unfold chunk_fits; cbn; lia]..|done|constructor].
Qed.
Lemma group_roundtrip_witness : snd ex_posts = 5 /\ exists m',
  write_posts mlx5 65536 8 false ex_dcts DCI 77 12288 (HTOBE32 9) zeros 5 (fst ex_posts) ∅ = Ret m' /\
  Forall (fun p => serves mlx5 65536 8 false DCI 77 12288 (HTOBE32 9) ex_exec (fun _ => ex_av) m' (5 + po_slot p) (po_cq p) (po_cmd p)) (fst ex_posts).
Proof.
  split; [done|]. apply (group_roundtrip mlx5 65536 8 false ex_dcts DCI 77 12288 (HTOBE32 9) zeros ex_exec (fun _ => ex_av) 5 (fst ex_posts) 5 ∅ mlx5_ok ex_exec_ok).
  - split; [lia|by exists 3].
  - lia.
  - lia.
  - done.
  - lia.
  - by vm_compute.
  - lia.
  - apply ex_posts_ok.
Defined.
End IbgdaRing.
