(* ===== verification/CollMem.v ===== *)
(** * Memory and phases of the device collectives

    What the collectives of src/src/include/non_abi/device/coll/ do between two
    barriers: every thread of every PE runs its loops, and puts are delivered
    element by element, all in any order.  A trace is an interleaving of these
    activities; the lemmas reduce its effect to what each location receives.

    Addresses are counted in elements of the collective's type, and are the same
    on all PEs (they are symmetric); [V] is that type and [op] its reduction.  A
    phase is more permissive than the code where it lets puts start before
    earlier steps of their own thread. *)
From stdpp Require Import base list option.
From Stdlib Require Import ZArith Lia.
From S2P Require Import Prelude IbgdaQp.

Module CollMem.
Import IbgdaQp.

(** ** Interleavings *)
Inductive interleave {A} : list (list A) -> list A -> Prop :=
| interleave_done ts : Forall (fun t => t = []) ts -> interleave ts []
| interleave_step l1 x t l2 tr : interleave (l1 ++ t :: l2) tr -> interleave (l1 ++ (x :: t) :: l2) (x :: tr).

Lemma interleave_elem {A} (ts : list (list A)) tr x : interleave ts tr -> x ∈ tr -> exists t, t ∈ ts /\ x ∈ t.
Proof.
  induction 1 as [|l1 y t l2 tr HI IH]; intros Hx; [by apply elem_of_nil in Hx|]. apply elem_of_cons in Hx as [->|Hx].
  - exists (y :: t). split; [apply elem_of_app; right; left|left].
  - destruct (IH Hx) as (u & Hu & Hxu). apply elem_of_app in Hu as [Hu|Hu]; [exists u; split; [apply elem_of_app; by left|done]|].
    apply elem_of_cons in Hu as [->|Hu]; [exists (y :: t); split; [apply elem_of_app; right; left|by right]|].
    exists u. split; [apply elem_of_app; right; by right|done].
Qed.
Lemma interleave_all {A} (ts : list (list A)) tr t x : interleave ts tr -> t ∈ ts -> x ∈ t -> x ∈ tr.
Proof.
  intros HI. revert t. induction HI as [ts HF|l1 y u l2 tr HI IH]; intros t Ht Hx.
  { rewrite Forall_forall in HF. rewrite (HF t) in Hx by (by apply list_elem_of_In). by apply elem_of_nil in Hx. }
  apply elem_of_app in Ht as [Ht|Ht]; [right; apply (IH t); [apply elem_of_app; by left|done]|].
  apply elem_of_cons in Ht as [->|Ht]; [|right; apply (IH t); [apply elem_of_app; right; by right|done]].
  apply elem_of_cons in Hx as [->|Hx]; [left|right; apply (IH u); [apply elem_of_app; right; left|done]].
Qed.

(** Where only one of the lists has elements of some kind, their order is the
    list's. *)
Lemma interleave_filter {A} (P : A -> Prop) `{!forall x, Decision (P x)} (ts : list (list A)) tr i t :
  interleave ts tr -> ts !! i = Some t -> (forall j u, ts !! j = Some u -> j <> i -> Forall (fun x => ~ P x) u) ->
  filter P tr = filter P t.
Proof.
  intros HI. revert t. induction HI as [ts HF|l1 y u l2 tr HI IH]; intros t Ht HO.
  { rewrite Forall_forall in HF. rewrite (HF t); [done|]. apply list_elem_of_In. by eapply list_elem_of_lookup_2. }
  destruct (decide (i = length l1)) as [->|Hi].
  - rewrite lookup_app_r, Nat.sub_diag in Ht by done. injection Ht as <-. rewrite !filter_cons.
    assert (filter P tr = filter P u) as ->; [|done]. apply IH; [by rewrite lookup_app_r, Nat.sub_diag by done|].
    intros j v Hj Hne. apply (HO j v); [|done]. revert Hj. destruct (decide (j < length l1)%nat); [by rewrite !lookup_app_l|].
    rewrite !lookup_app_r by lia. by destruct (j - length l1)%nat eqn:E; [lia|].
  - assert (~ P y) as Hy.
    { specialize (HO (length l1) (y :: u)). rewrite lookup_app_r, Nat.sub_diag in HO by done. specialize (HO eq_refl (not_eq_sym Hi)).
      by apply list.Forall_cons in HO as [? _]. }
    rewrite filter_cons_False by done. apply IH.
    + revert Ht. destruct (decide (i < length l1)%nat); [by rewrite !lookup_app_l|].
      rewrite !lookup_app_r by lia. by destruct (i - length l1)%nat eqn:E; [lia|].
    + intros j v Hj Hne. destruct (decide (j = length l1)) as [->|Hjl].
      * rewrite lookup_app_r, Nat.sub_diag in Hj by done. injection Hj as <-.
        specialize (HO (length l1) (y :: u)). rewrite lookup_app_r, Nat.sub_diag in HO by done. specialize (HO eq_refl Hne).
        by apply list.Forall_cons in HO as [_ ?].
      * apply (HO j v); [|done]. revert Hj. destruct (decide (j < length l1)%nat); [by rewrite !lookup_app_l|].
        rewrite !lookup_app_r by lia. by destruct (j - length l1)%nat eqn:E; [lia|].
Qed.
Lemma interleave_none {A} (P : A -> Prop) `{!forall x, Decision (P x)} (ts : list (list A)) tr :
  interleave ts tr -> (forall t x, t ∈ ts -> x ∈ t -> ~ P x) -> filter P tr = [].
Proof.
  intros HI HO. destruct (filter P tr) as [|x l] eqn:E; [done|].
  assert (x ∈ filter P tr) as Hx by (rewrite E; left). apply list_elem_of_filter in Hx as [HP Hx].
  destruct (interleave_elem ts tr x HI Hx) as (t & Ht & Hxt). by destruct (HO t x Ht Hxt).
Qed.

(** ** Memory *)
(** A PE of the job and an address *)
Definition loc : Type := Z * Z.
Inductive mstep := Copy (dst src : loc) | Red (dst x y : loc).
Definition st_dst (s : mstep) : loc := match s with Copy d _ | Red d _ _ => d end.
Definition st_src (s : mstep) : list loc := match s with Copy _ a => [a] | Red _ x y => [x; y] end.

Section Mem.
Context {V : Type} (op : V -> V -> V).
Definition mem : Type := loc -> V.
Definition value (m : mem) (s : mstep) : V := match s with Copy _ a => m a | Red _ x y => op (m x) (m y) end.
Definition run_step (m : mem) (s : mstep) : mem := fun l => if bool_decide (l = st_dst s) then value m s else m l.
Definition run (tr : list mstep) (m : mem) : mem := foldl run_step m tr.

(** No step reads what a step for another location writes. *)
Definition flat (tr : list mstep) : Prop := forall s s', s ∈ tr -> s' ∈ tr -> st_dst s ∈ st_src s' -> st_dst s = st_dst s'.

Lemma value_ext m m' s : (forall l, l ∈ st_src s -> m l = m' l) -> value m s = value m' s.
Proof. intros H. destruct s; cbn in *; [apply H; left|f_equal; apply H; [left|right; left]]. Qed.

Lemma run_flat_aux tr l (m m' : mem) : flat tr -> m l = m' l -> (forall s a, s ∈ tr -> st_dst s = l -> a ∈ st_src s -> m a = m' a) ->
  run tr m l = run (filter (fun s => st_dst s = l) tr) m' l.
Proof.
  revert m m'. induction tr as [|s tr IH]; intros m m' HF Hl Ha; [done|].
  assert (flat tr) as HF' by (intros a b Hxa Hxb; apply HF; by right). cbn [run foldl]. rewrite filter_cons. destruct (decide (st_dst s = l)) as [E|E].
  - cbn [run foldl]. apply IH; [done| |].
    + unfold run_step. rewrite E, bool_decide_true by done. apply value_ext. intros a Hs. by apply (Ha s); [left|..].
    + intros s' a Hs' Hd Hs. unfold run_step. rewrite E. case_bool_decide; [|by apply (Ha s'); [right|..]].
      apply value_ext. intros b Hb. by apply (Ha s); [left|..].
  - apply IH; [done| |].
    + unfold run_step. by rewrite bool_decide_false by done.
    + intros s' a Hs' Hd Hs. unfold run_step. rewrite bool_decide_false; [by apply (Ha s'); [right|..]|].
      intros ->. apply E. rewrite <- Hd. apply HF; [left|by right|done].
Qed.
(** What a location holds after the phase *)
Lemma run_flat tr m l : flat tr -> run tr m l = run (filter (fun s => st_dst s = l) tr) m l.
Proof. intros HF. by apply run_flat_aux. Qed.
Lemma run_skip tr m l : (forall s, s ∈ tr -> st_dst s <> l) -> run tr m l = m l.
Proof.
  revert m. induction tr as [|s tr IH]; intros m H; [done|]. change (run (s :: tr) m) with (run tr (run_step m s)). rewrite IH by (intros s' Hs'; apply H; by right).
  unfold run_step. rewrite bool_decide_false; [done|]. intros E. by destruct (H s); [left|].
Qed.

(** The steps of one task among others *)
Lemma run_task ts tr m l i t : interleave ts tr -> flat tr -> ts !! i = Some t ->
  (forall j u s, ts !! j = Some u -> j <> i -> s ∈ u -> st_dst s <> l) ->
  run tr m l = run (filter (fun s => st_dst s = l) t) m l.
Proof.
  intros HI HF Ht HO. rewrite (run_flat tr m l HF). erewrite (interleave_filter (fun s => st_dst s = l) ts tr i t HI Ht); [done|].
  intros j u Hj Hne. rewrite Forall_forall. intros s Hs. apply list_elem_of_In in Hs. by apply (HO j u).
Qed.
Lemma run_untouched ts tr m l : interleave ts tr -> (forall t s, t ∈ ts -> s ∈ t -> st_dst s <> l) -> run tr m l = m l.
Proof. intros HI HO. apply run_skip. intros s Hs. destruct (interleave_elem ts tr s HI Hs) as (t & Ht & Hst). by apply (HO t). Qed.
End Mem.

(** ** Programs *)
(** What a group of threads of a PE does: put [n] elements to a PE, or
    [gpu_linear_reduce_threadgroup]: [z\[i\] = op x\[i\] y\[i\]] *)
Inductive action := APut (pe dest source n : Z) | AReduce (x y z n : Z).
(** [ISync] is [nvshmemi_barrier_threadgroup] or [nvshmemi_sync_threadgroup]. *)
Inductive instr := IAct (a : action) | ISync.

Fixpoint phases (p : list instr) : list (list action) :=
  match p with
  | [] => [[]]
  | ISync :: p => [] :: phases p
  | IAct a :: p => match phases p with [] => [[a]] | l :: ls => (a :: l) :: ls end
  end.

Section Tasks.
Context (groupSize : Z).
(** A put is delivered element by element. *)
Definition put_tasks (me : Z) (a : action) : list (list mstep) :=
  match a with APut pe d s n => (fun e => [Copy (pe, d + e) (me, s + e)]) <$> seqZ 0 n | AReduce _ _ _ _ => [] end.
(** The share of thread [myIdx] in the reductions *)
Definition thread_steps (me myIdx : Z) (a : action) : list mstep :=
  match a with
  | APut _ _ _ _ => []
  | AReduce x y z n => (fun i => Red (me, z + i) (me, x + i) (me, y + i)) <$> strides myIdx n groupSize
  end.
Definition pe_tasks (me : Z) (acts : list action) : list (list mstep) :=
  (acts ≫= put_tasks me) ++ ((fun t => acts ≫= thread_steps me t) <$> seqZ 0 groupSize).
(** All PEs: [prog] gives the actions of each *)
Definition phase_tasks (pes : list Z) (prog : Z -> list action) : list (list mstep) := pes ≫= fun me => pe_tasks me (prog me).

(** The effects a whole program can have: one interleaving for each phase *)
Context {V : Type} (op : V -> V -> V).
Fixpoint executes (n : nat) (pes : list Z) (prog : Z -> list (list action)) (m m' : mem (V := V)) : Prop :=
  match n with
  | O => forall l, m l = m' l
  | S n => exists tr, interleave (phase_tasks pes (fun me => hd [] (prog me))) tr /\ executes n pes (fun me => tl (prog me)) (run op tr m) m'
  end.
End Tasks.
End CollMem.
