(* ===== verification/CollPhase.v ===== *)
(** * What a phase of a collective leaves in memory

    Puts that reach distinct locations, and reductions of each PE into one
    range, as the lemmas on collectives need them: the value each location has
    at the end of the phase, whatever the interleaving. *)
From stdpp Require Import base list option.
From Stdlib Require Import ZArith Lia.
From S2P Require Import Prelude IbgdaQp IbgdaQpSpec CollMem.

Module CollPhase.
Import IbgdaQp IbgdaQpSpec CollMem.

Lemma filter_unique {A} `{EqDecision A} (l : list A) x : NoDup l -> x ∈ l -> filter (fun y => y = x) l = [x].
Proof.
  induction 1 as [|y l Hy Hn IH]; intros Hx; [by apply elem_of_nil in Hx|]. rewrite filter_cons. destruct (decide (y = x)) as [->|E].
  - f_equal. destruct (filter _ l) as [|z r] eqn:F; [done|]. assert (z ∈ filter (fun y => y = x) l) as Hz by (rewrite F; left).
    apply list_elem_of_filter in Hz as [-> Hz]. done.
  - apply IH. apply elem_of_cons in Hx as [->|Hx]; done.
Qed.
Lemma filter_nothing {A} (P : A -> Prop) `{!forall x, Decision (P x)} (l : list A) : (forall x, x ∈ l -> ~ P x) -> filter P l = [].
Proof.
  intros HN. destruct (filter P l) as [|x r] eqn:E; [done|]. assert (x ∈ filter P l) as Hx by (rewrite E; left).
  apply list_elem_of_filter in Hx as [HP Hx]. by destruct (HN x Hx).
Qed.
Lemma strides_nodup t n g : 0 <= t < g -> 0 <= n -> n + g <= 2 ^ 32 -> NoDup (strides t n g).
Proof. intros. apply strided_NoDup; lia. Qed.

Section Phase.
Context (groupSize : Z) (pes : list Z) (prog : Z -> list action).
Context (Hg : 0 < groupSize) (Hpes : NoDup pes).

Lemma elem_phase_tasks t : t ∈ phase_tasks groupSize pes prog <->
  exists me, me ∈ pes /\ ((exists a, a ∈ prog me /\ t ∈ put_tasks me a) \/ exists i, 0 <= i < groupSize /\ t = prog me ≫= thread_steps groupSize me i).
Proof.
  unfold phase_tasks, pe_tasks. rewrite list_elem_of_bind. split.
  - intros (me & Ht & Hme). exists me. split; [done|]. apply elem_of_app in Ht as [Ht|Ht]; [left|right].
    + apply list_elem_of_bind in Ht as (a & Ht & Ha). by exists a.
    + apply list_elem_of_fmap in Ht as (i & -> & Hi). apply elem_of_seqZ in Hi. exists i. split; [lia|done].
  - intros (me & Hme & [(a & Ha & Ht)|(i & Hi & ->)]); exists me; (split; [|done]); apply elem_of_app; [left|right].
    + apply list_elem_of_bind. by exists a.
    + apply list_elem_of_fmap. exists i. split; [done|]. apply elem_of_seqZ. lia.
Qed.
Lemma elem_put_tasks me a t : t ∈ put_tasks me a <-> exists pe d s n e, a = APut pe d s n /\ 0 <= e < n /\ t = [Copy (pe, d + e) (me, s + e)].
Proof.
  destruct a as [pe d s n|x y z n]; cbn [put_tasks]; [|split; [intros H; by apply elem_of_nil in H|intros (?&?&?&?&?&?&?); done]].
  rewrite list_elem_of_fmap. split.
  - intros (e & -> & He). apply elem_of_seqZ in He. exists pe, d, s, n, e. split; [done|]. split; [lia|done].
  - intros (?&?&?&?&e&[= <- <- <- <-]&He&->). exists e. split; [done|]. apply elem_of_seqZ. lia.
Qed.
Lemma elem_thread_steps me t a s : 0 <= t < groupSize -> (forall x y z n, a = AReduce x y z n -> 0 <= n /\ n + groupSize <= 2 ^ 31) ->
  s ∈ thread_steps groupSize me t a <-> exists x y z n i, a = AReduce x y z n /\ 0 <= i < n /\ i mod groupSize = t /\ s = Red (me, z + i) (me, x + i) (me, y + i).
Proof.
  intros Ht Hb. destruct a as [pe d so n|x y z n]; cbn [thread_steps]; [split; [intros H; by apply elem_of_nil in H|intros (?&?&?&?&?&?&?); done]|].
  destruct (Hb x y z n eq_refl) as [Hn Hg2]. rewrite list_elem_of_fmap. split.
  - intros (i & -> & Hi). apply elem_of_strides in Hi; [|lia..]. exists x, y, z, n, i. split_and!; try done; lia.
  - intros (?&?&?&?&i&[= <- <- <- <-]&Hi&Hm&->). exists i. split; [done|]. apply elem_of_strides; lia.
Qed.

(** Sizes within what the loop counters can hold *)
Definition sizes_ok : Prop := forall me x y z n, me ∈ pes -> AReduce x y z n ∈ prog me -> 0 <= n /\ n + groupSize <= 2 ^ 31.
Context (Hsz : sizes_ok).

(** Every step of the phase *)
Lemma elem_phase_steps tr s : interleave (phase_tasks groupSize pes prog) tr -> s ∈ tr ->
  exists me, me ∈ pes /\
   ((exists pe d so n e, APut pe d so n ∈ prog me /\ 0 <= e < n /\ s = Copy (pe, d + e) (me, so + e)) \/
    (exists x y z n i, AReduce x y z n ∈ prog me /\ 0 <= i < n /\ s = Red (me, z + i) (me, x + i) (me, y + i))).
Proof.
  intros HI Hs. destruct (interleave_elem _ _ _ HI Hs) as (t & Ht & Hst). apply elem_phase_tasks in Ht as (me & Hme & [(a & Ha & Ht)|(i & Hi & ->)]); exists me; (split; [done|]).
  - left. apply elem_put_tasks in Ht as (pe & d & so & n & e & -> & He & ->). apply list_elem_of_singleton in Hst as ->. exists pe, d, so, n, e. done.
  - right. apply list_elem_of_bind in Hst as (a & Hst & Ha). apply elem_thread_steps in Hst as (x & y & z & n & j & -> & Hj & _ & ->); [|done|].
    + exists x, y, z, n, j. done.
    + intros x y z n ->. by apply (Hsz me x y z n).
Qed.

Context {V : Type} (op : V -> V -> V).
Lemma run_copies l (m : mem (V := V)) d a : l <> [] -> (forall s, s ∈ l -> s = Copy d a) -> run op l m d = m a.
Proof.
  revert m. induction l as [|s l IH]; intros m Hne Hall; [done|]. rewrite (Hall s) by left. change (run op l (run_step op m (Copy d a)) d = m a).
  destruct l as [|s' l]; [cbn; unfold run_step; by rewrite bool_decide_true|]. rewrite IH; [|done|intros x Hx; apply Hall; by right].
  unfold run_step. cbn [st_dst value]. by case_bool_decide.
Qed.
(** A location that one element is put to *)
Lemma put_result tr (m : mem (V := V)) me q d so n e :
  interleave (phase_tasks groupSize pes prog) tr -> flat tr -> me ∈ pes -> APut q d so n ∈ prog me -> 0 <= e < n ->
  (forall me' d' so' n' e', me' ∈ pes -> APut q d' so' n' ∈ prog me' -> 0 <= e' < n' -> d' + e' = d + e -> (me', so' + e') = (me, so + e)) ->
  (forall x y z n' i, q ∈ pes -> AReduce x y z n' ∈ prog q -> 0 <= i < n' -> z + i <> d + e) ->
  run op tr m (q, d + e) = m (me, so + e).
Proof.
  intros HI HF Hme Ha He Hu Hr. rewrite (run_flat op tr m (q, d + e) HF). apply run_copies.
  - intros E. assert (Copy (q, d + e) (me, so + e) ∈ filter (fun s => st_dst s = (q, d + e)) tr) as Hin; [|rewrite E in Hin; by apply elem_of_nil in Hin].
    apply list_elem_of_filter. split; [done|]. eapply (interleave_all _ tr [Copy (q, d + e) (me, so + e)] _ HI); [|left].
    apply elem_phase_tasks. exists me. split; [done|]. left. exists (APut q d so n). split; [done|]. apply elem_put_tasks. by exists q, d, so, n, e.
  - intros s Hs. apply list_elem_of_filter in Hs as [Hd Hs]. destruct (elem_phase_steps tr s HI Hs) as (me' & Hme' & [(pe & d' & so' & n' & e' & Ha' & He' & ->)|(x & y & z & n' & i & Ha' & Hi & ->)]); cbn in Hd; injection Hd as -> Hd.
    + rewrite Hd. f_equal. by apply (Hu me' d' so' n').
    + by destruct (Hr x y z n' i).
Qed.

(** A location that the reductions of its PE write: all of them go to the same
    range, so one thread does them in order *)
Definition reds_at (me z i : Z) (acts : list action) : list mstep :=
  acts ≫= fun a => match a with AReduce x y _ _ => [Red (me, z + i) (me, x + i) (me, y + i)] | APut _ _ _ _ => [] end.
Lemma filter_bind_list {A B} (P : B -> Prop) `{!forall x, Decision (P x)} (f : A -> list B) (l : list A) : filter P (l ≫= f) = l ≫= fun a => filter P (f a).
Proof. induction l as [|a l IH]; [done|]. cbn. by rewrite list.filter_app, IH. Qed.
Lemma filter_fmap_list {A B} (P : B -> Prop) `{!forall x, Decision (P x)} (f : A -> B) (l : list A) : filter P (f <$> l) = f <$> filter (fun a => P (f a)) l.
Proof. induction l as [|a l IH]; [done|]. rewrite fmap_cons, !filter_cons, IH. by destruct (decide (P (f a))). Qed.
Lemma list_bind_eq {A B} (f f' : A -> list B) (l : list A) : (forall a, a ∈ l -> f a = f' a) -> l ≫= f = l ≫= f'.
Proof. induction l as [|a l IH]; intros HE; [done|]. cbn. rewrite HE by left. f_equal. apply IH. intros b Hb. apply HE. by right. Qed.
Lemma filter_thread me z n i : me ∈ pes -> (forall x y z' n', AReduce x y z' n' ∈ prog me -> z' = z /\ n' = n) -> 0 <= i < n ->
  filter (fun s => st_dst s = (me, z + i)) (prog me ≫= thread_steps groupSize me (i mod groupSize)) = reds_at me z i (prog me).
Proof.
  intros Hme Hone Hi. rewrite filter_bind_list. unfold reds_at. apply list_bind_eq. intros a Ha. destruct a as [pe d so k|x y z' n']; [done|].
  destruct (Hone x y z' n' Ha) as [-> ->]. destruct (Hsz me x y z n Hme Ha) as [Hn0 Hn]. pose proof (Z.mod_pos_bound i groupSize Hg).
  cbn [thread_steps]. rewrite filter_fmap_list. rewrite (list_filter_iff _ (fun j => j = i)) by (intros j; cbn; split; [intros [= ?]; lia|intros ->; done]).
  rewrite filter_unique; [done|apply strides_nodup; lia|]. apply elem_of_strides; lia.
Qed.
Lemma reduce_result tr (m : mem (V := V)) me z n i :
  interleave (phase_tasks groupSize pes prog) tr -> flat tr -> me ∈ pes -> (forall x y z' n', AReduce x y z' n' ∈ prog me -> z' = z /\ n' = n) -> 0 <= i < n ->
  (forall me' d so k e, me' ∈ pes -> APut me d so k ∈ prog me' -> 0 <= e < k -> d + e <> z + i) ->
  run op tr m (me, z + i) = run op (reds_at me z i (prog me)) m (me, z + i).
Proof.
  intros HI HF Hme Hone Hi Hp. rewrite <- filter_thread with (n := n) by done. pose proof (Z.mod_pos_bound i groupSize Hg) as Hm.
  apply list_elem_of_split in Hme as HS. destruct HS as (l1 & l2 & El). assert (i mod groupSize ∈ seqZ 0 groupSize) as HT by (apply elem_of_seqZ; lia).
  apply list_elem_of_split in HT as (s1 & s2 & Es).
  set (ts := phase_tasks groupSize pes prog) in *. assert (ts = ((l1 ≫= fun me => pe_tasks groupSize me (prog me)) ++ (prog me ≫= put_tasks me) ++
    ((fun t => prog me ≫= thread_steps groupSize me t) <$> s1)) ++ (prog me ≫= thread_steps groupSize me (i mod groupSize)) ::
    ((fun t => prog me ≫= thread_steps groupSize me t) <$> s2) ++ (l2 ≫= fun me => pe_tasks groupSize me (prog me))) as Ets.
  { unfold ts, phase_tasks. rewrite El, bind_app, bind_cons. unfold pe_tasks at 2. rewrite Es, fmap_app, fmap_cons. by rewrite <- !(assoc_L (++)). }
  set (A := (l1 ≫= _) ++ _ ++ _) in Ets. apply (run_task op ts tr m _ (length A) _ HI HF); [by rewrite Ets, lookup_app_r, Nat.sub_diag by done|].
  assert (NoDup (seqZ 0 groupSize)) as HN by apply NoDup_seqZ. rewrite Es in HN. rewrite El in Hpes.
  assert (forall me' u s, me' ∈ l1 \/ me' ∈ l2 -> u ∈ pe_tasks groupSize me' (prog me') -> s ∈ u -> st_dst s <> (me, z + i)) as HPE.
  { intros me' u s Hm' Hu Hs Hd. assert (me' <> me) as Hne.
    { intros ->. apply list.NoDup_app in Hpes as (_ & HD & HN2). apply list.NoDup_cons in HN2 as [HN2 _]. destruct Hm' as [Hm'|Hm']; [|done]. apply (HD me Hm'). left. }
    assert (me' ∈ pes) as Hin by (rewrite El; apply elem_of_app; destruct Hm'; [by left|right; by right]).
    apply elem_of_app in Hu as [Hu|Hu].
    - apply list_elem_of_bind in Hu as (a & Hu & Ha). apply elem_put_tasks in Hu as (pe & d & so & k & e & -> & He & ->). apply list_elem_of_singleton in Hs as ->.
      cbn in Hd. injection Hd as -> Hd. by apply (Hp me' d so k e).
    - apply list_elem_of_fmap in Hu as (t & -> & Ht). apply elem_of_seqZ in Ht. apply list_elem_of_bind in Hs as (a & Hs & Ha).
      apply elem_thread_steps in Hs as (x & y & z' & n' & j & -> & Hj & _ & ->); [by injection Hd|lia|]. intros x y z' n' ->. by apply (Hsz me' x y z' n'). }
  assert (forall t s, t ∈ s1 \/ t ∈ s2 -> s ∈ prog me ≫= thread_steps groupSize me t -> st_dst s <> (me, z + i)) as HTH.
  { intros t s Ht Hs Hd. assert (t <> i mod groupSize) as Hne.
    { intros ->. apply list.NoDup_app in HN as (_ & HD & HN2). apply list.NoDup_cons in HN2 as [HN2 _]. destruct Ht as [Ht|Ht]; [|done]. apply (HD _ Ht). left. }
    assert (t ∈ seqZ 0 groupSize) as Htz by (rewrite Es; apply elem_of_app; destruct Ht; [by left|right; by right]). apply elem_of_seqZ in Htz.
    apply list_elem_of_bind in Hs as (a & Hs & Ha). apply elem_thread_steps in Hs as (x & y & z' & n' & j & -> & Hj & Hjm & ->); [|lia|intros x y z' n' ->; by apply (Hsz me x y z' n')].
    destruct (Hone x y z' n' Ha) as [-> ->]. injection Hd as Hd. apply Hne. rewrite <- Hjm. f_equal. lia. }
  intros j u s Hj Hne Hs. rewrite Ets in Hj. destruct (decide (j < length A)%nat) as [Hlt|Hge].
  - rewrite lookup_app_l in Hj by done. apply list_elem_of_lookup_2 in Hj. unfold A in Hj. apply elem_of_app in Hj as [Hj|Hj].
    + apply list_elem_of_bind in Hj as (me' & Hj & Hm'). apply (HPE me' u); [by left|done|done].
    + apply elem_of_app in Hj as [Hj|Hj].
      * apply list_elem_of_bind in Hj as (a & Hj & Ha). apply elem_put_tasks in Hj as (pe & d & so & k & e & -> & He & ->). apply list_elem_of_singleton in Hs as ->.
        cbn. intros [= -> Hd]. by apply (Hp me d so k e).
      * apply list_elem_of_fmap in Hj as (t & -> & Ht). apply (HTH t); [by left|done].
  - rewrite lookup_app_r in Hj by lia. destruct (j - length A)%nat as [|j'] eqn:Ej; [lia|]. cbn in Hj. apply list_elem_of_lookup_2 in Hj.
    apply elem_of_app in Hj as [Hj|Hj].
    + apply list_elem_of_fmap in Hj as (t & -> & Ht). apply (HTH t); [by right|done].
    + apply list_elem_of_bind in Hj as (me' & Hj & Hm'). apply (HPE me' u); [by right|done|done].
Qed.
End Phase.
End CollPhase.
