(* ===== verification/CollReduce.v ===== *)
(** * Reductions by segments, and reduce-scatter

    [gpu_rdxn_segment_threadgroup], [perform_gpu_rdxn] of
    src/src/include/non_abi/device/coll/reduce.cuh and
    [nvshmemi_reducescatter_allpush_threadgroup] of reducescatter.cuh.  PEs are
    named by their index in the team, which the team's map takes to PEs of the
    job one to one ([Team]); addresses are counted in elements.  Message sizes
    are below 2 GiB elements, so that products of 64 bits do not wrap. *)
From stdpp Require Import base list option.
From Stdlib Require Import ZArith Lia.
From S2P Require Import Prelude IbgdaQp IbgdaQpSpec CollMem CollPhase.

Module CollReduce.
Import IbgdaQp IbgdaQpSpec CollMem CollPhase.

(** [perform_gpu_rdxn] at an integer type of [w] bits; the value of a signed
    type is the number it stands for *)
Inductive rdxn_op := RDXN_OPS_SUM | RDXN_OPS_PROD | RDXN_OPS_AND | RDXN_OPS_OR | RDXN_OPS_XOR | RDXN_OPS_MIN | RDXN_OPS_MAX.
Definition to_type (w : Z) (signed : bool) (x : Z) : Z :=
  if signed then (x + 2 ^ (w - 1)) mod 2 ^ w - 2 ^ (w - 1) else x mod 2 ^ w.
Definition perform_gpu_rdxn (w : Z) (signed : bool) (op : rdxn_op) (op1 op2 : Z) : Z :=
  match op with
  | RDXN_OPS_SUM => to_type w signed (op1 + op2)
  | RDXN_OPS_PROD => to_type w signed (op1 * op2)
  | RDXN_OPS_AND => Z.land op1 op2
  | RDXN_OPS_OR => Z.lor op1 op2
  | RDXN_OPS_XOR => Z.lxor op1 op2
  | RDXN_OPS_MIN => if bool_decide (op1 < op2) then op1 else op2
  | RDXN_OPS_MAX => if bool_decide (op1 > op2) then op1 else op2
  end.

(** [nvshmemi_team_translate_pe_to_team_world_wrap], up to the team's map *)
Definition wrap_pe (size i : Z) : Z := i mod size.

(** ** Segments *)
Section Segment.
Context (size my_pe : Z).
(** One exchange: a block of [cnt] elements at [src] goes to the [k] PEs from
    distance [a] on, each into its slot of the work space; after the barrier
    the blocks received are reduced into [dst]. *)
Definition exchange (tmp src dst cnt a k : Z) : list instr :=
  ((fun r => IAct (APut (wrap_pe size (my_pe + (a + r))) (tmp + r * cnt) src cnt)) <$> seqZ 0 k) ++ [ISync] ++
  ((fun r => IAct (AReduce dst (tmp + r * cnt) dst cnt)) <$> seqZ 0 k) ++ [ISync].
(** [do ... while (pe_offset < size)] *)
Fixpoint rest_rounds (fuel : nat) (tmp src dst cnt pes_per_round pe_offset : Z) : outcome (list instr) :=
  match fuel with
  | O => Fail FSpin
  | S fuel =>
      let round := Z.max 0 (Z.min pes_per_round (size - pe_offset)) in
      rest ← (if bool_decide (pe_offset + round < size) then rest_rounds fuel tmp src dst cnt pes_per_round (pe_offset + round) else Ret []);
      Ret (exchange tmp src dst cnt pe_offset round ++ rest)
  end.
(** [gpu_rdxn_segment_threadgroup]; [sizeof] is sizeof(TYPE) *)
Definition gpu_rdxn_segment_threadgroup (sizeof reduce_scratch_size dest source pWrk nelems : Z) : outcome (list instr) :=
  let msg_len := nelems * sizeof in
  let seg_size := reduce_scratch_size / 2 / 8 in
  rnds_floor ← udiv msg_len seg_size;
  remainder ← umod msg_len seg_size;
  let cnt := seg_size / sizeof in
  let offset := rnds_floor * cnt in
  rest ← (if bool_decide (remainder = 0) then Ret []
          else pes_per_round ← udiv seg_size remainder;
               rest_rounds (Z.to_nat size) pWrk (source + offset) (dest + offset) (remainder / sizeof) pes_per_round 1);
  Ret ([IAct (APut my_pe dest source nelems)] ++
       (seqZ 0 rnds_floor ≫= fun j => seqZ 1 (size - 1) ≫= fun i => exchange pWrk (source + j * cnt) (dest + j * cnt) cnt i 1) ++
       rest).
(** [gpu_rdxn_on_demand] and [gpu_rdxn_on_demand_2], by a single thread: the
    whole array to one PE after the other *)
Definition gpu_rdxn_on_demand (dest source tmp_operand nelems : Z) : list instr :=
  [IAct (APut my_pe dest source nelems)] ++
  (seqZ 1 (size - 1) ≫= fun i =>
     [IAct (APut (wrap_pe size (my_pe + i)) tmp_operand source nelems); ISync; IAct (AReduce dest tmp_operand dest nelems); ISync]).
End Segment.

(** ** Reduce-scatter *)
(** The operands of the reduction number [pe] *)
Definition rs_operands (my_pe pe dest source pWrk nreduce : Z) : Z * Z :=
  if bool_decide (pe = 1) then
    if bool_decide (my_pe = 0) then (source, pWrk + nreduce)
    else if bool_decide (my_pe = 1) then (pWrk, source + nreduce)
    else (pWrk, pWrk + nreduce)
  else (dest, if bool_decide (pe = my_pe) then source + pe * nreduce else pWrk + pe * nreduce).
(** [nvshmemi_reducescatter_allpush_threadgroup] *)
Definition nvshmemi_reducescatter_allpush_threadgroup (size my_pe sizeof reduce_scratch_size dest source pWrk nreduce : Z) : outcome (list instr) :=
  if bool_decide (size = 1) then Ret [IAct (APut my_pe dest source nreduce)]
  else
    cassert (negb (bool_decide (nreduce * sizeof * size * 2 > reduce_scratch_size)));;
    Ret (((fun i => let peer_pe_idx := (my_pe + i) mod size in
             IAct (APut peer_pe_idx (pWrk + my_pe * nreduce) (source + peer_pe_idx * nreduce) nreduce)) <$> seqZ 1 (size - 1)) ++
         [ISync] ++
         ((fun pe => let '(op1, op2) := rs_operands my_pe pe dest source pWrk nreduce in IAct (AReduce op1 op2 dest nreduce)) <$> seqZ 1 (size - 1))).
End CollReduce.
