(* ===== verification/CollReduceSpec.v ===== *)
(** * What the reductions compute

    Every interleaving of [gpu_rdxn_segment_threadgroup] and of
    [nvshmemi_reducescatter_allpush_threadgroup] leaves the reduction of all
    contributions in the destination of every PE. *)
From stdpp Require Import base list option.
From Stdlib Require Import ZArith Lia.
From S2P Require Import Prelude IbgdaQp IbgdaQpSpec CollMem CollPhase CollReduce.

Module CollReduceSpec.
Import IbgdaQp IbgdaQpSpec CollMem CollPhase CollReduce.

(** ** Phases of a program *)
Lemma phases_acts acts p : phases ((IAct <$> acts) ++ ISync :: p) = acts :: phases p.
Proof. induction acts as [|a acts IH]; [done|]. cbn. by rewrite IH. Qed.
Lemma phases_end acts : phases (IAct <$> acts) = [acts].
Proof. induction acts as [|a acts IH]; [done|]. cbn. by rewrite IH. Qed.
Lemma phases_cons a p : phases (IAct a :: p) = match phases p with [] => [[a]] | l :: ls => (a :: l) :: ls end.
Proof. done. Qed.

(** Every program has an execution. *)
Lemma interleave_exists {A} (ts : list (list A)) : exists tr, interleave ts tr.
Proof.
  assert (forall (done ts : list (list A)), Forall (fun t => t = []) done -> exists tr, interleave (done ++ ts) tr) as H; [|by apply (H [])].
  intros dn us. revert dn. induction us as [|t us IH]; intros dn HF; [exists []; constructor; by rewrite app_nil_r|].
  induction t as [|x t IHt].
  - destruct (IH (dn ++ [[]])) as [tr Htr]; [apply Forall_app; by split; [|constructor]|]. exists tr. by rewrite <- (assoc_L (++)) in Htr.
  - destruct IHt as [tr Htr]. exists (x :: tr). by constructor.
Qed.
Lemma executes_exists {V} (op : V -> V -> V) g n pes prog m : exists m', executes g op n pes prog m m'.
Proof.
  revert prog m. induction n as [|n IH]; intros prog m; [by exists m|]. destruct (interleave_exists (phase_tasks g pes (fun me => hd [] (prog me)))) as [tr Htr].
  destruct (IH (fun me => tl (prog me)) (run op tr m)) as [m' Hm']. exists m', tr. done.
Qed.

Lemma executes_ext {V} (op : V -> V -> V) g k pes prog prog' m m' : (forall me, prog me = prog' me) ->
  executes g op k pes prog m m' -> executes g op k pes prog' m m'.
Proof.
  revert prog prog' m. induction k as [|k IH]; intros prog prog' m HP HE; [done|]. destruct HE as (tr & HI & HE). exists tr. split.
  - unfold phase_tasks in *. erewrite (list_bind_eq _ _ pes) by (intros me _; by rewrite <- HP). done.
  - apply (IH (fun me => tl (prog me))); [|done]. intros me. by rewrite HP.
Qed.

(** ** Rounds *)
(** [cnt] elements from [off] on, to the [k] PEs from distance [a] on *)
Record round := MkRound { rd_off : Z; rd_cnt : Z; rd_a : Z; rd_k : Z }.
Section Rounds.
Context {V : Type} (op : V -> V -> V) (g n nelems dest source tmp room : Z).
Context (Hg : 0 < g) (Hn : 0 < n) (Hlen : 0 <= nelems) (Hsz : nelems + g <= 2 ^ 31).
(** The areas do not overlap. *)
Definition apart (a la b lb : Z) : Prop := a + la <= b \/ b + lb <= a.
Context (Hds : apart dest nelems source nelems) (Hdt : apart dest nelems tmp room) (Hst : apart source nelems tmp room).

Definition round_ok (r : round) : Prop :=
  0 <= rd_off r /\ 0 <= rd_cnt r /\ rd_off r + rd_cnt r <= nelems /\ 1 <= rd_a r /\ 0 <= rd_k r /\ rd_a r + rd_k r <= n /\ rd_k r * rd_cnt r <= room.
Definition puts (me : Z) (r : round) : list action :=
  (fun i => APut (wrap_pe n (me + (rd_a r + i))) (tmp + i * rd_cnt r) (source + rd_off r) (rd_cnt r)) <$> seqZ 0 (rd_k r).
Definition reds (r : round) : list action :=
  (fun i => AReduce (dest + rd_off r) (tmp + i * rd_cnt r) (dest + rd_off r) (rd_cnt r)) <$> seqZ 0 (rd_k r).
Definition round_instrs (me : Z) (r : round) : list instr :=
  exchange n me tmp (source + rd_off r) (dest + rd_off r) (rd_cnt r) (rd_a r) (rd_k r).
Lemma round_instrs_eq me r : round_instrs me r = (IAct <$> puts me r) ++ ISync :: (IAct <$> reds r) ++ [ISync].
Proof. unfold round_instrs, exchange, puts, reds. by rewrite <- !list_fmap_compose. Qed.
Lemma phases_rounds me rs : phases (rs ≫= round_instrs me) = (rs ≫= fun r => [puts me r; reds r]) ++ [[]].
Proof.
  induction rs as [|r rs IH]; [done|]. rewrite bind_cons, round_instrs_eq, <- (assoc_L (++)). cbn [app]. rewrite phases_acts, <- (assoc_L (++)). cbn [app].
  rewrite phases_acts, IH. done.
Qed.
Lemma elem_puts me r pe d so k : APut pe d so k ∈ puts me r <->
  exists i, 0 <= i < rd_k r /\ pe = wrap_pe n (me + (rd_a r + i)) /\ d = tmp + i * rd_cnt r /\ so = source + rd_off r /\ k = rd_cnt r.
Proof.
  unfold puts. rewrite list_elem_of_fmap. split.
  - intros (i & [= -> -> -> ->] & Hi). apply elem_of_seqZ in Hi. exists i. split; [lia|done].
  - intros (i & Hi & -> & -> & -> & ->). exists i. split; [done|]. apply elem_of_seqZ. lia.
Qed.
Lemma no_red_in_puts me r x y z k : ~ AReduce x y z k ∈ puts me r.
Proof. unfold puts. rewrite list_elem_of_fmap. by intros (i & [=] & _). Qed.

(** The phase of the puts; [self] for the copy of the own contribution that the
    first phase also makes *)
Definition self_put (self : bool) (me : Z) : list action := if self then [APut me dest source nelems] else [].
Definition put_phase (self : bool) (r : option round) (me : Z) : list action :=
  self_put self me ++ match r with Some r => puts me r | None => [] end.

Definition opt_ok (r : option round) : Prop := match r with Some r => round_ok r | None => True end.
Lemma elem_put_phase self r me pe d so k : APut pe d so k ∈ put_phase self r me <->
  (self = true /\ pe = me /\ d = dest /\ so = source /\ k = nelems) \/ (exists r', r = Some r' /\ APut pe d so k ∈ puts me r').
Proof.
  unfold put_phase, self_put. rewrite elem_of_app. destruct self, r as [r|]; rewrite ?list_elem_of_singleton, ?elem_of_nil; naive_solver.
Qed.
Lemma no_red_in_phase self r me x y z k : ~ AReduce x y z k ∈ put_phase self r me.
Proof.
  unfold put_phase, self_put. rewrite elem_of_app. intros [H|H]; [destruct self; [by apply list_elem_of_singleton in H|by apply elem_of_nil in H]|].
  destruct r as [r|]; [by apply no_red_in_puts in H|by apply elem_of_nil in H].
Qed.
(** Puts write the destination and the work space and read the source. *)
Lemma put_phase_areas self r me pe d so k e : opt_ok r -> APut pe d so k ∈ put_phase self r me -> 0 <= e < k ->
  (exists x, 0 <= x < nelems /\ so + e = source + x) /\
  ((self = true /\ pe = me /\ exists x, 0 <= x < nelems /\ d + e = dest + x /\ so + e = source + x) \/ exists x, 0 <= x < room /\ d + e = tmp + x).
Proof.
  intros Hr Ha He. apply elem_put_phase in Ha as [(? & -> & -> & -> & ->)|(r' & -> & Ha)].
  - split; [by exists e|]. left. split_and!; [done|done|]. by exists e.
  - apply elem_puts in Ha as (i & Hi & -> & -> & -> & ->). destruct Hr as (? & ? & ? & ? & ? & ? & ?).
    split; [exists (rd_off r' + e); lia|]. right. exists (i * rd_cnt r' + e). nia.
Qed.
Lemma put_phase_sizes self r : sizes_ok g (seqZ 0 n) (put_phase self r).
Proof. intros me x y z k _ H. by apply no_red_in_phase in H. Qed.
Lemma put_phase_flat self r tr : opt_ok r -> interleave (phase_tasks g (seqZ 0 n) (put_phase self r)) tr -> flat tr.
Proof.
  intros Hr HI s s' Hs Hs' Hin.
  destruct (elem_phase_steps g (seqZ 0 n) (put_phase self r) (put_phase_sizes self r) tr s HI Hs) as (me & _ & [(pe & d & so & k & e & Ha & He & ->)|(x & y & z & k & i & Ha & _)]); [|by apply no_red_in_phase in Ha].
  destruct (elem_phase_steps g (seqZ 0 n) (put_phase self r) (put_phase_sizes self r) tr s' HI Hs') as (me' & _ & [(pe' & d' & so' & k' & e' & Ha' & He' & ->)|(x & y & z & k' & i & Ha' & _)]); [|by apply no_red_in_phase in Ha'].
  cbn in Hin. apply list_elem_of_singleton in Hin. injection Hin as -> Hin.
  destruct (put_phase_areas self r me me' d so k e Hr Ha He) as [_ HD]. destruct (put_phase_areas self r me' pe' d' so' k' e' Hr Ha' He') as [(x & Hx & Ex) _].
  exfalso. unfold apart in *. destruct HD as [(_ & _ & y & Hy & Ey & _)|(y & Hy & Ey)]; lia.
Qed.
Lemma seqZ_pe q : q ∈ seqZ 0 n <-> 0 <= q < n.
Proof. rewrite elem_of_seqZ. lia. Qed.
Lemma put_phase_untouched self r tr (m : mem (V := V)) q a : opt_ok r -> interleave (phase_tasks g (seqZ 0 n) (put_phase self r)) tr ->
  (self = true -> forall x, 0 <= x < nelems -> a <> dest + x) -> (forall x, 0 <= x < room -> a <> tmp + x) -> run op tr m (q, a) = m (q, a).
Proof.
  intros Hr HI HD HT. apply run_skip. intros s Hs.
  destruct (elem_phase_steps g (seqZ 0 n) (put_phase self r) (put_phase_sizes self r) tr s HI Hs) as (me & _ & [(pe & d & so & k & e & Ha & He & ->)|(x & y & z & k & i & Ha & _)]); [|by apply no_red_in_phase in Ha].
  cbn. intros [= -> <-]. destruct (put_phase_areas self r me q d so k e Hr Ha He) as [_ [(? & _ & y & Hy & Ey & _)|(y & Hy & Ey)]]; [by apply (HD ltac:(done) y)|by apply (HT y)].
Qed.
Lemma wrap_inv me s q : 0 <= me < n -> q = wrap_pe n (me + s) -> me = (q - s) mod n.
Proof. intros Hme ->. unfold wrap_pe. rewrite Zminus_mod_idemp_l. replace (me + s - s) with me by lia. by rewrite Z.mod_small. Qed.
Lemma put_phase_ok self r tr (m : mem (V := V)) : opt_ok r -> interleave (phase_tasks g (seqZ 0 n) (put_phase self r)) tr ->
  let m' := run op tr m in
  (forall q e, 0 <= e < nelems -> m' (q, source + e) = m (q, source + e)) /\
  (forall q e, 0 <= q < n -> 0 <= e < nelems -> m' (q, dest + e) = if self then m (q, source + e) else m (q, dest + e)) /\
  (forall r' q i e, r = Some r' -> 0 <= q < n -> 0 <= i < rd_k r' -> 0 <= e < rd_cnt r' ->
    m' (q, tmp + i * rd_cnt r' + e) = m ((q - (rd_a r' + i)) mod n, source + (rd_off r' + e))).
Proof.
  intros Hr HI m'. pose proof (put_phase_flat self r tr Hr HI) as HF. unfold apart in *. split_and!.
  - intros q e He. apply (put_phase_untouched self r); [done|done|intros _ x Hx; lia|intros x Hx; lia].
  - intros q e Hq He. destruct self; [|apply (put_phase_untouched false r); [done|done|done|intros x Hx; lia]].
    apply (put_result g (seqZ 0 n) (put_phase true r) (put_phase_sizes true r) op tr m q q dest source nelems e); [done|done|by apply seqZ_pe| |done| |].
    + apply elem_put_phase. left. done.
    + intros me' d' so' n' e' Hme Ha He' E. destruct (put_phase_areas true r me' q d' so' n' e' Hr Ha He') as [_ [(_ & <- & y & Hy & Ey & Ey')|(y & Hy & Ey)]]; [|lia].
      f_equal. lia.
    + intros x y z n' i _ Ha. by apply no_red_in_phase in Ha.
  - intros r' q i e -> Hq Hi He. assert (round_ok r') as (H1 & H2 & H3 & H4 & H5 & H6 & H7) by done.
    set (me := (q - (rd_a r' + i)) mod n). assert (0 <= me < n) as Hme by (apply Z.mod_pos_bound; lia).
    assert (q = wrap_pe n (me + (rd_a r' + i))) as Eq.
    { unfold wrap_pe, me. rewrite Zplus_mod_idemp_l. replace (q - (rd_a r' + i) + (rd_a r' + i)) with q by lia. by rewrite Z.mod_small. }
    replace (source + (rd_off r' + e)) with (source + rd_off r' + e) by lia.
    apply (put_result g (seqZ 0 n) (put_phase self (Some r')) (put_phase_sizes self (Some r')) op tr m me q (tmp + i * rd_cnt r') (source + rd_off r') (rd_cnt r') e); [done|done|by apply seqZ_pe| |done| |].
    + apply elem_put_phase. right. exists r'. split; [done|]. apply elem_puts. by exists i.
    + intros me' d' so' n' e' Hme' Ha He' E. apply seqZ_pe in Hme'. apply elem_put_phase in Ha as [(_ & -> & -> & -> & ->)|(r2 & [= <-] & Ha)]; [nia|].
      apply elem_puts in Ha as (i' & Hi' & Eq' & -> & -> & ->). assert (i' = i) as -> by nia. f_equal; [|nia].
      rewrite (wrap_inv me' (rd_a r' + i) q) by done. done.
    + intros x y z n' j _ Ha. by apply no_red_in_phase in Ha.
Qed.

(** The phase of the reductions *)
Lemma elem_reds r x y z k : AReduce x y z k ∈ reds r <-> exists i, 0 <= i < rd_k r /\ x = dest + rd_off r /\ y = tmp + i * rd_cnt r /\ z = dest + rd_off r /\ k = rd_cnt r.
Proof.
  unfold reds. rewrite list_elem_of_fmap. split.
  - intros (i & [= -> -> -> ->] & Hi). apply elem_of_seqZ in Hi. exists i. split; [lia|done].
  - intros (i & Hi & -> & -> & -> & ->). exists i. split; [done|]. apply elem_of_seqZ. lia.
Qed.
Lemma no_put_in_reds r pe d so k : ~ APut pe d so k ∈ reds r.
Proof. unfold reds. rewrite list_elem_of_fmap. by intros (i & [=] & _). Qed.
Lemma reds_sizes r : round_ok r -> sizes_ok g (seqZ 0 n) (fun _ => reds r).
Proof. intros (? & ? & ? & _) me x y z k _ Hin. apply elem_reds in Hin as (i & _ & _ & _ & _ & ->). lia. Qed.
Lemma reds_step r tr s : round_ok r -> interleave (phase_tasks g (seqZ 0 n) (fun _ => reds r)) tr -> s ∈ tr ->
  exists me i e, 0 <= i < rd_k r /\ 0 <= e < rd_cnt r /\ s = Red (me, dest + rd_off r + e) (me, dest + rd_off r + e) (me, tmp + i * rd_cnt r + e).
Proof.
  intros Hr HI Hs. destruct (elem_phase_steps g (seqZ 0 n) (fun _ => reds r) (reds_sizes r Hr) tr s HI Hs) as (me & _ & [(pe & d & so & k & e & Ha & _)|(x & y & z & k & e & Ha & He & ->)]); [by apply no_put_in_reds in Ha|].
  apply elem_reds in Ha as (i & Hi & -> & -> & -> & ->). by exists me, i, e.
Qed.
Lemma reds_flat r tr : round_ok r -> interleave (phase_tasks g (seqZ 0 n) (fun _ => reds r)) tr -> flat tr.
Proof.
  intros Hr HI s s' Hs Hs' Hin. destruct (reds_step r tr s Hr HI Hs) as (me & i & e & Hi & He & ->). destruct (reds_step r tr s' Hr HI Hs') as (me' & i' & e' & Hi' & He' & ->).
  cbn in *. destruct Hr as (? & ? & ? & ? & ? & ? & ?). apply elem_of_cons in Hin as [->|Hin]; [done|]. apply list_elem_of_singleton in Hin. injection Hin as -> Hin.
  exfalso. unfold apart in *. nia.
Qed.
Lemma run_reds (m : mem (V := V)) d (ys : list loc) : Forall (fun y => y <> d) ys -> run op ((fun y => Red d d y) <$> ys) m d = foldl op (m d) (m <$> ys).
Proof.
  revert m. induction ys as [|y ys IH]; intros m HF; [done|]. apply list.Forall_cons in HF as [Hy HF].
  change (run op ((fun y => Red d d y) <$> ys) (run_step op m (Red d d y)) d = foldl op (op (m d) (m y)) (m <$> ys)). rewrite IH by done.
  unfold run_step at 1. cbn [st_dst value]. rewrite bool_decide_true by done. f_equal. apply list_fmap_ext. intros j z Hz. unfold run_step. cbn [st_dst].
  rewrite bool_decide_false; [done|]. rewrite list.Forall_lookup in HF. by apply (HF j z).
Qed.
Lemma reds_at_fmap q z e c (f : Z -> Z) (l : list Z) :
  reds_at q z e ((fun i => AReduce z (f i) z c) <$> l) = (fun y => Red (q, z + e) (q, z + e) y) <$> ((fun i => (q, f i + e)) <$> l).
Proof. induction l as [|i l IH]; [done|]. unfold reds_at in *. rewrite !fmap_cons, bind_cons, IH. done. Qed.
Lemma reds_ok r tr (m : mem (V := V)) : round_ok r -> interleave (phase_tasks g (seqZ 0 n) (fun _ => reds r)) tr ->
  let m' := run op tr m in
  (forall q a, (forall x, rd_off r <= x < rd_off r + rd_cnt r -> a <> dest + x) -> m' (q, a) = m (q, a)) /\
  (forall q e, 0 <= q < n -> 0 <= e < rd_cnt r ->
    m' (q, dest + (rd_off r + e)) = foldl op (m (q, dest + (rd_off r + e))) ((fun i => m (q, tmp + i * rd_cnt r + e)) <$> seqZ 0 (rd_k r))).
Proof.
  intros Hr HI m'. pose proof (reds_flat r tr Hr HI) as HF. split.
  - intros q a Ha. apply run_skip. intros s Hs. destruct (reds_step r tr s Hr HI Hs) as (me & i & e & Hi & He & ->). cbn. intros [= -> E].
    apply (Ha (rd_off r + e)); lia.
  - intros q e Hq He. rewrite !(Z.add_assoc dest). unfold m'.
    rewrite (reduce_result g (seqZ 0 n) (fun _ => reds r) Hg (NoDup_seqZ _ _) (reds_sizes r Hr) op tr m q (dest + rd_off r) (rd_cnt r) e HI HF); [|by apply seqZ_pe| |done|].
    + unfold reds. rewrite reds_at_fmap, run_reds; [by rewrite <- list_fmap_compose|]. rewrite list.Forall_forall. intros y Hy.
      apply list_elem_of_fmap in Hy as (i & -> & Hi). apply elem_of_seqZ in Hi. destruct Hr as (? & ? & ? & ? & ? & ? & ?). intros [= E]. unfold apart in *. nia.
    + intros x y z n' Ha. apply elem_reds in Ha as (i & _ & _ & _ & -> & ->). done.
    + intros me' d so k e' _ Ha. by apply no_put_in_reds in Ha.
Qed.

(** ** Sequences of rounds *)
(** The distances element [e] receives from, in order *)
Definition contrib (rs : list round) (e : Z) : list Z :=
  rs ≫= fun r => if bool_decide (rd_off r <= e < rd_off r + rd_cnt r) then seqZ (rd_a r) (rd_k r) else [].
Definition round_phases (me : Z) (rs : list round) : list (list action) := rs ≫= fun r => [puts me r; reds r].
(** The contributions and the partial results *)
Definition holds (m : mem (V := V)) (S D : Z -> Z -> V) : Prop :=
  forall q e, 0 <= q < n -> 0 <= e < nelems -> m (q, source + e) = S q e /\ m (q, dest + e) = D q e.
Definition reduced (S D : Z -> Z -> V) (ds : list Z) (q e : Z) : V := foldl op (D q e) ((fun d => S ((q - d) mod n) e) <$> ds).

Lemma seqZ_shift a k : (fun i => a + i) <$> seqZ 0 k = seqZ a k.
Proof. rewrite fmap_add_seqZ. by rewrite Z.add_0_r. Qed.
(** A round that starts with the work space filled by [put_phase] *)
Lemma reds_holds r tr (m1 : mem (V := V)) S D :
  round_ok r -> (forall q e, 0 <= q < n -> 0 <= e < nelems -> m1 (q, source + e) = S q e) ->
  (forall q e, 0 <= q < n -> 0 <= e < nelems -> m1 (q, dest + e) = D q e) ->
  (forall q i e, 0 <= q < n -> 0 <= i < rd_k r -> 0 <= e < rd_cnt r -> m1 (q, tmp + i * rd_cnt r + e) = S ((q - (rd_a r + i)) mod n) (rd_off r + e)) ->
  interleave (phase_tasks g (seqZ 0 n) (fun _ => reds r)) tr ->
  holds (run op tr m1) S (fun q e => reduced S D (contrib [r] e) q e).
Proof.
  intros Hr HS HD HT HI q e Hq He. destruct (reds_ok r tr m1 Hr HI) as [HU HR]. assert (round_ok r) as (H1 & H2 & H3 & H4 & H5 & H6 & H7) by done. split.
  - rewrite HU; [by apply HS|]. intros x Hx. unfold apart in *. lia.
  - unfold contrib. cbn [mbind list_bind]. rewrite app_nil_r. case_bool_decide as HB.
    + replace e with (rd_off r + (e - rd_off r)) at 1 by lia. rewrite HR by lia. unfold reduced. replace (rd_off r + (e - rd_off r)) with e by lia. rewrite HD by done.
      f_equal. rewrite <- (seqZ_shift (rd_a r)), <- list_fmap_compose. apply list_fmap_ext. intros j i Hi. apply lookup_seqZ in Hi as [-> Hi].
      rewrite HT by lia. cbn. f_equal. lia.
    + rewrite HU; [by apply HD|]. intros x Hx E. apply HB. lia.
Qed.
Lemma reduced_app S D ds ds' q e : reduced S (fun q e => reduced S D (ds e) q e) (ds' e) q e = reduced S D (ds e ++ ds' e) q e.
Proof. unfold reduced. by rewrite fmap_app, foldl_app. Qed.
Lemma rounds_exec rs (m m' : mem (V := V)) S D : Forall round_ok rs -> holds m S D ->
  executes g op (1 + 2 * length rs) (seqZ 0 n) (fun me => round_phases me rs ++ [[]]) m m' ->
  holds m' S (fun q e => reduced S D (contrib rs e) q e).
Proof.
  revert m D. induction rs as [|r rs IH]; intros m D HR HH HE.
  - cbn in HE. destruct HE as (tr & HI & HE). intros q e Hq He. rewrite <- !HE.
    assert (forall a, run op tr m (q, a) = m (q, a)) as HU.
    { intros a. apply run_skip. intros s Hs. destruct (elem_phase_steps g (seqZ 0 n) (fun _ => [])) with (tr := tr) (s := s) as (me & _ & [(pe & d & so & k & x & Ha & _)|(x & y & z & k & i & Ha & _)]); try done;
        [intros me x y z k _ Ha|..]; by apply elem_of_nil in Ha. }
    rewrite !HU. by apply HH.
  - apply list.Forall_cons in HR as [Hr HR]. replace (1 + 2 * length (r :: rs))%nat with (Datatypes.S (Datatypes.S (1 + 2 * length rs))) in HE by (cbn; lia).
    destruct HE as (tr1 & HI1 & tr2 & HI2 & HE). apply (IH (run op tr2 (run op tr1 m)) (fun q e => reduced S D (contrib [r] e) q e)) in HE; [|done|].
    + intros q e Hq He. destruct (HE q e Hq He) as [-> ->]. split; [done|]. rewrite (reduced_app S D (contrib [r]) (contrib rs)). f_equal. unfold contrib.
      cbn [mbind list_bind]. by rewrite app_nil_r.
    + destruct (put_phase_ok false (Some r) tr1 m Hr HI1) as (P1 & P2 & P3). apply reds_holds; [done|..].
      * intros q e Hq He. rewrite P1 by done. by apply HH.
      * intros q e Hq He. rewrite P2 by done. by apply HH.
      * intros q i e Hq Hi He. rewrite (P3 r) by done. assert (0 <= (q - (rd_a r + i)) mod n < n) by (apply Z.mod_pos_bound; lia).
        destruct Hr as (? & ? & ? & ? & ? & ? & ?). apply HH; lia.
      * exact HI2.
Qed.
(** The whole of a segmented reduction *)
Definition segment_instrs (rs : list round) (me : Z) : list instr := IAct (APut me dest source nelems) :: (rs ≫= round_instrs me).
Lemma segment_phases rs me : phases (segment_instrs rs me) =
  match rs with [] => [put_phase true None me] | r :: rs => put_phase true (Some r) me :: reds r :: round_phases me rs ++ [[]] end.
Proof. unfold segment_instrs. rewrite phases_cons, phases_rounds. by destruct rs as [|r rs]. Qed.
Lemma segment_exec rs (m m' : mem (V := V)) S : Forall round_ok rs ->
  (forall q e, 0 <= q < n -> 0 <= e < nelems -> m (q, source + e) = S q e) ->
  executes g op (1 + 2 * length rs) (seqZ 0 n) (fun me => phases (segment_instrs rs me)) m m' ->
  holds m' S (fun q e => reduced S S (contrib rs e) q e).
Proof.
  intros HR HS HE. apply (executes_ext op g _ _ _ (fun me => match rs with [] => [put_phase true None me] | r :: rs => put_phase true (Some r) me :: reds r :: round_phases me rs ++ [[]] end)) in HE; [|intros me; apply segment_phases].
  destruct rs as [|r rs].
  - destruct HE as (tr & HI & HE). intros q e Hq He. rewrite <- !HE. destruct (put_phase_ok true None tr m I HI) as (P1 & P2 & _). by rewrite P1, P2, HS by done.
  - apply list.Forall_cons in HR as [Hr HR]. replace (1 + 2 * length (r :: rs))%nat with (Datatypes.S (Datatypes.S (1 + 2 * length rs))) in HE by (cbn; lia).
    destruct HE as (tr1 & HI1 & tr2 & HI2 & HE). apply (rounds_exec rs (run op tr2 (run op tr1 m)) m' S (fun q e => reduced S S (contrib [r] e) q e)) in HE; [|done|].
    + intros q e Hq He. destruct (HE q e Hq He) as [-> ->]. split; [done|]. rewrite (reduced_app S S (contrib [r]) (contrib rs)). f_equal. unfold contrib.
      cbn [mbind list_bind]. by rewrite app_nil_r.
    + destruct (put_phase_ok true (Some r) tr1 m Hr HI1) as (P1 & P2 & P3). apply reds_holds; [done|..].
      * intros q e Hq He. rewrite P1 by done. by apply HS.
      * intros q e Hq He. rewrite P2 by done. by apply HS.
      * intros q i e Hq Hi He. rewrite (P3 r) by done. assert (0 <= (q - (rd_a r + i)) mod n < n) by (apply Z.mod_pos_bound; lia).
        destruct Hr as (? & ? & ? & ? & ? & ? & ?). apply HS; lia.
      * exact HI2.
Qed.
End Rounds.

(** ** The rounds of the segmented reduction *)
Lemma bind_nil_r' {A B} (l : list A) : (l ≫= fun _ => []) = ([] : list B).
Proof. by induction l. Qed.
Lemma bind_at {A B} (f : A -> list B) (l : list A) x : NoDup l -> x ∈ l -> (forall y, y ∈ l -> y <> x -> f y = []) -> l ≫= f = f x.
Proof.
  induction 1 as [|y l Hy Hn IH]; intros Hx Hf; [by apply elem_of_nil in Hx|]. rewrite bind_cons.
  apply elem_of_cons in Hx as [->|Hx].
  - rewrite (list_bind_eq f (fun _ => []) l), bind_nil_r'; [by rewrite app_nil_r|]. intros z Hz. apply Hf; [by right|]. by intros ->.
  - rewrite (Hf y); [|left|by intros ->]. apply IH; [done|]. intros z Hz. apply Hf. by right.
Qed.
Lemma seqZ_ones a k : (seqZ a k ≫= fun i => seqZ i 1) = seqZ a k.
Proof. generalize (seqZ a k). intros l. induction l as [|i l IH]; [done|]. rewrite bind_cons, IH. done. Qed.

Section SegmentRounds.
Context (n nelems dest source tmp room : Z) (Hn : 0 < n) (Hlen : 0 <= nelems).
Lemma rest_rounds_ok fuel o c ppr a : 0 <= o -> 0 <= c -> o + c <= nelems -> 1 <= a <= n -> 0 < ppr -> ppr * c <= room -> n - a < Z.of_nat fuel ->
  exists rs, (forall me, rest_rounds n me fuel tmp (source + o) (dest + o) c ppr a = Ret (rs ≫= round_instrs n dest source tmp me)) /\
    Forall (round_ok n nelems room) rs /\ Forall (fun r => rd_off r = o /\ rd_cnt r = c) rs /\ (rs ≫= fun r => seqZ (rd_a r) (rd_k r)) = seqZ a (n - a).
Proof.
  intros Ho Hc Hoc. revert a. induction fuel as [|fuel IH]; intros a Ha Hp Hr Hf; [lia|]. set (k := Z.max 0 (Z.min ppr (n - a))).
  assert (round_ok n nelems room (MkRound o c a k)) as HK by (unfold round_ok; cbn; unfold k; repeat split; nia).
  destruct (decide (a + k < n)) as [Hlt|Hge].
  - destruct (IH (a + k)) as (rs & HE & HF & HC & HS); [lia..|]. exists (MkRound o c a k :: rs). split_and!.
    + intros me. cbn [rest_rounds]. fold k. rewrite bool_decide_true by done. by rewrite HE, outcome_bind_ret.
    + by constructor.
    + by constructor.
    + rewrite bind_cons, HS. cbn. rewrite <- seqZ_app by lia. f_equal. lia.
  - exists [MkRound o c a k]. split_and!.
    + intros me. cbn [rest_rounds]. fold k. rewrite bool_decide_false by done. rewrite outcome_bind_ret. cbn [mbind list_bind]. done.
    + by constructor.
    + by constructor.
    + cbn [mbind list_bind rd_a rd_k]. rewrite app_nil_r. f_equal. unfold k in *. lia.
Qed.
Definition full_rounds (rnds c : Z) : list round := seqZ 0 rnds ≫= fun j => (fun i => MkRound (j * c) c i 1) <$> seqZ 1 (n - 1).
Lemma full_rounds_instrs rnds c me : full_rounds rnds c ≫= round_instrs n dest source tmp me =
  seqZ 0 rnds ≫= fun j => seqZ 1 (n - 1) ≫= fun i => exchange n me tmp (source + j * c) (dest + j * c) c i 1.
Proof.
  unfold full_rounds. rewrite bind_bind. apply list_bind_eq. intros j _. generalize (seqZ 1 (n - 1)). intros l. induction l as [|i l IH]; [done|].
  rewrite fmap_cons, !bind_cons, IH. done.
Qed.
End SegmentRounds.
End CollReduceSpec.
