(* ===== verification/CollAllreduce.v ===== *)
(** * All-reduce by segments is correct

    The rounds of [gpu_rdxn_segment_threadgroup] bring every contribution to
    every PE once, so that every execution leaves the reduction of the sources
    of the team in the destination of every PE. *)
From stdpp Require Import base list option.
From Stdlib Require Import ZArith Lia.
From S2P Require Import Prelude IbgdaQp IbgdaQpSpec CollMem CollPhase CollReduce CollReduceSpec.

Module CollAllreduce.
Import IbgdaQp IbgdaQpSpec CollMem CollPhase CollReduce CollReduceSpec.

(** The executions of a collective: [prog] is what each PE of a team of [n] does *)
Definition runs {V} (op : V -> V -> V) (g n : Z) (prog : Z -> list instr) (m m' : mem (V := V)) : Prop :=
  executes g op (length (phases (prog 0))) (seqZ 0 n) (fun me => phases (prog me)) m m'.
Lemma runs_exists {V} (op : V -> V -> V) g n prog m : exists m', runs op g n prog m m'.
Proof. exact (executes_exists op g _ _ _ m). Qed.
(** The reduction of element [e] of the arrays at [a], over the PEs of the team *)
Definition team_reduction {V} (op : V -> V -> V) (n a e : Z) (m : mem (V := V)) : V :=
  foldl op (m (0, a + e)) ((fun pe => m (pe, a + e)) <$> seqZ 1 (n - 1)).

(** ** The rounds cover every element *)
Section Cover.
Context (n nelems G : Z) (Hn : 0 < n) (Hlen : 0 <= nelems) (HG : 0 < G).
Lemma contrib_app rs rs' e : contrib (rs ++ rs') e = contrib rs e ++ contrib rs' e.
Proof. unfold contrib. by rewrite bind_app. Qed.
Lemma contrib_full rnds e : 0 <= rnds -> 0 <= e -> contrib (full_rounds n rnds G) e = if bool_decide (e < rnds * G) then seqZ 1 (n - 1) else [].
Proof.
  intros Hr He. unfold contrib, full_rounds. rewrite bind_bind.
  rewrite (list_bind_eq _ (fun j => if bool_decide (j * G <= e < j * G + G) then seqZ 1 (n - 1) else [])).
  - case_bool_decide as HB.
    + assert (e / G * G <= e < e / G * G + G) as HD by (pose proof (Z.div_mod e G); pose proof (Z.mod_pos_bound e G); lia).
      rewrite (bind_at _ _ (e / G)); [by rewrite bool_decide_true|apply NoDup_seqZ| |].
      * apply elem_of_seqZ. split; [apply Z.div_pos; lia|]. apply Z.div_lt_upper_bound; lia.
      * intros j Hj Hne. rewrite bool_decide_false; [done|]. nia.
    + rewrite (list_bind_eq _ (fun _ => [])); [apply bind_nil_r'|]. intros j Hj. apply elem_of_seqZ in Hj. rewrite bool_decide_false; [done|]. nia.
  - intros j _. case_bool_decide as HB.
    + etransitivity; [|apply seqZ_ones]. generalize (seqZ 1 (n - 1)). intros l. induction l as [|i l IH]; [done|]. rewrite fmap_cons, !bind_cons, IH.
      cbn [rd_off rd_cnt]. by rewrite bool_decide_true.
    + generalize (seqZ 1 (n - 1)). intros l. induction l as [|i l IH]; [done|]. rewrite fmap_cons, bind_cons, IH. cbn [rd_off rd_cnt]. by rewrite bool_decide_false.
Qed.
Lemma contrib_rest rs o c e : Forall (fun r => rd_off r = o /\ rd_cnt r = c) rs ->
  contrib rs e = if bool_decide (o <= e < o + c) then rs ≫= (fun r => seqZ (rd_a r) (rd_k r)) else [].
Proof.
  intros HF. unfold contrib. case_bool_decide as HB.
  - apply list_bind_eq. intros r Hr. rewrite list.Forall_forall in HF. destruct (HF r Hr) as [-> ->]. by rewrite bool_decide_true.
  - rewrite (list_bind_eq _ (fun _ => [])); [apply bind_nil_r'|]. intros r Hr. rewrite list.Forall_forall in HF. destruct (HF r Hr) as [-> ->]. by rewrite bool_decide_false.
Qed.
Lemma full_rounds_ok rnds : 0 <= rnds -> rnds * G <= nelems -> Forall (round_ok n nelems G) (full_rounds n rnds G).
Proof.
  intros Hr Hb. rewrite list.Forall_forall. intros r Hin. apply list_elem_of_bind in Hin as (j & Hin & Hj). apply list_elem_of_fmap in Hin as (i & -> & Hi).
  apply elem_of_seqZ in Hi, Hj. unfold round_ok. cbn. repeat split; nia.
Qed.

(** The program is such a sequence of rounds. *)
Lemma segment_rounds sz scratch dest source tmp : 0 < sz -> scratch / 2 / 8 = G * sz ->
  exists rs, (forall me, gpu_rdxn_segment_threadgroup n me sz scratch dest source tmp nelems = Ret (segment_instrs n nelems dest source tmp rs me)) /\
    Forall (round_ok n nelems G) rs /\ forall e, 0 <= e < nelems -> contrib rs e = seqZ 1 (n - 1).
Proof.
  intros Hs Hseg. pose proof (Z.div_mod nelems G) as HDM. pose proof (Z.mod_pos_bound nelems G HG) as HMB. set (rnds := nelems / G) in *. set (c := nelems mod G) in *.
  assert (0 <= rnds) as Hr by (apply Z.div_pos; lia).
  assert (forall me rest, (if bool_decide (c * sz = 0) then Ret [] else pes ← udiv (G * sz) (c * sz);
      rest_rounds n me (Z.to_nat n) tmp (source + rnds * G) (dest + rnds * G) (c * sz / sz) pes 1) = Ret rest ->
    gpu_rdxn_segment_threadgroup n me sz scratch dest source tmp nelems =
    Ret ([IAct (APut me dest source nelems)] ++ (full_rounds n rnds G ≫= round_instrs n dest source tmp me) ++ rest)) as HP.
  { intros me rest HR. unfold gpu_rdxn_segment_threadgroup. rewrite Hseg. rewrite udiv_ok, outcome_bind_ret, umod_ok, outcome_bind_ret by lia.
    rewrite Z.div_mul_cancel_r, Z.mul_mod_distr_r, Z.div_mul by lia. fold rnds c. rewrite HR, outcome_bind_ret.
    by rewrite full_rounds_instrs. }
  destruct (decide (c = 0)) as [Ec|Ec].
  - exists (full_rounds n rnds G). split_and!.
    + intros me. rewrite (HP me []); [by rewrite app_nil_r|]. rewrite bool_decide_true by lia. done.
    + apply full_rounds_ok; lia.
    + intros e He. rewrite contrib_full, bool_decide_true by lia. done.
  - destruct (rest_rounds_ok n nelems dest source tmp G Hn (Z.to_nat n) (rnds * G) c (G / c) 1) as (rs & HE & HF & HC & HS); [nia|lia|lia|lia| | |lia|].
    { apply Z.div_str_pos. lia. } { pose proof (Z.mul_div_le G c). lia. }
    exists (full_rounds n rnds G ++ rs). split_and!.
    + intros me. rewrite (HP me (rs ≫= round_instrs n dest source tmp me)); [unfold segment_instrs; by rewrite bind_app|].
      rewrite bool_decide_false by nia. rewrite udiv_ok by nia. rewrite outcome_bind_ret, Z.div_mul, Z.div_mul_cancel_r by lia. apply HE.
    + apply Forall_app. split; [apply full_rounds_ok; lia|done].
    + intros e He. rewrite contrib_app, contrib_full, (contrib_rest rs _ _ e HC) by lia. rewrite HS.
      clear HP. case_bool_decide; case_bool_decide; try lia; by rewrite ?app_nil_r.
Qed.
End Cover.

(** ** The reduction *)
Section Allreduce.
Context {V : Type} (op : V -> V -> V) (g n nelems dest source tmp sz scratch : Z).
Definition room : Z := scratch / 2 / 8 / sz.
Context (Hg : 0 < g) (Hn : 0 < n) (Hlen : 0 <= nelems) (Hsz : nelems + g <= 2 ^ 31) (Hs : 0 < sz).
Context (Hseg : (scratch / 2 / 8) mod sz = 0) (Hroom : 0 < room).
Context (Hds : apart dest nelems source nelems) (Hdt : apart dest nelems tmp room) (Hst : apart source nelems tmp room).

Lemma segment_length rs me : length (phases (segment_instrs n nelems dest source tmp rs me)) = (1 + 2 * length rs)%nat.
Proof.
  rewrite segment_phases. destruct rs as [|r l]; [done|]. cbn [length]. rewrite length_app. cbn [length].
  assert (length (round_phases n dest source tmp me l) = 2 * length l)%nat as ->; [|lia]. clear. induction l as [|r l IH]; [done|].
  unfold round_phases in *. rewrite bind_cons, length_app, IH. cbn. lia.
Qed.
(** For any operation: own element first, then the others by their distance *)
Lemma segment_reduces : exists prog,
  (forall me, gpu_rdxn_segment_threadgroup n me sz scratch dest source tmp nelems = Ret (prog me)) /\
  (forall me, length (phases (prog me)) = length (phases (prog 0))) /\
  forall (m m' : mem (V := V)), runs op g n prog m m' -> forall q e, 0 <= q < n -> 0 <= e < nelems ->
    m' (q, source + e) = m (q, source + e) /\
    m' (q, dest + e) = foldl op (m (q, source + e)) ((fun d => m ((q - d) mod n, source + e)) <$> seqZ 1 (n - 1)).
Proof.
  assert (scratch / 2 / 8 = room * sz) as HG by (unfold room; pose proof (Z.div_mod (scratch / 2 / 8) sz); lia).
  destruct (segment_rounds n nelems room Hn Hlen Hroom sz scratch dest source tmp Hs HG) as (rs & HP & HF & HC).
  exists (segment_instrs n nelems dest source tmp rs). assert (forall me, length (phases (segment_instrs n nelems dest source tmp rs me)) = (1 + 2 * length rs)%nat) as HL by apply segment_length.
  split_and!; [done|intros me; by rewrite !HL|]. intros m m' HR q e Hq He. unfold runs in HR. rewrite HL in HR.
  destruct (segment_exec op g n nelems dest source tmp room Hg Hn Hlen Hsz Hds Hdt Hst rs m m' (fun q e => m (q, source + e)) HF) with (q := q) (e := e) as [H1 H2]; try done.
  split; [done|]. rewrite H2. unfold reduced. by rewrite HC.
Qed.

(** The reduction of [gpu_rdxn_on_demand] is that of one segment that holds the
    whole array. *)
Lemma on_demand_instrs me : gpu_rdxn_on_demand n me dest source tmp nelems =
  segment_instrs n nelems dest source tmp ((fun i => MkRound 0 nelems i 1) <$> seqZ 1 (n - 1)) me.
Proof.
  unfold gpu_rdxn_on_demand, segment_instrs. cbn [app]. f_equal. generalize (seqZ 1 (n - 1)). intros l. induction l as [|i l IH]; [done|].
  rewrite fmap_cons, !bind_cons, IH. f_equal. unfold round_instrs, exchange. cbn [rd_off rd_cnt rd_a rd_k].
  change (seqZ 0 1) with [0]. cbn [fmap list_fmap app]. by rewrite !Z.mul_0_l, !Z.add_0_r.
Qed.
Lemma on_demand_reduces : apart dest nelems tmp nelems -> apart source nelems tmp nelems ->
  forall (m m' : mem (V := V)), runs op g n (fun me => gpu_rdxn_on_demand n me dest source tmp nelems) m m' -> forall q e, 0 <= q < n -> 0 <= e < nelems ->
    m' (q, dest + e) = foldl op (m (q, source + e)) ((fun d => m ((q - d) mod n, source + e)) <$> seqZ 1 (n - 1)).
Proof.
  intros Hdt' Hst' m m' HR q e Hq He. set (rs := (fun i => MkRound 0 nelems i 1) <$> seqZ 1 (n - 1)).
  assert (forall me, length (phases (gpu_rdxn_on_demand n me dest source tmp nelems)) = (1 + 2 * length rs)%nat) as HL.
  { intros me. rewrite on_demand_instrs. fold rs. apply segment_length. }
  unfold runs in HR. rewrite HL in HR. apply (executes_ext op g _ _ _ (fun me => phases (segment_instrs n nelems dest source tmp rs me))) in HR; [|intros me; by rewrite on_demand_instrs].
  destruct (segment_exec op g n nelems dest source tmp nelems Hg Hn Hlen Hsz Hds Hdt' Hst' rs m m' (fun q e => m (q, source + e))) with (q := q) (e := e) as [_ H2]; try done.
  - rewrite list.Forall_forall. intros r Hr. apply list_elem_of_fmap in Hr as (i & -> & Hi). apply elem_of_seqZ in Hi. unfold round_ok. cbn. repeat split; lia.
  - rewrite H2. unfold reduced. do 2 f_equal. rewrite (contrib_rest _ 0 nelems).
    + rewrite bool_decide_true by lia. unfold rs. etransitivity; [|apply (seqZ_ones 1 (n - 1))]. generalize (seqZ 1 (n - 1)). intros l. induction l as [|i l IH]; [done|].
      rewrite fmap_cons, !bind_cons, IH. done.
    + rewrite list.Forall_forall. intros r Hr. by apply list_elem_of_fmap in Hr as (i & -> & Hi).
Qed.
End Allreduce.
(** ** Operations that do not depend on the order *)
Section Comm.
Context {V : Type} (op : V -> V -> V) (Ha : Assoc (=) op) (Hc : Comm (=) op).
Lemma foldl_perm l l' : Permutation l l' -> forall x, foldl op x l = foldl op x l'.
Proof using Ha Hc.
  induction 1 as [|y l l' HP IH|y z l|l1 l2 l3 H1 IH1 H2 IH2]; intros x; cbn; [done|apply IH| |by rewrite IH1].
  f_equal. by rewrite <- !(assoc op), (comm op z y).
Qed.
Lemma foldl_perm_cons x l y l' : Permutation (x :: l) (y :: l') -> foldl op x l = foldl op y l'.
Proof using Ha Hc.
  intros HP. assert (y ∈ x :: l) as Hy by (rewrite HP; left). apply elem_of_cons in Hy as [->|Hy].
  - apply foldl_perm. by eapply Permutation.Permutation_cons_inv.
  - apply list.elem_of_Permutation in Hy as [l2 HL]. rewrite HL in HP. rewrite (foldl_perm _ _ HL). cbn. rewrite (comm op x y).
    change (foldl op y (x :: l2) = foldl op y l'). apply foldl_perm. apply (Permutation.Permutation_cons_inv (a := y)). rewrite <- HP. constructor.
Qed.
(** Distances from any PE reach the whole team. *)
Lemma distances_perm n q : 0 < n -> Permutation ((fun d => (q - d) mod n) <$> seqZ 0 n) (seqZ 0 n).
Proof.
  intros Hn. apply NoDup_Permutation.
  - apply NoDup_fmap_2_strong; [|apply NoDup_seqZ]. intros x y Hx Hy E. apply elem_of_seqZ in Hx, Hy.
    apply (f_equal (fun a => (q - a) mod n)) in E. rewrite !Zminus_mod_idemp_r in E. rewrite !Z.mod_small in E; lia.
  - apply NoDup_seqZ.
  - intros x. rewrite list_elem_of_fmap. split.
    + intros (d & -> & _). apply elem_of_seqZ. pose proof (Z.mod_pos_bound (q - d) n Hn). lia.
    + intros Hx. apply elem_of_seqZ in Hx. exists ((q - x) mod n). split; [|apply elem_of_seqZ; pose proof (Z.mod_pos_bound (q - x) n Hn); lia].
      rewrite Zminus_mod_idemp_r. replace (q - (q - x)) with x by lia. by rewrite Z.mod_small by lia.
Qed.
Lemma distances_fold n q (f : Z -> V) : 0 <= q < n -> foldl op (f q) ((fun d => f ((q - d) mod n)) <$> seqZ 1 (n - 1)) = foldl op (f 0) (f <$> seqZ 1 (n - 1)).
Proof using Ha Hc.
  intros Hq. apply foldl_perm_cons. assert (seqZ 0 n = 0 :: seqZ 1 (n - 1)) as ES by (rewrite seqZ_cons by lia; f_equal; f_equal; lia).
  pose proof (distances_perm n q) as HP. rewrite ES in HP. apply (fmap_Permutation f) in HP; [|lia]. rewrite <- list_fmap_compose in HP. rewrite !fmap_cons in HP.
  unfold compose in HP. by rewrite Z.sub_0_r, (Z.mod_small q n) in HP.
Qed.
End Comm.

Lemma to_type_mod w signed x : (to_type w signed x) mod 2 ^ w = x mod 2 ^ w.
Proof. unfold to_type. destruct signed; [|apply Zmod_mod]. rewrite Zminus_mod_idemp_l. f_equal. lia. Qed.
Lemma to_type_ext w signed x y : x mod 2 ^ w = y mod 2 ^ w -> to_type w signed x = to_type w signed y.
Proof. intros E. unfold to_type. destruct signed; [|done]. f_equal. by rewrite <- Zplus_mod_idemp_l, E, Zplus_mod_idemp_l. Qed.
Lemma rdxn_comm w signed o : Comm (=) (perform_gpu_rdxn w signed o).
Proof.
  intros x y. destruct o; cbn; [by rewrite Z.add_comm|by rewrite Z.mul_comm|apply Z.land_comm|apply Z.lor_comm|apply Z.lxor_comm|..];
    repeat case_bool_decide; lia.
Qed.
Lemma rdxn_assoc w signed o : Assoc (=) (perform_gpu_rdxn w signed o).
Proof.
  intros x y z. destruct o; cbn; [| |apply Z.land_assoc|apply Z.lor_assoc|symmetry; apply Z.lxor_assoc|repeat case_bool_decide; lia|repeat case_bool_decide; lia];
    apply to_type_ext.
  - rewrite <- Zplus_mod_idemp_r, to_type_mod, Zplus_mod_idemp_r, <- (Zplus_mod_idemp_l (to_type _ _ _)), to_type_mod, Zplus_mod_idemp_l. f_equal. lia.
  - rewrite <- Zmult_mod_idemp_r, to_type_mod, Zmult_mod_idemp_r, <- (Zmult_mod_idemp_l (to_type _ _ _)), to_type_mod, Zmult_mod_idemp_l. f_equal. lia.
Qed.

(** C12: all-reduce by segments at an integer type.  The work space holds at least
    one segment of whole elements, and destination, source and work space do not
    overlap.  Then [gpu_rdxn_segment_threadgroup] returns on every PE after the
    same barriers, an execution exists, and every execution, whatever the order
    of the threads' steps and of the puts' elements between two barriers, leaves
    in each PE's destination the reduction of the sources of the whole team,
    and the sources as they were. *)
Theorem segment_allreduce w signed o (g n nelems dest source tmp sz scratch : Z) :
  0 < g -> 0 < n -> 0 <= nelems -> nelems + g <= 2 ^ 31 -> 0 < sz ->
  (scratch / 2 / 8) mod sz = 0 -> 0 < room sz scratch ->
  apart dest nelems source nelems -> apart dest nelems tmp (room sz scratch) -> apart source nelems tmp (room sz scratch) ->
  exists prog, (forall me, gpu_rdxn_segment_threadgroup n me sz scratch dest source tmp nelems = Ret (prog me)) /\
    (forall me, length (phases (prog me)) = length (phases (prog 0))) /\
    (forall m, exists m', runs (perform_gpu_rdxn w signed o) g n prog m m') /\
    forall m m', runs (perform_gpu_rdxn w signed o) g n prog m m' -> forall q e, 0 <= q < n -> 0 <= e < nelems ->
      m' (q, source + e) = m (q, source + e) /\ m' (q, dest + e) = team_reduction (perform_gpu_rdxn w signed o) n source e m.
Proof.
  intros Hg Hn Hlen Hsz Hs Hseg Hroom Hds Hdt Hst.
  destruct (segment_reduces (perform_gpu_rdxn w signed o) g n nelems dest source tmp sz scratch Hg Hn Hlen Hsz Hs Hseg Hroom Hds Hdt Hst) as (prog & HP & HL & HR).
  exists prog. split_and!; [done|done|intros m; apply runs_exists|]. intros m m' HE q e Hq He. destruct (HR m m' HE q e Hq He) as [H1 H2].
  split; [done|]. rewrite H2. apply (distances_fold _ (rdxn_assoc w signed o) (rdxn_comm w signed o) n q (fun pe => m (pe, source + e)) Hq).
Qed.
(** Three PEs, two threads, five 4-byte integers, segments of two: two full
    segments and a rest *)
Lemma segment_allreduce_witness :
  exists prog, (forall me, gpu_rdxn_segment_threadgroup 3 me 4 128 100 200 300 5 = Ret (prog me)) /\
    forall m m', runs (perform_gpu_rdxn 32 true RDXN_OPS_SUM) 2 3 prog m m' ->
      m' (2, 104) = team_reduction (perform_gpu_rdxn 32 true RDXN_OPS_SUM) 3 200 4 m.
Proof.
  destruct (segment_allreduce 32 true RDXN_OPS_SUM 2 3 5 100 200 300 4 128) as (prog & HP & _ & _ & HR);
    [lia|lia|lia|lia|lia|reflexivity|reflexivity|left; lia|left; vm_compute; discriminate|left; vm_compute; discriminate|].
  exists prog. split; [exact HP|]. intros m m' HE. destruct (HR m m' HE 2 4) as [_ H2]; [lia|lia|]. exact H2.
Defined.
End CollAllreduce.
