(* ===== verification/CollScatter.v ===== *)
(** * Sequences of reduce-scatter calls

    [nvshmemi_reducescatter_allpush_threadgroup] has one barrier, between its
    puts and its reductions: the puts of the next call overlap the reductions
    of this one, on this and on other PEs.  The lemmas follow a sequence of
    calls through its phases; the alternating halves of the work space are what
    keeps them apart. *)
From stdpp Require Import base list option.
From Stdlib Require Import ZArith Lia.
From S2P Require Import Prelude IbgdaQp IbgdaQpSpec CollMem CollPhase CollReduce CollReduceSpec.

Module CollScatter.
Import IbgdaQp IbgdaQpSpec CollMem CollPhase CollReduce CollReduceSpec.

(** One call: destination, source, work space and number of elements *)
Record call := MkCall { cl_dest : Z; cl_source : Z; cl_work : Z; cl_n : Z }.

Section Pipe.
Context {V : Type} (op : V -> V -> V) (g n : Z) (Hg : 0 < g) (Hn : 2 <= n).
Definition cputs (me : Z) (c : call) : list action :=
  (fun i => let peer := (me + i) mod n in APut peer (cl_work c + me * cl_n c) (cl_source c + peer * cl_n c) (cl_n c)) <$> seqZ 1 (n - 1).
Definition creds (me : Z) (c : call) : list action :=
  (fun pe => let '(x, y) := rs_operands me pe (cl_dest c) (cl_source c) (cl_work c) (cl_n c) in AReduce x y (cl_dest c) (cl_n c)) <$> seqZ 1 (n - 1).
(** Where PE [me] finds the contribution of [pe] *)
Definition arg (me pe : Z) (c : call) : Z := (if bool_decide (pe = me) then cl_source c else cl_work c) + pe * cl_n c.

Definition call_ok (c : call) : Prop :=
  0 <= cl_n c /\ cl_n c + g <= 2 ^ 31 /\ apart (cl_dest c) (cl_n c) (cl_source c) (n * cl_n c) /\ apart (cl_dest c) (cl_n c) (cl_work c) (n * cl_n c).
(** [c] in its reductions while [c'] puts *)
Definition follows (c c' : call) : Prop :=
  apart (cl_work c) (n * cl_n c) (cl_work c') (n * cl_n c') /\ apart (cl_source c) (n * cl_n c) (cl_work c') (n * cl_n c') /\
  apart (cl_dest c) (cl_n c) (cl_source c') (n * cl_n c') /\ apart (cl_dest c) (cl_n c) (cl_work c') (n * cl_n c') /\
  apart (cl_source c') (n * cl_n c') (cl_work c') (n * cl_n c').

Lemma rs_operands_arg me pe c : 0 <= me < n -> 1 <= pe < n ->
  rs_operands me pe (cl_dest c) (cl_source c) (cl_work c) (cl_n c) = (if bool_decide (pe = 1) then arg me 0 c else cl_dest c, arg me pe c).
Proof.
  intros Hme Hpe. unfold rs_operands, arg. repeat case_bool_decide; subst; f_equal; lia.
Qed.
Lemma elem_cputs me c pe d so k : 0 <= me < n -> APut pe d so k ∈ cputs me c <->
  0 <= pe < n /\ pe <> me /\ d = cl_work c + me * cl_n c /\ so = cl_source c + pe * cl_n c /\ k = cl_n c.
Proof.
  intros Hme. unfold cputs. rewrite list_elem_of_fmap. split.
  - intros (i & [= -> -> -> ->] & Hi). apply elem_of_seqZ in Hi. pose proof (Z.mod_pos_bound (me + i) n). split_and!; try done; try lia.
    intros E. assert (0 <= i < n) by lia. destruct (decide (me + i < n)); [rewrite Z.mod_small in E; lia|].
    replace (me + i) with (me + i - n + 1 * n) in E by lia. rewrite Z.mod_add, Z.mod_small in E; lia.
  - intros (Hpe & Hne & -> & -> & ->). exists ((pe - me) mod n). pose proof (Z.mod_pos_bound (pe - me) n).
    assert ((me + (pe - me) mod n) mod n = pe) as E by (rewrite Zplus_mod_idemp_r; replace (me + (pe - me)) with pe by lia; by rewrite Z.mod_small).
    cbn zeta. rewrite E. split; [done|]. apply elem_of_seqZ. assert ((pe - me) mod n <> 0); [|lia]. intros Z0. rewrite Z0, Z.add_0_r, Z.mod_small in E; lia.
Qed.
Lemma no_red_in_cputs me c x y z k : ~ AReduce x y z k ∈ cputs me c.
Proof. unfold cputs. rewrite list_elem_of_fmap. by intros (i & [=] & _). Qed.
Lemma elem_creds me c x y z k : 0 <= me < n -> AReduce x y z k ∈ creds me c ->
  exists pe, 1 <= pe < n /\ x = (if bool_decide (pe = 1) then arg me 0 c else cl_dest c) /\ y = arg me pe c /\ z = cl_dest c /\ k = cl_n c.
Proof.
  intros Hme. unfold creds. rewrite list_elem_of_fmap. intros (pe & E & Hpe). apply elem_of_seqZ in Hpe. rewrite rs_operands_arg in E by lia.
  injection E as -> -> -> ->. exists pe. split_and!; done || lia.
Qed.
Lemma no_put_in_creds me c pe d so k : ~ APut pe d so k ∈ creds me c.
Proof. unfold creds. rewrite list_elem_of_fmap. intros (i & E & _). by destruct (rs_operands _ _ _ _ _ _). Qed.

(** The reductions of one PE, for one element *)
Lemma creds_at me c e : 0 <= me < n ->
  reds_at me (cl_dest c) e (creds me c) = Red (me, cl_dest c + e) (me, arg me 0 c + e) (me, arg me 1 c + e) ::
    ((fun y => Red (me, cl_dest c + e) (me, cl_dest c + e) y) <$> ((fun pe => (me, arg me pe c + e)) <$> seqZ 2 (n - 2))).
Proof.
  intros Hme. unfold creds. replace (seqZ 1 (n - 1)) with (1 :: seqZ 2 (n - 2)) by (rewrite (seqZ_cons 1) by lia; f_equal; f_equal; lia).
  rewrite fmap_cons, rs_operands_arg, bool_decide_true by lia. unfold reds_at. rewrite bind_cons. cbn [app]. f_equal.
  assert (forall x, x ∈ seqZ 2 (n - 2) -> 2 <= x < n) as HB by (intros x Hx; apply elem_of_seqZ in Hx; lia). revert HB. generalize (seqZ 2 (n - 2)). intros l HB.
  induction l as [|pe l IH]; [done|]. rewrite !fmap_cons, bind_cons. rewrite IH by (intros x Hx; apply HB; by right).
  assert (2 <= pe < n) by (apply HB; left). rewrite rs_operands_arg, bool_decide_false by lia. done.
Qed.

(** ** One phase *)
Section Phase.
Context (prev cur : option call).
Context (Hprev : forall c, prev = Some c -> call_ok c) (Hcur : forall c, cur = Some c -> call_ok c).
Context (Hfol : forall c c', prev = Some c -> cur = Some c' -> follows c c').
Context (Hsw : forall c, cur = Some c -> apart (cl_source c) (n * cl_n c) (cl_work c) (n * cl_n c)).
Definition acts (me : Z) : list action := from_option (creds me) [] prev ++ from_option (cputs me) [] cur.
Lemma elem_acts_put me pe d so k : APut pe d so k ∈ acts me <-> exists c, cur = Some c /\ APut pe d so k ∈ cputs me c.
Proof.
  unfold acts. rewrite elem_of_app. split.
  - intros [Hin|Hin]; [destruct prev as [c|]; [by apply no_put_in_creds in Hin|by apply elem_of_nil in Hin]|].
    destruct cur as [c|]; [by exists c|by apply elem_of_nil in Hin].
  - intros (c & -> & Hin). by right.
Qed.
Lemma elem_acts_red me x y z k : AReduce x y z k ∈ acts me <-> exists c, prev = Some c /\ AReduce x y z k ∈ creds me c.
Proof.
  unfold acts. rewrite elem_of_app. split.
  - intros [Hin|Hin]; [destruct prev as [c|]; [by exists c|by apply elem_of_nil in Hin]|].
    destruct cur as [c|]; [by apply no_red_in_cputs in Hin|by apply elem_of_nil in Hin].
  - intros (c & -> & Hin). by left.
Qed.
Lemma acts_sizes : sizes_ok g (seqZ 0 n) acts.
Proof.
  intros me x y z k Hme Hin. apply elem_acts_red in Hin as (c & Hc & Hin). apply elem_of_seqZ in Hme. apply elem_creds in Hin as (pe & _ & _ & _ & _ & ->); [|lia].
  destruct (Hprev c Hc) as (? & ? & _). lia.
Qed.
(** Every step of the phase *)
Lemma acts_steps tr s : interleave (phase_tasks g (seqZ 0 n) acts) tr -> s ∈ tr ->
  (exists c me pe e, cur = Some c /\ 0 <= me < n /\ 0 <= pe < n /\ pe <> me /\ 0 <= e < cl_n c /\
     s = Copy (pe, cl_work c + me * cl_n c + e) (me, cl_source c + pe * cl_n c + e)) \/
  (exists c me pe e, prev = Some c /\ 0 <= me < n /\ 1 <= pe < n /\ 0 <= e < cl_n c /\
     s = Red (me, cl_dest c + e) (me, (if bool_decide (pe = 1) then arg me 0 c else cl_dest c) + e) (me, arg me pe c + e)).
Proof.
  intros HI Hs. destruct (elem_phase_steps g (seqZ 0 n) acts acts_sizes tr s HI Hs) as (me & Hme & [(pe & d & so & k & e & Ha & He & ->)|(x & y & z & k & e & Ha & He & ->)]);
    apply elem_of_seqZ in Hme; [left|right].
  - apply elem_acts_put in Ha as (c & Hc & Ha). apply elem_cputs in Ha as (Hpe & Hne & -> & -> & ->); [|lia]. exists c, me, pe, e. split_and!; done || lia.
  - apply elem_acts_red in Ha as (c & Hc & Ha). apply elem_creds in Ha as (pe & Hpe & -> & -> & -> & ->); [|lia]. exists c, me, pe, e. split_and!; done || lia.
Qed.
Lemma arg_range me pe c e : 0 <= cl_n c -> 0 <= pe < n -> 0 <= e < cl_n c ->
  (exists x, 0 <= x < n * cl_n c /\ arg me pe c + e = cl_source c + x) \/ (exists x, 0 <= x < n * cl_n c /\ arg me pe c + e = cl_work c + x).
Proof. intros Hc Hpe He. unfold arg. case_bool_decide; [left|right]; exists (pe * cl_n c + e); (split; [nia|lia]). Qed.
Lemma acts_flat tr : interleave (phase_tasks g (seqZ 0 n) acts) tr -> flat tr.
Proof.
  intros HI s s' Hs Hs' Hin.
  destruct (acts_steps tr s HI Hs) as [(c & me & pe & e & Hc & Hme & Hpe & Hne & He & ->)|(c & me & pe & e & Hc & Hme & Hpe & He & ->)];
  destruct (acts_steps tr s' HI Hs') as [(c' & me' & pe' & e' & Hc' & Hme' & Hpe' & Hne' & He' & ->)|(c' & me' & pe' & e' & Hc' & Hme' & Hpe' & He' & ->)]; cbn in *.
  - apply list_elem_of_singleton in Hin. injection Hin as -> Hin. rewrite Hc in Hc'. injection Hc' as <-. pose proof (Hsw c Hc) as HA. unfold apart in HA. nia.
  - exfalso. pose proof (Hfol c' c Hc' Hc) as (F1 & F2 & F3 & F4 & F5). pose proof (Hprev c' Hc') as (P1 & _).
    assert (0 <= me * cl_n c + e < n * cl_n c) by nia. unfold apart in *. apply elem_of_cons in Hin as [Hin|Hin]; [|apply list_elem_of_singleton in Hin]; injection Hin as -> Hin.
    + case_bool_decide; [|lia]. destruct (arg_range me' 0 c' e') as [(x & Hx & E)|(x & Hx & E)]; lia.
    + destruct (arg_range me' pe' c' e') as [(x & Hx & E)|(x & Hx & E)]; lia.
  - exfalso. apply list_elem_of_singleton in Hin. injection Hin as -> Hin. pose proof (Hfol c c' Hc Hc') as (F1 & F2 & F3 & F4 & F5).
    assert (0 <= pe' * cl_n c' + e' < n * cl_n c') by nia. unfold apart in *. lia.
  - rewrite Hc in Hc'. injection Hc' as <-. pose proof (Hprev c Hc) as (P1 & P2 & P3 & P4). unfold apart in *.
    apply elem_of_cons in Hin as [Hin|Hin]; [|apply list_elem_of_singleton in Hin]; injection Hin as -> Hin.
    + case_bool_decide; [|by rewrite Hin]. exfalso. destruct (arg_range me' 0 c e') as [(x & Hx & E)|(x & Hx & E)]; lia.
    + exfalso. destruct (arg_range me' pe' c e') as [(x & Hx & E)|(x & Hx & E)]; lia.
Qed.

(** What the phase does to memory *)
Lemma acts_untouched tr (m : mem (V := V)) q a : interleave (phase_tasks g (seqZ 0 n) acts) tr ->
  (forall c x, prev = Some c -> 0 <= x < cl_n c -> a <> cl_dest c + x) -> (forall c x, cur = Some c -> 0 <= x < n * cl_n c -> a <> cl_work c + x) ->
  run op tr m (q, a) = m (q, a).
Proof.
  intros HI HD HW. apply run_skip. intros s Hs.
  destruct (acts_steps tr s HI Hs) as [(c & me & pe & e & Hc & Hme & Hpe & Hne & He & ->)|(c & me & pe & e & Hc & Hme & Hpe & He & ->)]; cbn; intros [= -> E].
  - apply (HW c (me * cl_n c + e)); [done|nia|lia].
  - by apply (HD c e).
Qed.
Lemma acts_filled tr (m : mem (V := V)) c me q e : interleave (phase_tasks g (seqZ 0 n) acts) tr -> cur = Some c -> 0 <= me < n -> 0 <= q < n -> q <> me -> 0 <= e < cl_n c ->
  run op tr m (q, cl_work c + me * cl_n c + e) = m (me, cl_source c + q * cl_n c + e).
Proof.
  intros HI Hc Hme Hq Hne He. apply (put_result g (seqZ 0 n) acts acts_sizes op tr m me q (cl_work c + me * cl_n c) (cl_source c + q * cl_n c) (cl_n c) e HI (acts_flat tr HI)); [by apply seqZ_pe| |done| |].
  - apply elem_acts_put. exists c. split; [done|]. by apply elem_cputs.
  - intros me' d' so' n' e' Hme' Ha He' E. apply seqZ_pe in Hme'. apply elem_acts_put in Ha as (c' & Hc' & Ha). rewrite Hc in Hc'. injection Hc' as <-.
    apply elem_cputs in Ha as (_ & _ & -> & -> & ->); [|done]. assert (me' = me) as -> by nia. f_equal. lia.
  - intros x y z k i _ Ha Hi E. apply elem_acts_red in Ha as (c' & Hc' & Ha). apply elem_creds in Ha as (pe & _ & _ & _ & -> & ->); [|done].
    pose proof (Hfol c' c Hc' Hc) as (_ & _ & _ & F4 & _). assert (0 <= me * cl_n c + e < n * cl_n c) by nia. unfold apart in F4. lia.
Qed.
(** The contributions at the reducing PE *)
Definition filled (m : mem (V := V)) (c : call) (S : Z -> Z -> V) : Prop :=
  forall q pe e, 0 <= q < n -> 0 <= pe < n -> 0 <= e < cl_n c -> m (q, arg q pe c + e) = S pe (q * cl_n c + e).
Definition scattered (m : mem (V := V)) (c : call) (S : Z -> Z -> V) : Prop :=
  forall q e, 0 <= q < n -> 0 <= e < cl_n c -> m (q, cl_dest c + e) = foldl op (S 0 (q * cl_n c + e)) ((fun pe => S pe (q * cl_n c + e)) <$> seqZ 1 (n - 1)).
Lemma acts_reduced tr (m : mem (V := V)) c S : interleave (phase_tasks g (seqZ 0 n) acts) tr -> prev = Some c -> filled m c S -> scattered (run op tr m) c S.
Proof.
  intros HI Hc HF q e Hq He. pose proof (Hprev c Hc) as (P1 & P2 & P3 & P4).
  rewrite (reduce_result g (seqZ 0 n) acts Hg (NoDup_seqZ _ _) acts_sizes op tr m q (cl_dest c) (cl_n c) e HI (acts_flat tr HI)); [|by apply seqZ_pe| |done|].
  - assert (reds_at q (cl_dest c) e (acts q) = reds_at q (cl_dest c) e (creds q c)) as ->.
    { unfold acts. rewrite Hc. cbn [from_option]. unfold reds_at at 1. rewrite bind_app.
      assert ((from_option (cputs q) [] cur ≫= fun a => match a with AReduce x y _ _ => [Red (q, cl_dest c + e) (q, x + e) (q, y + e)] | APut _ _ _ _ => [] end) = []) as ->; [|by rewrite app_nil_r].
      destruct cur as [c'|]; [|done]. cbn [from_option]. unfold cputs. generalize (seqZ 1 (n - 1)). intros l. by induction l as [|i l IH]. }
    rewrite creds_at by done. change (run op (?a :: ?l) m) with (run op l (run_step op m a)).
    assert (forall pe, 0 <= pe < n -> arg q pe c + e <> cl_dest c + e) as HA.
    { intros pe Hpe E. unfold apart in *. destruct (arg_range q pe c e) as [(x & Hx & E')|(x & Hx & E')]; lia. }
    rewrite run_reds.
    + unfold run_step at 1. cbn [st_dst value]. rewrite bool_decide_true by done. rewrite !HF by lia.
      replace (seqZ 1 (n - 1)) with (1 :: seqZ 2 (n - 2)) by (rewrite (seqZ_cons 1) by lia; f_equal; f_equal; lia). rewrite fmap_cons. cbn [foldl]. f_equal.
      rewrite <- list_fmap_compose. apply list_fmap_ext. intros j pe Hpe. apply lookup_seqZ in Hpe as [-> Hpe]. cbn. unfold run_step. cbn [st_dst].
      rewrite bool_decide_false; [apply HF; lia|]. intros [= E]. apply (HA (2 + Z.of_nat j)); lia.
    + rewrite list.Forall_forall. intros y Hy. apply list_elem_of_fmap in Hy as (pe & -> & Hpe). apply elem_of_seqZ in Hpe. intros [= E]. apply (HA pe); lia.
  - intros x y z k Ha. apply elem_acts_red in Ha as (c' & Hc' & Ha). rewrite Hc in Hc'. injection Hc' as <-. by apply elem_creds in Ha as (pe & _ & _ & _ & -> & ->).
  - intros me' d so k e' Hme' Ha He' E. apply seqZ_pe in Hme'. apply elem_acts_put in Ha as (c' & Hc' & Ha). apply elem_cputs in Ha as (_ & _ & -> & _ & ->); [|done].
    pose proof (Hfol c c' Hc Hc') as (_ & _ & _ & F4 & _). assert (0 <= me' * cl_n c' + e' < n * cl_n c') by nia. unfold apart in F4. lia.
Qed.
End Phase.

(** ** Sequences *)
Definition program (me : Z) (cs : list call) : list instr := cs ≫= fun c => (IAct <$> cputs me c) ++ [ISync] ++ (IAct <$> creds me c).
(** The phases after the puts of [prev] *)
Fixpoint pipe (me : Z) (prev : call) (cs : list call) : list (list action) :=
  match cs with [] => [acts (Some prev) None me] | c :: cs => acts (Some prev) (Some c) me :: pipe me c cs end.
Lemma phases_nonempty p : phases p <> [].
Proof. destruct p as [|[a|] p]; [done|cbn; by destruct (phases p)|done]. Qed.
Lemma phases_app_acts l p : phases ((IAct <$> l) ++ p) = match phases p with [] => [l] | l' :: ls => (l ++ l') :: ls end.
Proof. induction l as [|a l IH]; [cbn; pose proof (phases_nonempty p); by destruct (phases p)|]. cbn. rewrite IH. by destruct (phases p). Qed.
Lemma program_phases me c cs : phases (program me (c :: cs)) = acts None (Some c) me :: pipe me c cs.
Proof.
  unfold program. rewrite bind_cons. revert c. induction cs as [|c' cs IH]; intros c.
  - cbn [mbind list_bind]. rewrite app_nil_r. cbn [app]. rewrite phases_acts, phases_end. unfold acts. cbn. by rewrite app_nil_r.
  - rewrite <- !(assoc_L (++)). cbn [app]. rewrite phases_acts. f_equal. rewrite bind_cons. rewrite (phases_app_acts (creds me c)), IH. done.
Qed.
Lemma pipe_length me c cs : length (pipe me c cs) = S (length cs).
Proof. revert c. induction cs as [|c' cs IH]; intros c; [done|]. cbn. by rewrite IH. Qed.

(** The areas of a sequence of calls *)
Definition calls_ok (cs : list call) : Prop :=
  Forall call_ok cs /\
  (forall i j c c', cs !! i = Some c -> cs !! j = Some c' ->
     apart (cl_dest c) (cl_n c) (cl_source c') (n * cl_n c') /\ apart (cl_dest c) (cl_n c) (cl_work c') (n * cl_n c') /\
     apart (cl_source c) (n * cl_n c) (cl_work c') (n * cl_n c') /\
     (i <> j -> apart (cl_dest c) (cl_n c) (cl_dest c') (cl_n c')) /\
     (j = S i -> apart (cl_work c) (n * cl_n c) (cl_work c') (n * cl_n c'))).

Section Sequence.
Context (all : list call) (Hall : calls_ok all) (m0 : mem (V := V)).
Definition contribution (c : call) (pe x : Z) : V := m0 (pe, cl_source c + x).
(** Before the reductions of call number [i] *)
Definition inv (i : nat) (m : mem (V := V)) : Prop :=
  (forall c, c ∈ all -> forall q x, 0 <= q < n -> 0 <= x < n * cl_n c -> m (q, cl_source c + x) = m0 (q, cl_source c + x)) /\
  (forall j c, (j < i)%nat -> all !! j = Some c -> scattered m c (contribution c)) /\
  (forall c, all !! i = Some c -> filled m c (contribution c)).
Lemma ok_at i c : all !! i = Some c -> call_ok c.
Proof. intros E. destruct Hall as [HF _]. rewrite list.Forall_lookup in HF. by apply (HF i). Qed.
Lemma follows_at i c c' : all !! i = Some c -> all !! S i = Some c' -> follows c c'.
Proof.
  intros E E'. destruct Hall as [_ HA]. destruct (HA i (S i) c c' E E') as (A1 & A2 & A3 & _ & A5). destruct (HA (S i) (S i) c' c' E' E') as (_ & _ & B3 & _).
  split_and!; try done. by apply A5.
Qed.
Lemma self_apart i c : all !! i = Some c -> apart (cl_source c) (n * cl_n c) (cl_work c) (n * cl_n c).
Proof. intros E. destruct Hall as [_ HA]. by destruct (HA i i c c E E) as (_ & _ & B3 & _). Qed.

(** The phase between the barriers of calls [i - 1] and [i] *)
Lemma phase_inv i prev cur tr (m : mem (V := V)) :
  (forall c, prev = Some c -> exists k, i = S k /\ all !! k = Some c) -> (forall c, cur = Some c -> all !! i = Some c) ->
  (prev = None -> i = O) -> (cur = None -> all !! i = None) ->
  match i with O => forall l, m l = m0 l | S k => inv k m end ->
  interleave (phase_tasks g (seqZ 0 n) (acts prev cur)) tr -> inv i (run op tr m).
Proof.
  intros HP HC HPn HCn HM HI.
  assert (forall c, prev = Some c -> call_ok c) as Q1 by (intros c E; destruct (HP c E) as (k & _ & Ek); by apply (ok_at k)).
  assert (forall c, cur = Some c -> call_ok c) as Q2 by (intros c E; apply (ok_at i); by apply HC).
  assert (forall c c', prev = Some c -> cur = Some c' -> follows c c') as Q3.
  { intros c c' E E'. destruct (HP c E) as (k & -> & Ek). apply (follows_at k); [done|by apply HC]. }
  assert (forall c, cur = Some c -> apart (cl_source c) (n * cl_n c) (cl_work c) (n * cl_n c)) as Q4 by (intros c E; apply (self_apart i); by apply HC).
  assert (forall c, c ∈ all -> forall q x, 0 <= q < n -> 0 <= x < n * cl_n c -> m (q, cl_source c + x) = m0 (q, cl_source c + x)) as HS.
  { destruct i as [|k]; [intros; apply HM|]. apply HM. }
  destruct Hall as [HF HA].
  assert (forall c, c ∈ all -> forall q x, 0 <= q < n -> 0 <= x < n * cl_n c -> run op tr m (q, cl_source c + x) = m0 (q, cl_source c + x)) as HS'.
  { intros c Hc q x Hq Hx. rewrite (acts_untouched prev cur Q1 Q2 Q3 Q4 tr m q _ HI); [by apply HS| |]; apply list_elem_of_lookup in Hc as [j Hj].
    - intros c' y E Hy. destruct (HP c' E) as (k & -> & Ek). destruct (HA k j c' c Ek Hj) as (A1 & _). unfold apart in A1. lia.
    - intros c' y E Hy. destruct (HA j i c c' Hj (HC c' E)) as (_ & _ & A3 & _). unfold apart in A3. lia. }
  split_and!; [exact HS'| |].
  - intros j c Hj Ec. destruct i as [|k]; [lia|]. destruct prev as [p|]; [|by specialize (HPn eq_refl)]. destruct (HP p eq_refl) as (k' & [= <-] & Ep).
    destruct HM as (_ & HM2 & HM3). destruct (decide (j = k)) as [->|Hne].
    + rewrite Ep in Ec. injection Ec as <-. apply (acts_reduced (Some p) cur Q1 Q2 Q3 Q4 tr m p _ HI eq_refl). by apply HM3.
    + intros q e Hq He. rewrite (acts_untouched (Some p) cur Q1 Q2 Q3 Q4 tr m q _ HI); [apply (HM2 j c); [lia|done|done|done]| |].
      * intros c' y [= <-] Hy. destruct (HA k j p c Ep Ec) as (_ & _ & _ & A4 & _). specialize (A4 (not_eq_sym Hne)). unfold apart in A4. lia.
      * intros c' y E Hy. destruct (HA j (S k) c c' Ec (HC c' E)) as (_ & A2 & _). unfold apart in A2. lia.
  - intros c Ec q pe e Hq Hpe He. destruct cur as [c'|]; [|by rewrite HCn in Ec]. assert (all !! i = Some c') as Ec' by by apply HC. rewrite Ec in Ec'. injection Ec' as <-.
    assert (c ∈ all) as Hin by (by eapply list_elem_of_lookup_2). unfold contribution, arg. case_bool_decide as HB.
    + subst pe. rewrite <- Z.add_assoc. apply HS'; [done|done|]. nia.
    + rewrite (acts_filled prev (Some c) Q1 Q2 Q3 Q4 tr m c pe q e HI); [|done..|by intros ->|done]. rewrite <- Z.add_assoc. apply HS; [done|done|]. nia.
Qed.

Lemma pipe_exec cs i c (m m' : mem (V := V)) : drop i all = c :: cs -> inv i m ->
  executes g op (S (length cs)) (seqZ 0 n) (fun me => pipe me c cs) m m' -> inv (length all) m'.
Proof.
  revert i c m. induction cs as [|c' cs IH]; intros i c m HD HM HE.
  - destruct HE as (tr & HI & HE). cbn in HI, HE. assert (all !! i = Some c) as Ei by (rewrite <- (Nat.add_0_r i), <- lookup_drop, HD; done).
    assert (length all = S i) as -> by (apply (f_equal length) in HD; rewrite length_drop in HD; cbn in HD; lia).
    assert (inv (S i) (run op tr m)) as (I1 & I2 & I3).
    { apply (phase_inv (S i) (Some c) None tr m); try done; [intros ? [= <-]; by exists i|]. intros _. rewrite <- (Nat.add_1_r i), <- lookup_drop, HD. done. }
    split_and!; [intros; rewrite <- HE; by apply I1| |].
    + intros j d Hj Ed q e Hq He. rewrite <- HE. by apply (I2 j d).
    + intros d Ed q pe e Hq Hpe He. rewrite <- HE. by apply (I3 d).
  - destruct HE as (tr & HI & HE). cbn [pipe hd tl] in HI, HE. assert (all !! i = Some c) as Ei by (rewrite <- (Nat.add_0_r i), <- lookup_drop, HD; done).
    assert (all !! S i = Some c') as Ei' by (rewrite <- (Nat.add_1_r i), <- lookup_drop, HD; done).
    apply (IH (S i) c' (run op tr m)); [|apply (phase_inv (S i) (Some c) (Some c') tr m); try done; intros ? [= <-]; [by exists i|done]|done].
    rewrite <- (Nat.add_1_r i), <- drop_drop, HD. done.
Qed.
Lemma program_exec c cs (m' : mem (V := V)) : all = c :: cs ->
  executes g op (S (length all)) (seqZ 0 n) (fun me => phases (program me all)) m0 m' -> forall j d, all !! j = Some d -> scattered m' d (contribution d).
Proof.
  intros EA HE. apply (executes_ext op g _ _ _ (fun me => acts None (Some c) me :: pipe me c cs)) in HE; [|intros me; rewrite EA; apply program_phases].
  assert (length all = S (length cs)) as EL by by rewrite EA. rewrite EL in HE. destruct HE as (tr & HI & HE). cbn [hd tl] in HI, HE. assert (inv O (run op tr m0)) as HV.
  { apply (phase_inv O None (Some c) tr m0); try done. intros ? [= <-]. by rewrite EA. }
  intros j d Hj. destruct (pipe_exec cs O c _ m' EA HV HE) as (_ & I2 & _). apply (I2 j d); [|done]. by apply lookup_lt_Some in Hj.
Qed.
End Sequence.
End Pipe.
End CollScatter.
