(* ===== verification/CollTeam.v ===== *)
(** * Calls of the reduction collectives on a team

    The entry functions of src/src/include/non_abi/device/coll/: what they do
    to the team's counters, which algorithm they select, and where the work
    space of a call is.  Multicast algorithms (NVLS) are named where they are
    selected; their effect is the switch's.  Addresses are counted in elements
    of the type, as in [CollMem]; the types have 1, 2, 4 or 8 bytes, so that
    the areas of the pool of [long]s begin at elements. *)
From stdpp Require Import base list option.
From Stdlib Require Import ZArith Lia.
From S2P Require Import Prelude Recexch Team TeamPsync IbgdaQp CollMem CollReduce.

Module CollTeam.
Import Team IbgdaQp CollMem CollReduce.

(** [rdxn_count += 1], a [size_t] *)
Definition next_rdxn (t : team) : team :=
  let c := counters t in
  set_counters {| rdxn_count := u64 (rdxn_count c + 1); ll_flag := ll_flag c; alltoall_count := alltoall_count c; bcast_count := bcast_count c;
                  bcast_sync_offset := bcast_sync_offset c; fcollect_count := fcollect_count c;
                  p2p_sync_on_stream_count := p2p_sync_on_stream_count c |} t.
(** What the templates ask of a type: its size and [is_float], [is_double],
    [is_half], [is_bfloat] *)
Record elem_type := { ty_size : Z; ty_float : bool; ty_double : bool; ty_half : bool; ty_bfloat : bool }.
Definition is_half_prec (ty : elem_type) : bool := ty_half ty || ty_bfloat ty.

Section Calls.
Context (p : Psync.coll_params) (psync_pool : Z).
(** [(TYPE * )nvshmemi_team_get_psync(teami, REDUCE)] *)
Definition reduce_work (t : team) (sizeof : Z) : outcome Z :=
  o ← Psync.nvshmemi_team_get_psync p t Psync.REDUCE; Ret (psync_pool + o * (Psync.sizeof_long / sizeof)).

(** ** Reduce-scatter *)
Definition NVSHMEMI_MCAST_RDXN_OP_IS_CAP_UNTYPED (o : rdxn_op) : bool :=
  match o with RDXN_OPS_SUM | RDXN_OPS_AND | RDXN_OPS_OR | RDXN_OPS_XOR => true | _ => false end.
Definition is_min_max (o : rdxn_op) : bool := match o with RDXN_OPS_MIN | RDXN_OPS_MAX => true | _ => false end.
Definition is_sum (o : rdxn_op) : bool := match o with RDXN_OPS_SUM => true | _ => false end.
(** [nvls] tells whether the team's [nvls_rsc_base_ptr] is set. *)
Definition rs_nvls_supported (ty : elem_type) (o : rdxn_op) (nvls : bool) (team_size nreduce : Z) : bool :=
  let is_mcast_red_op := NVSHMEMI_MCAST_RDXN_OP_IS_CAP_UNTYPED o || (is_min_max o && (negb (ty_float ty) && negb (ty_double ty))) in
  let is_mcast_canonical_type := bool_decide (ty_size ty >= 4) in
  let is_half_precondition := is_half_prec ty && bool_decide (nreduce >= 2) && bool_decide (team_size mod 2 = 0) in
  ((is_mcast_red_op && is_mcast_canonical_type) || (is_sum o && is_half_precondition)) && nvls && bool_decide ((nreduce * ty_size ty) mod 4 = 0).
Definition reducescatter_algo (supported : bool) (algo : Z) : outcome Z :=
  if bool_decide (algo = 0) then Ret (if supported then 3 else 2)
  else if bool_decide (algo = 2) then Ret 2
  else if bool_decide (algo = 3) then Ret (if supported then 3 else 2)
  else Fail FAssert.
(** The leaf call: a program, or the multicast algorithm *)
Inductive leaf := LPush (prog : list instr) | LNvls (dest source source_offset nreduce : Z).
Definition nvshmemi_reducescatter_threadgroup (ty : elem_type) (o : rdxn_op) (nvls : bool) (algo : Z) (t : team)
  (dest source source_offset nreduce : Z) : outcome (team * leaf) :=
  let t := next_rdxn t in
  a ← reducescatter_algo (rs_nvls_supported ty o nvls (size t) nreduce) algo;
  if bool_decide (a = 2) then
    pWrk ← reduce_work t (ty_size ty);
    prog ← nvshmemi_reducescatter_allpush_threadgroup (size t) (my_pe t) (ty_size ty) (Psync.reduce_scratch_size p) dest source pWrk nreduce;
    Ret (t, LPush prog)
  else Ret (t, LNvls dest source source_offset nreduce).
(** Device calls one after the other, each of [(dest, source, nreduce)]:
    [nvshmem_TYPENAME_OP_reducescatter] *)
Fixpoint rs_calls (ty : elem_type) (o : rdxn_op) (nvls : bool) (algo : Z) (t : team) (calls : list (Z * Z * Z)) : outcome (team * list leaf) :=
  match calls with
  | [] => Ret (t, [])
  | (dest, source, nreduce) :: calls =>
      r ← nvshmemi_reducescatter_threadgroup ty o nvls algo t dest source (s32 (nreduce * my_pe t)) nreduce;
      rest ← rs_calls ty o nvls algo r.1 calls;
      Ret (rest.1, r.2 :: rest.2)
  end.
(** [reducescatter_on_stream_kernel] on block [b] of [grid], with the block's
    duplicate of the team *)
Definition block_share (nelems grid b : Z) : Z * Z :=
  let remain := nelems mod grid in
  let per_block := nelems / grid in
  (per_block * b, if bool_decide (b = grid - 1) then per_block + remain else per_block).
Definition reducescatter_on_stream_kernel (ty : elem_type) (o : rdxn_op) (nvls : bool) (algo : Z) (grid b : Z) (myteam : team)
  (dest source nreduce : Z) : outcome (team * option leaf) :=
  let '(first, my_nreduce) := block_share nreduce grid b in
  if bool_decide (my_nreduce > 0) then
    r ← nvshmemi_reducescatter_threadgroup ty o nvls algo myteam (dest + first) source (s32 (first + my_pe myteam * nreduce)) my_nreduce;
    Ret (r.1, Some r.2)
  else Ret (myteam, None).

(** ** All-reduce *)
Inductive reduce_leaf := RTwoShot | ROneShot | RHierarchical | RRecexch | RSegment.
(** The choice of [nvshmemi_reduce_threadgroup] *)
Definition reduce_algo (ty : elem_type) (o : rdxn_op) (nvls in_place : bool) (threshold team_size nreduce algo : Z) : Z :=
  let is_nvls_algo_supported := is_sum o && (ty_float ty || ty_half ty || ty_bfloat ty) && nvls && bool_decide ((nreduce * ty_size ty) mod 4 = 0) in
  let is_one_shot_supported := is_nvls_algo_supported && negb (is_half_prec ty && bool_decide (nreduce = 1)) && negb in_place in
  let is_two_shot_supported := is_nvls_algo_supported &&
    negb (is_half_prec ty && (bool_decide (nreduce <= team_size) || bool_decide (nreduce mod team_size > 0))) in
  if bool_decide (algo = 0) || bool_decide (algo = 1) || bool_decide (algo = 2) then
    if bool_decide (threshold >= nreduce) && is_one_shot_supported then 4 else if is_two_shot_supported then 3 else 0
  else if bool_decide (algo = 3) then if is_two_shot_supported then 3 else 0
  else if bool_decide (algo = 4) then if is_one_shot_supported then 4 else 0
  else algo.
(** [nvshmemi_check_pow2] *)
Definition nvshmemi_check_pow2 (n : Z) : bool := bool_decide (n > 0) && bool_decide (Z.land n (n - 1) = 0).
(** [nvshmemi_gpu_rdxn_threadgroup]; [world] is the result of
    [nvshmemi_team_is_identical] with TEAM_WORLD, [block] whether SCOPE is a block *)
Definition nvshmemi_gpu_rdxn_threadgroup (world block : bool) (kval step2_nphases team_size sizeof nreduce : Z) : reduce_leaf :=
  let scratch := Psync.reduce_scratch_size p in
  if world && bool_decide (sizeof >= 4) && bool_decide (nreduce mod 2 = 0) && bool_decide (scratch / 2 >= team_size * nreduce * sizeof) &&
     bool_decide (Psync.fcollect_ll_threshold p >= nreduce * sizeof) && block then RHierarchical
  else if world && (bool_decide (kval = 2) && nvshmemi_check_pow2 team_size) &&
     bool_decide (scratch / 2 / Psync.sizeof_long >= (kval - 1) * nreduce + kval * step2_nphases * nreduce + step2_nphases * nreduce) then RRecexch
  else RSegment.
(** [nvshmemi_reduce_threadgroup]: the counter, and the algorithm called *)
Definition nvshmemi_reduce_threadgroup (ty : elem_type) (o : rdxn_op) (nvls world block : bool) (threshold kval step2_nphases algo : Z)
  (t : team) (dest source nreduce : Z) : team * reduce_leaf :=
  let t := next_rdxn t in
  let a := reduce_algo ty o nvls (bool_decide (source = dest)) threshold (size t) nreduce algo in
  (t, if bool_decide (a = 3) then RTwoShot else if bool_decide (a = 4) then ROneShot
      else nvshmemi_gpu_rdxn_threadgroup world block kval step2_nphases (size t) (ty_size ty) nreduce).
(** The share of a PE in [nvshmemi_add_reduce_nvls_twoshot_threadgroup]: offset
    and number of elements *)
Definition twoshot_share (team_size me nreduce : Z) : Z * Z :=
  let elems_per_pe := nreduce / team_size in
  let elems_remain := nreduce mod team_size in
  (elems_per_pe * me, if bool_decide (me = team_size - 1) then elems_per_pe + elems_remain else elems_per_pe).
End Calls.
End CollTeam.
