(* ===== verification/CollTeamSpec.v ===== *)
(** * Sequences of calls on a team

    The work space of consecutive calls alternates between two halves of the
    team's area, so a sequence of reduce-scatter calls is a sequence in the
    sense of [CollScatter]. *)
From stdpp Require Import base list option.
From Stdlib Require Import ZArith Lia.
From S2P Require Import Prelude Team TeamPsync IbgdaQp IbgdaQpSpec CollMem CollPhase CollReduce CollReduceSpec CollAllreduce CollScatter CollTeam.

Module CollTeamSpec.
Import Team IbgdaQp IbgdaQpSpec CollMem CollPhase CollReduce CollReduceSpec CollAllreduce CollScatter CollTeam.

(** The team as PE [me] has it *)
Definition team_at (me : Z) (t : team) : team := set_geometry me (start t) (stride t) (size t) t.

Section Sequence.
Context (p : Psync.coll_params) (pool : Z) (ty : elem_type) (o : rdxn_op) (algo : Z) (t0 : team) (g : Z).
Abbreviation sz := (ty_size ty).
Abbreviation n := (size t0).
Abbreviation scratch := (Psync.reduce_scratch_size p).
(** [long]s in elements, and half the work space in elements *)
Definition half : Z := scratch / 2 / 8 * (8 / sz).
(** The work space of the team *)
Definition area (len : Z) : Z := pool + (team_idx t0 * len + 4 * Psync.NVSHMEMI_SYNC_SIZE) * (8 / sz).
Definition work (len c : Z) : Z := area len + half * (c mod 2).
Context (Hp : Psync.params_ok p) (Hn : 2 <= n) (Hty : 0 < sz /\ 8 mod sz = 0) (Hscr : scratch mod 16 = 0).
Context (Halgo : algo = 0 \/ algo = 2 \/ algo = 3) (Hg : 0 < g).

Lemma half_bytes : half * sz = scratch / 2.
Proof.
  unfold half. pose proof (Z.div_mod scratch 16). pose proof (Z.div_mod 8 sz). assert (scratch / 2 / 8 = scratch / 16) as -> by (rewrite Z.div_div by lia; done).
  assert (scratch / 2 = scratch / 16 * 8) as -> by (replace scratch with (scratch / 16 * 8 * 2) at 1 by lia; by rewrite Z.div_mul).
  assert (8 / sz * sz = 8) as E8 by lia. by rewrite <- Z.mul_assoc, E8.
Qed.
(** The calls with their work spaces, from the team's count [c] on *)
Fixpoint mk_calls (len c : Z) (calls : list (Z * Z * Z)) : list call :=
  match calls with [] => [] | (d, s, k) :: calls => MkCall d s (work len (c + 1)) k :: mk_calls len (c + 1) calls end.
Lemma mk_calls_lookup len c calls i x : mk_calls len c calls !! i = Some x <->
  exists d s k, calls !! i = Some (d, s, k) /\ x = MkCall d s (work len (c + 1 + Z.of_nat i)) k.
Proof.
  revert c i. induction calls as [|((d, s), k) calls IH]; intros c i; [split; [by destruct i|by intros (?&?&?&?&?)]|]. destruct i as [|i]; cbn [mk_calls lookup list_lookup].
  - rewrite Z.add_0_r. split; [intros [= <-]; by exists d, s, k|intros (?&?&?&[= <- <- <-]&->); done].
  - change (mk_calls len (c + 1) calls !! i = Some x <-> exists d s k, calls !! i = Some (d, s, k) /\ x = MkCall d s (work len (c + 1 + Z.of_nat (S i))) k).
    rewrite IH. by replace (c + 1 + 1 + Z.of_nat i) with (c + 1 + Z.of_nat (S i)) by lia.
Qed.
Lemma u64_parity c : u64 c mod 2 = c mod 2.
Proof. unfold wrap. apply Z.mod_mod_divide. by exists (2 ^ 63). Qed.
Lemma work_parity len c c' : c mod 2 = c' mod 2 -> work len c = work len c'.
Proof. unfold work. by intros ->. Qed.
Lemma reduce_work_eq t fc len : Psync.get_fcollect_psync_len_per_team p = Ret fc -> Psync.get_psync_len_per_team p = Ret len -> team_idx t = team_idx t0 ->
  reduce_work p pool t sz = Ret (work len (rdxn_count (counters t))).
Proof.
  intros Ef El Et. unfold reduce_work, Psync.nvshmemi_team_get_psync. rewrite Ef, El, !outcome_bind_ret, Et. f_equal. unfold work, area, half, Psync.sizeof_long. lia.
Qed.

(** One call *)
Lemma rs_call_eq fc len t d s so k : Psync.get_fcollect_psync_len_per_team p = Ret fc -> Psync.get_psync_len_per_team p = Ret len ->
  team_idx t = team_idx t0 -> size t = n -> k * sz * n * 2 <= scratch ->
  nvshmemi_reducescatter_threadgroup p pool ty o false algo t d s so k =
  Ret (next_rdxn t, LPush (program n (my_pe t) [MkCall d s (work len (rdxn_count (counters t) + 1)) k])).
Proof.
  intros Ef El Et Es Hk. unfold nvshmemi_reducescatter_threadgroup. assert (size (next_rdxn t) = n) as -> by done.
  assert (rs_nvls_supported ty o false n k = false) as -> by (unfold rs_nvls_supported; by rewrite !andb_false_r).
  assert (reducescatter_algo false algo = Ret 2) as -> by (by destruct Halgo as [->|[->| ->]]). rewrite outcome_bind_ret, bool_decide_true by done.
  rewrite (reduce_work_eq (next_rdxn t) fc len Ef El Et), outcome_bind_ret. unfold nvshmemi_reducescatter_allpush_threadgroup.
  rewrite bool_decide_false by lia. rewrite (bool_decide_false (_ > _)) by lia. cbn [cassert negb]. rewrite !outcome_bind_ret. do 3 f_equal.
  unfold program. cbn [mbind list_bind]. rewrite app_nil_r. rewrite (work_parity len (rdxn_count (counters (next_rdxn t))) (rdxn_count (counters t) + 1)) by apply u64_parity.
  unfold cputs, creds. rewrite <- !list_fmap_compose. cbn [cl_dest cl_source cl_work cl_n]. do 2 f_equal. apply list_fmap_ext. intros i x Hx. cbn.
  by destruct (rs_operands _ _ _ _ _ _).
Qed.
Lemma rs_calls_eq fc len calls t c : Psync.get_fcollect_psync_len_per_team p = Ret fc -> Psync.get_psync_len_per_team p = Ret len ->
  team_idx t = team_idx t0 -> size t = n -> rdxn_count (counters t) mod 2 = c mod 2 -> Forall (fun x => x.2 * sz * n * 2 <= scratch) calls ->
  exists t', rs_calls p pool ty o false algo t calls = Ret (t', (fun x => LPush (program n (my_pe t) [x])) <$> mk_calls len c calls).
Proof.
  intros Ef El. revert t c. induction calls as [|((d, s), k) calls IH]; intros t c Et Es Hc HF; [by exists t|]. apply list.Forall_cons in HF as [Hk HF]. cbn in Hk.
  cbn [rs_calls mk_calls]. rewrite (rs_call_eq fc len) by done. rewrite outcome_bind_ret. cbn [fst snd].
  destruct (IH (next_rdxn t) (c + 1)) as [t' ->]; [done|done| |done|].
  - cbn. rewrite u64_parity. by rewrite <- Zplus_mod_idemp_l, Hc, Zplus_mod_idemp_l.
  - rewrite outcome_bind_ret. cbn [fst snd]. exists t'. rewrite fmap_cons. do 4 f_equal. unfold program. do 3 f_equal. apply work_parity.
    by rewrite <- Zplus_mod_idemp_l, Hc, Zplus_mod_idemp_l.
Qed.

(** The user's arrays *)
Definition arrays_ok (len : Z) (calls : list (Z * Z * Z)) : Prop := forall i j d s k d' s' k',
  calls !! i = Some (d, s, k) -> calls !! j = Some (d', s', k') ->
  0 <= k /\ k + g <= 2 ^ 31 /\ k * sz * n * 2 <= scratch /\
  apart d k (area len) (2 * half) /\ apart s (n * k) (area len) (2 * half) /\ apart d k s' (n * k') /\ (i <> j -> apart d k d' k').
Lemma mk_calls_ok len c calls : arrays_ok len calls -> calls_ok g n (mk_calls len c calls).
Proof.
  intros HA. pose proof half_bytes as HB. assert (forall k, 0 <= k -> k * sz * n * 2 <= scratch -> n * k <= half) as HK.
  { intros k Hk Hb. assert (k * n * sz <= half * sz) by (rewrite HB; apply Z.div_le_lower_bound; lia). nia. }
  assert (0 <= half) as Hh by (pose proof (Psync.ok_scratch p Hp); assert (0 <= scratch / 2) by (apply Z.div_pos; lia); nia).
  assert (forall x a b l, 0 <= b <= half -> apart x a (area len) (2 * half) -> apart x a (work len l) b) as HW.
  { intros x a b l Hb HX. unfold apart, work in *. pose proof (Z.mod_pos_bound l 2). nia. }
  split.
  - rewrite list.Forall_lookup. intros i x Hx. apply mk_calls_lookup in Hx as (d & s & k & E & ->). destruct (HA i i d s k d s k E E) as (A1 & A2 & A3 & A4 & A5 & A6 & _).
    specialize (HK k A1 A3). unfold call_ok. cbn. split_and!; try done. apply HW; [lia|done].
  - intros i j x y Hx Hy. apply mk_calls_lookup in Hx as (d & s & k & E & ->). apply mk_calls_lookup in Hy as (d' & s' & k' & E' & ->). cbn.
    destruct (HA i j d s k d' s' k' E E') as (A1 & A2 & A3 & A4 & A5 & A6 & A7). destruct (HA j i d' s' k' d s k E' E) as (B1 & _ & B3 & _).
    pose proof (HK k A1 A3) as Hk. pose proof (HK k' B1 B3) as Hk'. split_and!; [done|apply HW; [nia|done]|apply HW; [nia|done]|done|].
    intros ->. unfold work. set (x := c + 1 + Z.of_nat i). replace (c + 1 + Z.of_nat (S i)) with (x + 1) by lia.
    assert (x mod 2 = 0 /\ (x + 1) mod 2 = 1 \/ x mod 2 = 1 /\ (x + 1) mod 2 = 0) as [[-> ->]|[-> ->]] by (rewrite !Zmod_odd, Z.odd_add; destruct (Z.odd x); cbn; lia); unfold apart; lia.
Qed.
End Sequence.

(** ** Shares and choices *)
(** The shares of the blocks of a grid, in order, are the whole array. *)
Lemma block_shares_tile nelems grid : 0 < grid -> 0 <= nelems ->
  (seqZ 0 grid ≫= fun b => let '(first, cnt) := block_share nelems grid b in seqZ first cnt) = seqZ 0 nelems.
Proof.
  intros Hg Hn. pose proof (Z.div_mod nelems grid). pose proof (Z.mod_pos_bound nelems grid Hg). set (k := nelems / grid) in *. set (r := nelems mod grid) in *.
  assert (0 <= k) by (apply Z.div_pos; lia). assert (forall j, 0 <= j < grid -> (seqZ 0 j ≫= fun b => let '(first, cnt) := block_share nelems grid b in seqZ first cnt) = seqZ 0 (k * j)) as HI.
  { intros i Hi. assert (0 <= i) as Hi0 by lia. revert Hi. pattern i. apply natlike_ind; [by intros; rewrite Z.mul_0_r| |done]. clear i Hi0. intros j Hj IH Hj'. unfold Z.succ in *.
    rewrite (seqZ_app 0 j 1), bind_app, IH by lia. change (seqZ (0 + j) 1) with [0 + j]. cbn [mbind list_bind app]. rewrite app_nil_r. unfold block_share.
    rewrite bool_decide_false by lia. fold k. replace (k * (0 + j)) with (0 + k * j) by lia. rewrite <- seqZ_app by nia. f_equal. lia. }
  replace (seqZ 0 grid) with (seqZ 0 (grid - 1 + 1)) by (f_equal; lia). rewrite (seqZ_app 0 (grid - 1) 1), bind_app, HI by lia. change (seqZ (0 + (grid - 1)) 1) with [0 + (grid - 1)].
  cbn [mbind list_bind app]. rewrite app_nil_r. unfold block_share. rewrite bool_decide_true by lia. fold k r. replace (k * (0 + (grid - 1))) with (0 + k * (grid - 1)) by lia.
  rewrite <- seqZ_app by nia. f_equal. lia.
Qed.
(** The two-shot algorithm gives the PEs the shares of blocks. *)
Lemma twoshot_share_eq team_size me nreduce : twoshot_share team_size me nreduce = block_share nreduce team_size me.
Proof. done. Qed.
(** The reductions the choice makes fit in half the work space. *)
Lemma rdxn_choice_fits p world block kval nphases n sizeof nreduce : 0 < sizeof <= 8 -> 0 <= nreduce -> 0 <= nphases -> 0 <= Psync.reduce_scratch_size p ->
  match nvshmemi_gpu_rdxn_threadgroup p world block kval nphases n sizeof nreduce with
  | RHierarchical => n * nreduce * sizeof <= Psync.reduce_scratch_size p / 2 /\ nreduce * sizeof <= Psync.fcollect_ll_threshold p
  | RRecexch => kval = 2 /\ (1 + 3 * nphases) * nreduce * sizeof <= Psync.reduce_scratch_size p / 2
  | _ => True
  end.
Proof.
  intros Hs Hr Hp Hscr. unfold nvshmemi_gpu_rdxn_threadgroup. 
  match goal with |- context [if ?b then RHierarchical else _] => destruct b eqn:E1 end; [|match goal with |- context [if ?b then RRecexch else _] => destruct b eqn:E2 end; [|done]].
  - rewrite !andb_true_iff, !bool_decide_eq_true in E1. lia.
  - rewrite !andb_true_iff, !bool_decide_eq_true in E2. destruct E2 as ((_ & -> & _) & Hb). split; [done|]. unfold Psync.sizeof_long in Hb.
    pose proof (Z.mul_div_le (Psync.reduce_scratch_size p / 2) 8). nia.
Qed.

Lemma program_concat n me cs : concat ((fun x => program n me [x]) <$> cs) = program n me cs.
Proof. induction cs as [|c cs IH]; [done|]. rewrite fmap_cons. cbn [concat]. rewrite IH. unfold program. rewrite bind_cons. cbn [mbind list_bind]. by rewrite app_nil_r. Qed.

(** C14: any sequence of device reduce-scatter calls on a team of two or more PEs
    without multicast, for any operation and any element type whose size divides
    8, where the size of the reduction work space (NVSHMEM_REDUCE_SCRATCH_SIZE) is
    a multiple of 16 (for a multiple of 8 that is not one of 16 the two halves
    share a slot, [reducescatter_halves_overlap]).  Each call uses the half of
    the team's work space its count selects; the arrays lie outside the work
    space, no destination overlaps a source or another destination, and each
    call passes the size check and has fewer than 2^31 elements per block, with the
    threads of the scope added.  Then all PEs return from every call after the
    same barriers, an execution exists, and every execution, in which puts of a
    call overlap reductions of the one before, leaves in every destination the
    reduction over the team, in the order of the PEs, of the blocks of the
    sources meant for it. *)
Theorem reducescatter_sequence {V} (op : V -> V -> V) (p : Psync.coll_params) (pool : Z) (ty : elem_type) (o : rdxn_op) (algo : Z) (t : team) (g len : Z) (calls : list (Z * Z * Z)) :
  Psync.params_ok p -> Psync.get_psync_len_per_team p = Ret len -> 2 <= size t -> 0 < ty_size ty /\ 8 mod ty_size ty = 0 -> Psync.reduce_scratch_size p mod 16 = 0 ->
  (algo = 0 \/ algo = 2 \/ algo = 3) -> 0 < g -> calls <> [] -> arrays_ok p pool ty t g len calls ->
  exists progs : Z -> list (list instr),
    (forall me, exists t', rs_calls p pool ty o false algo (team_at me t) calls = Ret (t', LPush <$> progs me)) /\
    (forall me, length (phases (concat (progs me))) = length (phases (concat (progs 0)))) /\
    (forall m, exists m', runs op g (size t) (fun me => concat (progs me)) m m') /\
    forall m m', runs op g (size t) (fun me => concat (progs me)) m m' ->
      forall i d s k q e, calls !! i = Some (d, s, k) -> 0 <= q < size t -> 0 <= e < k -> m' (q, d + e) = team_reduction op (size t) (s + q * k) e m.
Proof.
  intros Hp El Hn Hty Hscr Halgo Hg Hne HA. destruct (Psync.lengths p Hp) as (fc & len' & Ef & El' & _). rewrite El in El'. injection El' as <-.
  set (c := rdxn_count (counters t)). set (cs := mk_calls p pool ty t len c calls). exists (fun me => (fun x => program (size t) me [x]) <$> cs).
  assert (exists c0 cs', cs = c0 :: cs') as (c0 & cs' & Ecs) by (unfold cs; destruct calls as [|((d, s), k) calls]; [done|cbn; by eexists _, _]).
  assert (forall me, length (phases (concat ((fun x => program (size t) me [x]) <$> cs))) = S (length cs)) as HL.
  { intros me. rewrite program_concat, Ecs, program_phases. cbn. by rewrite pipe_length. }
  split_and!.
  - intros me. destruct (rs_calls_eq p pool ty o algo t Hn Halgo fc len calls (team_at me t) c Ef El) as [t' Ht]; [done|done|done| |].
    + rewrite list.Forall_lookup. intros i ((d, s), k) E. cbn. by destruct (HA i i d s k d s k E E) as (_ & _ & A3 & _).
    + exists t'. rewrite Ht. rewrite <- list_fmap_compose. done.
  - intros me. by rewrite !HL.
  - intros m. apply runs_exists.
  - intros m m' HR i d s k q e E Hq He. unfold runs in HR. rewrite HL in HR.
    apply (executes_ext op g _ _ _ (fun me => phases (program (size t) me cs))) in HR; [|intros me; by rewrite program_concat].
    assert (cs !! i = Some (MkCall d s (work p pool ty t len (c + 1 + Z.of_nat i)) k)) as Ei by (apply mk_calls_lookup; by exists d, s, k).
    pose proof (program_exec op g (size t) Hg Hn cs (mk_calls_ok p pool ty t g Hp Hn Hty Hscr len c calls HA) m c0 cs' m' Ecs HR i _ Ei q e Hq He) as HX.
    cbn in HX. rewrite HX. unfold team_reduction, contribution. cbn. by setoid_rewrite Z.add_assoc.
Qed.
(** Three PEs, two consecutive calls on 4-byte integers *)
Definition demo_team : team := set_geometry 0 0 1 3 (set_idx 0 (new_team 3 8)).
Definition demo_ty : elem_type := {| ty_size := 4; ty_float := false; ty_double := false; ty_half := false; ty_bfloat := false |}.
Lemma reducescatter_sequence_witness : exists progs : Z -> list (list instr),
  (forall me, exists t', rs_calls Psync.demo_params 100000 demo_ty RDXN_OPS_SUM false 0 (team_at me demo_team) [(10, 100, 5); (20, 200, 7)] = Ret (t', LPush <$> progs me)) /\
  forall m m', runs (perform_gpu_rdxn 32 true RDXN_OPS_SUM) 32 3 (fun me => concat (progs me)) m m' ->
    m' (2, 16 + 10) = team_reduction (perform_gpu_rdxn 32 true RDXN_OPS_SUM) 3 (200 + 2 * 7) 6 m.
Proof.
  destruct (Psync.get_psync_len_per_team Psync.demo_params) as [len|f] eqn:El; [|discriminate El].
  destruct (reducescatter_sequence (perform_gpu_rdxn 32 true RDXN_OPS_SUM) Psync.demo_params 100000 demo_ty RDXN_OPS_SUM 0 demo_team 32 len [(10, 100, 5); (20, 200, 7)])
    as (progs & HP & _ & _ & HR).
  - constructor; cbn; lia || reflexivity.
  - exact El.
  - cbn. lia.
  - cbn. split; [lia|reflexivity].
  - reflexivity.
  - by left.
  - lia.
  - discriminate.
  - vm_compute in El. injection El as <-. intros i j d s k d' s' k' E E'.
    destruct i as [|[|i]]; [injection E as <- <- <-|injection E as <- <- <-|discriminate E]; (destruct j as [|[|j]]; [injection E' as <- <- <-|injection E' as <- <- <-|discriminate E']);
      split_and!; vm_compute; intuition discriminate || (left; discriminate) || (intros; intuition discriminate).
  - exists progs. split; [exact HP|]. intros m m' HE. apply (HR m m' HE 1%nat 20 200 7 2 6); [reflexivity|cbn; lia|lia].
Defined.
End CollTeamSpec.
