(* ===== verification/CollDefects.v ===== *)
(** * Reductions that go wrong

    Executions of the reduction collectives outside the conditions of
    [CollAllreduce] and [CollTeamSpec], which the code does not check: reduction
    in place, a work space of the documented minimum, work spaces that are not
    a multiple of 16 bytes, and reduce-scatter launched on several blocks. *)
From stdpp Require Import base list option.
From Stdlib Require Import ZArith Lia.
From S2P Require Import Prelude Team TeamPsync IbgdaQp IbgdaQpSpec CollMem CollPhase CollReduce CollReduceSpec CollAllreduce CollScatter CollTeam CollTeamSpec.

Module CollDefects.
Import Team IbgdaQp IbgdaQpSpec CollMem CollPhase CollReduce CollReduceSpec CollAllreduce CollScatter CollTeam CollTeamSpec.

(** ** One execution: the tasks of each phase one after the other *)
Lemma interleave_skip {A} (ts : list (list A)) tr : interleave ts tr -> interleave ([] :: ts) tr.
Proof.
  induction 1 as [ts HF|l1 x t l2 tr HI IH]; [constructor; by constructor|]. apply (interleave_step ([] :: l1)). exact IH.
Qed.
Lemma interleave_concat {A} (ts : list (list A)) : interleave ts (concat ts).
Proof.
  induction ts as [|t ts IH]; [by constructor|]. cbn. induction t as [|x t IHt]; [by apply interleave_skip|]. apply (interleave_step [] x t ts). exact IHt.
Qed.
Fixpoint seq_exec {V} (op : V -> V -> V) (g : Z) (k : nat) (pes : list Z) (prog : Z -> list (list action)) (m : mem (V := V)) : mem (V := V) :=
  match k with O => m | S k => seq_exec op g k pes (fun me => tl (prog me)) (run op (concat (phase_tasks g pes (fun me => hd [] (prog me)))) m) end.
Lemma seq_exec_executes {V} (op : V -> V -> V) g k pes prog m : executes g op k pes prog m (seq_exec op g k pes prog m).
Proof. revert prog m. induction k as [|k IH]; intros prog m; [done|]. eexists. split; [apply interleave_concat|apply IH]. Qed.
Definition seq_run {V} (op : V -> V -> V) (g n : Z) (prog : Z -> list instr) : mem (V := V) -> mem (V := V) :=
  seq_exec op g (length (phases (prog 0))) (seqZ 0 n) (fun me => phases (prog me)).
Lemma seq_run_runs {V} (op : V -> V -> V) g n prog m : runs op g n prog m (seq_run op g n prog m).
Proof. exact (seq_exec_executes op g _ _ _ m). Qed.

(** ** Defects *)
Definition instrs (x : outcome (list instr)) : list instr := match x with Ret l => l | Fail _ => [] end.
(** Values 1, 2, 4 at each address of PEs 0, 1, 2 *)
Definition powers : mem (V := Z) := fun l => 2 ^ l.1.
Definition sum32 : Z -> Z -> Z := perform_gpu_rdxn 32 true RDXN_OPS_SUM.

(** In place, a full segment: the second distance sends partial results. *)
Lemma segment_in_place_wrong : exists m', runs sum32 1 3 (fun me => instrs (gpu_rdxn_segment_threadgroup 3 me 4 64 100 100 300 1)) powers m' /\
  gpu_rdxn_segment_threadgroup 3 0 4 64 100 100 300 1 <> Fail FUndef /\ m' (0, 100) = 8 /\ team_reduction sum32 3 100 0 powers = 7.
Proof. eexists. split; [apply seq_run_runs|]. split; [discriminate|]. by vm_compute. Qed.
(** With the documented minimum of 16 bytes a segment is one byte: no element of
    four bytes is exchanged. *)
Lemma segment_minimum_wrong : exists m', runs sum32 1 2 (fun me => instrs (gpu_rdxn_segment_threadgroup 2 me 4 16 100 200 300 1)) powers m' /\
  m' (0, 100) = 1 /\ team_reduction sum32 2 200 0 powers = 3.
Proof. eexists. split; [apply seq_run_runs|]. by vm_compute. Qed.

(** Reduce-scatter on a team with multicast, an operation multicast does not
    have, and a grid of two blocks: the push algorithm does not use the offset
    of the block in the source.  Two PEs, two elements each; block 1 has element
    1 of each destination, and computes it from other elements. *)
Definition leaf_prog (x : outcome (team * option leaf)) : list instr := match x with Ret (_, Some (LPush l)) => l | _ => [] end.
Definition two_pes : team := set_geometry 0 0 1 2 (set_idx 1 (new_team 2 8)).
Definition block_prog (b me : Z) : list instr :=
  leaf_prog (reducescatter_on_stream_kernel Psync.demo_params 100000 demo_ty RDXN_OPS_PROD true 0 2 b (team_at me two_pes) 10 20 2).
Definition prod32 : Z -> Z -> Z := perform_gpu_rdxn 32 true RDXN_OPS_PROD.
Definition tagged : mem (V := Z) := fun l => l.1 * 100 + l.2.
Lemma reducescatter_blocks_wrong : exists m', runs prod32 32 2 (block_prog 1) tagged m' /\
  length (block_prog 1 0) = 3%nat /\ m' (0, 10 + 1) = 20 * 120 /\ team_reduction prod32 2 (20 + 0 * 2) 1 tagged = 21 * 121.
Proof. eexists. split; [apply seq_run_runs|]. by vm_compute. Qed.

(** A work space of 24 bytes, a multiple of 8 as documented: a call may use 12
    bytes of a half that has 8. *)
Lemma reducescatter_halves_overlap : exists w0 w1 prog,
  let p := {| Psync.npes := 3; Psync.fcollect_ll_threshold := 2048; Psync.fcollect_ll128_threshold := 0; Psync.reduce_scratch_size := 24 |} in
  reduce_work p 0 (next_rdxn demo_team) 4 = Ret w0 /\ reduce_work p 0 (next_rdxn (next_rdxn demo_team)) 4 = Ret w1 /\
  nvshmemi_reducescatter_allpush_threadgroup 3 2 4 24 10 20 w0 1 = Ret prog /\ IAct (APut 0 (w0 + 2 * 1) 20 1) ∈ prog /\ w0 + 2 = w1.
Proof. exists 442368, 442370. eexists. split_and!; [vm_compute; reflexivity..|left|reflexivity]. Qed.
End CollDefects.
