(* ===== verification/CollPush.v ===== *)
(** * Broadcast, fcollect and all-to-all by puts

    The one-shot algorithms of src/src/include/non_abi/device/coll/broadcast.cuh,
    fcollect.cuh and alltoall.cuh as programs of puts and barriers, the choice of
    the algorithm, and what every execution leaves in memory.  PEs are named by
    their index in the team and addresses are counted in elements, as in
    [CollReduce]; a copy through a mapped pointer is the put it stands for. *)
From stdpp Require Import base list option.
From Stdlib Require Import ZArith Lia.
From S2P Require Import Prelude IbgdaQp IbgdaQpSpec CollMem CollPhase CollReduce CollReduceSpec CollAllreduce.

Module CollPush.
Import IbgdaQp IbgdaQpSpec CollMem CollPhase CollReduce CollReduceSpec CollAllreduce.

(** ** The programs of a PE

    Offsets that the code keeps in an [int] are wrapped to 32 bits. *)
Definition nvshmemi_bcast_put2all_threadgroup (size my_pe PE_root dest source nelems : Z) : list instr :=
  (if bool_decide (PE_root = my_pe)
   then (fun i => IAct (APut (wrap_pe size i) dest source nelems)) <$> seqZ 0 size else []) ++ [ISync].

Definition nvshmemi_fcollect_allpush_threadgroup (size my_pe dest source dest_offset nelems : Z) : list instr :=
  ((fun ii => IAct (APut (wrap_pe size ii) (dest + s32 dest_offset) source nelems)) <$> seqZ my_pe size) ++ [ISync].

Definition nvshmemi_alltoall_p2p_allpush_threadgroup (size my_pe dest source nelems : Z) : list instr :=
  ((fun ii => let src_offset := s32 (nelems * ((my_pe + ii) mod size)) in let dst_offset := s32 (nelems * my_pe) in
              IAct (APut (wrap_pe size (my_pe + ii)) (dest + dst_offset) (source + src_offset) nelems)) <$> seqZ 0 size) ++ [ISync].

(** ** The choice of an algorithm *)

(** The first switch of [nvshmemi_broadcast_threadgroup]: [pe_dist_block] is
    whether PEs are distributed in blocks, [sync_bytes] the size of the work
    space of broadcasts. *)
Definition bcast_select (bcast_algo sync_bytes nelems sizeof npes : Z) (pe_dist_block : bool) : outcome Z :=
  let ll_ok := bool_decide (sync_bytes >= nelems * sizeof * 2) && bool_decide (sizeof >= 4) && bool_decide (nelems mod 2 = 0) in
  if bool_decide (bcast_algo = 0) then
    if ll_ok && bool_decide (nelems * sizeof <= 16384)
    then Ret (if bool_decide (npes > 32) && pe_dist_block then 2 else 3) else Ret 4
  else if bool_decide (bcast_algo = 1) then Ret 1
  else if bool_decide (bcast_algo = 2) then Ret (if ll_ok && pe_dist_block then 2 else 1)
  else if bool_decide (bcast_algo = 3) then Ret (if ll_ok then 3 else 1)
  else if bool_decide (bcast_algo = 4) then Ret (if ll_ok then 4 else 1)
  else Fail FAssert.

Inductive fcollect_algo := FCOLLECT_LL8 | FCOLLECT_ONESHOT | FCOLLECT_NVLS | FCOLLECT_NVLS_LL | FCOLLECT_LL128.

(** The inputs of the choice in [nvshmemi_fcollect_threadgroup]: the scope of the
    group, the type, thresholds and topology. *)
Record fc_env := {
  fe_thread_scope : bool; fe_block_scope : bool; fe_half : bool; fe_sizeof : Z; fe_nvls : bool; fe_size : Z;
  fe_ll_threshold : Z; fe_ll128_threshold : Z; fe_world_p2p : bool; fe_shared_is_node : bool; fe_node_p2p : bool }.

Definition valid_ll_configuration (f : fc_env) (nelems : Z) : bool :=
  negb (fe_thread_scope f) &&
  ((bool_decide (fe_sizeof f >= 4) && bool_decide (nelems mod 2 = 0)) ||
   (fe_half f && bool_decide (nelems mod 4 = 0) && bool_decide (fe_size f mod 2 = 0))) &&
  (fe_world_p2p f || fe_shared_is_node f || negb (fe_node_p2p f)).

(** [None] is the default selection. *)
Definition fcollect_select (f : fc_env) (algo : option fcollect_algo) (nelems : Z) : fcollect_algo :=
  let bytes := nelems * fe_sizeof f in
  let valid := valid_ll_configuration f nelems in
  let nvls_ll := bool_decide (fe_sizeof f >= 4) && bool_decide (nelems mod 2 = 0) && bool_decide (fe_ll_threshold f >= bytes) && fe_nvls f in
  let nvls := fe_nvls f && bool_decide (bytes mod 4 = 0) in
  match algo with
  | None =>
      if valid && bool_decide (fe_ll_threshold f >= bytes) then FCOLLECT_LL8
      else if valid && bool_decide (bytes < fe_ll128_threshold f) then FCOLLECT_LL128
      else if nvls_ll && fe_block_scope f then FCOLLECT_NVLS_LL
      else if nvls then FCOLLECT_NVLS else FCOLLECT_ONESHOT
  | Some FCOLLECT_LL8 => if valid then FCOLLECT_LL8 else FCOLLECT_ONESHOT
  | Some FCOLLECT_ONESHOT => FCOLLECT_ONESHOT
  | Some FCOLLECT_NVLS => if nvls then FCOLLECT_NVLS else FCOLLECT_ONESHOT
  | Some FCOLLECT_NVLS_LL => if nvls_ll then FCOLLECT_NVLS_LL else if nvls then FCOLLECT_NVLS else FCOLLECT_ONESHOT
  | Some FCOLLECT_LL128 => if valid then FCOLLECT_LL128 else FCOLLECT_ONESHOT
  end.

(** The work space of the LL8 algorithm is sized for messages up to its
    threshold; a message chosen by default fits. *)
Lemma default_ll8_fits f nelems : fcollect_select f None nelems = FCOLLECT_LL8 -> nelems * fe_sizeof f <= fe_ll_threshold f.
Proof. unfold fcollect_select. repeat case_match; try done. intros _. by destruct_and?; repeat case_bool_decide; try done; lia. Qed.
(** A size above the threshold is not rejected when the algorithm is asked for. *)
Lemma chosen_ll8_not_checked f nelems :
  valid_ll_configuration f nelems = true -> fcollect_select f (Some FCOLLECT_LL8) nelems = FCOLLECT_LL8.
Proof. intros H. unfold fcollect_select. by rewrite H. Qed.

(** ** What they leave in memory *)
Section push.
Context {V : Type} (op : V -> V -> V) (g n : Z) (acts : Z -> list action) (dest source dlen slen : Z).
Context (Hg : 0 < g) (Hn : 0 < n).
(** Puts only, from the source area to the destination area, which are apart *)
Context (Hacts : forall me a, 0 <= me < n -> a ∈ acts me -> exists pe d s k, a = APut pe d s k /\ dest <= d /\ d + k <= dest + dlen /\ source <= s /\ s + k <= source + slen).
Context (Hap : apart dest dlen source slen).

Lemma push_runs m m' :
  runs op g n (fun me => (IAct <$> acts me) ++ [ISync]) m m' ->
  exists tr, interleave (phase_tasks g (seqZ 0 n) acts) tr /\ forall l, m' l = run op tr m l.
Proof.
  unfold runs. rewrite phases_acts. cbn [phases length executes]. intros (tr & HI & tr2 & HI2 & HM). exists tr. split.
  - assert (phase_tasks g (seqZ 0 n) acts = phase_tasks g (seqZ 0 n) (fun me => hd [] (phases ((IAct <$> acts me) ++ [ISync])))) as ->; [|exact HI].
    unfold phase_tasks. apply list_bind_eq. intros me _. by rewrite phases_acts.
  - assert (tr2 = []) as ->; [|intros l; by rewrite <- HM].
    destruct tr2 as [|x tr2]; [done|]. destruct (interleave_elem _ _ x HI2) as (t & Ht & Hx); [by left|].
    unfold phase_tasks in Ht. apply list_elem_of_bind in Ht as (me & Ht & _). rewrite phases_acts in Ht. cbn in Ht.
    apply list_elem_of_fmap in Ht as (i & -> & _). by apply elem_of_nil in Hx.
Qed.

Lemma push_no_reduce me x y z k : me ∈ seqZ 0 n -> AReduce x y z k ∈ acts me -> False.
Proof. intros Hme%elem_of_seqZ H. by destruct (Hacts me _ ltac:(lia) H) as (? & ? & ? & ? & ? & _). Qed.

Lemma push_flat tr : interleave (phase_tasks g (seqZ 0 n) acts) tr -> flat tr.
Proof.
  intros HI. assert (Hst : forall s, s ∈ tr -> exists q p d e, s = Copy (q, d) (p, e) /\ dest <= d < dest + dlen /\ source <= e < source + slen).
  { intros s Hs. destruct (elem_phase_steps g (seqZ 0 n) acts) with (tr := tr) (s := s) as (me & Hme & [(pe & d & so & k & e & Ha & He & ->)|(x & y & z & k & i & Ha & _)]); try done.
    - intros me x y z k Hme Ha. by apply push_no_reduce in Ha.
    - apply elem_of_seqZ in Hme. destruct (Hacts me _ ltac:(lia) Ha) as (? & ? & ? & ? & [= <- <- <- <-] & ? & ? & ? & ?). exists pe, me, (d + e), (so + e). split; [done|]. lia.
    - by apply push_no_reduce in Ha. }
  intros s s' Hs Hs' Hin. destruct (Hst s Hs) as (q & p & d & e & -> & Hd & _), (Hst s' Hs') as (q' & p' & d' & e' & -> & _ & He').
  cbn in Hin. apply list_elem_of_singleton in Hin. injection Hin as <- <-. unfold apart in Hap. lia.
Qed.

Lemma push_result m m' me q d so k e :
  runs op g n (fun me => (IAct <$> acts me) ++ [ISync]) m m' ->
  0 <= me < n -> APut q d so k ∈ acts me -> 0 <= e < k ->
  (forall me' d' so' k' e', 0 <= me' < n -> APut q d' so' k' ∈ acts me' -> 0 <= e' < k' -> d' + e' = d + e -> (me', so' + e') = (me, so + e)) ->
  m' (q, d + e) = m (me, so + e).
Proof.
  intros HR Hme Ha He Hu. destruct (push_runs m m' HR) as (tr & HI & HM). rewrite HM.
  eapply (put_result g (seqZ 0 n) acts); [|exact HI|by apply push_flat|apply elem_of_seqZ; lia|exact Ha|done| |].
  - intros me' x y z k' Hme' Hr. by apply push_no_reduce in Hr.
  - intros me' d' so' k' e' Hme'. apply elem_of_seqZ in Hme'. intros Ha' He' E. by apply (Hu me' d' so' k' e'); [lia|..].
  - intros x y z k' i Hq Hr. by apply push_no_reduce in Hr.
Qed.

Lemma push_source m m' q e : runs op g n (fun me => (IAct <$> acts me) ++ [ISync]) m m' -> source <= e < source + slen -> m' (q, e) = m (q, e).
Proof.
  intros HR He. destruct (push_runs m m' HR) as (tr & HI & HM). rewrite HM. apply (run_untouched op _ tr m _ HI).
  intros t s Ht Hs Hd. apply (elem_phase_tasks g (seqZ 0 n) acts) in Ht as (me & Hme & [(a & Ha & Ht)|(i & Hi & ->)]).
  - apply elem_put_tasks in Ht as (pe & d & so & k & e' & -> & He' & ->). apply list_elem_of_singleton in Hs as ->.
    apply elem_of_seqZ in Hme. destruct (Hacts me _ ltac:(lia) Ha) as (? & ? & ? & ? & [= <- <- <- <-] & ? & ? & ? & ?). cbn in Hd. injection Hd as _ Hd. unfold apart in Hap. lia.
  - apply list_elem_of_bind in Hs as (a & Hs & Ha). destruct a as [|x y z k]; [by apply elem_of_nil in Hs | by apply push_no_reduce in Ha].
Qed.
End push.

(** Programs as lists of puts *)
Definition bcast_acts (size PE_root dest source nelems me : Z) : list action :=
  if bool_decide (PE_root = me) then (fun i => APut (wrap_pe size i) dest source nelems) <$> seqZ 0 size else [].
Definition fcollect_acts (size dest source nelems me : Z) : list action :=
  (fun ii => APut (wrap_pe size ii) (dest + s32 (nelems * me)) source nelems) <$> seqZ me size.
Definition alltoall_acts (size dest source nelems me : Z) : list action :=
  (fun ii => APut (wrap_pe size (me + ii)) (dest + s32 (nelems * me)) (source + s32 (nelems * ((me + ii) mod size))) nelems) <$> seqZ 0 size.

Lemma bcast_program n me r d s k : nvshmemi_bcast_put2all_threadgroup n me r d s k = (IAct <$> bcast_acts n r d s k me) ++ [ISync].
Proof. unfold nvshmemi_bcast_put2all_threadgroup, bcast_acts. case_bool_decide; [by rewrite <- list_fmap_compose | done]. Qed.
Lemma fcollect_program n me d s k : nvshmemi_fcollect_allpush_threadgroup n me d s (k * me) k = (IAct <$> fcollect_acts n d s k me) ++ [ISync].
Proof. unfold nvshmemi_fcollect_allpush_threadgroup, fcollect_acts. by rewrite <- list_fmap_compose. Qed.
Lemma alltoall_program n me d s k : nvshmemi_alltoall_p2p_allpush_threadgroup n me d s k = (IAct <$> alltoall_acts n d s k me) ++ [ISync].
Proof. unfold nvshmemi_alltoall_p2p_allpush_threadgroup, alltoall_acts. by rewrite <- list_fmap_compose. Qed.

Lemma runs_ext {V} (op : V -> V -> V) g n prog prog' m m' : (forall me, prog me = prog' me) -> runs op g n prog m m' -> runs op g n prog' m m'.
Proof.
  intros E H. unfold runs in *. rewrite <- (E 0). eapply executes_ext; [|exact H]. intros me. cbn. by rewrite E.
Qed.

(** Blocks of [k] elements do not overlap. *)
Lemma block_unique k a b e e' : 0 <= e < k -> 0 <= e' < k -> a * k + e = b * k + e' -> a = b /\ e = e'.
Proof.
  intros He He' E. assert (forall c f, 0 <= f < k -> (c * k + f) / k = c) as Hd by (intros c f Hf; rewrite Z.div_add_l, Z.div_small; lia).
  assert (a = b) as -> by (rewrite <- (Hd a e He), <- (Hd b e' He'); by f_equal). lia.
Qed.

Section results.
Context {V : Type} (op : V -> V -> V) (g n nelems dest source : Z) (Hg : 0 < g) (Hn : 0 < n) (Hk : 0 <= nelems).

Lemma bcast_result root m m' q e : 0 <= root < n -> apart dest nelems source nelems ->
  runs op g n (fun me => nvshmemi_bcast_put2all_threadgroup n me root dest source nelems) m m' ->
  0 <= q < n -> 0 <= e < nelems -> m' (q, dest + e) = m (root, source + e).
Proof.
  intros Hr Hap HR Hq He. apply (runs_ext op g n _ _ m m' (fun me => bcast_program n me root dest source nelems)) in HR.
  eapply (push_result op g n (bcast_acts n root dest source nelems) dest source nelems nelems) with (me := root) (k := nelems); try done.
  - intros me a _ Ha. unfold bcast_acts in Ha. case_bool_decide; [|by apply elem_of_nil in Ha].
    apply list_elem_of_fmap in Ha as (i & -> & _). eexists _, _, _, _. split; [done|]. lia.
  - unfold bcast_acts. rewrite bool_decide_true by done. apply list_elem_of_fmap. exists q. split; [|apply elem_of_seqZ; lia].
    unfold wrap_pe. by rewrite Z.mod_small.
  - intros me' d' so' k' e' _ Ha He' E. unfold bcast_acts in Ha. case_bool_decide; [|by apply elem_of_nil in Ha].
    apply list_elem_of_fmap in Ha as (i & [= _ -> -> ->] & _). subst. f_equal. lia.
Qed.

(** Offsets of blocks in an array of fewer than 2^31 elements do not wrap. *)
Lemma offset_fits p : n * nelems < 2 ^ 31 -> 0 <= p < n -> s32 (nelems * p) = nelems * p.
Proof. intros Hb Hp. apply s32_small. nia. Qed.

Lemma fcollect_result m m' q p e : n * nelems < 2 ^ 31 -> apart dest (n * nelems) source nelems ->
  runs op g n (fun me => nvshmemi_fcollect_allpush_threadgroup n me dest source (nelems * me) nelems) m m' ->
  0 <= q < n -> 0 <= p < n -> 0 <= e < nelems -> m' (q, dest + p * nelems + e) = m (p, source + e).
Proof.
  intros Hb Hap HR Hq Hp He. apply (runs_ext op g n _ _ m m' (fun me => fcollect_program n me dest source nelems)) in HR.
  assert (Hin : forall me pe d s k, 0 <= me < n -> APut pe d s k ∈ fcollect_acts n dest source nelems me <-> 0 <= pe < n /\ d = dest + me * nelems /\ s = source /\ k = nelems).
  { intros me pe d s k Hme. unfold fcollect_acts. rewrite list_elem_of_fmap, offset_fits, (Z.mul_comm nelems me) by done. split.
    - intros (i & [= -> -> -> ->] & _). split; [apply Z.mod_pos_bound; lia | done].
    - intros (Hpe & -> & -> & ->). exists (me + (pe - me) mod n). pose proof (Z.mod_pos_bound (pe - me) n Hn). split; [|apply elem_of_seqZ; lia].
      unfold wrap_pe. rewrite Zplus_mod_idemp_r. replace (me + (pe - me)) with pe by lia. by rewrite Z.mod_small. }
  replace (dest + p * nelems + e) with ((dest + p * nelems) + e) by lia.
  eapply (push_result op g n (fcollect_acts n dest source nelems) dest source (n * nelems) nelems) with (me := p) (k := nelems); try done.
  - intros me [pe d s k|] Hme Ha; [|by apply list_elem_of_fmap in Ha as (? & ? & _)]. apply (Hin me) in Ha as (_ & -> & -> & ->); [|done].
    eexists _, _, _, _. split; [done|]. nia.
  - by apply Hin.
  - intros me' d' so' k' e' Hme' Ha He' E. apply (Hin me') in Ha as (_ & -> & -> & ->); [|done].
    destruct (block_unique nelems me' p e' e) as [-> ->]; [done..|lia|done].
Qed.

Lemma alltoall_result m m' q p e : n * nelems < 2 ^ 31 -> apart dest (n * nelems) source (n * nelems) ->
  runs op g n (fun me => nvshmemi_alltoall_p2p_allpush_threadgroup n me dest source nelems) m m' ->
  0 <= q < n -> 0 <= p < n -> 0 <= e < nelems -> m' (q, dest + nelems * p + e) = m (p, source + nelems * q + e).
Proof.
  intros Hb Hap HR Hq Hp He. apply (runs_ext op g n _ _ m m' (fun me => alltoall_program n me dest source nelems)) in HR.
  assert (Hin : forall me pe d s k, 0 <= me < n -> APut pe d s k ∈ alltoall_acts n dest source nelems me <->
    0 <= pe < n /\ d = dest + nelems * me /\ s = source + nelems * pe /\ k = nelems).
  { intros me pe d s k Hme. unfold alltoall_acts. rewrite list_elem_of_fmap, (offset_fits me) by done. split.
    - intros (i & [= -> -> -> ->] & _). pose proof (Z.mod_pos_bound (me + i) n Hn). rewrite offset_fits by done. done.
    - intros (Hpe & -> & -> & ->). exists ((pe - me) mod n). pose proof (Z.mod_pos_bound (pe - me) n Hn).
      unfold wrap_pe. rewrite Zplus_mod_idemp_r. replace (me + (pe - me)) with pe by lia. rewrite Z.mod_small, offset_fits by done.
      split; [done | apply elem_of_seqZ; lia]. }
  replace (source + nelems * q + e) with ((source + nelems * q) + e) by lia.
  eapply (push_result op g n (alltoall_acts n dest source nelems) dest source (n * nelems) (n * nelems)) with (me := p) (k := nelems); try done.
  - intros me [pe d s k|] Hme Ha; [|by apply list_elem_of_fmap in Ha as (? & ? & _)]. apply (Hin me) in Ha as (Hpe & -> & -> & ->); [|done].
    eexists _, _, _, _. split; [done|]. nia.
  - by apply Hin.
  - intros me' d' so' k' e' Hme' Ha He' E. apply (Hin me') in Ha as (_ & -> & -> & ->); [|done].
    destruct (block_unique nelems me' p e' e) as [-> ->]; [done..|lia|done].
Qed.
End results.

(** C17: the one-shot collectives deliver what they promise, where the destination
    does not overlap the source and, for fcollect and all-to-all, the team's
    array has fewer than 2^31 elements (offsets are [int]; from there on they
    wrap, [alltoall_offset_wraps]): every execution of
    their programs by a team, whatever the order of the threads' steps and of
    the elements of the puts, leaves on every PE, for broadcast the source of
    the root, for fcollect the sources of all PEs in order, and for all-to-all
    the block that each PE has for it; and executions exist. *)
Theorem push_collectives_correct {V} (op : V -> V -> V) (g n nelems dest source : Z) :
  0 < g -> 0 < n -> 0 <= nelems ->
  (forall root, 0 <= root < n -> apart dest nelems source nelems ->
     (forall m, exists m', runs op g n (fun me => nvshmemi_bcast_put2all_threadgroup n me root dest source nelems) m m') /\
     forall m m', runs op g n (fun me => nvshmemi_bcast_put2all_threadgroup n me root dest source nelems) m m' ->
     forall q e, 0 <= q < n -> 0 <= e < nelems -> m' (q, dest + e) = m (root, source + e)) /\
  (n * nelems < 2 ^ 31 -> apart dest (n * nelems) source nelems ->
     (forall m, exists m', runs op g n (fun me => nvshmemi_fcollect_allpush_threadgroup n me dest source (nelems * me) nelems) m m') /\
     forall m m', runs op g n (fun me => nvshmemi_fcollect_allpush_threadgroup n me dest source (nelems * me) nelems) m m' ->
     forall q p e, 0 <= q < n -> 0 <= p < n -> 0 <= e < nelems -> m' (q, dest + p * nelems + e) = m (p, source + e)) /\
  (n * nelems < 2 ^ 31 -> apart dest (n * nelems) source (n * nelems) ->
     (forall m, exists m', runs op g n (fun me => nvshmemi_alltoall_p2p_allpush_threadgroup n me dest source nelems) m m') /\
     forall m m', runs op g n (fun me => nvshmemi_alltoall_p2p_allpush_threadgroup n me dest source nelems) m m' ->
     forall q p e, 0 <= q < n -> 0 <= p < n -> 0 <= e < nelems -> m' (q, dest + nelems * p + e) = m (p, source + nelems * q + e)).
Proof.
  intros Hg Hn Hk. split_and!.
  - intros root Hr Ha. split; [intros m; apply runs_exists | intros m m' HR q e; intros; by eapply bcast_result].
  - intros Hb Ha. split; [intros m; apply runs_exists | intros m m' HR q p e; intros; by eapply fcollect_result].
  - intros Hb Ha. split; [intros m; apply runs_exists | intros m m' HR q p e; intros; by eapply alltoall_result].
Qed.

(** Three PEs, four elements each *)
Lemma push_collectives_correct_witness :
  exists m', runs Z.add 32 3 (fun me => nvshmemi_alltoall_p2p_allpush_threadgroup 3 me 100 200 4) (fun l => l.1 * 1000 + l.2) m' /\ m' (1, 111) = 2207.
Proof.
  destruct (proj2 (proj2 (push_collectives_correct Z.add 32 3 4 100 200 ltac:(lia) ltac:(lia) ltac:(lia))) ltac:(lia) ltac:(left; lia)) as [He Hr].
  destruct (He (fun l => l.1 * 1000 + l.2)) as [m' HR]. exists m'. split; [exact HR|].
  exact (Hr _ m' HR 1 2 3 ltac:(lia) ltac:(lia) ltac:(lia)).
Defined.

(** With two PEs and 2^31 elements each, the offset of the second block is
    negative: PE 1 writes before the destination of PE 0 and reads before its
    own source. *)
Lemma alltoall_offset_wraps dest source :
  nvshmemi_alltoall_p2p_allpush_threadgroup 2 1 dest source (2 ^ 31) =
  [IAct (APut 1 (dest + - 2 ^ 31) (source + - 2 ^ 31) (2 ^ 31)); IAct (APut 0 (dest + - 2 ^ 31) (source + 0) (2 ^ 31)); ISync].
Proof. reflexivity. Qed.
End CollPush.
