(* ===== verification/CollBcast.v ===== *)
(** * Broadcast along a tree with flags in the data

    [nvshmemi_bcast_tree_threadgroup] of
    src/src/include/non_abi/device/coll/broadcast.cuh (and its intranode and
    internode variants, which differ in how a put reaches the child), with
    [nvshmemi_packLL_naive] and [nvshmemi_recvLL] of
    device/common/nvshmemi_common_device.cuh.  There is no barrier between
    calls: the data travels in 64-bit words, half data and half flag, a PE waits
    for the flag of the call in every word, then puts its words on to its
    children.  Calls use successive parts of the team's work space, with a
    barrier only when it is used up.

    A state holds the words of all PEs, what they received, how far each PE is,
    and the words put and not yet delivered; a put is delivered word by word, in
    any order, and reads its source when it is delivered.  Threads of a PE take
    the pairs of words in any order.  PEs are named by their index in the team,
    and the data of a call is the array of 32-bit units of the root's source. *)
From stdpp Require Import base gmap list option relations functions.
From Stdlib Require Import ZArith Lia.
From S2P Require Import Prelude IbgdaQp CollPush.

Module CollBcast.

(** ** Words *)
Definition ll_word (flag data : Z) : Z := data + flag * 2 ^ 32.
Definition word_data (w : Z) : Z := w mod 2 ^ 32.
Definition word_flag (w : Z) : Z := w / 2 ^ 32.

(** The 16 bytes [nvshmemi_packLL_naive] stores for units [i] and [i + 1], as two words *)
Definition packLL_naive (flag : Z) (source : Z -> Z) (i : Z) : Z * Z :=
  (ll_word flag (source i), ll_word flag (source (i + 1))).
(** One turn of the loop of [nvshmemi_recvLL]: [None] goes round again. *)
Definition recvLL (flag : Z) (w : Z * Z) : option (Z * Z) :=
  if bool_decide (word_flag w.1 = flag) && bool_decide (word_flag w.2 = flag)
  then Some (word_data w.1, word_data w.2) else None.

(** ** The tree *)
Section tree.
Context (size k : Z).
(** The position of a PE counted from the root *)
Definition tree_rel (root my_pe : Z) : Z := (my_pe + (size - root)) mod size.
(** The loop over the children, with its [break] *)
Fixpoint children_from (fuel : nat) (root rel i : Z) : list Z :=
  match fuel with
  | O => []
  | S fuel =>
      let child_in_team := rel * k + i + 1 in
      if bool_decide (child_in_team >= size) then []
      else (child_in_team + root) mod size :: children_from fuel root rel (i + 1)
  end.
Definition tree_children (root my_pe : Z) : list Z := children_from (Z.to_nat k) root (tree_rel root my_pe) 0.
End tree.

(** ** Calls *)

(** A call: its root, the number of 32-bit units ([nelems * sizeof(T) / 4]) and the
    source of the root *)
Record call := MkCall { c_root : Z; c_subs : Z; c_src : Z -> Z }.

(** The counters of the team at the start of a call of [bytes] bytes: the flag,
    whether there is a barrier, and the offset, in bytes *)
Definition bcast_begin (sync_bytes bytes ll_flag offset : Z) : Z * bool * Z :=
  let full := bool_decide (offset + bytes * 2 > sync_bytes) in
  (u32 (ll_flag + 1), full, if full then 0 else offset).
(** and at its end *)
Definition bcast_end (bytes offset : Z) : Z := u64 (offset + bytes * 2).

(** A call with the flag it uses, whether it begins with a barrier, and the word
    of the work space it begins at *)
Record slot := MkSlot { s_call : call; s_flag : Z; s_bar : bool; s_off : Z }.
Fixpoint schedule (sync_bytes : Z) (calls : list call) (ll_flag offset : Z) : list slot :=
  match calls with
  | [] => []
  | c :: calls =>
      let bytes := c_subs c * 4 in
      let '(flag, bar, off) := bcast_begin sync_bytes bytes ll_flag offset in
      MkSlot c flag bar (off / 8) :: schedule sync_bytes calls flag (bcast_end bytes off)
  end.

(** ** Execution *)

(** Before the call; in its barrier; with the pairs of words not yet packed or received *)
Inductive stage := SEnter | SBar | SRun (todo : list Z).
Record flight := MkFlight { fl_src : Z; fl_dst : Z; fl_call : nat; fl_word : Z }.
Record state := MkState {
  words : Z -> Z -> Z; dsts : Z -> nat -> Z -> Z; at_call : Z -> nat; stg : Z -> stage; net : list flight }.

Definition upd2 (f : Z -> Z -> Z) (p a v : Z) : Z -> Z -> Z := <[p := <[a := v]> (f p)]> f.
Definition upd_dst (f : Z -> nat -> Z -> Z) (p : Z) (j : nat) (i v : Z) : Z -> nat -> Z -> Z :=
  fun p' j' i' => if bool_decide (p' = p /\ j' = j /\ i' = i) then v else f p' j' i'.

Section exec.
Context (size k : Z) (slots : list slot).

(** The pairs of a call, by their first unit *)
Definition pairs (c : call) : list Z := (fun i => 2 * i) <$> seqZ 0 (c_subs c / 2).
Definition puts (p : Z) (j : nat) (c : call) : list flight :=
  tree_children size k (c_root c) p ≫= fun ch => (fun w => MkFlight p ch j w) <$> seqZ 0 (c_subs c).
(** Every PE of the team is past the entry of the barrier of call [j]. *)
Definition entered (s : state) (p : Z) (j : nat) : Prop := (j < at_call s p)%nat \/ (at_call s p = j /\ stg s p <> SEnter).

Inductive step (s : state) : state -> Prop :=
| step_enter p j sl :
    0 <= p < size -> at_call s p = j -> slots !! j = Some sl -> s_bar sl = false -> stg s p = SEnter ->
    step s (MkState (words s) (dsts s) (at_call s) (<[p := SRun (pairs (s_call sl))]> (stg s)) (net s))
(** a barrier waits for the puts of the PE *)
| step_bar_enter p j sl :
    0 <= p < size -> at_call s p = j -> slots !! j = Some sl -> s_bar sl = true -> stg s p = SEnter ->
    (forall f, f ∈ net s -> fl_src f <> p) ->
    step s (MkState (words s) (dsts s) (at_call s) (<[p := SBar]> (stg s)) (net s))
| step_bar_leave p j sl :
    0 <= p < size -> at_call s p = j -> slots !! j = Some sl -> stg s p = SBar ->
    (forall q, 0 <= q < size -> entered s q j) ->
    step s (MkState (words s) (dsts s) (at_call s) (<[p := SRun (pairs (s_call sl))]> (stg s)) (net s))
(** a thread of the root packs two units *)
| step_pack p j sl l1 i l2 w :
    0 <= p < size -> at_call s p = j -> slots !! j = Some sl -> p = c_root (s_call sl) -> stg s p = SRun (l1 ++ i :: l2) ->
    packLL_naive (s_flag sl) (c_src (s_call sl)) i = w ->
    step s (MkState (upd2 (upd2 (words s) p (s_off sl + i) w.1) p (s_off sl + i + 1) w.2) (dsts s) (at_call s)
                    (<[p := SRun (l1 ++ l2)]> (stg s)) (net s))
(** a thread of another PE finds both words of a pair flagged *)
| step_recv p j sl l1 i l2 d :
    0 <= p < size -> at_call s p = j -> slots !! j = Some sl -> p <> c_root (s_call sl) -> stg s p = SRun (l1 ++ i :: l2) ->
    recvLL (s_flag sl) (words s p (s_off sl + i), words s p (s_off sl + i + 1)) = Some d ->
    step s (MkState (words s) (upd_dst (upd_dst (dsts s) p j i d.1) p j (i + 1) d.2) (at_call s)
                    (<[p := SRun (l1 ++ l2)]> (stg s)) (net s))
(** the words are put to the children, and the root copies its source *)
| step_forward p j sl :
    0 <= p < size -> at_call s p = j -> slots !! j = Some sl -> stg s p = SRun [] ->
    step s (MkState (words s)
      (if bool_decide (p = c_root (s_call sl)) then <[p := <[j := c_src (s_call sl)]> (dsts s p)]> (dsts s) else dsts s)
      (<[p := S j]> (at_call s)) (<[p := SEnter]> (stg s)) (puts p j (s_call sl) ++ net s))
| step_deliver l1 f l2 sl :
    net s = l1 ++ f :: l2 -> slots !! fl_call f = Some sl ->
    step s (MkState (upd2 (words s) (fl_dst f) (s_off sl + fl_word f) (words s (fl_src f) (s_off sl + fl_word f)))
                    (dsts s) (at_call s) (stg s) (l1 ++ l2)).

(** The start: no word has the flag of a call *)
Record initial (s : state) : Prop := {
  in_words : forall p a sl, sl ∈ slots -> word_flag (words s p a) <> s_flag sl;
  in_at : forall p, at_call s p = 0%nat; in_stg : forall p, stg s p = SEnter; in_net : net s = [] }.
Definition reachable (s : state) : Prop := exists s0, initial s0 /\ rtc step s0 s.
End exec.

(** ** Words and tree *)
Lemma ll_word_flag f d : 0 <= d < 2 ^ 32 -> word_flag (ll_word f d) = f.
Proof. intros Hd. unfold word_flag, ll_word. rewrite Z.div_add by lia. rewrite Z.div_small by done. lia. Qed.
Lemma ll_word_data f d : 0 <= d < 2 ^ 32 -> word_data (ll_word f d) = d.
Proof. intros Hd. unfold word_data, ll_word. rewrite Z.mod_add by lia. by apply Z.mod_small. Qed.

Lemma upd2_eq f p a v : upd2 f p a v p a = v.
Proof. unfold upd2. by rewrite !fn_lookup_insert. Qed.
Lemma upd2_ne f p a v p' a' : ~ (p' = p /\ a' = a) -> upd2 f p a v p' a' = f p' a'.
Proof.
  intros Hne. unfold upd2. destruct (decide (p = p')) as [<-|]; [rewrite fn_lookup_insert | by rewrite fn_lookup_insert_ne].
  destruct (decide (a = a')) as [<-|]; [|by rewrite fn_lookup_insert_ne]. by destruct Hne.
Qed.

Lemma children_from_spec size k fuel root rel i x :
  x ∈ children_from size k fuel root rel i <->
  exists j, i <= j < i + Z.of_nat fuel /\ rel * k + j + 1 < size /\ x = (rel * k + j + 1 + root) mod size.
Proof.
  revert i. induction fuel as [|fuel IH]; intros i; cbn [children_from].
  - split; [by intros ?%elem_of_nil | intros (j & Hj & _); lia].
  - case_bool_decide as E; [split; [by intros ?%elem_of_nil | intros (j & Hj & Hlt & _); lia]|].
    rewrite elem_of_cons, IH. split.
    + intros [->|(j & Hj & Hlt & ->)]; [exists i | exists j]; (split; [lia|]); split; try lia; done.
    + intros (j & Hj & Hlt & ->). destruct (decide (j = i)) as [->|]; [by left|]. right. exists j. split; [lia|]. done.
Qed.

Lemma tree_rel_of size root c : 0 <= c < size -> tree_rel size root ((c + root) mod size) = c.
Proof. intros Hc. unfold tree_rel. rewrite Zplus_mod_idemp_l. replace (c + root + (size - root)) with (c + 1 * size) by lia. rewrite Z.mod_add by lia. by apply Z.mod_small. Qed.
Lemma tree_rel_inv size root p : 0 <= p < size -> (tree_rel size root p + root) mod size = p.
Proof. intros Hp. unfold tree_rel. rewrite Zplus_mod_idemp_l. replace (p + (size - root) + root) with (p + 1 * size) by lia. rewrite Z.mod_add by lia. by apply Z.mod_small. Qed.

Lemma children_range size k root p c : 0 < size -> c ∈ tree_children size k root p -> 0 <= c < size.
Proof. intros Hs (j & _ & _ & ->)%children_from_spec. by apply Z.mod_pos_bound. Qed.

(** Every PE but the root has a parent closer to the root. *)
Lemma tree_parent size k root p : 0 < size -> 0 < k -> 0 <= p < size -> tree_rel size root p <> 0 ->
  exists q, 0 <= q < size /\ p ∈ tree_children size k root q /\ tree_rel size root q < tree_rel size root p.
Proof.
  intros Hs Hk Hp Hr. assert (0 <= tree_rel size root p < size) as Hrel by (by apply Z.mod_pos_bound).
  set (r := tree_rel size root p) in *. pose proof (Z.div_mod (r - 1) k ltac:(lia)). pose proof (Z.mod_pos_bound (r - 1) k Hk).
  pose proof (Z.div_pos (r - 1) k ltac:(lia) Hk). assert ((r - 1) / k <= r - 1) by nia.
  exists (((r - 1) / k + root) mod size). split; [by apply Z.mod_pos_bound|]. rewrite tree_rel_of by lia. split; [|lia].
  unfold tree_children. rewrite tree_rel_of by lia. apply children_from_spec. exists ((r - 1) mod k). rewrite Z2Nat.id by lia. split; [lia|].
  replace ((r - 1) / k * k + (r - 1) mod k + 1) with r by lia. split; [lia|]. subst r. by rewrite tree_rel_inv.
Qed.
Lemma tree_root size root p : 0 <= p < size -> 0 <= root < size -> tree_rel size root p = 0 -> p = root.
Proof. intros Hp Hr E. rewrite <- (tree_rel_inv size root p Hp), E. by apply Z.mod_small. Qed.

(** ** The schedule of calls *)
Record call_ok (size sync_bytes : Z) (c : call) : Prop := {
  co_root : 0 <= c_root c < size; co_even : c_subs c mod 2 = 0; co_subs : 0 <= c_subs c;
  co_fits : c_subs c * 4 * 2 <= sync_bytes; co_src : forall i, 0 <= c_src c i < 2 ^ 32 }.

Record slots_ok (size : Z) (slots : list slot) : Prop := {
  so_call : forall i sl, slots !! i = Some sl -> 0 <= c_root (s_call sl) < size /\ c_subs (s_call sl) mod 2 = 0 /\ 0 <= c_subs (s_call sl) /\
    forall u, 0 <= c_src (s_call sl) u < 2 ^ 32;
  so_flag : forall i j sl sl', slots !! i = Some sl -> slots !! j = Some sl' -> s_flag sl = s_flag sl' -> i = j;
  so_disj : forall i j sl sl', (i < j)%nat -> slots !! i = Some sl -> slots !! j = Some sl' ->
    (forall b slb, (i < b <= j)%nat -> slots !! b = Some slb -> s_bar slb = false) -> s_off sl + c_subs (s_call sl) <= s_off sl' }.

Lemma schedule_calls sync calls flag off i sl : schedule sync calls flag off !! i = Some sl -> calls !! i = Some (s_call sl).
Proof. revert flag off i. induction calls as [|c calls IH]; intros flag off [|i] H; try done; cbn in H; [by simplify_eq | by apply IH in H]. Qed.

Lemma schedule_lookup sync calls flag off i c : calls !! i = Some c -> exists sl, schedule sync calls flag off !! i = Some sl /\ s_call sl = c.
Proof. revert flag off i. induction calls as [|c' calls IH]; intros flag off [|i] H; try done; cbn in *; [simplify_eq; by eexists | by apply IH]. Qed.
Lemma schedule_length sync calls flag off : length (schedule sync calls flag off) = length calls.
Proof. revert flag off. induction calls as [|c calls IH]; intros flag off; [done|]. cbn. by rewrite IH. Qed.

Lemma schedule_flag sync calls flag off i sl :
  0 <= flag -> flag + Z.of_nat (length calls) < 2 ^ 32 -> schedule sync calls flag off !! i = Some sl -> s_flag sl = flag + 1 + Z.of_nat i.
Proof.
  revert flag off i. induction calls as [|c calls IH]; intros flag off i H0 Hl H; [done|]. cbn [length] in Hl.
  assert (u32 (flag + 1) = flag + 1) as E by (apply wrap_small; unfold in_u; lia).
  destruct i as [|i]; cbn in H; [simplify_eq; cbn [s_flag]; rewrite E; lia|]. rewrite E in H. apply IH in H; lia.
Qed.

(** Without a barrier, offsets grow. *)
Lemma schedule_off size sync calls flag off j sl :
  sync < 2 ^ 63 -> Forall (call_ok size sync) calls -> 0 <= off <= sync -> off mod 8 = 0 ->
  schedule sync calls flag off !! j = Some sl ->
  (forall b slb, (b <= j)%nat -> schedule sync calls flag off !! b = Some slb -> s_bar slb = false) -> off / 8 <= s_off sl.
Proof.
  intros Hsy. revert flag off j. induction calls as [|c calls IH]; intros flag off j Hok Ho Hm H Hb; [done|].
  apply list.Forall_cons in Hok as [Hc Hok]. destruct Hc as [_ _ Hs Hf _].
  pose proof (Hb 0%nat _ ltac:(lia) eq_refl) as Hb0. cbn in Hb0. apply bool_decide_eq_false in Hb0.
  destruct j as [|j]; cbn in H; [simplify_eq; cbn [s_off]; by rewrite bool_decide_false|].
  rewrite bool_decide_false in H by done.
  assert (bcast_end (c_subs c * 4) off = off + c_subs c * 8) as E by (unfold bcast_end; rewrite wrap_small; [lia | unfold in_u; lia]).
  rewrite E in H. etrans; [|eapply (IH _ _ j); [done| | |exact H|]].
  - apply Z.div_le_mono; lia.
  - lia.
  - rewrite Z.mod_add by lia. done.
  - intros b slb Hbj Hslb. apply (Hb (S b)); [lia|]. cbn. rewrite bool_decide_false by done. by rewrite E.
Qed.

(** Every call stays in the work space. *)
Lemma schedule_bounds size sync calls flag off i sl :
  sync < 2 ^ 63 -> Forall (call_ok size sync) calls -> 0 <= off <= sync -> off mod 8 = 0 -> schedule sync calls flag off !! i = Some sl ->
  0 <= s_off sl /\ s_off sl * 8 + c_subs (s_call sl) * 8 <= sync.
Proof.
  intros Hsy. revert flag off i. induction calls as [|c calls IH]; intros flag off i Hok Ho Hm H; [done|].
  apply list.Forall_cons in Hok as [Hc Hok]. destruct Hc as [_ _ Hs Hf _].
  set (off' := if bool_decide (off + c_subs c * 4 * 2 > sync) then 0 else off) in *.
  assert (0 <= off' /\ off' + c_subs c * 8 <= sync /\ off' mod 8 = 0) as (Ho1 & Ho2 & Ho3) by (subst off'; case_bool_decide; split_and!; try done; lia).
  assert (bcast_end (c_subs c * 4) off' = off' + c_subs c * 8) as E by (unfold bcast_end; rewrite wrap_small; [lia | unfold in_u; lia]).
  destruct i as [|i]; cbn in H; fold off' in H.
  - simplify_eq. cbn [s_off s_call]. pose proof (Z.div_mod off' 8). lia.
  - rewrite E in H. eapply IH; [done | | |exact H]; [lia | by rewrite Z.mod_add by lia].
Qed.

Lemma schedule_ok size sync calls flag off :
  sync < 2 ^ 63 -> Forall (call_ok size sync) calls -> 0 <= off <= sync -> off mod 8 = 0 -> 0 <= flag -> flag + Z.of_nat (length calls) < 2 ^ 32 ->
  slots_ok size (schedule sync calls flag off).
Proof.
  intros Hsy Hok Ho Hm H0 Hl. split.
  - intros i sl H. apply schedule_calls in H. rewrite list.Forall_lookup in Hok. by destruct (Hok i _ H).
  - intros i j sl sl' Hi Hj E. apply schedule_flag in Hi, Hj; try done. lia.
  - revert flag off Ho Hm H0 Hl Hok. induction calls as [|c calls IH]; intros flag off Ho Hm H0 Hl Hok i j sl sl' Hij Hi Hj Hb; [done|].
    apply list.Forall_cons in Hok as [Hc Hok]. destruct Hc as [_ _ Hs Hf _]. destruct j as [|j]; [lia|].
    assert (u32 (flag + 1) = flag + 1) as Ef by (apply wrap_small; unfold in_u; cbn [length] in Hl; lia).
    set (off' := if bool_decide (off + c_subs c * 4 * 2 > sync) then 0 else off) in *.
    assert (0 <= off' /\ off' + c_subs c * 8 <= sync /\ off' mod 8 = 0) as (Ho1 & Ho2 & Ho3) by (subst off'; case_bool_decide; split_and!; try done; lia).
    assert (bcast_end (c_subs c * 4) off' = off' + c_subs c * 8) as E by (unfold bcast_end; rewrite wrap_small; [lia | unfold in_u; lia]).
    cbn in Hj. fold off' in Hj. rewrite E, Ef in Hj. destruct i as [|i]; cbn in Hi; fold off' in Hi.
    + simplify_eq. cbn [s_off s_call].
      assert (off' / 8 + c_subs c = (off' + c_subs c * 8) / 8) as -> by (rewrite Z.div_add by lia; done).
      eapply (schedule_off size); [done|exact Hok| | |exact Hj|]; [lia | by rewrite Z.mod_add by lia |].
      intros b slb Hbj Hslb. apply (Hb (S b)); [lia|]. cbn. fold off'. by rewrite E, Ef.
    + rewrite E, Ef in Hi. cbn [length] in Hl. eapply (IH (flag + 1) (off' + c_subs c * 8)) with (i := i) (j := j); try done; try lia.
      * by rewrite Z.mod_add by lia.
      * intros b slb Hbj Hslb. apply (Hb (S b)); [lia|]. cbn. fold off'. by rewrite E, Ef.
Qed.

(** ** The invariant *)
Section invariant.
Context (size k : Z) (slots : list slot) (Hsl : slots_ok size slots) (Hsize : 0 < size) (Hk : 0 < k).

Definition running (t : stage) : Prop := match t with SRun _ => True | _ => False end.
(** PE [p] is past the barrier of call [j]. *)
Definition past (s : state) (p : Z) (j : nat) : Prop := (j < at_call s p)%nat \/ (at_call s p = j /\ running (stg s p)).
(** PE [p] has word [w] of call [j]. *)
Definition held (s : state) (p : Z) (j : nat) (w : Z) : Prop :=
  forall sl, slots !! j = Some sl -> words s p (s_off sl + w) = ll_word (s_flag sl) (c_src (s_call sl) w).
(** The words of call [j] may still be needed. *)
Definition live (s : state) (j : nat) : Prop :=
  (exists f, f ∈ net s /\ fl_call f = j) \/
  (exists p q, 0 <= p < size /\ 0 <= q < size /\ past s p j /\ (at_call s q <= j)%nat).
Definition in_call (j : nat) (w : Z) : Prop := exists sl, slots !! j = Some sl /\ 0 <= w < c_subs (s_call sl).

Record inv (s : state) : Prop := {
  i_todo : forall p todo, 0 <= p < size -> stg s p = SRun todo ->
    exists sl, slots !! at_call s p = Some sl /\ forall i, i ∈ todo -> i ∈ pairs (s_call sl);
  i_flight : forall f, f ∈ net s -> 0 <= fl_src f < size /\ 0 <= fl_dst f < size /\
    (fl_call f < at_call s (fl_src f))%nat /\ in_call (fl_call f) (fl_word f);
  i_bar : forall p q b slb, 0 <= p < size -> 0 <= q < size -> slots !! b = Some slb -> s_bar slb = true ->
    past s p b -> entered s q b;
  i_net : forall f b slb, f ∈ net s -> slots !! b = Some slb -> s_bar slb = true ->
    entered s (fl_src f) b -> (b <= fl_call f)%nat;
  i_words : forall p a j sl, slots !! j = Some sl -> word_flag (words s p a) = s_flag sl ->
    exists w, a = s_off sl + w /\ words s p a = ll_word (s_flag sl) (c_src (s_call sl) w);
  i_src : forall f, f ∈ net s -> held s (fl_src f) (fl_call f) (fl_word f);
  i_run : forall p todo sl i, 0 <= p < size -> stg s p = SRun todo -> slots !! at_call s p = Some sl ->
    i ∈ pairs (s_call sl) -> i ∉ todo ->
    held s p (at_call s p) i /\ held s p (at_call s p) (i + 1) /\
    (p <> c_root (s_call sl) -> dsts s p (at_call s p) i = c_src (s_call sl) i /\
                                dsts s p (at_call s p) (i + 1) = c_src (s_call sl) (i + 1));
  i_done : forall p j sl w, 0 <= p < size -> (j < at_call s p)%nat -> slots !! j = Some sl -> 0 <= w < c_subs (s_call sl) ->
    dsts s p j w = c_src (s_call sl) w;
  i_par : forall q c j sl w, 0 <= q < size -> (j < at_call s q)%nat -> slots !! j = Some sl ->
    c ∈ tree_children size k (c_root (s_call sl)) q -> (at_call s c <= j)%nat -> 0 <= w < c_subs (s_call sl) ->
    MkFlight q c j w ∈ net s \/ held s c j w }.

Lemma pairs_spec c i : 0 <= c_subs c -> c_subs c mod 2 = 0 -> i ∈ pairs c <-> 0 <= i /\ i + 1 < c_subs c /\ i mod 2 = 0.
Proof.
  intros H0 He. unfold pairs. rewrite list_elem_of_fmap. setoid_rewrite elem_of_seqZ. split.
  - intros (x & -> & Hx). pose proof (Z.div_mod (c_subs c) 2). split_and!; [lia | lia | rewrite Z.mul_comm; apply Z.mod_mul; lia].
  - intros (? & ? & ?). pose proof (Z.div_mod (c_subs c) 2). pose proof (Z.div_mod i 2). exists (i / 2). lia.
Qed.
Lemma in_pair c w : 0 <= c_subs c -> c_subs c mod 2 = 0 -> 0 <= w < c_subs c -> exists i, i ∈ pairs c /\ (w = i \/ w = i + 1).
Proof. intros H0 He Hw. exists (2 * (w / 2)). rewrite pairs_spec by done.
  pose proof (Z.div_mod w 2). pose proof (Z.mod_pos_bound w 2). pose proof (Z.div_mod (c_subs c) 2). pose proof (Z.mod_mul (w / 2) 2). rewrite (Z.mul_comm 2 (w / 2)). lia. Qed.

Lemma past_entered s p j : past s p j -> entered s p j.
Proof. intros [H|[H1 H2]]; [by left | right]. split; [done|]. intros E. by rewrite E in H2. Qed.
Lemma entered_mono s p i j : (i < j)%nat -> entered s p j -> (i < at_call s p)%nat.
Proof. intros Hij [H|[H _]]; lia. Qed.
Lemma past_mono s p i j : (i <= j)%nat -> past s p j -> past s p i.
Proof. intros Hij [H|[H1 H2]]; [left; lia|]. destruct (decide (i = j)) as [->|]; [by right | left; lia]. Qed.

(** The words of two calls that may both be needed do not overlap. *)
Lemma live_apart_lt s i j sl sl' w w' :
  inv s -> (i < j)%nat -> slots !! i = Some sl -> slots !! j = Some sl' -> live s i -> live s j ->
  0 <= w < c_subs (s_call sl) -> 0 <= w' < c_subs (s_call sl') -> s_off sl + w <> s_off sl' + w'.
Proof.
  intros I Hij Hi Hj Li Lj Hw Hw' E.
  assert (exists p, 0 <= p < size /\ past s p j) as (p & Hp & Hpast).
  { destruct Lj as [(f & Hf & <-)|(p & q & Hp & _ & Hpast & _)]; [|by exists p].
    destruct (i_flight s I f Hf) as (? & _ & ? & _). exists (fl_src f). split; [done|]. by left. }
  enough (s_off sl + c_subs (s_call sl) <= s_off sl') by lia.
  apply (so_disj size slots Hsl i j); [done..|]. intros b slb Hb Hslb. destruct (s_bar slb) eqn:Eb; [exfalso | done].
  assert (forall q, 0 <= q < size -> entered s q b) as He.
  { intros q Hq. apply (i_bar s I p q b slb); try done. eapply past_mono; [|done]. lia. }
  destruct Li as [(f & Hf & Ef)|(_ & q & _ & Hq & _ & Hle)].
  - pose proof (i_net s I f b slb Hf Hslb Eb (He _ (proj1 (i_flight s I f Hf)))). lia.
  - pose proof (entered_mono s q i b ltac:(lia) (He q Hq)). lia.
Qed.

Lemma live_apart s i j sl sl' w w' :
  inv s -> slots !! i = Some sl -> slots !! j = Some sl' -> live s i -> live s j ->
  0 <= w < c_subs (s_call sl) -> 0 <= w' < c_subs (s_call sl') -> s_off sl + w = s_off sl' + w' -> i = j /\ w = w'.
Proof.
  intros I Hi Hj Li Lj Hw Hw' E. destruct (Nat.lt_trichotomy i j) as [H|[<-|H]].
  - by destruct (live_apart_lt s i j sl sl' w w').
  - simplify_eq. split; [done | lia].
  - by destruct (live_apart_lt s j i sl' sl w' w).
Qed.

(** ** Writes *)

(** [W] differs from the words of [s] by words of calls that may still be needed. *)
Definition written (s : state) (W : Z -> Z -> Z) : Prop :=
  forall p a, W p a = words s p a \/
    exists j sl w, slots !! j = Some sl /\ live s j /\ 0 <= w < c_subs (s_call sl) /\ a = s_off sl + w /\
      W p a = ll_word (s_flag sl) (c_src (s_call sl) w).

Lemma written_upd s W p j sl w v :
  written s W -> slots !! j = Some sl -> live s j -> 0 <= w < c_subs (s_call sl) ->
  v = ll_word (s_flag sl) (c_src (s_call sl) w) -> written s (upd2 W p (s_off sl + w) v).
Proof.
  intros HW Hj Hl Hw -> p' a. destruct (decide (p' = p /\ a = s_off sl + w)) as [[-> ->]|Hne].
  - right. exists j, sl, w. by rewrite upd2_eq.
  - rewrite upd2_ne by done. apply HW.
Qed.
Lemma written_refl s : written s (words s).
Proof. intros p a. by left. Qed.

Lemma written_keeps s W p j w :
  inv s -> written s W -> live s j -> in_call j w -> held s p j w ->
  forall sl, slots !! j = Some sl -> W p (s_off sl + w) = ll_word (s_flag sl) (c_src (s_call sl) w).
Proof.
  intros I HW Hl (sl0 & Hj0 & Hw) Hh sl Hj. rewrite Hj in Hj0. injection Hj0 as <-. destruct (HW p (s_off sl + w)) as [->|(j' & sl' & w' & Hj' & Hl' & Hw' & E & ->)]; [by apply Hh|].
  destruct (live_apart s j j' sl sl' w w') as [-> ->]; try done. by simplify_eq.
Qed.

Lemma written_words s W p a j sl :
  inv s -> written s W -> slots !! j = Some sl -> word_flag (W p a) = s_flag sl ->
  exists w, a = s_off sl + w /\ W p a = ll_word (s_flag sl) (c_src (s_call sl) w).
Proof.
  intros I HW Hj Hf. destruct (HW p a) as [E|(j' & sl' & w' & Hj' & _ & Hw' & -> & E)]; rewrite E in Hf |- *.
  - by apply (i_words s I p a j).
  - rewrite ll_word_flag in Hf by apply (so_call size slots Hsl _ _ Hj').
    assert (j' = j) as -> by (by apply (so_flag size slots Hsl j' j sl' sl)). simplify_eq. by exists w'.
Qed.

(** ** Every step keeps the invariant *)
Lemma live_past s p j : 0 <= p < size -> past s p j -> (at_call s p <= j)%nat -> live s j.
Proof. intros. right. by exists p, p. Qed.
Lemma live_net s f : f ∈ net s -> live s (fl_call f).
Proof. intros. left. by exists f. Qed.
Lemma run_past s p todo : stg s p = SRun todo -> past s p (at_call s p).
Proof. intros E. right. by rewrite E. Qed.
Lemma run_in_call s p sl i : slots !! at_call s p = Some sl -> i ∈ pairs (s_call sl) -> in_call (at_call s p) i /\ in_call (at_call s p) (i + 1).
Proof.
  intros Hj Hi. destruct (so_call size slots Hsl _ _ Hj) as (_ & He & H0 & _). apply pairs_spec in Hi; [|done..].
  split; exists sl; (split; [done|lia]).
Qed.

(** a change of words only *)
Lemma inv_words s W : inv s -> written s W -> inv (MkState W (dsts s) (at_call s) (stg s) (net s)).
Proof.
  intros I HW. set (s' := MkState _ _ _ _ _).
  assert (forall p j w, live s j -> in_call j w -> held s p j w -> held s' p j w) as Hk' by exact (fun p j w => written_keeps s W p j w I HW). pose proof (fun p a j sl => written_words s W p a j sl I HW) as Hw'.
  destruct I as [A B C D E F G H J]. split; cbn [words dsts at_call stg net s']; try done.
  - intros f Hf. apply Hk'; [by apply live_net | by apply B | by apply F].
  - intros p todo sl i Hp Hst Hsl' Hi Hni. destruct (G p todo sl i Hp Hst Hsl' Hi Hni) as (H1 & H2 & H3).
    destruct (run_in_call s p sl i Hsl' Hi). pose proof (live_past s p _ Hp (run_past s p todo Hst) ltac:(lia)).
    split_and!; [by apply Hk' | by apply Hk' | done].
  - intros q c j sl w Hq Hlt Hj Hc Hle Hw. destruct (J q c j sl w) as [?|Hh]; try done; [by left|right].
    apply Hk'; [|by exists sl | done]. right. exists q, c. split_and!; try done; try (by eapply children_range); try (by left);
    apply (children_range _ _ _ _ _ Hsize) in Hc; lia.
Qed.

(** a PE enters or leaves a barrier or starts a call *)
Lemma inv_stage s p sl t :
  inv s -> 0 <= p < size -> slots !! at_call s p = Some sl -> ~ running (stg s p) -> t = SBar \/ t = SRun (pairs (s_call sl)) ->
  (running t -> s_bar sl = true -> forall q, 0 <= q < size -> entered s q (at_call s p)) ->
  (s_bar sl = true -> stg s p = SEnter -> forall f, f ∈ net s -> fl_src f <> p) ->
  inv (MkState (words s) (dsts s) (at_call s) (<[p := t]> (stg s)) (net s)).
Proof.
  intros I Hp Hj Hnr Ht Hrun Hnet. set (s' := MkState _ _ _ _ _).
  assert (forall q b, past s' q b -> past s q b \/ (q = p /\ b = at_call s p /\ running t)) as Hpast.
  { intros q b [Hlt|[Hb Hr]]; [by left; left|]. cbn in Hb, Hr. destruct (decide (q = p)) as [->|].
    - rewrite fn_lookup_insert in Hr. right. by subst b.
    - rewrite fn_lookup_insert_ne in Hr by done. left. by right. }
  assert (forall q b, entered s q b -> entered s' q b) as Hent.
  { intros q b [Hlt|[Hb Hs]]; [by left|right]. split; [done|]. cbn. destruct (decide (q = p)) as [->|].
    - rewrite fn_lookup_insert. by destruct Ht as [-> | ->].
    - by rewrite fn_lookup_insert_ne. }
  assert (forall q b, entered s' q b -> entered s q b \/ (q = p /\ b = at_call s p /\ stg s p = SEnter)) as Hent'.
  { intros q b [Hlt|[Hb Hs]]; [by left; left|]. cbn in Hb, Hs. destruct (decide (q = p)) as [->|].
    - subst b. destruct (stg s p) eqn:Est; [by right | left; right; by rewrite Est..].
    - rewrite fn_lookup_insert_ne in Hs by done. left. by right. }
  destruct I as [A B C D E F G H J]. split; cbn [words dsts at_call stg net s']; try done.
  - intros q todo Hq. destruct (decide (q = p)) as [->|]; [|rewrite fn_lookup_insert_ne by done; by apply A].
    rewrite fn_lookup_insert. intros Eq. exists sl. destruct Ht as [-> | ->]; simplify_eq. done.
  - intros q q' b slb Hq Hq' Hb Hbar [Hps|(-> & -> & Hr)]%Hpast; apply Hent; [by apply (C q q' b slb)|]. simplify_eq. by apply Hrun.
  - intros f b slb Hf Hb Hbar [He|(<- & -> & He)]%Hent'; [by apply (D f b slb)|]. simplify_eq. by destruct (Hnet Hbar He f Hf).
  - intros q todo sl' i Hq. destruct (decide (q = p)) as [->|]; [|rewrite fn_lookup_insert_ne by done; by apply G].
    rewrite fn_lookup_insert. intros Eq Hj' Hi Hni. destruct Ht as [-> | ->]; by simplify_eq.
Qed.

(** a pair is done *)
Lemma inv_pair s p sl l1 i l2 D :
  inv s -> 0 <= p < size -> slots !! at_call s p = Some sl -> stg s p = SRun (l1 ++ i :: l2) ->
  held s p (at_call s p) i -> held s p (at_call s p) (i + 1) ->
  (p <> c_root (s_call sl) -> D p (at_call s p) i = c_src (s_call sl) i /\ D p (at_call s p) (i + 1) = c_src (s_call sl) (i + 1)) ->
  (forall q j u, D q j u = dsts s q j u \/ (q = p /\ j = at_call s p /\ D q j u = c_src (s_call sl) u)) ->
  inv (MkState (words s) D (at_call s) (<[p := SRun (l1 ++ l2)]> (stg s)) (net s)).
Proof.
  intros I Hp Hj Hst Hh1 Hh2 HD HDf. set (s' := MkState _ _ _ _ _).
  assert (forall q, running (stg s' q) <-> running (stg s q)) as Hrun.
  { intros q. cbn. destruct (decide (q = p)) as [->|]; [rewrite fn_lookup_insert, Hst; done | by rewrite fn_lookup_insert_ne]. }
  assert (forall q, stg s' q = SEnter <-> stg s q = SEnter) as Hen.
  { intros q. cbn. destruct (decide (q = p)) as [->|]; [rewrite fn_lookup_insert, Hst; done | by rewrite fn_lookup_insert_ne]. }
  assert (forall q b, past s' q b <-> past s q b) as Hpast by (intros; unfold past; rewrite Hrun; done).
  assert (forall q b, entered s' q b <-> entered s q b) as Hent by (intros; unfold entered; rewrite Hen; done).
  assert (forall q j u x, dsts s q j u = x -> c_src (s_call sl) u = x \/ ~ (q = p /\ j = at_call s p) -> D q j u = x) as Hd.
  { intros q j u x <- Hor. destruct (HDf q j u) as [?|(-> & -> & E)]; [done|]. destruct Hor as [<-|[]]; done. }
  destruct I as [A B C D' E F G H J]. split; cbn [words dsts at_call stg net s']; try done.
  - intros q todo Hq. destruct (decide (q = p)) as [->|]; [|rewrite fn_lookup_insert_ne by done; by apply A].
    rewrite fn_lookup_insert. intros [= <-]. destruct (A p _ Hp Hst) as (sl' & Hj' & Hin). exists sl'. split; [done|].
    intros i' Hi'. apply Hin. rewrite elem_of_app in *. rewrite elem_of_cons. naive_solver.
  - intros q q' b slb Hq Hq' Hb Hbar Hps%Hpast. apply Hent. by apply (C q q' b slb).
  - intros f b slb Hf Hb Hbar He%Hent. by apply (D' f b slb).
  - intros q todo sl' i' Hq. destruct (decide (q = p)) as [->|].
    + rewrite fn_lookup_insert. intros [= <-] Hj' Hi' Hni. simplify_eq. destruct (decide (i' = i)) as [->|Hne]; [done|].
      destruct (G p _ sl i' Hp Hst Hj Hi') as (H1 & H2 & H3).
      { rewrite elem_of_app, elem_of_cons in *. naive_solver. }
      split_and!; try done. intros Hr. destruct (H3 Hr). split; (apply Hd; [done | by left]).
    + rewrite fn_lookup_insert_ne by done. intros Hst' Hj' Hi' Hni. destruct (G q _ sl' i' Hq Hst' Hj' Hi' Hni) as (H1 & H2 & H3).
      split_and!; try done. intros Hr. destruct (H3 Hr). split; (apply Hd; [done | right; naive_solver]).
  - intros q j sl' w Hq Hlt Hj' Hw. apply Hd; [by apply (H q j)|]. right. intros [-> ->]. lia.
Qed.

(** a word has arrived *)
Lemma inv_remove s l1 f l2 : inv s -> net s = l1 ++ f :: l2 -> held s (fl_dst f) (fl_call f) (fl_word f) ->
  inv (MkState (words s) (dsts s) (at_call s) (stg s) (l1 ++ l2)).
Proof.
  intros I Hn Hh. assert (forall g, g ∈ l1 ++ l2 -> g ∈ net s) as Hsub by (intros g; rewrite Hn, !elem_of_app, elem_of_cons; tauto).
  destruct I as [A B C D E F G H J]. split; cbn [words dsts at_call stg net]; try done.
  - intros g Hg. by apply B, Hsub.
  - intros g b slb Hg. by apply D, Hsub.
  - intros g Hg. by apply F, Hsub.
  - intros q c j sl w Hq Hlt Hj Hc Hle Hw. destruct (J q c j sl w) as [Hin|?]; try done; [|by right].
    rewrite Hn, elem_of_app, elem_of_cons in Hin. rewrite elem_of_app. destruct Hin as [?|[<-|?]]; [by left; left | by right | by left; right].
Qed.

Lemma puts_spec p j c f : f ∈ puts size k p j c <->
  fl_src f = p /\ fl_call f = j /\ fl_dst f ∈ tree_children size k (c_root c) p /\ 0 <= fl_word f < c_subs c.
Proof.
  unfold puts. rewrite list_elem_of_bind. setoid_rewrite list_elem_of_fmap. setoid_rewrite elem_of_seqZ. split.
  - intros (ch & (w & -> & Hw) & Hc). cbn. split_and!; try done; lia.
  - destruct f as [src dst cl w]. cbn. intros (-> & -> & Hc & Hw). exists dst. split; [|done]. exists w. split; [done | lia].
Qed.

Lemma run_held s p sl w : inv s -> 0 <= p < size -> slots !! at_call s p = Some sl -> stg s p = SRun [] -> 0 <= w < c_subs (s_call sl) ->
  held s p (at_call s p) w /\ (p <> c_root (s_call sl) -> dsts s p (at_call s p) w = c_src (s_call sl) w).
Proof.
  intros I Hp Hj Hst Hw. destruct (so_call size slots Hsl _ _ Hj) as (_ & He & H0 & _).
  destruct (in_pair (s_call sl) w H0 He Hw) as (i & Hi & Hwi).
  destruct (i_run s I p [] sl i Hp Hst Hj Hi ltac:(apply not_elem_of_nil)) as (H1 & H2 & H3).
  destruct Hwi as [-> | ->]; (split; [done|]); intros Hr; by destruct (H3 Hr).
Qed.

(** a PE has put its words to its children *)
Lemma inv_forward s p sl :
  inv s -> 0 <= p < size -> slots !! at_call s p = Some sl -> stg s p = SRun [] ->
  inv (MkState (words s)
      (if bool_decide (p = c_root (s_call sl)) then <[p := <[at_call s p := c_src (s_call sl)]> (dsts s p)]> (dsts s) else dsts s)
      (<[p := S (at_call s p)]> (at_call s)) (<[p := SEnter]> (stg s)) (puts size k p (at_call s p) (s_call sl) ++ net s)).
Proof.
  intros I Hp Hj Hst. set (j := at_call s p) in *. set (s' := MkState _ _ _ _ _).
  assert (at_call s' p = S j) as Hat by (cbn; by rewrite fn_lookup_insert).
  assert (stg s' p = SEnter) as Hst' by (cbn; by rewrite fn_lookup_insert).
  assert (forall q, q <> p -> at_call s' q = at_call s q /\ stg s' q = stg s q) as Hne by (intros q Hq; cbn; by rewrite !fn_lookup_insert_ne).
  assert (forall q, (at_call s q <= at_call s' q)%nat) as Hle.
  { intros q. destruct (decide (q = p)) as [->|Hq]; [rewrite Hat; fold j; lia | by rewrite (proj1 (Hne q Hq))]. }
  assert (forall q b, past s' q b -> past s q b) as Hpast.
  { intros q b. destruct (decide (q = p)) as [->|Hq]; unfold past; [|by destruct (Hne q Hq) as [-> ->]].
    rewrite Hat, Hst', Hst. fold j. intros [Hb|[_ []]]. destruct (decide (b = j)) as [->|]; [by right | left; lia]. }
  assert (forall q b, entered s' q b <-> entered s q b) as Hent.
  { intros q b. destruct (decide (q = p)) as [->|Hq]; unfold entered; [|by destruct (Hne q Hq) as [-> ->]].
    rewrite Hat, Hst', Hst. fold j. split; [intros [Hb|[_ Hb]]; [|done] | intros [Hb|[Hb _]]; left; lia].
    destruct (decide (b = j)) as [->|]; [by right | left; lia]. }
  pose proof (fun w => run_held s p sl w I Hp Hj Hst) as Hrun. fold j in Hrun.
  destruct I as [A B C D E F G H J]. split; try done.
  - intros q todo Hq. destruct (decide (q = p)) as [->|Hqp]; [by rewrite Hst'|]. destruct (Hne q Hqp) as [-> ->]. by apply A.
  - intros f [Hf|Hf]%elem_of_app.
    + apply puts_spec in Hf as (Esrc & Ecall & Hd & Hw). rewrite Esrc, Hat, Ecall. split_and!; try lia; try (by eapply children_range); [|by exists sl].
      apply (children_range _ _ _ _ _ Hsize) in Hd. lia.
    + destruct (B f Hf) as (? & ? & ? & ?). split_and!; try done; try lia. eapply Nat.lt_le_trans; [done | apply Hle].
  - intros q q' b slb Hq Hq' Hb Hbar Hps%Hpast. apply Hent. by apply (C q q' b slb).
  - intros f b slb [Hf|Hf]%elem_of_app Hb Hbar He%Hent; [|by apply (D f b slb)].
    apply puts_spec in Hf as (Esrc & Ecall & _ & _). rewrite Esrc in He. rewrite Ecall. destruct He as [He|[He _]]; fold j in He; lia.
  - intros f [Hf|Hf]%elem_of_app; [|by apply F]. apply puts_spec in Hf as (-> & -> & _ & Hw). by apply Hrun.
  - intros q todo sl' i Hq. destruct (decide (q = p)) as [->|Hqp]; [by rewrite Hst'|]. destruct (Hne q Hqp) as [-> ->].
    cbn [dsts s']. case_bool_decide; [rewrite fn_lookup_insert_ne by done|]; by apply G.
  - intros q b sl' w Hq Hlt Hb Hw. cbn [dsts s']. destruct (decide (q = p)) as [->|Hqp].
    + rewrite Hat in Hlt. destruct (decide (b = j)) as [->|Hbj].
      * simplify_eq. case_bool_decide; [by rewrite !fn_lookup_insert | by apply Hrun].
      * rewrite <- (H p b sl' w) by (done || (fold j; lia)). case_bool_decide; [|done]. rewrite fn_lookup_insert. by rewrite fn_lookup_insert_ne.
    + rewrite (proj1 (Hne q Hqp)) in Hlt. rewrite <- (H q b sl' w) by done. case_bool_decide; [by rewrite fn_lookup_insert_ne | done].
  - intros q c b sl' w Hq Hlt Hb Hc Hc' Hw. pose proof (Hle c). destruct (decide (q = p /\ b = j)) as [[-> ->]|Hqb].
    + left. cbn [net s']. rewrite elem_of_app, puts_spec. left. cbn. by simplify_eq.
    + destruct (J q c b sl' w) as [?|?]; try done; try lia; [|left; cbn [net s']; rewrite elem_of_app; by right | by right].
      destruct (decide (q = p)) as [->|Hqp]; [|by rewrite (proj1 (Hne q Hqp)) in Hlt]. rewrite Hat in Hlt. fold j.
      destruct (decide (b = j)) as [->|]; [by destruct Hqb | lia].
Qed.

Lemma recv_held s p sl i d : inv s -> slots !! at_call s p = Some sl -> i ∈ pairs (s_call sl) ->
  recvLL (s_flag sl) (words s p (s_off sl + i), words s p (s_off sl + i + 1)) = Some d ->
  held s p (at_call s p) i /\ held s p (at_call s p) (i + 1) /\ d = (c_src (s_call sl) i, c_src (s_call sl) (i + 1)).
Proof.
  intros I Hj Hi Hr. unfold recvLL in Hr. cbn [fst snd] in Hr. destruct (bool_decide _) eqn:E1; [|done]. cbn in Hr. destruct (bool_decide _) eqn:E2 in Hr; [|done].
  apply bool_decide_eq_true in E1, E2. injection Hr as <-.
  apply (i_words s I p _ _ sl Hj) in E1 as (w1 & H1 & E1). apply (i_words s I p _ _ sl Hj) in E2 as (w2 & H2 & E2).
  assert (w1 = i) as -> by lia. assert (w2 = i + 1) as -> by lia. destruct (so_call size slots Hsl _ _ Hj) as (_ & _ & _ & Hd).
  rewrite E1, E2, !ll_word_data by done. split_and!; [| |done]; intros sl' Hj'; simplify_eq; [done|]. by rewrite Z.add_assoc.
Qed.

Lemma bcast_inv_step s s' : inv s -> step size k slots s s' -> inv s'.
Proof.
  intros I Hst. destruct Hst as [p j sl Hp <- Hj Hb Hs | p j sl Hp <- Hj Hb Hs Hn | p j sl Hp <- Hj Hs He
    | p j sl l1 i l2 w Hp <- Hj Hr Hs <- | p j sl l1 i l2 d Hp <- Hj Hr Hs Hd | p j sl Hp <- Hj Hs | l1 f l2 sl Hn Hj].
  - apply (inv_stage s p sl); try done; [rewrite Hs; cbn; tauto | by right | congruence | congruence].
  - apply (inv_stage s p sl); try done; [rewrite Hs; cbn; tauto | by left].
  - apply (inv_stage s p sl); try done; [rewrite Hs; cbn; tauto | by right | congruence].
  - destruct (i_todo s I p _ Hp Hs) as (sl' & Hj' & Hin). rewrite Hj in Hj'. injection Hj' as <-. specialize (Hin i ltac:(rewrite elem_of_app, elem_of_cons; tauto)).
    destruct (run_in_call s p sl i Hj Hin) as [(sl1 & E1 & Hi1) (sl2 & E2 & Hi2)].
    rewrite Hj in E1, E2. injection E1 as <-. injection E2 as <-.
    pose proof (live_past s p _ Hp (run_past s p _ Hs) ltac:(lia)) as Hl. cbn [packLL_naive fst snd].
    set (W := upd2 _ _ _ _). assert (written s W) as HW.
    { subst W. rewrite <- Z.add_assoc. eapply written_upd; try done. eapply written_upd; try done. apply written_refl. }
    pose proof (inv_words s W I HW) as I'. set (s1 := MkState W (dsts s) (at_call s) (stg s) (net s)) in *.
    apply (inv_pair s1 p sl l1 i l2 (dsts s)); try done.
    + intros sl' Hj'. cbn in Hj'. simplify_eq. subst W. cbn [s1 words]. rewrite upd2_ne by lia. by rewrite upd2_eq.
    + intros sl' Hj'. cbn in Hj'. simplify_eq. subst W. cbn [s1 words]. rewrite Z.add_assoc. by rewrite upd2_eq.
    + intros q j u. by left.
  - destruct (i_todo s I p _ Hp Hs) as (sl' & Hj' & Hin). rewrite Hj in Hj'. injection Hj' as <-. specialize (Hin i ltac:(rewrite elem_of_app, elem_of_cons; tauto)).
    destruct (recv_held s p sl i d I Hj Hin Hd) as (H1 & H2 & ->). cbn [fst snd]. apply (inv_pair s p sl l1 i l2); try done.
    + intros _. unfold upd_dst. split; [rewrite (bool_decide_false (p = p /\ _ /\ i = i + 1)) by lia|]; by rewrite bool_decide_true.
    + intros q j u. unfold upd_dst. case_bool_decide as E1; [right; by destruct E1 as (-> & -> & ->)|].
      case_bool_decide as E2; [right; by destruct E2 as (-> & -> & ->) | by left].
  - by apply inv_forward.
  - assert (f ∈ net s) as Hf by (rewrite Hn, elem_of_app, elem_of_cons; tauto).
    destruct (i_flight s I f Hf) as (_ & _ & _ & (sl' & Hj' & Hw)). simplify_eq. pose proof (i_src s I f Hf _ Hj) as E.
    set (W := upd2 _ _ _ _). assert (written s W) as HW.
    { subst W. eapply written_upd; try done; [apply written_refl | by apply live_net]. }
    apply (inv_remove (MkState W (dsts s) (at_call s) (stg s) (net s)) l1 f l2); [by apply inv_words | done |].
    intros sl' Hj''. simplify_eq. cbn [words]. subst W. by rewrite upd2_eq.
Qed.

Lemma inv_initial s : initial slots s -> inv s.
Proof.
  intros [A B C D]. split; intros *; unfold past; rewrite ?B, ?C, ?D; try (by intros ?%not_elem_of_nil); try done; try lia.
  - intros _ _ _ _ [?|[_ []]]. lia.
  - intros Hj Hf. destruct (A p a sl); [|done]. by eapply list_elem_of_lookup_2.
Qed.

Lemma bcast_inv_reachable s : reachable size k slots s -> inv s.
Proof. intros (s0 & H0%inv_initial & Hr). induction Hr as [|s s1 s2 Hs _ IH]; [done|]. apply IH. by eapply bcast_inv_step. Qed.

(** ** No deadlock *)
#[local] Instance stage_eq_dec : EqDecision stage.
Proof. solve_decision. Defined.

Lemma exists_min (g : Z -> nat) (l : list Z) : l <> [] -> exists x, x ∈ l /\ forall y, y ∈ l -> (g x <= g y)%nat.
Proof.
  induction l as [|x l IH]; [done|]. intros _. destruct l as [|y l]; [exists x; split; [by left|]; intros z [->|Hz]%elem_of_cons; [done | by apply not_elem_of_nil in Hz]|].
  destruct (IH ltac:(done)) as (m & Hm & Hmin). destruct (decide (g x <= g m)%nat).
  - exists x. split; [by left|]. intros z [->|Hz]%elem_of_cons; [done|]. specialize (Hmin z Hz). lia.
  - exists m. split; [by right|]. intros z [->|Hz]%elem_of_cons; [lia | by apply Hmin].
Qed.

Lemma deliver_steps s : inv s -> net s <> [] -> exists s', step size k slots s s'.
Proof.
  intros I Hn. destruct (net s) as [|f l] eqn:E; [done|].
  destruct (i_flight s I f ltac:(rewrite E; by left)) as (_ & _ & _ & (sl & Hj & _)). eexists. by apply (step_deliver _ _ _ s [] f l sl).
Qed.

Lemma enter_steps s p sl : net s = [] -> 0 <= p < size -> slots !! at_call s p = Some sl -> stg s p = SEnter -> exists s', step size k slots s s'.
Proof.
  intros Hn Hp Hj Hs. destruct (s_bar sl) eqn:Hb; eexists; [eapply (step_bar_enter _ _ _ s p) | eapply (step_enter _ _ _ s p)]; try done.
  intros f. rewrite Hn. by intros ?%not_elem_of_nil.
Qed.

(** A PE that is behind no other can move, or one above it in the tree can. *)
Lemma lowest_steps s j sl : inv s -> net s = [] -> slots !! j = Some sl -> (forall q, 0 <= q < size -> (j <= at_call s q)%nat) ->
  forall n p, 0 <= p < size -> at_call s p = j -> (Z.to_nat (tree_rel size (c_root (s_call sl)) p) < n)%nat -> exists s', step size k slots s s'.
Proof.
  intros I Hn Hj Hmin. induction n as [|n IH]; intros p Hp Hat Hlt; [lia|]. destruct (stg s p) as [| |todo] eqn:Hs.
  - by apply (enter_steps s p sl); rewrite ?Hat.
  - destruct (decide (Exists (fun q => at_call s q = j /\ stg s q = SEnter) (seqZ 0 size))) as [He|He].
    + apply list.Exists_exists in He as (q & Hq%elem_of_seqZ & Eq & Es). apply (enter_steps s q sl); rewrite ?Eq; try done; lia.
    + eexists. eapply (step_bar_leave _ _ _ s p); try done. intros q Hq. specialize (Hmin q Hq).
      destruct (decide (at_call s q = j)) as [Eq|]; [right | left; lia]. split; [done|]. intros Es. apply He, list.Exists_exists.
      exists q. split; [apply elem_of_seqZ; lia | done].
  - destruct todo as [|i todo]; [eexists; by eapply (step_forward _ _ _ s p)|].
    destruct (decide (p = c_root (s_call sl))) as [Hr|Hr]; [eexists; by eapply (step_pack _ _ _ s p j sl [] i todo)|].
    destruct (so_call size slots Hsl _ _ Hj) as (Hroot & He & H0 & Hd).
    destruct (tree_parent size k (c_root (s_call sl)) p) as (q & Hq & Hc & Hlt'); try done.
    { intros E. by apply Hr, (tree_root size). }
    assert (0 <= tree_rel size (c_root (s_call sl)) q) by (by apply Z.mod_pos_bound).
    destruct (decide (at_call s q = j)) as [Eq|Hne]; [apply (IH q Hq Eq); lia|]. specialize (Hmin q Hq).
    destruct (i_todo s I p _ Hp Hs) as (sl' & Hj' & Hin). rewrite Hat, Hj in Hj'. injection Hj' as <-. specialize (Hin i ltac:(by left)).
    apply pairs_spec in Hin; [|done..].
    destruct (i_par s I q p j sl i) as [Hf|Hh1]; try done; try lia; [rewrite Hn in Hf; by apply not_elem_of_nil in Hf|].
    destruct (i_par s I q p j sl (i + 1)) as [Hf|Hh2]; try done; try lia; [rewrite Hn in Hf; by apply not_elem_of_nil in Hf|].
    eexists. eapply (step_recv _ _ _ s p j sl [] i todo); try done.
    unfold recvLL. cbn [fst snd]. rewrite <- Z.add_assoc, (Hh1 sl Hj), (Hh2 sl Hj), !ll_word_flag, bool_decide_true by done. done.
Qed.

Lemma unfinished_steps s p : inv s -> 0 <= p < size -> (at_call s p < length slots)%nat -> exists s', step size k slots s s'.
Proof.
  intros I Hp Hlt. destruct (decide (net s = [])) as [Hn|]; [|by apply deliver_steps].
  destruct (exists_min (at_call s) (seqZ 0 size)) as (m & Hm & Hmin).
  { intros E. assert (p ∈ seqZ 0 size) as Hin by (apply elem_of_seqZ; lia). rewrite E in Hin. by apply not_elem_of_nil in Hin. }
  apply elem_of_seqZ in Hm. pose proof (Hmin p ltac:(apply elem_of_seqZ; lia)).
  destruct (lookup_lt_is_Some_2 slots (at_call s m)) as [sl Hj]; [lia|].
  eapply (lowest_steps s (at_call s m) sl I Hn Hj) with (p := m); [|lia | done | apply Nat.lt_succ_diag_r].
  intros q Hq. apply Hmin, elem_of_seqZ. lia.
Qed.
End invariant.

(** ** Termination *)
Section work.
Context (size k : Z) (slots : list slot).

(** What is left of call [j] for PE [p] at a stage of it *)
Definition stage_work (p : Z) (j : nat) (t : stage) : nat :=
  match slots !! j with
  | None => 0
  | Some sl =>
      match t with SEnter => 3 + length (pairs (s_call sl)) | SBar => 2 + length (pairs (s_call sl)) | SRun todo => 1 + length todo end
      + length (puts size k p j (s_call sl))
  end.
Definition rest_work (p : Z) (j : nat) : nat := sum_list_with (fun i => stage_work p i SEnter) (seq j (length slots - j)).
Definition pe_work (s : state) (p : Z) : nat := stage_work p (at_call s p) (stg s p) + rest_work p (S (at_call s p)).
Definition work (s : state) : nat := sum_list_with (pe_work s) (seqZ 0 size) + length (net s).

Lemma rest_work_S p j : (stage_work p j SEnter + rest_work p (S j) = rest_work p j)%nat.
Proof.
  unfold rest_work. destruct (decide (j < length slots)%nat) as [H|H].
  - replace (length slots - j)%nat with (S (length slots - S j)) by lia. done.
  - unfold stage_work. rewrite lookup_ge_None_2 by lia. by replace (length slots - j)%nat with 0%nat by lia; replace (length slots - S j)%nat with 0%nat by lia.
Qed.

(** A step of PE [p] that leaves the others as they are *)
Lemma work_move s s' p (n : nat) : 0 <= p < size -> (forall q, q <> p -> at_call s' q = at_call s q /\ stg s' q = stg s q) ->
  length (net s') = (length (net s) + n)%nat -> (pe_work s' p + n < pe_work s p)%nat -> (work s' < work s)%nat.
Proof.
  intros Hp Hne Hn Hlt. unfold work. rewrite Hn.
  pose proof (sum_list_upd (pe_work s) (pe_work s') (seqZ 0 size) p (NoDup_seqZ _ _) ltac:(apply elem_of_seqZ; lia)) as HU.
  ospecialize (HU _); [|lia]. intros q _ Hq. unfold pe_work. by destruct (Hne q Hq) as [-> ->].
Qed.

Lemma step_work s s' : step size k slots s s' -> (work s' < work s)%nat.
Proof.
  intros [p j sl Hp <- Hj Hb Hs | p j sl Hp <- Hj Hb Hs Hn | p j sl Hp <- Hj Hs He
    | p j sl l1 i l2 w Hp <- Hj Hr Hs <- | p j sl l1 i l2 d Hp <- Hj Hr Hs Hd | p j sl Hp <- Hj Hs | l1 f l2 sl Hn Hj].
  1-5: apply (work_move _ _ p 0%nat); [done | intros q Hq; cbn; by rewrite fn_lookup_insert_ne | cbn; lia |];
    unfold pe_work, stage_work; cbn [at_call stg]; rewrite fn_lookup_insert, Hj, Hs; rewrite ?length_app; cbn [length]; lia.
  - apply (work_move _ _ p (length (puts size k p (at_call s p) (s_call sl)))); [done | intros q Hq; cbn; by rewrite !fn_lookup_insert_ne | cbn; rewrite length_app; lia |].
    unfold pe_work. cbn [at_call stg]. rewrite !fn_lookup_insert, rest_work_S, Hs. unfold stage_work. rewrite Hj. cbn [length]. lia.
  - unfold work. cbn [net]. rewrite Hn, !length_app. cbn [length]. change (pe_work (MkState _ _ (at_call s) (stg s) _)) with (pe_work s). lia.
Qed.

Lemma steps_bounded n s s' : nsteps (step size k slots) n s s' -> (n + work s' <= work s)%nat.
Proof. induction 1 as [|n s s1 s2 Hs%step_work _ IH]; lia. Qed.
End work.

(** ** A sequence of broadcasts *)

(** The choice of the algorithm takes the LL tree only for calls that fit. *)
Lemma selected_call_ok algo sync_bytes nelems sizeof npes block size root src :
  CollPush.bcast_select algo sync_bytes nelems sizeof npes block = Ret 3 -> sizeof mod 4 = 0 -> 0 <= nelems ->
  0 <= root < size -> (forall i, 0 <= src i < 2 ^ 32) -> call_ok size sync_bytes (MkCall root (nelems * sizeof / 4) src).
Proof.
  intros Hsel Hs Hn Hr Hsrc. assert (sync_bytes >= nelems * sizeof * 2 /\ sizeof >= 4 /\ nelems mod 2 = 0) as (H1 & H2 & H3).
  { unfold CollPush.bcast_select in Hsel. repeat case_bool_decide; repeat case_match; simplify_eq; done. }
  pose proof (Z.div_mod sizeof 4). pose proof (Z.div_mod nelems 2).
  assert (nelems * sizeof / 4 = nelems / 2 * (sizeof / 4) * 2) as E.
  { replace (nelems * sizeof) with (nelems / 2 * (sizeof / 4) * 2 * 4) by nia. by rewrite Z.div_mul. }
  split; cbn [c_root c_subs c_src]; try done; rewrite E; [by apply Z.mod_mul | nia | nia].
Qed.

(** C15: in a sequence of tree broadcasts of one team, of any roots and of sizes that fit
    in the work space, with the words of the puts delivered one by one in any order and no
    barrier but the one taken when the work space is used up, every PE that has finished a
    call received the root's source; the PEs never wait for each other for ever; the
    number of steps is bounded, so all calls finish on all PEs; and no call leaves the
    work space. *)
Theorem bcast_sequence_correct (size k sync_bytes ll_flag : Z) (calls : list call) (s : state) :
  0 < size -> 0 < k -> sync_bytes < 2 ^ 63 -> 0 <= sync_bytes -> 0 <= ll_flag -> ll_flag + Z.of_nat (length calls) < 2 ^ 32 ->
  Forall (call_ok size sync_bytes) calls -> reachable size k (schedule sync_bytes calls ll_flag 0) s ->
  (forall p j c w, 0 <= p < size -> (j < at_call s p)%nat -> calls !! j = Some c -> 0 <= w < c_subs c -> dsts s p j w = c_src c w) /\
  ((forall s', ~ step size k (schedule sync_bytes calls ll_flag 0) s s') -> forall p, 0 <= p < size -> (length calls <= at_call s p)%nat) /\
  (forall n s', nsteps (step size k (schedule sync_bytes calls ll_flag 0)) n s s' -> (n <= work size k (schedule sync_bytes calls ll_flag 0) s)%nat) /\
  (forall j sl, schedule sync_bytes calls ll_flag 0 !! j = Some sl -> 0 <= s_off sl /\ s_off sl * 8 + c_subs (s_call sl) * 8 <= sync_bytes).
Proof.
  intros Hs Hk Hsy Hsy0 Hf Hl Hok Hr. assert (slots_ok size (schedule sync_bytes calls ll_flag 0)) as Hsl by (by apply schedule_ok; try lia).
  pose proof (bcast_inv_reachable size k _ Hsl Hs s Hr) as I. split_and!.
  - intros p j c w Hp Hlt Hc Hw. destruct (schedule_lookup sync_bytes calls ll_flag 0 j c Hc) as (sl & Hj & <-). by apply (i_done _ _ _ s I p j sl).
  - intros Hstuck p Hp. destruct (decide (length calls <= at_call s p)%nat) as [|Hlt]; [done|]. exfalso.
    destruct (unfinished_steps size k _ Hsl Hs Hk s p I Hp) as [s' Hst]; [rewrite schedule_length; lia|]. by apply (Hstuck s').
  - intros n s' Hn%steps_bounded. lia.
  - intros j sl Hj. by apply (schedule_bounds size sync_bytes calls ll_flag 0 j).
Qed.

(** Two PEs, one call of two units, up to the second PE's end of the call *)
Definition ex_slots : list slot := schedule 16 [MkCall 0 2 (fun i => if i =? 0 then 7 else 8)] 0 0.
Definition ex_start : state := MkState (fun _ _ => 0) (fun _ _ _ => 0) (fun _ => 0%nat) (fun _ => SEnter) [].

Tactic Notation "ex_step" uconstr(rule) := eapply rtc_l; [eapply rule; try reflexivity; try lia; done|]; cbn -[upd2 upd_dst].
Lemma ex_reachable : exists s, reachable 2 2 ex_slots s /\ (0 < at_call s 1)%nat.
Proof.
  assert (exists s, rtc (step 2 2 ex_slots) ex_start s /\ (0 < at_call s 1)%nat) as (s & Hr & Ha).
  { eexists. split.
    - ex_step (step_enter 2 2 ex_slots _ 0). ex_step (step_pack 2 2 ex_slots _ 0 0 _ [] 0 []).
      ex_step (step_forward 2 2 ex_slots _ 0). ex_step (step_deliver 2 2 ex_slots _ [MkFlight 0 1 0 0] (MkFlight 0 1 0 1) []).
      ex_step (step_deliver 2 2 ex_slots _ [] (MkFlight 0 1 0 0) []).
      ex_step (step_enter 2 2 ex_slots _ 1). ex_step (step_recv 2 2 ex_slots _ 1 0 _ [] 0 []).
      ex_step (step_forward 2 2 ex_slots _ 1). apply rtc_refl.
    - apply Nat.ltb_lt. reflexivity. }
  exists s. split; [|done]. exists ex_start. split; [|done]. split; try done. by intros p a sl ->%list_elem_of_singleton.
Qed.
Lemma bcast_sequence_correct_witness : exists s, reachable 2 2 ex_slots s /\ dsts s 1 0%nat 1 = 8.
Proof.
  destruct ex_reachable as (s & Hr & Ha). exists s. split; [done|].
  refine (proj1 (bcast_sequence_correct 2 2 16 0 [MkCall 0 2 (fun i => if i =? 0 then 7 else 8)] s _ _ _ _ _ _ _ Hr)
    1 0%nat (MkCall 0 2 (fun i => if i =? 0 then 7 else 8)) 1 _ Ha eq_refl _); try (cbn; lia).
  constructor; [|constructor]. split; cbn; try lia; try done. intros i. destruct (i =? 0); lia.
Defined.
End CollBcast.
