(* ===== verification/CollFcollect.v ===== *)
(** * Fcollect with flags in the data

    [nvshmemi_fcollect_allpush_ll_threadgroup] of
    src/src/include/non_abi/device/coll/fcollect.cuh in its LL8 version, for a team
    of one node whose GPUs are all mapped to each other, with
    [nvshmemi_packLL] of device/common/nvshmemi_common_device.cuh.  Every thread
    stores its share of the PE's source, as flagged words, into the work space of
    every PE, and then waits for its share of what the others store.  There is no
    barrier: successive calls use the two halves of the work space in turn.

    First the shares: how the warps and lanes divide PEs and elements among them,
    and that together they store and receive everything once, when the warps
    divide evenly into groups.  Then executions of a sequence of calls as a step
    relation.  Sizes and positions are counted in units of 32 bits. *)
From stdpp Require Import base list option relations functions.
From Stdlib Require Import ZArith Lia.
From S2P Require Import Prelude IbgdaQp IbgdaQpSpec CollReduce CollBcast.

Module CollFcollect.
Import IbgdaQp IbgdaQpSpec CollReduce.
Import (hints, notations) CollBcast.

(** ** Programs of threads *)

(** A thread stores the pair of units that begins at [unit] to a PE, or waits for
    that pair from a PE. *)
Inductive instr := Store (pe unit : Z) | Recv (pe unit : Z).
#[export] Instance instr_eq_dec : EqDecision instr.
Proof. solve_decision. Defined.

(** [_LL_8_DATA_BYTES_PER_WARP * _LL_MAX_UNROLL], in units *)
Definition warp_units : Z := 256 * 4 / 4.

(** The loop of a lane in [nvshmemi_recvLL] and [nvshmemi_packLL_naive] *)
Definition lane_pairs (lane n : Z) : list Z := strides (2 * lane) n (2 * 32).
(** [nvshmemi_packLL] of a warp *)
Definition packLL (unroll lane n base : Z) (pes : list Z) : list instr :=
  strides (lane * unroll * 2) n (32 * unroll * 2) ≫= fun element_offset =>
  pes ≫= fun pe => (fun u => Store pe (base + (element_offset + 2 * u))) <$> seqZ 0 unroll.

(** The groups of warps and the PEs of a group: first and number *)
Definition num_warp_groups (warp_count subs : Z) : Z := Z.max 1 (warp_count / Z.max 1 (subs / warp_units)).
Definition group_start (size groups g : Z) : Z :=
  (size / groups + (if bool_decide (g < size mod groups) then 1 else 0)) * g + (if bool_decide (g >= size mod groups) then size mod groups else 0).
Definition group_num (size groups g : Z) : Z := size / groups + (if bool_decide (g < size mod groups) then 1 else 0).

(** The blocks of a warp, from block [b] on: first unit, number of units, and
    whether it is a full one *)
Fixpoint warp_blocks (fuel : nat) (subs step b : Z) : list (Z * Z * bool) :=
  match fuel with
  | O => []
  | S fuel =>
      if bool_decide (b * warp_units + warp_units < subs)
      then (b * warp_units, warp_units, true) :: warp_blocks fuel subs step (b + step)
      else if bool_decide (subs > b * warp_units) then [(b * warp_units, subs - b * warp_units, false)] else []
  end.

Definition thread_program (size my_pe warp_count subs warp_id lane : Z) : list instr :=
  if bool_decide (subs < warp_units) then
    (strides (warp_id + my_pe) (size + my_pe) warp_count ≫= fun ii => Store (wrap_pe size ii) <$> lane_pairs lane subs) ++
    (strides warp_id size warp_count ≫= fun ii => Recv ii <$> lane_pairs lane subs)
  else
    let groups := num_warp_groups warp_count subs in
    let per_group := warp_count / groups in
    let g := warp_id / per_group in
    let start := group_start size groups g in
    let num := group_num size groups g in
    let bs := warp_blocks (S (Z.to_nat subs)) subs per_group (warp_id mod per_group) in
    (bs ≫= fun b : Z * Z * bool => packLL (if b.2 then 4 else 1) lane b.1.2 b.1.1 (wrap_pe size <$> seqZ start num)) ++
    (bs ≫= fun b : Z * Z * bool => seqZ start num ≫= fun pe => (fun i => Recv pe (b.1.1 + i)) <$> lane_pairs lane b.1.2).

Definition fc_threads (size my_pe warp_count subs : Z) : list (list instr) :=
  seqZ 0 warp_count ≫= fun w => (fun l => thread_program size my_pe warp_count subs w l) <$> seqZ 0 32.

(** What there is to do *)
Definition unit_pairs (subs : Z) : list Z := (fun i => 2 * i) <$> seqZ 0 (subs / 2).
Definition all_stores (size subs : Z) : list instr := seqZ 0 size ≫= fun d => Store d <$> unit_pairs subs.
Definition all_recvs (size subs : Z) : list instr := seqZ 0 size ≫= fun r => Recv r <$> unit_pairs subs.

(** A message longer than a warp takes at once is divided well when the groups use
    all warps. *)
Definition even_groups (warp_count subs : Z) : Prop :=
  warp_units <= subs -> num_warp_groups warp_count subs * (warp_count / num_warp_groups warp_count subs) = warp_count.

(** ** Rearranging *)
Lemma bind_swap {A B C} (l : list A) (k : list B) (f : A -> B -> list C) :
  (l ≫= fun a => k ≫= f a) ≡ₚ (k ≫= fun b => l ≫= fun a => f a b).
Proof.
  induction l as [|a l IH]; csimpl; [induction k; [done|]; done|]. rewrite IH.
  rewrite <- (bind_app_perm (f a) (fun b => l ≫= fun a => f a b) k). done.
Qed.
Lemma bind_perm_ext {A B} (l : list A) (f g : A -> list B) : (forall x, x ∈ l -> f x ≡ₚ g x) -> (l ≫= f) ≡ₚ (l ≫= g).
Proof.
  induction l as [|a l IH]; intros H; csimpl; [done|]. rewrite (H a) by left. rewrite IH; [done|]. intros x Hx. apply H. by right.
Qed.
Lemma fmap_bind_out {A B C} (h : B -> C) (l : list A) (f : A -> list B) : (l ≫= fun a => h <$> f a) = h <$> (l ≫= f).
Proof. induction l as [|a l IH]; csimpl; [done|]. by rewrite IH, fmap_app. Qed.
Lemma bind_fmap_in {A B C} (h : A -> B) (l : list A) (f : B -> list C) : ((h <$> l) ≫= f) = (l ≫= fun a => f (h a)).
Proof. induction l as [|a l IH]; csimpl; [done|]. by rewrite IH. Qed.

Lemma elem_unit_pairs n x : 0 <= n -> n mod 2 = 0 -> x ∈ unit_pairs n <-> 0 <= x < n /\ x mod 2 = 0.
Proof.
  intros Hn He. unfold unit_pairs. rewrite list_elem_of_fmap. setoid_rewrite elem_of_seqZ.
  pose proof (Z.div_mod n 2). split.
  - intros (i & -> & Hi). rewrite Z.mul_comm, Z.mod_mul by lia. lia.
  - intros [Hx Hm]. pose proof (Z.div_mod x 2). exists (x / 2). lia.
Qed.
Lemma unit_pairs_NoDup n : NoDup (unit_pairs n).
Proof. apply NoDup_fmap; [intros x y; lia | apply NoDup_seqZ]. Qed.

(** The lanes of a warp share out the pairs. *)
Lemma lanes_partition n : 0 <= n -> n mod 2 = 0 -> n + 64 <= 2 ^ 32 -> (seqZ 0 32 ≫= fun l => lane_pairs l n) ≡ₚ unit_pairs n.
Proof.
  intros Hn He Hb. apply NoDup_Permutation; [|apply unit_pairs_NoDup|].
  - apply NoDup_bind; [| |apply NoDup_seqZ].
    + intros l l' x Hl%elem_of_seqZ Hl'%elem_of_seqZ. unfold lane_pairs, strides. rewrite !elem_of_strided by lia.
      intros [? H1] [? H2]. apply Z.mod_divide in H1 as [a Ha]; [|lia]. apply Z.mod_divide in H2 as [b Hb']; [|lia]. lia.
    + intros l Hl%elem_of_seqZ. apply strided_NoDup; lia.
  - intros x. rewrite list_elem_of_bind, elem_unit_pairs by done. unfold lane_pairs, strides. split.
    + intros (l & Hx & Hl%elem_of_seqZ). rewrite elem_of_strided in Hx by lia. destruct Hx as [? H1].
      apply Z.mod_divide in H1 as [a Ha]; [|lia]. split; [lia|]. replace x with ((l + a * 32) * 2) by lia. apply Z_mod_mult.
    + intros [Hx Hm]. pose proof (Z.div_mod x 2). pose proof (Z.div_mod (x / 2) 32). pose proof (Z.mod_pos_bound (x / 2) 32).
      assert (0 <= x / 2 / 32) by (apply Z.div_pos; [apply Z.div_pos|]; lia).
      exists ((x / 2) mod 32). rewrite elem_of_strided, elem_of_seqZ by lia. split; [|lia]. split; [lia|].
      replace (x - 2 * ((x / 2) mod 32)) with (x / 2 / 32 * 64) by lia. apply Z_mod_mult.
Qed.

(** A loop that begins at an offset *)
Lemma strides_offset a n s : 0 <= a -> 0 < s -> 0 <= n -> n + a + s <= 2 ^ 32 ->
  (seqZ 0 s ≫= fun t => strides (t + a) (n + a) s) ≡ₚ seqZ a n.
Proof.
  intros Ha Hs Hn Hb. apply NoDup_Permutation; [|apply NoDup_seqZ|].
  - apply NoDup_bind; [| |apply NoDup_seqZ].
    + intros l l' x Hl%elem_of_seqZ Hl'%elem_of_seqZ. unfold strides. rewrite !elem_of_strided by lia.
      intros [? H1] [? H2]. apply Z.mod_divide in H1 as [b Hb1]; [|lia]. apply Z.mod_divide in H2 as [c Hc]; [|lia].
      assert (c = b) as -> by nia. lia.
    + intros l Hl%elem_of_seqZ. apply strided_NoDup; lia.
  - intros x. rewrite list_elem_of_bind, elem_of_seqZ. unfold strides. split.
    + intros (l & Hx & Hl%elem_of_seqZ). rewrite elem_of_strided in Hx by lia. lia.
    + intros Hx. pose proof (Z.div_mod (x - a) s). pose proof (Z.mod_pos_bound (x - a) s). assert (0 <= (x - a) / s) by (apply Z.div_pos; lia).
      exists ((x - a) mod s). rewrite elem_of_strided, elem_of_seqZ by lia. split; [|lia]. split; [nia|].
      replace (x - ((x - a) mod s + a)) with ((x - a) / s * s) by lia. apply Z_mod_mult.
Qed.

Lemma wrap_partition size a : 0 < size -> (wrap_pe size <$> seqZ a size) ≡ₚ seqZ 0 size.
Proof.
  intros Hs. apply NoDup_Permutation; [|apply NoDup_seqZ|].
  - apply NoDup_fmap_2_strong; [|apply NoDup_seqZ]. intros x y Hx%elem_of_seqZ Hy%elem_of_seqZ E. unfold wrap_pe in E.
    pose proof (Z.div_mod x size). pose proof (Z.div_mod y size). assert (x / size = y / size) by nia. nia.
  - intros x. rewrite list_elem_of_fmap, elem_of_seqZ. unfold wrap_pe. split.
    + intros (y & -> & _). pose proof (Z.mod_pos_bound y size). lia.
    + intros Hx. exists (a + (x - a) mod size). rewrite elem_of_seqZ, Zplus_mod_idemp_r. pose proof (Z.mod_pos_bound (x - a) size).
      replace (a + (x - a)) with x by lia. rewrite Z.mod_small by lia. lia.
Qed.

(** ** Groups, blocks and lanes *)
Lemma group_start_next size G g : 0 < G -> group_start size G (g + 1) = group_start size G g + group_num size G g.
Proof. intros HG. unfold group_start, group_num. repeat case_bool_decide; try lia; nia. Qed.

Lemma groups_partition size G : 0 < G -> 0 <= size -> (seqZ 0 G ≫= fun g => seqZ (group_start size G g) (group_num size G g)) = seqZ 0 size.
Proof.
  intros HG Hs. pose proof (Z.mod_pos_bound size G HG). pose proof (Z.div_mod size G). pose proof (Z.div_pos size G Hs HG).
  assert (forall n : nat, Z.of_nat n <= G -> (seqZ 0 (Z.of_nat n) ≫= fun g => seqZ (group_start size G g) (group_num size G g)) = seqZ 0 (group_start size G (Z.of_nat n)) /\
    0 <= group_start size G (Z.of_nat n)) as H'.
  { induction n as [|n IH]; intros Hn.
    - assert (group_start size G (Z.of_nat 0) = 0) as -> by (unfold group_start; repeat case_bool_decide; lia). done.
    - destruct IH as [IH Hst]; [lia|]. rewrite Nat2Z.inj_succ. unfold Z.succ. rewrite group_start_next by done.
      assert (0 <= group_num size G (Z.of_nat n)) by (unfold group_num; case_bool_decide; lia).
      rewrite seqZ_app by lia. rewrite bind_app, IH. split; [|lia]. rewrite (seqZ_app 0 (group_start _ _ _)) by lia. f_equal.
      change (seqZ (0 + Z.of_nat n) 1) with [0 + Z.of_nat n]. csimpl. by rewrite app_nil_r, !Z.add_0_l. }
  destruct (H' (Z.to_nat G) ltac:(lia)) as [HH _]. rewrite Z2Nat.id in HH by lia. rewrite HH. f_equal. unfold group_start. repeat case_bool_decide; lia.
Qed.

Lemma warps_partition G P : 0 <= G -> 0 < P -> seqZ 0 (G * P) = seqZ 0 G ≫= fun g => (fun v => g * P + v) <$> seqZ 0 P.
Proof.
  intros HG HP. rewrite <- (Z2Nat.id G) by done. induction (Z.to_nat G) as [|n IH]; [done|].
  rewrite Nat2Z.inj_succ. unfold Z.succ. rewrite Z.mul_add_distr_r, !seqZ_app by lia. rewrite bind_app, <- IH. f_equal.
  change (seqZ (0 + Z.of_nat n) 1) with [0 + Z.of_nat n]. csimpl. rewrite app_nil_r, Z.mul_1_l. apply list_eq. intros i. rewrite list_lookup_fmap.
  destruct (decide (Z.of_nat i < P)).
  - rewrite !lookup_seqZ_lt by lia. cbn; f_equal; lia.
  - by rewrite !lookup_seqZ_ge by lia.
Qed.

Definition num_blocks (subs : Z) : Z := (subs + warp_units - 1) / warp_units.
Definition block (subs b : Z) : Z * Z * bool :=
  (b * warp_units, Z.min warp_units (subs - b * warp_units), bool_decide (b * warp_units + warp_units < subs)).

Lemma num_blocks_spec subs b : 0 <= b -> b < num_blocks subs <-> b * 256 < subs.
Proof. intros Hb. unfold num_blocks. change warp_units with 256. pose proof (Z.div_mod (subs + 256 - 1) 256). pose proof (Z.mod_pos_bound (subs + 256 - 1) 256). lia. Qed.

Lemma warp_blocks_strided subs P fuel fuel' b : 0 < P -> 0 <= b -> num_blocks subs + P <= 2 ^ 32 -> 0 <= subs ->
  subs < b + Z.of_nat fuel -> num_blocks subs - b <= Z.of_nat fuel' -> warp_blocks fuel subs P b = block subs <$> strided fuel' b (num_blocks subs) P.
Proof.
  intros HP. revert fuel' b. induction fuel as [|fuel IH]; intros fuel' b Hb Hn Hs Hf Hf'.
  - pose proof (num_blocks_spec subs b Hb). assert (num_blocks subs <= b) by lia. destruct fuel'; [done|]. cbn. by rewrite bool_decide_false by lia.
  - pose proof (num_blocks_spec subs b Hb). cbn [warp_blocks]. change warp_units with 256 in *. case_bool_decide as E1.
    + assert (b < num_blocks subs) by lia. destruct fuel' as [|fuel']; [lia|]. cbn [strided]. rewrite bool_decide_true by lia. rewrite fmap_cons. f_equal.
      * unfold block. change warp_units with 256. rewrite bool_decide_true by done. f_equal. f_equal. lia.
      * rewrite wrap_small by (unfold in_u; lia). apply IH; lia.
    + case_bool_decide as E2.
      * assert (b < num_blocks subs) by lia. destruct fuel' as [|fuel']; [lia|]. cbn [strided]. rewrite bool_decide_true by lia.
        rewrite wrap_small by (unfold in_u; lia). pose proof (num_blocks_spec subs (b + P) ltac:(lia)). rewrite fmap_cons.
        assert (strided fuel' (b + P) (num_blocks subs) P = []) as -> by (destruct fuel'; cbn; [done | by rewrite bool_decide_false by lia]).
        unfold block. change warp_units with 256. rewrite bool_decide_false by done. repeat f_equal; lia.
      * destruct fuel'; [done|]. cbn. by rewrite bool_decide_false by lia.
Qed.

Lemma blocks_partition subs : 0 <= subs -> subs mod 2 = 0 ->
  (seqZ 0 (num_blocks subs) ≫= fun b => (fun i => (block subs b).1.1 + i) <$> unit_pairs (block subs b).1.2) ≡ₚ unit_pairs subs.
Proof.
  intros Hs He. assert (forall b, 0 <= b -> b < num_blocks subs -> 0 <= (block subs b).1.2 /\ (block subs b).1.2 mod 2 = 0) as Hc.
  { intros b Hb Hlt%num_blocks_spec; [|done]. cbn. change warp_units with 256. split; [lia|]. destruct (Z.min_spec 256 (subs - b * 256)) as [[_ ->]|[_ ->]]; [done|].
    replace (subs - b * 256) with (subs + (- b * 128) * 2) by lia. by rewrite Z_mod_plus_full. }
  apply NoDup_Permutation; [|apply unit_pairs_NoDup|].
  - apply NoDup_bind; [| |apply NoDup_seqZ].
    + intros b b' x Hb%elem_of_seqZ Hb'%elem_of_seqZ (i & -> & Hi)%list_elem_of_fmap (i' & E & Hi')%list_elem_of_fmap.
      apply elem_unit_pairs in Hi; [|apply Hc; lia..]. apply elem_unit_pairs in Hi'; [|apply Hc; lia..]. cbn in E, Hi, Hi'. change warp_units with 256 in *. lia.
    + intros b _. apply NoDup_fmap; [intros x y; lia | apply unit_pairs_NoDup].
  - intros x. rewrite list_elem_of_bind, elem_unit_pairs by done. split.
    + intros (b & (i & -> & Hi)%list_elem_of_fmap & Hb%elem_of_seqZ). apply elem_unit_pairs in Hi; [|apply Hc; lia..]. cbn in Hi |- *.
      change warp_units with 256 in *. split; [lia|]. replace (b * 256 + i) with (i + b * 128 * 2) by lia. rewrite Z_mod_plus_full. tauto.
    + intros [Hx Hm]. pose proof (Z.div_mod x 256). pose proof (Z.mod_pos_bound x 256). assert (0 <= x / 256) by (apply Z.div_pos; lia).
      assert (x / 256 < num_blocks subs) by (apply num_blocks_spec; lia). exists (x / 256). rewrite elem_of_seqZ. split; [|lia].
      apply list_elem_of_fmap. exists (x mod 256). rewrite elem_unit_pairs by (apply Hc; lia). cbn. change warp_units with 256. split; [lia|]. split; [lia|].
      replace (x mod 256) with (x + (- (x / 256) * 128) * 2) by lia. by rewrite Z_mod_plus_full.
Qed.

(** The lanes of a warp store a block to its PEs, in either form. *)
Lemma lanes_pack (full : bool) n base pes : 0 <= n -> n mod 2 = 0 -> n + 64 <= 2 ^ 32 -> (full = true -> n = 256) ->
  (seqZ 0 32 ≫= fun l => packLL (if full then 4 else 1) l n base pes) ≡ₚ (pes ≫= fun pe => (fun i => Store pe (base + i)) <$> unit_pairs n).
Proof.
  intros Hn He Hb Hf. destruct full.
  - rewrite (Hf eq_refl). transitivity (seqZ 0 32 ≫= fun l => pes ≫= fun pe => (fun u => Store pe (base + (l * 4 * 2 + 2 * u))) <$> seqZ 0 4).
    + apply bind_perm_ext. intros l Hl%elem_of_seqZ. unfold packLL. assert (strides (l * 4 * 2) 256 (32 * 4 * 2) = [l * 4 * 2]) as ->; [|csimpl; by rewrite app_nil_r].
      unfold strides. change (Z.to_nat 256) with (S (S 254)). generalize 254%nat as m. intros m. cbn [strided].
      rewrite bool_decide_true by lia. rewrite wrap_small by (unfold in_u; lia). by rewrite bool_decide_false by lia.
    + rewrite bind_swap. apply bind_perm_ext. intros pe _. done.
  - transitivity (seqZ 0 32 ≫= fun l => pes ≫= fun pe => (fun i => Store pe (base + i)) <$> lane_pairs l n).
    + apply bind_perm_ext. intros l _. unfold packLL, lane_pairs. change (32 * 1 * 2) with (2 * 32). replace (l * 1 * 2) with (2 * l) by lia.
      rewrite bind_swap. apply bind_perm_ext. intros pe _. induction (strides _ _ _) as [|eo el IH]; csimpl; [done|]. rewrite IH. by rewrite Z.add_0_r.
    + rewrite bind_swap. apply bind_perm_ext. intros pe _. rewrite fmap_bind_out. apply fmap_Permutation. by apply lanes_partition.
Qed.

Lemma lanes_spread {A} (l : list A) (C : A -> Z -> instr) n : 0 <= n -> n mod 2 = 0 -> n + 64 <= 2 ^ 32 ->
  (seqZ 0 32 ≫= fun lane => l ≫= fun a => C a <$> lane_pairs lane n) ≡ₚ (l ≫= fun a => C a <$> unit_pairs n).
Proof.
  intros Hn He Hb. rewrite bind_swap. apply bind_perm_ext. intros a _. rewrite fmap_bind_out. apply fmap_Permutation. by apply lanes_partition.
Qed.

(** ** All threads together *)
Section cover.
Context (size my_pe warp_count subs : Z).
Context (Hsize : 0 < size) (Hmy : 0 <= my_pe < size) (Hw : 0 < warp_count) (Hsubs : 0 <= subs) (Heven : subs mod 2 = 0).
Context (Hb1 : 2 * size + warp_count <= 2 ^ 32) (Hb2 : subs + warp_count + 64 <= 2 ^ 32).

Lemma naive_stores :
  (seqZ 0 warp_count ≫= fun w => seqZ 0 32 ≫= fun l => strides (w + my_pe) (size + my_pe) warp_count ≫= fun ii => Store (wrap_pe size ii) <$> lane_pairs l subs)
  ≡ₚ all_stores size subs.
Proof.
  transitivity (seqZ 0 warp_count ≫= fun w => strides (w + my_pe) (size + my_pe) warp_count ≫= fun ii => Store (wrap_pe size ii) <$> unit_pairs subs).
  { apply bind_perm_ext. intros w _. apply (lanes_spread _ (fun ii => Store (wrap_pe size ii))); lia. }
  rewrite <- bind_bind, strides_offset by lia. unfold all_stores. by rewrite <- (wrap_partition size my_pe Hsize), bind_fmap_in.
Qed.
Lemma naive_recvs :
  (seqZ 0 warp_count ≫= fun w => seqZ 0 32 ≫= fun l => strides w size warp_count ≫= fun ii => Recv ii <$> lane_pairs l subs) ≡ₚ all_recvs size subs.
Proof.
  transitivity (seqZ 0 warp_count ≫= fun w => strides w size warp_count ≫= fun ii => Recv ii <$> unit_pairs subs).
  { apply bind_perm_ext. intros w _. apply (lanes_spread _ Recv); lia. }
  by rewrite <- bind_bind, strides_partition by lia.
Qed.

Lemma block_ok b : 0 <= b < num_blocks subs -> 0 <= (block subs b).1.2 <= subs /\ (block subs b).1.2 mod 2 = 0 /\ ((block subs b).2 = true -> (block subs b).1.2 = 256).
Proof.
  intros [Hb Hlt]. apply num_blocks_spec in Hlt; [|done]. cbn. change warp_units with 256. split; [lia|]. split.
  - destruct (Z.min_spec 256 (subs - b * 256)) as [[_ ->]|[_ ->]]; [done|]. replace (subs - b * 256) with (subs + (- b * 128) * 2) by lia. by rewrite Z_mod_plus_full.
  - intros ?%bool_decide_eq_true. lia.
Qed.

(** The warps of even groups, with what the lanes of a warp do on a block as a parameter *)
Lemma grouped G P (leaf : Z -> Z -> Z * Z * bool -> list instr) (pes : Z -> list Z) (C : Z -> Z -> instr) :
  0 < G -> 0 < P -> G * P = warp_count ->
  (forall g b, 0 <= b < num_blocks subs ->
     (seqZ 0 32 ≫= fun l => leaf g l (block subs b)) ≡ₚ (pes g ≫= fun pe => (fun i => C pe ((block subs b).1.1 + i)) <$> unit_pairs (block subs b).1.2)) ->
  (seqZ 0 G ≫= pes) ≡ₚ seqZ 0 size ->
  (seqZ 0 warp_count ≫= fun w => seqZ 0 32 ≫= fun l => warp_blocks (S (Z.to_nat subs)) subs P (w mod P) ≫= leaf (w / P) l)
  ≡ₚ (seqZ 0 size ≫= fun pe => C pe <$> unit_pairs subs).
Proof.
  intros HG HP HGP Hleaf Hpes. assert (P <= warp_count) by nia. assert (0 <= num_blocks subs) by (apply Z.div_pos; change warp_units with 256; lia). rewrite <- HGP, warps_partition, bind_bind by lia.
  assert (num_blocks subs <= subs) by (pose proof (num_blocks_spec subs subs Hsubs); lia).
  transitivity (seqZ 0 G ≫= fun g => pes g ≫= fun pe => C pe <$> unit_pairs subs); [|by rewrite <- bind_bind, Hpes].
  apply bind_perm_ext. intros g Hg%elem_of_seqZ. rewrite bind_fmap_in.
  transitivity (seqZ 0 P ≫= fun v => strides v (num_blocks subs) P ≫= fun b => pes g ≫= fun pe => (fun i => C pe ((block subs b).1.1 + i)) <$> unit_pairs (block subs b).1.2).
  { apply bind_perm_ext. intros v Hv%elem_of_seqZ. replace ((g * P + v) mod P) with v by (rewrite Z.add_comm, Z_mod_plus_full; symmetry; apply Z.mod_small; lia).
    replace ((g * P + v) / P) with g by (rewrite Z.div_add_l, Z.div_small; lia).
    rewrite bind_swap. rewrite (warp_blocks_strided subs P _ (Z.to_nat (num_blocks subs)) v) by lia. fold (strides v (num_blocks subs) P).
    rewrite bind_fmap_in. apply bind_perm_ext. intros b Hb. apply elem_of_strides in Hb; [|lia..]. apply Hleaf; tauto. }
  rewrite <- bind_bind, strides_partition by lia. rewrite bind_swap. apply bind_perm_ext. intros pe _.
  rewrite <- (blocks_partition subs Hsubs Heven), <- fmap_bind_out. apply bind_perm_ext. intros b _. by rewrite <- list_fmap_compose.
Qed.

Lemma even_groups_pos : even_groups warp_count subs -> warp_units <= subs ->
  0 < num_warp_groups warp_count subs /\ 0 < warp_count / num_warp_groups warp_count subs.
Proof. intros He Hl. specialize (He Hl). assert (0 < num_warp_groups warp_count subs) by (unfold num_warp_groups; lia). nia. Qed.

Lemma grouped_stores : even_groups warp_count subs -> warp_units <= subs ->
  (seqZ 0 warp_count ≫= fun w => seqZ 0 32 ≫= fun l =>
     let groups := num_warp_groups warp_count subs in let per_group := warp_count / groups in let g := w / per_group in
     warp_blocks (S (Z.to_nat subs)) subs per_group (w mod per_group) ≫= fun b : Z * Z * bool =>
     packLL (if b.2 then 4 else 1) l b.1.2 b.1.1 (wrap_pe size <$> seqZ (group_start size groups g) (group_num size groups g)))
  ≡ₚ all_stores size subs.
Proof.
  intros He Hl. destruct (even_groups_pos He Hl) as [HG HP]. set (G := num_warp_groups warp_count subs) in *. cbn zeta.
  apply (grouped G (warp_count / G) (fun g l b => packLL (if b.2 then 4 else 1) l b.1.2 b.1.1 (wrap_pe size <$> seqZ (group_start size G g) (group_num size G g)))
    (fun g => wrap_pe size <$> seqZ (group_start size G g) (group_num size G g)) Store); try done.
  - by apply He.
  - intros g b Hb. destruct (block_ok b Hb) as (? & ? & ?). apply lanes_pack; try done; lia.
  - rewrite fmap_bind_out, groups_partition by lia. by apply wrap_partition.
Qed.
Lemma grouped_recvs : even_groups warp_count subs -> warp_units <= subs ->
  (seqZ 0 warp_count ≫= fun w => seqZ 0 32 ≫= fun l =>
     let groups := num_warp_groups warp_count subs in let per_group := warp_count / groups in let g := w / per_group in
     warp_blocks (S (Z.to_nat subs)) subs per_group (w mod per_group) ≫= fun b : Z * Z * bool =>
     seqZ (group_start size groups g) (group_num size groups g) ≫= fun pe => (fun i => Recv pe (b.1.1 + i)) <$> lane_pairs l b.1.2)
  ≡ₚ all_recvs size subs.
Proof.
  intros He Hl. destruct (even_groups_pos He Hl) as [HG HP]. set (G := num_warp_groups warp_count subs) in *. cbn zeta.
  apply (grouped G (warp_count / G) (fun g l b => seqZ (group_start size G g) (group_num size G g) ≫= fun pe => (fun i => Recv pe (b.1.1 + i)) <$> lane_pairs l b.1.2)
    (fun g => seqZ (group_start size G g) (group_num size G g)) Recv); try done.
  - by apply He.
  - intros g b Hb. destruct (block_ok b Hb) as (? & ? & ?). apply (lanes_spread _ (fun pe i => Recv pe ((block subs b).1.1 + i))); try done; lia.
  - by rewrite groups_partition by lia.
Qed.

(** The threads of a PE store everything to everyone and receive everything from
    everyone, once. *)
Lemma threads_cover : even_groups warp_count subs -> (fc_threads size my_pe warp_count subs ≫= id) ≡ₚ all_stores size subs ++ all_recvs size subs.
Proof.
  intros He. unfold fc_threads. rewrite bind_bind.
  transitivity (seqZ 0 warp_count ≫= fun w => seqZ 0 32 ≫= fun l => thread_program size my_pe warp_count subs w l).
  { apply bind_perm_ext. intros w _. by rewrite bind_fmap_in. }
  unfold thread_program. case_bool_decide.
  - rewrite <- naive_stores, <- naive_recvs. rewrite <- bind_app_perm. apply bind_perm_ext. intros w _. by rewrite bind_app_perm.
  - rewrite <- grouped_stores, <- grouped_recvs by (done || lia). rewrite <- bind_app_perm. apply bind_perm_ext. intros w _. by rewrite bind_app_perm.
Qed.
End cover.

(** ** Uneven groups *)

(** Five warps and the largest message the default threshold admits, 2048 bytes: the
    warps form two groups of two, and the fifth waits for words of a PE after the last. *)
Lemma fifth_warp_waits_for_nobody size my_pe lane : 2 <= size -> 0 <= lane < 32 -> Recv size (0 + 2 * lane) ∈ thread_program size my_pe 5 512 4 lane.
Proof.
  intros Hs Hl. unfold thread_program. rewrite bool_decide_false by (change warp_units with 256; lia). cbn zeta.
  change (num_warp_groups 5 512) with 2. change (5 / 2) with 2. change (4 / 2) with 2. change (4 mod 2) with 0. pose proof (Z.mod_pos_bound size 2). pose proof (Z.div_mod size 2).
  assert (group_start size 2 2 = size) as -> by (unfold group_start; repeat case_bool_decide; lia).
  assert (1 <= group_num size 2 2) by (unfold group_num; case_bool_decide; lia).
  apply elem_of_app. right. apply list_elem_of_bind. exists (0, 256, true). split; [|apply list_elem_of_lookup; exists 0%nat; vm_compute; done].
  apply list_elem_of_bind. exists size. split; [|apply elem_of_seqZ; lia]. apply list_elem_of_fmap. exists (2 * lane). split; [done|].
  unfold lane_pairs, strides. cbn [fst snd]. rewrite elem_of_strided by lia. split; [lia|]. by rewrite Z.sub_diag.
Qed.

(** ** Sequences of calls *)

(** A call: the elements and their size, the warps of each PE and its source, as units *)
Record call := MkCall { c_nelems : Z; c_sizeof : Z; c_warps : Z -> Z; c_src : Z -> Z -> Z }.
Definition c_subs (c : call) : Z := c_nelems c * c_sizeof c / 4.

Definition ROUND_UP (x y : Z) : Z := (x + y - 1) / y * y.
(** A call with its flag and, in words, the start of its half of the work space and
    the part of a PE in it *)
Record slot := MkSlot { s_call : call; s_flag : Z; s_base : Z; s_width : Z }.
Definition call_slot (size ll_threshold : Z) (c : call) (fcollect_count : Z) : slot :=
  MkSlot c (u32 fcollect_count)
    (2 * size * (ll_threshold / c_sizeof c) * (fcollect_count mod 2) * c_sizeof c / 8)
    (ROUND_UP (c_nelems c * 2) (16 / c_sizeof c) * c_sizeof c / 8).
Fixpoint schedule (size ll_threshold : Z) (calls : list call) (fcollect_count : Z) : list slot :=
  match calls with
  | [] => []
  | c :: calls => call_slot size ll_threshold c (fcollect_count + 1) :: schedule size ll_threshold calls (fcollect_count + 1)
  end.
(** Where a PE finds unit [w] of PE [r] *)
Definition addr (sl : slot) (r w : Z) : Z := s_base sl + (r * s_width sl + w).

Record flight := MkFlight { fl_call : nat; fl_src : Z; fl_dst : Z; fl_word : Z }.
#[export] Instance flight_eq_dec : EqDecision flight.
Proof. solve_decision. Defined.
Record state := MkState {
  words : Z -> Z -> Z; got : Z -> nat -> Z -> Z -> Z; at_call : Z -> nat; progs : Z -> list (list instr); net : list flight }.

Definition upd_got (g : Z -> nat -> Z -> Z -> Z) (p : Z) (j : nat) (r i v : Z) : Z -> nat -> Z -> Z -> Z :=
  fun p' j' r' i' => if bool_decide (p' = p /\ j' = j /\ r' = r /\ i' = i) then v else g p' j' r' i'.

Section exec.
Context (size : Z) (slots : list slot).

Definition program (p : Z) (j : nat) : list (list instr) :=
  match slots !! j with Some sl => fc_threads size p (c_warps (s_call sl) p) (c_subs (s_call sl)) | None => [] end.

Inductive step (s : state) : state -> Prop :=
(** a thread stores a pair to a PE *)
| step_store p j t d i rest :
    0 <= p < size -> at_call s p = j -> progs s p !! t = Some (Store d i :: rest) ->
    step s (MkState (words s) (got s) (at_call s) (<[p := <[t := rest]> (progs s p)]> (progs s)) (MkFlight j p d i :: MkFlight j p d (i + 1) :: net s))
(** a thread finds both words of a pair flagged *)
| step_recv p j sl t r i rest v :
    0 <= p < size -> at_call s p = j -> slots !! j = Some sl -> progs s p !! t = Some (Recv r i :: rest) ->
    CollBcast.recvLL (s_flag sl) (words s p (addr sl r i), words s p (addr sl r (i + 1))) = Some v ->
    step s (MkState (words s) (upd_got (upd_got (got s) p j r i v.1) p j r (i + 1) v.2) (at_call s) (<[p := <[t := rest]> (progs s p)]> (progs s)) (net s))
(** all threads are done: the next call *)
| step_next p j :
    0 <= p < size -> at_call s p = j -> (j < length slots)%nat -> Forall (fun th => th = []) (progs s p) ->
    step s (MkState (words s) (got s) (<[p := S j]> (at_call s)) (<[p := program p (S j)]> (progs s)) (net s))
(** a stored word becomes visible *)
| step_deliver l1 f l2 sl :
    net s = l1 ++ f :: l2 -> slots !! fl_call f = Some sl ->
    step s (MkState (CollBcast.upd2 (words s) (fl_dst f) (addr sl (fl_src f) (fl_word f)) (CollBcast.ll_word (s_flag sl) (c_src (s_call sl) (fl_src f) (fl_word f))))
                    (got s) (at_call s) (progs s) (l1 ++ l2)).

Record initial (s : state) : Prop := {
  in_words : forall p a sl, sl ∈ slots -> CollBcast.word_flag (words s p a) <> s_flag sl;
  in_at : forall p, at_call s p = 0%nat; in_progs : forall p, progs s p = program p 0; in_net : net s = [] }.
Definition reachable (s : state) : Prop := exists s0, initial s0 /\ rtc step s0 s.
End exec.

(** ** The invariant *)

(** Stores come before waits. *)
Definition shape (th : list instr) : Prop := forall l1 r i l2 d k, th = l1 ++ Recv r i :: l2 -> Store d k ∉ l2.
Definition pair_of (w : Z) : Z := 2 * (w / 2).

Record slots_ok (size : Z) (slots : list slot) : Prop := {
  so_call : forall j sl, slots !! j = Some sl -> c_subs (s_call sl) mod 2 = 0 /\ 0 < c_subs (s_call sl) /\ s_width sl = c_subs (s_call sl) /\
    forall r u, 0 <= c_src (s_call sl) r u < 2 ^ 32;
  so_prog : forall p j sl, 0 <= p < size -> slots !! j = Some sl ->
    (program size slots p j ≫= id) ≡ₚ all_stores size (c_subs (s_call sl)) ++ all_recvs size (c_subs (s_call sl));
  so_shape : forall p j th, 0 <= p < size -> th ∈ program size slots p j -> shape th;
  so_flag : forall i j sl sl', slots !! i = Some sl -> slots !! j = Some sl' -> s_flag sl = s_flag sl' -> i = j;
  so_half : forall j sl sl' r w r' w', slots !! j = Some sl -> slots !! S j = Some sl' -> 0 <= r < size -> 0 <= r' < size ->
    0 <= w < c_subs (s_call sl) -> 0 <= w' < c_subs (s_call sl') -> addr sl r w <> addr sl' r' w' }.

Section invariant.
Context (size : Z) (slots : list slot) (Hsl : slots_ok size slots) (Hsize : 0 < size).

Definition rem (s : state) (p : Z) : list instr := progs s p ≫= id.
(** PE [r] has not yet stored its pair [i] of call [j] to [d]. *)
Definition pending (s : state) (r : Z) (j : nat) (d i : Z) : Prop :=
  (at_call s r < j)%nat \/ (at_call s r = j /\ Store d i ∈ rem s r).
(** PE [d] has received the pair [i] of PE [r] in call [j]. *)
Definition received (s : state) (d : Z) (j : nat) (r i : Z) : Prop :=
  (j < at_call s d)%nat \/ (at_call s d = j /\ Recv r i ∉ rem s d).
Definition held (s : state) (d : Z) (sl : slot) (r w : Z) : Prop :=
  words s d (addr sl r w) = CollBcast.ll_word (s_flag sl) (c_src (s_call sl) r w).

Record inv (s : state) : Prop := {
  i_nodup : forall p, 0 <= p < size -> NoDup (rem s p);
  i_rem : forall p x, 0 <= p < size -> x ∈ rem s p -> exists sl, slots !! at_call s p = Some sl /\
    match x with Store d i | Recv d i => 0 <= d < size /\ i ∈ unit_pairs (c_subs (s_call sl)) end;
  i_shape : forall p th, 0 <= p < size -> th ∈ progs s p -> shape th;
  i_netdup : NoDup (net s);
  i_net : forall f, f ∈ net s -> 0 <= fl_src f < size /\ 0 <= fl_dst f < size /\
    (exists sl, slots !! fl_call f = Some sl /\ 0 <= fl_word f < c_subs (s_call sl)) /\ ~ pending s (fl_src f) (fl_call f) (fl_dst f) (pair_of (fl_word f));
  i_words : forall d a j sl, slots !! j = Some sl -> CollBcast.word_flag (words s d a) = s_flag sl ->
    exists r w, 0 <= r < size /\ 0 <= w < c_subs (s_call sl) /\ a = addr sl r w /\ held s d sl r w /\
      ~ pending s r j d (pair_of w) /\ MkFlight j r d w ∉ net s;
  i_recv : forall d j r sl w, 0 <= d < size -> 0 <= r < size -> slots !! j = Some sl -> 0 <= w < c_subs (s_call sl) -> received s d j r (pair_of w) ->
    ~ pending s r j d (pair_of w) /\ (MkFlight j r d w ∉ net s) /\ got s d j r w = c_src (s_call sl) r w;
  i_have : forall d j r sl w, 0 <= d < size -> 0 <= r < size -> slots !! j = Some sl -> 0 <= w < c_subs (s_call sl) ->
    received s d j r (pair_of w) \/ pending s r j d (pair_of w) \/ MkFlight j r d w ∈ net s \/ held s d sl r w }.

Lemma pair_of_even i : i mod 2 = 0 -> pair_of i = i /\ pair_of (i + 1) = i.
Proof.
  intros Hi. unfold pair_of. pose proof (Z.div_mod i 2). split; [lia|].
  replace (i + 1) with (i / 2 * 2 + 1) by lia. rewrite Z.div_add_l by lia. change (1 / 2) with 0. lia.
Qed.
Lemma pair_of_cases w : w = pair_of w \/ w = pair_of w + 1.
Proof. unfold pair_of. pose proof (Z.div_mod w 2). pose proof (Z.mod_pos_bound w 2). lia. Qed.
Lemma pair_in n w : n mod 2 = 0 -> 0 <= w < n -> pair_of w ∈ unit_pairs n.
Proof.
  intros Hn Hw. apply elem_unit_pairs; [lia|done|]. unfold pair_of. rewrite Z.mul_comm, Z.mod_mul by lia. pose proof (Z.div_mod w 2). pose proof (Z.mod_pos_bound w 2). pose proof (Z.div_mod n 2). lia.
Qed.
Lemma fc_in_pair n i : 0 < n -> n mod 2 = 0 -> i ∈ unit_pairs n -> 0 <= i /\ i + 1 < n /\ pair_of i = i /\ pair_of (i + 1) = i.
Proof.
  intros H0 Hn Hi. apply elem_unit_pairs in Hi as [? Hm]; [|lia|done]. pose proof (Z.div_mod i 2). pose proof (Z.div_mod n 2).
  destruct (pair_of_even i Hm). split_and!; try done; lia.
Qed.

Lemma addr_inj j sl r w r' w' : slots !! j = Some sl -> 0 <= r -> 0 <= r' -> 0 <= w < c_subs (s_call sl) -> 0 <= w' < c_subs (s_call sl) ->
  addr sl r w = addr sl r' w' -> r = r' /\ w = w'.
Proof.
  intros Hj Hr Hr' Hw Hw' E. destruct (so_call size slots Hsl _ _ Hj) as (_ & _ & Hwd & _). unfold addr in E. rewrite Hwd in E.
  assert (r = r') as -> by nia. lia.
Qed.

(** The programs hold each instruction of the call. *)
Lemma program_spec p j sl x : 0 <= p < size -> slots !! j = Some sl ->
  x ∈ (program size slots p j ≫= id) <-> match x with Store d i | Recv d i => 0 <= d < size /\ i ∈ unit_pairs (c_subs (s_call sl)) end.
Proof.
  intros Hp Hj. rewrite (so_prog size slots Hsl p j sl Hp Hj), elem_of_app. unfold all_stores, all_recvs. rewrite !list_elem_of_bind. destruct x as [d i|d i].
  - split; [intros [(d' & (i' & [= -> ->] & Hi)%list_elem_of_fmap & Hd%elem_of_seqZ)|(d' & (i' & ? & _)%list_elem_of_fmap & _)]; [split; [lia|done] | done]|].
    intros [Hd Hi]. left. exists d. split; [apply list_elem_of_fmap; by exists i | apply elem_of_seqZ; lia].
  - split; [intros [(d' & (i' & ? & _)%list_elem_of_fmap & _)|(d' & (i' & [= -> ->] & Hi)%list_elem_of_fmap & Hd%elem_of_seqZ)]; [done | split; [lia|done]]|].
    intros [Hd Hi]. right. exists d. split; [apply list_elem_of_fmap; by exists i | apply elem_of_seqZ; lia].
Qed.
Lemma program_NoDup p j : 0 <= p < size -> NoDup (program size slots p j ≫= id).
Proof.
  intros Hp. destruct (slots !! j) as [sl|] eqn:Hj; [|unfold program; rewrite Hj; constructor].
  rewrite (so_prog size slots Hsl p j sl Hp Hj). apply list.NoDup_app. unfold all_stores, all_recvs. split_and!.
  - apply NoDup_bind; [| |apply NoDup_seqZ].
    + by intros x1 x2 y _ _ (i & -> & _)%list_elem_of_fmap (i' & [= -> _] & _)%list_elem_of_fmap.
    + intros d _. apply NoDup_fmap; [by intros ?? [= ->] | apply unit_pairs_NoDup].
  - by intros x (d & (i & -> & _)%list_elem_of_fmap & _)%list_elem_of_bind (d' & (i' & ? & _)%list_elem_of_fmap & _)%list_elem_of_bind.
  - apply NoDup_bind; [| |apply NoDup_seqZ].
    + by intros x1 x2 y _ _ (i & -> & _)%list_elem_of_fmap (i' & [= -> _] & _)%list_elem_of_fmap.
    + intros d _. apply NoDup_fmap; [by intros ?? [= ->] | apply unit_pairs_NoDup].
Qed.

(** A PE that is done with a call has the data of everyone, so everyone is in it. *)
Lemma calls_close s p q j : inv s -> 0 <= p < size -> 0 <= q < size -> (j < length slots)%nat -> (j <= at_call s p)%nat -> (j <= S (at_call s q))%nat.
Proof.
  intros I Hp Hq Hj Hle. destruct j as [|j]; [lia|]. destruct (lookup_lt_is_Some_2 slots j) as [sl Hsj]; [lia|].
  destruct (so_call size slots Hsl _ _ Hsj) as (_ & H0 & _).
  destruct (i_recv s I p j q sl 0 Hp Hq Hsj) as (Hn & _); [lia | left; lia|].
  destruct (decide (at_call s q < j)%nat); [|lia]. exfalso. apply Hn. by left.
Qed.

(** Removing the first instruction of a thread *)
Lemma rem_head (ps : list (list instr)) t x rest : ps !! t = Some (x :: rest) -> (ps ≫= id) ≡ₚ x :: (<[t := rest]> ps ≫= id).
Proof.
  intros H. rewrite insert_take_drop by (by eapply lookup_lt_Some). rewrite <- (take_drop_middle ps t (x :: rest) H) at 1.
  rewrite !bind_app, !bind_cons. cbn [id]. change (id (x :: rest)) with (x :: rest). rewrite <- app_comm_cons. symmetry. apply Permutation_middle.
Qed.
Lemma shape_tail x th : shape (x :: th) -> shape th.
Proof. intros H l1 r i l2 d k ->. by apply (H (x :: l1) r i). Qed.

(** ** Every step keeps the invariant *)

(** A thread has done its first instruction. *)
Record popped (s s' : state) (p : Z) (x : instr) : Prop := {
  po_at : at_call s' = at_call s;
  po_other : forall q, q <> p -> rem s' q = rem s q;
  po_rem : forall y, y ∈ rem s p <-> y = x \/ y ∈ rem s' p;
  po_gone : x ∉ rem s' p;
  po_nodup : forall q, 0 <= q < size -> NoDup (rem s' q);
  po_shape : forall q th, 0 <= q < size -> th ∈ progs s' q -> shape th }.

Lemma pop s p t x rest W G N : inv s -> 0 <= p < size -> progs s p !! t = Some (x :: rest) ->
  popped s (MkState W G (at_call s) (<[p := <[t := rest]> (progs s p)]> (progs s)) N) p x.
Proof.
  intros I Hp Ht. set (s' := MkState _ _ _ _ _). assert (rem s' p = <[t := rest]> (progs s p) ≫= id) as Er by (unfold rem; cbn; by rewrite fn_lookup_insert).
  assert (forall q, q <> p -> rem s' q = rem s q) as Hne by (intros q Hq; unfold rem; cbn; by rewrite fn_lookup_insert_ne).
  pose proof (rem_head _ _ _ _ Ht) as HP. change (progs s p ≫= id) with (rem s p) in HP. rewrite <- Er in HP.
  assert (NoDup (x :: rem s' p)) as HN by (rewrite <- HP; by apply (i_nodup s I)). apply list.NoDup_cons in HN as [Hx HN].
  split; try done.
  - intros y. rewrite HP, elem_of_cons. done.
  - intros q Hq. destruct (decide (q = p)) as [->|Hqp]; [done|]. rewrite (Hne q Hqp). by apply (i_nodup s I).
  - intros q th Hq. cbn. destruct (decide (q = p)) as [->|Hqp]; [rewrite fn_lookup_insert | rewrite fn_lookup_insert_ne by done; by apply (i_shape s I)].
    intros (k & Hk)%list_elem_of_lookup. destruct (decide (k = t)) as [->|Hkt].
    + rewrite list_lookup_insert_eq in Hk by (by eapply lookup_lt_Some). injection Hk as <-. apply (shape_tail x), (i_shape s I p); [done|].
      by eapply list_elem_of_lookup_2.
    + rewrite list_lookup_insert_ne in Hk by done. apply (i_shape s I p); [done|]. by eapply list_elem_of_lookup_2.
Qed.

Lemma popped_rem s s' p x : popped s s' p x -> forall q y, y ∈ rem s' q -> y ∈ rem s q.
Proof. intros P q y Hy. destruct (decide (q = p)) as [->|Hq]; [apply (po_rem _ _ _ _ P); by right | by rewrite <- (po_other _ _ _ _ P q Hq)]. Qed.

Lemma fc_inv_store s p t d i rest : inv s -> 0 <= p < size -> progs s p !! t = Some (Store d i :: rest) ->
  inv (MkState (words s) (got s) (at_call s) (<[p := <[t := rest]> (progs s p)]> (progs s))
       (MkFlight (at_call s p) p d i :: MkFlight (at_call s p) p d (i + 1) :: net s)).
Proof.
  intros I Hp Ht. remember (at_call s p) as j eqn:Ejj. set (s' := MkState _ _ _ _ _). assert (popped s s' p (Store d i)) as P by (by apply pop). pose proof (popped_rem _ _ _ _ P) as Hrem.
  assert (Store d i ∈ rem s p) as Hin by (apply (po_rem _ _ _ _ P); by left).
  destruct (i_rem s I p _ Hp Hin) as (sl & Hj & Hd & Hi). rewrite <- Ejj in Hj. destruct (so_call size slots Hsl _ _ Hj) as (He & H0 & _ & _).
  destruct (fc_in_pair _ _ H0 He Hi) as (Hi0 & Hi1 & Ei & Ei1).
  assert (pending s p j d i) as Hpen by (by right).
  assert (forall r j' d' i', pending s' r j' d' i' -> pending s r j' d' i') as Hpen'.
  { intros r j' d' i' [?|[? ?]]; [by left|right]. split; [done | by apply Hrem]. }
  assert (forall r j' d' i', pending s r j' d' i' -> pending s' r j' d' i' \/ (r = p /\ j' = j /\ d' = d /\ i' = i)) as Hpen2.
  { intros r j' d' i' [?|[<- Hr]]; [by left; left|]. destruct (decide (r = p)) as [->|Hrp].
    - apply (po_rem _ _ _ _ P) in Hr as [[= -> ->]|Hr]; [by right | left; by right].
    - left. right. by rewrite (po_other _ _ _ _ P r Hrp). }
  assert (forall d' j' r i', received s' d' j' r i' -> received s d' j' r i') as Hrec.
  { intros d' j' r i' [?|[? Hr]]; [by left|right]. split; [done|]. intros Hr'. apply Hr. destruct (decide (d' = p)) as [->|Hdp].
    - by apply (po_rem _ _ _ _ P) in Hr' as [?|?]. - by rewrite (po_other _ _ _ _ P d' Hdp). }
  assert (forall d' j' r i', received s d' j' r i' -> received s' d' j' r i') as Hrec'.
  { intros d' j' r i' [?|[? Hr]]; [by left|right]. split; [done|]. intros Hr'. by apply Hr, Hrem. }
  assert (~ pending s' p j d i) as Hnp by (intros [?|[_ ?]]; [cbn in *; lia | by apply (po_gone _ _ _ _ P)]).
  assert (forall r j' d' w, MkFlight j' r d' w ∈ net s' -> (r = p /\ j' = j /\ d' = d /\ (w = i \/ w = i + 1)) \/ MkFlight j' r d' w ∈ net s) as Hnet.
  { intros r j' d' w [[= -> -> -> ->]|[[= -> -> -> ->]|?]%elem_of_cons]%elem_of_cons; [left; tauto | left; tauto | by right]. }
  assert (forall r j' d' w, ~ pending s r j' d' (pair_of w) -> MkFlight j' r d' w ∉ net s -> MkFlight j' r d' w ∉ net s') as Hnn.
  { intros r j' d' w Hn Hf [(-> & -> & -> & [-> | ->])|?]%Hnet; [|by rewrite ?Ei, ?Ei1 in Hn..|done]. by rewrite Ei in Hn. }
  split.
  - apply (po_nodup _ _ _ _ P).
  - intros q x Hq Hx. apply (i_rem s I q x Hq). by apply Hrem.
  - apply (po_shape _ _ _ _ P).
  - cbn. rewrite !list.NoDup_cons, elem_of_cons. split_and!; [|by intros (_ & _ & _ & Hn)%(i_net s I); cbn in Hn; rewrite Ei1 in Hn|apply (i_netdup s I)].
    intros [[= E]|(_ & _ & _ & Hn)%(i_net s I)]; [lia|]. cbn in Hn. by rewrite Ei in Hn.
  - intros [j' r d' w] Hf. cbn. apply Hnet in Hf as [(-> & -> & -> & Hw)|Hf].
    + split_and!; try lia. { exists sl. split; [done|lia]. } destruct Hw as [-> | ->]; [by rewrite Ei | by rewrite Ei1].
    + pose proof (i_net s I _ Hf) as Hq. cbn in Hq. destruct Hq as (? & ? & ? & Hn). split; [done|]. split; [done|]. split; [done|]. intros Hp'. by apply Hn, Hpen'.
  - intros d' a j' sl' Hj' Hf. destruct (i_words s I d' a j' sl' Hj' Hf) as (r & w & Hr & Hw & Ha & Hh & Hn & Hnf). exists r, w. split_and!; try done; try lia.
    + intros Hp'. by apply Hn, Hpen'. + by apply Hnn.
  - intros d' j' r sl' w Hd' Hr Hj' Hw Hrv%Hrec. destruct (i_recv s I d' j' r sl' w Hd' Hr Hj' Hw Hrv) as (Hn & Hf & Hg). split_and!; try done.
    + intros Hp'. by apply Hn, Hpen'. + by apply Hnn.
  - intros d' j' r sl' w Hd' Hr Hj' Hw. destruct (i_have s I d' j' r sl' w Hd' Hr Hj' Hw) as [H|[H|[H|H]]].
    + left. by apply Hrec'.
    + right. apply Hpen2 in H as [H|(-> & -> & -> & E)]; [by left|]. right. left. destruct (pair_of_cases w) as [Ew|Ew]; rewrite E in Ew; subst w; [left | right; left].
    + right; right; left. by do 2 right.
    + by do 3 right.
Qed.

(** A flagged word is the one of its place. *)
Lemma flagged_held s d j sl r w : inv s -> slots !! j = Some sl -> 0 <= r < size -> 0 <= w < c_subs (s_call sl) ->
  CollBcast.word_flag (words s d (addr sl r w)) = s_flag sl ->
  held s d sl r w /\ ~ pending s r j d (pair_of w) /\ (MkFlight j r d w ∉ net s).
Proof.
  intros I Hj Hr Hw Hf. destruct (i_words s I d _ j sl Hj Hf) as (r' & w' & Hr' & Hw' & E & Hh & Hn & Hnf).
  destruct (addr_inj j sl r w r' w') as [-> ->]; try done; lia.
Qed.

Lemma inv_recv s p t sl r i rest v : inv s -> 0 <= p < size -> slots !! at_call s p = Some sl -> progs s p !! t = Some (Recv r i :: rest) ->
  CollBcast.recvLL (s_flag sl) (words s p (addr sl r i), words s p (addr sl r (i + 1))) = Some v ->
  inv (MkState (words s) (upd_got (upd_got (got s) p (at_call s p) r i v.1) p (at_call s p) r (i + 1) v.2) (at_call s)
       (<[p := <[t := rest]> (progs s p)]> (progs s)) (net s)).
Proof.
  intros I Hp Hj Ht Hv. remember (at_call s p) as j eqn:Ejj. set (s' := MkState _ _ _ _ _).
  assert (popped s s' p (Recv r i)) as P by (by apply pop). pose proof (popped_rem _ _ _ _ P) as Hrem.
  assert (Recv r i ∈ rem s p) as Hin by (apply (po_rem _ _ _ _ P); by left).
  destruct (i_rem s I p _ Hp Hin) as (sl0 & Hj0 & Hr & Hi). rewrite <- Ejj, Hj in Hj0. injection Hj0 as <-.
  destruct (so_call size slots Hsl _ _ Hj) as (He & H0 & _ & Hsrc). destruct (fc_in_pair _ _ H0 He Hi) as (Hi0 & Hi1 & Ei & Ei1).
  unfold CollBcast.recvLL in Hv. cbn [fst snd] in Hv. destruct (bool_decide _) eqn:E1 in Hv; [|done]. cbn in Hv. destruct (bool_decide _) eqn:E2 in Hv; [|done].
  apply bool_decide_eq_true in E1, E2. injection Hv as <-.
  destruct (flagged_held s p j sl r i I Hj Hr ltac:(lia) E1) as (Hh1 & Hn1 & Hf1). destruct (flagged_held s p j sl r (i + 1) I Hj Hr ltac:(lia) E2) as (Hh2 & Hn2 & Hf2).
  cbn [fst snd] in s'. unfold held in Hh1, Hh2.
  assert (forall w, w = i \/ w = i + 1 -> got s' p j r w = c_src (s_call sl) r w) as Hg.
  { intros w Hw. cbn. rewrite Hh1, Hh2, !CollBcast.ll_word_data by done. unfold upd_got. destruct Hw as [-> | ->].
    - rewrite (bool_decide_false (_ /\ _ /\ _ /\ i = i + 1)) by lia. by rewrite bool_decide_true. - by rewrite bool_decide_true. }
  assert (forall q j' r' w, ~ (q = p /\ j' = j /\ r' = r /\ (w = i \/ w = i + 1)) -> got s' q j' r' w = got s q j' r' w) as Hgo.
  { intros q j' r' w Hne. cbn. unfold upd_got. by rewrite !bool_decide_false by tauto. }
  assert (forall r0 j' d' i', pending s' r0 j' d' i' <-> pending s r0 j' d' i') as Hpen.
  { intros r0 j' d' i'. unfold pending. cbn [at_call s']. destruct (decide (r0 = p)) as [->|Hrp]; [|by rewrite (po_other _ _ _ _ P r0 Hrp)].
    rewrite (po_rem _ _ _ _ P). split; (intros [?|[? Hx]]; [by left | right]); (split; [done|]); [by right | by destruct Hx]. }
  assert (forall d' j' r0 i', received s' d' j' r0 i' -> received s d' j' r0 i' \/ (d' = p /\ j' = j /\ r0 = r /\ i' = i)) as Hrec.
  { intros d' j' r0 i' [?|[<- Hr']]; [by left; left|]. destruct (decide (d' = p)) as [->|Hdp].
    - destruct (decide (r0 = r /\ i' = i)) as [[-> ->]|Hne]; [by right|]. left. right. split; [done|].
      intros [[= -> ->]|?]%(po_rem _ _ _ _ P); [by destruct Hne | done].
    - left. right. by rewrite <- (po_other _ _ _ _ P d' Hdp). }
  split.
  - apply (po_nodup _ _ _ _ P).
  - intros q x Hq Hx. apply (i_rem s I q x Hq). by apply Hrem.
  - apply (po_shape _ _ _ _ P).
  - apply (i_netdup s I).
  - intros f Hf. rewrite Hpen. by apply (i_net s I).
  - intros d' a j' sl' Hj' Hf. destruct (i_words s I d' a j' sl' Hj' Hf) as (r' & w & ?). exists r', w. by rewrite Hpen.
  - intros d' j' r' sl' w Hd' Hr' Hj' Hw Hrv. rewrite Hpen. destruct (decide (d' = p /\ j' = j /\ r' = r /\ (w = i \/ w = i + 1))) as [(-> & -> & -> & Hwi)|Hne].
    + rewrite Hj in Hj'. injection Hj' as <-. split_and!; [| |by apply Hg]; destruct Hwi as [-> | ->]; done.
    + rewrite Hgo by done. apply (i_recv s I); try done. apply Hrec in Hrv as [?|(-> & -> & -> & E)]; [done|].
      destruct Hne. split_and!; try done. rewrite <- E. apply pair_of_cases.
  - intros d' j' r' sl' w Hd' Hr' Hj' Hw. rewrite Hpen. destruct (i_have s I d' j' r' sl' w Hd' Hr' Hj' Hw) as [H|[H|[H|H]]]; [left | by right; left | by right; right; left | by do 3 right].
    destruct H as [?|[? Hx]]; [by left | right]. split; [done|]. intros Hx'. by apply Hx, Hrem.
Qed.

Lemma inv_next s p : inv s -> 0 <= p < size -> (at_call s p < length slots)%nat -> Forall (fun th => th = []) (progs s p) ->
  inv (MkState (words s) (got s) (<[p := S (at_call s p)]> (at_call s)) (<[p := program size slots p (S (at_call s p))]> (progs s)) (net s)).
Proof.
  intros I Hp Hlt HF. remember (at_call s p) as j eqn:Ejj. set (s' := MkState _ _ _ _ _).
  assert (rem s p = []) as Hnil.
  { unfold rem. clear -HF. induction HF as [|th ps -> HF IH]; [done|]. csimpl. by rewrite IH. }
  assert (at_call s' p = S j) as Hat by (cbn; by rewrite fn_lookup_insert).
  assert (rem s' p = program size slots p (S j) ≫= id) as Hr by (unfold rem; cbn; by rewrite fn_lookup_insert).
  assert (forall q, q <> p -> at_call s' q = at_call s q /\ rem s' q = rem s q) as Hne by (intros q Hq; unfold rem; cbn; by rewrite !fn_lookup_insert_ne).
  assert (forall r j' d i, pending s' r j' d i -> pending s r j' d i) as Hpen.
  { intros r j' d i. unfold pending. destruct (decide (r = p)) as [->|Hrp]; [|by destruct (Hne r Hrp) as [-> ->]]. rewrite Hat. intros [?|[? _]]; left; lia. }
  assert (forall r j' d i sl, slots !! j' = Some sl -> 0 <= d < size -> i ∈ unit_pairs (c_subs (s_call sl)) -> pending s r j' d i -> pending s' r j' d i) as Hpen'.
  { intros r j' d i sl Hj' Hd Hi. unfold pending. destruct (decide (r = p)) as [->|Hrp]; [|by destruct (Hne r Hrp) as [-> ->]]. rewrite Hat, Hr, Hnil.
    intros [?|[_ ?%not_elem_of_nil]]; [|done]. destruct (decide (j' = S j)) as [->|]; [|left; lia]. right. split; [done|]. by apply (program_spec p (S j) sl). }
  assert (forall d j' r i sl, slots !! j' = Some sl -> 0 <= r < size -> i ∈ unit_pairs (c_subs (s_call sl)) -> received s' d j' r i -> received s d j' r i) as Hrec.
  { intros d j' r i sl Hj' Hr' Hi. unfold received. destruct (decide (d = p)) as [->|Hdp]; [|by destruct (Hne d Hdp) as [-> ->]]. rewrite Hat, Hr, Hnil. intros [?|[<- Hx]].
    - destruct (decide (j' = j)) as [->|]; [|left; lia]. right. split; [done | apply not_elem_of_nil].
    - destruct Hx. by apply (program_spec p (S j) sl). }
  assert (forall d j' r i, received s d j' r i -> received s' d j' r i) as Hrec'.
  { intros d j' r i. unfold received. destruct (decide (d = p)) as [->|Hdp]; [|by destruct (Hne d Hdp) as [-> ->]]. rewrite Hat. intros [?|[? _]]; left; lia. }
  split.
  - intros q Hq. destruct (decide (q = p)) as [->|Hqp]; [rewrite Hr; by apply program_NoDup|]. rewrite (proj2 (Hne q Hqp)). by apply (i_nodup s I).
  - intros q x Hq. destruct (decide (q = p)) as [->|Hqp]; [|destruct (Hne q Hqp) as [-> ->]; by apply (i_rem s I)]. rewrite Hr, Hat. intros Hx.
    destruct (slots !! S j) as [sl|] eqn:Hj'; [|unfold program in Hx; rewrite Hj' in Hx; by apply not_elem_of_nil in Hx]. exists sl. split; [done|]. by apply (program_spec p (S j) sl).
  - intros q th Hq. cbn. destruct (decide (q = p)) as [->|Hqp]; [rewrite fn_lookup_insert; by apply (so_shape size slots Hsl)|]. rewrite fn_lookup_insert_ne by done. by apply (i_shape s I).
  - apply (i_netdup s I).
  - intros f Hf. destruct (i_net s I f Hf) as (? & ? & ? & Hn). split; [done|]. split; [done|]. split; [done|]. intros Hx. by apply Hn, Hpen.
  - intros d a j' sl Hj' Hf. destruct (i_words s I d a j' sl Hj' Hf) as (r & w & Hr' & Hw & Ha & Hh & Hn & Hnf). exists r, w. split; [done|]. split; [done|]. split; [done|]. split; [done|].
    split; [|done]. intros Hx. by apply Hn, Hpen.
  - intros d j' r sl w Hd Hr' Hj' Hw Hrv. destruct (so_call size slots Hsl _ _ Hj') as (He & _). apply (Hrec d j' r (pair_of w) sl) in Hrv; try done; [|by apply pair_in].
    destruct (i_recv s I d j' r sl w Hd Hr' Hj' Hw Hrv) as (Hn & ?). split; [|done]. intros Hx. by apply Hn, Hpen.
  - intros d j' r sl w Hd Hr' Hj' Hw. destruct (so_call size slots Hsl _ _ Hj') as (He & _). destruct (i_have s I d j' r sl w Hd Hr' Hj' Hw) as [H|[H|H]]; [left; by apply Hrec'| |by do 2 right].
    right; left. apply (Hpen' r j' d (pair_of w) sl); try done. by apply pair_in.
Qed.

(** The words of two calls that are both needed at a PE do not overlap. *)
Lemma needed_apart s d i j sl sl' r w r' w' p q : inv s -> slots !! i = Some sl -> slots !! j = Some sl' -> 0 <= d < size -> 0 <= p < size -> 0 <= q < size ->
  0 <= r < size -> 0 <= r' < size -> 0 <= w < c_subs (s_call sl) -> 0 <= w' < c_subs (s_call sl') ->
  (at_call s d <= i)%nat -> (at_call s d <= j)%nat -> (i <= at_call s p)%nat -> (j <= at_call s q)%nat ->
  addr sl r w = addr sl' r' w' -> i = j /\ r = r' /\ w = w'.
Proof.
  intros I Hi Hj Hd Hp Hq Hr Hr' Hw Hw' Hdi Hdj Hpi Hqj E. pose proof (lookup_lt_Some _ _ _ Hi). pose proof (lookup_lt_Some _ _ _ Hj).
  pose proof (calls_close s p d i I Hp Hd). pose proof (calls_close s q d j I Hq Hd). destruct (Nat.lt_trichotomy i j) as [Hij|[<-|Hij]].
  - assert (j = S i) as -> by lia. by destruct (so_half size slots Hsl i sl sl' r w r' w' Hi Hj).
  - rewrite Hi in Hj. injection Hj as <-. split; [done|]. apply (addr_inj i sl); try done; lia.
  - assert (i = S j) as -> by lia. by destruct (so_half size slots Hsl j sl' sl r' w' r w Hj Hi).
Qed.

Lemma inv_deliver s l1 f l2 sl : inv s -> net s = l1 ++ f :: l2 -> slots !! fl_call f = Some sl ->
  inv (MkState (CollBcast.upd2 (words s) (fl_dst f) (addr sl (fl_src f) (fl_word f)) (CollBcast.ll_word (s_flag sl) (c_src (s_call sl) (fl_src f) (fl_word f))))
               (got s) (at_call s) (progs s) (l1 ++ l2)).
Proof.
  intros I Hn Hj. destruct f as [j r d w]. cbn [fl_call fl_src fl_dst fl_word] in *. set (W := CollBcast.upd2 _ _ _ _). set (s' := MkState _ _ _ _ _).
  assert (MkFlight j r d w ∈ net s) as Hf by (rewrite Hn, elem_of_app, elem_of_cons; tauto).
  pose proof (i_net s I _ Hf) as Hq. cbn in Hq. destruct Hq as (Hr & Hd & (sl0 & Hj0 & Hw) & Hnp). rewrite Hj in Hj0. injection Hj0 as <-.
  assert (forall g, g ∈ net s' -> g ∈ net s) as Hsub by (intros g; cbn; rewrite Hn, !elem_of_app, elem_of_cons; tauto).
  assert (NoDup (net s)) as HN by apply (i_netdup s I). rewrite Hn in HN. pose proof HN as HN'. rewrite <- Permutation_middle in HN'. apply list.NoDup_cons in HN' as [Hfn HN'].
  assert (at_call s d <= j)%nat as Hdj.
  { destruct (decide (j < at_call s d)%nat) as [Hlt|]; [|lia]. destruct (i_recv s I d j r sl w Hd Hr Hj Hw) as (_ & Hx & _); [by left|]. done. }
  assert (j <= at_call s r)%nat as Hrj by (destruct (decide (at_call s r < j)%nat); [destruct Hnp; by left | lia]).
  destruct (so_call size slots Hsl _ _ Hj) as (_ & _ & _ & Hsrc).
  assert (held s' d sl r w) as Hh by (unfold held; cbn; subst W; by rewrite CollBcast.upd2_eq).
  pose proof I as I0. destruct I as [A B C D E F G H]. split; try done.
  - intros f' Hf'. by apply E, Hsub.
  - intros d' a j' sl' Hj' Hfl. cbn in Hfl. destruct (decide (d' = d /\ a = addr sl r w)) as [[-> ->]|Hne].
    + subst W. rewrite CollBcast.upd2_eq, CollBcast.ll_word_flag in Hfl by done. assert (j' = j) as -> by (by apply (so_flag size slots Hsl j' j sl' sl)).
      rewrite Hj in Hj'. injection Hj' as <-. by exists r, w.
    + subst W. rewrite CollBcast.upd2_ne in Hfl by done. destruct (F d' a j' sl' Hj' Hfl) as (r' & w' & Hr' & Hw' & -> & Hh' & Hn' & Hnf). exists r', w'.
      split; [done|]. split; [done|]. split; [done|]. split; [unfold held; cbn; by rewrite CollBcast.upd2_ne|]. split; [done|]. intros Hx. by apply Hnf, Hsub.
  - intros d' j' r' sl' w' Hd' Hr' Hj' Hw' Hrv. destruct (G d' j' r' sl' w' Hd' Hr' Hj' Hw' Hrv) as (? & Hx & ?). split; [done|]. split; [|done]. intros ?. by apply Hx, Hsub.
  - intros d' j' r' sl' w' Hd' Hr' Hj' Hw'. destruct (H d' j' r' sl' w' Hd' Hr' Hj' Hw') as [?|[?|[Hx|Hx]]]; [by left | by right; left | |].
    + destruct (decide (MkFlight j' r' d' w' = MkFlight j r d w)) as [[= -> -> -> ->]|Hne]; [do 3 right; rewrite Hj in Hj'; by injection Hj' as <-|].
      right; right; left. cbn. rewrite Hn, elem_of_app, elem_of_cons in Hx. rewrite elem_of_app. tauto.
    + destruct (decide (j' < at_call s d')%nat) as [|Hge]; [by left; left|]. do 3 right. unfold held. cbn.
      destruct (decide (d' = d /\ addr sl' r' w' = addr sl r w)) as [[-> Ea]|Hne]; [|subst W; by rewrite CollBcast.upd2_ne].
      destruct (F d (addr sl' r' w') j' sl' Hj') as (r'' & w'' & Hr'' & _ & _ & _ & Hnp' & _).
      { rewrite Hx. destruct (so_call size slots Hsl _ _ Hj') as (_ & _ & _ & Hs). by rewrite CollBcast.ll_word_flag. }
      destruct (needed_apart s d j' j sl' sl r' w' r w r'' r) as (-> & -> & ->); try done; try lia.
      { destruct (decide (at_call s r'' < j')%nat); [destruct Hnp'; by left | lia]. }
      rewrite Hj in Hj'. by injection Hj' as <-.
Qed.

Lemma fc_inv_step s s' : inv s -> step size slots s s' -> inv s'.
Proof.
  intros I Hs. destruct Hs as [p j t d i rest Hp <- Ht | p j sl t r i rest v Hp <- Hj Ht Hv | p j Hp <- Hlt HF | l1 f l2 sl Hn Hj].
  - by apply fc_inv_store.
  - by apply (inv_recv s p t sl r i rest v).
  - by apply inv_next.
  - by apply inv_deliver.
Qed.

Lemma fc_inv_initial s : initial size slots s -> inv s.
Proof.
  intros [A B C D]. assert (forall p, rem s p = program size slots p 0 ≫= id) as Hr by (intros p; unfold rem; by rewrite C).
  split.
  - intros p Hp. rewrite Hr. by apply program_NoDup.
  - intros p x Hp Hx. rewrite Hr in Hx. rewrite B. destruct (slots !! 0%nat) as [sl|] eqn:Hj; [|unfold program in Hx; rewrite Hj in Hx; by apply not_elem_of_nil in Hx].
    exists sl. split; [done|]. by apply (program_spec p 0 sl).
  - intros p th Hp Hth. rewrite C in Hth. by apply (so_shape size slots Hsl p 0).
  - rewrite D. constructor.
  - intros f. rewrite D. by intros ?%not_elem_of_nil.
  - intros d a j sl Hj Hf. destruct (A d a sl); [|done]. by eapply list_elem_of_lookup_2.
  - intros d j r sl w Hd Hr' Hj Hw. destruct (so_call size slots Hsl _ _ Hj) as (He & _). unfold received. rewrite B. intros [?|[<- Hx]]; [lia|].
    destruct Hx. rewrite Hr. apply (program_spec d 0 sl); try done. split; [done | by apply pair_in].
  - intros d j r sl w Hd Hr' Hj Hw. destruct (so_call size slots Hsl _ _ Hj) as (He & _). right; left. unfold pending. rewrite B, Hr.
    destruct j as [|j]; [right|left; lia]. split; [done|]. apply (program_spec r 0 sl); try done. split; [done | by apply pair_in].
Qed.

Lemma fc_inv_reachable s : reachable size slots s -> inv s.
Proof. intros (s0 & H0%fc_inv_initial & Hr). induction Hr as [|s s1 s2 Hs _ IH]; [done|]. apply IH. by eapply fc_inv_step. Qed.

(** ** No deadlock *)
Lemma store_steps s p d i : inv s -> 0 <= p < size -> Store d i ∈ rem s p -> exists s', step size slots s s'.
Proof.
  intros I Hp (th & Hin & (t & Ht)%list_elem_of_lookup)%list_elem_of_bind. change (id th) with th in Hin.
  pose proof (i_shape s I p th Hp ltac:(by eapply list_elem_of_lookup_2)) as Hsh. destruct th as [|[d' i'|r i'] rest]; [by apply not_elem_of_nil in Hin | |].
  - eexists. by eapply (step_store _ _ s p).
  - apply elem_of_cons in Hin as [?|Hin]; [done|]. by destruct (Hsh [] r i' rest d i).
Qed.

Lemma fc_unfinished_steps s p : inv s -> 0 <= p < size -> (at_call s p < length slots)%nat -> exists s', step size slots s s'.
Proof.
  intros I Hp Hlt. destruct (net s) as [|f l] eqn:Hn.
  2:{ destruct (i_net s I f ltac:(rewrite Hn; by left)) as (_ & _ & (sl & Hj & _) & _). eexists. by apply (step_deliver _ _ s [] f l sl). }
  destruct (CollBcast.exists_min (at_call s) (seqZ 0 size)) as (m & Hm & Hmin).
  { intros E. assert (p ∈ seqZ 0 size) as Hin by (apply elem_of_seqZ; lia). rewrite E in Hin. by apply not_elem_of_nil in Hin. }
  apply elem_of_seqZ in Hm. assert (0 <= m < size) as Hm' by lia. pose proof (Hmin p ltac:(apply elem_of_seqZ; lia)).
  destruct (decide (Forall (fun th => th = []) (progs s m))) as [HF|HF]; [eexists; eapply (step_next _ _ s m); try done; lia|].
  apply not_Forall_Exists in HF; [|apply _]. apply list.Exists_exists in HF as (th & Hth & Hne). pose proof Hth as (t & Ht)%list_elem_of_lookup.
  assert (forall x, x ∈ th -> x ∈ rem s m) as Hsub by (intros x Hx; unfold rem; apply list_elem_of_bind; by exists th).
  destruct th as [|[d i|r i] rest]; [by destruct Hne | by apply (store_steps s m d i I Hm'), Hsub; left |].
  destruct (i_rem s I m (Recv r i) Hm') as (sl & Hj & Hr & Hi); [apply Hsub; left|].
  destruct (so_call size slots Hsl _ _ Hj) as (He & H0 & _ & Hsrc). destruct (fc_in_pair _ _ H0 He Hi) as (Hi0 & Hi1 & Ei & Ei1).
  assert (forall w, w = i \/ w = i + 1 -> (exists s', step size slots s s') \/ held s m sl r w) as Hcase.
  { intros w Hw. assert (pair_of w = i) as Ew by (destruct Hw as [-> | ->]; done).
    destruct (i_have s I m (at_call s m) r sl w Hm' Hr Hj ltac:(lia)) as [Hx|[Hx|[Hx|Hx]]]; rewrite ?Ew in Hx.
    - destruct Hx as [?|[_ Hx]]; [lia|]. destruct Hx. apply Hsub. left.
    - destruct Hx as [?|[_ Hx]]; [|left; by apply (store_steps s r m i)]. pose proof (Hmin r ltac:(apply elem_of_seqZ; lia)). lia.
    - rewrite Hn in Hx. by apply not_elem_of_nil in Hx.
    - by right. }
  destruct (Hcase i ltac:(by left)) as [?|Hh1]; [done|]. destruct (Hcase (i + 1) ltac:(by right)) as [?|Hh2]; [done|].
  eexists. eapply (step_recv _ _ s m _ sl t r i rest); try done. unfold CollBcast.recvLL. cbn [fst snd]. unfold held in Hh1, Hh2.
  by rewrite Hh1, Hh2, !CollBcast.ll_word_flag, bool_decide_true by done.
Qed.
End invariant.

(** ** Termination *)
Section work.
Context (size : Z) (slots : list slot).
Definition weight (x : instr) : nat := match x with Store _ _ => 3 | Recv _ _ => 1 end.
Definition fc_rest (p : Z) (j : nat) : nat := sum_list_with (fun i => sum_list_with weight (program size slots p i ≫= id)) (seq j (length slots - j)).
Definition fc_pe_work (s : state) (p : Z) : nat := sum_list_with weight (rem s p) + fc_rest p (S (at_call s p)) + (length slots - at_call s p).
Definition fc_work (s : state) : nat := sum_list_with (fc_pe_work s) (seqZ 0 size) + length (net s).

Lemma sum_perm {A} (g : A -> nat) l l' : l ≡ₚ l' -> sum_list_with g l = sum_list_with g l'.
Proof. induction 1; cbn; lia. Qed.
Lemma fc_rest_S p j : (sum_list_with weight (program size slots p j ≫= id) + fc_rest p (S j) = fc_rest p j)%nat.
Proof.
  unfold fc_rest. destruct (decide (j < length slots)%nat) as [H|H].
  - replace (length slots - j)%nat with (S (length slots - S j)) by lia. done.
  - unfold program at 1. rewrite lookup_ge_None_2 by lia. by replace (length slots - j)%nat with 0%nat by lia; replace (length slots - S j)%nat with 0%nat by lia.
Qed.

Lemma fc_work_move s s' p (n : nat) : 0 <= p < size -> (forall q, q <> p -> at_call s' q = at_call s q /\ rem s' q = rem s q) ->
  length (net s') = (length (net s) + n)%nat -> (fc_pe_work s' p + n < fc_pe_work s p)%nat -> (fc_work s' < fc_work s)%nat.
Proof.
  intros Hp Hne Hn Hlt. unfold fc_work. rewrite Hn.
  pose proof (sum_list_upd (fc_pe_work s) (fc_pe_work s') (seqZ 0 size) p (NoDup_seqZ _ _) ltac:(apply elem_of_seqZ; lia)) as HU.
  ospecialize (HU _); [|lia]. intros q _ Hq. unfold fc_pe_work. by destruct (Hne q Hq) as [-> ->].
Qed.

Lemma fc_step_work s s' : step size slots s s' -> (fc_work s' < fc_work s)%nat.
Proof.
  intros [p j t d i rest Hp <- Ht | p j sl t r i rest v Hp <- Hj Ht Hv | p j Hp <- Hlt HF | l1 f l2 sl Hn Hj].
  - apply (fc_work_move _ _ p 2%nat); [done | intros q Hq; unfold rem; cbn; by rewrite fn_lookup_insert_ne | cbn; lia |].
    unfold fc_pe_work, rem. cbn [at_call progs]. rewrite fn_lookup_insert, (sum_perm _ _ _ (rem_head _ _ _ _ Ht)). cbn. lia.
  - apply (fc_work_move _ _ p 0%nat); [done | intros q Hq; unfold rem; cbn; by rewrite fn_lookup_insert_ne | cbn; lia |].
    unfold fc_pe_work, rem. cbn [at_call progs]. rewrite fn_lookup_insert, (sum_perm _ _ _ (rem_head _ _ _ _ Ht)). cbn. lia.
  - apply (fc_work_move _ _ p 0%nat); [done | intros q Hq; unfold rem; cbn; by rewrite !fn_lookup_insert_ne | cbn; lia |].
    unfold fc_pe_work, rem. cbn [at_call progs]. rewrite !fn_lookup_insert, fc_rest_S. lia.
  - unfold fc_work. cbn [net]. rewrite Hn, !length_app. cbn [length]. change (fc_pe_work (MkState _ _ (at_call s) (progs s) _)) with (fc_pe_work s). lia.
Qed.
Lemma fc_steps_bounded n s s' : nsteps (step size slots) n s s' -> (n + fc_work s' <= fc_work s)%nat.
Proof. induction 1 as [|n s s1 s2 Hs%fc_step_work _ IH]; lia. Qed.
End work.

(** ** Calls of the default selection *)
Record call_ok (size ll_threshold : Z) (c : call) : Prop := {
  co_sizeof : 0 < c_sizeof c /\ 16 mod c_sizeof c = 0 /\ ll_threshold mod c_sizeof c = 0;
  co_nelems : 0 < c_nelems c /\ (c_nelems c * c_sizeof c) mod 8 = 0 /\ c_nelems c * c_sizeof c <= ll_threshold;
  co_warps : forall p, 0 < c_warps c p /\ even_groups (c_warps c p) (c_subs c) /\ 2 * size + c_warps c p <= 2 ^ 32 /\ c_subs c + c_warps c p + 64 <= 2 ^ 32;
  co_src : forall r u, 0 <= c_src c r u < 2 ^ 32 }.

(** A call of [8 * k] bytes takes [2 * k] words for each PE, and a half begins at
    word [0] or after [2 * size] words for each 8 bytes of the threshold. *)
Lemma call_slot_spec size thr c count : thr mod 8 = 0 -> call_ok size thr c ->
  let sl := call_slot size thr c count in
  s_width sl = c_subs c /\ s_base sl = 2 * size * (thr / 8) * (count mod 2) /\ 0 < c_subs c /\ c_subs c mod 2 = 0 /\ c_subs c <= 2 * (thr / 8).
Proof.
  intros Ht [(Hz & H16 & Hthr) (Hn & H8 & Hle) _ _]. cbn. unfold c_subs, ROUND_UP. set (z := c_sizeof c) in *. set (n := c_nelems c) in *.
  pose proof (Z.div_mod 16 z) as D1. pose proof (Z.div_mod (n * z) 8) as D2. pose proof (Z.div_mod thr z) as D3. pose proof (Z.div_mod thr 8) as D4.
  set (k := n * z / 8) in *. set (y := 16 / z) in *. assert (n * z = 8 * k) as E8 by lia. assert (z * y = 16) as Ezy by lia. assert (0 < k) by nia. assert (0 < y) by nia.
  assert (n * 2 = k * y) as Eny by nia. assert ((n * 2 + y - 1) / y = k) as Ek.
  { rewrite Eny. replace (k * y + y - 1) with (k * y + (y - 1)) by lia. rewrite Z.div_add_l by lia. rewrite (Z.div_small (y - 1)) by lia. lia. }
  assert (n * z / 4 = 2 * k) as -> by (rewrite E8; replace (8 * k) with (2 * k * 4) by lia; by apply Z.div_mul).
  split_and!; try lia.
  - rewrite Ek. replace (k * y * z) with (2 * k * 8) by nia. by rewrite Z.div_mul.
  - replace (2 * size * (thr / z) * (count mod 2) * z) with (2 * size * (thr / 8) * (count mod 2) * 8); [by rewrite Z.div_mul|].
    replace (2 * size * (thr / z) * (count mod 2) * z) with (2 * size * (count mod 2) * (z * (thr / z))) by lia.
    replace (z * (thr / z)) with (8 * (thr / 8)) by lia. lia.
  - rewrite Z.mul_comm. by apply Z.mod_mul.
Qed.

Lemma addr_bounds size thr c count r w : thr mod 8 = 0 -> call_ok size thr c -> 0 <= r < size -> 0 <= w < c_subs c ->
  0 <= addr (call_slot size thr c count) r w * 8 /\ (addr (call_slot size thr c count) r w + 1) * 8 <= 2 * 2 * size * thr.
Proof.
  intros Ht Hok Hr Hw. destruct (call_slot_spec size thr c count Ht Hok) as (Ew & Eb & H0 & _ & Hle). unfold addr. rewrite Ew, Eb.
  pose proof (Z.mod_pos_bound count 2). pose proof (Z.div_mod thr 8). assert (0 <= r * c_subs c) by nia. assert (r * c_subs c + w + 1 <= size * (2 * (thr / 8))) by nia.
  assert (0 <= 2 * size * (thr / 8) * (count mod 2) <= 2 * size * (thr / 8)) by nia. split; [lia|]. nia.
Qed.

Lemma fc_schedule_lookup size thr calls count i : schedule size thr calls count !! i = (fun c => call_slot size thr c (count + 1 + Z.of_nat i)) <$> calls !! i.
Proof.
  revert count i. induction calls as [|c calls IH]; intros count [|i]; try done; cbn.
  - by rewrite Z.add_0_r. - rewrite IH. by replace (count + 1 + 1 + Z.of_nat i) with (count + 1 + Z.pos (Pos.of_succ_nat i)) by lia.
Qed.
Lemma fc_schedule_length size thr calls count : length (schedule size thr calls count) = length calls.
Proof. revert count. induction calls as [|c calls IH]; intros count; [done|]. cbn. by rewrite IH. Qed.

Lemma shape_app a b : (forall x, x ∈ a -> exists d i, x = Store d i) -> (forall x, x ∈ b -> exists r i, x = Recv r i) -> shape (a ++ b).
Proof.
  intros Ha Hb l1 r i l2 d k E (m & Hm)%list_elem_of_lookup. assert ((a ++ b) !! length l1 = Some (Recv r i)) as H1 by (rewrite E; by apply list_lookup_middle).
  assert ((a ++ b) !! (length l1 + S m)%nat = Some (Store d k)) as H2 by (rewrite E, lookup_app_r by lia; by replace (length l1 + S m - length l1)%nat with (S m) by lia).
  destruct (decide (length l1 < length a)%nat).
  - rewrite lookup_app_l in H1 by done. apply list_elem_of_lookup_2, Ha in H1 as (? & ? & ?). done.
  - rewrite lookup_app_r in H2 by lia. apply list_elem_of_lookup_2, Hb in H2 as (? & ? & ?). done.
Qed.
Lemma thread_shape size my_pe wc subs w l : shape (thread_program size my_pe wc subs w l).
Proof.
  unfold thread_program. case_bool_decide; apply shape_app; intros x (y & Hx & _)%list_elem_of_bind.
  - apply list_elem_of_fmap in Hx as (? & -> & _). by eexists _, _.
  - apply list_elem_of_fmap in Hx as (? & -> & _). by eexists _, _.
  - apply list_elem_of_bind in Hx as (? & Hx & _). apply list_elem_of_bind in Hx as (? & Hx & _). apply list_elem_of_fmap in Hx as (? & -> & _). by eexists _, _.
  - apply list_elem_of_bind in Hx as (? & Hx & _). apply list_elem_of_fmap in Hx as (? & -> & _). by eexists _, _.
Qed.

Lemma fc_schedule_ok size thr calls count : 0 < size -> thr mod 8 = 0 -> Forall (call_ok size thr) calls -> 0 <= count -> count + Z.of_nat (length calls) < 2 ^ 32 ->
  slots_ok size (schedule size thr calls count).
Proof.
  intros Hs Ht Hok Hc Hl. rewrite list.Forall_lookup in Hok.
  assert (forall j sl, schedule size thr calls count !! j = Some sl -> exists c, calls !! j = Some c /\ call_ok size thr c /\ sl = call_slot size thr c (count + 1 + Z.of_nat j) /\
    s_call sl = c /\ s_flag sl = count + 1 + Z.of_nat j) as Hget.
  { intros j sl Hj. rewrite fc_schedule_lookup in Hj. apply fmap_Some in Hj as (c & Hc' & ->). exists c. split; [done|]. split; [by apply (Hok j)|]. split; [done|]. split; [done|].
    cbn. apply lookup_lt_Some in Hc'. rewrite wrap_small; [lia | unfold in_u; lia]. }
  split.
  - intros j sl Hj. destruct (Hget j sl Hj) as (c & _ & Hok' & -> & _ & _). destruct (call_slot_spec size thr c (count + 1 + Z.of_nat j) Ht Hok') as (? & ? & ? & ? & ?).
    split; [done|]. split; [done|]. split; [done|]. apply (co_src _ _ _ Hok').
  - intros p j sl Hp Hj. unfold program. rewrite Hj. destruct (Hget j sl Hj) as (c & _ & Hok' & -> & _ & _).
    destruct (call_slot_spec size thr c (count + 1 + Z.of_nat j) Ht Hok') as (? & ? & ? & ? & ?). destruct (co_warps _ _ _ Hok' p) as (? & ? & ? & ?).
    apply threads_cover; try done; cbn in *; lia.
  - intros p j th Hp Hth. unfold program in Hth. destruct (schedule _ _ _ _ !! j); [|by apply not_elem_of_nil in Hth]. unfold fc_threads in Hth.
    apply list_elem_of_bind in Hth as (w & Hth & _). apply list_elem_of_fmap in Hth as (l & -> & _). apply thread_shape.
  - intros i j sl sl' Hi Hj E. destruct (Hget i sl Hi) as (_ & _ & _ & _ & _ & Ei). destruct (Hget j sl' Hj) as (_ & _ & _ & _ & _ & Ej). lia.
  - intros j sl sl' r w r' w' Hj Hj' Hr Hr' Hw Hw' E. destruct (Hget j sl Hj) as (c & _ & Hok' & -> & _ & _). destruct (Hget (S j) sl' Hj') as (c' & _ & Hok'' & -> & _ & _).
    destruct (call_slot_spec size thr c (count + 1 + Z.of_nat j) Ht Hok') as (Ew & Eb & ? & ? & Hle). destruct (call_slot_spec size thr c' (count + 1 + Z.of_nat (S j)) Ht Hok'') as (Ew' & Eb' & ? & ? & Hle').
    unfold addr in E. rewrite Ew, Eb, Ew', Eb' in E. cbn [s_call call_slot] in Hw, Hw'.
    set (x := count + 1 + Z.of_nat j) in *. replace (count + 1 + Z.of_nat (S j)) with (x + 1) in E by lia.
    assert (r * c_subs c + w < 2 * size * (thr / 8)) by nia. assert (r' * c_subs c' + w' < 2 * size * (thr / 8)) by nia. assert (0 <= r * c_subs c) by nia. assert (0 <= r' * c_subs c') by nia.
    pose proof (Z.mod_pos_bound x 2). pose proof (Z.mod_pos_bound (x + 1) 2). pose proof (Z.div_mod x 2). pose proof (Z.div_mod (x + 1) 2).
    assert ((x mod 2 = 0 /\ (x + 1) mod 2 = 1) \/ (x mod 2 = 1 /\ (x + 1) mod 2 = 0)) as [[E1 E2]|[E1 E2]] by lia; rewrite E1, E2 in E; lia.
Qed.

(** C16: in a sequence of fcollect calls of one team whose GPUs are mapped to each other,
    each of at most the threshold and with warps that divide evenly, with the stored
    words visible one by one in any order, threads in any order, and no barrier: every PE
    that has finished a call has in its destination the source of every PE, in order;
    the PEs never wait for each other for ever; the number of steps is bounded, so all
    calls finish on all PEs; and no call leaves the work space the team has for it. *)
Theorem fcollect_sequence_correct (size ll_threshold fcollect_count : Z) (calls : list call) (s : state) :
  0 < size -> ll_threshold mod 8 = 0 -> 0 <= fcollect_count -> fcollect_count + Z.of_nat (length calls) < 2 ^ 32 ->
  Forall (call_ok size ll_threshold) calls -> reachable size (schedule size ll_threshold calls fcollect_count) s ->
  (forall p j c r w, 0 <= p < size -> (j < at_call s p)%nat -> calls !! j = Some c -> 0 <= r < size -> 0 <= w < c_subs c -> got s p j r w = c_src c r w) /\
  ((forall s', ~ step size (schedule size ll_threshold calls fcollect_count) s s') -> forall p, 0 <= p < size -> (length calls <= at_call s p)%nat) /\
  (forall n s', nsteps (step size (schedule size ll_threshold calls fcollect_count)) n s s' -> (n <= fc_work size (schedule size ll_threshold calls fcollect_count) s)%nat) /\
  (forall j sl r w, schedule size ll_threshold calls fcollect_count !! j = Some sl -> 0 <= r < size -> 0 <= w < c_subs (s_call sl) ->
     0 <= addr sl r w * 8 /\ (addr sl r w + 1) * 8 <= 2 * 2 * size * ll_threshold).
Proof.
  intros Hs Ht Hf Hl Hok Hr. pose proof (fc_schedule_ok size ll_threshold calls fcollect_count Hs Ht Hok Hf Hl) as Hsl.
  pose proof (fc_inv_reachable size _ Hsl s Hr) as I. split_and!.
  - intros p j c r w Hp Hlt Hc Hr' Hw. assert (schedule size ll_threshold calls fcollect_count !! j = Some (call_slot size ll_threshold c (fcollect_count + 1 + Z.of_nat j))) as Hj by (by rewrite fc_schedule_lookup, Hc).
    by apply (i_recv size _ s I p j r _ w Hp Hr' Hj Hw); left.
  - intros Hstuck p Hp. destruct (decide (length calls <= at_call s p)%nat) as [|Hlt]; [done|]. exfalso.
    destruct (fc_unfinished_steps size _ Hsl s p I Hp) as [s' Hst]; [rewrite fc_schedule_length; lia|]. by apply (Hstuck s').
  - intros n s' Hn%fc_steps_bounded. lia.
  - intros j sl r w Hj Hr' Hw. rewrite fc_schedule_lookup in Hj. apply fmap_Some in Hj as (c & Hc & ->). rewrite list.Forall_lookup in Hok.
    by apply (addr_bounds size ll_threshold c _ r w Ht (Hok j c Hc)).
Qed.

(** ** Running the steps *)
Inductive choice := CThread (p : Z) (t : nat) | CNext (p : Z) | CDeliver (n : nat).
Section run.
Context (size : Z) (slots : list slot).
Definition choose (s : state) (c : choice) : option state :=
  match c with
  | CThread p t =>
      let j := at_call s p in
      if bool_decide (0 <= p < size) then
        match progs s p !! t with
        | Some (Store d i :: rest) => Some (MkState (words s) (got s) (at_call s) (<[p := <[t := rest]> (progs s p)]> (progs s)) (MkFlight j p d i :: MkFlight j p d (i + 1) :: net s))
        | Some (Recv r i :: rest) =>
            sl ← slots !! j;
            v ← CollBcast.recvLL (s_flag sl) (words s p (addr sl r i), words s p (addr sl r (i + 1)));
            Some (MkState (words s) (upd_got (upd_got (got s) p j r i v.1) p j r (i + 1) v.2) (at_call s) (<[p := <[t := rest]> (progs s p)]> (progs s)) (net s))
        | _ => None
        end
      else None
  | CNext p =>
      if bool_decide (0 <= p < size /\ (at_call s p < length slots)%nat /\ Forall (fun th => th = []) (progs s p))
      then Some (MkState (words s) (got s) (<[p := S (at_call s p)]> (at_call s)) (<[p := program size slots p (S (at_call s p))]> (progs s)) (net s)) else None
  | CDeliver n =>
      f ← net s !! n; sl ← slots !! fl_call f;
      Some (MkState (CollBcast.upd2 (words s) (fl_dst f) (addr sl (fl_src f) (fl_word f)) (CollBcast.ll_word (s_flag sl) (c_src (s_call sl) (fl_src f) (fl_word f))))
                    (got s) (at_call s) (progs s) (take n (net s) ++ drop (S n) (net s)))
  end.
Fixpoint choose_all (s : state) (cs : list choice) : option state :=
  match cs with [] => Some s | c :: cs => s' ← choose s c; choose_all s' cs end.

Lemma choose_step s c s' : choose s c = Some s' -> step size slots s s'.
Proof.
  destruct c as [p t|p|n]; cbn [choose]; intros H.
  - case_bool_decide as Hp; [|done]. destruct (progs s p !! t) as [[|[d i|r i] rest]|] eqn:Ht; try done.
    + injection H as <-. by eapply (step_store _ _ s p).
    + destruct (slots !! at_call s p) as [sl|] eqn:Hj; [|done]. cbn in H. destruct (CollBcast.recvLL _ _) as [v|] eqn:Hv; [|done]. cbn in H. injection H as <-.
      by eapply (step_recv _ _ s p _ sl).
  - case_bool_decide as Hp; [|done]. injection H as <-. destruct Hp as (? & ? & ?). by apply (step_next _ _ s p).
  - destruct (net s !! n) as [f|] eqn:Hf; [|done]. cbn in H. destruct (slots !! fl_call f) as [sl|] eqn:Hj; [|done]. cbn in H. injection H as <-.
    apply (step_deliver _ _ s (take n (net s)) f (drop (S n) (net s)) sl); [|done]. symmetry. by apply take_drop_middle.
Qed.
Lemma choose_all_steps s cs s' : choose_all s cs = Some s' -> rtc (step size slots) s s'.
Proof.
  revert s. induction cs as [|c cs IH]; intros s H; cbn in H; [injection H as ->; apply rtc_refl|].
  destruct (choose s c) as [s1|] eqn:E; [|done]. eapply rtc_l; [by eapply choose_step | by apply IH].
Qed.
End run.

(** Two PEs of one warp each gather two units from each other; the words reach the
    first PE in another order than they were stored. *)
Definition ex_calls : list call := [MkCall 2 4 (fun _ => 1) (fun r u => if u =? 0 then 7 + (if r =? 0 then 0 else 1) else 9)].
Definition ex_slots : list slot := schedule 2 2048 ex_calls 0.
Definition ex_start : state := MkState (fun _ _ => 0) (fun _ _ _ _ => 0) (fun _ => 0%nat) (fun p => program 2 ex_slots p 0) [].
Definition ex_choices : list choice :=
  [CThread 1 0; CThread 0 0; CThread 1 0; CDeliver 3; CDeliver 1; CDeliver 0; CDeliver 0; CThread 0 0; CThread 0 0; CThread 0 0; CNext 0].

Lemma ex_initial : initial 2 ex_slots ex_start.
Proof.
  constructor; [|reflexivity..]. intros p a sl Hsl. unfold ex_slots, ex_calls in Hsl. cbn [schedule] in Hsl. apply list_elem_of_singleton in Hsl as ->.
  cbn [s_flag call_slot words ex_start]. vm_compute. discriminate.
Qed.
Lemma ex_calls_ok : Forall (call_ok 2 2048) ex_calls.
Proof.
  constructor; [|constructor]. constructor; cbn [c_sizeof c_nelems c_warps c_src].
  - split_and!; [lia | reflexivity | reflexivity].
  - split_and!; [lia | reflexivity | lia].
  - intros p. split_and!; [lia | intros Hx; vm_compute in Hx; by destruct Hx | vm_compute; discriminate | vm_compute; discriminate].
  - intros r u. destruct (u =? 0); [destruct (r =? 0)|]; lia.
Qed.
Lemma fcollect_sequence_correct_witness :
  exists s, reachable 2 ex_slots s /\ got s 0 0%nat 1 0 = 8 /\ got s 0 0%nat 0 1 = 9.
Proof.
  assert (match choose_all 2 ex_slots ex_start ex_choices with Some s => Nat.ltb 0 (at_call s 0) | None => false end = true) as H by (vm_compute; reflexivity).
  destruct (choose_all 2 ex_slots ex_start ex_choices) as [s|] eqn:E; [|done]. apply Nat.ltb_lt in H.
  assert (reachable 2 ex_slots s) as Hr.
  { exists ex_start. split; [exact ex_initial | exact (choose_all_steps 2 ex_slots ex_start ex_choices s E)]. }
  exists s. split; [exact Hr|]. pose proof ex_calls_ok as Hok.
  destruct (fcollect_sequence_correct 2 2048 0 ex_calls s ltac:(lia) eq_refl ltac:(lia) ltac:(vm_compute; reflexivity) Hok Hr) as [Hgot _].
  split; [exact (Hgot 0 0%nat _ 1 0 ltac:(lia) H eq_refl ltac:(lia) ltac:(vm_compute; split; [intros|]; done))
         |exact (Hgot 0 0%nat _ 0 1 ltac:(lia) H eq_refl ltac:(lia) ltac:(vm_compute; split; [intros|]; done))].
Defined.
End CollFcollect.
