(* ===== verification/CollRecexch.v ===== *)
(** * Reduction by recursive exchange

    [gpu_rdxn_recexch_threadgroup] of
    src/src/include/non_abi/device/coll/reduce.cuh: the program of a PE, for the
    schedule [Recexch.recexch] the host computed, and the step relation of all
    PEs with puts and signals in flight.

    There is no barrier between the phases: a PE signals its neighbours when its
    data is on the way, and waits for theirs.  Puts are delivered element by
    element, in any order, and read their source when they are delivered; a
    signal is delivered after the puts to the same PE that were issued before
    the last fence.  The loops of a thread group over its elements are one step
    each: the threads write distinct elements, which no other PE reads or writes
    meanwhile except as a put's source.  PEs are numbered as in TEAM_WORLD, the
    team the algorithm is used for; addresses are counted in elements. *)
From stdpp Require Import base list option relations.
From Stdlib Require Import ZArith Lia.
From S2P Require Import Prelude Recexch CollMem.

Module CollRecexch.
Import Recexch CollMem.

Inductive rinstr :=
| RCopy (dst src n : Z)            (** [dst\[i\] = src\[i\]] by the group *)
| RPut (pe dst src n : Z)          (** [nvshmemi_put_nbi] *)
| RFence                           (** [nvshmemi_fence] *)
| RSignal (pe slot v : Z)          (** [nvshmemi_signal_for_barrier(pSync + slot, v, pe)] *)
| RWait (slot v : Z)               (** [nvshmemi_wait_until(pSync + slot, GE, v)] *)
| RReduce (x y z n : Z).           (** [gpu_linear_reduce_threadgroup] *)

Section Program.
Context (k rank counter pWrk dst source nreduce : Z).

(** [num_small]: the index of the first neighbour above this PE *)
Fixpoint num_small (i : Z) (nbrs : list Z) : Z :=
  match nbrs with [] => k - 1 | x :: nbrs => if bool_decide (x > rank) then i else num_small (i + 1) nbrs end.
(** The wait for neighbour number [i] and its reduction *)
Definition take_in (recv_offset phase i nbr : Z) : list rinstr :=
  let offset := recv_offset + k * phase * nreduce + (if bool_decide (nbr < rank) then i * nreduce else (i + 1) * nreduce) in
  [RWait nbr counter; RReduce dst (pWrk + offset) dst nreduce].
(** One phase of step 2, with neighbours [nbrs] *)
Definition exchange_phase (step2_nphases phase : Z) (nbrs : list Z) : list rinstr :=
  let send_offset := (k - 1) * nreduce + k * step2_nphases * nreduce in
  let recv_offset := (k - 1) * nreduce in
  let offset := recv_offset + k * phase * nreduce + num_small 0 nbrs * nreduce in
  let out := pWrk + send_offset + phase * nreduce in
  [RCopy out dst nreduce] ++
  ((fun nbr => RPut nbr (pWrk + offset) out nreduce) <$> nbrs) ++
  [RFence] ++
  ((fun nbr => RSignal nbr rank counter) <$> nbrs) ++
  concat (imap (fun i nbr => take_in recv_offset phase (Z.of_nat i) nbr) nbrs).
(** [gpu_rdxn_recexch_threadgroup], and the sync counter afterwards.  A phase
    with fewer than [k - 1] neighbours is read past its end. *)
Definition gpu_rdxn_recexch_threadgroup (r : recexch) : outcome (list rinstr * Z) :=
  let in_step2 := bool_decide (step1_sendto r = -1) in
  let step2_nphases := Z.of_nat (length (step2_nbrs r)) in
  _ ← (if in_step2 && negb (forallb (fun nbrs => bool_decide (k - 1 <= Z.of_nat (length nbrs))) (step2_nbrs r)) then Fail FUndef else Ret tt);
  let step1 :=
    if in_step2
    then [RCopy dst source nreduce] ++
         (step1_recvfrom r ≫= fun from => [RWait from counter; RReduce dst (pWrk + (rank - from - 1) * nreduce) dst nreduce])
    else [RPut (step1_sendto r) (pWrk + (step1_sendto r - rank - 1) * nreduce) source nreduce; RFence; RSignal (step1_sendto r) rank counter] in
  let step2 :=
    if in_step2 then concat (imap (fun p nbrs => exchange_phase step2_nphases (Z.of_nat p) (take (Z.to_nat (k - 1)) nbrs)) (step2_nbrs r)) else [] in
  let step3 :=
    if negb (bool_decide (step1_recvfrom r = []))
    then ((fun to => RPut to dst dst nreduce) <$> step1_recvfrom r) ++ [RFence] ++ ((fun to => RSignal to rank counter) <$> step1_recvfrom r)
    else if in_step2 then [] else [RWait (step1_sendto r) counter] in
  Ret (step1 ++ step2 ++ step3, counter + 1).
End Program.

(** ** All PEs *)
Inductive msg :=
| MPut (from to dst src : Z) (epoch : nat)
| MSignal (from to slot v : Z) (epoch : nat).

Section System.
Context {V : Type} (op : V -> V -> V).
(** What each PE has still to do, the fences it has passed, memory, the cells of
    pSync and the messages in flight *)
Record sys := MkSys { prog : Z -> list rinstr; epoch : Z -> nat; memory : mem (V := V); cell : loc -> Z; net : list msg }.

Definition upd {A B} `{EqDecision A} (f : A -> B) (a : A) (b : B) : A -> B := fun x => if bool_decide (x = a) then b else f x.
Definition copy_range (q d s n : Z) (m : mem (V := V)) : mem := fun l =>
  if bool_decide (l.1 = q /\ d <= l.2 < d + n) then m (q, s + (l.2 - d)) else m l.
Definition reduce_range (q x y z n : Z) (m : mem (V := V)) : mem := fun l =>
  if bool_decide (l.1 = q /\ z <= l.2 < z + n) then op (m (q, x + (l.2 - z))) (m (q, y + (l.2 - z))) else m l.

Inductive step : sys -> sys -> Prop :=
| step_copy q d s n rest st : prog st q = RCopy d s n :: rest ->
    step st (MkSys (upd (prog st) q rest) (epoch st) (copy_range q d s n (memory st)) (cell st) (net st))
| step_put q pe d s n rest st : prog st q = RPut pe d s n :: rest ->
    step st (MkSys (upd (prog st) q rest) (epoch st) (memory st) (cell st)
               (net st ++ ((fun i => MPut q pe (d + i) (s + i) (epoch st q)) <$> seqZ 0 n)))
| step_fence q rest st : prog st q = RFence :: rest ->
    step st (MkSys (upd (prog st) q rest) (upd (epoch st) q (S (epoch st q))) (memory st) (cell st) (net st))
| step_signal q pe slot v rest st : prog st q = RSignal pe slot v :: rest ->
    step st (MkSys (upd (prog st) q rest) (epoch st) (memory st) (cell st) (net st ++ [MSignal q pe slot v (epoch st q)]))
| step_wait q slot v rest st : prog st q = RWait slot v :: rest -> cell st (q, slot) >= v ->
    step st (MkSys (upd (prog st) q rest) (epoch st) (memory st) (cell st) (net st))
| step_reduce q x y z n rest st : prog st q = RReduce x y z n :: rest ->
    step st (MkSys (upd (prog st) q rest) (epoch st) (reduce_range q x y z n (memory st)) (cell st) (net st))
| step_deliver_put f t d s e l1 l2 st : net st = l1 ++ MPut f t d s e :: l2 ->
    step st (MkSys (prog st) (epoch st) (upd (memory st) (t, d) (memory st (f, s))) (cell st) (l1 ++ l2))
| step_deliver_signal f t slot v e l1 l2 st : net st = l1 ++ MSignal f t slot v e :: l2 ->
    (forall d s e', MPut f t d s e' ∈ net st -> (e <= e')%nat) ->
    step st (MkSys (prog st) (epoch st) (memory st) (upd (cell st) (t, slot) v) (l1 ++ l2)).
End System.
Arguments sys : clear implicits.
End CollRecexch.
