(* ===== verification/CollRecexchSpec.v ===== *)
(** * Recursive exchange reduces, under every interleaving

    The system of [CollRecexch] for pairs of neighbours, the case the library
    uses: teams whose size is a power of two.  The class [pairing] is what the
    protocol needs of the schedule; the invariant follows every message and
    every slot of the work space. *)
From stdpp Require Import base list option relations.
From Stdlib Require Import ZArith Lia.
From S2P Require Import Prelude Recexch CollMem CollReduceSpec CollRecexch.

Module CollRecexchSpec.
Import Recexch CollMem CollReduceSpec CollRecexch.

(** In phase [p] PE [q] exchanges with [P q p]. *)
Class pairing (n : Z) (nph : nat) (P : Z -> nat -> Z) : Prop := {
  pr_range : forall q p, 0 <= q < n -> (p < nph)%nat -> 0 <= P q p < n;
  pr_inv : forall q p, 0 <= q < n -> (p < nph)%nat -> P (P q p) p = q;
  pr_ne : forall q p, 0 <= q < n -> (p < nph)%nat -> P q p <> q;
  pr_once : forall q p p', 0 <= q < n -> (p < nph)%nat -> (p' < nph)%nat -> P q p = P q p' -> p = p' }.

Lemma upd_eq {A B} `{EqDecision A} (f : A -> B) a b : upd f a b a = b.
Proof. unfold upd. by rewrite bool_decide_true. Qed.
Lemma upd_ne {A B} `{EqDecision A} (f : A -> B) a b x : x <> a -> upd f a b x = f x.
Proof. intros Hx. unfold upd. by rewrite bool_decide_false. Qed.

Section Protocol.
Context {V : Type} (op : V -> V -> V) {n : Z} {nph : nat} {P : Z -> nat -> Z} `{HP : !pairing n nph P}.
Context (c w dst src nr : Z) (Hnr : 0 <= nr).
Context (Hdw : apart dst nr w ((1 + 3 * Z.of_nat nph) * nr)) (Hsw : apart src nr w ((1 + 3 * Z.of_nat nph) * nr)) (Hds : apart dst nr src nr).

(** The slots of the work space *)
Definition slot (i : Z) : Z := w + i * nr.
Definition side (q : Z) (p : nat) : Z := if bool_decide (P q p > q) then 0 else 1.
Definition inn (p : nat) (b : Z) : Z := slot (1 + 2 * Z.of_nat p + b).
Definition out (p : nat) : Z := slot (1 + 2 * Z.of_nat nph + Z.of_nat p).
Definition phase6 (q : Z) (p : nat) : list rinstr :=
  [RCopy (out p) dst nr; RPut (P q p) (inn p (side q p)) (out p) nr; RFence; RSignal (P q p) q c; RWait (P q p) c;
   RReduce dst (inn p (side (P q p) p)) dst nr].
Definition full (q : Z) : list rinstr := RCopy dst src nr :: (seq 0 nph ≫= phase6 q).

Lemma slot_eq i j e e' : 0 <= e < nr -> 0 <= e' < nr -> slot i + e = slot j + e' -> i = j /\ e = e'.
Proof. unfold slot. intros He He' E. assert (i = j) by nia. subst. split; [done|lia]. Qed.
Lemma slot_area i e : 0 <= i <= 3 * Z.of_nat nph -> 0 <= e < nr -> w <= slot i + e < w + (1 + 3 * Z.of_nat nph) * nr.
Proof. unfold slot. nia. Qed.
Lemma side_range q p : 0 <= side q p <= 1.
Proof. unfold side. case_bool_decide; lia. Qed.
(** The two partners write different slots. *)
Lemma side_partner q p : 0 <= q < n -> (p < nph)%nat -> side (P q p) p = 1 - side q p.
Proof. intros Hq Hp. unfold side. rewrite (pr_inv q p Hq Hp). pose proof (pr_ne q p Hq Hp). repeat case_bool_decide; lia. Qed.

Lemma bind_lookup_const {A} (f : nat -> list A) L a m p o : (forall x, length (f x) = L) -> (p < m)%nat -> (o < L)%nat ->
  (seq a m ≫= f) !! (p * L + o)%nat = f (a + p)%nat !! o.
Proof.
  intros HL. revert a p. induction m as [|m IH]; intros a p Hp Ho; [lia|]. cbn [seq]. rewrite bind_cons. destruct p as [|p].
  - cbn. rewrite lookup_app_l by (rewrite HL; lia). by rewrite Nat.add_0_r.
  - rewrite lookup_app_r by (rewrite HL; nia). rewrite HL. replace (S p * L + o - L)%nat with (p * L + o)%nat by nia. rewrite IH by lia. f_equal. f_equal. lia.
Qed.
Lemma bind_length_const {A} (f : nat -> list A) L a m : (forall x, length (f x) = L) -> length (seq a m ≫= f) = (m * L)%nat.
Proof. intros HL. revert a. induction m as [|m IH]; intros a; [done|]. cbn [seq]. rewrite bind_cons, length_app, IH, HL. lia. Qed.
Lemma full_length q : length (full q) = (1 + 6 * nph)%nat.
Proof. unfold full. cbn [length]. rewrite (bind_length_const _ 6) by done. lia. Qed.
Lemma full_lookup q p o : (p < nph)%nat -> (o < 6)%nat -> full q !! (1 + 6 * p + o)%nat = phase6 q p !! o.
Proof.
  intros Hp Ho. replace (1 + 6 * p + o)%nat with (S (p * 6 + o)) by lia. change (full q !! S (p * 6 + o)) with ((seq 0 nph ≫= phase6 q) !! (p * 6 + o)%nat).
  by rewrite (bind_lookup_const (phase6 q) 6).
Qed.
(** Where a PE can be in its program *)
Lemma full_view q j i rest : drop j (full q) = i :: rest -> rest = drop (S j) (full q) /\
  (j = 0%nat /\ i = RCopy dst src nr \/
   exists p o, (p < nph)%nat /\ (o < 6)%nat /\ j = (1 + 6 * p + o)%nat /\ phase6 q p !! o = Some i).
Proof.
  intros E. assert (full q !! j = Some i) as Ei by (rewrite <- (Nat.add_0_r j), <- lookup_drop, E; done).
  assert (rest = drop (S j) (full q)) as Er by (replace (S j) with (j + 1)%nat by lia; by rewrite <- drop_drop, E). split; [done|].
  pose proof (lookup_lt_Some _ _ _ Ei) as Hl. rewrite full_length in Hl. destruct j as [|j]; [left; split; [done|]; by injection Ei|right].
  exists (j / 6)%nat, (j mod 6)%nat. pose proof (Nat.div_mod j 6). pose proof (Nat.mod_upper_bound j 6).
  assert (j / 6 < nph)%nat by lia. split_and!; [done|lia|lia|]. rewrite <- full_lookup by lia. rewrite <- Ei. f_equal. lia.
Qed.

(** ** The values *)
Context (S0 : Z -> Z -> V).
(** What PE [q] holds after [p] phases *)
Fixpoint val (p : nat) (q e : Z) : V :=
  match p with O => S0 q e | S p => op (val p q e) (val p (P q p) e) end.

(** ** The invariant *)
(** [j q] is how many instructions PE [q] has done. *)
Record inv (j : Z -> nat) (st : sys V) : Prop := {
  i_prog : forall q, 0 <= q < n -> prog st q = drop (j q) (full q) /\ (j q <= 1 + 6 * nph)%nat;
  i_else : forall q, ~ 0 <= q < n -> prog st q = [];
  i_epoch : forall q, 0 <= q < n -> epoch st q = ((j q + 2) / 6)%nat;
  i_src : forall q e, 0 <= q < n -> 0 <= e < nr -> memory st (q, src + e) = S0 q e;
  i_dst : forall q p e, 0 <= q < n -> 0 <= e < nr -> (6 * p + 1 <= j q <= 6 * p + 6)%nat -> memory st (q, dst + e) = val p q e;
  i_out : forall q p e, 0 <= q < n -> (p < nph)%nat -> 0 <= e < nr -> (6 * p + 2 <= j q)%nat -> memory st (q, out p + e) = val p q e;
  i_put : forall q p e, 0 <= q < n -> (p < nph)%nat -> 0 <= e < nr -> (6 * p + 3 <= j q)%nat ->
    MPut q (P q p) (inn p (side q p) + e) (out p + e) p ∈ net st \/ memory st (P q p, inn p (side q p) + e) = val p q e;
  i_net_put : forall f t d s ep, MPut f t d s ep ∈ net st -> exists p e, 0 <= f < n /\ (p < nph)%nat /\ 0 <= e < nr /\ (6 * p + 3 <= j f)%nat /\
    t = P f p /\ d = inn p (side f p) + e /\ s = out p + e /\ ep = p;
  i_net_sig : forall f t sl v ep, MSignal f t sl v ep ∈ net st -> exists p, 0 <= f < n /\ (p < nph)%nat /\ (6 * p + 5 <= j f)%nat /\
    t = P f p /\ sl = f /\ v = c /\ ep = S p;
  i_cell : forall q p e, 0 <= q < n -> (p < nph)%nat -> 0 <= e < nr -> cell st (P q p, q) >= c -> memory st (P q p, inn p (side q p) + e) = val p q e;
  i_sig : forall q p, 0 <= q < n -> (p < nph)%nat -> (6 * p + 5 <= j q)%nat -> MSignal q (P q p) q c (S p) ∈ net st \/ cell st (P q p, q) >= c;
  i_wait : forall q p, 0 <= q < n -> (p < nph)%nat -> (6 * p + 6 <= j q)%nat -> cell st (q, P q p) >= c }.

Lemma out_lt p : (p < nph)%nat -> 0 <= 1 + 2 * Z.of_nat nph + Z.of_nat p <= 3 * Z.of_nat nph.
Proof. lia. Qed.
Lemma inn_lt p b : (p < nph)%nat -> 0 <= b <= 1 -> 0 <= 1 + 2 * Z.of_nat p + b <= 2 * Z.of_nat nph.
Proof. lia. Qed.
(** Slots, destination and source do not meet. *)
Lemma inn_out p b p' e e' : (p < nph)%nat -> (p' < nph)%nat -> 0 <= b <= 1 -> 0 <= e < nr -> 0 <= e' < nr -> inn p b + e <> out p' + e'.
Proof. intros Hp Hp' Hb He He' E. apply slot_eq in E; lia. Qed.
Lemma out_inj p p' e e' : 0 <= e < nr -> 0 <= e' < nr -> out p + e = out p' + e' -> p = p' /\ e = e'.
Proof. intros He He' E. apply slot_eq in E; [|done..]. lia. Qed.
Lemma inn_inj p p' b b' e e' : 0 <= b <= 1 -> 0 <= b' <= 1 -> 0 <= e < nr -> 0 <= e' < nr -> inn p b + e = inn p' b' + e' -> p = p' /\ b = b' /\ e = e'.
Proof. intros Hb Hb' He He' E. apply slot_eq in E; [|done..]. lia. Qed.
Lemma dst_inn p b e e' : (p < nph)%nat -> 0 <= b <= 1 -> 0 <= e < nr -> 0 <= e' < nr -> dst + e <> inn p b + e'.
Proof. intros Hp Hb He He' E. pose proof (slot_area (1 + 2 * Z.of_nat p + b) e' ltac:(lia) He'). unfold inn, apart in *. lia. Qed.
Lemma dst_out p e e' : (p < nph)%nat -> 0 <= e < nr -> 0 <= e' < nr -> dst + e <> out p + e'.
Proof. intros Hp He He' E. pose proof (slot_area (1 + 2 * Z.of_nat nph + Z.of_nat p) e' ltac:(lia) He'). unfold out, apart in *. lia. Qed.
Lemma src_inn p b e e' : (p < nph)%nat -> 0 <= b <= 1 -> 0 <= e < nr -> 0 <= e' < nr -> src + e <> inn p b + e'.
Proof. intros Hp Hb He He' E. pose proof (slot_area (1 + 2 * Z.of_nat p + b) e' ltac:(lia) He'). unfold inn, apart in *. lia. Qed.
Lemma src_out p e e' : (p < nph)%nat -> 0 <= e < nr -> 0 <= e' < nr -> src + e <> out p + e'.
Proof. intros Hp He He' E. pose proof (slot_area (1 + 2 * Z.of_nat nph + Z.of_nat p) e' ltac:(lia) He'). unfold out, apart in *. lia. Qed.

(** A PE that has signalled its partner has it as its partner. *)
Lemma partner_unique q p q' p' : 0 <= q < n -> 0 <= q' < n -> (p < nph)%nat -> (p' < nph)%nat -> P q p = P q' p' -> p = p' -> q = q'.
Proof. intros Hq Hq' Hp Hp' E <-. rewrite <- (pr_inv q p Hq Hp), E. by rewrite pr_inv. Qed.

(** *** Memory *)
Lemma copy_in q d s e m : 0 <= e < nr -> copy_range (V := V) q d s nr m (q, d + e) = m (q, s + e).
Proof. intros He. unfold copy_range. cbn. rewrite bool_decide_true by lia. f_equal. f_equal. lia. Qed.
Lemma copy_out q d s m l : (l.1 = q -> forall e, 0 <= e < nr -> l.2 <> d + e) -> copy_range (V := V) q d s nr m l = m l.
Proof. intros HL. unfold copy_range. rewrite bool_decide_false; [done|]. intros [E H2]. apply (HL E (l.2 - d)); lia. Qed.
Lemma reduce_in q x y z e m : 0 <= e < nr -> reduce_range op q x y z nr m (q, z + e) = op (m (q, x + e)) (m (q, y + e)).
Proof. intros He. unfold reduce_range. cbn. rewrite bool_decide_true by lia. do 2 f_equal; f_equal; lia. Qed.
Lemma reduce_out q x y z m l : (l.1 = q -> forall e, 0 <= e < nr -> l.2 <> z + e) -> reduce_range op q x y z nr m l = m l.
Proof. intros HL. unfold reduce_range. rewrite bool_decide_false; [done|]. intros [E H2]. apply (HL E (l.2 - z)); lia. Qed.

(** *** Steps of a PE *)
Lemma inv_local j st q0 i rest ep' m' nt l : inv j st -> prog st q0 = i :: rest -> 0 <= q0 < n -> nt = net st ++ l ->
  ep' q0 = ((S (j q0) + 2) / 6)%nat -> (forall q, q <> q0 -> ep' q = epoch st q) ->
  (forall q a, q <> q0 -> m' (q, a) = memory st (q, a)) ->
  (forall e, 0 <= e < nr -> m' (q0, src + e) = memory st (q0, src + e)) ->
  (forall p b e, (p < nph)%nat -> 0 <= b <= 1 -> 0 <= e < nr -> m' (q0, inn p b + e) = memory st (q0, inn p b + e)) ->
  (forall p e, 0 <= e < nr -> (6 * p + 1 <= S (j q0) <= 6 * p + 6)%nat -> m' (q0, dst + e) = val p q0 e) ->
  (forall p e, (p < nph)%nat -> 0 <= e < nr -> (6 * p + 2 <= S (j q0))%nat -> m' (q0, out p + e) = val p q0 e) ->
  (forall p e, (p < nph)%nat -> 0 <= e < nr -> (6 * p + 3 = S (j q0))%nat -> MPut q0 (P q0 p) (inn p (side q0 p) + e) (out p + e) p ∈ l) ->
  (forall p, (p < nph)%nat -> (6 * p + 5 = S (j q0))%nat -> MSignal q0 (P q0 p) q0 c (S p) ∈ l) ->
  (forall x, x ∈ l -> exists p, (p < nph)%nat /\ ((exists e, 0 <= e < nr /\ (6 * p + 3 = S (j q0))%nat /\ x = MPut q0 (P q0 p) (inn p (side q0 p) + e) (out p + e) p) \/
     ((6 * p + 5 = S (j q0))%nat /\ x = MSignal q0 (P q0 p) q0 c (S p)))) ->
  (forall p, (p < nph)%nat -> (6 * p + 6 = S (j q0))%nat -> cell st (q0, P q0 p) >= c) ->
  inv (upd j q0 (S (j q0))) (MkSys (upd (prog st) q0 rest) ep' m' (cell st) nt).
Proof.
  intros HI Hp Hq0 -> Hep Hep' Hfr Hsrc Hinn Hdst Hout Hputs Hsigs Hnew Hw. destruct (i_prog _ _ HI q0 Hq0) as [Epr Hlen].
  rewrite Epr in Hp. pose proof (full_view _ _ _ _ Hp) as [Hrest _].
  assert (S (j q0) <= 1 + 6 * nph)%nat as Hlen'.
  { apply (f_equal length) in Hp. rewrite length_drop, full_length in Hp. cbn in Hp. lia. }
  assert (forall q p b e, (p < nph)%nat -> 0 <= b <= 1 -> 0 <= e < nr -> m' (q, inn p b + e) = memory st (q, inn p b + e)) as Hinn'.
  { intros q p b e H1 H2 H3. destruct (decide (q = q0)) as [->|Hne]; [by apply Hinn|by apply Hfr]. }
  constructor; cbn [prog epoch memory cell net].
  - intros q Hq. destruct (decide (q = q0)) as [->|Hne]; [by rewrite !upd_eq|rewrite !upd_ne by done; by apply (i_prog _ _ HI)].
  - intros q Hq. rewrite upd_ne by (by intros ->). by apply (i_else _ _ HI).
  - intros q Hq. destruct (decide (q = q0)) as [->|Hne]; [by rewrite upd_eq|rewrite upd_ne, Hep' by done; by apply (i_epoch _ _ HI)].
  - intros q e Hq He. destruct (decide (q = q0)) as [->|Hne]; [rewrite Hsrc by done|rewrite Hfr by done]; by apply (i_src _ _ HI).
  - intros q p e Hq He. destruct (decide (q = q0)) as [->|Hne]; [rewrite upd_eq; by apply Hdst|rewrite upd_ne, Hfr by done; by apply (i_dst _ _ HI)].
  - intros q p e Hq Hpn He. destruct (decide (q = q0)) as [->|Hne]; [rewrite upd_eq; by apply Hout|rewrite upd_ne, Hfr by done; by apply (i_out _ _ HI)].
  - intros q p e Hq Hpn He. rewrite Hinn' by (done || apply side_range). rewrite elem_of_app. destruct (decide (q = q0)) as [->|Hne].
    + rewrite upd_eq. intros Hj. destruct (decide (6 * p + 3 = S (j q0))%nat) as [E|E]; [left; right; by apply Hputs|].
      destruct (i_put _ _ HI q0 p e Hq Hpn He ltac:(lia)) as [H1|H1]; [left; by left|by right].
    + rewrite upd_ne by done. intros Hj. destruct (i_put _ _ HI q p e Hq Hpn He Hj) as [H1|H1]; [left; by left|by right].
  - intros f t d s ep. rewrite elem_of_app. intros [Hin|Hin].
    + destruct (i_net_put _ _ HI f t d s ep Hin) as (p & e & H1 & H2 & H3 & H4 & H5). exists p, e. do 3 (split; [done|]). split; [|done].
      destruct (decide (f = q0)) as [->|Hne]; [rewrite upd_eq; lia|by rewrite upd_ne].
    + destruct (Hnew _ Hin) as (p & Hpn & [(e & He & Ej & [= -> -> -> -> ->])|(_ & [=])]). exists p, e. do 3 (split; [done|]). split; [rewrite upd_eq; lia|done].
  - intros f t sl v ep. rewrite elem_of_app. intros [Hin|Hin].
    + destruct (i_net_sig _ _ HI f t sl v ep Hin) as (p & H1 & H2 & H3 & H4). exists p. do 2 (split; [done|]). split; [|done].
      destruct (decide (f = q0)) as [->|Hne]; [rewrite upd_eq; lia|by rewrite upd_ne].
    + destruct (Hnew _ Hin) as (p & Hpn & [(e & _ & _ & [=])|(Ej & [= -> -> -> -> ->])]). exists p. do 2 (split; [done|]). split; [rewrite upd_eq; lia|done].
  - intros q p e Hq Hpn He Hc. rewrite Hinn' by (done || apply side_range). by apply (i_cell _ _ HI).
  - intros q p Hq Hpn. rewrite elem_of_app. destruct (decide (q = q0)) as [->|Hne].
    + rewrite upd_eq. intros Hj. destruct (decide (6 * p + 5 = S (j q0))%nat) as [E|E]; [left; right; by apply Hsigs|].
      destruct (i_sig _ _ HI q0 p Hq Hpn ltac:(lia)) as [H1|H1]; [left; by left|by right].
    + rewrite upd_ne by done. intros Hj. destruct (i_sig _ _ HI q p Hq Hpn Hj) as [H1|H1]; [left; by left|by right].
  - intros q p Hq Hpn. destruct (decide (q = q0)) as [->|Hne]; [rewrite upd_eq|rewrite upd_ne by done; by apply (i_wait _ _ HI)].
    intros Hj. destruct (decide (6 * p + 6 = S (j q0))%nat) as [E|E]; [by apply Hw|]. apply (i_wait _ _ HI); [done|done|lia].
Qed.

Lemma prog_range j st q i rest : inv j st -> prog st q = i :: rest -> 0 <= q < n.
Proof. intros HI Hp. destruct (decide (0 <= q < n)) as [|Hq]; [done|]. by rewrite (i_else _ _ HI q Hq) in Hp. Qed.
(** The instruction at hand tells the position. *)
Lemma prog_view j st q i rest : inv j st -> prog st q = i :: rest -> 0 <= q < n /\
  match i with
  | RCopy d s k => k = nr /\ (j q = 0%nat /\ d = dst /\ s = src \/ exists p, (p < nph)%nat /\ j q = (6 * p + 1)%nat /\ d = out p /\ s = dst)
  | RPut pe d s k => exists p, (p < nph)%nat /\ j q = (6 * p + 2)%nat /\ pe = P q p /\ d = inn p (side q p) /\ s = out p /\ k = nr
  | RFence => exists p, (p < nph)%nat /\ j q = (6 * p + 3)%nat
  | RSignal pe sl v => exists p, (p < nph)%nat /\ j q = (6 * p + 4)%nat /\ pe = P q p /\ sl = q /\ v = c
  | RWait sl v => exists p, (p < nph)%nat /\ j q = (6 * p + 5)%nat /\ sl = P q p /\ v = c
  | RReduce x y z k => exists p, (p < nph)%nat /\ j q = (6 * p + 6)%nat /\ x = dst /\ y = inn p (side (P q p) p) /\ z = dst /\ k = nr
  end.
Proof.
  intros HI Hp. pose proof (prog_range _ _ _ _ _ HI Hp) as Hq. split; [done|]. destruct (i_prog _ _ HI q Hq) as [E _]. rewrite E in Hp.
  apply full_view in Hp as [_ [[Ej ->]|(p & o & Hpn & Ho & Ej & Ei)]]; [split; [done|]; by left|].
  destruct o as [|[|[|[|[|[|o]]]]]]; try lia; injection Ei as <-; cbn; [split; [done|]; right|..]; exists p; repeat (split; [done || lia|]); done || lia.
Qed.
Lemma inv_fence j st q rest : inv j st -> prog st q = RFence :: rest ->
  inv (upd j q (S (j q))) (MkSys (upd (prog st) q rest) (upd (epoch st) q (S (epoch st q))) (memory st) (cell st) (net st)).
Proof.
  intros HI Hp. destruct (prog_view _ _ _ _ _ HI Hp) as (Hq & p & Hpn & Ej).
  apply (inv_local j st q RFence rest _ _ _ [] HI Hp Hq); try done.
  - by rewrite app_nil_r.
  - rewrite upd_eq, (i_epoch _ _ HI q Hq), Ej. replace (6 * p + 3 + 2)%nat with (5 + p * 6)%nat by lia. replace (S (6 * p + 3) + 2)%nat with (0 + (p + 1) * 6)%nat by lia.
    rewrite !Nat.div_add by lia. cbn. lia.
  - intros q' Hne. by rewrite upd_ne.
  - intros p' e He Hj. apply (i_dst _ _ HI); [done|done|lia].
  - intros p' e Hp' He Hj. apply (i_out _ _ HI); [done|done|done|lia].
  - intros p' e Hp' He Hj. lia.
  - intros p' Hp' Hj. lia.
  - intros x Hx. by apply elem_of_nil in Hx.
  - intros p' Hp' Hj. lia.
Qed.
Lemma epoch_same p o : (o < 6)%nat -> o <> 3%nat -> ((S (6 * p + o) + 2) / 6 = (6 * p + o + 2) / 6)%nat.
Proof.
  intros Ho Hne. replace (S (6 * p + o) + 2)%nat with (3 + o + p * 6)%nat by lia. replace (6 * p + o + 2)%nat with (2 + o + p * 6)%nat by lia. rewrite !Nat.div_add by lia. f_equal.
  destruct o as [|[|[|[|[|[|o]]]]]]; done || lia.
Qed.
Lemma epoch_kept j st q p o : inv j st -> 0 <= q < n -> j q = (6 * p + o)%nat -> (o < 6)%nat -> o <> 3%nat -> epoch st q = ((S (j q) + 2) / 6)%nat.
Proof. intros HI Hq Ej Ho Hne. by rewrite (i_epoch _ _ HI q Hq), Ej, epoch_same. Qed.
Lemma inv_wait j st q sl v rest : inv j st -> prog st q = RWait sl v :: rest -> cell st (q, sl) >= v ->
  inv (upd j q (S (j q))) (MkSys (upd (prog st) q rest) (epoch st) (memory st) (cell st) (net st)).
Proof.
  intros HI Hp Hc. destruct (prog_view _ _ _ _ _ HI Hp) as (Hq & p & Hpn & Ej & -> & ->).
  apply (inv_local j st q _ rest _ _ _ [] HI Hp Hq); try done.
  - by rewrite app_nil_r.
  - apply (epoch_kept j st q p 5 HI Hq); lia.
  - intros p' e He Hj. apply (i_dst _ _ HI); [done|done|lia].
  - intros p' e Hp' He Hj. apply (i_out _ _ HI); [done|done|done|lia].
  - intros p' e Hp' He Hj. lia.
  - intros p' Hp' Hj. lia.
  - intros x Hx. by apply elem_of_nil in Hx.
  - intros p' Hp' Hj. by assert (p' = p) as -> by lia.
Qed.
Lemma inv_signal j st q pe sl v rest : inv j st -> prog st q = RSignal pe sl v :: rest ->
  inv (upd j q (S (j q))) (MkSys (upd (prog st) q rest) (epoch st) (memory st) (cell st) (net st ++ [MSignal q pe sl v (epoch st q)])).
Proof.
  intros HI Hp. destruct (prog_view _ _ _ _ _ HI Hp) as (Hq & p & Hpn & Ej & -> & -> & ->).
  assert (epoch st q = S p) as Ep.
  { rewrite (i_epoch _ _ HI q Hq), Ej. replace (6 * p + 4 + 2)%nat with (0 + S p * 6)%nat by lia. by rewrite Nat.div_add by lia. }
  apply (inv_local j st q _ rest _ _ _ [MSignal q (P q p) q c (epoch st q)] HI Hp Hq); try done.
  - apply (epoch_kept j st q p 4 HI Hq); lia.
  - intros p' e He Hj. apply (i_dst _ _ HI); [done|done|lia].
  - intros p' e Hp' He Hj. apply (i_out _ _ HI); [done|done|done|lia].
  - intros p' e Hp' He Hj. lia.
  - intros p' Hp' Hj. assert (p' = p) as -> by lia. rewrite Ep. left.
  - intros x Hx. apply list_elem_of_singleton in Hx as ->. exists p. split; [done|]. right. split; [lia|]. by rewrite Ep.
  - intros p' Hp' Hj. lia.
Qed.
Lemma inv_putting j st q pe d s k rest : inv j st -> prog st q = RPut pe d s k :: rest ->
  inv (upd j q (S (j q))) (MkSys (upd (prog st) q rest) (epoch st) (memory st) (cell st)
    (net st ++ ((fun i => MPut q pe (d + i) (s + i) (epoch st q)) <$> seqZ 0 k))).
Proof.
  intros HI Hp. destruct (prog_view _ _ _ _ _ HI Hp) as (Hq & p & Hpn & Ej & -> & -> & -> & ->).
  assert (epoch st q = p) as Ep.
  { rewrite (i_epoch _ _ HI q Hq), Ej. replace (6 * p + 2 + 2)%nat with (4 + p * 6)%nat by lia. by rewrite Nat.div_add by lia. }
  apply (inv_local j st q _ rest _ _ _ ((fun i => MPut q (P q p) (inn p (side q p) + i) (out p + i) (epoch st q)) <$> seqZ 0 nr) HI Hp Hq); try done.
  - apply (epoch_kept j st q p 2 HI Hq); lia.
  - intros p' e He Hj. apply (i_dst _ _ HI); [done|done|lia].
  - intros p' e Hp' He Hj. apply (i_out _ _ HI); [done|done|done|lia].
  - intros p' e Hp' He Hj. assert (p' = p) as -> by lia. apply list_elem_of_fmap. exists e. rewrite Ep. split; [done|]. apply elem_of_seqZ. lia.
  - intros p' Hp' Hj. lia.
  - intros x Hx. apply list_elem_of_fmap in Hx as (e & -> & He). apply elem_of_seqZ in He. exists p. split; [done|]. left. exists e. rewrite Ep. split; [lia|]. split; [lia|done].
  - intros p' Hp' Hj. lia.
Qed.
Lemma inv_copy j st q d s k rest : inv j st -> prog st q = RCopy d s k :: rest ->
  inv (upd j q (S (j q))) (MkSys (upd (prog st) q rest) (epoch st) (copy_range q d s k (memory st)) (cell st) (net st)).
Proof.
  intros HI Hp. destruct (prog_view _ _ _ _ _ HI Hp) as (Hq & -> & [(Ej & -> & ->)|(p & Hpn & Ej & -> & ->)]);
    apply (inv_local j st q _ rest _ _ _ [] HI Hp Hq); try done; try (by rewrite app_nil_r); try (intros x Hx; by apply elem_of_nil in Hx).
  - apply (epoch_kept j st q 0 0 HI Hq); lia.
  - intros q' a Hne. apply copy_out. by intros.
  - intros e He. apply copy_out. cbn. intros _ e' He'. unfold apart in Hds. lia.
  - intros p b e Hp' Hb He. apply copy_out. cbn. intros _ e' He' E. by apply (dst_inn p b e' e).
  - intros p e He Hj. assert (p = 0%nat) as -> by lia. rewrite copy_in by done. by apply (i_src _ _ HI).
  - intros p e Hp' He Hj. lia.
  - intros p' e Hp' He Hj. lia.
  - intros p' Hp' Hj. lia.
  - intros p' Hp' Hj. lia.
  - apply (epoch_kept j st q p 1 HI Hq); lia.
  - intros q' a Hne. apply copy_out. by intros.
  - intros e He. apply copy_out. cbn. intros _ e' He'. by apply src_out.
  - intros p' b e Hp' Hb He. apply copy_out. cbn. intros _ e' He'. by apply inn_out.
  - intros p' e He Hj. rewrite copy_out by (cbn; intros _ e' He'; by apply dst_out). apply (i_dst _ _ HI); [done|done|lia].
  - intros p' e Hp' He Hj. destruct (decide (p' = p)) as [->|Hne].
    + rewrite copy_in by done. apply (i_dst _ _ HI); [done|done|lia].
    + rewrite copy_out; [apply (i_out _ _ HI); [done|done|done|lia]|]. cbn. intros _ e' He' E. by apply out_inj in E as [? _].
  - intros p' e Hp' He Hj. lia.
  - intros p' Hp' Hj. lia.
  - intros p' Hp' Hj. lia.
Qed.
Lemma inv_reduce j st q x y z k rest : inv j st -> prog st q = RReduce x y z k :: rest ->
  inv (upd j q (S (j q))) (MkSys (upd (prog st) q rest) (epoch st) (reduce_range op q x y z k (memory st)) (cell st) (net st)).
Proof.
  intros HI Hp. destruct (prog_view _ _ _ _ _ HI Hp) as (Hq & p & Hpn & Ej & -> & -> & -> & ->). pose proof (i_wait _ _ HI q p Hq Hpn ltac:(lia)) as Hc.
  apply (inv_local j st q _ rest _ _ _ [] HI Hp Hq); try done; try (by rewrite app_nil_r); try (intros ? Hx; by apply elem_of_nil in Hx).
  - apply (epoch_kept j st q (S p) 0 HI Hq); lia.
  - intros q' a Hne. apply reduce_out. by intros.
  - intros e He. apply reduce_out. cbn. intros _ e' He'. unfold apart in Hds. lia.
  - intros p' b e Hp' Hb He. apply reduce_out. cbn. intros _ e' He' E. by apply (dst_inn p' b e' e).
  - intros p' e He Hj. assert (p' = S p) as -> by lia. rewrite reduce_in by done. cbn [val]. f_equal; [apply (i_dst _ _ HI); [done|done|lia]|].
    pose proof (pr_range q p Hq Hpn) as Hr. pose proof (i_cell _ _ HI (P q p) p e Hr Hpn He) as HC. rewrite (pr_inv q p Hq Hpn) in HC. by apply HC.
  - intros p' e Hp' He Hj. rewrite reduce_out; [apply (i_out _ _ HI); [done|done|done|lia]|]. cbn. intros _ e' He' E. by apply (dst_out p' e' e).
  - intros p' e Hp' He Hj. lia.
  - intros p' Hp' Hj. lia.
  - intros p' Hp' Hj. lia.
Qed.

(** *** Deliveries *)
Lemma slot_owner q p e f p' e' : 0 <= q < n -> 0 <= f < n -> (p < nph)%nat -> (p' < nph)%nat -> 0 <= e < nr -> 0 <= e' < nr ->
  (P q p, inn p (side q p) + e) = (P f p', inn p' (side f p') + e') -> q = f /\ p = p' /\ e = e'.
Proof.
  intros Hq Hf Hp Hp' He He' [= E1 E2]. apply inn_inj in E2 as (-> & _ & ->); [|apply side_range|apply side_range|done|done].
  split; [|done]. by apply (partner_unique q p' f p').
Qed.
Lemma inv_deliver_put j st f t d s ep l1 l2 : inv j st -> net st = l1 ++ MPut f t d s ep :: l2 ->
  inv j (MkSys (prog st) (epoch st) (upd (memory st) (t, d) (memory st (f, s))) (cell st) (l1 ++ l2)).
Proof.
  intros HI Hn. assert (forall x, x ∈ l1 ++ l2 -> x ∈ net st) as Hsub.
  { intros x. rewrite Hn, !elem_of_app, elem_of_cons. tauto. }
  assert (forall x, x ∈ net st -> x = MPut f t d s ep \/ x ∈ l1 ++ l2) as Hsup.
  { intros x. rewrite Hn, !elem_of_app, elem_of_cons. tauto. }
  destruct (i_net_put _ _ HI f t d s ep) as (p & e & Hf & Hp & He & Hj & -> & -> & -> & ->); [rewrite Hn; apply elem_of_app; right; left|].
  rewrite (i_out _ _ HI f p e Hf Hp He) by lia. pose proof (side_range f p) as Hsd.
  assert (forall q p' e', 0 <= q < n -> (p' < nph)%nat -> 0 <= e' < nr -> memory st (P q p', inn p' (side q p') + e') = val p' q e' ->
    upd (memory st) (P f p, inn p (side f p) + e) (val p f e) (P q p', inn p' (side q p') + e') = val p' q e') as HU.
  { intros q p' e' Hq Hp' He' Hm. destruct (decide ((P q p', inn p' (side q p') + e') = (P f p, inn p (side f p) + e))) as [E|E]; [|by rewrite upd_ne].
    rewrite E, upd_eq. by apply slot_owner in E as (-> & -> & ->). }
  constructor; cbn [prog epoch memory cell net].
  - apply (i_prog _ _ HI).
  - apply (i_else _ _ HI).
  - apply (i_epoch _ _ HI).
  - intros q e' Hq He'. rewrite upd_ne; [by apply (i_src _ _ HI)|]. intros [= _ E]. by apply src_inn in E.
  - intros q p' e' Hq He' Hj'. rewrite upd_ne; [by apply (i_dst _ _ HI)|]. intros [= _ E]. by apply dst_inn in E.
  - intros q p' e' Hq Hp' He' Hj'. rewrite upd_ne; [by apply (i_out _ _ HI)|]. intros [= _ E]. symmetry in E. by apply inn_out in E.
  - intros q p' e' Hq Hp' He' Hj'. destruct (i_put _ _ HI q p' e' Hq Hp' He' Hj') as [Hin|Hm]; [|right; by apply HU].
    destruct (Hsup _ Hin) as [[= -> E1 E2 E3 ->]|Hin']; [|by left]. right. rewrite E2, upd_eq. by apply out_inj in E3 as [_ ->].
  - intros f' t' d' s' ep' Hin. by apply (i_net_put _ _ HI), Hsub.
  - intros f' t' sl v ep' Hin. by apply (i_net_sig _ _ HI), Hsub.
  - intros q p' e' Hq Hp' He' Hc. apply HU; [done|done|done|]. by apply (i_cell _ _ HI).
  - intros q p' Hq Hp' Hj'. destruct (i_sig _ _ HI q p' Hq Hp' Hj') as [Hin|Hc]; [|by right]. left. by destruct (Hsup _ Hin) as [[=]|].
  - apply (i_wait _ _ HI).
Qed.
Lemma inv_deliver_signal j st f t sl v ep l1 l2 : inv j st -> net st = l1 ++ MSignal f t sl v ep :: l2 ->
  (forall d s e', MPut f t d s e' ∈ net st -> (ep <= e')%nat) ->
  inv j (MkSys (prog st) (epoch st) (memory st) (upd (cell st) (t, sl) v) (l1 ++ l2)).
Proof.
  intros HI Hn Hfirst. assert (forall x, x ∈ l1 ++ l2 -> x ∈ net st) as Hsub.
  { intros x. rewrite Hn, !elem_of_app, elem_of_cons. tauto. }
  assert (forall x, x ∈ net st -> x = MSignal f t sl v ep \/ x ∈ l1 ++ l2) as Hsup.
  { intros x. rewrite Hn, !elem_of_app, elem_of_cons. tauto. }
  destruct (i_net_sig _ _ HI f t sl v ep) as (p & Hf & Hp & Hj & -> & -> & -> & ->); [rewrite Hn; apply elem_of_app; right; left|].
  assert (forall l, cell st l >= c -> upd (cell st) (P f p, f) c l >= c) as HU.
  { intros l Hl. destruct (decide (l = (P f p, f))) as [->|Hne]; [rewrite upd_eq; lia|by rewrite upd_ne]. }
  constructor; cbn [prog epoch memory cell net].
  - apply (i_prog _ _ HI).
  - apply (i_else _ _ HI).
  - apply (i_epoch _ _ HI).
  - apply (i_src _ _ HI).
  - apply (i_dst _ _ HI).
  - apply (i_out _ _ HI).
  - intros q p' e' Hq Hp' He' Hj'. destruct (i_put _ _ HI q p' e' Hq Hp' He' Hj') as [Hin|Hm]; [|by right]. left. by destruct (Hsup _ Hin) as [[=]|].
  - intros f' t' d' s' ep' Hin. by apply (i_net_put _ _ HI), Hsub.
  - intros f' t' sl' v' ep' Hin. by apply (i_net_sig _ _ HI), Hsub.
  - intros q p' e' Hq Hp' He' Hc. destruct (decide ((P q p', q) = (P f p, f))) as [[= E ->]|E]; [|rewrite upd_ne in Hc by done; by apply (i_cell _ _ HI)].
    assert (p' = p) as -> by (by apply (pr_once f)). destruct (i_put _ _ HI f p e' Hf Hp He' ltac:(lia)) as [Hin|Hm]; [|done].
    apply Hfirst in Hin. lia.
  - intros q p' Hq Hp' Hj'. destruct (i_sig _ _ HI q p' Hq Hp' Hj') as [Hin|Hc]; [|right; by apply HU].
    destruct (Hsup _ Hin) as [E|]; [|by left]. simplify_eq. right. rewrite upd_eq. lia.
  - intros q p' Hq Hp' Hj'. apply HU. by apply (i_wait _ _ HI).
Qed.
Lemma exchange_inv_step j st st' : inv j st -> step op st st' -> exists j', inv j' st'.
Proof.
  intros HI HS. destruct HS as [q d s k rest st Hp|q pe d s k rest st Hp|q rest st Hp|q pe sl v rest st Hp|q sl v rest st Hp Hc|q x y z k rest st Hp|f t d s e l1 l2 st Hn|f t sl v e l1 l2 st Hn Hfirst].
  - eexists. by apply inv_copy.
  - eexists. by apply inv_putting.
  - eexists. by apply inv_fence.
  - eexists. by apply inv_signal.
  - eexists. by apply (inv_wait j st q sl v).
  - eexists. by apply inv_reduce.
  - eexists. by apply (inv_deliver_put j st f t d s e).
  - eexists. by apply (inv_deliver_signal j st f t sl v e).
Qed.

(** ** Executions *)
(** All PEs at the beginning, the cells of this half of pSync below the counter *)
Definition start (m : mem (V := V)) (cells : loc -> Z) : sys V :=
  MkSys (fun q => if bool_decide (0 <= q < n) then full q else []) (fun _ => 0%nat) m cells [].
Definition finished (st : sys V) : Prop := (forall q, prog st q = []) /\ net st = [].
Lemma inv_start m cells : (forall q e, 0 <= q < n -> 0 <= e < nr -> m (q, src + e) = S0 q e) ->
  (forall q p, 0 <= q < n -> (p < nph)%nat -> cells (P q p, q) < c) -> inv (fun _ => 0%nat) (start m cells).
Proof.
  intros HS HC. constructor; cbn [start prog epoch memory cell net].
  - intros q Hq. rewrite bool_decide_true by done. split; [done|lia].
  - intros q Hq. by rewrite bool_decide_false.
  - done.
  - done.
  - intros. lia.
  - intros. lia.
  - intros. lia.
  - intros f t d s ep Hin. by apply elem_of_nil in Hin.
  - intros f t sl v ep Hin. by apply elem_of_nil in Hin.
  - intros q p e Hq Hp He Hc. specialize (HC q p Hq Hp). lia.
  - intros. lia.
  - intros. lia.
Qed.
Lemma inv_reachable m cells st : (forall q e, 0 <= q < n -> 0 <= e < nr -> m (q, src + e) = S0 q e) ->
  (forall q p, 0 <= q < n -> (p < nph)%nat -> cells (P q p, q) < c) -> rtc (step op) (start m cells) st -> exists j, inv j st.
Proof.
  intros HS HC HR. pose proof (inv_start m cells HS HC) as HI. revert HI. generalize (fun _ : Z => 0%nat).
  induction HR as [st|s1 s2 s3 H12 H23 IH]; intros j HI; [by exists j|]. destruct (exchange_inv_step j s1 s2 HI H12) as [j' HI']. by apply (IH j').
Qed.
(** Whoever has finished has the result. *)
Lemma inv_result j st q e : inv j st -> 0 <= q < n -> 0 <= e < nr -> prog st q = [] -> memory st (q, dst + e) = val nph q e.
Proof.
  intros HI Hq He Hp. apply (i_dst _ _ HI); [done|done|]. destruct (i_prog _ _ HI q Hq) as [E Hl]. rewrite Hp in E.
  apply (f_equal length) in E. rewrite length_drop, full_length in E. cbn in E. lia.
Qed.

(** *** Progress *)
(** Messages in flight can be delivered: puts at any time, signals when no put
    is left. *)
Definition is_put (x : msg) : bool := match x with MPut _ _ _ _ _ => true | MSignal _ _ _ _ _ => false end.
Lemma net_progress j st : inv j st -> net st <> [] -> exists st', step op st st'.
Proof.
  intros HI Hne. destruct (decide (Exists (fun x => is_put x = true) (net st))) as [HE|HE].
  { apply list.Exists_exists in HE as (x & Hx & Hk). destruct x as [f t d s e|]; [|done]. apply list_elem_of_split in Hx as (l1 & l2 & E). eexists. by eapply step_deliver_put. }
  destruct (net st) as [|x l] eqn:E; [done|]. destruct x as [f t d s e|f t sl v e]; [exfalso; apply HE; by left|].
  eexists. eapply (step_deliver_signal op f t sl v e [] l); [by rewrite E|]. intros d s e' Hin. exfalso. apply HE. apply list.Exists_exists.
  exists (MPut f t d s e'). by rewrite <- E.
Qed.
(** The PE that is furthest behind can go on when nothing is in flight. *)
Lemma furthest_behind (j : Z -> nat) : 0 < n -> exists q, 0 <= q < n /\ forall r, 0 <= r < n -> (j q <= j r)%nat.
Proof.
  intros Hn. assert (forall k, 0 <= k -> exists q, 0 <= q < k + 1 /\ forall r, 0 <= r < k + 1 -> (j q <= j r)%nat) as HK.
  { apply natlike_ind; [exists 0; split; [lia|]; intros r Hr; by assert (r = 0) as -> by lia|]. intros k Hk (q & Hq & Hmin).
    destruct (decide (j q <= j (k + 1)%Z)%nat) as [Hle|Hgt]; [exists q|exists (k + 1)]; (split; [lia|]); intros r Hr;
      (destruct (decide (r = k + 1)) as [->|]; [lia|]); specialize (Hmin r ltac:(lia)); lia. }
  destruct (HK (n - 1)) as (q & Hq & Hmin); [lia|]. exists q. split; [lia|]. intros r Hr. apply Hmin. lia.
Qed.
Lemma local_progress st q i rest : prog st q = i :: rest -> (forall sl v, i = RWait sl v -> cell st (q, sl) >= v) -> exists st', step op st st'.
Proof.
  intros Hp Hw. destruct i; eexists.
  - by eapply step_copy.
  - by eapply step_put.
  - by eapply step_fence.
  - by eapply step_signal.
  - eapply step_wait; [exact Hp|by apply Hw].
  - by eapply step_reduce.
Qed.
Lemma exchange_progress j st : inv j st -> ~ finished st -> exists st', step op st st'.
Proof.
  intros HI Hf. destruct (decide (net st = [])) as [En|En]; [|by apply (net_progress j)].
  destruct (decide (0 < n)) as [Hn|Hn]; [|exfalso; apply Hf; split; [intros q; apply (i_else _ _ HI); lia|done]].
  destruct (furthest_behind j Hn) as (q & Hq & Hmin). destruct (prog st q) as [|i rest] eqn:Hp.
  - exfalso. apply Hf. split; [|done]. intros r. destruct (decide (0 <= r < n)) as [Hr|Hr]; [|by apply (i_else _ _ HI)].
    destruct (i_prog _ _ HI q Hq) as [E _]. destruct (i_prog _ _ HI r Hr) as [Er Hl]. specialize (Hmin r Hr). rewrite Er. apply drop_ge. rewrite full_length.
    rewrite Hp in E. apply (f_equal length) in E. rewrite length_drop, full_length in E. cbn in E. lia.
  - apply (local_progress st q i rest Hp). intros sl v ->. destruct (prog_view _ _ _ _ _ HI Hp) as (_ & p & Hpn & Ej & -> & ->).
    pose proof (pr_range q p Hq Hpn) as Hr. destruct (i_sig _ _ HI (P q p) p Hr Hpn) as [Hin|Hc].
    + specialize (Hmin _ Hr). lia.
    + rewrite En in Hin. by apply elem_of_nil in Hin.
    + by rewrite (pr_inv q p Hq Hpn) in Hc.
Qed.

(** *** Termination *)
Definition cost (i : rinstr) : nat := match i with RPut _ _ _ k => S (Z.to_nat k) | RSignal _ _ _ => 2 | _ => 1 end.
Definition todo (pr : Z -> list rinstr) (q : Z) : nat := sum_list_with cost (pr q).
Definition measure (st : sys V) : nat := sum_list_with (todo (prog st)) (seqZ 0 n) + length (net st).
Lemma sum_upd (f : Z -> list rinstr) q x l : NoDup l -> q ∈ l ->
  (sum_list_with (todo (upd f q x)) l + todo f q = sum_list_with (todo f) l + sum_list_with cost x)%nat.
Proof.
  induction 1 as [|a l Ha Hn IH]; intros Hq; [by apply elem_of_nil in Hq|]. cbn [sum_list_with]. apply elem_of_cons in Hq as [->|Hq].
  - assert (sum_list_with (todo (upd f a x)) l = sum_list_with (todo f) l) as ->.
    { clear IH Hn. induction l as [|b l IH]; [done|]. cbn. rewrite IH by (intros Hin; apply Ha; by right). unfold todo at 1. rewrite upd_ne by (intros ->; apply Ha; left). done. }
    unfold todo at 1. rewrite upd_eq. lia.
  - assert (todo (upd f q x) a = todo f a) as -> by (unfold todo; rewrite upd_ne; [done|by intros ->]). specialize (IH Hq). lia.
Qed.
Lemma step_measure j st st' : inv j st -> step op st st' -> (measure st' < measure st)%nat.
Proof.
  intros HI HS. assert (forall q i rest, prog st q = i :: rest ->
    (sum_list_with (todo (upd (prog st) q rest)) (seqZ 0 n) + cost i = sum_list_with (todo (prog st)) (seqZ 0 n))%nat) as HQ.
  { intros q i rest Hp. pose proof (prog_range _ _ _ _ _ HI Hp) as Hq. pose proof (sum_upd (prog st) q rest (seqZ 0 n) (NoDup_seqZ _ _)) as HU.
    unfold todo at 2 in HU. rewrite Hp in HU. cbn [sum_list_with] in HU. specialize (HU ltac:(apply elem_of_seqZ; lia)). lia. }
  unfold measure. destruct HS as [q d s k rest st Hp|q pe d s k rest st Hp|q rest st Hp|q pe sl v rest st Hp|q sl v rest st Hp Hc|q x y z k rest st Hp|f t d s e l1 l2 st Hn|f t sl v e l1 l2 st Hn Hfirst];
    cbn [prog net]; try (specialize (HQ _ _ _ Hp); cbn [cost] in HQ).
  - lia.
  - rewrite length_app, length_fmap, length_seqZ. lia.
  - lia.
  - rewrite length_app. cbn. lia.
  - lia.
  - lia.
  - rewrite Hn, !length_app. cbn. lia.
  - rewrite Hn, !length_app. cbn. lia.
Qed.
Lemma runs_bounded j st k st' : inv j st -> nsteps (step op) k st st' -> (k <= measure st)%nat.
Proof.
  intros HI HN. revert j HI. induction HN as [st|k s1 s2 s3 H12 H23 IH]; intros j HI; [lia|]. destruct (exchange_inv_step j s1 s2 HI H12) as [j' HI'].
  specialize (IH j' HI'). pose proof (step_measure j s1 s2 HI H12). lia.
Qed.
End Protocol.
End CollRecexchSpec.
