(* ===== verification/CollRecexchTeam.v ===== *)
(** * Recursive exchange on a team of [2 ^ log] PEs

    The schedule the host computes pairs the PEs as [CollRecexchSpec] asks, and
    the program of the device follows it: every execution ends, with the
    reduction over the whole team on every PE. *)
From stdpp Require Import base list option relations.
From Stdlib Require Import ZArith Lia.
From S2P Require Import Prelude Recexch IbgdaQp CollMem CollReduce CollReduceSpec CollAllreduce CollRecexch CollRecexchSpec.

Module CollRecexchTeam.
Import Recexch CollMem CollReduce CollReduceSpec CollAllreduce CollRecexch CollRecexchSpec.

Section Schedule.
Context (log : Z) (Hlog : 0 <= log).
Abbreviation n := (2 ^ log).
Abbreviation nph := (Z.to_nat log).
Definition partner (q : Z) (p : nat) : Z := flip 2 q p (1 - digit_of 2 q p).

Lemma phase_bit_range q p : 0 <= digit_of 2 q p < 2.
Proof. unfold digit_of. apply Z.mod_pos_bound. lia. Qed.
Lemma bit_cases q p : digit_of 2 q p = 0 \/ digit_of 2 q p = 1.
Proof. pose proof (phase_bit_range q p). lia. Qed.
Lemma pow_pos p : 0 < 2 ^ Z.of_nat p.
Proof. apply Z.pow_pos_nonneg; lia. Qed.
Lemma num_ok : 2 ^ log <= n < 2 ^ log * 2.
Proof. assert (0 < 2 ^ log) by (apply Z.pow_pos_nonneg; lia). lia. Qed.
#[export] Instance partner_pairing : pairing n nph partner.
Proof.
  constructor.
  - intros q p Hq Hp. pose proof (phase_bit_range q p). apply (flip_range 2 n log ltac:(lia) Hlog num_ok); [done|done|lia].
  - intros q p Hq Hp. pose proof (phase_bit_range q p). unfold partner. rewrite (digit_of_flip 2 log), (flip_flip 2 log) by lia. replace (1 - (1 - digit_of 2 q p)) with (digit_of 2 q p) by lia. apply (flip_self 2 log).
  - intros q p Hq Hp. pose proof (pow_pos p). unfold partner, flip. destruct (bit_cases q p) as [-> | ->]; lia.
  - intros q p p' Hq Hp Hp' E. pose proof (pow_pos p). pose proof (pow_pos p'). unfold partner, flip in E.
    assert (2 ^ Z.of_nat p = 2 ^ Z.of_nat p') as E2 by (destruct (bit_cases q p) as [Eb|Eb], (bit_cases q p') as [Eb'|Eb']; rewrite Eb, Eb' in E; lia). apply Z.pow_inj_r in E2; lia.
Qed.

(** The schedule of the host *)
Lemma world_pe q : 0 <= q < n -> pe_of (seqZ 0 n) q = q.
Proof. intros Hq. unfold pe_of. rewrite lookup_seqZ_lt by lia. cbn. lia. Qed.
Lemma real_pe_world q : real_pe 2 n (2 ^ log) q = if bool_decide (q < 0) then q * 2 + 1 else q.
Proof. unfold real_pe, rem. rewrite Z.sub_diag. change (0 / (2 - 1)) with 0. case_bool_decide; lia. Qed.
Lemma other_bit q p : filter (fun d => d <> digit_of 2 q p) (seqZ 0 2) = [1 - digit_of 2 q p].
Proof. pose proof (phase_bit_range q p). change (seqZ 0 2) with [0; 1]. rewrite !filter_cons, filter_nil. repeat case_decide; try lia; f_equal; lia. Qed.
Lemma schedule_eq q : 0 <= q < n -> nvshmemi_recexchalgo_get_neighbors 2 (seqZ 0 n) q n =
  Ret {| step1_sendto := -1; step1_recvfrom := []; step2_nbrs := (fun p => [partner q p]) <$> seq 0 nph |}.
Proof.
  intros Hq. pose proof num_ok as Hnum. destruct (powers_spec 2 n) as (l & Hl & Ep & Hln); [lia|lia|].
  assert (l = log) as -> by (apply (Z.pow_inj_r 2); [lia|lia|lia|]; destruct (Z.lt_trichotomy l log) as [Hlt|[->|Hgt]]; [|done|];
    [pose proof (Z.pow_le_mono_r 2 (l + 1) log); rewrite Z.pow_add_r, Z.pow_1_r in *; lia|pose proof (Z.pow_le_mono_r 2 (log + 1) l); rewrite Z.pow_add_r, Z.pow_1_r in *; lia]).
  assert (real_pe 2 n (2 ^ log) q = q) as Er by (rewrite real_pe_world, bool_decide_false by lia; done).
  rewrite <- Er at 1. assert (team_k 2 n = 2) as Ek by (unfold team_k; repeat case_bool_decide; lia).
  rewrite (get_neighbors_participant 2 n log) by (done || lia || (rewrite length_seqZ; lia)). rewrite step1_real by (done || lia). cbn [fst snd]. rewrite Er.
  assert (group 2 n log q = q) as -> by (unfold group, sets, rem; rewrite Z.sub_diag; change (0 / (2 - 1)) with 0; case_bool_decide; lia). rewrite Z.sub_diag. do 2 f_equal.
  apply list_fmap_ext. intros i p Hp. apply lookup_seq in Hp as [-> Hp]. unfold nbrs. rewrite other_bit. cbn. f_equal.
  pose proof (pr_range q i Hq Hp) as Hr. unfold partner in *. rewrite real_pe_world, bool_decide_false by lia. by apply world_pe.
Qed.

(** ** The program follows the schedule *)
Lemma concat_imap_seq {A B} (f : nat -> A -> list B) (g : nat -> A) (h : nat -> list B) a m : (forall i, (i < m)%nat -> f i (g (a + i)%nat) = h (a + i)%nat) ->
  concat (imap f (g <$> seq a m)) = seq a m ≫= h.
Proof.
  revert f a. induction m as [|m IH]; intros f a HF; [done|]. cbn [seq fmap list_fmap imap concat]. rewrite bind_cons. f_equal.
  - specialize (HF 0%nat ltac:(lia)). by rewrite Nat.add_0_r in HF.
  - apply IH. intros i Hi. specialize (HF (S i) ltac:(lia)). unfold compose. by replace (S a + i)%nat with (a + S i)%nat by lia.
Qed.
Lemma phase_eq q c w dst nr p : 0 <= q < n -> (p < nph)%nat ->
  exchange_phase 2 q c w dst nr (Z.of_nat nph) (Z.of_nat p) [partner q p] = phase6 (nph := nph) (P := partner) c w dst nr q p.
Proof.
  intros Hq Hp. unfold exchange_phase, phase6, take_in, inn, out, slot. cbn [fmap list_fmap imap concat app num_small].
  assert (side (P := partner) (partner q p) p = if bool_decide (partner q p < q) then 0 else 1) as ->.
  { unfold side. rewrite (pr_inv q p Hq Hp). repeat case_bool_decide; lia. }
  unfold side. repeat (f_equal; try (repeat case_bool_decide; lia)).
Qed.
Lemma program_eq q c w dst src nr : 0 <= q < n ->
  gpu_rdxn_recexch_threadgroup 2 q c w dst src nr {| step1_sendto := -1; step1_recvfrom := []; step2_nbrs := (fun p => [partner q p]) <$> seq 0 nph |} =
  Ret (full (nph := nph) (P := partner) c w dst src nr q, c + 1).
Proof.
  intros Hq. unfold gpu_rdxn_recexch_threadgroup. cbn [step1_sendto step1_recvfrom step2_nbrs]. rewrite !bool_decide_true by done.
  assert (forallb (fun nbrs : list Z => bool_decide (2 - 1 <= Z.of_nat (length nbrs))) ((fun p => [partner q p]) <$> seq 0 nph) = true) as ->.
  { apply forallb_forall. intros l Hl. apply list_elem_of_In, list_elem_of_fmap in Hl as (p & -> & _). done. }
  cbn [andb negb]. rewrite outcome_bind_ret, length_fmap, length_seq. do 2 f_equal. unfold full. cbn [app mbind list_bind]. rewrite app_nil_r. f_equal.
  apply concat_imap_seq. intros i Hi. cbn [take Z.to_nat]. by apply phase_eq.
Qed.

(** ** The result is the reduction over the team *)
(** The PEs whose contribution a PE has after [p] phases *)
Fixpoint sources (p : nat) (q : Z) : list Z := match p with O => [q] | S p => sources p q ++ sources p (partner q p) end.
Lemma sources_sum x p q : 0 <= q < n -> (p <= nph)%nat -> zsum x (sources p q) = held 2 n log x p q.
Proof.
  revert q. induction p as [|p IH]; intros q Hq Hp; cbn [sources held].
  - pose proof num_ok as Hnum. assert (real_pe 2 n (2 ^ log) q = q) as Er by (rewrite real_pe_world, bool_decide_false by lia; done).
    rewrite (step1_real 2 n log ltac:(lia) Hlog Hnum q Hq). cbn [fst snd]. rewrite Er.
    assert (group 2 n log q = q) as -> by (unfold group, sets, rem; rewrite Z.sub_diag; change (0 / (2 - 1)) with 0; case_bool_decide; lia). rewrite Z.sub_diag. change (seqZ 0 0) with (@nil Z). cbn [fmap list_fmap zsum foldr]. lia.
  - rewrite zsum_app, other_bit. cbn [zsum foldr]. rewrite Z.add_0_r. assert (p < nph)%nat as Hp' by lia. pose proof (pr_range q p Hq Hp'). rewrite !IH by (done || lia). done.
Qed.
Lemma zsum_perm_inv (l l' : list Z) : (forall x, zsum x l = zsum x l') -> Permutation l l'.
Proof.
  intros HS. apply (Permutation_count_occ Z.eq_dec). intros a. assert (forall l, zsum (fun b => if Z.eq_dec b a then 1 else 0) l = Z.of_nat (count_occ Z.eq_dec l a)) as HC.
  { clear. induction l as [|b l IH]; [done|]. cbn [zsum foldr count_occ]. unfold zsum in IH. rewrite IH. destruct (Z.eq_dec b a); lia. }
  pose proof (HS (fun b => if Z.eq_dec b a then 1 else 0)) as E. rewrite !HC in E. lia.
Qed.
Lemma sources_all q : 0 <= q < n -> Permutation (sources nph q) (seqZ 0 n).
Proof. intros Hq. apply zsum_perm_inv. intros x. rewrite sources_sum by (done || lia). apply (held_all 2 n log ltac:(lia) Hlog num_ok x q Hq). Qed.

Section Values.
Context {V : Type} (op : V -> V -> V) (Ha : Assoc (=) op) (Hc : Comm (=) op) (S0 : Z -> Z -> V).
Lemma foldl_op x y l : foldl op (op x y) l = op x (foldl op y l).
Proof using Ha. revert y. induction l as [|z l IH]; intros y; cbn; [done|]. by rewrite <- (assoc op), IH. Qed.
Lemma val_sources p q e : exists a l, sources p q = a :: l /\ val (P := partner) op S0 p q e = foldl op (S0 a e) ((fun r => S0 r e) <$> l).
Proof using Ha.
  revert q. induction p as [|p IH]; intros q; [by exists q, []|]. cbn [sources val]. destruct (IH q) as (a & l & -> & ->). destruct (IH (partner q p)) as (a' & l' & -> & ->).
  exists a, (l ++ a' :: l'). split; [done|]. rewrite fmap_app, fmap_cons, foldl_app. cbn [foldl]. by rewrite foldl_op.
Qed.
Lemma val_all q e : 0 <= q < n -> val (P := partner) op S0 nph q e = foldl op (S0 0 e) ((fun r => S0 r e) <$> seqZ 1 (n - 1)).
Proof using Ha Hc Hlog.
  intros Hq. destruct (val_sources nph q e) as (a & l & E & ->). apply foldl_perm_cons; [done|done|]. pose proof (sources_all q Hq) as HPm. rewrite E in HPm.
  rewrite (seqZ_cons 0 n) in HPm by lia. apply (fmap_Permutation (fun r => S0 r e)) in HPm. by rewrite !fmap_cons in HPm.
Qed.
End Values.
End Schedule.

(** All PEs of a team of [n] begin their programs. *)
Definition begin {V} (n : Z) (progs : Z -> list rinstr) (m : mem (V := V)) (cells : loc -> Z) : sys V :=
  MkSys (fun q => if bool_decide (0 <= q < n) then progs q else []) (fun _ => 0%nat) m cells [].

(** C13: recursive exchange on TEAM_WORLD with [2 ^ log] PEs at an integer type,
    the case [nvshmemi_gpu_rdxn_threadgroup] selects it for.  The work space, the
    destination and the source do not overlap, and the cells of the half of pSync
    in use are below the sync counter.  Then the host's schedule exists and the
    device program follows it; from the beginning of the call, with puts
    delivered element by element and signals in flight, every execution has
    boundedly many steps, none is stuck before all PEs have finished and all
    messages have arrived, and a PE that has finished holds in its destination
    the reduction of the sources of the whole team. *)
Theorem recexch_device_allreduce w signed o (log c pWrk dst src nr : Z) (m : mem (V := Z)) (cells : loc -> Z) :
  0 <= log -> 0 <= nr -> apart dst nr pWrk ((1 + 3 * log) * nr) -> apart src nr pWrk ((1 + 3 * log) * nr) -> apart dst nr src nr ->
  (forall q r, cells (q, r) < c) ->
  exists progs : Z -> list rinstr,
    (forall q, 0 <= q < 2 ^ log -> exists r, nvshmemi_recexchalgo_get_neighbors 2 (seqZ 0 (2 ^ log)) q (2 ^ log) = Ret r /\
       gpu_rdxn_recexch_threadgroup 2 q c pWrk dst src nr r = Ret (progs q, c + 1)) /\
    let begins := begin (2 ^ log) progs m cells in
    let steps := step (perform_gpu_rdxn w signed o) in
    (exists N, forall k st, nsteps steps k begins st -> (k <= N)%nat) /\
    (forall st, rtc steps begins st -> ~ ((forall q, prog st q = []) /\ net st = []) -> exists st', steps st st') /\
    forall st q e, rtc steps begins st -> 0 <= q < 2 ^ log -> 0 <= e < nr -> prog st q = [] ->
      memory st (q, dst + e) = team_reduction (perform_gpu_rdxn w signed o) (2 ^ log) src e m.
Proof.
  intros Hlog Hnr Hdw Hsw Hds Hcells. assert (Z.of_nat (Z.to_nat log) = log) as El by lia. rewrite <- El in Hdw, Hsw.
  set (op := perform_gpu_rdxn w signed o). set (S0 := fun q e => m (q, src + e)).
  pose proof (partner_pairing log Hlog) as HP. exists (full (nph := Z.to_nat log) (P := partner) c pWrk dst src nr).
  assert (forall q e, 0 <= q < 2 ^ log -> 0 <= e < nr -> m (q, src + e) = S0 q e) as HS by done.
  assert (forall q p, 0 <= q < 2 ^ log -> (p < Z.to_nat log)%nat -> cells (partner q p, q) < c) as HC by (intros; apply Hcells).
  pose proof (fun st => inv_reachable op c pWrk dst src nr Hnr Hdw Hsw Hds S0 m cells st HS HC) as HR.
  split; [|cbn zeta; split_and!].
  - intros q Hq. eexists. split; [by apply schedule_eq|]. by apply program_eq.
  - exists (measure (n := 2 ^ log) (begin (2 ^ log) (full (nph := Z.to_nat log) (P := partner) c pWrk dst src nr) m cells)). intros k st HN.
    by apply (runs_bounded op c pWrk dst src nr Hnr Hdw Hsw Hds S0 (fun _ => 0%nat) _ k st (inv_start op c pWrk dst src nr S0 m cells HS HC)).
  - intros st Hst Hf. destruct (HR st Hst) as [j HI]. by apply (exchange_progress op c pWrk dst src nr S0 j).
  - intros st q e Hst Hq He Hp. destruct (HR st Hst) as [j HI]. rewrite (inv_result op c pWrk dst src nr S0 j st q e HI Hq He Hp).
    apply (val_all log Hlog op (rdxn_assoc w signed o) (rdxn_comm w signed o) S0 q e Hq).
Qed.
(** Four PEs, three elements *)
Lemma recexch_device_allreduce_witness : exists progs : Z -> list rinstr,
  (forall q, 0 <= q < 4 -> exists r, nvshmemi_recexchalgo_get_neighbors 2 (seqZ 0 4) q 4 = Ret r /\
     gpu_rdxn_recexch_threadgroup 2 q 5 1000 100 200 3 r = Ret (progs q, 6)) /\
  forall st q, rtc (step (perform_gpu_rdxn 32 true RDXN_OPS_SUM)) (begin 4 progs (fun l => l.1) (fun _ => 4)) st -> 0 <= q < 4 -> prog st q = [] -> memory st (q, 102) = 6.
Proof.
  destruct (recexch_device_allreduce 32 true RDXN_OPS_SUM 2 5 1000 100 200 3 (fun l => l.1) (fun _ => 4)) as (progs & HP & _ & _ & HR);
    [lia|lia|left; lia|left; lia|left; lia|intros; lia|].
  exists progs. split; [exact HP|]. intros st q Hst Hq Hp. exact (HR st q 2 Hst Hq ltac:(lia) Hp).
Defined.
End CollRecexchTeam.
