(* ===== verification/Libfabric.v ===== *)
(** * The libfabric transport: state and handlers

    src/src/modules/transport/libfabric/libfabric.h and libfabric.cpp: sequence
    numbers of put-with-signal, the queue of operation contexts, the handlers of
    completions (a put-with-signal is matched with its writes by sequence
    number), staged atomics, and the functions that post operations.

    Calls of libfabric itself ([fi_write], [fi_send], ...) are results given to
    the handler (the status its retry loop ends with) and, when they succeed,
    [post] values it returns.  A pointer to an operation context is a [Z] and
    the contexts are a store, because receive buffers are converted in place
    and posted again.  The members of the union in a context are separate
    fields: every member is read after it was written under the same type. *)
From stdpp Require Import base gmap list.
From S2P Require Import Prelude ProxyChannel.
Open Scope Z_scope.

(** ** Constants *)
Definition NVSHMEM_STAGED_AMO_PUT_SIGNAL_SEQ_CNTR_BIT_SHIFT : Z := 28.
Definition NVSHMEM_STAGED_AMO_PUT_SIGNAL_SEQ_CNTR_BIT_MASK : Z :=
  Z.shiftl 1 NVSHMEM_STAGED_AMO_PUT_SIGNAL_SEQ_CNTR_BIT_SHIFT - 1.
Definition NVSHMEM_STAGED_AMO_SEQ_NUM : Z := NVSHMEM_STAGED_AMO_PUT_SIGNAL_SEQ_CNTR_BIT_MASK.
Definition NVSHMEMT_LIBFABRIC_DEFAULT_NUM_EPS : Z := 2.
Definition NVSHMEMT_LIBFABRIC_PROXY_EP_IDX : Z := 1.
Definition NVSHMEMT_LIBFABRIC_HOST_EP_IDX : Z := 0.
Definition NVSHMEMT_LIBFABRIC_MAX_RETRIES : Z := Z.shiftl 1 20.
Definition NVSHMEMT_LIBFABRIC_IMM_PUT_SIGNAL_SEQ : Z := 0.
Definition NVSHMEMT_LIBFABRIC_IMM_STAGED_ATOMIC_ACK : Z := 1.

(** The codes of [nvshmemi_amo_t] the handlers distinguish. *)
Definition NVSHMEMI_AMO_INC : Z := 2.
Definition NVSHMEMI_AMO_SET : Z := 3.
Definition NVSHMEMI_AMO_ADD : Z := 4.
Definition NVSHMEMI_AMO_AND : Z := 5.
Definition NVSHMEMI_AMO_OR : Z := 6.
Definition NVSHMEMI_AMO_XOR : Z := 7.
Definition NVSHMEMI_AMO_SIGNAL : Z := 8.
Definition NVSHMEMI_AMO_SIGNAL_SET : Z := 9.
Definition NVSHMEMI_AMO_SIGNAL_ADD : Z := 10.
Definition NVSHMEMI_AMO_FETCH : Z := 12.
Definition NVSHMEMI_AMO_FETCH_INC : Z := 13.
Definition NVSHMEMI_AMO_FETCH_ADD : Z := 14.
Definition NVSHMEMI_AMO_FETCH_AND : Z := 15.
Definition NVSHMEMI_AMO_FETCH_OR : Z := 16.
Definition NVSHMEMI_AMO_FETCH_XOR : Z := 17.
Definition NVSHMEMI_AMO_SWAP : Z := 18.

(** [-EAGAIN], which libfabric also returns as [-FI_EAGAIN]. *)
Definition EAGAIN_NEG : Z := -11.

(** ** Sequence numbers of put-with-signal *)
Definition num_index_bits : Z := NVSHMEM_STAGED_AMO_PUT_SIGNAL_SEQ_CNTR_BIT_SHIFT - 1.
Definition index_mask : Z := Z.shiftl 1 num_index_bits - 1.
Definition category_mask : Z := Z.shiftl 1 num_index_bits.
Definition sequence_mask : Z := NVSHMEM_STAGED_AMO_PUT_SIGNAL_SEQ_CNTR_BIT_MASK.

Definition get_category (seq_num : Z) : Z := Z.shiftr (Z.land seq_num category_mask) num_index_bits.
Definition get_index (seq_num : Z) : Z := Z.land seq_num index_mask.

(** [pending_acks] has one entry per category; there are two categories. *)
Record seq_counter := MkSeq { sequence_counter : Z; pending_acks : list Z }.

Definition reset : seq_counter := MkSeq 0 [0; 0].

Definition next_seq_num (c : seq_counter) : outcome (Z * seq_counter) :=
  let c := if bool_decide (sequence_counter c = NVSHMEM_STAGED_AMO_SEQ_NUM)
           then MkSeq (Z.land (u32 (sequence_counter c + 1)) sequence_mask) (pending_acks c) else c in
  let seq_num := sequence_counter c in
  let category := get_category seq_num in
  pending ← arr_get (pending_acks c) category;
  if bool_decide (get_index seq_num = 0) && negb (bool_decide (pending = 0)) then Ret (-1, c)
  else
    _ ← cassert (bool_decide (pending <= index_mask));
    Ret (seq_num,
         MkSeq (Z.land (u32 (sequence_counter c + 1)) sequence_mask)
               (<[Z.to_nat category := u32 (pending + 1)]> (pending_acks c))).

Definition return_acked_seq_num (c : seq_counter) (seq_num : Z) : outcome seq_counter :=
  _ ← cassert (negb (bool_decide (seq_num = NVSHMEM_STAGED_AMO_SEQ_NUM)));
  let category := get_category seq_num in
  pending ← arr_get (pending_acks c) category;
  _ ← cassert (bool_decide (0 < pending));
  Ret (MkSeq (sequence_counter c) (<[Z.to_nat category := pending - 1]> (pending_acks c))).

(** ** Operation contexts

    An address of libfabric is an [option]: [None] is FI_ADDR_NOTAVAIL.  The
    pointer [ep] of a context is an [option]: a received message overwrites it
    with bytes of the sender, [None], until the handler of the completion sets
    it. *)
Inductive recv_t := NVSHMEMT_LIBFABRIC_SEND | NVSHMEMT_LIBFABRIC_ACK | NVSHMEMT_LIBFABRIC_MATCH.

#[export] Instance recv_t_eq_dec : EqDecision recv_t.
Proof. solve_decision. Defined.

(** [retflag] shares its first four bytes with [sequence_count]. *)
Record send_amo_op := MkAmo {
  am_op : Z; am_target_addr : Z; am_ret_addr : Z; am_retflag : Z;
  am_swap_add : Z; am_comp : Z; am_size : Z; am_src_pe : Z }.
Definition am_sequence_count (a : send_amo_op) : Z := u32 (am_retflag a).

Record ret_amo_op := MkRet { ra_ret_addr : Z; ra_data : Z; ra_flag : Z }.

Record signal_op := MkSig {
  si_op : Z; si_num_writes : Z; si_sig_val : Z; si_target_addr : Z;
  si_sequence_count : Z; si_src_pe : Z }.

Record gdr_op_ctx := MkCtx {
  c_type : recv_t; c_ep : option bool; c_send_amo : send_amo_op; c_ret_amo : ret_amo_op;
  c_signal : signal_op; c_src_addr : option Z }.

#[export] Instance send_amo_op_eq_dec : EqDecision send_amo_op.
Proof. solve_decision. Defined.
#[export] Instance ret_amo_op_eq_dec : EqDecision ret_amo_op.
Proof. solve_decision. Defined.
#[export] Instance signal_op_eq_dec : EqDecision signal_op.
Proof. solve_decision. Defined.

(** What [fi_send] carries: the bytes of one of the union's members. *)
Inductive wire := WAmo (a : send_amo_op) | WSig (s : signal_op) | WRet (r : ret_amo_op).

#[export] Instance wire_eq_dec : EqDecision wire.
Proof. solve_decision. Defined.

(** ** Endpoints and the state of a process

    The index of an endpoint is the boolean [is_proxy]; [cntr] is the value of
    libfabric's completion counter, bound to the reads, writes and sends of the
    endpoint. *)
Record endpoint := MkEp {
  submitted_ops : Z; cntr : Z; completed_staged_atomics : Z;
  put_signal_seq_counter : seq_counter;
  proxy_put_signal_comp_map : gmap Z (option Z * Z) }.

Record op_queue := MkQueue { q_send : list Z; q_ack_recv : list Z; q_other_recv : list Z }.

Record proc := MkProc {
  my_pe : Z; ep_host : endpoint; ep_proxy : endpoint; queue : op_queue;
  ctxs : gmap Z gdr_op_ctx; mem : gmap Z Z }.

Definition ep (is_proxy : bool) (pr : proc) : endpoint := if is_proxy then ep_proxy pr else ep_host pr.
Definition set_ep (is_proxy : bool) (e : endpoint) (pr : proc) : proc :=
  if is_proxy then MkProc (my_pe pr) (ep_host pr) e (queue pr) (ctxs pr) (mem pr)
  else MkProc (my_pe pr) e (ep_proxy pr) (queue pr) (ctxs pr) (mem pr).
Definition set_queue (q : op_queue) (pr : proc) : proc :=
  MkProc (my_pe pr) (ep_host pr) (ep_proxy pr) q (ctxs pr) (mem pr).
Definition set_ctx (p : Z) (c : gdr_op_ctx) (pr : proc) : proc :=
  MkProc (my_pe pr) (ep_host pr) (ep_proxy pr) (queue pr) (<[p := c]> (ctxs pr)) (mem pr).
Definition set_mem (a v : Z) (pr : proc) : proc :=
  MkProc (my_pe pr) (ep_host pr) (ep_proxy pr) (queue pr) (ctxs pr) (<[a := v]> (mem pr)).

Definition add_submitted (n : Z) (e : endpoint) : endpoint :=
  MkEp (u64 (submitted_ops e + n)) (cntr e) (completed_staged_atomics e)
       (put_signal_seq_counter e) (proxy_put_signal_comp_map e).
Definition set_comp_map (m : gmap Z (option Z * Z)) (e : endpoint) : endpoint :=
  MkEp (submitted_ops e) (cntr e) (completed_staged_atomics e) (put_signal_seq_counter e) m.
Definition set_seq (c : seq_counter) (e : endpoint) : endpoint :=
  MkEp (submitted_ops e) (cntr e) (completed_staged_atomics e) c (proxy_put_signal_comp_map e).

(** [target_ep]: the address of endpoint [ep_idx] of a PE. *)
Definition ep_idx (is_proxy : bool) : Z :=
  if is_proxy then NVSHMEMT_LIBFABRIC_PROXY_EP_IDX else NVSHMEMT_LIBFABRIC_HOST_EP_IDX.
Definition target_ep (pe : Z) (is_proxy : bool) : Z :=
  pe * NVSHMEMT_LIBFABRIC_DEFAULT_NUM_EPS + ep_idx is_proxy.

(** ** The queue of contexts ([threadSafeOpQueue])

    [q_send] keeps the free contexts with the end of the vector first. *)
Fixpoint take_sends (n : nat) (l : list Z) : option (list Z * list Z) :=
  match n, l with
  | O, _ => Some ([], l)
  | S n, x :: l => '(xs, rest) ← take_sends n l; Some (x :: xs, rest)
  | S _, [] => None
  end.

Definition getNextSends (num_elems : nat) (q : op_queue) : Z * list Z * op_queue :=
  match take_sends num_elems (q_send q) with
  | Some (elems, rest) => (0, elems, MkQueue rest (q_ack_recv q) (q_other_recv q))
  | None => (EAGAIN_NEG, [], q)
  end.

Definition putToSend (elem : Z) (q : op_queue) : op_queue :=
  MkQueue (elem :: q_send q) (q_ack_recv q) (q_other_recv q).

Fixpoint putToSendBulk (elem elem_size : Z) (num_elems : nat) (q : op_queue) : op_queue :=
  match num_elems with
  | O => q
  | S n => putToSendBulk (elem + elem_size) elem_size n (putToSend elem q)
  end.

Inductive recv_type := RECV_TYPE_ACK | RECV_TYPE_NOT_ACK.

Definition putToRecv (elem : Z) (t : recv_type) (q : op_queue) : op_queue :=
  match t with
  | RECV_TYPE_ACK => MkQueue (q_send q) (q_ack_recv q ++ [elem]) (q_other_recv q)
  | RECV_TYPE_NOT_ACK => MkQueue (q_send q) (q_ack_recv q) (q_other_recv q ++ [elem])
  end.

Definition getNextRecv (t : recv_type) (q : op_queue) : option Z * op_queue :=
  match t with
  | RECV_TYPE_ACK =>
      match q_ack_recv q with
      | [] => (None, q)
      | x :: l => (Some x, MkQueue (q_send q) l (q_other_recv q))
      end
  | RECV_TYPE_NOT_ACK =>
      match q_other_recv q with
      | [] => (None, q)
      | x :: l => (Some x, MkQueue (q_send q) (q_ack_recv q) l)
      end
  end.

Definition getNextAmoOps (t : recv_type) (pr : proc) : outcome (Z * list Z * option Z * proc) :=
  let q := queue pr in
  match t with
  | RECV_TYPE_NOT_ACK =>
      match q_other_recv q with
      | [] => Ret (0, [], None, pr)
      | x :: l =>
          match ctxs pr !! x with
          | None => Fail FUndef
          | Some c =>
              let num_sends := if bool_decide (Channel.NVSHMEMI_AMO_END_OF_NONFETCH < am_op (c_send_amo c))
                               then 2%nat else 1%nat in
              match getNextSends num_sends q with
              | (0, elems, q') =>
                  Ret (0, elems, Some x, set_queue (MkQueue (q_send q') (q_ack_recv q') l) pr)
              | _ => Ret (EAGAIN_NEG, [], None, pr)
              end
          end
      end
  | RECV_TYPE_ACK =>
      match q_ack_recv q with
      | [] => Ret (0, [], None, pr)
      | x :: l => Ret (0, [], Some x, set_queue (MkQueue (q_send q) l (q_other_recv q)) pr)
      end
  end.

(** ** Completions *)

(** An entry of a completion queue: the flags the handlers test, the immediate
    data and the context, which is a null pointer when the operation had none. *)
Record cq_entry := MkEntry {
  e_remote_cq_data : bool; e_send : bool; e_rma : bool; e_recv : bool;
  e_data : Z; e_context : option Z }.

Definition nvshmemt_get_write_with_imm_hdr (imm_data : Z) : Z :=
  Z.shiftr (u32 imm_data) NVSHMEM_STAGED_AMO_PUT_SIGNAL_SEQ_CNTR_BIT_SHIFT.

Definition put_signal_ack_completion (e : endpoint) (en : cq_entry) : outcome endpoint :=
  let seq_num := u32 (Z.land (e_data en) NVSHMEM_STAGED_AMO_PUT_SIGNAL_SEQ_CNTR_BIT_MASK) in
  c ← (if negb (bool_decide (seq_num = NVSHMEM_STAGED_AMO_SEQ_NUM))
       then return_acked_seq_num (put_signal_seq_counter e) seq_num
       else Ret (put_signal_seq_counter e));
  Ret (MkEp (submitted_ops e) (cntr e) (u64 (completed_staged_atomics e + 1)) c
            (proxy_put_signal_comp_map e)).

(** The signal received in place becomes an atomic on a 64-bit word; the fields
    it does not set keep what the buffer held. *)
Definition inplace_copy_sig_op_to_gdr_op (is_proxy : bool) (c : gdr_op_ctx) : gdr_op_ctx :=
  let s := c_signal c in
  let a := c_send_amo c in
  MkCtx NVSHMEMT_LIBFABRIC_MATCH (Some is_proxy)
    (MkAmo (si_op s) (si_target_addr s) (am_ret_addr a)
           (am_retflag a - am_retflag a mod 2 ^ 32 + si_sequence_count s)
           (si_sig_val s) (am_comp a) 8 (si_src_pe s))
    (c_ret_amo c) s (c_src_addr c).

Definition comp_map_key (addr seq : Z) : Z := Z.lor (u64 (Z.shiftl addr 32)) (u32 seq).

Definition put_signal_completion (is_proxy : bool) (en : cq_entry) (addr : option Z) (pr : proc)
  : outcome (Z * proc) :=
  match addr with
  | None => Ret (NVSHMEMX_ERROR_INVALID_VALUE, pr)
  | Some addr =>
      let is_write_comp := e_remote_cq_data en in
      '(map_key, progress_count, op, pr) ←
        (if is_write_comp then Ret (comp_map_key addr (e_data en), -1, None, pr)
         else
           match e_context en with
           | None => Fail FUndef
           | Some x =>
               match ctxs pr !! x with
               | None => Fail FUndef
               | Some c =>
                   Ret (comp_map_key addr (si_sequence_count (c_signal c)),
                        si_num_writes (c_signal c), Some x,
                        set_ctx x (inplace_copy_sig_op_to_gdr_op is_proxy c) pr)
               end
           end);
      let m := proxy_put_signal_comp_map (ep is_proxy pr) in
      let second := match m !! map_key with
                    | Some (first, n) => (if is_write_comp then first else op, s32 (n + progress_count))
                    | None => (op, progress_count)
                    end in
      if bool_decide (second.2 = 0) then
        let op := if is_write_comp then second.1 else op in
        match op with
        | None => Fail FUndef
        | Some op =>
            Ret (0, set_queue (putToRecv op RECV_TYPE_NOT_ACK (queue pr))
                      (set_ep is_proxy (set_comp_map (delete map_key m) (ep is_proxy pr)) pr))
        end
      else Ret (0, set_ep is_proxy (set_comp_map (<[map_key := second]> m) (ep is_proxy pr)) pr)
  end.

Definition gdr_process_completion (is_proxy : bool) (en : cq_entry) (addr : option Z) (pr : proc)
  : outcome (Z * proc) :=
  if e_remote_cq_data en then
    let imm_header := nvshmemt_get_write_with_imm_hdr (e_data en) in
    if bool_decide (imm_header = NVSHMEMT_LIBFABRIC_IMM_PUT_SIGNAL_SEQ) then
      put_signal_completion is_proxy en addr pr
    else if bool_decide (imm_header = NVSHMEMT_LIBFABRIC_IMM_STAGED_ATOMIC_ACK) then
      e ← put_signal_ack_completion (ep is_proxy pr) en; Ret (0, set_ep is_proxy e pr)
    else Ret (NVSHMEMX_ERROR_INVALID_VALUE, pr)
  else
    (* [container_of] of a null context is the address below it by the offset of
       [ofi_context], which [assert(op)] lets pass and [op->src_addr] writes to *)
    match e_context en with
    | None => Fail FUndef
    | Some x =>
        match ctxs pr !! x with
        | None => Fail FUndef
        | Some c =>
            let c := MkCtx (c_type c) (c_ep c) (c_send_amo c) (c_ret_amo c) (c_signal c) addr in
            let pr := set_ctx x c pr in
            if e_send en then Ret (0, set_queue (putToSend x (queue pr)) pr)
            else if e_rma en then Ret (0, set_queue (putToSend x (queue pr)) pr)
            else if bool_decide (c_type c = NVSHMEMT_LIBFABRIC_MATCH) then
              put_signal_completion is_proxy en addr pr
            else if e_recv en then
              let pr := set_ctx x
                          (MkCtx (c_type c) (Some is_proxy) (c_send_amo c) (c_ret_amo c) (c_signal c) (c_src_addr c)) pr in
              let t := if bool_decide (c_type c = NVSHMEMT_LIBFABRIC_ACK) then RECV_TYPE_ACK else RECV_TYPE_NOT_ACK in
              Ret (0, set_queue (putToRecv x t (queue pr)) pr)
            else Ret (NVSHMEMX_ERROR_INVALID_VALUE, pr)
        end
    end.

(** One batch read from the completion queue of an endpoint. *)
Fixpoint process_entries (is_proxy : bool) (l : list (cq_entry * option Z)) (pr : proc) : outcome (Z * proc) :=
  match l with
  | [] => Ret (0, pr)
  | (en, addr) :: l =>
      '(status, pr) ← gdr_process_completion is_proxy en addr pr;
      if bool_decide (status = 0) then process_entries is_proxy l pr
      else Ret (NVSHMEMX_ERROR_INTERNAL, pr)
  end.

(** [try_again]: [progress] is the status of the call of the progress function. *)
Definition try_again (status num_retries : Z) (progress : Z) : bool * Z * Z :=
  if bool_decide (status = 0) then (false, 0, num_retries)
  else if bool_decide (status = EAGAIN_NEG) then
    if bool_decide (NVSHMEMT_LIBFABRIC_MAX_RETRIES <= num_retries)
    then (false, NVSHMEMX_ERROR_INTERNAL, num_retries)
    else if negb (bool_decide (progress = 0)) then (false, NVSHMEMX_ERROR_INTERNAL, u64 (num_retries + 1))
    else (true, 0, u64 (num_retries + 1))
  else (false, NVSHMEMX_ERROR_INTERNAL, num_retries).
