(* ===== verification/LibfabricOps.v ===== *)
(** * The libfabric transport: posting operations and staged atomics

    src/src/modules/transport/libfabric/libfabric.cpp: the functions that post
    RMA, atomics and put-with-signal, the atomics applied by the host of the
    target ([perform_gdrcopy_amo]), their acknowledgements, quiet and the
    consistency read.  A [do ... while (try_again(...))] loop around a call of
    libfabric appears as the status it ends with. *)
From stdpp Require Import base gmap list.
From S2P Require Import Prelude ProxyChannel Rma Libfabric.
Open Scope Z_scope.

(** The operations of libfabric's atomics ([enum fi_op]). *)
Inductive fi_op := FI_ATOMIC_WRITE | FI_SUM | FI_BAND | FI_BOR | FI_BXOR | FI_ATOMIC_READ | FI_CSWAP.

#[export] Instance fi_op_eq_dec : EqDecision fi_op.
Proof. solve_decision. Defined.

(** Calls of libfabric that succeed.  [PAtomic] has the width of its datatype,
    the operand and the comparand as words of that width, and the address the
    old value is returned to. *)
Inductive post :=
| PWrite (dest : option Z) (imm : option Z) (addr key len : Z) (ctx : option Z)
| PRead (dest : option Z) (addr key len : Z) (ctx : option Z)
| PSend (dest : option Z) (w : wire) (ctx : Z)
| PAtomic (dest : Z) (op : fi_op) (width addr key : Z) (val cmp ret : option Z)
| PRecv (ctx : Z).

(** ** Atomics applied by the target's host *)

Abbreviation NVSHMEMI_AMO_COMPARE_SWAP := Channel.NVSHMEMI_AMO_COMPARE_SWAP.

(** The switch of [perform_gdrcopy_amo], for a word of [w] bits. *)
Definition amo_new_value (w op old swap_add comp : Z) : option Z :=
  let v := wrap w swap_add in
  if bool_decide (op ∈ [NVSHMEMI_AMO_SIGNAL; NVSHMEMI_AMO_SIGNAL_SET; NVSHMEMI_AMO_SET; NVSHMEMI_AMO_SWAP])
  then Some v
  else if bool_decide (op ∈ [NVSHMEMI_AMO_ADD; NVSHMEMI_AMO_SIGNAL_ADD; NVSHMEMI_AMO_FETCH_ADD])
  then Some (wrap w (old + v))
  else if bool_decide (op ∈ [NVSHMEMI_AMO_OR; NVSHMEMI_AMO_FETCH_OR]) then Some (Z.lor old v)
  else if bool_decide (op ∈ [NVSHMEMI_AMO_AND; NVSHMEMI_AMO_FETCH_AND]) then Some (Z.land old v)
  else if bool_decide (op ∈ [NVSHMEMI_AMO_XOR; NVSHMEMI_AMO_FETCH_XOR]) then Some (Z.lxor old v)
  else if bool_decide (op = NVSHMEMI_AMO_COMPARE_SWAP)
  then Some (if bool_decide (old = wrap w comp) then v else old)
  else if bool_decide (op = NVSHMEMI_AMO_FETCH) then Some old
  else None.

(** What [perform_gdrcopy_amo] keeps in registers once the buffer is posted
    again: endpoint, address and PE of the requester, the value to return of a
    fetching atomic, the sequence number to acknowledge and the contexts to
    answer with; [rp_op] is the pointer [op]. *)
Record amo_reply := MkReply {
  rp_op : Z; rp_ep : bool; rp_src_addr : option Z; rp_src_pe : Z;
  rp_fetch : option ret_amo_op; rp_seq : Z; rp_elems : list Z }.

(** A word of [w] bits at an address of the host. *)
Definition load (w a : Z) (pr : proc) : outcome Z :=
  match mem pr !! a with Some v => Ret (wrap w v) | None => Fail FUndef end.

Section staged.
(** [nvshmemt_mem_handle_cache_get] followed by the fields [cpu_ptr] and [ptr]
    of the handle information; the address through which the host reaches the
    target of an atomic. *)
Context (handle_info : Z -> option (Z * Z)) (use_gdrcopy : bool).

Definition amo_ptr (hi : Z * Z) (target_addr : Z) : Z :=
  if use_gdrcopy then hi.1 + (target_addr - hi.2) else target_addr.

(** [perform_gdrcopy_amo] up to the posting of the buffer as a receive; [fi_recv]
    is the status of that call. *)
Definition amo_apply (w fi_recv : Z) (x : Z) (elems : list Z) (sequence_count : Z) (pr : proc)
  : outcome (Z * option amo_reply * proc * list post) :=
  match ctxs pr !! x with
  | None => Fail FUndef
  | Some c =>
      match c_ep c with
      | None => Fail FUndef
      | Some is_proxy =>
          let a := c_send_amo c in
          let is_fetch_amo := bool_decide (Channel.NVSHMEMI_AMO_END_OF_NONFETCH < am_op a) in
          match handle_info (am_target_addr a) with
          | None => Ret (NVSHMEMX_ERROR_INTERNAL, None, pr, [])
          | Some hi =>
              let ptr := amo_ptr hi (am_target_addr a) in
              old_value ← load w ptr pr;
              match amo_new_value w (am_op a) old_value (am_swap_add a) (am_comp a) with
              | None => Ret (NVSHMEMX_ERROR_INTERNAL, None, pr, [])
              | Some new_value =>
                  let pr := set_mem ptr new_value pr in
                  if negb (bool_decide (fi_recv = 0)) then Ret (NVSHMEMX_ERROR_INTERNAL, None, pr, [])
                  else
                    Ret (0,
                         Some (MkReply x is_proxy (c_src_addr c) (am_src_pe a)
                           (if is_fetch_amo then Some (MkRet (am_ret_addr a) old_value (am_retflag a)) else None)
                           sequence_count elems),
                         pr, [PRecv x])
              end
          end
      end
  end.

(** The answer of a fetching atomic; [op->ep] is read again, from a buffer that
    is posted as a receive. *)
Definition amo_respond (fi_send : Z) (r : amo_reply) (pr : proc)
  : outcome (Z * amo_reply * proc * list post) :=
  match rp_fetch r with
  | None => Ret (0, r, pr, [])
  | Some ret =>
      match rp_elems r with
      | [] => Fail FUndef
      | resp :: elems =>
          c ← (match ctxs pr !! resp with Some c => Ret c | None => Fail FUndef end);
          let pr := set_ctx resp (MkCtx NVSHMEMT_LIBFABRIC_ACK (c_ep c) (c_send_amo c) ret
                                        (c_signal c) (c_src_addr c)) pr in
          if negb (bool_decide (fi_send = 0)) then Ret (NVSHMEMX_ERROR_INTERNAL, r, pr, [])
          else
            match ctxs pr !! rp_op r ≫= c_ep with
            | None => Fail FUndef
            | Some b =>
                Ret (0, MkReply (rp_op r) (rp_ep r) (rp_src_addr r) (rp_src_pe r) None (rp_seq r) elems,
                     set_ep b (add_submitted 1 (ep b pr)) pr, [PSend (rp_src_addr r) (WRet ret) resp])
            end
      end
  end.

(** [gdrcopy_amo_ack]; [ack_addr] and [ack_key] are the arrays
    [remote_addr_staged_amo_ack] and [rkey_staged_amo_ack]. *)
Definition gdrcopy_amo_ack (ack_addr ack_key : Z -> Z) (fi_writedata : Z) (r : amo_reply) (pr : proc)
  : outcome (Z * proc * list post) :=
  match rp_elems r with
  | [] => Fail FUndef
  | resp :: _ =>
      let imm_data := Z.lor (Z.shiftl NVSHMEMT_LIBFABRIC_IMM_STAGED_ATOMIC_ACK
                                      NVSHMEM_STAGED_AMO_PUT_SIGNAL_SEQ_CNTR_BIT_SHIFT) (rp_seq r) in
      if negb (bool_decide (fi_writedata = 0)) then Ret (NVSHMEMX_ERROR_INTERNAL, pr, [])
      else Ret (0, set_ep (rp_ep r) (add_submitted 1 (ep (rp_ep r) pr)) pr,
                [PWrite (rp_src_addr r) (Some imm_data) (ack_addr (rp_src_pe r)) (ack_key (rp_src_pe r)) 0
                        (Some resp)])
  end.

Definition perform_gdrcopy_amo (ack_addr ack_key : Z -> Z) (w fi_recv fi_send fi_writedata : Z)
    (x : Z) (elems : list Z) (sequence_count : Z) (pr : proc) : outcome (Z * proc * list post) :=
  '(status, r, pr, p1) ← amo_apply w fi_recv x elems sequence_count pr;
  match r with
  | None => Ret (status, pr, p1)
  | Some r =>
      '(status, r, pr, p2) ← amo_respond fi_send r pr;
      if negb (bool_decide (status = 0)) then Ret (status, pr, p1 ++ p2)
      else '(status, pr, p3) ← gdrcopy_amo_ack ack_addr ack_key fi_writedata r pr;
           Ret (status, pr, p1 ++ p2 ++ p3)
  end.

(** The width of the word by the size in the request. *)
Definition amo_width (size : Z) : option Z :=
  if bool_decide (size = 2) then Some 16
  else if bool_decide (size = 4) then Some 32
  else if bool_decide (size = 8) then Some 64 else None.

Definition gdr_process_amo (ack_addr ack_key : Z -> Z) (fi_recv fi_send fi_writedata : Z)
    (x : Z) (elems : list Z) (sequence_count : Z) (pr : proc) : outcome (Z * proc * list post) :=
  match ctxs pr !! x with
  | None => Fail FUndef
  | Some c =>
      match amo_width (am_size (c_send_amo c)) with
      | Some w => perform_gdrcopy_amo ack_addr ack_key w fi_recv fi_send fi_writedata x elems sequence_count pr
      | None => Ret (NVSHMEMX_ERROR_INTERNAL, pr, [])
      end
  end.

(** The sequence number [gdr_process_amos] acknowledges a request with. *)
Definition amo_sequence (c : gdr_op_ctx) : option Z :=
  match c_type c with
  | NVSHMEMT_LIBFABRIC_SEND => Some NVSHMEM_STAGED_AMO_SEQ_NUM
  | NVSHMEMT_LIBFABRIC_MATCH => Some (am_sequence_count (c_send_amo c))
  | NVSHMEMT_LIBFABRIC_ACK => None
  end.

(** One turn of the loop of [gdr_process_amos] with an operation at the front of
    the queue; the result [None] is the end of the loop. *)
Definition gdr_process_amos_turn (ack_addr ack_key : Z -> Z) (fi_recv fi_send fi_writedata : Z) (pr : proc)
  : outcome (option (Z * proc * list post)) :=
  '(status, elems, op, pr) ← getNextAmoOps RECV_TYPE_NOT_ACK pr;
  match op with
  | None => Ret None
  | Some x =>
      match ctxs pr !! x ≫= amo_sequence with
      | None => Ret (Some (0, pr, []))
      | Some n => res ← gdr_process_amo ack_addr ack_key fi_recv fi_send fi_writedata x elems n pr;
                  Ret (Some res)
      end
  end.

(** [gdr_process_ack]: the value of a fetching atomic arrives. *)
Definition gdr_process_ack (x : Z) (pr : proc) : outcome (Z * proc) :=
  match ctxs pr !! x with
  | None => Fail FUndef
  | Some c =>
      let ret := c_ret_amo c in
      match handle_info (ra_ret_addr ret) with
      | None => Ret (NVSHMEMX_ERROR_INTERNAL, pr)
      | Some hi =>
          let elem := hi.1 + (ra_ret_addr ret - hi.2) in
          _ ← cassert (negb (bool_decide (elem = 0)));
          Ret (0, set_mem (elem + 8) (ra_flag ret) (set_mem elem (ra_data ret) pr))
      end
  end.

(** One turn of the loop of [gdr_process_amos_ack]. *)
Definition gdr_process_amos_ack_turn (fi_recv : Z) (pr : proc) : outcome (option (Z * proc * list post)) :=
  '(status, elems, op, pr) ← getNextAmoOps RECV_TYPE_ACK pr;
  match op with
  | None => Ret None
  | Some x =>
      '(status, pr) ← gdr_process_ack x pr;
      if negb (bool_decide (status = 0)) then Ret (Some (NVSHMEMX_ERROR_INTERNAL, pr, []))
      else if negb (bool_decide (fi_recv = 0)) then Ret (Some (NVSHMEMX_ERROR_INTERNAL, pr, []))
      else Ret (Some (0, pr, [PRecv x]))
  end.
End staged.

(** ** Posting *)
Inductive provider := PROVIDER_VERBS | PROVIDER_SLINGSHOT | PROVIDER_EFA.

#[export] Instance provider_eq_dec : EqDecision provider.
Proof. solve_decision. Defined.

(** [getNextSends] for one context with its retry loop: the pool is empty when
    the loop gives up, and the null pointer is an error. *)
Definition next_send (pr : proc) : option (Z * proc) :=
  match getNextSends 1 (queue pr) with
  | (0, [x], q) => Some (x, set_queue q pr)
  | _ => None
  end.

Section posting.
(** The key of a remote handle for an endpoint ([hdls[ep_idx].key]). *)
Context (mr_key : Z -> bool -> Z) (prov : provider) (virt_addr : bool).

Definition remote_key (remote : Rma.rma_memdesc) (is_proxy : bool) : outcome Z :=
  match Rma.handle remote with Some h => Ret (mr_key h is_proxy) | None => Fail FUndef end.

Definition remote_addr (remote : Rma.rma_memdesc) : Z :=
  if virt_addr then Rma.ptr remote else Rma.offset remote.

(** The call of libfabric by the verb; a one-word put goes through the context
    on EFA and always uses the pointer there. *)
Definition rma_post (pe : Z) (desc : Z) (remote : Rma.rma_memdesc) (key op_size : Z) (is_proxy : bool)
    (imm_data : option Z) (context : option Z) : outcome (option post) :=
  let dest := Some (target_ep pe is_proxy) in
  if bool_decide (desc = Channel.NVSHMEMI_OP_P) then
    _ ← cassert (bool_decide (imm_data = None));
    let addr := if bool_decide (prov = PROVIDER_EFA) then Rma.ptr remote else remote_addr remote in
    Ret (Some (PWrite dest None addr key op_size context))
  else if bool_decide (desc = Channel.NVSHMEMI_OP_PUT) then
    Ret (Some (PWrite dest imm_data (remote_addr remote) key op_size context))
  else if bool_decide (desc = Channel.NVSHMEMI_OP_G) || bool_decide (desc = Channel.NVSHMEMI_OP_GET) then
    _ ← cassert (bool_decide (imm_data = None));
    Ret (Some (PRead dest (remote_addr remote) key op_size context))
  else Ret None.

Definition rma_impl (pe : Z) (verb : Rma.rma_verb) (remote : Rma.rma_memdesc) (bytesdesc : Rma.rma_bytesdesc)
    (is_proxy : bool) (imm_data : option Z) (fi : Z) (pr : proc) : outcome (Z * proc * list post) :=
  let op_size := u64 (Rma.elembytes bytesdesc * Rma.nelems bytesdesc) in
  match (if bool_decide (prov = PROVIDER_EFA)
         then '(x, pr) ← next_send pr; Some (Some x, pr) else Some (None, pr)) with
  | None => Ret (NVSHMEMX_ERROR_INTERNAL, pr, [])
  | Some (context, pr) =>
      key ← remote_key remote is_proxy;
      p ← rma_post pe (Rma.desc verb) remote key op_size is_proxy imm_data context;
      match p with
      | None => Ret (NVSHMEMX_ERROR_INVALID_VALUE, pr, [])
      | Some p =>
          if negb (bool_decide (fi = 0)) then Ret (fi, pr, [])
          else Ret (0, set_ep is_proxy (add_submitted 1 (ep is_proxy pr)) pr, [p])
      end
  end.

Definition libfabric_rma (pe : Z) (verb : Rma.rma_verb) (remote : Rma.rma_memdesc)
    (bytesdesc : Rma.rma_bytesdesc) (is_proxy : bool) (fi : Z) (pr : proc) : outcome (Z * proc * list post) :=
  rma_impl pe verb remote bytesdesc is_proxy None fi pr.

Definition gdr_amo (pe : Z) (amo_op : Z) (remote : Rma.amo_memdesc) (elembytes : Z) (is_proxy : bool)
    (fi : Z) (pr : proc) : outcome (Z * proc * list post) :=
  match next_send pr with
  | None => Ret (NVSHMEMX_ERROR_INTERNAL, pr, [])
  | Some (x, pr) =>
      c ← (match ctxs pr !! x with Some c => Ret c | None => Fail FUndef end);
      let a := MkAmo amo_op (Rma.ptr (Rma.remote_memdesc remote)) (Rma.retptr remote) (Rma.retflag remote)
                     (Rma.val remote) (Rma.cmp remote) elembytes (my_pe pr) in
      let pr := set_ctx x (MkCtx NVSHMEMT_LIBFABRIC_SEND (c_ep c) a (c_ret_amo c) (c_signal c) (c_src_addr c)) pr in
      if negb (bool_decide (fi = 0)) then Ret (NVSHMEMX_ERROR_INTERNAL, pr, [])
      else Ret (0, set_ep is_proxy (add_submitted 2 (ep is_proxy pr)) pr,
                [PSend (Some (target_ep pe is_proxy)) (WAmo a) x])
  end.

Definition gdr_signal (pe : Z) (amo_op : Z) (remote : Rma.amo_memdesc) (is_proxy : bool)
    (sequence_count num_writes : Z) (fi : Z) (pr : proc) : outcome (Z * proc * list post) :=
  match next_send pr with
  | None => Ret (NVSHMEMX_ERROR_INTERNAL, pr, [])
  | Some (x, pr) =>
      c ← (match ctxs pr !! x with Some c => Ret c | None => Fail FUndef end);
      let s := MkSig (u16 amo_op) num_writes (Rma.val remote) (Rma.ptr (Rma.remote_memdesc remote))
                     sequence_count (u32 (my_pe pr)) in
      let pr := set_ctx x (MkCtx NVSHMEMT_LIBFABRIC_MATCH (c_ep c) (c_send_amo c) (c_ret_amo c) s (c_src_addr c)) pr in
      if negb (bool_decide (fi = 0)) then Ret (NVSHMEMX_ERROR_INTERNAL, pr, [])
      else Ret (0, set_ep is_proxy (add_submitted 2 (ep is_proxy pr)) pr,
                [PSend (Some (target_ep pe is_proxy)) (WSig s) x])
  end.

(** The first part of [nvshmemt_put_signal_unordered]: one attempt to obtain a
    sequence number. *)
Definition put_signal_seq (is_proxy : bool) (pr : proc) : outcome (Z * proc) :=
  '(n, c) ← next_seq_num (put_signal_seq_counter (ep is_proxy pr));
  Ret (n, set_ep is_proxy (set_seq c (ep is_proxy pr)) pr).

(** Its loop over the writes; [fi] gives the status of each. *)
Fixpoint put_signal_writes (pe : Z) (verb : Rma.rma_verb) (writes : list (Rma.rma_memdesc * Rma.rma_bytesdesc))
    (is_proxy : bool) (sequence_count : Z) (fi : list Z) (pr : proc) : outcome (Z * proc * list post) :=
  match writes with
  | [] => Ret (0, pr, [])
  | (remote, bytes) :: writes =>
      '(status, pr, p1) ← rma_impl pe verb remote bytes is_proxy (Some sequence_count) (default 0 (head fi)) pr;
      if negb (bool_decide (status = 0)) then Ret (status, pr, p1)
      else '(status, pr, p2) ← put_signal_writes pe verb writes is_proxy sequence_count (tail fi) pr;
           Ret (status, pr, p1 ++ p2)
  end.

Definition put_signal_unordered (pe : Z) (write_verb : Rma.rma_verb)
    (writes : list (Rma.rma_memdesc * Rma.rma_bytesdesc)) (sig_op : Z) (sig_target : Rma.amo_memdesc)
    (is_proxy : bool) (fi_writes : list Z) (fi_signal : Z) (pr : proc) : outcome (Z * proc * list post) :=
  '(n, pr) ← put_signal_seq is_proxy pr;
  if bool_decide (n < 0) then Ret (NVSHMEMX_ERROR_INTERNAL, pr, [])
  else
    '(status, pr, p1) ← put_signal_writes pe write_verb writes is_proxy n fi_writes pr;
    if negb (bool_decide (status = 0)) then Ret (NVSHMEMX_ERROR_INTERNAL, pr, p1)
    else
      '(status, pr, p2) ← gdr_signal pe sig_op sig_target is_proxy n (u16 (Z.of_nat (length writes))) fi_signal pr;
      Ret (if bool_decide (status = 0) then 0 else NVSHMEMX_ERROR_INTERNAL, pr, p1 ++ p2).
End posting.

(** ** Quiet *)

(** The test of the loop of [nvshmemt_libfabric_quiet]. *)
Definition quiet_done (is_proxy : bool) (pr : proc) : bool :=
  let e := ep is_proxy pr in
  bool_decide (u64 (cntr e + completed_staged_atomics e) = submitted_ops e).

(** [nvshmemt_libfabric_enforce_cst]: the read is posted on the proxy endpoint
    with the address of the message left at 0 and the local key, and is counted,
    whatever its status, on entry [target_ep] of the array of two endpoints.  The
    read through GDRCopy before it changes nothing. *)
Definition libfabric_enforce_cst (local_mr_key : Z) (fi : Z) (pr : proc) : outcome (Z * proc * list post) :=
  let target_ep := target_ep (my_pe pr) true in
  let posts := if bool_decide (fi = 0) then [PRead (Some 0) 0 local_mr_key 8 None] else [] in
  if bool_decide (target_ep = NVSHMEMT_LIBFABRIC_PROXY_EP_IDX)
  then Ret (fi, set_ep true (add_submitted 1 (ep true pr)) pr, posts)
  else if bool_decide (target_ep = NVSHMEMT_LIBFABRIC_HOST_EP_IDX)
  then Ret (fi, set_ep false (add_submitted 1 (ep false pr)) pr, posts)
  else Fail FUndef.
