(* ===== verification/LibfabricNet.v ===== *)
(** * The libfabric transport: processes over an unordered fabric

    Processes with two endpoints each post operations and handle completions
    while the fabric delivers in any order.  The state of the fabric is the list
    [net] of operations posted and not completed, taken in any order, the list
    [cq] of completions that arrived and were not handled, and the receive
    buffers that are posted.  Calls that wait in a retry loop while the progress
    function runs are split at the waiting points: [tx] is the put-with-signal
    an endpoint is in the middle of, [rx] the atomic a process is in the middle
    of answering; the steps of other handlers run between.  A context is taken
    from the pool in the step that posts with it.

    The consistency read of [nvshmemt_libfabric_enforce_cst] is posted like a get
    but without a context, on the address 0; its completion stays unhandled, since
    the handler writes through the context of a completion.

    Operations complete with FI_DELIVERY_COMPLETE: the local completion of a
    write or a send is due once it arrived at the target.  [step_recv] needs a
    posted buffer, as a fabric with flow control does.

    The fields [own], [outs], [next_id] and [log] are ghost: they record which
    message a receive buffer holds, the operations not yet acknowledged, and the
    events in the order they happened (the latest first). *)
From stdpp Require Import base gmap list functions.
From S2P Require Import Prelude ProxyChannel Rma Libfabric LibfabricOps.
Open Scope Z_scope.

(** ** Endpoints by address *)
Definition pe_of (a : Z) : Z := a / 2.
Definition is_proxy_of (a : Z) : bool := bool_decide (a mod 2 = 1).
Definition valid_pe (p : Z) : Prop := 0 <= p < 2 ^ 31.
Definition valid_ep (a : Z) : Prop := 0 <= a < 2 ^ 32.

(** ** Operations under way *)

(** A write with its immediate data and the range it writes, a read, a message,
    or an operation that arrived and whose local completion is due ([true] for
    a send). *)
Inductive body :=
| BWrite (imm : option Z) (range : Z * Z)
| BRead
| BMsg (m : wire)
| BDone (is_send : bool).

Record flight := MkFlight { f_src : Z; f_dst : Z; f_body : body; f_ctx : option Z; f_id : Z }.
Definition with_body (b : body) (f : flight) : flight := MkFlight (f_src f) (f_dst f) b (f_ctx f) (f_id f).

(** The operation a successful call of libfabric puts under way. *)
Definition fly (src id : Z) (p : post) : list flight :=
  match p with
  | PWrite (Some d) imm addr _ len x => [MkFlight src d (BWrite imm (addr, len)) x id]
  | PRead (Some d) _ _ _ x => [MkFlight src d BRead x id]
  | PSend (Some d) m x => [MkFlight src d (BMsg m) (Some x) id]
  | _ => []
  end.

(** A completion: of a remote write with immediate data, of a receive, or local. *)
Inductive arrival :=
| AImm (src imm id : Z)
| ARecv (src x : Z)
| ALocal (x : option Z) (is_send : bool).

Definition entry_of (a : arrival) : cq_entry * option Z :=
  match a with
  | AImm src imm _ => (MkEntry true false true false imm None, Some src)
  | ARecv src x => (MkEntry false false false true 0 (Some x), Some src)
  | ALocal x is_send => (MkEntry false is_send (negb is_send) false 0 x, None)
  end.

(** A message received into a context; [ep] is overwritten. *)
Definition recv_ctx (m : wire) (c : gdr_op_ctx) : gdr_op_ctx :=
  match m with
  | WAmo a => MkCtx NVSHMEMT_LIBFABRIC_SEND None a (c_ret_amo c) (c_signal c) (c_src_addr c)
  | WSig s => MkCtx NVSHMEMT_LIBFABRIC_MATCH None (c_send_amo c) (c_ret_amo c) s (c_src_addr c)
  | WRet r => MkCtx NVSHMEMT_LIBFABRIC_ACK None (c_send_amo c) r (c_signal c) (c_src_addr c)
  end.

(** ** The world *)

(** The put-with-signal an endpoint is posting. *)
Record tx_call := MkTx {
  tc_id : Z; tc_pe : Z; tc_seq : Z; tc_rem : list (Rma.rma_memdesc * Rma.rma_bytesdesc); tc_num : nat;
  tc_sig_op : Z; tc_sig : Rma.amo_memdesc }.

(** An operation not yet acknowledged; put-with-signal is known by its sequence
    number, an atomic by its identity. *)
Record pending_op := MkOp { o_id : Z; o_dst : Z; o_writes : list (Z * Z) }.
Abbreviation tag := (Z + Z)%type.

Inductive event :=
| EIssue (id s d : Z) (writes : list (Z * Z))
| ERma (id s : Z)
| ELand (id : Z) (range : Z * Z)
| EApply (id : Z) (p : Z).

Record world := MkWorld {
  procs : Z -> proc; net : list flight; cq : list (Z * arrival); posted : list (Z * Z);
  tx : Z -> option tx_call; rx : Z -> option (flight * amo_reply);
  own : Z -> Z -> option flight; outs : Z -> gmap tag pending_op; next_id : Z; log : list event }.

(** The range a write of a put-with-signal covers (FI_MR_VIRT_ADDR is set). *)
Definition write_range (d : Rma.rma_memdesc * Rma.rma_bytesdesc) : Z * Z :=
  (Rma.ptr d.1, u64 (Rma.elembytes d.2 * Rma.nelems d.2)).

Definition put_verb : Rma.rma_verb := {| Rma.desc := Channel.NVSHMEMI_OP_PUT; Rma.is_nbi := 1; Rma.is_stream := 0 |}.

(** The tag of an operation, from the message that requests the atomic or from
    the sequence number of its acknowledgement. *)
Definition ack_tag (seq id : Z) : tag := if bool_decide (seq = NVSHMEM_STAGED_AMO_SEQ_NUM) then inr id else inl seq.
Definition imm_seq (imm : Z) : Z := Z.land imm NVSHMEM_STAGED_AMO_PUT_SIGNAL_SEQ_CNTR_BIT_MASK.
Definition is_ack (imm : Z) : bool :=
  bool_decide (nvshmemt_get_write_with_imm_hdr imm = NVSHMEMT_LIBFABRIC_IMM_STAGED_ATOMIC_ACK).

(** An acknowledgement retires the operation it is for. *)
Definition retire (a : arrival) (m : gmap tag pending_op) : gmap tag pending_op :=
  match a with
  | AImm _ imm id => if is_ack imm then delete (ack_tag (imm_seq imm) id) m else m
  | _ => m
  end.

(** The arrival of data is recorded, that of an acknowledgement is not. *)
Definition land_events (imm : option Z) (id : Z) (range : Z * Z) : list event :=
  match imm with
  | Some i => if is_ack i then [] else [ELand id range]
  | None => [ELand id range]
  end.

Definition count_completion (b : bool) (pr : proc) : proc :=
  let e := ep b pr in
  set_ep b (MkEp (submitted_ops e) (u64 (cntr e + 1)) (completed_staged_atomics e)
                 (put_signal_seq_counter e) (proxy_put_signal_comp_map e)) pr.

Section steps.
Context (handle_info : Z -> option (Z * Z)) (use_gdrcopy : bool)
        (ack_addr ack_key : Z -> Z) (mr_key : Z -> bool -> Z).

Inductive step (w : world) : world -> Prop :=
(** a sequence number is asked for, and none is free *)
| step_seq_busy p b pr :
    valid_pe p -> tx w (target_ep p b) = None ->
    put_signal_seq b (procs w p) = Ret (-1, pr) ->
    step w (MkWorld (<[p := pr]> (procs w)) (net w) (cq w) (posted w) (tx w) (rx w) (own w) (outs w)
                    (next_id w) (log w))
(** a put-with-signal obtains its sequence number *)
| step_seq p b dpe writes op sig n pr :
    valid_pe p -> valid_pe dpe -> tx w (target_ep p b) = None ->
    put_signal_seq b (procs w p) = Ret (n, pr) -> 0 <= n ->
    step w (MkWorld (<[p := pr]> (procs w)) (net w) (cq w) (posted w)
      (<[target_ep p b := Some (MkTx (next_id w) dpe n writes (length writes) op sig)]> (tx w)) (rx w) (own w)
      (<[target_ep p b := <[inl n := MkOp (next_id w) (target_ep dpe b) (map write_range writes)]>
                            (outs w (target_ep p b))]> (outs w))
      (next_id w + 1)
      (EIssue (next_id w) (target_ep p b) (target_ep dpe b) (map write_range writes) :: log w))
(** it posts a write *)
| step_write p b c d rem pr ps :
    valid_pe p -> tx w (target_ep p b) = Some c -> tc_rem c = d :: rem ->
    rma_impl mr_key PROVIDER_EFA true (tc_pe c) put_verb d.1 d.2 b (Some (tc_seq c)) 0 (procs w p) = Ret (0, pr, ps) ->
    step w (MkWorld (<[p := pr]> (procs w)) ((ps ≫= fly (target_ep p b) (tc_id c)) ++ net w) (cq w) (posted w)
      (<[target_ep p b := Some (MkTx (tc_id c) (tc_pe c) (tc_seq c) rem (tc_num c) (tc_sig_op c) (tc_sig c))]> (tx w))
      (rx w) (own w) (outs w) (next_id w) (log w))
(** it posts the signal *)
| step_signal p b c pr ps :
    valid_pe p -> tx w (target_ep p b) = Some c -> tc_rem c = [] ->
    gdr_signal (tc_pe c) (tc_sig_op c) (tc_sig c) b (tc_seq c) (u16 (Z.of_nat (tc_num c))) 0 (procs w p) = Ret (0, pr, ps) ->
    step w (MkWorld (<[p := pr]> (procs w)) ((ps ≫= fly (target_ep p b) (tc_id c)) ++ net w) (cq w) (posted w)
      (<[target_ep p b := None]> (tx w)) (rx w) (own w) (outs w) (next_id w) (log w))
(** an atomic is posted *)
| step_amo p b dpe op remote elembytes pr ps :
    valid_pe p -> valid_pe dpe -> tx w (target_ep p b) = None ->
    gdr_amo dpe op remote elembytes b 0 (procs w p) = Ret (0, pr, ps) ->
    step w (MkWorld (<[p := pr]> (procs w)) ((ps ≫= fly (target_ep p b) (next_id w)) ++ net w) (cq w) (posted w)
      (tx w) (rx w) (own w)
      (<[target_ep p b := <[inr (next_id w) := MkOp (next_id w) (target_ep dpe b) []]> (outs w (target_ep p b))]> (outs w))
      (next_id w + 1) (EIssue (next_id w) (target_ep p b) (target_ep dpe b) [] :: log w))
(** a put, a get or a one-word put is posted *)
| step_rma p b dpe verb remote bytes pr ps :
    valid_pe p -> valid_pe dpe -> tx w (target_ep p b) = None ->
    libfabric_rma mr_key PROVIDER_EFA true dpe verb remote bytes b 0 (procs w p) = Ret (0, pr, ps) ->
    step w (MkWorld (<[p := pr]> (procs w)) ((ps ≫= fly (target_ep p b) (next_id w)) ++ net w) (cq w) (posted w)
      (tx w) (rx w) (own w) (outs w) (next_id w + 1) (ERma (next_id w) (target_ep p b) :: log w))
(** the consistency read is posted, without a context *)
| step_cst p key pr ps :
    valid_pe p -> tx w (target_ep p true) = None ->
    libfabric_enforce_cst key 0 (procs w p) = Ret (0, pr, ps) ->
    step w (MkWorld (<[p := pr]> (procs w)) ((ps ≫= fly (target_ep p true) (next_id w)) ++ net w) (cq w) (posted w)
      (tx w) (rx w) (own w) (outs w) (next_id w + 1) (ERma (next_id w) (target_ep p true) :: log w))
(** a write arrives at the memory of its target *)
| step_land l1 l2 f imm range :
    net w = l1 ++ f :: l2 -> f_body f = BWrite imm range ->
    step w (MkWorld (procs w) (l1 ++ with_body (BDone false) f :: l2)
      ((match imm with Some i => [(f_dst f, AImm (f_src f) i (f_id f))] | None => [] end) ++ cq w)
      (posted w) (tx w) (rx w) (own w) (outs w) (next_id w) (land_events imm (f_id f) range ++ log w))
(** a read returns *)
| step_read l1 l2 f :
    net w = l1 ++ f :: l2 -> f_body f = BRead ->
    step w (MkWorld (procs w) (l1 ++ with_body (BDone false) f :: l2) (cq w) (posted w) (tx w) (rx w) (own w)
      (outs w) (next_id w) (log w))
(** a message is received into a posted buffer *)
| step_recv l1 l2 f m q1 q2 x c :
    net w = l1 ++ f :: l2 -> f_body f = BMsg m -> posted w = q1 ++ (f_dst f, x) :: q2 ->
    ctxs (procs w (pe_of (f_dst f))) !! x = Some c ->
    step w (MkWorld (<[pe_of (f_dst f) := set_ctx x (recv_ctx m c) (procs w (pe_of (f_dst f)))]> (procs w))
      (l1 ++ with_body (BDone true) f :: l2) ((f_dst f, ARecv (f_src f) x) :: cq w) (q1 ++ q2) (tx w) (rx w)
      (<[pe_of (f_dst f) := <[x := Some f]> (own w (pe_of (f_dst f)))]> (own w))
      (outs w) (next_id w) (log w))
(** an operation completes locally *)
| step_done l1 l2 f is_send :
    net w = l1 ++ f :: l2 -> f_body f = BDone is_send ->
    step w (MkWorld (<[pe_of (f_src f) := count_completion (is_proxy_of (f_src f)) (procs w (pe_of (f_src f)))]> (procs w))
      (l1 ++ l2) ((f_src f, ALocal (f_ctx f) is_send) :: cq w) (posted w) (tx w) (rx w) (own w) (outs w) (next_id w) (log w))
(** a completion is handled *)
| step_cq l1 l2 e a pr :
    cq w = l1 ++ (e, a) :: l2 ->
    gdr_process_completion (is_proxy_of e) (entry_of a).1 (entry_of a).2 (procs w (pe_of e)) = Ret (0, pr) ->
    step w (MkWorld (<[pe_of e := pr]> (procs w)) (net w) (l1 ++ l2) (posted w) (tx w) (rx w) (own w)
      (<[e := retire a (outs w e)]> (outs w)) (next_id w) (log w))
(** an atomic is applied and its buffer posted again *)
| step_apply p elems x pr1 c n width r pr2 ps f :
    valid_pe p -> rx w p = None ->
    getNextAmoOps RECV_TYPE_NOT_ACK (procs w p) = Ret (0, elems, Some x, pr1) ->
    ctxs pr1 !! x = Some c -> amo_sequence c = Some n -> amo_width (am_size (c_send_amo c)) = Some width ->
    amo_apply handle_info use_gdrcopy width 0 x elems n pr1 = Ret (0, Some r, pr2, ps) ->
    own w p x = Some f ->
    step w (MkWorld (<[p := pr2]> (procs w)) (net w) (cq w) ((target_ep p (rp_ep r), x) :: posted w) (tx w)
      (<[p := Some (f, r)]> (rx w)) (own w) (outs w) (next_id w) (EApply (f_id f) p :: log w))
(** a fetching atomic returns its value *)
| step_respond p f r r' pr ps :
    valid_pe p -> rx w p = Some (f, r) -> rp_fetch r <> None ->
    amo_respond 0 r (procs w p) = Ret (0, r', pr, ps) ->
    step w (MkWorld (<[p := pr]> (procs w)) ((ps ≫= fly (target_ep p (rp_ep r)) (f_id f)) ++ net w) (cq w) (posted w)
      (tx w) (<[p := Some (f, r')]> (rx w)) (own w) (outs w) (next_id w) (log w))
(** the atomic is acknowledged *)
| step_ack p f r pr ps :
    valid_pe p -> rx w p = Some (f, r) -> rp_fetch r = None ->
    gdrcopy_amo_ack ack_addr ack_key 0 r (procs w p) = Ret (0, pr, ps) ->
    step w (MkWorld (<[p := pr]> (procs w)) ((ps ≫= fly (target_ep p (rp_ep r)) (f_id f)) ++ net w) (cq w) (posted w)
      (tx w) (<[p := None]> (rx w)) (own w) (outs w) (next_id w) (log w))
(** the value of a fetching atomic is stored and its buffer posted again *)
| step_ret p x c b pr :
    valid_pe p -> q_ack_recv (queue (procs w p)) !! 0%nat = Some x ->
    ctxs (procs w p) !! x = Some c -> c_ep c = Some b ->
    gdr_process_amos_ack_turn handle_info 0 (procs w p) = Ret (Some (0, pr, [PRecv x])) ->
    step w (MkWorld (<[p := pr]> (procs w)) (net w) (cq w) ((target_ep p b, x) :: posted w) (tx w) (rx w)
      (own w) (outs w) (next_id w) (log w)).

(** The start: [sends p] and [recvs a] are the contexts of a process and the
    receive buffers posted on an endpoint, all different; memory is arbitrary. *)
Record initial (w : world) : Prop := {
  in_net : net w = []; in_cq : cq w = []; in_log : log w = [];
  in_tx : forall a, tx w a = None; in_rx : forall p, rx w p = None;
  in_outs : forall a, outs w a = ∅;
  in_eps : forall p b, submitted_ops (ep b (procs w p)) = 0 /\ cntr (ep b (procs w p)) = 0 /\
    completed_staged_atomics (ep b (procs w p)) = 0 /\ put_signal_seq_counter (ep b (procs w p)) = reset /\
    proxy_put_signal_comp_map (ep b (procs w p)) = ∅;
  in_pe : forall p, valid_pe p -> my_pe (procs w p) = p;
  in_queue : forall p, q_ack_recv (queue (procs w p)) = [] /\ q_other_recv (queue (procs w p)) = [];
  in_posted : Forall (fun ax => valid_ep ax.1) (posted w);
  in_ctxs : forall p x c, ctxs (procs w p) !! x = Some c -> c_ep c = None;
  in_ctx_exists : forall p x, x ∈ q_send (queue (procs w p)) \/ (exists a, (a, x) ∈ posted w /\ pe_of a = p) ->
    is_Some (ctxs (procs w p) !! x);
  in_distinct : forall p, NoDup (q_send (queue (procs w p)) ++
                                 ((filter (fun ax => pe_of ax.1 = p) (posted w)).*2)) }.

Definition reachable (w : world) : Prop := exists w0, initial w0 /\ rtc step w0 w.
End steps.

(** ** What each handler changes

    Inversion lemmas: a handler that succeeds is described by the fields of the
    process it changes and the calls of libfabric it makes. *)


(** ** Projections of updated processes *)
Lemma ep_set_ep b b' e pr : ep b' (set_ep b e pr) = if bool_decide (b = b') then e else ep b' pr.
Proof. destruct b, b'; reflexivity. Qed.
Lemma ep_set_ep_eq b e pr : ep b (set_ep b e pr) = e.
Proof. by destruct b. Qed.
Lemma ep_set_queue b q pr : ep b (set_queue q pr) = ep b pr.
Proof. by destruct b. Qed.
Lemma ep_set_ctx b x c pr : ep b (set_ctx x c pr) = ep b pr.
Proof. by destruct b. Qed.
Lemma ep_set_mem b a v pr : ep b (set_mem a v pr) = ep b pr.
Proof. by destruct b. Qed.
Lemma queue_set_ep b e pr : queue (set_ep b e pr) = queue pr.
Proof. by destruct b. Qed.
Lemma ctxs_set_ep b e pr : ctxs (set_ep b e pr) = ctxs pr.
Proof. by destruct b. Qed.
Lemma my_pe_set_ep b e pr : my_pe (set_ep b e pr) = my_pe pr.
Proof. by destruct b. Qed.

Create Rewrite HintDb lfproj.
#[export] Hint Rewrite ep_set_ep_eq ep_set_queue ep_set_ctx ep_set_mem queue_set_ep ctxs_set_ep my_pe_set_ep : lfproj.

(** Case analysis of a handler in a hypothesis. *)
Ltac lf_case H :=
  match type of H with
  | context [match ?x with _ => _ end] =>
      first [is_var x; destruct x | let E := fresh "E" in destruct x eqn:E]
  | context [outcome_bind _ _ _ ?x] => let E := fresh "E" in destruct x eqn:E
  end.
Ltac lf_bind H := repeat (cbn [mbind outcome_bind] in H; lf_case H; try discriminate H).

(** ** Posting *)
Lemma next_send_inv pr x pr' :
  next_send pr = Some (x, pr') ->
  exists l, q_send (queue pr) = x :: l /\
    pr' = set_queue (MkQueue l (q_ack_recv (queue pr)) (q_other_recv (queue pr))) pr.
Proof.
  unfold next_send, getNextSends. destruct (q_send (queue pr)) as [|y l] eqn:E; simpl; [done|].
  intros H. simplify_eq. eauto.
Qed.

(** The process after it posted with the first free context. *)
Definition after_post (b : bool) (n : Z) (l : list Z) (pr : proc) : proc :=
  set_ep b (add_submitted n (ep b pr))
    (set_queue (MkQueue l (q_ack_recv (queue pr)) (q_other_recv (queue pr))) pr).

Lemma rma_impl_inv mr_key dpe verb remote bytes b imm pr pr' ps :
  rma_impl mr_key PROVIDER_EFA true dpe verb remote bytes b imm 0 pr = Ret (0, pr', ps) ->
  exists x l p, q_send (queue pr) = x :: l /\ pr' = after_post b 1 l pr /\ ps = [p] /\
    ((exists key len addr, p = PWrite (Some (target_ep dpe b)) imm addr key len (Some x)) \/
     (exists key len addr, p = PRead (Some (target_ep dpe b)) addr key len (Some x) /\ imm = None)).
Proof.
  unfold rma_impl. rewrite bool_decide_true by done. intros H.
  destruct (next_send pr) as [[x pr1]|] eqn:En; cbn [mbind option_bind] in H; [|done].
  apply next_send_inv in En as (l & El & ->). cbn [mbind outcome_bind] in H.
  destruct (remote_key mr_key remote b) as [key|]; cbn [mbind outcome_bind] in H; [|done].
  unfold rma_post in H. rewrite (bool_decide_true (PROVIDER_EFA = PROVIDER_EFA)) in H by done.
  rewrite (bool_decide_true (0 = 0)) in H by done.
  repeat case_bool_decide; cbn [mbind outcome_bind cassert orb negb] in H; try done; simplify_eq;
    (do 3 eexists; split; [eassumption|]; split; [reflexivity|]; split; [reflexivity|]; eauto 10).
Qed.

Lemma put_write_inv mr_key dpe d b seq pr pr' ps :
  rma_impl mr_key PROVIDER_EFA true dpe put_verb d.1 d.2 b (Some seq) 0 pr = Ret (0, pr', ps) ->
  exists x l key, q_send (queue pr) = x :: l /\ pr' = after_post b 1 l pr /\
    ps = [PWrite (Some (target_ep dpe b)) (Some seq) (write_range d).1 key (write_range d).2 (Some x)].
Proof.
  unfold rma_impl. rewrite bool_decide_true by done. intros H.
  destruct (next_send pr) as [[x pr1]|] eqn:En; cbn [mbind option_bind] in H; [|done].
  apply next_send_inv in En as (l & El & ->). cbn [mbind outcome_bind] in H.
  destruct (remote_key mr_key d.1 b) as [key|]; cbn [mbind outcome_bind] in H; [|done].
  cbv [rma_post put_verb Rma.desc] in H.
  change (bool_decide (Channel.NVSHMEMI_OP_PUT = Channel.NVSHMEMI_OP_P)) with false in H.
  change (bool_decide (Channel.NVSHMEMI_OP_PUT = Channel.NVSHMEMI_OP_PUT)) with true in H.
  cbn [mbind outcome_bind] in H. rewrite (bool_decide_true (0 = 0)) in H by done. cbn [negb] in H.
  simplify_eq. by exists x, l, key.
Qed.

Lemma gdr_signal_inv dpe op remote b seq n pr pr' ps :
  gdr_signal dpe op remote b seq n 0 pr = Ret (0, pr', ps) ->
  exists x l c sg, q_send (queue pr) = x :: l /\
    pr' = set_ctx x c (after_post b 2 l pr) /\ ps = [PSend (Some (target_ep dpe b)) (WSig sg) x] /\
    si_sequence_count sg = seq /\ si_num_writes sg = n /\
    (exists c0, ctxs pr !! x = Some c0 /\ c_ep c = c_ep c0).
Proof.
  unfold gdr_signal. intros H. destruct (next_send pr) as [[x pr1]|] eqn:En; [|done].
  apply next_send_inv in En as (l & El & ->). cbn [ctxs set_queue] in H.
  destruct (ctxs pr !! x) as [c0|] eqn:Ec; cbn [mbind outcome_bind] in H; [|done].
  rewrite (bool_decide_true (0 = 0)) in H by done. cbn [negb] in H. simplify_eq.
  exists x, l. eexists. eexists. split; [done|]. split; [by destruct b|]. split; [done|]. simpl. eauto.
Qed.

Lemma gdr_amo_inv dpe op remote sz b pr pr' ps :
  gdr_amo dpe op remote sz b 0 pr = Ret (0, pr', ps) ->
  exists x l c a, q_send (queue pr) = x :: l /\
    pr' = set_ctx x c (after_post b 2 l pr) /\ ps = [PSend (Some (target_ep dpe b)) (WAmo a) x] /\
    (exists c0, ctxs pr !! x = Some c0 /\ c_ep c = c_ep c0).
Proof.
  unfold gdr_amo. intros H. destruct (next_send pr) as [[x pr1]|] eqn:En; [|done].
  apply next_send_inv in En as (l & El & ->). cbn [ctxs set_queue] in H.
  destruct (ctxs pr !! x) as [c0|] eqn:Ec; cbn [mbind outcome_bind] in H; [|done].
  rewrite (bool_decide_true (0 = 0)) in H by done. cbn [negb] in H. simplify_eq.
  exists x, l. eexists. eexists. split; [done|]. split; [by destruct b|]. split; [done|]. simpl. eauto.
Qed.

Lemma enforce_cst_inv key pr pr' ps :
  libfabric_enforce_cst key 0 pr = Ret (0, pr', ps) ->
  pr' = set_ep true (add_submitted 1 (ep true pr)) pr /\ ps = [PRead (Some 0) 0 key 8 None].
Proof.
  unfold libfabric_enforce_cst. rewrite (bool_decide_true (0 = 0)) by done. intros H.
  case_bool_decide as E; [by simplify_eq|]. case_bool_decide as E2; [|done]. exfalso.
  unfold target_ep, ep_idx, NVSHMEMT_LIBFABRIC_DEFAULT_NUM_EPS, NVSHMEMT_LIBFABRIC_PROXY_EP_IDX, NVSHMEMT_LIBFABRIC_HOST_EP_IDX in *. lia.
Qed.

Lemma put_signal_seq_inv b pr n pr' :
  put_signal_seq b pr = Ret (n, pr') ->
  exists c, next_seq_num (put_signal_seq_counter (ep b pr)) = Ret (n, c) /\ pr' = set_ep b (set_seq c (ep b pr)) pr.
Proof.
  unfold put_signal_seq. destruct (next_seq_num _) as [[m c]|] eqn:E; cbn [mbind outcome_bind]; [|done].
  intros H. simplify_eq. eauto.
Qed.

(** ** Answering an atomic *)
Lemma getNextAmoOps_inv pr elems x pr1 :
  getNextAmoOps RECV_TYPE_NOT_ACK pr = Ret (0, elems, Some x, pr1) ->
  exists l sends, q_other_recv (queue pr) = x :: l /\ q_send (queue pr) = elems ++ sends /\
    pr1 = set_queue (MkQueue sends (q_ack_recv (queue pr)) l) pr.
Proof.
  unfold getNextAmoOps, getNextSends. destruct (q_other_recv (queue pr)) as [|y l] eqn:E; [done|].
  destruct (ctxs pr !! y); [|done].
  case_bool_decide; destruct (q_send (queue pr)) as [|u [|v sends]] eqn:Es; simpl; intros H0; simplify_eq;
    (do 2 eexists; split; [reflexivity|]; split; [|reflexivity]; done).
Qed.

Lemma amo_apply_inv hi ug width x elems n pr r pr' ps :
  amo_apply hi ug width 0 x elems n pr = Ret (0, Some r, pr', ps) ->
  exists c b a v, ctxs pr !! x = Some c /\ c_ep c = Some b /\ pr' = set_mem a v pr /\
    r = MkReply x b (c_src_addr c) (am_src_pe (c_send_amo c)) (rp_fetch r) n elems /\ ps = [PRecv x].
Proof.
  unfold amo_apply. intros H. destruct (ctxs pr !! x) as [c|] eqn:Ec; [|done].
  destruct (c_ep c) as [b|] eqn:Ee; [|done].
  destruct (hi (am_target_addr (c_send_amo c))) as [h|]; [|done].
  destruct (load _ _ _) as [old|]; cbn [mbind outcome_bind] in H; [|done].
  destruct (amo_new_value _ _ _ _ _) as [v|]; [|done].
  rewrite (bool_decide_true (0 = 0)) in H by done. cbn [negb] in H. simplify_eq.
  exists c, b. do 2 eexists. split; [reflexivity|]. split; [done|]. split; [reflexivity|]. by split.
Qed.

Lemma amo_respond_inv r pr r' pr' ps :
  rp_fetch r <> None -> amo_respond 0 r pr = Ret (0, r', pr', ps) ->
  exists x elems ret b c c0 cx, rp_elems r = x :: elems /\ ctxs pr !! x = Some c0 /\ c_ep c = c_ep c0 /\
    ctxs (set_ctx x c pr) !! rp_op r = Some cx /\ c_ep cx = Some b /\
    pr' = set_ep b (add_submitted 1 (ep b pr)) (set_ctx x c pr) /\
    ps = [PSend (rp_src_addr r) (WRet ret) x] /\
    r' = MkReply (rp_op r) (rp_ep r) (rp_src_addr r) (rp_src_pe r) None (rp_seq r) elems.
Proof.
  unfold amo_respond. intros Hf H. destruct (rp_fetch r) as [ret|] eqn:Er; [|done].
  destruct (rp_elems r) as [|x elems] eqn:Ee; [done|].
  destruct (ctxs pr !! x) as [c0|] eqn:Ec; cbn [mbind outcome_bind] in H; [|done].
  rewrite (bool_decide_true (0 = 0)) in H by done. cbn [negb] in H.
  match type of H with context [set_ctx x ?c pr] => set (c' := c) in * end.
  destruct (ctxs (set_ctx x c' pr) !! rp_op r) as [cx|] eqn:Ex; cbn [mbind option_bind] in H; [|done].
  destruct (c_ep cx) as [b|] eqn:Eb; [|done]. rewrite ep_set_ctx in H. simplify_eq.
  exists x, elems, ret, b, c', c0, cx. subst c'. by split_and!.
Qed.

Lemma gdrcopy_amo_ack_inv ack_addr ack_key r pr pr' ps :
  gdrcopy_amo_ack ack_addr ack_key 0 r pr = Ret (0, pr', ps) ->
  exists x elems addr key, rp_elems r = x :: elems /\
    pr' = set_ep (rp_ep r) (add_submitted 1 (ep (rp_ep r) pr)) pr /\
    ps = [PWrite (rp_src_addr r) (Some (Z.lor (2 ^ 28) (rp_seq r))) addr key 0 (Some x)].
Proof.
  unfold gdrcopy_amo_ack. intros H. destruct (rp_elems r) as [|x elems] eqn:Ee; [done|].
  rewrite (bool_decide_true (0 = 0)) in H by done. cbn [negb] in H. simplify_eq.
  do 4 eexists. split; [reflexivity|]. split; [done|]. reflexivity.
Qed.

Lemma gdr_process_amos_ack_turn_inv hi pr pr' x :
  gdr_process_amos_ack_turn hi 0 pr = Ret (Some (0, pr', [PRecv x])) ->
  exists l a1 v1 a2 v2, q_ack_recv (queue pr) = x :: l /\
    pr' = set_mem a2 v2 (set_mem a1 v1 (set_queue (MkQueue (q_send (queue pr)) l (q_other_recv (queue pr))) pr)).
Proof.
  unfold gdr_process_amos_ack_turn, getNextAmoOps. destruct (q_ack_recv (queue pr)) as [|y l] eqn:E; [done|].
  cbn [mbind outcome_bind]. unfold gdr_process_ack. cbn [ctxs set_queue].
  destruct (ctxs pr !! y) as [c|]; [|done].
  destruct (hi (ra_ret_addr (c_ret_amo c))) as [h|]; [|intros H; cbn in H; discriminate H].
  destruct (bool_decide (h.1 + _ = 0)); [intros H0; cbn in H0; discriminate H0|].
  cbn [negb cassert mbind outcome_bind].
  rewrite !(bool_decide_true (0 = 0)) by done. cbn [negb]. intros H0. simplify_eq. eauto 10.
Qed.

(** ** Completions *)
Lemma process_local_inv b x is_send pr pr' :
  gdr_process_completion b (entry_of (ALocal x is_send)).1 (entry_of (ALocal x is_send)).2 pr = Ret (0, pr') ->
  exists y c c0, x = Some y /\ ctxs pr !! y = Some c0 /\ c_ep c = c_ep c0 /\
    pr' = set_queue (putToSend y (queue pr)) (set_ctx y c pr).
Proof.
  unfold gdr_process_completion. cbn [entry_of fst snd e_remote_cq_data e_context e_send e_rma].
  destruct x as [x|]; [|done].
  destruct (ctxs pr !! x) as [c0|] eqn:Ex; [|done]. destruct is_send; cbn [negb]; intros H; simplify_eq;
    refine (ex_intro _ x (ex_intro _ _ (ex_intro _ c0 (conj eq_refl (conj Ex (conj _ eq_refl)))))); reflexivity.
Qed.

Lemma process_ack_inv b src imm id pr pr' :
  is_ack imm = true ->
  gdr_process_completion b (entry_of (AImm src imm id)).1 (entry_of (AImm src imm id)).2 pr = Ret (0, pr') ->
  exists e, put_signal_ack_completion (ep b pr) (entry_of (AImm src imm id)).1 = Ret e /\ pr' = set_ep b e pr.
Proof.
  unfold gdr_process_completion, is_ack. cbn [entry_of fst snd e_remote_cq_data e_data].
  intros Ha. rewrite Ha. apply bool_decide_eq_true in Ha. rewrite Ha.
  rewrite bool_decide_false by (intros E; vm_compute in E; discriminate E).
  destruct (put_signal_ack_completion _ _) as [e|]; cbn [mbind outcome_bind]; [|done].
  intros H. simplify_eq. eauto.
Qed.

(** The new entry of the map of put-with-signal for an arrival. *)
Definition comp_entry (old : option (option Z * Z)) (x : option Z) (n : Z) : option Z * Z :=
  match old with
  | Some (first, k) => (match x with Some _ => x | None => first end, s32 (k + n))
  | None => (x, n)
  end.

(** What a matched arrival does to the process: the entry is updated, or it is
    complete and the operation is queued. *)
Definition match_arrival (b : bool) (key : Z) (x : option Z) (n : Z) (pr pr' : proc) : Prop :=
  let m := proxy_put_signal_comp_map (ep b pr) in
  let en := comp_entry (m !! key) x n in
  if bool_decide (en.2 = 0)
  then exists y, en.1 = Some y /\
         pr' = set_queue (putToRecv y RECV_TYPE_NOT_ACK (queue pr))
                 (set_ep b (set_comp_map (delete key m) (ep b pr)) pr)
  else pr' = set_ep b (set_comp_map (<[key := en]> m) (ep b pr)) pr.

Lemma process_write_inv b src imm id pr pr' :
  is_ack imm = false ->
  gdr_process_completion b (entry_of (AImm src imm id)).1 (entry_of (AImm src imm id)).2 pr = Ret (0, pr') ->
  match_arrival b (comp_map_key src imm) None (-1) pr pr'.
Proof.
  unfold gdr_process_completion, is_ack. cbn [entry_of fst snd e_remote_cq_data e_data].
  intros Ha. rewrite Ha. clear Ha. case_bool_decide; [|intros E; cbv beta iota in E; injection E as E _; vm_compute in E; discriminate E].
  unfold put_signal_completion. cbn [e_remote_cq_data e_data mbind outcome_bind].
  unfold match_arrival, comp_entry.
  destruct (proxy_put_signal_comp_map (ep b pr) !! comp_map_key src imm) as [[first k]|];
    cbn [fst snd]; case_bool_decide; try done.
  - destruct first as [y|]; [|done]. intros E. simplify_eq. eauto.
  - intros E. by simplify_eq.
  - intros E. by simplify_eq.
Qed.

(** Any other message is queued as it is; a signal is converted and matched. *)
Lemma process_recv_inv b src x pr pr' :
  gdr_process_completion b (entry_of (ARecv src x)).1 (entry_of (ARecv src x)).2 pr = Ret (0, pr') ->
  exists c0, ctxs pr !! x = Some c0 /\
    let c := MkCtx (c_type c0) (c_ep c0) (c_send_amo c0) (c_ret_amo c0) (c_signal c0) (Some src) in
    match c_type c0 with
    | NVSHMEMT_LIBFABRIC_MATCH =>
        exists pr1, pr1 = set_ctx x (inplace_copy_sig_op_to_gdr_op b c) (set_ctx x c pr) /\
        match_arrival b (comp_map_key src (si_sequence_count (c_signal c0))) (Some x)
                      (si_num_writes (c_signal c0)) pr1 pr'
    | t =>
        pr' = set_queue (putToRecv x (if bool_decide (t = NVSHMEMT_LIBFABRIC_ACK) then RECV_TYPE_ACK else RECV_TYPE_NOT_ACK)
                                   (queue pr))
                (set_ctx x (MkCtx (c_type c0) (Some b) (c_send_amo c0) (c_ret_amo c0) (c_signal c0) (Some src))
                   (set_ctx x c pr))
    end.
Proof.
  unfold gdr_process_completion. cbn [entry_of fst snd e_remote_cq_data e_context e_send e_rma e_recv].
  destruct (ctxs pr !! x) as [c0|]; [|done]. intros H. exists c0. split; [done|]. cbn [c_type] in *.
  destruct (c_type c0) eqn:Et.
  { rewrite !bool_decide_false in H by done. rewrite bool_decide_false by done. by simplify_eq. }
  { rewrite bool_decide_false, bool_decide_true in H by done. rewrite bool_decide_true by done. by simplify_eq. }
  rewrite bool_decide_true in H by done.
  eexists. split; [reflexivity|]. unfold put_signal_completion in H.
  cbn [e_remote_cq_data e_context ctxs set_ctx] in H. rewrite lookup_insert_eq in H. cbn [mbind outcome_bind c_signal] in H.
  unfold match_arrival, comp_entry. cbn [c_signal] in *.
  match type of H with context [proxy_put_signal_comp_map ?e !! ?k] =>
    destruct (proxy_put_signal_comp_map e !! k) as [[first k']|] end; cbn [fst snd] in *;
    case_bool_decide; simplify_eq; eauto.
Qed.
