(* ===== verification/LibfabricInv.v ===== *)
(** * The libfabric transport: accounting of operations under way

    Every operation that waits for an acknowledgement is followed by counting:
    for an endpoint [s], a target [d] and a tag, [nW] .. [nB] are the numbers of
    its writes and of its signal (or atomic, or acknowledgement) at every place
    of the system.  [kinv] says which combinations occur. *)
From stdpp Require Import base gmap list functions.
From S2P Require Import Prelude ProxyChannel Rma Libfabric LibfabricOps LibfabricNet.
Open Scope Z_scope.

(** ** The counter of sequence numbers

    The counter hands out numbers of two categories and waits, at the first
    number of a category, until every earlier number of that category was
    acknowledged.  [seq_ok c out] relates the counter to the numbers in use:
    every call keeps it, a number handed out is not in use, and no assertion of
    the counter fails. *)
Lemma get_index_spec n : get_index n = n mod 2 ^ 27.
Proof. change (get_index n) with (Z.land n (Z.ones 27)). by rewrite Z.land_ones by lia. Qed.

Lemma get_category_spec n : get_category n = (n / 2 ^ 27) mod 2.
Proof.
  unfold get_category. change category_mask with (2 ^ 27). change num_index_bits with 27.
  rewrite Z.shiftr_land. change (Z.shiftr (2 ^ 27) 27) with (Z.ones 1).
  rewrite Z.land_ones by lia. by rewrite Z.shiftr_div_pow2 by lia.
Qed.

Lemma sequence_step k : 0 <= k < 2 ^ 28 -> Z.land (u32 (k + 1)) sequence_mask = (k + 1) mod 2 ^ 28.
Proof.
  intros. change sequence_mask with (Z.ones 28). rewrite Z.land_ones by lia.
  rewrite wrap_small; [done | unfold in_u; lia].
Qed.

Lemma get_category_cases n : 0 <= n < 2 ^ 28 ->
  (get_category n = 0 /\ n < 2 ^ 27) \/ (get_category n = 1 /\ 2 ^ 27 <= n).
Proof.
  intros. rewrite get_category_spec.
  destruct (decide (n < 2 ^ 27)).
  - left. rewrite (Z.div_small n) by lia. done.
  - right. replace n with (n - 2 ^ 27 + 1 * 2 ^ 27) by lia. rewrite Z.div_add by lia.
    rewrite Z.div_small by lia. split; [reflexivity | lia].
Qed.

Lemma get_index_cases n : 0 <= n < 2 ^ 28 ->
  get_index n = if decide (n < 2 ^ 27) then n else n - 2 ^ 27.
Proof.
  intros. rewrite get_index_spec. case_decide; [apply Z.mod_small; lia|].
  replace n with (n - 2 ^ 27 + 1 * 2 ^ 27) at 1 by lia. rewrite Z.mod_add by lia. apply Z.mod_small; lia.
Qed.

(** The numbers of a category that are in use. *)
Definition in_category (k : Z) (out : list Z) : list Z := filter (fun n => get_category n = k) out.

Record seq_ok (c : seq_counter) (out : list Z) : Prop := {
  so_range : 0 <= sequence_counter c < 2 ^ 28;
  so_out : Forall (fun n => 0 <= n < NVSHMEM_STAGED_AMO_SEQ_NUM) out;
  so_nodup : NoDup out;
  so_pending : pending_acks c = [Z.of_nat (length (in_category 0 out)); Z.of_nat (length (in_category 1 out))];
  so_order : get_index (sequence_counter c) <> 0 ->
    Forall (fun n => get_category n = get_category (sequence_counter c) ->
                     n < sequence_counter c) out }.

Lemma seq_ok_reset : seq_ok reset [].
Proof. split; cbn [sequence_counter pending_acks reset]; first [lia | constructor]. Qed.

#[export] Instance in_category_proper k : Proper ((≡ₚ) ==> (≡ₚ)) (in_category k).
Proof. intros l l' H. unfold in_category. by rewrite H. Qed.

Lemma seq_ok_perm c out out' : out ≡ₚ out' -> seq_ok c out -> seq_ok c out'.
Proof.
  intros Hp [? ? ? Hpend Ho]. split; try done.
  - by rewrite <- Hp.
  - by rewrite <- Hp.
  - by rewrite Hpend, Hp.
  - intros Hi. rewrite <- Hp. auto.
Qed.

(** Distinct numbers of an interval are at most as many as the interval has. *)
Lemma length_interval (l : list Z) a b :
  NoDup l -> Forall (fun n => a <= n < b) l -> (length l <= Z.to_nat (b - a))%nat.
Proof.
  intros Hnd Hf. rewrite <- (length_seqZ a (b - a)).
  apply NoDup_incl_length; [by apply NoDup_ListNoDup|].
  intros x Hx. apply list_elem_of_In, elem_of_seqZ.
  apply list_elem_of_In in Hx. rewrite list.Forall_forall in Hf. specialize (Hf x Hx). lia.
Qed.

Lemma in_category_bound c out :
  seq_ok c out -> get_index (sequence_counter c) <> 0 ->
  Z.of_nat (length (in_category (get_category (sequence_counter c)) out)) <= get_index (sequence_counter c).
Proof.
  intros [Hr Ho Hnd Hp Hord] Hi. specialize (Hord Hi). rewrite list.Forall_forall in Hord, Ho.
  set (k := sequence_counter c) in *.
  assert (Hlen : (length (in_category (get_category k) out) <= Z.to_nat (k - 2 ^ 27 * get_category k))%nat).
  { apply length_interval; [by apply list.NoDup_filter|].
    apply list.Forall_forall. intros n [Hc Hn]%list_elem_of_filter.
    specialize (Hord n Hn Hc). specialize (Ho n Hn). change NVSHMEM_STAGED_AMO_SEQ_NUM with (2 ^ 28 - 1) in Ho.
    destruct (get_category_cases n ltac:(lia)) as [[E1 ?]|[E1 ?]], (get_category_cases k ltac:(lia)) as [[E2 ?]|[E2 ?]];
      rewrite E2 in *; lia. }
  rewrite (get_index_cases k Hr) in *.
  destruct (get_category_cases k Hr) as [[E ?]|[E ?]]; rewrite E in *; case_decide; lia.
Qed.

Lemma category_lookup (a b : Z) n : 0 <= n < 2 ^ 28 ->
  arr_get [a; b] (get_category n) = Ret (if bool_decide (get_category n = 0) then a else b).
Proof. intros H. destruct (get_category_cases n H) as [[-> _]|[-> _]]; reflexivity. Qed.

(** The effect of handing out [n]. *)
Lemma seq_ok_issue c out n k' :
  seq_ok (MkSeq n (pending_acks c)) out -> n <> NVSHMEM_STAGED_AMO_SEQ_NUM ->
  (get_index n = 0 -> in_category (get_category n) out = nil) ->
  k' = (n + 1) mod 2 ^ 28 ->
  (n ∉ out) /\
  seq_ok (MkSeq k' (<[Z.to_nat (get_category n) :=
                        Z.of_nat (S (length (in_category (get_category n) out)))]> (pending_acks c))) (n :: out).
Proof.
  intros [Hr Ho Hnd Hp Hord] Hres H0 ->. cbn [sequence_counter pending_acks] in *. change NVSHMEM_STAGED_AMO_SEQ_NUM with (2 ^ 28 - 1) in *.
  assert (Hn : n ∉ out).
  { intros Hin. destruct (decide (get_index n = 0)) as [E|E].
    - specialize (H0 E). assert (n ∈ in_category (get_category n) out) as Hx by (apply list_elem_of_filter; split; [reflexivity|exact Hin]).
      rewrite H0 in Hx. by apply elem_of_nil in Hx.
    - specialize (Hord E). rewrite list.Forall_forall in Hord. specialize (Hord n Hin eq_refl). lia. }
  split; [exact Hn|]. rewrite (Z.mod_small (n + 1)) by lia. split; cbn [sequence_counter pending_acks].
  - lia.
  - constructor; [change NVSHMEM_STAGED_AMO_SEQ_NUM with (2 ^ 28 - 1); lia | exact Ho].
  - constructor; [exact Hn | exact Hnd].
  - rewrite Hp. unfold in_category. rewrite !filter_cons.
    destruct (get_category_cases n Hr) as [[E _]|[E _]]; rewrite E; repeat case_decide; try lia; reflexivity.
  - intros Hi. constructor; [lia|]. rewrite list.Forall_forall in Hord, Ho |- *. intros m Hm Hc.
    specialize (Ho m Hm). rewrite (get_index_cases n Hr) in *. rewrite (get_index_cases (n + 1) ltac:(lia)) in Hi.
    destruct (get_category_cases m ltac:(lia)) as [[E1 ?]|[E1 ?]],
             (get_category_cases (n + 1) ltac:(lia)) as [[E2 ?]|[E2 ?]]; rewrite E1, E2 in *; try lia.
    + repeat case_decide; try lia.
      destruct (decide (n = 0)) as [->|]; [|].
      * assert (m ∈ in_category (get_category 0) out) as Hx by (apply list_elem_of_filter; split; [rewrite E1; reflexivity|exact Hm]).
        rewrite H0 in Hx by reflexivity. by apply elem_of_nil in Hx.
      * specialize (Hord ltac:(lia) m Hm). destruct (get_category_cases n Hr) as [[E ?]|[E ?]]; rewrite E in *; lia.
    + repeat case_decide; try lia.
      destruct (decide (n = 2 ^ 27)) as [->|].
      * assert (m ∈ in_category (get_category (2 ^ 27)) out) as Hx by (apply list_elem_of_filter; split; [rewrite E1; reflexivity|exact Hm]).
        rewrite H0 in Hx by (vm_compute; reflexivity). by apply elem_of_nil in Hx.
      * specialize (Hord ltac:(lia) m Hm). destruct (get_category_cases n Hr) as [[E ?]|[E ?]]; rewrite E in *; lia.
Qed.

(** The counter after the reserved number was skipped. *)
Definition skip_reserved (c : seq_counter) : seq_counter :=
  if bool_decide (sequence_counter c = NVSHMEM_STAGED_AMO_SEQ_NUM) then MkSeq 0 (pending_acks c) else c.

Lemma seq_ok_skip c out :
  seq_ok c out -> seq_ok (skip_reserved c) out /\ sequence_counter (skip_reserved c) <> NVSHMEM_STAGED_AMO_SEQ_NUM.
Proof.
  intros [Hr Ho Hnd Hp Hord]. unfold skip_reserved. case_bool_decide as E; [|by split].
  split; [|cbn [sequence_counter]; change NVSHMEM_STAGED_AMO_SEQ_NUM with (2 ^ 28 - 1); lia].
  split; cbn [sequence_counter pending_acks]; [lia | exact Ho | exact Hnd | exact Hp |].
  intros H. exfalso. by apply H.
Qed.

(** A call of [next_seq_num] returns: [-1] while the category is in use, and
    otherwise a number that is not in use and not the reserved one. *)
Lemma next_seq_num_spec c out :
  seq_ok c out ->
  exists n c', next_seq_num c = Ret (n, c') /\
    ((n = -1 /\ seq_ok c' out /\ in_category (get_category (sequence_counter c')) out <> nil) \/
     (0 <= n < NVSHMEM_STAGED_AMO_SEQ_NUM /\ (n ∉ out) /\ seq_ok c' (n :: out))).
Proof.
  intros Hok. destruct (seq_ok_skip c out Hok) as [Hs Hne]. unfold next_seq_num.
  replace (if bool_decide _ then _ else c) with (skip_reserved c); cycle 1.
  { unfold skip_reserved. case_bool_decide as E; [|done]. by rewrite E. }
  remember (skip_reserved c) as d eqn:Ed. clear Ed. destruct d as [n pend].
  pose proof Hs as [Hr Ho _ Hp _]. cbn [sequence_counter pending_acks] in *. rewrite Hp.
  rewrite (category_lookup _ _ n Hr), outcome_bind_ret.
  replace (if bool_decide (get_category n = 0) then _ else _)
    with (Z.of_nat (length (in_category (get_category n) out))); cycle 1.
  { destruct (get_category_cases n Hr) as [[-> _]|[-> _]]; reflexivity. }
  destruct (bool_decide (get_index n = 0) && _) eqn:Eb.
  - exists (-1). eexists. split; [reflexivity|]. left. split; [done|]. rewrite Hp in Hs. split; [exact Hs|].
    cbn [sequence_counter]. apply andb_prop in Eb as [_ Eb]. intros E. by rewrite E in Eb.
  - assert (H0 : get_index n = 0 -> in_category (get_category n) out = nil).
    { intros E. rewrite (bool_decide_true _ E) in Eb. simpl in Eb. apply negb_false_iff, bool_decide_eq_true in Eb.
      destruct (in_category (get_category n) out); [done | simpl in Eb; lia]. }
    assert (Hb : Z.of_nat (length (in_category (get_category n) out)) <= index_mask).
    { change index_mask with (2 ^ 27 - 1). destruct (decide (get_index n = 0)) as [E|E].
      - rewrite (H0 E). cbn [length]. lia.
      - pose proof (in_category_bound _ _ Hs E) as Hle. cbn [sequence_counter] in Hle.
        rewrite get_index_spec in Hle. pose proof (Z.mod_pos_bound n (2 ^ 27) ltac:(lia)). lia. }
    rewrite (bool_decide_true _ Hb). simpl cassert. rewrite outcome_bind_ret.
    do 2 eexists. split; [reflexivity|]. right.
    destruct (seq_ok_issue (MkSeq n pend) out n _ Hs Hne H0 eq_refl) as [Hnin Hs'].
    split; [change NVSHMEM_STAGED_AMO_SEQ_NUM with (2 ^ 28 - 1) in *; lia|]. split; [exact Hnin|].
    rewrite (sequence_step n Hr). cbn [pending_acks] in Hs'. rewrite Hp in Hs'.
    rewrite wrap_small; [|unfold in_u; change index_mask with (2 ^ 27 - 1) in Hb; lia].
    by replace (Z.of_nat (S (length (in_category (get_category n) out))))
      with (Z.of_nat (length (in_category (get_category n) out)) + 1) in Hs' by lia.
Qed.

(** A number in use can be returned, and only it leaves. *)
Lemma return_acked_spec c out out' n :
  seq_ok c out -> out ≡ₚ n :: out' ->
  exists c', return_acked_seq_num c n = Ret c' /\ seq_ok c' out'.
Proof.
  intros Hok Hp. apply (seq_ok_perm _ _ _ Hp) in Hok. clear Hp out.
  destruct Hok as [Hr Ho Hnd Hpe Hord]. apply list.Forall_cons in Ho as [Hn Ho].
  change NVSHMEM_STAGED_AMO_SEQ_NUM with (2 ^ 28 - 1) in Hn.
  unfold return_acked_seq_num. rewrite (bool_decide_false (n = NVSHMEM_STAGED_AMO_SEQ_NUM)); cycle 1.
  { change NVSHMEM_STAGED_AMO_SEQ_NUM with (2 ^ 28 - 1). lia. }
  simpl cassert. rewrite outcome_bind_ret, Hpe, (category_lookup _ _ n ltac:(lia)), outcome_bind_ret.
  unfold in_category in *. rewrite !filter_cons in *.
  destruct (get_category_cases n ltac:(lia)) as [[E _]|[E _]]; rewrite E in *;
    [rewrite (bool_decide_true (0 = 0)) by lia; destruct (decide (0 = 0)); [|done]; destruct (decide (0 = 1)); [done|]
    |rewrite (bool_decide_false (1 = 0)) by lia; destruct (decide (1 = 0)); [done|]; destruct (decide (1 = 1)); [|done]];
    (rewrite bool_decide_true by (cbn [length]; lia); simpl cassert; rewrite outcome_bind_ret;
     eexists; split; [reflexivity|]; split; cbn [sequence_counter pending_acks];
     [exact Hr | exact Ho | by apply list.NoDup_cons in Hnd as [_ ?]
     | | intros Hi; specialize (Hord Hi); by apply list.Forall_cons in Hord as [_ ?]]);
    cbn [length]; rewrite Nat2Z.inj_succ, Z.sub_1_r, Z.pred_succ; reflexivity.
Qed.

(** ** The accounting *)
(** ** Counting *)
Definition b2n (b : bool) : nat := if b then 1 else 0.
Fixpoint cnt {A} (P : A -> bool) (l : list A) : nat :=
  match l with [] => 0 | x :: l => b2n (P x) + cnt P l end.

Lemma cnt_app {A} (P : A -> bool) l1 l2 : cnt P (l1 ++ l2) = (cnt P l1 + cnt P l2)%nat.
Proof. induction l1; simpl; lia. Qed.
Lemma cnt_in {A} (P : A -> bool) l x : x ∈ l -> P x = true -> (1 <= cnt P l)%nat.
Proof.
  induction l as [|a l IH]; intros Hx E; [by apply elem_of_nil in Hx|].
  apply elem_of_cons in Hx as [->|Hx]; simpl; [rewrite E; simpl; lia|]. specialize (IH Hx E). lia.
Qed.
Lemma cnt_pos {A} (P : A -> bool) l : (1 <= cnt P l)%nat -> exists x, x ∈ l /\ P x = true.
Proof.
  induction l as [|a l IH]; simpl; [lia|]. destruct (P a) eqn:E; simpl; intros H.
  - exists a. split; [left | done].
  - destruct (IH H) as (x & Hx & ?). exists x. split; [by right | done].
Qed.
Lemma cnt_ext {A} (P Q : A -> bool) l : (forall x, x ∈ l -> P x = Q x) -> cnt P l = cnt Q l.
Proof.
  induction l as [|a l IH]; simpl; intros H; [done|]. rewrite (H a) by left.
  rewrite IH; [done|]. intros x Hx. apply H. by right.
Qed.
Lemma cnt_zero {A} (P : A -> bool) l : (forall x, x ∈ l -> P x = false) -> cnt P l = 0%nat.
Proof. intros H. destruct (cnt P l) eqn:E; [done|]. destruct (cnt_pos P l) as (x & Hx & Hp); [lia|]. by rewrite (H x Hx) in Hp. Qed.
Lemma cnt_length {A} (l : list A) : cnt (fun _ => true) l = length l.
Proof. induction l; simpl; [done | by rewrite IHl]. Qed.

#[export] Hint Rewrite @cnt_app : lfproj.

(** ** Where the parts of an operation are *)
Definition msg_tag (f : flight) : option tag :=
  match f_body f with
  | BMsg (WSig sg) => Some (inl (si_sequence_count sg))
  | BMsg (WAmo _) => Some (inr (f_id f))
  | _ => None
  end.

Definition fw (s d : Z) (t : tag) (f : flight) : bool :=
  match t, f_body f with
  | inl n, BWrite (Some imm) _ => negb (is_ack imm) && bool_decide (f_src f = s /\ f_dst f = d /\ imm = n)
  | _, _ => false
  end.
Definition fs (s d : Z) (t : tag) (f : flight) : bool :=
  bool_decide (msg_tag f = Some t /\ f_src f = s /\ f_dst f = d).
Definition fa (s d : Z) (t : tag) (f : flight) : bool :=
  match f_body f with
  | BWrite (Some imm) _ => is_ack imm && bool_decide (f_src f = d /\ f_dst f = s /\ ack_tag (imm_seq imm) (f_id f) = t)
  | _ => false
  end.

Definition aw (s d : Z) (t : tag) (ea : Z * arrival) : bool :=
  match t, ea.2 with
  | inl n, AImm src imm _ => negb (is_ack imm) && bool_decide (src = s /\ ea.1 = d /\ imm = n)
  | _, _ => false
  end.
Definition held (own : Z -> option flight) (s d : Z) (t : tag) (x : Z) : bool :=
  match own x with Some f => fs s d t f | None => false end.
Definition ar (own : Z -> Z -> option flight) (s d : Z) (t : tag) (ea : Z * arrival) : bool :=
  match ea.2 with ARecv _ x => held (own (pe_of ea.1)) s d t x | _ => false end.
Definition aa (s d : Z) (t : tag) (ea : Z * arrival) : bool :=
  match ea.2 with
  | AImm src imm id => is_ack imm && bool_decide (src = d /\ ea.1 = s /\ ack_tag (imm_seq imm) id = t)
  | _ => false
  end.

(** The call in progress that still has the signal to send, and the writes it
    has left. *)
Definition in_tx (s d : Z) (t : tag) (c : option tx_call) : bool :=
  match t, c with
  | inl n, Some c => bool_decide (tc_seq c = n /\ target_ep (tc_pe c) (is_proxy_of s) = d)
  | _, _ => false
  end.
Definition tx_rem (s d : Z) (t : tag) (c : option tx_call) : nat :=
  if in_tx s d t c then match c with Some c => length (tc_rem c) | None => 0 end else 0.
Definition in_rx (s d : Z) (t : tag) (r : option (flight * amo_reply)) : bool :=
  match r with Some (f, _) => fs s d t f | None => false end.

(** The entry of the map at the target: whether it has the signal, and the count. *)
Definition map_entry (s : Z) (t : tag) (e : endpoint) : option (bool * Z) :=
  match t with
  | inl n => (fun en : option Z * Z => (bool_decide (is_Some en.1), en.2)) <$>
               (proxy_put_signal_comp_map e !! comp_map_key s n)
  | inr _ => None
  end.

Definition ep_at (w : world) (a : Z) : endpoint := ep (is_proxy_of a) (procs w (pe_of a)).

(** The number of writes of the operation with a tag, where it is for [d]. *)
Definition op_writes (m : gmap tag pending_op) (d : Z) (t : tag) : option nat :=
  match m !! t with
  | Some o => if bool_decide (o_dst o = d) then Some (length (o_writes o)) else None
  | None => None
  end.

(** The combinations that occur: one signal (or its acknowledgement) at one of
    the places, writes not yet handled [rem + W + C], and an entry of the map
    that agrees with them. *)
Definition kinv (o : option nat) (T rem W C S R : nat) (M : option (bool * Z)) (Q X A B : nat) : Prop :=
  match o with
  | None => T = 0%nat /\ rem = 0%nat /\ W = 0%nat /\ C = 0%nat /\ S = 0%nat /\ R = 0%nat /\ M = None /\
            Q = 0%nat /\ X = 0%nat /\ A = 0%nat /\ B = 0%nat
  | Some nw =>
      (T = 0 -> rem = 0)%nat /\
      match M with
      | None => (T + S + R + Q + X + A + B = 1 /\
                 ((T + S + R = 1 /\ rem + W + C = nw) \/ (T + S + R = 0 /\ rem + W + C = 0)))%nat
      | Some (false, k) => (T + S + R = 1 /\ Q + X + A + B = 0 /\ rem + W + C < nw)%nat /\
                           k = Z.of_nat (rem + W + C) - Z.of_nat nw
      | Some (true, k) => (T + S + R = 0 /\ Q + X + A + B = 0 /\ 0 < rem + W + C <= nw)%nat /\
                          k = Z.of_nat (rem + W + C)
      end
  end.

Definition kview (w : world) (s d : Z) (t : tag) : Prop :=
  kinv (op_writes (outs w s) d t)
    (b2n (in_tx s d t (tx w s))) (tx_rem s d t (tx w s))
    (cnt (fw s d t) (net w)) (cnt (aw s d t) (cq w))
    (cnt (fs s d t) (net w)) (cnt (ar (own w) s d t) (cq w))
    (map_entry s t (ep_at w d))
    (cnt (held (own w (pe_of d)) s d t) (q_other_recv (queue (procs w (pe_of d)))))
    (b2n (in_rx s d t (rx w (pe_of d))))
    (cnt (fa s d t) (net w)) (cnt (aa s d t) (cq w)).

(** ** Addresses and keys *)
Lemma target_ep_pe p b : pe_of (target_ep p b) = p.
Proof.
  unfold pe_of, target_ep, ep_idx, NVSHMEMT_LIBFABRIC_DEFAULT_NUM_EPS.
  destruct b; unfold NVSHMEMT_LIBFABRIC_PROXY_EP_IDX, NVSHMEMT_LIBFABRIC_HOST_EP_IDX;
    rewrite Z.div_add_l by lia; [change (1 / 2) with 0 | change (0 / 2) with 0]; lia.
Qed.
Lemma target_ep_proxy p b : is_proxy_of (target_ep p b) = b.
Proof.
  unfold is_proxy_of, target_ep, ep_idx, NVSHMEMT_LIBFABRIC_DEFAULT_NUM_EPS.
  rewrite Z.add_comm, Z.mod_add by lia. by destruct b.
Qed.
Lemma target_ep_eta a : target_ep (pe_of a) (is_proxy_of a) = a.
Proof.
  unfold target_ep, pe_of, is_proxy_of, ep_idx, NVSHMEMT_LIBFABRIC_DEFAULT_NUM_EPS,
    NVSHMEMT_LIBFABRIC_PROXY_EP_IDX, NVSHMEMT_LIBFABRIC_HOST_EP_IDX.
  pose proof (Z.div_mod a 2 ltac:(lia)). pose proof (Z.mod_pos_bound a 2 ltac:(lia)).
  case_bool_decide; lia.
Qed.
Lemma target_ep_valid p b : valid_pe p -> valid_ep (target_ep p b).
Proof.
  unfold valid_pe, valid_ep, target_ep, ep_idx, NVSHMEMT_LIBFABRIC_DEFAULT_NUM_EPS,
    NVSHMEMT_LIBFABRIC_PROXY_EP_IDX, NVSHMEMT_LIBFABRIC_HOST_EP_IDX. destruct b; lia.
Qed.
Lemma pe_of_valid a : valid_ep a -> valid_pe (pe_of a).
Proof.
  unfold valid_ep, valid_pe, pe_of. intros [? ?]. split; [apply Z.div_pos; lia | apply Z.div_lt_upper_bound; lia].
Qed.
Lemma target_ep_inj p b p' b' : target_ep p b = target_ep p' b' -> p = p' /\ b = b'.
Proof.
  intros E. split; [by rewrite <- (target_ep_pe p b), E, target_ep_pe|].
  by rewrite <- (target_ep_proxy p b), E, target_ep_proxy.
Qed.
#[export] Hint Rewrite target_ep_pe target_ep_proxy : lfproj.

Lemma comp_map_key_add s n : valid_ep s -> 0 <= n < 2 ^ 32 -> comp_map_key s n = s * 2 ^ 32 + n.
Proof.
  intros [? ?] Hn. unfold comp_map_key. rewrite (wrap_small 32 n) by done.
  rewrite Z.shiftl_mul_pow2 by lia. rewrite wrap_small by (unfold in_u; lia).
  rewrite <- Z.add_lor_land.
  replace (Z.land (s * 2 ^ 32) n) with 0; [lia|]. symmetry. apply Z.bits_inj'. intros i Hi.
  rewrite Z.land_spec, Z.bits_0. destruct (decide (i < 32)).
  - by rewrite Z.mul_pow2_bits_low by lia.
  - rewrite (Z.bits_above_log2 n i); [by rewrite andb_false_r | lia |].
    destruct (decide (n = 0)) as [->|]; [simpl; lia|]. apply Z.log2_lt_pow2; [lia|].
    apply Z.lt_le_trans with (2 ^ 32); [lia|]. apply Z.pow_le_mono_r; lia.
Qed.
Lemma comp_map_key_inj s n s' n' :
  valid_ep s -> valid_ep s' -> 0 <= n < 2 ^ 32 -> 0 <= n' < 2 ^ 32 ->
  comp_map_key s n = comp_map_key s' n' -> s = s' /\ n = n'.
Proof. intros. rewrite !comp_map_key_add in * by done. lia. Qed.

(** An acknowledgement carries its header and its sequence number. *)
Lemma ack_imm_seq q : 0 <= q < 2 ^ 28 -> imm_seq (Z.lor (2 ^ 28) q) = q /\ is_ack (Z.lor (2 ^ 28) q) = true.
Proof.
  intros Hq. assert (E : Z.lor (2 ^ 28) q = q + 1 * 2 ^ 28).
  { transitivity (2 ^ 28 + q); [|lia]. rewrite <- Z.add_lor_land.
    replace (Z.land (2 ^ 28) q) with 0; [lia|]. symmetry. apply Z.bits_inj'. intros i Hi. rewrite Z.land_spec, Z.bits_0, Z.pow2_bits_eqb by lia.
    destruct (Z.eqb_spec 28 i) as [<-|]; [|done]. destruct (decide (q = 0)) as [->|]; [done|].
    rewrite (Z.bits_above_log2 q 28); [done | lia |]. apply Z.log2_lt_pow2; lia. }
  unfold imm_seq, is_ack, nvshmemt_get_write_with_imm_hdr. rewrite E. split.
  - change NVSHMEM_STAGED_AMO_PUT_SIGNAL_SEQ_CNTR_BIT_MASK with (Z.ones 28).
    rewrite Z.land_ones, Z.mod_add by lia. by apply Z.mod_small.
  - rewrite wrap_small by (unfold in_u; lia).
    rewrite Z.shiftr_div_pow2 by done.
    change NVSHMEM_STAGED_AMO_PUT_SIGNAL_SEQ_CNTR_BIT_SHIFT with 28. rewrite Z.div_add by lia. rewrite (Z.div_small q) by lia. done.
Qed.
Lemma seq_imm_not_ack n : 0 <= n < NVSHMEM_STAGED_AMO_SEQ_NUM -> is_ack n = false.
Proof.
  change NVSHMEM_STAGED_AMO_SEQ_NUM with (2 ^ 28 - 1). intros Hn.
  unfold is_ack, nvshmemt_get_write_with_imm_hdr. rewrite wrap_small by (unfold in_u; lia).
  rewrite Z.shiftr_div_pow2 by done. change NVSHMEM_STAGED_AMO_PUT_SIGNAL_SEQ_CNTR_BIT_SHIFT with 28.
  by rewrite Z.div_small by (change (2 ^ 28) with 268435456 in *; lia).
Qed.

(** ** Contexts are never used twice

    [pcount w p x] counts the places of process [p] that hold the context [x]:
    posted as a receive, in a completion not handled, in a map of
    put-with-signal, in one of the queues, in an operation under way, or held by
    the atomic being answered.  No step increases it, so a receive buffer is
    never posted while its message is in use, and a send context is never
    reused while its operation is under way. *)


Definition isx (x y : Z) : bool := bool_decide (y = x).
(** The context of an operation; the consistency read has none. *)
Definition isox (x : Z) (y : option Z) : bool := match y with Some y => isx x y | None => false end.
Definition has_ptr (x : Z) (kv : Z * (option Z * Z)) : bool := bool_decide (kv.2.1 = Some x).
Definition map_ptrs (x : Z) (m : gmap Z (option Z * Z)) : nat := cnt (has_ptr x) (map_to_list m).
Definition in_posted (p x : Z) (ax : Z * Z) : bool := bool_decide (pe_of ax.1 = p) && isx x ax.2.
Definition in_cq (p x : Z) (ea : Z * arrival) : bool :=
  bool_decide (pe_of ea.1 = p) &&
  match ea.2 with ARecv _ y => isx x y | ALocal y _ => isox x y | AImm _ _ _ => false end.
Definition in_net (p x : Z) (f : flight) : bool := bool_decide (pe_of (f_src f) = p) && isox x (f_ctx f).
Definition rx_elems (r : option (flight * amo_reply)) : list Z :=
  match r with Some (_, r) => rp_elems r | None => [] end.

(** The contexts a process itself holds. *)
Definition proc_ptrs (x : Z) (pr : proc) : nat :=
  map_ptrs x (proxy_put_signal_comp_map (ep false pr)) + map_ptrs x (proxy_put_signal_comp_map (ep true pr)) +
  cnt (isx x) (q_send (queue pr)) + cnt (isx x) (q_ack_recv (queue pr)) + cnt (isx x) (q_other_recv (queue pr)).

Definition pcount (w : world) (p x : Z) : nat :=
  cnt (in_posted p x) (posted w) + cnt (in_cq p x) (cq w) + proc_ptrs x (procs w p) +
  cnt (in_net p x) (net w) + cnt (isx x) (rx_elems (rx w p)).

(** ** Entries of the map *)
Lemma cnt_perm {A} (P : A -> bool) l l' : l ≡ₚ l' -> cnt P l = cnt P l'.
Proof. induction 1; simpl; lia. Qed.

Definition opt_ptr (x : Z) (en : option (option Z * Z)) : nat :=
  match en with Some (Some y, _) => b2n (isx x y) | _ => 0 end.

Lemma b2n_has_ptr x k en : b2n (has_ptr x (k, en)) = opt_ptr x (Some en).
Proof.
  destruct en as [[y|] n]; unfold has_ptr, opt_ptr, isx; simpl; [|done].
  repeat case_bool_decide; simplify_eq; done.
Qed.

Lemma map_ptrs_delete x k m : (map_ptrs x (delete k m) + opt_ptr x (m !! k) = map_ptrs x m)%nat.
Proof.
  destruct (m !! k) as [en|] eqn:E.
  - unfold map_ptrs. rewrite <- (cnt_perm _ _ _ (map_to_list_delete m k en E)). cbn [cnt].
    rewrite b2n_has_ptr. lia.
  - rewrite delete_id by done. simpl. lia.
Qed.

Lemma map_ptrs_insert x k en m :
  (map_ptrs x (<[k := en]> m) + opt_ptr x (m !! k) = map_ptrs x m + opt_ptr x (Some en))%nat.
Proof.
  rewrite <- (map_ptrs_delete x k m). rewrite <- (insert_delete_eq m k en). unfold map_ptrs at 1.
  rewrite (cnt_perm _ _ _ (map_to_list_insert (delete k m) k en (lookup_delete_eq m k))). cbn [cnt].
  rewrite b2n_has_ptr. unfold map_ptrs. lia.
Qed.

Lemma map_ptrs_lookup x k m n : m !! k = Some (Some x, n) -> (1 <= map_ptrs x m)%nat.
Proof.
  intros E. apply (cnt_in _ _ (k, (Some x, n))); [by apply elem_of_map_to_list|]. by apply bool_decide_true.
Qed.

(** ** Handlers *)
Lemma proc_ptrs_set_ctx x y c pr : proc_ptrs x (set_ctx y c pr) = proc_ptrs x pr.
Proof. reflexivity. Qed.
Lemma proc_ptrs_set_mem x a v pr : proc_ptrs x (set_mem a v pr) = proc_ptrs x pr.
Proof. reflexivity. Qed.
Lemma proc_ptrs_set_ep x b e pr :
  proxy_put_signal_comp_map e = proxy_put_signal_comp_map (ep b pr) ->
  proc_ptrs x (set_ep b e pr) = proc_ptrs x pr.
Proof. intros E. unfold proc_ptrs. destruct b; cbn [ep set_ep ep_host ep_proxy queue] in *; by rewrite E. Qed.

Lemma proc_ptrs_post x b n y l pr :
  q_send (queue pr) = y :: l -> proc_ptrs x pr = (proc_ptrs x (after_post b n l pr) + b2n (isx x y))%nat.
Proof.
  intros E. unfold after_post. rewrite proc_ptrs_set_ep by (by destruct b).
  unfold proc_ptrs. rewrite E. cbn [set_queue queue q_send q_ack_recv q_other_recv cnt].
  rewrite !ep_set_queue. lia.
Qed.

(** Matching an arrival adds the pointer it brings and drops none. *)
Lemma proc_ptrs_match z b key x n pr pr' :
  match_arrival b key x n pr pr' ->
  (proc_ptrs z pr' <= proc_ptrs z pr + opt_ptr z (Some (x, n)))%nat.
Proof.
  unfold match_arrival. set (m := proxy_put_signal_comp_map (ep b pr)). intros H.
  pose proof (map_ptrs_delete z key m) as Hd.
  assert (Hen : (opt_ptr z (Some (comp_entry (m !! key) x n)) <= opt_ptr z (m !! key) + opt_ptr z (Some (x, n)))%nat).
  { unfold comp_entry, opt_ptr. destruct (m !! key) as [[[y|] k]|], x; lia. }
  case_bool_decide.
  - destruct H as (y & Ey & ->). rewrite (surjective_pairing (comp_entry _ _ _)), Ey in Hen. cbn [opt_ptr] in Hen.
    unfold proc_ptrs, putToRecv. cbn [set_queue queue q_send q_ack_recv q_other_recv]. rewrite !ep_set_queue, cnt_app.
    cbn [cnt].
    destruct b; cbn [ep set_ep ep_host ep_proxy proxy_put_signal_comp_map set_comp_map queue] in *; subst m;
      unfold opt_ptr in *; lia.
  - subst pr'. pose proof (map_ptrs_insert z key (comp_entry (m !! key) x n) m) as Hi.
    unfold proc_ptrs. rewrite queue_set_ep.
    destruct b; cbn [ep set_ep ep_host ep_proxy proxy_put_signal_comp_map set_comp_map] in *; subst m; lia.
Qed.

(** ** Steps *)
Ltac fn_case :=
  repeat match goal with
  | |- context [(<[?i := ?v]> ?f) ?j] =>
      destruct (decide (i = j)) as [<-|]; [rewrite fn_lookup_insert | rewrite fn_lookup_insert_ne by done]
  end.
(** Everything a step adds to or takes from the lists, as a sum. *)
Ltac count_step :=
  unfold pcount in *; cbn [net cq posted rx procs] in *;
  repeat match goal with
  | H : net _ = _ |- _ => rewrite H; clear H
  | H : cq _ = _ |- _ => rewrite H; clear H
  | H : posted _ = _ |- _ => rewrite H; clear H
  end;
  rewrite ?cnt_app; cbn [cnt];
  unfold in_posted, in_cq, in_net; cbn [fst snd f_src f_ctx with_body]; rewrite ?target_ep_pe.

Section steps.
Context {handle_info : Z -> option (Z * Z)} {use_gdrcopy : bool} {ack_addr ack_key : Z -> Z} {mr_key : Z -> bool -> Z}.
Abbreviation step := (step handle_info use_gdrcopy ack_addr ack_key mr_key).

(** A handler that posts with the first free context. *)
Lemma count_post x p q y pr pr' :
  proc_ptrs x pr = (proc_ptrs x pr' + b2n (isx x y))%nat ->
  forall P : Z -> proc, P p = pr ->
  (proc_ptrs x ((<[p := pr']> P) q) + b2n (bool_decide (p = q) && isx x y) = proc_ptrs x (P q))%nat.
Proof.
  intros E P HP. destruct (decide (p = q)) as [<-|].
  - rewrite fn_lookup_insert, bool_decide_true by done. rewrite HP. simpl. lia.
  - rewrite fn_lookup_insert_ne, bool_decide_false by done. simpl. lia.
Qed.

Lemma count_same x p q pr' (P : Z -> proc) :
  proc_ptrs x pr' = proc_ptrs x (P p) -> proc_ptrs x ((<[p := pr']> P) q) = proc_ptrs x (P q).
Proof. intros E. by fn_case. Qed.

Lemma count_cq x e a pr pr' :
  gdr_process_completion (is_proxy_of e) (entry_of a).1 (entry_of a).2 pr = Ret (0, pr') ->
  (proc_ptrs x pr' <= proc_ptrs x pr +
     b2n (match a with ARecv _ y => isx x y | ALocal y _ => isox x y | AImm _ _ _ => false end))%nat.
Proof.
  intros H. destruct a as [src imm id|src y|y is_send].
  - destruct (is_ack imm) eqn:Ea.
    + apply process_ack_inv in H as (e' & He & ->); [|done]. rewrite proc_ptrs_set_ep; [simpl; lia|].
      unfold put_signal_ack_completion in He. destruct (if negb _ then _ else _); [|done].
      cbn [mbind outcome_bind] in He. by simplify_eq.
    + apply process_write_inv in H; [|done]. apply (proc_ptrs_match x) in H. simpl in *. lia.
  - apply process_recv_inv in H as (c0 & _ & H). cbv zeta in H.
    destruct (c_type c0).
    + subst pr'. unfold proc_ptrs. rewrite bool_decide_false by done.
      cbn [set_queue set_ctx queue putToRecv q_send q_ack_recv q_other_recv]. rewrite cnt_app. cbn [cnt].
      rewrite !ep_set_queue, !ep_set_ctx. lia.
    + subst pr'. unfold proc_ptrs. rewrite bool_decide_true by done.
      cbn [set_queue set_ctx queue putToRecv q_send q_ack_recv q_other_recv]. rewrite cnt_app. cbn [cnt].
      rewrite !ep_set_queue, !ep_set_ctx. lia.
    + destruct H as (pr1 & -> & H). apply (proc_ptrs_match x) in H. rewrite !proc_ptrs_set_ctx in H. exact H.
  - apply process_local_inv in H as (x' & c & c0 & -> & _ & _ & ->). unfold proc_ptrs, putToSend.
    cbn [set_queue set_ctx queue q_send q_ack_recv q_other_recv cnt isox].
    rewrite !ep_set_queue, !ep_set_ctx. lia.
Qed.

Lemma step_pcount w w' p x : step w w' -> (pcount w' p x <= pcount w p x)%nat.
Proof.
  destruct 1 as [q b pr ? ? H|q b dpe writes op sig n pr ? ? ? H ?|q b c d rem pr ps ? ? ? H|q b c pr ps ? ? ? H
    |q b dpe op remote sz pr ps ? ? ? H|q b dpe verb remote bytes pr ps ? ? ? H|q key pr ps ? ? H|l1 l2 f imm range Hn Hb|l1 l2 f Hn Hb
    |l1 l2 f m q1 q2 y c Hn Hb Hp Hc|l1 l2 f is_send Hn Hb|l1 l2 e a pr Hq H|q elems y pr1 c n width r pr2 ps f ? Hrx Hg Hc Hs Hw H Ho
    |q f r r' pr ps ? Hrx Hf H|q f r pr ps ? Hrx Hf H|q y c b pr ? Hy Hc He H].
  - apply put_signal_seq_inv in H as (c & _ & ->). count_step.
    rewrite count_same; [lia|]. by rewrite proc_ptrs_set_ep by (by destruct b).
  - apply put_signal_seq_inv in H as (c & _ & ->). count_step.
    rewrite count_same; [lia|]. by rewrite proc_ptrs_set_ep by (by destruct b).
  - apply put_write_inv in H as (y & l & key & Hs & -> & ->). count_step.
    pose proof (count_post x q p y _ _ (proc_ptrs_post x b 1 y l _ Hs) (procs w) eq_refl). cbn. rewrite target_ep_pe. lia.
  - apply gdr_signal_inv in H as (y & l & c' & sg & Hs & -> & -> & _). count_step.
    pose proof (count_post x q p y _ (set_ctx y c' _) (proc_ptrs_post x b 2 y l _ Hs) (procs w) eq_refl).
    cbn. rewrite target_ep_pe. lia.
  - apply gdr_amo_inv in H as (y & l & c' & a & Hs & -> & -> & _). count_step.
    pose proof (count_post x q p y _ (set_ctx y c' _) (proc_ptrs_post x b 2 y l _ Hs) (procs w) eq_refl).
    cbn. rewrite target_ep_pe. lia.
  - apply rma_impl_inv in H as (y & l & po & Hs & -> & -> & Hpo). count_step.
    pose proof (count_post x q p y _ _ (proc_ptrs_post x b 1 y l _ Hs) (procs w) eq_refl).
    destruct Hpo as [(key & len & addr & ->)|(key & len & addr & -> & _)]; cbn; rewrite target_ep_pe; lia.
  - apply enforce_cst_inv in H as [-> ->]. count_step. rewrite count_same by (by rewrite proc_ptrs_set_ep).
    cbn. rewrite andb_false_r. cbn. lia.
  - count_step. destruct imm; simpl; rewrite ?andb_false_r; simpl; lia.
  - count_step. lia.
  - count_step. rewrite count_same by done. lia.
  - count_step. rewrite count_same; [lia|]. unfold count_completion. by rewrite proc_ptrs_set_ep.
  - count_step. apply (count_cq x) in H.
    destruct (decide (pe_of e = p)) as [<-|].
    + rewrite fn_lookup_insert, bool_decide_true by done. cbn [andb]. lia.
    + rewrite fn_lookup_insert_ne, bool_decide_false by done. cbn [andb b2n]. lia.
  - apply getNextAmoOps_inv in Hg as (l & sends & Hl & Hse & ->).
    apply amo_apply_inv in H as (c' & b & a & v & _ & _ & -> & Hr & _). count_step.
    destruct (decide (q = p)) as [<-|].
    + rewrite !fn_lookup_insert, bool_decide_true, Hrx by done. rewrite Hr. cbn [rx_elems rp_elems cnt].
      unfold proc_ptrs. rewrite Hl, Hse. cbn [set_mem set_queue queue q_send q_ack_recv q_other_recv cnt].
      rewrite !ep_set_mem, !ep_set_queue, cnt_app. cbn [andb]. lia.
    + rewrite !fn_lookup_insert_ne, bool_decide_false by done. cbn [andb b2n]. lia.
  - apply amo_respond_inv in H as (y & elems & ret & b & c & c0 & cx & He & _ & _ & _ & _ & -> & -> & ->); [|done].
    count_step. destruct (rp_src_addr r); cbn; rewrite ?target_ep_pe;
      rewrite count_same by (by rewrite proc_ptrs_set_ep by (by rewrite ep_set_ctx; destruct b));
      (destruct (decide (q = p)) as [<-|];
       [rewrite !fn_lookup_insert, ?bool_decide_true by done; rewrite Hrx; cbn [rx_elems rp_elems]; rewrite He; cbn [cnt andb]; lia
       |rewrite !fn_lookup_insert_ne, ?bool_decide_false by done; cbn [andb b2n]; lia]).
  - apply gdrcopy_amo_ack_inv in H as (y & elems & addr & key & He & -> & ->).
    count_step. destruct (rp_src_addr r); cbn; rewrite ?target_ep_pe;
      rewrite count_same by (by rewrite proc_ptrs_set_ep by (by destruct (rp_ep r)));
      (destruct (decide (q = p)) as [<-|];
       [rewrite !fn_lookup_insert, ?bool_decide_true by done; rewrite Hrx; cbn [rx_elems rp_elems]; rewrite He; cbn [cnt andb]; lia
       |rewrite !fn_lookup_insert_ne, ?bool_decide_false by done; cbn [andb b2n]; lia]).
  - apply gdr_process_amos_ack_turn_inv in H as (l & a1 & v1 & a2 & v2 & Hl & ->). count_step.
    destruct (decide (q = p)) as [<-|].
    + rewrite fn_lookup_insert, bool_decide_true by done. rewrite !proc_ptrs_set_mem. unfold proc_ptrs. rewrite Hl.
      cbn [set_queue queue q_send q_ack_recv q_other_recv cnt andb]. rewrite !ep_set_queue. lia.
    + rewrite fn_lookup_insert_ne, bool_decide_false by done. cbn [andb b2n]. lia.
Qed.

Lemma initial_pcount w p x : initial w -> (pcount w p x <= 1)%nat.
Proof.
  intros [Hn Hc _ _ Hr _ He _ Hq Hv _ _ Hd]. unfold pcount, proc_ptrs. rewrite Hn, Hc, Hr.
  destruct (Hq p) as [-> ->], (He p false) as (_ & _ & _ & _ & ->), (He p true) as (_ & _ & _ & _ & ->).
  cbn [rx_elems cnt]. unfold map_ptrs. rewrite map_to_list_empty. cbn [cnt]. specialize (Hd p).
  assert (Hle : forall l : list Z, NoDup l -> (cnt (isx x) l <= 1)%nat).
  { induction 1 as [|y l Hy Hl IH]; simpl; [lia|]. unfold isx at 1. case_bool_decide as E; simpl; [|lia].
    subst y. rewrite cnt_zero; [lia|]. intros z Hz. apply bool_decide_false. by intros ->. }
  specialize (Hle _ Hd). rewrite cnt_app in Hle.
  assert (Hp : cnt (in_posted p x) (posted w) = cnt (isx x) ((filter (fun ax => pe_of ax.1 = p) (posted w)).*2)).
  { clear. induction (posted w) as [|ax l IH]; [done|]. rewrite filter_cons. cbn [cnt]. unfold in_posted at 1.
    case_decide as E; [rewrite bool_decide_true by done | rewrite bool_decide_false by done]; simpl; by rewrite IH. }
  lia.
Qed.

End steps.
