(* ===== verification/LibfabricCont.v ===== *)
(** * The libfabric transport: what the places hold

    [cinv]: every operation under way belongs to an operation that waits for its
    acknowledgement, every receive buffer in use holds the message recorded for
    it, the sequence numbers in use are those of the operations, and the
    accounting [kview] holds for every endpoint, target and tag. *)
From stdpp Require Import base gmap list functions.
From S2P Require Import Prelude ProxyChannel Rma Libfabric LibfabricOps LibfabricNet LibfabricInv.
Open Scope Z_scope.

(** The tag of the operation an operation under way is part of; an
    acknowledgement is counted by [fa], not here. *)
Definition need (f : flight) : option tag :=
  match f_body f with
  | BWrite (Some imm) _ => if is_ack imm then None else Some (inl imm)
  | _ => msg_tag f
  end.

Definition seq_tag (t : tag) : Prop :=
  match t with inl n => 0 <= n < NVSHMEM_STAGED_AMO_SEQ_NUM | inr _ => True end.

Definition counts_writes (f : flight) (o : pending_op) : Prop :=
  match f_body f with BMsg (WSig sg) => si_num_writes sg = Z.of_nat (length (o_writes o)) | _ => True end.

Definition flight_ok (O : Z -> gmap tag pending_op) (f : flight) : Prop :=
  valid_ep (f_src f) /\ valid_ep (f_dst f) /\
  forall t, need f = Some t ->
    seq_tag t /\ exists o, O (f_src f) !! t = Some o /\ o_id o = f_id f /\ o_dst o = f_dst f /\ counts_writes f o.

(** A buffer as the fabric filled it, and as the handler of the completion left it. *)
Definition received (cs : gmap Z gdr_op_ctx) (x : Z) (f : flight) : Prop :=
  exists c, cs !! x = Some c /\
    match f_body f with
    | BMsg (WSig sg) => c_type c = NVSHMEMT_LIBFABRIC_MATCH /\ c_signal c = sg
    | BMsg (WAmo _) => c_type c = NVSHMEMT_LIBFABRIC_SEND
    | BMsg (WRet _) => c_type c = NVSHMEMT_LIBFABRIC_ACK
    | _ => False
    end.
Definition ready (cs : gmap Z gdr_op_ctx) (x : Z) (f : flight) : Prop :=
  exists c, cs !! x = Some c /\ c_ep c = Some (is_proxy_of (f_dst f)) /\ c_src_addr c = Some (f_src f) /\
    match f_body f with
    | BMsg (WSig sg) => c_type c = NVSHMEMT_LIBFABRIC_MATCH /\ am_sequence_count (c_send_amo c) = si_sequence_count sg
    | BMsg (WAmo _) => c_type c = NVSHMEMT_LIBFABRIC_SEND
    | _ => False
    end.

Definition arrival_ok (w : world) (ea : Z * arrival) : Prop :=
  valid_ep ea.1 /\
  match ea.2 with
  | AImm src imm _ => valid_ep src /\ (is_ack imm = false -> seq_tag (inl imm))
  | ARecv src x => exists f, own w (pe_of ea.1) x = Some f /\ f_src f = src /\ f_dst f = ea.1 /\
      flight_ok (outs w) f /\ received (ctxs (procs w (pe_of ea.1))) x f
  | ALocal _ _ => True
  end.

Definition map_ok (w : world) (e : Z) : Prop :=
  forall key x k, proxy_put_signal_comp_map (ep_at w e) !! key = Some (Some x, k) ->
    exists f sg, own w (pe_of e) x = Some f /\ f_body f = BMsg (WSig sg) /\ f_dst f = e /\
      key = comp_map_key (f_src f) (si_sequence_count sg) /\ flight_ok (outs w) f /\
      ready (ctxs (procs w (pe_of e))) x f.

Definition queue_ok (w : world) (p : Z) : Prop :=
  forall x, x ∈ q_other_recv (queue (procs w p)) ->
    exists f, own w p x = Some f /\ pe_of (f_dst f) = p /\ flight_ok (outs w) f /\ ready (ctxs (procs w p)) x f.

Definition rx_ok (w : world) (p : Z) : Prop :=
  forall f r, rx w p = Some (f, r) ->
    pe_of (f_dst f) = p /\ flight_ok (outs w) f /\ rp_src_addr r = Some (f_src f) /\
    rp_ep r = is_proxy_of (f_dst f) /\ 0 <= rp_seq r < 2 ^ 28 /\ msg_tag f = Some (ack_tag (rp_seq r) (f_id f)).

Definition tx_ok (w : world) (s : Z) : Prop :=
  forall c, tx w s = Some c ->
    valid_pe (tc_pe c) /\ seq_tag (inl (tc_seq c)) /\
    exists o, outs w s !! inl (tc_seq c) = Some o /\ o_id o = tc_id c /\
      o_dst o = target_ep (tc_pe c) (is_proxy_of s) /\ length (o_writes o) = tc_num c.

(** The sequence numbers of the operations of an endpoint. *)
Definition seqs_of (m : gmap tag pending_op) : list Z :=
  omap (fun to : tag * pending_op => match to.1 with inl n => Some n | inr _ => None end) (map_to_list m).

(** Operations have fewer than 2^16 writes, so that the message with the signal
    can count them; atomics are identified by numbers already used. *)
Definition op_ok (next : Z) (t : tag) (o : pending_op) : Prop :=
  Z.of_nat (length (o_writes o)) < 2 ^ 16 /\ match t with inr id => id < next | inl _ => True end.

Record cinv (w : world) : Prop := {
  ci_ptr : forall p x, (pcount w p x <= 1)%nat;
  ci_posted : Forall (fun ax => valid_ep ax.1) (posted w);
  ci_net : Forall (flight_ok (outs w)) (net w);
  ci_cq : Forall (arrival_ok w) (cq w);
  ci_map : forall e, valid_ep e -> map_ok w e;
  ci_queue : forall p, queue_ok w p;
  ci_rx : forall p, rx_ok w p;
  ci_tx : forall s, valid_ep s -> tx_ok w s;
  ci_seq : forall s, valid_ep s -> seq_ok (put_signal_seq_counter (ep_at w s)) (seqs_of (outs w s));
  ci_ops : forall s t o, outs w s !! t = Some o -> op_ok (next_id w) t o;
  ci_key : forall s d t, valid_ep s -> valid_ep d -> seq_tag t -> kview w s d t }.

(** ** Sequence numbers *)
Lemma seqs_of_insert_seq m n o : m !! inl n = None -> seqs_of (<[inl n := o]> m) ≡ₚ n :: seqs_of m.
Proof. intros H. unfold seqs_of. by rewrite map_to_list_insert by done. Qed.
Lemma seqs_of_insert_amo m id o : m !! inr id = None -> seqs_of (<[inr id := o]> m) ≡ₚ seqs_of m.
Proof. intros H. unfold seqs_of. by rewrite map_to_list_insert by done. Qed.
Lemma seqs_of_delete_seq m n o : m !! inl n = Some o -> seqs_of m ≡ₚ n :: seqs_of (delete (inl n) m).
Proof. intros H. unfold seqs_of. by rewrite <- (map_to_list_delete m (inl n) o H). Qed.
Lemma seqs_of_delete_amo m id o : m !! inr id = Some o -> seqs_of m ≡ₚ seqs_of (delete (inr id) m).
Proof. intros H. unfold seqs_of. by rewrite <- (map_to_list_delete m (inr id) o H). Qed.
Lemma elem_of_seqs_of m n : n ∈ seqs_of m <-> is_Some (m !! inl n).
Proof.
  unfold seqs_of. rewrite list_elem_of_omap. split.
  - intros ([[k|k] o] & Hin & E); simplify_eq/=. apply elem_of_map_to_list in Hin. eauto.
  - intros [o Ho]. exists (inl n, o). split; [by apply elem_of_map_to_list | done].
Qed.

(** ** Operations other than the one that changes *)
Lemma flight_ok_ext O O' f :
  flight_ok O f -> (forall t, need f = Some t -> O' (f_src f) !! t = O (f_src f) !! t) -> flight_ok O' f.
Proof.
  intros (Hs & Hd & H) E. split; [done|]. split; [done|]. intros t Ht. rewrite (E t Ht). auto.
Qed.

Lemma flight_ok_insert O s t o f :
  O s !! t = None -> flight_ok O f -> flight_ok (<[s := <[t := o]> (O s)]> O) f.
Proof.
  intros Hn Hf. apply (flight_ok_ext O); [done|]. intros t' Ht'.
  destruct Hf as (_ & _ & H). destruct (H t' Ht') as (_ & o' & Ho' & _).
  destruct (decide (s = f_src f)) as [->|]; [rewrite fn_lookup_insert | by rewrite fn_lookup_insert_ne].
  rewrite lookup_insert_ne; [done|]. intros ->. by rewrite Hn in Ho'.
Qed.

Lemma flight_ok_delete O s t f :
  flight_ok O f -> ~ (f_src f = s /\ need f = Some t) -> flight_ok (<[s := delete t (O s)]> O) f.
Proof.
  intros Hf Hne. apply (flight_ok_ext O); [done|]. intros t' Ht'.
  destruct (decide (s = f_src f)) as [->|]; [rewrite fn_lookup_insert | by rewrite fn_lookup_insert_ne].
  rewrite lookup_delete_ne; [done|]. intros ->. by apply Hne.
Qed.

Lemma need_msg f t : msg_tag f = Some t -> need f = Some t.
Proof. unfold need, msg_tag. by destruct (f_body f). Qed.
Lemma received_need cs x f : received cs x f -> need f = msg_tag f.
Proof. intros (c & _ & H). unfold need, msg_tag. by destruct (f_body f). Qed.
Lemma ready_msg cs x f : ready cs x f -> exists t, msg_tag f = Some t.
Proof.
  intros (c & _ & _ & _ & H). unfold msg_tag. destruct (f_body f) as [| |[a|sg|r]|]; try done; eauto.
Qed.

(** Contexts other than the one written. *)
Lemma received_ctx cs cs' x f : received cs x f -> cs' !! x = cs !! x -> received cs' x f.
Proof. intros (c & Hc & H) E. exists c. by rewrite E. Qed.
Lemma ready_ctx cs cs' x f : ready cs x f -> cs' !! x = cs !! x -> ready cs' x f.
Proof. intros (c & Hc & H) E. exists c. by rewrite E. Qed.

(** ** Frames

    [used keep w p x]: the context [x] is in use in process [p], by one of the
    arrivals [keep], an entry of a map or the queue.  A step that keeps the
    contexts in use, apart from the one at [z], keeps what they hold. *)
Definition used (keep : list (Z * arrival)) (w : world) (p x : Z) : Prop :=
  (exists e src, (e, ARecv src x) ∈ keep /\ pe_of e = p) \/
  (exists b key k, proxy_put_signal_comp_map (ep b (procs w p)) !! key = Some (Some x, k)) \/
  x ∈ q_other_recv (queue (procs w p)).

Definition placed (keep : list (Z * arrival)) (w : world) (f : flight) : Prop :=
  exists x, used keep w (pe_of (f_dst f)) x /\ own w (pe_of (f_dst f)) x = Some f.

Record frame (keep : list (Z * arrival)) (z : option (Z * Z)) (w w' : world) : Prop := {
  fr_map : forall p b key x k, proxy_put_signal_comp_map (ep b (procs w' p)) !! key = Some (Some x, k) ->
    z <> Some (p, x) -> exists k0, proxy_put_signal_comp_map (ep b (procs w p)) !! key = Some (Some x, k0);
  fr_queue : forall p x, x ∈ q_other_recv (queue (procs w' p)) -> z <> Some (p, x) ->
    x ∈ q_other_recv (queue (procs w p));
  fr_own : forall p x, used keep w p x -> z <> Some (p, x) -> own w' p x = own w p x;
  fr_ctx : forall p x, used keep w p x -> z <> Some (p, x) -> ctxs (procs w' p) !! x = ctxs (procs w p) !! x;
  fr_out : forall f, placed keep w f -> flight_ok (outs w) f -> flight_ok (outs w') f }.

Lemma used_map keep w e key x k :
  proxy_put_signal_comp_map (ep_at w e) !! key = Some (Some x, k) -> used keep w (pe_of e) x.
Proof. intros H. right. left. unfold ep_at in H. eauto. Qed.
Lemma used_queue keep w p x : x ∈ q_other_recv (queue (procs w p)) -> used keep w p x.
Proof. intros H. by right; right. Qed.
Lemma used_recv keep w e src x : (e, ARecv src x) ∈ keep -> used keep w (pe_of e) x.
Proof. intros H. left. eauto. Qed.

Lemma frame_arrival keep z w w' ea :
  frame keep z w w' -> ea ∈ keep -> arrival_ok w ea ->
  (forall src x, ea.2 = ARecv src x -> z <> Some (pe_of ea.1, x)) -> arrival_ok w' ea.
Proof.
  intros Hf Hin [Hv Ha] Hz. split; [done|]. destruct ea as [e a]. cbn [fst snd] in *.
  destruct a as [src imm id|src x|x b]; [done | | done].
  destruct Ha as (f & Ho & Hs & Hd & Hfl & Hr). pose proof (used_recv keep w e src x Hin) as Hu.
  specialize (Hz src x eq_refl). exists f. rewrite (fr_own _ _ _ _ Hf) by done. split; [done|]. split; [done|].
  split; [done|]. split.
  - apply (fr_out _ _ _ _ Hf); [|done]. exists x. by rewrite Hd.
  - apply (received_ctx _ _ _ _ Hr). by apply (fr_ctx _ _ _ _ Hf).
Qed.

Lemma frame_map keep z w w' e key x k :
  frame keep z w w' -> map_ok w e ->
  proxy_put_signal_comp_map (ep_at w' e) !! key = Some (Some x, k) -> z <> Some (pe_of e, x) ->
  exists f sg, own w' (pe_of e) x = Some f /\ f_body f = BMsg (WSig sg) /\ f_dst f = e /\
    key = comp_map_key (f_src f) (si_sequence_count sg) /\ flight_ok (outs w') f /\
    ready (ctxs (procs w' (pe_of e))) x f.
Proof.
  intros Hf Hm Hk Hz. destruct (fr_map _ _ _ _ Hf _ _ _ _ _ Hk Hz) as [k0 Hk0].
  pose proof (used_map keep w e key x k0 Hk0) as Hu.
  destruct (Hm key x k0 Hk0) as (f & sg & Ho & Hb & Hd & Hkey & Hfl & Hr). exists f, sg.
  rewrite (fr_own _ _ _ _ Hf) by done. do 4 (split; [done|]). split.
  - apply (fr_out _ _ _ _ Hf); [|done]. exists x. by rewrite Hd.
  - apply (ready_ctx _ _ _ _ Hr). by apply (fr_ctx _ _ _ _ Hf).
Qed.

Lemma frame_queue keep z w w' p x :
  frame keep z w w' -> queue_ok w p -> x ∈ q_other_recv (queue (procs w' p)) -> z <> Some (p, x) ->
  exists f, own w' p x = Some f /\ pe_of (f_dst f) = p /\ flight_ok (outs w') f /\ ready (ctxs (procs w' p)) x f.
Proof.
  intros Hf Hq Hx Hz. pose proof (fr_queue _ _ _ _ Hf _ _ Hx Hz) as Hx'.
  pose proof (used_queue keep w p x Hx') as Hu.
  destruct (Hq x Hx') as (f & Ho & Hd & Hfl & Hr). exists f. rewrite (fr_own _ _ _ _ Hf) by done.
  split; [done|]. split; [done|]. split.
  - apply (fr_out _ _ _ _ Hf); [|done]. exists x. by rewrite Hd.
  - apply (ready_ctx _ _ _ _ Hr). by apply (fr_ctx _ _ _ _ Hf).
Qed.

(** A context in use is not free, not posted and not in an operation under way. *)
Lemma used_count w p x : used (cq w) w p x ->
  (1 <= cnt (in_cq p x) (cq w) + map_ptrs x (proxy_put_signal_comp_map (ep false (procs w p))) +
        map_ptrs x (proxy_put_signal_comp_map (ep true (procs w p))) + cnt (isx x) (q_other_recv (queue (procs w p))))%nat.
Proof.
  intros [(e & src & Hin & He)|[(b & key & k & Hk)|Hin]].
  - assert (in_cq p x (e, ARecv src x) = true) as E.
    { unfold in_cq, isx. cbn [fst snd]. by rewrite !bool_decide_true by done. }
    pose proof (cnt_in (in_cq p x) _ _ Hin E). lia.
  - apply map_ptrs_lookup in Hk. destruct b; lia.
  - assert (isx x x = true) as E by (by apply bool_decide_true).
    pose proof (cnt_in (isx x) _ _ Hin E). lia.
Qed.

Definition free_ctx (w : world) (p y : Z) : Prop :=
  (1 <= cnt (in_posted p y) (posted w) + cnt (isx y) (q_send (queue (procs w p))) + cnt (isx y) (rx_elems (rx w p)) +
        cnt (isx y) (q_ack_recv (queue (procs w p))))%nat.

Lemma free_ctx_not_used w p x y : (pcount w p x <= 1)%nat -> used (cq w) w p x -> free_ctx w p y -> x <> y.
Proof.
  intros Hp Hu Hf ->. apply used_count in Hu. unfold pcount, proc_ptrs, free_ctx in *. lia.
Qed.
