(* ===== verification/LibfabricStep.v ===== *)
(** * The libfabric transport: every step keeps the accounting

    Preservation of [cinv] by the steps that post operations and by the fabric. *)
From stdpp Require Import base gmap list functions.
From S2P Require Import Prelude ProxyChannel Rma Libfabric LibfabricOps LibfabricNet LibfabricInv LibfabricCont.
Open Scope Z_scope.

(** ** Assembling the invariant *)
Lemma cinv_frame_gen w w' keep z :
  cinv w -> frame keep z w w' ->
  (forall ea, ea ∈ keep -> ea ∈ cq w) ->
  (forall e src x, (e, ARecv src x) ∈ keep -> z <> Some (pe_of e, x)) ->
  (forall e key x k, valid_ep e -> proxy_put_signal_comp_map (ep_at w' e) !! key = Some (Some x, k) ->
    z = Some (pe_of e, x) ->
    exists f sg, own w' (pe_of e) x = Some f /\ f_body f = BMsg (WSig sg) /\ f_dst f = e /\
      key = comp_map_key (f_src f) (si_sequence_count sg) /\ flight_ok (outs w') f /\
      ready (ctxs (procs w' (pe_of e))) x f) ->
  (forall p x, x ∈ q_other_recv (queue (procs w' p)) -> z = Some (p, x) ->
    exists f, own w' p x = Some f /\ pe_of (f_dst f) = p /\ flight_ok (outs w') f /\ ready (ctxs (procs w' p)) x f) ->
  (forall p x, (pcount w' p x <= 1)%nat) ->
  Forall (fun ax => valid_ep ax.1) (posted w') ->
  Forall (flight_ok (outs w')) (net w') ->
  (forall ea, ea ∈ cq w' -> ea ∈ keep \/ arrival_ok w' ea) ->
  (forall p, rx_ok w' p) -> (forall s, valid_ep s -> tx_ok w' s) ->
  (forall s, valid_ep s -> seq_ok (put_signal_seq_counter (ep_at w' s)) (seqs_of (outs w' s))) ->
  (forall s t o, outs w' s !! t = Some o -> op_ok (next_id w') t o) ->
  (forall s d t, valid_ep s -> valid_ep d -> seq_tag t -> kview w' s d t) -> cinv w'.
Proof.
  intros Hc Hf Hke Hkz Hzm Hzq Hp Hpo Hn Hq Hr Ht Hs Ha Hk. split; try done.
  - apply list.Forall_forall. intros ea Hin. destruct (Hq ea Hin) as [Hin'|]; [|done].
    apply (frame_arrival _ _ _ _ _ Hf Hin').
    + by apply (proj1 (list.Forall_forall _ _) (ci_cq _ Hc)), Hke.
    + intros src x E. destruct ea as [e a]. cbn [fst snd] in *. subst a. by eapply Hkz.
  - intros e He key x k Hkey. destruct (decide (z = Some (pe_of e, x))); [eauto|].
    by apply (frame_map _ _ _ _ _ _ _ _ Hf (ci_map _ Hc e He) Hkey).
  - intros p x Hx. destruct (decide (z = Some (p, x))); [eauto|].
    by apply (frame_queue _ _ _ _ _ _ Hf (ci_queue _ Hc p) Hx).
Qed.

Lemma cinv_frame w w' :
  cinv w -> frame (cq w) None w w' ->
  (forall p x, (pcount w' p x <= 1)%nat) ->
  Forall (fun ax => valid_ep ax.1) (posted w') ->
  Forall (flight_ok (outs w')) (net w') ->
  (forall ea, ea ∈ cq w' -> ea ∈ cq w \/ arrival_ok w' ea) ->
  (forall p, rx_ok w' p) -> (forall s, valid_ep s -> tx_ok w' s) ->
  (forall s, valid_ep s -> seq_ok (put_signal_seq_counter (ep_at w' s)) (seqs_of (outs w' s))) ->
  (forall s t o, outs w' s !! t = Some o -> op_ok (next_id w') t o) ->
  (forall s d t, valid_ep s -> valid_ep d -> seq_tag t -> kview w' s d t) -> cinv w'.
Proof. intros Hc Hf. intros. by eapply (cinv_frame_gen w w' (cq w) None). Qed.

(** A process whose maps and queue of messages stay. *)
Record proc_same (pr pr' : proc) : Prop := {
  ps_map : forall b, proxy_put_signal_comp_map (ep b pr') = proxy_put_signal_comp_map (ep b pr);
  ps_queue : q_other_recv (queue pr') = q_other_recv (queue pr) }.

Lemma frame_proc w w' q pr' :
  cinv w -> procs w' = <[q := pr']> (procs w) -> proc_same (procs w q) pr' -> own w' = own w ->
  (forall x, used (cq w) w q x -> ctxs pr' !! x = ctxs (procs w q) !! x) ->
  (forall f, placed (cq w) w f -> flight_ok (outs w) f -> flight_ok (outs w') f) ->
  frame (cq w) None w w'.
Proof.
  intros Hc HP [Hm Hq] Ho Hx Hf. split; rewrite ?HP, ?Ho; try done.
  - intros p b key x k. fn_case; [|eauto]. rewrite Hm. eauto.
  - intros p x. fn_case; [|done]. by rewrite Hq.
  - intros p x Hu _. fn_case; [by apply Hx | done].
Qed.

Lemma kview_parts w q pr' s :
  proc_same (procs w q) pr' ->
  forall P, P = <[q := pr']> (procs w) ->
  (forall d t, map_entry s t (ep (is_proxy_of d) (P (pe_of d))) = map_entry s t (ep_at w d)) /\
  (forall p, q_other_recv (queue (P p)) = q_other_recv (queue (procs w p))).
Proof.
  intros [Hm Hq] P ->. split.
  - intros d t. unfold ep_at, map_entry. destruct t; [|done]. destruct (decide (q = pe_of d)) as [->|].
    + by rewrite fn_lookup_insert, Hm.
    + by rewrite fn_lookup_insert_ne.
  - intros p. by fn_case.
Qed.

Ltac kinv_done :=
  unfold kinv in *;
  repeat match goal with
  | |- context [match ?m with Some _ => _ | None => _ end] => destruct m as [|]
  | H : context [match ?m with Some _ => _ | None => _ end] |- _ => destruct m as [|]
  | p : bool * Z |- _ => destruct p as [[|] ?]
  end; cbn [b2n] in *;
  repeat match goal with H : _ /\ _ |- _ => destruct H end;
  try discriminate;
  repeat match goal with |- _ /\ _ => split end; first [assumption | reflexivity | lia].

(** ** Posting: what [after_post] leaves *)
Lemma after_post_same b n l pr : proc_same pr (after_post b n l pr).
Proof. unfold after_post. split; [|by destruct b]. intros b'. by destruct b, b'. Qed.
Lemma set_ctx_same y c pr pr' : proc_same pr pr' -> proc_same pr (set_ctx y c pr').
Proof. intros [Hm Hq]. split; [|done]. intros b. by rewrite ep_set_ctx. Qed.
Lemma after_post_seq b n l pr b' :
  put_signal_seq_counter (ep b' (after_post b n l pr)) = put_signal_seq_counter (ep b' pr).
Proof. by destruct b, b'. Qed.

Lemma send_free w p y l : q_send (queue (procs w p)) = y :: l -> free_ctx w p y.
Proof.
  intros E. unfold free_ctx. rewrite E. cbn [cnt].
  assert (isx y y = true) as -> by (by apply bool_decide_true). simpl. lia.
Qed.

Lemma ctx_other w p y c pr' x :
  cinv w -> free_ctx w p y -> used (cq w) w p x -> ctxs pr' = ctxs (procs w p) ->
  ctxs (set_ctx y c pr') !! x = ctxs (procs w p) !! x.
Proof.
  intros Hc Hf Hu E. cbn [set_ctx ctxs]. rewrite lookup_insert_ne; [by rewrite E|].
  intros ->. by apply (free_ctx_not_used w p x x (ci_ptr _ Hc p x) Hu Hf).
Qed.

(** The parts of the invariant that mention the sequence counters. *)
Lemma seq_other w w' q pr' :
  cinv w -> procs w' = <[q := pr']> (procs w) -> outs w' = outs w ->
  (forall b, put_signal_seq_counter (ep b pr') = put_signal_seq_counter (ep b (procs w q))) ->
  forall s, valid_ep s -> seq_ok (put_signal_seq_counter (ep_at w' s)) (seqs_of (outs w' s)).
Proof.
  intros Hc HP HO He s Hs. rewrite HO. unfold ep_at. rewrite HP. pose proof (ci_seq _ Hc s Hs) as H. unfold ep_at in H.
  destruct (decide (q = pe_of s)) as [->|]; [by rewrite fn_lookup_insert, He | by rewrite fn_lookup_insert_ne].
Qed.

Lemma op_writes_insert m t0 o d t :
  m !! t0 = None ->
  op_writes (<[t0 := o]> m) d t =
    if bool_decide (t = t0 /\ o_dst o = d) then Some (length (o_writes o)) else op_writes m d t.
Proof.
  intros Hn. unfold op_writes. destruct (decide (t = t0)) as [->|Hne].
  - rewrite lookup_insert_eq, Hn. repeat case_bool_decide; naive_solver.
  - rewrite lookup_insert_ne by done. rewrite (bool_decide_false (t = t0 /\ _)) by naive_solver. done.
Qed.

Lemma op_writes_none m d t : m !! t = None -> op_writes m d t = None.
Proof. intros H. unfold op_writes. by rewrite H. Qed.

(** ** Flights that are posted *)
Lemma fw_write s d t src dst n r x id :
  is_ack n = false ->
  fw s d t (MkFlight src dst (BWrite (Some n) r) x id) = bool_decide (t = inl n /\ src = s /\ dst = d).
Proof. intros E. destruct t as [m|m]; cbn; rewrite ?E; cbn; repeat case_bool_decide; naive_solver. Qed.
Lemma fa_write s d t src dst n r x id :
  is_ack n = false -> fa s d t (MkFlight src dst (BWrite (Some n) r) x id) = false.
Proof. intros E. unfold fa. cbn. by rewrite E. Qed.
Lemma fs_write s d t src dst i r x id : fs s d t (MkFlight src dst (BWrite i r) x id) = false.
Proof. unfold fs. cbn. apply bool_decide_false. naive_solver. Qed.
Lemma fw_msg s d t src dst m x id : fw s d t (MkFlight src dst (BMsg m) x id) = false.
Proof. by destruct t. Qed.
Lemma fs_sig s d t src dst sg x id :
  fs s d t (MkFlight src dst (BMsg (WSig sg)) x id) = bool_decide (t = inl (si_sequence_count sg) /\ src = s /\ dst = d).
Proof. unfold fs. cbn. apply bool_decide_ext. naive_solver. Qed.
Lemma fs_amo s d t src dst a x id :
  fs s d t (MkFlight src dst (BMsg (WAmo a)) x id) = bool_decide (t = inr id /\ src = s /\ dst = d).
Proof. unfold fs. cbn. apply bool_decide_ext. naive_solver. Qed.
Lemma fs_ret s d t src dst a x id : fs s d t (MkFlight src dst (BMsg (WRet a)) x id) = false.
Proof. unfold fs. cbn. apply bool_decide_false. naive_solver. Qed.

Lemma in_tx_seq s d t c :
  in_tx s d t (Some c) = bool_decide (t = inl (tc_seq c) /\ target_ep (tc_pe c) (is_proxy_of s) = d).
Proof. destruct t as [n|n]; cbn; repeat case_bool_decide; naive_solver. Qed.

(** ** Arrivals *)
Lemma frame_refl w w' :
  procs w' = procs w -> own w' = own w -> outs w' = outs w -> frame (cq w) None w w'.
Proof. intros HP HO HU. split; rewrite ?HP, ?HO, ?HU; eauto. Qed.

Lemma with_done_need f b : need (with_body (BDone b) f) = None.
Proof. done. Qed.
Lemma with_done_counts s d t f b :
  fw s d t (with_body (BDone b) f) = false /\ fs s d t (with_body (BDone b) f) = false /\
  fa s d t (with_body (BDone b) f) = false.
Proof. unfold fw, fs, fa, msg_tag. cbn. split; [by destruct t|]. split; [|done]. apply bool_decide_false. naive_solver. Qed.

Lemma net_done O l1 l2 f b :
  Forall (flight_ok O) (l1 ++ f :: l2) -> Forall (flight_ok O) (l1 ++ with_body (BDone b) f :: l2).
Proof.
  rewrite !list.Forall_app, !list.Forall_cons. intros (H1 & (Hs & Hd & Hf) & H2). split; [done|]. split; [|done].
  split; [done|]. split; [done|]. intros t. by rewrite with_done_need.
Qed.

Lemma net_ok w l1 l2 f : cinv w -> net w = l1 ++ f :: l2 -> flight_ok (outs w) f.
Proof. intros Hc E. pose proof (ci_net _ Hc) as H. rewrite E, list.Forall_app, list.Forall_cons in H. tauto. Qed.

Lemma count_completion_same b pr : proc_same pr (count_completion b pr).
Proof. split; [|by destruct b]. intros b'. by destruct b, b'. Qed.

Lemma posted_free w q1 q2 a x : posted w = q1 ++ (a, x) :: q2 -> free_ctx w (pe_of a) x.
Proof.
  intros E. unfold free_ctx. rewrite E, cnt_app. cbn [cnt].
  assert (in_posted (pe_of a) x (a, x) = true) as ->.
  { unfold in_posted, isx. cbn. by rewrite !bool_decide_true by done. }
  simpl. lia.
Qed.

Section steps.
Context {handle_info : Z -> option (Z * Z)} {use_gdrcopy : bool} {ack_addr ack_key : Z -> Z} {mr_key : Z -> bool -> Z}.
Abbreviation step := (step handle_info use_gdrcopy ack_addr ack_key mr_key).

Lemma ptr_step w w' : cinv w -> step w w' -> forall p x, (pcount w' p x <= 1)%nat.
Proof. intros Hc Hs p x. pose proof (step_pcount w w' p x Hs). pose proof (ci_ptr _ Hc p x). lia. Qed.

(** A sequence number is refused. *)
Lemma cinv_seq_busy w p b pr :
  cinv w -> valid_pe p -> put_signal_seq b (procs w p) = Ret (-1, pr) ->
  forall w', w' = MkWorld (<[p := pr]> (procs w)) (net w) (cq w) (posted w) (tx w) (rx w) (own w) (outs w)
                    (next_id w) (log w) -> step w w' -> cinv w'.
Proof.
  intros Hc Hp H w' -> Hst. pose proof (ptr_step _ _ Hc Hst) as Hpt. clear Hst.
  apply put_signal_seq_inv in H as (c & Hn & ->).
  assert (Hs : proc_same (procs w p) (set_ep b (set_seq c (ep b (procs w p))) (procs w p))).
  { split; [|by destruct b]. intros b'. by destruct b, b'. }
  destruct (next_seq_num_spec _ _ (ci_seq _ Hc (target_ep p b) (target_ep_valid p b Hp))) as (n & c' & Hn' & Hcase).
  unfold ep_at in Hn'. rewrite target_ep_pe, target_ep_proxy in Hn'. rewrite Hn in Hn'. simplify_eq.
  destruct Hcase as [(_ & Hok & _)|(? & _)]; [|lia].
  eapply (cinv_frame w); [done| |done|apply (ci_posted _ Hc)|apply (ci_net _ Hc)|by left|apply (ci_rx _ Hc)
    |apply (ci_tx _ Hc)| |apply (ci_ops _ Hc)|].
  - refine (frame_proc w _ p _ Hc _ Hs _ _ _); [done | done | | done]. intros x _. by destruct b.
  - intros s Hv. unfold ep_at. cbn [procs outs]. destruct (decide (s = target_ep p b)) as [->|Hne].
    + rewrite target_ep_pe, fn_lookup_insert, target_ep_proxy, ep_set_ep_eq. exact Hok.
    + pose proof (ci_seq _ Hc s Hv) as Hq. unfold ep_at in Hq.
      destruct (decide (p = pe_of s)) as [->|]; [|by rewrite fn_lookup_insert_ne].
      rewrite fn_lookup_insert, ep_set_ep, bool_decide_false; [done|].
      intros E. apply Hne. by rewrite E, target_ep_eta.
  - intros s d t Hsv Hd Hstg. destruct (kview_parts w p _ s Hs _ eq_refl) as [Hm Hq].
    pose proof (ci_key _ Hc s d t Hsv Hd Hstg) as Hk. unfold kview in *. unfold ep_at at 1. cbn [procs net cq tx rx own outs].
    rewrite Hm, Hq. exact Hk.
Qed.

(** A put-with-signal starts. *)
Lemma fresh_seq w p b n c :
  cinv w -> valid_pe p -> 0 <= n ->
  next_seq_num (put_signal_seq_counter (ep b (procs w p))) = Ret (n, c) ->
  seq_tag (inl n) /\ outs w (target_ep p b) !! inl n = None /\ seq_ok c (n :: seqs_of (outs w (target_ep p b))).
Proof.
  intros Hc Hp Hn0 Hn.
  destruct (next_seq_num_spec _ _ (ci_seq _ Hc (target_ep p b) (target_ep_valid p b Hp))) as (n' & c' & Hn' & Hcase).
  unfold ep_at in Hn'. rewrite target_ep_pe, target_ep_proxy in Hn'. rewrite Hn in Hn'. simplify_eq.
  destruct Hcase as [(? & _)|(Hr & Hnin & Hok)]; [lia|]. split; [done|]. split; [|done].
  rewrite elem_of_seqs_of in Hnin. apply eq_None_not_Some. done.
Qed.

Lemma cinv_seq w p b dpe writes op sig n pr :
  cinv w -> valid_pe p -> valid_pe dpe -> tx w (target_ep p b) = None ->
  put_signal_seq b (procs w p) = Ret (n, pr) -> 0 <= n -> Z.of_nat (length writes) < 2 ^ 16 ->
  forall w', w' = MkWorld (<[p := pr]> (procs w)) (net w) (cq w) (posted w)
      (<[target_ep p b := Some (MkTx (next_id w) dpe n writes (length writes) op sig)]> (tx w)) (rx w) (own w)
      (<[target_ep p b := <[inl n := MkOp (next_id w) (target_ep dpe b) (map write_range writes)]>
                            (outs w (target_ep p b))]> (outs w))
      (next_id w + 1)
      (EIssue (next_id w) (target_ep p b) (target_ep dpe b) (map write_range writes) :: log w) ->
  step w w' -> cinv w'.
Proof.
  intros Hc Hp Hdp Htx H Hn0 Hfit w' -> Hst. pose proof (ptr_step _ _ Hc Hst) as Hpt. clear Hst.
  apply put_signal_seq_inv in H as (c & Hn & ->).
  destruct (fresh_seq w p b n c Hc Hp Hn0 Hn) as (Hnr & Hfr & Hok).
  assert (Hs : proc_same (procs w p) (set_ep b (set_seq c (ep b (procs w p))) (procs w p))).
  { split; [|by destruct b]. intros b'. by destruct b, b'. }
  pose proof (flight_ok_insert (outs w) (target_ep p b) (inl n)
                (MkOp (next_id w) (target_ep dpe b) (map write_range writes))) as Hins.
  eapply (cinv_frame w); [done| |done|apply (ci_posted _ Hc)| |by left| | | | |].
  - refine (frame_proc w _ p _ Hc _ Hs _ _ _); [done | done | intros x _; by destruct b|]. cbn [outs]. auto.
  - cbn [net outs]. eapply list.Forall_impl; [apply (ci_net _ Hc)|]. auto.
  - intros q f r Hrx. cbn [rx outs] in *. destruct (ci_rx _ Hc q f r Hrx) as (? & ? & ?). split; [done|]. split; [auto|done].
  - intros s Hsv c' Hc'. cbn [tx outs] in *. destruct (decide (target_ep p b = s)) as [<-|Hne].
    + rewrite fn_lookup_insert in Hc'. simplify_eq. cbn [tc_pe tc_seq tc_id tc_num]. split; [done|]. split; [done|].
      rewrite fn_lookup_insert, target_ep_proxy. eexists. split; [apply lookup_insert_eq|].
      cbn [o_id o_dst o_writes]. by rewrite length_map.
    + rewrite fn_lookup_insert_ne in Hc' by done. rewrite fn_lookup_insert_ne by done. by apply (ci_tx _ Hc s Hsv).
  - intros s Hv. unfold ep_at. cbn [procs outs]. destruct (decide (s = target_ep p b)) as [->|Hne].
    + rewrite target_ep_pe, !fn_lookup_insert, target_ep_proxy, ep_set_ep_eq.
      eapply seq_ok_perm; [symmetry; by apply seqs_of_insert_seq | done].
    + rewrite (fn_lookup_insert_ne (outs w)) by done. pose proof (ci_seq _ Hc s Hv) as Hq. unfold ep_at in Hq.
      destruct (decide (p = pe_of s)) as [->|]; [|by rewrite fn_lookup_insert_ne].
      rewrite fn_lookup_insert, ep_set_ep, bool_decide_false; [done|].
      intros E. apply Hne. by rewrite E, target_ep_eta.
  - intros s t o'. cbn [outs next_id]. intros Ht.
    destruct (decide (target_ep p b = s /\ t = inl n)) as [[<- ->]|Hne].
    + rewrite fn_lookup_insert, lookup_insert_eq in Ht. injection Ht as <-. split; [|done].
      cbn [o_writes]. by rewrite length_map.
    + assert (outs w s !! t = Some o') as Ht'.
      { destruct (decide (target_ep p b = s)) as [<-|]; [|by rewrite fn_lookup_insert_ne in Ht].
        rewrite fn_lookup_insert, lookup_insert_ne in Ht by naive_solver. done. }
      destruct (ci_ops _ Hc s t o' Ht'). split; [done|]. destruct t; [done | lia].
  - intros s d t Hsv Hd Hstg. destruct (kview_parts w p _ s Hs _ eq_refl) as [Hm Hq].
    pose proof (ci_key _ Hc s d t Hsv Hd Hstg) as Hk. unfold kview in *. unfold ep_at at 1. cbn [procs net cq tx rx own outs].
    rewrite Hm, Hq. destruct (decide (target_ep p b = s)) as [<-|Hne]; [|by rewrite !fn_lookup_insert_ne].
    rewrite !fn_lookup_insert. rewrite Htx in Hk. rewrite op_writes_insert by done. cbn [o_dst o_writes].
    unfold tx_rem, in_tx in *. rewrite target_ep_proxy. destruct t as [m|id].
    + case_bool_decide as E1.
      * destruct E1 as [[= ->] <-]. rewrite bool_decide_true by done. cbn [b2n tc_rem]. rewrite length_map.
        rewrite (op_writes_none _ _ _ Hfr) in Hk. destruct Hk as (? & ? & -> & -> & -> & -> & -> & -> & -> & -> & ->).
        unfold kinv. lia.
      * rewrite bool_decide_false by (intros [E2 E3]; apply E1; split; [by f_equal | done]). cbn [b2n]. exact Hk.
    + rewrite bool_decide_false by naive_solver. exact Hk.
Qed.

Lemma cinv_write w p b c d rem pr ps :
  cinv w -> valid_pe p -> tx w (target_ep p b) = Some c -> tc_rem c = d :: rem ->
  rma_impl mr_key PROVIDER_EFA true (tc_pe c) put_verb d.1 d.2 b (Some (tc_seq c)) 0 (procs w p) = Ret (0, pr, ps) ->
  forall w', w' = MkWorld (<[p := pr]> (procs w)) ((ps ≫= fly (target_ep p b) (tc_id c)) ++ net w) (cq w) (posted w)
      (<[target_ep p b := Some (MkTx (tc_id c) (tc_pe c) (tc_seq c) rem (tc_num c) (tc_sig_op c) (tc_sig c))]> (tx w))
      (rx w) (own w) (outs w) (next_id w) (log w) ->
  step w w' -> cinv w'.
Proof.
  intros Hc Hp Htx Hrem H w' -> Hst. pose proof (ptr_step _ _ Hc Hst) as Hpt. clear Hst.
  apply put_write_inv in H as (y & l & key & Hs & -> & ->).
  destruct (ci_tx _ Hc _ (target_ep_valid p b Hp) c Htx) as (Hpe & Hseq & o & Ho & Hid & Hdst & Hlen).
  rewrite target_ep_proxy in Hdst. pose proof (seq_imm_not_ack _ Hseq) as Hna.
  pose proof (after_post_same b 1 l (procs w p)) as Hsame.
  eapply (cinv_frame w); [done| |done|apply (ci_posted _ Hc)| |by left|apply (ci_rx _ Hc)| | |apply (ci_ops _ Hc)|].
  - refine (frame_proc w _ p _ Hc _ Hsame _ _ _); [done | done | intros x _; by destruct b | done].
  - cbn. apply list.Forall_cons. split; [|apply (ci_net _ Hc)].
    split; [by apply target_ep_valid|]. split; [by apply target_ep_valid|].
    intros t. unfold need. cbn. rewrite Hna. intros [= <-]. split; [done|]. exists o. by rewrite Hid.
  - intros s Hsv c' Hc'. cbn [tx outs] in *. destruct (decide (target_ep p b = s)) as [<-|Hne].
    + rewrite fn_lookup_insert in Hc'. simplify_eq. cbn [tc_pe tc_seq tc_id tc_num].
      rewrite target_ep_proxy. eauto 10.
    + rewrite fn_lookup_insert_ne in Hc' by done. by apply (ci_tx _ Hc s Hsv).
  - eapply seq_other; [done | reflexivity | reflexivity |]. intros b'. apply after_post_seq.
  - intros s d' t Hsv Hd Hstg. destruct (kview_parts w p _ s Hsame _ eq_refl) as [Hm Hq].
    pose proof (ci_key _ Hc s d' t Hsv Hd Hstg) as Hk. unfold kview in *. unfold ep_at at 1. cbn [procs net cq tx rx own outs].
    rewrite Hm, Hq. cbn [mbind list_bind fly app cnt]. rewrite fw_write, fa_write, fs_write by done. cbn [b2n Nat.add].
    destruct (decide (target_ep p b = s)) as [<-|Hne].
    + rewrite fn_lookup_insert. rewrite Htx in Hk. unfold tx_rem in *. rewrite !in_tx_seq in *.
      rewrite target_ep_proxy in *. cbn [tc_rem tc_seq tc_pe]. rewrite Hrem in Hk. cbn [length] in Hk.
      case_bool_decide as E1.
      * rewrite bool_decide_true by naive_solver. cbn [b2n] in *. kinv_done.
      * rewrite bool_decide_false by naive_solver. exact Hk.
    + rewrite fn_lookup_insert_ne by done. rewrite bool_decide_false by naive_solver. exact Hk.
Qed.

Lemma cinv_signal w p b c pr ps :
  cinv w -> valid_pe p -> tx w (target_ep p b) = Some c -> tc_rem c = [] ->
  gdr_signal (tc_pe c) (tc_sig_op c) (tc_sig c) b (tc_seq c) (u16 (Z.of_nat (tc_num c))) 0 (procs w p) = Ret (0, pr, ps) ->
  forall w', w' = MkWorld (<[p := pr]> (procs w)) ((ps ≫= fly (target_ep p b) (tc_id c)) ++ net w) (cq w) (posted w)
      (<[target_ep p b := None]> (tx w)) (rx w) (own w) (outs w) (next_id w) (log w) ->
  step w w' -> cinv w'.
Proof.
  intros Hc Hp Htx Hrem H w' -> Hst. pose proof (ptr_step _ _ Hc Hst) as Hpt. clear Hst.
  apply gdr_signal_inv in H as (y & l & c' & sg & Hs & -> & -> & Hsq & Hnw & _).
  destruct (ci_tx _ Hc _ (target_ep_valid p b Hp) c Htx) as (Hpe & Hseq & o & Ho & Hid & Hdst & Hlen).
  rewrite target_ep_proxy in Hdst.
  destruct (ci_ops _ Hc _ _ _ Ho) as [Hnum _]. rewrite wrap_small in Hnw by (unfold in_u; lia).
  pose proof (set_ctx_same y c' _ _ (after_post_same b 2 l (procs w p))) as Hsame.
  eapply (cinv_frame w); [done| |done|apply (ci_posted _ Hc)| |by left|apply (ci_rx _ Hc)| | |apply (ci_ops _ Hc)|].
  - refine (frame_proc w _ p _ Hc _ Hsame _ _ _); [done | done | | done].
    intros x Hu. apply (ctx_other w p y c' _ x Hc (send_free _ _ _ _ Hs) Hu). by destruct b.
  - cbn. apply list.Forall_cons. split; [|apply (ci_net _ Hc)].
    split; [by apply target_ep_valid|]. split; [by apply target_ep_valid|].
    intros t. unfold need, msg_tag. cbn. rewrite Hsq. intros [= <-]. split; [done|]. exists o.
    unfold counts_writes. cbn. by rewrite Hid, Hnw, Hlen.
  - intros s Hsv c1 Hc1. cbn [tx outs] in *. destruct (decide (target_ep p b = s)) as [<-|Hne].
    + by rewrite fn_lookup_insert in Hc1.
    + rewrite fn_lookup_insert_ne in Hc1 by done. by apply (ci_tx _ Hc s Hsv).
  - eapply seq_other; [done | reflexivity | reflexivity |]. intros b'. rewrite ep_set_ctx. apply after_post_seq.
  - intros s d' t Hsv Hd Hstg. destruct (kview_parts w p _ s Hsame _ eq_refl) as [Hm Hq].
    pose proof (ci_key _ Hc s d' t Hsv Hd Hstg) as Hk. unfold kview in *. unfold ep_at at 1. cbn [procs net cq tx rx own outs].
    rewrite Hm, Hq. cbn [mbind list_bind fly app cnt]. rewrite fw_msg, fs_sig, Hsq.
    change (fa s d' t (MkFlight _ _ (BMsg _) _ _)) with false. cbn [b2n Nat.add].
    destruct (decide (target_ep p b = s)) as [<-|Hne].
    + rewrite fn_lookup_insert. rewrite Htx in Hk. unfold tx_rem in *. rewrite in_tx_seq in Hk.
      rewrite target_ep_proxy in Hk. rewrite Hrem in Hk. cbn [length] in Hk.
      replace (in_tx (target_ep p b) d' t None) with false by (by destruct t).
      case_bool_decide as E1.
      * rewrite bool_decide_true by naive_solver. cbn [b2n] in *. kinv_done.
      * rewrite bool_decide_false by naive_solver. exact Hk.
    + rewrite fn_lookup_insert_ne by done. rewrite bool_decide_false by naive_solver. exact Hk.
Qed.

Lemma cinv_amo w p b dpe op remote elembytes pr ps :
  cinv w -> valid_pe p -> valid_pe dpe -> tx w (target_ep p b) = None ->
  gdr_amo dpe op remote elembytes b 0 (procs w p) = Ret (0, pr, ps) ->
  forall w', w' = MkWorld (<[p := pr]> (procs w)) ((ps ≫= fly (target_ep p b) (next_id w)) ++ net w) (cq w) (posted w)
      (tx w) (rx w) (own w)
      (<[target_ep p b := <[inr (next_id w) := MkOp (next_id w) (target_ep dpe b) []]> (outs w (target_ep p b))]> (outs w))
      (next_id w + 1) (EIssue (next_id w) (target_ep p b) (target_ep dpe b) [] :: log w) ->
  step w w' -> cinv w'.
Proof.
  intros Hc Hp Hdp Htx H w' -> Hst. pose proof (ptr_step _ _ Hc Hst) as Hpt. clear Hst.
  apply gdr_amo_inv in H as (y & l & c' & a & Hs & -> & -> & _).
  assert (Hfr : outs w (target_ep p b) !! inr (next_id w) = None).
  { apply eq_None_not_Some. intros [o E]. apply (ci_ops _ Hc) in E as [_ E]. lia. }
  pose proof (flight_ok_insert (outs w) (target_ep p b) (inr (next_id w))
                (MkOp (next_id w) (target_ep dpe b) [])) as Hins.
  pose proof (set_ctx_same y c' _ _ (after_post_same b 2 l (procs w p))) as Hsame.
  eapply (cinv_frame w); [done| |done|apply (ci_posted _ Hc)| |by left| | | | |].
  - refine (frame_proc w _ p _ Hc _ Hsame _ _ _); [done | done | | cbn [outs]; auto].
    intros x Hu. apply (ctx_other w p y c' _ x Hc (send_free _ _ _ _ Hs) Hu). by destruct b.
  - cbn. apply list.Forall_cons. split; [|eapply list.Forall_impl; [apply (ci_net _ Hc)|]; auto].
    split; [by apply target_ep_valid|]. split; [by apply target_ep_valid|].
    intros t. unfold need, msg_tag. cbn. intros [= <-]. split; [done|].
    rewrite fn_lookup_insert. eexists. split; [apply lookup_insert_eq|]. done.
  - intros q f r Hrx. cbn [rx outs] in *. destruct (ci_rx _ Hc q f r Hrx) as (? & ? & ?). split; [done|]. split; [auto|done].
  - intros s Hsv c1 Hc1. cbn [tx outs] in *. destruct (ci_tx _ Hc s Hsv c1 Hc1) as (? & ? & o & Ho & ?).
    split; [done|]. split; [done|]. exists o. split; [|done].
    destruct (decide (target_ep p b = s)) as [<-|]; [|by rewrite fn_lookup_insert_ne].
    rewrite fn_lookup_insert, lookup_insert_ne by done. done.
  - intros s Hv. unfold ep_at. cbn [procs outs]. pose proof (ci_seq _ Hc s Hv) as Hq. unfold ep_at in Hq.
    assert (put_signal_seq_counter (ep (is_proxy_of s) ((<[p := set_ctx y c' (after_post b 2 l (procs w p))]> (procs w)) (pe_of s)))
            = put_signal_seq_counter (ep (is_proxy_of s) (procs w (pe_of s)))) as ->.
    { destruct (decide (p = pe_of s)) as [->|]; [|by rewrite fn_lookup_insert_ne].
      rewrite fn_lookup_insert, ep_set_ctx. apply after_post_seq. }
    destruct (decide (target_ep p b = s)) as [<-|]; [|by rewrite fn_lookup_insert_ne].
    rewrite fn_lookup_insert. eapply seq_ok_perm; [symmetry; by apply seqs_of_insert_amo | done].
  - intros s t o'. cbn [outs next_id]. intros Ht.
    destruct (decide (target_ep p b = s /\ t = inr (next_id w))) as [[<- ->]|Hne].
    + rewrite fn_lookup_insert, lookup_insert_eq in Ht. injection Ht as <-. split; [cbn; lia | lia].
    + assert (outs w s !! t = Some o') as Ht'.
      { destruct (decide (target_ep p b = s)) as [<-|]; [|by rewrite fn_lookup_insert_ne in Ht].
        rewrite fn_lookup_insert, lookup_insert_ne in Ht by naive_solver. done. }
      destruct (ci_ops _ Hc s t o' Ht'). split; [done|]. destruct t; [done | lia].
  - intros s d' t Hsv Hd Hstg. destruct (kview_parts w p _ s Hsame _ eq_refl) as [Hm Hq].
    pose proof (ci_key _ Hc s d' t Hsv Hd Hstg) as Hk. unfold kview in *. unfold ep_at at 1. cbn [procs net cq tx rx own outs].
    rewrite Hm, Hq. cbn [mbind list_bind fly app cnt]. rewrite fw_msg, fs_amo.
    change (fa s d' t (MkFlight _ _ (BMsg _) _ _)) with false. cbn [b2n Nat.add].
    destruct (decide (target_ep p b = s)) as [<-|Hne].
    + rewrite fn_lookup_insert, op_writes_insert by done. cbn [o_dst o_writes length].
      case_bool_decide as E1.
      * destruct E1 as [-> <-]. rewrite bool_decide_true by naive_solver. rewrite (op_writes_none _ _ _ Hfr) in Hk.
        destruct Hk as (-> & -> & -> & -> & -> & -> & -> & -> & -> & -> & ->). unfold kinv. cbn [b2n]. lia.
      * rewrite bool_decide_false by naive_solver. exact Hk.
    + rewrite fn_lookup_insert_ne by done. rewrite bool_decide_false by naive_solver. exact Hk.
Qed.

(** An operation without acknowledgement is posted. *)
Lemma cinv_plain w p b d bd x pr :
  cinv w -> valid_pe p -> valid_ep d -> (bd = BRead \/ exists r, bd = BWrite None r) ->
  proc_same (procs w p) pr -> ctxs pr = ctxs (procs w p) ->
  (forall b', put_signal_seq_counter (ep b' pr) = put_signal_seq_counter (ep b' (procs w p))) ->
  forall w', w' = MkWorld (<[p := pr]> (procs w)) (MkFlight (target_ep p b) d bd x (next_id w) :: net w) (cq w) (posted w)
      (tx w) (rx w) (own w) (outs w) (next_id w + 1) (ERma (next_id w) (target_ep p b) :: log w) ->
  step w w' -> cinv w'.
Proof.
  intros Hc Hp Hdp Hbd Hsame Hctx Hseq w' -> Hst. pose proof (ptr_step _ _ Hc Hst) as Hpt. clear Hst.
  eapply (cinv_frame w); [done| |done|apply (ci_posted _ Hc)| |by left|apply (ci_rx _ Hc)|apply (ci_tx _ Hc)| | |].
  - refine (frame_proc w _ p _ Hc _ Hsame _ _ _); [done | done | intros y _; by rewrite Hctx | done].
  - cbn. apply list.Forall_cons. split; [|apply (ci_net _ Hc)].
    split; [by apply target_ep_valid|]. split; [done|].
    intros t. unfold need, msg_tag. cbn. by destruct Hbd as [->|[r ->]].
  - eapply seq_other; [done | reflexivity | reflexivity |]. exact Hseq.
  - intros s t o. cbn [outs next_id]. intros Ht. destruct (ci_ops _ Hc s t o Ht). split; [done|]. destruct t; [done | lia].
  - intros s d' t Hsv Hd Hstg. destruct (kview_parts w p _ s Hsame _ eq_refl) as [Hm Hq].
    pose proof (ci_key _ Hc s d' t Hsv Hd Hstg) as Hk. unfold kview in *. unfold ep_at at 1. cbn [procs net cq tx rx own outs].
    rewrite Hm, Hq. cbn [cnt].
    assert (fw s d' t (MkFlight (target_ep p b) d bd x (next_id w)) = false /\
            fs s d' t (MkFlight (target_ep p b) d bd x (next_id w)) = false /\
            fa s d' t (MkFlight (target_ep p b) d bd x (next_id w)) = false) as (-> & -> & ->).
    { unfold fw, fs, fa, msg_tag. cbn. destruct Hbd as [->|[r ->]]; (split; [by destruct t|]);
        (split; [|done]); apply bool_decide_false; naive_solver. }
    exact Hk.
Qed.

Lemma cinv_rma w p b dpe verb remote bytes pr ps :
  cinv w -> valid_pe p -> valid_pe dpe -> tx w (target_ep p b) = None ->
  libfabric_rma mr_key PROVIDER_EFA true dpe verb remote bytes b 0 (procs w p) = Ret (0, pr, ps) ->
  forall w', w' = MkWorld (<[p := pr]> (procs w)) ((ps ≫= fly (target_ep p b) (next_id w)) ++ net w) (cq w) (posted w)
      (tx w) (rx w) (own w) (outs w) (next_id w + 1) (ERma (next_id w) (target_ep p b) :: log w) ->
  step w w' -> cinv w'.
Proof.
  intros Hc Hp Hdp Htx H w' -> Hst. apply rma_impl_inv in H as (y & l & po & Hs & -> & -> & Hpo).
  assert (Hfly : exists bd, (bd = BRead \/ exists r, bd = BWrite None r) /\
                   ([po] ≫= fly (target_ep p b) (next_id w)) = [MkFlight (target_ep p b) (target_ep dpe b) bd (Some y) (next_id w)]).
  { destruct Hpo as [(key & len & addr & ->)|(key & len & addr & -> & _)]; eexists; (split; [|reflexivity]); eauto. }
  destruct Hfly as (bd & Hbd & E). rewrite E in Hst |- *.
  refine (cinv_plain w p b (target_ep dpe b) bd (Some y) _ Hc Hp (target_ep_valid dpe b Hdp) Hbd (after_post_same b 1 l _) _ _ _ eq_refl Hst).
  - by destruct b.
  - intros b'. apply after_post_seq.
Qed.

Lemma cinv_cst w p key pr ps :
  cinv w -> valid_pe p ->
  libfabric_enforce_cst key 0 (procs w p) = Ret (0, pr, ps) ->
  forall w', w' = MkWorld (<[p := pr]> (procs w)) ((ps ≫= fly (target_ep p true) (next_id w)) ++ net w) (cq w) (posted w)
      (tx w) (rx w) (own w) (outs w) (next_id w + 1) (ERma (next_id w) (target_ep p true) :: log w) ->
  step w w' -> cinv w'.
Proof.
  intros Hc Hp H w' -> Hst. apply enforce_cst_inv in H as [-> ->].
  refine (cinv_plain w p true 0 BRead None (set_ep true (add_submitted 1 (ep true (procs w p))) (procs w p)) Hc Hp _ (or_introl eq_refl) _ eq_refl _ _ eq_refl Hst).
  - unfold valid_ep. lia.
  - split; [|done]. by intros [].
  - by intros [].
Qed.

Lemma cinv_land w l1 l2 f imm range :
  cinv w -> net w = l1 ++ f :: l2 -> f_body f = BWrite imm range ->
  forall w', w' = MkWorld (procs w) (l1 ++ with_body (BDone false) f :: l2)
      ((match imm with Some i => [(f_dst f, AImm (f_src f) i (f_id f))] | None => [] end) ++ cq w)
      (posted w) (tx w) (rx w) (own w) (outs w) (next_id w) (land_events imm (f_id f) range ++ log w) ->
  step w w' -> cinv w'.
Proof.
  intros Hc Hn Hb w' -> Hst. pose proof (ptr_step _ _ Hc Hst) as Hpt. clear Hst.
  destruct (net_ok w l1 l2 f Hc Hn) as (Hvs & Hvd & Hneed).
  eapply (cinv_frame w); [done| |done|apply (ci_posted _ Hc)| | |apply (ci_rx _ Hc)|apply (ci_tx _ Hc)|apply (ci_seq _ Hc)
    |apply (ci_ops _ Hc)|].
  - by apply frame_refl.
  - cbn [net outs]. apply net_done. rewrite <- Hn. apply (ci_net _ Hc).
  - cbn [cq]. intros ea [Hin|Hin]%elem_of_app; [|by left]. right. destruct imm as [i|]; [|by apply elem_of_nil in Hin].
    apply list_elem_of_singleton in Hin as ->. split; [done|]. split; [done|]. intros Ea.
    apply Hneed. unfold need. by rewrite Hb, Ea.
  - intros s d t Hsv Hd Hstg. pose proof (ci_key _ Hc s d t Hsv Hd Hstg) as Hk. unfold kview in *. rewrite Hn in Hk.
    change (ep_at (MkWorld (procs w) _ _ _ _ _ _ _ _ _) d) with (ep_at w d). cbn [procs net cq tx rx own outs].
    rewrite !cnt_app in *. cbn [cnt] in *. destruct (with_done_counts s d t f false) as (-> & -> & ->).
    assert (fs s d t f = false) as Efs by (unfold fs, msg_tag; rewrite Hb; apply bool_decide_false; naive_solver).
    rewrite Efs in Hk. destruct imm as [i|]; cbn [cnt].
    + assert (aw s d t (f_dst f, AImm (f_src f) i (f_id f)) = fw s d t f) as ->.
      { unfold aw, fw. cbn. rewrite Hb. done. }
      assert (aa s d t (f_dst f, AImm (f_src f) i (f_id f)) = fa s d t f) as ->.
      { unfold aa, fa. cbn. rewrite Hb. done. }
      change (ar (own w) s d t (f_dst f, AImm (f_src f) i (f_id f))) with false. cbn [b2n] in *.
      assert (fw s d t f = true -> fa s d t f = false) as Hex.
      { unfold fw, fa. rewrite Hb. destruct t; [|done]. intros [E _]%andb_prop. apply negb_true_iff in E. by rewrite E. }
      revert Hk Hex. generalize (fw s d t f) (fa s d t f). intros [] [] Hk Hex; try (by specialize (Hex eq_refl));
        cbn [b2n] in *; kinv_done.
    + assert (fw s d t f = false) as Ew by (unfold fw; rewrite Hb; by destruct t).
      assert (fa s d t f = false) as Ea by (unfold fa; by rewrite Hb).
      rewrite Ew, Ea in Hk. exact Hk.
Qed.

Lemma cinv_read w l1 l2 f :
  cinv w -> net w = l1 ++ f :: l2 -> f_body f = BRead ->
  forall w', w' = MkWorld (procs w) (l1 ++ with_body (BDone false) f :: l2) (cq w) (posted w) (tx w) (rx w) (own w)
      (outs w) (next_id w) (log w) ->
  step w w' -> cinv w'.
Proof.
  intros Hc Hn Hb w' -> Hst. pose proof (ptr_step _ _ Hc Hst) as Hpt. clear Hst.
  eapply (cinv_frame w); [done| |done|apply (ci_posted _ Hc)| |by left|apply (ci_rx _ Hc)|apply (ci_tx _ Hc)|apply (ci_seq _ Hc)
    |apply (ci_ops _ Hc)|].
  - by apply frame_refl.
  - cbn [net outs]. apply net_done. rewrite <- Hn. apply (ci_net _ Hc).
  - intros s d t Hsv Hd Hstg. pose proof (ci_key _ Hc s d t Hsv Hd Hstg) as Hk. unfold kview in *. rewrite Hn in Hk.
    change (ep_at (MkWorld (procs w) _ _ _ _ _ _ _ _ _) d) with (ep_at w d). cbn [procs net cq tx rx own outs].
    rewrite !cnt_app in *. cbn [cnt] in *. destruct (with_done_counts s d t f false) as (-> & -> & ->).
    assert (fs s d t f = false) as E1 by (unfold fs, msg_tag; rewrite Hb; apply bool_decide_false; naive_solver).
    assert (fw s d t f = false) as E2 by (unfold fw; rewrite Hb; by destruct t).
    assert (fa s d t f = false) as E3 by (unfold fa; by rewrite Hb).
    rewrite E1, E2, E3 in Hk. exact Hk.
Qed.

Lemma cinv_done w l1 l2 f is_send :
  cinv w -> net w = l1 ++ f :: l2 -> f_body f = BDone is_send ->
  forall w', w' = MkWorld (<[pe_of (f_src f) := count_completion (is_proxy_of (f_src f)) (procs w (pe_of (f_src f)))]> (procs w))
      (l1 ++ l2) ((f_src f, ALocal (f_ctx f) is_send) :: cq w) (posted w) (tx w) (rx w) (own w) (outs w) (next_id w) (log w) ->
  step w w' -> cinv w'.
Proof.
  intros Hc Hn Hb w' -> Hst. pose proof (ptr_step _ _ Hc Hst) as Hpt. clear Hst.
  destruct (net_ok w l1 l2 f Hc Hn) as (Hvs & _ & _).
  pose proof (count_completion_same (is_proxy_of (f_src f)) (procs w (pe_of (f_src f)))) as Hsame.
  eapply (cinv_frame w); [done| |done|apply (ci_posted _ Hc)| | |apply (ci_rx _ Hc)|apply (ci_tx _ Hc)| |apply (ci_ops _ Hc)|].
  - refine (frame_proc w _ _ _ Hc _ Hsame _ _ _); [done | done | | done].
    intros x _. unfold count_completion. by rewrite ctxs_set_ep.
  - cbn [net outs]. pose proof (ci_net _ Hc) as H. rewrite Hn, list.Forall_app, list.Forall_cons in H.
    apply list.Forall_app. tauto.
  - cbn [cq]. intros ea [->|Hin]%elem_of_cons; [|by left]. right. by split.
  - eapply seq_other; [done | reflexivity | reflexivity |]. intros b'. unfold count_completion.
    rewrite ep_set_ep. case_bool_decide as E; [by rewrite E | done].
  - intros s d t Hsv Hd Hstg. destruct (kview_parts w _ _ s Hsame _ eq_refl) as [Hm Hq].
    pose proof (ci_key _ Hc s d t Hsv Hd Hstg) as Hk. unfold kview in *. unfold ep_at at 1. rewrite Hn in Hk.
    cbn [procs net cq tx rx own outs]. rewrite Hm, Hq. rewrite !cnt_app in *. cbn [cnt] in *.
    assert (fw s d t f = false /\ fs s d t f = false /\ fa s d t f = false) as (E1 & E2 & E3).
    { unfold fw, fs, fa, msg_tag. rewrite Hb. split; [by destruct t|]. split; [|done]. apply bool_decide_false. naive_solver. }
    rewrite E1, E2, E3 in Hk. cbn [b2n Nat.add] in *.
    replace (aw s d t (f_src f, ALocal (f_ctx f) is_send)) with false by (by destruct t). exact Hk.
Qed.

Lemma cinv_recv w l1 l2 f m q1 q2 x c :
  cinv w -> net w = l1 ++ f :: l2 -> f_body f = BMsg m -> posted w = q1 ++ (f_dst f, x) :: q2 ->
  ctxs (procs w (pe_of (f_dst f))) !! x = Some c ->
  forall w', w' = MkWorld (<[pe_of (f_dst f) := set_ctx x (recv_ctx m c) (procs w (pe_of (f_dst f)))]> (procs w))
      (l1 ++ with_body (BDone true) f :: l2) ((f_dst f, ARecv (f_src f) x) :: cq w) (q1 ++ q2) (tx w) (rx w)
      (<[pe_of (f_dst f) := <[x := Some f]> (own w (pe_of (f_dst f)))]> (own w))
      (outs w) (next_id w) (log w) ->
  step w w' -> cinv w'.
Proof.
  intros Hc Hn Hb Hpo Hx w' -> Hst. pose proof (ptr_step _ _ Hc Hst) as Hpt. clear Hst.
  pose proof (net_ok w l1 l2 f Hc Hn) as Hfl.
  pose proof (posted_free _ _ _ _ _ Hpo) as Hfree.
  set (p := pe_of (f_dst f)) in *.
  assert (Hne : forall y, used (cq w) w p y -> y <> x).
  { intros y Hu. by apply (free_ctx_not_used w p y x (ci_ptr _ Hc p y) Hu). }
  assert (Hown : forall q y, used (cq w) w q y -> (<[p := <[x := Some f]> (own w p)]> (own w)) q y = own w q y).
  { intros q y Hu. destruct (decide (p = q)) as [<-|]; [|by rewrite fn_lookup_insert_ne].
    rewrite fn_lookup_insert, fn_lookup_insert_ne; [done|]. intros ->. by apply (Hne y). }
  assert (Hsame : proc_same (procs w p) (set_ctx x (recv_ctx m c) (procs w p))) by done.
  eapply (cinv_frame w); [done| |done| | | |apply (ci_rx _ Hc)|apply (ci_tx _ Hc)| |apply (ci_ops _ Hc)|].
  - split; cbn [procs own outs]; [| |auto| |auto].
    + intros q b key y k. fn_case; [|eauto]. rewrite ep_set_ctx. eauto.
    + intros q y. by fn_case.
    + intros q y Hu _. destruct (decide (p = q)) as [<-|]; [|by rewrite fn_lookup_insert_ne].
      rewrite fn_lookup_insert. cbn [set_ctx ctxs]. rewrite lookup_insert_ne; [done|]. intros ->. by apply (Hne y).
  - cbn [posted]. pose proof (ci_posted _ Hc) as H. rewrite Hpo, list.Forall_app, list.Forall_cons in H.
    apply list.Forall_app. tauto.
  - cbn [net outs]. apply net_done. rewrite <- Hn. apply (ci_net _ Hc).
  - cbn [cq]. intros ea [->|Hin]%elem_of_cons; [|by left]. right. split; [apply Hfl|]. cbn [fst snd own outs procs].
    exists f. fold p. rewrite !fn_lookup_insert. do 4 (split; [done|]). exists (recv_ctx m c).
    cbn [set_ctx ctxs]. rewrite lookup_insert_eq. split; [done|]. rewrite Hb. by destruct m.
  - eapply seq_other; [done | reflexivity | reflexivity |]. intros b'. by rewrite ep_set_ctx.
  - intros s d t Hsv Hd Hstg. destruct (kview_parts w p _ s Hsame _ eq_refl) as [Hm Hq].
    pose proof (ci_key _ Hc s d t Hsv Hd Hstg) as Hk. unfold kview in *. unfold ep_at at 1. rewrite Hn in Hk.
    cbn [procs net cq tx rx own outs]. rewrite Hm, Hq.
    rewrite (cnt_ext (held _ s d t) (held (own w (pe_of d)) s d t) (q_other_recv _)); cycle 1.
    { intros y Hy. unfold held. rewrite Hown; [done|]. by apply used_queue. }
    rewrite !cnt_app in *. cbn [cnt] in *.
    rewrite (cnt_ext (ar _ s d t) (ar (own w) s d t) (cq w)); cycle 1.
    { intros [e a] Hea. unfold ar. cbn [fst snd]. destruct a; [done| |done]. unfold held. rewrite Hown; [done|].
      by eapply used_recv. }
    destruct (with_done_counts s d t f true) as (-> & -> & ->).
    replace (aw s d t (f_dst f, ARecv (f_src f) x)) with false by (by destruct t).
    change (aa s d t (f_dst f, ARecv (f_src f) x)) with false.
    assert (ar (<[p := <[x := Some f]> (own w p)]> (own w)) s d t (f_dst f, ARecv (f_src f) x) = fs s d t f) as ->.
    { unfold ar, held. cbn [fst snd]. fold p. by rewrite !fn_lookup_insert. }
    assert (fw s d t f = false) as E2 by (unfold fw; rewrite Hb; by destruct t).
    assert (fa s d t f = false) as E3 by (unfold fa; by rewrite Hb).
    rewrite E2, E3 in Hk. cbn [b2n Nat.add] in *.
    revert Hk. generalize (b2n (fs s d t f)). intros k Hk. kinv_done.
Qed.
End steps.

(** ** The target

    Preservation of [cinv] by the steps of a target: applying an atomic,
    returning its value, acknowledging it, and handling completions; and the
    invariant of reachable states. *)


Section target.
Context {handle_info : Z -> option (Z * Z)} {use_gdrcopy : bool} {ack_addr ack_key : Z -> Z} {mr_key : Z -> bool -> Z}.
Abbreviation step := (step handle_info use_gdrcopy ack_addr ack_key mr_key).

Lemma ack_tag_seq n id : seq_tag (inl n) -> ack_tag n id = inl n.
Proof. cbn. intros H. unfold ack_tag. rewrite bool_decide_false; [done|]. lia. Qed.

Lemma cinv_apply w p elems x pr1 c n width r pr2 ps f :
  cinv w -> valid_pe p -> rx w p = None ->
  getNextAmoOps RECV_TYPE_NOT_ACK (procs w p) = Ret (0, elems, Some x, pr1) ->
  ctxs pr1 !! x = Some c -> amo_sequence c = Some n ->
  amo_apply handle_info use_gdrcopy width 0 x elems n pr1 = Ret (0, Some r, pr2, ps) ->
  own w p x = Some f ->
  forall w', w' = MkWorld (<[p := pr2]> (procs w)) (net w) (cq w) ((target_ep p (rp_ep r), x) :: posted w) (tx w)
      (<[p := Some (f, r)]> (rx w)) (own w) (outs w) (next_id w) (EApply (f_id f) p :: log w) ->
  step w w' -> cinv w'.
Proof.
  intros Hc Hp Hrx Hg Hcx Hn Ha Ho w' -> Hst. pose proof (ptr_step _ _ Hc Hst) as Hpt. clear Hst.
  apply getNextAmoOps_inv in Hg as (l & sends & Hl & Hse & ->). cbn [set_queue ctxs] in Hcx.
  apply amo_apply_inv in Ha as (c' & b & a & v & Hc' & Hep & -> & Hr & _). cbn [set_queue ctxs] in Hc'.
  rewrite Hcx in Hc'. injection Hc' as <-.
  destruct (ci_queue _ Hc p x) as (f' & Ho' & Hdp & Hfl & Hrd); [rewrite Hl; left|].
  rewrite Ho in Ho'. injection Ho' as <-.
  destruct Hrd as (c'' & Hc'' & Hepc & Hsrc & Hbody). rewrite Hcx in Hc''. injection Hc'' as <-.
  assert (Hrseq : 0 <= n < 2 ^ 28 /\ msg_tag f = Some (ack_tag n (f_id f))).
  { destruct Hfl as (_ & _ & Hneed). unfold msg_tag, amo_sequence in *.
    assert (Hres : NVSHMEM_STAGED_AMO_SEQ_NUM = 2 ^ 28 - 1) by done.
    destruct (f_body f) as [| |[am|sg|]|] eqn:Eb; try done.
    - rewrite Hbody in Hn. simplify_eq. split; [lia|]. unfold ack_tag. by rewrite bool_decide_true.
    - destruct Hbody as [Et Es]. rewrite Et in Hn. simplify_eq. rewrite Es.
      destruct (Hneed (inl (si_sequence_count sg))) as [Hst _]; [unfold need, msg_tag; by rewrite Eb|].
      rewrite ack_tag_seq by done. cbn in Hst. split; [lia | done]. }
  set (pr2 := set_mem a v _) in *.
  assert (Hqueue : q_other_recv (queue pr2) = l) by done.
  assert (Hmap : forall b', proxy_put_signal_comp_map (ep b' pr2) = proxy_put_signal_comp_map (ep b' (procs w p))).
  { intros b'. by destruct b'. }
  eapply (cinv_frame w); [done| |done| |apply (ci_net _ Hc)|by left| |apply (ci_tx _ Hc)| |apply (ci_ops _ Hc)|].
  - split; cbn [procs own outs]; [| |done| |done].
    + intros q b' key y k. fn_case; [rewrite Hmap|]; eauto.
    + intros q y. fn_case; [|done]. rewrite Hqueue, Hl. intros Hy _. by right.
    + intros q y _ _. by fn_case.
  - cbn [posted]. apply list.Forall_cons. split; [by apply target_ep_valid | apply (ci_posted _ Hc)].
  - intros q g r0. cbn [rx outs]. destruct (decide (p = q)) as [<-|]; [|rewrite fn_lookup_insert_ne by done; apply (ci_rx _ Hc)].
    rewrite fn_lookup_insert. intros [= <- <-]. rewrite Hr. cbn [rp_src_addr rp_ep rp_seq].
    split; [done|]. split; [done|]. split; [done|]. split; [by rewrite Hepc in Hep; injection Hep | done].
  - eapply seq_other; [done | reflexivity | reflexivity |]. intros b'. by destruct b'.
  - intros s d t Hsv Hd Hstg. pose proof (ci_key _ Hc s d t Hsv Hd Hstg) as Hk. unfold kview in *. unfold ep_at at 1.
    cbn [procs net cq tx rx own outs]. destruct (decide (p = pe_of d)) as [E|Hne].
    + rewrite <- E in *. rewrite !fn_lookup_insert. rewrite Hqueue. rewrite Hl in Hk. cbn [cnt] in Hk.
      assert (held (own w p) s d t x = fs s d t f) as Eh by (unfold held; by rewrite Ho).
      rewrite Eh, Hrx in Hk. cbn [in_rx b2n] in *.
      replace (map_entry s t (ep (is_proxy_of d) pr2)) with (map_entry s t (ep_at w d)); cycle 1.
      { unfold map_entry, ep_at. destruct t; [|done]. by rewrite Hmap, E. }
      revert Hk. generalize (b2n (fs s d t f)). intros k Hk. kinv_done.
    + rewrite !fn_lookup_insert_ne by done. exact Hk.
Qed.

Lemma cinv_respond w p f r r' pr ps :
  cinv w -> valid_pe p -> rx w p = Some (f, r) -> rp_fetch r <> None ->
  amo_respond 0 r (procs w p) = Ret (0, r', pr, ps) ->
  forall w', w' = MkWorld (<[p := pr]> (procs w)) ((ps ≫= fly (target_ep p (rp_ep r)) (f_id f)) ++ net w) (cq w) (posted w)
      (tx w) (<[p := Some (f, r')]> (rx w)) (own w) (outs w) (next_id w) (log w) ->
  step w w' -> cinv w'.
Proof.
  intros Hc Hp Hrx Hf H w' -> Hst. pose proof (ptr_step _ _ Hc Hst) as Hpt. clear Hst.
  apply amo_respond_inv in H as (y & elems & ret & b & c & c0 & cx & He & _ & _ & _ & _ & -> & -> & ->); [|done].
  destruct (ci_rx _ Hc p f r Hrx) as (Hdp & Hfl & Hsa & Hre & Hsq & Hmt).
  assert (Hfree : free_ctx w p y).
  { unfold free_ctx. rewrite Hrx. cbn [rx_elems]. rewrite He. cbn [cnt].
    assert (isx y y = true) as -> by (by apply bool_decide_true). simpl. lia. }
  assert (Hsame : proc_same (procs w p) (set_ep b (add_submitted 1 (ep b (procs w p))) (set_ctx y c (procs w p)))).
  { split; [|by destruct b]. intros b'. by destruct b, b'. }
  eapply (cinv_frame w); [done| |done|apply (ci_posted _ Hc)| |by left| |apply (ci_tx _ Hc)| |apply (ci_ops _ Hc)|].
  - refine (frame_proc w _ p _ Hc _ Hsame _ _ _); [done | done | | done].
    intros x Hu. rewrite ctxs_set_ep. by apply (ctx_other w p y c _ x Hc Hfree Hu).
  - rewrite Hsa. cbn. apply list.Forall_cons. split; [|apply (ci_net _ Hc)].
    split; [by apply target_ep_valid|]. split; [apply Hfl|]. by intros t.
  - intros q g r0. cbn [rx outs]. destruct (decide (p = q)) as [<-|]; [|rewrite fn_lookup_insert_ne by done; apply (ci_rx _ Hc)].
    rewrite fn_lookup_insert. intros [= <- <-]. done.
  - eapply seq_other; [done | reflexivity | reflexivity |]. intros b'. by destruct b, b'.
  - intros s d t Hsv Hd Hstg. destruct (kview_parts w p _ s Hsame _ eq_refl) as [Hm Hq].
    pose proof (ci_key _ Hc s d t Hsv Hd Hstg) as Hk. unfold kview in *. unfold ep_at at 1. cbn [procs net cq tx rx own outs].
    rewrite Hm, Hq, Hsa. cbn [mbind list_bind fly app cnt]. rewrite fw_msg, fs_ret.
    change (fa s d t (MkFlight _ _ (BMsg _) _ _)) with false. cbn [b2n Nat.add].
    destruct (decide (p = pe_of d)) as [E|Hne]; [|by rewrite !fn_lookup_insert_ne].
    rewrite <- E in *. rewrite fn_lookup_insert. rewrite Hrx in Hk. exact Hk.
Qed.

Lemma cinv_ack w p f r pr ps :
  cinv w -> valid_pe p -> rx w p = Some (f, r) -> rp_fetch r = None ->
  gdrcopy_amo_ack ack_addr ack_key 0 r (procs w p) = Ret (0, pr, ps) ->
  forall w', w' = MkWorld (<[p := pr]> (procs w)) ((ps ≫= fly (target_ep p (rp_ep r)) (f_id f)) ++ net w) (cq w) (posted w)
      (tx w) (<[p := None]> (rx w)) (own w) (outs w) (next_id w) (log w) ->
  step w w' -> cinv w'.
Proof.
  intros Hc Hp Hrx Hf H w' -> Hst. pose proof (ptr_step _ _ Hc Hst) as Hpt. clear Hst.
  apply gdrcopy_amo_ack_inv in H as (y & elems & addr & key & He & -> & ->).
  destruct (ci_rx _ Hc p f r Hrx) as (Hdp & Hfl & Hsa & Hre & Hsq & Hmt).
  destruct (ack_imm_seq _ Hsq) as [Himm Hack]. set (imm := Z.lor (2 ^ 28) (rp_seq r)) in *.
  assert (Hdst : target_ep p (rp_ep r) = f_dst f) by (by rewrite Hre, <- Hdp, target_ep_eta).
  assert (Hsame : proc_same (procs w p) (set_ep (rp_ep r) (add_submitted 1 (ep (rp_ep r) (procs w p))) (procs w p))).
  { split; [|by destruct (rp_ep r)]. intros b'. by destruct (rp_ep r), b'. }
  eapply (cinv_frame w); [done| |done|apply (ci_posted _ Hc)| |by left| |apply (ci_tx _ Hc)| |apply (ci_ops _ Hc)|].
  - refine (frame_proc w _ p _ Hc _ Hsame _ _ _); [done | done | | done]. intros x Hu. by rewrite ctxs_set_ep.
  - rewrite Hsa. cbn. apply list.Forall_cons. split; [|apply (ci_net _ Hc)].
    split; [by apply target_ep_valid|]. split; [apply Hfl|]. intros t. unfold need. cbn [f_body]. by rewrite Hack.
  - intros q g r0. cbn [rx outs]. destruct (decide (p = q)) as [<-|]; [|rewrite fn_lookup_insert_ne by done; apply (ci_rx _ Hc)].
    by rewrite fn_lookup_insert.
  - eapply seq_other; [done | reflexivity | reflexivity |]. intros b'. by destruct (rp_ep r), b'.
  - intros s d t Hsv Hd Hstg. destruct (kview_parts w p _ s Hsame _ eq_refl) as [Hm Hq].
    pose proof (ci_key _ Hc s d t Hsv Hd Hstg) as Hk. unfold kview in *. unfold ep_at at 1. cbn [procs net cq tx rx own outs].
    rewrite Hm, Hq, Hsa. cbn [mbind list_bind fly app cnt]. rewrite fs_write.
    assert (fw s d t (MkFlight (target_ep p (rp_ep r)) (f_src f) (BWrite (Some imm) (addr, 0)) (Some y) (f_id f)) = false) as ->.
    { unfold fw. cbn. destruct t; [by rewrite Hack | done]. }
    assert (fa s d t (MkFlight (target_ep p (rp_ep r)) (f_src f) (BWrite (Some imm) (addr, 0)) (Some y) (f_id f)) = fs s d t f) as ->.
    { unfold fa, fs. cbn [f_body f_src f_dst f_id]. rewrite Hack, Himm, Hdst, Hmt. cbn [andb].
      apply bool_decide_ext. naive_solver. }
    cbn [b2n Nat.add]. destruct (decide (p = pe_of d)) as [E|Hne].
    + rewrite <- E in *. rewrite fn_lookup_insert. rewrite Hrx in Hk. cbn [in_rx b2n] in *.
      revert Hk. generalize (b2n (fs s d t f)). intros k Hk. kinv_done.
    + rewrite fn_lookup_insert_ne by done.
      assert (fs s d t f = false) as -> by (apply bool_decide_false; intros (_ & _ & <-); by apply Hne).
      exact Hk.
Qed.

Lemma cinv_ret w p x c b pr :
  cinv w -> valid_pe p -> gdr_process_amos_ack_turn handle_info 0 (procs w p) = Ret (Some (0, pr, [PRecv x])) ->
  ctxs (procs w p) !! x = Some c -> c_ep c = Some b ->
  forall w', w' = MkWorld (<[p := pr]> (procs w)) (net w) (cq w) ((target_ep p b, x) :: posted w) (tx w) (rx w)
      (own w) (outs w) (next_id w) (log w) ->
  step w w' -> cinv w'.
Proof.
  intros Hc Hp H _ _ w' -> Hst. pose proof (ptr_step _ _ Hc Hst) as Hpt. clear Hst.
  apply gdr_process_amos_ack_turn_inv in H as (l & a1 & v1 & a2 & v2 & Hl & ->).
  match goal with |- cinv (MkWorld (<[p := ?pr]> _) _ _ _ _ _ _ _ _ _) => set (pr' := pr) in * end.
  assert (Hsame : proc_same (procs w p) pr') by (split; [intros b'; by destruct b' | done]).
  eapply (cinv_frame w); [done| |done| |apply (ci_net _ Hc)|by left|apply (ci_rx _ Hc)|apply (ci_tx _ Hc)| |apply (ci_ops _ Hc)|].
  - refine (frame_proc w _ p _ Hc _ Hsame _ _ _); done.
  - cbn [posted]. apply list.Forall_cons. split; [by apply target_ep_valid | apply (ci_posted _ Hc)].
  - eapply seq_other; [done | reflexivity | reflexivity |]. intros b'. by destruct b'.
  - intros s d t Hsv Hd Hstg. destruct (kview_parts w p _ s Hsame _ eq_refl) as [Hm Hq].
    pose proof (ci_key _ Hc s d t Hsv Hd Hstg) as Hk. unfold kview in *. unfold ep_at at 1. cbn [procs net cq tx rx own outs].
    rewrite Hm, Hq. exact Hk.
Qed.
End target.
