(* ===== verification/LibfabricCq.v ===== *)
(** * The libfabric transport: handling a completion keeps the accounting

    Every handler of completions keeps the accounting, so it holds in every state
    that processes and fabric can reach, as long as no put-with-signal has 2^16
    writes or more.  Consequence: handling a completion with a context (only those
    of the consistency read have none) never fails an assertion, never follows a
    null pointer and never reports an error. *)
From stdpp Require Import base gmap list functions.
From S2P Require Import Prelude ProxyChannel Rma Libfabric LibfabricOps LibfabricNet LibfabricInv LibfabricCont LibfabricStep.
Open Scope Z_scope.

Lemma cq_keep l1 l2 (ea0 : Z * arrival) w ea : cq w = l1 ++ ea0 :: l2 -> ea ∈ l1 ++ l2 -> ea ∈ cq w.
Proof. intros -> [H|H]%elem_of_app; apply elem_of_app; [by left | right; by right]. Qed.

Lemma cq_entry_ok w l1 l2 ea : cinv w -> cq w = l1 ++ ea :: l2 -> arrival_ok w ea.
Proof. intros Hc E. pose proof (ci_cq _ Hc) as H. rewrite E, list.Forall_app, list.Forall_cons in H. tauto. Qed.

Lemma used_mono keep keep' w p x : (forall ea, ea ∈ keep -> ea ∈ keep') -> used keep w p x -> used keep' w p x.
Proof. intros H [(e & src & Hin & He)|Hu]; [left; eauto | by right]. Qed.

Lemma placed_mono keep keep' w f : (forall ea, ea ∈ keep -> ea ∈ keep') -> placed keep w f -> placed keep' w f.
Proof. intros H (x & Hu & Ho). exists x. split; [by eapply used_mono | done]. Qed.

(** The context of the completion being handled is in no other place. *)
Definition arrival_ctx (a : arrival) : option Z :=
  match a with ARecv _ x => Some x | ALocal x _ => x | AImm _ _ _ => None end.

Lemma cq_other w l1 l2 e a x y :
  cinv w -> cq w = l1 ++ (e, a) :: l2 -> arrival_ctx a = Some x -> used (l1 ++ l2) w (pe_of e) y -> y <> x.
Proof.
  intros Hc Hq Ha Hu ->. pose proof (ci_ptr _ Hc (pe_of e) x) as Hp. unfold pcount, proc_ptrs in Hp.
  rewrite Hq, cnt_app in Hp. cbn [cnt] in Hp.
  assert (in_cq (pe_of e) x (e, a) = true) as E1.
  { unfold in_cq, isox, isx. cbn [fst snd]. rewrite bool_decide_true by done. destruct a; simplify_eq/=; by apply bool_decide_true. }
  rewrite E1 in Hp. cbn [b2n] in Hp.
  destruct Hu as [(e' & src & Hin & He)|[(b & key & k & Hk)|Hin]].
  - assert (in_cq (pe_of e) x (e', ARecv src x) = true) as E2.
    { unfold in_cq, isx. cbn [fst snd]. by rewrite !bool_decide_true by done. }
    pose proof (cnt_in _ _ _ Hin E2) as H. rewrite cnt_app in H. lia.
  - apply map_ptrs_lookup in Hk. destruct b; lia.
  - assert (isx x x = true) as E2 by (by apply bool_decide_true).
    pose proof (cnt_in _ _ _ Hin E2). lia.
Qed.

Lemma aw_write s d t (e src imm id : Z) :
  is_ack imm = false -> aw s d t (e, AImm src imm id) = bool_decide (src = s /\ e = d /\ inl imm = t).
Proof.
  intros Ha. unfold aw. cbn [fst snd]. destruct t; [rewrite Ha; cbn [negb andb]; apply bool_decide_ext; naive_solver|].
  symmetry. apply bool_decide_false. naive_solver.
Qed.

Lemma map_not_cq w e src x b key k :
  cinv w -> (e, ARecv src x) ∈ cq w -> proxy_put_signal_comp_map (ep b (procs w (pe_of e))) !! key = Some (Some x, k) -> False.
Proof.
  intros Hc Hin Hk. pose proof (ci_ptr _ Hc (pe_of e) x) as Hp. unfold pcount, proc_ptrs in Hp.
  assert (in_cq (pe_of e) x (e, ARecv src x) = true) as E2.
  { unfold in_cq, isx. cbn [fst snd]. by rewrite !bool_decide_true by done. }
  pose proof (cnt_in _ _ _ Hin E2). apply map_ptrs_lookup in Hk. destruct b; lia.
Qed.

Section steps.
Context {handle_info : Z -> option (Z * Z)} {use_gdrcopy : bool} {ack_addr ack_key : Z -> Z} {mr_key : Z -> bool -> Z}.
Abbreviation step := (step handle_info use_gdrcopy ack_addr ack_key mr_key).

(** The world after a completion was handled. *)
Definition after_cq (w : world) (l1 l2 : list (Z * arrival)) (e : Z) (a : arrival) (pr : proc) : world :=
  MkWorld (<[pe_of e := pr]> (procs w)) (net w) (l1 ++ l2) (posted w) (tx w) (rx w) (own w)
    (<[e := retire a (outs w e)]> (outs w)) (next_id w) (log w).

Lemma after_cq_outs w l1 l2 e a pr s :
  retire a (outs w e) = outs w e -> outs (after_cq w l1 l2 e a pr) s = outs w s.
Proof. intros E. cbn. rewrite E. destruct (decide (e = s)) as [<-|]; [by rewrite fn_lookup_insert | by rewrite fn_lookup_insert_ne]. Qed.

Lemma flight_ok_outs O O' f : (forall s, O' s = O s) -> flight_ok O f -> flight_ok O' f.
Proof. intros E Hf. apply (flight_ok_ext O); [done|]. intros t _. by rewrite E. Qed.

(** The parts that a completion without an acknowledgement leaves alone. *)
Lemma after_cq_keep w l1 l2 e a pr :
  cinv w -> retire a (outs w e) = outs w e ->
  (forall b, put_signal_seq_counter (ep b pr) = put_signal_seq_counter (ep b (procs w (pe_of e)))) ->
  let w' := after_cq w l1 l2 e a pr in
  Forall (flight_ok (outs w')) (net w') /\ (forall p, rx_ok w' p) /\ (forall s, valid_ep s -> tx_ok w' s) /\
  (forall s, valid_ep s -> seq_ok (put_signal_seq_counter (ep_at w' s)) (seqs_of (outs w' s))) /\
  (forall s t o, outs w' s !! t = Some o -> op_ok (next_id w') t o) /\
  (forall f, flight_ok (outs w) f -> flight_ok (outs w') f).
Proof.
  intros Hc Hr He w'. pose proof (after_cq_outs w l1 l2 e a pr) as HO.
  assert (Hfl : forall f, flight_ok (outs w) f -> flight_ok (outs w') f).
  { intros f. apply flight_ok_outs. intros s. by apply HO. }
  split; [eapply list.Forall_impl; [apply (ci_net _ Hc) | auto]|].
  split. { intros p f r Hrx. destruct (ci_rx _ Hc p f r Hrx) as (? & ? & ?). split; [done|]. split; [auto|done]. }
  split. { intros s Hs c Htx. destruct (ci_tx _ Hc s Hs c Htx) as (? & ? & o & Ho & ?). split; [done|]. split; [done|].
           exists o. subst w'. by rewrite HO. }
  split. { intros s Hs. subst w'. rewrite HO by done. pose proof (ci_seq _ Hc s Hs) as H. unfold ep_at in *. cbn [procs after_cq].
           destruct (decide (pe_of e = pe_of s)) as [E|]; [|by rewrite fn_lookup_insert_ne].
           rewrite E, fn_lookup_insert, He, E. exact H. }
  split; [|done]. intros s t o. subst w'. rewrite HO by done. apply (ci_ops _ Hc).
Qed.

(** A local completion frees its context. *)
Lemma cinv_cq_local w l1 l2 e x is_send pr :
  cinv w -> cq w = l1 ++ (e, ALocal x is_send) :: l2 ->
  gdr_process_completion (is_proxy_of e) (entry_of (ALocal x is_send)).1 (entry_of (ALocal x is_send)).2 (procs w (pe_of e)) = Ret (0, pr) ->
  step w (after_cq w l1 l2 e (ALocal x is_send) pr) -> cinv (after_cq w l1 l2 e (ALocal x is_send) pr).
Proof.
  intros Hc Hq H Hst. pose proof (ptr_step _ _ Hc Hst) as Hpt. clear Hst.
  apply process_local_inv in H as (x' & c & c0 & -> & _ & _ & ->).
  set (pr := set_queue _ _) in *.
  assert (Hsame : proc_same (procs w (pe_of e)) pr) by (split; [intros b; by destruct b | done]).
  destruct (after_cq_keep w l1 l2 e (ALocal (Some x') is_send) pr Hc eq_refl) as (Hn & Hr & Ht & Hs & Ho & Hfl).
  { intros b. by destruct b. }
  eapply (cinv_frame_gen w _ (l1 ++ l2) None); try done; try apply (ci_posted _ Hc).
  - split; cbn [procs own after_cq].
    + intros p b key y k. fn_case; [rewrite (ps_map _ _ Hsame)|]; eauto.
    + intros p y. fn_case; [by rewrite (ps_queue _ _ Hsame) | done].
    + done.
    + intros p y Hu _. fn_case; [|done]. cbn. rewrite lookup_insert_ne; [done|].
      intros ->. by apply (cq_other w l1 l2 e (ALocal (Some y) is_send) y y Hc Hq eq_refl Hu).
    + intros f _. apply Hfl.
  - intros ea. by apply cq_keep with (ea0 := (e, ALocal (Some x') is_send)).
  - intros ea Hin. by left.
  - intros s d t Hsv Hd Hstg. destruct (kview_parts w _ _ s Hsame _ eq_refl) as [Hm Hqq].
    pose proof (ci_key _ Hc s d t Hsv Hd Hstg) as Hk. unfold kview in *. rewrite after_cq_outs by done. unfold ep_at at 1.
    cbn [procs net cq tx rx own after_cq]. rewrite Hm, Hqq. rewrite Hq in Hk. rewrite !cnt_app in *. cbn [cnt] in Hk.
    replace (aw s d t (e, ALocal (Some x') is_send)) with false in Hk by (by destruct t). exact Hk.
Qed.

Lemma imm_seq_range imm : 0 <= imm_seq imm < 2 ^ 28.
Proof.
  unfold imm_seq. change NVSHMEM_STAGED_AMO_PUT_SIGNAL_SEQ_CNTR_BIT_MASK with (Z.ones 28).
  rewrite Z.land_ones by lia. apply Z.mod_pos_bound. lia.
Qed.

(** ** Acknowledgements

    When the acknowledgement of an operation is at the sender, no other part of
    the operation is anywhere. *)
Lemma b2n_zero b : b2n b = 0%nat -> b = false.
Proof. by destruct b. Qed.

Lemma ack_alone w l1 l2 e src imm id :
  cinv w -> cq w = l1 ++ (e, AImm src imm id) :: l2 -> is_ack imm = true ->
  let t := ack_tag (imm_seq imm) id in
  exists o, outs w e !! t = Some o /\ o_dst o = src /\
    in_tx e src t (tx w e) = false /\ tx_rem e src t (tx w e) = 0%nat /\
    cnt (fw e src t) (net w) = 0%nat /\ cnt (aw e src t) (cq w) = 0%nat /\
    cnt (fs e src t) (net w) = 0%nat /\ cnt (ar (own w) e src t) (cq w) = 0%nat /\ map_entry e t (ep_at w src) = None /\
    cnt (held (own w (pe_of src)) e src t) (q_other_recv (queue (procs w (pe_of src)))) = 0%nat /\
    in_rx e src t (rx w (pe_of src)) = false /\ cnt (fa e src t) (net w) = 0%nat /\ cnt (aa e src t) (l1 ++ l2) = 0%nat.
Proof.
  intros Hc Hq Ha t. destruct (cq_entry_ok _ _ _ _ Hc Hq) as [He [Hsv _]]. cbn [fst snd] in *.
  assert (Hstg : seq_tag t).
  { subst t. unfold ack_tag. case_bool_decide as E; [done|]. cbn. pose proof (imm_seq_range imm).
    change NVSHMEM_STAGED_AMO_SEQ_NUM with (2 ^ 28 - 1) in *. lia. }
  pose proof (ci_key _ Hc e src t He Hsv Hstg) as Hk. unfold kview in Hk.
  assert (Haa : cnt (aa e src t) (cq w) = S (cnt (aa e src t) (l1 ++ l2))).
  { rewrite Hq, !cnt_app. cbn [cnt]. assert (aa e src t (e, AImm src imm id) = true) as ->.
    { unfold aa. cbn [fst snd]. rewrite Ha. cbn [andb]. by apply bool_decide_true. }
    cbn [b2n]. lia. }
  rewrite Haa in Hk. unfold op_writes in Hk. destruct (outs w e !! t) as [o|] eqn:Eo; [|unfold kinv in Hk; lia].
  case_bool_decide as Ed; [|unfold kinv in Hk; lia]. exists o. split; [done|]. split; [done|].
  unfold kinv in Hk. destruct Hk as [Hrem Hk]. destruct (map_entry e t (ep_at w src)) as [[[] k]|]; [lia | lia |].
  assert (in_tx e src t (tx w e) = false) as -> by (apply b2n_zero; lia).
  assert (in_rx e src t (rx w (pe_of src)) = false) as -> by (apply b2n_zero; lia).
  repeat split; lia.
Qed.

Lemma ack_not_needed w l1 l2 e src imm id f :
  cinv w -> cq w = l1 ++ (e, AImm src imm id) :: l2 -> is_ack imm = true -> flight_ok (outs w) f ->
  (f ∈ net w \/ placed (l1 ++ l2) w f \/ exists r, rx w (pe_of (f_dst f)) = Some (f, r)) ->
  ~ (f_src f = e /\ need f = Some (ack_tag (imm_seq imm) id)).
Proof.
  intros Hc Hq Ha Hfl Hpl [Hs Hn]. destruct (cq_entry_ok _ _ _ _ Hc Hq) as [He [Hsv _]]. cbn [fst snd] in *.
  destruct (ack_alone w l1 l2 e src imm id Hc Hq Ha) as (o & Ho & Hod & _ & _ & Hfw & _ & Hfs & Har & Hm & Hh & Hrx & _ & _).
  set (t := ack_tag (imm_seq imm) id) in *.
  destruct Hfl as (_ & _ & Hneed). destruct (Hneed t Hn) as (_ & o' & Ho' & _ & Hd & _).
  rewrite Hs, Ho in Ho'. injection Ho' as <-. rewrite Hod in Hd. symmetry in Hd.
  assert (Hfst : msg_tag f = Some t -> fs e src t f = true) by (intros E; by apply bool_decide_true).
  destruct Hpl as [Hin|[(x & Hu & Hox)|(r & Hr)]].
  - unfold need in Hn. destruct (f_body f) as [[i|] rg| |m|b0] eqn:Eb.
    + destruct (is_ack i) eqn:Ei; [done|]. injection Hn as Hn.
      assert (fw e src t f = true) as E. { unfold fw. rewrite <- Hn, Eb, Ei. cbn. apply bool_decide_true. by split. }
      pose proof (cnt_in _ _ _ Hin E). lia.
    + by unfold msg_tag in Hn; rewrite Eb in Hn.
    + by unfold msg_tag in Hn; rewrite Eb in Hn.
    + pose proof (cnt_in _ _ _ Hin (Hfst Hn)). lia.
    + by unfold msg_tag in Hn; rewrite Eb in Hn.
  - rewrite Hd in *. destruct Hu as [(e' & src' & Hin & He')|[(b & key & k & Hkey)|Hin]].
    + pose proof (cq_keep _ _ _ _ _ Hq Hin) as Hin'.
      pose proof (proj1 (list.Forall_forall _ _) (ci_cq _ Hc) _ Hin') as [_ (f' & Hf' & _ & _ & _ & Hrec)].
      cbn [fst snd] in *. rewrite He', Hox in Hf'. injection Hf' as <-. rewrite (received_need _ _ _ Hrec) in Hn.
      assert (ar (own w) e src t (e', ARecv src' x) = true) as E.
      { unfold ar, held. cbn [fst snd]. rewrite He', Hox. by apply Hfst. }
      pose proof (cnt_in _ _ _ Hin' E). lia.
    + assert (Hep : proxy_put_signal_comp_map (ep_at w (target_ep (pe_of src) b)) !! key = Some (Some x, k)).
      { unfold ep_at. by rewrite target_ep_pe, target_ep_proxy. }
      assert (Hval : valid_ep (target_ep (pe_of src) b)).
      { by apply target_ep_valid, pe_of_valid. }
      destruct (ci_map _ Hc _ Hval _ _ _ Hep) as (f' & sg & Hf' & Hb & Hdst & Hkk & _).
      rewrite target_ep_pe, Hox in Hf'. injection Hf' as <-. rewrite Hd in Hdst.
      unfold need, msg_tag in Hn. rewrite Hb in Hn. injection Hn as Hn.
      unfold map_entry in Hm. rewrite <- Hn, Hdst in Hm. rewrite <- Hs, <- Hkk, Hep in Hm. done.
    + destruct (ci_queue _ Hc _ _ Hin) as (f' & Hf' & _ & _ & Hrd). rewrite Hox in Hf'. injection Hf' as <-.
      destruct (ready_msg _ _ _ Hrd) as [t' Ht']. pose proof (need_msg _ _ Ht') as E'. rewrite Hn in E'. injection E' as <-.
      assert (held (own w (pe_of src)) e src t x = true) as E by (unfold held; rewrite Hox; by apply Hfst).
      pose proof (cnt_in _ _ _ Hin E). lia.
  - rewrite Hd in Hr. destruct (ci_rx _ Hc _ _ _ Hr) as (_ & _ & _ & _ & _ & Hmt).
    pose proof (need_msg _ _ Hmt) as E'. rewrite Hn in E'. injection E' as E'.
    rewrite Hr in Hrx. unfold in_rx in Hrx. rewrite Hfst in Hrx; [done | congruence].
Qed.

(** The counter after an acknowledgement. *)
Lemma ack_completion_seq e en e' m o id :
  put_signal_ack_completion e en = Ret e' -> seq_ok (put_signal_seq_counter e) (seqs_of m) ->
  m !! ack_tag (imm_seq (e_data en)) id = Some o ->
  seq_ok (put_signal_seq_counter e') (seqs_of (delete (ack_tag (imm_seq (e_data en)) id) m)) /\
  proxy_put_signal_comp_map e' = proxy_put_signal_comp_map e.
Proof.
  unfold put_signal_ack_completion, ack_tag. fold (imm_seq (e_data en)).
  rewrite (wrap_small 32) by (pose proof (imm_seq_range (e_data en)); unfold in_u; lia).
  case_bool_decide as Eres; cbn [negb]; intros H Hs Hm.
  - cbn [mbind outcome_bind] in H. simplify_eq. split; [|done]. cbn [put_signal_seq_counter].
    eapply seq_ok_perm; [by eapply seqs_of_delete_amo | done].
  - destruct (return_acked_spec _ _ _ _ Hs (seqs_of_delete_seq _ _ _ Hm)) as (c' & Hr & Hok).
    rewrite Hr in H. cbn [mbind outcome_bind] in H. by simplify_eq.
Qed.

Lemma op_writes_delete m t0 o d t :
  m !! t0 = Some o -> (t, d) <> (t0, o_dst o) -> op_writes (delete t0 m) d t = op_writes m d t.
Proof.
  intros Hm Hne. unfold op_writes. destruct (decide (t = t0)) as [->|].
  - rewrite lookup_delete_eq, Hm, bool_decide_false; [done|]. intros E. by rewrite E in Hne.
  - by rewrite lookup_delete_ne.
Qed.

Lemma cinv_cq_ack w l1 l2 e src imm id pr :
  cinv w -> cq w = l1 ++ (e, AImm src imm id) :: l2 -> is_ack imm = true ->
  gdr_process_completion (is_proxy_of e) (entry_of (AImm src imm id)).1 (entry_of (AImm src imm id)).2 (procs w (pe_of e)) = Ret (0, pr) ->
  step w (after_cq w l1 l2 e (AImm src imm id) pr) -> cinv (after_cq w l1 l2 e (AImm src imm id) pr).
Proof.
  intros Hc Hq Ha H Hst. pose proof (ptr_step _ _ Hc Hst) as Hpt. clear Hst.
  destruct (cq_entry_ok _ _ _ _ Hc Hq) as [He [Hsv _]]. cbn [fst snd] in *.
  apply process_ack_inv in H as (e' & He' & ->); [|done].
  destruct (ack_alone w l1 l2 e src imm id Hc Hq Ha)
    as (o & Ho & Hod & Htx & Htr & Hfw & Haw & Hfs & Har & Hm & Hh & Hrx & Hfa & Haa).
  set (t0 := ack_tag (imm_seq imm) id) in *.
  assert (Hret : retire (AImm src imm id) (outs w e) = delete t0 (outs w e)) by (cbn; by rewrite Ha).
  pose proof (ci_seq _ Hc e He) as Hseq. unfold ep_at in Hseq.
  destruct (ack_completion_seq _ _ _ _ o id He' Hseq Ho) as [Hseq' Hmap']. cbn [entry_of fst e_data] in Hseq'. fold t0 in Hseq'.
  assert (Hsame : proc_same (procs w (pe_of e)) (set_ep (is_proxy_of e) e' (procs w (pe_of e)))).
  { split; [|by rewrite queue_set_ep]. intros b. rewrite ep_set_ep. case_bool_decide as Eb; [by rewrite <- Eb | done]. }
  assert (Hkeep : forall f, flight_ok (outs w) f ->
      (f ∈ net w \/ placed (l1 ++ l2) w f \/ exists r, rx w (pe_of (f_dst f)) = Some (f, r)) ->
      flight_ok (<[e := delete t0 (outs w e)]> (outs w)) f).
  { intros f Hf Hpl. apply flight_ok_delete; [done|]. by eapply ack_not_needed. }
  unfold after_cq in *. rewrite Hret in *.
  eapply (cinv_frame_gen w _ (l1 ++ l2) None); try done; try apply (ci_posted _ Hc).
  - split; cbn [procs own outs].
    + intros p b key y k. fn_case; [rewrite (ps_map _ _ Hsame)|]; eauto.
    + intros p y. fn_case; [by rewrite (ps_queue _ _ Hsame) | done].
    + done.
    + intros p y _ _. fn_case; [by rewrite ctxs_set_ep | done].
    + intros f Hpl Hf. by apply Hkeep; auto.
  - intros ea. by apply cq_keep with (ea0 := (e, AImm src imm id)).
  - cbn [net outs]. apply list.Forall_forall. intros f Hf. apply Hkeep; [|by left].
    by apply (proj1 (list.Forall_forall _ _) (ci_net _ Hc)).
  - intros ea Hin. by left.
  - intros p f r Hr. cbn [rx outs] in *. destruct (ci_rx _ Hc p f r Hr) as (Hp & Hf & Hrest). split; [done|]. split; [|done].
    apply Hkeep; [done|]. right; right. exists r. by rewrite Hp.
  - intros s Hs c Hcx. cbn [tx outs] in *. destruct (ci_tx _ Hc s Hs c Hcx) as (Hpe & Hsq & o1 & Ho1 & Hid & Hd1 & Hl).
    split; [done|]. split; [done|]. exists o1. split; [|done].
    destruct (decide (e = s)) as [<-|]; [|by rewrite fn_lookup_insert_ne]. rewrite fn_lookup_insert.
    rewrite lookup_delete_ne; [done|]. intros E. rewrite E in Ho. rewrite Ho1 in Ho. injection Ho as ->.
    rewrite Hcx in Htx. rewrite in_tx_seq in Htx. apply bool_decide_eq_false in Htx. apply Htx.
    split; [by rewrite E | congruence].
  - intros s Hs. unfold ep_at. cbn [procs outs]. destruct (decide (e = s)) as [<-|Hne].
    + by rewrite !fn_lookup_insert, ep_set_ep_eq.
    + rewrite (fn_lookup_insert_ne (outs w)) by done. pose proof (ci_seq _ Hc s Hs) as Hx. unfold ep_at in Hx.
      destruct (decide (pe_of e = pe_of s)) as [E|]; [|by rewrite fn_lookup_insert_ne].
      rewrite E, fn_lookup_insert, ep_set_ep, bool_decide_false; [exact Hx|].
      intros Eb. apply Hne. by rewrite <- (target_ep_eta e), E, Eb, target_ep_eta.
  - intros s t o1. cbn [outs next_id]. intros Ht. apply (ci_ops _ Hc s).
    destruct (decide (e = s)) as [<-|]; [|by rewrite fn_lookup_insert_ne in Ht].
    rewrite fn_lookup_insert in Ht. by apply lookup_delete_Some in Ht as [_ ?].
  - intros s d t Hs Hd Hstg. destruct (kview_parts w _ _ s Hsame _ eq_refl) as [Hmm Hqq].
    pose proof (ci_key _ Hc s d t Hs Hd Hstg) as Hk. unfold kview in *. unfold ep_at at 1.
    cbn [procs net cq tx rx own outs]. rewrite Hmm, Hqq.
    assert (Ear : cnt (ar (own w) s d t) (cq w) = cnt (ar (own w) s d t) (l1 ++ l2)).
    { rewrite Hq, !cnt_app. cbn [cnt]. by change (ar (own w) s d t (e, AImm src imm id)) with false. }
    assert (Eaw : cnt (aw s d t) (cq w) = cnt (aw s d t) (l1 ++ l2)).
    { rewrite Hq, !cnt_app. cbn [cnt]. replace (aw s d t (e, AImm src imm id)) with false; [done|].
      unfold aw. cbn [fst snd]. destruct t; [by rewrite Ha | done]. }
    assert (Eaa : cnt (aa s d t) (cq w) = (b2n (bool_decide (src = d /\ e = s /\ t0 = t)) + cnt (aa s d t) (l1 ++ l2))%nat).
    { rewrite Hq, !cnt_app. cbn [cnt]. replace (aa s d t (e, AImm src imm id)) with (bool_decide (src = d /\ e = s /\ t0 = t)); [lia|].
      unfold aa. cbn [fst snd]. by rewrite Ha. }
    rewrite Eaa in Hk. rewrite Ear, Eaw in Hk. case_bool_decide as Ek.
    + destruct Ek as (<- & <- & <-). rewrite fn_lookup_insert. rewrite (op_writes_none _ src t0) by apply lookup_delete_eq.
      rewrite Htx, Htr, Hfw, Hfs, Hm, Hh, Hrx, Hfa, Haa. rewrite <- Ear, <- Eaw, Har, Haw. done.
    + cbn [b2n Nat.add] in Hk. destruct (decide (e = s)) as [<-|]; [|by rewrite fn_lookup_insert_ne].
      rewrite fn_lookup_insert. rewrite (op_writes_delete _ _ o) by (done || (rewrite Hod; intros [= -> ->]; by apply Ek)).
      exact Hk.
Qed.

(** ** Matching writes and signals *)
Lemma match_arrival_cases b key xo n pr pr' :
  match_arrival b key xo n pr pr' ->
  let m := proxy_put_signal_comp_map (ep b pr) in
  let en := comp_entry (m !! key) xo n in
  ctxs pr' = ctxs pr /\ (forall b', put_signal_seq_counter (ep b' pr') = put_signal_seq_counter (ep b' pr)) /\
  (forall b', b' <> b -> proxy_put_signal_comp_map (ep b' pr') = proxy_put_signal_comp_map (ep b' pr)) /\
  ((en.2 <> 0 /\ proxy_put_signal_comp_map (ep b pr') = <[key := en]> m /\
    q_other_recv (queue pr') = q_other_recv (queue pr)) \/
   (en.2 = 0 /\ exists y, en.1 = Some y /\ proxy_put_signal_comp_map (ep b pr') = delete key m /\
    q_other_recv (queue pr') = q_other_recv (queue pr) ++ [y])).
Proof.
  unfold match_arrival. cbv zeta. case_bool_decide as E; intros H.
  - destruct H as (y & Ey & ->). split; [by destruct b|]. split; [intros b'; by destruct b, b'|].
    split; [intros b' Hb; by destruct b, b'|]. right. split; [done|]. exists y. split; [done|]. by destruct b.
  - subst pr'. split; [by destruct b|]. split; [intros b'; by destruct b, b'|].
    split; [intros b' Hb; by destruct b, b'|]. left. split; [done|]. by destruct b.
Qed.

(** The entry of an operation after a write of it was handled. *)
Lemma kinv_match_write nw T rem W C S R M Q X A B :
  Z.of_nat nw < 2 ^ 16 -> kinv (Some nw) T rem W (1 + C) S R M Q X A B ->
  match M with
  | None => kinv (Some nw) T rem W C S R (Some (false, -1)) Q X A B
  | Some (false, k) => s32 (k + -1) <> 0 /\ kinv (Some nw) T rem W C S R (Some (false, s32 (k + -1))) Q X A B
  | Some (true, k) =>
      if bool_decide (s32 (k + -1) = 0) then kinv (Some nw) T rem W C S R None (1 + Q) X A B
      else kinv (Some nw) T rem W C S R (Some (true, s32 (k + -1))) Q X A B
  end.
Proof.
  intros Hnw Hk. destruct M as [[[] k]|].
  - assert (s32 (k + -1) = k + -1) as -> by (apply s32_small; unfold kinv in Hk; lia).
    case_bool_decide; unfold kinv in *; lia.
  - assert (s32 (k + -1) = k + -1) as -> by (apply s32_small; unfold kinv in Hk; lia).
    unfold kinv in *. lia.
  - unfold kinv in *. lia.
Qed.

(** ... and after its signal was handled. *)
Lemma kinv_match_signal nw T rem W C S R M Q X A B :
  Z.of_nat nw < 2 ^ 16 -> kinv (Some nw) T rem W C S (1 + R) M Q X A B ->
  match M with
  | None => if bool_decide (Z.of_nat nw = 0) then kinv (Some nw) T rem W C S R None (1 + Q) X A B
            else kinv (Some nw) T rem W C S R (Some (true, Z.of_nat nw)) Q X A B
  | Some (false, k) =>
      if bool_decide (s32 (k + Z.of_nat nw) = 0) then kinv (Some nw) T rem W C S R None (1 + Q) X A B
      else kinv (Some nw) T rem W C S R (Some (true, s32 (k + Z.of_nat nw))) Q X A B
  | Some (true, _) => False
  end.
Proof.
  intros Hnw Hk. destruct M as [[[] k]|].
  - unfold kinv in Hk. lia.
  - assert (s32 (k + Z.of_nat nw) = k + Z.of_nat nw) as -> by (apply s32_small; unfold kinv in Hk; lia).
    case_bool_decide; unfold kinv in *; lia.
  - case_bool_decide; unfold kinv in *; lia.
Qed.

Lemma map_entry_lookup s n e :
  map_entry s (inl n) e = (fun en : option Z * Z => (bool_decide (is_Some en.1), en.2)) <$>
                            (proxy_put_signal_comp_map e !! comp_map_key s n).
Proof. done. Qed.

Lemma seq_tag_u32 n : seq_tag (inl n) -> 0 <= n < 2 ^ 32.
Proof. cbn. change NVSHMEM_STAGED_AMO_SEQ_NUM with (2 ^ 28 - 1). lia. Qed.

Lemma key_other s n src imm (e d : Z) :
  valid_ep s -> valid_ep src -> seq_tag (inl n) -> seq_tag (inl imm) ->
  ~ (src = s /\ e = d /\ (inl imm : tag) = inl n) -> d = e -> comp_map_key s n <> comp_map_key src imm.
Proof.
  intros Hs Hsr Hn Hi Hne -> E. apply comp_map_key_inj in E as [-> ->]; try done; [by apply Hne | by apply seq_tag_u32..].
Qed.

(** The map seen by the operations other than the one handled. *)
Lemma map_entry_other w e key xo n pr pr' :
  (forall b, proxy_put_signal_comp_map (ep b pr) = proxy_put_signal_comp_map (ep b (procs w (pe_of e)))) ->
  match_arrival (is_proxy_of e) key xo n pr pr' ->
  forall s d t, (forall k, t = inl k -> d = e -> comp_map_key s k <> key) ->
  map_entry s t (ep (is_proxy_of d) ((<[pe_of e := pr']> (procs w)) (pe_of d))) = map_entry s t (ep_at w d).
Proof.
  intros Hpr H s d t Hne. destruct t as [k|k]; [|done]. rewrite !map_entry_lookup. unfold ep_at. f_equal.
  destruct (match_arrival_cases _ _ _ _ _ _ H) as (_ & _ & Hb & Hc).
  destruct (decide (pe_of e = pe_of d)) as [E|]; [|by rewrite fn_lookup_insert_ne].
  rewrite <- E, fn_lookup_insert. destruct (decide (is_proxy_of d = is_proxy_of e)) as [Eb|Eb].
  - assert (d = e) as Ed by (by rewrite <- (target_ep_eta d), <- (target_ep_eta e), E, Eb).
    specialize (Hne k eq_refl Ed). rewrite Eb, <- Hpr.
    destruct Hc as [(_ & -> & _)|(_ & y & _ & -> & _)]; [by rewrite lookup_insert_ne | by rewrite lookup_delete_ne].
  - by rewrite (Hb _ Eb), Hpr.
Qed.

Lemma cinv_cq_write w l1 l2 e src imm id pr :
  cinv w -> cq w = l1 ++ (e, AImm src imm id) :: l2 -> is_ack imm = false ->
  gdr_process_completion (is_proxy_of e) (entry_of (AImm src imm id)).1 (entry_of (AImm src imm id)).2 (procs w (pe_of e)) = Ret (0, pr) ->
  step w (after_cq w l1 l2 e (AImm src imm id) pr) -> cinv (after_cq w l1 l2 e (AImm src imm id) pr).
Proof.
  intros Hc Hq Ha H Hst. pose proof (ptr_step _ _ Hc Hst) as Hpt. clear Hst.
  destruct (cq_entry_ok _ _ _ _ Hc Hq) as [He [Hsv Htag]]. cbn [fst snd] in *. specialize (Htag Ha).
  apply process_write_inv in H; [|done].
  pose proof (match_arrival_cases _ _ _ _ _ _ H) as (Hctx & Hsc & Hother & Hcase).
  set (m := proxy_put_signal_comp_map (ep (is_proxy_of e) (procs w (pe_of e)))) in *.
  set (key := comp_map_key src imm) in *. set (en := comp_entry (m !! key) None (-1)) in *.
  assert (Hret : retire (AImm src imm id) (outs w e) = outs w e) by (cbn; by rewrite Ha).
  destruct (after_cq_keep w l1 l2 e (AImm src imm id) pr Hc Hret Hsc) as (Hn & Hr & Ht & Hs & Ho & Hfl).
  assert (Hold : forall y, en.1 = Some y -> exists k, m !! key = Some (Some y, k)).
  { intros y. subst en. unfold comp_entry. destruct (m !! key) as [[[z|] k]|]; cbn; [|done..]. intros [= ->]. eauto. }
  assert (Hmaps : forall p b key' y k, proxy_put_signal_comp_map (ep b ((<[pe_of e := pr]> (procs w)) p)) !! key' = Some (Some y, k) ->
            exists k0, proxy_put_signal_comp_map (ep b (procs w p)) !! key' = Some (Some y, k0)).
  { intros p b key' y k. fn_case; [|eauto]. destruct (decide (b = is_proxy_of e)) as [->|Hb]; [|rewrite (Hother _ Hb); eauto].
    fold m. destruct Hcase as [(_ & -> & _)|(_ & z & _ & -> & _)].
    - destruct (decide (key' = key)) as [->|]; [|rewrite lookup_insert_ne by done; eauto].
      rewrite lookup_insert_eq. intros [= E]. apply Hold. by rewrite E.
    - intros [_ E]%lookup_delete_Some. eauto. }
  set (z := match en.1 with Some y => Some (pe_of e, y) | None => None end).
  assert (Hready : forall y, en.1 = Some y -> exists f sg, own w (pe_of e) y = Some f /\ f_body f = BMsg (WSig sg) /\
            f_dst f = e /\ f_src f = src /\ si_sequence_count sg = imm /\ flight_ok (outs w) f /\ ready (ctxs (procs w (pe_of e))) y f).
  { intros y Hy. destruct (Hold y Hy) as [k Hk]. destruct (ci_map _ Hc e He key y k Hk) as (f & sg & Hf & Hb & Hd & Hkey & Hfo & Hrd).
    exists f, sg. pose proof Hfo as (Hvs & _ & Hneed). destruct (Hneed (inl (si_sequence_count sg))) as [Hst _].
    { unfold need, msg_tag. by rewrite Hb. }
    apply comp_map_key_inj in Hkey as [-> ->]; [done | done | done | by apply seq_tag_u32..]. }
  eapply (cinv_frame_gen w _ (l1 ++ l2) z); try done; try apply (ci_posted _ Hc).
  - split; cbn [procs own after_cq]; [eauto| |done| |].
    + intros p y. fn_case; [|done]. destruct Hcase as [(_ & _ & ->)|(_ & y' & Hy' & _ & ->)]; [done|].
      intros [Hin|Hin]%elem_of_app Hz; [done|]. apply list_elem_of_singleton in Hin as ->. subst z. by rewrite Hy' in Hz.
    + intros p y _ _. fn_case; [by rewrite Hctx | done].
    + intros f _. apply Hfl.
  - intros ea. by apply cq_keep with (ea0 := (e, AImm src imm id)).
  - intros e' src' x Hin E. subst z. destruct en.1 as [y|] eqn:Ey; [|done]. injection E as Ep ->.
    destruct (Hold x eq_refl) as [k Hk]. by eapply (map_not_cq w e' src' x (is_proxy_of e)); [|eapply cq_keep|rewrite <- Ep].
  - intros e' key' x k Hv Hk _. destruct (Hmaps _ _ _ _ _ Hk) as [k0 Hk0].
    destruct (ci_map _ Hc e' Hv key' x k0 Hk0) as (f & sg & Hf & Hb & Hd & Hkey & Hfo & Hrd).
    exists f, sg. do 4 (split; [done|]). split; [by apply Hfl|]. cbn [procs after_cq].
    destruct (decide (pe_of e = pe_of e')) as [E|]; [|by rewrite fn_lookup_insert_ne].
    rewrite <- E, fn_lookup_insert, Hctx, E. exact Hrd.
  - intros p x _ E. subst z. destruct en.1 as [y|] eqn:Ey; [|done]. injection E as <- ->.
    destruct (Hready x eq_refl) as (f & sg & Hf & Hb & Hd & _ & _ & Hfo & Hrd). exists f. split; [done|].
    split; [by rewrite Hd|]. split; [by apply Hfl|]. cbn [procs after_cq]. by rewrite fn_lookup_insert, Hctx.
  - intros ea Hin. by left.
  - intros s d t Hsv' Hd Hstg. pose proof (ci_key _ Hc s d t Hsv' Hd Hstg) as Hk. unfold kview in *.
    rewrite after_cq_outs by done. unfold ep_at at 1. cbn [procs net cq tx rx own after_cq].
    assert (Ear : cnt (ar (own w) s d t) (cq w) = cnt (ar (own w) s d t) (l1 ++ l2)).
    { rewrite Hq, !cnt_app. cbn [cnt]. by change (ar (own w) s d t (e, AImm src imm id)) with false. }
    assert (Eaa : cnt (aa s d t) (cq w) = cnt (aa s d t) (l1 ++ l2)).
    { rewrite Hq, !cnt_app. cbn [cnt]. replace (aa s d t (e, AImm src imm id)) with false; [done|].
      unfold aa. cbn [fst snd]. by rewrite Ha. }
    assert (Eaw : cnt (aw s d t) (cq w) = (b2n (bool_decide (src = s /\ e = d /\ inl imm = t)) + cnt (aw s d t) (l1 ++ l2))%nat).
    { rewrite Hq, !cnt_app. cbn [cnt]. replace (aw s d t (e, AImm src imm id)) with (bool_decide (src = s /\ e = d /\ inl imm = t)); [lia|].
      by rewrite aw_write. }
    rewrite Eaw in Hk. rewrite Ear, Eaa in Hk.
    assert (Equeue : cnt (held (own w (pe_of d)) s d t) (q_other_recv (queue ((<[pe_of e := pr]> (procs w)) (pe_of d)))) =
             (b2n (bool_decide (en.2 = 0%Z /\ src = s /\ e = d /\ inl imm = t)) +
              cnt (held (own w (pe_of d)) s d t) (q_other_recv (queue (procs w (pe_of d)))))%nat).
    { destruct (decide (pe_of e = pe_of d)) as [E|Hne]; cycle 1.
      { rewrite fn_lookup_insert_ne by done. rewrite bool_decide_false; [done|]. intros (_ & _ & E & _). by rewrite E in Hne. }
      rewrite <- E, fn_lookup_insert. destruct Hcase as [(Hnz & _ & ->)|(Hz & y & Hy & _ & ->)].
      { rewrite bool_decide_false; [done|]. intros (E0 & _). by apply Hnz. }
      rewrite cnt_app. cbn [cnt]. destruct (Hready y Hy) as (f & sg & Hf & Hb & Hdf & Hsf & Hsq & _).
      replace (held (own w (pe_of e)) s d t y) with (bool_decide (en.2 = 0 /\ src = s /\ e = d /\ inl imm = t)).
      { lia. }
      unfold held, fs, msg_tag. rewrite Hf, Hb, Hsq, Hsf, Hdf. apply bool_decide_ext. split.
      - intros (_ & ? & ? & ?). split; [by f_equal | done].
      - intros (E1 & ? & ?). injection E1 as E1. done. }
    rewrite Equeue. destruct (decide (src = s /\ e = d /\ inl imm = t)) as [Ek|Ek];
      [rewrite (bool_decide_true _ Ek) in Hk | rewrite (bool_decide_false _ Ek) in Hk].
    + destruct Ek as (<- & <- & <-). unfold ep_at in Hk. rewrite map_entry_lookup in Hk. fold m key in Hk.
      rewrite fn_lookup_insert, map_entry_lookup. fold key.
      destruct (op_writes (outs w src) e (inl imm)) as [nw|] eqn:Enw; [|unfold kinv in Hk; cbn [b2n] in Hk; lia].
      assert (Hnw : Z.of_nat nw < 2 ^ 16).
      { unfold op_writes in Enw. destruct (outs w src !! inl imm) as [o|] eqn:Eo; [|done]. case_bool_decide; [|done].
        injection Enw as <-. by apply (ci_ops _ Hc) in Eo as [? _]. }
      apply kinv_match_write in Hk; [|done].
      unfold en, comp_entry in Hcase. destruct (m !! key) as [[first k]|] eqn:Em; cbn [fmap option_fmap option_map fst snd] in *.
      * destruct (bool_decide (is_Some first)) eqn:Ef.
        -- destruct Hcase as [(Hnz & -> & _)|(Hz & y & _ & -> & _)].
           ++ rewrite bool_decide_false in Hk by done. rewrite bool_decide_false by (intros (E0 & _); by apply Hnz).
              rewrite lookup_insert_eq. cbn. by rewrite Ef.
           ++ rewrite bool_decide_true in Hk by done. rewrite bool_decide_true by (split; [exact Hz | done]).
              by rewrite lookup_delete_eq.
        -- destruct Hk as [Hnz Hk]. destruct Hcase as [(_ & -> & _)|(Hz & _)]; [|done].
           rewrite bool_decide_false by (intros (E0 & _); by apply Hnz). rewrite lookup_insert_eq. cbn. by rewrite Ef.
      * destruct Hcase as [(_ & -> & _)|(Hz & _)]; [|done]. rewrite bool_decide_false by (intros (E0 & _); done).
        by rewrite lookup_insert_eq.
    + rewrite bool_decide_false by (intros (_ & E0); by apply Ek). cbn [b2n Nat.add] in Hk |- *.
      rewrite (map_entry_other w e key None (-1) (procs w (pe_of e)) pr ltac:(done) H); [exact Hk|].
      intros k -> Ed. by apply (key_other s k src imm e d).
Qed.

Lemma ar_recv w s d t e src x f :
  own w (pe_of e) x = Some f -> ar (own w) s d t (e, ARecv src x) = fs s d t f.
Proof. intros H. unfold ar, held. cbn [fst snd]. by rewrite H. Qed.

Lemma aw_recv s d t e src x : aw s d t (e, ARecv src x) = false.
Proof. by destruct t. Qed.

(** The converted signal is ready to be applied. *)
Lemma ready_signal cs x c0 f sg :
  f_body f = BMsg (WSig sg) -> c_signal c0 = sg -> 0 <= si_sequence_count sg < 2 ^ 32 ->
  cs !! x = Some (inplace_copy_sig_op_to_gdr_op (is_proxy_of (f_dst f))
     (MkCtx (c_type c0) (c_ep c0) (c_send_amo c0) (c_ret_amo c0) (c_signal c0) (Some (f_src f)))) ->
  ready cs x f.
Proof.
  intros Hb <- Hr Hc. eexists. split; [exact Hc|]. rewrite Hb. cbn. do 3 (split; [done|]).
  unfold am_sequence_count. cbn [am_retflag c_send_amo].
  set (v := am_retflag (c_send_amo c0)).
  replace (v - v mod 2 ^ 32 + si_sequence_count (c_signal c0)) with (si_sequence_count (c_signal c0) + (v / 2 ^ 32) * 2 ^ 32).
  - unfold wrap. rewrite Z.mod_add by lia. by apply Z.mod_small.
  - pose proof (Z.div_mod v (2 ^ 32) ltac:(lia)). lia.
Qed.

Lemma inr_writes w s d id : cinv w -> cnt (fw s d (inr id)) (net w) = 0%nat /\ cnt (aw s d (inr id)) (cq w) = 0%nat /\
  tx_rem s d (inr id) (tx w s) = 0%nat.
Proof. intros _. split; [by apply cnt_zero|]. split; [by apply cnt_zero | done]. Qed.

Lemma cinv_cq_recv_amo w l1 l2 e src x c0 f pr t0 :
  cinv w -> cq w = l1 ++ (e, ARecv src x) :: l2 -> own w (pe_of e) x = Some f -> f_src f = src -> f_dst f = e ->
  flight_ok (outs w) f -> ctxs (procs w (pe_of e)) !! x = Some c0 ->
  t0 = (match f_body f with BMsg (WAmo _) => RECV_TYPE_NOT_ACK | _ => RECV_TYPE_ACK end) ->
  (exists a, f_body f = BMsg (WAmo a) /\ c_type c0 = NVSHMEMT_LIBFABRIC_SEND) \/ (exists r, f_body f = BMsg (WRet r)) ->
  pr = set_queue (putToRecv x t0 (queue (procs w (pe_of e))))
         (set_ctx x (MkCtx (c_type c0) (Some (is_proxy_of e)) (c_send_amo c0) (c_ret_amo c0) (c_signal c0) (Some src))
           (set_ctx x (MkCtx (c_type c0) (c_ep c0) (c_send_amo c0) (c_ret_amo c0) (c_signal c0) (Some src)) (procs w (pe_of e)))) ->
  step w (after_cq w l1 l2 e (ARecv src x) pr) -> cinv (after_cq w l1 l2 e (ARecv src x) pr).
Proof.
  intros Hc Hq Hown Hfs Hfd Hfl Hcx Ht0 Hkind Hpr Hst. pose proof (ptr_step _ _ Hc Hst) as Hpt. clear Hst.
  destruct (cq_entry_ok _ _ _ _ Hc Hq) as [He _]. cbn [fst snd] in *.
  destruct (after_cq_keep w l1 l2 e (ARecv src x) pr Hc eq_refl) as (Hn & Hr & Ht & Hs & Ho & Hfl').
  { intros b. subst pr. by destruct b. }
  assert (Hmap : forall b, proxy_put_signal_comp_map (ep b pr) = proxy_put_signal_comp_map (ep b (procs w (pe_of e)))).
  { intros b. subst pr. by destruct b. }
  assert (Hctx : forall y, y <> x -> ctxs pr !! y = ctxs (procs w (pe_of e)) !! y).
  { intros y Hy. subst pr. cbn. by rewrite !lookup_insert_ne. }
  assert (Hqu : q_other_recv (queue pr) = q_other_recv (queue (procs w (pe_of e))) ++
                  match t0 with RECV_TYPE_NOT_ACK => [x] | RECV_TYPE_ACK => [] end).
  { subst pr. destruct t0; cbn; [by rewrite app_nil_r | done]. }
  eapply (cinv_frame_gen w _ (l1 ++ l2) (Some (pe_of e, x))); try done; try apply (ci_posted _ Hc).
  - split; cbn [procs own after_cq]; [| |done| |].
    + intros p b key y k. fn_case; [rewrite Hmap|]; eauto.
    + intros p y. fn_case; [|done]. rewrite Hqu. intros [Hin|Hin]%elem_of_app Hz; [done|].
      destruct t0; [by apply elem_of_nil in Hin|]. by apply list_elem_of_singleton in Hin as ->.
    + intros p y Hu Hz. fn_case; [|done]. apply Hctx. intros ->. by apply Hz.
    + intros g _. apply Hfl'.
  - intros ea. by apply cq_keep with (ea0 := (e, ARecv src x)).
  - intros e' src' y Hin [= E ->]. apply (cq_other w l1 l2 e (ARecv src y) y y Hc Hq eq_refl); [|done].
    left. eauto.
  - intros e' key y k Hv Hk [= E ->]. exfalso. cbn [procs after_cq ep_at] in Hk. unfold ep_at in Hk. cbn [procs after_cq] in Hk.
    rewrite <- E, fn_lookup_insert, Hmap in Hk. eapply (map_not_cq w e src y); [done| |exact Hk].
    rewrite Hq. apply elem_of_app. right. left.
  - intros p y Hy [= <- ->]. exists f. split; [done|]. split; [by rewrite Hfd|]. split; [by apply Hfl'|].
    cbn [procs after_cq] in Hy |- *. rewrite fn_lookup_insert in Hy |- *. subst pr. eexists. split; [cbn; apply lookup_insert_eq|].
    cbn [c_ep c_src_addr c_type]. rewrite Hfd, Hfs. do 2 (split; [done|]).
    destruct Hkind as [(a & Ha & Hty)|(r & Ha)]; rewrite Ha in *; [done|].
    exfalso. subst t0. rewrite Hqu, app_nil_r in Hy.
    by apply (cq_other w l1 l2 e (ARecv src y) y y Hc Hq eq_refl); [right; right|].
  - intros ea Hin. by left.
  - intros s d t Hsv Hd Hstg. pose proof (ci_key _ Hc s d t Hsv Hd Hstg) as Hk. unfold kview in *.
    rewrite after_cq_outs by done. unfold ep_at at 1. cbn [procs net cq tx rx own after_cq].
    rewrite Hq in Hk. rewrite !cnt_app in *. cbn [cnt] in Hk. rewrite aw_recv in Hk.
    rewrite (ar_recv w s d t e src x f Hown) in Hk. change (aa s d t (e, ARecv src x)) with false in Hk. cbn [b2n Nat.add] in Hk.
    assert (Emap : map_entry s t (ep (is_proxy_of d) ((<[pe_of e := pr]> (procs w)) (pe_of d))) = map_entry s t (ep_at w d)).
    { unfold map_entry, ep_at. destruct t; [|done]. destruct (decide (pe_of e = pe_of d)) as [E|]; [|by rewrite fn_lookup_insert_ne].
      by rewrite <- E, fn_lookup_insert, Hmap. }
    rewrite Emap.
    assert (Eq : cnt (held (own w (pe_of d)) s d t) (q_other_recv (queue ((<[pe_of e := pr]> (procs w)) (pe_of d)))) =
             (cnt (held (own w (pe_of d)) s d t) (q_other_recv (queue (procs w (pe_of d)))) + b2n (fs s d t f))%nat).
    { destruct (decide (pe_of e = pe_of d)) as [E|Hne]; cycle 1.
      { rewrite fn_lookup_insert_ne by done. assert (fs s d t f = false) as ->; [|cbn; lia].
        apply bool_decide_false. intros (_ & _ & E). by rewrite <- E, Hfd in Hne. }
      rewrite <- E, fn_lookup_insert, Hqu, cnt_app. f_equal.
      destruct Hkind as [(a & Ha & Hty)|(r & Ha)]; rewrite Ha in Ht0; subst t0; cbn [cnt].
      - assert (held (own w (pe_of e)) s d t x = fs s d t f) as -> by (unfold held; by rewrite Hown). lia.
      - assert (fs s d t f = false) as ->; [|done]. apply bool_decide_false. unfold msg_tag. rewrite Ha. by intros (? & _). }
    rewrite Eq. destruct (fs s d t f) eqn:Ef; cbn [b2n] in *; [|rewrite Nat.add_0_r; exact Hk].
    apply bool_decide_eq_true in Ef as (Etag & _ & _).
    destruct Hkind as [(a & Ha & Hty)|(r & Ha)]; unfold msg_tag in Etag; rewrite Ha in Etag; [|done]. injection Etag as <-.
    change (map_entry s (inr (f_id f)) (ep_at w d)) with (@None (bool * Z)) in *.
    destruct (inr_writes w s d (f_id f) Hc) as (E1 & E2 & E3). rewrite Hq, cnt_app in E2. cbn [cnt] in E2.
    rewrite E1, E3 in *. kinv_done.
Qed.

Lemma cinv_cq_recv_sig w l1 l2 e src x c0 f sg pr1 pr :
  cinv w -> cq w = l1 ++ (e, ARecv src x) :: l2 -> own w (pe_of e) x = Some f -> f_src f = src -> f_dst f = e ->
  flight_ok (outs w) f -> f_body f = BMsg (WSig sg) -> c_signal c0 = sg ->
  pr1 = set_ctx x (inplace_copy_sig_op_to_gdr_op (is_proxy_of e)
          (MkCtx (c_type c0) (c_ep c0) (c_send_amo c0) (c_ret_amo c0) (c_signal c0) (Some src)))
         (set_ctx x (MkCtx (c_type c0) (c_ep c0) (c_send_amo c0) (c_ret_amo c0) (c_signal c0) (Some src)) (procs w (pe_of e))) ->
  match_arrival (is_proxy_of e) (comp_map_key src (si_sequence_count sg)) (Some x) (si_num_writes sg) pr1 pr ->
  step w (after_cq w l1 l2 e (ARecv src x) pr) -> cinv (after_cq w l1 l2 e (ARecv src x) pr).
Proof.
  intros Hc Hq Hown Hfs Hfd Hfl Hb Hsig Hpr1 H Hst. pose proof (ptr_step _ _ Hc Hst) as Hpt. clear Hst.
  destruct (cq_entry_ok _ _ _ _ Hc Hq) as [He _]. cbn [fst snd] in *.
  assert (Hin0 : (e, ARecv src x) ∈ cq w) by (rewrite Hq; apply elem_of_app; right; left).
  assert (Hpm : forall b, proxy_put_signal_comp_map (ep b pr1) = proxy_put_signal_comp_map (ep b (procs w (pe_of e)))).
  { intros b. subst pr1. by destruct b. }
  pose proof (match_arrival_cases _ _ _ _ _ _ H) as (Hctx & Hsc & Hother & Hcase).
  rewrite Hpm in Hcase. replace (queue pr1) with (queue (procs w (pe_of e))) in Hcase by (by subst pr1).
  set (m := proxy_put_signal_comp_map (ep (is_proxy_of e) (procs w (pe_of e)))) in *.
  set (n := si_sequence_count sg) in *.
  set (key := comp_map_key src n) in *. set (en := comp_entry (m !! key) (Some x) (si_num_writes sg)) in *.
  assert (Hen : en.1 = Some x) by (subst en; unfold comp_entry; by destruct (m !! key) as [[? ?]|]).
  pose proof Hfl as (Hsv & _ & Hneed). destruct (Hneed (inl n)) as (Htag & o & Ho1 & _ & Hod & Hcw).
  { unfold need, msg_tag. by rewrite Hb. }
  unfold counts_writes in Hcw. rewrite Hb in Hcw. rewrite Hfs in *. rewrite Hfd in *.
  destruct (after_cq_keep w l1 l2 e (ARecv src x) pr Hc eq_refl) as (Hn & Hr & Ht & Hs & Ho & Hfl').
  { intros b. rewrite Hsc. subst pr1. by destruct b. }
  assert (Hcx : forall y, y <> x -> ctxs pr !! y = ctxs (procs w (pe_of e)) !! y).
  { intros y Hy. rewrite Hctx. subst pr1. cbn. by rewrite !lookup_insert_ne. }
  assert (Hrdy : ready (ctxs pr) x f).
  { apply (ready_signal _ _ c0 f sg Hb Hsig); [by apply seq_tag_u32|]. rewrite Hctx, Hfs, Hfd. subst pr1. cbn. by rewrite lookup_insert_eq. }
  assert (Hnot : forall p b key' k, pe_of e = p -> proxy_put_signal_comp_map (ep b (procs w p)) !! key' = Some (Some x, k) -> False).
  { intros p b key' k <- Hk. by eapply map_not_cq. }
  eapply (cinv_frame_gen w _ (l1 ++ l2) (Some (pe_of e, x))); try done; try apply (ci_posted _ Hc).
  - split; cbn [procs own after_cq]; [| |done| |].
    + intros p b key' y k. fn_case; [|eauto]. destruct (decide (b = is_proxy_of e)) as [->|Hbne]; [|rewrite (Hother _ Hbne), Hpm; eauto].
      fold m. destruct Hcase as [(_ & -> & _)|(_ & y' & _ & -> & _)].
      * destruct (decide (key' = key)) as [->|]; [|rewrite lookup_insert_ne by done; eauto].
        rewrite lookup_insert_eq. intros [= E] Hz. rewrite E in Hen. cbn in Hen. injection Hen as ->. done.
      * intros [_ E]%lookup_delete_Some. eauto.
    + intros p y. fn_case; [|done]. destruct Hcase as [(_ & _ & ->)|(_ & y' & Hy' & _ & ->)]; [done|].
      intros [Hin|Hin]%elem_of_app Hz; [done|]. apply list_elem_of_singleton in Hin as ->. rewrite Hen in Hy'. by injection Hy' as ->.
    + intros p y Hu Hz. fn_case; [|done]. apply Hcx. intros ->. by apply Hz.
    + intros g _. apply Hfl'.
  - intros ea. by apply cq_keep with (ea0 := (e, ARecv src x)).
  - intros e' src' y Hin [= E ->]. apply (cq_other w l1 l2 e (ARecv src y) y y Hc Hq eq_refl); [|done]. left. eauto.
  - intros e' key' y k Hv Hk [= E ->]. unfold ep_at in Hk. cbn [procs after_cq] in Hk. rewrite <- E, fn_lookup_insert in Hk.
    destruct (decide (is_proxy_of e' = is_proxy_of e)) as [Eb|Eb]; [|rewrite (Hother _ Eb), Hpm in Hk; exfalso; exact (Hnot _ _ _ _ eq_refl Hk)].
    assert (e' = e) as -> by (by rewrite <- (target_ep_eta e'), <- (target_ep_eta e), E, Eb).
    destruct (decide (key' = key)) as [->|Hne].
    + exists f, sg. cbn [own procs after_cq]. rewrite fn_lookup_insert, Hfs. do 4 (split; [done|]). split; [by apply Hfl' | done].
    + exfalso. destruct Hcase as [(_ & Em & _)|(_ & y' & _ & Em & _)]; rewrite Em in Hk.
      * rewrite lookup_insert_ne in Hk by done. exact (Hnot _ _ _ _ eq_refl Hk).
      * apply lookup_delete_Some in Hk as [_ Hk]. exact (Hnot _ _ _ _ eq_refl Hk).
  - intros p y Hy [= <- ->]. exists f. cbn [own procs after_cq]. rewrite fn_lookup_insert, Hfd.
    do 2 (split; [done|]). split; [by apply Hfl' | done].
  - intros ea Hin. by left.
  - intros s d t Hsv' Hd Hstg. pose proof (ci_key _ Hc s d t Hsv' Hd Hstg) as Hk. unfold kview in *.
    rewrite after_cq_outs by done. unfold ep_at at 1. cbn [procs net cq tx rx own after_cq].
    rewrite Hq in Hk. rewrite !cnt_app in *. cbn [cnt] in Hk. rewrite aw_recv in Hk.
    rewrite (ar_recv w s d t e src x f Hown) in Hk. change (aa s d t (e, ARecv src x)) with false in Hk. cbn [b2n Nat.add] in Hk.
    assert (Efs : fs s d t f = bool_decide (src = s /\ e = d /\ inl n = t)).
    { unfold fs, msg_tag. rewrite Hb, Hfs, Hfd. apply bool_decide_ext. split.
      - intros (E1 & ? & ?). injection E1 as E1. done.
      - intros (? & ? & E1). split; [by f_equal | done]. }
    assert (Equeue : cnt (held (own w (pe_of d)) s d t) (q_other_recv (queue ((<[pe_of e := pr]> (procs w)) (pe_of d)))) =
             (b2n (bool_decide (en.2 = 0%Z /\ src = s /\ e = d /\ inl n = t)) +
              cnt (held (own w (pe_of d)) s d t) (q_other_recv (queue (procs w (pe_of d)))))%nat).
    { destruct (decide (pe_of e = pe_of d)) as [E|Hne]; cycle 1.
      { rewrite fn_lookup_insert_ne by done. rewrite bool_decide_false; [done|]. intros (_ & _ & E & _). by rewrite E in Hne. }
      rewrite <- E, fn_lookup_insert. destruct Hcase as [(Hnz & _ & ->)|(Hz & y & Hy & _ & ->)].
      { rewrite bool_decide_false; [done|]. intros (E0 & _). by apply Hnz. }
      rewrite Hen in Hy. injection Hy as <-. rewrite cnt_app. cbn [cnt].
      replace (held (own w (pe_of e)) s d t x) with (bool_decide (en.2 = 0 /\ src = s /\ e = d /\ inl n = t)); [lia|].
      unfold held. rewrite Hown, Efs. apply bool_decide_ext. split; [by intros (_ & ?) | by split]. }
    rewrite Equeue, Efs in *. destruct (decide (src = s /\ e = d /\ inl n = t)) as [Ek|Ek];
      [rewrite (bool_decide_true _ Ek) in Hk | rewrite (bool_decide_false _ Ek) in Hk].
    + destruct Ek as (<- & <- & <-). unfold ep_at in Hk. rewrite map_entry_lookup in Hk. fold m key in Hk.
      rewrite fn_lookup_insert, map_entry_lookup. fold key.
      assert (Enw : op_writes (outs w src) e (inl n) = Some (length (o_writes o))).
      { unfold op_writes. rewrite Ho1. by rewrite bool_decide_true. }
      rewrite Enw in *. apply (ci_ops _ Hc) in Ho1 as [Hnw _]. cbn [b2n] in Hk.
      replace (cnt (ar (own w) src e (inl n)) l1 + (1 + cnt (ar (own w) src e (inl n)) l2))%nat
        with (1 + (cnt (ar (own w) src e (inl n)) l1 + cnt (ar (own w) src e (inl n)) l2))%nat in Hk by lia.
      apply kinv_match_signal in Hk; [|done]. rewrite <- Hcw in Hk.
      unfold en, comp_entry in Hcase. unfold en, comp_entry.
      destruct (m !! key) as [[first k]|] eqn:Em; cbn [fmap option_fmap option_map fst snd] in *.
      * destruct (bool_decide (is_Some first)) eqn:Ef; [done|].
        destruct Hcase as [(Hnz & -> & _)|(Hz & y & _ & -> & _)].
        -- rewrite bool_decide_false in Hk by done. rewrite bool_decide_false by (intros (E0 & _); by apply Hnz).
           rewrite lookup_insert_eq. exact Hk.
        -- rewrite bool_decide_true in Hk by done. rewrite bool_decide_true by (split; [exact Hz | done]).
           by rewrite lookup_delete_eq.
      * destruct Hcase as [(Hnz & -> & _)|(Hz & y & _ & -> & _)].
        -- rewrite bool_decide_false in Hk by done. rewrite bool_decide_false by (intros (E0 & _); by apply Hnz).
           rewrite lookup_insert_eq. exact Hk.
        -- rewrite bool_decide_true in Hk by done. rewrite bool_decide_true by (split; [exact Hz | done]).
           by rewrite lookup_delete_eq.
    + rewrite bool_decide_false by (intros (_ & E0); by apply Ek). cbn [b2n Nat.add] in Hk |- *.
      rewrite (map_entry_other w e key (Some x) (si_num_writes sg) pr1 pr Hpm H); [exact Hk|].
      intros k -> Ed. by apply (key_other s k src n e d).
Qed.

Lemma cinv_cq w l1 l2 e a pr :
  cinv w -> cq w = l1 ++ (e, a) :: l2 ->
  gdr_process_completion (is_proxy_of e) (entry_of a).1 (entry_of a).2 (procs w (pe_of e)) = Ret (0, pr) ->
  step w (after_cq w l1 l2 e a pr) -> cinv (after_cq w l1 l2 e a pr).
Proof.
  intros Hc Hq H Hst. destruct a as [src imm id|src x|x is_send].
  - destruct (is_ack imm) eqn:Ea; [by eapply cinv_cq_ack | by eapply cinv_cq_write].
  - destruct (cq_entry_ok _ _ _ _ Hc Hq) as [He (f & Hown & Hfs & Hfd & Hfl & c & Hcx & Hrec)]. cbn [fst snd] in *.
    apply process_recv_inv in H as (c0 & Hc0 & H). rewrite Hcx in Hc0. injection Hc0 as <-. cbv zeta in H.
    destruct (f_body f) as [| |[a|sg|r]|] eqn:Eb; try done.
    + rewrite Hrec in H. apply (cinv_cq_recv_amo w l1 l2 e src x c f pr _ Hc Hq Hown Hfs Hfd Hfl Hcx eq_refl); [by left; eauto | | exact Hst].
      rewrite Eb, Hrec. exact H.
    + destruct Hrec as [Hty Hsig]. rewrite Hty in H. destruct H as (pr1 & Hpr1 & H). rewrite Hsig in H.
      apply (cinv_cq_recv_sig w l1 l2 e src x c f sg pr1 pr Hc Hq Hown Hfs Hfd Hfl Eb Hsig); [by rewrite Hty | exact H | exact Hst].
    + rewrite Hrec in H. apply (cinv_cq_recv_amo w l1 l2 e src x c f pr _ Hc Hq Hown Hfs Hfd Hfl Hcx eq_refl); [by right; eauto | | exact Hst].
      rewrite Eb, Hrec. exact H.
  - by eapply cinv_cq_local.
Qed.
End steps.

(** ** Reachable states *)

(** Put-with-signal operations with fewer than 2^16 writes. *)
Definition event_fits (ev : event) : Prop :=
  match ev with EIssue _ _ _ writes => Z.of_nat (length writes) < 2 ^ 16 | _ => True end.
Definition fits (w : world) : Prop := Forall event_fits (log w).

Section reach.
Context {handle_info : Z -> option (Z * Z)} {use_gdrcopy : bool} {ack_addr ack_key : Z -> Z} {mr_key : Z -> bool -> Z}.
Abbreviation step := (step handle_info use_gdrcopy ack_addr ack_key mr_key).
Abbreviation reachable := (reachable handle_info use_gdrcopy ack_addr ack_key mr_key).

Lemma step_log w w' : step w w' -> exists evs, log w' = evs ++ log w.
Proof.
  destruct 1; cbn [log]; try (by exists []); try (by eexists [_]).
  by exists (land_events imm (f_id f) range).
Qed.

Lemma step_fits w w' : step w w' -> fits w' -> fits w.
Proof. intros Hs Hf. destruct (step_log _ _ Hs) as [evs E]. unfold fits in *. rewrite E in Hf. by apply list.Forall_app in Hf as [_ ?]. Qed.

Lemma cinv_initial w : initial w -> cinv w.
Proof.
  intros Hi. pose proof (fun p x => initial_pcount w p x Hi) as Hp. destruct Hi as [Hn Hc Hl Ht Hr Ho He Hpe Hq Hpo _ _ Hd]. split.
  - intros p x. by apply Hp.
  - done.
  - by rewrite Hn.
  - by rewrite Hc.
  - intros e _ key x k. unfold ep_at. destruct (He (pe_of e) (is_proxy_of e)) as (_ & _ & _ & _ & ->). by rewrite lookup_empty.
  - intros p x. destruct (Hq p) as [_ ->]. intros Hx. by apply elem_of_nil in Hx.
  - intros p f r. by rewrite Hr.
  - intros s _ c. by rewrite Ht.
  - intros s _. unfold ep_at. destruct (He (pe_of s) (is_proxy_of s)) as (_ & _ & _ & -> & _). rewrite Ho.
    unfold seqs_of. rewrite map_to_list_empty. apply seq_ok_reset.
  - intros s t o. by rewrite Ho, lookup_empty.
  - intros s d t _ _ _. unfold kview, op_writes, ep_at. rewrite Ho, lookup_empty, Ht, Hn, Hc, Hr.
    destruct (Hq (pe_of d)) as [_ ->]. unfold map_entry.
    destruct (He (pe_of d) (is_proxy_of d)) as (_ & _ & _ & _ & ->). unfold kinv, tx_rem. destruct t; by rewrite ?lookup_empty.
Qed.

Lemma cinv_step w w' : cinv w -> fits w' -> step w w' -> cinv w'.
Proof.
  intros Hc Hf Hst. pose proof Hst as Hst'. destruct Hst as
    [q b pr ? ? H|q b dpe writes op sig n pr ? ? ? H ?|q b c d rem pr ps ? ? ? H|q b c pr ps ? ? ? H
    |q b dpe op remote sz pr ps ? ? ? H|q b dpe verb remote bytes pr ps ? ? ? H|q key pr ps ? ? H|l1 l2 f imm range Hn Hb|l1 l2 f Hn Hb
    |l1 l2 f m q1 q2 y c Hn Hb Hp Hcx|l1 l2 f is_send Hn Hb|l1 l2 e a pr Hq H|q elems y pr1 c n width r pr2 ps f ? Hrx Hg Hcx Hs Hw H Ho
    |q f r r' pr ps ? Hrx Hfe H|q f r pr ps ? Hrx Hfe H|q y c b pr ? Hy Hcx He H].
  - by eapply cinv_seq_busy.
  - eapply (cinv_seq w q b dpe writes op sig n pr); try done.
    unfold fits in Hf. cbn [log] in Hf. apply list.Forall_cons in Hf as [Hf _]. cbn in Hf. by rewrite length_map in Hf.
  - by eapply (cinv_write w q b c d rem).
  - by eapply (cinv_signal w q b c).
  - by eapply (cinv_amo w q b dpe).
  - by eapply (cinv_rma w q b dpe).
  - by eapply (cinv_cst w q key).
  - by eapply (cinv_land w l1 l2 f imm range).
  - by eapply (cinv_read w l1 l2 f).
  - by eapply (cinv_recv w l1 l2 f m q1 q2 y c).
  - by eapply (cinv_done w l1 l2 f is_send).
  - by eapply (cinv_cq w l1 l2 e a pr).
  - by eapply (cinv_apply w q elems y pr1 c n width r pr2 ps f).
  - by eapply (cinv_respond w q f r r').
  - by eapply (cinv_ack w q f r).
  - by eapply (cinv_ret w q y c b pr).
Qed.

(** Induction over runs that keep [fits]. *)
Lemma fabric_reachable_inv (I : world -> Prop) :
  (forall w, initial w -> I w) ->
  (forall w w', I w -> cinv w -> cinv w' -> step w w' -> I w') ->
  forall w, reachable w -> fits w -> cinv w /\ I w.
Proof.
  intros H0 Hs w (w0 & Hi & Hr). revert w Hr. apply (rtc_ind_r (fun w => fits w -> cinv w /\ I w)).
  - intros _. split; [by apply cinv_initial | by apply H0].
  - intros w w' _ Hst IH Hf. destruct (IH (step_fits _ _ Hst Hf)) as [Hc HI].
    assert (cinv w') by (by eapply cinv_step). eauto.
Qed.

(** ** Contexts exist *)
Definition ctx_exists (w : world) : Prop := forall p x, (1 <= pcount w p x)%nat -> is_Some (ctxs (procs w p) !! x).

Lemma process_ctxs b a pr pr' x :
  gdr_process_completion b (entry_of a).1 (entry_of a).2 pr = Ret (0, pr') ->
  is_Some (ctxs pr !! x) -> is_Some (ctxs pr' !! x).
Proof.
  intros H Hx. assert (Hins : forall y c (m : gmap Z gdr_op_ctx), is_Some (m !! x) -> is_Some (<[y := c]> m !! x)).
  { intros y c m Hm. destruct (decide (y = x)) as [->|]; [rewrite lookup_insert_eq; eauto | by rewrite lookup_insert_ne]. }
  destruct a as [src imm id|src y|y is_send].
  - destruct (is_ack imm) eqn:Ea.
    + apply process_ack_inv in H as (e' & _ & ->); [|done]. by rewrite ctxs_set_ep.
    + apply process_write_inv in H; [|done]. destruct (match_arrival_cases _ _ _ _ _ _ H) as (-> & _). done.
  - apply process_recv_inv in H as (c0 & _ & H). cbv zeta in H. destruct (c_type c0).
    + subst pr'. cbn. by apply Hins, Hins.
    + subst pr'. cbn. by apply Hins, Hins.
    + destruct H as (pr1 & -> & H). destruct (match_arrival_cases _ _ _ _ _ _ H) as (-> & _). cbn. by apply Hins, Hins.
  - apply process_local_inv in H as (z & c & c0 & _ & _ & _ & ->). cbn. by apply Hins.
Qed.

Lemma step_ctxs w w' p x : step w w' -> is_Some (ctxs (procs w p) !! x) -> is_Some (ctxs (procs w' p) !! x).
Proof.
  intros Hst Hx. assert (Hins : forall y c (m : gmap Z gdr_op_ctx), is_Some (m !! x) -> is_Some (<[y := c]> m !! x)).
  { intros y c m Hm. destruct (decide (y = x)) as [->|]; [rewrite lookup_insert_eq; eauto | by rewrite lookup_insert_ne]. }
  destruct Hst as
    [q b pr ? ? H|q b dpe writes op sig n pr ? ? ? H ?|q b c d rem pr ps ? ? ? H|q b c pr ps ? ? ? H
    |q b dpe op remote sz pr ps ? ? ? H|q b dpe verb remote bytes pr ps ? ? ? H|q key pr ps ? ? H|l1 l2 f imm range Hn Hb|l1 l2 f Hn Hb
    |l1 l2 f m q1 q2 y c Hn Hb Hp Hcx|l1 l2 f is_send Hn Hb|l1 l2 e a pr Hq H|q elems y pr1 c n width r pr2 ps f ? Hrx Hg Hcx Hs Hw H Ho
    |q f r r' pr ps ? Hrx Hfe H|q f r pr ps ? Hrx Hfe H|q y c b pr ? Hy Hcx He H]; cbn [procs]; fn_case; try done.
  - apply put_signal_seq_inv in H as (c & _ & ->). by rewrite ctxs_set_ep.
  - apply put_signal_seq_inv in H as (c & _ & ->). by rewrite ctxs_set_ep.
  - apply put_write_inv in H as (y & l & key & _ & -> & _). unfold after_post. by rewrite ctxs_set_ep.
  - apply gdr_signal_inv in H as (y & l & c' & sg & _ & -> & _). cbn. apply Hins. unfold after_post. by rewrite ctxs_set_ep.
  - apply gdr_amo_inv in H as (y & l & c' & a & _ & -> & _). cbn. apply Hins. unfold after_post. by rewrite ctxs_set_ep.
  - apply rma_impl_inv in H as (y & l & po & _ & -> & _). unfold after_post. by rewrite ctxs_set_ep.
  - apply enforce_cst_inv in H as [-> _]. by rewrite ctxs_set_ep.
  - cbn. by apply Hins.
  - unfold count_completion. by rewrite ctxs_set_ep.
  - by eapply process_ctxs.
  - apply getNextAmoOps_inv in Hg as (l & sends & _ & _ & ->). apply amo_apply_inv in H as (c' & b & a & v & _ & _ & -> & _). done.
  - apply amo_respond_inv in H as (y & elems & ret & b & c & c0 & cx & _ & _ & _ & _ & _ & -> & _); [|done].
    rewrite ctxs_set_ep. cbn. by apply Hins.
  - apply gdrcopy_amo_ack_inv in H as (y & elems & addr & key & _ & -> & _). by rewrite ctxs_set_ep.
  - apply gdr_process_amos_ack_turn_inv in H as (l & a1 & v1 & a2 & v2 & _ & ->). done.
Qed.

Lemma ctx_exists_step w w' : ctx_exists w -> step w w' -> ctx_exists w'.
Proof.
  intros Hc Hst p x Hp. apply (step_ctxs w); [done|]. apply Hc. pose proof (step_pcount w w' p x Hst). lia.
Qed.
End reach.

(** ** Handlers do not fail *)
Lemma imm_hdr_seq n : seq_tag (inl n) -> nvshmemt_get_write_with_imm_hdr n = 0.
Proof.
  cbn. change NVSHMEM_STAGED_AMO_SEQ_NUM with (2 ^ 28 - 1). intros Hn.
  unfold nvshmemt_get_write_with_imm_hdr. rewrite wrap_small by (unfold in_u; lia).
  rewrite Z.shiftr_div_pow2 by done. change NVSHMEM_STAGED_AMO_PUT_SIGNAL_SEQ_CNTR_BIT_SHIFT with 28.
  by rewrite Z.div_small by lia.
Qed.

Lemma put_signal_completion_write b src imm id pr :
  (let en := comp_entry (proxy_put_signal_comp_map (ep b pr) !! comp_map_key src imm) None (-1) in en.2 = 0 -> is_Some en.1) ->
  exists pr', put_signal_completion b (entry_of (AImm src imm id)).1 (Some src) pr = Ret (0, pr').
Proof.
  unfold put_signal_completion, comp_entry. cbn [entry_of fst e_remote_cq_data e_data mbind outcome_bind].
  destruct (proxy_put_signal_comp_map (ep b pr) !! comp_map_key src imm) as [[first k]|]; cbn [fst snd];
    (case_bool_decide; [intros H0; destruct (H0 H) as [y Hy]; cbn in Hy; first [discriminate Hy | rewrite Hy]|]; eauto).
Qed.

Lemma put_signal_completion_recv b src x c pr :
  ctxs pr !! x = Some c ->
  exists pr', put_signal_completion b (entry_of (ARecv src x)).1 (Some src) pr = Ret (0, pr').
Proof.
  intros Hc. unfold put_signal_completion. cbn [entry_of fst e_remote_cq_data e_context]. rewrite Hc.
  cbn [mbind outcome_bind]. destruct (_ !! comp_map_key src _) as [[first k]|]; cbn [fst snd]; case_bool_decide; eauto.
Qed.

Lemma ctx_exists_initial w : initial w -> ctx_exists w.
Proof.
  intros [Hn Hc _ _ Hr _ He _ Hq _ _ Hx _] p x Hp. apply Hx. unfold pcount, proc_ptrs in Hp. rewrite Hn, Hc, Hr in Hp.
  destruct (Hq p) as [Hq1 Hq2]. rewrite Hq1, Hq2 in Hp.
  destruct (He p false) as (_ & _ & _ & _ & E1), (He p true) as (_ & _ & _ & _ & E2). rewrite E1, E2 in Hp.
  unfold map_ptrs in Hp. rewrite map_to_list_empty in Hp. cbn [cnt rx_elems] in Hp.
  destruct (cnt (isx x) (q_send (queue (procs w p)))) eqn:Ec.
  - right. destruct (cnt_pos (in_posted p x) (posted w)) as ([a y] & Hin & Hb); [lia|].
    unfold in_posted, isx in Hb. apply andb_prop in Hb as [H1 H2]. apply bool_decide_eq_true in H1, H2. cbn in *. subst. eauto.
  - left. destruct (cnt_pos (isx x) (q_send (queue (procs w p)))) as (y & Hin & Hb); [lia|].
    apply bool_decide_eq_true in Hb. by subst y.
Qed.

Lemma ack_completion_total e en m o id :
  seq_ok (put_signal_seq_counter e) (seqs_of m) -> m !! ack_tag (imm_seq (e_data en)) id = Some o ->
  exists e', put_signal_ack_completion e en = Ret e'.
Proof.
  intros Hs Hm. unfold put_signal_ack_completion, ack_tag in *. fold (imm_seq (e_data en)).
  rewrite (wrap_small 32) by (pose proof (imm_seq_range (e_data en)); unfold in_u; lia).
  case_bool_decide as E; cbn [negb]; [cbn [mbind outcome_bind]; eauto|].
  destruct (return_acked_spec _ _ _ _ Hs (seqs_of_delete_seq _ _ _ Hm)) as (c' & -> & _). cbn [mbind outcome_bind]. eauto.
Qed.

(** The completions without a context: those of the consistency read. *)
Definition is_cst (a : arrival) : bool := match a with ALocal None _ => true | _ => false end.

Lemma completion_total w e a :
  cinv w -> ctx_exists w -> (e, a) ∈ cq w -> is_cst a = false ->
  exists pr, gdr_process_completion (is_proxy_of e) (entry_of a).1 (entry_of a).2 (procs w (pe_of e)) = Ret (0, pr).
Proof.
  intros Hc Hx Hin Hcst. apply list_elem_of_split in Hin as (l1 & l2 & Hq).
  destruct (cq_entry_ok _ _ _ _ Hc Hq) as [He Hok]. cbn [fst snd] in *. unfold gdr_process_completion.
  destruct a as [src imm id|src x|x is_send]; cbn [entry_of fst snd e_remote_cq_data e_data e_context e_send e_rma e_recv].
  - destruct Hok as [Hsv Htag]. destruct (is_ack imm) eqn:Ea.
    + destruct (ack_alone w l1 l2 e src imm id Hc Hq Ea) as (o & Ho & _).
      pose proof (ci_seq _ Hc e He) as Hseq. unfold ep_at in Hseq.
      unfold is_ack in Ea. rewrite Ea. apply bool_decide_eq_true in Ea. rewrite Ea.
      rewrite bool_decide_false by (intros E; vm_compute in E; discriminate E).
      destruct (ack_completion_total _ (entry_of (AImm src imm id)).1 _ o id Hseq Ho) as [e' He'].
      cbn [entry_of fst] in He'. rewrite He'. cbn [mbind outcome_bind]. eauto.
    + rewrite (imm_hdr_seq imm (Htag eq_refl)). change (bool_decide (0 = NVSHMEMT_LIBFABRIC_IMM_PUT_SIGNAL_SEQ)) with true.
      apply (put_signal_completion_write _ src imm id). cbv zeta.
      pose proof (ci_key _ Hc src e (inl imm) Hsv He (Htag eq_refl)) as Hk. unfold kview, ep_at in Hk.
      rewrite map_entry_lookup in Hk. rewrite Hq, !cnt_app in Hk. cbn [cnt] in Hk. rewrite aw_write in Hk by done.
      rewrite bool_decide_true in Hk by done. cbn [b2n] in Hk.
      destruct (op_writes (outs w src) e (inl imm)) as [nw|] eqn:Enw; [|unfold kinv in Hk; lia].
      assert (Hnw : Z.of_nat nw < 2 ^ 16).
      { unfold op_writes in Enw. destruct (outs w src !! inl imm) as [o|] eqn:Eo; [|done]. case_bool_decide; [|done].
        injection Enw as <-. by apply (ci_ops _ Hc) in Eo as [? _]. }
      replace (cnt (aw src e (inl imm)) l1 + (1 + cnt (aw src e (inl imm)) l2))%nat
        with (1 + (cnt (aw src e (inl imm)) l1 + cnt (aw src e (inl imm)) l2))%nat in Hk by lia.
      apply kinv_match_write in Hk; [|done]. unfold comp_entry.
      destruct (_ !! comp_map_key src imm) as [[first k]|]; cbn [fmap option_fmap option_map fst snd] in *; [|done].
      destruct first as [y|]; [eauto|]. cbn in Hk. destruct Hk as [Hnz _]. intros E0. by destruct Hnz.
  - destruct Hok as (f & _ & _ & _ & _ & c & Hcx & Hrec). rewrite Hcx.
    cbn [c_type]. destruct (c_type c); [rewrite !bool_decide_false by done; eauto
      |rewrite bool_decide_false by done; eauto |]. rewrite bool_decide_true by done.
    eapply put_signal_completion_recv. cbn. apply lookup_insert_eq.
  - destruct x as [x|]; [|done]. destruct (Hx (pe_of e) x) as [c ->].
    { unfold pcount. rewrite Hq, cnt_app. cbn [cnt].
      assert (in_cq (pe_of e) x (e, ALocal (Some x) is_send) = true) as ->.
      { unfold in_cq, isox, isx. cbn [fst snd]. by rewrite !bool_decide_true by done. }
      cbn [b2n]. lia. }
    destruct is_send; cbn [negb]; eauto.
Qed.
