(* ===== verification/LibfabricRun.v ===== *)
(** * The libfabric transport: a signal follows the data it announces

    Over a fabric that delivers in any order, a put-with-signal is applied at
    the target only after every one of its writes arrived, and exactly once.  A run of an
    interpreter of the steps is the witness. *)
From stdpp Require Import base gmap list functions.
From S2P Require Import Prelude ProxyChannel Rma Libfabric LibfabricOps LibfabricNet LibfabricInv LibfabricCont LibfabricStep LibfabricCq.
Open Scope Z_scope.

(** ** Counting events *)
Definition is_land (id : Z) (r : Z * Z) (ev : event) : bool :=
  match ev with ELand i r' => bool_decide (i = id /\ r' = r) | _ => false end.
Definition is_apply (id : Z) (ev : event) : bool :=
  match ev with EApply i _ => bool_decide (i = id) | _ => false end.
Definition is_range (r r' : Z * Z) : bool := bool_decide (r' = r).

(** Writes under way by identity, and writes left in a call. *)
Definition flying (id : Z) (r : Z * Z) (f : flight) : bool :=
  match f_body f with
  | BWrite imm r' => bool_decide (f_id f = id /\ r' = r) && match imm with Some i => negb (is_ack i) | None => true end
  | _ => false
  end.
Definition left_in_tx (id : Z) (r : Z * Z) (c : option tx_call) : nat :=
  match c with
  | Some c => if bool_decide (tc_id c = id) then cnt (is_range r) (map write_range (tc_rem c)) else 0
  | None => 0
  end.

(** At every application of an atomic: it was issued before for an endpoint of
    this process, its writes all arrived before, and it was not applied before. *)
Fixpoint log_ok (l : list event) : Prop :=
  match l with
  | [] => True
  | EApply id p :: l =>
      (exists s d writes, EIssue id s d writes ∈ l /\ pe_of d = p /\
        forall r, cnt (is_land id r) l = cnt (is_range r) writes) /\
      cnt (is_apply id) l = 0%nat /\ log_ok l
  | _ :: l => log_ok l
  end.

(** The places of an operation after it was applied. *)
Definition applied (w : world) (s d : Z) (t : tag) : nat :=
  b2n (in_rx s d t (rx w (pe_of d))) + cnt (fa s d t) (net w) + cnt (aa s d t) (cq w).

Record linv (w : world) : Prop := {
  li_ids : forall s t o, outs w s !! t = Some o -> o_id o < next_id w;
  li_uniq : forall s t o s' t' o', outs w s !! t = Some o -> outs w s' !! t' = Some o' -> o_id o = o_id o' -> s = s' /\ t = t';
  li_valid : forall s t o, outs w s !! t = Some o -> valid_ep s /\ valid_ep (o_dst o) /\ seq_tag t;
  li_net : Forall (fun f => f_id f < next_id w) (net w);
  li_rma : forall f r s t o, f ∈ net w -> f_body f = BWrite None r -> outs w s !! t = Some o -> o_id o <> f_id f;
  li_log : Forall (fun ev => match ev with EIssue id _ _ _ | ERma id _ | ELand id _ | EApply id _ => id < next_id w end) (log w);
  li_writes : forall s t o, outs w s !! t = Some o ->
    forall r, (cnt (is_land (o_id o) r) (log w) + cnt (flying (o_id o) r) (net w) + left_in_tx (o_id o) r (tx w s) =
               cnt (is_range r) (o_writes o))%nat;
  li_issued : forall s t o, outs w s !! t = Some o -> EIssue (o_id o) s (o_dst o) (o_writes o) ∈ log w;
  li_applied : forall s t o, outs w s !! t = Some o ->
    cnt (is_apply (o_id o)) (log w) = applied w s (o_dst o) t;
  li_done : forall id s d writes, EIssue id s d writes ∈ log w ->
    (exists t o, outs w s !! t = Some o /\ o_id o = id /\ o_dst o = d) \/ EApply id (pe_of d) ∈ log w;
  li_once : forall id s d wr s' d' wr', EIssue id s d wr ∈ log w -> EIssue id s' d' wr' ∈ log w -> d = d';
  li_ok : log_ok (log w) }.

(** ** Steps that record nothing *)
Lemma linv_move w w' :
  linv w -> (forall s, outs w' s = outs w s) -> log w' = log w -> next_id w' = next_id w ->
  Forall (fun f => f_id f < next_id w) (net w') ->
  (forall f r, f ∈ net w' -> f_body f = BWrite None r -> f ∈ net w) ->
  (forall s t o r, outs w s !! t = Some o ->
     (cnt (flying (o_id o) r) (net w') + left_in_tx (o_id o) r (tx w' s) =
      cnt (flying (o_id o) r) (net w) + left_in_tx (o_id o) r (tx w s))%nat) ->
  (forall s t o, outs w s !! t = Some o -> applied w' s (o_dst o) t = applied w s (o_dst o) t) ->
  linv w'.
Proof.
  intros [] HO HL HN Hnet Hrma Hwr Hap. split; intros *; rewrite ?HO, ?HL, ?HN; try done.
  - by intros; eapply li_ids0.
  - by intros; eapply li_uniq0.
  - by intros; eapply li_valid0.
  - intros Hf Hb Ho. eapply li_rma0; [by eapply Hrma | done | done].
  - intros Ho r. specialize (li_writes0 s t o Ho r). specialize (Hwr s t o r Ho). lia.
  - by intros; eapply li_issued0.
  - intros Ho. rewrite (Hap s t o Ho). by apply li_applied0.
  - intros Hi. destruct (li_done0 _ _ _ _ Hi) as [(t & o & Ho & ?)|]; [left; by exists t, o | by right].
  - by apply li_once0.
Qed.

Lemma flying_done id r f b : flying id r (with_body (BDone b) f) = false.
Proof. done. Qed.

Lemma net_ids_done (n : Z) l1 l2 f b :
  Forall (fun f => f_id f < n) (l1 ++ f :: l2) -> Forall (fun f => f_id f < n) (l1 ++ with_body (BDone b) f :: l2).
Proof. by rewrite !list.Forall_app, !list.Forall_cons. Qed.

Lemma rma_done l1 l2 f b g r :
  g ∈ l1 ++ with_body (BDone b) f :: l2 -> f_body g = BWrite None r -> g ∈ l1 ++ f :: l2.
Proof.
  intros Hg Hb. apply elem_of_app in Hg as [Hg|Hg]; [apply elem_of_app; by left|].
  apply elem_of_cons in Hg as [->|Hg]; [done|]. apply elem_of_app. right. by right.
Qed.

Lemma cinv_tx_id w s c : cinv w -> valid_ep s -> tx w s = Some c ->
  exists o, outs w s !! inl (tc_seq c) = Some o /\ o_id o = tc_id c.
Proof. intros Hc Hs Ht. destruct (ci_tx _ Hc s Hs c Ht) as (_ & _ & o & Ho & Hid & _). eauto. Qed.

Section steps.
Context {handle_info : Z -> option (Z * Z)} {use_gdrcopy : bool} {ack_addr ack_key : Z -> Z} {mr_key : Z -> bool -> Z}.
Abbreviation step := (step handle_info use_gdrcopy ack_addr ack_key mr_key).

(** A write or a signal is posted. *)
Lemma linv_write w p b c d rem pr ps w' :
  linv w -> cinv w -> valid_pe p -> tx w (target_ep p b) = Some c -> tc_rem c = d :: rem ->
  rma_impl mr_key PROVIDER_EFA true (tc_pe c) put_verb d.1 d.2 b (Some (tc_seq c)) 0 (procs w p) = Ret (0, pr, ps) ->
  w' = MkWorld (<[p := pr]> (procs w)) ((ps ≫= fly (target_ep p b) (tc_id c)) ++ net w) (cq w) (posted w)
      (<[target_ep p b := Some (MkTx (tc_id c) (tc_pe c) (tc_seq c) rem (tc_num c) (tc_sig_op c) (tc_sig c))]> (tx w))
      (rx w) (own w) (outs w) (next_id w) (log w) -> linv w'.
Proof.
  intros Hl Hc Hp Htx Hrem H ->. apply put_write_inv in H as (y & l & key & Hs & -> & ->).
  destruct (ci_tx _ Hc _ (target_ep_valid p b Hp) c Htx) as (_ & Hseq & _).
  destruct (cinv_tx_id w _ c Hc (target_ep_valid p b Hp) Htx) as (o & Ho & Hid).
  pose proof (seq_imm_not_ack _ Hseq) as Hna.
  apply (linv_move w); try done; cbn [net outs tx].
  - cbn. apply list.Forall_cons. split; [|apply (li_net _ Hl)]. cbn. rewrite <- Hid. by eapply (li_ids _ Hl).
  - cbn. intros f r [->|Hf]%elem_of_cons; done.
  - intros s t o' r Ho'. cbn [mbind list_bind fly app cnt]. unfold flying at 1. cbn [f_body f_id]. rewrite Hna. cbn [negb].
    rewrite andb_true_r. destruct (decide (target_ep p b = s)) as [<-|Hne].
    + rewrite fn_lookup_insert, Htx. unfold left_in_tx. cbn [tc_id tc_rem]. rewrite Hrem. cbn [map cnt].
      destruct (decide (tc_id c = o_id o')) as [E|E].
      * rewrite (bool_decide_true _ E). unfold is_range at 2.
        rewrite (bool_decide_ext (tc_id c = o_id o' /\ (_, _) = r) (write_range d = r)); [lia|].
        rewrite <- surjective_pairing. tauto.
      * rewrite (bool_decide_false _ E). rewrite bool_decide_false by tauto. cbn [b2n]. lia.
    + rewrite fn_lookup_insert_ne by done. rewrite bool_decide_false; [cbn; lia|]. intros [E _]. apply Hne.
      eapply (li_uniq _ Hl); [exact Ho | exact Ho' | congruence].
  - intros s t o' Ho'. unfold applied. cbn [rx net cq mbind list_bind fly app cnt]. rewrite fa_write by done. done.
Qed.

Lemma linv_signal w p b c pr ps w' :
  linv w -> cinv w -> valid_pe p -> tx w (target_ep p b) = Some c -> tc_rem c = [] ->
  gdr_signal (tc_pe c) (tc_sig_op c) (tc_sig c) b (tc_seq c) (u16 (Z.of_nat (tc_num c))) 0 (procs w p) = Ret (0, pr, ps) ->
  w' = MkWorld (<[p := pr]> (procs w)) ((ps ≫= fly (target_ep p b) (tc_id c)) ++ net w) (cq w) (posted w)
      (<[target_ep p b := None]> (tx w)) (rx w) (own w) (outs w) (next_id w) (log w) -> linv w'.
Proof.
  intros Hl Hc Hp Htx Hrem H ->. apply gdr_signal_inv in H as (y & l & c' & sg & Hs & -> & -> & _).
  destruct (cinv_tx_id w _ c Hc (target_ep_valid p b Hp) Htx) as (o & Ho & Hid).
  apply (linv_move w); try done; cbn [net outs tx].
  - cbn. apply list.Forall_cons. split; [|apply (li_net _ Hl)]. cbn. rewrite <- Hid. by eapply (li_ids _ Hl).
  - cbn. intros f r [->|Hf]%elem_of_cons; done.
  - intros s t o' r Ho'. cbn [mbind list_bind fly app cnt].
    change (flying (o_id o') r (MkFlight _ _ (BMsg _) _ _)) with false. cbn [b2n Nat.add].
    destruct (decide (target_ep p b = s)) as [<-|Hne]; [|by rewrite fn_lookup_insert_ne].
    rewrite fn_lookup_insert, Htx. unfold left_in_tx. rewrite Hrem. cbn. by destruct (bool_decide _).
Qed.

(** An operation is issued. *)
Lemma insert_cases (w w' : world) s0 t0 o0 s t o :
  outs w' = <[s0 := <[t0 := o0]> (outs w s0)]> (outs w) -> outs w' s !! t = Some o ->
  (s = s0 /\ t = t0 /\ o = o0) \/ outs w s !! t = Some o.
Proof.
  intros -> H. destruct (decide (s0 = s)) as [<-|]; [|rewrite fn_lookup_insert_ne in H by done; by right].
  rewrite fn_lookup_insert in H. destruct (decide (t0 = t)) as [<-|]; [|rewrite lookup_insert_ne in H by done; by right].
  rewrite lookup_insert_eq in H. injection H as <-. by left.
Qed.

Lemma log_fresh (w : world) n (P : event -> bool) :
  Forall (fun ev => match ev with EIssue id _ _ _ | ERma id _ | ELand id _ | EApply id _ => id < n end) (log w) ->
  (forall ev, P ev = true -> match ev with EIssue id _ _ _ | ERma id _ | ELand id _ | EApply id _ => n <= id end) ->
  cnt P (log w) = 0%nat.
Proof.
  intros Hf HP. apply cnt_zero. intros ev Hev. destruct (P ev) eqn:E; [|done]. specialize (HP ev E).
  pose proof (proj1 (list.Forall_forall _ _) Hf ev Hev) as H. cbn beta in H. destruct ev; lia.
Qed.

Lemma log_mono (n n' : Z) l : n <= n' ->
  Forall (fun ev => match ev with EIssue id _ _ _ | ERma id _ | ELand id _ | EApply id _ => id < n end) l ->
  Forall (fun ev => match ev with EIssue id _ _ _ | ERma id _ | ELand id _ | EApply id _ => id < n' end) l.
Proof. intros Hn Hf. eapply list.Forall_impl; [exact Hf|]. intros [] H; cbn in *; lia. Qed.

Lemma linv_issue w w' s0 t0 o0 :
  linv w -> outs w s0 !! t0 = None -> o_id o0 = next_id w -> valid_ep s0 -> valid_ep (o_dst o0) -> seq_tag t0 ->
  outs w' = <[s0 := <[t0 := o0]> (outs w s0)]> (outs w) -> next_id w' = next_id w + 1 ->
  log w' = EIssue (next_id w) s0 (o_dst o0) (o_writes o0) :: log w ->
  Forall (fun f => f_id f < next_id w + 1) (net w') ->
  (forall f r, f ∈ net w' -> f_body f = BWrite None r -> f ∈ net w) ->
  (forall s t o r, outs w s !! t = Some o ->
     (cnt (flying (o_id o) r) (net w') + left_in_tx (o_id o) r (tx w' s) =
      cnt (flying (o_id o) r) (net w) + left_in_tx (o_id o) r (tx w s))%nat) ->
  (forall r, (cnt (flying (next_id w) r) (net w') + left_in_tx (next_id w) r (tx w' s0) = cnt (is_range r) (o_writes o0))%nat) ->
  (forall s t o, outs w s !! t = Some o -> applied w' s (o_dst o) t = applied w s (o_dst o) t) ->
  applied w' s0 (o_dst o0) t0 = 0%nat -> linv w'.
Proof.
  intros Hl Hfr Hid Hvs Hvd Hstg HO HN HL Hnet Hrma Hwr Hwr0 Hap Hap0.
  assert (Hdup : forall s t o, outs w s !! t = Some o -> o_id o <> next_id w).
  { intros s t o Ho. apply (li_ids _ Hl) in Ho. lia. }
  split; rewrite ?HN, ?HL; try done.
  - intros s t o [(-> & -> & ->)|Ho]%(insert_cases _ _ _ _ _ _ _ _ HO); [lia|]. apply (li_ids _ Hl) in Ho. lia.
  - intros s t o s' t' o' [(-> & -> & ->)|Ho]%(insert_cases _ _ _ _ _ _ _ _ HO)
      [(-> & -> & ->)|Ho']%(insert_cases _ _ _ _ _ _ _ _ HO) E; [done| | |by eapply (li_uniq _ Hl)].
    + exfalso. apply (Hdup _ _ _ Ho'). congruence.
    + exfalso. apply (Hdup _ _ _ Ho). congruence.
  - intros s t o [(-> & -> & ->)|Ho]%(insert_cases _ _ _ _ _ _ _ _ HO); [done | by apply (li_valid _ Hl)].
  - intros f r s t o Hf Hb [(-> & -> & ->)|Ho]%(insert_cases _ _ _ _ _ _ _ _ HO); [|eapply (li_rma _ Hl); eauto].
    specialize (Hrma f r Hf Hb). pose proof (proj1 (list.Forall_forall _ _) (li_net _ Hl) f Hrma) as H. cbn beta in H. lia.
  - apply list.Forall_cons. split; [lia|]. eapply log_mono; [|apply (li_log _ Hl)]. lia.
  - intros s t o [(-> & -> & ->)|Ho]%(insert_cases _ _ _ _ _ _ _ _ HO) r; cbn [cnt is_land b2n Nat.add].
    + rewrite Hid. rewrite (log_fresh w (next_id w) (is_land (next_id w) r) (li_log _ Hl)); [apply Hwr0|].
      intros [] E; try done. apply bool_decide_eq_true in E as [-> _]. lia.
    + specialize (Hwr s t o r Ho). pose proof (li_writes _ Hl s t o Ho r). lia.
  - intros s t o [(-> & -> & ->)|Ho]%(insert_cases _ _ _ _ _ _ _ _ HO); [rewrite Hid; left | right; by eapply (li_issued _ Hl)].
  - intros s t o [(-> & -> & ->)|Ho]%(insert_cases _ _ _ _ _ _ _ _ HO); cbn [cnt is_apply b2n Nat.add].
    + rewrite Hid, Hap0. apply (log_fresh w (next_id w) _ (li_log _ Hl)).
      intros [] E; try done. apply bool_decide_eq_true in E as ->. lia.
    + rewrite (Hap s t o Ho). by apply (li_applied _ Hl).
  - intros id s d wr [[= -> -> -> ->]|Hin]%elem_of_cons.
    + left. exists t0, o0. rewrite HO, fn_lookup_insert, lookup_insert_eq. done.
    + destruct (li_done _ Hl _ _ _ _ Hin) as [(t & o & Ho & Ho1 & Ho2)|Hin']; [left | right; by right].
      exists t, o. split; [|done]. rewrite HO. destruct (decide (s0 = s)) as [<-|]; [|by rewrite fn_lookup_insert_ne].
      rewrite fn_lookup_insert, lookup_insert_ne; [done|]. intros ->. congruence.
  - intros id s d wr s' d' wr' H1 H2.
    assert (Hlt : forall s d wr, EIssue (next_id w) s d wr ∈ log w -> False).
    { intros s1 d1 wr1 Hin. pose proof (proj1 (list.Forall_forall _ _) (li_log _ Hl) _ Hin) as H. cbn in H. lia. }
    apply elem_of_cons in H1 as [E1|H1]; apply elem_of_cons in H2 as [E2|H2].
    + congruence.
    + injection E1 as -> _ _ _. by apply Hlt in H2.
    + injection E2 as -> _ _ _. by apply Hlt in H1.
    + by eapply (li_once _ Hl).
  - cbn. apply (li_ok _ Hl).
Qed.

Lemma linv_seq w p b dpe writes op sig n pr w' :
  linv w -> cinv w -> valid_pe p -> valid_pe dpe -> tx w (target_ep p b) = None ->
  put_signal_seq b (procs w p) = Ret (n, pr) -> 0 <= n ->
  w' = MkWorld (<[p := pr]> (procs w)) (net w) (cq w) (posted w)
      (<[target_ep p b := Some (MkTx (next_id w) dpe n writes (length writes) op sig)]> (tx w)) (rx w) (own w)
      (<[target_ep p b := <[inl n := MkOp (next_id w) (target_ep dpe b) (map write_range writes)]>
                            (outs w (target_ep p b))]> (outs w))
      (next_id w + 1)
      (EIssue (next_id w) (target_ep p b) (target_ep dpe b) (map write_range writes) :: log w) -> linv w'.
Proof.
  intros Hl Hc Hp Hdp Htx H Hn0 ->. apply put_signal_seq_inv in H as (c & Hn & ->).
  destruct (fresh_seq w p b n c Hc Hp Hn0 Hn) as (Hnr & Hfr & _).
  set (o := MkOp _ _ _). set (s0 := target_ep p b) in *.
  assert (Hff : forall r, cnt (flying (next_id w) r) (net w) = 0%nat).
  { intros r. apply cnt_zero. intros f Hf. pose proof (proj1 (list.Forall_forall _ _) (li_net _ Hl) f Hf) as Hlt. cbn beta in Hlt.
    unfold flying. destruct (f_body f); try done. rewrite bool_decide_false by lia. done. }
  apply (linv_issue w _ s0 (inl n) o); try done; cbn [net outs tx log next_id].
  - by apply target_ep_valid.
  - by apply target_ep_valid.
  - eapply list.Forall_impl; [apply (li_net _ Hl)|]. intros f. cbn. lia.
  - intros s t o' r Ho'. destruct (decide (s0 = s)) as [<-|]; [|by rewrite fn_lookup_insert_ne].
    rewrite fn_lookup_insert, Htx. cbn [left_in_tx tc_id]. rewrite bool_decide_false; [done|].
    apply (li_ids _ Hl) in Ho'. lia.
  - intros r. rewrite Hff, fn_lookup_insert. cbn [left_in_tx tc_id tc_rem]. by rewrite bool_decide_true.
  - unfold applied. cbn [rx net cq].
    pose proof (ci_key _ Hc s0 (o_dst o) (inl n) (target_ep_valid p b Hp) (target_ep_valid dpe b Hdp) Hnr) as Hk.
    unfold kview in Hk. rewrite (op_writes_none _ _ _ Hfr) in Hk. destruct Hk as (_ & _ & _ & _ & _ & _ & _ & _ & -> & -> & ->). done.
Qed.

Lemma linv_amo w p b dpe op remote elembytes pr ps w' :
  linv w -> cinv w -> valid_pe p -> valid_pe dpe ->
  gdr_amo dpe op remote elembytes b 0 (procs w p) = Ret (0, pr, ps) ->
  w' = MkWorld (<[p := pr]> (procs w)) ((ps ≫= fly (target_ep p b) (next_id w)) ++ net w) (cq w) (posted w)
      (tx w) (rx w) (own w)
      (<[target_ep p b := <[inr (next_id w) := MkOp (next_id w) (target_ep dpe b) []]> (outs w (target_ep p b))]> (outs w))
      (next_id w + 1) (EIssue (next_id w) (target_ep p b) (target_ep dpe b) [] :: log w) -> linv w'.
Proof.
  intros Hl Hc Hp Hdp H ->. apply gdr_amo_inv in H as (y & l & c' & a & Hs & -> & -> & _).
  assert (Hfr : outs w (target_ep p b) !! inr (next_id w) = None).
  { apply eq_None_not_Some. intros [o E]. apply (ci_ops _ Hc) in E as [_ E]. lia. }
  assert (Hff : forall r, cnt (flying (next_id w) r) (net w) = 0%nat).
  { intros r. apply cnt_zero. intros f Hf. pose proof (proj1 (list.Forall_forall _ _) (li_net _ Hl) f Hf) as Hlt. cbn beta in Hlt.
    unfold flying. destruct (f_body f); try done. rewrite bool_decide_false by lia. done. }
  set (o := MkOp _ _ _). set (s0 := target_ep p b) in *.
  apply (linv_issue w _ s0 (inr (next_id w)) o); try done; cbn [net outs tx log next_id].
  - by apply target_ep_valid.
  - by apply target_ep_valid.
  - cbn. apply list.Forall_cons. split; [cbn; lia|]. eapply list.Forall_impl; [apply (li_net _ Hl)|]. intros f. cbn. lia.
  - cbn. intros f r [->|Hf]%elem_of_cons; done.
  - intros r. cbn [mbind list_bind fly app cnt]. change (flying (next_id w) r (MkFlight _ _ (BMsg _) _ _)) with false.
    rewrite Hff. cbn. destruct (tx w s0) as [c|] eqn:Etx; [|done]. cbn.
    destruct (cinv_tx_id w s0 c Hc (target_ep_valid p b Hp) Etx) as (o' & Ho' & <-). apply (li_ids _ Hl) in Ho'.
    rewrite bool_decide_false by lia. done.
  - unfold applied. cbn [rx net cq mbind list_bind fly app cnt].
    pose proof (ci_key _ Hc s0 (o_dst o) (inr (next_id w)) (target_ep_valid p b Hp) (target_ep_valid dpe b Hdp) I) as Hk.
    unfold kview in Hk. rewrite (op_writes_none _ _ _ Hfr) in Hk. destruct Hk as (_ & _ & _ & _ & _ & _ & _ & _ & -> & -> & ->). done.
Qed.

(** A plain operation: a read, or a write without immediate data. *)
Lemma linv_plain w p s dst bd x pr w' :
  linv w -> (bd = BRead \/ exists r, bd = BWrite None r) ->
  w' = MkWorld (<[p := pr]> (procs w)) (MkFlight s dst bd x (next_id w) :: net w) (cq w) (posted w)
      (tx w) (rx w) (own w) (outs w) (next_id w + 1) (ERma (next_id w) s :: log w) -> linv w'.
Proof.
  intros Hl Hbd ->. pose proof Hl as []. split; cbn [net outs tx log next_id app]; try done.
  - intros s0 t o Ho. apply li_ids0 in Ho. lia.
  - apply list.Forall_cons. split; [cbn; lia|]. eapply list.Forall_impl; [exact li_net0|]. intros f. cbn. lia.
  - intros f r s0 t o [->|Hf]%elem_of_cons Hb Ho; [cbn; apply li_ids0 in Ho; lia | by eapply li_rma0].
  - apply list.Forall_cons. split; [lia|]. eapply log_mono; [|exact li_log0]. lia.
  - intros s0 t o Ho r. cbn [cnt is_land b2n Nat.add]. rewrite <- (li_writes0 s0 t o Ho r).
    assert (flying (o_id o) r (MkFlight s dst bd x (next_id w)) = false) as ->; [|done].
    unfold flying. cbn [f_body f_id]. apply li_ids0 in Ho. destruct Hbd as [->|[r' ->]]; [done|]. rewrite bool_decide_false by lia. done.
  - intros s0 t o Ho. right. by eapply li_issued0.
  - intros s0 t o Ho. cbn [cnt is_apply b2n Nat.add]. rewrite (li_applied0 s0 t o Ho). unfold applied. cbn [rx net cq cnt].
    assert (fa s0 (o_dst o) t (MkFlight s dst bd x (next_id w)) = false) as ->; [|done].
    unfold fa. cbn. by destruct Hbd as [->|[r' ->]].
  - intros id s0 d wr [?|Hin]%elem_of_cons; [done|]. destruct (li_done0 _ _ _ _ Hin); [by left | right; by right].
  - intros id s0 d wr s' d' wr' [?|H1]%elem_of_cons [?|H2]%elem_of_cons; try done. by eapply li_once0.
Qed.

Lemma linv_rma w p b dpe verb remote bytes pr ps w' :
  linv w -> libfabric_rma mr_key PROVIDER_EFA true dpe verb remote bytes b 0 (procs w p) = Ret (0, pr, ps) ->
  w' = MkWorld (<[p := pr]> (procs w)) ((ps ≫= fly (target_ep p b) (next_id w)) ++ net w) (cq w) (posted w)
      (tx w) (rx w) (own w) (outs w) (next_id w + 1) (ERma (next_id w) (target_ep p b) :: log w) -> linv w'.
Proof.
  intros Hl H ->. apply rma_impl_inv in H as (y & l & po & Hs & -> & -> & Hpo).
  destruct Hpo as [(key & len & addr & ->)|(key & len & addr & -> & _)];
    (eapply (linv_plain w); [done | | reflexivity]; eauto).
Qed.

Lemma linv_cst w p key pr ps w' :
  linv w -> libfabric_enforce_cst key 0 (procs w p) = Ret (0, pr, ps) ->
  w' = MkWorld (<[p := pr]> (procs w)) ((ps ≫= fly (target_ep p true) (next_id w)) ++ net w) (cq w) (posted w)
      (tx w) (rx w) (own w) (outs w) (next_id w + 1) (ERma (next_id w) (target_ep p true) :: log w) -> linv w'.
Proof.
  intros Hl H ->. apply enforce_cst_inv in H as [-> ->]. eapply (linv_plain w); [done | by left | reflexivity].
Qed.

Lemma land_events_cnt (P : event -> bool) imm id range :
  cnt P (land_events imm id range) = b2n (P (ELand id range) && match imm with Some i => negb (is_ack i) | None => true end).
Proof.
  destruct imm as [i|]; cbn; [destruct (is_ack i); cbn|]; rewrite ?andb_false_r, ?andb_true_r; cbn; lia.
Qed.
Lemma land_events_elem imm id range ev : ev ∈ land_events imm id range -> ev = ELand id range.
Proof.
  destruct imm as [i|]; cbn; [destruct (is_ack i)|]; intros H;
    first [by apply elem_of_nil in H | by apply list_elem_of_singleton in H].
Qed.

Lemma linv_land w l1 l2 f imm range w' :
  linv w -> cinv w -> net w = l1 ++ f :: l2 -> f_body f = BWrite imm range ->
  w' = MkWorld (procs w) (l1 ++ with_body (BDone false) f :: l2)
      ((match imm with Some i => [(f_dst f, AImm (f_src f) i (f_id f))] | None => [] end) ++ cq w)
      (posted w) (tx w) (rx w) (own w) (outs w) (next_id w) (land_events imm (f_id f) range ++ log w) -> linv w'.
Proof.
  intros Hl Hc Hn Hb ->. pose proof Hl as []. split; cbn [net outs tx log next_id]; try done.
  - apply net_ids_done. by rewrite <- Hn.
  - intros g r s t o Hg Hgb Ho. eapply li_rma0; [|done|done]. rewrite Hn. by eapply rma_done.
  - apply list.Forall_app. split; [|done]. apply list.Forall_forall. intros ev Hev. apply land_events_elem in Hev as ->.
    rewrite Hn, list.Forall_app, list.Forall_cons in li_net0. tauto.
  - intros s t o Ho r. rewrite cnt_app, land_events_cnt. pose proof (li_writes0 s t o Ho r) as H. rewrite Hn in H.
    rewrite !cnt_app in *. cbn [cnt] in *. rewrite flying_done. unfold flying at 2 in H. rewrite Hb in H.
    cbn [is_land b2n Nat.add]. lia.
  - intros s t o Ho. apply elem_of_app. right. by eapply li_issued0.
  - intros s t o Ho. rewrite cnt_app, land_events_cnt. cbn [is_apply andb b2n Nat.add]. rewrite (li_applied0 s t o Ho).
    unfold applied. cbn [rx net cq]. rewrite Hn, !cnt_app. cbn [cnt].
    destruct (with_done_counts s (o_dst o) t f false) as (_ & _ & ->). cbn [b2n].
    assert (cnt (aa s (o_dst o) t) (match imm with Some i => [(f_dst f, AImm (f_src f) i (f_id f))] | None => [] end) =
            b2n (fa s (o_dst o) t f)) as ->; [|lia].
    unfold fa. rewrite Hb. destruct imm as [i|]; [|done]. cbn [cnt]. unfold aa. cbn [fst snd]. lia.
  - intros id s d wr [Hin|Hin]%elem_of_app; [by apply land_events_elem in Hin|].
    destruct (li_done0 _ _ _ _ Hin); [by left | right; apply elem_of_app; by right].
  - intros id s d wr s' d' wr' [H1|H1]%elem_of_app [H2|H2]%elem_of_app;
      try (by apply land_events_elem in H1); try (by apply land_events_elem in H2). by eapply li_once0.
  - destruct imm as [i|]; cbn; [destruct (is_ack i)|]; done.
Qed.

(** An atomic is applied: its writes have all arrived and it was not applied before. *)
Lemma queued_complete w p x f :
  linv w -> cinv w -> x ∈ q_other_recv (queue (procs w p)) -> own w p x = Some f ->
  exists t o, msg_tag f = Some t /\ outs w (f_src f) !! t = Some o /\ o_id o = f_id f /\ o_dst o = f_dst f /\
    pe_of (f_dst f) = p /\
    (forall r, cnt (is_land (f_id f) r) (log w) = cnt (is_range r) (o_writes o)) /\
    cnt (is_apply (f_id f)) (log w) = 0%nat /\ applied w (f_src f) (f_dst f) t = 0%nat.
Proof.
  intros Hl Hc Hx Hown. destruct (ci_queue _ Hc p x Hx) as (f' & Ho' & Hdp & Hfl & Hrd).
  rewrite Hown in Ho'. injection Ho' as <-. destruct (ready_msg _ _ _ Hrd) as [t Ht].
  destruct Hfl as (Hvs & Hvd & Hneed). destruct (Hneed t (need_msg _ _ Ht)) as (Hstg & o & Ho & Hid & Hod & _).
  exists t, o. do 5 (split; [done|]).
  pose proof (ci_key _ Hc (f_src f) (f_dst f) t Hvs Hvd Hstg) as Hk. unfold kview in Hk. rewrite Hdp in Hk.
  assert (Hh : held (own w p) (f_src f) (f_dst f) t x = true).
  { unfold held. rewrite Hown. by apply bool_decide_true. }
  pose proof (cnt_in _ _ _ Hx Hh) as HQ.
  assert (Hw : op_writes (outs w (f_src f)) (f_dst f) t = Some (length (o_writes o))).
  { unfold op_writes. rewrite Ho. by rewrite bool_decide_true. }
  rewrite Hw in Hk. unfold kinv in Hk. destruct Hk as [Hrem Hk].
  destruct (map_entry (f_src f) t (ep_at w (f_dst f))) as [[[] k]|]; [lia | lia |].
  assert (Happ : applied w (f_src f) (f_dst f) t = 0%nat) by (unfold applied; rewrite Hdp; lia).
  assert (HT : in_tx (f_src f) (f_dst f) t (tx w (f_src f)) = false) by (apply b2n_zero; lia).
  split.
  - intros r. rewrite <- Hid. pose proof (li_writes _ Hl _ _ _ Ho r) as H.
    assert (cnt (flying (o_id o) r) (net w) = 0%nat) as E1.
    { apply cnt_zero. intros g Hg. destruct (flying (o_id o) r g) eqn:Eg; [|done]. exfalso. unfold flying in Eg.
      destruct (f_body g) as [[i|] r'| | |] eqn:Eb; try done; apply andb_prop in Eg as [Eg Ei];
        apply bool_decide_eq_true in Eg as [Eg _]; [|by apply (li_rma _ Hl g r' _ _ _ Hg Eb Ho)].
      apply negb_true_iff in Ei. pose proof (proj1 (list.Forall_forall _ _) (ci_net _ Hc) g Hg) as (_ & _ & Hgn).
      destruct (Hgn (inl i)) as (_ & o' & Ho' & Hid' & Hod' & _); [unfold need; by rewrite Eb, Ei|].
      destruct (li_uniq _ Hl _ _ _ _ _ _ Ho Ho' ltac:(congruence)) as [Es Et].
      assert (fw (f_src f) (f_dst f) t g = true) as Efw.
      { unfold fw. rewrite Et, Eb, Ei. cbn. apply bool_decide_true. split; [done|]. split; [|done].
        rewrite <- Es, <- Et, Ho in Ho'. congruence. }
      pose proof (cnt_in _ _ _ Hg Efw). lia. }
    assert (left_in_tx (o_id o) r (tx w (f_src f)) = 0%nat) as E2; [|lia].
    destruct (tx w (f_src f)) as [c|] eqn:Etx; [|done]. cbn. case_bool_decide as E; [|done]. exfalso.
    destruct (ci_tx _ Hc _ Hvs c Etx) as (_ & _ & o' & Ho' & Hid' & Hod' & _).
    destruct (li_uniq _ Hl _ _ _ _ _ _ Ho Ho' ltac:(congruence)) as [_ Et]. subst t. rewrite Ho in Ho'. injection Ho' as <-.
    rewrite in_tx_seq, bool_decide_true in HT; [done|]. split; [done | congruence].
  - split; [|done]. rewrite <- Hid, (li_applied _ Hl _ _ _ Ho), Hod. done.
Qed.

Lemma linv_apply w p elems x pr1 pr2 r f w' :
  linv w -> cinv w -> rx w p = None ->
  getNextAmoOps RECV_TYPE_NOT_ACK (procs w p) = Ret (0, elems, Some x, pr1) -> own w p x = Some f ->
  w' = MkWorld (<[p := pr2]> (procs w)) (net w) (cq w) ((target_ep p (rp_ep r), x) :: posted w) (tx w)
      (<[p := Some (f, r)]> (rx w)) (own w) (outs w) (next_id w) (EApply (f_id f) p :: log w) -> linv w'.
Proof.
  intros Hl Hc Hrx Hg Hown ->. apply getNextAmoOps_inv in Hg as (l & sends & Hq & _ & _).
  destruct (queued_complete w p x f Hl Hc) as (t0 & o0 & Hmt & Ho0 & Hid0 & Hod0 & Hdp & Hland & Hnot & Happ0);
    [rewrite Hq; left | done |].
  pose proof Hl as []. split; cbn [net outs tx log next_id]; try done.
  - apply list.Forall_cons. split; [rewrite <- Hid0; by eapply li_ids0 | done].
  - intros s t o Ho. right. by eapply li_issued0.
  - intros s t o Ho. cbn [cnt is_apply]. rewrite (li_applied0 s t o Ho). unfold applied. cbn [rx net cq].
    destruct (decide (p = pe_of (o_dst o))) as [E|Hne].
    + rewrite <- E, fn_lookup_insert, Hrx. cbn [in_rx b2n].
      replace (bool_decide (f_id f = o_id o)) with (fs s (o_dst o) t f); [lia|].
      apply bool_decide_ext. rewrite Hmt. split.
      * intros ([= ->] & <- & Hd). rewrite Ho in Ho0. injection Ho0 as ->. done.
      * intros E'. rewrite <- Hid0 in E'. destruct (li_uniq0 _ _ _ _ _ _ Ho0 Ho E') as [<- <-].
        rewrite Ho in Ho0. injection Ho0 as ->. done.
    + rewrite fn_lookup_insert_ne by done. rewrite bool_decide_false; [done|]. intros E'. rewrite <- Hid0 in E'.
      destruct (li_uniq0 _ _ _ _ _ _ Ho0 Ho E') as [<- <-]. rewrite Ho in Ho0. injection Ho0 as ->. apply Hne. by rewrite Hod0.
  - intros id s d wr [?|Hin]%elem_of_cons; [done|]. destruct (li_done0 _ _ _ _ Hin); [by left | right; by right].
  - intros id s d wr s' d' wr' [?|H1]%elem_of_cons [?|H2]%elem_of_cons; try done. by eapply li_once0.
  - split; [|done]. exists (f_src f), (f_dst f), (o_writes o0). split; [|done].
    rewrite <- Hid0, <- Hod0. by eapply li_issued0.
Qed.

Lemma log_ok_apply l id p : log_ok l -> EApply id p ∈ l -> exists s d wr, EIssue id s d wr ∈ l /\ pe_of d = p.
Proof.
  induction l as [|ev l IH]; intros Hok Hin; [by apply elem_of_nil in Hin|].
  assert (Hrest : EApply id p ∈ l -> exists s d wr, EIssue id s d wr ∈ ev :: l /\ pe_of d = p).
  { intros H. destruct IH as (s & d & wr & ? & ?); [by destruct ev; cbn in Hok; tauto | done|].
    exists s, d, wr. split; [by right | done]. }
  apply elem_of_cons in Hin as [<-|Hin]; [|auto]. cbn in Hok. destruct Hok as [(s & d & wr & Hi & Hd & _) _].
  exists s, d, wr. split; [by right | done].
Qed.

Lemma linv_cq_ack w l1 l2 e src imm id pr :
  linv w -> cinv w -> cq w = l1 ++ (e, AImm src imm id) :: l2 -> is_ack imm = true ->
  linv (after_cq w l1 l2 e (AImm src imm id) pr).
Proof.
  intros Hl Hc Hq Ha.
  destruct (ack_alone w l1 l2 e src imm id Hc Hq Ha) as (o0 & Ho0 & Hod0 & _).
  set (t0 := ack_tag (imm_seq imm) id) in *.
  assert (HO : outs (after_cq w l1 l2 e (AImm src imm id) pr) = <[e := delete t0 (outs w e)]> (outs w)) by (cbn; by rewrite Ha).
  assert (Hsub : forall s t o, outs (after_cq w l1 l2 e (AImm src imm id) pr) s !! t = Some o ->
            outs w s !! t = Some o /\ ~ (s = e /\ t = t0)).
  { intros s t o. rewrite HO. destruct (decide (e = s)) as [<-|]; [|rewrite fn_lookup_insert_ne by done; intros H; split; [done | by intros [-> _]]].
    rewrite fn_lookup_insert. intros [Hne H]%lookup_delete_Some. split; [done|]. intros [_ ->]. done. }
  pose proof Hl as []. split; try done.
  - intros s t o [Ho _]%Hsub. by eapply li_ids0.
  - intros s t o s' t' o' [Ho _]%Hsub [Ho' _]%Hsub. by eapply li_uniq0.
  - intros s t o [Ho _]%Hsub. by eapply li_valid0.
  - intros f r s t o Hf Hb [Ho _]%Hsub. by eapply li_rma0.
  - intros s t o [Ho _]%Hsub. exact (li_writes0 _ _ _ Ho).
  - intros s t o [Ho _]%Hsub. by eapply li_issued0.
  - intros s t o [Ho Hne]%Hsub. cbn [log after_cq]. rewrite (li_applied0 s t o Ho). unfold applied. cbn [rx net cq after_cq].
    rewrite Hq, !cnt_app. cbn [cnt]. assert (aa s (o_dst o) t (e, AImm src imm id) = false) as ->; [|done].
    unfold aa. cbn [fst snd]. rewrite Ha. cbn [andb]. apply bool_decide_false. intros (_ & <- & <-). by apply Hne.
  - intros id' s d wr Hin. cbn [log after_cq] in *. destruct (li_done0 _ _ _ _ Hin) as [(t & o & Ho & Hid & Hod)|]; [|by right].
    destruct (decide (s = e /\ t = t0)) as [[-> ->]|Hne].
    + right. rewrite Ho0 in Ho. injection Ho as <-.
      assert (Hap : (1 <= cnt (is_apply (o_id o0)) (log w))%nat).
      { rewrite (li_applied0 _ _ _ Ho0). unfold applied. rewrite Hq, !cnt_app. cbn [cnt].
        assert (aa e (o_dst o0) t0 (e, AImm src imm id) = true) as ->; [|cbn [b2n]; lia].
        unfold aa. cbn [fst snd]. rewrite Ha. cbn [andb]. by apply bool_decide_true. }
      destruct (cnt_pos _ _ Hap) as (ev & Hev & E). destruct ev; try done. cbn in E. apply bool_decide_eq_true in E as ->.
      destruct (log_ok_apply _ _ _ li_ok0 Hev) as (s' & d' & wr' & Hi' & Hd').
      rewrite Hid in *. rewrite <- Hd' in Hev. by rewrite (li_once0 _ _ _ _ _ _ _ Hin Hi').
    + left. exists t, o. split; [|done]. rewrite HO. destruct (decide (e = s)) as [<-|]; [|by rewrite fn_lookup_insert_ne].
      rewrite fn_lookup_insert, lookup_delete_ne; [done|]. intros <-. by apply Hne.
Qed.

Lemma linv_cq w l1 l2 e a pr :
  linv w -> cinv w -> cq w = l1 ++ (e, a) :: l2 -> linv (after_cq w l1 l2 e a pr).
Proof.
  intros Hl Hc Hq.
  assert (Hno : retire a (outs w e) = outs w e -> (forall s d t, aa s d t (e, a) = false) -> linv (after_cq w l1 l2 e a pr)).
  { intros Hr Haa. apply (linv_move w); try done; cbn [net after_cq].
    - intros s. by apply after_cq_outs.
    - apply (li_net _ Hl).
    - intros s t o _. unfold applied. cbn [rx net cq after_cq]. rewrite Hq, !cnt_app. cbn [cnt]. by rewrite Haa. }
  destruct a as [src imm id|src x|x is_send]; [|by apply Hno..].
  destruct (is_ack imm) eqn:Ea; [by apply linv_cq_ack|]. apply Hno; [cbn; by rewrite Ea|].
  intros s d t. unfold aa. cbn. by rewrite Ea.
Qed.

Lemma linv_step w w' : linv w -> cinv w -> cinv w' -> step w w' -> linv w'.
Proof.
  intros Hl Hc Hc' Hst. destruct Hst as
    [q b pr ? ? H|q b dpe writes op sig n pr ? ? ? H ?|q b c d rem pr ps ? ? ? H|q b c pr ps ? ? ? H
    |q b dpe op remote sz pr ps ? ? ? H|q b dpe verb remote bytes pr ps ? ? ? H|q key pr ps ? ? H|l1 l2 f imm range Hn Hb|l1 l2 f Hn Hb
    |l1 l2 f m q1 q2 y c Hn Hb Hp Hcx|l1 l2 f is_send Hn Hb|l1 l2 e a pr Hq H|q elems y pr1 c n width r pr2 ps f ? Hrx Hg Hcx Hs Hw H Ho
    |q f r r' pr ps ? Hrx Hfe H|q f r pr ps ? Hrx Hfe H|q y c b pr ? Hy Hcx He H].
  - apply (linv_move w); try done. apply (li_net _ Hl).
  - by eapply (linv_seq w q b dpe writes op sig n pr).
  - by eapply (linv_write w q b c d rem).
  - by eapply (linv_signal w q b c).
  - by eapply (linv_amo w q b dpe).
  - by eapply (linv_rma w q b dpe).
  - by eapply (linv_cst w q key).
  - by eapply (linv_land w l1 l2 f imm range).
  - apply (linv_move w); try done; cbn [net].
    + apply net_ids_done. rewrite <- Hn. apply (li_net _ Hl).
    + intros g r. rewrite Hn. apply rma_done.
    + intros s t o r _. rewrite Hn, !cnt_app. cbn [cnt]. rewrite flying_done. unfold flying at 4. by rewrite Hb.
    + intros s t o _. unfold applied. cbn [rx net cq]. rewrite Hn, !cnt_app. cbn [cnt].
      destruct (with_done_counts s (o_dst o) t f false) as (_ & _ & ->). unfold fa at 4. by rewrite Hb.
  - apply (linv_move w); try done; cbn [net].
    + apply net_ids_done. rewrite <- Hn. apply (li_net _ Hl).
    + intros g r. rewrite Hn. apply rma_done.
    + intros s t o r _. rewrite Hn, !cnt_app. cbn [cnt]. rewrite flying_done. unfold flying at 4. by rewrite Hb.
    + intros s t o _. unfold applied. cbn [rx net cq]. rewrite Hn, !cnt_app. cbn [cnt].
      destruct (with_done_counts s (o_dst o) t f true) as (_ & _ & ->). unfold fa at 4. by rewrite Hb.
  - apply (linv_move w); try done; cbn [net].
    + pose proof (li_net _ Hl) as H. rewrite Hn, list.Forall_app, list.Forall_cons in H. apply list.Forall_app. tauto.
    + intros g r Hg _. rewrite Hn. apply elem_of_app in Hg as [Hg|Hg]; apply elem_of_app; [by left | right; by right].
    + intros s t o r _. rewrite Hn, !cnt_app. cbn [cnt]. unfold flying at 4. rewrite Hb. done.
    + intros s t o _. unfold applied. cbn [rx net cq]. rewrite Hn, !cnt_app. cbn [cnt]. unfold fa at 4. rewrite Hb. done.
  - by apply linv_cq.
  - by eapply (linv_apply w q elems y pr1 pr2 r f).
  - apply amo_respond_inv in H as (y & elems & ret & b & c & c0 & cx & _ & _ & _ & _ & _ & -> & -> & ->); [|done].
    destruct (ci_rx _ Hc q f r Hrx) as (_ & (_ & _ & Hneed) & Hsa & _ & _ & Hmt). rewrite Hsa.
    destruct (Hneed _ (need_msg _ _ Hmt)) as (_ & o0 & Ho0 & Hid0 & _).
    apply (linv_move w); try done; cbn [net mbind list_bind fly app].
    + apply list.Forall_cons. split; [cbn; rewrite <- Hid0; by eapply (li_ids _ Hl) | apply (li_net _ Hl)].
    + intros g r0 [->|Hg]%elem_of_cons; done.
    + intros s t o _. unfold applied. cbn [rx net cq]. cbn [mbind list_bind fly app cnt].
      destruct (decide (q = pe_of (o_dst o))) as [E|]; [|by rewrite fn_lookup_insert_ne].
      by rewrite <- E, fn_lookup_insert, Hrx.
  - apply gdrcopy_amo_ack_inv in H as (y & elems & addr & key & _ & -> & ->).
    destruct (ci_rx _ Hc q f r Hrx) as (Hdp & (_ & _ & Hneed) & Hsa & Hre & Hsq & Hmt). rewrite Hsa.
    destruct (Hneed _ (need_msg _ _ Hmt)) as (_ & o0 & Ho0 & Hid0 & Hod0 & _).
    destruct (ack_imm_seq _ Hsq) as [Himm Hack].
    assert (Hdst : target_ep q (rp_ep r) = f_dst f) by (by rewrite Hre, <- Hdp, target_ep_eta).
    apply (linv_move w); try done; cbn [net mbind list_bind fly app].
    + apply list.Forall_cons. split; [cbn; rewrite <- Hid0; by eapply (li_ids _ Hl) | apply (li_net _ Hl)].
    + intros g r0 [->|Hg]%elem_of_cons; done.
    + intros s t o r0 _. cbn [cnt]. unfold flying at 1. cbn [f_body]. rewrite Hack. cbn [negb]. by rewrite andb_false_r.
    + intros s t o _. unfold applied. cbn [rx net cq]. cbn [mbind list_bind fly app cnt].
      assert (fa s (o_dst o) t (MkFlight (target_ep q (rp_ep r)) (f_src f) (BWrite (Some (Z.lor (2 ^ 28) (rp_seq r))) (addr, 0)) (Some y) (f_id f))
              = fs s (o_dst o) t f) as ->.
      { unfold fa, fs. cbn [f_body f_src f_dst f_id]. rewrite Hack, Himm, Hdst, Hmt. cbn [andb]. apply bool_decide_ext.
        split; [intros (? & ? & ?); split; [by f_equal | done] | intros (E & ? & ?); injection E as E; done]. }
      destruct (decide (q = pe_of (o_dst o))) as [E|Hne].
      * rewrite <- E, fn_lookup_insert, Hrx. cbn [in_rx b2n]. lia.
      * rewrite fn_lookup_insert_ne by done. assert (fs s (o_dst o) t f = false) as ->; [|done].
        apply bool_decide_false. intros (_ & _ & E). apply Hne. by rewrite <- E.
  - apply (linv_move w); try done. apply (li_net _ Hl).
Qed.

Lemma linv_initial w : initial w -> linv w.
Proof.
  intros [Hn Hc Hl Ht Hr Ho _ _ _ _ _ _ _].
  split; rewrite ?Hl, ?Hn; intros *; rewrite ?Ho, ?lookup_empty; try done; intros H; by apply elem_of_nil in H.
Qed.

Lemma reachable_linv w : reachable handle_info use_gdrcopy ack_addr ack_key mr_key w -> fits w -> cinv w /\ linv w.
Proof. apply (fabric_reachable_inv linv linv_initial). intros. by eapply linv_step. Qed.
End steps.

Lemma log_ok_suffix l1 l2 : log_ok (l1 ++ l2) -> log_ok l2.
Proof. induction l1 as [|ev l1 IH]; [done|]. intros H. apply IH. destruct ev; cbn in H; tauto. Qed.

(** ** An interpreter of steps

    [exec] performs the step an [action] names, with the choices of the fabric
    as positions in the lists, and [exec_step] relates it to [step]. *)
Inductive action :=
| ASeq (p : Z) (b : bool) (dpe : Z) (writes : list (Rma.rma_memdesc * Rma.rma_bytesdesc)) (op : Z) (sig : Rma.amo_memdesc)
| AWrite (p : Z) (b : bool)
| ASignal (p : Z) (b : bool)
| ACst (p key : Z)
| ALand (i : nat)
| AReadAt (i : nat)
| ARecvAt (i j : nat)
| ADone (i : nat)
| ACq (i : nat)
| AApply (p : Z)
| AAck (p : Z).

Section exec.
Context (handle_info : Z -> option (Z * Z)) (use_gdrcopy : bool) (ack_addr ack_key : Z -> Z) (mr_key : Z -> bool -> Z).

Definition valid_peb (p : Z) : bool := bool_decide (0 <= p < 2 ^ 31).

Definition exec (w : world) (a : action) : option world :=
  match a with
  | ASeq p b dpe writes op sig =>
      match tx w (target_ep p b), put_signal_seq b (procs w p) with
      | None, Ret (n, pr) =>
          if valid_peb p && valid_peb dpe && bool_decide (0 <= n) then
            Some (MkWorld (<[p := pr]> (procs w)) (net w) (cq w) (posted w)
              (<[target_ep p b := Some (MkTx (next_id w) dpe n writes (length writes) op sig)]> (tx w)) (rx w) (own w)
              (<[target_ep p b := <[inl n := MkOp (next_id w) (target_ep dpe b) (map write_range writes)]>
                                    (outs w (target_ep p b))]> (outs w))
              (next_id w + 1)
              (EIssue (next_id w) (target_ep p b) (target_ep dpe b) (map write_range writes) :: log w))
          else None
      | _, _ => None
      end
  | AWrite p b =>
      match tx w (target_ep p b) with
      | Some c =>
          match tc_rem c with
          | d :: rem =>
              match rma_impl mr_key PROVIDER_EFA true (tc_pe c) put_verb d.1 d.2 b (Some (tc_seq c)) 0 (procs w p) with
              | Ret (0, pr, ps) =>
                  if valid_peb p then
                    Some (MkWorld (<[p := pr]> (procs w)) ((ps ≫= fly (target_ep p b) (tc_id c)) ++ net w) (cq w) (posted w)
                      (<[target_ep p b := Some (MkTx (tc_id c) (tc_pe c) (tc_seq c) rem (tc_num c) (tc_sig_op c) (tc_sig c))]> (tx w))
                      (rx w) (own w) (outs w) (next_id w) (log w))
                  else None
              | _ => None
              end
          | [] => None
          end
      | None => None
      end
  | ASignal p b =>
      match tx w (target_ep p b) with
      | Some c =>
          match tc_rem c with
          | [] =>
              match gdr_signal (tc_pe c) (tc_sig_op c) (tc_sig c) b (tc_seq c) (u16 (Z.of_nat (tc_num c))) 0 (procs w p) with
              | Ret (0, pr, ps) =>
                  if valid_peb p then
                    Some (MkWorld (<[p := pr]> (procs w)) ((ps ≫= fly (target_ep p b) (tc_id c)) ++ net w) (cq w) (posted w)
                      (<[target_ep p b := None]> (tx w)) (rx w) (own w) (outs w) (next_id w) (log w))
                  else None
              | _ => None
              end
          | _ => None
          end
      | None => None
      end
  | ACst p key =>
      match tx w (target_ep p true), libfabric_enforce_cst key 0 (procs w p) with
      | None, Ret (0, pr, ps) =>
          if valid_peb p then
            Some (MkWorld (<[p := pr]> (procs w)) ((ps ≫= fly (target_ep p true) (next_id w)) ++ net w) (cq w) (posted w)
              (tx w) (rx w) (own w) (outs w) (next_id w + 1) (ERma (next_id w) (target_ep p true) :: log w))
          else None
      | _, _ => None
      end
  | AReadAt i =>
      match net w !! i with
      | Some f =>
          match f_body f with
          | BRead => Some (MkWorld (procs w) (take i (net w) ++ with_body (BDone false) f :: drop (S i) (net w)) (cq w)
                       (posted w) (tx w) (rx w) (own w) (outs w) (next_id w) (log w))
          | _ => None
          end
      | None => None
      end
  | ALand i =>
      match net w !! i with
      | Some f =>
          match f_body f with
          | BWrite imm range =>
              Some (MkWorld (procs w) (take i (net w) ++ with_body (BDone false) f :: drop (S i) (net w))
                ((match imm with Some i => [(f_dst f, AImm (f_src f) i (f_id f))] | None => [] end) ++ cq w)
                (posted w) (tx w) (rx w) (own w) (outs w) (next_id w) (land_events imm (f_id f) range ++ log w))
          | _ => None
          end
      | None => None
      end
  | ARecvAt i j =>
      match net w !! i, posted w !! j with
      | Some f, Some (a, x) =>
          match f_body f, ctxs (procs w (pe_of (f_dst f))) !! x with
          | BMsg m, Some c =>
              if bool_decide (a = f_dst f) then
                Some (MkWorld (<[pe_of (f_dst f) := set_ctx x (recv_ctx m c) (procs w (pe_of (f_dst f)))]> (procs w))
                  (take i (net w) ++ with_body (BDone true) f :: drop (S i) (net w)) ((f_dst f, ARecv (f_src f) x) :: cq w)
                  (take j (posted w) ++ drop (S j) (posted w)) (tx w) (rx w)
                  (<[pe_of (f_dst f) := <[x := Some f]> (own w (pe_of (f_dst f)))]> (own w))
                  (outs w) (next_id w) (log w))
              else None
          | _, _ => None
          end
      | _, _ => None
      end
  | ADone i =>
      match net w !! i with
      | Some f =>
          match f_body f with
          | BDone is_send =>
              Some (MkWorld (<[pe_of (f_src f) := count_completion (is_proxy_of (f_src f)) (procs w (pe_of (f_src f)))]> (procs w))
                (take i (net w) ++ drop (S i) (net w)) ((f_src f, ALocal (f_ctx f) is_send) :: cq w) (posted w) (tx w) (rx w)
                (own w) (outs w) (next_id w) (log w))
          | _ => None
          end
      | None => None
      end
  | ACq i =>
      match cq w !! i with
      | Some (e, a) =>
          match gdr_process_completion (is_proxy_of e) (entry_of a).1 (entry_of a).2 (procs w (pe_of e)) with
          | Ret (0, pr) => Some (after_cq w (take i (cq w)) (drop (S i) (cq w)) e a pr)
          | _ => None
          end
      | None => None
      end
  | AApply p =>
      match rx w p, getNextAmoOps RECV_TYPE_NOT_ACK (procs w p) with
      | None, Ret (0, elems, Some x, pr1) =>
          match ctxs pr1 !! x, own w p x with
          | Some c, Some f =>
              match amo_sequence c, amo_width (am_size (c_send_amo c)) with
              | Some n, Some width =>
                  match amo_apply handle_info use_gdrcopy width 0 x elems n pr1 with
                  | Ret (0, Some r, pr2, _) =>
                      if valid_peb p then
                        Some (MkWorld (<[p := pr2]> (procs w)) (net w) (cq w) ((target_ep p (rp_ep r), x) :: posted w) (tx w)
                          (<[p := Some (f, r)]> (rx w)) (own w) (outs w) (next_id w) (EApply (f_id f) p :: log w))
                      else None
                  | _ => None
                  end
              | _, _ => None
              end
          | _, _ => None
          end
      | _, _ => None
      end
  | AAck p =>
      match rx w p with
      | Some (f, r) =>
          match rp_fetch r, gdrcopy_amo_ack ack_addr ack_key 0 r (procs w p) with
          | None, Ret (0, pr, ps) =>
              if valid_peb p then
                Some (MkWorld (<[p := pr]> (procs w)) ((ps ≫= fly (target_ep p (rp_ep r)) (f_id f)) ++ net w) (cq w) (posted w)
                  (tx w) (<[p := None]> (rx w)) (own w) (outs w) (next_id w) (log w))
              else None
          | _, _ => None
          end
      | None => None
      end
  end.

Lemma exec_step w a w' : exec w a = Some w' -> step handle_info use_gdrcopy ack_addr ack_key mr_key w w'.
Proof.
  unfold exec, valid_peb. intros H. destruct a;
    repeat match type of H with
    | match ?x with _ => _ end = _ => let E := fresh "E" in destruct x eqn:E; try discriminate H
    end;
    repeat match goal with
    | H : _ && _ = true |- _ => apply andb_prop in H as [? ?]
    | H : bool_decide _ = true |- _ => apply bool_decide_eq_true in H
    end; simplify_eq/=.
  - by apply step_seq.
  - by eapply step_write.
  - by eapply step_signal.
  - by eapply step_cst.
  - eapply step_land; [|done]. by rewrite take_drop_middle.
  - eapply step_read; [|done]. by rewrite take_drop_middle.
  - eapply step_recv; [by rewrite take_drop_middle | done | by rewrite take_drop_middle | done].
  - eapply step_done; [by rewrite take_drop_middle | done].
  - eapply step_cq; [by rewrite take_drop_middle | done].
  - by eapply step_apply.
  - by eapply step_ack.
Qed.

Fixpoint run (w : world) (l : list action) : option world :=
  match l with [] => Some w | a :: l => w' ← exec w a; run w' l end.

Lemma exec_run_steps w l w' : run w l = Some w' -> rtc (step handle_info use_gdrcopy ack_addr ack_key mr_key) w w'.
Proof.
  revert w. induction l as [|a l IH]; intros w H; cbn in H; [by simplify_eq|].
  destruct (exec w a) as [w1|] eqn:E; cbn in H; [|done]. eapply rtc_l; [by apply exec_step with a | auto].
Qed.
End exec.

(** ** A run: the signal arrives before the write it announces *)
Definition demo_ctx : gdr_op_ctx :=
  MkCtx NVSHMEMT_LIBFABRIC_SEND None (MkAmo 0 0 0 0 0 0 0 0) (MkRet 0 0 0) (MkSig 0 0 0 0 0 0) None.
Definition demo_ep : endpoint := MkEp 0 0 0 reset ∅.
Definition demo_proc (p : Z) : proc :=
  MkProc p demo_ep demo_ep (MkQueue [100; 101; 102] [] [])
    (list_to_map [(100, demo_ctx); (101, demo_ctx); (102, demo_ctx); (200, demo_ctx)]) {[ 4096 := 7 ]}.
Definition demo_w0 : world :=
  MkWorld demo_proc [] [] [(target_ep 1 true, 200)] (fun _ => None) (fun _ => None) (fun _ _ => None) (fun _ => ∅) 0 [].

Lemma demo_initial : initial demo_w0.
Proof.
  split; try done.
  - intros p b. by destruct b.
  - apply list.Forall_singleton. vm_compute. split; [discriminate | reflexivity].
  - intros p x c H. cbn in H. repeat (rewrite lookup_insert_Some in H; destruct H as [[_ <-]|[_ H]]; [done|]).
    by rewrite lookup_empty in H.
  - intros p x [H|(a & H & _)].
    + cbn in H. repeat (apply elem_of_cons in H as [->|H]; [by vm_compute; eauto|]). by apply elem_of_nil in H.
    + apply list_elem_of_singleton in H. injection H as _ ->. by vm_compute; eauto.
  - intros p. cbn [demo_w0 procs demo_proc queue q_send posted]. rewrite filter_cons. case_decide; cbn; rewrite NoDup_ListNoDup || idtac;
      repeat constructor; set_solver.
Qed.

Definition demo_hi (a : Z) : option (Z * Z) := Some (a, a).
Definition demo_desc : Rma.rma_memdesc := {| Rma.ptr := 8192; Rma.offset := 0; Rma.handle := Some 0 |}.
Definition demo_bytes : Rma.rma_bytesdesc := {| Rma.nelems := 16; Rma.elembytes := 4; Rma.srcstride := 1; Rma.deststride := 1 |}.
Definition demo_sig : Rma.amo_memdesc :=
  {| Rma.remote_memdesc := {| Rma.ptr := 4096; Rma.offset := 0; Rma.handle := Some 0 |};
     Rma.retflag := 0; Rma.retptr := 0; Rma.val := 42; Rma.cmp := 0; Rma.ret_handle := None |}.
Abbreviation demo_step := (step demo_hi false (fun _ => 0) (fun _ => 0) (fun _ _ => 0)).


Definition demo_run : list action -> option world := run demo_hi false (fun _ => 0) (fun _ => 0) (fun _ _ => 0) demo_w0.
(** the write and the signal are posted; the signal arrives and is handled first *)
Definition demo_applied : list action :=
  [ASeq 0 true 1 [(demo_desc, demo_bytes)] 9 demo_sig; AWrite 0 true; ASignal 0 true; ARecvAt 0 0; ACq 0; ALand 1; ACq 0; AApply 1].
(** the acknowledgement travels back and the operations complete *)
Definition demo_finished : list action := demo_applied ++ [AAck 1; ALand 0; ACq 0; ADone 1; ADone 1].
(** then the first process posts a consistency read, which returns and completes *)
Definition demo_cst : list action := demo_finished ++ [ACst 0 7].
Definition demo_cst_done : list action := demo_cst ++ [AReadAt 0; ADone 0].

Definition demo_world (l : list action) : world := default demo_w0 (demo_run l).

Lemma demo_reachable l : is_Some (demo_run l) ->
  reachable demo_hi false (fun _ => 0) (fun _ => 0) (fun _ _ => 0) (demo_world l).
Proof.
  intros [w Hw]. exists demo_w0. split; [apply demo_initial|]. unfold demo_world. rewrite Hw. by eapply exec_run_steps.
Qed.

Example demo_log : log (demo_world demo_finished) = [EApply 0 1; ELand 0 (8192, 64); EIssue 0 1 3 [(8192, 64)]].
Proof. vm_compute. reflexivity. Qed.

(** C3: a put-with-signal over a fabric that delivers in any order is applied at
    the target only after all its writes arrived, and once, provided that every
    put-with-signal has fewer than 2^16 writes ([fits]; with 2^16 the 16-bit count
    in the signal wraps, [signal_count_wraps]): in every state reachable with
    puts, gets, atomics, put-with-signals and consistency reads, every application
    recorded in the log follows the issue of the operation and the arrival of
    exactly its writes. *)
Theorem signal_after_data hi ug aa ak mk w l1 id p l2 :
  reachable hi ug aa ak mk w -> fits w -> log w = l1 ++ EApply id p :: l2 ->
  (exists s d writes, EIssue id s d writes ∈ l2 /\ pe_of d = p /\
     forall r, cnt (is_land id r) l2 = cnt (is_range r) writes) /\
  cnt (is_apply id) l2 = 0%nat.
Proof.
  intros Hr Hf Hl. destruct (reachable_linv w Hr Hf) as [_ Hlinv].
  pose proof (li_ok _ Hlinv) as Hok. rewrite Hl in Hok. apply log_ok_suffix in Hok. cbn in Hok. tauto.
Qed.

Lemma signal_after_data_witness :
  log (demo_world demo_applied) = [EApply 0 1; ELand 0 (8192, 64); EIssue 0 1 3 [(8192, 64)]] /\
  exists s d writes, EIssue 0 s d writes ∈ [ELand 0 (8192, 64); EIssue 0 1 3 [(8192, 64)]] /\ pe_of d = 1 /\
    forall r, cnt (is_land 0 r) [ELand 0 (8192, 64); EIssue 0 1 3 [(8192, 64)]] = cnt (is_range r) writes.
Proof.
  assert (E : log (demo_world demo_applied) = [EApply 0 1; ELand 0 (8192, 64); EIssue 0 1 3 [(8192, 64)]])
    by (vm_compute; reflexivity).
  split; [exact E|].
  refine (proj1 (signal_after_data demo_hi false (fun _ => 0) (fun _ => 0) (fun _ _ => 0)
                  (demo_world demo_applied) [] 0 1 _ _ _ _)).
  - apply demo_reachable. vm_compute. eauto.
  - unfold fits. rewrite E. repeat constructor.
  - exact E.
Defined.
