(* ===== verification/LibfabricQuiet.v ===== *)
(** * The libfabric transport: quiet waits for everything

    [submitted_ops] of an endpoint counts the local completions and the
    acknowledgements due; when the counter of completions and the counter of
    acknowledgements add up to it, nothing the endpoint posted is under way and
    every atomic and signal it issued was applied. *)
From stdpp Require Import base gmap list functions.
From S2P Require Import Prelude ProxyChannel Rma Libfabric LibfabricOps LibfabricNet LibfabricInv LibfabricCont LibfabricStep LibfabricCq LibfabricRun.
Open Scope Z_scope.

(** ** The endpoint of a receive buffer

    A buffer is always posted on the same endpoint, so the pointer [ep] of its
    context, where it is set, is that endpoint. *)
Record home_ok (home : Z -> Z -> bool) (w : world) : Prop := {
  ho_posted : forall a x, (a, x) ∈ posted w -> is_proxy_of a = home (pe_of a) x;
  ho_cq : forall e src x, (e, ARecv src x) ∈ cq w -> is_proxy_of e = home (pe_of e) x;
  ho_ctx : forall p x c b, ctxs (procs w p) !! x = Some c -> c_ep c = Some b -> home p x = b;
  ho_rx : forall p f r, rx w p = Some (f, r) -> home p (rp_op r) = rp_ep r }.

(** What is due for an endpoint: local completions, and acknowledgements of the
    operations whose signal or atomic was sent. *)
Definition from (s : Z) (f : flight) : bool := bool_decide (f_src f = s).
Definition due (w : world) (s : Z) : Z :=
  Z.of_nat (cnt (from s) (net w)) + Z.of_nat (size (outs w s)) - (match tx w s with Some _ => 1 | None => 0 end).

Definition balanced (e : endpoint) (n : Z) : Prop :=
  submitted_ops e = u64 (cntr e + completed_staged_atomics e + n).

Definition qinv (w : world) : Prop := forall s, valid_ep s -> balanced (ep_at w s) (due w s).

Lemma u64_add_l a b : u64 (u64 a + b) = u64 (a + b).
Proof. unfold wrap. by rewrite Zplus_mod_idemp_l. Qed.

Lemma balanced_submit e n k : balanced e n -> balanced (add_submitted k e) (n + k).
Proof. unfold balanced. cbn. intros ->. rewrite u64_add_l. f_equal. lia. Qed.

Lemma balanced_ext e e' n :
  submitted_ops e' = submitted_ops e -> cntr e' = cntr e -> completed_staged_atomics e' = completed_staged_atomics e ->
  balanced e n -> balanced e' n.
Proof. unfold balanced. by intros -> -> ->. Qed.

Lemma balanced_cntr e n e' :
  submitted_ops e' = submitted_ops e -> cntr e' = u64 (cntr e + 1) ->
  completed_staged_atomics e' = completed_staged_atomics e -> balanced e n -> balanced e' (n - 1).
Proof.
  unfold balanced. intros -> -> -> ->. unfold wrap.
  replace ((cntr e + 1) mod 2 ^ 64 + completed_staged_atomics e + (n - 1))
    with ((cntr e + 1) mod 2 ^ 64 + (completed_staged_atomics e + (n - 1))) by lia.
  rewrite Zplus_mod_idemp_l. f_equal. lia.
Qed.

Lemma balanced_staged e n e' :
  submitted_ops e' = submitted_ops e -> cntr e' = cntr e ->
  completed_staged_atomics e' = u64 (completed_staged_atomics e + 1) -> balanced e n -> balanced e' (n - 1).
Proof.
  unfold balanced. intros -> -> -> ->. unfold wrap.
  replace (cntr e + (completed_staged_atomics e + 1) mod 2 ^ 64 + (n - 1))
    with ((completed_staged_atomics e + 1) mod 2 ^ 64 + (cntr e + (n - 1))) by lia.
  rewrite Zplus_mod_idemp_l. f_equal. lia.
Qed.

(** A step of process [p] that changes endpoint [b] only. *)
Lemma qinv_proc w w' p b pr :
  qinv w -> procs w' = <[p := pr]> (procs w) ->
  (forall b', b' <> b -> submitted_ops (ep b' pr) = submitted_ops (ep b' (procs w p)) /\
     cntr (ep b' pr) = cntr (ep b' (procs w p)) /\
     completed_staged_atomics (ep b' pr) = completed_staged_atomics (ep b' (procs w p))) ->
  (forall s, valid_ep s -> s <> target_ep p b -> due w' s = due w s) ->
  (valid_ep (target_ep p b) -> balanced (ep b (procs w p)) (due w (target_ep p b)) -> balanced (ep b pr) (due w' (target_ep p b))) ->
  qinv w'.
Proof.
  intros Hq HP Hoth Hdue Hb s Hs. specialize (Hq s Hs). unfold ep_at in *. rewrite HP.
  destruct (decide (s = target_ep p b)) as [->|Hne].
  - rewrite target_ep_pe, target_ep_proxy in *. rewrite fn_lookup_insert. auto.
  - rewrite (Hdue s Hs Hne). destruct (decide (p = pe_of s)) as [->|]; [|by rewrite fn_lookup_insert_ne].
    rewrite fn_lookup_insert. destruct (Hoth (is_proxy_of s)) as (? & ? & ?).
    { intros E. apply Hne. by rewrite <- E, target_ep_eta. }
    by eapply balanced_ext.
Qed.

Lemma qinv_same w w' :
  qinv w -> (forall s, valid_ep s -> due w' s = due w s) ->
  (forall p b, submitted_ops (ep b (procs w' p)) = submitted_ops (ep b (procs w p)) /\
     cntr (ep b (procs w' p)) = cntr (ep b (procs w p)) /\
     completed_staged_atomics (ep b (procs w' p)) = completed_staged_atomics (ep b (procs w p))) ->
  qinv w'.
Proof.
  intros Hq Hd He s Hs. rewrite (Hd s Hs). destruct (He (pe_of s) (is_proxy_of s)) as (? & ? & ?).
  by eapply balanced_ext; [..|apply Hq].
Qed.

Lemma due_insert_size (m : gmap tag pending_op) t o : m !! t = None -> size (<[t := o]> m) = S (size m).
Proof. apply map_size_insert_None. Qed.
Lemma due_delete_size (m : gmap tag pending_op) t o : m !! t = Some o -> size m = S (size (delete t m)).
Proof. intros H. rewrite <- (insert_delete_id m t o H) at 1. apply map_size_insert_None, lookup_delete_eq. Qed.

Section steps.
Context {handle_info : Z -> option (Z * Z)} {use_gdrcopy : bool} {ack_addr ack_key : Z -> Z} {mr_key : Z -> bool -> Z}.
Abbreviation step := (step handle_info use_gdrcopy ack_addr ack_key mr_key).

Ltac balance H :=
  match goal with |- balanced _ ?a => match type of H with balanced _ ?b => replace a with b by lia; exact H end end.

(** A plain operation is counted as one submission of its endpoint. *)
Lemma qinv_plain w p b dst bd x pr O id lg w' :
  qinv w -> O = procs w p -> (forall b', ep b' pr = ep b' O) ->
  w' = MkWorld (<[p := set_ep b (add_submitted 1 (ep b O)) pr]> (procs w)) (MkFlight (target_ep p b) dst bd x id :: net w)
      (cq w) (posted w) (tx w) (rx w) (own w) (outs w) (id + 1) lg -> qinv w'.
Proof.
  intros Hq -> He ->. refine (qinv_proc w _ p b _ Hq _ _ _ _); [reflexivity | | |].
  - intros b' Hb'. rewrite ep_set_ep, bool_decide_false by done. by rewrite He.
  - intros s Hsv Hne. unfold due. cbn [net outs tx app cnt]. unfold from at 1. cbn [f_src]. by rewrite bool_decide_false.
  - intros _ Hbal. rewrite ep_set_ep_eq. eapply balanced_submit with (k := 1) in Hbal.
    unfold due in *. cbn [net outs tx app cnt]. unfold from at 1. cbn [f_src]. rewrite bool_decide_true by done. cbn [b2n].
    balance Hbal.
Qed.

(** Handling a completion: an acknowledgement is counted, nothing else is. *)
Definition counters_eq (pr pr' : proc) : Prop := forall b,
  submitted_ops (ep b pr') = submitted_ops (ep b pr) /\ cntr (ep b pr') = cntr (ep b pr) /\
  completed_staged_atomics (ep b pr') = completed_staged_atomics (ep b pr).

Lemma match_arrival_counters b key xo n pr pr' : match_arrival b key xo n pr pr' -> counters_eq pr pr'.
Proof.
  unfold match_arrival. cbv zeta. case_bool_decide; [intros (y & _ & ->)|intros ->]; intros b'; by destruct b, b'.
Qed.

Lemma process_counters b a pr pr' :
  gdr_process_completion b (entry_of a).1 (entry_of a).2 pr = Ret (0, pr') ->
  (forall src imm id, a = AImm src imm id -> is_ack imm = false) -> counters_eq pr pr'.
Proof.
  intros H Ha. destruct a as [src imm id|src y|y is_send].
  - apply process_write_inv in H; [|eauto]. by eapply match_arrival_counters.
  - apply process_recv_inv in H as (c0 & _ & H). cbv zeta in H. destruct (c_type c0); try (by subst pr'; intros b').
    destruct H as (pr1 & -> & H). apply match_arrival_counters in H. done.
  - apply process_local_inv in H as (z & c & c0 & _ & _ & _ & ->). by intros b'.
Qed.

Lemma ack_counters e en e' : put_signal_ack_completion e en = Ret e' ->
  submitted_ops e' = submitted_ops e /\ cntr e' = cntr e /\
  completed_staged_atomics e' = u64 (completed_staged_atomics e + 1).
Proof.
  unfold put_signal_ack_completion. case_bool_decide; cbn [negb].
  - cbn [mbind outcome_bind]. intros E. by simplify_eq.
  - destruct (return_acked_seq_num _ _) as [c|]; cbn [mbind outcome_bind]; [|done]. intros E. by simplify_eq.
Qed.

Lemma qinv_cq w l1 l2 e a pr :
  qinv w -> cinv w -> cq w = l1 ++ (e, a) :: l2 ->
  gdr_process_completion (is_proxy_of e) (entry_of a).1 (entry_of a).2 (procs w (pe_of e)) = Ret (0, pr) ->
  qinv (after_cq w l1 l2 e a pr).
Proof.
  intros Hq Hc Hcq H.
  assert (Hack : (exists src imm id, a = AImm src imm id /\ is_ack imm = true) \/
                 (retire a (outs w e) = outs w e /\ forall src imm id, a = AImm src imm id -> is_ack imm = false)).
  { destruct a as [src imm id|src y|y is_send]; [|right; done|right; done]. destruct (is_ack imm) eqn:E; [left; eauto|].
    right. cbn. rewrite E. split; [done|]. intros ? ? ? [= <- <- <-]. done. }
  destruct Hack as [(src & imm & id & -> & Ea)|[Hret Hno]].
  - apply process_ack_inv in H as (e' & He' & ->); [|done]. apply ack_counters in He' as (H1 & H2 & H3).
    destruct (ack_alone w l1 l2 e src imm id Hc Hcq Ea) as (o & Ho & _).
    refine (qinv_proc w _ (pe_of e) (is_proxy_of e) _ Hq _ _ _ _); [reflexivity | | |].
    + intros b' Hb'. by rewrite ep_set_ep, bool_decide_false by done.
    + rewrite target_ep_eta. intros s _ Hne. unfold due, after_cq. cbn [net outs tx]. by rewrite fn_lookup_insert_ne.
    + rewrite target_ep_eta, ep_set_ep_eq. intros _ Hbal. apply (balanced_staged _ _ e' H1 H2 H3) in Hbal.
      unfold due, after_cq in *. cbn [net outs tx]. rewrite fn_lookup_insert. cbn [retire]. rewrite Ea.
      rewrite (due_delete_size _ _ _ Ho) in Hbal. balance Hbal.
  - pose proof (process_counters _ _ _ _ H Hno) as Hcn. apply (qinv_same w); [done| |].
    + intros s _. unfold due. rewrite after_cq_outs by done. done.
    + intros p b. cbn [procs after_cq]. destruct (decide (pe_of e = p)) as [<-|]; [rewrite fn_lookup_insert; apply Hcn | by rewrite fn_lookup_insert_ne].
Qed.

Lemma qinv_step home w w' : qinv w -> home_ok home w -> cinv w -> cinv w' -> step w w' -> qinv w'.
Proof.
  intros Hq Hh Hc Hc' Hst. destruct Hst as
    [q b pr ? ? H|q b dpe writes op sig n pr ? ? Htx H ?|q b c d rem pr ps ? Htx Hrem H|q b c pr ps ? Htx ? H
    |q b dpe op remote sz pr ps ? ? ? H|q b dpe verb remote bytes pr ps ? ? ? H|q key pr ps ? ? H|l1 l2 f imm range Hn Hb|l1 l2 f Hn Hb
    |l1 l2 f m q1 q2 y c Hn Hb Hp Hcx|l1 l2 f is_send Hn Hb|l1 l2 e a pr Hqq H|q elems y pr1 c n width r pr2 ps f ? Hrx Hg Hcx Hs Hw H Ho
    |q f r r' pr ps ? Hrx Hfe H|q f r pr ps ? Hrx Hfe H|q y c b pr ? Hy Hcx He H].
  - apply put_signal_seq_inv in H as (c & _ & ->). apply (qinv_same w); try done. intros p b'. cbn [procs].
    destruct (decide (q = p)) as [<-|]; [|by rewrite fn_lookup_insert_ne]. rewrite fn_lookup_insert, ep_set_ep.
    case_bool_decide as E; [by rewrite <- E | done].
  - apply put_signal_seq_inv in H as (c & Hnx & ->).
    destruct (fresh_seq w q b n c Hc ltac:(done) ltac:(done) Hnx) as (_ & Hfr & _).
    apply (qinv_same w); try done.
    + intros s Hs. unfold due. cbn [net outs tx]. destruct (decide (target_ep q b = s)) as [<-|]; [|by rewrite !fn_lookup_insert_ne].
      rewrite !fn_lookup_insert, due_insert_size by done. rewrite Htx. lia.
    + intros p b'. cbn [procs].
      destruct (decide (q = p)) as [<-|]; [|by rewrite fn_lookup_insert_ne]. rewrite fn_lookup_insert, ep_set_ep.
      case_bool_decide as E; [by rewrite <- E | done].
  - apply put_write_inv in H as (y & l & key & Hs & -> & ->).
    refine (qinv_proc w _ q b _ Hq _ _ _ _); [reflexivity | | |].
    + intros b' Hb'. unfold after_post. rewrite ep_set_ep, bool_decide_false by done. by rewrite ep_set_queue.
    + intros s Hsv Hne. unfold due. cbn [net outs tx mbind list_bind fly app cnt]. rewrite fn_lookup_insert_ne by done.
      unfold from at 1. cbn [f_src]. rewrite bool_decide_false by done. done.
    + intros _ Hbal. unfold after_post. rewrite ep_set_ep_eq. eapply balanced_submit with (k := 1) in Hbal.
      unfold due in *. cbn [net outs tx mbind list_bind fly app cnt]. rewrite fn_lookup_insert. rewrite Htx in Hbal.
      unfold from at 1. cbn [f_src]. rewrite bool_decide_true by done. cbn [b2n].
      balance Hbal.
  - apply gdr_signal_inv in H as (y & l & c' & sg & Hs & -> & -> & _).
    refine (qinv_proc w _ q b _ Hq _ _ _ _); [reflexivity | | |].
    + intros b' Hb'. unfold after_post. rewrite ep_set_ctx, ep_set_ep, bool_decide_false by done. by rewrite ep_set_queue.
    + intros s Hsv Hne. unfold due. cbn [net outs tx mbind list_bind fly app cnt]. rewrite fn_lookup_insert_ne by done.
      unfold from at 1. cbn [f_src]. rewrite bool_decide_false by done. done.
    + intros _ Hbal. unfold after_post. rewrite ep_set_ctx, ep_set_ep_eq. eapply balanced_submit with (k := 2) in Hbal.
      unfold due in *. cbn [net outs tx mbind list_bind fly app cnt]. rewrite fn_lookup_insert. rewrite Htx in Hbal.
      unfold from at 1. cbn [f_src]. rewrite bool_decide_true by done. cbn [b2n]. balance Hbal.
  - apply gdr_amo_inv in H as (y & l & c' & a & Hs & -> & -> & _).
    assert (Hfr : outs w (target_ep q b) !! inr (next_id w) = None).
    { apply eq_None_not_Some. intros [o E]. apply (ci_ops _ Hc) in E as [_ E]. lia. }
    refine (qinv_proc w _ q b _ Hq _ _ _ _); [reflexivity | | |].
    + intros b' Hb'. unfold after_post. rewrite ep_set_ctx, ep_set_ep, bool_decide_false by done. by rewrite ep_set_queue.
    + intros s Hsv Hne. unfold due. cbn [net outs tx mbind list_bind fly app cnt]. rewrite fn_lookup_insert_ne by done.
      unfold from at 1. cbn [f_src]. rewrite bool_decide_false by done. done.
    + intros _ Hbal. unfold after_post. rewrite ep_set_ctx, ep_set_ep_eq. eapply balanced_submit with (k := 2) in Hbal.
      unfold due in *. cbn [net outs tx mbind list_bind fly app cnt]. rewrite fn_lookup_insert, due_insert_size by done.
      unfold from at 1. cbn [f_src]. rewrite bool_decide_true by done. cbn [b2n]. balance Hbal.
  - apply rma_impl_inv in H as (y & l & po & Hs & -> & -> & Hpo).
    destruct Hpo as [(key & len & addr & ->)|(key & len & addr & -> & _)];
      exact (qinv_plain w q b _ _ _ (set_queue _ (procs w q)) _ _ _ _ Hq eq_refl (fun b' => ep_set_queue b' _ _) eq_refl).
  - apply enforce_cst_inv in H as [-> ->].
    exact (qinv_plain w q true _ _ _ (procs w q) _ _ _ _ Hq eq_refl (fun b' => eq_refl) eq_refl).
  - apply (qinv_same w); try done. intros s Hs. unfold due. cbn [net outs tx]. by rewrite Hn, !cnt_app.
  - apply (qinv_same w); try done. intros s Hs. unfold due. cbn [net outs tx]. by rewrite Hn, !cnt_app.
  - apply (qinv_same w); try done.
    + intros s Hs. unfold due. cbn [net outs tx]. by rewrite Hn, !cnt_app.
    + intros p b. cbn [procs]. destruct (decide (pe_of (f_dst f) = p)) as [<-|]; [|by rewrite fn_lookup_insert_ne].
      rewrite fn_lookup_insert. by rewrite ep_set_ctx.
  - rewrite <- (target_ep_eta (f_src f)) in *. set (p := pe_of (f_src f)) in *. set (b := is_proxy_of (f_src f)) in *.
    rewrite target_ep_pe, target_ep_proxy.
    assert (Hsrc : target_ep p b = f_src f) by apply target_ep_eta.
    refine (qinv_proc w _ p b _ Hq _ _ _ _); [reflexivity | | |].
    + intros b' Hb'. unfold count_completion. rewrite ep_set_ep, bool_decide_false by done. done.
    + intros s Hsv Hne. unfold due. cbn [net outs tx]. rewrite Hn, !cnt_app. cbn [cnt].
      unfold from at 4. rewrite bool_decide_false by congruence. done.
    + intros _ Hbal. unfold count_completion. rewrite ep_set_ep_eq.
      eapply (balanced_cntr _ _ (MkEp _ _ _ _ _)) in Hbal; [| reflexivity | reflexivity | reflexivity].
      unfold due in *. cbn [net outs tx]. rewrite Hn, !cnt_app in Hbal. cbn [cnt] in Hbal. rewrite !cnt_app.
      unfold from at 2 in Hbal. rewrite bool_decide_true in Hbal by done. cbn [b2n] in Hbal. balance Hbal.
  - by eapply (qinv_cq w l1 l2 e a pr).
  - apply getNextAmoOps_inv in Hg as (l & sends & _ & _ & ->). apply amo_apply_inv in H as (c' & b & a & v & _ & _ & -> & _).
    apply (qinv_same w); try done. intros p b'. cbn [procs].
    destruct (decide (q = p)) as [<-|]; [|by rewrite fn_lookup_insert_ne]. rewrite fn_lookup_insert, ep_set_mem, ep_set_queue. done.
  - apply amo_respond_inv in H as (y & elems & ret & b & c & c0 & cx & Hel & Hy & Hce & Hcx & Hcb & -> & -> & ->); [|done].
    destruct (ci_rx _ Hc q f r Hrx) as (_ & _ & Hsa & _). rewrite Hsa.
    assert (Hbr : b = rp_ep r).
    { rewrite <- (ho_rx _ _ Hh q f r Hrx). cbn in Hcx. destruct (decide (y = rp_op r)) as [->|].
      - rewrite lookup_insert_eq in Hcx. simplify_eq. symmetry. apply (ho_ctx _ _ Hh q (rp_op r) c0 b Hy). congruence.
      - rewrite lookup_insert_ne in Hcx by done. symmetry. by apply (ho_ctx _ _ Hh q (rp_op r) cx b). }
    subst b. refine (qinv_proc w _ q (rp_ep r) _ Hq _ _ _ _); [reflexivity | | |].
    + intros b' Hb'. rewrite ep_set_ep, bool_decide_false by done. by rewrite ep_set_ctx.
    + intros s Hsv Hne. unfold due. cbn [net outs tx mbind list_bind fly app cnt].
      unfold from at 1. cbn [f_src]. rewrite bool_decide_false by done. done.
    + intros _ Hbal. rewrite ep_set_ep_eq. eapply balanced_submit with (k := 1) in Hbal.
      unfold due in *. cbn [net outs tx mbind list_bind fly app cnt].
      unfold from at 1. cbn [f_src]. rewrite bool_decide_true by done. cbn [b2n]. balance Hbal.
  - apply gdrcopy_amo_ack_inv in H as (y & elems & addr & key & He & -> & ->).
    destruct (ci_rx _ Hc q f r Hrx) as (_ & _ & Hsa & _). rewrite Hsa.
    refine (qinv_proc w _ q (rp_ep r) _ Hq _ _ _ _); [reflexivity | | |].
    + intros b' Hb'. rewrite ep_set_ep, bool_decide_false by done. done.
    + intros s Hsv Hne. unfold due. cbn [net outs tx mbind list_bind fly app cnt].
      unfold from at 1. cbn [f_src]. rewrite bool_decide_false by done. done.
    + intros _ Hbal. rewrite ep_set_ep_eq. eapply balanced_submit with (k := 1) in Hbal.
      unfold due in *. cbn [net outs tx mbind list_bind fly app cnt].
      unfold from at 1. cbn [f_src]. rewrite bool_decide_true by done. cbn [b2n]. balance Hbal.
  - apply gdr_process_amos_ack_turn_inv in H as (l & a1 & v1 & a2 & v2 & _ & ->).
    apply (qinv_same w); try done. intros p b'. cbn [procs].
    destruct (decide (q = p)) as [<-|]; [|by rewrite fn_lookup_insert_ne]. by rewrite fn_lookup_insert, !ep_set_mem, ep_set_queue.
Qed.


(** ** Buffers stay at their endpoint *)

(** The pointers [ep] of the contexts of a process after a step of it. *)
Definition eps_kept (pr pr' : proc) : Prop := forall x c b,
  ctxs pr' !! x = Some c -> c_ep c = Some b -> exists c0, ctxs pr !! x = Some c0 /\ c_ep c0 = Some b.

Lemma eps_kept_set x c0 c pr pr' :
  ctxs pr' = <[x := c]> (ctxs pr) -> ctxs pr !! x = Some c0 -> c_ep c = c_ep c0 -> eps_kept pr pr'.
Proof.
  intros E Hx Hc y cy b. rewrite E, lookup_insert_Some. intros [[<- <-]|[_ Hy]] Hb; [exists c0; by rewrite <- Hc | eauto].
Qed.

Lemma eps_kept_same pr pr' : ctxs pr' = ctxs pr -> eps_kept pr pr'.
Proof. intros E x c b. rewrite E. eauto. Qed.

Lemma home_kept home w w' q pr' :
  home_ok home w -> procs w' = <[q := pr']> (procs w) -> eps_kept (procs w q) pr' ->
  posted w' = posted w -> (forall ea, ea ∈ cq w' -> ea ∈ cq w \/ exists x b, ea.2 = ALocal x b) ->
  (forall p f r, rx w' p = Some (f, r) -> exists r0, rx w p = Some (f, r0) /\ rp_op r0 = rp_op r /\ rp_ep r0 = rp_ep r) ->
  home_ok home w'.
Proof.
  intros [H1 H2 H3 H4] HP Hk Hpo Hcq Hrx. split.
  - rewrite Hpo. done.
  - intros e src x Hin. destruct (Hcq _ Hin) as [|(y & b & [=])]. eauto.
  - intros p x c b. rewrite HP. destruct (decide (q = p)) as [<-|]; [rewrite fn_lookup_insert | rewrite fn_lookup_insert_ne by done; eauto].
    intros Hx Hb. destruct (Hk x c b Hx Hb) as (c0 & ? & ?). eauto.
  - intros p f r Hr. destruct (Hrx p f r Hr) as (r0 & Hr0 & <- & <-). eauto.
Qed.

Lemma process_eps b a pr pr' :
  gdr_process_completion b (entry_of a).1 (entry_of a).2 pr = Ret (0, pr') ->
  forall x c b', ctxs pr' !! x = Some c -> c_ep c = Some b' ->
    (exists c0, ctxs pr !! x = Some c0 /\ c_ep c0 = Some b') \/ (b' = b /\ exists src, a = ARecv src x).
Proof.
  intros H. destruct a as [src imm id|src y|y is_send].
  - destruct (is_ack imm) eqn:Ea.
    + apply process_ack_inv in H as (e' & _ & ->); [|done]. rewrite ctxs_set_ep. eauto.
    + apply process_write_inv in H; [|done]. destruct (match_arrival_cases _ _ _ _ _ _ H) as (-> & _). eauto.
  - apply process_recv_inv in H as (c0 & _ & H). cbv zeta in H.
    assert (Hg : exists c1, c_ep c1 = Some b /\ exists c2, ctxs pr' = <[y := c1]> (<[y := c2]> (ctxs pr))).
    { destruct (c_type c0); [subst pr'; cbn; eexists; split; [|by eexists]; done ..|].
      destruct H as (pr1 & -> & H). destruct (match_arrival_cases _ _ _ _ _ _ H) as (-> & _). cbn.
      eexists; split; [|by eexists]; done. }
    destruct Hg as (c1 & Hc1 & c2 & ->). intros x c b'. rewrite insert_insert_eq, lookup_insert_Some.
    intros [[<- <-]|[_ Hx]] Hb; [right; rewrite Hc1 in Hb; simplify_eq; eauto | left; eauto].
  - apply process_local_inv in H as (z & c1 & c0 & _ & Hy & Hc & ->). intros x c b'. cbn. rewrite lookup_insert_Some.
    intros [[<- <-]|[_ Hx]] Hb; left; [exists c0; by rewrite <- Hc | eauto].
Qed.

Lemma home_cq home w l1 l2 e a pr :
  home_ok home w -> cq w = l1 ++ (e, a) :: l2 ->
  gdr_process_completion (is_proxy_of e) (entry_of a).1 (entry_of a).2 (procs w (pe_of e)) = Ret (0, pr) ->
  home_ok home (after_cq w l1 l2 e a pr).
Proof.
  intros [H1 H2 H3 H4] Hcq H. split; cbn [after_cq procs posted cq rx]; [done | | | done].
  - intros e' src x Hin. apply H2 with src. rewrite Hcq. apply elem_of_app in Hin as [?|?]; apply elem_of_app; [by left|].
    right. by apply elem_of_cons; right.
  - intros p x c b. destruct (decide (pe_of e = p)) as [<-|]; [rewrite fn_lookup_insert | rewrite fn_lookup_insert_ne by done; eauto].
    intros Hx Hb. destruct (process_eps _ _ _ _ H x c b Hx Hb) as [(c0 & ? & ?)|(-> & src & ->)]; [eauto|].
    symmetry. apply (H2 e src x). rewrite Hcq. apply elem_of_app. right. by apply elem_of_cons; left.
Qed.

Ltac home_same q := refine (home_kept _ _ _ q _ _ _ _ _ _ _); [eassumption | reflexivity | | reflexivity | by left | by eauto].

Lemma home_step home w w' : home_ok home w -> step w w' -> home_ok home w'.
Proof.
  intros Hh Hst. destruct Hst as
    [q b pr ? ? H|q b dpe writes op sig n pr ? ? Htx H ?|q b c d rem pr ps ? Htx Hrem H|q b c pr ps ? Htx ? H
    |q b dpe op remote sz pr ps ? ? ? H|q b dpe verb remote bytes pr ps ? ? ? H|q key pr ps ? ? H|l1 l2 f imm range Hn Hb|l1 l2 f Hn Hb
    |l1 l2 f m q1 q2 y c Hn Hb Hp Hcx|l1 l2 f is_send Hn Hb|l1 l2 e a pr Hqq H|q elems y pr1 c n width r pr2 ps f ? Hrx Hg Hcx Hs Hw H Ho
    |q f r r' pr ps ? Hrx Hfe H|q f r pr ps ? Hrx Hfe H|q y c b pr ? Hy Hcx He H].
  - apply put_signal_seq_inv in H as (c & _ & ->). home_same q. apply eps_kept_same. by rewrite ctxs_set_ep.
  - apply put_signal_seq_inv in H as (c & _ & ->). home_same q. apply eps_kept_same. by rewrite ctxs_set_ep.
  - apply put_write_inv in H as (y & l & key & _ & -> & _). home_same q. apply eps_kept_same. unfold after_post. by rewrite ctxs_set_ep.
  - apply gdr_signal_inv in H as (y & l & c' & sg & _ & -> & _ & _ & _ & c0 & Hc0 & Hce). home_same q.
    eapply eps_kept_set; [|exact Hc0 | exact Hce]. unfold after_post. cbn. by rewrite ctxs_set_ep.
  - apply gdr_amo_inv in H as (y & l & c' & a & _ & -> & _ & c0 & Hc0 & Hce). home_same q.
    eapply eps_kept_set; [|exact Hc0 | exact Hce]. unfold after_post. cbn. by rewrite ctxs_set_ep.
  - apply rma_impl_inv in H as (y & l & po & _ & -> & _). home_same q. apply eps_kept_same. unfold after_post. by rewrite ctxs_set_ep.
  - apply enforce_cst_inv in H as [-> _]. home_same q. apply eps_kept_same. by rewrite ctxs_set_ep.
  - destruct Hh as [H1 H2 H3 H4]. split; cbn [procs posted cq rx]; try done. intros e src x Hin. apply H2 with src.
    apply elem_of_app in Hin as [Hin|]; [|done]. destruct imm; [apply list_elem_of_singleton in Hin; done | by apply elem_of_nil in Hin].
  - by destruct Hh.
  - destruct Hh as [H1 H2 H3 H4]. split; cbn [procs posted cq rx]; try done.
    + intros a x Hin. apply H1. rewrite Hp. apply elem_of_app in Hin as [?|?]; apply elem_of_app; [by left | right; by apply elem_of_cons; right].
    + intros e src x [E|Hin]%elem_of_cons; [|by apply H2 with src]. simplify_eq. apply H1. rewrite Hp. apply elem_of_app. right. by apply elem_of_cons; left.
    + intros p x c' b. destruct (decide (pe_of (f_dst f) = p)) as [<-|]; [rewrite fn_lookup_insert | rewrite fn_lookup_insert_ne by done; eauto].
      cbn. rewrite lookup_insert_Some. intros [[<- <-]|[_ Hx]] Hbb; [by destruct m | eauto].
  - refine (home_kept _ _ _ (pe_of (f_src f)) _ _ _ _ _ _ _); [eassumption | reflexivity | | reflexivity | | by eauto].
    + apply eps_kept_same. unfold count_completion. by rewrite ctxs_set_ep.
    + intros ea [->|?]%elem_of_cons; [right; by eexists _, _ | by left].
  - by eapply home_cq.
  - apply getNextAmoOps_inv in Hg as (l & sends & _ & _ & ->). cbn in Hcx.
    apply amo_apply_inv in H as (c' & b & a & v & Hc' & Hb & -> & -> & _). cbn in Hc'.
    destruct Hh as [H1 H2 H3 H4]. pose proof (H3 q y c' b Hc' Hb) as Hhome. split; cbn [procs posted cq rx]; try done.
    + intros a' x [E|Hin]%elem_of_cons; [|by apply H1]. simplify_eq. by rewrite target_ep_proxy, target_ep_pe.
    + intros p x c1 b1. destruct (decide (q = p)) as [<-|]; [rewrite fn_lookup_insert; cbn; eauto | rewrite fn_lookup_insert_ne by done; eauto].
    + intros p f' r'. destruct (decide (q = p)) as [<-|]; [rewrite fn_lookup_insert; intros [= <- <-]; done | rewrite fn_lookup_insert_ne by done; eauto].
  - apply amo_respond_inv in H as (y & elems & ret & b & c & c0 & cx & _ & Hy & Hce & _ & _ & -> & _ & ->); [|done].
    refine (home_kept _ _ _ q _ _ _ _ _ _ _); [eassumption | reflexivity | | reflexivity | by left |].
    + eapply eps_kept_set; [|exact Hy | exact Hce]. by rewrite ctxs_set_ep.
    + cbn [rx]. intros p f' r0. destruct (decide (q = p)) as [<-|]; [rewrite fn_lookup_insert; intros [= <- <-]; by eauto | rewrite fn_lookup_insert_ne by done; eauto].
  - apply gdrcopy_amo_ack_inv in H as (y & elems & addr & key & _ & -> & _).
    refine (home_kept _ _ _ q _ _ _ _ _ _ _); [eassumption | reflexivity | | reflexivity | by left |].
    + apply eps_kept_same. by rewrite ctxs_set_ep.
    + cbn [rx]. intros p f' r0. destruct (decide (q = p)) as [<-|]; [by rewrite fn_lookup_insert | rewrite fn_lookup_insert_ne by done; eauto].
  - apply gdr_process_amos_ack_turn_inv in H as (l & a1 & v1 & a2 & v2 & _ & ->).
    destruct Hh as [H1 H2 H3 H4]. pose proof (H3 q y c b Hcx He) as Hhome. split; cbn [procs posted cq rx]; try done.
    + intros a' x [E|Hin]%elem_of_cons; [|by apply H1]. simplify_eq. by rewrite target_ep_proxy, target_ep_pe.
    + intros p x c1 b1. destruct (decide (q = p)) as [<-|]; [rewrite fn_lookup_insert; cbn; eauto | rewrite fn_lookup_insert_ne by done; eauto].
Qed.

Definition home_of (w : world) (p x : Z) : bool := bool_decide ((target_ep p true, x) ∈ posted w).

Lemma posted_once w p x a a' : initial w -> (a, x) ∈ posted w -> (a', x) ∈ posted w -> pe_of a = p -> pe_of a' = p -> a = a'.
Proof.
  intros Hi Ha Ha' Hp Hp'. pose proof (initial_pcount w p x Hi) as Hc. unfold pcount in Hc.
  apply list_elem_of_split in Ha as (l1 & l2 & E). rewrite E in *. rewrite cnt_app in Hc. cbn [cnt] in Hc.
  assert (Hin : forall a0, pe_of a0 = p -> in_posted p x (a0, x) = true).
  { intros a0 <-. unfold in_posted, isx. cbn. by rewrite !bool_decide_true. }
  rewrite Hin in Hc by done. cbn [b2n] in Hc. apply elem_of_app in Ha' as [H|[H|H]%elem_of_cons]; [|congruence|];
    apply (cnt_in (in_posted p x)) in H; try (by apply Hin); lia.
Qed.

Lemma home_initial w : initial w -> home_ok (home_of w) w.
Proof.
  intros Hi. split.
  - intros a x Hin. unfold home_of. destruct (is_proxy_of a) eqn:E; symmetry.
    + apply bool_decide_true. by rewrite <- E, target_ep_eta.
    + apply bool_decide_false. intros Hin'. assert (a = target_ep (pe_of a) true) as Ea.
      { eapply (posted_once w (pe_of a) x); try done. by rewrite target_ep_pe. }
      rewrite Ea, target_ep_proxy in E. done.
  - intros e src x. rewrite (LibfabricNet.in_cq _ Hi). by intros ?%elem_of_nil.
  - intros p x c b Hx. by rewrite (in_ctxs _ Hi p x c Hx).
  - intros p f r. by rewrite (LibfabricNet.in_rx _ Hi).
Qed.

Lemma qinv_initial w : initial w -> qinv w.
Proof.
  intros Hi s _. unfold balanced, ep_at, due. destruct (in_eps _ Hi (pe_of s) (is_proxy_of s)) as (-> & -> & -> & _).
  rewrite (LibfabricNet.in_net _ Hi), (LibfabricNet.in_outs _ Hi), (LibfabricNet.in_tx _ Hi), map_size_empty. done.
Qed.

Lemma reachable_qinv w : reachable handle_info use_gdrcopy ack_addr ack_key mr_key w -> fits w -> cinv w /\ qinv w.
Proof.
  intros Hr Hf. destruct (fabric_reachable_inv (handle_info := handle_info) (use_gdrcopy := use_gdrcopy) (ack_addr := ack_addr) (ack_key := ack_key) (mr_key := mr_key)
    (fun w => qinv w /\ exists home, home_ok home w)) with (w := w) as (Hc & Hq & _); try done.
  - intros w0 Hi. split; [by apply qinv_initial | exists (home_of w0); by apply home_initial].
  - intros w1 w2 [Hq [home Hh]] Hc Hc' Hst. split; [by eapply qinv_step | exists home; by eapply home_step].
Qed.
End steps.

(** ** What quiet waits for *)
Lemma cnt_none (s : Z) (l : list flight) : cnt (from s) l = 0%nat <-> (forall f, f ∈ l -> f_src f <> s).
Proof.
  split.
  - intros H f Hf E. apply (cnt_in (from s)) in Hf; [lia|]. unfold from. by apply bool_decide_true.
  - intros H. apply cnt_zero. intros f Hf. apply bool_decide_false. by apply H.
Qed.

Lemma u64_eq_self a n : u64 a = u64 (a + n) -> 0 <= n < 2 ^ 64 -> n = 0.
Proof.
  unfold wrap. intros H Hn. assert (E : (a + n - a) mod 2 ^ 64 = 0) by (rewrite Zminus_mod, <- H, Z.sub_diag; done).
  replace (a + n - a) with n in E by lia. rewrite Z.mod_small in E; lia.
Qed.

Lemma quiet_balanced b pr n :
  balanced (ep b pr) n -> 0 <= n < 2 ^ 64 -> quiet_done b pr = true <-> n = 0.
Proof.
  unfold quiet_done, balanced. intros -> Hn. rewrite bool_decide_eq_true. split; [intros E; by apply u64_eq_self in E|].
  intros ->. by rewrite Z.add_0_r.
Qed.

Lemma cnt_le {A} (P : A -> bool) l : (cnt P l <= length l)%nat.
Proof. induction l as [|x l IH]; simpl; [done|]. destruct (P x); simpl; lia. Qed.

(** C4: the loop of quiet ends exactly when nothing is left to wait for: in
    every reachable state in which the endpoint is not in the middle of a call,
    its completions and acknowledgements add up to [submitted_ops] if and only
    if the fabric carries none of its operations and every atomic and signal it
    issued was acknowledged, and then each of them was applied at its target.
    The operations are puts, gets, atomics, put-with-signals and the consistency
    read of [nvshmemt_libfabric_enforce_cst], which is counted too (only the call
    of PE 0 is defined, [enforce_cst_out_of_range]).  It holds where every
    put-with-signal has fewer than 2^16 writes ([fits]) and fewer than 2^64
    operations are outstanding. *)
Theorem quiet_exact hi ug aa ak mk w s :
  reachable hi ug aa ak mk w -> fits w -> valid_ep s -> tx w s = None ->
  Z.of_nat (length (net w)) + Z.of_nat (size (outs w s)) < 2 ^ 64 ->
  (quiet_done (is_proxy_of s) (procs w (pe_of s)) = true <-> (forall f, f ∈ net w -> f_src f <> s) /\ outs w s = ∅) /\
  (quiet_done (is_proxy_of s) (procs w (pe_of s)) = true ->
   forall id d writes, EIssue id s d writes ∈ log w -> EApply id (pe_of d) ∈ log w).
Proof.
  intros Hr Hf Hs Htx Hlt. destruct (reachable_qinv w Hr Hf) as [_ Hq]. destruct (reachable_linv w Hr Hf) as [_ Hl].
  pose proof (Hq s Hs) as Hb. unfold ep_at, due in Hb. rewrite Htx in Hb.
  pose proof (cnt_le (from s) (net w)) as Hle.
  assert (Hiff : quiet_done (is_proxy_of s) (procs w (pe_of s)) = true <-> (forall f, f ∈ net w -> f_src f <> s) /\ outs w s = ∅).
  { rewrite (quiet_balanced _ _ _ Hb) by lia. rewrite <- cnt_none, <- map_size_empty_iff. lia. }
  split; [done|]. intros Hd id d writes Hi. apply Hiff in Hd as [_ Ho].
  destruct (li_done _ Hl _ _ _ _ Hi) as [(t & o & Hto & _)|]; [|done]. by rewrite Ho, lookup_empty in Hto.
Qed.

Definition demo_fits_log : list event := [EApply 0 1; ELand 0 (8192, 64); EIssue 0 1 3 [(8192, 64)]].
Lemma demo_fits l : log (demo_world l) = demo_fits_log \/ log (demo_world l) = ERma 1 1 :: demo_fits_log -> fits (demo_world l).
Proof. unfold fits. intros [-> | ->]; repeat constructor. Qed.

(** Quiet has ended, and does not end while the consistency read is under way. *)
Lemma quiet_exact_witness :
  EApply 0 1 ∈ log (demo_world demo_finished) /\
  ~ ((forall f, f ∈ net (demo_world demo_cst) -> f_src f <> 1) /\ outs (demo_world demo_cst) 1 = ∅) /\
  ((forall f, f ∈ net (demo_world demo_cst_done) -> f_src f <> 1) /\ outs (demo_world demo_cst_done) 1 = ∅).
Proof.
  assert (Hv : valid_ep 1) by (unfold valid_ep; lia).
  assert (Hq : quiet_done true (procs (demo_world demo_finished) 0) = true /\ quiet_done true (procs (demo_world demo_cst) 0) = false /\
    quiet_done true (procs (demo_world demo_cst_done) 0) = true) by (vm_compute; done).
  destruct Hq as (Hq1 & Hq2 & Hq3). split; [|split].
  - refine (proj2 (quiet_exact demo_hi false (fun _ => 0) (fun _ => 0) (fun _ _ => 0) (demo_world demo_finished) 1 _ _ Hv _ _) Hq1 0 3 [(8192, 64)] _).
    + apply demo_reachable. vm_compute. eauto.
    + apply demo_fits. left. vm_compute. reflexivity.
    + vm_compute. reflexivity.
    + vm_compute. reflexivity.
    + apply list_elem_of_In. vm_compute. tauto.
  - intros H. apply (quiet_exact demo_hi false (fun _ => 0) (fun _ => 0) (fun _ _ => 0)) in H;
      [| apply demo_reachable; vm_compute; eauto | apply demo_fits; right; vm_compute; reflexivity | exact Hv
       | vm_compute; reflexivity | vm_compute; reflexivity].
    change (quiet_done true (procs (demo_world demo_cst) 0) = true) in H. rewrite Hq2 in H. discriminate H.
  - apply (quiet_exact demo_hi false (fun _ => 0) (fun _ => 0) (fun _ _ => 0));
      [apply demo_reachable; vm_compute; eauto | apply demo_fits; right; vm_compute; reflexivity | exact Hv
       | vm_compute; reflexivity | vm_compute; reflexivity | exact Hq3].
Defined.

(** C18: the handler handles every completion but that of a consistency read:
    where every put-with-signal has fewer than 2^16 writes ([fits]), in every
    reachable state, any batch of completions of an endpoint without one of a
    read of [nvshmemt_libfabric_enforce_cst], in whatever order the fabric
    reports them, is handled without a failed assertion, without a null or
    dangling context and with status zero.  The excluded completions have a null
    context, through which the handler writes ([null_completion_fails]). *)
Theorem completions_handled hi ug aa ak mk w e l rest :
  reachable hi ug aa ak mk w -> fits w -> cq w ≡ₚ ((fun a => (e, a)) <$> l) ++ rest ->
  Forall (fun a => is_cst a = false) l ->
  exists pr, process_entries (is_proxy_of e) (entry_of <$> l) (procs w (pe_of e)) = Ret (0, pr).
Proof.
  revert w. induction l as [|a l IH]; intros w Hr Hf Hq Hl; [by eexists|]. apply list.Forall_cons in Hl as [Ha Hl].
  destruct (fabric_reachable_inv (handle_info := hi) (use_gdrcopy := ug) (ack_addr := aa) (ack_key := ak) (mr_key := mk)
    ctx_exists) with (w := w) as [Hc Hx]; [apply ctx_exists_initial | intros; by eapply ctx_exists_step | done | done |].
  assert (Hin : (e, a) ∈ cq w) by (rewrite Hq; apply elem_of_cons; by left).
  destruct (completion_total w e a Hc Hx Hin Ha) as [pr Hpr]. apply list_elem_of_split in Hin as (l1 & l2 & Hs).
  destruct (IH (after_cq w l1 l2 e a pr)) as [pr2 Hpr2].
  - destruct Hr as (w0 & Hi & Hst). exists w0. split; [done|]. eapply rtc_r; [exact Hst|]. by eapply step_cq.
  - exact Hf.
  - cbn [cq after_cq]. rewrite Hs in Hq. rewrite <- Permutation_middle in Hq. by apply Permutation.Permutation_cons_inv in Hq.
  - exact Hl.
  - exists pr2. cbn [fmap list_fmap process_entries]. destruct (entry_of a) as [en addr]. cbn [fst snd] in Hpr. rewrite Hpr.
    rewrite outcome_bind_ret, bool_decide_true by done. cbn [procs after_cq] in Hpr2. by rewrite fn_lookup_insert in Hpr2.
Qed.

(** the signal arrived and its write did not *)
Definition demo_early : list action := take 4 demo_applied.

Lemma completions_handled_witness :
  cq (demo_world demo_early) = [(3, ARecv 1 200)] /\
  exists pr, process_entries true (entry_of <$> [ARecv 1 200]) (procs (demo_world demo_early) 1) = Ret (0, pr).
Proof.
  split; [vm_compute; reflexivity|].
  refine (completions_handled demo_hi false (fun _ => 0) (fun _ => 0) (fun _ _ => 0) (demo_world demo_early) 3 [ARecv 1 200] [] _ _ _ _).
  - apply demo_reachable. vm_compute. eauto.
  - unfold fits. replace (log (demo_world demo_early)) with [EIssue 0 1 3 [(8192, 64)]] by (vm_compute; reflexivity). repeat constructor.
  - vm_compute. reflexivity.
  - repeat constructor.
Defined.

(** C19: a sequence number identifies one operation: in every reachable state a
    put-with-signal that asks for a number obtains one that no operation of the
    endpoint waiting for its acknowledgement has, never the number reserved for
    atomics, or is told to wait, and it waits only while an operation with a
    number of the same half of the number space is not acknowledged.  It holds
    where every put-with-signal has fewer than 2^16 writes ([fits]). *)
Theorem sequence_number_fresh hi ug aa ak mk w p b :
  reachable hi ug aa ak mk w -> fits w -> valid_pe p ->
  exists n pr, put_signal_seq b (procs w p) = Ret (n, pr) /\
    ((n = -1 /\ exists m o, outs w (target_ep p b) !! inl m = Some o /\
        get_category m = get_category (sequence_counter (put_signal_seq_counter (ep b pr)))) \/
     (0 <= n < NVSHMEM_STAGED_AMO_SEQ_NUM /\ outs w (target_ep p b) !! inl n = None)).
Proof.
  intros Hr Hf Hp. destruct (reachable_linv w Hr Hf) as [Hc _].
  destruct (next_seq_num_spec _ _ (ci_seq _ Hc (target_ep p b) (target_ep_valid p b Hp))) as (n & c & Hn & Hcase).
  unfold ep_at in Hn. rewrite target_ep_pe, target_ep_proxy in Hn.
  exists n, (set_ep b (set_seq c (ep b (procs w p))) (procs w p)). split; [unfold put_signal_seq; by rewrite Hn|].
  rewrite ep_set_ep_eq. destruct Hcase as [(-> & _ & Hne)|(Hrg & Hnin & _)]; [left | right].
  - split; [done|]. destruct (in_category _ _) as [|m l] eqn:E; [done|].
    assert (Hm : m ∈ in_category (get_category (sequence_counter c)) (seqs_of (outs w (target_ep p b)))) by (rewrite E; by apply elem_of_cons; left).
    apply list_elem_of_filter in Hm as [Hcat Hin]. apply elem_of_seqs_of in Hin as [o Ho]. by exists m, o.
  - split; [done|]. rewrite elem_of_seqs_of in Hnin. by apply eq_None_not_Some.
Qed.

Lemma sequence_number_fresh_witness :
  outs (demo_world demo_applied) 1 !! inl 0 = Some (MkOp 0 3 [(8192, 64)]) /\
  exists n pr, put_signal_seq true (procs (demo_world demo_applied) 0) = Ret (n, pr) /\
    ((n = -1 /\ exists m o, outs (demo_world demo_applied) (target_ep 0 true) !! inl m = Some o /\
        get_category m = get_category (sequence_counter (put_signal_seq_counter (ep true pr)))) \/
     (0 <= n < NVSHMEM_STAGED_AMO_SEQ_NUM /\ outs (demo_world demo_applied) (target_ep 0 true) !! inl n = None)).
Proof.
  split; [vm_compute; reflexivity|].
  refine (sequence_number_fresh demo_hi false (fun _ => 0) (fun _ => 0) (fun _ _ => 0) (demo_world demo_applied) 0 true _ _ _).
  - apply demo_reachable. vm_compute. eauto.
  - unfold fits. replace (log (demo_world demo_applied)) with [EApply 0 1; ELand 0 (8192, 64); EIssue 0 1 3 [(8192, 64)]] by (vm_compute; reflexivity).
    repeat constructor.
  - unfold valid_pe. lia.
Defined.

(** ** Limits of the code *)

(** A put-with-signal of 2^16 writes announces none, so its signal is applied
    when it arrives, whatever the writes do. *)
Lemma signal_count_wraps b src x c sg pr :
  si_num_writes sg = u16 (Z.of_nat (Pos.to_nat (2 ^ 16))) -> ctxs pr !! x = Some c -> c_signal c = sg ->
  proxy_put_signal_comp_map (ep b pr) !! comp_map_key src (si_sequence_count sg) = None ->
  exists pr', put_signal_completion b (entry_of (ARecv src x)).1 (Some src) pr = Ret (0, pr') /\
    q_other_recv (queue pr') = q_other_recv (queue pr) ++ [x].
Proof.
  rewrite positive_nat_Z. change (u16 (Z.pos (2 ^ 16))) with 0. intros Hn Hc <- Hm. unfold put_signal_completion.
  cbn [entry_of fst e_remote_cq_data e_context]. rewrite Hc. cbn [mbind outcome_bind]. rewrite ep_set_ctx, Hm, Hn.
  rewrite bool_decide_true by done. eexists. split; [reflexivity|]. by destruct b.
Qed.

(** The consistency read of every process but the first is counted outside of
    the array of endpoints. *)
Lemma enforce_cst_out_of_range key fi pr : 1 <= my_pe pr -> libfabric_enforce_cst key fi pr = Fail FUndef.
Proof.
  intros Hp. unfold libfabric_enforce_cst. assert (E : target_ep (my_pe pr) true = my_pe pr * 2 + 1) by done. rewrite E.
  rewrite !bool_decide_false; [done | change NVSHMEMT_LIBFABRIC_HOST_EP_IDX with 0; lia | change NVSHMEMT_LIBFABRIC_PROXY_EP_IDX with 1; lia].
Qed.

(** The completion of a consistency read has a null context, and the handler
    writes through it: in the run below the read of PE 0 has completed, and the
    progress call that handles its completion is undefined. *)
Lemma null_completion_fails :
  (1, ALocal None false) ∈ cq (demo_world demo_cst_done) /\
  (forall b is_send pr, gdr_process_completion b (entry_of (ALocal None is_send)).1 (entry_of (ALocal None is_send)).2 pr = Fail FUndef).
Proof. split; [apply list_elem_of_In; vm_compute; tauto|]. intros b [] pr; reflexivity. Qed.
