(* ===== verification/LibfabricAmo.v ===== *)
(** * The libfabric transport: atomics of the fabric

    [nvshmemt_libfabric_amo] (libfabric.cpp), the atomics of providers other than
    EFA, which the fabric performs, and their agreement with the atomics the
    host of the target performs on EFA ([gdr_amo], [perform_gdrcopy_amo]). *)
From stdpp Require Import base gmap list.
From S2P Require Import Prelude ProxyChannel Rma Libfabric LibfabricOps.
Open Scope Z_scope.



Section native.
Context (mr_key : Z -> bool -> Z) (virt_addr : bool).

End native.

(** ** Agreement with the staged atomics *)










