(* ===== verification/LibfabricMem.v ===== *)
(** * The libfabric transport: registered memory

    libfabric.cpp: [nvshmemt_libfabric_get_mem_handle] and
    [nvshmemt_libfabric_release_mem_handle].  Memory is registered with the
    fabric; on EFA the host also records, per granule of the heap, where it can
    reach the memory itself, which the atomics of [LibfabricOps] look up
    (their parameter [handle_info] is [handle_lookup] here).  Answers of CUDA,
    GDRCopy, libfabric and the allocator are inputs ([reg_answers]). *)
From stdpp Require Import base gmap list.
From Stdlib Require Import ZArith Lia.
From S2P Require Import Prelude ProxyChannel Rma TransportCommon Libfabric LibfabricOps.
Import HandleCache.

(** [nvshmemt_libfabric_memhandle_info_t] *)
Record memhandle_info := MkMemInfo { gdr_mapping_size : Z; mi_ptr : Z; mi_cpu_ptr : Z }.

(** [nvshmemt_libfabric_mem_handle_t]: the memory regions of the two endpoints. *)
Record mem_handle := MkHandle { mh_buf : Z; mh_hdls : list Z }.

(** The fields of [nvshmemt_libfabric_state_t] in use; [fs_infos] are the blocks
    of handle information that are allocated, by address, and [fs_open] the
    memory regions that are registered. *)
Record fabric_state := MkFs {
  fs_cache : option info_cache; fs_infos : gmap Z memhandle_info;
  local_mr : list (option Z); local_mem_ptr : Z; fs_open : list Z }.

Definition set_cache (c : option info_cache) (st : fabric_state) : fabric_state :=
  MkFs c (fs_infos st) (local_mr st) (local_mem_ptr st) (fs_open st).
Definition set_infos (m : gmap Z memhandle_info) (st : fabric_state) : fabric_state :=
  MkFs (fs_cache st) m (local_mr st) (local_mem_ptr st) (fs_open st).
Definition set_local (l : list (option Z)) (p : Z) (st : fabric_state) : fabric_state :=
  MkFs (fs_cache st) (fs_infos st) l p (fs_open st).
Definition set_open (l : list Z) (st : fabric_state) : fabric_state :=
  MkFs (fs_cache st) (fs_infos st) (local_mr st) (local_mem_ptr st) l.

(** Answers: whether the buffer has an alias, the status of [cuCtxGetDevice] and
    of [cudaPointerGetAttributes] and the kind of memory; for each registration
    [fi_mr_regattr] (the region, or its status), [fi_mr_bind] and
    [fi_mr_enable]; the new cache, the block of [calloc], GDRCopy's mapping (its
    address and [info.va]), and [realloc] when the entry of an address is added. *)
Record reg_answers := {
  ra_alias : bool; ra_ctx : Z; ra_attr : Z; ra_is_host : bool;
  ra_regattr : nat -> Z + Z; ra_bind : nat -> Z; ra_enable : nat -> Z;
  ra_cache_init : Z; ra_info : option Z; ra_gdr : option (Z * Z); ra_realloc : Z -> bool }.

Section memory.
Context (t : transport) (prov : provider) (use_gdrcopy mr_endpoint : bool).

(** One registration per endpoint, or one for both. *)
Definition register_one (an : reg_answers) (i : nat) (st : fabric_state) : Z * list Z * fabric_state :=
  match ra_regattr an i with
  | inl status => (NVSHMEMX_ERROR_INTERNAL, [], st)
  | inr mr =>
      let st := set_open (mr :: fs_open st) st in
      if negb mr_endpoint then (0, [mr; mr], st)
      else if negb (bool_decide (ra_bind an i = 0)) then (NVSHMEMX_ERROR_INTERNAL, [mr], st)
      else if negb (bool_decide (ra_enable an i = 0)) then (NVSHMEMX_ERROR_INTERNAL, [mr], st)
      else (0, [mr], st)
  end.

Definition register_mrs (an : reg_answers) (st : fabric_state) : Z * list Z * fabric_state :=
  let '(status, mrs, st) := register_one an 0 st in
  if negb (bool_decide (status = 0)) || negb mr_endpoint then (status, mrs, st)
  else let '(status, mrs', st) := register_one an 1 st in (status, mrs ++ mrs', st).

Definition granularity : Z := u64 (Z.shiftl 1 (log2_cumem_granularity t)).

(** The loop that adds the entry of every granule up to [stop]. *)
Fixpoint add_granules (fuel : nat) (an : reg_answers) (info curr_ptr stop : Z) (c : info_cache)
  : outcome (Z * info_cache) :=
  match fuel with
  | O => Fail FSpin
  | S fuel =>
      let '(status, c) := nvshmemt_mem_handle_cache_add (ra_realloc an curr_ptr) t c curr_ptr (Some info) in
      if negb (bool_decide (status = 0)) then Ret (status, c)
      else
        let curr_ptr := curr_ptr + granularity in
        if bool_decide (curr_ptr < stop) then add_granules fuel an info curr_ptr stop c else Ret (0, c)
  end.

(** The loop that removes them; its status is not used. *)
Fixpoint remove_granules (fuel : nat) (curr_ptr stop : Z) (c : info_cache) : outcome info_cache :=
  match fuel with
  | O => Fail FSpin
  | S fuel =>
      let '(_, c) := nvshmemt_mem_handle_cache_remove t c curr_ptr in
      let curr_ptr := curr_ptr + granularity in
      if bool_decide (curr_ptr < stop) then remove_granules fuel curr_ptr stop c else Ret c
  end.

Definition loop_fuel (length : Z) : nat := S (Z.to_nat (length / granularity)).

(** The label [out] with an error and the block of handle information. *)
Definition reg_cleanup (status info buf : Z) (c : info_cache) (st : fabric_state) : Z * fabric_state :=
  if negb (bool_decide (status = 0))
  then (status, set_infos (delete info (fs_infos st))
                  (set_cache (Some (nvshmemt_mem_handle_cache_remove t c buf).2) st))
  else (0, set_cache (Some c) st).

(** The part of [get_mem_handle] for EFA: handle information for every granule;
    the entries of GPU memory are added twice. *)
Definition register_info (an : reg_answers) (buf length : Z) (st : fabric_state) : outcome (Z * fabric_state) :=
  match (match fs_cache st with
         | Some c => (0, Some c)
         | None => if bool_decide (ra_cache_init an = 0) then (0, Some (nvshmemt_mem_handle_cache_init t))
                   else (ra_cache_init an, None)
         end) with
  | (status, None) => Ret (status, st)
  | (_, Some c) =>
      let st := set_cache (Some c) st in
      match ra_info an with
      | None => Ret (NVSHMEMX_ERROR_OUT_OF_MEMORY, st)
      | Some info =>
          let stop := buf + length in
          '(status, c, st) ←
            (if ra_is_host an
             then Ret (0, c, set_infos (<[info := MkMemInfo 0 buf buf]> (fs_infos st)) st)
             else if use_gdrcopy then
               match ra_gdr an with
               | None => Ret (NVSHMEMX_ERROR_INTERNAL, c, set_infos (<[info := MkMemInfo 0 0 0]> (fs_infos st)) st)
               | Some (cpu_ptr_base, va) =>
                   let st := set_infos (<[info := MkMemInfo length buf (cpu_ptr_base + (buf - va))]> (fs_infos st)) st in
                   '(status, c) ← add_granules (loop_fuel length) an info buf stop c;
                   Ret (status, c, st)
               end
             else Ret (NVSHMEMX_ERROR_INVALID_VALUE, c, set_infos (<[info := MkMemInfo 0 0 0]> (fs_infos st)) st));
          if negb (bool_decide (status = 0)) then Ret (reg_cleanup status info buf c st)
          else
            '(status, c) ← add_granules (loop_fuel length) an info buf stop c;
            Ret (reg_cleanup status info buf c st)
      end
  end.

(** [nvshmemt_libfabric_get_mem_handle] *)
Definition get_mem_handle (an : reg_answers) (buf length : Z) (local_only : bool) (st : fabric_state)
  : outcome (Z * option mem_handle * fabric_state) :=
  if ra_alias an then Ret (NVSHMEMX_ERROR_INTERNAL, None, st)
  else if negb (bool_decide (ra_ctx an = 0)) then Ret (NVSHMEMX_ERROR_INTERNAL, None, st)
  else if negb (bool_decide (ra_attr an = 0)) then Ret (NVSHMEMX_ERROR_INTERNAL, None, st)
  else
    let '(status, mrs, st) := register_mrs an st in
    if negb (bool_decide (status = 0)) then Ret (status, None, st)
    else
      '(status, st) ← (if negb local_only && bool_decide (prov = PROVIDER_EFA)
                       then register_info an buf length st else Ret (0, st));
      if negb (bool_decide (status = 0)) then Ret (status, None, st)
      else
        let h := MkHandle buf mrs in
        match local_mr st !! 0%nat with
        | Some None => Ret (0, Some h, if local_only then st else set_local (Some <$> mrs) buf st)
        | _ => Ret (0, Some h, st)
        end.

(** The loop over the registrations of a handle: the first one, or both. *)
Fixpoint close_mrs (i : nat) (mrs : list Z) (st : fabric_state) : fabric_state :=
  match mrs with
  | [] => st
  | mr :: mrs =>
      let st := if bool_decide (local_mr st !! i = Some (Some mr))
                then set_local (<[i := None]> (local_mr st)) (local_mem_ptr st) st else st in
      close_mrs (S i) mrs (set_open (list_difference (fs_open st) [mr]) st)
  end.

(** [nvshmemt_libfabric_release_mem_handle]; [unmap] and [unpin] are the status
    of GDRCopy.  The block of handle information is not freed. *)
Definition release_mem_handle (unmap unpin : Z) (h : mem_handle) (st : fabric_state) : outcome (Z * fabric_state) :=
  '(status, st) ←
    (if bool_decide (prov = PROVIDER_EFA) then
       match fs_cache st with
       | None => if bool_decide (mh_buf h < heap_base t) then Ret (0, st) else Fail FUndef
       | Some c =>
           match nvshmemt_mem_handle_cache_get t c (mh_buf h) with
           | None => Ret (0, st)
           | Some p =>
               match fs_infos st !! p with
               | None => Fail FUndef
               | Some info =>
                   if use_gdrcopy && bool_decide (0 < gdr_mapping_size info) && negb (bool_decide (unmap = 0) && bool_decide (unpin = 0))
                   then Ret (NVSHMEMX_ERROR_INTERNAL, st)
                   else
                     c ← remove_granules (loop_fuel (gdr_mapping_size info)) (mi_ptr info) (mi_ptr info + gdr_mapping_size info) c;
                     Ret (0, set_cache (Some c) st)
               end
           end
       end
     else Ret (0, st));
  if negb (bool_decide (status = 0)) then Ret (status, st)
  else Ret (0, close_mrs 0 (if mr_endpoint then mh_hdls h else take 1 (mh_hdls h)) st).

(** What the atomics of a target look up: [cpu_ptr] and [ptr]. *)
Definition handle_lookup (st : fabric_state) (addr : Z) : option (Z * Z) :=
  c ← fs_cache st; p ← nvshmemt_mem_handle_cache_get t c addr; i ← fs_infos st !! p; Some (mi_cpu_ptr i, mi_ptr i).
End memory.

(** ** The loops over granules *)
Lemma granularity_pow t : 0 <= log2_cumem_granularity t < 64 -> granularity t = 2 ^ log2_cumem_granularity t.
Proof.
  intros H. unfold granularity. rewrite Z.shiftl_mul_pow2, Z.mul_1_l by lia. apply wrap_small. unfold in_u.
  pose proof (pow2_pos (log2_cumem_granularity t) ltac:(lia)). pose proof (Z.pow_le_mono_r 2 (log2_cumem_granularity t) 63). lia.
Qed.

(** The granules the loops visit: that of [curr], and those that start before [stop]. *)
Definition covered (t : transport) (curr stop g : Z) : Prop :=
  granule t curr <= g /\ (g = granule t curr \/ heap_base t + g * 2 ^ log2_cumem_granularity t < stop).
#[export] Instance covered_dec t curr stop g : Decision (covered t curr stop g).
Proof. unfold covered. apply _. Defined.

(** The start of a granule of the heap. *)
Record aligned (t : transport) (a : Z) : Prop := {
  al_base : heap_base t <= a; al_mod : (a - heap_base t) mod 2 ^ log2_cumem_granularity t = 0 }.

Lemma aligned_next t a : 0 <= log2_cumem_granularity t < 64 -> aligned t a ->
  aligned t (a + granularity t) /\ granule t (a + granularity t) = granule t a + 1.
Proof.
  intros Hk [Hb Hm]. rewrite granularity_pow by done. set (G := 2 ^ log2_cumem_granularity t) in *.
  assert (0 < G) by (apply pow2_pos; lia). unfold granule. fold G.
  replace (a + G - heap_base t) with (a - heap_base t + 1 * G) by lia. split; [split|].
  - lia.
  - fold G. replace (a + G - heap_base t) with (a - heap_base t + 1 * G) by lia. by rewrite Z.mod_add by lia.
  - rewrite Z.div_add by lia. lia.
Qed.

Lemma aligned_granule t a : 0 <= log2_cumem_granularity t -> aligned t a ->
  a = heap_base t + granule t a * 2 ^ log2_cumem_granularity t /\ 0 <= granule t a.
Proof.
  intros Hk [Hb Hm]. unfold granule. pose proof (pow2_pos (log2_cumem_granularity t) Hk). split.
  - pose proof (Z.div_mod (a - heap_base t) (2 ^ log2_cumem_granularity t)). lia.
  - apply Z.div_pos; lia.
Qed.

Lemma covered_step t curr stop g : 0 <= log2_cumem_granularity t < 64 -> aligned t curr -> curr + granularity t < stop ->
  covered t curr stop g <-> g = granule t curr \/ covered t (curr + granularity t) stop g.
Proof.
  intros Hk Ha Hlt. destruct (aligned_next t curr Hk Ha) as [Ha' Hg]. destruct (aligned_granule t _ (proj1 Hk) Ha') as [E _].
  destruct (aligned_granule t _ (proj1 Hk) Ha) as [E0 _]. unfold covered. rewrite Hg in *.
  pose proof (pow2_pos (log2_cumem_granularity t) (proj1 Hk)). split.
  - intros [H1 H2]. destruct (decide (g = granule t curr)) as [|Hne]; [by left|]. right. split; [lia|]. right. destruct H2; [done|lia].
  - intros [->|[H1 H2]]; [split; [lia|by left]|]. split; [lia|]. right. destruct H2 as [->|]; lia.
Qed.

Lemma covered_last t curr stop g : 0 <= log2_cumem_granularity t < 64 -> aligned t curr -> stop <= curr + granularity t ->
  covered t curr stop g <-> g = granule t curr.
Proof.
  intros Hk Ha Hle. destruct (aligned_granule t _ (proj1 Hk) Ha) as [E _]. rewrite granularity_pow in Hle by done. unfold covered.
  pose proof (pow2_pos (log2_cumem_granularity t) (proj1 Hk)). split; [|intros ->; split; [lia|by left]].
  intros [H1 [H2|H2]]; [done|]. destruct (decide (g = granule t curr)); [done|]. nia.
Qed.

Lemma add_total t c addr info : cache_ok t c -> aligned t addr ->
  exists c', nvshmemt_mem_handle_cache_add true t c addr info = (NVSHMEMX_SUCCESS, c').
Proof.
  intros [H1 H2 _ _] [Ha Hm]. unfold nvshmemt_mem_handle_cache_add. rewrite H2.
  rewrite bool_decide_eq_false_2 by lia. rewrite (bool_decide_eq_false_2 (_ <> 0)) by lia. case_bool_decide; eauto.
Qed.

Lemma remove_inv t c addr : cache_ok t c -> aligned t addr ->
  cache_ok t (nvshmemt_mem_handle_cache_remove t c addr).2 /\
  (forall g, 0 <= g -> entry (nvshmemt_mem_handle_cache_remove t c addr).2 g = if bool_decide (g = granule t addr) then None else entry c g).
Proof.
  intros [H1 H2 H3 H4] Hal. destruct (aligned_granule t addr (proj1 H1) Hal) as [_ Hg]. destruct Hal as [Ha Hm].
  unfold nvshmemt_mem_handle_cache_remove. rewrite H2.
  rewrite bool_decide_eq_false_2 by lia. rewrite (bool_decide_eq_false_2 (_ <> 0)) by lia. fold (granule t addr).
  unfold size in *. case_bool_decide as Ci; cbn [snd].
  - split; [by split|]. intros g Hg0. case_bool_decide as E; [|done]. subst g. unfold entry. rewrite lookup_ge_None_2; [done|lia].
  - split; [split; cbn; auto; unfold size; cbn; by rewrite length_insert|]. intros g Hg0. unfold entry. cbn.
    case_bool_decide as E; [subst g; rewrite list_lookup_insert_eq by lia; done | by rewrite list_lookup_insert_ne by lia].
Qed.

Lemma add_granules_spec t an info stop fuel curr c :
  cache_ok t c -> aligned t curr -> (forall a, ra_realloc an a = true) ->
  (1 <= fuel)%nat -> stop - curr < Z.of_nat fuel * granularity t ->
  exists c', add_granules t fuel an info curr stop c = Ret (0, c') /\ cache_ok t c' /\
    forall g, 0 <= g -> entry c' g = if decide (covered t curr stop g) then Some info else entry c g.
Proof.
  intros Hc Ha Hok. pose proof (co_log _ _ Hc) as Hk. revert curr c Hc Ha. induction fuel as [|fuel IH]; [lia|].
  intros curr c Hc Ha _ Hf. rewrite Nat2Z.inj_succ, Z.mul_succ_l in Hf. cbn [add_granules]. rewrite Hok.
  destruct (add_total t c curr (Some info) Hc Ha) as [c1 E1]. rewrite E1.
  destruct (add_inv _ _ _ _ _ _ Hc E1) as (_ & Hc1 & He1). change (bool_decide (NVSHMEMX_SUCCESS = 0)) with true. cbn [negb].
  case_bool_decide as Hlt.
  - destruct (aligned_next t curr Hk Ha) as [Ha' Hg].
    destruct (IH (curr + granularity t) c1 Hc1 Ha') as (c' & E' & Hc' & He'); [destruct fuel; lia | lia |]. exists c'. split; [done|]. split; [done|].
    intros g Hg0. rewrite (He' g Hg0), (He1 g Hg0). pose proof (covered_step t curr stop g Hk Ha Hlt).
    repeat case_decide; repeat case_bool_decide; tauto.
  - exists c1. split; [done|]. split; [done|]. intros g Hg0. rewrite (He1 g Hg0).
    pose proof (covered_last t curr stop g Hk Ha ltac:(lia)). repeat case_decide; repeat case_bool_decide; tauto.
Qed.

Lemma remove_granules_spec t stop fuel curr c :
  cache_ok t c -> aligned t curr -> (1 <= fuel)%nat -> stop - curr < Z.of_nat fuel * granularity t ->
  exists c', remove_granules t fuel curr stop c = Ret c' /\ cache_ok t c' /\
    forall g, 0 <= g -> entry c' g = if decide (covered t curr stop g) then None else entry c g.
Proof.
  intros Hc Ha. pose proof (co_log _ _ Hc) as Hk. revert curr c Hc Ha. induction fuel as [|fuel IH]; [lia|].
  intros curr c Hc Ha _ Hf. rewrite Nat2Z.inj_succ, Z.mul_succ_l in Hf. cbn [remove_granules]. destruct (remove_inv t c curr Hc Ha) as [Hc1 He1].
  destruct (nvshmemt_mem_handle_cache_remove t c curr) as [s c1]. cbn [snd] in *. case_bool_decide as Hlt.
  - destruct (aligned_next t curr Hk Ha) as [Ha' Hg].
    destruct (IH (curr + granularity t) c1 Hc1 Ha') as (c' & E' & Hc' & He'); [destruct fuel; lia | lia |]. exists c'. split; [done|]. split; [done|].
    intros g Hg0. rewrite (He' g Hg0), (He1 g Hg0). pose proof (covered_step t curr stop g Hk Ha Hlt).
    repeat case_decide; repeat case_bool_decide; tauto.
  - exists c1. split; [done|]. split; [done|]. intros g Hg0. rewrite (He1 g Hg0).
    pose proof (covered_last t curr stop g Hk Ha ltac:(lia)). repeat case_decide; repeat case_bool_decide; tauto.
Qed.

Lemma loop_fuel_enough t len : 0 <= log2_cumem_granularity t < 64 -> (1 <= loop_fuel t len)%nat /\ (0 <= len -> len < Z.of_nat (loop_fuel t len) * granularity t).
Proof.
  intros Hk. unfold loop_fuel. split; [lia|]. intros Hl. rewrite granularity_pow by done.
  pose proof (pow2_pos (log2_cumem_granularity t) (proj1 Hk)) as HG. set (G := 2 ^ log2_cumem_granularity t) in *.
  pose proof (Z.div_pos len G Hl HG). pose proof (Z.mod_pos_bound len G HG). pose proof (Z.div_mod len G ltac:(lia)).
  rewrite Nat2Z.inj_succ, Z2Nat.id by done. nia.
Qed.

(** ** Registration *)

(** Every call succeeds. *)
Record all_ok (use_gdrcopy : bool) (an : reg_answers) : Prop := {
  ok_alias : ra_alias an = false; ok_ctx : ra_ctx an = 0; ok_attr : ra_attr an = 0;
  ok_reg : forall i, exists mr, ra_regattr an i = inr mr; ok_bind : forall i, ra_bind an i = 0; ok_enable : forall i, ra_enable an i = 0;
  ok_init : ra_cache_init an = 0; ok_realloc : forall a, ra_realloc an a = true;
  ok_gdr : ra_is_host an = true \/ (use_gdrcopy = true /\ ra_gdr an <> None) }.

Definition cache_fit (t : transport) (st : fabric_state) : Prop :=
  0 <= log2_cumem_granularity t < 64 /\ forall c, fs_cache st = Some c -> cache_ok t c.
Definition entry_of_state (st : fabric_state) (g : Z) : option Z := c ← fs_cache st; entry c g.

(** The handle information of a buffer. *)
Definition info_of (an : reg_answers) (buf len : Z) : memhandle_info :=
  match ra_is_host an, ra_gdr an with
  | false, Some (cpu_ptr_base, va) => MkMemInfo len buf (cpu_ptr_base + (buf - va))
  | _, _ => MkMemInfo 0 buf buf
  end.

Lemma entry_init t g : entry (nvshmemt_mem_handle_cache_init t) g = None.
Proof.
  unfold entry. cbn [cache nvshmemt_mem_handle_cache_init]. destruct (_ !! _) as [x|] eqn:E; [|done].
  by apply lookup_replicate in E as [-> _].
Qed.

Lemma register_info_spec t use_gdrcopy an buf len st info :
  all_ok use_gdrcopy an -> ra_info an = Some info -> cache_fit t st -> aligned t buf -> 0 <= len ->
  exists c, register_info t use_gdrcopy an buf len st =
      Ret (0, MkFs (Some c) (<[info := info_of an buf len]> (fs_infos st)) (local_mr st) (local_mem_ptr st) (fs_open st)) /\
    cache_ok t c /\
    forall g, 0 <= g -> entry c g = if decide (covered t buf (buf + len) g) then Some info else entry_of_state st g.
Proof.
  intros Hok Hi [Hk Hcs] Ha Hl. destruct (loop_fuel_enough t len Hk) as [Hf1 Hf2]. specialize (Hf2 Hl).
  assert (Hadd : forall c, cache_ok t c -> exists c', add_granules t (loop_fuel t len) an info buf (buf + len) c = Ret (0, c') /\
    cache_ok t c' /\ forall g, 0 <= g -> entry c' g = if decide (covered t buf (buf + len) g) then Some info else entry c g).
  { intros c Hc. apply add_granules_spec; try done; [apply (ok_realloc _ _ Hok) | lia]. }
  assert (exists c0, (match fs_cache st with Some c => (0, Some c)
     | None => if bool_decide (ra_cache_init an = 0) then (0, Some (nvshmemt_mem_handle_cache_init t)) else (ra_cache_init an, None) end) = (0, Some c0)
     /\ cache_ok t c0 /\ forall g, entry c0 g = entry_of_state st g) as (c0 & E0 & Hc0 & He0).
  { unfold entry_of_state. destruct (fs_cache st) as [c|] eqn:E.
    - exists c. split; [done|]. split; [by apply Hcs | done].
    - rewrite (ok_init _ _ Hok), bool_decide_true by done. eexists. split; [done|]. split; [by apply init_ok | apply entry_init]. }
  unfold register_info. rewrite E0, Hi. destruct (Hadd c0 Hc0) as (c1 & E1 & Hc1 & He1).
  unfold info_of. destruct (ra_is_host an) eqn:Eh.
  - rewrite outcome_bind_ret, (bool_decide_true (0 = 0)) by done. cbn [negb]. rewrite E1, outcome_bind_ret.
    unfold reg_cleanup. rewrite (bool_decide_true (0 = 0)) by done. cbn [negb]. exists c1. split; [done|]. split; [done|].
    intros g Hg. rewrite (He1 g Hg), He0. done.
  - destruct (ok_gdr _ _ Hok) as [|[-> Hg]]; [congruence|]. destruct (ra_gdr an) as [[base va]|]; [|done].
    rewrite E1, !outcome_bind_ret, (bool_decide_true (0 = 0)) by done. cbn [negb].
    destruct (Hadd c1 Hc1) as (c2 & E2 & Hc2 & He2). rewrite E2, outcome_bind_ret.
    unfold reg_cleanup. rewrite (bool_decide_true (0 = 0)) by done. cbn [negb]. exists c2. split; [done|]. split; [done|].
    intros g Hg0. rewrite (He2 g Hg0), (He1 g Hg0), He0. repeat case_decide; done.
Qed.

Lemma register_mrs_ok mr_endpoint ug an st : all_ok ug an ->
  exists mr0 mr1 l, register_mrs mr_endpoint an st = (0, [mr0; mr1], set_open (l ++ fs_open st) st) /\
    l = (if mr_endpoint then [mr1; mr0] else [mr0]) /\ (mr_endpoint = false -> mr1 = mr0) /\ ra_regattr an 0 = inr mr0 /\ (mr_endpoint = true -> ra_regattr an 1 = inr mr1).
Proof.
  intros Hok. destruct (ok_reg _ _ Hok 0) as [mr0 E0], (ok_reg _ _ Hok 1) as [mr1 E1]. unfold register_mrs, register_one.
  rewrite E0. destruct mr_endpoint; cbn [negb].
  - rewrite !(ok_bind _ _ Hok), !(ok_enable _ _ Hok), !(bool_decide_true (0 = 0)) by done. cbn [negb orb].
    rewrite (bool_decide_true (0 = 0)) by done. cbn [negb orb].
    rewrite E1. exists mr0, mr1. exists [mr1; mr0]. split; [reflexivity|]. done.
  - rewrite (bool_decide_true (0 = 0)) by done. cbn. exists mr0, mr0. exists [mr0]. split; [reflexivity|]. done.
Qed.

Lemma get_mem_handle_spec t ug mr_endpoint an buf len st info :
  all_ok ug an -> ra_info an = Some info -> cache_fit t st -> aligned t buf -> 0 <= len ->
  exists mr0 mr1 c lmr lp opn,
    get_mem_handle t PROVIDER_EFA ug mr_endpoint an buf len false st =
      Ret (0, Some (MkHandle buf [mr0; mr1]), MkFs (Some c) (<[info := info_of an buf len]> (fs_infos st)) lmr lp opn) /\
    opn = (if mr_endpoint then [mr1; mr0] else [mr0]) ++ fs_open st /\ (mr_endpoint = false -> mr1 = mr0) /\
    ra_regattr an 0 = inr mr0 /\ (mr_endpoint = true -> ra_regattr an 1 = inr mr1) /\ cache_ok t c /\
    forall g, 0 <= g -> entry c g = if decide (covered t buf (buf + len) g) then Some info else entry_of_state st g.
Proof.
  intros Hok Hi Hc Ha Hl. unfold get_mem_handle.
  rewrite (ok_alias _ _ Hok), (ok_ctx _ _ Hok), (ok_attr _ _ Hok), !(bool_decide_true (0 = 0)) by done. cbn [negb].
  destruct (register_mrs_ok mr_endpoint ug an st Hok) as (mr0 & mr1 & l & -> & -> & Hmr & Hr0 & Hr1).
  rewrite (bool_decide_true (0 = 0)), (bool_decide_true (PROVIDER_EFA = _)) by done. cbn [negb andb].
  destruct (register_info_spec t ug an buf len (set_open ((if mr_endpoint then [mr1; mr0] else [mr0]) ++ fs_open st) st) info Hok Hi Hc Ha Hl)
    as (c & -> & Hck & He).
  rewrite outcome_bind_ret, (bool_decide_true (0 = 0)) by done. cbn [negb local_mr set_open].
  exists mr0, mr1, c. destruct (local_mr st !! 0%nat) as [[m|]|]; do 3 eexists; (split; [reflexivity|]); by split_and!.
Qed.

(** An address of a buffer is in a granule the loops visit. *)
Lemma covered_buffer t buf len x : 0 <= log2_cumem_granularity t < 64 -> aligned t buf -> buf <= x < buf + len ->
  covered t buf (buf + len) (granule t x).
Proof.
  intros Hk Ha Hx. pose proof (pow2_pos (log2_cumem_granularity t) (proj1 Hk)) as HG. unfold covered. split.
  - apply Z.div_le_mono; lia.
  - right. unfold granule. pose proof (Z.mul_div_le (x - heap_base t) _ HG). lia.
Qed.

(** Where the host reaches a word of the buffer: at its address, or in the mapping
    of GDRCopy. *)
Definition host_addr (an : reg_answers) (x : Z) : Z :=
  match ra_is_host an, ra_gdr an with
  | false, Some (cpu_ptr_base, va) => cpu_ptr_base + (x - va)
  | _, _ => x
  end.

(** Registering a buffer of the heap makes it reachable for atomics: when
    every call it makes succeeds, [get_mem_handle] returns a handle, for every
    address of the buffer the lookup of the atomics finds handle information
    with which they compute the address through which the host reaches that
    word, and for the other granules the cache answers as before. *)
Theorem registered_memory_found t ug mr_endpoint an buf len st info :
  all_ok ug an -> ra_info an = Some info -> cache_fit t st -> aligned t buf -> 0 <= len -> buf + len <= 2 ^ 64 -> 0 <= heap_base t ->
  exists h st', get_mem_handle t PROVIDER_EFA ug mr_endpoint an buf len false st = Ret (0, Some h, st') /\
    (forall x, buf <= x < buf + len ->
       exists hi, handle_lookup t st' x = Some hi /\ amo_ptr ug hi x = host_addr an x) /\
    (forall g, 0 <= g -> ~ covered t buf (buf + len) g -> entry_of_state st' g = entry_of_state st g).
Proof.
  intros Hok Hi Hc Ha Hl Hb Hb0. destruct (get_mem_handle_spec t ug mr_endpoint an buf len st info Hok Hi Hc Ha Hl)
    as (mr0 & mr1 & c & lmr & lp & opn & -> & _ & _ & _ & _ & Hck & He).
  do 2 eexists. split; [reflexivity|]. split.
  - intros x Hx. destruct Ha as [Hab Ham]. unfold handle_lookup. cbn [fs_cache fs_infos mbind option_bind].
    rewrite get_entry by (done || lia).
    assert (0 <= granule t x) by (apply Z.div_pos; [lia | apply pow2_pos; apply Hc]).
    rewrite He by done. rewrite decide_True by (apply covered_buffer; [apply Hc | done | done]).
    cbn [mbind option_bind]. rewrite lookup_insert_eq. cbn [mbind option_bind]. eexists. split; [reflexivity|].
    unfold amo_ptr, host_addr, info_of. destruct (ok_gdr _ _ Hok) as [->|[-> Hg]]; [destruct ug; cbn; lia|].
    destruct (ra_is_host an); [cbn; lia|]. destruct (ra_gdr an) as [[base va]|]; [cbn; lia | done].
  - intros g Hg Hn. cbn. rewrite He by done. by rewrite decide_False.
Qed.

Lemma difference_head (l : list Z) m : list_difference (m :: l) [m] = list_difference l [m].
Proof. cbn. destruct (decide_rel _ _ _) as [|n]; [done|]. exfalso. apply n, elem_of_cons. by left. Qed.
Lemma difference_other (l : list Z) x m : x <> m -> list_difference (x :: l) [m] = x :: list_difference l [m].
Proof. intros Hx. cbn. destruct (decide_rel _ _ _) as [[?|?%elem_of_nil]%elem_of_cons|]; done. Qed.
Lemma difference_fresh (l : list Z) m : m ∉ l -> list_difference l [m] = l.
Proof.
  induction l as [|x l IH]; [done|]. intros Hm. apply not_elem_of_cons in Hm as [Hx Hl].
  rewrite difference_other by done. by rewrite IH.
Qed.

Lemma close_mrs_open i mrs st :
  fs_open (close_mrs i mrs st) = foldl (fun l m => list_difference l [m]) (fs_open st) mrs /\
  fs_cache (close_mrs i mrs st) = fs_cache st /\ fs_infos (close_mrs i mrs st) = fs_infos st.
Proof.
  revert i st. induction mrs as [|m mrs IH]; intros i st; [done|]. cbn [close_mrs foldl].
  destruct (IH (S i) (set_open (list_difference (fs_open (if bool_decide (local_mr st !! i = Some (Some m))
                then set_local (<[i:=None]> (local_mr st)) (local_mem_ptr st) st else st)) [m])
     (if bool_decide (local_mr st !! i = Some (Some m)) then set_local (<[i:=None]> (local_mr st)) (local_mem_ptr st) st else st)))
    as (-> & -> & ->). by case_bool_decide.
Qed.

(** Release undoes the registration of GPU memory: after [get_mem_handle] and
    [release_mem_handle] of the handle it returned, no granule of the buffer has
    an entry, the others have the entry they had, and the memory regions
    registered are those registered before. *)
Theorem register_release t mr_endpoint an buf len st info h st' :
  all_ok true an -> ra_is_host an = false -> ra_info an = Some info -> cache_fit t st -> aligned t buf -> 0 <= len ->
  buf - heap_base t < 2 ^ 64 ->
  (forall i mr, ra_regattr an i = inr mr -> mr ∉ fs_open st) -> ra_regattr an 0 <> ra_regattr an 1 ->
  get_mem_handle t PROVIDER_EFA true mr_endpoint an buf len false st = Ret (0, Some h, st') ->
  exists st2, release_mem_handle t PROVIDER_EFA true mr_endpoint 0 0 h st' = Ret (0, st2) /\ fs_open st2 = fs_open st /\
    forall g, 0 <= g -> entry_of_state st2 g = if decide (covered t buf (buf + len) g) then None else entry_of_state st g.
Proof.
  intros Hok Hh Hi Hc Ha Hl Hb Hfr Hne Hg.
  destruct (get_mem_handle_spec t true mr_endpoint an buf len st info Hok Hi Hc Ha Hl)
    as (mr0 & mr1 & c & lmr & lp & opn & E & Hop & Hmr & Hr0 & Hr1 & Hck & He). rewrite E in Hg. simplify_eq. clear E.
  unfold release_mem_handle. rewrite (bool_decide_true (PROVIDER_EFA = _)) by done. cbn [mh_buf mh_hdls fs_cache fs_infos].
  pose proof Ha as [Hab _]. destruct Hc as [Hk _]. destruct (aligned_granule t buf (proj1 Hk) Ha) as [_ Hg0].
  rewrite get_entry by (done || lia). rewrite He by done.
  rewrite decide_True by (split; [lia | by left]). rewrite lookup_insert_eq.
  rewrite !(bool_decide_true (0 = 0)) by done. cbn [andb negb]. rewrite andb_false_r.
  unfold info_of. rewrite Hh. destruct (ra_gdr an) as [[base va]|] eqn:Egdr; [|destruct (ok_gdr _ _ Hok) as [|[_ ?]]; congruence].
  cbn [gdr_mapping_size mi_ptr]. destruct (loop_fuel_enough t len Hk) as [Hf1 Hf2].
  destruct (remove_granules_spec t (buf + len) (loop_fuel t len) buf c Hck Ha Hf1 ltac:(lia)) as (c2 & -> & Hc2 & He2).
  rewrite !outcome_bind_ret, (bool_decide_true (0 = 0)) by done. cbn [negb]. eexists. split; [reflexivity|].
  match goal with |- context [close_mrs 0 ?l ?s] => destruct (close_mrs_open 0 l s) as (Hcl & Hcc & _) end. split.
  - rewrite Hcl. cbn [set_cache fs_open]. pose proof (Hfr 0%nat mr0 Hr0) as Hf0. destruct mr_endpoint; cbn [foldl take app].
    + assert (mr1 <> mr0) by (intros ->; apply Hne; rewrite Hr0, Hr1; done).
      rewrite difference_other, (difference_head _ mr0), (difference_fresh (fs_open st) mr0) by done.
      rewrite difference_head. apply difference_fresh. eauto.
    + rewrite difference_head. by apply difference_fresh.
  - intros g Hgg. unfold entry_of_state at 1. rewrite Hcc. cbn [set_cache fs_cache mbind option_bind].
    rewrite (He2 g Hgg), (He g Hgg). repeat case_decide; done.
Qed.

(** ** Runs, and where the code falls short *)
Definition mem_demo_t : transport := {| heap_base := 4096; log2_cumem_granularity := 9 |}.
Definition mem_demo_an (is_host : bool) (fail_at : option Z) : reg_answers :=
  {| ra_alias := false; ra_ctx := 0; ra_attr := 0; ra_is_host := is_host; ra_regattr := fun i => inr (50 + Z.of_nat i);
     ra_bind := fun _ => 0; ra_enable := fun _ => 0; ra_cache_init := 0; ra_info := Some 77;
     ra_gdr := Some (1048576, 4096); ra_realloc := fun a => match fail_at with Some b => negb (bool_decide (a = b)) | None => true end |}.
Definition mem_demo_st : fabric_state := MkFs None ∅ [None; None] 0 [].

Lemma mem_demo_ok is_host : all_ok true (mem_demo_an is_host None).
Proof. split; try done; [by eexists | destruct is_host; [by left | by right]]. Qed.
Lemma mem_demo_fit : cache_fit mem_demo_t mem_demo_st.
Proof. split; [cbn; lia | done]. Qed.
Lemma mem_demo_aligned n : 0 <= n -> aligned mem_demo_t (4096 + n * 512).
Proof. intros Hn. split; cbn; [lia|]. replace (4096 + n * 512 - 4096) with (n * 512) by lia. by apply Z.mod_mul. Qed.

Lemma registered_memory_found_witness :
  exists h st', get_mem_handle mem_demo_t PROVIDER_EFA true true (mem_demo_an false None) (4096 + 1 * 512) 1000 false mem_demo_st = Ret (0, Some h, st') /\
    (forall x, 4096 + 1 * 512 <= x < 4096 + 1 * 512 + 1000 ->
       exists hi, handle_lookup mem_demo_t st' x = Some hi /\ amo_ptr true hi x = 1048576 + (x - 4096)) /\
    (forall g, 0 <= g -> ~ covered mem_demo_t (4096 + 1 * 512) (4096 + 1 * 512 + 1000) g -> entry_of_state st' g = entry_of_state mem_demo_st g).
Proof.
  exact (registered_memory_found mem_demo_t true true (mem_demo_an false None) (4096 + 1 * 512) 1000 mem_demo_st 77
    (mem_demo_ok false) eq_refl mem_demo_fit (mem_demo_aligned 1 ltac:(lia)) ltac:(lia) ltac:(lia) ltac:(cbn; lia)).
Defined.

Definition mem_demo_registered (is_host : bool) (buf len : Z) : fabric_state :=
  match get_mem_handle mem_demo_t PROVIDER_EFA true true (mem_demo_an is_host None) buf len false mem_demo_st with
  | Ret (_, _, st) => st
  | Fail _ => mem_demo_st
  end.

Lemma register_release_witness :
  exists st2, release_mem_handle mem_demo_t PROVIDER_EFA true true 0 0 (MkHandle 4608 [50; 51]) (mem_demo_registered false 4608 1000) = Ret (0, st2) /\
    fs_open st2 = [] /\
    forall g, 0 <= g -> entry_of_state st2 g = if decide (covered mem_demo_t 4608 (4608 + 1000) g) then None else entry_of_state mem_demo_st g.
Proof.
  refine (register_release mem_demo_t true (mem_demo_an false None) 4608 1000 mem_demo_st 77 (MkHandle 4608 [50; 51])
    (mem_demo_registered false 4608 1000) (mem_demo_ok false) eq_refl eq_refl mem_demo_fit _ _ _ _ _ _).
  - exact (mem_demo_aligned 1 ltac:(lia)).
  - lia.
  - cbn; lia.
  - intros i mr _ H. by apply elem_of_nil in H.
  - cbn. discriminate.
  - vm_compute. reflexivity.
Defined.

(** Host memory has a mapping size of zero, so release removes the entry of its
    first granule only: the second granule of this buffer still has one. *)
Lemma host_release_leaves_entries :
  match release_mem_handle mem_demo_t PROVIDER_EFA true true 0 0 (MkHandle 4608 [50; 51]) (mem_demo_registered true 4608 1000) with
  | Ret (0, st2) => entry_of_state st2 1 = None /\ entry_of_state st2 2 = Some 77
  | _ => False
  end.
Proof. vm_compute. split; reflexivity. Qed.

(** When the cache cannot grow for the third granule, the error path removes the
    entry of the first, frees the handle information, and the entry of the
    second points to the freed block. *)
Lemma failed_registration_dangles :
  match get_mem_handle mem_demo_t PROVIDER_EFA true true (mem_demo_an false (Some (4096 + 1000 * 512))) (4096 + 998 * 512) 1536 false mem_demo_st with
  | Ret (status, None, st') => status = NVSHMEMX_ERROR_OUT_OF_MEMORY /\ entry_of_state st' 999 = Some 77 /\ fs_infos st' !! 77 = None
  | _ => False
  end.
Proof. vm_compute. split; [|split]; reflexivity. Qed.
